(* ===== verification/_CoqProject ===== *)
-Q . S2P
Prelude.v
Common.v
Str.v
Token.v
Ast.v
Parse.v
ParseSpec.v
Decimal.v
Region.v
Abi.v
Vm.v
VmSpec.v
VmSafe.v
Lower.v
Sha256.v
Fips.v
Linbc1.v
Encode.v
Receipt.v
Sys.v
Memtable.v
Merkle.v
Wal.v
Store.v
Recover.v
StoreSpec.v
StoreProps.v
C0Lex.v
C0Comp.v
C0Build.v
C0Lang.v
C0Sound.v
C0SoundStmt.v
C0SoundFlow.v
C0LexSpec.v
C0Code.v
C0BuildSpec.v
C0Sem.v
C0Refine.v
C0Correct.v
C0Scan.v
C0Check.v
C0Lint.v
C0ScanSpec.v
C0CheckSpec.v
C0TypeSpec.v
C0LintSpec.v
C0LintClean.v
Lay.v
LaySpec.v
LayImage.v
Linp.v
LinpSpec.v
LinpOut.v
Cli.v
CliReceipt.v
CliSpec.v
CliCheck.v
CliReceiptRead.v
CliReceiptSpec.v
CLang.v
Jit.v
JitProg.v
JitSim.v
JitFun.v
JitEmit.v
JitBuild.v
JitSpec.v
Gpu.v
GpuProg.v
GpuSim.v
GpuSpec.v
Main.v
MainSpec.v
ReceiptMain.v
Settle.v
SettleSpec.v
Batch.v
BatchSpec.v
