(* ===== verification/Prelude.v ===== *)
(** * LIN C11 toolchain: a verification library

    LIN is a small deterministic language.  Its C11 engine
    (src/transpile/c/) parses expressions, evaluates them, lowers them to
    bytecode and runs the bytecode on a bounded virtual machine, so that every
    result can be compared with the other engines of the project; modules travel
    as LINBC1 images that end with their own SHA-256, and committed data lives in
    a key-value store with a write-ahead log and Merkle checkpoints.  This library
    translates that code into executable Rocq definitions and proves what makes
    each part correct.

    ** Files

    - [Prelude]: results of fallible C functions ([res]), machine integers as
      [Z] with their wrap-around written out, bytes as [Z] in [0,256), buffers
      as lists, little-endian encodings, bounded array access, the shared
      tactics ([inv_match], [to_prop], [int_lia]).
    - [Common]: lin_c/lin_common.h: error codes, wrapping operators, limits.
    - [Str]: lin_c/lin_str.c.  [Token]: lin_c/lin_token.c.
    - [Ast]: lin_c/lin_ast.c; [expr], [repr] and [eval_expr] are the trees the
      arena stands for and their meaning.
    - [Parse]: lin_c/lin_parse.c.  [ParseSpec]: the grammar ([derives]) and the
      proof that the parser decides it.
    - [Decimal]: the decimal text of integers, as lin_str_of_i64, printf and
      strtoll write and read it.
    - [Region], [Abi]: lin_c/lin_region.c, lin_c/lin_abi.c.
    - [Vm]: the machine of lin_c/lin_vm.c ([vm_step] is one turn of the switch,
      [vm_loop] the while loop, [vm_exec_ctx] a call).  [VmSpec]: termination.
      [VmSafe]: absence of undefined behaviour.
    - [Lower]: lower_emit and lower_arena of lin_c/lin_vm.c, and compiler
      correctness.
    - [Sha256]: lin_c/lin_sha256.c and the interface [StreamHash] with its laws
      [StreamHashLaws], through which every client uses the hash.  [Fips]: the
      compression function against the text of FIPS 180-4.
    - [Linbc1]: the image loader, lin_c/lin_linbc1.c.  [Encode]: the image
      encoder, c0_image_encode of tool/lin_c0_front.c.
    - [Receipt]: tool/lin_c_receipt.c, the pipeline from text to receipt.
    - [Sys]: the allocator and the operating system as an [Env] of answers, and
      the state-and-error monad [M] with its triples.
    - [Memtable], [Merkle], [Wal], [Store]: store_c0/store_c0.c: the sorted
      table, the Merkle root, the frame format, and the operations of the store
      over a file system in which any call may fail.  [Recover]: what recovery
      leaves of an arbitrary file.  [StoreSpec]: the invariant of an open store
      and what each operation does to it.  [StoreProps]: the reachable stores,
      their refinement of the abstract store, durability.
    - [C0Lex], [C0Comp], [C0Build]: tool/lin_c0_front.c, the compiler of the
      statement language C0 from text to a module: arena, headers and tokens
      (c0_parse_fn_infos, c0_tokenize); the one-pass compiler of expressions and
      statements with its sticky rejections (c0_expr, c0_stmt); eligibility,
      dependency resolution and c0_build.  [C0Lang]: the grammar of C0 as
      derivations of syntax trees, scopes, and the code of a tree.  [C0Sound],
      [C0SoundStmt], [C0SoundFlow]: the compiler accepts trees of that grammar
      only and emits their code.  [C0LexSpec]: the lexical grammar.  [C0Code]:
      sizes and operands of code.  [C0BuildSpec]: what c0_build makes of a text.
      [C0Sem]: an interpreter of trees with its step count.  [C0Refine],
      [C0Correct]: the machine runs compiled code to that meaning.
    - [C0Scan], [C0Check], [C0Lint]: tool/lin_c0_check.c: the growing text buffer
      and the scanners; the syntax test, the type check and its record; the
      diagnostics of lint.  [C0ScanSpec]: what a buffer holds.  [C0CheckSpec]:
      nesting of braces.  [C0TypeSpec]: clashes of types.  [C0LintSpec],
      [C0LintClean]: what lint reports, and what silence means.
    - [Lay]: lint_c0/lint_c0.c, the layout compiler: lines, nodes, string table,
      image.  [LaySpec]: the tree of a text.  [LayImage]: a reader of images.
    - [Linp]: linp_c0/linp_c0.c, packing jobs: plan, payload, disks, manifests,
      receipt.  [LinpSpec]: plans and bytecode.  [LinpOut]: disks and files.
    - [Cli], [CliReceipt]: tool/lin_c0.c: the commands of the host, each a
      function from arguments and files to what it prints, its status and what it
      writes.  [CliSpec]: files, and the three routes to a result.  [CliCheck]: the
      check command.  [CliReceiptRead], [CliReceiptSpec]: receipts read back, and
      what a root binds.
    - [CLang]: the fragment of C11 the JIT emits: values and conversions, an
      interpreter in which undefined behaviour is an outcome, tokens.  [Jit]:
      tool/lin_c0_jit.c and the three jit commands; libtcc is the record [Tcc].
      [JitProg]: the emitted program as syntax, and that the text spells it.
      [JitSim]: C states that hold a frame, and instructions in lock step.
      [JitFun]: modules that fit, the prologue, whole runs.  [JitEmit]: the text is
      emitted in full.  [JitBuild]: the modules of a text fit.  [JitSpec]: the
      commands, and where C and the machine part.
    - [Gpu]: tool/lin_c0_gpu.c, kernels of OpenCL C for functions of one parameter;
      the OpenCL library is the record [OpenCl].  [GpuProg]: the kernel as syntax,
      its work items in C11 of [CLang], and that the text spells it.  [GpuSim]:
      straight code in lock step with a work item.  [GpuSpec]: kernels and
      gpu-verify, and where kernels and the machine part.
    - [Main]: main of tool/lin_c0.c, and tool/lin_bc1_run.c.  [MainSpec]: the hosts
      against each other.  [ReceiptMain]: main of tool/lin_c_receipt.c.
    - [Settle]: examples/defi_settlement_proof/merkle_512_settler.c: swaps of
      256-bit amounts on limbs of 16 bits, and the Merkle tree of a batch.
      [SettleSpec]: the value of limbs, the loops against arithmetic, what a root
      binds.  [Batch]: audit_v2/verify_batch_c.c of the same example, the auditor of
      a batch.  [BatchSpec]: batches as texts, and what the auditor accepts.

    ** How the parts interact

    Receipt calls Parse (which calls Token and Ast), Ast's evaluator, Lower, Vm
    and Sha256, in that order.  Vm calls Abi, and Abi Region.  Encode writes what
    Linbc1 reads, and the module Linbc1 returns is run by Vm.  C0Build calls C0Comp
    on the headers and tokens of C0Lex; its modules go to Vm and to Encode.  The
    type check reads the headers of C0Lex, and lint the text.  The commands of Cli
    read a file, call these parts in the order of the program and print; an image
    is C0Build, then Encode, then Linbc1, then Vm.  CliReceipt calls Parse, Lower,
    Vm and Sha256.  Jit prints a module of C0Build as C11, has it compiled, and
    compares it with Vm; Gpu does the same with OpenCL C, one function at a
    time.  Main dispatches to the commands of Cli, CliReceipt, Jit and Gpu, and runs
    images of its own through Linbc1 and Vm, and so does Batch, which hashes with
    Sha256 as Settle does.  Store calls Memtable and Merkle, and both Merkle and Wal
    hash through [StreamHash].

    ** What the theorems show

    - The front half decides its grammar ([ParseSpec.parse_full_correct]), the
      evaluator computes exact integer arithmetic wrapped to 64 bits
      ([Ast.ast_arena_eval_correct]) and lowered code computes the same
      ([Lower.lower_arena_correct]); hence a receipt cannot contradict itself
      ([Receipt.receipt_consistent]) and its root commits to the execution
      ([Receipt.receipt_binding]); the tool ends on every command line
      ([ReceiptMain.receipt_main_correct]).
    - A text compiled by c0_build runs on the machine to the result, the error and
      the step count of its source-level meaning ([C0Correct.c0_build_meaning]);
      what is accepted is exactly described ([C0BuildSpec.c0_build_correct],
      [C0BuildSpec.c0_resolve_deps_greatest], [C0LexSpec.c0_tokenize_lexes]) and
      well formed for the loader ([C0BuildSpec.c0_build_loadable]).
    - The checker decides nesting ([C0CheckSpec.c0_syntax_valid_correct]) and
      reports exactly the clashes of types ([C0TypeSpec.c0_type_check_correct]),
      lint exactly its diagnostics ([C0LintClean.c0_lint_correct],
      [C0LintClean.c0_lint_clean]); a failed allocation can silence the checker
      ([C0TypeSpec.type_check_fails_open]).
    - The machine ends within its step budget ([VmSpec.vm_exec_ctx_terminates])
      and, on modules without a function of no parameters, never leaves its
      arrays ([VmSafe.vm_exec_ctx_safe]); that restriction is needed
      ([VmSafe.vm_call_overflow], [Encode.loaded_image_overflows]).
    - Images round-trip ([Encode.c0_image_roundtrip]), are valid when accepted
      ([Linbc1.lin_bc1_load_valid]) and self-delimiting.
    - A command prints the meaning of its text, whichever route runs it
      ([CliSpec.cmd_vm_meaning], [CliSpec.image_route_meaning],
      [CliSpec.roundtrip_consensus]), and both hosts print the same
      ([MainSpec.hosts_agree]); the image runner accepts nothing it has not loaded
      ([MainSpec.bc1_run_fails_closed]); check prints its record of well-typed texts
      only ([CliCheck.cmd_check_correct]); what receipt create prints receipt
      verify passes ([CliReceiptSpec.receipt_create_verifies]), and a root binds
      the claim but proves no computation ([CliReceiptSpec.receipt_verify_binds]).
    - The JIT is a correct compiler to C11 for the modules that fit it
      ([JitSpec.jit_text_correct]): every module of a text whose shifts are by
      constants below 64 and whose names stay apart ([JitBuild.built_fits]); so its
      round trip with the machine finds consensus ([JitSpec.roundtrip_jit_consensus]);
      five lemmas of [JitSpec] show
      what does not fit, from division by zero to names that collide.
    - A kernel of a function without jumps computes what the machine computes, in
      whatever order its work items run ([GpuSpec.gpu_kernel_correct]), and
      gpu-verify confirms it on an OpenCL that meets its standard
      ([GpuSpec.gpu_verify_confirms]); the last lemmas of [GpuSpec] show what goes
      wrong otherwise: jumps are dropped, errors ignored, buffers overrun.
    - A layout text becomes an image that reads back to the tree of its lines
      ([LayImage.lay_compile_correct]); a plan is read exactly
      ([LinpSpec.parse_plan_correct]) and its disks reassemble
      ([LinpOut.disks_reassemble], [LinpOut.linp_main_outcome]).
    - The hash is SHA-256 ([Fips.transform_fips], [Sha256.lin_sha256_incremental]).
    - The store refines its abstract state under every failure of the allocator
      or of the system ([StoreProps.store_refines]), survives a crash at any point
      ([StoreProps.store_durability]), gets its commits through once calls stop
      failing ([StoreProps.store_progress]) and reads any file
      ([StoreProps.store_open_recovers]); three theorems exhibit the calls after
      which it does not keep its contract.
    - A settlement of 512 bits is exact and never overflows its quotient
      ([SettleSpec.settle_exact]); the root of a batch binds what its leaves hold
      ([SettleSpec.settlement_root_binds]), which is not the whole of a swap
      ([SettleSpec.leaf_ignores_reserves], [SettleSpec.root_odd_duplicate],
      [SettleSpec.root_leaf_is_node]).
    - The auditor accepts exactly the batches that are valid and whose records the
      machine confirms ([BatchSpec.audit_accepts]), and a committed root binds its
      batch ([BatchSpec.audit_root_binds]), but not the image that is run
      ([BatchSpec.audit_ignores_image_hash]); blocks sealed as the format says are
      valid ([BatchSpec.seal_block_ok]), and an accepted proof is of the leaf its bits
      name ([BatchSpec.proof_sound]).

    ** Conventions

    A C function that can fail returns [Ok] or [Err]; where C leaves a behaviour
    undefined (an access out of an array, a freed buffer) the model has an
    outcome of its own ([VUB], [V_ub], [None], [Stuck]) and theorems say when it
    cannot happen.  Recursion that is not structural takes a fuel argument: the
    parser six units a byte plus three, the tree evaluator and the lowering the
    256 nodes of the arena, the machine two per step plus two, recovery one per
    byte of the log, the scanners of C0 one per byte of their text plus one, the
    C0 compiler one per token plus one, the interpreter of C0 trees the step limit
    plus two, the interpreter of emitted C one more than the machine; in
    each case a theorem proves the bound enough.  Pointers
    to borrowed storage are the storage; the two places where aliasing matters,
    region storage and the staged operations of the store, are explicit (the
    cells a region owns, and whether a staged buffer has been freed).

    ** What is not modelled
    libtcc and the OpenCL library themselves, which the theorems take as a compiler
    that does what C says and a device that does what OpenCL C says, and the times
    they print; the usage texts of the layout compiler and the packer; the
    release of memory; the Zig compiler sources, tests, fixtures, and the
    examples other than the two settlement programs above, which are benchmarks and
    demonstrations around them.
    File names, directories and process creation are not modelled: a store
    directory is the contents of its files, and a command reads its files through
    a function from names to contents. *)

From stdpp Require Export base tactics numbers list option.
From Stdlib Require Export Lia.

Declare Scope lin_scope.
Delimit Scope lin_scope with lin.
Create HintDb lin discriminated.
#[export] Hint Constants Opaque : lin.

#[global] Open Scope Z_scope.

(** ** Results of fallible C functions

    A C function returning an error code and writing its value through an out
    pointer is a function returning [Ok value] or [Err code]. *)

Inductive res (E A : Type) : Type :=
| Ok (a : A)
| Err (e : E).
Arguments Ok {E A} a.
Arguments Err {E A} e.

Notation "'let*' x ':=' m 'in' k" :=
  (match m with Ok x => k | Err e => Err e end)
  (at level 10, x pattern, m at level 100, k at level 200) : lin_scope.
#[global] Open Scope lin_scope.

Definition is_ok {E A} (r : res E A) : bool :=
  match r with Ok _ => true | Err _ => false end.

(** Every step of the proofs below that opens a computation does it with these
    two tactics: [inv_match] destructs the first scrutinee of a hypothesis or of
    the goal, [crush_match] does so until nothing is left to destruct. *)
Ltac inv_match :=
  match goal with
  | H : context [match ?x with _ => _ end] |- _ =>
      lazymatch type of H with
      | _ = _ => destruct x eqn:?
      | _ => fail
      end
  | |- context [match ?x with _ => _ end] => destruct x eqn:?
  end; simplify_eq/=.

Ltac inv_in H :=
  repeat (match type of H with
          | context [match ?x with _ => _ end] => destruct x eqn:?
          end; try discriminate H; simplify_eq/=).

Ltac crush_match := repeat (inv_match; try discriminate; try congruence).

(** Membership in a table written out. *)
Ltac member := apply list_elem_of_In; simpl; auto 12.

(** Turn boolean tests of the code into propositions. *)
Ltac to_prop :=
  repeat match goal with
  | H : (_ && _)%bool = true |- _ => apply andb_true_iff in H; destruct H
  | H : (_ || _)%bool = false |- _ => apply orb_false_iff in H; destruct H
  | H : (_ && _)%bool = false |- _ => apply andb_false_iff in H
  | H : (_ || _)%bool = true |- _ => apply orb_true_iff in H
  | H : negb _ = true |- _ => apply negb_true_iff in H
  | H : negb _ = false |- _ => apply negb_false_iff in H
  | H : (_ =? _)%Z = true |- _ => apply Z.eqb_eq in H
  | H : (_ =? _)%Z = false |- _ => apply Z.eqb_neq in H
  | H : (_ <? _)%Z = true |- _ => apply Z.ltb_lt in H
  | H : (_ <? _)%Z = false |- _ => apply Z.ltb_ge in H
  | H : (_ <=? _)%Z = true |- _ => apply Z.leb_le in H
  | H : (_ <=? _)%Z = false |- _ => apply Z.leb_gt in H
  | H : (_ >? _)%Z = _ |- _ => rewrite Z.gtb_ltb in H
  | H : (_ >=? _)%Z = _ |- _ => rewrite Z.geb_leb in H
  | H : (_ =? _)%nat = true |- _ => apply Nat.eqb_eq in H
  | H : (_ =? _)%nat = false |- _ => apply Nat.eqb_neq in H
  | H : (_ <? _)%nat = true |- _ => apply Nat.ltb_lt in H
  | H : (_ <? _)%nat = false |- _ => apply Nat.ltb_ge in H
  | H : (_ <=? _)%nat = true |- _ => apply Nat.leb_le in H
  | H : (_ <=? _)%nat = false |- _ => apply Nat.leb_gt in H
  | H : bool_decide _ = true |- _ => apply bool_decide_eq_true in H
  | H : bool_decide _ = false |- _ => apply bool_decide_eq_false in H
  end.

(** ** Machine integers

    A [w]-bit unsigned integer is the residue in [0, 2^w); [int64_t] is the
    two's complement reading in [-2^63, 2^63).  The values 2^k are written out
    so that [lia] reads them. *)

Definition two8 : Z := 256.
Definition two16 : Z := 65536.
Definition two32 : Z := 4294967296.
Definition two63 : Z := 9223372036854775808.
Definition two64 : Z := 18446744073709551616.
Definition INT64_MIN : Z := -9223372036854775808.
Definition INT64_MAX : Z := 9223372036854775807.

Definition u8 (z : Z) : Z := z mod two8.
Definition u16 (z : Z) : Z := z mod two16.
Definition u32 (z : Z) : Z := z mod two32.
Definition u64 (z : Z) : Z := z mod two64.
Definition i64 (z : Z) : Z := (z + two63) mod two64 - two63.

Definition in_u8 (z : Z) : Prop := 0 <= z < two8.
Definition in_u32 (z : Z) : Prop := 0 <= z < two32.
Definition in_u64 (z : Z) : Prop := 0 <= z < two64.
Definition in_i64 (z : Z) : Prop := - two63 <= z < two63.

Ltac unfold_ints :=
  unfold u8, u16, u32, u64, i64, in_u8, in_u32, in_u64, in_i64,
    INT64_MIN, INT64_MAX, two8, two16, two32, two63, two64 in *.

(** [lia] on goals with the conversions: the moduli are constants, so each
    [mod] is replaced by its quotient equation. *)
Ltac int_lia := unfold_ints; Z.div_mod_to_equations; lia.

Lemma u8_range z : in_u8 (u8 z).
Proof. int_lia. Qed.
Lemma u32_range z : in_u32 (u32 z).
Proof. int_lia. Qed.
Lemma u64_range z : in_u64 (u64 z).
Proof. int_lia. Qed.
Lemma i64_range z : in_i64 (i64 z).
Proof. int_lia. Qed.
Lemma u8_id z : in_u8 z -> u8 z = z.
Proof. int_lia. Qed.
Lemma u32_id z : in_u32 z -> u32 z = z.
Proof. int_lia. Qed.
Lemma u64_id z : in_u64 z -> u64 z = z.
Proof. int_lia. Qed.
Lemma i64_id z : in_i64 z -> i64 z = z.
Proof. int_lia. Qed.
Lemma i64_u64 z : i64 (u64 z) = i64 z.
Proof.
  unfold i64, u64. rewrite (Z.add_mod (z mod two64)), Z.mod_mod, <- Z.add_mod;
    unfold two64; lia.
Qed.
Lemma u64_i64 z : u64 (i64 z) = u64 z.
Proof. int_lia. Qed.

#[export] Hint Resolve u8_range u32_range u64_range i64_range : lin.

(** ** Bytes and byte strings

    A byte is a [Z] in [0, 256); a C buffer or string (without its NUL) is a
    list of them. *)

Definition bytes_wf (l : list Z) : Prop := Forall in_u8 l.

Lemma bytes_wf_app l k : bytes_wf (l ++ k) <-> bytes_wf l /\ bytes_wf k.
Proof. apply Forall_app. Qed.
Lemma bytes_wf_take n l : bytes_wf l -> bytes_wf (take n l).
Proof. apply Forall_take. Qed.
Lemma bytes_wf_drop n l : bytes_wf l -> bytes_wf (drop n l).
Proof. apply Forall_drop. Qed.
#[export] Hint Resolve bytes_wf_take bytes_wf_drop : lin.

(** The executable test, for concrete bytes. *)
Definition bytes_wfb (l : list Z) : bool := forallb (fun b => (0 <=? b) && (b <? 256)) l.

Lemma bytes_wfb_wf l : bytes_wfb l = true -> bytes_wf l.
Proof.
  intros H. apply Forall_forall. intros b Hb. apply List.forallb_forall with (x := b) in H; [|done].
  apply andb_true_iff in H as [H1%Z.leb_le H2%Z.ltb_lt]. split; done.
Qed.

Definition bytes_eqb (a b : list Z) : bool := bool_decide (a = b).

Lemma bytes_eqb_eq a b : bytes_eqb a b = true <-> a = b.
Proof. apply bool_decide_eq_true. Qed.
Lemma bytes_eqb_neq a b : bytes_eqb a b = false <-> a <> b.
Proof. apply bool_decide_eq_false. Qed.
Lemma bytes_eqb_refl a : bytes_eqb a a = true.
Proof. by apply bytes_eqb_eq. Qed.

(** [buf[off .. off+n)] *)
Definition slice (off n : nat) (l : list Z) : list Z := take n (drop off l).

Lemma length_slice off n l : (off + n <= length l)%nat -> length (slice off n l) = n.
Proof. intros. unfold slice. rewrite length_take, length_drop. lia. Qed.

Lemma slice_app_mid a b c n m :
  length a = n -> length b = m -> slice n m (a ++ b ++ c) = b.
Proof.
  intros <- <-. unfold slice. by rewrite drop_app_length, take_app_length.
Qed.

(** ** Little- and big-endian encodings

    [le_bytes n z] is the [n]-byte little-endian image of [z], [le_val] its
    inverse.  The C code builds both with shifts and masks; [lor_shiftl_add]
    turns its disjoint [|] into [+]. *)

Fixpoint le_bytes (n : nat) (z : Z) : list Z :=
  match n with
  | O => []
  | S n => z mod 256 :: le_bytes n (z / 256)
  end.

Fixpoint le_val (l : list Z) : Z :=
  match l with
  | [] => 0
  | b :: l => b + 256 * le_val l
  end.

Lemma length_le_bytes n z : length (le_bytes n z) = n.
Proof. revert z. induction n; intros; simpl; [done|]. by rewrite IHn. Qed.

Lemma le_bytes_wf n z : bytes_wf (le_bytes n z).
Proof.
  revert z. induction n; intros z; simpl; constructor; [|apply IHn].
  unfold in_u8, two8. apply Z.mod_pos_bound. lia.
Qed.
#[export] Hint Resolve le_bytes_wf : lin.

Lemma le_val_bytes n z : le_val (le_bytes n z) = z mod 256 ^ Z.of_nat n.
Proof.
  revert z. induction n as [|n IH]; intros z; simpl le_bytes; simpl le_val.
  - change (256 ^ Z.of_nat 0) with 1. by rewrite Z.mod_1_r.
  - rewrite IH, Nat2Z.inj_succ, Z.pow_succ_r by lia.
    rewrite Z.rem_mul_r by lia. lia.
Qed.

Lemma le_val_range l : bytes_wf l -> 0 <= le_val l < 256 ^ Z.of_nat (length l).
Proof.
  induction 1 as [|b l Hb Hl IH]; [simpl; lia|].
  simpl length. rewrite Nat2Z.inj_succ, Z.pow_succ_r by lia.
  unfold in_u8, two8 in Hb. simpl le_val. lia.
Qed.

Lemma le_bytes_val l n : bytes_wf l -> length l = n -> le_bytes n (le_val l) = l.
Proof.
  intros Hl <-. induction Hl as [|b l Hb Hl IH]; [done|].
  unfold in_u8, two8 in Hb. simpl.
  rewrite (Z.mul_comm 256), Z.div_add, Z.div_small by lia.
  rewrite Z.mod_add, Z.mod_small, Z.add_0_l by lia. by rewrite IH.
Qed.

Lemma le_bytes_inj n a b :
  0 <= a < 256 ^ Z.of_nat n -> 0 <= b < 256 ^ Z.of_nat n ->
  le_bytes n a = le_bytes n b -> a = b.
Proof.
  intros Ha Hb H. apply (f_equal le_val) in H.
  rewrite !le_val_bytes, !Z.mod_small in H by done. done.
Qed.

Lemma lor_shiftl_add a b n :
  0 <= n -> 0 <= a < 2 ^ n -> 0 <= b -> Z.lor a (Z.shiftl b n) = a + b * 2 ^ n.
Proof.
  intros Hn Ha Hb. rewrite <- Z.add_lor_land, <- Z.shiftl_mul_pow2 by done.
  assert (Z.land a (Z.shiftl b n) = 0) as ->; [|lia].
  apply Z.bits_inj'. intros i Hi. rewrite Z.land_spec, Z.bits_0.
  destruct (Z.lt_ge_cases i n).
  - rewrite Z.shiftl_spec_low by done. apply andb_false_r.
  - assert (Z.testbit a i = false) as ->; [|done].
    destruct (Z.eq_dec a 0) as [->|]; [apply Z.bits_0|].
    apply Z.bits_above_log2; [lia|].
    apply Z.log2_lt_pow2; [lia|]. apply Z.lt_le_trans with (2 ^ n); [lia|].
    apply Z.pow_le_mono_r; lia.
Qed.

Lemma land_255 z : Z.land z 255 = z mod 256.
Proof. change 255 with (Z.ones 8). by rewrite Z.land_ones by lia. Qed.

Lemma shiftr_8 z k : 0 <= k -> Z.shiftr z k = z / 2 ^ k.
Proof. intros. by apply Z.shiftr_div_pow2. Qed.

(** ** Loops over a buffer

    [scan P src p] is the C loop [while (p < len && P(src[p])) p += 1;]: the
    first index at or after [p] whose byte does not satisfy [P]. *)

Fixpoint run_length (P : Z -> bool) (l : list Z) : nat :=
  match l with
  | c :: l => if P c then S (run_length P l) else O
  | [] => O
  end.

Definition scan (P : Z -> bool) (src : list Z) (p : nat) : nat :=
  (p + run_length P (drop p src))%nat.

Lemma run_length_le P l : (run_length P l <= length l)%nat.
Proof. induction l as [|c l IH]; simpl; [lia|]. destruct (P c); lia. Qed.

Lemma scan_ge P src p : (p <= scan P src p)%nat.
Proof. unfold scan. lia. Qed.

Lemma scan_le P src p : (p <= length src)%nat -> (scan P src p <= length src)%nat.
Proof.
  intros. unfold scan. pose proof (run_length_le P (drop p src)) as H1.
  rewrite length_drop in H1. lia.
Qed.

Lemma run_length_app P l k :
  forallb P l = true -> run_length P (l ++ k) = (length l + run_length P k)%nat.
Proof.
  induction l as [|c l IH]; simpl; [done|]. intros [-> H]%andb_true_iff.
  by rewrite IH.
Qed.

Lemma run_length_take P l : forallb P (take (run_length P l) l) = true.
Proof. induction l as [|c l IH]; simpl; [done|]. destruct (P c) eqn:E; simpl; [|done]. by rewrite E. Qed.

Lemma scan_stop P src p c : src !! scan P src p = Some c -> P c = false.
Proof.
  unfold scan. rewrite <- lookup_drop. generalize (drop p src) as l.
  induction l as [|d l IH]; simpl; [done|].
  destruct (P d) eqn:E; simpl; [apply IH|]. intros [= <-]. done.
Qed.

(** ** Conversions between the code's [size_t] and Rocq's [nat] *)

(** [(size_t)a] of a signed 64-bit value. *)
Definition size_of_i64 (a : Z) : Z := u64 a.

Lemma size_of_i64_nonneg a : 0 <= a -> in_i64 a -> size_of_i64 a = a.
Proof. unfold size_of_i64. int_lia. Qed.

(** Arrays indexed by a machine integer: [None] is an access out of the
    array, which C leaves undefined unless the code tests for it. *)
Definition lookupz {A} (l : list A) (z : Z) : option A :=
  if (0 <=? z) && (z <? Z.of_nat (length l)) then l !! Z.to_nat z else None.

Definition insertz {A} (z : Z) (x : A) (l : list A) : option (list A) :=
  if (0 <=? z) && (z <? Z.of_nat (length l)) then Some (<[Z.to_nat z := x]> l) else None.

Lemma lookupz_Some {A} (l : list A) z x :
  lookupz l z = Some x <-> 0 <= z /\ l !! Z.to_nat z = Some x.
Proof.
  unfold lookupz. destruct ((0 <=? z) && _) eqn:E; to_prop.
  - split; [intros ?; split; [lia|done]|by intros []].
  - split; [done|]. intros [Hz Hl]. apply lookup_lt_Some in Hl.
    destruct E; to_prop; lia.
Qed.

Lemma lookupz_in {A} (l : list A) z :
  0 <= z < Z.of_nat (length l) -> exists x, lookupz l z = Some x.
Proof.
  intros Hz. destruct (lookup_lt_is_Some_2 l (Z.to_nat z)) as [x Hx]; [lia|].
  exists x. apply lookupz_Some. split; [lia|done].
Qed.

Lemma lookupz_nat {A} (l : list A) n : lookupz l (Z.of_nat n) = l !! n.
Proof.
  destruct (l !! n) as [x|] eqn:E.
  - apply lookupz_Some. rewrite Nat2Z.id. split; [lia|done].
  - apply lookup_ge_None in E. unfold lookupz.
    destruct ((0 <=? _) && _) eqn:F; [to_prop; lia|done].
Qed.

Lemma lookupz_range {A} (l : list A) z x :
  lookupz l z = Some x -> 0 <= z < Z.of_nat (length l).
Proof. intros (Hz & Hl%lookup_lt_Some)%lookupz_Some. lia. Qed.

Lemma lookupz_elem {A} (l : list A) z x : lookupz l z = Some x -> x ∈ l.
Proof. intros (_ & Hl)%lookupz_Some. by eapply list_elem_of_lookup_2. Qed.

Lemma insertz_Some {A} (l : list A) z x k :
  insertz z x l = Some k <-> 0 <= z < Z.of_nat (length l) /\ k = <[Z.to_nat z := x]> l.
Proof.
  unfold insertz. destruct ((0 <=? z) && _) eqn:E; to_prop.
  - split; [intros; by simplify_eq|by intros [_ ->]].
  - split; [done|]. intros [Hz _]. destruct E; to_prop; lia.
Qed.

Lemma insertz_length {A} (l : list A) z x k : insertz z x l = Some k -> length k = length l.
Proof. intros [_ ->]%insertz_Some. apply length_insert. Qed.

Lemma insertz_in {A} (l : list A) z x :
  0 <= z < Z.of_nat (length l) -> insertz z x l = Some (<[Z.to_nat z := x]> l).
Proof. intros. by apply insertz_Some. Qed.

Lemma lookupz_insertz {A} (l : list A) z x k z' :
  insertz z x l = Some k ->
  lookupz k z' = if decide (z' = z) then Some x else lookupz l z'.
Proof.
  intros [Hz ->]%insertz_Some. unfold lookupz. rewrite length_insert.
  destruct ((0 <=? z') && _) eqn:E; to_prop.
  - destruct (decide (z' = z)) as [->|Hne]; [apply list_lookup_insert_eq; lia|].
    apply list_lookup_insert_ne. lia.
  - case_decide; [|done]. subst. destruct E; to_prop; lia.
Qed.

(** ** More on little-endian values *)

Lemma le_val_app l k : le_val (l ++ k) = le_val l + 256 ^ Z.of_nat (length l) * le_val k.
Proof.
  induction l as [|b l IH]; simpl app; simpl le_val; [by rewrite Z.mul_1_l|].
  rewrite IH. simpl length. rewrite Nat2Z.inj_succ, Z.pow_succ_r by lia. ring.
Qed.

(** Byte [j] of a little-endian value. *)
Lemma le_val_byte l j b :
  bytes_wf l -> l !! j = Some b -> (le_val l / 256 ^ Z.of_nat j) mod 256 = b.
Proof.
  intros Hl. revert j. induction Hl as [|c l Hc Hl IH]; intros j H; [done|].
  unfold in_u8, two8 in Hc. pose proof (le_val_range l Hl).
  destruct j as [|j]; simpl in H; simpl le_val.
  - injection H as ->. rewrite Z.pow_0_r, Z.div_1_r.
    rewrite Z.mul_comm, Z.mod_add, Z.mod_small by lia. done.
  - assert (0 < 256 ^ Z.of_nat j) by (apply Z.pow_pos_nonneg; lia).
    rewrite Nat2Z.inj_succ, Z.pow_succ_r, <- Z.div_div by lia.
    rewrite (Z.mul_comm 256 (le_val l)), Z.div_add, (Z.div_small c 256), Z.add_0_l by lia. by apply IH.
Qed.

Lemma pow256_le a b : 0 <= a <= b -> 256 ^ a <= 256 ^ b.
Proof. intros. apply Z.pow_le_mono_r; lia. Qed.

Lemma le_val_u64 l : bytes_wf l -> (length l <= 8)%nat -> in_u64 (le_val l).
Proof.
  intros Hl Hn. pose proof (le_val_range l Hl) as [H0 H1]. unfold in_u64, two64.
  split; [done|]. eapply Z.lt_le_trans; [exact H1|].
  change 18446744073709551616 with (256 ^ 8). apply pow256_le. lia.
Qed.

Lemma shift_byte z j : 0 <= j -> Z.shiftr z (j * 8) = z / 256 ^ j.
Proof.
  intros. rewrite Z.shiftr_div_pow2 by lia. f_equal.
  rewrite Z.mul_comm, Z.pow_mul_r by lia. done.
Qed.

Lemma Forall_elem {A} (P : A -> Prop) l x : Forall P l -> x ∈ l -> P x.
Proof. intros H Hx. apply list_elem_of_lookup in Hx as [i Hi]. by apply (Forall_lookup_1 _ _ _ _ H Hi). Qed.

(** The 8-byte image of an [int64_t] determines it. *)
Lemma le64_inj x y :
  in_i64 x -> in_i64 y -> le_bytes 8 (u64 x) = le_bytes 8 (u64 y) -> x = y.
Proof.
  intros Hx Hy H. apply le_bytes_inj in H.
  - rewrite <- (i64_id x), <- (i64_id y) by done. rewrite <- (i64_u64 x), <- (i64_u64 y). by rewrite H.
  - change (256 ^ Z.of_nat 8) with two64. apply u64_range.
  - change (256 ^ Z.of_nat 8) with two64. apply u64_range.
Qed.

Lemma le64_val x : in_i64 x -> i64 (le_val (le_bytes 8 (u64 x))) = x.
Proof.
  intros Hx. rewrite le_val_bytes. change (256 ^ Z.of_nat 8) with two64.
  rewrite Z.mod_small by apply u64_range. rewrite i64_u64. by apply i64_id.
Qed.
