(* ===== verification/Common.v ===== *)
(** * lin_common.h, lin_common.c: the error type, slices and wrapping arithmetic *)
From stdpp Require Import strings.
From S2P Require Import Prelude.

(** [LinStr]: a (pointer, length) view of bytes.  Sources are never written
    while a view of them is alive, so a view is its bytes. *)
Abbreviation LinStr := (list Z).

(** The bytes of a string literal of the source. *)
Definition cstr (s : string) : list Z :=
  map (fun a => Z.of_nat (Ascii.nat_of_ascii a)) (String.list_ascii_of_string s).

(** The same, its double quotes written as apostrophes. *)
Definition qstr (s : string) : list Z := map (fun c => if c =? 39 then 34 else c) (cstr s).

Lemma cstr_wf s : bytes_wf (cstr s).
Proof.
  unfold cstr, bytes_wf. apply Forall_map, Forall_forall. intros a _.
  pose proof (Ascii.nat_ascii_bounded a). unfold in_u8, two8. simpl. lia.
Qed.

(** [lin_str_eq_cstr]: equal length and [memcmp] 0. *)
Definition lin_str_eq_cstr (a : LinStr) (b : list Z) : bool := bytes_eqb a b.

Inductive LinErr : Type :=
| LIN_ERR_ARENA_OOM
| LIN_ERR_MISSING_CLOSE_PAREN
| LIN_ERR_UNEXPECTED_PRIMARY
| LIN_ERR_INVALID_BINARY_OP
| LIN_ERR_TRAILING_TOKENS
| LIN_ERR_INVALID_NODE
| LIN_ERR_DIV_ZERO
| LIN_ERR_UNDEF_VAR
| LIN_ERR_VM_STEP_LIMIT
| LIN_ERR_VM_STACK_OVERFLOW
| LIN_ERR_VM_STACK_UNDERFLOW
| LIN_ERR_VM_BAD_FN
| LIN_ERR_VM_DEPTH
| LIN_ERR_VM_ARITY
| LIN_ERR_VM_DIV_ZERO
| LIN_ERR_PARSE_TOO_DEEP.

#[export] Instance LinErr_eq_dec : EqDecision LinErr.
Proof. solve_decision. Defined.

(** [LIN_OK] is the [Ok] constructor of [res LinErr]; its name is kept by
    [lin_err_name]'s [None] argument. *)
Definition lin_err_name (e : option LinErr) : string :=
  match e with
  | None => "error.Success"
  | Some LIN_ERR_ARENA_OOM => "error.ArenaOutOfMemory"
  | Some LIN_ERR_MISSING_CLOSE_PAREN => "error.MissingClosingParen"
  | Some LIN_ERR_UNEXPECTED_PRIMARY => "error.UnexpectedTokenInPrimary"
  | Some LIN_ERR_INVALID_BINARY_OP => "error.InvalidBinaryOperator"
  | Some LIN_ERR_TRAILING_TOKENS => "error.TrailingTokens"
  | Some LIN_ERR_INVALID_NODE => "error.InvalidNodeIndex"
  | Some LIN_ERR_DIV_ZERO => "error.DivisionByZero"
  | Some LIN_ERR_UNDEF_VAR => "error.UndefinedVariable"
  | Some LIN_ERR_VM_STEP_LIMIT => "error.VmStepLimit"
  | Some LIN_ERR_VM_STACK_OVERFLOW => "error.VmStackOverflow"
  | Some LIN_ERR_VM_STACK_UNDERFLOW => "error.VmStackUnderflow"
  | Some LIN_ERR_VM_BAD_FN => "error.VmBadFunction"
  | Some LIN_ERR_VM_DEPTH => "error.VmDepth"
  | Some LIN_ERR_VM_ARITY => "error.VmArity"
  | Some LIN_ERR_VM_DIV_ZERO => "error.VmDivisionByZero"
  | Some LIN_ERR_PARSE_TOO_DEEP => "error.ParseTooDeep"
  end.

(** ** Wrapping arithmetic

    The code computes in [uint64_t] and casts back; C's [/] and [%] truncate
    towards zero, which is [Z.quot] and [Z.rem].  [lin_wdiv] and [lin_wrem] are
    only called with [y <> 0]. *)

Definition lin_wadd (a b : Z) : Z := i64 (u64 (u64 a + u64 b)).
Definition lin_wsub (a b : Z) : Z := i64 (u64 (u64 a - u64 b)).
Definition lin_wmul (a b : Z) : Z := i64 (u64 (u64 a * u64 b)).

Definition lin_wdiv (x y : Z) : Z :=
  if (x =? INT64_MIN) && (y =? -1) then INT64_MIN else Z.quot x y.

Definition lin_wrem (x y : Z) : Z :=
  if (x =? INT64_MIN) && (y =? -1) then 0 else Z.rem x y.

(** ** Constants *)

Definition LIN_ARENA_CAP : nat := 256.
Definition LIN_PARSER_MAX_DEPTH : nat := 64.
Definition LIN_MAX_ARGS : nat := 16.
Definition LIN_VM_MAX_LOCALS : nat := 64.
Definition LIN_VM_MAX_STACK : nat := 256.
Definition LIN_VM_MAX_DEPTH : nat := 192.
Definition LIN_VM_STEP_LIMIT : Z := 200000000.
Definition LIN_VM_MAX_ARRS : nat := 8.
Definition LIN_VM_MAX_ARR_LEN : nat := 256.
Definition LIN_LOWER_CAP : nat := 512.

(** ** What the arithmetic computes *)

Lemma i64_mod_eq a b : (a mod two64) = (b mod two64) -> i64 a = i64 b.
Proof. intros H. rewrite <- (i64_u64 a), <- (i64_u64 b). unfold u64. by rewrite H. Qed.

Lemma lin_wadd_eq a b : lin_wadd a b = i64 (a + b).
Proof.
  unfold lin_wadd. rewrite i64_u64. apply i64_mod_eq. unfold u64.
  rewrite <- Z.add_mod; unfold two64; lia.
Qed.

Lemma lin_wsub_eq a b : lin_wsub a b = i64 (a - b).
Proof.
  unfold lin_wsub. rewrite i64_u64. apply i64_mod_eq. unfold u64.
  rewrite <- Zminus_mod; unfold two64; lia.
Qed.

Lemma lin_wmul_eq a b : lin_wmul a b = i64 (a * b).
Proof.
  unfold lin_wmul. rewrite i64_u64. apply i64_mod_eq. unfold u64.
  rewrite <- Z.mul_mod; unfold two64; lia.
Qed.

Lemma quot_bounds x y : in_i64 x -> in_i64 y -> y <> 0 ->
  ~ (x = INT64_MIN /\ y = -1) -> in_i64 (Z.quot x y).
Proof.
  intros Hx Hy Hy0 Hn. unfold_ints.
  assert (Z.abs (Z.quot x y) <= Z.abs x) as Ha.
  { rewrite <- Z.quot_abs by done. rewrite Z.quot_div_nonneg by lia.
    apply Z.div_le_upper_bound; nia. }
  destruct (Z.eq_dec x (-9223372036854775808)) as [->|]; [|lia].
  destruct (Z.eq_dec y 1) as [->|]; [rewrite Z.quot_1_r; lia|].
  assert (Z.abs (Z.quot (-9223372036854775808) y) <= 9223372036854775808 / 2).
  { rewrite <- Z.quot_abs by done. rewrite Z.quot_div_nonneg by lia.
    change (Z.abs (-9223372036854775808)) with 9223372036854775808.
    apply Z.div_le_compat_l; lia. }
  change (9223372036854775808 / 2) with 4611686018427387904 in *. lia.
Qed.

Lemma lin_wdiv_eq x y : in_i64 x -> in_i64 y -> y <> 0 ->
  lin_wdiv x y = i64 (Z.quot x y).
Proof.
  intros Hx Hy H0. unfold lin_wdiv. inv_match; to_prop.
  - subst. reflexivity.
  - symmetry. apply i64_id, quot_bounds; try done. intros [-> ->].
    destruct Heqb as [H|H]; to_prop; done.
Qed.

Lemma lin_wrem_eq x y : in_i64 x -> in_i64 y -> y <> 0 ->
  lin_wrem x y = Z.rem x y /\ in_i64 (lin_wrem x y).
Proof.
  intros Hx Hy H0. unfold lin_wrem.
  pose proof (Z.rem_bound_abs x y H0).
  assert (in_i64 (Z.rem x y)).
  { unfold_ints. pose proof (Z.rem_sign_mul x y H0). lia. }
  inv_match; to_prop; [|done]. subst. split; done.
Qed.

Lemma lin_wadd_range a b : in_i64 (lin_wadd a b).
Proof. apply i64_range. Qed.
Lemma lin_wsub_range a b : in_i64 (lin_wsub a b).
Proof. apply i64_range. Qed.
Lemma lin_wmul_range a b : in_i64 (lin_wmul a b).
Proof. apply i64_range. Qed.
Lemma lin_wdiv_range x y : in_i64 x -> in_i64 y -> y <> 0 -> in_i64 (lin_wdiv x y).
Proof. intros. rewrite lin_wdiv_eq by done. apply i64_range. Qed.
Lemma lin_wrem_range x y : in_i64 x -> in_i64 y -> y <> 0 -> in_i64 (lin_wrem x y).
Proof. intros. by apply lin_wrem_eq. Qed.

#[export] Hint Resolve lin_wadd_range lin_wsub_range lin_wmul_range
  lin_wdiv_range lin_wrem_range : lin.

(** [r] is the [int64_t] congruent to the mathematical result [z]. *)
Definition is_wrap_of (r z : Z) : Prop := in_i64 r /\ r mod two64 = z mod two64.

Lemma is_wrap_of_i64 z : is_wrap_of (i64 z) z.
Proof. split; [apply i64_range|]. apply u64_i64. Qed.

Lemma is_wrap_of_unique r s z : is_wrap_of r z -> is_wrap_of s z -> r = s.
Proof.
  intros [Hr Er] [Hs Es]. rewrite <- (i64_id r), <- (i64_id s) by done.
  apply i64_mod_eq. congruence.
Qed.

(** Wrapping arithmetic of lin_common.h: on any two [int64_t] operands,
    [lin_wadd], [lin_wsub] and [lin_wmul] return the one [int64_t] congruent to
    the exact result modulo 2^64, and, for a non-zero divisor, [lin_wdiv] does so
    for the truncated quotient (INT64_MIN / -1 included), [lin_wrem] is the exact
    truncated remainder, and the two satisfy quotient * divisor + remainder =
    dividend in the wrapped arithmetic itself. *)
Theorem lin_wrapping_arithmetic (x y : Z) :
  in_i64 x -> in_i64 y ->
  is_wrap_of (lin_wadd x y) (x + y) /\
  is_wrap_of (lin_wsub x y) (x - y) /\
  is_wrap_of (lin_wmul x y) (x * y) /\
  (y <> 0 ->
     is_wrap_of (lin_wdiv x y) (Z.quot x y) /\
     lin_wrem x y = Z.rem x y /\ in_i64 (lin_wrem x y) /\
     lin_wadd (lin_wmul (lin_wdiv x y) y) (lin_wrem x y) = x).
Proof.
  intros Hx Hy. rewrite lin_wadd_eq, lin_wsub_eq, lin_wmul_eq.
  do 3 (split; [apply is_wrap_of_i64|]). intros H0.
  destruct (lin_wrem_eq x y) as [Er Rr]; [done..|].
  rewrite lin_wdiv_eq by done.
  split; [apply is_wrap_of_i64|]. do 2 (split; [done|]).
  rewrite lin_wadd_eq, lin_wmul_eq, Er.
  transitivity (i64 x); [|by apply i64_id]. apply i64_mod_eq.
  destruct (is_wrap_of_i64 (Z.quot x y)) as [_ E1].
  destruct (is_wrap_of_i64 (i64 (Z.quot x y) * y)) as [_ E2].
  rewrite Z.add_mod, E2, Z.mul_mod, E1, <- Z.mul_mod, <- Z.add_mod by (unfold two64; lia).
  f_equal. pose proof (Z.quot_rem x y H0). lia.
Qed.

Lemma lin_wrapping_arithmetic_witness :
  in_i64 INT64_MIN /\ in_i64 (-1) /\ lin_wdiv INT64_MIN (-1) = INT64_MIN /\
  lin_wadd (lin_wmul (lin_wdiv INT64_MIN (-1)) (-1)) (lin_wrem INT64_MIN (-1)) = INT64_MIN.
Proof.
  assert (in_i64 INT64_MIN) as Hx by (unfold_ints; lia).
  assert (in_i64 (-1)) as Hy by (unfold_ints; lia).
  destruct (lin_wrapping_arithmetic INT64_MIN (-1) Hx Hy) as (_ & _ & _ & H).
  split; [exact Hx|]. split; [exact Hy|]. split; [reflexivity|].
  apply H. discriminate.
Defined.
