(* ===== verification/Str.v ===== *)
(** * lin_str.c: the HOST-ABI-1 string intrinsics (abi ids 3 to 8)

    Strings are immutable byte sequences; every intrinsic is total.  Functions
    writing into a caller buffer return the bytes written, [None] standing for
    the [SIZE_MAX] result (capacity too small). *)
From stdpp Require Import strings.
From S2P Require Import Prelude Common.

Definition lin_str_len (s : LinStr) : Z := Z.of_nat (length s).

Definition lin_str_char_code_at (s : LinStr) (i : Z) : Z :=
  if i <? 0 then 0
  else if u64 i >=? Z.of_nat (length s) then 0
  else default 0 (s !! Z.to_nat i).

(** The comparison loop, [k] counting up while [fuel] bytes of [lit] remain. *)
Fixpoint starts_lit_loop (s lit : LinStr) (i : nat) (k fuel : nat) : Z :=
  match fuel with
  | O => 1
  | S fuel =>
      if (length s <=? i + k)%nat then 0
      else if negb (default 0 (s !! (i + k)%nat) =? default 0 (lit !! k)) then 0
      else starts_lit_loop s lit i (S k) fuel
  end.

Definition lin_str_starts_lit (s : LinStr) (i : Z) (lit : LinStr) : Z :=
  if i <? 0 then (if (length lit =? 0)%nat then 1 else 0)
  else starts_lit_loop s lit (Z.to_nat i) 0 (length lit).

Fixpoint count_lit_loop (hay needle : LinStr) (i fuel : nat) (cnt : Z) : Z :=
  match fuel with
  | O => cnt
  | S fuel =>
      count_lit_loop hay needle (S i) fuel
        (if lin_str_starts_lit hay (Z.of_nat i) needle =? 1 then cnt + 1 else cnt)
  end.

Definition lin_str_count_lit (hay needle : LinStr) : Z :=
  count_lit_loop hay needle 0 (length hay) 0.

Definition lin_str_from_code (c : Z) : list Z :=
  if (c >=? 0) && (c <? 256) then [u8 c] else [].

(** [do { tmp[n++] = '0' + t % 10; t /= 10; } while (t)]: the digits, least
    significant first.  [tmp] has 24 bytes, which is the fuel. *)
Fixpoint dec_digits (fuel : nat) (t : Z) : list Z :=
  match fuel with
  | O => []
  | S fuel => u8 (48 + t mod 10) :: (if t / 10 =? 0 then [] else dec_digits fuel (t / 10))
  end.

Definition lin_str_of_i64 (x : Z) (cap : nat) : option (list Z) :=
  let neg := x <? 0 in
  let v := if neg then u64 (u64 (- (x + 1)) + 1) else u64 x in
  let tmp := dec_digits 24 v in
  let need := (length tmp + (if neg then 1 else 0))%nat in
  if (cap <? need)%nat then None
  else Some ((if neg then [45] else []) ++ rev tmp).

Definition lin_str_of_bool (b : bool) (cap : nat) : option (list Z) :=
  let s := if b then cstr "true" else cstr "false" in
  if (cap <? length s)%nat then None else Some s.

Definition lin_str_cat (sa sb : LinStr) (cap : nat) : option (list Z) :=
  if (cap <? length sa)%nat || (cap - length sa <? length sb)%nat then None
  else Some (sa ++ sb).

(** ** Substring tests *)

Lemma starts_lit_loop_spec s lit i k n :
  (k + n)%nat = length lit ->
  starts_lit_loop s lit i k n = 1 <-> drop k lit = take n (drop (i + k) s).
Proof.
  revert k. induction n as [|n IH]; intros k Hk; simpl.
  - rewrite drop_ge by lia. by rewrite take_0.
  - destruct (lookup_lt_is_Some_2 lit k) as [c Hc]; [lia|].
    rewrite (drop_S _ _ _ Hc).
    rewrite Hc. simpl.
    destruct (length s <=? i + k)%nat eqn:E; to_prop.
    + rewrite (drop_ge s) by lia. simpl. split; [done|]. by intros [=].
    + destruct (lookup_lt_is_Some_2 s (i + k)) as [d Hd]; [lia|].
      rewrite (drop_S _ _ _ Hd), Hd. simpl.
      destruct (d =? c) eqn:Ed; to_prop; simpl.
      * subst. rewrite IH by lia. rewrite Nat.add_succ_r. split; [by intros ->|].
        by intros [= H].
      * split; [done|]. intros [=]. congruence.
Qed.

Lemma starts_lit_loop_01 s lit i k n :
  starts_lit_loop s lit i k n = 0 \/ starts_lit_loop s lit i k n = 1.
Proof.
  revert k. induction n as [|n IH]; intros k; simpl; [by right|].
  repeat case_match; auto.
Qed.

Lemma starts_lit_spec s i lit :
  0 <= i ->
  lin_str_starts_lit s i lit = 1 <-> exists tl, drop (Z.to_nat i) s = lit ++ tl.
Proof.
  intros Hi. unfold lin_str_starts_lit.
  replace (i <? 0) with false by (symmetry; apply Z.ltb_ge; lia).
  rewrite starts_lit_loop_spec, Nat.add_0_r, drop_0 by done. split.
  - intros H. exists (drop (length lit) (drop (Z.to_nat i) s)).
    rewrite H at 1. by rewrite take_drop.
  - intros [tl ->]. by rewrite take_app_length.
Qed.

(** The positions of [hay] where [needle] occurs. *)
Definition occurs_at (hay needle : LinStr) (i : nat) : Prop :=
  exists tl, drop i hay = needle ++ tl.

#[export] Instance occurs_at_dec hay needle i : Decision (occurs_at hay needle i).
Proof.
  refine (cast_if (decide (take (length needle) (drop i hay) = needle))).
  - exists (drop (length needle) (drop i hay)). rewrite <- e at 1. by rewrite take_drop.
  - intros [tl H]. apply n. by rewrite H, take_app_length.
Defined.

Lemma count_lit_loop_spec hay needle i n cnt :
  count_lit_loop hay needle i n cnt =
  cnt + Z.of_nat (length (filter (occurs_at hay needle) (seq i n))).
Proof.
  revert i cnt. induction n as [|n IH]; intros i cnt; simpl; [lia|].
  rewrite IH, filter_cons.
  destruct (starts_lit_spec hay (Z.of_nat i) needle) as [H1 H2]; [lia|].
  rewrite Nat2Z.id in *. case_decide as Hd.
  - rewrite H2 by done. simpl. lia.
  - case_match; to_prop; [|lia]. exfalso. by apply Hd, H1.
Qed.

(** [lin_str_count_lit] counts exactly the positions of the haystack at
    which the needle occurs (overlapping occurrences included; the empty needle
    occurs at each of the [len] positions and never at [len]), and each test is
    the one [lin_str_starts_lit] performs. *)
Theorem lin_str_count_lit_spec (hay needle : LinStr) :
  lin_str_count_lit hay needle =
    Z.of_nat (length (filter (occurs_at hay needle) (seq 0 (length hay)))) /\
  (forall i, 0 <= i ->
     lin_str_starts_lit hay i needle = 1 <-> occurs_at hay needle (Z.to_nat i)) /\
  lin_str_count_lit hay [] = lin_str_len hay.
Proof.
  unfold lin_str_count_lit, lin_str_len. rewrite !count_lit_loop_spec.
  split; [lia|]. split; [intros; by apply starts_lit_spec|].
  rewrite Z.add_0_l. f_equal.
  rewrite <- (length_seq (length hay) 0) at 2. f_equal.
  generalize (seq 0 (length hay)) as l. induction l as [|i l IH]; [done|].
  rewrite filter_cons_True; [by rewrite IH|]. by exists (drop i hay).
Qed.
