(* ===== verification/Token.v ===== *)
(** * lin_token.c: the tokenizer of the C-expression pipeline

    [lin_next_token src p] returns the token and the advanced position; peeking
    is calling it and keeping the old position.  [TOK_INT_LIT] accumulates in
    [uint64_t] and is bit-cast, so a literal denotes its value wrapped. *)
From stdpp Require Import strings.
From S2P Require Import Prelude Common.

Inductive TokKind : Type :=
| TOK_INT_LIT | TOK_IDENT | TOK_PLUS | TOK_MINUS | TOK_MUL | TOK_DIV | TOK_MOD
| TOK_EQ | TOK_NEQ | TOK_LT | TOK_LTE | TOK_GT | TOK_GTE
| TOK_LPAREN | TOK_RPAREN | TOK_COMMA | TOK_EOF | TOK_INVALID.

#[export] Instance TokKind_eq_dec : EqDecision TokKind.
Proof. solve_decision. Defined.

Record Token : Type := mkToken {
  tok_kind : TokKind;
  tok_val : Z;
  tok_name : LinStr;
  tok_pos : nat
}.

Definition is_digit (c : Z) : bool := (48 <=? c) && (c <=? 57).
Definition is_alpha (c : Z) : bool :=
  ((97 <=? c) && (c <=? 122)) || ((65 <=? c) && (c <=? 90)).
Definition is_ident_start (c : Z) : bool := is_alpha c || (c =? 95).
Definition is_ident (c : Z) : bool := is_alpha c || is_digit c || (c =? 95).
(** [' '], ['\t'], ['\r'], ['\n'] *)
Definition is_ws (c : Z) : bool := (c =? 32) || (c =? 9) || (c =? 13) || (c =? 10).

(** The digit loop: [num = num*10 + (src[p]-'0')] in [uint64_t]. *)
Fixpoint digits_u64 (num : Z) (l : list Z) : Z :=
  match l with
  | [] => num
  | c :: l => digits_u64 (u64 (u64 (num * 10) + u64 (c - 48))) l
  end.

Definition two_char_op (c d : Z) : option TokKind :=
  if negb (d =? 61) then None
  else if c =? 61 then Some TOK_EQ
  else if c =? 33 then Some TOK_NEQ
  else if c =? 60 then Some TOK_LTE
  else if c =? 62 then Some TOK_GTE
  else None.

Definition single_char_op (c : Z) : TokKind :=
  if c =? 43 then TOK_PLUS
  else if c =? 45 then TOK_MINUS
  else if c =? 42 then TOK_MUL
  else if c =? 47 then TOK_DIV
  else if c =? 37 then TOK_MOD
  else if c =? 60 then TOK_LT
  else if c =? 62 then TOK_GT
  else if c =? 40 then TOK_LPAREN
  else if c =? 41 then TOK_RPAREN
  else if c =? 44 then TOK_COMMA
  else TOK_INVALID.

(** The part of [lin_next_token] after the whitespace loop, at [src[p] = c]. *)
Definition lex_at (src : list Z) (p : nat) (c : Z) : Token * nat :=
  if is_digit c then
    let p' := scan is_digit src p in
    let num := digits_u64 0 (slice p (p' - p) src) in
    match src !! p' with
    | Some d =>
        if is_alpha d || (d =? 95) then (mkToken TOK_INVALID 0 [] p, p')
        else (mkToken TOK_INT_LIT (i64 num) [] p, p')
    | None => (mkToken TOK_INT_LIT (i64 num) [] p, p')
    end
  else if is_ident_start c then
    let p' := scan is_ident src p in
    (mkToken TOK_IDENT 0 (slice p (p' - p) src) p, p')
  else
    match src !! S p with
    | Some d =>
        match two_char_op c d with
        | Some k => (mkToken k 0 [] p, S (S p))
        | None => (mkToken (single_char_op c) 0 [] p, S p)
        end
    | None => (mkToken (single_char_op c) 0 [] p, S p)
    end.

Definition lin_next_token (src : list Z) (pos : nat) : Token * nat :=
  let p := scan is_ws src pos in
  match src !! p with
  | None => (mkToken TOK_EOF 0 [] p, p)
  | Some c => lex_at src p c
  end.

Definition lin_peek_token (src : list Z) (pos : nat) : Token :=
  fst (lin_next_token src pos).

(** ** Progress *)

Lemma scan_first P src p c :
  src !! p = Some c -> P c = true -> (S p <= scan P src p)%nat.
Proof.
  intros H Hc. unfold scan. rewrite (drop_S _ _ _ H). simpl. rewrite Hc. lia.
Qed.

Lemma two_char_not_eof c d k : two_char_op c d = Some k -> k <> TOK_EOF.
Proof. unfold two_char_op. repeat case_match; congruence. Qed.

Lemma single_char_not_eof c : single_char_op c <> TOK_EOF.
Proof. unfold single_char_op. repeat case_match; congruence. Qed.

Lemma lex_at_progress src p c t p' :
  src !! p = Some c -> lex_at src p c = (t, p') ->
  (p < p' <= length src)%nat /\ tok_kind t <> TOK_EOF /\ tok_pos t = p.
Proof.
  intros Hc H. unfold lex_at in H.
  pose proof (lookup_lt_Some _ _ _ Hc) as Hp.
  destruct (is_digit c) eqn:Ed.
  { pose proof (scan_first _ _ _ _ Hc Ed). pose proof (scan_le is_digit src p).
    repeat case_match; simplify_eq; simpl; (split; [lia|split; congruence]). }
  destruct (is_ident_start c) eqn:Ei.
  { assert (is_ident c = true) as Ei'.
    { unfold is_ident, is_ident_start in *. apply orb_true_iff in Ei as [->| ->]; [done|].
      apply orb_true_r. }
    pose proof (scan_first _ _ _ _ Hc Ei'). pose proof (scan_le is_ident src p).
    simplify_eq; simpl; (split; [lia|split; congruence]). }
  pose proof (single_char_not_eof c).
  destruct (src !! S p) eqn:E1.
  - apply lookup_lt_Some in E1.
    destruct (two_char_op c z) eqn:E2; simplify_eq; simpl.
    + apply two_char_not_eof in E2. split; [lia|done].
    + split; [lia|done].
  - simplify_eq; simpl. split; [lia|done].
Qed.

Lemma next_token_pos src pos t p' :
  (pos <= length src)%nat -> lin_next_token src pos = (t, p') ->
  (pos <= p' <= length src)%nat.
Proof.
  intros Hp H. unfold lin_next_token in H.
  pose proof (scan_ge is_ws src pos). pose proof (scan_le is_ws src pos Hp).
  case_match.
  - eapply lex_at_progress in H; [|done]. lia.
  - simplify_eq. lia.
Qed.

Lemma next_token_progress src pos t p' :
  lin_next_token src pos = (t, p') -> tok_kind t <> TOK_EOF ->
  (pos < p' <= length src)%nat.
Proof.
  intros H Hk. unfold lin_next_token in H.
  pose proof (scan_ge is_ws src pos).
  case_match.
  - eapply lex_at_progress in H; [|done]. lia.
  - by simplify_eq.
Qed.

Lemma next_token_eof_stable src pos t p' :
  lin_next_token src pos = (t, p') -> tok_kind t = TOK_EOF ->
  forallb is_ws (drop pos src) = true /\ p' = scan is_ws src pos.
Proof.
  intros H Hk. unfold lin_next_token in H. case_match eqn:E.
  - eapply lex_at_progress in H; [|done]. by destruct H as (_ & ? & _).
  - simplify_eq. split; [|done]. apply lookup_ge_None_1 in E. unfold scan in E.
    pose proof (run_length_take is_ws (drop pos src)) as H.
    rewrite take_ge in H; [done|]. rewrite length_drop. lia.
Qed.

(** ** Values of literals *)

(** The number a digit string denotes. *)
Fixpoint dec_val (acc : Z) (l : list Z) : Z :=
  match l with
  | [] => acc
  | c :: l => dec_val (acc * 10 + (c - 48)) l
  end.

Lemma dec_val_mod a b l :
  a mod two64 = b mod two64 -> dec_val a l mod two64 = dec_val b l mod two64.
Proof.
  revert a b. induction l as [|c l IH]; intros a b H; simpl; [done|]. apply IH.
  rewrite (Z.add_mod (a * 10)), (Z.mul_mod a), H by (unfold two64; lia).
  by rewrite <- Z.mul_mod, <- Z.add_mod by (unfold two64; lia).
Qed.

Lemma digits_u64_spec num l :
  in_u64 num -> digits_u64 num l = u64 (dec_val num l).
Proof.
  revert num. induction l as [|c l IH]; intros num Hn; simpl.
  - by rewrite u64_id.
  - rewrite IH by apply u64_range. apply dec_val_mod.
    unfold u64. rewrite Z.mod_mod by (unfold two64; lia).
    by rewrite <- Z.add_mod by (unfold two64; lia).
Qed.

Lemma u64_i64_lit l : i64 (digits_u64 0 l) = i64 (dec_val 0 l).
Proof. rewrite digits_u64_spec, i64_u64 by (unfold in_u64, two64; lia). done. Qed.

(** ** Lexing a concrete spelling

    [lex_text txt k v nm]: the spelling [txt], when followed by a blank, is read
    as one token of kind [k], value [v] and name [nm]. *)
Lemma drop_scan_ws src pos l :
  drop pos src = l -> drop (scan is_ws src pos) src = drop (run_length is_ws l) l.
Proof. intros <-. unfold scan. by rewrite drop_drop. Qed.

Lemma lookup_drop_hd {A} (l : list A) p c tl : drop p l = c :: tl -> l !! p = Some c.
Proof. intros H. rewrite <- (Nat.add_0_r p), <- lookup_drop, H. done. Qed.

Lemma next_token_ident src pos nm tl :
  drop pos src = nm ++ 32 :: tl -> nm <> [] ->
  (forall c nm', nm = c :: nm' -> is_ident_start c = true /\ is_digit c = false /\ is_ws c = false) ->
  forallb is_ident nm = true ->
  lin_next_token src pos = (mkToken TOK_IDENT 0 nm pos, (pos + length nm)%nat).
Proof.
  intros Hd Hne Hs Hi. destruct nm as [|c nm]; [done|].
  destruct (Hs c nm eq_refl) as (H1 & H2 & H3).
  assert (scan is_ws src pos = pos) as Hw.
  { unfold scan. rewrite Hd. simpl. rewrite H3. lia. }
  unfold lin_next_token. rewrite Hw.
  rewrite (lookup_drop_hd _ _ _ _ Hd). unfold lex_at. rewrite H2, H1.
  assert (scan is_ident src pos = (pos + length (c :: nm))%nat) as ->.
  { unfold scan. rewrite Hd, run_length_app by done. simpl run_length. lia. }
  unfold slice. rewrite Hd, Nat.add_comm, Nat.add_sub, take_app_length.
  by rewrite Nat.add_comm.
Qed.

Lemma next_token_int src pos ds tl :
  drop pos src = ds ++ 32 :: tl -> ds <> [] -> forallb is_digit ds = true ->
  lin_next_token src pos =
    (mkToken TOK_INT_LIT (i64 (dec_val 0 ds)) [] pos, (pos + length ds)%nat).
Proof.
  intros Hd Hne Hi. destruct ds as [|c ds]; [done|].
  assert (is_digit c = true) as Hc by (simpl in Hi; by apply andb_true_iff in Hi as [? _]).
  assert (is_ws c = false) as H3.
  { unfold is_digit, is_ws in *. to_prop. repeat (apply orb_false_iff; split); apply Z.eqb_neq; lia. }
  assert (scan is_ws src pos = pos) as Hw.
  { unfold scan. rewrite Hd. simpl. rewrite H3. lia. }
  unfold lin_next_token. rewrite Hw.
  rewrite (lookup_drop_hd _ _ _ _ Hd). unfold lex_at. rewrite Hc.
  assert (scan is_digit src pos = (pos + length (c :: ds))%nat) as ->.
  { unfold scan. rewrite Hd, run_length_app by done. simpl run_length. lia. }
  assert (src !! (pos + length (c :: ds))%nat = Some 32) as ->.
  { rewrite <- lookup_drop, Hd, lookup_app_r, Nat.sub_diag by lia. done. }
  unfold slice. rewrite Hd, Nat.add_comm, Nat.add_sub, take_app_length, u64_i64_lit.
  by rewrite Nat.add_comm.
Qed.

(** ** The whole token *)

Lemma run_slice P src p :
  forallb P (slice p (scan P src p - p) src) = true.
Proof.
  unfold slice, scan. rewrite Nat.add_comm, Nat.add_sub. apply run_length_take.
Qed.

Lemma forallb_run P l : forallb P l = true -> run_length P l = length l.
Proof. intros H. rewrite <- (app_nil_r l) at 1. rewrite run_length_app by done. simpl. lia. Qed.

Lemma ident_of_digit c : is_digit c = true -> is_ident c = true.
Proof. unfold is_ident. intros ->. rewrite orb_true_r. done. Qed.

(** The bytes a token spans. *)
Definition tok_text (src : list Z) (t : Token) (p' : nat) : list Z :=
  slice (tok_pos t) (p' - tok_pos t) src.

(** No identifier byte follows the token. *)
Definition tok_maximal (src : list Z) (p' : nat) : Prop :=
  forall d, src !! p' = Some d -> is_ident d = false.

Lemma lex_at_literal src p c t p' :
  src !! p = Some c -> lex_at src p c = (t, p') -> tok_kind t = TOK_INT_LIT ->
  tok_val t = i64 (dec_val 0 (tok_text src t p')) /\
  forallb is_digit (tok_text src t p') = true /\ tok_maximal src p'.
Proof.
  intros Hc H Hk. unfold lex_at in H.
  destruct (is_digit c) eqn:Ed.
  - assert (forall d, src !! scan is_digit src p = Some d ->
      is_alpha d || (d =? 95) = false -> is_ident d = false) as Hd.
    { intros d E Hd. apply scan_stop in E. unfold is_ident.
      apply orb_false_iff in Hd as [-> ->]. by rewrite E. }
    case_match eqn:E; [case_match eqn:E'|]; simplify_eq; simpl in *; try done;
      unfold tok_text, tok_maximal; simpl; rewrite u64_i64_lit;
      (split; [done|split; [apply run_slice|]]);
      intros d'; rewrite E; intros [= <-]; by apply Hd.
  - exfalso. destruct (is_ident_start c); [by simplify_eq|].
    destruct (src !! S p); [|simplify_eq; simpl in Hk; revert Hk; unfold single_char_op; repeat case_match; congruence].
    destruct (two_char_op c z) eqn:E2; simplify_eq; simpl in Hk; revert E2 Hk;
      unfold two_char_op, single_char_op; repeat case_match; congruence.
Qed.

Lemma lex_at_ident src p c t p' :
  src !! p = Some c -> lex_at src p c = (t, p') -> tok_kind t = TOK_IDENT ->
  tok_name t = tok_text src t p' /\
  forallb is_ident (tok_text src t p') = true /\ tok_maximal src p'.
Proof.
  intros Hc H Hk. unfold lex_at in H.
  destruct (is_digit c) eqn:Ed; [by repeat case_match; simplify_eq|].
  destruct (is_ident_start c) eqn:Ei.
  - simplify_eq. split; [done|]. split; [apply run_slice|].
    intros d E. by apply scan_stop in E.
  - exfalso.
    destruct (src !! S p); [|simplify_eq; simpl in Hk; revert Hk; unfold single_char_op; repeat case_match; congruence].
    destruct (two_char_op c z) eqn:E2; simplify_eq; simpl in Hk; revert E2 Hk;
      unfold two_char_op, single_char_op; repeat case_match; congruence.
Qed.

(** The tokenizer is total and consistent with the source: from a position
    inside the buffer it stays inside, reports EOF exactly when only blanks are
    left, otherwise moves strictly forward past a token that begins after the
    blanks; an identifier's name is the maximal identifier run it spans, and an
    integer literal's value is the decimal value of the maximal digit run it
    spans, wrapped to [int64_t], with no identifier byte following. *)
Theorem lin_next_token_spec (src : list Z) (pos : nat) (t : Token) (p' : nat) :
  (pos <= length src)%nat -> lin_next_token src pos = (t, p') ->
  (pos <= tok_pos t <= p' /\ p' <= length src)%nat /\
  forallb is_ws (slice pos (tok_pos t - pos) src) = true /\
  (tok_kind t = TOK_EOF <-> forallb is_ws (drop pos src) = true) /\
  (tok_kind t <> TOK_EOF -> tok_pos t < p')%nat /\
  (tok_kind t = TOK_IDENT ->
     tok_name t = tok_text src t p' /\
     forallb is_ident (tok_text src t p') = true /\ tok_maximal src p') /\
  (tok_kind t = TOK_INT_LIT ->
     tok_val t = i64 (dec_val 0 (tok_text src t p')) /\
     forallb is_digit (tok_text src t p') = true /\ tok_maximal src p').
Proof.
  intros Hp H. pose proof (next_token_eof_stable _ _ _ _ H) as He.
  unfold lin_next_token in H.
  pose proof (scan_ge is_ws src pos). pose proof (scan_le is_ws src pos Hp).
  pose proof (run_slice is_ws src pos) as Hr.
  destruct (src !! scan is_ws src pos) as [c|] eqn:E.
  - destruct (lex_at_progress _ _ _ _ _ E H) as (Hlt & Hk & Hpos). rewrite Hpos.
    split; [lia|]. split; [done|]. split.
    { split; [done|]. intros Hws%forallb_run. apply lookup_lt_Some in E.
      unfold scan in E. rewrite Hws, length_drop in E. lia. }
    split; [lia|]. split; intros Hk'.
    + by eapply lex_at_ident.
    + by eapply lex_at_literal.
  - simplify_eq. simpl in *. split; [lia|]. split; [done|].
    split; [by split; [intros; apply He|]|]. by split.
Qed.

Lemma lin_next_token_spec_witness :
  let src := cstr "  x1 + 42" in
  (6 <= length src)%nat /\
  lin_next_token src 6 = (mkToken TOK_INT_LIT 42 [] 7, 9%nat) /\
  forallb is_digit (tok_text src (mkToken TOK_INT_LIT 42 [] 7) 9) = true.
Proof.
  intros src. assert (6 <= length src)%nat as Hl by (vm_compute; lia).
  assert (lin_next_token src 6 = (mkToken TOK_INT_LIT 42 [] 7, 9%nat)) as Ht by reflexivity.
  split; [exact Hl|]. split; [exact Ht|].
  destruct (lin_next_token_spec src 6 _ _ Hl Ht) as (_ & _ & _ & _ & _ & H).
  apply H. reflexivity.
Defined.
