(* ===== verification/Ast.v ===== *)
(** * lin_ast.c: the flat AST arena and its evaluator

    The arena is a table of nodes whose children are indices.  The five parallel
    arrays of the struct are one list of records; entries at or beyond [len] are
    never read (every access is guarded by [node >= a->len]), so the list has
    exactly [len] elements. *)
From stdpp Require Import strings.
From S2P Require Import Prelude Common.

Inductive AstTag : Type :=
| TAG_LIT | TAG_VAR_REF | TAG_UNARY_POS | TAG_UNARY_NEG
| TAG_ADD | TAG_SUB | TAG_MUL | TAG_DIV | TAG_MOD
| TAG_EQ | TAG_NEQ | TAG_LT | TAG_LTE | TAG_GT | TAG_GTE
| TAG_CALL | TAG_CALL_ARG.

#[export] Instance AstTag_eq_dec : EqDecision AstTag.
Proof. solve_decision. Defined.

Record AstNode : Type := mkNode {
  n_tag : AstTag;
  n_lhs : nat;
  n_rhs : nat;
  n_val : Z;
  n_name : LinStr
}.

Abbreviation AstArena := (list AstNode).

Record VarBinding : Type := mkBinding { vb_name : list Z; vb_val : Z }.

Definition ast_arena_init : AstArena := [].

Definition ast_arena_add (a : AstArena) (tag : AstTag) (left right : nat) (val : Z)
    (name : LinStr) : res LinErr (nat * AstArena) :=
  if (LIN_ARENA_CAP <=? length a)%nat then Err LIN_ERR_ARENA_OOM
  else Ok (length a, a ++ [mkNode tag left right val name]).

(** The environment loop of [TAG_VAR_REF]: first binding with that name. *)
Fixpoint env_index (env : list VarBinding) (name : LinStr) : option nat :=
  match env with
  | [] => None
  | b :: env =>
      if lin_str_eq_cstr name (vb_name b) then Some O
      else option_map S (env_index env name)
  end.

Definition env_lookup (env : list VarBinding) (name : LinStr) : option Z :=
  match env_index env name with
  | Some i => vb_val <$> env !! i
  | None => None
  end.

(** The arithmetic of a binary tag once both operands are evaluated. *)
Definition eval_bin (tag : AstTag) (l r : Z) : res LinErr Z :=
  match tag with
  | TAG_ADD => Ok (lin_wadd l r)
  | TAG_SUB => Ok (lin_wsub l r)
  | TAG_MUL => Ok (lin_wmul l r)
  | TAG_DIV => if r =? 0 then Err LIN_ERR_DIV_ZERO else Ok (lin_wdiv l r)
  | TAG_MOD => if r =? 0 then Err LIN_ERR_DIV_ZERO else Ok (lin_wrem l r)
  | TAG_EQ => Ok (if l =? r then 1 else 0)
  | TAG_NEQ => Ok (if negb (l =? r) then 1 else 0)
  | TAG_LT => Ok (if l <? r then 1 else 0)
  | TAG_LTE => Ok (if l <=? r then 1 else 0)
  | TAG_GT => Ok (if l >? r then 1 else 0)
  | TAG_GTE => Ok (if l >=? r then 1 else 0)
  | _ => Err LIN_ERR_INVALID_NODE
  end.

(** [ast_arena_eval]: recursive post-order evaluation; [None] means that the
    recursion is deeper than [fuel] (never the case on a parsed arena). *)
Fixpoint ast_arena_eval (fuel : nat) (a : AstArena) (node : nat) (env : list VarBinding)
    : option (res LinErr Z) :=
  match fuel with
  | O => None
  | S fuel =>
      match a !! node with
      | None => Some (Err LIN_ERR_INVALID_NODE)
      | Some n =>
          match n_tag n with
          | TAG_LIT => Some (Ok (n_val n))
          | TAG_VAR_REF =>
              Some (match env_lookup env (n_name n) with
                    | Some v => Ok v
                    | None => Err LIN_ERR_UNDEF_VAR
                    end)
          | TAG_UNARY_POS => ast_arena_eval fuel a (n_lhs n) env
          | TAG_UNARY_NEG =>
              match ast_arena_eval fuel a (n_lhs n) env with
              | Some (Ok v) => Some (Ok (lin_wsub 0 v))
              | r => r
              end
          | TAG_CALL | TAG_CALL_ARG => Some (Err LIN_ERR_UNDEF_VAR)
          | tag =>
              match ast_arena_eval fuel a (n_lhs n) env with
              | Some (Ok l) =>
                  match ast_arena_eval fuel a (n_rhs n) env with
                  | Some (Ok r) => Some (eval_bin tag l r)
                  | r => r
                  end
              | r => r
              end
          end
      end
  end.

Definition ast_tag_name (t : AstTag) : string :=
  match t with
  | TAG_LIT => "lit"
  | TAG_VAR_REF => "var_ref"
  | TAG_UNARY_POS => "unary_pos"
  | TAG_UNARY_NEG => "unary_neg"
  | TAG_ADD => "add"
  | TAG_SUB => "sub"
  | TAG_MUL => "mul"
  | TAG_DIV => "div"
  | TAG_MOD => "mod"
  | TAG_EQ => "eq"
  | TAG_NEQ => "neq"
  | TAG_LT => "lt"
  | TAG_LTE => "lte"
  | TAG_GT => "gt"
  | TAG_GTE => "gte"
  | TAG_CALL => "call"
  | TAG_CALL_ARG => "call_arg"
  end.

(** ** The expressions an arena stores

    The abstract counterpart of the table: trees, their meaning, and the relation
    between an index and the tree it roots. *)

Inductive binop : Type :=
| B_add | B_sub | B_mul | B_div | B_mod | B_eq | B_neq | B_lt | B_lte | B_gt | B_gte.

Inductive expr : Type :=
| E_lit (v : Z)
| E_var (name : LinStr)
| E_pos (e : expr)
| E_neg (e : expr)
| E_bin (op : binop) (l r : expr)
| E_call (name : LinStr) (args : list expr).

Definition tag_of_binop (op : binop) : AstTag :=
  match op with
  | B_add => TAG_ADD | B_sub => TAG_SUB | B_mul => TAG_MUL | B_div => TAG_DIV
  | B_mod => TAG_MOD | B_eq => TAG_EQ | B_neq => TAG_NEQ | B_lt => TAG_LT
  | B_lte => TAG_LTE | B_gt => TAG_GT | B_gte => TAG_GTE
  end.

(** Mathematical meaning: exact integer operation, then wrapped. *)
Definition binop_sem (op : binop) (l r : Z) : res LinErr Z :=
  match op with
  | B_add => Ok (i64 (l + r))
  | B_sub => Ok (i64 (l - r))
  | B_mul => Ok (i64 (l * r))
  | B_div => if decide (r = 0) then Err LIN_ERR_DIV_ZERO else Ok (i64 (Z.quot l r))
  | B_mod => if decide (r = 0) then Err LIN_ERR_DIV_ZERO else Ok (Z.rem l r)
  | B_eq => Ok (if decide (l = r) then 1 else 0)
  | B_neq => Ok (if decide (l = r) then 0 else 1)
  | B_lt => Ok (if decide (l < r) then 1 else 0)
  | B_lte => Ok (if decide (l <= r) then 1 else 0)
  | B_gt => Ok (if decide (r < l) then 1 else 0)
  | B_gte => Ok (if decide (r <= l) then 1 else 0)
  end.

Fixpoint eval_expr (env : list VarBinding) (e : expr) : res LinErr Z :=
  match e with
  | E_lit v => Ok v
  | E_var x => match env_lookup env x with Some v => Ok v | None => Err LIN_ERR_UNDEF_VAR end
  | E_pos e => eval_expr env e
  | E_neg e => let* v := eval_expr env e in Ok (i64 (- v))
  | E_bin op l r =>
      let* x := eval_expr env l in
      let* y := eval_expr env r in
      binop_sem op x y
  | E_call _ _ => Err LIN_ERR_UNDEF_VAR
  end.

(** Arena nodes an expression occupies, and its height. *)
Fixpoint esize (e : expr) : nat :=
  match e with
  | E_lit _ | E_var _ => 1
  | E_pos e | E_neg e => S (esize e)
  | E_bin _ l r => S (esize l + esize r)
  | E_call _ args => S (sum_list (map (fun e => S (esize e)) args))
  end.

Fixpoint eheight (e : expr) : nat :=
  match e with
  | E_lit _ | E_var _ | E_call _ _ => 1
  | E_pos e | E_neg e => S (eheight e)
  | E_bin _ l r => S (Nat.max (eheight l) (eheight r))
  end.

(** All literals are [int64_t] values. *)
Fixpoint lits_ok (e : expr) : Prop :=
  match e with
  | E_lit v => in_i64 v
  | E_var _ | E_call _ _ => True
  | E_pos e | E_neg e => lits_ok e
  | E_bin _ l r => lits_ok l /\ lits_ok r
  end.

(** The linked list of [TAG_CALL_ARG] nodes, last argument first. *)
Fixpoint arg_chain (a : AstArena) (root : nat) (rargs : list nat) : Prop :=
  match rargs with
  | [] => root = O
  | i :: rargs =>
      exists prev, a !! root = Some (mkNode TAG_CALL_ARG i prev 0 []) /\
        arg_chain a prev rargs
  end.

Inductive repr (a : AstArena) : nat -> expr -> Prop :=
| R_lit n v : a !! n = Some (mkNode TAG_LIT 0 0 v []) -> repr a n (E_lit v)
| R_var n x : a !! n = Some (mkNode TAG_VAR_REF 0 0 0 x) -> repr a n (E_var x)
| R_pos n i e :
    a !! n = Some (mkNode TAG_UNARY_POS i 0 0 []) -> repr a i e -> repr a n (E_pos e)
| R_neg n i e :
    a !! n = Some (mkNode TAG_UNARY_NEG i 0 0 []) -> repr a i e -> repr a n (E_neg e)
| R_bin n op i j l r :
    a !! n = Some (mkNode (tag_of_binop op) i j 0 []) ->
    repr a i l -> repr a j r -> repr a n (E_bin op l r)
| R_call n root idxs x args :
    a !! n = Some (mkNode TAG_CALL root 0 (Z.of_nat (length args)) x) ->
    arg_chain a root (rev idxs) ->
    Forall2 (repr a) idxs args ->
    repr a n (E_call x args).

Definition env_ok (env : list VarBinding) : Prop := Forall (fun b => in_i64 (vb_val b)) env.

(** ** Evaluation of an arena is evaluation of the tree *)

Lemma env_index_lt env x i : env_index env x = Some i -> (i < length env)%nat.
Proof.
  revert i. induction env as [|b env IH]; intros i H; simpl in *; [done|].
  case_match; [simplify_eq; lia|].
  destruct (env_index env x) eqn:E; simplify_eq/=. specialize (IH _ eq_refl). lia.
Qed.

Lemma env_lookup_range env x v : env_ok env -> env_lookup env x = Some v -> in_i64 v.
Proof.
  intros He H. unfold env_lookup in H. case_match; [|done].
  apply fmap_Some in H as (b & Hb & ->). by eapply Forall_lookup_1 in He.
Qed.

Lemma eval_bin_sem op l r :
  in_i64 l -> in_i64 r -> eval_bin (tag_of_binop op) l r = binop_sem op l r.
Proof.
  intros Hl Hr.
  destruct op; simpl; rewrite ?lin_wadd_eq, ?lin_wsub_eq, ?lin_wmul_eq; try done;
    repeat case_decide; repeat case_match; to_prop; try done; try lia.
  - by rewrite lin_wdiv_eq.
  - f_equal. by apply lin_wrem_eq.
Qed.

Lemma binop_sem_range op l r v :
  in_i64 l -> in_i64 r -> binop_sem op l r = Ok v -> in_i64 v.
Proof.
  intros Hl Hr. destruct op; simpl; repeat case_decide; intros; simplify_eq;
    try apply i64_range; try (unfold_ints; lia).
  destruct (lin_wrem_eq l r) as [<- ?]; done.
Qed.

Lemma eval_expr_range env e v :
  env_ok env -> lits_ok e -> eval_expr env e = Ok v -> in_i64 v.
Proof.
  intros He. revert v. induction e as [w|x|e IH|e IH|op l IHl r IHr|x args]; simpl; intros v Hl H.
  - by simplify_eq.
  - case_match; simplify_eq. by eapply env_lookup_range.
  - eauto.
  - case_match; simplify_eq. apply i64_range.
  - destruct Hl. case_match; [|done]. case_match; [|done].
    eapply binop_sem_range; [| |done]; eauto.
  - done.
Qed.

Lemma tag_of_binop_eval fuel a n env node op :
  a !! n = Some node -> n_tag node = tag_of_binop op ->
  ast_arena_eval (S fuel) a n env =
    match ast_arena_eval fuel a (n_lhs node) env with
    | Some (Ok l) =>
        match ast_arena_eval fuel a (n_rhs node) env with
        | Some (Ok r) => Some (eval_bin (tag_of_binop op) l r)
        | r => r
        end
    | r => r
    end.
Proof. intros Hn Ht. simpl. rewrite Hn, Ht. by destruct op. Qed.

Lemma ast_eval_repr a n e env fuel :
  repr a n e -> env_ok env -> lits_ok e -> (eheight e <= fuel)%nat ->
  ast_arena_eval fuel a n env = Some (eval_expr env e).
Proof.
  intros Hr He. revert fuel. induction Hr as
    [n v Hn|n x Hn|n i e Hn _ IH|n i e Hn _ IH|n op i j l r Hn _ IHl _ IHr|n root idxs x args Hn];
    simpl; intros fuel Hl Hf; (destruct fuel as [|fuel]; [lia|]).
  - simpl. by rewrite Hn.
  - simpl. by rewrite Hn.
  - simpl. rewrite Hn. simpl. apply IH; [done|lia].
  - simpl. rewrite Hn. simpl. rewrite IH by (done || lia).
    case_match; [|done]. by rewrite lin_wsub_eq.
  - erewrite tag_of_binop_eval by done. destruct Hl. simpl.
    rewrite IHl, IHr by (done || lia).
    case_match eqn:E1; [|done]. case_match eqn:E2; [|done].
    rewrite eval_bin_sem; [done| |]; eauto using eval_expr_range.
  - simpl. by rewrite Hn.
Qed.

(** ** Representation is kept when the arena grows *)

Lemma arg_chain_mono a b root l : arg_chain a root l -> arg_chain (a ++ b) root l.
Proof.
  revert root. induction l as [|i l IH]; intros root; simpl; [done|].
  intros (prev & H & Hc). exists prev. split; [by apply lookup_app_l_Some|by apply IH].
Qed.

Section repr_ind.
Context (a : AstArena) (P : nat -> expr -> Prop).
Hypothesis Hlit : forall n v, a !! n = Some (mkNode TAG_LIT 0 0 v []) -> P n (E_lit v).
Hypothesis Hvar : forall n x, a !! n = Some (mkNode TAG_VAR_REF 0 0 0 x) -> P n (E_var x).
Hypothesis Hpos : forall n i e, a !! n = Some (mkNode TAG_UNARY_POS i 0 0 []) ->
  repr a i e -> P i e -> P n (E_pos e).
Hypothesis Hneg : forall n i e, a !! n = Some (mkNode TAG_UNARY_NEG i 0 0 []) ->
  repr a i e -> P i e -> P n (E_neg e).
Hypothesis Hbin : forall n op i j l r,
  a !! n = Some (mkNode (tag_of_binop op) i j 0 []) ->
  repr a i l -> P i l -> repr a j r -> P j r -> P n (E_bin op l r).
Hypothesis Hcall : forall n root idxs x args,
  a !! n = Some (mkNode TAG_CALL root 0 (Z.of_nat (length args)) x) ->
  arg_chain a root (rev idxs) -> Forall2 (fun i e => repr a i e /\ P i e) idxs args ->
  P n (E_call x args).

Fixpoint repr_ind' n e (H : repr a n e) {struct H} : P n e :=
  match H with
  | R_lit _ n v H => Hlit n v H
  | R_var _ n x H => Hvar n x H
  | R_pos _ n i e Hn Hr => Hpos n i e Hn Hr (repr_ind' i e Hr)
  | R_neg _ n i e Hn Hr => Hneg n i e Hn Hr (repr_ind' i e Hr)
  | R_bin _ n op i j l r Hn Hl Hr =>
      Hbin n op i j l r Hn Hl (repr_ind' i l Hl) Hr (repr_ind' j r Hr)
  | R_call _ n root idxs x args Hn Hc Ha =>
      Hcall n root idxs x args Hn Hc
        ((fix go ixs es (Ha : Forall2 (repr a) ixs es) {struct Ha} :
            Forall2 (fun i e => repr a i e /\ P i e) ixs es :=
            match Ha with
            | List.Forall2_nil _ => List.Forall2_nil _
            | @List.Forall2_cons _ _ _ i e ixs es Hi Ha =>
                @List.Forall2_cons _ _ _ i e ixs es (conj Hi (repr_ind' i e Hi)) (go ixs es Ha)
            end) idxs args Ha)
  end.
End repr_ind.

Lemma repr_mono a b n e : repr a n e -> repr (a ++ b) n e.
Proof.
  induction 1 as [n v Hn|n x Hn|n i e Hn _ IH|n i e Hn _ IH|n op i j l r Hn _ IHl _ IHr
    |n root idxs x args Hn Hc Ha] using repr_ind';
    [eapply R_lit|eapply R_var|eapply R_pos|eapply R_neg|eapply R_bin|eapply R_call];
    try (by apply lookup_app_l_Some); try done.
  - by apply arg_chain_mono.
  - eapply Forall2_impl; [|exact Ha]. by intros ?? [_ ?].
Qed.
#[export] Hint Resolve repr_mono arg_chain_mono : lin.

(**  [ast_arena_eval] on an index that roots the tree [e] terminates for any
    fuel at least the height of the tree and returns exactly the value, or the
    first error in evaluation order, that the mathematical semantics of [e] gives:
    every operation is the exact integer operation wrapped to [int64_t]. *)
Theorem ast_arena_eval_correct (a : AstArena) (n : nat) (e : expr)
    (env : list VarBinding) (fuel : nat) :
  repr a n e -> env_ok env -> lits_ok e -> (eheight e <= fuel)%nat ->
  ast_arena_eval fuel a n env = Some (eval_expr env e) /\
  (forall v, eval_expr env e = Ok v -> in_i64 v).
Proof.
  intros. split; [by apply ast_eval_repr|]. intros. by eapply eval_expr_range.
Qed.

Lemma ast_arena_eval_correct_witness :
  let a := [mkNode TAG_LIT 0 0 INT64_MAX []; mkNode TAG_VAR_REF 0 0 0 (cstr "x");
            mkNode TAG_ADD 0 1 0 []] in
  let env := [mkBinding (cstr "x") 1] in
  repr a 2 (E_bin B_add (E_lit INT64_MAX) (E_var (cstr "x"))) /\
  ast_arena_eval 2 a 2 env = Some (Ok INT64_MIN).
Proof.
  intros a env.
  assert (repr a 2 (E_bin B_add (E_lit INT64_MAX) (E_var (cstr "x")))) as Hr.
  { apply R_bin with (i := O) (j := 1%nat); [reflexivity|by apply R_lit|by apply R_var]. }
  split; [exact Hr|].
  destruct (ast_arena_eval_correct a 2 _ env 2 Hr) as [H _].
  - repeat constructor; unfold_ints; simpl; lia.
  - simpl. unfold_ints. lia.
  - simpl. lia.
  - rewrite H. reflexivity.
Defined.
