(* ===== verification/Parse.v ===== *)
(** * lin_parse.c: the Pratt parser

    The parser functions are mutually recursive; [fuel] bounds the nesting of
    their calls ([None] = exhausted, excluded by [parse_full_total]).  A failing
    call returns only its code: every caller returns at once, so neither the
    out-parameter nor the parser state is read after a failure. *)
From stdpp Require Import strings.
From S2P Require Import Prelude Common Token Ast.

Record Parser : Type := mkParser {
  p_src : LinStr;
  p_pos : nat;
  p_arena : AstArena;
  p_depth : nat
}.

Definition parser_init (src : LinStr) : Parser := mkParser src 0 ast_arena_init 0.

(** Consume one token; [peek] leaves the position alone. *)
Definition next (p : Parser) : Token * Parser :=
  let '(t, pos) := lin_next_token (p_src p) (p_pos p) in
  (t, mkParser (p_src p) pos (p_arena p) (p_depth p)).
Definition peek (p : Parser) : Token := fst (lin_next_token (p_src p) (p_pos p)).

Definition set_depth (p : Parser) (d : nat) : Parser :=
  mkParser (p_src p) (p_pos p) (p_arena p) d.

Definition get_precedence (k : TokKind) : nat :=
  match k with
  | TOK_EQ | TOK_NEQ | TOK_LT | TOK_LTE | TOK_GT | TOK_GTE => 1
  | TOK_PLUS | TOK_MINUS => 2
  | TOK_MUL | TOK_DIV | TOK_MOD => 3
  | _ => 0
  end.

(** The [op_tag] switch of [parse_expression]. *)
Definition op_tag_of (k : TokKind) : option AstTag :=
  match k with
  | TOK_PLUS => Some TAG_ADD
  | TOK_MINUS => Some TAG_SUB
  | TOK_MUL => Some TAG_MUL
  | TOK_DIV => Some TAG_DIV
  | TOK_MOD => Some TAG_MOD
  | TOK_EQ => Some TAG_EQ
  | TOK_NEQ => Some TAG_NEQ
  | TOK_LT => Some TAG_LT
  | TOK_LTE => Some TAG_LTE
  | TOK_GT => Some TAG_GT
  | TOK_GTE => Some TAG_GTE
  | _ => None
  end.

Definition presult (A : Type) : Type := option (res LinErr (A * Parser)).

Notation "'do*' x ':=' m 'in' k" :=
  (match m with
   | Some (Ok x) => k
   | Some (Err e) => Some (Err e)
   | None => None
   end)
  (at level 10, x pattern, m at level 100, k at level 200) : lin_scope.

(** [ast_arena_add] on the parser's own arena. *)
Definition add_node (p : Parser) (tag : AstTag) (l r : nat) (v : Z) (nm : LinStr)
    : presult nat :=
  match ast_arena_add (p_arena p) tag l r v nm with
  | Ok (i, a) => Some (Ok (i, mkParser (p_src p) (p_pos p) a (p_depth p)))
  | Err e => Some (Err e)
  end.

(** The [call_arg] list: one node per argument, each pointing to the previous;
    the result is the last node, 0 when there is none. *)
Fixpoint add_call_args (p : Parser) (args : list nat) (prev_arg_node : nat) : presult nat :=
  match args with
  | [] => Some (Ok (prev_arg_node, p))
  | i :: args =>
      do* (idx, p) := add_node p TAG_CALL_ARG i prev_arg_node 0 [] in
      add_call_args p args idx
  end.

Fixpoint parse_primary_impl (fuel : nat) (p : Parser) : presult nat :=
  match fuel with
  | O => None
  | S fuel =>
      let '(tok, p) := next p in
      match tok_kind tok with
      | TOK_INT_LIT => add_node p TAG_LIT 0 0 (tok_val tok) []
      | TOK_IDENT =>
          match tok_kind (peek p) with
          | TOK_LPAREN =>
              let '(_, p) := next p in
              do* (args, p) :=
                (match tok_kind (peek p) with
                 | TOK_RPAREN => let '(_, p) := next p in Some (Ok ([], p))
                 | _ => parse_args fuel p []
                 end) in
              do* (call_root, p) := add_call_args p args 0 in
              add_node p TAG_CALL call_root 0 (Z.of_nat (length args)) (tok_name tok)
          | _ => add_node p TAG_VAR_REF 0 0 0 (tok_name tok)
          end
      | TOK_PLUS =>
          do* (operand, p) := parse_primary fuel p in
          add_node p TAG_UNARY_POS operand 0 0 []
      | TOK_MINUS =>
          do* (operand, p) := parse_primary fuel p in
          add_node p TAG_UNARY_NEG operand 0 0 []
      | TOK_LPAREN =>
          do* (expr_node, p) := parse_expression fuel p 0 in
          let '(close_tok, p) := next p in
          match tok_kind close_tok with
          | TOK_RPAREN => Some (Ok (expr_node, p))
          | _ => Some (Err LIN_ERR_MISSING_CLOSE_PAREN)
          end
      | _ => Some (Err LIN_ERR_UNEXPECTED_PRIMARY)
      end
  end

with parse_primary (fuel : nat) (p : Parser) : presult nat :=
  match fuel with
  | O => None
  | S fuel =>
      if (LIN_PARSER_MAX_DEPTH <? p_depth p)%nat then Some (Err LIN_ERR_PARSE_TOO_DEEP)
      else
        do* (i, p') := parse_primary_impl fuel (set_depth p (p_depth p + 1)) in
        Some (Ok (i, set_depth p' (p_depth p' - 1)))
  end

(** The argument loop of a call, [args] being the indices parsed so far. *)
with parse_args (fuel : nat) (p : Parser) (args : list nat) : presult (list nat) :=
  match fuel with
  | O => None
  | S fuel =>
      if (LIN_MAX_ARGS <=? length args)%nat then Some (Err LIN_ERR_ARENA_OOM)
      else
        do* (i, p) := parse_expression fuel p 0 in
        match tok_kind (peek p) with
        | TOK_COMMA => let '(_, p) := next p in parse_args fuel p (args ++ [i])
        | TOK_RPAREN => let '(_, p) := next p in Some (Ok (args ++ [i], p))
        | _ => Some (Err LIN_ERR_MISSING_CLOSE_PAREN)
        end
  end

with parse_expression (fuel : nat) (p : Parser) (min_prec : nat) : presult nat :=
  match fuel with
  | O => None
  | S fuel =>
      do* (left_node, p) := parse_primary fuel p in
      parse_loop fuel p min_prec left_node
  end

(** The [while (1)] of [parse_expression]. *)
with parse_loop (fuel : nat) (p : Parser) (min_prec left_node : nat) : presult nat :=
  match fuel with
  | O => None
  | S fuel =>
      let next_tok := peek p in
      let prec := get_precedence (tok_kind next_tok) in
      if (prec =? 0)%nat || (prec <=? min_prec)%nat then Some (Ok (left_node, p))
      else
        let '(_, p) := next p in
        do* (right_node, p) := parse_expression fuel p prec in
        match op_tag_of (tok_kind next_tok) with
        | None => Some (Err LIN_ERR_INVALID_BINARY_OP)
        | Some op_tag =>
            do* (left_node, p) := add_node p op_tag left_node right_node 0 [] in
            parse_loop fuel p min_prec left_node
        end
  end.

Definition parse_full (fuel : nat) (p : Parser) : presult nat :=
  do* (root, p) := parse_expression fuel p 0 in
  let '(end_tok, p) := next p in
  match tok_kind end_tok with
  | TOK_EOF => Some (Ok (root, p))
  | _ => Some (Err LIN_ERR_TRAILING_TOKENS)
  end.

(** Fuel that suffices for a parser: six nested calls per remaining byte. *)
Definition parse_fuel (p : Parser) : nat := 6 * (length (p_src p) - p_pos p) + 6.

Example parse_assoc :
  match parse_full 200 (parser_init (cstr "100 - 20 - 10")) with
  | Some (Ok (root, p)) => ast_arena_eval 9 (p_arena p) root [] = Some (Ok 70)
  | _ => False
  end.
Proof. vm_compute. reflexivity. Qed.

Example parse_chain :
  match parse_full 200 (parser_init (cstr "1 < 2 < 3 * f(1, x+2)")) with
  | Some (Ok (root, p)) => length (p_arena p) = 13%nat
  | _ => False
  end.
Proof. vm_compute. reflexivity. Qed.
