(* ===== verification/ParseSpec.v ===== *)
(** * The grammar of C expressions, and lin_parse.c against it

    [derives m d ts e]: the token list [ts] spells the expression [e] all of
    whose top-level operators bind tighter than level [m], with at most [d]
    nested primaries.  Levels are those of the C grammar; the left operand of
    an operator of level [q] may contain operators of level [q] (left
    associativity), the right one may not. *)
From stdpp Require Import strings.
From S2P Require Import Prelude Common Token Ast Parse.

(** Consecutive non-EOF tokens of a source. *)
Inductive lexes (src : list Z) : nat -> list Token -> nat -> Prop :=
| lexes_nil pos : lexes src pos [] pos
| lexes_cons pos t p1 ts p2 :
    lin_next_token src pos = (t, p1) -> tok_kind t <> TOK_EOF ->
    lexes src p1 ts p2 -> lexes src pos (t :: ts) p2.

(** The whole source is the tokens [ts]. *)
Definition lexes_all (src : list Z) (ts : list Token) : Prop :=
  exists pos, lexes src 0 ts pos /\ tok_kind (lin_peek_token src pos) = TOK_EOF.

Definition binop_of_tok (k : TokKind) : option binop :=
  match k with
  | TOK_PLUS => Some B_add | TOK_MINUS => Some B_sub
  | TOK_MUL => Some B_mul | TOK_DIV => Some B_div | TOK_MOD => Some B_mod
  | TOK_EQ => Some B_eq | TOK_NEQ => Some B_neq
  | TOK_LT => Some B_lt | TOK_LTE => Some B_lte
  | TOK_GT => Some B_gt | TOK_GTE => Some B_gte
  | _ => None
  end.

(** Comparisons bind less than sums, sums less than products. *)
Definition level (op : binop) : nat :=
  match op with
  | B_eq | B_neq | B_lt | B_lte | B_gt | B_gte => 1
  | B_add | B_sub => 2
  | B_mul | B_div | B_mod => 3
  end.

Inductive derives : nat -> nat -> list Token -> expr -> Prop :=
| D_prim m d ts e : primary d ts e -> derives m d ts e
| D_bin m d op t ts1 ts2 l r :
    binop_of_tok (tok_kind t) = Some op ->
    (m < level op)%nat ->
    derives (level op - 1) d ts1 l ->
    derives (level op) d ts2 r ->
    derives m d (ts1 ++ t :: ts2) (E_bin op l r)
with primary : nat -> list Token -> expr -> Prop :=
| P_lit d t : tok_kind t = TOK_INT_LIT -> primary (S d) [t] (E_lit (tok_val t))
| P_var d t : tok_kind t = TOK_IDENT -> primary (S d) [t] (E_var (tok_name t))
| P_pos d t ts e :
    tok_kind t = TOK_PLUS -> primary d ts e -> primary (S d) (t :: ts) (E_pos e)
| P_neg d t ts e :
    tok_kind t = TOK_MINUS -> primary d ts e -> primary (S d) (t :: ts) (E_neg e)
| P_paren d t1 t2 ts e :
    tok_kind t1 = TOK_LPAREN -> tok_kind t2 = TOK_RPAREN ->
    derives 0 d ts e -> primary (S d) (t1 :: ts ++ [t2]) e
| P_call d t t1 t2 ts args :
    tok_kind t = TOK_IDENT -> tok_kind t1 = TOK_LPAREN -> tok_kind t2 = TOK_RPAREN ->
    (length args <= LIN_MAX_ARGS)%nat ->
    arglist d ts args -> primary (S d) (t :: t1 :: ts ++ [t2]) (E_call (tok_name t) args)
with arglist : nat -> list Token -> list expr -> Prop :=
| A_nil d : arglist d [] []
| A_one d ts e : derives 0 d ts e -> arglist d ts [e]
| A_cons d ts t ts' e args :
    derives 0 d ts e -> tok_kind t = TOK_COMMA -> args <> [] ->
    arglist d ts' args -> arglist d (ts ++ t :: ts') (e :: args).

Scheme derives_mind := Induction for derives Sort Prop
  with primary_mind := Induction for primary Sort Prop
  with arglist_mind := Induction for arglist Sort Prop.
Combined Scheme grammar_mind from derives_mind, primary_mind, arglist_mind.

(** ** Basic facts *)

Lemma lexes_app src p ts1 p1 ts2 p2 :
  lexes src p ts1 p1 -> lexes src p1 ts2 p2 -> lexes src p (ts1 ++ ts2) p2.
Proof. induction 1; intros; simpl; [done|]. econstructor; eauto. Qed.

Lemma lexes_app_inv src p ts1 ts2 p2 :
  lexes src p (ts1 ++ ts2) p2 -> exists p1, lexes src p ts1 p1 /\ lexes src p1 ts2 p2.
Proof.
  revert p. induction ts1 as [|t ts1 IH]; simpl; intros p H; [by eexists; split; [constructor|]|].
  inversion H as [|? ? p1 ? ? Hn Hk Ht]; subst. apply IH in Ht as (p' & H1 & H2).
  exists p'. split; [by econstructor|done].
Qed.

Lemma lexes_one src p t p1 :
  lin_next_token src p = (t, p1) -> tok_kind t <> TOK_EOF -> lexes src p [t] p1.
Proof. intros. econstructor; [done..|constructor]. Qed.

Lemma lexes_pos src p ts p' :
  lexes src p ts p' -> (p <= length src)%nat -> (p <= p' <= length src)%nat.
Proof.
  induction 1 as [|pos t p1 ts p2 Hn Hk _ IH]; intros; [lia|].
  apply next_token_progress in Hn; [|done]. specialize (IH ltac:(lia)). lia.
Qed.

Lemma derives_level m m' d ts e : derives m d ts e -> (m' <= m)%nat -> derives m' d ts e.
Proof.
  intros H Hm. inversion H; subst; [by apply D_prim|]. eapply D_bin; eauto. lia.
Qed.

Lemma op_tag_binop k op : binop_of_tok k = Some op -> op_tag_of k = Some (tag_of_binop op).
Proof. destruct k; simpl; intros; by simplify_eq. Qed.

(** The table of the parser is that of the grammar. *)
Lemma prec_level k op : binop_of_tok k = Some op -> get_precedence k = level op.
Proof. destruct k; simpl; intros; by simplify_eq. Qed.

Lemma prec_binop k : get_precedence k <> O -> exists op, binop_of_tok k = Some op.
Proof. destruct k; simpl; intros; try done; by eexists. Qed.

Lemma binop_prec k op : binop_of_tok k = Some op -> (1 <= get_precedence k)%nat /\ k <> TOK_EOF /\ k <> TOK_LPAREN.
Proof. destruct k; simpl; intros; simplify_eq; repeat split; try lia; done. Qed.

(** What a successful call leaves unchanged, and the arena it extends. *)
Definition ext (p p' : Parser) : Prop :=
  p_src p' = p_src p /\ p_depth p' = p_depth p /\
  exists b, p_arena p' = p_arena p ++ b.

Lemma ext_refl p : ext p p.
Proof. do 2 (split; [done|]). exists []. by rewrite app_nil_r. Qed.

Lemma ext_trans p q r : ext p q -> ext q r -> ext p r.
Proof.
  intros (E1 & E2 & b & E3) (F1 & F2 & c & F3). split; [congruence|].
  split; [congruence|]. exists (b ++ c). by rewrite F3, E3, app_assoc.
Qed.

Lemma repr_ext p p' i e : ext p p' -> repr (p_arena p) i e -> repr (p_arena p') i e.
Proof. intros (_ & _ & b & ->). apply repr_mono. Qed.

Lemma chain_ext p p' i l : ext p p' -> arg_chain (p_arena p) i l -> arg_chain (p_arena p') i l.
Proof. intros (_ & _ & b & ->). apply arg_chain_mono. Qed.
#[export] Hint Resolve ext_refl ext_trans repr_ext chain_ext : lin.

(** [next] as a step of [lexes]. *)
Lemma next_inv p t p' :
  next p = (t, p') ->
  lin_next_token (p_src p) (p_pos p) = (t, p_pos p') /\ peek p = t /\ ext p p' /\
  p_arena p' = p_arena p.
Proof.
  unfold next, peek. destruct (lin_next_token (p_src p) (p_pos p)) as [t0 p0].
  intros [= <- <-]. simpl. do 2 (split; [done|]). split; [|done].
  do 2 (split; [done|]). exists []. by rewrite app_nil_r.
Qed.

Lemma add_node_ok p tag l r v nm i p' :
  add_node p tag l r v nm = Some (Ok (i, p')) ->
  i = length (p_arena p) /\ ext p p' /\ p_pos p' = p_pos p /\
  length (p_arena p') = S (length (p_arena p)) /\
  p_arena p' !! i = Some (mkNode tag l r v nm).
Proof.
  unfold add_node, ast_arena_add. repeat case_match; intros; simplify_eq. simpl.
  split; [done|]. split; [do 2 (split; [done|]); by eexists|]. split; [done|].
  rewrite length_app. simpl. split; [lia|].
  by rewrite lookup_app_r, Nat.sub_diag by lia.
Qed.

Lemma add_node_room p tag l r v nm :
  (length (p_arena p) < LIN_ARENA_CAP)%nat ->
  exists i p', add_node p tag l r v nm = Some (Ok (i, p')).
Proof.
  intros H. unfold add_node, ast_arena_add.
  destruct (Nat.leb_spec LIN_ARENA_CAP (length (p_arena p))); [lia|]. by do 2 eexists.
Qed.

Lemma add_call_args_ok p idxs prev root p' rest :
  add_call_args p idxs prev = Some (Ok (root, p')) ->
  arg_chain (p_arena p) prev rest ->
  ext p p' /\ p_pos p' = p_pos p /\
  length (p_arena p') = (length (p_arena p) + length idxs)%nat /\
  arg_chain (p_arena p') root (rev idxs ++ rest).
Proof.
  revert p prev rest. induction idxs as [|i idxs IH]; intros p prev rest H Hc; simpl in *.
  - simplify_eq. split; [apply ext_refl|]. split; [done|]. split; [lia|done].
  - repeat case_match; simplify_eq.
    match goal with H : add_node _ _ _ _ _ _ = _ |- _ =>
      apply add_node_ok in H as (-> & He & Hp & Hl & Hn) end.
    eapply (IH _ _ (i :: rest)) in H as (He' & Hp' & Hl' & Hc').
    + split; [eauto using ext_trans|]. split; [congruence|]. split; [lia|].
      by rewrite <- app_assoc.
    + simpl. exists prev. split; [done|]. by eapply chain_ext.
Qed.

(** ** Soundness: what a successful parse has read *)

Definition stops (p : Parser) (m : nat) : Prop :=
  get_precedence (tok_kind (peek p)) = O \/ (get_precedence (tok_kind (peek p)) <= m)%nat.

Definition budget (p : Parser) : nat := (LIN_PARSER_MAX_DEPTH + 1 - p_depth p)%nat.

(** The tokens [ts] lie between [p] and [p'], and [i] roots [e] in the arena of
    [p'], which has exactly the nodes of [e] more than that of [p]. *)
Definition reads (p p' : Parser) (ts : list Token) (i : nat) (e : expr) : Prop :=
  lexes (p_src p) (p_pos p) ts (p_pos p') /\ repr (p_arena p') i e /\ ext p p' /\
  length (p_arena p') = (length (p_arena p) + esize e)%nat.

Definition sound_primary_impl (fuel : nat) : Prop := forall p i p',
  parse_primary_impl fuel p = Some (Ok (i, p')) ->
  exists ts e, primary (S (budget p)) ts e /\ reads p p' ts i e.

Definition sound_primary (fuel : nat) : Prop := forall p i p',
  parse_primary fuel p = Some (Ok (i, p')) ->
  exists ts e, primary (budget p) ts e /\ reads p p' ts i e.

Definition sound_args (fuel : nat) : Prop := forall p args r p',
  parse_args fuel p args = Some (Ok (r, p')) ->
  exists idxs ts t es, r = args ++ idxs /\ (length r <= LIN_MAX_ARGS)%nat /\
    lexes (p_src p) (p_pos p) (ts ++ [t]) (p_pos p') /\ tok_kind t = TOK_RPAREN /\
    es <> [] /\ arglist (budget p) ts es /\ Forall2 (repr (p_arena p')) idxs es /\
    ext p p' /\
    length (p_arena p') = (length (p_arena p) + sum_list (map esize es))%nat.

Definition sound_expression (fuel : nat) : Prop := forall p m i p',
  parse_expression fuel p m = Some (Ok (i, p')) ->
  exists ts e, derives m (budget p) ts e /\ reads p p' ts i e /\ stops p' m.

Definition sound_loop (fuel : nat) : Prop := forall p m left i p' ts0 e0,
  parse_loop fuel p m left = Some (Ok (i, p')) ->
  repr (p_arena p) left e0 ->
  derives (Nat.max m (get_precedence (tok_kind (peek p)) - 1)) (budget p) ts0 e0 ->
  exists ts e, lexes (p_src p) (p_pos p) ts (p_pos p') /\
    derives m (budget p) (ts0 ++ ts) e /\ repr (p_arena p') i e /\ ext p p' /\
    (length (p_arena p') + esize e0 = length (p_arena p) + esize e)%nat /\ stops p' m.

Lemma ext_budget p p' : ext p p' -> budget p' = budget p.
Proof. intros (_ & H & _). unfold budget. by rewrite H. Qed.

Lemma ext_src p p' : ext p p' -> p_src p' = p_src p.
Proof. by intros (H & _). Qed.

(** A token consumed by [next] that is not EOF is one more token read. *)
Lemma next_lexes p t p1 ts pos :
  next p = (t, p1) -> tok_kind t <> TOK_EOF ->
  lexes (p_src p1) (p_pos p1) ts pos -> lexes (p_src p) (p_pos p) (t :: ts) pos.
Proof.
  intros H Hk Hl. apply next_inv in H as (Hn & _ & He & _).
  econstructor; [done..|]. by rewrite <- (ext_src _ _ He).
Qed.

Ltac next_facts H :=
  let E := fresh "Hn" in let P := fresh "Hpk" in let X := fresh "Hx" in
  let A := fresh "Ha" in
  pose proof (next_inv _ _ _ H) as (E & P & X & A).

(** A node added on top of what was read. *)
Lemma reads_add p p1 ts i e p2 j tag l r v nm e' :
  reads p p1 ts i e -> add_node p1 tag l r v nm = Some (Ok (j, p2)) ->
  (repr (p_arena p2) i e -> p_arena p2 !! j = Some (mkNode tag l r v nm) ->
    repr (p_arena p2) j e') ->
  esize e' = S (esize e) ->
  reads p p2 ts j e'.
Proof.
  intros (H1 & H2 & H3 & H4) Ha Hr Hs. apply add_node_ok in Ha as (-> & He & Hp & Hl & Hn).
  split; [by rewrite Hp|]. split; [|split; [eauto using ext_trans|lia]].
  apply Hr; [by eapply repr_ext|done].
Qed.

Lemma reads_next p t p1 p2 ts i e :
  next p = (t, p1) -> tok_kind t <> TOK_EOF -> reads p1 p2 ts i e ->
  lexes (p_src p) (p_pos p) (t :: ts) (p_pos p2) /\ repr (p_arena p2) i e /\ ext p p2 /\
  length (p_arena p2) = (length (p_arena p) + esize e)%nat.
Proof.
  intros Ht Hk (H1 & H2 & H3 & H4). split; [by eapply next_lexes|].
  next_facts Ht. split; [done|]. split; [eauto using ext_trans|congruence].
Qed.

Lemma sound_step_unary fuel p t p1 i p2 tag e' j p3 :
  sound_primary fuel -> next p = (t, p1) -> tok_kind t <> TOK_EOF ->
  parse_primary fuel p1 = Some (Ok (i, p2)) ->
  add_node p2 tag i 0 0 [] = Some (Ok (j, p3)) ->
  (forall a n k e, a !! n = Some (mkNode tag k 0 0 []) -> repr a k e -> repr a n (e' e)) ->
  (forall e, esize (e' e) = S (esize e)) ->
  exists ts e, primary (budget p) ts e /\ reads p p3 (t :: ts) j (e' e).
Proof.
  intros IH Ht Hk Hp Hadd Hr Hs. apply IH in Hp as (ts & e & Hd & Hrd).
  next_facts Ht. rewrite (ext_budget _ _ Hx) in Hd.
  exists ts, e. split; [done|].
  eapply reads_add; [by eapply reads_next|done| |done].
  intros. by eapply Hr.
Qed.

Lemma sound_step_call fuel p t p1 t1 p2 args p3 root p4 i p5 :
  (forall p args r p', parse_args fuel p args = Some (Ok (r, p')) ->
     sound_args fuel -> True) ->
  sound_args fuel ->
  next p = (t, p1) -> tok_kind t = TOK_IDENT ->
  next p1 = (t1, p2) -> tok_kind t1 = TOK_LPAREN ->
  match tok_kind (peek p2) with
  | TOK_RPAREN => let '(_, p) := next p2 in Some (Ok ([], p))
  | _ => parse_args fuel p2 []
  end = Some (Ok (args, p3)) ->
  add_call_args p3 args 0 = Some (Ok (root, p4)) ->
  add_node p4 TAG_CALL root 0 (Z.of_nat (length args)) (tok_name t) = Some (Ok (i, p5)) ->
  exists ts e, primary (S (budget p)) ts e /\ reads p p5 ts i e.
Proof.
  intros _ IH Ht Hk Ht1 Hk1 Hargs Hc Hadd. next_facts Ht. next_facts Ht1.
  assert (exists ts t2 es, lexes (p_src p2) (p_pos p2) (ts ++ [t2]) (p_pos p3) /\
    tok_kind t2 = TOK_RPAREN /\ arglist (budget p) ts es /\
    (length args <= LIN_MAX_ARGS)%nat /\
    Forall2 (repr (p_arena p3)) args es /\ ext p2 p3 /\
    length (p_arena p3) = (length (p_arena p2) + sum_list (map esize es))%nat)
    as (ts & t2 & es & Hl & Hk2 & Hd & Hlen & Hf & He & Hsz).
  { destruct (decide (tok_kind (peek p2) = TOK_RPAREN)) as [E|E].
    - rewrite E in Hargs. destruct (next p2) as [t2 p3'] eqn:Ht2.
      injection Hargs as <- <-.
      next_facts Ht2. exists [], t2, []. rewrite Hpk1 in E. simpl.
      split; [apply lexes_one; [done|congruence]|]. split; [done|].
      split; [constructor|]. split; [unfold LIN_MAX_ARGS; simpl; lia|]. split; [constructor|].
      split; [done|]. rewrite Ha1. simpl. lia.
    - assert (parse_args fuel p2 [] = Some (Ok (args, p3))) as Hargs'.
      { by destruct (tok_kind (peek p2)). }
      apply IH in Hargs' as (idxs & ts & t2 & es & -> & Hlen & Hl & Hk2 & _ & Hd & Hf & He & Hsz).
      rewrite (ext_budget _ _ Hx0), (ext_budget _ _ Hx) in Hd.
      by exists ts, t2, es. }
  pose proof (Forall2_length Hf) as Hlf.
  apply (add_call_args_ok _ _ _ _ _ []) in Hc as (He4 & Hp4 & Hl4 & Hc4); [|done].
  rewrite app_nil_r in Hc4.
  apply add_node_ok in Hadd as (-> & He5 & Hp5 & Hl5 & Hn5).
  exists (t :: t1 :: ts ++ [t2]), (E_call (tok_name t) es).
  split; [apply P_call; congruence|]. split; [|split; [|split]].
  - eapply next_lexes; [done|congruence|]. eapply next_lexes; [done|congruence|].
    by rewrite Hp5, Hp4.
  - eapply R_call; [by rewrite <- Hlf|by eapply chain_ext|].
    eapply Forall2_impl; [|exact Hf]. eauto using repr_ext, ext_trans.
  - eauto 6 using ext_trans.
  - rewrite Hl5, Hl4, Hsz, Ha0, Ha, Hlf. simpl.
    clear. induction es as [|e es IH]; simpl in *; lia.
Qed.

Lemma sound_step_impl fuel :
  sound_primary fuel -> sound_args fuel -> sound_expression fuel ->
  sound_primary_impl (S fuel).
Proof.
  intros IHp IHa IHe p i p' H. cbn [parse_primary_impl] in H.
  destruct (next p) as [t p1] eqn:Ht. next_facts Ht.
  destruct (tok_kind t) eqn:Hk; try discriminate H.
  - (* literal *)
    apply add_node_ok in H as (-> & He & Hp & Hl & Hnd).
    exists [t], (E_lit (tok_val t)). split; [by apply P_lit|].
    split; [eapply next_lexes; [done|congruence|]; rewrite Hp; constructor|].
    split; [by apply R_lit|]. split; [eauto using ext_trans|]. rewrite Hl, Ha. simpl. lia.
  - (* identifier or call *)
    destruct (decide (tok_kind (peek p1) = TOK_LPAREN)) as [E|E].
    + rewrite E in H. destruct (next p1) as [t1 p2] eqn:Ht1. next_facts Ht1.
      rewrite Hpk0 in E.
      destruct (match tok_kind (peek p2) with
        | TOK_RPAREN => let '(_, p) := next p2 in Some (Ok ([], p))
        | _ => parse_args fuel p2 [] end) as [[[args p3]|]|] eqn:Hargs; [|done..].
      destruct (add_call_args p3 args 0) as [[[root p4]|]|] eqn:Hc; [|done..].
      eapply sound_step_call; eauto.
    + assert (add_node p1 TAG_VAR_REF 0 0 0 (tok_name t) = Some (Ok (i, p'))) as H'.
      { by destruct (tok_kind (peek p1)). }
      apply add_node_ok in H' as (-> & He & Hp & Hl & Hnd).
      exists [t], (E_var (tok_name t)). split; [by apply P_var|].
      split; [eapply next_lexes; [done|congruence|]; rewrite Hp; constructor|].
      split; [by apply R_var|]. split; [eauto using ext_trans|]. rewrite Hl, Ha. simpl. lia.
  - (* unary plus *)
    destruct (parse_primary fuel p1) as [[[j p2]|]|] eqn:Hp; [|done..].
    eapply (sound_step_unary _ _ _ _ _ _ _ E_pos) in H as (ts & e & Hd & Hr);
      [|done..|congruence|done|intros; by eapply R_pos|done].
    exists (t :: ts), (E_pos e). split; [by apply P_pos|done].
  - (* unary minus *)
    destruct (parse_primary fuel p1) as [[[j p2]|]|] eqn:Hp; [|done..].
    eapply (sound_step_unary _ _ _ _ _ _ _ E_neg) in H as (ts & e & Hd & Hr);
      [|done..|congruence|done|intros; by eapply R_neg|done].
    exists (t :: ts), (E_neg e). split; [by apply P_neg|done].
  - (* parentheses *)
    destruct (parse_expression fuel p1 0) as [[[j p2]|]|] eqn:Hp; [|done..].
    destruct (next p2) as [t2 p3] eqn:Ht2. next_facts Ht2.
    destruct (tok_kind t2) eqn:Hk2; try discriminate H. injection H as <- <-.
    apply IHe in Hp as (ts & e & Hd & Hrd & _).
    rewrite (ext_budget _ _ Hx) in Hd.
    eapply reads_next in Hrd as (H1 & H2 & H3 & H4); [|done|congruence].
    exists (t :: ts ++ [t2]), e. split; [by apply P_paren|].
    split; [|split; [by eapply repr_ext|split; [eauto using ext_trans|by rewrite Ha0]]].
    rewrite app_comm_cons. eapply lexes_app; [done|].
    apply lexes_one; [|congruence]. by rewrite <- (ext_src _ _ H3).
Qed.

Lemma sound_step_primary fuel : sound_primary_impl fuel -> sound_primary (S fuel).
Proof.
  intros IH p i p' H. cbn [parse_primary] in H.
  destruct (LIN_PARSER_MAX_DEPTH <? p_depth p)%nat eqn:Ed; [done|]. to_prop.
  destruct (parse_primary_impl fuel _) as [[[j p1]|]|] eqn:E; simplify_eq.
  apply IH in E as (ts & e & Hd & H1 & H2 & (Es & Edp & b & Eb) & H4). simpl in *.
  exists ts, e. split.
  - unfold budget in *. simpl in Hd.
    by replace (LIN_PARSER_MAX_DEPTH + 1 - p_depth p)%nat
      with (S (LIN_PARSER_MAX_DEPTH + 1 - (p_depth p + 1)))%nat by lia.
  - split; [done|]. split; [done|]. split; [|done].
    split; [done|]. simpl. split; [lia|]. by exists b.
Qed.

Lemma sound_step_args fuel :
  sound_expression fuel -> sound_args fuel -> sound_args (S fuel).
Proof.
  intros IHe IHa p args r p' H. cbn [parse_args] in H.
  destruct (LIN_MAX_ARGS <=? length args)%nat eqn:El; [done|]. to_prop.
  destruct (parse_expression fuel p 0) as [[[i p1]|]|] eqn:E; [|done..].
  apply IHe in E as (ts & e & Hd & (H1 & H2 & H3 & H4) & _).
  destruct (next p1) as [t p2] eqn:Ht. next_facts Ht. rewrite Hpk in H.
  rewrite (ext_src _ _ H3) in Hn.
  destruct (tok_kind t) eqn:Hk; try discriminate H.
  - (* RPAREN *)
    injection H as <- <-. exists [i], ts, t, [e]. split; [done|].
    split; [rewrite length_app; simpl; lia|].
    split; [eapply lexes_app; [done|]; apply lexes_one; [done|congruence]|].
    split; [done|]. split; [done|]. split; [by apply A_one|].
    split; [by repeat constructor; eapply repr_ext|]. split; [eauto using ext_trans|].
    rewrite Ha, H4. simpl. lia.
  - (* COMMA *)
    apply IHa in H as (idxs & ts' & t' & es & -> & Hlen & Hl & Hk' & Hne & Hd' & Hf & He & Hsz).
    rewrite (ext_budget _ _ Hx), (ext_budget _ _ H3) in Hd'.
    rewrite (ext_src _ _ Hx), (ext_src _ _ H3) in Hl.
    exists (i :: idxs), (ts ++ t :: ts'), t', (e :: es).
    split; [by rewrite <- app_assoc|]. split; [done|].
    split; [rewrite <- app_assoc; eapply lexes_app; [done|]; econstructor; [done|congruence|done]|].
    split; [done|]. split; [done|]. split; [by apply A_cons|].
    split; [constructor; [|done]; eapply repr_ext, repr_ext; eauto|].
    split; [eauto using ext_trans|]. rewrite Hsz, Ha, H4. simpl. lia.
Qed.

Lemma sound_step_expression fuel :
  sound_primary fuel -> sound_loop fuel -> sound_expression (S fuel).
Proof.
  intros IHp IHl p m i p' H. cbn [parse_expression] in H.
  destruct (parse_primary fuel p) as [[[j p1]|]|] eqn:E; [|done..].
  apply IHp in E as (ts & e & Hd & H1 & H2 & H3 & H4).
  eapply (IHl _ _ _ _ _ ts e) in H as (ts' & e' & Hl & Hd' & Hr & He & Hsz & Hst); [|done|].
  - exists (ts ++ ts'), e'. rewrite (ext_budget _ _ H3) in Hd'. split; [done|]. split; [|done].
    rewrite (ext_src _ _ H3) in Hl.
    split; [by eapply lexes_app|]. split; [done|]. split; [eauto using ext_trans|lia].
  - rewrite (ext_budget _ _ H3). by apply D_prim.
Qed.

Lemma sound_step_loop fuel :
  sound_expression fuel -> sound_loop fuel -> sound_loop (S fuel).
Proof.
  intros IHe IHl p m left i p' ts0 e0 H Hr0 Hd0. cbn [parse_loop] in H.
  destruct ((_ =? 0)%nat || _) eqn:Ep; to_prop.
  - simplify_eq. exists [], e0. rewrite app_nil_r. split; [constructor|].
    split; [eapply derives_level; [done|lia]|]. split; [done|]. split; [apply ext_refl|].
    split; [lia|]. destruct Ep; to_prop; [by left|by right].
  - destruct (next p) as [t p1] eqn:Ht. next_facts Ht. rewrite Hpk in *.
    destruct (parse_expression fuel p1 _) as [[[j p2]|]|] eqn:E; [|done..].
    apply IHe in E as (ts & e & Hd & (R1 & R2 & R3 & R4) & Hst).
    destruct (prec_binop (tok_kind t)) as [op Hop]; [done|].
    rewrite (op_tag_binop _ _ Hop) in H.
    destruct (add_node p2 _ left j 0 []) as [[[k p3]|]|] eqn:Ea; [|done..].
    apply add_node_ok in Ea as (-> & He & Hp & Hl & Hnd).
    destruct (binop_prec _ _ Hop) as (_ & Hne & _).
    rewrite (ext_budget _ _ Hx) in Hd.
    assert (ext p p3) as Hx3 by eauto using ext_trans.
    assert (peek p3 = peek p2) as Epk.
    { unfold peek. by rewrite (ext_src _ _ He), Hp. }
    eapply (IHl _ _ _ _ _ (ts0 ++ t :: ts) (E_bin op e0 e)) in H
      as (ts' & e' & Hl' & Hd' & Hr' & He' & Hsz' & Hst').
    + exists (t :: ts ++ ts'), e'. rewrite (ext_budget _ _ Hx3) in Hd'.
      split.
      * econstructor; [done..|]. rewrite (ext_src _ _ Hx) in R1.
        eapply lexes_app; [done|]. by rewrite <- Hp, <- (ext_src _ _ Hx3).
      * rewrite <- app_assoc in Hd'. split; [done|]. split; [done|].
        split; [eauto using ext_trans|]. split; [|done]. simpl in Hsz'. rewrite Ha in R4. lia.
    + eapply R_bin; [exact Hnd|by apply (repr_ext _ _ _ _ Hx3)|by apply (repr_ext _ _ _ _ He)].
    + rewrite (ext_budget _ _ Hx3), Epk. apply D_bin; [done|rewrite <- (prec_level _ _ Hop)..].
      * destruct Hst; lia.
      * eapply derives_level; [done|lia].
      * done.
Qed.

Lemma parser_sound fuel :
  sound_primary_impl fuel /\ sound_primary fuel /\ sound_args fuel /\
  sound_expression fuel /\ sound_loop fuel.
Proof.
  induction fuel as [|fuel (I1 & I2 & I3 & I4 & I5)].
  - repeat split; by repeat intro.
  - split; [by apply sound_step_impl|]. split; [by apply sound_step_primary|].
    split; [by apply sound_step_args|]. split; [by apply sound_step_expression|].
    by apply sound_step_loop.
Qed.

(** ** Totality: the recursion is bounded by the bytes left *)

Definition rem (p : Parser) : nat := (length (p_src p) - p_pos p)%nat.
Definition inside (p : Parser) : Prop := (p_pos p <= length (p_src p))%nat.

Lemma lexes_shrinks src p ts p' :
  lexes src p ts p' -> (p <= length src)%nat ->
  (p + length ts <= p' /\ p' <= length src)%nat.
Proof.
  induction 1 as [|pos t p1 ts p2 Hn Hk _ IH]; intros; simpl; [lia|].
  apply next_token_progress in Hn; [|done]. specialize (IH ltac:(lia)). lia.
Qed.

Lemma grammar_nonempty :
  (forall m d ts e, derives m d ts e -> ts <> []) /\
  (forall d ts e, primary d ts e -> ts <> []) /\
  (forall d ts es, arglist d ts es -> True).
Proof. apply grammar_mind; intros; try done. intros [? ?]%app_eq_nil. done. Qed.

Lemma reads_shrinks p p' ts i e :
  reads p p' ts i e -> inside p -> ts <> [] -> inside p' /\ (rem p' < rem p)%nat.
Proof.
  intros (H1 & _ & H3 & _) Hi Hne. apply lexes_shrinks in H1; [|done].
  unfold inside, rem in *. rewrite (ext_src _ _ H3).
  assert (length ts <> 0)%nat by (destruct ts; simpl; congruence). lia.
Qed.

Lemma next_shrinks p t p1 :
  next p = (t, p1) -> inside p ->
  inside p1 /\ (rem p1 <= rem p)%nat /\ (tok_kind t <> TOK_EOF -> rem p1 < rem p)%nat.
Proof.
  intros H Hi. next_facts H. pose proof (next_token_pos _ _ _ _ Hi Hn) as Hp.
  unfold inside, rem in *. rewrite (ext_src _ _ Hx). split; [lia|]. split; [lia|].
  intros Hk. pose proof (next_token_progress _ _ _ _ Hn Hk). lia.
Qed.

Lemma primary_shrinks fuel p i p' :
  parse_primary fuel p = Some (Ok (i, p')) -> inside p -> inside p' /\ (rem p' < rem p)%nat.
Proof.
  intros H Hi. destruct (parser_sound fuel) as (_ & S2 & _).
  apply S2 in H as (ts & e & Hd & Hr). eapply reads_shrinks; eauto.
  by eapply grammar_nonempty.
Qed.

Lemma expression_shrinks fuel p m i p' :
  parse_expression fuel p m = Some (Ok (i, p')) -> inside p ->
  inside p' /\ (rem p' < rem p)%nat.
Proof.
  intros H Hi. destruct (parser_sound fuel) as (_ & _ & _ & S4 & _).
  apply S4 in H as (ts & e & Hd & Hr & _). eapply reads_shrinks; eauto.
  exact (proj1 grammar_nonempty _ _ _ _ Hd).
Qed.

Lemma add_node_total p tag l r v nm : add_node p tag l r v nm <> None.
Proof. unfold add_node. by case_match; [case_match|]. Qed.

Lemma add_node_rem p tag l r v nm i p' :
  add_node p tag l r v nm = Some (Ok (i, p')) -> rem p' = rem p /\ (inside p -> inside p').
Proof.
  intros (_ & He & Hp & _)%add_node_ok. unfold rem, inside.
  by rewrite Hp, (ext_src _ _ He).
Qed.

Lemma add_call_args_total p idxs prev : add_call_args p idxs prev <> None.
Proof.
  revert p prev. induction idxs as [|i idxs IH]; intros p prev; simpl; [done|].
  pose proof (add_node_total p TAG_CALL_ARG i prev 0 []).
  destruct (add_node _ _ _ _ _ _) as [[[? ?]|]|]; try done.
Qed.

Definition parser_total_at (fuel : nat) : Prop :=
  (forall p, inside p -> (6 * rem p + 1 <= fuel)%nat -> parse_primary_impl fuel p <> None) /\
  (forall p, inside p -> (6 * rem p + 2 <= fuel)%nat -> parse_primary fuel p <> None) /\
  (forall p args, inside p -> (6 * rem p + 4 <= fuel)%nat -> parse_args fuel p args <> None) /\
  (forall p m, inside p -> (6 * rem p + 3 <= fuel)%nat -> parse_expression fuel p m <> None) /\
  (forall p m l, inside p -> (6 * rem p + 1 <= fuel)%nat -> parse_loop fuel p m l <> None).

(** Discharge one recursive call: it is not [None], and if it succeeds the
    remaining input has shrunk. *)
Ltac total_call T :=
  match goal with
  | |- context [match ?c with Some _ => _ | None => _ end] =>
      let E := fresh "E" in
      destruct c as [[[? ?]|]|] eqn:E; [|done|exfalso; revert E; apply T; [done|lia]]
  end.

Lemma primary_impl_total fuel : parser_total_at fuel -> forall p, inside p -> (6 * rem p + 1 <= S fuel)%nat -> parse_primary_impl (S fuel) p <> None.
Proof.
  intros (T1 & T2 & T3 & T4 & T5).
  intros p Hi Hf. cbn [parse_primary_impl].
  destruct (next p) as [t p1] eqn:Ht. destruct (next_shrinks _ _ _ Ht Hi) as (Hi1 & Hr1 & Hr1').
  destruct (tok_kind t) eqn:Hk; try done; try apply add_node_total;
    specialize (Hr1' ltac:(congruence)).
  + destruct (decide (tok_kind (peek p1) = TOK_LPAREN)) as [E|E].
    * rewrite E. destruct (next p1) as [t1 p2] eqn:Ht1.
      destruct (next_shrinks _ _ _ Ht1 Hi1) as (Hi2 & Hr2 & _).
      assert (match tok_kind (peek p2) with
        | TOK_RPAREN => let '(_, p) := next p2 in Some (Ok ([], p))
        | _ => parse_args fuel p2 [] end <> None) as HA.
      { assert (tok_kind t1 = TOK_LPAREN) as Ek by (next_facts Ht1; congruence).
        destruct (next_shrinks _ _ _ Ht1 Hi1) as (_ & _ & Hr2').
        specialize (Hr2' ltac:(congruence)).
        destruct (tok_kind (peek p2)); try (apply T3; [done|lia]). by destruct (next p2). }
      destruct (match tok_kind (peek p2) with
        | TOK_RPAREN => let '(_, p) := next p2 in Some (Ok ([], p))
        | _ => parse_args fuel p2 [] end) as [[[args p3]|]|]; try done.
      pose proof (add_call_args_total p3 args 0).
      destruct (add_call_args p3 args 0) as [[[]|]|]; try done. apply add_node_total.
    * pose proof (add_node_total p1 TAG_VAR_REF 0 0 0 (tok_name t)).
      by destruct (tok_kind (peek p1)).
  + total_call T2. apply add_node_total.
  + total_call T2. apply add_node_total.
  + total_call T4. destruct (next p0) as [t2 p2]. by destruct (tok_kind t2).
Qed.

Lemma loop_total fuel : parser_total_at fuel -> forall p m l, inside p -> (6 * rem p + 1 <= S fuel)%nat -> parse_loop (S fuel) p m l <> None.
Proof.
  intros (T1 & T2 & T3 & T4 & T5).
  intros p m l Hi Hf. cbn [parse_loop].
  destruct ((_ =? 0)%nat || _) eqn:Ep; [done|]. apply orb_false_iff in Ep as [Ep%Nat.eqb_neq _].
  destruct (next p) as [t p1] eqn:Ht. destruct (next_shrinks _ _ _ Ht Hi) as (Hi1 & _ & Hr1).
  assert (tok_kind t <> TOK_EOF) as Hk.
  { next_facts Ht. rewrite Hpk in Ep. by destruct (tok_kind t). }
  specialize (Hr1 Hk). total_call T4.
  destruct (expression_shrinks _ _ _ _ _ E Hi1) as [Hi2 Hr2].
  destruct (op_tag_of _) as [tag|]; [|done].
  pose proof (add_node_total p0 tag l n 0 []).
  destruct (add_node p0 tag l n 0 []) as [[[k p3]|]|] eqn:Ea; try done.
  apply add_node_rem in Ea as [Er Hi3]. apply T5; [by apply Hi3|lia].
Qed.

Lemma parser_total_step fuel : parser_total_at fuel -> parser_total_at (S fuel).
Proof.
  intros HT. pose proof HT as (T1 & T2 & T3 & T4 & T5). split; [by apply primary_impl_total|split; [|split; [|split; [|by apply loop_total]]]].
  - intros p Hi Hf. cbn [parse_primary]. case_match; [done|].
    destruct (parse_primary_impl fuel _) as [[[? ?]|]|] eqn:E; try done.
    exfalso. revert E. apply T1; [done|]. unfold rem in *. simpl in *. lia.
  - intros p args Hi Hf. cbn [parse_args]. case_match; [done|].
    total_call T4. destruct (expression_shrinks _ _ _ _ _ E Hi) as [Hi1 Hr1].
    destruct (next p0) as [t p1] eqn:Ht.
    destruct (next_shrinks _ _ _ Ht Hi1) as (Hi2 & Hr2 & _).
    destruct (tok_kind (peek p0)); try done. apply T3; [done|lia].
  - intros p m Hi Hf. cbn [parse_expression]. total_call T2.
    destruct (primary_shrinks _ _ _ _ E Hi) as [Hi1 Hr1]. apply T5; [done|lia].
Qed.

Lemma parser_total fuel : parser_total_at fuel.
Proof.
  induction fuel as [|fuel IH]; [|by apply parser_total_step].
  unfold parser_total_at. split_and!; intros; exfalso; lia.
Qed.

Lemma parse_full_not_none fuel src :
  (6 * length src + 3 <= fuel)%nat -> parse_full fuel (parser_init src) <> None.
Proof.
  intros Hf. unfold parse_full.
  destruct (parser_total fuel) as (_ & _ & _ & T4 & _).
  assert (inside (parser_init src)) as Hi by (unfold inside; simpl; lia).
  pose proof (T4 (parser_init src) O Hi) as T. unfold rem in T. simpl in T.
  specialize (T ltac:(lia)).
  destruct (parse_expression _ _ _) as [[[i p]|]|]; try done.
  destruct (next p) as [t p1]. by destruct (tok_kind t).
Qed.

(** ** More fuel never changes an answer *)

Definition parser_mono_at (n : nat) : Prop :=
  (forall p r k, (n <= k)%nat -> parse_primary_impl n p = Some r -> parse_primary_impl k p = Some r) /\
  (forall p r k, (n <= k)%nat -> parse_primary n p = Some r -> parse_primary k p = Some r) /\
  (forall p args r k, (n <= k)%nat -> parse_args n p args = Some r -> parse_args k p args = Some r) /\
  (forall p m r k, (n <= k)%nat -> parse_expression n p m = Some r -> parse_expression k p m = Some r) /\
  (forall p m l r k, (n <= k)%nat -> parse_loop n p m l = Some r -> parse_loop k p m l = Some r).

(** Replace a recursive call by its value, known from the smaller fuel. *)
Ltac mono_call M H :=
  match type of H with
  | context [match ?c with Some _ => _ | None => _ end] =>
      let E := fresh "E" in
      destruct c as [[[? ?]|]|] eqn:E; [| |discriminate H];
      erewrite M by (first [exact E|lia]); cbn beta iota in *
  end.

Lemma parser_mono_step n : parser_mono_at n -> parser_mono_at (S n).
Proof.
  intros (M1 & M2 & M3 & M4 & M5).
  split; [|split; [|split; [|split]]]; intros; (destruct k as [|k]; [lia|]).
  - cbn [parse_primary_impl] in *. destruct (next p) as [t p1].
    destruct (tok_kind t); try done.
    + destruct (tok_kind (peek p1)); try done. destruct (next p1) as [t1 p2].
      destruct (tok_kind (peek p2)); try done; mono_call M3 H0; done.
    + mono_call M2 H0; done.
    + mono_call M2 H0; done.
    + mono_call M4 H0; done.
  - cbn [parse_primary] in *. case_match; [done|]. mono_call M1 H0; done.
  - cbn [parse_args] in *. case_match; [done|]. mono_call M4 H0; [|done].
    destruct (tok_kind (peek p0)); try done. destruct (next p0) as [t p1].
    apply M3; [lia|done].
  - cbn [parse_expression] in *. mono_call M2 H0; [|done]. apply M5; [lia|done].
  - cbn [parse_loop] in *. case_match; [done|]. destruct (next p) as [t p1].
    mono_call M4 H0; [|done]. case_match; [|done]. case_match; [|done].
    case_match; [|done]. case_match. subst. apply M5; [lia|done].
Qed.

Lemma parser_mono n : parser_mono_at n.
Proof.
  induction n as [|n IH]; [|by apply parser_mono_step]. unfold parser_mono_at.
  split_and!; intros; discriminate.
Qed.

(** ** Completeness: every derivation within the limits is parsed *)

Definition room (p : Parser) (n : nat) : Prop :=
  (length (p_arena p) + n <= LIN_ARENA_CAP)%nat.

(** The token after the text of an expression of level [q]. *)
Definition follow_ok (src : list Z) (pos : nat) (q : nat) : Prop :=
  tok_kind (lin_peek_token src pos) <> TOK_LPAREN /\
  (get_precedence (tok_kind (lin_peek_token src pos)) <= q)%nat.

Lemma peek_at p : peek p = lin_peek_token (p_src p) (p_pos p).
Proof. done. Qed.

Lemma lexes_cons_inv p t ts pos :
  lexes (p_src p) (p_pos p) (t :: ts) pos ->
  exists p1, next p = (t, p1) /\ peek p = t /\ ext p p1 /\ p_arena p1 = p_arena p /\
    lexes (p_src p1) (p_pos p1) ts pos.
Proof.
  intros H. inversion H as [|? ? p1 ? ? Hn Hk Hl]; subst.
  unfold next, peek. rewrite Hn. eexists. split; [done|]. split; [done|].
  split; [do 2 (split; [done|]); exists []; by rewrite app_nil_r|]. done.
Qed.

Lemma add_node_complete p tag l r v nm :
  room p 1 ->
  exists p', add_node p tag l r v nm = Some (Ok (length (p_arena p), p')) /\ ext p p' /\
    p_pos p' = p_pos p /\ length (p_arena p') = S (length (p_arena p)) /\
    p_arena p' !! length (p_arena p) = Some (mkNode tag l r v nm).
Proof.
  intros Hr. destruct (add_node_room p tag l r v nm) as (i & p' & H).
  { unfold room in Hr. lia. }
  pose proof (add_node_ok _ _ _ _ _ _ _ _ H) as (-> & ?). by exists p'.
Qed.

Lemma add_call_args_complete p idxs prev rest :
  room p (length idxs) -> arg_chain (p_arena p) prev rest ->
  exists root p', add_call_args p idxs prev = Some (Ok (root, p')) /\
    ext p p' /\ p_pos p' = p_pos p /\
    length (p_arena p') = (length (p_arena p) + length idxs)%nat /\
    arg_chain (p_arena p') root (rev idxs ++ rest).
Proof.
  intros Hr Hc.
  assert (exists root p', add_call_args p idxs prev = Some (Ok (root, p'))) as (root & p' & H).
  { clear Hc rest. revert p prev Hr. induction idxs as [|i idxs IH]; intros p prev Hr; simpl.
    - by do 2 eexists.
    - unfold room in *. simpl in Hr.
      destruct (add_node_complete p TAG_CALL_ARG i prev 0 []) as (p' & -> & _ & _ & Hl & _).
      { unfold room. lia. }
      apply IH. lia. }
  exists root, p'. split; [done|]. by eapply add_call_args_ok.
Qed.

Definition complete_primary (d : nat) (ts : list Token) (e : expr) : Prop :=
  forall p pos', (p_depth p + d <= LIN_PARSER_MAX_DEPTH + 1)%nat ->
  lexes (p_src p) (p_pos p) ts pos' -> room p (esize e) ->
  tok_kind (lin_peek_token (p_src p) pos') <> TOK_LPAREN ->
  exists n i p', parse_primary n p = Some (Ok (i, p')) /\ p_pos p' = pos' /\
    reads p p' ts i e.

Definition complete_derives (q d : nat) (ts : list Token) (e : expr) : Prop :=
  forall p m pos', (m <= q)%nat -> (p_depth p + d <= LIN_PARSER_MAX_DEPTH + 1)%nat ->
  lexes (p_src p) (p_pos p) ts pos' -> room p (esize e) ->
  follow_ok (p_src p) pos' (q + 1) ->
  exists i p', p_pos p' = pos' /\ reads p p' ts i e /\
    forall n r, parse_loop n p' m i = Some r -> exists n', parse_expression n' p m = Some r.

Definition complete_args (d : nat) (ts : list Token) (es : list expr) : Prop :=
  forall p args t pos', es <> [] -> (length args + length es <= LIN_MAX_ARGS)%nat ->
  (p_depth p + d <= LIN_PARSER_MAX_DEPTH + 1)%nat ->
  lexes (p_src p) (p_pos p) (ts ++ [t]) pos' -> tok_kind t = TOK_RPAREN ->
  room p (sum_list (map esize es)) ->
  exists n idxs p', parse_args n p args = Some (Ok (args ++ idxs, p')) /\ p_pos p' = pos' /\
    Forall2 (repr (p_arena p')) idxs es /\ ext p p' /\
    length (p_arena p') = (length (p_arena p) + sum_list (map esize es))%nat.

(** A loop that stops at once. *)
Lemma loop_stops p m i :
  (get_precedence (tok_kind (peek p)) <= m)%nat -> parse_loop 1 p m i = Some (Ok (i, p)).
Proof.
  intros H. cbn [parse_loop].
  destruct (Nat.leb_spec (get_precedence (tok_kind (peek p))) m); [|lia].
  by rewrite orb_true_r.
Qed.

Lemma expression_complete q d ts e p m pos' :
  complete_derives q d ts e -> (m <= q)%nat ->
  (p_depth p + d <= LIN_PARSER_MAX_DEPTH + 1)%nat ->
  lexes (p_src p) (p_pos p) ts pos' -> room p (esize e) ->
  follow_ok (p_src p) pos' m ->
  exists n i p', parse_expression n p m = Some (Ok (i, p')) /\ p_pos p' = pos' /\
    reads p p' ts i e.
Proof.
  intros H Hm Hd Hl Hr [Hf1 Hf2].
  destruct (H p m pos') as (i & p' & Hp & Hrd & Hk); try done; [split; [done|lia]|].
  destruct (Hk 1%nat (Ok (i, p'))) as [n' Hn'].
  - apply loop_stops. rewrite peek_at, Hp, (ext_src _ _ (proj1 (proj2 (proj2 Hrd)))). done.
  - by exists n', i, p'.
Qed.

(** Entering [parse_primary] from [parse_primary_impl]. *)
Lemma primary_intro n p i p' :
  (p_depth p <= LIN_PARSER_MAX_DEPTH)%nat ->
  parse_primary_impl n (set_depth p (p_depth p + 1)) = Some (Ok (i, p')) ->
  parse_primary (S n) p = Some (Ok (i, set_depth p' (p_depth p' - 1))).
Proof.
  intros Hd H. cbn [parse_primary].
  destruct (Nat.ltb_spec LIN_PARSER_MAX_DEPTH (p_depth p)); [lia|]. by rewrite H.
Qed.

Lemma reads_depth p p' ts i e :
  reads (set_depth p (p_depth p + 1)) p' ts i e ->
  reads p (set_depth p' (p_depth p' - 1)) ts i e.
Proof.
  intros (H1 & H2 & (E1 & E2 & E3) & H4). simpl in *.
  split; [done|]. split; [done|]. split; [|done]. split; [done|]. simpl. split; [lia|done].
Qed.

(** It is enough to complete [parse_primary_impl] one level deeper. *)
Lemma complete_primary_impl d ts e :
  (forall p pos', (p_depth p + d <= LIN_PARSER_MAX_DEPTH + 1)%nat ->
     lexes (p_src p) (p_pos p) ts pos' -> room p (esize e) ->
     tok_kind (lin_peek_token (p_src p) pos') <> TOK_LPAREN ->
     exists n i p', parse_primary_impl n p = Some (Ok (i, p')) /\ p_pos p' = pos' /\
       reads p p' ts i e) ->
  complete_primary (S d) ts e.
Proof.
  intros H p pos' Hd Hl Hr Hf.
  destruct (H (set_depth p (p_depth p + 1)) pos') as (n & i & p' & Hp & Hpos & Hrd); try done.
  { cbn [set_depth p_depth]. lia. }
  exists (S n), i, (set_depth p' (p_depth p' - 1)). split; [|split; [done|]].
  - apply primary_intro; [lia|done].
  - by apply reads_depth.
Qed.

Lemma room_le p p1 n k :
  room p n -> (length (p_arena p1) + k <= length (p_arena p) + n)%nat -> room p1 k.
Proof. unfold room. lia. Qed.

(** The whole of a one-token primary: one node added after one token. *)
Lemma reads_leaf p t p1 p2 tag l r v nm e :
  next p = (t, p1) -> tok_kind t <> TOK_EOF ->
  add_node p1 tag l r v nm = Some (Ok (length (p_arena p1), p2)) ->
  (p_arena p2 !! length (p_arena p1) = Some (mkNode tag l r v nm) ->
    repr (p_arena p2) (length (p_arena p1)) e) ->
  esize e = 1%nat ->
  reads p p2 [t] (length (p_arena p1)) e.
Proof.
  intros Hn Hk Hadd Hr Hs. next_facts Hn.
  apply add_node_ok in Hadd as (_ & He2 & Hp2 & Hl2 & Hn2).
  split; [rewrite Hp2; by apply lexes_one|]. split; [by apply Hr|].
  split; [eauto using ext_trans|]. rewrite Hl2, Ha, Hs. lia.
Qed.

Lemma complete_lit d t : tok_kind t = TOK_INT_LIT -> complete_primary (S d) [t] (E_lit (tok_val t)).
Proof.
  intros Hk. apply complete_primary_impl. intros p pos' Hd Hl Hr Hf.
  apply lexes_cons_inv in Hl as (p1 & Hn & Hpk & He & Ha & Hl).
  destruct (add_node_complete p1 TAG_LIT 0 0 (tok_val t) []) as (p2 & Hadd & He2 & Hp2 & Hl2 & Hn2).
  { eapply room_le; [done|]. rewrite Ha. cbn [esize]. lia. }
  exists 1%nat, (length (p_arena p1)), p2. cbn [parse_primary_impl]. rewrite Hn, Hk, Hadd.
  inversion Hl; subst. split; [done|]. split; [done|].
  eapply reads_leaf; [done|congruence|done| |done]. by constructor.
Qed.

Lemma complete_var d t : tok_kind t = TOK_IDENT -> complete_primary (S d) [t] (E_var (tok_name t)).
Proof.
  intros Hk. apply complete_primary_impl. intros p pos' Hd Hl Hr Hf.
  apply lexes_cons_inv in Hl as (p1 & Hn & Hpk & He & Ha & Hl).
  destruct (add_node_complete p1 TAG_VAR_REF 0 0 0 (tok_name t)) as (p2 & Hadd & He2 & Hp2 & Hl2 & Hn2).
  { eapply room_le; [done|]. rewrite Ha. cbn [esize]. lia. }
  inversion Hl as [pos Epos|]; subst.
  exists 1%nat, (length (p_arena p1)), p2. cbn [parse_primary_impl]. rewrite Hn, Hk.
  rewrite <- (ext_src _ _ He), <- peek_at in Hf.
  split; [|split; [done|eapply reads_leaf; [done|congruence|done| |done]; by constructor]].
  destruct (tok_kind (peek p1)); congruence.
Qed.

(** The two sign cases differ in the token, the tag and the constructor only. *)
Lemma complete_sign d t ts e tag (e' : expr -> expr) :
  (forall n p t1 p1, next p = (t1, p1) -> tok_kind t1 = tok_kind t ->
    parse_primary_impl (S n) p =
      do* (operand, p2) := parse_primary n p1 in add_node p2 tag operand 0 0 []) ->
  (forall a n k e, a !! n = Some (mkNode tag k 0 0 []) -> repr a k e -> repr a n (e' e)) ->
  (forall e, esize (e' e) = S (esize e)) -> tok_kind t <> TOK_EOF ->
  complete_primary d ts e -> complete_primary (S d) (t :: ts) (e' e).
Proof.
  intros Hstep Hr' Hs Hk IH. apply complete_primary_impl. intros p pos' Hd Hl Hr Hf.
  apply lexes_cons_inv in Hl as (p1 & Hn & Hpk & He & Ha & Hl).
  destruct (IH p1 pos') as (n & i & p2 & Hp2 & Hpos & Hrd); try done.
  - destruct He as (_ & Hdep & _). lia.
  - eapply room_le; [done|]. rewrite Ha, Hs. lia.
  - by rewrite (ext_src _ _ He).
  - pose proof Hrd as (_ & _ & _ & Hsz).
    destruct (add_node_complete p2 tag i 0 0 []) as (p3 & Hadd & He3 & Hp3 & Hl3 & Hn3).
    { eapply room_le; [done|]. rewrite Hsz, Ha, Hs. lia. }
    exists (S n), (length (p_arena p2)), p3.
    split; [rewrite (Hstep _ _ _ _ Hn eq_refl), Hp2; done|]. split; [congruence|].
    eapply reads_add; [by eapply reads_next|done| |done].
    intros. by eapply Hr'.
Qed.

(** An expression of level 0 followed by a delimiter. *)
Lemma delimited_complete d ts e p t rest pos' :
  complete_derives 0 d ts e -> tok_kind t = TOK_RPAREN \/ tok_kind t = TOK_COMMA ->
  (p_depth p + d <= LIN_PARSER_MAX_DEPTH + 1)%nat ->
  lexes (p_src p) (p_pos p) (ts ++ t :: rest) pos' -> room p (esize e) ->
  exists n i p1 p2, parse_expression n p 0 = Some (Ok (i, p1)) /\ reads p p1 ts i e /\
    next p1 = (t, p2) /\ peek p1 = t /\ ext p1 p2 /\ p_arena p2 = p_arena p1 /\
    lexes (p_src p) (p_pos p) (ts ++ [t]) (p_pos p2) /\
    lexes (p_src p2) (p_pos p2) rest pos'.
Proof.
  intros IH Hk Hd (pos1 & Hl1 & Hl2)%lexes_app_inv Hr.
  assert (lin_peek_token (p_src p) pos1 = t) as Hpk.
  { inversion Hl2 as [|? ? ? ? ? Hn2]; subst. unfold lin_peek_token. by rewrite Hn2. }
  destruct (expression_complete 0 d ts e p 0 pos1) as (n & i & p1 & Hp1 & Hpos & Hrd);
    try done.
  { split; rewrite Hpk; destruct Hk as [->| ->]; try done; cbn [get_precedence]; lia. }
  pose proof Hrd as (L & _ & He1 & _).
  rewrite <- Hpos, <- (ext_src _ _ He1) in Hl2.
  apply lexes_cons_inv in Hl2 as (p2 & Hn2 & Hpk2 & He2 & Ha2 & Hl2).
  exists n, i, p1, p2. split_and!; try done. eapply lexes_app; [done|].
  rewrite <- (ext_src _ _ He1). next_facts Hn2.
  apply lexes_one; [done|]. destruct Hk; congruence.
Qed.

Lemma complete_paren d t1 t2 ts e :
  tok_kind t1 = TOK_LPAREN -> tok_kind t2 = TOK_RPAREN ->
  complete_derives 0 d ts e -> complete_primary (S d) (t1 :: ts ++ [t2]) e.
Proof.
  intros Hk1 Hk2 IH. apply complete_primary_impl. intros p pos' Hd Hl Hr Hf.
  apply lexes_cons_inv in Hl as (p1 & Hn & Hpk & He & Ha & Hl).
  pose proof He as (Hsrc & Hdep & _).
  destruct (delimited_complete d ts e p1 t2 [] pos')
    as (n & i & p2 & p3 & Hp2 & Hrd & Hn3 & Hpk3 & He3 & Ha3 & L3 & Hl3);
    try done; [by left|lia|by eapply room_le; [done|rewrite Ha]|].
  inversion Hl3; subst.
  exists (S n), i, p3. cbn [parse_primary_impl]. rewrite Hn, Hk1, Hp2, Hn3, Hk2.
  split; [done|]. split; [done|].
  destruct Hrd as (L & R & E & Z).
  split; [|split; [by rewrite Ha3|split; [eauto using ext_trans|by rewrite Ha3, Z, Ha]]].
  eapply next_lexes; [done|congruence|done].
Qed.

Lemma complete_args_cons d ts e es rest t p args pos' :
  complete_derives 0 d ts e -> (length args + S (length es) <= LIN_MAX_ARGS)%nat ->
  (p_depth p + d <= LIN_PARSER_MAX_DEPTH + 1)%nat ->
  lexes (p_src p) (p_pos p) (ts ++ t :: rest) pos' ->
  tok_kind t = TOK_RPAREN \/ tok_kind t = TOK_COMMA ->
  room p (esize e + sum_list (map esize es)) ->
  exists n i p1 p2, ext p p2 /\ repr (p_arena p2) i e /\
    length (p_arena p2) = (length (p_arena p) + esize e)%nat /\
    lexes (p_src p2) (p_pos p2) rest pos' /\ next p1 = (t, p2) /\
    forall k, (n <= k)%nat -> parse_args (S k) p args =
      match tok_kind t with
      | TOK_COMMA => parse_args k p2 (args ++ [i])
      | TOK_RPAREN => Some (Ok (args ++ [i], p2))
      | _ => Some (Err LIN_ERR_MISSING_CLOSE_PAREN)
      end.
Proof.
  intros IH Hlen Hd Hl Hk Hr.
  destruct (delimited_complete d ts e p t rest pos')
    as (n & i & p1 & p2 & Hp1 & Hrd & Hn2 & Hpk2 & He2 & Ha2 & L2 & Hl2); try done.
  { eapply room_le; [done|]. lia. }
  exists n, i, p1, p2. destruct Hrd as (L & R & E & Z).
  split; [eauto using ext_trans|]. split; [by rewrite Ha2|]. split; [by rewrite Ha2|].
  split; [done|]. split; [done|]. intros k Hnk. cbn [parse_args].
  destruct (Nat.leb_spec LIN_MAX_ARGS (length args)); [lia|].
  destruct (parser_mono n) as (_ & _ & _ & M & _).
  rewrite (M _ _ _ k Hnk Hp1), Hpk2. by rewrite Hn2.
Qed.

Lemma complete_args_one d ts e : complete_derives 0 d ts e -> complete_args d ts [e].
Proof.
  intros IH p args t pos' _ Hlen Hd Hl Hk Hr. simpl in Hlen.
  destruct (complete_args_cons d ts e [] [] t p args pos')
    as (n & i & p1 & p2 & He & R & Z & Hl2 & _ & Hstep); try done; [by left|].
  exists (S n), [i], p2. rewrite Hstep, Hk by lia. inversion Hl2; subst.
  split; [done|]. split; [done|]. split; [by constructor|]. split; [done|]. simpl. lia.
Qed.

Lemma complete_args_more d ts e t ts' es :
  complete_derives 0 d ts e -> tok_kind t = TOK_COMMA -> es <> [] ->
  complete_args d ts' es -> complete_args d (ts ++ t :: ts') (e :: es).
Proof.
  intros IH Hkt Hne IHa p args t2 pos' _ Hlen Hd Hl Hk Hr. simpl in Hlen.
  rewrite <- app_assoc in Hl. cbn [map sum_list sum_list_with foldr] in Hr.
  destruct (complete_args_cons d ts e es (ts' ++ [t2]) t p args pos')
    as (n & i & p1 & p2 & He & R & Z & Hl2 & _ & Hstep); try done; [by right|].
  pose proof He as (_ & Hdep & _).
  destruct (IHa p2 (args ++ [i]) t2 pos')
    as (n2 & idxs & p3 & H3 & Hpos & Hf & He3 & Z3); try done.
  - rewrite length_app. simpl. lia.
  - lia.
  - eapply room_le; [done|]. simpl. lia.
  - exists (S (Nat.max n n2)), (i :: idxs), p3. rewrite Hstep, Hkt by lia.
    destruct (parser_mono n2) as (_ & _ & M & _).
    rewrite (M _ _ _ _ (Nat.le_max_r n n2) H3), <- app_assoc.
    split; [done|]. split; [done|]. split; [constructor; [by eapply repr_ext|done]|].
    split; [eauto using ext_trans|]. simpl. lia.
Qed.

(** No expression starts with a closing parenthesis. *)
Definition starts_expr (ts : list Token) : Prop :=
  exists t ts', ts = t :: ts' /\ tok_kind t <> TOK_RPAREN.

Lemma starts_app ts k : starts_expr ts -> starts_expr (ts ++ k).
Proof. intros (t & ts' & -> & H). by exists t, (ts' ++ k). Qed.

Lemma grammar_starts :
  (forall m d ts e, derives m d ts e -> starts_expr ts) /\
  (forall d ts e, primary d ts e -> starts_expr ts) /\
  (forall d ts es, arglist d ts es -> es <> [] -> starts_expr ts).
Proof.
  apply grammar_mind; intros; try done; try (by apply starts_app);
    (eexists _, _; split; [done|congruence]).
Qed.

Lemma complete_call_args d ts es p pos' t :
  arglist d ts es -> complete_args d ts es -> (length es <= LIN_MAX_ARGS)%nat ->
  (p_depth p + d <= LIN_PARSER_MAX_DEPTH + 1)%nat ->
  lexes (p_src p) (p_pos p) (ts ++ [t]) pos' -> tok_kind t = TOK_RPAREN ->
  room p (sum_list (map esize es)) ->
  exists n idxs p', (forall k, (n <= k)%nat ->
      match tok_kind (peek p) with
      | TOK_RPAREN => let '(_, p) := next p in Some (Ok ([], p))
      | _ => parse_args k p []
      end = Some (Ok (idxs, p'))) /\ p_pos p' = pos' /\
    Forall2 (repr (p_arena p')) idxs es /\ ext p p' /\
    length (p_arena p') = (length (p_arena p) + sum_list (map esize es))%nat.
Proof.
  intros Ha IH Hlen Hd Hl Hk Hr. destruct (decide (es = [])) as [->|Hne].
  - inversion Ha; subst. simpl in Hl.
    apply lexes_cons_inv in Hl as (p1 & Hn & Hpk & He & Har & Hl). inversion Hl; subst.
    exists O, [], p1. rewrite Hk, Hn. split; [done|]. split; [done|]. split; [done|].
    split; [done|]. rewrite Har. simpl. lia.
  - destruct (IH p [] t pos') as (n & idxs & p1 & H1 & Hpos & Hf & He & Z); try done.
    exists n, idxs, p1. split; [|done]. intros k Hnk.
    destruct (proj2 (proj2 grammar_starts) _ _ _ Ha Hne) as (t1 & ts' & -> & Hk1).
    apply lexes_cons_inv in Hl as (p2 & _ & Hpk & _). rewrite Hpk.
    destruct (parser_mono n) as (_ & _ & M & _). rewrite (M _ _ _ _ Hnk H1).
    by destruct (tok_kind t1).
Qed.

Lemma sum_esize_args es :
  sum_list (map (fun e => S (esize e)) es) = (length es + sum_list (map esize es))%nat.
Proof. induction es as [|e es IH]; simpl in *; lia. Qed.

Lemma complete_call d t t1 t2 ts es :
  tok_kind t = TOK_IDENT -> tok_kind t1 = TOK_LPAREN -> tok_kind t2 = TOK_RPAREN ->
  (length es <= LIN_MAX_ARGS)%nat -> arglist d ts es -> complete_args d ts es ->
  complete_primary (S d) (t :: t1 :: ts ++ [t2]) (E_call (tok_name t) es).
Proof.
  intros Hk Hk1 Hk2 Hlen Hg IH. apply complete_primary_impl. intros p pos' Hd Hl Hr Hf.
  pose proof Hl as Hall. cbn [esize] in Hr. rewrite sum_esize_args in Hr.
  apply lexes_cons_inv in Hl as (p1 & Hn & Hpk & He & Ha & Hl).
  apply lexes_cons_inv in Hl as (p2 & Hn1 & Hpk1 & He1 & Ha1 & Hl).
  pose proof He as (_ & D1 & _). pose proof He1 as (_ & D2 & _).
  destruct (complete_call_args d ts es p2 pos' t2) as (n & idxs & p3 & H3 & Hpos & Hfa & He3 & Z3);
    try done; [lia|eapply room_le; [done|rewrite Ha1, Ha; lia]|].
  pose proof (Forall2_length Hfa) as Hlf.
  destruct (add_call_args_complete p3 idxs 0 []) as (root & p4 & H4 & He4 & Hp4 & Z4 & Hc4);
    [eapply room_le; [done|rewrite Z3, Ha1, Ha; lia]|done|]. rewrite app_nil_r in Hc4.
  destruct (add_node_complete p4 TAG_CALL root 0 (Z.of_nat (length idxs)) (tok_name t))
    as (p5 & H5 & He5 & Hp5 & Z5 & Hn5); [eapply room_le; [done|rewrite Z4, Z3, Ha1, Ha; lia]|].
  exists (S n), (length (p_arena p4)), p5. cbn [parse_primary_impl].
  rewrite Hn, Hk, Hpk1, Hk1, Hn1, H3, H4, H5 by done.
  split; [done|]. split; [congruence|]. split; [by rewrite Hp5, Hp4, Hpos|].
  split; [|split; [eauto 8 using ext_trans|]].
  - eapply R_call; [by rewrite <- Hlf|by eapply chain_ext|].
    eapply Forall2_impl; [|exact Hfa]. eauto using repr_ext, ext_trans.
  - cbn [esize]. rewrite sum_esize_args, Z5, Z4, Z3, Ha1, Ha, Hlf. lia.
Qed.

Lemma complete_prim_derives m d ts e : complete_primary d ts e -> complete_derives m d ts e.
Proof.
  intros IH p m' pos' Hm Hd Hl Hr [Hf1 Hf2].
  destruct (IH p pos') as (n & i & p1 & H1 & Hpos & Hrd); try done.
  exists i, p1. split; [done|]. split; [done|]. intros k r Hk.
  exists (S (Nat.max n k)). cbn [parse_expression].
  destruct (parser_mono n) as (_ & M2 & _). rewrite (M2 _ _ _ (Nat.le_max_l n k) H1).
  destruct (parser_mono k) as (_ & _ & _ & _ & M5). apply M5; [lia|done].
Qed.

(** One turn of the operator loop. *)
Lemma loop_turn m q p il t p1 n r p2 tag j p3 :
  (m < q)%nat -> get_precedence (tok_kind t) = q -> next p = (t, p1) -> peek p = t ->
  op_tag_of (tok_kind t) = Some tag ->
  parse_expression n p1 q = Some (Ok (r, p2)) ->
  add_node p2 tag il r 0 [] = Some (Ok (j, p3)) ->
  forall k, (n <= k)%nat -> parse_loop (S k) p m il = parse_loop k p3 m j.
Proof.
  intros Hm Hq Hn Hpk Hop He Ha k Hk. cbn [parse_loop]. rewrite Hpk, Hq, Hn.
  destruct (Nat.eqb_spec q 0); [lia|]. destruct (Nat.leb_spec q m); [lia|].
  destruct (parser_mono n) as (_ & _ & _ & M & _). cbn [orb].
  by rewrite (M _ _ _ k Hk He), Hop, Ha.
Qed.

Lemma complete_bin m d op t ts1 ts2 l r :
  binop_of_tok (tok_kind t) = Some op -> (m < level op)%nat ->
  complete_derives (level op - 1) d ts1 l ->
  complete_derives (level op) d ts2 r ->
  complete_derives m d (ts1 ++ t :: ts2) (E_bin op l r).
Proof.
  intros Hop. rewrite <- (prec_level _ _ Hop). intros Hq IHl IHr p m' pos' Hm Hd (pos1 & Hl1 & Hl2)%lexes_app_inv Hr [Hf1 Hf2].
  destruct (binop_prec _ _ Hop) as (_ & HneE & HneP). cbn [esize] in Hr.
  assert (lin_peek_token (p_src p) pos1 = t) as Hpk.
  { inversion Hl2 as [|? ? ? ? ? Hn2]; subst. unfold lin_peek_token. by rewrite Hn2. }
  destruct (IHl p m' pos1) as (il & p1 & Hpos1 & Hrd1 & Hk1); try done; [lia| | |].
  { eapply room_le; [done|]. lia. }
  { split; rewrite Hpk; [done|lia]. }
  pose proof Hrd1 as (L1 & R1 & He1 & Z1).
  rewrite <- Hpos1, <- (ext_src _ _ He1) in Hl2.
  apply lexes_cons_inv in Hl2 as (p2 & Hn2 & Hpk2 & He2 & Ha2 & Hl2).
  pose proof He1 as (_ & D1 & _). pose proof He2 as (_ & D2 & _).
  destruct (expression_complete _ d ts2 r p2 (get_precedence (tok_kind t)) pos' IHr)
    as (n & ir & p3 & H3 & Hpos3 & Hrd3); try done; [lia| | |].
  { eapply room_le; [done|]. rewrite Ha2, Z1. lia. }
  { rewrite (ext_src _ _ He2), (ext_src _ _ He1). split; [done|lia]. }
  pose proof Hrd3 as (L3 & R3 & He3 & Z3).
  destruct (add_node_complete p3 (tag_of_binop op) il ir 0 []) as (p4 & H4 & He4 & Hp4 & Z4 & Hn4).
  { eapply room_le; [done|]. rewrite Z3, Ha2, Z1. lia. }
  exists (length (p_arena p3)), p4. split; [congruence|]. split.
  - split; [|split; [|split; [eauto 8 using ext_trans|cbn [esize]; rewrite Z4, Z3, Ha2, Z1; lia]]].
    + rewrite Hp4. eapply lexes_app; [done|]. rewrite <- (ext_src _ _ He1).
      by eapply next_lexes.
    + eapply R_bin; [done|eauto 8 using repr_ext, ext_trans..].
  - intros k v Hk. apply (Hk1 (S (Nat.max n k))).
    rewrite (loop_turn m' (get_precedence (tok_kind t)) p1 il t p2 n ir p3
      (tag_of_binop op) (length (p_arena p3)) p4); try done; try lia.
    + destruct (parser_mono k) as (_ & _ & _ & _ & M5). apply M5; [lia|done].
    + by apply op_tag_binop.
Qed.

Lemma parser_complete :
  (forall m d ts e, derives m d ts e -> complete_derives m d ts e) /\
  (forall d ts e, primary d ts e -> complete_primary d ts e) /\
  (forall d ts es, arglist d ts es -> complete_args d ts es).
Proof.
  apply grammar_mind; intros.
  - by apply complete_prim_derives.
  - by eapply complete_bin.
  - by apply complete_lit.
  - by apply complete_var.
  - apply (complete_sign d t ts e TAG_UNARY_POS E_pos); try done; [|intros; by eapply R_pos|congruence].
    intros n q t1 p1 Hn Hk. cbn [parse_primary_impl]. by rewrite Hn, Hk, e0.
  - apply (complete_sign d t ts e TAG_UNARY_NEG E_neg); try done; [|intros; by eapply R_neg|congruence].
    intros n q t1 p1 Hn Hk. cbn [parse_primary_impl]. by rewrite Hn, Hk, e0.
  - by apply complete_paren.
  - by apply complete_call.
  - by intros ? ? ? ? [].
  - by apply complete_args_one.
  - by apply complete_args_more.
Qed.

(** ** The arena never exceeds its capacity *)

Definition cap_ok (p : Parser) : Prop := (length (p_arena p) <= LIN_ARENA_CAP)%nat.

Definition keeps_cap {A} (p : Parser) (r : presult A) : Prop :=
  cap_ok p -> forall x p', r = Some (Ok (x, p')) -> cap_ok p'.

Lemma add_node_cap p tag l r v nm : keeps_cap p (add_node p tag l r v nm).
Proof.
  intros _ i p' H. unfold add_node, ast_arena_add in H.
  destruct (Nat.leb_spec LIN_ARENA_CAP (length (p_arena p))); [done|].
  injection H as <- <-. unfold cap_ok. simpl p_arena. rewrite length_app. simpl length. lia.
Qed.

Lemma keeps_cap_bind {A B} p (m : presult A) (k : A -> Parser -> presult B) :
  keeps_cap p m -> (forall x p', keeps_cap p' (k x p')) ->
  keeps_cap p (do* (x, p') := m in k x p').
Proof.
  intros H1 H2 Hc y p2 H. destruct m as [[[x p1]|]|]; try discriminate H.
  apply (H2 x p1) in H; [done|]. by eapply H1.
Qed.

Lemma keeps_cap_next {A} p t p1 (r : presult A) :
  next p = (t, p1) -> keeps_cap p1 r -> keeps_cap p r.
Proof. intros Hn H Hc. next_facts Hn. apply H. unfold cap_ok. by rewrite Ha. Qed.

Lemma keeps_cap_ret {A} p (x : A) : keeps_cap p (Some (Ok (x, p))).
Proof. intros Hc y p' [= _ <-]. done. Qed.

Lemma keeps_cap_err {A} p e : keeps_cap p (Some (Err e) : presult A).
Proof. done. Qed.

Lemma add_call_args_cap idxs : forall p prev, keeps_cap p (add_call_args p idxs prev).
Proof.
  induction idxs as [|i idxs IH]; intros p prev; simpl; [apply keeps_cap_ret|].
  apply keeps_cap_bind; [apply add_node_cap|]. intros. apply IH.
Qed.

Definition parser_cap_at (n : nat) : Prop :=
  (forall p, keeps_cap p (parse_primary_impl n p)) /\
  (forall p, keeps_cap p (parse_primary n p)) /\
  (forall p args, keeps_cap p (parse_args n p args)) /\
  (forall p m, keeps_cap p (parse_expression n p m)) /\
  (forall p m l, keeps_cap p (parse_loop n p m l)).

Ltac cap_step IH :=
  first [ apply keeps_cap_err | apply keeps_cap_ret | apply add_node_cap
        | apply add_call_args_cap | apply IH
        | match goal with
          | |- keeps_cap _ (let '(_, _) := next ?q in _) =>
              let t := fresh in let q1 := fresh in let E := fresh in
              destruct (next q) as [t q1] eqn:E; apply (keeps_cap_next _ _ _ _ E)
          end
        | apply keeps_cap_bind; [|intros]
        | case_match ].

Lemma parser_cap n : parser_cap_at n.
Proof.
  induction n as [|n (M1 & M2 & M3 & M4 & M5)]; [by split_and!|].
  split_and!; intros.
  - cbn [parse_primary_impl]. repeat first [cap_step M2|cap_step M3|cap_step M4].
  - cbn [parse_primary]. case_match; [done|]. intros Hc x p' H1.
    destruct (parse_primary_impl n _) as [[[i q]|]|] eqn:E; try discriminate H1.
    injection H1 as <- <-. by apply M1 in E.
  - cbn [parse_args]. repeat first [cap_step M4|cap_step M3].
  - cbn [parse_expression]. repeat first [cap_step M2|cap_step M5].
  - cbn [parse_loop]. repeat first [cap_step M4|cap_step M5].
Qed.

(** C2. The parser accepts exactly the expressions of the C grammar within its
    limits, and it always answers: with fuel six times the length of the source
    plus 3, [parse_full] returns a result; it returns a root and an arena iff
    the tokens of the whole source derive an expression [e] whose primaries nest
    at most 65 deep and that needs at most [LIN_ARENA_CAP] nodes, and then the
    root represents [e] (with C's precedences and left associativity) in an
    arena of exactly its nodes; otherwise it returns an error code. *)
Theorem parse_full_correct fuel src :
  (6 * length src + 3 <= fuel)%nat ->
  (exists r, parse_full fuel (parser_init src) = Some r) /\
  (forall root p, parse_full fuel (parser_init src) = Some (Ok (root, p)) ->
     exists ts e, lexes_all src ts /\ derives 0 (LIN_PARSER_MAX_DEPTH + 1) ts e /\
       repr (p_arena p) root e /\ length (p_arena p) = esize e /\
       (esize e <= LIN_ARENA_CAP)%nat) /\
  (forall ts e, lexes_all src ts -> derives 0 (LIN_PARSER_MAX_DEPTH + 1) ts e ->
     (esize e <= LIN_ARENA_CAP)%nat ->
     exists root p, parse_full fuel (parser_init src) = Some (Ok (root, p)) /\
       repr (p_arena p) root e /\ length (p_arena p) = esize e).
Proof.
  intros Hf. pose proof (parse_full_not_none fuel src Hf) as Hnn.
  split; [destruct (parse_full _ _); [by eexists|done]|]. split.
  - intros root p H. unfold parse_full in H.
    destruct (parse_expression _ _ _) as [[[i p1]|]|] eqn:E; try discriminate H.
    destruct (next p1) as [t p2] eqn:Ht. next_facts Ht.
    destruct (tok_kind t) eqn:Hk; try discriminate H. injection H as <- <-.
    destruct (parser_sound fuel) as (_ & _ & _ & S4 & _).
    destruct (parser_cap fuel) as (_ & _ & _ & C4 & _).
    assert (cap_ok p1) as Hcap by (eapply C4; [|exact E]; unfold cap_ok, LIN_ARENA_CAP; simpl; lia).
    apply S4 in E as (ts & e & Hd & (L & R & X & Z) & _). exists ts, e.
    split; [exists (p_pos p1); split; [done|]|].
    { rewrite <- (ext_src _ _ X : p_src p1 = src), <- peek_at. congruence. }
    split; [done|]. rewrite Ha. split; [done|]. unfold cap_ok in Hcap. rewrite Z in *. by split.
  - intros ts e (pos & Hl & Hk) Hd Hs.
    destruct (expression_complete 0 _ ts e (parser_init src) 0 pos
      (proj1 parser_complete _ _ _ _ Hd)) as (n & i & p1 & H1 & Hpos & (L & R & X & Z));
      try done.
    { unfold follow_ok. cbn [parser_init p_src]. rewrite Hk. cbn [get_precedence]. split; [done|lia]. }
    assert (parse_expression fuel (parser_init src) 0 = Some (Ok (i, p1))) as H2.
    { destruct (parse_expression fuel (parser_init src) 0) as [r|] eqn:E.
      - destruct (parser_mono fuel) as (_ & _ & _ & M & _).
        destruct (parser_mono n) as (_ & _ & _ & M' & _).
        pose proof (M _ _ _ _ (Nat.le_max_l fuel n) E) as E1.
        pose proof (M' _ _ _ _ (Nat.le_max_r fuel n) H1) as E2. congruence.
      - unfold parse_full in Hnn. by rewrite E in Hnn. }
    unfold parse_full. rewrite H2. destruct (next p1) as [t p2] eqn:Ht. next_facts Ht.
    assert (tok_kind t = TOK_EOF) as ->.
    { rewrite <- Hpk, peek_at, (ext_src _ _ X), Hpos. done. }
    exists i, p2. rewrite Ha. by split_and!.
Qed.

Lemma parse_full_correct_witness :
  (6 * length (cstr "a - 2*(b % 3) < f(1, -x)") + 3 <= 200)%nat /\
  exists r, parse_full 200 (parser_init (cstr "a - 2*(b % 3) < f(1, -x)")) = Some r.
Proof.
  split; [vm_compute; lia|].
  apply (parse_full_correct 200 (cstr "a - 2*(b % 3) < f(1, -x)")). vm_compute. lia.
Defined.
