(* ===== verification/Decimal.v ===== *)
(** * Decimal text: printing and reading 64-bit integers

    [fmt_u64] and [fmt_i64] are printf's [%llu] and [%lld] (and [%zu], [%d] on
    their ranges); [strtoll] is the C library's, base 10, with its blanks, sign
    and saturation.  Both are used by several tools. *)
From stdpp Require Import strings.
From S2P Require Import Prelude Common Token Str.

Definition fmt_u64 (z : Z) : list Z := rev (dec_digits 24 z).

Definition fmt_i64 (z : Z) : list Z :=
  if z <? 0 then 45 :: fmt_u64 (- z) else fmt_u64 z.

Definition is_space (c : Z) : bool := (c =? 32) || ((9 <=? c) && (c <=? 13)).

(** [strtoll(p, &end, 10)]: the value and the rest of the text; [None] when no
    digit was read ([end == p]). *)
Definition strtoll (p : list Z) : option (Z * list Z) :=
  let p := drop (run_length is_space p) p in
  let '(neg, p) :=
    match p with
    | c :: q => if c =? 45 then (true, q) else if c =? 43 then (false, q) else (false, p)
    | [] => (false, p)
    end in
  let n := run_length is_digit p in
  if (n =? 0)%nat then None
  else
    let v := dec_val 0 (take n p) in
    let v := if neg then - v else v in
    Some (Z.max INT64_MIN (Z.min INT64_MAX v), drop n p).

(** ** Digits *)

Fixpoint lsf_val (l : list Z) : Z :=
  match l with
  | [] => 0
  | c :: l => (c - 48) + 10 * lsf_val l
  end.

Lemma dec_digits_val fuel t :
  0 <= t < 10 ^ Z.of_nat fuel -> lsf_val (dec_digits fuel t) = t.
Proof.
  revert t. induction fuel as [|fuel IH]; intros t Ht.
  - change (10 ^ Z.of_nat 0) with 1 in Ht. simpl. lia.
  - rewrite Nat2Z.inj_succ, Z.pow_succ_r in Ht by lia. cbn [dec_digits lsf_val].
    rewrite u8_id by (unfold in_u8, two8; Z.div_mod_to_equations; lia).
    destruct (Z.eqb_spec (t / 10) 0) as [E|E]; cbn [lsf_val].
    + Z.div_mod_to_equations. lia.
    + rewrite IH; [|split; [apply Z.div_pos; lia|apply Z.div_lt_upper_bound; lia]].
      Z.div_mod_to_equations. lia.
Qed.

Lemma dec_digits_are_digits fuel t : 0 <= t -> forallb is_digit (dec_digits fuel t) = true.
Proof.
  revert t. induction fuel as [|fuel IH]; intros t Ht; [done|]. cbn [dec_digits forallb].
  rewrite u8_id by (unfold in_u8, two8; Z.div_mod_to_equations; lia).
  assert (is_digit (48 + t mod 10) = true) as ->.
  { unfold is_digit. apply andb_true_iff. split; apply Z.leb_le; Z.div_mod_to_equations; lia. }
  destruct (Z.eqb_spec (t / 10) 0); [done|]. apply IH, Z.div_pos; lia.
Qed.

Lemma dec_digits_length fuel t : (1 <= fuel)%nat -> (1 <= length (dec_digits fuel t) <= fuel)%nat.
Proof.
  revert t. induction fuel as [|fuel IH]; intros t Hf; [lia|]. cbn [dec_digits length].
  destruct (t / 10 =? 0); simpl; [lia|]. destruct fuel; [simpl; lia|].
  specialize (IH (t / 10)). lia.
Qed.

Lemma dec_val_app num l k : dec_val num (l ++ k) = dec_val (dec_val num l) k.
Proof. revert num. induction l as [|c l IH]; intros; simpl; [done|]. apply IH. Qed.

Lemma dec_val_rev l : dec_val 0 (rev l) = lsf_val l.
Proof.
  induction l as [|c l IH]; [done|]. cbn [rev lsf_val]. rewrite dec_val_app, IH.
  cbn [dec_val]. lia.
Qed.

Lemma forallb_rev {A} (P : A -> bool) l : forallb P (rev l) = forallb P l.
Proof.
  induction l as [|x l IH]; [done|]. simpl. rewrite forallb_app, IH. simpl.
  rewrite andb_true_r. apply andb_comm.
Qed.

Lemma fmt_u64_spec z :
  in_u64 z -> dec_val 0 (fmt_u64 z) = z /\ forallb is_digit (fmt_u64 z) = true /\
  (1 <= length (fmt_u64 z) <= 24)%nat.
Proof.
  intros Hz. unfold fmt_u64. unfold in_u64, two64 in Hz. split; [|split].
  - rewrite dec_val_rev. apply dec_digits_val. split; [lia|].
    eapply Z.lt_le_trans; [apply Hz|]. vm_compute. discriminate.
  - rewrite forallb_rev. apply dec_digits_are_digits. lia.
  - rewrite length_rev. apply dec_digits_length. lia.
Qed.

Lemma fmt_u64_inj x y : in_u64 x -> in_u64 y -> fmt_u64 x = fmt_u64 y -> x = y.
Proof.
  intros Hx Hy H. rewrite <- (proj1 (fmt_u64_spec x Hx)), <- (proj1 (fmt_u64_spec y Hy)). by rewrite H.
Qed.

Lemma digit_head z c l : in_u64 z -> fmt_u64 z = c :: l -> is_digit c = true.
Proof.
  intros Hz H. destruct (fmt_u64_spec z Hz) as (_ & Hd & _). rewrite H in Hd.
  by apply andb_true_iff in Hd as [Hd _].
Qed.

Lemma fmt_i64_inj x y : in_i64 x -> in_i64 y -> fmt_i64 x = fmt_i64 y -> x = y.
Proof.
  unfold in_i64, two63, fmt_i64. intros Hx Hy H.
  assert (forall z, -9223372036854775808 <= z <= 9223372036854775808 -> in_u64 (Z.abs z)) as Hu.
  { intros. unfold in_u64, two64. lia. }
  assert (forall z l, in_u64 z -> 45 :: l <> fmt_u64 z) as Hne.
  { intros z l Hz E. symmetry in E. by apply digit_head in E. }
  destruct (Z.ltb_spec x 0), (Z.ltb_spec y 0).
  - injection H as H. apply fmt_u64_inj in H; [lia| |]; unfold in_u64, two64; lia.
  - exfalso. apply (Hne y (fmt_u64 (- x))); [unfold in_u64, two64; lia|done].
  - exfalso. apply (Hne x (fmt_u64 (- y))); [unfold in_u64, two64; lia|done].
  - apply fmt_u64_inj in H; [lia| |]; unfold in_u64, two64; lia.
Qed.

(** [lin_str_of_i64] prints what printf would. *)
Lemma lin_str_of_i64_fmt x cap :
  in_i64 x ->
  lin_str_of_i64 x cap =
    if (cap <? length (fmt_i64 x))%nat then None else Some (fmt_i64 x).
Proof.
  intros Hx. unfold in_i64, two63 in Hx. unfold lin_str_of_i64, fmt_i64, fmt_u64.
  destruct (Z.ltb_spec x 0).
  - assert (u64 (u64 (- (x + 1)) + 1) = - x) as ->.
    { rewrite (u64_id (- (x + 1))), u64_id by (unfold in_u64, two64; lia). lia. }
    cbn [length app]. rewrite length_rev.
    replace (length (dec_digits 24 (- x)) + 1)%nat with (S (length (dec_digits 24 (- x)))) by lia.
    done.
  - rewrite u64_id by (unfold in_u64, two64; lia). cbn [app]. rewrite length_rev, Nat.add_0_r. done.
Qed.

Lemma run_length_all P l k : forallb P l = true -> (forall c k', k = c :: k' -> P c = false) ->
  run_length P (l ++ k) = length l.
Proof.
  intros Hl Hk. rewrite run_length_app by done. destruct k as [|c k]; simpl; [lia|].
  rewrite (Hk c k eq_refl). lia.
Qed.

Lemma digit_not_space c : is_digit c = true -> is_space c = false /\ (c =? 45) = false /\ (c =? 43) = false.
Proof.
  unfold is_digit, is_space. intros [H1%Z.leb_le H2%Z.leb_le]%andb_true_iff. split; [|split].
  - apply orb_false_iff. split; [apply Z.eqb_neq; lia|apply andb_false_iff; right; apply Z.leb_gt; lia].
  - apply Z.eqb_neq. lia.
  - apply Z.eqb_neq. lia.
Qed.

(** Reading back what printf printed. *)
Lemma strtoll_fmt x rest :
  in_i64 x -> (forall c k, rest = c :: k -> is_digit c = false) -> strtoll (fmt_i64 x ++ rest) = Some (x, rest).
Proof.
  intros Hx Hrest. unfold in_i64, two63 in Hx. unfold fmt_i64, strtoll, INT64_MIN, INT64_MAX. destruct (Z.ltb_spec x 0).
  - destruct (fmt_u64_spec (- x)) as (Hv & Hd & Hl); [unfold in_u64, two64; lia|]. cbn [app run_length].
    change (is_space 45) with false. cbn [drop]. change (45 =? 45) with true. cbn iota.
    rewrite run_length_all, take_app_length, drop_app_length, Hv by done.
    destruct (Nat.eqb_spec (length (fmt_u64 (- x))) 0); [lia|]. do 2 f_equal. lia.
  - destruct (fmt_u64_spec x) as (Hv & Hd & Hl); [unfold in_u64, two64; lia|].
    destruct (fmt_u64 x) as [|c l] eqn:E; [simpl in Hl; lia|].
    pose proof Hd as Hc. cbn [forallb] in Hc. apply andb_true_iff in Hc as [Hc _].
    destruct (digit_not_space c Hc) as (Hs & H45 & H43).
    change ((c :: l) ++ rest) with (c :: l ++ rest). cbn [run_length]. rewrite Hs. cbn [drop].
    rewrite H45, H43. change (c :: l ++ rest) with ((c :: l) ++ rest).
    rewrite run_length_all, take_app_length, drop_app_length, Hv by done.
    destruct (Nat.eqb_spec (length (c :: l)) 0); [simpl in *; lia|]. do 2 f_equal. lia.
Qed.

Lemma strtoll_range p v rest : strtoll p = Some (v, rest) -> in_i64 v.
Proof.
  assert (forall w, in_i64 (Z.max INT64_MIN (Z.min INT64_MAX w))) as Hr.
  { intros. unfold in_i64, two63, INT64_MIN, INT64_MAX. lia. }
  unfold strtoll. intros H. repeat case_match; simplify_eq; apply Hr.
Qed.

Lemma fmt_i64_length x : in_i64 x -> (1 <= length (fmt_i64 x) <= 25)%nat.
Proof.
  unfold in_i64, two63, fmt_i64. intros Hx. destruct (Z.ltb_spec x 0).
  - destruct (fmt_u64_spec (- x)) as (_ & _ & Hl); [unfold in_u64, two64; lia|]. simpl. lia.
  - destruct (fmt_u64_spec x) as (_ & _ & Hl); [unfold in_u64, two64; lia|]. lia.
Qed.

(** Printing and reading back is the identity: whatever follows it (a byte
    that is not a digit, or nothing), [strtoll] reads the text that
    [lin_str_of_i64] writes for any [int64_t], INT64_MIN included, back to the
    same value and stops exactly at its end; the text never needs more than 25
    bytes of buffer, and a buffer smaller than the text is refused. *)
Theorem decimal_roundtrip x cap rest :
  in_i64 x -> (forall c k, rest = c :: k -> is_digit c = false) ->
  exists text, lin_str_of_i64 x cap = (if (cap <? length text)%nat then None else Some text) /\
    (length text <= 25)%nat /\ strtoll (text ++ rest) = Some (x, rest).
Proof.
  intros Hx Hrest. exists (fmt_i64 x). split; [by apply lin_str_of_i64_fmt|].
  split; [by apply fmt_i64_length|by apply strtoll_fmt].
Qed.

Lemma decimal_roundtrip_witness :
  in_i64 INT64_MIN /\
  exists text, lin_str_of_i64 INT64_MIN 25 = Some text /\ strtoll (text ++ [44]) = Some (INT64_MIN, [44]).
Proof.
  assert (in_i64 INT64_MIN) as H by (unfold in_i64, INT64_MIN, two63; lia).
  split; [exact H|].
  destruct (decimal_roundtrip INT64_MIN 25 [44] H) as (text & H1 & H2 & H3).
  - intros c k [= <- _]. reflexivity.
  - exists text. split; [|exact H3]. rewrite H1. destruct (Nat.ltb_spec 25 (length text)); [lia|reflexivity].
Defined.
