(* ===== verification/Region.v ===== *)
(** * lin_region.h, lin_region.c: bounds-checked input regions

    A region is a view of host-owned [int64_t] cells.  [cells = None] is a NULL
    pointer.  Nothing ties the length of the host's array to [capacity_cells]:
    an access outside the array is undefined in C, and is the outcome [None] of
    the functions below ([owned] is the contract that excludes it). *)
From stdpp Require Import strings.
From S2P Require Import Prelude.

Definition LIN_REGION_MAX_COUNT : Z := 64.
Definition LIN_REGION_MAX_CELLS : Z := 2048.
Definition LIN_ETH_MAX_INPUT_BYTES : Z := 16384.
Definition LIN_REGION_CELL_BYTES : Z := 8.

Inductive LinRegionErr : Type :=
| LIN_REGION_ERR_INVALID
| LIN_REGION_ERR_BOUNDS
| LIN_REGION_ERR_TRUNCATED
| LIN_REGION_ERR_OVERFLOW
| LIN_REGION_ERR_ABI.

#[export] Instance LinRegionErr_eq_dec : EqDecision LinRegionErr.
Proof. solve_decision. Defined.

(** The enumerator's value; [LIN_REGION_OK] is [None]. *)
Definition region_err_code (e : option LinRegionErr) : Z :=
  match e with
  | None => 0
  | Some LIN_REGION_ERR_INVALID => 1
  | Some LIN_REGION_ERR_BOUNDS => 2
  | Some LIN_REGION_ERR_TRUNCATED => 3
  | Some LIN_REGION_ERR_OVERFLOW => 4
  | Some LIN_REGION_ERR_ABI => 5
  end.

Definition lin_region_err_name (e : option LinRegionErr) : string :=
  match e with
  | None => "ok"
  | Some LIN_REGION_ERR_INVALID => "invalid"
  | Some LIN_REGION_ERR_BOUNDS => "bounds"
  | Some LIN_REGION_ERR_TRUNCATED => "truncated"
  | Some LIN_REGION_ERR_OVERFLOW => "overflow"
  | Some LIN_REGION_ERR_ABI => "abi"
  end.

Record LinRegion : Type := mkRegion {
  region_id : Z;
  capacity_cells : Z;
  payload_len : Z;
  cells : option (list Z)
}.

(** The first [len] entries of the array; the others are never read. *)
Record LinRegionSet : Type := mkRegionSet { regions : list LinRegion }.

Definition lin_region_set_init : LinRegionSet := mkRegionSet [].
Definition lin_region_set_clear (s : LinRegionSet) : LinRegionSet := mkRegionSet [].

Definition lin_region_capacity_bytes (r : LinRegion) : Z :=
  u64 (capacity_cells r * LIN_REGION_CELL_BYTES).

Definition is_null {A} (p : option A) : bool :=
  match p with None => true | Some _ => false end.

Definition region_struct_valid (r : LinRegion) : bool :=
  if LIN_REGION_MAX_CELLS <? capacity_cells r then false
  else if negb (capacity_cells r =? 0) && is_null (cells r) then false
  else if lin_region_capacity_bytes r <? payload_len r then false
  else if LIN_ETH_MAX_INPUT_BYTES <? payload_len r then false
  else true.

Definition lin_region_bind (s : LinRegionSet) (id : Z) (cs : option (list Z))
    (cap plen : Z) : res LinRegionErr LinRegionSet :=
  let len := Z.of_nat (length (regions s)) in
  if LIN_REGION_MAX_COUNT <=? len then Err LIN_REGION_ERR_BOUNDS
  else if negb (id =? u32 len) then Err LIN_REGION_ERR_ABI
  else if LIN_REGION_MAX_CELLS <? cap then Err LIN_REGION_ERR_BOUNDS
  else if negb (cap =? 0) && is_null cs then Err LIN_REGION_ERR_INVALID
  else if u64 (cap * LIN_REGION_CELL_BYTES) <? plen then Err LIN_REGION_ERR_TRUNCATED
  else if LIN_ETH_MAX_INPUT_BYTES <? plen then Err LIN_REGION_ERR_BOUNDS
  else Ok (mkRegionSet (regions s ++ [mkRegion id cap plen cs])).

Definition lin_region_get (s : LinRegionSet) (id : Z) : res LinRegionErr LinRegion :=
  if id <? 0 then Err LIN_REGION_ERR_INVALID
  else if Z.of_nat (length (regions s)) <=? u64 id then Err LIN_REGION_ERR_INVALID
  else match lookupz (regions s) (u64 id) with
       | None => Err LIN_REGION_ERR_INVALID
       | Some r =>
           if negb (region_id r =? u32 id) then Err LIN_REGION_ERR_ABI
           else if negb (region_struct_valid r) then Err LIN_REGION_ERR_ABI
           else Ok r
       end.

(** The copy loop: byte [i] is or-ed into its cell. *)
Fixpoint write_cells (i : Z) (src : list Z) (cs : list Z) : option (list Z) :=
  match src with
  | [] => Some cs
  | b :: src =>
      match lookupz cs (i / LIN_REGION_CELL_BYTES) with
      | None => None
      | Some c =>
          let byte_offset := i mod LIN_REGION_CELL_BYTES in
          let word := Z.lor (u64 c) (u64 (Z.shiftl b (byte_offset * 8))) in
          match insertz (i / LIN_REGION_CELL_BYTES) (i64 word) cs with
          | None => None
          | Some cs => write_cells (i + 1) src cs
          end
      end
  end.

(** [memset(cells, 0, capacity_cells * 8)]. *)
Definition zero_cells (cap : Z) (cs : list Z) : option (list Z) :=
  if (Z.of_nat (length cs) <? cap)%Z then None
  else Some (replicate (Z.to_nat cap) 0 ++ drop (Z.to_nat cap) cs).

(** [src] with [src_len] its length; a NULL [src] comes with its [src_len]. *)
Definition lin_region_write_bytes (r : LinRegion) (src : option (list Z)) (src_len : Z)
    : option (res LinRegionErr LinRegion) :=
  if negb (region_struct_valid r) then Some (Err LIN_REGION_ERR_ABI)
  else if is_null src && negb (src_len =? 0) then Some (Err LIN_REGION_ERR_INVALID)
  else if LIN_ETH_MAX_INPUT_BYTES <? src_len then Some (Err LIN_REGION_ERR_BOUNDS)
  else if lin_region_capacity_bytes r <? src_len then Some (Err LIN_REGION_ERR_TRUNCATED)
  else
    match cells r with
    | None => (* capacity 0, hence src_len 0: nothing is written *)
        Some (Ok (mkRegion (region_id r) (capacity_cells r) (u32 src_len) None))
    | Some cs =>
        match zero_cells (capacity_cells r) cs with
        | None => None
        | Some cs =>
            let bytes := take (Z.to_nat src_len) (default [] src) in
            if (Z.of_nat (length bytes) <? src_len)%Z then None
            else
              match write_cells 0 bytes cs with
              | None => None
              | Some cs =>
                  Some (Ok (mkRegion (region_id r) (capacity_cells r) (u32 src_len) (Some cs)))
              end
        end
    end.

Definition lin_region_check_range (r : LinRegion) (offset len : Z) : res LinRegionErr unit :=
  if negb (region_struct_valid r) then Err LIN_REGION_ERR_ABI
  else if payload_len r <? offset then Err LIN_REGION_ERR_TRUNCATED
  else if u64 (payload_len r - offset) <? len then Err LIN_REGION_ERR_TRUNCATED
  else Ok tt.

Definition cell_at (r : LinRegion) (i : Z) : option Z :=
  match cells r with Some cs => lookupz cs i | None => None end.

Definition lin_region_load_cell (r : LinRegion) (cell_index : Z) : option (res LinRegionErr Z) :=
  if negb (region_struct_valid r) then Some (Err LIN_REGION_ERR_ABI)
  else if capacity_cells r <=? cell_index then Some (Err LIN_REGION_ERR_BOUNDS)
  else option_map Ok (cell_at r cell_index).

Definition lin_region_load_byte (r : LinRegion) (byte_index : Z) : option (res LinRegionErr Z) :=
  if negb (region_struct_valid r) then Some (Err LIN_REGION_ERR_ABI)
  else if lin_region_capacity_bytes r <=? byte_index then Some (Err LIN_REGION_ERR_BOUNDS)
  else if payload_len r <=? byte_index then Some (Err LIN_REGION_ERR_TRUNCATED)
  else
    let cell_index := byte_index / LIN_REGION_CELL_BYTES in
    let byte_offset := byte_index mod LIN_REGION_CELL_BYTES in
    if capacity_cells r <=? cell_index then Some (Err LIN_REGION_ERR_BOUNDS)
    else
      match cell_at r cell_index with
      | None => None
      | Some c => Some (Ok (u8 (Z.land (Z.shiftr (u64 c) (byte_offset * 8)) 255)))
      end.

Example region_roundtrip :
  match lin_region_write_bytes (mkRegion 0 2 0 (Some [7; 7])) (Some [1; 2; 3; 255; 0; 0; 0; 128; 9]) 9 with
  | Some (Ok r) => lin_region_load_byte r 7 = Some (Ok 128) /\ lin_region_load_byte r 8 = Some (Ok 9) /\
      lin_region_load_byte r 9 = Some (Err LIN_REGION_ERR_TRUNCATED) /\
      lin_region_load_byte r 16 = Some (Err LIN_REGION_ERR_BOUNDS)
  | _ => False
  end.
Proof. vm_compute. repeat split. Qed.

(** ** What the operations do *)

(** The host's array covers the region's capacity. *)
Definition owned (r : LinRegion) : Prop :=
  0 <= capacity_cells r /\ 0 <= payload_len r /\
  forall cs, cells r = Some cs -> capacity_cells r <= Z.of_nat (length cs).

Lemma struct_valid_iff r :
  0 <= capacity_cells r ->
  region_struct_valid r = true <->
  capacity_cells r <= LIN_REGION_MAX_CELLS /\
  (capacity_cells r <> 0 -> cells r <> None) /\
  payload_len r <= capacity_cells r * 8 /\ payload_len r <= LIN_ETH_MAX_INPUT_BYTES.
Proof.
  intros H0. unfold region_struct_valid, lin_region_capacity_bytes, LIN_REGION_MAX_CELLS,
    LIN_ETH_MAX_INPUT_BYTES, LIN_REGION_CELL_BYTES, u64, two64.
  destruct (Z.ltb_spec 2048 (capacity_cells r)); [split; [done|lia]|].
  rewrite Z.mod_small by lia.
  assert (negb (capacity_cells r =? 0) && is_null (cells r) = false <->
    (capacity_cells r <> 0 -> cells r <> None)) as Hnull.
  { destruct (Z.eqb_spec (capacity_cells r) 0), (cells r); simpl; split; try done.
    intros E. exfalso. by apply E. }
  destruct (negb (capacity_cells r =? 0) && is_null (cells r)) eqn:E.
  { split; [done|]. intros (_ & F & _). apply Hnull in F. done. }
  destruct (Z.ltb_spec (capacity_cells r * 8) (payload_len r)); [split; [done|lia]|].
  destruct (Z.ltb_spec 16384 (payload_len r)); [split; [done|lia]|].
  split; [|done]. intros _. split; [done|]. split; [by apply Hnull|done].
Qed.

(** Cell [k] once the first [i] bytes of [src] are written. *)
Definition cell_bytes (src : list Z) (i k : nat) : list Z :=
  take (Nat.min 8 (i - 8 * k)) (drop (8 * k) src).

Lemma cell_bytes_wf src i k : bytes_wf src -> bytes_wf (cell_bytes src i k).
Proof. intros. unfold cell_bytes. auto with lin. Qed.

Lemma cell_bytes_other src i k :
  k <> (i / 8)%nat -> cell_bytes src (S i) k = cell_bytes src i k.
Proof.
  intros Hk. unfold cell_bytes. f_equal.
  pose proof (Nat.div_mod_eq i 8). pose proof (Nat.mod_upper_bound i 8). lia.
Qed.

Lemma cell_bytes_same src i b :
  src !! i = Some b ->
  cell_bytes src (S i) (i / 8) = cell_bytes src i (i / 8) ++ [b] /\
  length (cell_bytes src i (i / 8)) = (i mod 8)%nat.
Proof.
  intros Hb. unfold cell_bytes.
  pose proof (Nat.div_mod_eq i 8). pose proof (Nat.mod_upper_bound i 8).
  pose proof (lookup_lt_Some _ _ _ Hb).
  replace (Nat.min 8 (S i - 8 * (i / 8))) with (S (i mod 8)) by lia.
  replace (Nat.min 8 (i - 8 * (i / 8))) with (i mod 8)%nat by lia.
  split.
  - apply take_S_r. rewrite lookup_drop. rewrite <- Hb. f_equal. lia.
  - rewrite length_take, length_drop. lia.
Qed.

(** One byte or-ed into a cell. *)
Lemma cell_or l b :
  bytes_wf l -> in_u8 b -> (length l < 8)%nat ->
  i64 (Z.lor (u64 (i64 (le_val l))) (u64 (Z.shiftl b (Z.of_nat (length l) * 8)))) =
  i64 (le_val (l ++ [b])).
Proof.
  intros Hl Hb Hn. pose proof (le_val_range l Hl) as Hr.
  assert (in_u64 (le_val (l ++ [b]))) as Hu.
  { apply le_val_u64; [by apply bytes_wf_app; split; [|constructor]|]. rewrite length_app. simpl. lia. }
  rewrite le_val_app in *. cbn [le_val] in *. rewrite Z.mul_0_r, Z.add_0_r in *.
  assert (256 ^ Z.of_nat (length l) = 2 ^ (Z.of_nat (length l) * 8)) as E.
  { rewrite Z.mul_comm, Z.pow_mul_r by lia. done. }
  unfold in_u8, two8 in Hb.
  rewrite u64_i64, (u64_id (le_val l)) by (apply le_val_u64; [done|lia]).
  rewrite u64_id by (rewrite Z.shiftl_mul_pow2, <- E by lia; unfold in_u64 in *; nia).
  rewrite lor_shiftl_add by (rewrite <- ?E; lia). by rewrite E, (Z.mul_comm b).
Qed.

Lemma write_cells_spec src cap : bytes_wf src -> (length src <= 8 * cap)%nat ->
  forall rest i cs, drop i src = rest -> (cap <= length cs)%nat -> (i <= length src)%nat ->
  (forall k, (k < cap)%nat -> cs !! k = Some (i64 (le_val (cell_bytes src i k)))) ->
  exists cs', write_cells (Z.of_nat i) rest cs = Some cs' /\ length cs' = length cs /\
    (forall k, (k < cap)%nat -> cs' !! k = Some (i64 (le_val (cell_bytes src (length src) k)))).
Proof.
  intros Hsrc Hcap rest. induction rest as [|b rest IH]; intros i cs Hd Hlen Hi Hcs.
  - exists cs. split; [done|]. split; [done|].
    apply (f_equal length) in Hd. rewrite length_drop in Hd. simpl in Hd.
    by replace (length src) with i by lia.
  - assert (src !! i = Some b) as Hb.
    { pose proof (lookup_drop src i 0) as E. rewrite Hd, Nat.add_0_r in E. simpl in E. by rewrite <- E. }
    pose proof (lookup_lt_Some _ _ _ Hb) as Hlt.
    assert (i / 8 < cap)%nat as Hk by (apply Nat.Div0.div_lt_upper_bound; lia).
    cbn [write_cells]. unfold LIN_REGION_CELL_BYTES.
    assert (Z.of_nat i / 8 = Z.of_nat (i / 8)) as -> by (by rewrite Nat2Z.inj_div).
    assert (Z.of_nat i mod 8 = Z.of_nat (i mod 8)) as -> by (by rewrite Nat2Z.inj_mod).
    rewrite lookupz_nat, (Hcs _ Hk).
    destruct (cell_bytes_same src i b Hb) as [E1 E2]. rewrite <- E2.
    rewrite cell_or; [|by apply cell_bytes_wf|by apply (Forall_lookup_1 _ _ _ _ Hsrc Hb)|].
    2:{ rewrite E2. apply Nat.mod_upper_bound. lia. }
    rewrite <- E1, insertz_in, Nat2Z.id by lia.
    replace (Z.of_nat i + 1) with (Z.of_nat (S i)) by lia.
    destruct (IH (S i) (<[(i / 8)%nat := i64 (le_val (cell_bytes src (S i) (i / 8)))]> cs))
      as (cs' & H1 & H2 & H3); rewrite ?length_insert; try lia.
    + rewrite <- Nat.add_1_r, <- drop_drop, Hd. done.
    + intros k Hkc. destruct (decide (k = i / 8)%nat) as [->|Hne].
      * apply list_lookup_insert_eq. lia.
      * rewrite list_lookup_insert_ne, cell_bytes_other by done. by apply Hcs.
    + exists cs'. rewrite length_insert in H2. done.
Qed.

Lemma zero_cells_spec cap cs :
  (cap <= length cs)%nat ->
  exists cs', zero_cells (Z.of_nat cap) cs = Some cs' /\ length cs' = length cs /\
    forall k, (k < cap)%nat -> cs' !! k = Some 0.
Proof.
  intros H. unfold zero_cells. destruct (Z.ltb_spec (Z.of_nat (length cs)) (Z.of_nat cap)); [lia|].
  rewrite Nat2Z.id. eexists. split; [done|]. split.
  - rewrite length_app, length_replicate, length_drop. lia.
  - intros k Hk. rewrite lookup_app_l by (by rewrite length_replicate).
    by apply lookup_replicate_2.
Qed.

Lemma capacity_bytes_eq r :
  0 <= capacity_cells r <= LIN_REGION_MAX_CELLS ->
  lin_region_capacity_bytes r = capacity_cells r * 8.
Proof.
  unfold LIN_REGION_MAX_CELLS. intros. unfold lin_region_capacity_bytes, LIN_REGION_CELL_BYTES.
  apply u64_id. unfold in_u64, two64. lia.
Qed.

(** The byte a region's cells hold at [i]. *)
Lemma load_byte_cells r l (i : Z) b :
  region_struct_valid r = true -> 0 <= capacity_cells r -> 0 <= i < payload_len r ->
  cell_at r (i / 8) = Some (i64 (le_val l)) -> bytes_wf l -> (length l <= 8)%nat ->
  l !! Z.to_nat (i mod 8) = Some b ->
  lin_region_load_byte r i = Some (Ok b).
Proof.
  intros Hv H0 Hi Hc Hl Hn Hb. pose proof Hv as Hv'. apply struct_valid_iff in Hv as (V1 & V2 & V3 & V4); [|done].
  unfold lin_region_load_byte. rewrite Hv', capacity_bytes_eq by done. cbn [negb].
  unfold LIN_REGION_CELL_BYTES.
  destruct (Z.leb_spec (capacity_cells r * 8) i); [lia|].
  destruct (Z.leb_spec (payload_len r) i); [lia|].
  destruct (Z.leb_spec (capacity_cells r) (i / 8)).
  { pose proof (Z.div_lt_upper_bound i 8 (capacity_cells r)). lia. }
  rewrite Hc. do 2 f_equal.
  rewrite u64_i64, (u64_id (le_val l)) by (by apply le_val_u64).
  pose proof (Z.mod_pos_bound i 8 ltac:(lia)).
  rewrite shift_byte, land_255 by lia.
  rewrite <- (Z2Nat.id (i mod 8)) by lia. rewrite (le_val_byte l _ b) by done.
  apply u8_id. by apply (Forall_lookup_1 _ _ _ _ Hl Hb).
Qed.

(** A payload that fits is written, cell by cell. *)
Lemma write_bytes_ok r src cs :
  owned r -> region_struct_valid r = true -> cells r = Some cs -> bytes_wf src ->
  Z.of_nat (length src) <= capacity_cells r * 8 ->
  Z.of_nat (length src) <= LIN_ETH_MAX_INPUT_BYTES ->
  exists cs', let r' := mkRegion (region_id r) (capacity_cells r) (Z.of_nat (length src)) (Some cs') in
    lin_region_write_bytes r (Some src) (Z.of_nat (length src)) = Some (Ok r') /\
    owned r' /\ region_struct_valid r' = true /\
    (forall k, Z.of_nat k < capacity_cells r -> cell_at r' (Z.of_nat k) =
      Some (i64 (le_val (slice (8 * k) 8 src)))).
Proof.
  intros Ho Hv Hcs Hsrc Hcap Heth. pose proof Ho as (O1 & O2 & O3). specialize (O3 _ Hcs).
  pose proof Hv as (V1 & V2 & V3 & V4)%struct_valid_iff; [|done].
  unfold LIN_REGION_MAX_CELLS, LIN_ETH_MAX_INPUT_BYTES in *.
  destruct (Z_of_nat_complete (capacity_cells r) O1) as [cap Ecap].
  assert (lin_region_capacity_bytes r = capacity_cells r * 8) as Ebytes.
  { by apply capacity_bytes_eq. }
  destruct (zero_cells_spec cap cs ltac:(lia)) as (cs0 & Hz & Lz & Zz).
  destruct (write_cells_spec src cap Hsrc ltac:(lia) src 0 cs0) as (cs1 & Hw & L1 & W1);
    [done|lia|lia|intros; rewrite Zz by done; by unfold cell_bytes; rewrite Nat.sub_0_l, Nat.min_0_r|].
  set (r' := mkRegion (region_id r) (capacity_cells r) (Z.of_nat (length src)) (Some cs1)).
  assert (lin_region_write_bytes r (Some src) (Z.of_nat (length src)) = Some (Ok r')) as Hwr.
  { unfold lin_region_write_bytes. rewrite Hv, Ebytes, Hcs, Ecap, Hz, Nat2Z.id. cbn [negb is_null andb]. change (default [] (Some src)) with src.
    unfold LIN_ETH_MAX_INPUT_BYTES. cbv zeta. rewrite firstn_all.
    destruct (Z.ltb_spec 16384 (Z.of_nat (length src))); [lia|].
    destruct (Z.ltb_spec (Z.of_nat cap * 8) (Z.of_nat (length src))); [lia|].
    destruct (Z.ltb_spec (Z.of_nat (length src)) (Z.of_nat (length src))); [lia|].
    rewrite (Hw : write_cells 0 src cs0 = Some cs1). unfold r'. rewrite Ecap.
    rewrite u32_id by (unfold in_u32, two32; lia). done. }
  assert (region_struct_valid r' = true) as Hv'.
  { apply struct_valid_iff; [done|]. unfold LIN_REGION_MAX_CELLS, LIN_ETH_MAX_INPUT_BYTES. simpl.
    split; [done|]. split; [done|]. split; [lia|done]. }
  assert (forall k, Z.of_nat k < capacity_cells r -> cell_at r' (Z.of_nat k) =
    Some (i64 (le_val (slice (8 * k) 8 src)))) as Hcell.
  { intros k Hk. unfold cell_at, r'. simpl. rewrite lookupz_nat, W1 by lia.
    do 3 f_equal. unfold cell_bytes, slice.
    destruct (Nat.le_gt_cases 8 (length src - 8 * k)).
    - by rewrite Nat.min_l by lia.
    - rewrite !take_ge; [done| |]; rewrite length_drop; lia. }
  exists cs1. split; [done|]. split; [|by split].
  split; [done|]. split; [simpl; lia|]. intros ? [= <-]. simpl. lia.
Qed.

(** Reading a byte past the payload is always an error. *)
Lemma load_byte_past r i :
  region_struct_valid r = true -> 0 <= capacity_cells r <= LIN_REGION_MAX_CELLS ->
  payload_len r <= i -> lin_region_load_byte r i =
    Some (Err (if capacity_cells r * 8 <=? i then LIN_REGION_ERR_BOUNDS
               else LIN_REGION_ERR_TRUNCATED)).
Proof.
  intros Hv Hc Hi. unfold lin_region_load_byte. rewrite Hv, capacity_bytes_eq by done. cbn [negb].
  destruct (Z.leb_spec (capacity_cells r * 8) i); [done|].
  destruct (Z.leb_spec (payload_len r) i); [done|lia].
Qed.

Lemma check_range_iff r off len :
  region_struct_valid r = true -> 0 <= payload_len r < two64 ->
  0 <= off < two64 -> 0 <= len ->
  lin_region_check_range r off len = Ok tt <-> off + len <= payload_len r.
Proof.
  intros Hv Hp Hoff Hlen. unfold lin_region_check_range. rewrite Hv. cbn [negb].
  destruct (Z.ltb_spec (payload_len r) off); [split; [done|lia]|].
  rewrite u64_id by (unfold in_u64, two64 in *; lia).
  destruct (Z.ltb_spec (payload_len r - off) len); split; try done; lia.
Qed.

(** The byte API of a region is faithful: writing a payload that fits into
    a region with host-owned storage succeeds, keeps the id and capacity and sets
    the payload length; then [lin_region_load_byte] returns byte [i] of the
    payload for every [i] inside it, TRUNCATED past the payload and BOUNDS past
    the capacity (never a value); [lin_region_load_cell] returns the
    little-endian cells, zero past the payload; and [lin_region_check_range]
    accepts exactly the ranges inside the payload. *)
Theorem lin_region_write_read r src cs :
  owned r -> region_struct_valid r = true -> cells r = Some cs -> bytes_wf src ->
  Z.of_nat (length src) <= capacity_cells r * 8 ->
  Z.of_nat (length src) <= LIN_ETH_MAX_INPUT_BYTES ->
  exists r', lin_region_write_bytes r (Some src) (Z.of_nat (length src)) = Some (Ok r') /\
    owned r' /\ region_struct_valid r' = true /\ region_id r' = region_id r /\
    capacity_cells r' = capacity_cells r /\ payload_len r' = Z.of_nat (length src) /\
    (forall i b, src !! i = Some b -> lin_region_load_byte r' (Z.of_nat i) = Some (Ok b)) /\
    (forall i, Z.of_nat (length src) <= i -> lin_region_load_byte r' i =
       Some (Err (if capacity_cells r * 8 <=? i then LIN_REGION_ERR_BOUNDS
                  else LIN_REGION_ERR_TRUNCATED))) /\
    (forall k, Z.of_nat k < capacity_cells r -> lin_region_load_cell r' (Z.of_nat k) =
       Some (Ok (i64 (le_val (slice (8 * k) 8 src))))) /\
    (forall off len, 0 <= off < two64 -> 0 <= len ->
       lin_region_check_range r' off len = Ok tt <-> off + len <= Z.of_nat (length src)).
Proof.
  intros Ho Hv Hcs Hsrc Hcap Heth. pose proof Ho as (O1 & _).
  pose proof Hv as (V1 & _)%struct_valid_iff; [|done].
  destruct (write_bytes_ok r src cs) as (cs1 & Hwr & Ho' & Hv' & Hcell); try done.
  set (r' := mkRegion _ _ _ _) in *. exists r'. do 6 (split; [done|]). split_and!.
  - intros i b Hb. pose proof (lookup_lt_Some _ _ _ Hb).
    assert (Z.of_nat i / 8 = Z.of_nat (i / 8)) as Ed by (by rewrite Nat2Z.inj_div).
    assert (Z.of_nat (i / 8) < capacity_cells r) as Hk.
    { rewrite Nat2Z.inj_div. apply Z.div_lt_upper_bound; lia. }
    apply (load_byte_cells r' (slice (8 * (i / 8)) 8 src)); try done.
    + simpl. lia.
    + rewrite Ed. by apply Hcell.
    + unfold slice. auto with lin.
    + unfold slice. rewrite length_take. lia.
    + assert (Z.of_nat i mod 8 = Z.of_nat (i mod 8)) as -> by (by rewrite Nat2Z.inj_mod).
      rewrite Nat2Z.id. unfold slice.
      rewrite lookup_take_lt by (apply Nat.mod_upper_bound; lia).
      rewrite lookup_drop, <- Nat.div_mod_eq. done.
  - intros i Hi. by apply (load_byte_past r').
  - intros k Hk. unfold lin_region_load_cell. rewrite Hv'. cbn [negb].
    destruct (Z.leb_spec (capacity_cells r') (Z.of_nat k)); [simpl in *; lia|].
    by rewrite Hcell.
  - intros off len Hoff Hlen. apply check_range_iff; try done. unfold LIN_ETH_MAX_INPUT_BYTES in *. simpl. unfold two64. lia.
Qed.

Lemma lin_region_write_read_witness :
  let r := mkRegion 3 2 5 (Some [-1; -1; 44]) in let src := [104; 101; 108; 108; 111; 255; 1; 2; 9] in
  owned r /\ region_struct_valid r = true /\ bytes_wf src /\
  exists r', lin_region_write_bytes r (Some src) 9 = Some (Ok r').
Proof.
  set (r := mkRegion 3 2 5 (Some [-1; -1; 44])). set (src := [104; 101; 108; 108; 111; 255; 1; 2; 9]).
  assert (owned r) as Ho.
  { split; [unfold r; simpl; lia|]. split; [unfold r; simpl; lia|]. intros cs [= <-]. simpl. lia. }
  assert (bytes_wf src) as Hb.
  { repeat constructor; unfold two8; lia. }
  split; [exact Ho|]. split; [reflexivity|]. split; [exact Hb|].
  destruct (lin_region_write_read r src [-1; -1; 44] Ho eq_refl eq_refl Hb) as (r' & H & _).
  - vm_compute. discriminate.
  - vm_compute. discriminate.
  - exists r'. exact H.
Defined.

(** ** Region sets *)

Definition set_ok (s : LinRegionSet) : Prop :=
  Z.of_nat (length (regions s)) <= LIN_REGION_MAX_COUNT /\
  forall i r, regions s !! i = Some r ->
    region_id r = Z.of_nat i /\ region_struct_valid r = true /\
    0 <= capacity_cells r /\ 0 <= payload_len r.

Lemma set_ok_init : set_ok lin_region_set_init.
Proof. split; [unfold LIN_REGION_MAX_COUNT; simpl; lia|done]. Qed.

Lemma get_ok s id r :
  set_ok s -> in_i64 id ->
  lin_region_get s id = Ok r <-> 0 <= id /\ regions s !! Z.to_nat id = Some r.
Proof.
  intros [Hlen Hs] Hid. unfold lin_region_get, LIN_REGION_MAX_COUNT in *.
  destruct (Z.ltb_spec id 0); [split; [done|lia]|].
  assert (u64 id = id) as -> by (revert Hid; int_lia).
  destruct (Z.leb_spec (Z.of_nat (length (regions s))) id).
  { split; [done|]. intros [_ H1%lookup_lt_Some]. lia. }
  destruct (lookupz_in (regions s) id) as [q Hq]; [lia|]. rewrite Hq.
  apply lookupz_Some in Hq as [_ Hq]. destruct (Hs _ _ Hq) as (E & V & _).
  rewrite E, V, Z2Nat.id, u32_id, Z.eqb_refl by (try lia; unfold in_u32, two32; lia).
  simpl. split; [intros [= ->]; done|]. intros [_ Hr]. congruence.
Qed.

(** Regions are bound in canonical order and looked up safely: from a
    well-formed set, [lin_region_bind] succeeds only for the next id, and gives
    a well-formed set in which [lin_region_get] finds the new region at that id
    and, at every other signed id, exactly what it found before; every id that
    is negative or past the end (whatever its 64-bit pattern) is refused. *)
Theorem lin_region_bind_get s id cs cap plen s' :
  set_ok s -> 0 <= cap < two32 -> 0 <= plen < two32 ->
  lin_region_bind s id cs cap plen = Ok s' ->
  set_ok s' /\ id = Z.of_nat (length (regions s)) /\
  lin_region_get s' id = Ok (mkRegion id cap plen cs) /\
  (forall q r, in_i64 q -> q <> id -> lin_region_get s' q = Ok r <-> lin_region_get s q = Ok r) /\
  (forall q, in_i64 q -> (q < 0 \/ id < q) -> lin_region_get s' q = Err LIN_REGION_ERR_INVALID).
Proof.
  intros Hs Hcap Hplen H. pose proof Hs as [Hlen Hreg].
  unfold lin_region_bind in H. unfold LIN_REGION_MAX_COUNT in *.
  destruct (Z.leb_spec 64 (Z.of_nat (length (regions s)))); [done|].
  rewrite u32_id in H by (unfold in_u32, two32; lia).
  destruct (Z.eqb_spec id (Z.of_nat (length (regions s)))) as [->|]; [|done]. simpl in H.
  set (r := mkRegion (Z.of_nat (length (regions s))) cap plen cs) in *.
  assert (region_struct_valid r = true /\ s' = mkRegionSet (regions s ++ [r])) as [Hv ->].
  { unfold region_struct_valid, lin_region_capacity_bytes. simpl. revert H.
    repeat case_match; intros; simplify_eq; done. }
  assert (set_ok (mkRegionSet (regions s ++ [r]))) as Hs'.
  { split; [simpl; rewrite length_app; simpl; unfold LIN_REGION_MAX_COUNT; lia|].
    intros i q [Hq|[Hi Hq]]%lookup_app_Some; [by apply Hreg|].
    destruct (i - length (regions s))%nat eqn:E; simpl in Hq; [|done]. injection Hq as <-.
    simpl. split; [lia|]. split; [done|]. lia. }
  split; [done|]. split; [done|].
  assert (in_i64 (Z.of_nat (length (regions s)))) as Hi by (unfold in_i64, two63; lia).
  split; [|split].
  - apply get_ok; [done..|]. split; [lia|]. simpl.
    rewrite Nat2Z.id. by rewrite lookup_app_r, Nat.sub_diag by lia.
  - intros q p Hq Hne. rewrite !get_ok by done. simpl.
    destruct (Z.lt_ge_cases q 0); [split; intros []; lia|].
    destruct (Z.lt_ge_cases q (Z.of_nat (length (regions s)))).
    + by rewrite lookup_app_l by lia.
    + rewrite !lookup_ge_None_2; [done|lia|rewrite length_app; simpl; lia].
  - intros q Hq Hor. unfold lin_region_get. destruct (Z.ltb_spec q 0); [done|]. simpl.
    assert (u64 q = q) as -> by (revert Hq; int_lia).
    rewrite length_app. simpl. destruct (Z.leb_spec (Z.of_nat (length (regions s) + 1)) q); [done|lia].
Qed.

Lemma lin_region_bind_get_witness :
  exists s, lin_region_bind lin_region_set_init 0 (Some [5; 6]) 2 9 = Ok s /\ set_ok s /\
    lin_region_get s 0 = Ok (mkRegion 0 2 9 (Some [5; 6])).
Proof.
  eexists. split; [reflexivity|].
  destruct (lin_region_bind_get lin_region_set_init 0 (Some [5; 6]) 2 9
    (mkRegionSet [mkRegion 0 2 9 (Some [5; 6])]) set_ok_init) as (H1 & _ & H2 & _).
  - unfold two32. lia.
  - unfold two32. lia.
  - reflexivity.
  - split; [exact H1|exact H2].
Defined.
