(* ===== verification/Abi.v ===== *)
(** * lin_abi.h, lin_abi.c: the read-only region intrinsics of HOST-ABI-2

    The caller's stack [stack[0..sp)] is the list of its live entries, top
    first; [None] is an access to host memory out of a region's array. *)
From stdpp Require Import strings.
From S2P Require Import Prelude Common Region.

Definition LIN_HOST_ABI_1 : Z := 1.
Definition LIN_HOST_ABI_2 : Z := 2.
Definition LIN_ABI2_MAX_DECLARED : Z := 12.
Definition LIN_ABI2_REGION_CAPACITY : Z := 9.
Definition LIN_ABI2_REGION_CHECK_RANGE : Z := 10.
Definition LIN_ABI2_REGION_LOAD_BYTE : Z := 11.

(** A [const LinRegionSet *]: NULL, or an address and the set found there
    (borrowed, and not written while it is). *)
Abbreviation RegionsPtr := (option (nat * LinRegionSet)).

Definition same_ptr (p q : RegionsPtr) : bool :=
  match p, q with
  | None, None => true
  | Some (a, _), Some (b, _) => (a =? b)%nat
  | _, _ => false
  end.

Record LinAbiDesc : Type := mkDesc { abi_id : Z; d_nparams : Z; returns_value : Z }.

Definition ABI2_DESCRIPTORS : list LinAbiDesc :=
  [ mkDesc LIN_ABI2_REGION_CAPACITY 1 1;
    mkDesc LIN_ABI2_REGION_CHECK_RANGE 3 1;
    mkDesc LIN_ABI2_REGION_LOAD_BYTE 2 1 ].

Record LinAbiContext : Type := mkAbi {
  a_regions : RegionsPtr;
  a_version : Z;
  declared : list Z
}.

Record LinAbiResult : Type := mkAbiResult {
  vm_error : option LinErr;
  region_error : option LinRegionErr;
  value : Z
}.

Definition abi_result_ok (v : Z) : LinAbiResult := mkAbiResult None None v.
Definition abi_result_vm_error (e : LinErr) : LinAbiResult := mkAbiResult (Some e) None 0.
Definition abi_result_region_error (e : LinRegionErr) : LinAbiResult :=
  mkAbiResult None (Some e) 0.

Definition lin_abi2_context_init (rs : RegionsPtr) : LinAbiContext :=
  mkAbi rs LIN_HOST_ABI_2 (replicate 12 0).

Definition lin_abi2_desc (id : Z) : option LinAbiDesc :=
  List.find (fun d => abi_id d =? id) ABI2_DESCRIPTORS.

(** [None]: a write past [declared]. *)
Definition lin_abi2_enable (ctx : LinAbiContext) (id : Z)
    : option (res LinRegionErr LinAbiContext) :=
  if negb (a_version ctx =? LIN_HOST_ABI_2) then Some (Err LIN_REGION_ERR_ABI)
  else match lin_abi2_desc id with
       | None => Some (Err LIN_REGION_ERR_ABI)
       | Some _ =>
           match insertz id 1 (declared ctx) with
           | Some d => Some (Ok (mkAbi (a_regions ctx) (a_version ctx) d))
           | None => None
           end
       end.

Definition lin_abi2_is_enabled (ctx : LinAbiContext) (id : Z) : bool :=
  if LIN_ABI2_MAX_DECLARED <=? id then false
  else (a_version ctx =? LIN_HOST_ABI_2) &&
       negb (default 0 (lookupz (declared ctx) id) =? 0).

(** The three handlers; each is called with a non-NULL region set. *)
Definition dispatch_region_capacity (rs : LinRegionSet) (stack : list Z)
    : option (LinAbiResult * list Z) :=
  match stack with
  | rid :: rest =>
      match lin_region_get rs rid with
      | Err e => Some (abi_result_region_error e, stack)
      | Ok region =>
          let capacity := lin_region_capacity_bytes region in
          if INT64_MAX <? capacity then Some (abi_result_region_error LIN_REGION_ERR_OVERFLOW, stack)
          else Some (abi_result_ok (i64 capacity), rest)
      end
  | _ => Some (abi_result_vm_error LIN_ERR_VM_STACK_UNDERFLOW, stack)
  end.

Definition dispatch_region_check_range (rs : LinRegionSet) (stack : list Z)
    : option (LinAbiResult * list Z) :=
  match stack with
  | len :: offset :: rid :: rest =>
      if (offset <? 0) || (len <? 0)
      then Some (abi_result_region_error LIN_REGION_ERR_INVALID, stack)
      else
        match lin_region_get rs rid with
        | Err e => Some (abi_result_region_error e, stack)
        | Ok region =>
            let error :=
              match lin_region_check_range region (u64 offset) (u64 len) with
              | Ok _ => None
              | Err e => Some e
              end in
            Some (mkAbiResult None error (region_err_code error), rest)
        end
  | _ => Some (abi_result_vm_error LIN_ERR_VM_STACK_UNDERFLOW, stack)
  end.

Definition dispatch_region_load_byte (rs : LinRegionSet) (stack : list Z)
    : option (LinAbiResult * list Z) :=
  match stack with
  | byte_index :: rid :: rest =>
      if byte_index <? 0 then Some (abi_result_region_error LIN_REGION_ERR_INVALID, stack)
      else
        match lin_region_get rs rid with
        | Err e => Some (abi_result_region_error e, stack)
        | Ok region =>
            match lin_region_load_byte region (u64 byte_index) with
            | None => None
            | Some (Err e) => Some (abi_result_region_error e, stack)
            | Some (Ok byte) => Some (abi_result_ok (i64 byte), rest)
            end
        end
  | _ => Some (abi_result_vm_error LIN_ERR_VM_STACK_UNDERFLOW, stack)
  end.

Definition lin_abi2_dispatch (ctx : LinAbiContext) (id : Z) (stack : list Z)
    : option (LinAbiResult * list Z) :=
  if negb (a_version ctx =? LIN_HOST_ABI_2)
  then Some (abi_result_region_error LIN_REGION_ERR_ABI, stack)
  else match lin_abi2_desc id with
  | None => Some (abi_result_region_error LIN_REGION_ERR_ABI, stack)
  | Some _ =>
      if negb (lin_abi2_is_enabled ctx id)
      then Some (abi_result_region_error LIN_REGION_ERR_ABI, stack)
      else match a_regions ctx with
      | None => Some (abi_result_region_error LIN_REGION_ERR_INVALID, stack)
      | Some (_, rs) =>
          if id =? LIN_ABI2_REGION_CAPACITY then dispatch_region_capacity rs stack
          else if id =? LIN_ABI2_REGION_CHECK_RANGE then dispatch_region_check_range rs stack
          else if id =? LIN_ABI2_REGION_LOAD_BYTE then dispatch_region_load_byte rs stack
          else Some (abi_result_region_error LIN_REGION_ERR_ABI, stack)
      end
  end.

Definition lin_abi2_status_name (r : LinAbiResult) : string :=
  match vm_error r with
  | Some e => lin_err_name (Some e)
  | None =>
      match region_error r with
      | Some e => lin_region_err_name (Some e)
      | None => "ok"
      end
  end.

(** ** What a dispatch does *)

(** The arity of an intrinsic is that of its descriptor. *)
Definition arity (id : Z) : nat :=
  match lin_abi2_desc id with Some d => Z.to_nat (d_nparams d) | None => O end.

Definition failed (r : LinAbiResult) : Prop :=
  vm_error r <> None \/ region_error r <> None.

Lemma desc_some id d :
  lin_abi2_desc id = Some d ->
  (id = 9 /\ d = mkDesc 9 1 1) \/ (id = 10 /\ d = mkDesc 10 3 1) \/ (id = 11 /\ d = mkDesc 11 2 1).
Proof.
  unfold lin_abi2_desc, ABI2_DESCRIPTORS, LIN_ABI2_REGION_CAPACITY, LIN_ABI2_REGION_CHECK_RANGE,
    LIN_ABI2_REGION_LOAD_BYTE. cbn [List.find abi_id].
  destruct (Z.eqb_spec 9 id) as [<-|]; [intros [= <-]; by left|].
  destruct (Z.eqb_spec 10 id) as [<-|]; [intros [= <-]; by right; left|].
  destruct (Z.eqb_spec 11 id) as [<-|]; [intros [= <-]; by right; right|]. done.
Qed.

(** Either nothing moved and the result is a failure, or exactly the
    arguments are gone. *)
Definition dispatch_frame (n : nat) (stack : list Z) (r : LinAbiResult) (stack' : list Z) : Prop :=
  (failed r /\ stack' = stack) \/
  (vm_error r = None /\ (n <= length stack)%nat /\ stack' = drop n stack /\ in_i64 (value r)).

Ltac frame_fail :=
  left; split; [unfold failed; simpl; first [left; discriminate|right; discriminate]|done].
Ltac frame_pop := right; split; [done|]; split; [simpl; lia|]; split; [done|]; simpl.

Lemma capacity_frame rs stack r stack' :
  dispatch_region_capacity rs stack = Some (r, stack') -> dispatch_frame 1 stack r stack'.
Proof.
  unfold dispatch_region_capacity.
  destruct stack as [|rid rest]; [intros [= <- <-]; frame_fail|].
  destruct (lin_region_get rs rid); [|intros [= <- <-]; frame_fail].
  case_match; intros [= <- <-]; [frame_fail|frame_pop; apply i64_range].
Qed.

Lemma check_range_frame rs stack r stack' :
  dispatch_region_check_range rs stack = Some (r, stack') -> dispatch_frame 3 stack r stack'.
Proof.
  unfold dispatch_region_check_range.
  destruct stack as [|len [|off [|rid rest]]]; try (intros [= <- <-]; frame_fail).
  case_match; [intros [= <- <-]; frame_fail|].
  destruct (lin_region_get rs rid); [|intros [= <- <-]; frame_fail].
  intros [= <- <-]. frame_pop. destruct (lin_region_check_range _ _ _) as [|[]];
    simpl; unfold in_i64, two63; lia.
Qed.

Lemma load_byte_frame rs stack r stack' :
  dispatch_region_load_byte rs stack = Some (r, stack') -> dispatch_frame 2 stack r stack'.
Proof.
  unfold dispatch_region_load_byte.
  destruct stack as [|ix [|rid rest]]; try (intros [= <- <-]; frame_fail).
  case_match; [intros [= <- <-]; frame_fail|].
  destruct (lin_region_get rs rid); [|intros [= <- <-]; frame_fail].
  destruct (lin_region_load_byte _ _) as [[]|]; intros [= <- <-]; [|frame_fail].
  frame_pop. apply i64_range.
Qed.

Lemma dispatch_cases ctx id stack r stack' :
  lin_abi2_dispatch ctx id stack = Some (r, stack') -> dispatch_frame (arity id) stack r stack'.
Proof.
  unfold lin_abi2_dispatch, arity.
  case_match; [intros [= <- <-]; frame_fail|].
  destruct (lin_abi2_desc id) as [d|] eqn:Ed; [|intros [= <- <-]; frame_fail].
  case_match; [intros [= <- <-]; frame_fail|].
  destruct (a_regions ctx) as [[? rs]|]; [|intros [= <- <-]; frame_fail].
  apply desc_some in Ed as [[-> ->]|[[-> ->]|[-> ->]]]; simpl.
  - apply capacity_frame.
  - apply check_range_frame.
  - apply load_byte_frame.
Qed.

(** All region arrays of the context are the host's. *)
Definition abi_owned (p : RegionsPtr) : Prop :=
  forall a rs, p = Some (a, rs) -> forall r, r ∈ regions rs -> owned r.

Lemma get_elem rs id r : lin_region_get rs id = Ok r -> r ∈ regions rs /\ region_struct_valid r = true.
Proof.
  unfold lin_region_get. repeat case_match; intros; simplify_eq. split.
  - by eapply lookupz_elem.
  - by apply negb_false_iff.
Qed.

Lemma load_byte_total r i :
  owned r -> 0 <= i -> lin_region_load_byte r i <> None.
Proof.
  intros (O1 & O2 & O3) Hi. unfold lin_region_load_byte.
  destruct (region_struct_valid r) eqn:Hv; [|done]. cbn [negb].
  repeat case_match; try done. to_prop. exfalso.
  apply struct_valid_iff in Hv as (V1 & V2 & V3 & V4); [|done].
  unfold cell_at in *. destruct (cells r) as [cs|] eqn:Ec.
  - specialize (O3 _ eq_refl). destruct (lookupz_in cs (i / LIN_REGION_CELL_BYTES)) as [x Hx]; [|congruence].
    split; [by apply Z.div_pos|lia].
  - apply V2; [|done]. unfold LIN_REGION_CELL_BYTES in *.
    pose proof (Z.div_pos i 8 Hi). lia.
Qed.

Lemma dispatch_total ctx id stack :
  abi_owned (a_regions ctx) -> lin_abi2_dispatch ctx id stack <> None.
Proof.
  intros Ho. unfold lin_abi2_dispatch, dispatch_region_capacity, dispatch_region_check_range,
    dispatch_region_load_byte. repeat case_match; try done; subst.
  exfalso.
  match goal with H : lin_region_load_byte _ _ = None |- _ => revert H end.
  apply load_byte_total; [|apply u64_range].
  eapply Ho; [done|]. by eapply get_elem.
Qed.

(** Dispatch is atomic and total: over host-owned regions every call
    returns; either it reports a failure and the caller's stack is untouched, or
    it has no VM error, consumed exactly the descriptor's number of arguments
    and returns an [int64_t]; an id that was not enabled, and a stack with fewer
    entries than the descriptor asks, always fail. *)
Theorem lin_abi2_dispatch_atomic ctx id stack :
  abi_owned (a_regions ctx) ->
  exists r stack', lin_abi2_dispatch ctx id stack = Some (r, stack') /\
    ((failed r /\ stack' = stack) \/
     (vm_error r = None /\ (arity id <= length stack)%nat /\
      stack' = drop (arity id) stack /\ in_i64 (value r) /\
      lin_abi2_is_enabled ctx id = true)).
Proof.
  intros Ho. pose proof (dispatch_total ctx id stack Ho).
  destruct (lin_abi2_dispatch ctx id stack) as [[r stack']|] eqn:E; [|done].
  exists r, stack'. split; [done|].
  pose proof (dispatch_cases _ _ _ _ _ E) as [?|(? & ? & ? & ?)]; [by left|].
  unfold lin_abi2_dispatch in E.
  destruct (lin_abi2_is_enabled ctx id); [by right|].
  left. revert E. repeat case_match; intros; simplify_eq;
    (split; [right; simpl; discriminate|done]).
Qed.

Lemma lin_abi2_dispatch_atomic_witness :
  abi_owned (Some (0%nat, mkRegionSet [mkRegion 0 1 3 (Some [197121])])) /\
  exists r stack', lin_abi2_dispatch
    (mkAbi (Some (0%nat, mkRegionSet [mkRegion 0 1 3 (Some [197121])])) 2 (replicate 12 1)) 11 [2; 0; 7]
    = Some (r, stack').
Proof.
  assert (abi_owned (Some (0%nat, mkRegionSet [mkRegion 0 1 3 (Some [197121])]))) as H.
  { intros a rs E r Hr. injection E as <- <-. simpl in Hr.
    apply list_elem_of_singleton in Hr as ->. split; [simpl; lia|]. split; [simpl; lia|].
    intros cs [= <-]. simpl. lia. }
  split; [exact H|].
  destruct (lin_abi2_dispatch_atomic
    (mkAbi (Some (0%nat, mkRegionSet [mkRegion 0 1 3 (Some [197121])])) 2 (replicate 12 1)) 11 [2; 0; 7] H)
    as (r & s & E & _).
  exists r, s. exact E.
Defined.
