(* ===== verification/Vm.v ===== *)
(** * lin_vm.h, lin_vm.c: the LinVM interpreter

    A frame is its locals, its operand stack (top first, so [sp] is its length)
    and its array pool (the arrays allocated so far: [pool_used] is its length
    and [pool_len] the length of each).  What C leaves undefined, an access out
    of [locals], [stack] or [pool] that no test guards, is the outcome [V_ub].
    [fuel] bounds the nesting of the loop and of the calls; [None] means it ran
    out, which [vm_exec_ctx_terminates] excludes. *)
From stdpp Require Import strings.
From S2P Require Import Prelude Common Region Abi.

Definition LIN_VM_PROFILE_LINVM1 : Z := 1.
Definition LIN_VM_PROFILE_LINVM_C0 : Z := 2.

Inductive VmOp : Type :=
| OP_PUSH_CONST | OP_LOAD_LOCAL | OP_STORE_LOCAL
| OP_ADD | OP_SUB | OP_MUL | OP_DIV | OP_MOD
| OP_BIT_AND | OP_BIT_OR | OP_BIT_XOR | OP_BIT_NOT | OP_NEG
| OP_SHL | OP_SHR | OP_USHR
| OP_CMP_EQ | OP_CMP_NE | OP_CMP_LT | OP_CMP_GT | OP_CMP_LE | OP_CMP_GE
| OP_LOG_NOT
| OP_JUMP | OP_JUMP_IF_FALSE | OP_JUMP_IF_FALSE_KEEP | OP_JUMP_IF_TRUE_KEEP
| OP_POP | OP_CALL | OP_RET
| OP_LOAD_INDEX | OP_STORE_INDEX | OP_ARR_LEN
| OP_ABI_CALL.

#[export] Instance VmOp_eq_dec : EqDecision VmOp.
Proof. solve_decision. Defined.

(** The enumerator's value: one byte of an image or of a hashed code text. *)
Definition op_ord (o : VmOp) : Z :=
  match o with
  | OP_PUSH_CONST => 0 | OP_LOAD_LOCAL => 1 | OP_STORE_LOCAL => 2
  | OP_ADD => 3 | OP_SUB => 4 | OP_MUL => 5 | OP_DIV => 6 | OP_MOD => 7
  | OP_BIT_AND => 8 | OP_BIT_OR => 9 | OP_BIT_XOR => 10 | OP_BIT_NOT => 11 | OP_NEG => 12
  | OP_SHL => 13 | OP_SHR => 14 | OP_USHR => 15
  | OP_CMP_EQ => 16 | OP_CMP_NE => 17 | OP_CMP_LT => 18 | OP_CMP_GT => 19 | OP_CMP_LE => 20
  | OP_CMP_GE => 21 | OP_LOG_NOT => 22
  | OP_JUMP => 23 | OP_JUMP_IF_FALSE => 24 | OP_JUMP_IF_FALSE_KEEP => 25
  | OP_JUMP_IF_TRUE_KEEP => 26
  | OP_POP => 27 | OP_CALL => 28 | OP_RET => 29
  | OP_LOAD_INDEX => 30 | OP_STORE_INDEX => 31 | OP_ARR_LEN => 32
  | OP_ABI_CALL => 33
  end.

Lemma op_ord_inj o1 o2 : op_ord o1 = op_ord o2 -> o1 = o2.
Proof. destruct o1, o2; intros H; try reflexivity; discriminate H. Qed.

Lemma op_ord_range o : 0 <= op_ord o < 34.
Proof. destruct o; simpl; lia. Qed.

Record VmIns : Type := mkIns { op : VmOp; a : Z }.

Record VmFn : Type := mkFn {
  fn_name : list Z;
  nparams : nat;
  nlocals : nat;
  code : list VmIns;
  sig_ok : bool;
  ok : bool;
  reject : list Z;
  arr_n : list Z
}.

Record VmModule : Type := mkModule { fns : list VmFn }.

Record VmExecResult : Type := mkResult { val : Z; sp_at_ret : nat }.

Record VmFrame : Type := mkFrame {
  locals : list Z;
  stack : list Z;
  pool : list (list Z)
}.

(** [frames]: the context already has its frame store; [calloc_ok]: whether the
    allocation made when it has none succeeds.  The step counter is threaded by
    the functions. *)
Record LinVmContext : Type := mkCtx {
  c_module : VmModule;
  c_regions : RegionsPtr;
  c_abi : option LinAbiContext;
  step_limit : Z;
  profile : Z;
  c_abi_version : Z;
  frames : bool;
  calloc_ok : bool
}.

(** Results with undefined behaviour as a third outcome. *)
Inductive vres (A : Type) : Type :=
| VOk (x : A)
| VErr (e : LinErr)
| VUB.
Arguments VOk {A} x.
Arguments VErr {A} e.
Arguments VUB {A}.

Notation "'vlet' x ':=' m 'in' k" :=
  (match m with VOk x => k | VErr e => VErr e | VUB => VUB end)
  (at level 10, x pattern, m at level 100, k at level 200) : lin_scope.

(** An array access that nothing guards. *)
Definition deref {A} (o : option A) : vres A :=
  match o with Some x => VOk x | None => VUB end.

(** What one instruction asks of the loop. *)
Inductive action : Type :=
| A_next (fr : VmFrame)
| A_jump (fr : VmFrame) (pc : Z)
| A_ret (r : VmExecResult)
| A_call (ti : Z) (args : list Z) (fr : VmFrame).

(** ** Operations *)

Definition vm_shift (x b : Z) (left : bool) : Z :=
  if (b <? 0) || (64 <=? b) then 0
  else if left then i64 (u64 (Z.shiftl (u64 x) b))
  else Z.shiftr x b.

Definition vm_ushr (x b : Z) : Z :=
  if (b <? 0) || (64 <=? b) then 0 else i64 (Z.shiftr (u64 x) b).

Definition b2z (b : bool) : Z := if b then 1 else 0.

Definition vm_validate_abi_call_context (ctx : LinVmContext) (id : Z) : vres unit :=
  match c_abi ctx, c_regions ctx with
  | Some abi, Some _ =>
      if negb (profile ctx =? LIN_VM_PROFILE_LINVM_C0) then VErr LIN_ERR_VM_BAD_FN
      else if negb (c_abi_version ctx =? LIN_HOST_ABI_2) || negb (a_version abi =? LIN_HOST_ABI_2)
      then VErr LIN_ERR_VM_BAD_FN
      else if negb (same_ptr (a_regions abi) (c_regions ctx)) then VErr LIN_ERR_VM_BAD_FN
      else if negb (lin_abi2_is_enabled abi id) then VErr LIN_ERR_VM_BAD_FN
      else VOk tt
  | _, _ => VErr LIN_ERR_VM_BAD_FN
  end.

Definition with_stack (fr : VmFrame) (s : list Z) : VmFrame :=
  mkFrame (locals fr) s (pool fr).

(** [if (sp >= LIN_VM_MAX_STACK) overflow; stack[sp] = v; sp += 1] *)
Definition push (fr : VmFrame) (v : Z) : vres VmFrame :=
  if (LIN_VM_MAX_STACK <=? length (stack fr))%nat then VErr LIN_ERR_VM_STACK_OVERFLOW
  else VOk (with_stack fr (v :: stack fr)).

(** [if (sp == 0) underflow; sp -= 1] *)
Definition pop (fr : VmFrame) : vres (Z * VmFrame) :=
  match stack fr with
  | [] => VErr LIN_ERR_VM_STACK_UNDERFLOW
  | v :: s => VOk (v, with_stack fr s)
  end.

(** The array of a pool slot held in a local; [None] when the slot is out of
    the pool or not allocated (its length is 0). *)
Definition pool_array (fr : VmFrame) (l : Z) : option (list Z) :=
  if u64 l <? Z.of_nat LIN_VM_MAX_ARRS then lookupz (pool fr) (u64 l) else None.

Definition binop_result (o : VmOp) (x y : Z) : vres Z :=
  match o with
  | OP_ADD => VOk (lin_wadd x y)
  | OP_SUB => VOk (lin_wsub x y)
  | OP_MUL => VOk (lin_wmul x y)
  | OP_DIV => if y =? 0 then VErr LIN_ERR_VM_DIV_ZERO else VOk (lin_wdiv x y)
  | OP_MOD => if y =? 0 then VErr LIN_ERR_VM_DIV_ZERO else VOk (lin_wrem x y)
  | OP_BIT_AND => VOk (Z.land x y)
  | OP_BIT_OR => VOk (Z.lor x y)
  | OP_BIT_XOR => VOk (Z.lxor x y)
  | OP_SHL => VOk (vm_shift x y true)
  | OP_SHR => VOk (vm_shift x y false)
  | OP_USHR => VOk (vm_ushr x y)
  | OP_CMP_EQ => VOk (b2z (x =? y))
  | OP_CMP_NE => VOk (b2z (negb (x =? y)))
  | OP_CMP_LT => VOk (b2z (x <? y))
  | OP_CMP_GT => VOk (b2z (y <? x))
  | OP_CMP_LE => VOk (b2z (x <=? y))
  | OP_CMP_GE => VOk (b2z (y <=? x))
  | _ => VErr LIN_ERR_VM_BAD_FN
  end.

(** The [default] case: a binary operator. *)
Definition exec_binop (ins : VmIns) (fr : VmFrame) : vres action :=
  match stack fr with
  | y :: x :: s =>
      vlet r := binop_result (op ins) x y in
      VOk (A_next (with_stack fr (r :: s)))
  | _ => VErr LIN_ERR_VM_STACK_UNDERFLOW
  end.

Definition exec_load_index (ins : VmIns) (fr : VmFrame) : vres action :=
  vlet (ix, fr) := pop fr in
  vlet l := deref (lookupz (locals fr) (u64 (a ins))) in
  let v := match pool_array fr l with
           | Some arr => default 0 (lookupz arr ix)
           | None => 0
           end in
  vlet fr := push fr v in
  VOk (A_next fr).

Definition exec_store_index (ins : VmIns) (fr : VmFrame) : vres action :=
  match stack fr with
  | v :: ix :: s =>
      let fr := with_stack fr s in
      vlet l := deref (lookupz (locals fr) (u64 (a ins))) in
      match pool_array fr l with
      | Some arr =>
          match insertz ix v arr with
          | Some arr => VOk (A_next (mkFrame (locals fr) s (<[Z.to_nat (u64 l) := arr]> (pool fr))))
          | None => VOk (A_next fr)
          end
      | None => VOk (A_next fr)
      end
  | _ => VErr LIN_ERR_VM_STACK_UNDERFLOW
  end.

Definition exec_arr_len (ins : VmIns) (fr : VmFrame) : vres action :=
  if (LIN_VM_MAX_STACK <=? length (stack fr))%nat then VErr LIN_ERR_VM_STACK_OVERFLOW
  else
    vlet l := deref (lookupz (locals fr) (u64 (a ins))) in
    let n := match pool_array fr l with
             | Some arr => Z.of_nat (length arr)
             | None => 0
             end in
    VOk (A_next (with_stack fr (n :: stack fr))).

Definition exec_abi_call (ctx : LinVmContext) (ins : VmIns) (fr : VmFrame) : vres action :=
  if (a ins <? 0) || (255 <? a ins) then VErr LIN_ERR_VM_BAD_FN
  else
    vlet _ := vm_validate_abi_call_context ctx (a ins) in
    match c_abi ctx with
    | None => VErr LIN_ERR_VM_BAD_FN
    | Some abi =>
        match lin_abi2_dispatch abi (a ins) (stack fr) with
        | None => VUB
        | Some (result, s) =>
            match vm_error result with
            | Some e => VErr e
            | None =>
                if negb (bool_decide (region_error result = None)) &&
                   (length s =? length (stack fr))%nat
                then VErr LIN_ERR_VM_BAD_FN
                else
                  vlet fr := push (with_stack fr s) (value result) in
                  VOk (A_next fr)
            end
        end
    end.

(** Up to the recursive call: the callee, its arguments (bottom first, as they
    lie in the stack) and the caller's frame below them. *)
Definition exec_call (m : VmModule) (ins : VmIns) (fr : VmFrame) : vres action :=
  let ti := u64 (a ins) in
  match lookupz (fns m) ti with
  | None => VErr LIN_ERR_VM_BAD_FN
  | Some g =>
      let n := nparams g in
      if (length (stack fr) <? n)%nat then VErr LIN_ERR_VM_STACK_UNDERFLOW
      else VOk (A_call ti (rev (take n (stack fr))) (with_stack fr (drop n (stack fr))))
  end.

(** One turn of the [switch]. *)
Definition vm_step (ctx : LinVmContext) (ins : VmIns) (fr : VmFrame) : vres action :=
  match op ins with
  | OP_PUSH_CONST => vlet fr := push fr (a ins) in VOk (A_next fr)
  | OP_LOAD_LOCAL =>
      if (LIN_VM_MAX_STACK <=? length (stack fr))%nat then VErr LIN_ERR_VM_STACK_OVERFLOW
      else
        vlet v := deref (lookupz (locals fr) (u64 (a ins))) in
        VOk (A_next (with_stack fr (v :: stack fr)))
  | OP_STORE_LOCAL =>
      vlet (v, fr) := pop fr in
      vlet ls := deref (insertz (u64 (a ins)) v (locals fr)) in
      VOk (A_next (mkFrame ls (stack fr) (pool fr)))
  | OP_POP => vlet (_, fr) := pop fr in VOk (A_next fr)
  | OP_BIT_NOT => vlet (v, fr) := pop fr in VOk (A_next (with_stack fr (Z.lnot v :: stack fr)))
  | OP_NEG => vlet (v, fr) := pop fr in VOk (A_next (with_stack fr (lin_wsub 0 v :: stack fr)))
  | OP_LOG_NOT =>
      vlet (v, fr) := pop fr in VOk (A_next (with_stack fr (b2z (v =? 0) :: stack fr)))
  | OP_JUMP => VOk (A_jump fr (u64 (a ins)))
  | OP_JUMP_IF_FALSE =>
      vlet (v, fr) := pop fr in
      VOk (if v =? 0 then A_jump fr (u64 (a ins)) else A_next fr)
  | OP_JUMP_IF_FALSE_KEEP =>
      vlet (v, _) := pop fr in
      VOk (if v =? 0 then A_jump fr (u64 (a ins)) else A_next fr)
  | OP_JUMP_IF_TRUE_KEEP =>
      vlet (v, _) := pop fr in
      VOk (if v =? 0 then A_next fr else A_jump fr (u64 (a ins)))
  | OP_RET =>
      vlet (v, _) := pop fr in VOk (A_ret (mkResult v (length (stack fr))))
  | OP_LOAD_INDEX => exec_load_index ins fr
  | OP_STORE_INDEX => exec_store_index ins fr
  | OP_ARR_LEN => exec_arr_len ins fr
  | OP_CALL => exec_call (c_module ctx) ins fr
  | OP_ABI_CALL => exec_abi_call ctx ins fr
  | _ => exec_binop ins fr
  end.

(** ** Entering a function *)

(** The loop over [arr_n]: a zeroed array per positive length, its slot in the
    local of the same index. *)
Fixpoint alloc_arrays (li : Z) (lens : list Z) (ls : list Z) (pl : list (list Z))
    : vres (list Z * list (list Z)) :=
  match lens with
  | [] => VOk (ls, pl)
  | an :: lens =>
      if an =? 0 then alloc_arrays (li + 1) lens ls pl
      else if (LIN_VM_MAX_ARRS <=? length pl)%nat then VErr LIN_ERR_VM_BAD_FN
      else if Z.of_nat LIN_VM_MAX_ARR_LEN <? an then VUB
      else
        vlet ls := deref (insertz li (Z.of_nat (length pl)) ls) in
        alloc_arrays (li + 1) lens ls (pl ++ [replicate (Z.to_nat an) 0])
  end.

(** The loop over the arguments; a local that holds an array keeps its slot. *)
Fixpoint copy_args (idx : Z) (args lens ls : list Z) : vres (list Z) :=
  match args with
  | [] => VOk ls
  | v :: args =>
      if 0 <? default 0 (head lens) then copy_args (idx + 1) args (tail lens) ls
      else
        vlet ls := deref (insertz idx v ls) in
        copy_args (idx + 1) args (tail lens) ls
  end.

Definition enter_frame (f : VmFn) (args : list Z) : vres VmFrame :=
  vlet (ls, pl) := alloc_arrays 0 (arr_n f) (replicate LIN_VM_MAX_LOCALS 0) [] in
  vlet ls := copy_args 0 args (arr_n f) ls in
  VOk (mkFrame ls [] pl).

(** The tests made before the frame is touched. *)
Definition vm_enter (ctx : LinVmContext) (fi : Z) (args : list Z) (depth : nat) : vres VmFn :=
  if (LIN_VM_MAX_DEPTH <? depth)%nat then VErr LIN_ERR_VM_DEPTH
  else match lookupz (fns (c_module ctx)) fi with
  | None => VErr LIN_ERR_VM_BAD_FN
  | Some f =>
      if negb (ok f) then VErr LIN_ERR_VM_BAD_FN
      else if negb (length args =? nparams f)%nat then VErr LIN_ERR_VM_ARITY
      else if negb (frames ctx) && negb (calloc_ok ctx) then VErr LIN_ERR_ARENA_OOM
      else VOk f
  end.

(** The context of the callees: the frame store is there. *)
Definition with_frames (ctx : LinVmContext) : LinVmContext :=
  mkCtx (c_module ctx) (c_regions ctx) (c_abi ctx) (step_limit ctx) (profile ctx)
    (c_abi_version ctx) true (calloc_ok ctx).

(** ** The interpreter *)

(** What a call leaves behind: its outcome and the step counter. *)
Inductive vm_out : Type :=
| V_ok (r : VmExecResult) (steps : Z)
| V_err (e : LinErr) (steps : Z)
| V_ub.

Fixpoint vm_loop (fuel : nat) (ctx : LinVmContext) (f : VmFn) (depth : nat)
    (fr : VmFrame) (pc steps : Z) : option vm_out :=
  match fuel with
  | O => None
  | S fuel =>
      match lookupz (code f) pc with
      | None => Some (V_ok (mkResult 0 (length (stack fr))) steps)
      | Some ins =>
          let steps := u64 (steps + 1) in
          if step_limit ctx <? steps then Some (V_err LIN_ERR_VM_STEP_LIMIT steps)
          else
            match vm_step ctx ins fr with
            | VUB => Some V_ub
            | VErr e => Some (V_err e steps)
            | VOk (A_ret r) => Some (V_ok r steps)
            | VOk (A_next fr) => vm_loop fuel ctx f depth fr (pc + 1) steps
            | VOk (A_jump fr pc) => vm_loop fuel ctx f depth fr pc steps
            | VOk (A_call ti args fr) =>
                match vm_exec_ctx fuel ctx ti args (depth + 1) steps with
                | Some (V_ok r steps) =>
                    if (LIN_VM_MAX_STACK <=? length (stack fr))%nat then Some V_ub
                    else vm_loop fuel ctx f depth (with_stack fr (val r :: stack fr)) (pc + 1) steps
                | other => other
                end
            end
      end
  end

with vm_exec_ctx (fuel : nat) (ctx : LinVmContext) (fi : Z) (args : list Z)
    (depth : nat) (steps : Z) : option vm_out :=
  match fuel with
  | O => None
  | S fuel =>
      match vm_enter ctx fi args depth with
      | VUB => Some V_ub
      | VErr e => Some (V_err e steps)
      | VOk f =>
          match enter_frame f args with
          | VUB => Some V_ub
          | VErr e => Some (V_err e steps)
          | VOk fr => vm_loop fuel (with_frames ctx) f depth fr 0 steps
          end
      end
  end.

(** The context [vm_exec] builds. *)
Definition vm_exec_context (m : VmModule) (calloc : bool) : LinVmContext :=
  mkCtx m None None LIN_VM_STEP_LIMIT LIN_VM_PROFILE_LINVM1 LIN_HOST_ABI_1 false calloc.

Definition vm_exec (fuel : nat) (m : VmModule) (calloc : bool) (fi : Z) (args : list Z)
    (depth : nat) (steps : Z) : option vm_out :=
  vm_exec_ctx fuel (vm_exec_context m calloc) fi args depth steps.

Definition vm_op_name (o : VmOp) : string :=
  match o with
  | OP_PUSH_CONST => "push_const" | OP_LOAD_LOCAL => "load_local" | OP_STORE_LOCAL => "store_local"
  | OP_ADD => "add" | OP_SUB => "sub" | OP_MUL => "mul" | OP_DIV => "div" | OP_MOD => "mod"
  | OP_BIT_AND => "bit_and" | OP_BIT_OR => "bit_or" | OP_BIT_XOR => "bit_xor"
  | OP_BIT_NOT => "bit_not" | OP_NEG => "neg" | OP_SHL => "shl" | OP_SHR => "shr" | OP_USHR => "ushr"
  | OP_CMP_EQ => "cmp_eq" | OP_CMP_NE => "cmp_ne" | OP_CMP_LT => "cmp_lt" | OP_CMP_GT => "cmp_gt"
  | OP_CMP_LE => "cmp_le" | OP_CMP_GE => "cmp_ge" | OP_LOG_NOT => "log_not"
  | OP_JUMP => "jump" | OP_JUMP_IF_FALSE => "jump_if_false"
  | OP_JUMP_IF_FALSE_KEEP => "jump_if_false_keep" | OP_JUMP_IF_TRUE_KEEP => "jump_if_true_keep"
  | OP_POP => "pop" | OP_CALL => "call" | OP_RET => "ret"
  | OP_LOAD_INDEX => "load_index" | OP_STORE_INDEX => "store_index" | OP_ARR_LEN => "arr_len"
  | OP_ABI_CALL => "abi_call"
  end.

(** sum(n) = n <= 0 ? 0 : n + sum(n - 1) *)
Definition sum_fn : VmFn :=
  mkFn [] 1 1
    [mkIns OP_LOAD_LOCAL 0; mkIns OP_PUSH_CONST 0; mkIns OP_CMP_LE 0; mkIns OP_JUMP_IF_FALSE 6;
     mkIns OP_PUSH_CONST 0; mkIns OP_RET 0;
     mkIns OP_LOAD_LOCAL 0; mkIns OP_LOAD_LOCAL 0; mkIns OP_PUSH_CONST 1; mkIns OP_SUB 0;
     mkIns OP_CALL 0; mkIns OP_ADD 0; mkIns OP_RET 0] true true [] [0].

Example vm_sum :
  vm_exec 500 (mkModule [sum_fn]) true 0 [10] 0 0 = Some (V_ok (mkResult 55 1) 116).
Proof. vm_compute. reflexivity. Qed.

Example vm_depth :
  vm_exec 5000 (mkModule [sum_fn]) true 0 [200] 0 0 = Some (V_err LIN_ERR_VM_DEPTH 1737).
Proof. vm_compute. reflexivity. Qed.
