(* ===== verification/VmSpec.v ===== *)
(** * The interpreter's guarantees: termination, step accounting, memory safety *)
From S2P Require Import Prelude Common Region Abi Vm.

(** ** Termination

    A turn of the loop takes a step, and a call is made from a turn: twice the
    steps left, plus one for the last turn and one to enter, is fuel enough. *)

Definition steps_left (ctx : LinVmContext) (steps : Z) : nat := Z.to_nat (step_limit ctx - steps).

(** Where the counter may be when a call returns; the counter passes the limit
    exactly when the call is stopped by it. *)
Definition steps_ok (limit before : Z) (o : vm_out) : Prop :=
  match o with
  | V_ok _ s => before <= s <= limit
  | V_err LIN_ERR_VM_STEP_LIMIT s => s = limit + 1
  | V_err _ s => before <= s <= limit
  | V_ub => True
  end.

Lemma steps_ok_mono limit b c o : b <= c -> steps_ok limit c o -> steps_ok limit b o.
Proof. destruct o as [|[]|]; simpl; lia. Qed.

Definition not_limit {A} (v : vres A) : Prop := v <> VErr LIN_ERR_VM_STEP_LIMIT.

Lemma push_not_limit fr v : not_limit (push fr v).
Proof. unfold push, not_limit. by case_match. Qed.
Lemma pop_not_limit fr : not_limit (pop fr).
Proof. unfold pop, not_limit. by case_match. Qed.

Ltac nl := unfold not_limit; discriminate.

Lemma binop_not_limit o x y : not_limit (binop_result o x y).
Proof. unfold binop_result. destruct o; repeat case_match; nl. Qed.

Lemma deref_not_limit {A} (o : option A) : not_limit (deref o).
Proof. by destruct o. Qed.

Lemma vlet_not_limit {A B} (m : vres A) (k : A -> vres B) :
  not_limit m -> (forall x, not_limit (k x)) -> not_limit (vlet x := m in k x).
Proof. unfold not_limit. destruct m; intros H1 H2; [apply H2|congruence|done]. Qed.

Lemma vlet2_not_limit {A1 A2 B} (m : vres (A1 * A2)) (k : A1 -> A2 -> vres B) :
  not_limit m -> (forall x y, not_limit (k x y)) -> not_limit (vlet (x, y) := m in k x y).
Proof. unfold not_limit. destruct m as [[]| |]; intros H1 H2; [apply H2|congruence|done]. Qed.

Lemma dispatch_not_limit abi id s r s' e :
  lin_abi2_dispatch abi id s = Some (r, s') -> vm_error r = Some e -> e = LIN_ERR_VM_STACK_UNDERFLOW.
Proof.
  unfold lin_abi2_dispatch, dispatch_region_capacity, dispatch_region_check_range,
    dispatch_region_load_byte. repeat case_match; intros; simplify_eq/=; done.
Qed.

Ltac not_limit_step :=
  first [ apply vlet2_not_limit; [|intros ? ?] | apply vlet_not_limit; [|intros ?]
        | apply push_not_limit | apply pop_not_limit | apply binop_not_limit
        | apply deref_not_limit | nl ].

Lemma vm_step_not_limit ctx ins fr : not_limit (vm_step ctx ins fr).
Proof.
  unfold vm_step. destruct (op ins);
    unfold exec_load_index, exec_store_index, exec_arr_len, exec_call, exec_abi_call, exec_binop;
    repeat first [not_limit_step | case_match]; try nl.
  - unfold vm_validate_abi_call_context. repeat case_match; nl.
  - match goal with H : lin_abi2_dispatch _ _ _ = _, H' : vm_error _ = _ |- _ =>
      rewrite (dispatch_not_limit _ _ _ _ _ _ H H') end. nl.
Qed.

Lemma alloc_arrays_not_limit li lens ls pl : not_limit (alloc_arrays li lens ls pl).
Proof.
  revert li ls pl. induction lens as [|an lens IH]; intros; cbn [alloc_arrays]; [nl|].
  destruct (an =? 0); [apply IH|]. destruct (LIN_VM_MAX_ARRS <=? length pl)%nat; [nl|].
  destruct (Z.of_nat LIN_VM_MAX_ARR_LEN <? an); [nl|]. apply vlet_not_limit; [apply deref_not_limit|done].
Qed.

Lemma copy_args_not_limit idx args lens ls : not_limit (copy_args idx args lens ls).
Proof.
  revert idx lens ls. induction args as [|v args IH]; intros; simpl; [nl|].
  case_match; [apply IH|]. apply vlet_not_limit; [apply deref_not_limit|done].
Qed.

Lemma enter_frame_not_limit f args : not_limit (enter_frame f args).
Proof.
  unfold enter_frame. apply vlet2_not_limit; [apply alloc_arrays_not_limit|]. intros.
  apply vlet_not_limit; [apply copy_args_not_limit|]. nl.
Qed.

Lemma vm_enter_not_limit ctx fi args depth : not_limit (vm_enter ctx fi args depth).
Proof. unfold vm_enter. repeat (case_match; try nl). Qed.

(** The invariant of both functions at once. *)
Definition runs_at (fuel : nat) : Prop :=
  (forall ctx f depth fr pc steps,
     0 <= steps <= step_limit ctx -> step_limit ctx + 1 < two64 ->
     (2 * steps_left ctx steps + 1 <= fuel)%nat ->
     exists o, vm_loop fuel ctx f depth fr pc steps = Some o /\ steps_ok (step_limit ctx) steps o) /\
  (forall ctx fi args depth steps,
     0 <= steps <= step_limit ctx -> step_limit ctx + 1 < two64 ->
     (2 * steps_left ctx steps + 2 <= fuel)%nat ->
     exists o, vm_exec_ctx fuel ctx fi args depth steps = Some o /\ steps_ok (step_limit ctx) steps o).

Lemma err_steps_ok limit steps e :
  e <> LIN_ERR_VM_STEP_LIMIT -> steps <= limit -> steps_ok limit steps (V_err e steps).
Proof. destruct e; simpl; intros; try done; lia. Qed.

Lemma runs_loop fuel ctx f depth fr pc steps :
  runs_at fuel ->
  0 <= steps <= step_limit ctx -> step_limit ctx + 1 < two64 ->
  (2 * steps_left ctx steps + 1 <= S fuel)%nat ->
  exists o, vm_loop (S fuel) ctx f depth fr pc steps = Some o /\ steps_ok (step_limit ctx) steps o.
Proof.
  intros [IHl IHe] Hs Hl Hf. cbn [vm_loop].
  destruct (lookupz (code f) pc) as [ins|]; [|eexists; split; [done|simpl; lia]].
  assert (u64 (steps + 1) = steps + 1) as -> by (apply u64_id; unfold in_u64; lia).
  destruct (Z.ltb_spec (step_limit ctx) (steps + 1)); [eexists; split; [done|simpl; lia]|].
  assert (forall fr pc s, steps + 1 <= s <= step_limit ctx ->
    exists o, vm_loop fuel ctx f depth fr pc s = Some o /\ steps_ok (step_limit ctx) steps o) as Hgo.
  { intros fr' pc' s Hr. destruct (IHl ctx f depth fr' pc' s) as (o & -> & Ho);
      [lia|done|unfold steps_left in *; lia|].
    exists o. split; [done|]. eapply steps_ok_mono; [|done]. lia. }
  pose proof (vm_step_not_limit ctx ins fr) as Hn. unfold not_limit in Hn.
  destruct (vm_step ctx ins fr) as [[fr'|fr' pc'|r|ti args fr']|e|].
  - apply Hgo. lia.
  - apply Hgo. lia.
  - eexists; split; [done|]. simpl. lia.
  - destruct (IHe ctx ti args (depth + 1)%nat (steps + 1)) as (o & -> & Ho);
      [lia|done|unfold steps_left in *; lia|].
    destruct o as [r s|e s|].
    + case_match; [by exists V_ub|]. apply Hgo. simpl in Ho. lia.
    + eexists; split; [done|]. eapply steps_ok_mono; [|done]. lia.
    + by eexists.
  - eexists; split; [done|]. eapply steps_ok_mono; [|apply err_steps_ok; [congruence|lia]]. lia.
  - by eexists.
Qed.

Lemma runs fuel : runs_at fuel.
Proof.
  induction fuel as [|fuel IH]; [split; intros; lia|]. split; [by intros; apply runs_loop|].
  intros ctx fi args depth steps Hs Hl Hf. cbn [vm_exec_ctx].
  pose proof (vm_enter_not_limit ctx fi args depth) as He. unfold not_limit in He.
  destruct (vm_enter ctx fi args depth) as [f|e|];
    [|eexists; split; [done|apply err_steps_ok; [congruence|lia]]|by eexists].
  pose proof (enter_frame_not_limit f args) as Hfr. unfold not_limit in Hfr.
  destruct (enter_frame f args) as [fr|e|];
    [|eexists; split; [done|apply err_steps_ok; [congruence|lia]]|by eexists].
  destruct IH as [IHl _].
  apply (IHl (with_frames ctx) f depth fr 0 steps); [done..|unfold steps_left in *; simpl; lia].
Qed.

(** ** More fuel never changes an outcome *)

Definition vm_mono_at (n : nat) : Prop :=
  (forall ctx f depth fr pc steps o k, (n <= k)%nat ->
     vm_loop n ctx f depth fr pc steps = Some o -> vm_loop k ctx f depth fr pc steps = Some o) /\
  (forall ctx fi args depth steps o k, (n <= k)%nat ->
     vm_exec_ctx n ctx fi args depth steps = Some o -> vm_exec_ctx k ctx fi args depth steps = Some o).

Lemma vm_mono n : vm_mono_at n.
Proof.
  induction n as [|n [IHl IHe]]; [split; intros; discriminate|]. split; intros;
    (destruct k as [|k]; [lia|]).
  - cbn [vm_loop] in *. case_match; [|done]. case_match; [done|]. case_match; try done.
    case_match; try done; try (apply IHl; [lia|done]).
    destruct (vm_exec_ctx n ctx ti args (depth + 1) (u64 (steps + 1))) as [o'|] eqn:E; [|done].
    rewrite (IHe _ _ _ _ _ _ k ltac:(lia) E).
    destruct o'; try done. case_match; [done|]. apply IHl; [lia|done].
  - cbn [vm_exec_ctx] in *. case_match; try done. case_match; try done. apply IHl; [lia|done].
Qed.

(** The outcome does not depend on the fuel, once it suffices. *)
Lemma vm_exec_fuel ctx fi args depth steps n k o :
  vm_exec_ctx n ctx fi args depth steps = Some o ->
  vm_exec_ctx k ctx fi args depth steps <> None ->
  vm_exec_ctx k ctx fi args depth steps = Some o.
Proof.
  intros H1 H2. destruct (vm_exec_ctx k ctx fi args depth steps) as [o'|] eqn:E; [|done].
  apply (proj2 (vm_mono n)) with (k := Nat.max n k) in H1; [|lia].
  apply (proj2 (vm_mono k)) with (k := Nat.max n k) in E; [|lia]. congruence.
Qed.

(** C30. Execution always ends, within its step budget: for any module, context
    and arguments, with a step limit below 2^64 - 1, twice the steps left plus 2
    is fuel enough, and any larger fuel gives the same outcome; a normal return
    leaves the counter between its start and the limit, and the counter is past
    the limit (by exactly one) iff the call was stopped with VM_STEP_LIMIT. *)
Theorem vm_exec_ctx_terminates ctx fi args depth steps :
  0 <= steps <= step_limit ctx -> step_limit ctx + 1 < two64 ->
  exists o, steps_ok (step_limit ctx) steps o /\
    forall fuel, (2 * Z.to_nat (step_limit ctx - steps) + 2 <= fuel)%nat ->
      vm_exec_ctx fuel ctx fi args depth steps = Some o.
Proof.
  intros Hs Hl.
  destruct (runs (2 * steps_left ctx steps + 2)) as [_ H].
  destruct (H ctx fi args depth steps Hs Hl ltac:(lia)) as (o & Ho & Hok).
  exists o. split; [done|]. intros fuel Hf.
  apply (proj2 (vm_mono _)) with (k := fuel) in Ho; [done|]. unfold steps_left. lia.
Qed.

(** A loop without end: [jump 0]. *)
Definition spin_fn : VmFn := mkFn [] 0 0 [mkIns OP_JUMP 0] true true [] [].

Lemma vm_exec_ctx_terminates_witness :
  let ctx := mkCtx (mkModule [spin_fn]) None None 100 1 1 false true in
  0 <= 0 <= step_limit ctx /\ step_limit ctx + 1 < two64 /\
  vm_exec_ctx 202 ctx 0 [] 0 0 = Some (V_err LIN_ERR_VM_STEP_LIMIT 101).
Proof.
  set (ctx := mkCtx (mkModule [spin_fn]) None None 100 1 1 false true).
  assert (0 <= 0 <= step_limit ctx) as H1 by (simpl; lia).
  assert (step_limit ctx + 1 < two64) as H2 by (unfold two64; simpl; lia).
  split; [exact H1|]. split; [exact H2|].
  destruct (vm_exec_ctx_terminates ctx 0 [] 0 0 H1 H2) as (o & Ho & H).
  assert (Some o = Some (V_err LIN_ERR_VM_STEP_LIMIT 101)) as E.
  { rewrite <- (H 202%nat); [vm_compute; reflexivity|vm_compute; lia]. }
  rewrite <- E. apply H. vm_compute. lia.
Defined.
