(* ===== verification/VmSafe.v ===== *)
(** * Memory safety and type preservation of the interpreter *)
From S2P Require Import Prelude Common Region Abi Vm VmSpec.

Definition uses_local (o : VmOp) : bool :=
  match o with
  | OP_LOAD_LOCAL | OP_STORE_LOCAL | OP_LOAD_INDEX | OP_STORE_INDEX | OP_ARR_LEN => true
  | _ => false
  end.

(** What the interpreter relies on; it tests everything else at run time. *)
Definition ins_safe (i : VmIns) : Prop :=
  in_i64 (a i) /\ (uses_local (op i) = true -> 0 <= a i < Z.of_nat LIN_VM_MAX_LOCALS).

Record fn_safe (f : VmFn) : Prop := {
  safe_params : (nparams f <= LIN_VM_MAX_LOCALS)%nat;
  safe_arr_n : (length (arr_n f) <= LIN_VM_MAX_LOCALS)%nat;
  safe_lens : Forall (fun n => 0 <= n <= Z.of_nat LIN_VM_MAX_ARR_LEN) (arr_n f);
  safe_code : Forall ins_safe (code f)
}.

Definition module_safe (m : VmModule) : Prop := Forall fn_safe (fns m).

(** No instruction calls a function without parameters. *)
Definition calls_have_args (m : VmModule) : Prop :=
  forall f ins g, f ∈ fns m -> ins ∈ code f -> op ins = OP_CALL ->
    lookupz (fns m) (u64 (a ins)) = Some g -> nparams g <> O.

Definition array_ok (l : list Z) : Prop :=
  (length l <= LIN_VM_MAX_ARR_LEN)%nat /\ Forall in_i64 l.

Record frame_ok (fr : VmFrame) : Prop := {
  ok_nlocals : length (locals fr) = LIN_VM_MAX_LOCALS;
  ok_locals : Forall in_i64 (locals fr);
  ok_sp : (length (stack fr) <= LIN_VM_MAX_STACK)%nat;
  ok_stack : Forall in_i64 (stack fr);
  ok_pool : (length (pool fr) <= LIN_VM_MAX_ARRS)%nat;
  ok_arrays : Forall array_ok (pool fr)
}.

Definition ctx_safe (ctx : LinVmContext) : Prop :=
  module_safe (c_module ctx) /\
  forall abi, c_abi ctx = Some abi -> abi_owned (a_regions abi).

(** ** Values *)

Lemma in_i64_small z : -1 <= z <= 65536 -> in_i64 z.
Proof. unfold in_i64, two63. lia. Qed.
Lemma b2z_i64 b : in_i64 (b2z b).
Proof. destruct b; apply in_i64_small; simpl; lia. Qed.

(** An [int64_t] is sign or nothing above bit 63. *)
Lemma in_i64_shiftr z : in_i64 z <-> Z.shiftr z 63 = 0 \/ Z.shiftr z 63 = -1.
Proof.
  rewrite Z.shiftr_div_pow2 by lia. unfold in_i64, two63.
  change (2 ^ 63) with 9223372036854775808. Z.div_mod_to_equations. lia.
Qed.

Lemma bitop_i64 f x y :
  (forall u v n, Z.shiftr (f u v) n = f (Z.shiftr u n) (Z.shiftr v n)) ->
  (forall u v, (u = 0 \/ u = -1) -> (v = 0 \/ v = -1) -> f u v = 0 \/ f u v = -1) ->
  in_i64 x -> in_i64 y -> in_i64 (f x y).
Proof. rewrite !in_i64_shiftr. intros H1 H2 Hx Hy. rewrite H1. by apply H2. Qed.

Ltac sign_case := first [left; reflexivity|right; reflexivity].

Lemma land_i64 x y : in_i64 x -> in_i64 y -> in_i64 (Z.land x y).
Proof. apply bitop_i64; [intros; apply Z.shiftr_land|]. intros u v [->| ->] [->| ->]; sign_case. Qed.
Lemma lor_i64 x y : in_i64 x -> in_i64 y -> in_i64 (Z.lor x y).
Proof. apply bitop_i64; [intros; apply Z.shiftr_lor|]. intros u v [->| ->] [->| ->]; sign_case. Qed.
Lemma lxor_i64 x y : in_i64 x -> in_i64 y -> in_i64 (Z.lxor x y).
Proof. apply bitop_i64; [intros; apply Z.shiftr_lxor|]. intros u v [->| ->] [->| ->]; sign_case. Qed.

Lemma lnot_i64 x : in_i64 x -> in_i64 (Z.lnot x).
Proof. unfold in_i64, two63, Z.lnot. lia. Qed.

Lemma shiftr_i64 x b : in_i64 x -> 0 <= b -> in_i64 (Z.shiftr x b).
Proof.
  rewrite !in_i64_shiftr. intros Hx Hb.
  rewrite Z.shiftr_shiftr, Z.add_comm, <- Z.shiftr_shiftr by lia.
  destruct Hx as [->| ->]; [left; by apply Z.shiftr_0_l|right].
  rewrite Z.shiftr_div_pow2 by done.
  symmetry. apply Z.div_unique with (2 ^ b - 1); [|lia]. left.
  pose proof (Z.pow_pos_nonneg 2 b). lia.
Qed.

Lemma shift_i64 x b l : in_i64 x -> in_i64 (vm_shift x b l).
Proof.
  intros Hx. unfold vm_shift. case_match; [by apply in_i64_small|].
  destruct l; [apply i64_range|]. to_prop. by apply shiftr_i64.
Qed.

Lemma ushr_i64 x b : in_i64 (vm_ushr x b).
Proof. unfold vm_ushr. case_match; [by apply in_i64_small|apply i64_range]. Qed.

Lemma binop_i64 o x y r :
  in_i64 x -> in_i64 y -> binop_result o x y = VOk r -> in_i64 r.
Proof.
  intros Hx Hy. destruct o; cbn [binop_result]; try discriminate;
    try (intros [= <-]);
    auto using land_i64, lor_i64, lxor_i64, shift_i64, ushr_i64, b2z_i64 with lin;
    (destruct (Z.eqb_spec y 0); [discriminate|intros [= <-]]); auto with lin.
Qed.

Lemma binop_no_ub o x y : binop_result o x y <> VUB.
Proof. destruct o; cbn [binop_result]; try discriminate; by case_match. Qed.

(** ** Frames *)

Lemma Forall_drop_i64 n (l : list Z) : Forall in_i64 l -> Forall in_i64 (drop n l).
Proof. apply Forall_drop. Qed.

Lemma frame_stack fr s :
  frame_ok fr -> (length s <= LIN_VM_MAX_STACK)%nat -> Forall in_i64 s ->
  frame_ok (with_stack fr s).
Proof. intros [] ? ?. by constructor. Qed.

Lemma push_safe fr v :
  frame_ok fr -> in_i64 v ->
  (exists fr', push fr v = VOk fr' /\ frame_ok fr') \/ (exists e, push fr v = VErr e).
Proof.
  intros Hf Hv. unfold push.
  destruct (Nat.leb_spec LIN_VM_MAX_STACK (length (stack fr))); [right; by eexists|].
  left. eexists. split; [done|]. apply frame_stack; [done|simpl; lia|].
  constructor; [done|apply Hf].
Qed.

Lemma pop_safe fr :
  frame_ok fr ->
  (exists v fr', pop fr = VOk (v, fr') /\ frame_ok fr' /\ in_i64 v /\
     stack fr = v :: stack fr' /\ locals fr' = locals fr /\ pool fr' = pool fr) \/
  (exists e, pop fr = VErr e).
Proof.
  intros Hf. unfold pop. destruct (stack fr) as [|v s] eqn:E; [right; by eexists|].
  left. pose proof (ok_stack _ Hf) as Hs. pose proof (ok_sp _ Hf) as Hl. rewrite E in Hs, Hl.
  apply Forall_cons_1 in Hs as [Hv Hs]. exists v, (with_stack fr s).
  split_and!; try done. apply frame_stack; [done|simpl in Hl; lia|done].
Qed.

Lemma u64_local i : ins_safe i -> uses_local (op i) = true ->
  0 <= u64 (a i) < Z.of_nat LIN_VM_MAX_LOCALS.
Proof.
  intros [Hr Hl] Hu. specialize (Hl Hu). rewrite u64_id; [done|].
  unfold LIN_VM_MAX_LOCALS in Hl. unfold in_u64, two64. lia.
Qed.

Lemma local_safe fr i :
  frame_ok fr -> ins_safe i -> uses_local (op i) = true ->
  exists v, lookupz (locals fr) (u64 (a i)) = Some v /\ in_i64 v.
Proof.
  intros Hf Hi Hu. destruct (lookupz_in (locals fr) (u64 (a i))) as [v Hv].
  - rewrite (ok_nlocals _ Hf). by apply u64_local.
  - exists v. split; [done|]. apply lookupz_elem in Hv.
    by apply (Forall_elem _ _ _ (ok_locals _ Hf)).
Qed.

Lemma insertz_Forall {A} (P : A -> Prop) z x l k :
  Forall P l -> P x -> insertz z x l = Some k -> Forall P k.
Proof. intros Hl Hx [_ ->]%insertz_Some. by apply Forall_insert. Qed.

Lemma pool_array_ok fr l arr :
  frame_ok fr -> pool_array fr l = Some arr ->
  array_ok arr /\ (Z.to_nat (u64 l) < length (pool fr))%nat.
Proof.
  intros Hf. unfold pool_array. case_match; [|done]. intros H1. split.
  - apply (Forall_elem _ _ _ (ok_arrays _ Hf)). by eapply lookupz_elem.
  - apply lookupz_range in H1. lia.
Qed.

(** ** One instruction *)

Definition action_ok (m : VmModule) (fr : VmFrame) (i : VmIns) (act : action) : Prop :=
  match act with
  | A_next fr' | A_jump fr' _ => frame_ok fr'
  | A_ret r => in_i64 (val r) /\ (sp_at_ret r <= LIN_VM_MAX_STACK)%nat
  | A_call ti args fr' =>
      frame_ok fr' /\ Forall in_i64 args /\ op i = OP_CALL /\ ti = u64 (a i) /\
      exists g, lookupz (fns m) ti = Some g /\ length args = nparams g /\
        (length (stack fr') + nparams g = length (stack fr))%nat
  end.

Definition step_ok (m : VmModule) (fr : VmFrame) (i : VmIns) (v : vres action) : Prop :=
  match v with VOk act => action_ok m fr i act | VErr _ => True | VUB => False end.

Section Steps.
Context (ctx : LinVmContext) (Hctx : ctx_safe ctx).
Context (i : VmIns) (Hi : ins_safe i) (fr : VmFrame) (Hf : frame_ok fr).

Lemma unary_ok (g : Z -> Z) :
  (forall v, in_i64 v -> in_i64 (g v)) ->
  step_ok (c_module ctx) fr i
    (vlet (v, fr) := pop fr in VOk (A_next (with_stack fr (g v :: stack fr)))).
Proof.
  intros Hg. destruct (pop_safe fr Hf) as [(v & fr' & -> & Hf' & Hv & Hs & _)|[e ->]]; [|done].
  simpl. pose proof (ok_sp _ Hf) as H1. rewrite Hs in H1.
  apply frame_stack; [done|done|constructor; [by apply Hg|apply Hf']].
Qed.

Lemma push_step_ok v :
  in_i64 v -> step_ok (c_module ctx) fr i (vlet fr := push fr v in VOk (A_next fr)).
Proof. intros Hv. by destruct (push_safe fr v Hf Hv) as [(fr' & -> & ?)|[e ->]]. Qed.

Lemma binop_ok : step_ok (c_module ctx) fr i (exec_binop i fr).
Proof.
  unfold exec_binop. pose proof (ok_stack _ Hf) as Hs. pose proof (ok_sp _ Hf) as Hl.
  destruct (stack fr) as [|y [|x s]] eqn:E; [done..|].
  apply Forall_cons_1 in Hs as [Hy Hs]. apply Forall_cons_1 in Hs as [Hx Hs].
  destruct (binop_result (op i) x y) as [r|e|] eqn:Er; [|done|by apply binop_no_ub in Er].
  simpl. apply frame_stack; [done|simpl in *; lia|].
  constructor; [|done]. exact (binop_i64 _ _ _ _ Hx Hy Er).
Qed.

Lemma load_index_ok : uses_local (op i) = true -> step_ok (c_module ctx) fr i (exec_load_index i fr).
Proof.
  intros Hu. unfold exec_load_index.
  destruct (pop_safe fr Hf) as [(ix & fr' & -> & Hf' & Hix & _ & El & Ep)|[e ->]]; [|done].
  destruct (local_safe fr' i Hf' Hi Hu) as (l & -> & Hl). cbn [deref].
  assert (in_i64 (match pool_array fr' l with Some arr => default 0 (lookupz arr ix) | None => 0 end)) as Hv.
  { destruct (pool_array fr' l) as [arr|] eqn:Ea; [|by apply in_i64_small].
    apply pool_array_ok in Ea as [[_ Ha] _]; [|done].
    destruct (lookupz arr ix) as [v|] eqn:Ev; [|by apply in_i64_small].
    apply lookupz_elem in Ev. by apply (Forall_elem _ _ _ Ha). }
  by destruct (push_safe fr' _ Hf' Hv) as [(fr2 & -> & ?)|[e ->]].
Qed.

Lemma store_index_ok : uses_local (op i) = true -> step_ok (c_module ctx) fr i (exec_store_index i fr).
Proof.
  intros Hu. unfold exec_store_index. pose proof (ok_stack _ Hf) as Hs. pose proof (ok_sp _ Hf) as Hsp.
  destruct (stack fr) as [|v [|ix s]] eqn:E; [done..|].
  apply Forall_cons_1 in Hs as [Hv Hs]. apply Forall_cons_1 in Hs as [Hix Hs].
  assert (frame_ok (with_stack fr s)) as Hf' by (apply frame_stack; [done|simpl in *; lia|done]).
  destruct (local_safe _ i Hf' Hi Hu) as (l & -> & Hl). cbn [deref].
  destruct (pool_array (with_stack fr s) l) as [arr|] eqn:Ea; [|done].
  destruct (insertz ix v arr) as [arr'|] eqn:Ei; [|done].
  apply pool_array_ok in Ea as [[Hn Ha] Hp]; [|done].
  destruct Hf'. simpl in *. constructor; simpl; try done.
  - by rewrite length_insert.
  - apply Forall_insert; [done|]. split; [|exact (insertz_Forall _ _ _ _ _ Ha Hv Ei)].
    by rewrite (insertz_length _ _ _ _ Ei).
Qed.

Lemma arr_len_ok : uses_local (op i) = true -> step_ok (c_module ctx) fr i (exec_arr_len i fr).
Proof.
  intros Hu. unfold exec_arr_len.
  destruct (Nat.leb_spec LIN_VM_MAX_STACK (length (stack fr))); [done|].
  destruct (local_safe fr i Hf Hi Hu) as (l & -> & Hl). cbn [deref]. simpl.
  apply frame_stack; [done|simpl; lia|]. constructor; [|apply Hf].
  destruct (pool_array fr l) as [arr|] eqn:Ea; [|by apply in_i64_small].
  apply pool_array_ok in Ea as [[Hn _] _]; [|done]. unfold LIN_VM_MAX_ARR_LEN in Hn.
  apply in_i64_small. lia.
Qed.

Lemma abi_call_ok : step_ok (c_module ctx) fr i (exec_abi_call ctx i fr).
Proof.
  unfold exec_abi_call. case_match; [done|].
  destruct (vm_validate_abi_call_context ctx (a i)) eqn:Ev; [|done|].
  2:{ revert Ev. unfold vm_validate_abi_call_context. repeat case_match; done. }
  destruct (c_abi ctx) as [abi|] eqn:Ea; [|done].
  destruct (lin_abi2_dispatch abi (a i) (stack fr)) as [[r s]|] eqn:Ed.
  2:{ apply (dispatch_total abi (a i) (stack fr)); [by apply Hctx|done]. }
  destruct (vm_error r) eqn:Ee; [done|].
  case_match; [done|].
  assert (frame_ok (with_stack fr s) /\ in_i64 (value r)) as [Hf' Hv].
  { apply dispatch_cases in Ed as [[Hfail ->]|(_ & Hn & -> & Hv)].
    - exfalso. destruct Hfail as [Hfail|Hfail]; [done|].
      rewrite Nat.eqb_refl, bool_decide_false in H0 by done. done.
    - split; [|done]. pose proof (ok_sp _ Hf).
      apply frame_stack; [done|rewrite length_drop; lia|by apply Forall_drop, Hf]. }
  by destruct (push_safe _ _ Hf' Hv) as [(fr' & -> & ?)|[e ->]].
Qed.

Lemma call_ok : op i = OP_CALL -> step_ok (c_module ctx) fr i (exec_call (c_module ctx) i fr).
Proof.
  intros Ho. unfold exec_call. destruct (lookupz _ _) as [g|] eqn:Eg; [|done].
  destruct (Nat.ltb_spec (length (stack fr)) (nparams g)); [done|]. simpl.
  pose proof (ok_sp _ Hf). split; [|split; [|split; [done|split; [done|]]]].
  - apply frame_stack; [done|rewrite length_drop; lia|by apply Forall_drop, Hf].
  - apply Forall_rev, Forall_take, Hf.
  - exists g. split; [done|]. rewrite length_rev, length_take, length_drop. lia.
Qed.

Lemma vm_step_ok : step_ok (c_module ctx) fr i (vm_step ctx i fr).
Proof.
  unfold vm_step. destruct (op i) eqn:Eo; try apply binop_ok.
  - apply push_step_ok, Hi.
  - destruct (Nat.leb_spec LIN_VM_MAX_STACK (length (stack fr))); [done|].
    destruct (local_safe fr i Hf Hi) as (l & -> & Hl); [by rewrite Eo|]. simpl.
    apply frame_stack; [done|simpl; lia|]. constructor; [done|apply Hf].
  - destruct (pop_safe fr Hf) as [(v & fr' & -> & Hf' & Hv & _)|[e ->]]; [|done].
    rewrite insertz_in; [|rewrite (ok_nlocals _ Hf'); apply u64_local; [done|by rewrite Eo]].
    simpl. destruct Hf'. constructor; simpl; try done.
    + by rewrite length_insert.
    + by apply Forall_insert.
  - apply (unary_ok Z.lnot), lnot_i64.
  - apply (unary_ok (lin_wsub 0)). auto with lin.
  - apply (unary_ok (fun v => b2z (v =? 0))). intros. apply b2z_i64.
  - done.
  - destruct (pop_safe fr Hf) as [(v & fr' & -> & Hf' & _)|[e ->]]; [|done]. by case_match.
  - destruct (pop_safe fr Hf) as [(v & fr' & -> & Hf' & _)|[e ->]]; [|done]. by case_match.
  - destruct (pop_safe fr Hf) as [(v & fr' & -> & Hf' & _)|[e ->]]; [|done]. by case_match.
  - by destruct (pop_safe fr Hf) as [(v & fr' & -> & Hf' & _)|[e ->]].
  - by apply call_ok.
  - destruct (pop_safe fr Hf) as [(v & fr' & -> & Hf' & Hv & _)|[e ->]]; [|done].
    split; [done|]. apply Hf.
  - apply load_index_ok. by rewrite Eo.
  - apply store_index_ok. by rewrite Eo.
  - apply arr_len_ok. by rewrite Eo.
  - apply abi_call_ok.
Qed.
End Steps.

(** ** Entering a function *)

Definition locals_ok (ls : list Z) : Prop :=
  length ls = LIN_VM_MAX_LOCALS /\ Forall in_i64 ls.

Lemma locals_insert ls z v :
  locals_ok ls -> 0 <= z < Z.of_nat LIN_VM_MAX_LOCALS -> in_i64 v ->
  exists ls', insertz z v ls = Some ls' /\ locals_ok ls'.
Proof.
  intros [Hn Hl] Hz Hv. eexists. split; [apply insertz_in; by rewrite Hn|].
  split; [by rewrite length_insert|by apply Forall_insert].
Qed.

Lemma zeros_ok n : (n <= LIN_VM_MAX_ARR_LEN)%nat -> array_ok (replicate n 0).
Proof.
  intros. split; [by rewrite length_replicate|].
  apply Forall_replicate, in_i64_small. lia.
Qed.

Lemma alloc_arrays_ok lens : forall li ls pl,
  Forall (fun n => 0 <= n <= Z.of_nat LIN_VM_MAX_ARR_LEN) lens ->
  0 <= li -> li + Z.of_nat (length lens) <= Z.of_nat LIN_VM_MAX_LOCALS ->
  locals_ok ls -> (length pl <= LIN_VM_MAX_ARRS)%nat -> Forall array_ok pl ->
  match alloc_arrays li lens ls pl with
  | VOk (ls', pl') => locals_ok ls' /\ (length pl' <= LIN_VM_MAX_ARRS)%nat /\ Forall array_ok pl'
  | VErr _ => True
  | VUB => False
  end.
Proof.
  induction lens as [|an lens IH]; intros li ls pl Hl H0 Hli Hls Hn Hp; cbn [alloc_arrays]; [done|].
  apply Forall_cons_1 in Hl as [Han Hl]. cbn [length] in Hli.
  destruct (an =? 0); [apply IH; try done; lia|].
  destruct (Nat.leb_spec LIN_VM_MAX_ARRS (length pl)); [done|].
  destruct (Z.ltb_spec (Z.of_nat LIN_VM_MAX_ARR_LEN) an); [lia|].
  destruct (locals_insert ls li (Z.of_nat (length pl))) as (ls' & -> & Hls'); [done|lia| |].
  { unfold LIN_VM_MAX_ARRS in *. apply in_i64_small. lia. }
  cbn [deref]. apply IH; try done; try lia.
  - rewrite length_app. simpl. lia.
  - apply Forall_app. split; [done|]. constructor; [|done]. apply zeros_ok. lia.
Qed.

Lemma copy_args_ok args : forall idx lens ls,
  Forall in_i64 args -> 0 <= idx ->
  idx + Z.of_nat (length args) <= Z.of_nat LIN_VM_MAX_LOCALS -> locals_ok ls ->
  exists ls', copy_args idx args lens ls = VOk ls' /\ locals_ok ls'.
Proof.
  induction args as [|v args IH]; intros idx lens ls Ha H0 Hi Hls; cbn [copy_args]; [by eexists|].
  apply Forall_cons_1 in Ha as [Hv Ha]. cbn [length] in Hi.
  case_match; [apply IH; try done; lia|].
  destruct (locals_insert ls idx v) as (ls' & -> & Hls'); [done|lia|done|].
  cbn [deref]. apply IH; try done; lia.
Qed.

Lemma enter_frame_ok f args :
  fn_safe f -> length args = nparams f -> Forall in_i64 args ->
  match enter_frame f args with
  | VOk fr => frame_ok fr
  | VErr _ => True
  | VUB => False
  end.
Proof.
  intros [Hp Ha Hl Hc] Hn Hargs. unfold enter_frame.
  pose proof (alloc_arrays_ok (arr_n f) 0 (replicate LIN_VM_MAX_LOCALS 0) [] Hl) as H.
  destruct (alloc_arrays _ _ _ _) as [[ls pl]|e|]; [|done|].
  - destruct H as (Hls & Hpn & Hpl); try done; try lia.
    { split; [apply length_replicate|]. apply Forall_replicate, in_i64_small. lia. }
    { simpl. lia. }
    destruct (copy_args_ok args 0 (arr_n f) ls) as (ls' & -> & [Hn' Hls']); try done; [lia|].
    constructor; try done. simpl. lia.
  - apply H; try done; try lia; [|simpl; lia].
    split; [apply length_replicate|]. apply Forall_replicate, in_i64_small. lia.
Qed.

(** ** Every execution *)

Definition out_ok (o : vm_out) : Prop :=
  match o with
  | V_ok r _ => in_i64 (val r) /\ (sp_at_ret r <= LIN_VM_MAX_STACK)%nat
  | V_err _ _ => True
  | V_ub => False
  end.

Lemma vm_enter_inv ctx fi args depth f :
  vm_enter ctx fi args depth = VOk f ->
  (depth <= LIN_VM_MAX_DEPTH)%nat /\ lookupz (fns (c_module ctx)) fi = Some f /\
  ok f = true /\ length args = nparams f.
Proof.
  unfold vm_enter. destruct (Nat.ltb_spec LIN_VM_MAX_DEPTH depth); [done|].
  destruct (lookupz (fns (c_module ctx)) fi) as [g|]; [|done].
  destruct (ok g) eqn:Eo; [|done]. cbn [negb].
  destruct (Nat.eqb_spec (length args) (nparams g)); [|done]. cbn [negb].
  destruct (negb (frames ctx) && _); [done|]. by intros [= <-].
Qed.

Definition safe_at (fuel : nat) : Prop :=
  (forall ctx f depth fr pc steps o,
     ctx_safe ctx -> calls_have_args (c_module ctx) -> f ∈ fns (c_module ctx) -> frame_ok fr ->
     vm_loop fuel ctx f depth fr pc steps = Some o -> out_ok o) /\
  (forall ctx fi args depth steps o,
     ctx_safe ctx -> calls_have_args (c_module ctx) -> Forall in_i64 args ->
     vm_exec_ctx fuel ctx fi args depth steps = Some o -> out_ok o).

Lemma safe_loop fuel ctx f depth fr pc steps o :
  safe_at fuel -> ctx_safe ctx -> calls_have_args (c_module ctx) -> f ∈ fns (c_module ctx) ->
  frame_ok fr -> vm_loop (S fuel) ctx f depth fr pc steps = Some o -> out_ok o.
Proof.
  intros [IHl IHe] Hc Hargs Hfin Hf H. cbn [vm_loop] in H.
  destruct (lookupz (code f) pc) as [ins|] eqn:Hins.
  2:{ injection H as <-. simpl. split; [by apply in_i64_small|apply Hf]. }
  case_match; [by injection H as <-|].
  apply lookupz_elem in Hins.
  assert (ins_safe ins) as Hi.
  { apply (Forall_elem _ _ _ (safe_code _ (Forall_elem _ _ _ (proj1 Hc) Hfin)) Hins). }
  pose proof (vm_step_ok ctx Hc ins Hi fr Hf) as Hs.
  destruct (vm_step ctx ins fr) as [[fr'|fr' pc'|r|ti args fr']|e|]; simpl in Hs.
  - by eapply IHl.
  - by eapply IHl.
  - by injection H as <-.
  - destruct Hs as (Hf' & Hi64 & Ho & -> & g & Hg & Hlen & Hsp).
    pose proof (Hargs f ins g Hfin Hins Ho Hg) as Hn0.
    destruct (vm_exec_ctx fuel ctx _ args _ _) as [o'|] eqn:E; [|done].
    pose proof (IHe _ _ _ _ _ _ Hc Hargs Hi64 E) as Ho'.
    destruct o' as [r s|e s|]; [|by injection H as <-|done]. destruct Ho' as [Hr _].
    pose proof (ok_sp _ Hf).
    destruct (Nat.leb_spec LIN_VM_MAX_STACK (length (stack fr'))); [lia|].
    eapply IHl in H; try done. apply frame_stack; [done|simpl; lia|].
    constructor; [done|apply Hf'].
  - by injection H as <-.
  - done.
Qed.

Lemma safe fuel : safe_at fuel.
Proof.
  induction fuel as [|fuel IH]; [split; intros; discriminate|].
  split; [intros; by eapply safe_loop|].
  intros ctx fi args depth steps o Hc Hargs Hi H. cbn [vm_exec_ctx] in H.
  destruct (vm_enter ctx fi args depth) as [f|e|] eqn:Ee; [|by injection H as <-|].
  2:{ exfalso. revert Ee. unfold vm_enter. repeat case_match; done. }
  apply vm_enter_inv in Ee as (_ & Hin%lookupz_elem & _ & Hlen).
  pose proof (enter_frame_ok f args (Forall_elem _ _ _ (proj1 Hc) Hin) Hlen Hi) as Hfr.
  destruct (enter_frame f args) as [fr|e|]; [|by injection H as <-|done].
  destruct IH as [IHl _]. by eapply (IHl (with_frames ctx)).
Qed.

(** C5. Memory safety and type preservation: a module whose local operands are
    below 64, whose functions declare at most 64 parameters and locals and arrays
    of at most 256 cells, and in which no instruction calls a function without
    parameters, never runs into undefined behaviour, whatever its jumps, call
    targets, stack use, arguments, depth, steps and fuel: every execution that
    ends returns an [int64_t] with at most 256 stack entries, or an error code. *)
Theorem vm_exec_ctx_safe fuel ctx fi args depth steps o :
  ctx_safe ctx -> calls_have_args (c_module ctx) -> Forall in_i64 args ->
  vm_exec_ctx fuel ctx fi args depth steps = Some o ->
  match o with
  | V_ok r _ => in_i64 (val r) /\ (sp_at_ret r <= LIN_VM_MAX_STACK)%nat
  | V_err _ _ => True
  | V_ub => False
  end.
Proof. intros. destruct (safe fuel) as [_ H3]. by eapply H3. Qed.

Lemma vm_exec_ctx_safe_witness :
  let ctx := vm_exec_context (mkModule [sum_fn]) true in
  ctx_safe ctx /\ calls_have_args (c_module ctx) /\ Forall in_i64 [10] /\
  vm_exec_ctx 500 ctx 0 [10] 0 0 = Some (V_ok (mkResult 55 1) 116) /\ in_i64 55.
Proof.
  set (ctx := vm_exec_context (mkModule [sum_fn]) true).
  assert (ctx_safe ctx) as H1.
  { split; [|done]. constructor; [|constructor]. constructor.
    - vm_compute. lia.
    - vm_compute. lia.
    - repeat constructor; unfold LIN_VM_MAX_ARR_LEN; lia.
    - repeat constructor; vm_compute; congruence. }
  assert (calls_have_args (c_module ctx)) as H2.
  { intros f ins g Hf Hi Ho Hg. simpl in Hf. apply list_elem_of_singleton in Hf as ->.
    apply lookupz_elem in Hg. simpl in Hg. apply list_elem_of_singleton in Hg as ->. done. }
  assert (Forall in_i64 [10]) as H3.
  { constructor; [|constructor]. unfold in_i64, two63. lia. }
  assert (vm_exec_ctx 500 ctx 0 [10] 0 0 = Some (V_ok (mkResult 55 1) 116)) as H4.
  { vm_compute. reflexivity. }
  split; [exact H1|]. split; [exact H2|]. split; [exact H3|]. split; [exact H4|].
  exact (proj1 (vm_exec_ctx_safe 500 ctx 0 [10] 0 0 _ H1 H2 H3 H4)).
Defined.

(** ** The unguarded write of OP_CALL *)

(** 256 pushes, then a call of a function without parameters. *)
Definition full_fn : VmFn :=
  mkFn [] 0 0 (replicate 256 (mkIns OP_PUSH_CONST 7) ++ [mkIns OP_CALL 1; mkIns OP_RET 0])
    true true [] [].
Definition seven_fn : VmFn :=
  mkFn [] 0 0 [mkIns OP_PUSH_CONST 7; mkIns OP_RET 0] true true [] [].

(** The hypothesis on calls is needed: after 256 pushes a call of a
    function without parameters writes its result at [stack[256]], past the
    operand stack, with no overflow test; every instruction of this module is
    otherwise well formed (all other instructions report VM_STACK_OVERFLOW
    there). *)
Theorem vm_call_overflow :
  module_safe (mkModule [full_fn; seven_fn]) /\
  vm_exec 300 (mkModule [full_fn; seven_fn]) true 0 [] 0 0 = Some V_ub /\
  forall v fr, length (stack fr) = LIN_VM_MAX_STACK ->
    push fr v = VErr LIN_ERR_VM_STACK_OVERFLOW.
Proof.
  split; [|split].
  - repeat constructor; try (simpl; lia); try (apply in_i64_small; simpl; lia).
  - vm_compute. reflexivity.
  - intros v fr Hl. unfold push. by rewrite Hl, Nat.leb_refl.
Qed.
