(* ===== verification/Lower.v ===== *)
(** * lin_vm.c: lower_emit and lower_arena, and the correctness of the lowering

    [lower_emit] walks the arena in post-order and appends to the code buffer
    [out]; as for [ast_arena_eval], [fuel] bounds the depth of the walk. *)
From stdpp Require Import strings.
From S2P Require Import Prelude Common Token Ast Parse ParseSpec Region Abi Vm VmSpec VmSafe.

Abbreviation LoweredCode := (list VmIns).

(** [if (out->len >= LIN_LOWER_CAP) return OOM; out->code[out->len++] = ins] *)
Definition emit (out : LoweredCode) (ins : VmIns) : res LinErr LoweredCode :=
  if (LIN_LOWER_CAP <=? length out)%nat then Err LIN_ERR_ARENA_OOM else Ok (out ++ [ins]).

(** The inner switch of the binary tags. *)
Definition op_of_tag (t : AstTag) : option VmOp :=
  match t with
  | TAG_ADD => Some OP_ADD | TAG_SUB => Some OP_SUB | TAG_MUL => Some OP_MUL
  | TAG_DIV => Some OP_DIV | TAG_MOD => Some OP_MOD
  | TAG_EQ => Some OP_CMP_EQ | TAG_NEQ => Some OP_CMP_NE
  | TAG_LT => Some OP_CMP_LT | TAG_LTE => Some OP_CMP_LE
  | TAG_GT => Some OP_CMP_GT | TAG_GTE => Some OP_CMP_GE
  | _ => None
  end.

Fixpoint lower_emit (fuel : nat) (a : AstArena) (node : nat) (env : list VarBinding)
    (out : LoweredCode) : option (res LinErr LoweredCode) :=
  match fuel with
  | O => None
  | S fuel =>
      match a !! node with
      | None => Some (Err LIN_ERR_INVALID_NODE)
      | Some n =>
          match n_tag n with
          | TAG_LIT => Some (emit out (mkIns OP_PUSH_CONST (n_val n)))
          | TAG_VAR_REF =>
              match env_index env (n_name n) with
              | None => Some (Err LIN_ERR_UNDEF_VAR)
              | Some found => Some (emit out (mkIns OP_LOAD_LOCAL (i64 (Z.of_nat found))))
              end
          | TAG_UNARY_POS => lower_emit fuel a (n_lhs n) env out
          | TAG_UNARY_NEG =>
              match lower_emit fuel a (n_lhs n) env out with
              | Some (Ok out) => Some (emit out (mkIns OP_NEG 0))
              | r => r
              end
          | TAG_CALL | TAG_CALL_ARG => Some (Err LIN_ERR_UNDEF_VAR)
          | tag =>
              match op_of_tag tag with
              | None => Some (Err LIN_ERR_INVALID_NODE)
              | Some op =>
                  match lower_emit fuel a (n_lhs n) env out with
                  | Some (Ok out) =>
                      match lower_emit fuel a (n_rhs n) env out with
                      | Some (Ok out) => Some (emit out (mkIns op 0))
                      | r => r
                      end
                  | r => r
                  end
              end
          end
      end
  end.

Definition lower_arena (fuel : nat) (a : AstArena) (root : nat) (env : list VarBinding)
    : option (res LinErr LoweredCode) :=
  match lower_emit fuel a root env [] with
  | Some (Ok out) => Some (emit out (mkIns OP_RET 0))
  | r => r
  end.

(** ** The lowering as a function on trees *)

Definition op_of_binop (b : binop) : VmOp :=
  match b with
  | B_add => OP_ADD | B_sub => OP_SUB | B_mul => OP_MUL | B_div => OP_DIV | B_mod => OP_MOD
  | B_eq => OP_CMP_EQ | B_neq => OP_CMP_NE | B_lt => OP_CMP_LT | B_lte => OP_CMP_LE
  | B_gt => OP_CMP_GT | B_gte => OP_CMP_GE
  end.

(** No call, every variable bound. *)
Fixpoint closed (env : list VarBinding) (e : expr) : bool :=
  match e with
  | E_lit _ => true
  | E_var x => match env_index env x with Some _ => true | None => false end
  | E_pos e | E_neg e => closed env e
  | E_bin _ l r => closed env l && closed env r
  | E_call _ _ => false
  end.

Fixpoint compile (env : list VarBinding) (e : expr) : LoweredCode :=
  match e with
  | E_lit v => [mkIns OP_PUSH_CONST v]
  | E_var x => [mkIns OP_LOAD_LOCAL (Z.of_nat (default O (env_index env x)))]
  | E_pos e => compile env e
  | E_neg e => compile env e ++ [mkIns OP_NEG 0]
  | E_bin b l r => compile env l ++ compile env r ++ [mkIns (op_of_binop b) 0]
  | E_call _ _ => []
  end.

Lemma compile_length env e : (length (compile env e) <= esize e)%nat.
Proof.
  induction e; simpl; rewrite ?length_app; simpl; lia.
Qed.

Lemma emit_ok out ins : (length out < LIN_LOWER_CAP)%nat -> emit out ins = Ok (out ++ [ins]).
Proof. intros. unfold emit. destruct (Nat.leb_spec LIN_LOWER_CAP (length out)); [lia|done]. Qed.

Lemma lower_bin fuel a n env out node b :
  a !! n = Some node -> n_tag node = tag_of_binop b ->
  lower_emit (S fuel) a n env out =
    match lower_emit fuel a (n_lhs node) env out with
    | Some (Ok out) =>
        match lower_emit fuel a (n_rhs node) env out with
        | Some (Ok out) => Some (emit out (mkIns (op_of_binop b) 0))
        | r => r
        end
    | r => r
    end.
Proof. intros Hn Ht. cbn [lower_emit]. rewrite Hn, Ht. by destruct b. Qed.

Lemma lower_emit_compile a n e env fuel out :
  repr a n e -> (eheight e <= fuel)%nat -> (length out + esize e <= LIN_LOWER_CAP)%nat ->
  (length env <= LIN_VM_MAX_LOCALS)%nat ->
  lower_emit fuel a n env out =
    Some (if closed env e then Ok (out ++ compile env e) else Err LIN_ERR_UNDEF_VAR).
Proof.
  intros Hr. revert fuel out. induction Hr as
    [n v Hn|n x Hn|n i e Hn _ IH|n i e Hn _ IH|n b i j l r Hn _ IHl _ IHr|n root idxs x args Hn];
    cbn [eheight esize]; intros fuel out Hf Hs Henv; (destruct fuel as [|fuel]; [lia|]).
  - cbn [lower_emit]. rewrite Hn. simpl. by rewrite emit_ok by lia.
  - cbn [lower_emit]. rewrite Hn. simpl. destruct (env_index env x) as [k|] eqn:E; [|done].
    rewrite emit_ok by lia. apply env_index_lt in E. unfold LIN_VM_MAX_LOCALS in *.
    rewrite i64_id by (apply in_i64_small; lia). done.
  - cbn [lower_emit]. rewrite Hn. simpl. apply IH; [lia|lia|done].
  - cbn [lower_emit]. rewrite Hn. simpl. rewrite IH by (lia || done).
    destruct (closed env e); [|done]. pose proof (compile_length env e).
    rewrite emit_ok by (rewrite length_app; lia). by rewrite app_assoc.
  - erewrite lower_bin by done. cbn [n_lhs n_rhs closed].
    pose proof (compile_length env l). pose proof (compile_length env r).
    rewrite IHl by (lia || done). destruct (closed env l); [|done].
    rewrite IHr by (rewrite ?length_app; lia || done). destruct (closed env r); [|done].
    rewrite emit_ok by (rewrite !length_app; lia). simpl. by rewrite !app_assoc.
  - cbn [lower_emit]. by rewrite Hn.
Qed.

(** An expression that is not closed has no value. *)
Lemma eval_not_closed env e v : eval_expr env e = Ok v -> closed env e = true.
Proof.
  revert v. induction e as [w|x|e IH|e IH|b l IHl r IHr|x args]; simpl; intros v H.
  - done.
  - unfold env_lookup in H. by destruct (env_index env x).
  - eauto.
  - destruct (eval_expr env e); [eauto|done].
  - destruct (eval_expr env l); [|done]. destruct (eval_expr env r); [|done].
    rewrite (IHl _ eq_refl), (IHr _ eq_refl). done.
  - done.
Qed.

Lemma eval_closed_err env e er :
  closed env e = true -> eval_expr env e = Err er -> er = LIN_ERR_DIV_ZERO.
Proof.
  revert er. induction e as [w|x|e IH|e IH|b l IHl r IHr|x args]; simpl; intros er Hc H.
  - done.
  - unfold env_lookup in H. destruct (env_index env x) as [k|] eqn:E; [|done].
    apply env_index_lt, lookup_lt_is_Some_2 in E as [w E]. by rewrite E in H.
  - eauto.
  - destruct (eval_expr env e); [done|]. injection H as ->. by apply IH.
  - apply andb_true_iff in Hc as [Hl Hr].
    destruct (eval_expr env l); [|injection H as ->; by apply IHl].
    destruct (eval_expr env r); [|injection H as ->; by apply IHr].
    destruct b; simpl in H; try done; by case_decide; simplify_eq.
  - done.
Qed.

(** ** Running the lowered code *)

(** Local [i] holds the value of binding [i]. *)
Definition locals_hold (env : list VarBinding) (ls : list Z) : Prop :=
  forall i b, env !! i = Some b -> lookupz ls (Z.of_nat i) = Some (vb_val b).

Section Run.
Context (ctx : LinVmContext) (f : VmFn) (depth : nat) (env : list VarBinding).
Context (Hlimit : step_limit ctx < two64) (Henv : env_ok env)
  (Hlen : (length env <= LIN_VM_MAX_LOCALS)%nat).

Lemma loop_step fuel fr pre ins post steps :
  code f = pre ++ ins :: post -> 0 <= steps < step_limit ctx ->
  vm_loop (S fuel) ctx f depth fr (Z.of_nat (length pre)) steps =
    match vm_step ctx ins fr with
    | VUB => Some V_ub
    | VErr e => Some (V_err e (steps + 1))
    | VOk (A_ret r) => Some (V_ok r (steps + 1))
    | VOk (A_next fr) => vm_loop fuel ctx f depth fr (Z.of_nat (S (length pre))) (steps + 1)
    | VOk (A_jump fr pc) => vm_loop fuel ctx f depth fr pc (steps + 1)
    | VOk (A_call ti args fr) =>
        match vm_exec_ctx fuel ctx ti args (depth + 1) (steps + 1) with
        | Some (V_ok r steps) =>
            if (LIN_VM_MAX_STACK <=? length (stack fr))%nat then Some V_ub
            else vm_loop fuel ctx f depth (with_stack fr (val r :: stack fr))
                   (Z.of_nat (S (length pre))) steps
        | other => other
        end
    end.
Proof.
  intros Hc Hs. cbn [vm_loop]. rewrite lookupz_nat, Hc, lookup_app_r, Nat.sub_diag by lia.
  cbn [lookup list_lookup]. rewrite u64_id by (unfold in_u64; lia).
  destruct (Z.ltb_spec (step_limit ctx) (steps + 1)); [lia|].
  replace (Z.of_nat (length pre) + 1) with (Z.of_nat (S (length pre))) by lia.
  by destruct (vm_step ctx ins fr) as [[]| |].
Qed.

(** The outcome of code that leaves one value, or divides by zero. *)
Definition runs_to (o : option vm_out) (r : res LinErr Z) (fuel : nat) (fr : VmFrame)
    (pc steps : Z) : Prop :=
  match r with
  | Ok v => o = vm_loop fuel ctx f depth (with_stack fr (v :: stack fr)) pc steps
  | Err _ => exists s, o = Some (V_err LIN_ERR_VM_DIV_ZERO s) /\ s <= steps
  end.

Lemma binop_result_sem b x y :
  in_i64 x -> in_i64 y ->
  binop_result (op_of_binop b) x y =
    match binop_sem b x y with Ok v => VOk v | Err _ => VErr LIN_ERR_VM_DIV_ZERO end.
Proof.
  intros Hx Hy. rewrite <- eval_bin_sem by done.
  destruct b; simpl; unfold b2z; rewrite ?Z.gtb_ltb, ?Z.geb_leb; try done; by case_match.
Qed.

Lemma step_binop b fr x y s :
  stack fr = y :: x :: s -> in_i64 x -> in_i64 y ->
  vm_step ctx (mkIns (op_of_binop b) 0) fr =
    match binop_sem b x y with
    | Ok v => VOk (A_next (with_stack fr (v :: s)))
    | Err _ => VErr LIN_ERR_VM_DIV_ZERO
    end.
Proof.
  intros Hs Hx Hy. assert (vm_step ctx (mkIns (op_of_binop b) 0) fr =
    exec_binop (mkIns (op_of_binop b) 0) fr) as -> by (by destruct b).
  unfold exec_binop. rewrite Hs. cbn [op]. rewrite binop_result_sem by done.
  by destruct (binop_sem b x y).
Qed.

Definition runs_compiled (e : expr) : Prop := forall pre post fr fuel steps,
  code f = pre ++ compile env e ++ post -> closed env e = true -> lits_ok e ->
  locals_hold env (locals fr) -> (length (stack fr) + esize e <= LIN_VM_MAX_STACK)%nat ->
  0 <= steps -> steps + Z.of_nat (length (compile env e)) <= step_limit ctx ->
  runs_to (vm_loop (length (compile env e) + fuel) ctx f depth fr (Z.of_nat (length pre)) steps)
    (eval_expr env e) fuel fr (Z.of_nat (length pre + length (compile env e)))
    (steps + Z.of_nat (length (compile env e))).

Local Ltac open_compiled :=
  intros pre post fr fuel steps Hc Hcl Hl Hls Hsp H0 Hst; cbn [compile closed lits_ok esize length app eval_expr] in *.

Lemma run_neg e : runs_compiled e -> runs_compiled (E_neg e).
Proof.
  intros IH. open_compiled.
  rewrite length_app in *. cbn [length] in *.
  specialize (IH pre ([mkIns OP_NEG 0] ++ post) fr (S fuel) steps).
  rewrite <- app_assoc in Hc. specialize (IH Hc Hcl Hl Hls ltac:(lia) H0 ltac:(lia)).
  replace (length (compile env e) + 1 + fuel)%nat with (length (compile env e) + S fuel)%nat by lia.
  destruct (eval_expr env e) as [v|er] eqn:Ev; [|destruct IH as (s & -> & Hs); exists s; split; [done|lia]].
  cbn [runs_to] in IH. rewrite IH.
  rewrite <- length_app, (loop_step _ _ (pre ++ compile env e) (mkIns OP_NEG 0) post);
    [|by rewrite Hc, <- app_assoc|lia].
  cbn [vm_step op pop stack with_stack]. rewrite lin_wsub_eq.
  unfold runs_to. rewrite Z.sub_0_l. rewrite length_app. unfold with_stack. simpl. f_equal; lia.
Qed.

Lemma run_bin b l r : runs_compiled l -> runs_compiled r -> runs_compiled (E_bin b l r).
Proof.
  intros IHl IHr. open_compiled.
  apply andb_true_iff in Hcl as [Hcl Hcr]. destruct Hl as [Hll Hlr].
  rewrite !length_app in *. cbn [length] in *.
  rewrite <- !app_assoc in Hc.
  replace (length (compile env l) + (length (compile env r) + 1) + fuel)%nat
    with (length (compile env l) + (length (compile env r) + S fuel))%nat by lia.
  pose proof (IHl pre _ fr (length (compile env r) + S fuel)%nat steps Hc Hcl Hll Hls
    ltac:(lia) H0 ltac:(lia)) as H1.
  destruct (eval_expr env l) as [x|er] eqn:El;
    [|destruct H1 as (s & -> & Hs); exists s; split; [done|lia]].
  cbn [runs_to] in H1. rewrite H1, <- length_app.
  assert (code f = (pre ++ compile env l) ++ compile env r ++ [mkIns (op_of_binop b) 0] ++ post)
    as Hc2 by (by rewrite Hc, <- app_assoc).
  pose proof (IHr _ _ (with_stack fr (x :: stack fr)) (S fuel)
    (steps + Z.of_nat (length (compile env l))) Hc2 Hcr Hlr Hls ltac:(simpl; lia)
    ltac:(lia) ltac:(lia)) as H2.
  destruct (eval_expr env r) as [y|er] eqn:Er;
    [|destruct H2 as (s & -> & Hs); exists s; split; [done|lia]].
  cbn [runs_to] in H2. rewrite H2, <- length_app.
  rewrite (loop_step _ _ ((pre ++ compile env l) ++ compile env r) (mkIns (op_of_binop b) 0) post);
    [|by rewrite Hc2, <- !app_assoc|lia].
  rewrite (step_binop b _ x y (stack fr)); [|done|by apply (eval_expr_range env l)|by apply (eval_expr_range env r)].
  destruct (binop_sem b x y); simpl.
  - rewrite !length_app. unfold with_stack. simpl. f_equal; lia.
  - eexists. split; [done|lia].
Qed.

Lemma run_compiled e : runs_compiled e.
Proof.
  induction e as [w|x|e IH|e IH|b l IHl r IHr|x args]; [| | |by apply run_neg|by apply run_bin|]; open_compiled.
  - cbn [Nat.add]. rewrite (loop_step _ _ _ _ _ _ Hc) by lia. unfold vm_step, push. cbn [op a].
    destruct (Nat.leb_spec LIN_VM_MAX_STACK (length (stack fr))); [lia|].
    simpl. f_equal; lia.
  - cbn [Nat.add]. rewrite (loop_step _ _ _ _ _ _ Hc) by lia. unfold vm_step, env_lookup. cbn [op a].
    destruct (env_index env x) as [k|] eqn:Ek; [|done].
    pose proof (env_index_lt _ _ _ Ek) as Hk. cbn [default].
    destruct (lookup_lt_is_Some_2 env k Hk) as [v Hv]. rewrite Hv. cbn [fmap option_fmap option_map].
    destruct (Nat.leb_spec LIN_VM_MAX_STACK (length (stack fr))); [lia|].
    unfold LIN_VM_MAX_LOCALS in *. rewrite u64_id by (unfold in_u64, two64; simpl; lia).
    simpl. rewrite (Hls _ _ Hv). simpl. f_equal; lia.
  - apply IH with (post := post); try done; lia.
  - done.
Qed.
End Run.

(** ** From the source text to the result *)

Lemma lex_at_val src p c t p' : lex_at src p c = (t, p') -> in_i64 (tok_val t).
Proof.
  assert (in_i64 0) as H0 by (by apply in_i64_small).
  unfold lex_at, single_char_op. intros H.
  destruct (is_digit c); [repeat case_match; simplify_eq; simpl; try done; apply i64_range|].
  destruct (is_ident_start c); [by simplify_eq|].
  destruct (src !! S p); [|by simplify_eq].
  destruct (two_char_op c z); by simplify_eq.
Qed.

Lemma lexes_vals src pos ts pos' :
  lexes src pos ts pos' -> Forall (fun t => in_i64 (tok_val t)) ts.
Proof.
  induction 1 as [|pos t p1 ts p2 Hn Hk _ IH]; constructor; [|done].
  unfold lin_next_token in Hn. case_match; [by eapply lex_at_val|by simplify_eq].
Qed.

Lemma derives_lits :
  (forall m d ts e, derives m d ts e -> Forall (fun t => in_i64 (tok_val t)) ts -> lits_ok e) /\
  (forall d ts e, primary d ts e -> Forall (fun t => in_i64 (tok_val t)) ts -> lits_ok e) /\
  (forall d ts es, arglist d ts es -> True).
Proof.
  apply grammar_mind; intros; simpl; try done.
  - eauto.
  - rewrite Forall_app in *. destruct_and!. split; [eauto|].
    match goal with H : Forall _ (_ :: _) |- _ => apply Forall_cons_1 in H as [_ H]; eauto end.
  - by apply Forall_cons_1 in H as [? _].
  - match goal with H : Forall _ (_ :: _) |- _ => apply Forall_cons_1 in H as [_ H]; eauto end.
  - match goal with H : Forall _ (_ :: _) |- _ => apply Forall_cons_1 in H as [_ H]; eauto end.
  - match goal with H : Forall _ (_ :: _) |- _ => apply Forall_cons_1 in H as [_ H] end.
    rewrite Forall_app in *. destruct_and!. eauto.
Qed.

Lemma eheight_esize e : (eheight e <= esize e)%nat.
Proof. induction e; simpl; lia. Qed.

(** What the parser guarantees of the tree it builds. *)
(** What the expression parser reads from the start of a text. *)
Lemma parsed_expression fuel src root p :
  parse_expression fuel (parser_init src) 0 = Some (Ok (root, p)) ->
  exists ts e, lexes src 0 ts (p_pos p) /\ derives 0 (LIN_PARSER_MAX_DEPTH + 1) ts e /\
    get_precedence (tok_kind (lin_peek_token src (p_pos p))) = O /\
    repr (p_arena p) root e /\ lits_ok e /\ (esize e <= LIN_ARENA_CAP)%nat.
Proof.
  intros E. destruct (parser_sound fuel) as (_ & _ & _ & S4 & _). destruct (parser_cap fuel) as (_ & _ & _ & C4 & _).
  assert (cap_ok p) as Hcap by (eapply C4; [|exact E]; unfold cap_ok, LIN_ARENA_CAP; simpl; lia).
  apply S4 in E as (ts & e & Hd & (L & R & X & Z) & St). exists ts, e.
  rewrite <- (ext_src _ _ X : p_src p = src), <- peek_at. unfold cap_ok in Hcap. rewrite Z in Hcap.
  split_and!; try done.
  - by rewrite (ext_src _ _ X : p_src p = src).
  - destruct St; lia.
  - eapply (proj1 derives_lits); [done|by eapply lexes_vals].
Qed.

Lemma parsed_tree fuel src root p :
  parse_full fuel (parser_init src) = Some (Ok (root, p)) ->
  exists e, repr (p_arena p) root e /\ lits_ok e /\ (esize e <= LIN_ARENA_CAP)%nat.
Proof.
  intros H. unfold parse_full in H. destruct (parse_expression _ _ _) as [[[i p1]|]|] eqn:E; try discriminate H.
  destruct (next p1) as [t p2] eqn:Ht. next_facts Ht.
  destruct (tok_kind t) eqn:Hk; try discriminate H. injection H as <- <-.
  apply parsed_expression in E as (ts & e & _ & _ & _ & R & Hl & Hs). exists e. by rewrite Ha.
Qed.

(** Lowering a tree the arena holds. *)
Lemma lower_arena_repr a root e env :
  repr a root e -> (esize e <= LIN_ARENA_CAP)%nat -> (length env <= LIN_VM_MAX_LOCALS)%nat ->
  lower_arena LIN_ARENA_CAP a root env =
    Some (if closed env e then Ok (compile env e ++ [mkIns OP_RET 0]) else Err LIN_ERR_UNDEF_VAR).
Proof.
  intros Hr Hs He. pose proof (eheight_esize e). pose proof (compile_length env e). unfold lower_arena, LIN_ARENA_CAP, LIN_LOWER_CAP in *.
  rewrite (lower_emit_compile _ _ e) by (done || (unfold LIN_LOWER_CAP; simpl; lia)).
  destruct (closed env e); [|done]. by rewrite emit_ok by (unfold LIN_LOWER_CAP; simpl; lia).
Qed.

Lemma copy_args_all args : forall idx ls,
  (idx + length args <= length ls)%nat ->
  copy_args (Z.of_nat idx) args [] ls = VOk (take idx ls ++ args ++ drop (idx + length args) ls).
Proof.
  induction args as [|v args IH]; intros idx ls Hl; cbn [copy_args length] in *.
  - by rewrite Nat.add_0_r, app_nil_l, take_drop.
  - change (0 <? default 0 (head [])) with false. cbn [tail].
    rewrite insertz_in, Nat2Z.id by lia. cbn [deref].
    replace (Z.of_nat idx + 1) with (Z.of_nat (S idx)) by lia.
    rewrite IH by (rewrite length_insert; lia). f_equal.
    rewrite drop_insert_lt by lia.
    rewrite (take_S_r _ _ v) by (apply list_lookup_insert_eq; lia).
    rewrite take_insert_ge by lia. rewrite <- app_assoc.
    by replace (S idx + length args)%nat with (idx + S (length args))%nat by lia.
Qed.

(** A function made of lowered code, as the hosts build it. *)
Record lowered_fn (f : VmFn) (c : LoweredCode) (env : list VarBinding) : Prop := {
  lf_code : code f = c;
  lf_nparams : nparams f = length env;
  lf_ok : ok f = true;
  lf_arr : arr_n f = []
}.

Lemma enter_lowered f c env :
  lowered_fn f c env -> (length env <= LIN_VM_MAX_LOCALS)%nat ->
  exists ls, enter_frame f (map vb_val env) = VOk (mkFrame ls [] []) /\ locals_hold env ls.
Proof.
  intros [_ _ _ Ha] Hlen. unfold enter_frame. rewrite Ha. cbn [alloc_arrays].
  pose proof (copy_args_all (map vb_val env) 0 (replicate LIN_VM_MAX_LOCALS 0)) as Hcp.
  change (Z.of_nat 0) with 0 in Hcp.
  rewrite Hcp by (rewrite length_map, length_replicate; lia).
  eexists. split; [done|]. intros i b Hb.
  rewrite lookupz_nat, take_0, app_nil_l, lookup_app_l.
  - by rewrite list_lookup_fmap, Hb.
  - rewrite length_map. by eapply lookup_lt_Some.
Qed.

Lemma exec_lowered m f e env :
  lookupz (fns m) 0 = Some f -> lowered_fn f (compile env e ++ [mkIns OP_RET 0]) env ->
  closed env e = true -> lits_ok e -> env_ok env ->
  (length env <= LIN_VM_MAX_LOCALS)%nat -> (esize e <= LIN_VM_MAX_STACK)%nat ->
  let n := length (compile env e ++ [mkIns OP_RET 0]) in
  match eval_expr env e with
  | Ok v => vm_exec (n + 1) m true 0 (map vb_val env) 0 0 = Some (V_ok (mkResult v 1) (Z.of_nat n))
  | Err _ => exists s, vm_exec (n + 1) m true 0 (map vb_val env) 0 0 =
      Some (V_err LIN_ERR_VM_DIV_ZERO s) /\ s <= Z.of_nat n
  end.
Proof.
  intros Hm Hf Hc Hl He Hlen Hs. simpl.
  destruct (enter_lowered _ _ _ Hf Hlen) as (ls & Henter & Hls). destruct Hf as [Fc Fp Fo Fa].
  pose proof (compile_length env e). unfold LIN_VM_MAX_STACK in *.
  set (ctx := with_frames (vm_exec_context m true)).
  assert (vm_exec (length (compile env e ++ [mkIns OP_RET 0]) + 1) m true 0 (map vb_val env) 0 0 =
    vm_loop (length (compile env e) + 1) ctx f 0 (mkFrame ls [] []) (Z.of_nat (length (@nil VmIns))) 0) as ->.
  { unfold vm_exec. rewrite length_app, Nat.add_1_r. cbn [length vm_exec_ctx]. unfold vm_enter.
    cbn [vm_exec_context c_module frames calloc_ok]. rewrite Hm, Fo, length_map, Fp, Nat.eqb_refl.
    simpl. rewrite Henter. done. }
  pose proof (run_compiled ctx f 0 env eq_refl He Hlen e [] [mkIns OP_RET 0] (mkFrame ls [] []) 1%nat 0
    Fc Hc Hl Hls) as H1. unfold LIN_VM_MAX_STACK in H1. simpl stack in H1. simpl Nat.add in H1 at 1.
  specialize (H1 ltac:(simpl; lia) ltac:(lia)).
  unfold ctx in H1 at 1. cbn [with_frames vm_exec_context step_limit] in H1.
  unfold LIN_VM_STEP_LIMIT in H1. specialize (H1 ltac:(lia)).
  destruct (eval_expr env e) as [v|er].
  - cbn [runs_to] in H1. rewrite H1.
    rewrite (loop_step ctx f 0 env eq_refl Hlen 0 _ (compile env e) (mkIns OP_RET 0) []);
      [|done|cbn; unfold LIN_VM_STEP_LIMIT; lia].
    cbn. rewrite length_app. simpl. do 2 f_equal. lia.
  - destruct H1 as (s & H1 & Hle). exists s. split; [exact H1|]. rewrite length_app. simpl. lia.
Qed.

(** C4. From source text to result, the two evaluators agree. If the parser
    accepts a text, then, for any environment of at most 64 variables:
    [lower_arena] succeeds or reports UNDEF_VAR (an unbound variable or a call),
    never running out of its buffer; and when it succeeds, the code it returns,
    run by [vm_exec] with the environment as arguments, ends within as many steps
    as it has instructions and returns the value of [ast_arena_eval] with one
    entry on the stack, or VM_DIV_ZERO exactly when that evaluator reports
    DIV_ZERO.  A tree-walk that succeeds is always lowered. *)
Theorem lower_arena_correct fuel src root p env :
  parse_full fuel (parser_init src) = Some (Ok (root, p)) ->
  env_ok env -> (length env <= LIN_VM_MAX_LOCALS)%nat ->
  exists r, ast_arena_eval LIN_ARENA_CAP (p_arena p) root env = Some r /\
  ((lower_arena LIN_ARENA_CAP (p_arena p) root env = Some (Err LIN_ERR_UNDEF_VAR) /\
    is_ok r = false) \/
   exists c, lower_arena LIN_ARENA_CAP (p_arena p) root env = Some (Ok c) /\
     forall m f, lookupz (fns m) 0 = Some f -> lowered_fn f c env ->
     match r with
     | Ok v => vm_exec (length c + 1) m true 0 (map vb_val env) 0 0 =
         Some (V_ok (mkResult v 1) (Z.of_nat (length c)))
     | Err er => er = LIN_ERR_DIV_ZERO /\ exists s,
         vm_exec (length c + 1) m true 0 (map vb_val env) 0 0 =
           Some (V_err LIN_ERR_VM_DIV_ZERO s) /\ s <= Z.of_nat (length c)
     end).
Proof.
  intros Hp He Hlen. destruct (parsed_tree _ _ _ _ Hp) as (e & Hr & Hl & Hs).
  pose proof (eheight_esize e). exists (eval_expr env e).
  split; [by apply ast_eval_repr; [..|lia]|].
  rewrite (lower_arena_repr _ _ e) by done. destruct (closed env e) eqn:Hc.
  - right. eexists. split; [done|]. intros m f Hm Hf.
    pose proof (exec_lowered m f e env Hm Hf Hc Hl He Hlen Hs) as Hx. simpl in Hx.
    destruct (eval_expr env e) as [v|er] eqn:Ev; [done|].
    split; [by eapply eval_closed_err|done].
  - left. split; [done|]. destruct (eval_expr env e) eqn:Ev; [|done].
    apply eval_not_closed in Ev. congruence.
Qed.

Lemma lower_arena_correct_witness :
  let src := cstr "x * (y - 3) / z" in
  let env := [mkBinding (cstr "x") 7; mkBinding (cstr "y") (-5); mkBinding (cstr "z") 2] in
  exists root p, parse_full 100 (parser_init src) = Some (Ok (root, p)) /\ env_ok env /\
    ast_arena_eval LIN_ARENA_CAP (p_arena p) root env = Some (Ok (-28)) /\
    exists c, lower_arena LIN_ARENA_CAP (p_arena p) root env = Some (Ok c) /\
    vm_exec (length c + 1) (mkModule [mkFn [] 3 3 c true true [] []]) true 0 (map vb_val env) 0 0 =
      Some (V_ok (mkResult (-28) 1) (Z.of_nat (length c))).
Proof.
  set (src := cstr "x * (y - 3) / z").
  set (env := [mkBinding (cstr "x") 7; mkBinding (cstr "y") (-5); mkBinding (cstr "z") 2]).
  assert (env_ok env) as He.
  { repeat constructor; unfold two63; simpl; lia. }
  destruct (parse_full 100 (parser_init src)) as [[[root p]|]|] eqn:E;
    try (exfalso; revert E; vm_compute; discriminate).
  exists root, p. split; [exact E|]. split; [exact He|].
  destruct (lower_arena_correct 100 src root p env E He) as (r & Hr & H).
  { unfold LIN_VM_MAX_LOCALS. simpl. lia. }
  assert (r = Ok (-28)) as ->.
  { vm_compute in E. injection E as <- <-. vm_compute in Hr. congruence. }
  split; [exact Hr|]. destruct H as [[_ H]|(c & Hc & H)]; [discriminate H|].
  exists c. split; [exact Hc|].
  apply (H (mkModule [mkFn [] 3 3 c true true [] []]) (mkFn [] 3 3 c true true [] [])); [reflexivity|].
  by constructor.
Defined.
