(* ===== verification/Sha256.v ===== *)
(** * lin_sha256.h, lin_sha256.c: SHA-256

    Words are [Z] in [0, 2^32).  The context keeps the live prefix of [buf], so
    [buf_len] is its length.  The class [StreamHash] is what the clients use: an
    incremental hash whose result depends on the concatenation of its input
    only.  [LinSha256] is its instance. *)
From stdpp Require Import strings.
From S2P Require Import Prelude Common.

Definition K : list Z := Eval cbv in
   ([0x428a2f98; 0x71374491; 0xb5c0fbcf; 0xe9b5dba5; 0x3956c25b; 0x59f111f1] ++
    [0x923f82a4; 0xab1c5ed5; 0xd807aa98; 0x12835b01; 0x243185be; 0x550c7dc3] ++
    [0x72be5d74; 0x80deb1fe; 0x9bdc06a7; 0xc19bf174; 0xe49b69c1; 0xefbe4786] ++
    [0x0fc19dc6; 0x240ca1cc; 0x2de92c6f; 0x4a7484aa; 0x5cb0a9dc; 0x76f988da] ++
    [0x983e5152; 0xa831c66d; 0xb00327c8; 0xbf597fc7; 0xc6e00bf3; 0xd5a79147] ++
    [0x06ca6351; 0x14292967; 0x27b70a85; 0x2e1b2138; 0x4d2c6dfc; 0x53380d13] ++
    [0x650a7354; 0x766a0abb; 0x81c2c92e; 0x92722c85; 0xa2bfe8a1; 0xa81a664b] ++
    [0xc24b8b70; 0xc76c51a3; 0xd192e819; 0xd6990624; 0xf40e3585; 0x106aa070] ++
    [0x19a4c116; 0x1e376c08; 0x2748774c; 0x34b0bcb5; 0x391c0cb3; 0x4ed8aa4a] ++
    [0x5b9cca4f; 0x682e6ff3; 0x748f82ee; 0x78a5636f; 0x84c87814; 0x8cc70208] ++
    [0x90befffa; 0xa4506ceb; 0xbef9a3f7; 0xc67178f2]).

Definition ROR (x n : Z) : Z := Z.lor (Z.shiftr x n) (u32 (Z.shiftl x (32 - n))).

(** ** The compression function *)

(** [w[0..16)]: big-endian words of the block. *)
Fixpoint block_words (block : list Z) : list Z :=
  match block with
  | b0 :: b1 :: b2 :: b3 :: rest =>
      Z.lor (Z.lor (Z.lor (Z.shiftl b0 24) (Z.shiftl b1 16)) (Z.shiftl b2 8)) b3
      :: block_words rest
  | _ => []
  end.

(** [w[i]] from the words before it, [n] times. *)
Fixpoint schedule (n : nat) (w : list Z) : list Z :=
  match n with
  | O => w
  | S n =>
      let i := length w in
      let w15 := nth (i - 15) w 0 in
      let w2 := nth (i - 2) w 0 in
      let s0 := Z.lxor (Z.lxor (ROR w15 7) (ROR w15 18)) (Z.shiftr w15 3) in
      let s1 := Z.lxor (Z.lxor (ROR w2 17) (ROR w2 19)) (Z.shiftr w2 10) in
      schedule n (w ++ [u32 (u32 (u32 (nth (i - 16) w 0 + s0) + nth (i - 7) w 0) + s1)])
  end.

Record Work : Type := mkWork {
  wa : Z; wb : Z; wc : Z; wd : Z; we : Z; wf : Z; wg : Z; wh : Z }.

Definition round (v : Work) (k w : Z) : Work :=
  let S1 := Z.lxor (Z.lxor (ROR (we v) 6) (ROR (we v) 11)) (ROR (we v) 25) in
  let ch := Z.lxor (Z.land (we v) (wf v)) (Z.land (u32 (Z.lnot (we v))) (wg v)) in
  let t1 := u32 (u32 (u32 (u32 (wh v + S1) + ch) + k) + w) in
  let S0 := Z.lxor (Z.lxor (ROR (wa v) 2) (ROR (wa v) 13)) (ROR (wa v) 22) in
  let maj := Z.lxor (Z.lxor (Z.land (wa v) (wb v)) (Z.land (wa v) (wc v))) (Z.land (wb v) (wc v)) in
  let t2 := u32 (S0 + maj) in
  mkWork (u32 (t1 + t2)) (wa v) (wb v) (wc v) (u32 (wd v + t1)) (we v) (wf v) (wg v).

Fixpoint rounds (v : Work) (ks ws : list Z) : Work :=
  match ks, ws with
  | k :: ks, w :: ws => rounds (round v k w) ks ws
  | _, _ => v
  end.

Definition lin_sha256_transform (s : Work) (block : list Z) : Work :=
  let w := schedule 48 (block_words block) in
  let v := rounds s K w in
  mkWork (u32 (wa s + wa v)) (u32 (wb s + wb v)) (u32 (wc s + wc v)) (u32 (wd s + wd v))
         (u32 (we s + we v)) (u32 (wf s + wf v)) (u32 (wg s + wg v)) (u32 (wh s + wh v)).

(** ** The incremental interface *)

Record LinSha256 : Type := mkSha { state : Work; bitlen : Z; buf : list Z }.

Definition IV : Work :=
  mkWork 0x6a09e667 0xbb67ae85 0x3c6ef372 0xa54ff53a 0x510e527f 0x9b05688c 0x1f83d9ab 0x5be0cd19.

Definition lin_sha256_init : LinSha256 := mkSha IV 0 [].

(** The [while (len > 0)] of [update]; each turn consumes at least a byte, so
    the length of the data is fuel enough ([update_loop_spec]). *)
Fixpoint update_loop (fuel : nat) (s : Work) (b : list Z) (data : list Z) : Work * list Z :=
  match fuel with
  | O => (s, b)
  | S fuel =>
      if (length data =? 0)%nat then (s, b)
      else
        let n := if (64 - length b <? length data)%nat then (64 - length b)%nat else length data in
        let b := b ++ take n data in
        if (length b =? 64)%nat then update_loop fuel (lin_sha256_transform s b) [] (drop n data)
        else update_loop fuel s b (drop n data)
  end.

Definition lin_sha256_update (ctx : LinSha256) (data : list Z) : LinSha256 :=
  let '(s, b) := update_loop (length data) (state ctx) (buf ctx) data in
  mkSha s (u64 (bitlen ctx + u64 (Z.of_nat (length data) * 8))) b.

(** Fill with zeroes up to [n] bytes. *)
Definition zero_fill (n : nat) (b : list Z) : list Z := b ++ replicate (n - length b) 0.

(** [bitlen >> (56 - 8 * i)], i = 0..7 *)
Definition be64 (z : Z) : list Z :=
  map (fun i => u8 (Z.shiftr z (56 - 8 * i))) [0; 1; 2; 3; 4; 5; 6; 7].

Definition be32 (z : Z) : list Z :=
  [u8 (Z.shiftr z 24); u8 (Z.shiftr z 16); u8 (Z.shiftr z 8); u8 z].

Definition state_bytes (s : Work) : list Z :=
  be32 (wa s) ++ be32 (wb s) ++ be32 (wc s) ++ be32 (wd s) ++
  be32 (we s) ++ be32 (wf s) ++ be32 (wg s) ++ be32 (wh s).

Definition lin_sha256_final (ctx : LinSha256) : list Z :=
  let b := buf ctx ++ [0x80] in
  let '(s, b) :=
    if (56 <? length b)%nat then (lin_sha256_transform (state ctx) (zero_fill 64 b), [])
    else (state ctx, b) in
  state_bytes (lin_sha256_transform s (zero_fill 56 b ++ be64 (bitlen ctx))).

Definition lin_sha256 (data : list Z) : list Z :=
  lin_sha256_final (lin_sha256_update lin_sha256_init data).

Definition hexd (n : Z) : Z := nth (Z.to_nat n) (cstr "0123456789abcdef") 0.

Definition lin_sha256_hex (digest : list Z) : list Z :=
  concat (map (fun d => [hexd (Z.shiftr d 4); hexd (Z.land d 15)]) digest).

(** The FIPS 180-4 examples, and the empty message. *)
Example sha256_abc :
  lin_sha256_hex (lin_sha256 (cstr "abc")) =
  cstr "ba7816bf8f01cfea414140de5dae2223b00361a396177a9cb410ff61f20015ad".
Proof. vm_compute. reflexivity. Qed.

Example sha256_two_blocks :
  lin_sha256_hex (lin_sha256 (cstr "abcdbcdecdefdefgefghfghighijhijkijkljklmklmnlmnomnopnopq")) =
  cstr "248d6a61d20638b8e5c026930c3e6039a33ce45964ff2167f6ecedd419db06c1".
Proof. vm_compute. reflexivity. Qed.

Example sha256_empty :
  lin_sha256_hex (lin_sha256 []) =
  cstr "e3b0c44298fc1c149afbf4c8996fb92427ae41e4649b934ca495991b7852b855".
Proof. vm_compute. reflexivity. Qed.

(** ** The hash as a function of the message (FIPS 180-4, 5.1.1 and 6.2) *)

Fixpoint compress (n : nat) (s : Work) (l : list Z) : Work :=
  match n with
  | O => s
  | S n => compress n (lin_sha256_transform s (take 64 l)) (drop 64 l)
  end.

(** The message, a one bit, the least number of zero bits, its length in bits. *)
Definition pad (m : list Z) : list Z :=
  m ++ [0x80] ++ replicate (Z.to_nat ((55 - Z.of_nat (length m)) mod 64)) 0 ++
  be64 (u64 (8 * Z.of_nat (length m))).

Definition sha256_spec (m : list Z) : list Z :=
  state_bytes (compress (length (pad m) / 64) IV (pad m)).

(** ** The interface of the clients *)

Class StreamHash (C : Type) : Type := {
  sh_init : C;
  sh_update : C -> list Z -> C;
  sh_final : C -> list Z
}.

Definition sh_parts {C} `{StreamHash C} (parts : list (list Z)) : list Z :=
  sh_final (fold_left sh_update parts sh_init).

Class StreamHashLaws (C : Type) `{StreamHash C} (digest : list Z -> list Z) : Prop := {
  sh_concat parts : sh_parts parts = digest (concat parts);
  sh_length m : length (digest m) = 32%nat;
  sh_bytes m : bytes_wf (digest m)
}.

(** Two messages with one digest: what a client's binding theorem ends in when
    its inputs differ. *)
Definition collision (digest : list Z -> list Z) : Prop :=
  exists m1 m2, m1 <> m2 /\ digest m1 = digest m2.

Lemma digest_inj digest m1 m2 : digest m1 = digest m2 -> m1 = m2 \/ collision digest.
Proof. intros E. destruct (decide (m1 = m2)); [by left|right]. by exists m1, m2. Qed.

#[export] Instance LinSha256_hash : StreamHash LinSha256 := {
  sh_init := lin_sha256_init;
  sh_update := lin_sha256_update;
  sh_final := lin_sha256_final
}.

(** ** The incremental interface computes the specification *)

(** All the full blocks of [l], and what is left. *)
Definition absorb (s : Work) (l : list Z) : Work * list Z :=
  (compress (length l / 64) s l, drop (64 * (length l / 64)) l).

Lemma absorb_short s l : (length l < 64)%nat -> absorb s l = (s, l).
Proof. intros H. unfold absorb. by rewrite Nat.div_small. Qed.

Lemma absorb_step s l :
  (64 <= length l)%nat ->
  absorb s l = absorb (lin_sha256_transform s (take 64 l)) (drop 64 l).
Proof.
  intros H. unfold absorb. rewrite length_drop.
  replace (length l) with ((length l - 64) + 1 * 64)%nat at 1 2 by lia.
  rewrite Nat.div_add by lia. set (k := ((length l - 64) / 64)%nat).
  replace (k + 1)%nat with (S k) by lia. cbn [compress]. f_equal.
  rewrite drop_drop. f_equal. lia.
Qed.

Lemma absorb_app l1 : forall s l2,
  absorb s (l1 ++ l2) = let '(s1, r) := absorb s l1 in absorb s1 (r ++ l2).
Proof.
  induction l1 as [l1 IH] using (induction_ltof1 _ (@length Z)). intros s l2.
  destruct (Nat.lt_ge_cases (length l1) 64) as [Hs|Hl].
  - by rewrite (absorb_short s l1).
  - rewrite (absorb_step s l1), absorb_step by (rewrite ?length_app; lia).
    rewrite take_app_le, drop_app_le by lia. apply IH.
    unfold ltof. rewrite length_drop. lia.
Qed.

Lemma absorb_rest s l s1 r : absorb s l = (s1, r) -> length r = (length l mod 64)%nat.
Proof.
  intros H. apply (f_equal snd) in H. cbn [absorb snd] in H. unfold absorb in H. cbn [snd] in H. subst r.
  rewrite length_drop. pose proof (Nat.div_mod_eq (length l) 64). lia.
Qed.

Lemma update_loop_spec fuel : forall s b data,
  (length b < 64)%nat -> (length data <= fuel)%nat ->
  update_loop fuel s b data = absorb s (b ++ data).
Proof.
  induction fuel as [|fuel IH]; intros s b data Hb Hd; cbn [update_loop].
  - destruct data; [|simpl in Hd; lia]. by rewrite app_nil_r, absorb_short.
  - destruct (Nat.eqb_spec (length data) 0) as [E|E].
    { destruct data; [|done]. by rewrite app_nil_r, absorb_short. }
    destruct (Nat.ltb_spec (64 - length b) (length data)) as [Hlt|Hge].
    + destruct (Nat.eqb_spec (length (b ++ take (64 - length b) data)) 64) as [E2|E2].
      2:{ rewrite length_app, length_take in E2. lia. }
      rewrite IH by (rewrite ?length_drop; cbn [length]; lia).
      rewrite (absorb_step s (b ++ data)) by (rewrite length_app; lia).
      rewrite (take_app_ge b), (drop_app_ge b) by lia. by rewrite app_nil_l.
    + rewrite firstn_all, drop_all.
      destruct (Nat.eqb_spec (length (b ++ data)) 64) as [E2|E2].
      * rewrite IH by (cbn [length]; lia). rewrite (absorb_step s (b ++ data)) by lia.
        rewrite <- E2, firstn_all, drop_all. done.
      * rewrite IH by (rewrite ?length_app in *; cbn [length]; lia). by rewrite app_nil_r.
Qed.

(** What the context is after the bytes [m]. *)
Definition ctx_of (m : list Z) (c : LinSha256) : Prop :=
  absorb IV m = (state c, buf c) /\ bitlen c = u64 (8 * Z.of_nat (length m)).

Lemma ctx_init : ctx_of [] lin_sha256_init.
Proof. by split. Qed.

Lemma ctx_update m c data : ctx_of m c -> ctx_of (m ++ data) (lin_sha256_update c data).
Proof.
  intros [Ha Hb]. unfold lin_sha256_update.
  pose proof (absorb_rest _ _ _ _ Ha) as Hr.
  pose proof (Nat.mod_upper_bound (length m) 64).
  rewrite update_loop_spec by lia.
  destruct (absorb (state c) (buf c ++ data)) as [s b] eqn:E. split; simpl.
  - by rewrite absorb_app, Ha.
  - rewrite Hb, length_app, Nat2Z.inj_add. unfold u64.
    rewrite <- Z.add_mod by (unfold two64; lia). f_equal. lia.
Qed.

Lemma length_be64 z : length (be64 z) = 8%nat.
Proof. done. Qed.

(** The padding, from the bytes pending in the buffer. *)
Definition pad_tail (n : nat) (bits : Z) : list Z :=
  [0x80] ++ replicate (Z.to_nat ((55 - Z.of_nat n) mod 64)) 0 ++ be64 bits.

Lemma final_absorb s b bits :
  (length b < 64)%nat ->
  lin_sha256_final (mkSha s bits b) = state_bytes (fst (absorb s (b ++ pad_tail (length b) bits))) /\
  snd (absorb s (b ++ pad_tail (length b) bits)) = [].
Proof.
  intros Hb. unfold lin_sha256_final, pad_tail. cbn [buf state bitlen].
  rewrite length_app. cbn [length].
  destruct (Nat.ltb_spec 56 (length b + 1)) as [Hlt|Hge].
  - replace ((55 - Z.of_nat (length b)) mod 64) with (119 - Z.of_nat (length b)) by
      (Z.div_mod_to_equations; lia).
    replace (Z.to_nat (119 - Z.of_nat (length b))) with ((63 - length b) + 56)%nat by lia.
    rewrite replicate_add, <- app_assoc.
    set (z1 := replicate (63 - length b) 0). set (z2 := replicate 56 0).
    assert (zero_fill 64 (b ++ [0x80]) = b ++ [0x80] ++ z1) as ->.
    { unfold zero_fill. rewrite <- app_assoc, length_app. do 2 f_equal. simpl. unfold z1. f_equal. lia. }
    assert (zero_fill 56 [] = z2) as -> by done.
    assert (length (b ++ [0x80] ++ z1) = 64%nat) as L1.
    { rewrite !length_app. unfold z1. rewrite length_replicate. simpl. lia. }
    replace (b ++ [0x80] ++ z1 ++ z2 ++ be64 bits) with ((b ++ [0x80] ++ z1) ++ z2 ++ be64 bits)
      by (by rewrite <- !app_assoc).
    rewrite absorb_step by (rewrite length_app; lia).
    rewrite take_app_le, firstn_all2, drop_app_le, drop_ge, app_nil_l by lia.
    rewrite absorb_step by (rewrite length_app; unfold z2; rewrite length_replicate, length_be64; lia).
    rewrite firstn_all2, drop_ge by (rewrite length_app; unfold z2; rewrite length_replicate, length_be64; lia).
    done.
  - replace ((55 - Z.of_nat (length b)) mod 64) with (55 - Z.of_nat (length b)) by
      (Z.div_mod_to_equations; lia).
    replace (Z.to_nat (55 - Z.of_nat (length b))) with (55 - length b)%nat by lia.
    assert (zero_fill 56 (b ++ [0x80]) ++ be64 bits = b ++ [0x80] ++ replicate (55 - length b) 0 ++ be64 bits) as ->.
    { unfold zero_fill. rewrite <- !app_assoc, length_app. do 3 f_equal. simpl. f_equal. lia. }
    assert (length (b ++ [0x80] ++ replicate (55 - length b) 0 ++ be64 bits) = 64%nat) as L1.
    { rewrite !length_app, length_replicate, length_be64. simpl. lia. }
    rewrite absorb_step, firstn_all2, drop_ge by lia. done.
Qed.

Lemma final_spec m c : ctx_of m c -> lin_sha256_final c = sha256_spec m.
Proof.
  intros [Ha Hb]. destruct c as [s bits b]. simpl in *.
  pose proof (absorb_rest _ _ _ _ Ha) as Hr.
  pose proof (Nat.mod_upper_bound (length m) 64).
  destruct (final_absorb s b bits) as [-> _]; [lia|]. unfold sha256_spec.
  assert (pad m = m ++ pad_tail (length b) bits) as ->.
  { unfold pad, pad_tail. rewrite Hb, Hr. do 3 f_equal. f_equal.
    rewrite Nat2Z.inj_mod. change (Z.of_nat 64) with 64.
    rewrite Zminus_mod_idemp_r. done. }
  change (compress (length (m ++ pad_tail (length b) bits) / 64) IV (m ++ pad_tail (length b) bits))
    with (fst (absorb IV (m ++ pad_tail (length b) bits))).
  by rewrite (absorb_app m), Ha.
Qed.

Lemma length_state_bytes s : length (state_bytes s) = 32%nat.
Proof. done. Qed.

Lemma state_bytes_wf s : bytes_wf (state_bytes s).
Proof.
  unfold state_bytes, be32, bytes_wf.
  repeat (apply Forall_app; split); repeat constructor; apply u8_range.
Qed.

Lemma fold_update parts : forall m c,
  ctx_of m c -> ctx_of (m ++ concat parts) (fold_left lin_sha256_update parts c).
Proof.
  induction parts as [|d parts IH]; intros m c Hc; simpl; [by rewrite app_nil_r|].
  rewrite app_assoc. by apply IH, ctx_update.
Qed.

#[export] Instance LinSha256_laws : StreamHashLaws LinSha256 sha256_spec.
Proof.
  split.
  - intros parts. apply final_spec. by apply (fold_update parts [] lin_sha256_init), ctx_init.
  - intros. apply length_state_bytes.
  - intros. apply state_bytes_wf.
Qed.

(** C33. The incremental SHA-256 is the SHA-256 of FIPS 180-4: however the
    message is cut into calls of [lin_sha256_update] (empty ones included), the
    digest is the compression of the padded message (one bit, least zero
    padding to a multiple of 64 bytes, bit length on 64 bits), 32 bytes long. *)
Theorem lin_sha256_incremental parts :
  lin_sha256_final (fold_left lin_sha256_update parts lin_sha256_init) =
    sha256_spec (concat parts) /\
  lin_sha256 (concat parts) = sha256_spec (concat parts) /\
  (length (pad (concat parts)) mod 64 = 0)%nat /\
  length (lin_sha256 (concat parts)) = 32%nat /\ bytes_wf (lin_sha256 (concat parts)).
Proof.
  assert (forall m, lin_sha256 m = sha256_spec m) as H1.
  { intros m. pose proof (sh_concat (C := LinSha256) (digest := sha256_spec) [m]) as H.
    cbn [concat] in H. by rewrite app_nil_r in H. }
  split; [exact (sh_concat (C := LinSha256) (digest := sha256_spec) parts)|]. rewrite !H1. split; [done|].
  split; [|split; [apply length_state_bytes|apply state_bytes_wf]].
  generalize (concat parts) as m. intros m. unfold pad.
  rewrite !length_app, length_replicate, length_be64. cbn [length].
  apply Nat2Z.inj. rewrite Nat2Z.inj_mod, !Nat2Z.inj_add, Z2Nat.id by (apply Z.mod_pos_bound; lia).
  Z.div_mod_to_equations. lia.
Qed.

(** ** The hexadecimal form *)

Definition unhex (c : Z) : Z := if c <? 58 then c - 48 else c - 87.

Fixpoint unhex_bytes (l : list Z) : list Z :=
  match l with
  | h :: l :: rest => unhex h * 16 + unhex l :: unhex_bytes rest
  | _ => []
  end.

Lemma unhex_hexd n : 0 <= n < 16 -> unhex (hexd n) = n.
Proof.
  intros Hn. rewrite <- (Z2Nat.id n) by lia.
  assert (Z.to_nat n < 16)%nat as Hk by lia. revert Hk. generalize (Z.to_nat n) as k. clear.
  intros k Hk. do 16 (destruct k as [|k]; [reflexivity|]). lia.
Qed.

(** The hexadecimal form is two characters a byte and loses nothing. *)
Lemma lin_sha256_hex_inv d :
  bytes_wf d ->
  length (lin_sha256_hex d) = (2 * length d)%nat /\ unhex_bytes (lin_sha256_hex d) = d.
Proof.
  induction 1 as [|b d Hb _ [IH1 IH2]]; [done|]. unfold in_u8, two8 in Hb.
  assert (lin_sha256_hex (b :: d) = hexd (Z.shiftr b 4) :: hexd (Z.land b 15) :: lin_sha256_hex d)
    as -> by done.
  cbn [length unhex_bytes]. rewrite IH1, IH2.
  change 15 with (Z.ones 4). rewrite Z.land_ones, Z.shiftr_div_pow2 by lia. change (2 ^ 4) with 16.
  rewrite !unhex_hexd by (Z.div_mod_to_equations; lia). split; [lia|].
  f_equal. Z.div_mod_to_equations. lia.
Qed.
