(* ===== verification/Fips.v ===== *)
(** * The compression function of lin_sha256.c against FIPS 180-4

    An independent statement of the standard: the constants as the fractional
    parts of roots of primes (4.2.2, 5.3.3), rotations and sums on integers
    modulo 2^32, the message schedule as a recurrence (6.2.2), and the proof that
    [lin_sha256_transform] computes it. *)
From S2P Require Import Prelude Sha256.

(** ** The standard *)

Definition primes64 : list Z :=
  [2; 3; 5; 7; 11; 13; 17; 19; 23; 29; 31; 37; 41; 43; 47; 53; 59; 61; 67; 71; 73; 79; 83; 89; 97;
   101; 103; 107; 109; 113; 127; 131; 137; 139; 149; 151; 157; 163; 167; 173; 179; 181; 191; 193;
   197; 199; 211; 223; 227; 229; 233; 239; 241; 251; 257; 263; 269; 271; 277; 281; 283; 293; 307; 311].

(** [k] is the first 32 bits of the fractional part of the [n]-th root of [p]. *)
Definition root_fraction (n p k : Z) : Prop :=
  exists i, 0 <= i /\ 0 <= k < two32 /\
    (i * two32 + k) ^ n <= p * two32 ^ n < (i * two32 + k + 1) ^ n.

Definition rotr (n x : Z) : Z := x / 2 ^ n + (x mod 2 ^ n) * 2 ^ (32 - n).
Definition shr (n x : Z) : Z := x / 2 ^ n.
Definition Ch (x y z : Z) : Z := Z.lor (Z.land x y) (Z.ldiff z x).
Definition Maj (x y z : Z) : Z := Z.lor (Z.lor (Z.land x y) (Z.land x z)) (Z.land y z).
Definition xor3 (x y z : Z) : Z := Z.lxor x (Z.lxor y z).
Definition Sigma0 x := xor3 (rotr 2 x) (rotr 13 x) (rotr 22 x).
Definition Sigma1 x := xor3 (rotr 6 x) (rotr 11 x) (rotr 25 x).
Definition sigma0 x := xor3 (rotr 7 x) (rotr 18 x) (shr 3 x).
Definition sigma1 x := xor3 (rotr 17 x) (rotr 19 x) (shr 10 x).

(** Word [t] of a message block. *)
Definition word (block : list Z) (t : nat) : Z :=
  let b i := nth (4 * t + i)%nat block 0 in
  b 0%nat * 2 ^ 24 + b 1%nat * 2 ^ 16 + b 2%nat * 2 ^ 8 + b 3%nat.

Record is_schedule (block W : list Z) : Prop := {
  sched_length : length W = 64%nat;
  sched_message t : (t < 16)%nat -> nth t W 0 = word block t;
  sched_next t : (16 <= t < 64)%nat ->
    nth t W 0 = (sigma1 (nth (t - 2) W 0) + nth (t - 7) W 0 + sigma0 (nth (t - 15) W 0) +
                 nth (t - 16) W 0) mod two32
}.

(** Step 3 of the computation, on the working variables a to h. *)
Definition fips_round (v : Work) (K_t W_t : Z) : Work :=
  let T1 := (wh v + Sigma1 (we v) + Ch (we v) (wf v) (wg v) + K_t + W_t) mod two32 in
  let T2 := (Sigma0 (wa v) + Maj (wa v) (wb v) (wc v)) mod two32 in
  mkWork ((T1 + T2) mod two32) (wa v) (wb v) (wc v) ((wd v + T1) mod two32) (we v) (wf v) (wg v).

Definition fips_rounds (v : Work) (W : list Z) : Work :=
  fold_left (fun v t => fips_round v (nth t K 0) (nth t W 0)) (seq 0 64) v.

(** Step 4: the next hash value. *)
Definition fips_add (s v : Work) : Work :=
  mkWork ((wa v + wa s) mod two32) ((wb v + wb s) mod two32) ((wc v + wc s) mod two32)
    ((wd v + wd s) mod two32) ((we v + we s) mod two32) ((wf v + wf s) mod two32)
    ((wg v + wg s) mod two32) ((wh v + wh s) mod two32).

Definition work_ok (v : Work) : Prop :=
  in_u32 (wa v) /\ in_u32 (wb v) /\ in_u32 (wc v) /\ in_u32 (wd v) /\
  in_u32 (we v) /\ in_u32 (wf v) /\ in_u32 (wg v) /\ in_u32 (wh v).

(** ** The operations agree *)

Lemma ROR_rotr x n : in_u32 x -> 0 < n < 32 -> ROR x n = rotr n x.
Proof.
  intros Hx Hn. unfold ROR, rotr, u32, in_u32, two32 in *.
  rewrite Z.shiftr_div_pow2, Z.shiftl_mul_pow2 by lia.
  assert (4294967296 = 2 ^ n * 2 ^ (32 - n)) as E by (rewrite <- Z.pow_add_r by lia; by replace (n + (32 - n)) with 32 by lia).
  assert (0 < 2 ^ n) by (apply Z.pow_pos_nonneg; lia).
  assert (0 < 2 ^ (32 - n)) by (apply Z.pow_pos_nonneg; lia).
  rewrite E, Z.mul_mod_distr_r by lia.
  assert (0 <= x / 2 ^ n < 2 ^ (32 - n)) as Hq.
  { split; [apply Z.div_pos; lia|]. apply Z.div_lt_upper_bound; lia. }
  rewrite <- Z.shiftl_mul_pow2 at 1 by lia.
  rewrite lor_shiftl_add; [done|lia|done|]. apply Z.mod_pos_bound. lia.
Qed.

Lemma bits_u32 x i : in_u32 x -> 32 <= i -> Z.testbit x i = false.
Proof.
  unfold in_u32, two32. intros Hx Hi. destruct (Z.eq_dec x 0) as [->|]; [apply Z.bits_0|].
  apply Z.bits_above_log2; [lia|]. apply Z.log2_lt_pow2; [lia|].
  apply Z.lt_le_trans with (2 ^ 32); [lia|]. apply Z.pow_le_mono_r; lia.
Qed.

Lemma ch_eq x y z : in_u32 z ->
  Z.lxor (Z.land x y) (Z.land (u32 (Z.lnot x)) z) = Ch x y z.
Proof.
  intros Hz. apply Z.bits_inj'. intros i Hi. unfold Ch, u32, two32.
  change 4294967296 with (2 ^ 32).
  rewrite Z.lxor_spec, Z.lor_spec, Z.ldiff_spec, !Z.land_spec.
  destruct (Z.lt_ge_cases i 32).
  - rewrite Z.mod_pow2_bits_low, Z.lnot_spec by lia.
    by destruct (Z.testbit x i), (Z.testbit y i), (Z.testbit z i).
  - rewrite (bits_u32 z), andb_false_r by done. by destruct (Z.testbit x i), (Z.testbit y i).
Qed.

Lemma maj_eq x y z :
  Z.lxor (Z.lxor (Z.land x y) (Z.land x z)) (Z.land y z) = Maj x y z.
Proof.
  apply Z.bits_inj'. intros i Hi. unfold Maj.
  rewrite !Z.lxor_spec, !Z.lor_spec, !Z.land_spec.
  by destruct (Z.testbit x i), (Z.testbit y i), (Z.testbit z i).
Qed.

Lemma u32_sum4 a b c d : u32 (u32 (u32 (a + b) + c) + d) = (a + b + c + d) mod two32.
Proof. int_lia. Qed.

Lemma round_fips v k w : work_ok v -> round v k w = fips_round v k w.
Proof.
  intros (Ha & Hb & Hc & Hd & He & Hf & Hg & Hh). unfold round, fips_round.
  rewrite ch_eq, maj_eq, !ROR_rotr by (done || lia).
  fold (xor3 (rotr 6 (we v)) (rotr 11 (we v)) (rotr 25 (we v))).
  rewrite !Z.lxor_assoc. fold (xor3 (rotr 6 (we v)) (rotr 11 (we v)) (rotr 25 (we v))).
  fold (xor3 (rotr 2 (wa v)) (rotr 13 (wa v)) (rotr 22 (wa v))).
  fold (Sigma1 (we v)) (Sigma0 (wa v)). f_equal; int_lia.
Qed.

Lemma u32_ok z : in_u32 (z mod two32).
Proof. unfold in_u32. apply Z.mod_pos_bound. unfold two32. lia. Qed.

Lemma fips_round_ok v k w : work_ok v -> work_ok (fips_round v k w).
Proof.
  intros (Ha & Hb & Hc & Hd & He & Hf & Hg & Hh). unfold work_ok, fips_round. cbn.
  do 7 (split; [done || apply u32_ok|]). done.
Qed.

(** ** The schedule *)

Definition next_word (W : list Z) (t : nat) : Z :=
  (sigma1 (nth (t - 2) W 0) + nth (t - 7) W 0 + sigma0 (nth (t - 15) W 0) + nth (t - 16) W 0) mod two32.

(** A schedule under construction. *)
Definition partial (block W : list Z) : Prop :=
  Forall in_u32 W /\ (16 <= length W)%nat /\
  (forall t, (t < 16)%nat -> nth t W 0 = word block t) /\
  (forall t, (16 <= t < length W)%nat -> nth t W 0 = next_word W t).

Lemma nth_u32 W t : Forall in_u32 W -> in_u32 (nth t W 0).
Proof.
  intros HW. destruct (nth_in_or_default t W 0) as [Hin| ->].
  - apply (Forall_elem _ _ _ HW). by apply list_elem_of_In.
  - unfold in_u32, two32. lia.
Qed.

Lemma next_word_app W k t : (16 <= t <= length W)%nat -> next_word (W ++ k) t = next_word W t.
Proof. intros Ht. unfold next_word. by rewrite !app_nth1 by lia. Qed.

Lemma schedule_step n W :
  Forall in_u32 W -> schedule (S n) W = schedule n (W ++ [next_word W (length W)]).
Proof.
  intros HW. cbn [schedule]. do 3 f_equal.
  rewrite !ROR_rotr by (lia || by apply nth_u32).
  rewrite !Z.lxor_assoc, !Z.shiftr_div_pow2 by lia. unfold next_word, sigma0, sigma1, xor3, shr.
  set (x := Z.lxor _ _). set (y := Z.lxor (rotr 17 _) _).
  generalize (nth (length W - 16) W 0) (nth (length W - 7) W 0) x y. clear. intros. int_lia.
Qed.

Lemma partial_step block W :
  partial block W -> partial block (W ++ [next_word W (length W)]).
Proof.
  intros (H1 & H2 & H3 & H4). split_and!.
  - apply Forall_app_2; [done|]. apply Forall_cons_2; [apply u32_ok|constructor].
  - rewrite length_app. lia.
  - intros t Ht. rewrite app_nth1 by lia. by apply H3.
  - intros t [Ht1 Ht2]. rewrite length_app in Ht2. simpl in Ht2.
    rewrite next_word_app by lia. destruct (decide (t = length W)) as [->|].
    + by rewrite app_nth2, Nat.sub_diag by lia.
    + rewrite app_nth1 by lia. apply H4. lia.
Qed.

Lemma schedule_partial n : forall block W,
  partial block W -> partial block (schedule n W) /\ length (schedule n W) = (length W + n)%nat.
Proof.
  induction n as [|n IH]; intros block W HW; [split; [done|simpl; lia]|].
  rewrite schedule_step by apply HW. destruct (IH block _ (partial_step block W HW)) as [HP HL].
  split; [done|]. rewrite HL, length_app. simpl. lia.
Qed.

(** The words of a block. *)
Lemma be_word b0 b1 b2 b3 :
  in_u8 b0 -> in_u8 b1 -> in_u8 b2 -> in_u8 b3 ->
  Z.lor (Z.lor (Z.lor (Z.shiftl b0 24) (Z.shiftl b1 16)) (Z.shiftl b2 8)) b3 =
    b0 * 2 ^ 24 + b1 * 2 ^ 16 + b2 * 2 ^ 8 + b3.
Proof.
  unfold in_u8, two8. intros H0 H1 H2 H3.
  rewrite (Z.lor_comm (Z.shiftl b0 24)), (Z.lor_comm _ (Z.shiftl b2 8)), (Z.lor_comm _ b3).
  assert (Z.shiftl b1 16 = b1 * 2 ^ 16) as E1 by (apply Z.shiftl_mul_pow2; lia).
  assert (Z.shiftl b2 8 = b2 * 2 ^ 8) as E2 by (apply Z.shiftl_mul_pow2; lia).
  assert (Z.lor (Z.shiftl b1 16) (Z.shiftl b0 24) = Z.shiftl (b1 + b0 * 2 ^ 8) 16) as ->.
  { rewrite E1, lor_shiftl_add by lia. rewrite Z.shiftl_mul_pow2 by lia. lia. }
  assert (Z.lor (Z.shiftl b2 8) (Z.shiftl (b1 + b0 * 2 ^ 8) 16) = Z.shiftl (b2 + (b1 + b0 * 2 ^ 8) * 2 ^ 8) 8) as ->.
  { rewrite E2, lor_shiftl_add by lia. rewrite Z.shiftl_mul_pow2 by lia. lia. }
  rewrite lor_shiftl_add by lia. lia.
Qed.

Lemma block_words_spec n : forall block,
  bytes_wf block -> length block = (4 * n)%nat ->
  length (block_words block) = n /\ Forall in_u32 (block_words block) /\
  forall t, (t < n)%nat -> nth t (block_words block) 0 = word block t.
Proof.
  induction n as [|n IH]; intros block Hw Hl.
  - destruct block; [|done]. split; [done|]. split; [constructor|lia].
  - do 4 (destruct block as [|? block]; [simpl in Hl; lia|]).
    unfold bytes_wf in Hw. repeat (apply Forall_cons_1 in Hw as [? Hw]).
    destruct (IH block Hw) as (L & F & N); [simpl in Hl; lia|].
    cbn [block_words]. rewrite be_word by done. unfold in_u8, two8 in *. split_and!.
    + simpl. by rewrite L.
    + apply Forall_cons_2; [unfold in_u32, two32; lia|done].
    + intros [|t] Ht; [done|]. cbn [nth]. rewrite N by lia. unfold word.
      by replace (4 * S t)%nat with (S (S (S (S (4 * t))))) by lia.
Qed.

(** ** Rounds *)

Lemma rounds_fold ks ws : forall v,
  length ws = length ks -> work_ok v ->
  work_ok (rounds v ks ws) /\
  rounds v ks ws = fold_left (fun v t => fips_round v (nth t ks 0) (nth t ws 0)) (seq 0 (length ks)) v.
Proof.
  revert ws. induction ks as [|k ks IH]; intros [|w ws] v Hl Hv; try discriminate Hl; [done|].
  cbn [rounds length seq fold_left nth]. rewrite round_fips by done.
  destruct (IH ws (fips_round v k w)) as [H1 H2]; [by injection Hl|by apply fips_round_ok|].
  split; [done|]. rewrite H2, <- seq_shift.
  generalize (fips_round v k w) (seq 0 (length ks)). clear. intros v l. revert v.
  induction l as [|t l IH]; intros v; [done|]. cbn [map fold_left nth]. apply IH.
Qed.

(** The constants, checked by integer roots: [i] is the integer part. *)
Definition root_fractionb (n p k : Z) : bool :=
  existsb (fun i => let r := Z.of_nat i * two32 + k in
    (0 <=? k) && (k <? two32) && (r ^ n <=? p * two32 ^ n) && (p * two32 ^ n <? (r + 1) ^ n)) (seq 0 18).

Lemma root_fractionb_ok n p k : root_fractionb n p k = true -> root_fraction n p k.
Proof.
  intros (i & _ & Hi)%existsb_exists. cbv zeta in Hi. to_prop. exists (Z.of_nat i).
  split; [apply Nat2Z.is_nonneg|]. split_and!; done.
Qed.

Definition work_list (v : Work) : list Z := [wa v; wb v; wc v; wd v; we v; wf v; wg v; wh v].

Lemma constants_ok :
  Forall2 (root_fraction 3) primes64 K /\ Forall2 (root_fraction 2) (take 8 primes64) (work_list IV).
Proof.
  assert (forall n ps ks, forallb (fun '(p, k) => root_fractionb n p k) (combine ps ks) = true ->
    length ps = length ks -> Forall2 (root_fraction n) ps ks) as H.
  { intros n ps. induction ps as [|p ps IH]; intros [|k ks] Hb Hl; try discriminate Hl; [constructor|].
    cbn [combine forallb] in Hb. apply andb_true_iff in Hb as [H1 H2].
    constructor; [by apply root_fractionb_ok|]. apply IH; [done|by injection Hl]. }
  split; apply H; vm_compute; reflexivity.
Qed.

(** Adding the working variables to the state. *)
Definition finish (s v : Work) : Work :=
  mkWork (u32 (wa s + wa v)) (u32 (wb s + wb v)) (u32 (wc s + wc v)) (u32 (wd s + wd v))
    (u32 (we s + we v)) (u32 (wf s + wf v)) (u32 (wg s + wg v)) (u32 (wh s + wh v)).

Lemma finish_fips s v : finish s v = fips_add s v /\ work_ok (finish s v).
Proof.
  split; [unfold finish, fips_add, u32; f_equal; f_equal; lia|].
  unfold finish, work_ok, u32. cbn [wa wb wc wd we wf wg wh]. split_and!; apply u32_ok.
Qed.

Lemma transform_eq s block :
  lin_sha256_transform s block = finish s (rounds s K (schedule 48 (block_words block))).
Proof. reflexivity. Qed.

Lemma schedule_ok block :
  bytes_wf block -> length block = 64%nat -> is_schedule block (schedule 48 (block_words block)).
Proof.
  intros Hw Hl. destruct (block_words_spec 16 block Hw Hl) as (L & F & N).
  assert (partial block (block_words block)) as Hp.
  { split; [done|]. split; [lia|]. split; [intros t Ht; by apply N|]. intros t Ht. lia. }
  pose proof (schedule_partial 48 block (block_words block) Hp) as [(P1 & P2 & P3 & P4) PL].
  revert P3 P4 PL. generalize (schedule 48 (block_words block)) as W. intros W P3 P4 PL.
  rewrite L in PL. constructor; [exact PL|exact P3|]. intros t Ht. apply P4. lia.
Qed.

Lemma rounds_fips s W : work_ok s -> length W = 64%nat -> rounds s K W = fips_rounds s W.
Proof. intros Hs HW. by destruct (rounds_fold K W s HW Hs) as [_ ->]. Qed.

(** C32. The compression function is that of FIPS 180-4: the table and the
    initial state are the fractional parts of the cube and square roots of the
    first primes, and from any state of eight 32-bit words and any block of 64
    bytes, [lin_sha256_transform] expands the block by the standard's recurrence,
    runs its 64 rounds and adds the result, leaving 32-bit words. *)
Theorem transform_fips s block :
  work_ok s -> bytes_wf block -> length block = 64%nat ->
  Forall2 (root_fraction 3) primes64 K /\ Forall2 (root_fraction 2) (take 8 primes64) (work_list IV) /\
  exists W, is_schedule block W /\
    lin_sha256_transform s block = fips_add s (fips_rounds s W) /\
    work_ok (lin_sha256_transform s block).
Proof.
  intros Hs Hw Hl. split; [apply constants_ok|]. split; [apply constants_ok|].
  pose proof (schedule_ok block Hw Hl) as Hsch. rewrite transform_eq.
  revert Hsch. generalize (schedule 48 (block_words block)) as W. intros W Hsch.
  exists W. split; [exact Hsch|]. rewrite (rounds_fips s W Hs (sched_length _ _ Hsch)).
  apply finish_fips.
Qed.

Lemma transform_fips_witness :
  exists W, is_schedule (repeat 97 64) W /\
    lin_sha256_transform IV (repeat 97 64) = fips_add IV (fips_rounds IV W) /\
    work_ok (lin_sha256_transform IV (repeat 97 64)).
Proof.
  apply transform_fips.
  - unfold work_ok, in_u32, two32. cbn. lia.
  - by apply bytes_wfb_wf.
  - reflexivity.
Defined.
