(* ===== verification/Linbc1.v ===== *)
(** * lin_linbc1.h, lin_linbc1.c: the fail-closed image loader

    The cursor is the list of the bytes of the body (the image without its
    32-byte tail) still to read.  The loader is written in a parser monad over
    it; every test of the code is a reader or an [ensure] with its error code.
    The [out] structure is the result; on an error nothing of it is meaningful
    and none is returned.  The hash is any [StreamHash]. *)
From stdpp Require Import strings.
From S2P Require Import Prelude Common Region Abi Vm VmSpec VmSafe Sha256.

Definition LIN_BC1_MAX_FNS : Z := 64.
Definition LIN_BC1_MAX_INS_TOTAL : Z := 16384.
Definition LIN_BC1_MAX_STR_BYTES : Z := 4096.
Definition LIN_BC1_MAX_REGIONS : Z := 64.
Definition LIN_BC1_C0_MAX_CELLS : Z := 1048576.
Definition LIN_BC1_MAX_LOCALS : Z := 64.

Inductive LinBc1Err : Type :=
| LIN_BC1_ERR_SHORT | LIN_BC1_ERR_MAGIC | LIN_BC1_ERR_VERSION | LIN_BC1_ERR_PROFILE
| LIN_BC1_ERR_FLAGS | LIN_BC1_ERR_COUNT | LIN_BC1_ERR_SECTION | LIN_BC1_ERR_FN
| LIN_BC1_ERR_OPCODE | LIN_BC1_ERR_JUMP | LIN_BC1_ERR_CALL | LIN_BC1_ERR_LOCAL
| LIN_BC1_ERR_REGION | LIN_BC1_ERR_ABI | LIN_BC1_ERR_TRAILING | LIN_BC1_ERR_SELFHASH.

#[export] Instance LinBc1Err_eq_dec : EqDecision LinBc1Err.
Proof. solve_decision. Defined.

Definition lin_bc1_err_name (e : option LinBc1Err) : string :=
  match e with
  | None => "ok"
  | Some LIN_BC1_ERR_SHORT => "short" | Some LIN_BC1_ERR_MAGIC => "magic"
  | Some LIN_BC1_ERR_VERSION => "version" | Some LIN_BC1_ERR_PROFILE => "profile"
  | Some LIN_BC1_ERR_FLAGS => "flags" | Some LIN_BC1_ERR_COUNT => "count"
  | Some LIN_BC1_ERR_SECTION => "section" | Some LIN_BC1_ERR_FN => "fn"
  | Some LIN_BC1_ERR_OPCODE => "opcode" | Some LIN_BC1_ERR_JUMP => "jump"
  | Some LIN_BC1_ERR_CALL => "call" | Some LIN_BC1_ERR_LOCAL => "local"
  | Some LIN_BC1_ERR_REGION => "region" | Some LIN_BC1_ERR_ABI => "abi"
  | Some LIN_BC1_ERR_TRAILING => "trailing" | Some LIN_BC1_ERR_SELFHASH => "selfhash"
  end.

Record LinBc1Vm : Type := mkBc1 {
  b_mod : VmModule;
  b_profile : Z;
  b_region_cells : list Z;
  b_abis : list Z;
  b_img_sha256 : list Z;
  b_img_len : nat
}.

(** ** Readers *)

Definition P (A : Type) : Type := list Z -> res LinBc1Err (A * list Z).

#[export] Instance P_ret : MRet P := fun A x l => Ok (x, l).
#[export] Instance P_bind : MBind P := fun A B f p l =>
  match p l with Ok (x, l) => f x l | Err e => Err e end.

Definition fail {A} (e : LinBc1Err) : P A := fun _ => Err e.
Definition ensure (b : bool) (e : LinBc1Err) : P unit := if b then mret tt else fail e.

(** [if (!rd_..(&c, &v)) return e;] *)
Definition rd_u8 (e : LinBc1Err) : P Z := fun l =>
  match l with
  | b0 :: l => Ok (b0, l)
  | _ => Err e
  end.

Definition rd_u16 (e : LinBc1Err) : P Z := fun l =>
  match l with
  | b0 :: b1 :: l => Ok (Z.lor b0 (Z.shiftl b1 8), l)
  | _ => Err e
  end.

Definition rd_u32 (e : LinBc1Err) : P Z := fun l =>
  match l with
  | b0 :: b1 :: b2 :: b3 :: l =>
      Ok (Z.lor (Z.lor (Z.lor b0 (Z.shiftl b1 8)) (Z.shiftl b2 16)) (Z.shiftl b3 24), l)
  | _ => Err e
  end.

(** [for (k < 8) r |= (uint64_t)p[k] << (8 * k)] *)
Fixpoint or_bytes (k : Z) (r : Z) (bs : list Z) : Z :=
  match bs with
  | [] => r
  | b :: bs => or_bytes (k + 1) (Z.lor r (u64 (Z.shiftl b (8 * k)))) bs
  end.

Definition rd_i64 (e : LinBc1Err) : P Z := fun l =>
  if (length l <? 8)%nat then Err e
  else Ok (i64 (or_bytes 0 0 (take 8 l)), drop 8 l).

(** [sl] bytes, as a view. *)
Definition rd_view (sl : Z) (e : LinBc1Err) : P (list Z) := fun l =>
  if Z.of_nat (length l) <? sl then Err e
  else Ok (take (Z.to_nat sl) l, drop (Z.to_nat sl) l).

(** A section of [n] entries; [f] is told the entry's index and what was read
    before, most recent first. *)
Fixpoint section {A} (n : nat) (i : Z) (acc : list A) (f : Z -> list A -> P A) : P (list A) :=
  match n with
  | O => mret (rev acc)
  | S n => x ← f i acc; section n (i + 1) (x :: acc) f
  end.

(** ** Sections *)

(** String pool: { len u32 ; bytes }. *)
Definition rd_string (_ : Z) (before : list (list Z)) : P (list Z) :=
  let str_bytes := sum_list_with length before in
  sl ← rd_u32 LIN_BC1_ERR_SECTION;
  s ← rd_view sl LIN_BC1_ERR_SHORT;
  _ ← ensure (negb (LIN_BC1_MAX_STR_BYTES <? Z.of_nat str_bytes + sl)) LIN_BC1_ERR_COUNT;
  mret s.

Definition sumz (l : list Z) : Z := fold_right Z.add 0 l.

Definition rd_region (i : Z) (before : list Z) : P Z :=
  rid ← rd_u32 LIN_BC1_ERR_SECTION;
  cells ← rd_u32 LIN_BC1_ERR_SECTION;
  _ ← ensure (rid =? i) LIN_BC1_ERR_REGION;
  _ ← ensure (negb (LIN_BC1_C0_MAX_CELLS <? sumz before + cells)) LIN_BC1_ERR_REGION;
  mret cells.

Definition rd_abi (_ : Z) (_ : list Z) : P Z :=
  id ← rd_u8 LIN_BC1_ERR_SECTION;
  _ ← ensure (negb (8 <? id)) LIN_BC1_ERR_ABI;
  mret id.

(** The bitmask of the ids read. *)
Definition abi_mask (ids : list Z) : list Z :=
  fold_left (fun m id => <[Z.to_nat id := 1]> m) ids (replicate 9 0).

(** Array descriptors into the dense table. *)
Fixpoint rd_arrays (n : nat) (nlocals : Z) (dense : list Z) : P (list Z) :=
  match n with
  | O => mret dense
  | S n =>
      li ← rd_u8 LIN_BC1_ERR_SECTION;
      alen ← rd_u16 LIN_BC1_ERR_SECTION;
      _ ← ensure (negb (nlocals <=? li)) LIN_BC1_ERR_LOCAL;
      _ ← ensure (negb ((alen =? 0) || (256 <? alen))) LIN_BC1_ERR_FN;
      _ ← ensure (default 0 (lookupz dense li) =? 0) LIN_BC1_ERR_FN;
      rd_arrays n nlocals (<[Z.to_nat li := alen]> dense)
  end.

Definition ops : list VmOp :=
  [ OP_PUSH_CONST; OP_LOAD_LOCAL; OP_STORE_LOCAL; OP_ADD; OP_SUB; OP_MUL; OP_DIV; OP_MOD;
    OP_BIT_AND; OP_BIT_OR; OP_BIT_XOR; OP_BIT_NOT; OP_NEG; OP_SHL; OP_SHR; OP_USHR;
    OP_CMP_EQ; OP_CMP_NE; OP_CMP_LT; OP_CMP_GT; OP_CMP_LE; OP_CMP_GE; OP_LOG_NOT;
    OP_JUMP; OP_JUMP_IF_FALSE; OP_JUMP_IF_FALSE_KEEP; OP_JUMP_IF_TRUE_KEEP; OP_POP; OP_CALL;
    OP_RET; OP_LOAD_INDEX; OP_STORE_INDEX; OP_ARR_LEN; OP_ABI_CALL ].

(** [(VmOp)op] *)
Definition op_of_ord (n : Z) : option VmOp := lookupz ops n.

(** The static checks of one instruction. *)
Definition check_operand (o : VmOp) (x code_len n_fns nlocals : Z) : P unit :=
  match o with
  | OP_JUMP | OP_JUMP_IF_FALSE | OP_JUMP_IF_FALSE_KEEP | OP_JUMP_IF_TRUE_KEEP =>
      ensure (negb ((x <? 0) || (code_len <=? u64 x))) LIN_BC1_ERR_JUMP
  | OP_CALL => ensure (negb ((x <? 0) || (n_fns <=? u64 x))) LIN_BC1_ERR_CALL
  | OP_LOAD_LOCAL | OP_STORE_LOCAL | OP_LOAD_INDEX | OP_STORE_INDEX | OP_ARR_LEN =>
      ensure (negb ((x <? 0) || (nlocals <=? u64 x))) LIN_BC1_ERR_LOCAL
  | _ => mret tt
  end.

Definition rd_ins (code_len n_fns nlocals : Z) (_ : Z) (_ : list VmIns) : P VmIns :=
  o ← rd_u8 LIN_BC1_ERR_SECTION;
  x ← rd_i64 LIN_BC1_ERR_SECTION;
  _ ← ensure (negb (32 <? o)) LIN_BC1_ERR_OPCODE;
  match op_of_ord o with
  | None => fail LIN_BC1_ERR_OPCODE
  | Some o => _ ← check_operand o x code_len n_fns nlocals; mret (mkIns o x)
  end.

Definition ins_total (fs : list VmFn) : nat := sum_list_with (fun f => length (code f)) fs.

Definition rd_fn (strings : list (list Z)) (n_fns : Z) (_ : Z) (before : list VmFn) : P VmFn :=
  name_idx ← rd_u32 LIN_BC1_ERR_SECTION;
  _ ← ensure (negb (Z.of_nat (length strings) <=? name_idx)) LIN_BC1_ERR_FN;
  nparams ← rd_u8 LIN_BC1_ERR_SECTION;
  nlocals ← rd_u8 LIN_BC1_ERR_SECTION;
  n_arrs ← rd_u8 LIN_BC1_ERR_SECTION;
  code_len ← rd_u32 LIN_BC1_ERR_SECTION;
  _ ← ensure (negb (code_len =? 0)) LIN_BC1_ERR_FN;
  _ ← ensure (negb ((nlocals <? nparams) || (LIN_BC1_MAX_LOCALS <? nlocals))) LIN_BC1_ERR_FN;
  _ ← ensure (negb (8 <? n_arrs)) LIN_BC1_ERR_FN;
  dense ← rd_arrays (Z.to_nat n_arrs) nlocals (replicate 64 0);
  _ ← ensure (negb (LIN_BC1_MAX_INS_TOTAL <? Z.of_nat (ins_total before) + code_len)) LIN_BC1_ERR_COUNT;
  c ← section (Z.to_nat code_len) 0 [] (rd_ins code_len n_fns nlocals);
  mret (mkFn (default [] (lookupz strings name_idx)) (Z.to_nat nparams) (Z.to_nat nlocals)
          c true true [] (take (Z.to_nat nlocals) dense)).

Record body : Type := mkBody {
  bd_profile : Z;
  bd_strings : list (list Z);
  bd_regions : list Z;
  bd_abis : list Z;
  bd_fns : list VmFn
}.

(** Everything after the magic, up to the end of the last function. *)
Definition rd_body : P body :=
  version ← rd_u8 LIN_BC1_ERR_VERSION;
  _ ← ensure (version =? 1) LIN_BC1_ERR_VERSION;
  profile ← rd_u8 LIN_BC1_ERR_SECTION;
  _ ← ensure ((profile =? 1) || (profile =? 2)) LIN_BC1_ERR_PROFILE;
  flags ← rd_u8 LIN_BC1_ERR_FLAGS;
  _ ← ensure (flags =? 0) LIN_BC1_ERR_FLAGS;
  n_strings ← rd_u32 LIN_BC1_ERR_SHORT;
  n_fns ← rd_u32 LIN_BC1_ERR_SHORT;
  n_regions ← rd_u32 LIN_BC1_ERR_SHORT;
  n_abis ← rd_u32 LIN_BC1_ERR_SHORT;
  _ ← ensure (negb ((LIN_BC1_MAX_FNS * 4 <? n_strings) || (LIN_BC1_MAX_FNS <? n_fns) ||
                    (LIN_BC1_MAX_REGIONS <? n_regions) || (9 <? n_abis))) LIN_BC1_ERR_COUNT;
  strings ← section (Z.to_nat n_strings) 0 [] rd_string;
  _ ← ensure (negb ((profile =? 1) && negb (n_regions =? 0))) LIN_BC1_ERR_REGION;
  rs ← section (Z.to_nat n_regions) 0 [] rd_region;
  ids ← section (Z.to_nat n_abis) 0 [] rd_abi;
  fs ← section (Z.to_nat n_fns) 0 [] (rd_fn strings n_fns);
  mret (mkBody profile strings rs ids fs).

Definition MAGIC : list Z := cstr "LINBC1".
Definition DOM : list Z := cstr "linbc1:img:".

Section Load.
Context {C : Type} `{StreamHash C}.

Definition image_digest (b : list Z) : list Z :=
  sh_final (sh_update (sh_update sh_init DOM) b).

Definition lin_bc1_load (img : list Z) : res LinBc1Err LinBc1Vm :=
  if (length img <? 25 + 32)%nat then Err LIN_BC1_ERR_SHORT
  else if negb (bytes_eqb (take 6 img) MAGIC) then Err LIN_BC1_ERR_MAGIC
  else
    let blen := (length img - 32)%nat in
    let* (b, rest) := rd_body (drop 6 (take blen img)) in
    if negb (length rest =? 0)%nat then Err LIN_BC1_ERR_TRAILING else
    let digest := image_digest (take blen img) in
    if negb (bytes_eqb digest (drop blen img)) then Err LIN_BC1_ERR_SELFHASH else
    Ok (mkBc1 (mkModule (bd_fns b)) (bd_profile b) (bd_regions b) (abi_mask (bd_abis b))
          digest (length img)).
End Load.

(** First function with that name, -1 if none. *)
Fixpoint find_fn (i : Z) (fs : list VmFn) (name : list Z) : Z :=
  match fs with
  | [] => -1
  | f :: fs => if bytes_eqb (fn_name f) name then i else find_fn (i + 1) fs name
  end.

Definition lin_bc1_find_fn (m : LinBc1Vm) (name : list Z) : Z := find_fn 0 (fns (b_mod m)) name.

(** Eight big-endian words folded modulo 2^64. *)
Definition digest_word (d : list Z) (i : nat) : Z :=
  let b k := default 0 (d !! (4 * i + k)%nat) in
  Z.lor (Z.lor (Z.lor (Z.shiftl (b 0%nat) 24) (Z.shiftl (b 1%nat) 16)) (Z.shiftl (b 2%nat) 8)) (b 3%nat).

Definition lin_bc1_fold_digest (d : list Z) : Z :=
  i64 (fold_left (fun f i => u64 (u64 (f * 4294967296) + digest_word d i)) (seq 0 8) 0).

(** ** Reasoning about readers *)

Lemma bind_ok {A B} (p : P A) (f : A -> P B) l y r :
  (p ≫= f) l = Ok (y, r) <-> exists x l1, p l = Ok (x, l1) /\ f x l1 = Ok (y, r).
Proof.
  unfold mbind, P_bind. destruct (p l) as [[x l1]|e]; split.
  - eauto.
  - by intros (? & ? & [= <- <-] & ?).
  - done.
  - by intros (? & ? & ? & _).
Qed.

Lemma ensure_ok b e l x r : ensure b e l = Ok (x, r) <-> b = true /\ r = l.
Proof.
  unfold ensure. destruct b; split.
  - by intros [= _ <-].
  - intros [_ ->]. by destruct x.
  - done.
  - by intros [].
Qed.

(** *** What holds of a result *)

Definition post {A} (p : P A) (Q : A -> Prop) : Prop :=
  forall l x r, bytes_wf l -> p l = Ok (x, r) -> Q x /\ bytes_wf r.

Lemma post_bind {A B} (p : P A) (f : A -> P B) Q R :
  post p Q -> (forall x, Q x -> post (f x) R) -> post (p ≫= f) R.
Proof.
  intros Hp Hf l y r Hl (x & l1 & H1 & H2)%bind_ok.
  apply Hp in H1 as [Hx Hl1]; [|done]. by eapply Hf.
Qed.

Lemma post_ret {A} (x : A) (Q : A -> Prop) : Q x -> post (mret x) Q.
Proof. intros Hq l y r Hl [= <- <-]. done. Qed.

Lemma post_fail {A} e (Q : A -> Prop) : post (fail e) Q.
Proof. intros l y r Hl H. discriminate H. Qed.

Lemma post_ensure b e : post (ensure b e) (fun _ => b = true).
Proof. intros l y r Hl [-> ->]%ensure_ok. done. Qed.

Lemma post_u8 e : post (rd_u8 e) in_u8.
Proof.
  intros [|b l] x r Hl H; [done|]. injection H as <- <-. by apply Forall_cons_1 in Hl.
Qed.

Ltac wf_tac := unfold bytes_wf; repeat (apply Forall_cons_2; [done|]); apply Forall_nil_2.

(** The shifts and ors of the readers are the little-endian values. *)
Lemma u16_le b0 b1 : in_u8 b0 -> in_u8 b1 -> Z.lor b0 (Z.shiftl b1 8) = le_val [b0; b1].
Proof. unfold in_u8, two8. intros. rewrite lor_shiftl_add by lia. cbn [le_val]. lia. Qed.

Lemma u32_le b0 b1 b2 b3 : in_u8 b0 -> in_u8 b1 -> in_u8 b2 -> in_u8 b3 ->
  Z.lor (Z.lor (Z.lor b0 (Z.shiftl b1 8)) (Z.shiftl b2 16)) (Z.shiftl b3 24) =
  le_val [b0; b1; b2; b3].
Proof.
  unfold in_u8, two8. intros. rewrite (lor_shiftl_add b0), (lor_shiftl_add _ b2), (lor_shiftl_add _ b3) by lia.
  cbn [le_val]. lia.
Qed.

Lemma or_bytes_le bs : forall k r,
  bytes_wf bs -> 0 <= k -> k + Z.of_nat (length bs) <= 8 -> 0 <= r < 256 ^ k ->
  or_bytes k r bs = r + 256 ^ k * le_val bs.
Proof.
  induction bs as [|b bs IH]; intros k r Hb Hk Hn Hr; cbn [or_bytes le_val]; [lia|].
  apply Forall_cons_1 in Hb as [Hb Hbs]. unfold in_u8, two8 in Hb. cbn [length] in Hn.
  assert (2 ^ (8 * k) = 256 ^ k) as E by (rewrite Z.pow_mul_r by lia; done).
  assert (256 ^ (k + 1) = 256 * 256 ^ k) as E1 by (rewrite Z.pow_add_r by lia; lia).
  pose proof (pow256_le (k + 1) 8 ltac:(lia)) as Hle. change (256 ^ 8) with two64 in Hle.
  assert (u64 (Z.shiftl b (8 * k)) = b * 256 ^ k) as ->.
  { rewrite Z.shiftl_mul_pow2, E by lia. apply u64_id. unfold in_u64. nia. }
  assert (b * 256 ^ k = Z.shiftl b (8 * k)) as -> by (rewrite Z.shiftl_mul_pow2, E by lia; done).
  rewrite lor_shiftl_add, E by lia.
  rewrite IH, E1 by (try done; try lia; rewrite ?E1; nia). lia.
Qed.

Lemma i64_le bs : bytes_wf bs -> length bs = 8%nat -> or_bytes 0 0 bs = le_val bs.
Proof. intros. rewrite or_bytes_le by (done || lia). rewrite Z.pow_0_r. lia. Qed.

Lemma bytes4 l : bytes_wf l -> (4 <= length l)%nat ->
  exists b0 b1 b2 b3 r, l = b0 :: b1 :: b2 :: b3 :: r /\
    in_u8 b0 /\ in_u8 b1 /\ in_u8 b2 /\ in_u8 b3 /\ bytes_wf r.
Proof.
  intros Hl Hn. destruct l as [|b0 [|b1 [|b2 [|b3 r]]]]; simpl in Hn; try lia.
  repeat (apply Forall_cons_1 in Hl as [? Hl]). by exists b0, b1, b2, b3, r.
Qed.

Lemma post_u32 e : post (rd_u32 e) in_u32.
Proof.
  intros l x r Hl H. destruct l as [|b0 [|b1 [|b2 [|b3 l]]]]; try discriminate H.
  repeat (apply Forall_cons_1 in Hl as [? Hl]).
  injection H as <- <-. rewrite u32_le by done. split; [|done].
  pose proof (le_val_range [b0; b1; b2; b3]) as Hr. apply Hr. wf_tac.
Qed.

Lemma post_u16 e : post (rd_u16 e) (fun x => 0 <= x < two16).
Proof.
  intros l x r Hl H. destruct l as [|b0 [|b1 l]]; try discriminate H.
  repeat (apply Forall_cons_1 in Hl as [? Hl]).
  injection H as <- <-. rewrite u16_le by done. split; [|done].
  pose proof (le_val_range [b0; b1]) as Hr. apply Hr. wf_tac.
Qed.

Lemma post_i64 e : post (rd_i64 e) in_i64.
Proof.
  intros l x r Hl H. unfold rd_i64 in H. destruct (_ <? _)%nat; [done|].
  injection H as <- <-. split; [apply i64_range|]. auto with lin.
Qed.

Lemma post_view sl e : post (rd_view sl e) (fun s => bytes_wf s).
Proof.
  intros l x r Hl H. unfold rd_view in H. destruct (_ <? _); [done|].
  injection H as <- <-. auto with lin.
Qed.

Lemma post_section {A} n : forall i (acc : list A) f (I : list A -> Prop),
  I acc -> (forall i acc, I acc -> post (f i acc) (fun x => I (x :: acc))) ->
  post (section n i acc f) (fun l => I (rev l)).
Proof.
  induction n as [|n IH]; intros i acc f I Ha Hf; cbn [section].
  - apply post_ret. by rewrite rev_involutive.
  - eapply post_bind; [by apply Hf|]. intros x Hx. by apply IH.
Qed.

Lemma section_length {A} n : forall i (acc : list A) f l x r,
  section n i acc f l = Ok (x, r) -> length x = (n + length acc)%nat.
Proof.
  induction n as [|n IH]; intros i acc f l x r H; cbn [section] in H.
  - injection H as <- <-. by rewrite length_rev.
  - apply bind_ok in H as (y & l1 & _ & H). apply IH in H. simpl in H. lia.
Qed.

(** *** Reading does not look past what it consumes *)

Definition stable {A} (p : P A) : Prop :=
  forall l x r k, p l = Ok (x, r) -> p (l ++ k) = Ok (x, r ++ k).

Lemma stable_bind {A B} (p : P A) (f : A -> P B) :
  stable p -> (forall x, stable (f x)) -> stable (p ≫= f).
Proof.
  intros Hp Hf l y r k (x & l1 & H1 & H2)%bind_ok. apply bind_ok.
  exists x, (l1 ++ k). split; [by apply Hp|by apply Hf].
Qed.

Lemma stable_ret {A} (x : A) : stable (mret x).
Proof. intros l y r k [= <- <-]. done. Qed.
Lemma stable_fail {A} e : stable (fail e : P A).
Proof. intros l y r k H. discriminate H. Qed.
Lemma stable_ensure b e : stable (ensure b e).
Proof. intros l y r k [-> ->]%ensure_ok. by destruct y. Qed.
Lemma stable_u8 e : stable (rd_u8 e).
Proof. intros [|? l] x r k H; [done|]. by injection H as <- <-. Qed.
Lemma stable_u16 e : stable (rd_u16 e).
Proof. intros [|? [|? l]] x r k H; try done. by injection H as <- <-. Qed.
Lemma stable_u32 e : stable (rd_u32 e).
Proof. intros [|? [|? [|? [|? l]]]] x r k H; try done. by injection H as <- <-. Qed.
Lemma stable_i64 e : stable (rd_i64 e).
Proof.
  intros l x r k H. unfold rd_i64 in *. rewrite length_app.
  destruct (Nat.ltb_spec (length l) 8); [done|]. destruct (Nat.ltb_spec (length l + length k) 8); [lia|].
  injection H as <- <-. by rewrite take_app_le, drop_app_le by lia.
Qed.
Lemma stable_view sl e : stable (rd_view sl e).
Proof.
  intros l x r k H. unfold rd_view in *. rewrite length_app.
  destruct (Z.ltb_spec (Z.of_nat (length l)) sl); [done|].
  destruct (Z.ltb_spec (Z.of_nat (length l + length k)) sl); [lia|].
  injection H as <- <-. by rewrite take_app_le, drop_app_le by lia.
Qed.

Lemma stable_section {A} n : forall i (acc : list A) f,
  (forall i acc, stable (f i acc)) -> stable (section n i acc f).
Proof.
  induction n as [|n IH]; intros i acc f Hf; cbn [section]; [apply stable_ret|].
  apply stable_bind; [done|]. intros. by apply IH.
Qed.
#[export] Hint Resolve stable_ret stable_fail stable_ensure stable_u8 stable_u16 stable_u32
  stable_i64 stable_view : lin.

Ltac stable_tac :=
  repeat first [ progress (auto with lin) | apply stable_bind; [|intros] | apply stable_section; intros
               | case_match ].

Lemma stable_arrays n nl d : stable (rd_arrays n nl d).
Proof. revert d. induction n as [|n IH]; intros d; cbn [rd_arrays]; stable_tac. Qed.

Lemma stable_body : stable rd_body.
Proof.
  unfold rd_body, rd_fn, rd_ins, rd_string, rd_region, rd_abi, check_operand.
  stable_tac. apply stable_arrays.
Qed.

(** ** What an accepted image guarantees *)

(** The invariants of LINBC1_FORMAT section 3, of one instruction and function. *)
Definition ins_valid (code_len n_fns nlocals : Z) (i : VmIns) : Prop :=
  in_i64 (a i) /\ op i <> OP_ABI_CALL /\
  match op i with
  | OP_JUMP | OP_JUMP_IF_FALSE | OP_JUMP_IF_FALSE_KEEP | OP_JUMP_IF_TRUE_KEEP => 0 <= a i < code_len
  | OP_CALL => 0 <= a i < n_fns
  | OP_LOAD_LOCAL | OP_STORE_LOCAL | OP_LOAD_INDEX | OP_STORE_INDEX | OP_ARR_LEN =>
      0 <= a i < nlocals
  | _ => True
  end.

Record fn_valid (n_fns : Z) (f : VmFn) : Prop := {
  fv_ok : ok f = true;
  fv_code : code f <> [];
  fv_params : (nparams f <= nlocals f <= 64)%nat;
  fv_arr_n : length (arr_n f) = nlocals f;
  fv_lens : Forall (fun n => 0 <= n <= 256) (arr_n f);
  fv_ins : Forall (ins_valid (Z.of_nat (length (code f))) n_fns (Z.of_nat (nlocals f))) (code f)
}.

Lemma op_of_ord_abi o x : op_of_ord o = Some x -> o <= 32 -> x <> OP_ABI_CALL.
Proof.
  intros H Ho. unfold op_of_ord in H. pose proof (lookupz_range _ _ _ H) as Hr.
  assert (forallb (fun n => negb (bool_decide (lookupz ops (Z.of_nat n) = Some OP_ABI_CALL))) (seq 0 33) = true) as Hall
    by reflexivity.
  intros ->. rewrite forallb_forall in Hall.
  specialize (Hall (Z.to_nat o)). rewrite Z2Nat.id, bool_decide_true in Hall by (try done; lia).
  assert (In (Z.to_nat o) (seq 0 33)) as Hin by (apply in_seq; lia).
  apply Hall in Hin. done.
Qed.

Lemma u64_nonneg_lt x n :
  in_i64 x -> negb ((x <? 0) || (n <=? u64 x)) = true -> 0 <= x < n.
Proof.
  intros Hx H. apply negb_true_iff, orb_false_iff in H as [H1%Z.ltb_ge H2%Z.leb_gt].
  rewrite u64_id in H2; [lia|]. unfold in_i64, two63 in Hx. unfold in_u64, two64. lia.
Qed.

Lemma post_ins cl nf nl i acc :
  post (rd_ins cl nf nl i acc) (ins_valid cl nf nl).
Proof.
  unfold rd_ins. eapply post_bind; [apply post_u8|]. intros o Ho.
  eapply post_bind; [apply post_i64|]. intros x Hx.
  eapply post_bind; [apply post_ensure|]. cbn beta. intros _ Hle.
  destruct (op_of_ord o) as [v|] eqn:Ev; [|apply post_fail].
  assert (v <> OP_ABI_CALL) as Hv.
  { apply (op_of_ord_abi _ _ Ev). apply negb_true_iff, Z.ltb_ge in Hle. lia. }
  assert (forall Q : Prop, (Q -> ins_valid cl nf nl (mkIns v x)) ->
    post (check_operand v x cl nf nl) (fun _ => Q) ->
    post (check_operand v x cl nf nl ≫= fun _ => mret (mkIns v x)) (ins_valid cl nf nl)) as Hk.
  { intros Q HQ Hc. eapply post_bind; [exact Hc|]. cbn beta. intros ? Hq. apply post_ret. auto. }
  unfold ins_valid in *. cbn [a op] in *.
  destruct v; cbn [check_operand] in *;
    try (apply (Hk True); [done|]; by apply post_ret);
    eapply Hk; try (apply post_ensure); intros Hb;
      (split; [done|split; [done|by apply u64_nonneg_lt]]).
Qed.

Lemma post_arrays n : forall nl d,
  Forall (fun n => 0 <= n <= 256) d ->
  post (rd_arrays n nl d) (fun d' => Forall (fun n => 0 <= n <= 256) d' /\ length d' = length d).
Proof.
  induction n as [|n IH]; intros nl d Hd; cbn [rd_arrays]; [by apply post_ret|].
  eapply post_bind; [apply post_u8|]. intros li Hli.
  eapply post_bind; [apply post_u16|]. intros alen Ha.
  eapply post_bind; [apply post_ensure|]. cbn beta. intros _ H1.
  eapply post_bind; [apply post_ensure|]. cbn beta. intros _ H2.
  eapply post_bind; [apply post_ensure|]. cbn beta. intros _ H3.
  apply negb_true_iff, orb_false_iff in H2 as [_ H2%Z.ltb_ge].
  intros l x r Hl Hx. apply IH in Hx as [[Hx1 Hx2] Hr]; [| |done].
  - split; [|done]. split; [done|]. by rewrite length_insert in Hx2.
  - apply Forall_insert; [done|]. unfold two16 in Ha. lia.
Qed.

Definition fns_inv (n_fns : Z) (acc : list VmFn) : Prop :=
  Forall (fn_valid n_fns) acc /\ Z.of_nat (ins_total acc) <= LIN_BC1_MAX_INS_TOTAL.

Lemma post_fn strings nf i acc :
  fns_inv nf acc -> post (rd_fn strings nf i acc) (fun f => fns_inv nf (f :: acc)).
Proof.
  intros [Hacc Htot]. unfold rd_fn.
  eapply post_bind; [apply post_u32|]. intros name_idx _.
  eapply post_bind; [apply post_ensure|]. cbn beta. intros _ _.
  eapply post_bind; [apply post_u8|]. intros np Hnp.
  eapply post_bind; [apply post_u8|]. intros nl Hnl.
  eapply post_bind; [apply post_u8|]. intros na _.
  eapply post_bind; [apply post_u32|]. intros cl Hcl.
  eapply post_bind; [apply post_ensure|]. cbn beta. intros _ Hc0.
  eapply post_bind; [apply post_ensure|]. cbn beta. intros _ Hpl.
  eapply post_bind; [apply post_ensure|]. cbn beta. intros _ _.
  eapply post_bind.
  { apply (post_arrays _ nl (replicate 64 0)). apply Forall_replicate. lia. }
  intros dense [Hd Hdl]. rewrite length_replicate in Hdl.
  eapply post_bind; [apply post_ensure|]. cbn beta. intros _ Htot2.
  intros l f r Hl (c & l1 & Hc & Hf)%bind_ok. injection Hf as <- <-.
  pose proof (section_length _ _ _ _ _ _ _ Hc) as Hlen. rewrite Nat.add_0_r in Hlen.
  apply (post_section _ 0 [] _ (Forall (ins_valid cl nf nl))) in Hc as [Hc Hl1]; [|constructor| |done].
  2:{ intros k pre Hpre. intros l' x r' Hl' Hx. apply post_ins in Hx as [Hx Hr']; [|done].
      split; [by constructor|done]. }
  split; [|done]. apply Forall_rev in Hc. rewrite rev_involutive in Hc.
  unfold in_u8, two8, in_u32 in *. apply negb_true_iff, orb_false_iff in Hpl as [Hp1%Z.ltb_ge Hp2%Z.ltb_ge].
  apply negb_true_iff, Z.ltb_ge in Htot2. apply negb_true_iff, Z.eqb_neq in Hc0.
  unfold LIN_BC1_MAX_LOCALS in *.
  split; [constructor; [|done]|].
  - constructor; cbn [ok code nparams nlocals arr_n].
    + done.
    + intros ->. simpl in Hlen. lia.
    + lia.
    + rewrite length_take, Hdl. lia.
    + by apply Forall_take.
    + rewrite Hlen, !Z2Nat.id by lia. done.
  - cbn [ins_total sum_list_with code]. fold (ins_total acc). rewrite Hlen. lia.
Qed.

Lemma post_region i acc :
  Forall (fun c => 0 <= c) acc /\ sumz acc <= LIN_BC1_C0_MAX_CELLS ->
  post (rd_region i acc) (fun c => Forall (fun c => 0 <= c) (c :: acc) /\ sumz (c :: acc) <= LIN_BC1_C0_MAX_CELLS).
Proof.
  intros [Ha Hs]. unfold rd_region.
  eapply post_bind; [apply post_u32|]. intros rid _.
  eapply post_bind; [apply post_u32|]. intros cells Hc.
  eapply post_bind; [apply post_ensure|]. cbn beta. intros _ _.
  eapply post_bind; [apply post_ensure|]. cbn beta. intros _ Ht.
  apply post_ret. apply negb_true_iff, Z.ltb_ge in Ht. unfold in_u32 in Hc.
  split; [constructor; [lia|done]|]. cbn [sumz fold_right]. fold (sumz acc). lia.
Qed.

Lemma sumz_rev l : sumz (rev l) = sumz l.
Proof.
  induction l as [|x l IH]; [done|]. cbn [rev]. unfold sumz in *. rewrite fold_right_app.
  cbn [fold_right]. rewrite <- IH. clear IH. generalize (rev l) as k. intros k.
  induction k as [|y k IHk]; cbn [fold_right]; [lia|]. rewrite IHk. lia.
Qed.

Record body_valid (b : body) : Prop := {
  bv_profile : bd_profile b = 1 \/ bd_profile b = 2;
  bv_nfns : Z.of_nat (length (bd_fns b)) <= LIN_BC1_MAX_FNS;
  bv_fns : Forall (fn_valid (Z.of_nat (length (bd_fns b)))) (bd_fns b);
  bv_ins : Z.of_nat (ins_total (bd_fns b)) <= LIN_BC1_MAX_INS_TOTAL;
  bv_regions : sumz (bd_regions b) <= LIN_BC1_C0_MAX_CELLS /\
    Z.of_nat (length (bd_regions b)) <= LIN_BC1_MAX_REGIONS /\
    (bd_profile b = 1 -> bd_regions b = [])
}.

Lemma ins_total_rev l : ins_total (rev l) = ins_total l.
Proof.
  induction l as [|x l IH]; [done|]. cbn [rev]. unfold ins_total in *.
  rewrite sum_list_with_app, IH. simpl. lia.
Qed.

Lemma string_rest i acc l x r : bytes_wf l -> rd_string i acc l = Ok (x, r) -> bytes_wf r.
Proof.
  intros Hl. unfold rd_string. intros (sl & l1 & H1 & (s & l2 & H2 & (u & l3 & H3 & H4)%bind_ok)%bind_ok)%bind_ok.
  apply post_u32 in H1 as [_ H1]; [|done]. apply post_view in H2 as [_ H2]; [|done].
  apply ensure_ok in H3 as [_ ->]. by injection H4 as <- <-.
Qed.

Lemma abi_rest i acc l x r : bytes_wf l -> rd_abi i acc l = Ok (x, r) -> bytes_wf r.
Proof.
  intros Hl. unfold rd_abi. intros (id & l3 & H3 & (u & l4 & H4 & H5)%bind_ok)%bind_ok.
  apply post_u8 in H3 as [_ H3]; [|done]. apply ensure_ok in H4 as [_ ->]. by injection H5 as <- <-.
Qed.

Lemma post_body : post rd_body body_valid.
Proof.
  unfold rd_body.
  eapply post_bind; [apply post_u8|]. intros version _.
  eapply post_bind; [apply post_ensure|]. cbn beta. intros _ _.
  eapply post_bind; [apply post_u8|]. intros prof _.
  eapply post_bind; [apply post_ensure|]. cbn beta. intros _ Hprof.
  eapply post_bind; [apply post_u8|]. intros flags _.
  eapply post_bind; [apply post_ensure|]. cbn beta. intros _ _.
  eapply post_bind; [apply post_u32|]. intros ns _.
  eapply post_bind; [apply post_u32|]. intros nf Hnf.
  eapply post_bind; [apply post_u32|]. intros nr Hnr.
  eapply post_bind; [apply post_u32|]. intros na _.
  eapply post_bind; [apply post_ensure|]. cbn beta. intros _ Hcount.
  eapply post_bind; [apply (post_section _ 0 [] rd_string (fun _ => True)); [done|]|].
  { intros i acc _ l x r Hl Hx. split; [done|]. exact (string_rest _ _ _ _ _ Hl Hx). }
  intros strings _. eapply post_bind; [apply post_ensure|]. cbn beta. intros _ Hreg.
  intros l b r Hl (rs & l1 & H1 & H)%bind_ok.
  pose proof (section_length _ _ _ _ _ _ _ H1) as Lr. rewrite Nat.add_0_r in Lr.
  apply (post_section _ 0 [] _ (fun acc => Forall (fun c => 0 <= c) acc /\ sumz acc <= LIN_BC1_C0_MAX_CELLS))
    in H1 as [[_ H1] Hl1]; [|split; [done|unfold LIN_BC1_C0_MAX_CELLS; simpl; lia]|intros; by apply post_region|done].
  rewrite sumz_rev in H1.
  apply bind_ok in H as (ids & l2 & H2 & H).
  assert (bytes_wf l2) as Hl2.
  { apply (post_section _ 0 [] rd_abi (fun _ => True)) in H2 as [_ ?]; try done.
    intros i acc _ l' x r' Hl' Hx. split; [done|]. exact (abi_rest _ _ _ _ _ Hl' Hx). }
  apply bind_ok in H as (fs & l3 & H3 & H). injection H as <- <-.
  pose proof (section_length _ _ _ _ _ _ _ H3) as Lf. rewrite Nat.add_0_r in Lf.
  apply (post_section _ 0 [] _ (fns_inv nf)) in H3 as [[Hf Hi] Hl3];
    [|split; [constructor|unfold LIN_BC1_MAX_INS_TOTAL; simpl; lia]|intros; by apply post_fn|done].
  split; [|done]. rewrite ins_total_rev in Hi. apply Forall_rev in Hf. rewrite rev_involutive in Hf.
  repeat rewrite negb_true_iff, ?orb_false_iff in Hcount.
  destruct Hcount as [[[_ Hc1%Z.ltb_ge] Hc2%Z.ltb_ge] _].
  unfold in_u32 in *.
  constructor; cbn [bd_profile bd_fns bd_regions].
  - apply orb_true_iff in Hprof as [?%Z.eqb_eq|?%Z.eqb_eq]; [by left|by right].
  - rewrite Lf, Z2Nat.id; lia.
  - rewrite Lf, Z2Nat.id by lia. done.
  - done.
  - split; [done|]. split; [rewrite Lr, Z2Nat.id; lia|]. intros ->.
    cbn [Z.eqb Pos.eqb andb] in Hreg. apply negb_true_iff, negb_false_iff, Z.eqb_eq in Hreg. subst.
    by destruct rs.
Qed.

(** A valid function is what the interpreter needs. *)
Lemma fn_valid_safe nf f : fn_valid nf f -> fn_safe f.
Proof.
  intros [_ _ Hp Ha Hl Hi]. constructor; unfold LIN_VM_MAX_LOCALS, LIN_VM_MAX_ARR_LEN.
  - lia.
  - lia.
  - done.
  - eapply Forall_impl; [|exact Hi]. intros i (H64 & _ & Hop). split; [done|].
    unfold LIN_VM_MAX_LOCALS. destruct (op i); simpl; intros; try done; lia.
Qed.

Section Accepted.
Context {C : Type} `{StreamHash C}.

Lemma load_inv img m :
  lin_bc1_load img = Ok m ->
  exists b, (57 <= length img)%nat /\ take 6 img = MAGIC /\
    rd_body (drop 6 (take (length img - 32) img)) = Ok (b, []) /\
    image_digest (take (length img - 32) img) = drop (length img - 32) img /\
    m = mkBc1 (mkModule (bd_fns b)) (bd_profile b) (bd_regions b) (abi_mask (bd_abis b))
          (drop (length img - 32) img) (length img).
Proof.
  unfold lin_bc1_load. intros Hl.
  destruct (Nat.ltb_spec (length img) (25 + 32)) as [|Hlen]; [done|].
  destruct (bytes_eqb (take 6 img) MAGIC) eqn:Em; [|done]. cbn [negb] in Hl.
  destruct (rd_body _) as [[b rest]|e] eqn:Eb; [|done].
  destruct (Nat.eqb_spec (length rest) 0) as [Er|]; [|done]. cbn [negb] in Hl.
  destruct (bytes_eqb (image_digest _) _) eqn:Ed; [|done]. cbn [negb] in Hl.
  apply bytes_eqb_eq in Em, Ed. destruct rest; [|done]. injection Hl as <-.
  exists b. split; [lia|]. split; [done|]. split; [done|]. split; [done|]. by rewrite Ed.
Qed.
End Accepted.


(** The smallest image: one function, [push_const 7; ret]. *)
Definition tiny_body : list Z :=
  MAGIC ++ [1; 1; 0] ++ le_bytes 4 1 ++ le_bytes 4 1 ++ le_bytes 4 0 ++ le_bytes 4 0 ++
  le_bytes 4 1 ++ cstr "f" ++
  le_bytes 4 0 ++ [0; 0; 0] ++ le_bytes 4 2 ++ (0 :: le_bytes 8 7) ++ (29 :: le_bytes 8 0).
Definition tiny_image : list Z := tiny_body ++ sha256_spec (DOM ++ tiny_body).

Lemma tiny_loads :
  match lin_bc1_load (C := LinSha256) tiny_image with
  | Ok m => fns (b_mod m) = [mkFn (cstr "f") 0 0 [mkIns OP_PUSH_CONST 7; mkIns OP_RET 0] true true [] []]
  | Err _ => False
  end.
Proof. vm_compute. reflexivity. Qed.

Lemma tiny_wf : bytes_wf tiny_image.
Proof.
  unfold tiny_image. apply bytes_wf_app. split.
  - apply bytes_wfb_wf. reflexivity.
  - apply (sh_bytes (digest := sha256_spec)).
Qed.


(** Images are self-delimiting: no accepted image is a proper prefix of
    another; appending anything to an accepted image gives a rejection with
    TRAILING, before any hash is compared. *)
Theorem lin_bc1_load_self_delimiting img m x :
  lin_bc1_load (C := LinSha256) img = Ok m -> x <> [] ->
  lin_bc1_load (C := LinSha256) (img ++ x) = Err LIN_BC1_ERR_TRAILING.
Proof.
  intros (b & Hlen & Hm & Hb & Hd & ->)%load_inv Hx.
  unfold lin_bc1_load. rewrite length_app.
  destruct (Nat.ltb_spec (length img + length x) (25 + 32)); [lia|].
  rewrite take_app_le, Hm by lia. rewrite (proj2 (bytes_eqb_eq MAGIC MAGIC) eq_refl). cbn [negb].
  set (y := drop (length img - 32) (take (length img + length x - 32) (img ++ x))).
  assert (take (length img + length x - 32) (img ++ x) = take (length img - 32) img ++ y) as E.
  { unfold y. rewrite <- (take_drop (length img - 32) (take (length img + length x - 32) (img ++ x))) at 1.
    f_equal. rewrite take_take, Nat.min_l by lia. by rewrite take_app_le by lia. }
  rewrite E, drop_app_le by (rewrite length_take; lia).
  rewrite (stable_body _ _ _ y Hb), app_nil_l.
  assert (length y = length x) as Ly.
  { unfold y. rewrite length_drop, length_take, length_app. lia. }
  rewrite Ly. destruct (Nat.eqb_spec (length x) 0); [by destruct x|done].
Qed.

Lemma lin_bc1_load_self_delimiting_witness :
  exists m, lin_bc1_load (C := LinSha256) tiny_image = Ok m /\
    lin_bc1_load (C := LinSha256) (tiny_image ++ [0]) = Err LIN_BC1_ERR_TRAILING.
Proof.
  pose proof tiny_loads as Ht.
  destruct (lin_bc1_load (C := LinSha256) tiny_image) as [m|] eqn:E; [|contradiction Ht].
  exists m. split; [reflexivity|].
  apply (lin_bc1_load_self_delimiting tiny_image m [0] E). discriminate.
Defined.

Lemma digest_word_le d i b0 b1 b2 b3 :
  d !! (4 * i)%nat = Some b0 -> d !! (4 * i + 1)%nat = Some b1 ->
  d !! (4 * i + 2)%nat = Some b2 -> d !! (4 * i + 3)%nat = Some b3 -> bytes_wf d ->
  digest_word d i = le_val [b3; b2; b1; b0].
Proof.
  intros H0 H1 H2 H3 Hd. unfold digest_word. rewrite Nat.add_0_r, H0, H1, H2, H3. cbn [default].
  pose proof (Forall_lookup_1 _ _ _ _ Hd H0). pose proof (Forall_lookup_1 _ _ _ _ Hd H1).
  pose proof (Forall_lookup_1 _ _ _ _ Hd H2). pose proof (Forall_lookup_1 _ _ _ _ Hd H3).
  rewrite <- u32_le by done.
  rewrite (Z.lor_comm _ b3), (Z.lor_comm _ (Z.shiftl b2 8)), (Z.lor_comm _ (Z.shiftl b1 16)).
  by rewrite <- !Z.lor_assoc.
Qed.

Lemma last_bytes d :
  length d = 32%nat -> bytes_wf d ->
  exists p b0 b1 b2 b3 b4 b5 b6 b7, d = p ++ [b0; b1; b2; b3; b4; b5; b6; b7] /\
    drop 24 d = [b0; b1; b2; b3; b4; b5; b6; b7] /\
    digest_word d 6 = le_val [b3; b2; b1; b0] /\ digest_word d 7 = le_val [b7; b6; b5; b4] /\
    bytes_wf [b3; b2; b1; b0] /\ bytes_wf [b7; b6; b5; b4].
Proof.
  intros Hl Hd. assert (d = take 24 d ++ drop 24 d) as E by (by rewrite take_drop).
  assert (bytes_wf (drop 24 d)) as Hw by auto with lin.
  assert (length (drop 24 d) = 8%nat) as Hn by (rewrite length_drop; lia).
  destruct (drop 24 d) as [|b0 [|b1 [|b2 [|b3 [|b4 [|b5 [|b6 [|b7 [|b8 k]]]]]]]]] eqn:Ek; try discriminate Hn.
  repeat (apply Forall_cons_1 in Hw as [? Hw]).
  exists (take 24 d), b0, b1, b2, b3, b4, b5, b6, b7. split; [done|]. split; [done|].
  assert (forall i, (i < 8)%nat -> d !! (24 + i)%nat = [b0; b1; b2; b3; b4; b5; b6; b7] !! i) as Hi.
  { intros i Hi. by rewrite <- Ek, lookup_drop. }
  split; [|split; [|split; wf_tac]]; apply digest_word_le; try done.
  - apply (Hi 0%nat). lia.
  - apply (Hi 1%nat). lia.
  - apply (Hi 2%nat). lia.
  - apply (Hi 3%nat). lia.
  - apply (Hi 4%nat). lia.
  - apply (Hi 5%nat). lia.
  - apply (Hi 6%nat). lia.
  - apply (Hi 7%nat). lia.
Qed.

Lemma fold_digest_eq d :
  0 <= digest_word d 6 < two32 -> 0 <= digest_word d 7 < two32 ->
  lin_bc1_fold_digest d = i64 (digest_word d 6 * 4294967296 + digest_word d 7).
Proof.
  intros H6 H7. unfold lin_bc1_fold_digest. cbn [seq fold_left].
  set (f := u64 (u64 (_ * _) + digest_word d 5)). clearbody f.
  apply i64_mod_eq. unfold two32, u64, two64 in *. Z.div_mod_to_equations. lia.
Qed.

(** The displayed fold of a digest is its last eight bytes: folding the
    eight words modulo 2^64 forgets all but the last two, so two digests that
    agree on bytes 24 to 31 show the same number. *)
Theorem lin_bc1_fold_last_words d e :
  bytes_wf d -> bytes_wf e -> length d = 32%nat -> length e = 32%nat ->
  lin_bc1_fold_digest d = lin_bc1_fold_digest e <-> drop 24 d = drop 24 e.
Proof.
  intros Hd He Ld Le.
  destruct (last_bytes d Ld Hd) as (p & a0 & a1 & a2 & a3 & a4 & a5 & a6 & a7 & _ & -> & A6 & A7 & WA & WA').
  destruct (last_bytes e Le He) as (q & b0 & b1 & b2 & b3 & b4 & b5 & b6 & b7 & _ & -> & B6 & B7 & WB & WB').
  pose proof (le_val_range _ WA) as R1. pose proof (le_val_range _ WA') as R2.
  pose proof (le_val_range _ WB) as R3. pose proof (le_val_range _ WB') as R4.
  change (256 ^ Z.of_nat (length _)) with two32 in R1, R2, R3, R4.
  rewrite !fold_digest_eq by (rewrite ?A6, ?A7, ?B6, ?B7; done). rewrite A6, A7, B6, B7.
  split.
  - intros E. apply (f_equal u64) in E. rewrite !u64_i64 in E.
    rewrite !u64_id in E by (unfold in_u64, two64, two32 in *; lia). unfold two32 in *.
    assert (le_val [a3; a2; a1; a0] = le_val [b3; b2; b1; b0]) as E1 by lia.
    assert (le_val [a7; a6; a5; a4] = le_val [b7; b6; b5; b4]) as E2 by lia.
    apply (f_equal (le_bytes 4)) in E1, E2.
    rewrite !le_bytes_val in E1, E2 by done. by simplify_eq.
  - intros E. by simplify_eq.
Qed.

Lemma lin_bc1_fold_last_words_witness :
  bytes_wf (replicate 32 1) /\ bytes_wf (replicate 24 9 ++ replicate 8 1) /\
  lin_bc1_fold_digest (replicate 32 1) = lin_bc1_fold_digest (replicate 24 9 ++ replicate 8 1).
Proof.
  assert (bytes_wf (replicate 32 1)) as H1 by (apply bytes_wfb_wf; reflexivity).
  assert (bytes_wf (replicate 24 9 ++ replicate 8 1)) as H2 by (apply bytes_wfb_wf; reflexivity).
  split; [exact H1|]. split; [exact H2|].
  apply (lin_bc1_fold_last_words _ _ H1 H2 eq_refl eq_refl). reflexivity.
Defined.
