(* ===== verification/Encode.v ===== *)
(** * tool/lin_c0_front.c: the LINBC1 image encoder

    The output buffer grows by doubling through [realloc], which may fail: the
    oracle [ok] says for which capacities it succeeds.  An error is the text of
    [*err].  The encoder and the loader are inverse of each other on modules
    within the loader's limits ([c0_image_roundtrip]). *)
From stdpp Require Import strings.
From S2P Require Import Prelude Common Region Abi Vm VmSpec VmSafe Sha256 Linbc1.

Record C0Out : Type := mkOut { o_bytes : list Z; o_cap : nat }.

Definition out_empty : C0Out := mkOut [] 0.

(** [while (nc < need) nc *= 2;] from a positive [nc]: [need] turns suffice. *)
Fixpoint grow (fuel nc need : nat) : nat :=
  match fuel with
  | O => nc
  | S fuel => if (nc <? need)%nat then grow fuel (nc * 2) need else nc
  end.

Section Encoder.
Context (realloc_ok : nat -> bool).
Context {C : Type} `{StreamHash C}.

Definition c0_out_need (o : C0Out) (extra : nat) : option C0Out :=
  if (length (o_bytes o) + extra <=? o_cap o)%nat then Some o
  else
    let nc := if (o_cap o =? 0)%nat then 256%nat else o_cap o in
    let nc := grow (length (o_bytes o) + extra) nc (length (o_bytes o) + extra) in
    if realloc_ok nc then Some (mkOut (o_bytes o) nc) else None.

Definition out_push (o : C0Out) (bs : list Z) : C0Out := mkOut (o_bytes o ++ bs) (o_cap o).

Definition c0_put_u8 (v : Z) (o : C0Out) : option C0Out :=
  o ← c0_out_need o 1; Some (out_push o [u8 v]).

Definition c0_put_u16 (v : Z) (o : C0Out) : option C0Out :=
  o ← c0_out_need o 2; Some (out_push o [u8 (Z.land v 255); u8 (Z.land (Z.shiftr v 8) 255)]).

Definition c0_put_u32 (v : Z) (o : C0Out) : option C0Out :=
  o ← c0_out_need o 4;
  Some (out_push o (map (fun i => u8 (Z.land (Z.shiftr v (8 * i)) 255)) [0; 1; 2; 3])).

Definition c0_put_i64 (v : Z) (o : C0Out) : option C0Out :=
  o ← c0_out_need o 8;
  Some (out_push o (map (fun i => u8 (Z.land (Z.shiftr (u64 v) (8 * i)) 255)) [0; 1; 2; 3; 4; 5; 6; 7])).

Definition c0_put_bytes (b : list Z) (o : C0Out) : option C0Out :=
  o ← c0_out_need o (length b); Some (out_push o b).

(** [goto oom] or an error text. *)
Definition put (w : C0Out -> option C0Out) (o : C0Out) : res string C0Out :=
  match w o with Some o => Ok o | None => Err "C0_REJ_OUT_OF_MEMORY"%string end.

(** The first loop. *)
Fixpoint encode_check (fs : list VmFn) : option string :=
  match fs with
  | [] => None
  | f :: fs =>
      if negb (ok f) then Some "C0_REJ_MODULE_NOT_PURE"%string
      else if (length (code f) =? 0)%nat then Some "C0_REJ_EMPTY_FN"%string
      else if (255 <? nparams f)%nat || (LIN_VM_MAX_LOCALS <? nlocals f)%nat
      then Some "C0_REJ_FN_LIMITS"%string
      else if (nlocals f <? nparams f)%nat then Some "C0_REJ_FN_LIMITS"%string
      else encode_check fs
  end.

Fixpoint put_pool (fs : list VmFn) (o : C0Out) : res string C0Out :=
  match fs with
  | [] => Ok o
  | f :: fs =>
      let* o := put (c0_put_u32 (u32 (Z.of_nat (length (fn_name f))))) o in
      let* o := put (c0_put_bytes (fn_name f)) o in
      put_pool fs o
  end.

Fixpoint put_arrays (li : Z) (ns : list Z) (o : C0Out) : res string C0Out :=
  match ns with
  | [] => Ok o
  | n :: ns =>
      if n =? 0 then put_arrays (li + 1) ns o
      else if 255 <? li then Err "C0_REJ_FN_LIMITS"%string
      else
        let* o := put (c0_put_u8 li) o in
        let* o := put (c0_put_u16 n) o in
        put_arrays (li + 1) ns o
  end.

Fixpoint put_code (c : list VmIns) (o : C0Out) : res string C0Out :=
  match c with
  | [] => Ok o
  | i :: c =>
      let* o := put (c0_put_u8 (op_ord (op i))) o in
      let* o := put (c0_put_i64 (a i)) o in
      put_code c o
  end.

Definition count_arrays (ns : list Z) : Z :=
  u8 (Z.of_nat (length (List.filter (fun n => 0 <? n) ns))).

Definition put_fn (i : Z) (f : VmFn) (o : C0Out) : res string C0Out :=
  let n_arrs := count_arrays (arr_n f) in
  if 8 <? n_arrs then Err "C0_REJ_TOO_MANY_ARRAYS"%string
  else
    let* o := put (c0_put_u32 (u32 i)) o in
    let* o := put (c0_put_u8 (u8 (Z.of_nat (nparams f)))) o in
    let* o := put (c0_put_u8 (u8 (Z.of_nat (nlocals f)))) o in
    let* o := put (c0_put_u8 n_arrs) o in
    let* o := put (c0_put_u32 (u32 (Z.of_nat (length (code f))))) o in
    let* o := put_arrays 0 (arr_n f) o in
    put_code (code f) o.

Fixpoint put_fns (i : Z) (fs : list VmFn) (o : C0Out) : res string C0Out :=
  match fs with
  | [] => Ok o
  | f :: fs => let* o := put_fn i f o in put_fns (i + 1) fs o
  end.

(** Header, string pool and functions. *)
Definition put_body (fs : list VmFn) (o : C0Out) : res string C0Out :=
  let n := u32 (Z.of_nat (length fs)) in
  let* o := put (c0_put_bytes MAGIC) o in
  let* o := put (c0_put_u8 1) o in
  let* o := put (c0_put_u8 1) o in
  let* o := put (c0_put_u8 0) o in
  let* o := put (c0_put_u32 n) o in
  let* o := put (c0_put_u32 n) o in
  let* o := put (c0_put_u32 0) o in
  let* o := put (c0_put_u32 0) o in
  let* o := put_pool fs o in
  put_fns 0 fs o.

Definition c0_image_encode (m : VmModule) : res string (list Z) :=
  match encode_check (fns m) with
  | Some e => Err e
  | None =>
      if LIN_BC1_MAX_FNS <? Z.of_nat (length (fns m)) then Err "C0_REJ_TOO_MANY_FNS"%string
      else
        let* o := put_body (fns m) out_empty in
        let* o := put (c0_put_bytes (image_digest (o_bytes o))) o in
        Ok (o_bytes o)
  end.
End Encoder.

(** ** The buffer *)

Lemma grow_enough fuel nc need : (1 <= nc)%nat -> (need <= nc + fuel)%nat ->
  (need <= grow fuel nc need)%nat.
Proof.
  revert nc. induction fuel as [|fuel IH]; intros nc H1 H2; cbn [grow]; [lia|].
  destruct (Nat.ltb_spec nc need); [|lia]. apply IH; lia.
Qed.

Definition out_ok (o : C0Out) : Prop := (length (o_bytes o) <= o_cap o)%nat.

(** A writer appends exactly [bs], in place, or the allocator failed. *)
Definition writes (ok : nat -> bool) (w : C0Out -> option C0Out) (bs : list Z) : Prop :=
  forall o, out_ok o ->
    (exists o', w o = Some o' /\ o_bytes o' = o_bytes o ++ bs /\ out_ok o') \/
    (w o = None /\ exists n, ok n = false).

Lemma need_writes ok o extra :
  out_ok o ->
  (exists o', c0_out_need ok o extra = Some o' /\ o_bytes o' = o_bytes o /\
     (length (o_bytes o') + extra <= o_cap o')%nat) \/
  (c0_out_need ok o extra = None /\ exists n, ok n = false).
Proof.
  intros Ho. unfold c0_out_need.
  destruct (Nat.leb_spec (length (o_bytes o) + extra) (o_cap o)); [left; by exists o|].
  set (nc := grow _ _ _). destruct (ok nc) eqn:E; [left|right; split; [done|by exists nc]].
  eexists. split; [done|]. split; [done|]. simpl. apply grow_enough; [|lia].
  destruct (Nat.eqb_spec (o_cap o) 0); lia.
Qed.

Lemma push_writes ok bs n :
  n = length bs ->
  writes ok (fun o => o ← c0_out_need ok o n; Some (out_push o bs)) bs.
Proof.
  intros -> o Ho. destruct (need_writes ok o (length bs) Ho) as [(o' & -> & E & Hc)|[-> Hn]]; [left|by right].
  eexists. split; [done|]. simpl. rewrite E. split; [done|].
  unfold out_ok. simpl. rewrite length_app. lia.
Qed.

Lemma byte_of v i : 0 <= i -> u8 (Z.land (Z.shiftr v (8 * i)) 255) = (v / 256 ^ i) mod 256.
Proof.
  intros Hi. rewrite land_255, (Z.mul_comm 8), shift_byte by done.
  apply u8_id. unfold in_u8, two8. apply Z.mod_pos_bound. lia.
Qed.

Lemma put_u8_writes ok v : in_u8 v -> writes ok (c0_put_u8 ok v) [v].
Proof. intros Hv. unfold c0_put_u8. rewrite u8_id by done. by apply push_writes. Qed.

Lemma put_u16_writes ok v : writes ok (c0_put_u16 ok v) (le_bytes 2 v).
Proof.
  unfold c0_put_u16. pose proof (byte_of v 0 ltac:(lia)) as E0. pose proof (byte_of v 1 ltac:(lia)) as E1.
  rewrite Z.mul_0_r, Z.shiftr_0_r, Z.pow_0_r, Z.div_1_r in E0. change (8 * 1) with 8 in E1.
  rewrite E0, E1. by apply push_writes.
Qed.

Lemma le_bytes_map v :
  map (fun i => u8 (Z.land (Z.shiftr v (8 * i)) 255)) [0; 1; 2; 3] = le_bytes 4 v /\
  map (fun i => u8 (Z.land (Z.shiftr v (8 * i)) 255)) [0; 1; 2; 3; 4; 5; 6; 7] = le_bytes 8 v.
Proof.
  cbn [map le_bytes]. rewrite !byte_of by lia. rewrite !Z.div_div by lia.
  rewrite Z.pow_0_r, Z.div_1_r. split; repeat f_equal.
Qed.

Lemma put_u32_writes ok v : writes ok (c0_put_u32 ok v) (le_bytes 4 v).
Proof. unfold c0_put_u32. rewrite (proj1 (le_bytes_map v)). by apply push_writes. Qed.

Lemma put_i64_writes ok v : writes ok (c0_put_i64 ok v) (le_bytes 8 (u64 v)).
Proof. unfold c0_put_i64. rewrite (proj2 (le_bytes_map (u64 v))). by apply push_writes. Qed.

Lemma put_bytes_writes ok b : writes ok (c0_put_bytes ok b) b.
Proof. by apply push_writes. Qed.

(** ** The bytes written *)

Definition OOM : string := "C0_REJ_OUT_OF_MEMORY".

Definition produces (ok : nat -> bool) (w : C0Out -> res string C0Out) (bs : list Z) : Prop :=
  forall o, out_ok o ->
    (exists o', w o = Ok o' /\ o_bytes o' = o_bytes o ++ bs /\ out_ok o') \/
    (w o = Err OOM /\ exists n, ok n = false).

Lemma produces_put ok w bs : writes ok w bs -> produces ok (put w) bs.
Proof.
  intros Hw o Ho. unfold put. destruct (Hw o Ho) as [(o' & -> & ? & ?)|[-> ?]]; [left; eauto|by right].
Qed.

Lemma produces_ret ok : produces ok (fun o => Ok o) [].
Proof. intros o Ho. left. exists o. by rewrite app_nil_r. Qed.

Lemma produces_seq ok w1 w2 b1 b2 :
  produces ok w1 b1 -> produces ok w2 b2 ->
  produces ok (fun o => let* o := w1 o in w2 o) (b1 ++ b2).
Proof.
  intros H1 H2 o Ho. destruct (H1 o Ho) as [(o1 & -> & E1 & Ho1)|[-> ?]]; [|by right].
  destruct (H2 o1 Ho1) as [(o2 & -> & E2 & Ho2)|[-> ?]]; [left|by right].
  exists o2. split; [done|]. split; [|done]. by rewrite E2, E1, app_assoc.
Qed.

Definition enc_pool (fs : list VmFn) : list Z :=
  concat (map (fun f => le_bytes 4 (u32 (Z.of_nat (length (fn_name f)))) ++ fn_name f) fs).

Fixpoint enc_arrays (li : Z) (ns : list Z) : list Z :=
  match ns with
  | [] => []
  | n :: ns => (if n =? 0 then [] else li :: le_bytes 2 n) ++ enc_arrays (li + 1) ns
  end.

Definition enc_code (c : list VmIns) : list Z :=
  concat (map (fun i => op_ord (op i) :: le_bytes 8 (u64 (a i))) c).

Definition enc_fn (i : Z) (f : VmFn) : list Z :=
  le_bytes 4 (u32 i) ++ [u8 (Z.of_nat (nparams f))] ++ [u8 (Z.of_nat (nlocals f))] ++
  [count_arrays (arr_n f)] ++ le_bytes 4 (u32 (Z.of_nat (length (code f)))) ++
  enc_arrays 0 (arr_n f) ++ enc_code (code f).

Fixpoint enc_fns (i : Z) (fs : list VmFn) : list Z :=
  match fs with
  | [] => []
  | f :: fs => enc_fn i f ++ enc_fns (i + 1) fs
  end.

Definition enc_body (fs : list VmFn) : list Z :=
  let n := u32 (Z.of_nat (length fs)) in
  MAGIC ++ [1] ++ [1] ++ [0] ++ le_bytes 4 n ++ le_bytes 4 n ++ le_bytes 4 0 ++ le_bytes 4 0 ++
  enc_pool fs ++ enc_fns 0 fs.

Section Bytes.
Context (ok : nat -> bool).

Lemma produces_pool fs : produces ok (put_pool ok fs) (enc_pool fs).
Proof.
  induction fs as [|f fs IH]; [apply produces_ret|].
  unfold enc_pool. cbn [put_pool map concat]. rewrite <- app_assoc.
  apply produces_seq; [apply produces_put, put_u32_writes|].
  apply produces_seq; [apply produces_put, put_bytes_writes|exact IH].
Qed.

Lemma produces_code c : produces ok (put_code ok c) (enc_code c).
Proof.
  induction c as [|i c IH]; [apply produces_ret|].
  unfold enc_code. cbn [put_code map concat].
  change (op_ord (op i) :: le_bytes 8 (u64 (a i))) with ([op_ord (op i)] ++ le_bytes 8 (u64 (a i))).
  rewrite <- app_assoc. apply produces_seq; [apply produces_put, put_u8_writes|].
  { pose proof (op_ord_range (op i)). unfold in_u8, two8. lia. }
  apply produces_seq; [apply produces_put, put_i64_writes|exact IH].
Qed.

Lemma produces_arrays ns : forall li,
  0 <= li -> li + Z.of_nat (length ns) <= 256 -> produces ok (put_arrays ok li ns) (enc_arrays li ns).
Proof.
  induction ns as [|n ns IH]; intros li H0 Hl; [apply produces_ret|].
  cbn [length] in Hl. cbn [put_arrays enc_arrays].
  destruct (n =? 0); [apply IH; lia|].
  destruct (Z.ltb_spec 255 li); [lia|].
  change (li :: le_bytes 2 n) with ([li] ++ le_bytes 2 n). rewrite <- app_assoc.
  apply produces_seq; [apply produces_put, put_u8_writes; unfold in_u8, two8; lia|].
  apply produces_seq; [apply produces_put, put_u16_writes|]. apply IH; lia.
Qed.

Lemma count_arrays_u8 ns : in_u8 (count_arrays ns).
Proof. apply u8_range. Qed.

Lemma produces_fn i f :
  count_arrays (arr_n f) <= 8 -> (length (arr_n f) <= 256)%nat ->
  produces ok (put_fn ok i f) (enc_fn i f).
Proof.
  intros Hc Hl. unfold put_fn, enc_fn. destruct (Z.ltb_spec 8 (count_arrays (arr_n f))); [lia|].
  repeat (apply produces_seq; [apply produces_put;
    first [apply put_u32_writes|apply put_u8_writes; apply u8_range|apply put_u8_writes, count_arrays_u8]|]).
  apply produces_seq; [apply produces_arrays; lia|]. apply produces_code.
Qed.

Lemma produces_fns fs : forall i,
  Forall (fun f => count_arrays (arr_n f) <= 8 /\ (length (arr_n f) <= 256)%nat) fs ->
  produces ok (put_fns ok i fs) (enc_fns i fs).
Proof.
  induction fs as [|f fs IH]; intros i H; [apply produces_ret|].
  apply Forall_cons_1 in H as [[H1 H2] H]. cbn [put_fns enc_fns].
  apply produces_seq; [by apply produces_fn|by apply IH].
Qed.
End Bytes.

(** What the encoder itself tests. *)
Definition encodable (fs : list VmFn) : Prop :=
  encode_check fs = None /\ Z.of_nat (length fs) <= LIN_BC1_MAX_FNS /\
  Forall (fun f => count_arrays (arr_n f) <= 8 /\ (length (arr_n f) <= 256)%nat) fs.

Lemma encode_bytes ok {C} `{StreamHash C} m :
  encodable (fns m) ->
  c0_image_encode ok m = Ok (enc_body (fns m) ++ image_digest (enc_body (fns m))) \/
  (c0_image_encode ok m = Err OOM /\ exists n, ok n = false).
Proof.
  intros (Hc & Hn & Hf). unfold c0_image_encode. rewrite Hc.
  destruct (Z.ltb_spec LIN_BC1_MAX_FNS (Z.of_nat (length (fns m)))); [lia|].
  assert (produces ok (put_body ok (fns m)) (enc_body (fns m))) as Hp.
  { unfold put_body, enc_body. repeat (apply produces_seq; [apply produces_put;
      first [apply put_bytes_writes|apply put_u32_writes|apply put_u8_writes; unfold in_u8, two8; lia]|]).
    apply produces_seq; [apply produces_pool|by apply produces_fns]. }
  destruct (Hp out_empty) as [(o & -> & E & Ho)|[-> Hn']]; [unfold out_ok; simpl; lia| |by right].
  cbn [o_bytes out_empty app] in E.
  destruct (produces_put ok _ _ (put_bytes_writes ok (image_digest (o_bytes o))) o Ho)
    as [(o' & -> & E' & _)|[-> Hn']]; [left|by right].
  by rewrite E', E.
Qed.

(** ** Reading back *)

(** Reading [bs] gives [x] and stops at its end. *)
Definition decodes {A} (p : P A) (bs : list Z) (x : A) : Prop :=
  forall k, p (bs ++ k) = Ok (x, k).

Lemma decodes_bind {A B} (p : P A) (f : A -> P B) b1 b2 x y :
  decodes p b1 x -> decodes (f x) b2 y -> decodes (p ≫= f) (b1 ++ b2) y.
Proof. intros H1 H2 k. unfold mbind, P_bind. rewrite <- app_assoc, H1. apply H2. Qed.

Lemma decodes_then {A B} (p : P A) (f : A -> P B) b x y :
  decodes p [] x -> decodes (f x) b y -> decodes (p ≫= f) b y.
Proof. apply (decodes_bind p f [] b). Qed.

Lemma decodes_ret {A} (x : A) : decodes (mret x) [] x.
Proof. done. Qed.

Lemma decodes_ensure b e : b = true -> decodes (ensure b e) [] tt.
Proof. intros ->. done. Qed.

Lemma decodes_u8 e b : decodes (rd_u8 e) [b] b.
Proof. done. Qed.

Lemma decodes_u16 e v : 0 <= v < two16 -> decodes (rd_u16 e) (le_bytes 2 v) v.
Proof.
  intros Hv k. pose proof (le_bytes_wf 2 v) as Hw. pose proof (le_val_bytes 2 v) as Hval.
  change (256 ^ Z.of_nat 2) with two16 in Hval. rewrite Z.mod_small in Hval by done.
  pose proof (length_le_bytes 2 v) as Hl.
  destruct (le_bytes 2 v) as [|b0 [|b1 [|? ?]]]; try discriminate Hl.
  repeat (apply Forall_cons_1 in Hw as [? Hw]). cbn [app rd_u16]. by rewrite u16_le, Hval.
Qed.

Lemma decodes_u32 e v : in_u32 v -> decodes (rd_u32 e) (le_bytes 4 v) v.
Proof.
  intros Hv k. pose proof (le_bytes_wf 4 v) as Hw. pose proof (le_val_bytes 4 v) as Hval.
  change (256 ^ Z.of_nat 4) with two32 in Hval. rewrite Z.mod_small in Hval by done.
  pose proof (length_le_bytes 4 v) as Hl.
  destruct (le_bytes 4 v) as [|b0 [|b1 [|b2 [|b3 [|? ?]]]]]; try discriminate Hl.
  repeat (apply Forall_cons_1 in Hw as [? Hw]). cbn [app rd_u32]. by rewrite u32_le, Hval.
Qed.

Lemma decodes_i64 e v : in_i64 v -> decodes (rd_i64 e) (le_bytes 8 (u64 v)) v.
Proof.
  intros Hv k. unfold rd_i64. rewrite length_app, length_le_bytes.
  destruct (Nat.ltb_spec (8 + length k) 8); [lia|].
  rewrite take_app_length', drop_app_length' by (by rewrite length_le_bytes).
  rewrite i64_le by (try apply le_bytes_wf; by rewrite length_le_bytes). by rewrite le64_val.
Qed.

Lemma decodes_view e s : decodes (rd_view (Z.of_nat (length s)) e) s s.
Proof.
  intros k. unfold rd_view. rewrite length_app, Nat2Z.id.
  destruct (Z.ltb_spec (Z.of_nat (length s + length k)) (Z.of_nat (length s))); [lia|].
  by rewrite take_app_length, drop_app_length.
Qed.

(** A section decodes entry by entry. *)
Lemma decodes_section {A} (f : Z -> list A -> P A) (enc : Z -> A -> list Z) xs : forall i acc,
  (forall j pre x post, xs = pre ++ x :: post -> j = i + Z.of_nat (length pre) ->
     decodes (f j (rev pre ++ acc)) (enc j x) x) ->
  decodes (section (length xs) i acc f)
    (concat (imap (fun k x => enc (i + Z.of_nat k) x) xs)) (rev acc ++ xs).
Proof.
  induction xs as [|x xs IH]; intros i acc Hf; cbn [length section].
  - rewrite app_nil_r. apply decodes_ret.
  - rewrite imap_cons. cbn [concat]. rewrite Z.add_0_r.
    eapply decodes_bind; [apply (Hf i [] x xs); [done|simpl; lia]|].
    replace (rev acc ++ x :: xs) with (rev (x :: acc) ++ xs) by (simpl; by rewrite <- app_assoc).
    replace (imap ((fun k y => enc (i + Z.of_nat k) y) ∘ S) xs)
      with (imap (fun k y => enc (i + 1 + Z.of_nat k) y) xs)
      by (apply imap_ext; intros; simpl; f_equal; lia).
    apply IH. intros j pre y post -> ->. 
    replace (rev pre ++ x :: acc) with (rev (x :: pre) ++ acc) by (simpl; by rewrite <- app_assoc).
    apply (Hf _ (x :: pre) y post); [done|]. simpl length. lia.
Qed.

(** The modules the loader can hold, in the form it gives them. *)
Record loadable (m : VmModule) : Prop := {
  ld_nfns : Z.of_nat (length (fns m)) <= LIN_BC1_MAX_FNS;
  ld_fns : Forall (fn_valid (Z.of_nat (length (fns m)))) (fns m);
  ld_ins : Z.of_nat (ins_total (fns m)) <= LIN_BC1_MAX_INS_TOTAL;
  ld_names : Z.of_nat (sum_list_with (fun f => length (fn_name f)) (fns m)) <= LIN_BC1_MAX_STR_BYTES;
  ld_arrays : Forall (fun f => count_arrays (arr_n f) <= 8) (fns m);
  ld_form : Forall (fun f => sig_ok f = true /\ reject f = []) (fns m)
}.

Lemma sum_rev {A} (g : A -> nat) l : sum_list_with g (rev l) = sum_list_with g l.
Proof. induction l as [|x l IH]; [done|]. cbn [rev]. rewrite sum_list_with_app, IH. simpl. lia. Qed.

Lemma decodes_string (pre : list (list Z)) s :
  Z.of_nat (sum_list_with length pre + length s) <= LIN_BC1_MAX_STR_BYTES ->
  decodes (rd_string 0 pre) (le_bytes 4 (u32 (Z.of_nat (length s))) ++ s) s.
Proof.
  intros Hs. unfold LIN_BC1_MAX_STR_BYTES in *. unfold rd_string.
  rewrite u32_id by (unfold in_u32, two32; lia).
  eapply decodes_bind; [apply decodes_u32; unfold in_u32, two32; lia|].
  rewrite <- (app_nil_r s) at 2.
  eapply decodes_bind; [apply decodes_view|].
  eapply decodes_then; [apply decodes_ensure|apply decodes_ret].
  apply negb_true_iff, Z.ltb_ge. unfold LIN_BC1_MAX_STR_BYTES. lia.
Qed.

Lemma decodes_pool fs :
  Z.of_nat (sum_list_with (fun f => length (fn_name f)) fs) <= LIN_BC1_MAX_STR_BYTES ->
  decodes (section (length fs) 0 [] rd_string) (enc_pool fs) (map fn_name fs).
Proof.
  intros Hs.
  pose proof (decodes_section rd_string
    (fun _ s => le_bytes 4 (u32 (Z.of_nat (length s))) ++ s) (map fn_name fs) 0 []) as H.
  rewrite length_map in H. cbn [rev app] in H.
  assert (enc_pool fs = concat (imap (fun _ s => le_bytes 4 (u32 (Z.of_nat (length s))) ++ s) (map fn_name fs))) as ->.
  { unfold enc_pool. f_equal. clear. induction fs as [|f fs IH]; [done|].
    cbn [map]. rewrite imap_cons. f_equal. exact IH. }
  apply H. intros j pre s post E _. rewrite app_nil_r.
  apply (decodes_string (rev pre) s).
  assert (sum_list_with (fun f => length (fn_name f)) fs = sum_list_with length (map fn_name fs)) as E2.
  { clear. induction fs as [|f fs IH]; [done|]. simpl. lia. }
  rewrite E2, E, sum_list_with_app in Hs. rewrite sum_rev. simpl in Hs. lia.
Qed.

Lemma op_of_ord_ord o : op_of_ord (op_ord o) = Some o.
Proof. by destruct o. Qed.

Lemma decodes_ins cl nf nl j acc i :
  ins_valid cl nf nl i ->
  decodes (rd_ins cl nf nl j acc) (op_ord (op i) :: le_bytes 8 (u64 (a i))) i.
Proof.
  intros (Ha & Habi & Hv). unfold rd_ins.
  change (op_ord (op i) :: le_bytes 8 (u64 (a i))) with ([op_ord (op i)] ++ le_bytes 8 (u64 (a i))).
  eapply decodes_bind; [apply decodes_u8|].
  rewrite <- (app_nil_r (le_bytes 8 (u64 (a i)))).
  eapply decodes_bind; [by apply decodes_i64|].
  eapply decodes_then; [apply decodes_ensure|].
  { apply negb_true_iff, Z.ltb_ge. pose proof (op_ord_range (op i)).
    destruct (op i); simpl in *; try lia; done. }
  rewrite op_of_ord_ord. destruct i as [o x]. cbn [op a] in *.
  assert (forall n, 0 <= x < n -> negb ((x <? 0) || (n <=? u64 x)) = true) as Hn.
  { intros n Hx. unfold in_i64, two63 in Ha. rewrite u64_id by (unfold in_u64, two64; lia).
    apply negb_true_iff, orb_false_iff. split; [apply Z.ltb_ge; lia|apply Z.leb_gt; lia]. }
  destruct o; cbn [check_operand]; try done;
    (eapply decodes_then; [apply decodes_ensure; by apply Hn|apply decodes_ret]).
Qed.

Lemma decodes_code cl nf nl c :
  Forall (ins_valid cl nf nl) c ->
  decodes (section (length c) 0 [] (rd_ins cl nf nl)) (enc_code c) c.
Proof.
  intros Hc. pose proof (decodes_section (rd_ins cl nf nl)
    (fun _ i => op_ord (op i) :: le_bytes 8 (u64 (a i))) c 0 []) as H. cbn [rev app] in H.
  assert (enc_code c = concat (imap (fun _ i => op_ord (op i) :: le_bytes 8 (u64 (a i))) c)) as ->.
  { unfold enc_code. f_equal. clear. induction c as [|i c IH]; [done|].
    cbn [map]. rewrite imap_cons. f_equal. exact IH. }
  apply H. intros j pre i post -> _. apply decodes_ins.
  by apply Forall_app in Hc as [_ [? _]%Forall_cons_1].
Qed.

Lemma decodes_arrays nl ns : forall pre m,
  Forall (fun n => 0 <= n <= 256) ns -> Z.of_nat (length pre + length ns) <= nl -> nl <= 64 ->
  decodes (rd_arrays (length (List.filter (fun n => 0 <? n) ns)) nl (pre ++ replicate (length ns + m) 0))
    (enc_arrays (Z.of_nat (length pre)) ns) (pre ++ ns ++ replicate m 0).
Proof.
  induction ns as [|n ns IH]; intros pre m Hn Hl H64; cbn [List.filter enc_arrays length Nat.add].
  - apply decodes_ret.
  - apply Forall_cons_1 in Hn as [Hn0 Hn]. cbn [length] in Hl.
    assert (forall v, decodes (rd_arrays (length (List.filter (fun n => 0 <? n) ns)) nl
        ((pre ++ [v]) ++ replicate (length ns + m) 0))
      (enc_arrays (Z.of_nat (length pre) + 1) ns) (pre ++ v :: ns ++ replicate m 0)) as IH'.
    { intros v. specialize (IH (pre ++ [v]) m Hn). rewrite <- (app_assoc pre [v] (ns ++ _)) in IH.
      rewrite length_app in IH. cbn [length] in IH.
      replace (Z.of_nat (length pre) + 1) with (Z.of_nat (length pre + 1)) by lia. apply IH; lia. }
    destruct (Z.eqb_spec n 0) as [->|Hne].
    + cbn [Z.ltb Z.compare app]. change (replicate (S (length ns + m)) 0) with (0 :: replicate (length ns + m) 0).
      specialize (IH' 0). rewrite <- app_assoc in IH'. exact IH'.
    + destruct (Z.ltb_spec 0 n); [|lia]. cbn [length rd_arrays].
      change (Z.of_nat (length pre) :: le_bytes 2 n) with ([Z.of_nat (length pre)] ++ le_bytes 2 n).
      rewrite <- app_assoc.
      eapply decodes_bind; [apply decodes_u8|].
      eapply decodes_bind; [apply decodes_u16; unfold two16; lia|].
      eapply decodes_then; [apply decodes_ensure; apply negb_true_iff, Z.leb_gt; lia|].
      eapply decodes_then; [apply decodes_ensure|].
      { apply negb_true_iff, orb_false_iff. split; [by apply Z.eqb_neq|apply Z.ltb_ge; lia]. }
      eapply decodes_then; [apply decodes_ensure|].
      { rewrite lookupz_nat, lookup_app_r, Nat.sub_diag by lia. done. }
      rewrite Nat2Z.id, insert_app_r_alt, Nat.sub_diag by lia. cbn [replicate list_insert].
      specialize (IH' n). rewrite <- app_assoc in IH'. exact IH'.
Qed.

Lemma count_small ns : (length ns <= 64)%nat ->
  count_arrays ns = Z.of_nat (length (List.filter (fun n => 0 <? n) ns)).
Proof.
  intros Hn. unfold count_arrays. apply u8_id.
  assert (length (List.filter (fun n => (0 <? n)%Z) ns) <= length ns)%nat.
  { clear. induction ns as [|n ns IH]; simpl; [lia|]. destruct (0 <? n); simpl; lia. }
  unfold in_u8, two8. lia.
Qed.

Lemma decodes_fn strings nf j before f :
  fn_valid nf f -> sig_ok f = true -> reject f = [] -> count_arrays (arr_n f) <= 8 ->
  lookupz strings j = Some (fn_name f) -> 0 <= j < 256 ->
  Z.of_nat (ins_total before + length (code f)) <= LIN_BC1_MAX_INS_TOTAL ->
  decodes (rd_fn strings nf j before) (enc_fn j f) f.
Proof.
  intros [Fok Fc Fp Fa Fl Fi] Hsig Hrej Hcnt Hname Hj Htot.
  unfold LIN_BC1_MAX_INS_TOTAL in *. pose proof (lookupz_range _ _ _ Hname).
  unfold rd_fn, enc_fn. rewrite !u32_id, !u8_id by (unfold in_u32, two32, in_u8, two8; lia).
  assert (length (code f) <> 0)%nat as Hc0 by (by destruct (code f)).
  eapply decodes_bind; [apply decodes_u32; unfold in_u32, two32; lia|].
  eapply decodes_then; [apply decodes_ensure; apply negb_true_iff, Z.leb_gt; lia|].
  eapply decodes_bind; [apply decodes_u8|]. eapply decodes_bind; [apply decodes_u8|].
  eapply decodes_bind; [apply decodes_u8|].
  eapply decodes_bind; [apply decodes_u32; unfold in_u32, two32; lia|].
  eapply decodes_then; [apply decodes_ensure; apply negb_true_iff, Z.eqb_neq; lia|].
  eapply decodes_then; [apply decodes_ensure; apply negb_true_iff, orb_false_iff; unfold LIN_BC1_MAX_LOCALS;
    split; apply Z.ltb_ge; lia|].
  eapply decodes_then; [apply decodes_ensure; apply negb_true_iff, Z.ltb_ge; lia|].
  rewrite count_small by lia. rewrite !Nat2Z.id.
  eapply decodes_bind.
  { pose proof (decodes_arrays (Z.of_nat (nlocals f)) (arr_n f) [] (64 - length (arr_n f)) Fl) as Hd.
    cbn [length app Nat.add] in Hd. replace (length (arr_n f) + (64 - length (arr_n f)))%nat with 64%nat in Hd by lia.
    apply Hd; lia. }
  eapply decodes_then; [apply decodes_ensure; apply negb_true_iff, Z.ltb_ge; unfold LIN_BC1_MAX_INS_TOTAL; lia|].
  rewrite <- (app_nil_r (enc_code (code f))).
  eapply decodes_bind; [by apply decodes_code|].
  rewrite Hname. cbn [default]. rewrite <- Fa, take_app_length.
  intros k. destruct f as [nm np nl cd sg okf rj an]. cbn [fn_name nparams nlocals code arr_n sig_ok ok reject] in *. subst. done.
Qed.

Lemma decodes_fns strings nf fs :
  Forall (fn_valid nf) fs -> Forall (fun f => count_arrays (arr_n f) <= 8) fs ->
  Forall (fun f => sig_ok f = true /\ reject f = []) fs ->
  strings = map fn_name fs -> (length fs <= 64)%nat ->
  Z.of_nat (ins_total fs) <= LIN_BC1_MAX_INS_TOTAL ->
  decodes (section (length fs) 0 [] (rd_fn strings nf)) (enc_fns 0 fs) fs.
Proof.
  intros Hv Hc Hform -> Hn Htot.
  pose proof (decodes_section (rd_fn (map fn_name fs) nf) enc_fn fs 0 []) as H. cbn [rev app] in H.
  assert (forall i, enc_fns i fs = concat (imap (fun k f => enc_fn (i + Z.of_nat k) f) fs)) as E.
  { clear. induction fs as [|f fs IH]; intros i; [done|]. cbn [enc_fns]. rewrite imap_cons. cbn [concat].
    rewrite Z.add_0_r. f_equal. rewrite IH. f_equal. apply imap_ext. intros. simpl. f_equal. lia. }
  rewrite E. apply H. intros j pre f post Efs ->. rewrite app_nil_r.
  rewrite Efs in *. apply Forall_app in Hv as [_ [Hv _]%Forall_cons_1].
  apply Forall_app in Hc as [_ [Hc _]%Forall_cons_1].
  apply Forall_app in Hform as [_ [[Hf1 Hf2] _]%Forall_cons_1].
  rewrite length_app in Hn. cbn [length] in Hn.
  apply decodes_fn; try done; try lia.
  - rewrite Z.add_0_l, lookupz_nat, list_lookup_fmap, lookup_app_r, Nat.sub_diag by lia. done.
  - rewrite ins_total_rev. unfold ins_total in *. rewrite sum_list_with_app in Htot. simpl in Htot. lia.
Qed.

Lemma decodes_body m :
  loadable m -> decodes rd_body (drop 6 (enc_body (fns m))) (mkBody 1 (map fn_name (fns m)) [] [] (fns m)).
Proof.
  intros [Ln Lf Li Lna La Lform]. unfold LIN_BC1_MAX_FNS in *.
  assert (drop 6 (enc_body (fns m)) =
    [1] ++ [1] ++ [0] ++ le_bytes 4 (Z.of_nat (length (fns m))) ++ le_bytes 4 (Z.of_nat (length (fns m))) ++
    le_bytes 4 0 ++ le_bytes 4 0 ++ enc_pool (fns m) ++ enc_fns 0 (fns m)) as ->.
  { unfold enc_body. rewrite u32_id by (unfold in_u32, two32; lia). done. }
  unfold rd_body.
  eapply decodes_bind; [apply decodes_u8|]. eapply decodes_then; [by apply decodes_ensure|].
  eapply decodes_bind; [apply decodes_u8|]. eapply decodes_then; [by apply decodes_ensure|].
  eapply decodes_bind; [apply decodes_u8|]. eapply decodes_then; [by apply decodes_ensure|].
  do 4 (eapply decodes_bind; [apply decodes_u32; unfold in_u32, two32; lia|]).
  eapply decodes_then; [apply decodes_ensure|].
  { unfold LIN_BC1_MAX_FNS, LIN_BC1_MAX_REGIONS. apply negb_true_iff. repeat (apply orb_false_iff; split);
      try done; apply Z.ltb_ge; lia. }
  rewrite Nat2Z.id.
  eapply decodes_bind; [by apply decodes_pool|].
  eapply decodes_then; [by apply decodes_ensure|].
  eapply decodes_then; [apply decodes_ret|]. eapply decodes_then; [apply decodes_ret|].
  rewrite <- (app_nil_r (enc_fns 0 (fns m))).
  eapply decodes_bind; [apply decodes_fns; try done; lia|]. apply decodes_ret.
Qed.

Lemma loadable_encodable m : loadable m -> encodable (fns m).
Proof.
  intros [Ln Lf Li Lna La Lform]. split; [|split; [done|]].
  - assert (forall n fs, Forall (fn_valid n) fs -> encode_check fs = None) as Hck.
    { intros n fs. induction 1 as [|f fs [Fok Fc Fp Fa Fl Fi] _ IH]; [done|]. cbn [encode_check].
      rewrite Fok. cbn [negb]. destruct (Nat.eqb_spec (length (code f)) 0) as [E0|]; [by apply length_zero_iff_nil in E0|].
      unfold LIN_VM_MAX_LOCALS.
      destruct (Nat.ltb_spec 255 (nparams f)); [lia|]. destruct (Nat.ltb_spec 64 (nlocals f)); [lia|].
      destruct (Nat.ltb_spec (nlocals f) (nparams f)); [lia|]. exact IH. }
    by eapply Hck.
  - apply Forall_forall. intros f Hf%list_elem_of_In. split; [by apply (Forall_elem _ _ _ La)|].
    apply (Forall_elem _ _ _ Lf) in Hf as [? ? ? Fa ? ?]. rewrite Fa. lia.
Qed.

Section LoadParts.
Context {C : Type} `{StreamHash C} {digest : list Z -> list Z} `{!StreamHashLaws C digest}.

Lemma image_digest_eq b : image_digest b = digest (DOM ++ b).
Proof.
  pose proof (sh_concat (digest := digest) [DOM; b]) as E. cbn [concat] in E.
  rewrite app_nil_r in E. exact E.
Qed.

(** A body followed by its digest is accepted. *)
Lemma load_of_parts b d bd :
  image_digest b = d -> length d = 32%nat -> (25 <= length b)%nat -> take 6 b = MAGIC ->
  rd_body (drop 6 b) = Ok (bd, []) ->
  lin_bc1_load (b ++ d) =
    Ok (mkBc1 (mkModule (bd_fns bd)) (bd_profile bd) (bd_regions bd) (abi_mask (bd_abis bd)) d
          (length (b ++ d))).
Proof.
  intros Hd Ld Lb Hm Hb. unfold lin_bc1_load. rewrite length_app, Ld.
  destruct (Nat.ltb_spec (length b + 32) (25 + 32)); [lia|].
  rewrite (take_app_le _ _ 6), Hm by lia.
  rewrite (proj2 (bytes_eqb_eq MAGIC MAGIC) eq_refl). cbn [negb].
  replace (length b + 32 - 32)%nat with (length b) by lia.
  rewrite take_app_length, drop_app_length, Hb. cbn [length Nat.eqb negb].
  rewrite Hd, (proj2 (bytes_eqb_eq d d) eq_refl). done.
Qed.
End LoadParts.

Lemma enc_body_length fs : (25 <= length (enc_body fs))%nat.
Proof.
  unfold enc_body. rewrite !length_app, !length_le_bytes. change (length MAGIC) with 6%nat. simpl. lia.
Qed.

Lemma image_decodes realloc_ok m :
  loadable m ->
  (exists img, c0_image_encode (C := LinSha256) realloc_ok m = Ok img /\
     (forall ok', (forall n, ok' n = true) -> c0_image_encode (C := LinSha256) ok' m = Ok img) /\
     lin_bc1_load (C := LinSha256) img =
       Ok (mkBc1 m 1 [] (replicate 9 0) (image_digest (C := LinSha256) (enc_body (fns m))) (length img))) \/
  (c0_image_encode (C := LinSha256) realloc_ok m = Err OOM /\ exists n, realloc_ok n = false).
Proof.
  intros Hm. destruct (encode_bytes realloc_ok (C := LinSha256) m (loadable_encodable m Hm)) as [E|E];
    [left|by right].
  eexists. split; [exact E|]. split.
  { intros ok' Hok. destruct (encode_bytes ok' (C := LinSha256) m (loadable_encodable m Hm)) as [->|[_ [n Hn]]];
      [done|]. by rewrite Hok in Hn. }
  rewrite (load_of_parts _ _ (mkBody 1 (map fn_name (fns m)) [] [] (fns m)) eq_refl).
  - by destruct m.
  - rewrite (image_digest_eq (digest := sha256_spec)). apply (sh_length (digest := sha256_spec)).
  - apply enc_body_length.
  - done.
  - pose proof (decodes_body m Hm []) as Hd. by rewrite app_nil_r in Hd.
Qed.

(** C28. The encoder and the loader are inverse of each other: for every module
    within the loader's limits, [c0_image_encode] either reports
    OUT_OF_MEMORY (only when some [realloc] fails) or returns an image that
    [lin_bc1_load] accepts, as profile 1 without regions or host calls, and whose
    module is the one encoded, name by name and instruction by instruction; the
    image does not depend on the allocator. *)
Theorem c0_image_roundtrip realloc_ok m :
  loadable m ->
  (exists img, c0_image_encode (C := LinSha256) realloc_ok m = Ok img /\
     (forall ok', (forall n, ok' n = true) -> c0_image_encode (C := LinSha256) ok' m = Ok img) /\
     lin_bc1_load (C := LinSha256) img =
       Ok (mkBc1 m 1 [] (replicate 9 0) (image_digest (C := LinSha256) (enc_body (fns m))) (length img))) \/
  (c0_image_encode (C := LinSha256) realloc_ok m = Err OOM /\ exists n, realloc_ok n = false).
Proof. exact (image_decodes realloc_ok m). Qed.

Definition two_fns : VmModule :=
  mkModule [ mkFn (cstr "sum") 1 1 (code sum_fn) true true [] [0];
             mkFn (cstr "main") 0 1 [mkIns OP_PUSH_CONST (-3); mkIns OP_CALL 0; mkIns OP_RET 0]
               true true [] [4] ].

#[export] Instance in_i64_dec z : Decision (in_i64 z).
Proof. unfold in_i64. apply _. Defined.

#[export] Instance ins_valid_dec cl nf nl i : Decision (ins_valid cl nf nl i).
Proof.
  unfold ins_valid. apply and_dec; [apply _|]. apply and_dec; [apply _|]. destruct (op i); apply _.
Defined.

(** Validity of a concrete function, by evaluation. *)
Lemma fn_valid_by nf f :
  ok f = true -> code f <> [] -> bool_decide (nparams f <= nlocals f <= 64)%nat = true ->
  bool_decide (length (arr_n f) = nlocals f) = true ->
  bool_decide (Forall (fun n => 0 <= n <= 256) (arr_n f)) = true ->
  bool_decide (Forall (ins_valid (Z.of_nat (length (code f))) nf (Z.of_nat (nlocals f))) (code f)) = true ->
  fn_valid nf f.
Proof. rewrite !bool_decide_eq_true. by constructor. Qed.

Lemma two_fns_loadable : loadable two_fns.
Proof.
  constructor.
  - vm_compute. discriminate.
  - repeat (apply Forall_cons_2; [apply fn_valid_by; try reflexivity; discriminate|]). constructor.
  - vm_compute. discriminate.
  - vm_compute. discriminate.
  - repeat (apply Forall_cons_2; [vm_compute; discriminate|]). constructor.
  - repeat (apply Forall_cons_2; [by split|]). constructor.
Qed.

Lemma c0_image_roundtrip_witness :
  loadable two_fns /\
  ((exists img, c0_image_encode (C := LinSha256) (fun _ => true) two_fns = Ok img) \/
   (c0_image_encode (C := LinSha256) (fun _ => true) two_fns = Err OOM /\ exists n : nat, true = false)).
Proof.
  split; [exact two_fns_loadable|].
  destruct (c0_image_roundtrip (fun _ => true) two_fns two_fns_loadable) as [(img & H & _)|(H & n & E)].
  - left. exists img. exact H.
  - right. split; [exact H|]. exists n. exact E.
Defined.

(** ** What the loader's checks do not give

    [call_overflow] of VmSafe is reachable through the whole chain: the module
    is within the limits, so its image is accepted. *)
Definition overflow_module : VmModule :=
  mkModule [ mkFn (cstr "full") 0 0 (code full_fn) true true [] [];
             mkFn (cstr "seven") 0 0 (code seven_fn) true true [] [] ].

(** An accepted image can drive the interpreter past its operand stack:
    there is an image that [c0_image_encode] writes and [lin_bc1_load] accepts,
    whose first function, called without arguments, makes [vm_exec] write
    [stack[256]] (undefined behaviour): 256 [push_const] then a [call] of a
    function without parameters, the one push that no overflow test guards. *)
Theorem loaded_image_overflows :
  exists img m, c0_image_encode (C := LinSha256) (fun _ => true) overflow_module = Ok img /\
    lin_bc1_load (C := LinSha256) img = Ok m /\
    vm_exec 300 (b_mod m) true (lin_bc1_find_fn m (cstr "full")) [] 0 0 = Some V_ub.
Proof.
  assert (loadable overflow_module) as Hl.
  { constructor.
    - vm_compute. discriminate.
    - repeat (apply Forall_cons_2; [apply fn_valid_by; try reflexivity; discriminate|]). constructor.
    - vm_compute. discriminate.
    - vm_compute. discriminate.
    - repeat (apply Forall_cons_2; [vm_compute; discriminate|]). constructor.
    - repeat (apply Forall_cons_2; [by split|]). constructor. }
  destruct (c0_image_roundtrip (fun _ => true) overflow_module Hl) as [(img & H1 & _ & H2)|(_ & n & E)];
    [|discriminate E].
  exists img. eexists. split; [exact H1|]. split; [exact H2|]. vm_compute. reflexivity.
Qed.
