(* ===== verification/Receipt.v ===== *)
(** * tool/lin_c_receipt.c: the cross-version execution receipt

    The program is a function from its two strings (the expression and the
    environment text, NUL-free byte strings) to what it prints: a rejection with
    its stage, or an evaluated receipt.  The hash is any [StreamHash], so the
    claims on roots hold of the interface, and of SHA-256 by its instance. *)
From stdpp Require Import strings.
From S2P Require Import Prelude Common Token Ast Parse ParseSpec Str Decimal Region Abi Vm VmSpec.
From S2P Require Import VmSafe Lower Sha256.

Definition MAX_ENV : nat := 32.

(** [strchr(p, '=')]: the text before and after. *)
Definition split_eq (p : list Z) : option (list Z * list Z) :=
  let n := run_length (fun c => negb (c =? 61)) p in
  match drop n p with
  | _ :: rest => Some (take n p, rest)
  | [] => None
  end.

(** [parse_env]; each turn leaves fewer bytes, so the length of the text is
    fuel enough ([parse_env_enough]). *)
Fixpoint parse_env (fuel cap : nat) (p : list Z) : list VarBinding :=
  match fuel, cap with
  | S fuel, S cap =>
      match p with
      | [] => []
      | _ =>
          match split_eq p with
          | None => []
          | Some (name, val_start) =>
              if (length name =? 0)%nat || (64 <=? length name)%nat then []
              else
                match strtoll val_start with
                | None => []
                | Some (v, fin) =>
                    mkBinding name v ::
                    match fin with
                    | [] => []
                    | c :: fin => if c =? 44 then parse_env fuel cap fin else []
                    end
                end
          end
      end
  | _, _ => []
  end.

(** [code_img]: opcode ordinal, then the operand little-endian. *)
Definition ins_image (i : VmIns) : list Z :=
  u8 (Z.land (op_ord (op i)) 255) :: le_bytes 8 (u64 (a i)).

Definition code_image (c : LoweredCode) : list Z := concat (map ins_image c).

Definition exec_text (r : VmExecResult) (steps : Z) : list Z :=
  fmt_i64 (val r) ++ [58] ++ fmt_u64 steps ++ [58] ++ fmt_u64 (Z.of_nat (sp_at_ret r)).

Inductive stage : Type := ST_parse | ST_eval | ST_lower | ST_vm.

Record receipt : Type := mkReceipt {
  r_ast_val : Z;
  r_result : VmExecResult;
  r_steps : Z;
  r_code : LoweredCode;
  r_code_sha : list Z;
  r_root : list Z
}.

Inductive verdict : Type :=
| Rejected (s : stage) (e : LinErr)
| Evaluated (r : receipt).

Section Receipt.
Context {C : Type} `{StreamHash C}.

Definition leaf (domain data : list Z) : list Z :=
  sh_final (sh_update (sh_update sh_init domain) data).

Definition node (l r : list Z) : list Z :=
  sh_final (sh_update (sh_update (sh_update sh_init (cstr "node:")) l) r).

(** Steps 5 and 6: the leaves and the root. *)
Definition receipt_root (expr env_spec code_img exec : list Z) : list Z :=
  let leaf_source := leaf (cstr "lin:xver:source:") expr in
  let leaf_env := leaf (cstr "lin:xver:env:") env_spec in
  let leaf_code := leaf (cstr "lin:xver:code:") code_img in
  let leaf_exec := leaf (cstr "lin:xver:exec:") exec in
  node (node leaf_source leaf_env) (node leaf_code leaf_exec).

(** The function [xver_expr] of step 4. *)
Definition xver_fn (env : list VarBinding) (c : LoweredCode) : VmFn :=
  mkFn (cstr "xver_expr") (length env) (length env) c true true [] [].

(** [main] after its arguments; [None] is a model out of fuel or a C undefined
    behaviour, which [receipt_total] excludes. *)
Definition receipt_run (fuel : nat) (calloc : bool) (expr env_spec : list Z) : option verdict :=
  let env := parse_env (length env_spec) MAX_ENV env_spec in
  match parse_full fuel (parser_init expr) with
  | None => None
  | Some (Err e) => Some (Rejected ST_parse e)
  | Some (Ok (root, p)) =>
      match ast_arena_eval LIN_ARENA_CAP (p_arena p) root env with
      | None => None
      | Some (Err e) => Some (Rejected ST_eval e)
      | Some (Ok ast_val) =>
          match lower_arena LIN_ARENA_CAP (p_arena p) root env with
          | None => None
          | Some (Err e) => Some (Rejected ST_lower e)
          | Some (Ok lc) =>
              match vm_exec (length lc + 1) (mkModule [xver_fn env lc]) calloc 0
                      (map vb_val env) 0 0 with
              | Some (V_ok res steps) =>
                  Some (Evaluated (mkReceipt ast_val res steps lc
                    (leaf (cstr "lin:xver:code:") (code_image lc))
                    (receipt_root expr env_spec (code_image lc) (exec_text res steps))))
              | Some (V_err e _) => Some (Rejected ST_vm e)
              | Some V_ub | None => None
              end
          end
      end
  end.

(** The exit code. *)
Definition exit_code (v : verdict) : Z :=
  match v with Rejected _ _ => 2 | Evaluated _ => 0 end.

(** The line printed. *)
Definition stage_name (s : stage) : list Z :=
  cstr (match s with ST_parse => "parse" | ST_eval => "eval" | ST_lower => "lower" | ST_vm => "vm" end).

Definition quoted (s : list Z) : list Z := [34] ++ s ++ [34].

Definition receipt_line (expr env_spec : list Z) (v : verdict) : list Z :=
  match v with
  | Rejected s e =>
      cstr "@LIN:XVER:1.0 engine=" ++ quoted (cstr "C") ++ cstr " status=" ++ quoted (cstr "REJECTED") ++
      cstr " stage=" ++ quoted (stage_name s) ++ cstr " error=" ++ quoted (cstr (lin_err_name (Some e))) ++
      cstr " expr=" ++ quoted expr ++ cstr " env=" ++ quoted env_spec ++ [10]
  | Evaluated r =>
      cstr "@LIN:XVER:1.0 engine=" ++ quoted (cstr "C") ++ cstr " status=" ++ quoted (cstr "EVALUATED") ++
      cstr " expr=" ++ quoted expr ++ cstr " env=" ++ quoted env_spec ++
      cstr " ast_val=" ++ fmt_i64 (r_ast_val r) ++ cstr " result=" ++ fmt_i64 (val (r_result r)) ++
      cstr " steps=" ++ fmt_u64 (r_steps r) ++
      cstr " sp_at_ret=" ++ fmt_u64 (Z.of_nat (sp_at_ret (r_result r))) ++
      cstr " insts=" ++ fmt_u64 (Z.of_nat (length (r_code r))) ++
      cstr " code_sha256=" ++ quoted (lin_sha256_hex (r_code_sha r)) ++
      cstr " root=" ++ quoted (cstr "sha256:" ++ lin_sha256_hex (r_root r)) ++ [10]
  end.
End Receipt.

(** The default expression of the README's walkthrough. *)
Example receipt_default :
  match receipt_run 200 true (cstr "x * y + z") (cstr "x=10,y=20,z=5,x1=15") with
  | Some (Evaluated r) => val (r_result r) = 205 /\ r_steps r = 6 /\ r_ast_val r = 205
  | _ => False
  end.
Proof. vm_compute. repeat split. Qed.

(** ** The environment text *)

Lemma parse_env_ok fuel cap p :
  env_ok (parse_env fuel cap p) /\ (length (parse_env fuel cap p) <= cap)%nat.
Proof.
  revert cap p. induction fuel as [|fuel IH]; intros [|cap] p; cbn [parse_env];
    try (split; [constructor|simpl; lia]).
  destruct p as [|c p]; [split; [constructor|simpl; lia]|].
  destruct (split_eq (c :: p)) as [[name vs]|]; [|split; [constructor|simpl; lia]].
  destruct (_ || _); [split; [constructor|simpl; lia]|].
  destruct (strtoll vs) as [[v fin]|] eqn:E; [|split; [constructor|simpl; lia]].
  apply strtoll_range in E. destruct fin as [|d fin].
  - split; [constructor; [done|constructor]|simpl; lia].
  - destruct (d =? 44); [|split; [constructor; [done|constructor]|simpl; lia]].
    destruct (IH cap fin). split; [by constructor|simpl; lia].
Qed.

Lemma strtoll_shorter p v rest : strtoll p = Some (v, rest) -> (length rest < length p)%nat.
Proof.
  unfold strtoll. set (q := drop (run_length is_space p) p).
  assert (length q <= length p)%nat by (unfold q; rewrite length_drop; lia).
  destruct q as [|c q']; [done|]. cbn [length] in *.
  assert (forall l, (length l <= length p)%nat -> run_length is_digit l <> O ->
    (length (drop (run_length is_digit l) l) < length p)%nat) as Hd.
  { intros l Hl Hn. pose proof (run_length_le is_digit l). rewrite length_drop. lia. }
  destruct (c =? 45); [|destruct (c =? 43)]; cbn iota beta;
    (match goal with |- context [run_length is_digit ?l] =>
       destruct (Nat.eqb_spec (run_length is_digit l) 0); [done|]; intros Hq;
       replace rest with (drop (run_length is_digit l) l) by congruence end;
     apply Hd; [cbn [length]; lia|done]).
Qed.

Lemma split_eq_shorter p name rest : split_eq p = Some (name, rest) -> (length rest < length p)%nat.
Proof.
  unfold split_eq. destruct (drop _ p) as [|c l] eqn:E; [done|]. intros [= _ <-].
  apply (f_equal length) in E. rewrite length_drop in E. cbn [length] in E. lia.
Qed.

(** The fuel of [parse_env] is enough: more gives the same bindings. *)
Lemma parse_env_enough fuel k cap p :
  (length p <= fuel)%nat -> (length p <= k)%nat -> parse_env fuel cap p = parse_env k cap p.
Proof.
  revert k cap p. induction fuel as [|fuel IH]; intros k cap p Hf Hk.
  - destruct p; [|simpl in Hf; lia]. by destruct k, cap.
  - destruct k as [|k]; [destruct p; [by destruct cap|simpl in Hk; lia]|].
    destruct cap as [|cap]; [done|]. cbn [parse_env]. destruct p as [|c p]; [done|].
    destruct (split_eq (c :: p)) as [[name vs]|] eqn:E1; [|done].
    destruct (_ || _); [done|]. destruct (strtoll vs) as [[v fin]|] eqn:E2; [|done].
    apply split_eq_shorter in E1. apply strtoll_shorter in E2. cbn [length] in *.
    f_equal. destruct fin as [|d fin]; [done|]. destruct (d =? 44); [|done].
    cbn [length] in E2. apply IH; lia.
Qed.

(** ** Canonical texts are unambiguous *)

Lemma ins_image_inj i j k l :
  in_i64 (a i) -> in_i64 (a j) -> ins_image i ++ k = ins_image j ++ l -> i = j /\ k = l.
Proof.
  intros Hi Hj H. unfold ins_image in H. cbn [app] in H.
  remember (le_bytes 8 (u64 (a i))) as bi eqn:Ei. remember (le_bytes 8 (u64 (a j))) as bj eqn:Ej.
  injection H as Ho H1.
  apply app_inj_1 in H1 as [Ha Hk]; [|subst; by rewrite !length_le_bytes]. subst bi bj.
  split; [|done]. pose proof (op_ord_range (op i)). pose proof (op_ord_range (op j)).
  rewrite !land_255, !(Z.mod_small (op_ord _)), !u8_id in Ho by (unfold in_u8, two8; lia).
  apply op_ord_inj in Ho. apply le64_inj in Ha; [|done..].
  destruct i, j. by simplify_eq/=.
Qed.

Definition operands_ok (c : LoweredCode) : Prop := Forall (fun i => in_i64 (a i)) c.

Lemma code_image_inj c1 : forall c2,
  operands_ok c1 -> operands_ok c2 -> code_image c1 = code_image c2 -> c1 = c2.
Proof.
  induction c1 as [|i c1 IH]; intros [|j c2] H1 H2 H; try done.
  apply Forall_cons_1 in H1 as [Hi H1]. apply Forall_cons_1 in H2 as [Hj H2].
  unfold code_image in H. cbn [map concat] in H. apply ins_image_inj in H as [-> H]; [|done..].
  f_equal. by apply IH.
Qed.

(** Two texts cut at the first separator. *)
Lemma sep_inj (s : Z) l1 r1 l2 r2 :
  ~ s ∈ l1 -> ~ s ∈ l2 -> l1 ++ s :: r1 = l2 ++ s :: r2 -> l1 = l2 /\ r1 = r2.
Proof.
  revert l2. induction l1 as [|x l1 IH]; intros [|y l2] H1 H2 H; simpl in H.
  - by injection H.
  - injection H as -> _. exfalso. apply H2. by left.
  - injection H as <- _. exfalso. apply H1. by left.
  - injection H as -> H. apply IH in H as [-> ->]; [done| |]; intros ?; [apply H1|apply H2]; by right.
Qed.

Lemma digits_no_colon l : forallb is_digit l = true -> ~ 58 ∈ l.
Proof.
  intros H Hin. apply forallb_forall with (x := 58) in H; [by vm_compute in H|].
  by apply list_elem_of_In.
Qed.

Lemma fmt_i64_no_colon x : in_i64 x -> ~ 58 ∈ fmt_i64 x.
Proof.
  unfold in_i64, two63, fmt_i64. intros Hx. destruct (Z.ltb_spec x 0).
  - intros [?|Hin]%elem_of_cons; [done|]. revert Hin. apply digits_no_colon, fmt_u64_spec.
    unfold in_u64, two64. lia.
  - apply digits_no_colon, fmt_u64_spec. unfold in_u64, two64. lia.
Qed.

Lemma exec_text_inj r1 s1 r2 s2 :
  in_i64 (val r1) -> in_i64 (val r2) -> in_u64 s1 -> in_u64 s2 ->
  (sp_at_ret r1 <= LIN_VM_MAX_STACK)%nat -> (sp_at_ret r2 <= LIN_VM_MAX_STACK)%nat ->
  exec_text r1 s1 = exec_text r2 s2 -> r1 = r2 /\ s1 = s2.
Proof.
  intros V1 V2 S1 S2 P1 P2 H. unfold exec_text in H. cbn [app] in H.
  apply sep_inj in H as [Hv H]; [|by apply fmt_i64_no_colon..].
  apply sep_inj in H as [Hs H]; [|by apply digits_no_colon, fmt_u64_spec..].
  apply fmt_i64_inj in Hv; [|done..]. apply fmt_u64_inj in Hs; [|done..].
  unfold LIN_VM_MAX_STACK in *.
  apply fmt_u64_inj in H; [|unfold in_u64, two64; lia..].
  destruct r1, r2; simpl in *. split; [f_equal; [done|lia]|done].
Qed.

(** ** Evaluated receipts *)

Lemma compile_operands env e :
  lits_ok e -> (length env <= LIN_VM_MAX_LOCALS)%nat -> operands_ok (compile env e).
Proof.
  intros Hl He. unfold operands_ok. induction e as [w|x|e IH|e IH|b l IHl r IHr|x args]; simpl in *.
  - by apply Forall_singleton.
  - apply Forall_singleton, in_i64_small. simpl.
    destruct (env_index env x) as [k|] eqn:E; simpl; [|lia].
    apply env_index_lt in E. unfold LIN_VM_MAX_LOCALS in He. lia.
  - auto.
  - apply Forall_app. split; [auto|]. by apply Forall_singleton, in_i64_small.
  - destruct Hl. apply Forall_app. split; [auto|]. apply Forall_app. split; [auto|].
    by apply Forall_singleton, in_i64_small.
  - constructor.
Qed.

Section Receipts.
Context {C : Type} `{StreamHash C} {digest : list Z -> list Z}.

(** What a finished run is. *)
Definition receipt_ok (v : verdict) : Prop :=
  match v with
  | Rejected s _ => s = ST_parse \/ s = ST_eval
  | Evaluated r =>
      val (r_result r) = r_ast_val r /\ sp_at_ret (r_result r) = 1%nat /\
      r_steps r = Z.of_nat (length (r_code r)) /\ (length (r_code r) <= LIN_ARENA_CAP + 1)%nat /\
      in_i64 (r_ast_val r) /\ operands_ok (r_code r)
  end.

Lemma receipt_run_ok fuel expr env_spec :
  (6 * length expr + 3 <= fuel)%nat ->
  exists v, receipt_run fuel true expr env_spec = Some v /\ receipt_ok v.
Proof.
  intros Hf. unfold receipt_run. set (env := parse_env _ MAX_ENV env_spec).
  destruct (parse_env_ok (length env_spec) MAX_ENV env_spec) as [He Hlen]. fold env in He, Hlen.
  assert (length env <= LIN_VM_MAX_LOCALS)%nat as Hlen' by (unfold MAX_ENV, LIN_VM_MAX_LOCALS in *; lia).
  pose proof (parse_full_not_none fuel expr Hf) as Hnn.
  destruct (parse_full fuel (parser_init expr)) as [[[root p]|e]|] eqn:Hp; [| |done];
    [|eexists; split; [done|by left]].
  destruct (parsed_tree _ _ _ _ Hp) as (t & Hr & Hl & Hs).
  pose proof (eheight_esize t). pose proof (compile_length env t).
  rewrite (ast_eval_repr _ _ t env) by (done || lia).
  destruct (eval_expr env t) as [v|e] eqn:Ev; [|eexists; split; [done|by right]].
  pose proof (eval_not_closed _ _ _ Ev) as Hc.
  rewrite (lower_arena_repr _ _ t) by done. rewrite Hc.
  pose proof (exec_lowered (mkModule [xver_fn env (compile env t ++ [mkIns OP_RET 0])])
    (xver_fn env (compile env t ++ [mkIns OP_RET 0])) t env eq_refl ltac:(by constructor)
    Hc Hl He Hlen' Hs) as Hx. rewrite Ev in Hx. cbv zeta in Hx. rewrite Hx.
  eexists. split; [done|]. cbn [receipt_ok r_result r_ast_val r_steps r_code val sp_at_ret].
  split_and!; try done.
  - rewrite length_app. cbn [length]. lia.
  - by eapply eval_expr_range.
  - apply Forall_app. split; [by apply compile_operands|]. by apply Forall_singleton, in_i64_small.
Qed.

Context `{!StreamHashLaws C digest}.

Lemma leaf_digest d m : leaf d m = digest (d ++ m).
Proof. pose proof (sh_concat (digest := digest) [d; m]) as E. simpl in E. by rewrite app_nil_r in E. Qed.

Lemma node_digest l r : node l r = digest (cstr "node:" ++ l ++ r).
Proof.
  pose proof (sh_concat (digest := digest) [cstr "node:"; l; r]) as E.
  unfold node. unfold sh_parts in E. cbn [fold_left concat] in E. by rewrite app_nil_r in E.
Qed.

Lemma leaf_inj d m1 m2 : leaf d m1 = leaf d m2 -> m1 = m2 \/ collision digest.
Proof.
  rewrite !leaf_digest. intros [E|]%digest_inj; [left|by right]. by apply app_inv_head in E.
Qed.

Lemma node_inj l1 r1 l2 r2 :
  length l1 = length l2 -> node l1 r1 = node l2 r2 -> (l1 = l2 /\ r1 = r2) \/ collision digest.
Proof.
  intros Hl. rewrite !node_digest. intros [E|]%digest_inj; [left|by right].
  apply app_inv_head in E. by apply app_inj_1 in E.
Qed.

Lemma receipt_root_inj e1 v1 c1 x1 e2 v2 c2 x2 :
  receipt_root e1 v1 c1 x1 = receipt_root e2 v2 c2 x2 ->
  (e1 = e2 /\ v1 = v2 /\ c1 = c2 /\ x1 = x2) \/ collision digest.
Proof.
  unfold receipt_root.
  assert (forall l r, length (node l r) = 32%nat) as Hn.
  { intros. rewrite node_digest. apply (sh_length (digest := digest)). }
  assert (forall d m, length (leaf d m) = 32%nat) as Hl.
  { intros. rewrite leaf_digest. apply (sh_length (digest := digest)). }
  intros [[E1 E2]|]%node_inj; [|by right|by rewrite !Hn].
  apply node_inj in E1 as [[E1a E1b]|]; [|by right|by rewrite !Hl].
  apply node_inj in E2 as [[E2a E2b]|]; [|by right|by rewrite !Hl].
  apply leaf_inj in E1a as [->|]; [|by right]. apply leaf_inj in E1b as [->|]; [|by right].
  apply leaf_inj in E2a as [->|]; [|by right]. apply leaf_inj in E2b as [->|]; [|by right].
  by left.
Qed.
End Receipts.

(** A receipt never contradicts itself: for every pair of strings the
    pipeline ends with a verdict; it can only reject at the parse or the eval
    stage (never while lowering or in the VM), and an evaluated receipt has
    result = ast_val (the two evaluators agree), exactly one stack entry at
    return, and as many steps as instructions, at most 257. *)
Theorem receipt_consistent fuel expr env_spec :
  (6 * length expr + 3 <= fuel)%nat ->
  exists v, receipt_run (C := LinSha256) fuel true expr env_spec = Some v /\
  match v with
  | Rejected s _ => s = ST_parse \/ s = ST_eval
  | Evaluated r =>
      val (r_result r) = r_ast_val r /\ sp_at_ret (r_result r) = 1%nat /\
      r_steps r = Z.of_nat (length (r_code r)) /\ (length (r_code r) <= LIN_ARENA_CAP + 1)%nat
  end.
Proof.
  intros Hf. destruct (receipt_run_ok (C := LinSha256) fuel expr env_spec Hf) as (v & Hv & Hok).
  exists v. split; [done|]. destruct v; [done|]. destruct Hok as (? & ? & ? & ? & _). by split_and!.
Qed.

Lemma receipt_consistent_witness :
  (6 * length (cstr "x % (1 - 1)") + 3 <= 100)%nat /\
  exists v, receipt_run (C := LinSha256) 100 true (cstr "x % (1 - 1)") (cstr "x=-7") = Some v.
Proof.
  assert (6 * length (cstr "x % (1 - 1)") + 3 <= 100)%nat as H by (vm_compute; lia).
  split; [exact H|]. destruct (receipt_consistent 100 _ (cstr "x=-7") H) as (v & Hv & _).
  exists v. exact Hv.
Defined.

Lemma evaluated_texts {C} `{StreamHash C} fuel expr env_spec r :
  receipt_run fuel true expr env_spec = Some (Evaluated r) ->
  r_root r = receipt_root expr env_spec (code_image (r_code r)) (exec_text (r_result r) (r_steps r)).
Proof.
  unfold receipt_run. set (env := parse_env _ _ _). intros E.
  destruct (parse_full fuel (parser_init expr)) as [[[root p]|]|]; try discriminate E.
  destruct (ast_arena_eval _ _ _ _) as [[v|]|]; try discriminate E.
  destruct (lower_arena _ _ _ _) as [[lc|]|]; try discriminate E.
  destruct (vm_exec _ _ _ _ _ _ _) as [[res steps|e s|]|]; try discriminate E.
  by injection E as <-.
Qed.


Lemma receipt_42 :
  match receipt_run (C := LinSha256) 100 true (cstr "6*7") [] with
  | Some (Evaluated r) => val (r_result r) = 42
  | _ => False
  end.
Proof. vm_compute. reflexivity. Qed.

