(* ===== verification/Sys.v ===== *)
(** * The store's environment: allocation, files, and a state-and-error monad

    The operations of store_c0.c change a state, call the allocator and the
    operating system, and return early with an error code, keeping whatever they
    had changed so far.  [M S A] is such an operation over the state [S]:
    [Done a s t] is a normal return, [Fail e s t] an early [return e], and
    [Stuck] an access C leaves undefined (or a model out of fuel; the theorems
    exclude both).  Each call into the environment is numbered: the answers of
    an [Env] are indexed by that clock [t]. *)
From S2P Require Import Prelude.

Inductive StoreErr : Type :=
| STORE_ERR_INVALID_ARG | STORE_ERR_NOT_FOUND | STORE_ERR_LIMIT_KEY | STORE_ERR_LIMIT_VAL
| STORE_ERR_LIMIT_WAL | STORE_ERR_IO | STORE_ERR_LOCKED | STORE_ERR_CORRUPT
| STORE_ERR_CHK_MISMATCH | STORE_ERR_NOMEM.

#[export] Instance StoreErr_eq_dec : EqDecision StoreErr.
Proof. solve_decision. Defined.

(** The integer value; [None] is STORE_OK. *)
Definition store_code (r : option StoreErr) : Z :=
  match r with
  | None => 0
  | Some STORE_ERR_INVALID_ARG => -1 | Some STORE_ERR_NOT_FOUND => -2
  | Some STORE_ERR_LIMIT_KEY => -3 | Some STORE_ERR_LIMIT_VAL => -4
  | Some STORE_ERR_LIMIT_WAL => -5 | Some STORE_ERR_IO => -6
  | Some STORE_ERR_LOCKED => -7 | Some STORE_ERR_CORRUPT => -8
  | Some STORE_ERR_CHK_MISMATCH => -9 | Some STORE_ERR_NOMEM => -10
  end.

(** What the environment answers to its [t]-th call: whether an allocation
    succeeds, whether a system call does, and how many bytes a failing write
    has transferred. *)
Class Env : Type := {
  alloc_ok : nat -> bool;
  io_ok : nat -> bool;
  io_count : nat -> nat
}.

(** An environment in which nothing fails. *)
Definition calm : Env :=
  {| alloc_ok := fun _ => true; io_ok := fun _ => true; io_count := fun _ => O |}.

Inductive outcome (S A : Type) : Type :=
| Done (a : A) (s : S) (t : nat)
| Fail (e : StoreErr) (s : S) (t : nat)
| Stuck.
Arguments Done {S A} a s t.
Arguments Fail {S A} e s t.
Arguments Stuck {S A}.

Definition M (S A : Type) : Type := S -> nat -> outcome S A.

#[export] Instance M_ret {S} : MRet (M S) := fun _ a s t => Done a s t.
#[export] Instance M_bind {S} : MBind (M S) := fun _ _ k m s t =>
  match m s t with
  | Done a s t => k a s t
  | Fail e s t => Fail e s t
  | Stuck => Stuck
  end.

Definition raise {S A} (e : StoreErr) : M S A := fun s t => Fail e s t.
Definition stuck {S A} : M S A := fun _ _ => Stuck.
Definition get {S} : M S S := fun s t => Done s s t.
Definition modify {S} (f : S -> S) : M S unit := fun s t => Done tt (f s) t.
Definition of_option {S A} (o : option A) : M S A :=
  match o with Some a => mret a | None => stuck end.

(** [malloc], [realloc]: NULL is returned as STORE_ERR_NOMEM by every caller. *)
Definition malloc `{Env} {S} : M S unit := fun s t =>
  if alloc_ok t then Done tt s (t + 1)%nat else Fail STORE_ERR_NOMEM s (t + 1)%nat.

(** Whether the next system call succeeds. *)
Definition io `{Env} {S} : M S bool := fun s t => Done (io_ok t) s (t + 1)%nat.

(** An operation on a component of the state. *)
Definition zoom {S T A} (g : S -> T) (p : T -> S -> S) (m : M T A) : M S A := fun s t =>
  match m (g s) t with
  | Done a x t => Done a (p x s) t
  | Fail e x t => Fail e (p x s) t
  | Stuck => Stuck
  end.

(** A cleanup that follows an operation whether it fails or not. *)
Definition on_fail {S A} (m : M S A) (f : S -> S) : M S A := fun s t =>
  match m s t with
  | Fail e s t => Fail e (f s) t
  | r => r
  end.

(** ** Triples

    [triple P m Q E]: from a state satisfying [P], [m] is never stuck, a normal
    return satisfies [Q], an early one [E]. *)
Definition triple {S A} (P : S -> Prop) (m : M S A) (Q : A -> S -> Prop) (E : StoreErr -> S -> Prop) : Prop :=
  forall s t, P s ->
    match m s t with
    | Done a s _ => Q a s
    | Fail e s _ => E e s
    | Stuck => False
    end.

Lemma triple_weaken {S A} (P P' : S -> Prop) (m : M S A) (Q Q' : A -> S -> Prop) (E E' : StoreErr -> S -> Prop) :
  triple P m Q E -> (forall s, P' s -> P s) -> (forall a s, Q a s -> Q' a s) ->
  (forall e s, E e s -> E' e s) -> triple P' m Q' E'.
Proof.
  intros H HP HQ HE s t Hs. specialize (H s t (HP s Hs)). destruct (m s t); auto.
Qed.

Lemma triple_from {S A} (P P' : S -> Prop) (m : M S A) Q E :
  triple P m Q E -> (forall s, P' s -> P s) -> triple P' m Q E.
Proof. intros H HP s t Hs. apply H, HP, Hs. Qed.

Lemma triple_bind {S A B} P (m : M S A) (k : A -> M S B) R Q E :
  triple P m R E -> (forall a, triple (R a) (k a) Q E) -> triple P (m ≫= k) Q E.
Proof.
  intros Hm Hk s t Hs. specialize (Hm s t Hs). unfold mbind, M_bind.
  destruct (m s t) as [a s' t'|e s' t'|]; [|done|done]. apply (Hk a s' t' Hm).
Qed.

Lemma triple_ret {S A} (a : A) (P : S -> Prop) Q E :
  (forall s, P s -> Q a s) -> triple P (mret a) Q E.
Proof. intros H s t Hs. apply H, Hs. Qed.

Lemma triple_raise {S A} e (P : S -> Prop) (Q : A -> S -> Prop) (E : StoreErr -> S -> Prop) :
  (forall s, P s -> E e s) -> triple P (raise e) Q E.
Proof. intros H s t Hs. apply H, Hs. Qed.

Lemma triple_modify {S} (f : S -> S) (P : S -> Prop) (Q : unit -> S -> Prop) E :
  (forall s, P s -> Q tt (f s)) -> triple P (modify f) Q E.
Proof. intros H s t Hs. apply H, Hs. Qed.

(** Some call of the environment did fail. *)
Definition alloc_failed `{Env} : Prop := exists u, alloc_ok u = false.
Definition io_failed `{Env} : Prop := exists u, io_ok u = false.

Lemma triple_malloc `{Env} {S} (P : S -> Prop) (E : StoreErr -> S -> Prop) :
  (forall s, P s -> alloc_failed -> E STORE_ERR_NOMEM s) -> triple P malloc (fun _ => P) E.
Proof.
  intros HE s t Hs. unfold malloc. destruct (alloc_ok t) eqn:Ea; [done|].
  apply HE; [done|by exists t].
Qed.

Lemma triple_io `{Env} {S} (P : S -> Prop) E :
  triple P io (fun b s => P s /\ (b = false -> io_failed)) E.
Proof. intros s t Hs. split; [done|]. intros Hb. by exists t. Qed.

Lemma triple_zoom {S T A} (g : S -> T) (p : T -> S -> S) (m : M T A)
    (P : S -> Prop) (Q : A -> S -> Prop) (E : StoreErr -> S -> Prop)
    (P' : T -> T -> Prop) (Q' : T -> A -> T -> Prop) (E' : T -> StoreErr -> T -> Prop) :
  (forall x, triple (P' x) m (Q' x) (E' x)) ->
  (forall s, P s -> P' (g s) (g s)) ->
  (forall s a y, P s -> Q' (g s) a y -> Q a (p y s)) ->
  (forall s e y, P s -> E' (g s) e y -> E e (p y s)) ->
  triple P (zoom g p m) Q E.
Proof.
  intros Hm HP HQ HE s t Hs. unfold zoom. specialize (Hm (g s) (g s) t (HP s Hs)).
  destruct (m (g s) t); eauto.
Qed.

(** Splitting a precondition, and reading it as a hypothesis. *)
Lemma triple_pre {S A} (P : S -> Prop) (X : Prop) (m : M S A) Q E :
  (forall s, P s -> X) -> (X -> triple P m Q E) -> triple P m Q E.
Proof. intros HX H s t Hs. by apply H; [apply (HX s)|]. Qed.

Lemma triple_at {S A} (P : S -> Prop) (m : M S A) Q E :
  (forall s, P s -> triple (fun x => x = s) m Q E) -> triple P m Q E.
Proof. intros H s t Hs. by apply (H s Hs). Qed.

(** The binds the proofs meet, each with the precondition it leaves. *)
Lemma bind_get {S A} (P : S -> Prop) (k : S -> M S A) Q E :
  (forall s, P s -> triple (fun x => x = s) (k s) Q E) -> triple P (get ≫= k) Q E.
Proof. intros H s t Hs. by apply (H s Hs s t). Qed.

Lemma bind_option {S A B} (o : option A) a (P : S -> Prop) (k : A -> M S B) Q E :
  o = Some a -> triple P (k a) Q E -> triple P (of_option o ≫= k) Q E.
Proof. intros -> H s t Hs. by apply (H s t). Qed.

Lemma bind_malloc `{Env} {S A} (P : S -> Prop) (k : unit -> M S A) Q E :
  (forall s, P s -> alloc_failed -> E STORE_ERR_NOMEM s) ->
  triple P (k tt) Q E -> triple P (malloc ≫= k) Q E.
Proof. intros HE Hk. eapply triple_bind; [by apply triple_malloc|]. by intros []. Qed.

Lemma bind_io `{Env} {S A} (P : S -> Prop) (k : bool -> M S A) Q E :
  triple P (k true) Q E -> (io_failed -> triple P (k false) Q E) -> triple P (io ≫= k) Q E.
Proof.
  intros Ht Hf. eapply triple_bind; [apply triple_io|]. intros [].
  - eapply triple_weaken; [exact Ht|by intros s []|done|done].
  - intros s t [Hs Hb]. by apply Hf; [apply Hb|].
Qed.

Lemma bind_modify {S A} (f : S -> S) (P P' : S -> Prop) (k : unit -> M S A) Q E :
  (forall s, P s -> P' (f s)) -> triple P' (k tt) Q E -> triple P (modify f ≫= k) Q E.
Proof. intros Hf Hk s t Hs. by apply (Hk (f s) t), Hf. Qed.
