(* ===== verification/Memtable.v ===== *)
(** * store_c0.c: keys and the sorted in-memory table

    A [MemTable] is its live entries (the C [count] is their number) and the
    capacity of the array; a key or value buffer is its bytes, whose length is
    the C length field. *)
From stdpp Require Import gmap sorting.
From S2P Require Import Prelude Sys.

(** ** Little-endian fields *)

Definition write_u16_le (v : Z) : list Z := [Z.land v 255; Z.land (Z.shiftr v 8) 255].
Definition write_u32_le (v : Z) : list Z :=
  [Z.land v 255; Z.land (Z.shiftr v 8) 255; Z.land (Z.shiftr v 16) 255; Z.land (Z.shiftr v 24) 255].
Definition write_u64_le (v : Z) : list Z :=
  map (fun i => Z.land (Z.shiftr v (i * 8)) 255) [0; 1; 2; 3; 4; 5; 6; 7].

(** [p[i]] of a buffer long enough. *)
Definition byte_at (p : list Z) (i : nat) : Z := nth i p 0.
Definition read_u16_le (p : list Z) : Z := Z.lor (byte_at p 0) (Z.shiftl (byte_at p 1) 8).
Definition read_u32_le (p : list Z) : Z :=
  Z.lor (Z.lor (Z.lor (byte_at p 0) (Z.shiftl (byte_at p 1) 8)) (Z.shiftl (byte_at p 2) 16))
    (Z.shiftl (byte_at p 3) 24).
Definition read_u64_le (p : list Z) : Z :=
  fold_left (fun v i => Z.lor v (Z.shiftl (byte_at p i) (Z.of_nat i * 8))) [0; 1; 2; 3; 4; 5; 6; 7]%nat 0.

(** ** Keys *)

(** [memcmp(a, b, n)]: the difference of the first two bytes that differ. *)
Fixpoint memcmp (n : nat) (a b : list Z) : Z :=
  match n, a, b with
  | S n, x :: a, y :: b => if x =? y then memcmp n a b else x - y
  | _, _, _ => 0
  end.

Definition key_compare (k1 k2 : list Z) : Z :=
  let min_len := if (length k1 <? length k2)%nat then length k1 else length k2 in
  let cmp := memcmp min_len k1 k2 in
  if negb (cmp =? 0) then cmp
  else if (length k1 <? length k2)%nat then -1
  else if (length k2 <? length k1)%nat then 1
  else 0.

(** ** The table *)

Record MemEntry : Type := mkEntry { e_key : list Z; e_val : list Z }.
Record MemTable : Type := mkTable { entries : list MemEntry; capacity : nat }.

Definition memtable_init : MemTable := mkTable [] 0.
Definition memtable_free (mt : MemTable) : MemTable := memtable_init.

(** The binary search: the index and [*found]; [None] out of fuel. *)
Fixpoint find_loop (fuel : nat) (es : list MemEntry) (key : list Z) (low high : nat) : option (nat * bool) :=
  match fuel with
  | O => None
  | S fuel =>
      if (low <? high)%nat then
        let mid := (low + (high - low) / 2)%nat in
        e ← es !! mid;
        let cmp := key_compare (e_key e) key in
        if cmp =? 0 then Some (mid, true)
        else if cmp <? 0 then find_loop fuel es key (mid + 1) high
        else find_loop fuel es key low mid
      else Some (low, false)
  end.

Definition memtable_find (mt : MemTable) (key : list Z) : option (nat * bool) :=
  find_loop (S (length (entries mt))) (entries mt) key 0 (length (entries mt)).

(** Grow the array when it is full. *)
Definition reserve `{Env} : M MemTable unit :=
  mt ← get;
  if (capacity mt <=? length (entries mt))%nat then
    let new_cap := if (capacity mt =? 0)%nat then 16%nat else (capacity mt * 2)%nat in
    malloc;; modify (fun mt => mkTable (entries mt) new_cap)
  else mret tt.

Definition memtable_put `{Env} (key val : list Z) : M MemTable unit :=
  mt ← get;
  '(idx, found) ← of_option (memtable_find mt key);
  if (found : bool) then
    malloc;;
    e ← of_option (entries mt !! idx);
    modify (fun mt => mkTable (<[idx := mkEntry (e_key e) val]> (entries mt)) (capacity mt))
  else
    reserve;;
    malloc;;
    malloc;;
    modify (fun mt => mkTable (take idx (entries mt) ++ mkEntry key val :: drop idx (entries mt))
                        (capacity mt)).

Definition memtable_del `{Env} (key : list Z) : M MemTable unit :=
  mt ← get;
  '(idx, found) ← of_option (memtable_find mt key);
  if negb found then raise STORE_ERR_NOT_FOUND
  else modify (fun mt => mkTable (take idx (entries mt) ++ drop (idx + 1) (entries mt)) (capacity mt)).

(** ** Little-endian fields: reading what was written *)

Lemma write_u16_le_eq v : write_u16_le v = le_bytes 2 v.
Proof.
  unfold write_u16_le. rewrite !land_255, shiftr_8 by lia. reflexivity.
Qed.

Lemma write_u32_le_eq v : write_u32_le v = le_bytes 4 v.
Proof.
  unfold write_u32_le. rewrite !land_255, !shiftr_8 by lia. cbn [le_bytes].
  rewrite !Z.div_div by lia. reflexivity.
Qed.

Lemma write_u64_le_eq v : write_u64_le v = le_bytes 8 v.
Proof.
  unfold write_u64_le. cbn [map]. rewrite !land_255, !shiftr_8 by lia. cbn [le_bytes].
  rewrite Z.div_1_r, !Z.div_div by lia. reflexivity.
Qed.

Lemma read_u16_le_eq a b rest :
  in_u8 a -> in_u8 b -> read_u16_le (a :: b :: rest) = le_val [a; b].
Proof.
  unfold in_u8, two8. intros Ha Hb. unfold read_u16_le, byte_at. cbn [nth le_val].
  rewrite lor_shiftl_add by lia. lia.
Qed.

Lemma read_u32_le_eq a b c d rest :
  in_u8 a -> in_u8 b -> in_u8 c -> in_u8 d ->
  read_u32_le (a :: b :: c :: d :: rest) = le_val [a; b; c; d].
Proof.
  unfold in_u8, two8. intros Ha Hb Hc Hd. unfold read_u32_le, byte_at. cbn [nth le_val].
  rewrite (lor_shiftl_add a b 8), (lor_shiftl_add _ c 16), (lor_shiftl_add _ d 24) by lia. lia.
Qed.

Lemma read_u64_le_eq l rest :
  bytes_wf l -> length l = 8%nat -> read_u64_le (l ++ rest) = le_val l.
Proof.
  intros Hl Hn. unfold read_u64_le.
  assert (forall n, (n <= 8)%nat ->
    fold_left (fun v i => Z.lor v (Z.shiftl (byte_at (l ++ rest) i) (Z.of_nat i * 8))) (seq 0 n) 0 =
    le_val (take n l)) as Hfold.
  { induction n as [|n IH]; intros Hle; [done|].
    rewrite seq_S, fold_left_app, IH, Nat.add_0_l by lia. cbn [fold_left].
    destruct (lookup_lt_is_Some_2 l n) as [b Hb]; [lia|].
    assert (byte_at (l ++ rest) n = b) as ->.
    { unfold byte_at. rewrite app_nth1 by lia. by apply nth_lookup_Some. }
    rewrite (take_S_r _ _ _ Hb), le_val_app, length_take. simpl (le_val [b]).
    pose proof (le_val_range (take n l) (bytes_wf_take _ _ Hl)) as Hr. rewrite length_take in Hr.
    replace (n `min` length l)%nat with n in * by lia.
    pose proof (Forall_lookup_1 _ _ _ _ Hl Hb) as Hbb. unfold in_u8, two8 in Hbb.
    rewrite lor_shiftl_add by (rewrite ?(Z.mul_comm _ 8), ?Z.pow_mul_r by lia; change (2 ^ 8) with 256; lia).
    rewrite (Z.mul_comm _ 8), Z.pow_mul_r by lia. change (2 ^ 8) with 256. lia. }
  transitivity (le_val (take 8 l)); [exact (Hfold 8%nat ltac:(lia))|]. by rewrite take_ge by lia.
Qed.

Lemma read_write_u16 v rest : 0 <= v < two16 -> read_u16_le (write_u16_le v ++ rest) = v.
Proof.
  intros Hv. rewrite write_u16_le_eq. pose proof (le_bytes_wf 2 v) as Hw.
  pose proof (le_val_bytes 2 v) as Hval. cbn [le_bytes app] in *.
  repeat (apply Forall_cons_1 in Hw as [? Hw]). rewrite read_u16_le_eq, Hval by done.
  by apply Z.mod_small.
Qed.

Lemma read_write_u32 v rest : 0 <= v < two32 -> read_u32_le (write_u32_le v ++ rest) = v.
Proof.
  intros Hv. rewrite write_u32_le_eq. pose proof (le_bytes_wf 4 v) as Hw.
  pose proof (le_val_bytes 4 v) as Hval. cbn [le_bytes app] in *.
  repeat (apply Forall_cons_1 in Hw as [? Hw]). rewrite read_u32_le_eq, Hval by done.
  by apply Z.mod_small.
Qed.

Lemma read_write_u64 v rest : 0 <= v < two64 -> read_u64_le (write_u64_le v ++ rest) = v.
Proof.
  intros Hv. rewrite write_u64_le_eq, read_u64_le_eq, le_val_bytes;
    [by apply Z.mod_small|apply le_bytes_wf|apply length_le_bytes].
Qed.

(** ** The order on keys *)

Fixpoint lex (a b : list Z) : comparison :=
  match a, b with
  | [], [] => Eq
  | [], _ => Lt
  | _, [] => Gt
  | x :: a, y :: b => match x ?= y with Eq => lex a b | c => c end
  end.

(** [key_compare] has the sign of the lexicographic comparison. *)
Lemma key_compare_lex a b :
  match lex a b with
  | Lt => key_compare a b < 0
  | Eq => key_compare a b = 0
  | Gt => 0 < key_compare a b
  end.
Proof.
  unfold key_compare. revert b. induction a as [|x a IH]; intros [|y b]; simpl; try lia.
  specialize (IH b).
  change (S (length a) <? S (length b))%nat with (length a <? length b)%nat.
  change (S (length b) <? S (length a))%nat with (length b <? length a)%nat.
  destruct (Z.compare_spec x y) as [->|Hlt|Hlt].
  - destruct (length a <? length b)%nat; simpl; rewrite Z.eqb_refl; exact IH.
  - destruct (length a <? length b)%nat; simpl; destruct (Z.eqb_spec x y); try lia;
      simpl; destruct (Z.eqb_spec (x - y) 0); simpl; lia.
  - destruct (length a <? length b)%nat; simpl; destruct (Z.eqb_spec x y); try lia;
      simpl; destruct (Z.eqb_spec (x - y) 0); simpl; lia.
Qed.

Definition klt (a b : list Z) : Prop := lex a b = Lt.

Lemma lex_eq a b : lex a b = Eq <-> a = b.
Proof.
  revert b. induction a as [|x a IH]; intros [|y b]; simpl; try done.
  destruct (Z.compare_spec x y) as [->|H|H].
  - rewrite IH. split; congruence.
  - split; [done|]. intros [= -> _]. lia.
  - split; [done|]. intros [= -> _]. lia.
Qed.

Lemma lex_antisym a b : lex b a = CompOpp (lex a b).
Proof.
  revert b. induction a as [|x a IH]; intros [|y b]; simpl; try done.
  rewrite (Z.compare_antisym x y). destruct (x ?= y); simpl; auto.
Qed.

Lemma klt_trans a b c : klt a b -> klt b c -> klt a c.
Proof.
  unfold klt. revert b c. induction a as [|x a IH]; intros [|y b] [|z c]; simpl; try done.
  intros H1 H2. destruct (x ?= y) eqn:E1; try done; destruct (y ?= z) eqn:E2; try done;
    rewrite ?Z.compare_eq_iff, ?Z.compare_lt_iff in *; subst.
  - rewrite Z.compare_refl. eauto.
  - apply Z.compare_lt_iff in E2. by rewrite E2.
  - apply Z.compare_lt_iff in E1. by rewrite E1.
  - assert ((x ?= z) = Lt) as -> by (apply Z.compare_lt_iff; lia). done.
Qed.

Lemma klt_irrefl a : ~ klt a a.
Proof. unfold klt. assert (lex a a = Eq) as -> by by apply lex_eq. done. Qed.

#[export] Instance klt_transitive : Transitive klt.
Proof. intros a b c. apply klt_trans. Qed.

(** ** Well-formed tables and the maps they stand for *)

Definition elt (a b : MemEntry) : Prop := klt (e_key a) (e_key b).
Definition sorted (es : list MemEntry) : Prop := StronglySorted elt es.
Definition to_map (es : list MemEntry) : gmap (list Z) (list Z) :=
  list_to_map (map (fun e => (e_key e, e_val e)) es).

Lemma sorted_lookup es i j a b :
  sorted es -> es !! i = Some a -> es !! j = Some b -> (i < j)%nat -> klt (e_key a) (e_key b).
Proof.
  unfold sorted. revert i j. induction es as [|e es IH]; intros i j Hs Hi Hj Hij; [done|].
  apply StronglySorted_inv in Hs as [Hs Hall].
  destruct i as [|i], j as [|j]; simpl in *; try lia.
  - injection Hi as <-. apply (Forall_lookup_1 _ _ _ _ Hall Hj).
  - eapply (IH i j); eauto. lia.
Qed.

(** What a search returns. *)
Definition found_at (es : list MemEntry) (key : list Z) (i : nat) (b : bool) : Prop :=
  (b = true -> exists e, es !! i = Some e /\ e_key e = key) /\
  (b = false -> (i <= length es)%nat /\
     (forall j e, es !! j = Some e -> (j < i)%nat -> klt (e_key e) key) /\
     (forall j e, es !! j = Some e -> (i <= j)%nat -> klt key (e_key e))).

Lemma find_loop_spec fuel es key low high :
  sorted es -> (low <= high <= length es)%nat -> (high - low < fuel)%nat ->
  (forall j e, es !! j = Some e -> (j < low)%nat -> klt (e_key e) key) ->
  (forall j e, es !! j = Some e -> (high <= j)%nat -> klt key (e_key e)) ->
  exists i b, find_loop fuel es key low high = Some (i, b) /\ found_at es key i b.
Proof.
  intros Hs. revert low high. induction fuel as [|fuel IH]; intros low high Hb Hf Hlo Hhi; [lia|].
  cbn [find_loop]. destruct (Nat.ltb_spec low high) as [Hlt|Hge].
  2: { exists low, false. split; [done|]. split; [done|]. intros _. split; [lia|].
       split; [done|]. intros j e He Hj. eapply Hhi; [done|lia]. }
  remember (low + (high - low) / 2)%nat as mid.
  assert (low <= mid < high)%nat as Hmid.
  { subst mid. pose proof (Nat.div_lt (high - low) 2). lia. }
  destruct (lookup_lt_is_Some_2 es mid) as [e He]; [lia|]. rewrite He. simpl.
  pose proof (key_compare_lex (e_key e) key) as Hc.
  destruct (lex (e_key e) key) eqn:El.
  - rewrite Hc. simpl. exists mid, true. split; [done|]. split; [|done].
    intros _. exists e. split; [done|]. by apply lex_eq.
  - destruct (Z.eqb_spec (key_compare (e_key e) key) 0); [lia|].
    destruct (Z.ltb_spec (key_compare (e_key e) key) 0); [|lia].
    apply IH; [lia|lia| |done]. intros j e' He' Hj.
    destruct (decide (j = mid)) as [->|]; [by simplify_eq|].
    eapply klt_trans; [|exact El]. eapply sorted_lookup; [done..|lia].
  - destruct (Z.eqb_spec (key_compare (e_key e) key) 0); [lia|].
    destruct (Z.ltb_spec (key_compare (e_key e) key) 0); [lia|].
    assert (klt key (e_key e)) as Hk by (unfold klt; by rewrite lex_antisym, El).
    apply IH; [lia|lia|done|]. intros j e' He' Hj.
    destruct (decide (j = mid)) as [->|]; [by simplify_eq|].
    eapply klt_trans; [exact Hk|]. eapply sorted_lookup; [done..|lia].
Qed.

Lemma memtable_find_spec mt key :
  sorted (entries mt) ->
  exists i b, memtable_find mt key = Some (i, b) /\ found_at (entries mt) key i b.
Proof.
  intros Hs. apply find_loop_spec; [done|lia|lia|lia|].
  intros j e Hj%lookup_lt_Some. lia.
Qed.

(** The three ways a search result is used, on the table cut at its index. *)
Lemma to_map_cut a e b :
  to_map (a ++ e :: b) = to_map a ∪ <[e_key e := e_val e]> (to_map b).
Proof. unfold to_map. by rewrite map_app, list_to_map_app. Qed.

Lemma to_map_app a b : to_map (a ++ b) = to_map a ∪ to_map b.
Proof. unfold to_map. by rewrite map_app, list_to_map_app. Qed.

Lemma to_map_none es k : (forall e, e ∈ es -> e_key e <> k) -> to_map es !! k = None.
Proof.
  intros H. apply not_elem_of_list_to_map_1.
  intros (x & -> & (e & -> & He)%list_elem_of_fmap)%list_elem_of_fmap. by apply (H e).
Qed.

Lemma cut_sorted a e b :
  sorted (a ++ e :: b) <->
  sorted a /\ sorted b /\ (forall x, x ∈ a -> elt x e) /\ (forall x, x ∈ b -> elt e x).
Proof.
  unfold sorted. rewrite StronglySorted_app. split.
  - intros (Hab & Ha & [Hb Hall]%StronglySorted_inv). split_and!; try done.
    + intros x Hx. apply Hab; [done|]. by left.
    + intros x Hx. by apply (Forall_elem _ _ _ Hall).
  - intros (Ha & Hb & Hae & Heb). split_and!; [|done|].
    + intros x y Hx [->|Hy]%elem_of_cons; [by apply Hae|].
      eapply klt_trans; [by apply Hae|by apply Heb].
    + constructor; [done|]. apply Forall_forall. intros x Hx.
      apply Heb. by apply list_elem_of_In.
Qed.

Lemma cut_none a e b :
  sorted (a ++ e :: b) -> to_map a !! e_key e = None /\ to_map b !! e_key e = None.
Proof.
  intros (_ & _ & Ha & Hb)%cut_sorted. split; apply to_map_none; intros x Hx E.
  - apply (klt_irrefl (e_key e)). rewrite <- E at 1. by apply Ha.
  - apply (klt_irrefl (e_key e)). rewrite <- E at 2. by apply Hb.
Qed.

Lemma cut_lookup a e b : sorted (a ++ e :: b) -> to_map (a ++ e :: b) !! e_key e = Some (e_val e).
Proof.
  intros [Ha _]%cut_none. rewrite to_map_cut, lookup_union_r by done. apply lookup_insert_eq.
Qed.

Lemma found_true es key i :
  sorted es -> found_at es key i true ->
  exists e, es !! i = Some e /\ e_key e = key /\ es = take i es ++ e :: drop (S i) es /\
    to_map es !! key = Some (e_val e).
Proof.
  intros Hs [(e & He & <-) _]; [done|]. exists e.
  pose proof (take_drop_middle _ _ _ He) as Hcut. split_and!; try done.
  rewrite <- Hcut in Hs |- *. by apply cut_lookup.
Qed.

Lemma found_false es key i val :
  sorted es -> found_at es key i false ->
  sorted (take i es ++ mkEntry key val :: drop i es) /\ to_map es !! key = None.
Proof.
  intros Hs [_ (Hi & Hlo & Hhi)]; [done|].
  assert (forall x, x ∈ take i es -> klt (e_key x) key) as Ht.
  { intros x (j & Hj)%list_elem_of_lookup. apply lookup_take_Some in Hj as [Hj Hl].
    by apply (Hlo j). }
  assert (forall x, x ∈ drop i es -> klt key (e_key x)) as Hd.
  { intros x (j & Hj)%list_elem_of_lookup. rewrite lookup_drop in Hj.
    eapply Hhi; [exact Hj|lia]. }
  split.
  - apply cut_sorted. rewrite <- (take_drop i es) in Hs.
    apply StronglySorted_app in Hs as (_ & Ha & Hb). split_and!; done.
  - apply to_map_none. intros e He <-. rewrite <- (take_drop i es) in He.
    apply elem_of_app in He as [He|He]; eapply klt_irrefl; [by apply Ht|by apply Hd].
Qed.

Lemma insert_map a b key val :
  to_map a !! key = None ->
  to_map (a ++ mkEntry key val :: b) = <[key := val]> (to_map (a ++ b)).
Proof. intros Ha. by rewrite to_map_cut, to_map_app, insert_union_r. Qed.

(** ** Refinement: the table implements a finite map

    [table_ok mt m]: the table is sorted, within its capacity, and stands for
    the map [m]. *)
Definition table_ok (mt : MemTable) (m : gmap (list Z) (list Z)) : Prop :=
  sorted (entries mt) /\ (length (entries mt) <= capacity mt)%nat /\ to_map (entries mt) = m.

Lemma sorted_nodup es : sorted es -> NoDup es.
Proof.
  induction 1 as [|x es Hs IH Hall]; constructor; [|done].
  intros Hx. apply (klt_irrefl (e_key x)). by apply (Forall_elem _ _ _ Hall).
Qed.

(** A sorted table is the only one of its map. *)
Lemma table_unique a b ma mb : table_ok a ma -> table_ok b mb -> ma = mb -> entries a = entries b.
Proof.
  intros (Ha & _ & <-) (Hb & _ & <-) H.
  assert (forall es e, sorted es -> e ∈ es <-> to_map es !! e_key e = Some (e_val e)) as Hin.
  { clear. intros es [k v] Hs. split.
    - intros (i & Hi)%list_elem_of_lookup. rewrite <- (take_drop_middle _ _ _ Hi) in Hs |- *.
      apply (cut_lookup _ (mkEntry k v) _ Hs).
    - intros Hl. apply elem_of_list_to_map_2 in Hl.
      apply list_elem_of_fmap in Hl as ([k' v'] & [= -> ->] & He). done. }
  apply StronglySorted_unique_strong with (R := elt); [|done|done|].
  - intros x y _ _ Hxy Hyx. exfalso. apply (klt_irrefl (e_key x)). by eapply klt_trans.
  - apply NoDup_Permutation; [by apply sorted_nodup..|]. intros x. by rewrite !Hin, H.
Qed.

(** The three updates on well-formed tables. *)
Lemma update_ok es key val i :
  sorted es -> found_at es key i true ->
  exists e, es !! i = Some e /\ e_key e = key /\ to_map es !! key = Some (e_val e) /\
    sorted (<[i := mkEntry key val]> es) /\
    to_map (<[i := mkEntry key val]> es) = <[key := val]> (to_map es).
Proof.
  intros Hs Hf. destruct (found_true _ _ _ Hs Hf) as (e & He & <- & Hcut & Hl).
  exists e. do 3 (split; [done|]). rewrite insert_take_drop by by apply lookup_lt_Some in He.
  assert (sorted (take i es ++ e :: drop (S i) es)) as Hs' by by rewrite <- Hcut.
  destruct (cut_none _ _ _ Hs') as [Ha _]. split.
  - apply cut_sorted in Hs' as (? & ? & ? & ?). by apply cut_sorted.
  - rewrite insert_map by done. rewrite Hcut at 3.
    by rewrite to_map_cut, to_map_app, !insert_union_r, insert_insert_eq.
Qed.

Lemma insert_ok es key val i :
  sorted es -> found_at es key i false ->
  to_map es !! key = None /\ sorted (take i es ++ mkEntry key val :: drop i es) /\
  to_map (take i es ++ mkEntry key val :: drop i es) = <[key := val]> (to_map es).
Proof.
  intros Hs Hf. destruct (found_false _ _ _ val Hs Hf) as [Hs' Hn].
  split; [done|]. split; [done|]. destruct (cut_none _ _ _ Hs') as [Ha _].
  rewrite insert_map by done. by rewrite take_drop.
Qed.

Lemma delete_ok es key i :
  sorted es -> found_at es key i true ->
  is_Some (to_map es !! key) /\ sorted (take i es ++ drop (i + 1) es) /\
  to_map (take i es ++ drop (i + 1) es) = delete key (to_map es).
Proof.
  intros Hs Hf. destruct (found_true _ _ _ Hs Hf) as (e & He & <- & Hcut & Hl).
  replace (i + 1)%nat with (S i) by lia. split; [by eexists|].
  assert (to_map es = to_map (take i es ++ e :: drop (S i) es)) as -> by by rewrite <- Hcut.
  rewrite Hcut in Hs. destruct (cut_none _ _ _ Hs) as [Ha Hb].
  apply cut_sorted in Hs as (H1 & H2 & H3 & H4). split.
  - apply StronglySorted_app_2; [|done|done]. intros x y Hx Hy.
    eapply klt_trans; [by apply H3|by apply H4].
  - rewrite to_map_cut, to_map_app, delete_union, delete_insert_id by done.
    by rewrite delete_id.
Qed.

Lemma table_init_ok : table_ok memtable_init ∅.
Proof. split; [constructor|]. split; [simpl; lia|done]. Qed.

Lemma table_ok_same mt m mt' :
  table_ok mt m -> entries mt' = entries mt -> (length (entries mt) <= capacity mt')%nat ->
  table_ok mt' m.
Proof. intros (Hs & Hc & Hm) He Hl. unfold table_ok. by rewrite He. Qed.

Section Refinement.
Context `{Env}.

Lemma reserve_ok (es : list MemEntry) :
  triple (fun mt => entries mt = es /\ (length es <= capacity mt)%nat) reserve
    (fun _ mt => entries mt = es /\ (length es < capacity mt)%nat)
    (fun e mt => e = STORE_ERR_NOMEM /\ alloc_failed /\
       entries mt = es /\ (length es <= capacity mt)%nat).
Proof.
  unfold reserve. apply bind_get. intros mt [<- Hc].
  destruct (Nat.leb_spec (capacity mt) (length (entries mt))) as [Hle|Hlt].
  - apply bind_malloc; [by intros ? ->|]. apply triple_modify. intros s ->.
    split; [done|]. cbn [capacity]. destruct (Nat.eqb_spec (capacity mt) 0); lia.
  - apply triple_ret. by intros ? ->.
Qed.

Lemma memtable_put_ok mt m key val :
  table_ok mt m ->
  triple (fun x => x = mt) (memtable_put key val)
    (fun _ mt' => table_ok mt' (<[key := val]> m))
    (fun e mt' => e = STORE_ERR_NOMEM /\ alloc_failed /\
       entries mt' = entries mt /\ table_ok mt' m).
Proof.
  intros Hok. pose proof Hok as (Hs & Hc & Hm). unfold memtable_put. apply bind_get. intros s ->.
  destruct (memtable_find_spec mt key Hs) as (i & b & Hf & Hfound).
  eapply bind_option; [exact Hf|]. destruct b.
  - destruct (update_ok _ _ val _ Hs Hfound) as (e & He & <- & _ & Hs' & Hm').
    apply bind_malloc; [by intros ? ->|]. eapply bind_option; [exact He|].
    apply triple_modify. intros s ->. split; [done|]. split; [cbn [entries capacity]; by rewrite length_insert|].
    by rewrite <- Hm.
  - destruct (insert_ok _ _ val _ Hs Hfound) as (_ & Hs' & Hm').
    eapply triple_bind with (R := fun _ mt' => entries mt' = entries mt /\
      (length (entries mt) < capacity mt')%nat).
    { eapply triple_weaken; [apply (reserve_ok (entries mt))|by intros ? ->|done|].
      intros e s (-> & Ha & He & Hl). do 3 (split; [done|]). by eapply table_ok_same. }
    intros []. do 2 (apply bind_malloc;
      [intros s [He Hl] Ha; do 3 (split; [done|]); eapply table_ok_same; [done..|lia]|]).
    apply triple_modify. intros s [He Hl]. rewrite He. split; [done|]. cbn [entries capacity].
    rewrite length_app. simpl. rewrite length_take, length_drop. split; [lia|by rewrite <- Hm].
Qed.

Lemma memtable_del_ok mt m key :
  table_ok mt m ->
  triple (fun x => x = mt) (memtable_del key)
    (fun _ mt' => table_ok mt' (delete key m) /\ is_Some (m !! key))
    (fun e mt' => e = STORE_ERR_NOT_FOUND /\ mt' = mt /\ m !! key = None).
Proof.
  intros (Hs & Hc & Hm). unfold memtable_del. apply bind_get. intros s ->.
  destruct (memtable_find_spec mt key Hs) as (i & b & Hf & Hfound).
  eapply bind_option; [exact Hf|]. destruct b; cbn [negb].
  - destruct (delete_ok _ _ _ Hs Hfound) as (Hl & Hs' & Hm').
    apply triple_modify. intros s ->. rewrite <- Hm. split; [|done]. split; [done|].
    split; [|done]. cbn [entries capacity]. rewrite length_app, length_take, length_drop. lia.
  - destruct (insert_ok _ _ [] _ Hs Hfound) as (Hn & _).
    apply triple_raise. intros s ->. by rewrite <- Hm.
Qed.

Lemma find_map mt m key :
  table_ok mt m ->
  exists i b, memtable_find mt key = Some (i, b) /\
    m !! key = (if b then e_val <$> entries mt !! i else None).
Proof.
  intros (Hs & Hc & Hm). destruct (memtable_find_spec mt key Hs) as (i & b & Hf & Hfound).
  exists i, b. split; [done|]. rewrite <- Hm. destruct b.
  - destruct (found_true _ _ _ Hs Hfound) as (e & -> & _ & _ & ->). done.
  - by destruct (insert_ok _ _ [] _ Hs Hfound) as (-> & _).
Qed.
End Refinement.

(** C39. The sorted table implements a finite map from keys to values: its
    binary search always ends and finds a key iff the map has it; for every
    answer of the allocator, [memtable_put] either updates the map or reports
    NOMEM (only after a failed allocation) with the entries untouched, and
    [memtable_del] deletes the key, or reports NOT_FOUND exactly when it is
    absent, changing nothing; sortedness and capacity are kept throughout, and
    the entries are determined by the map alone. *)
Theorem memtable_refines_map `{Env} mt m key val t :
  table_ok mt m ->
  (exists i b, memtable_find mt key = Some (i, b) /\
     m !! key = (if b then e_val <$> entries mt !! i else None)) /\
  match memtable_put key val mt t with
  | Done _ mt' _ => table_ok mt' (<[key := val]> m)
  | Fail e mt' _ => e = STORE_ERR_NOMEM /\ alloc_failed /\ entries mt' = entries mt /\ table_ok mt' m
  | Stuck => False
  end /\
  match memtable_del key mt t with
  | Done _ mt' _ => table_ok mt' (delete key m) /\ is_Some (m !! key)
  | Fail e mt' _ => e = STORE_ERR_NOT_FOUND /\ mt' = mt /\ m !! key = None
  | Stuck => False
  end /\
  (forall mt2, table_ok mt2 m -> entries mt2 = entries mt).
Proof.
  intros Hok. split; [by apply find_map|]. split; [|split].
  - exact (memtable_put_ok mt m key val Hok mt t eq_refl).
  - exact (memtable_del_ok mt m key Hok mt t eq_refl).
  - intros mt2 Hok2. by eapply table_unique.
Qed.

Definition two_keys : MemTable := mkTable [mkEntry [97] [1]; mkEntry [97; 98] [2; 3]] 16.

Lemma two_keys_ok : table_ok two_keys (<[[97] := [1]]> (<[[97; 98] := [2; 3]]> ∅)).
Proof.
  split; [|split; [simpl; lia|reflexivity]].
  repeat constructor.
Qed.

Lemma memtable_refines_map_witness :
  table_ok two_keys (<[[97] := [1]]> (<[[97; 98] := [2; 3]]> ∅)) /\
  match @memtable_put calm [97] [9] two_keys 0%nat with
  | Done _ mt' _ => table_ok mt' (<[[97] := [9]]> (<[[97] := [1]]> (<[[97; 98] := [2; 3]]> ∅)))
  | _ => False
  end.
Proof.
  split; [exact two_keys_ok|].
  exact (proj1 (proj2 (@memtable_refines_map calm two_keys _ [97] [9] 0%nat two_keys_ok))).
Defined.
