(* ===== verification/Merkle.v ===== *)
(** * store_c0.c: the Merkle root of the active keys

    [store_get_merkle_root] hashes each entry with prefix 0x00, then pairs level
    by level with prefix 0x01, duplicating the last node of an odd level.  The
    proofs use the hash through its interface [StreamHash]. *)
From stdpp Require Import gmap sorting strings.
From S2P Require Import Prelude Common Sha256 Sys Memtable.

Section Merkle.
Context {C : Type} `{StreamHash C}.

(** [lin_sha256(data, len, out)]. *)
Definition oneshot (m : list Z) : list Z := sh_final (sh_update sh_init m).

Definition leaf_hash (e : MemEntry) : list Z :=
  let ctx := sh_update sh_init [0] in
  let ctx := sh_update ctx (write_u16_le (Z.of_nat (length (e_key e)))) in
  let ctx := sh_update ctx (e_key e) in
  let ctx := sh_update ctx (write_u32_le (Z.of_nat (length (e_val e)))) in
  let ctx := if (0 <? length (e_val e))%nat then sh_update ctx (e_val e) else ctx in
  sh_final ctx.

Definition parent (l r : list Z) : list Z := oneshot (1 :: l ++ r).

(** One turn of the level loop: nodes two by two, the last one with itself. *)
Fixpoint reduce_level (l : list (list Z)) : list (list Z) :=
  match l with
  | a :: b :: l => parent a b :: reduce_level l
  | [a] => [parent a a]
  | [] => []
  end.

Fixpoint merkle_loop `{Env} {S} (fuel : nat) (level : list (list Z)) : M S (list Z) :=
  match fuel with
  | O => stuck
  | Datatypes.S fuel =>
      if (1 <? length level)%nat then malloc;; merkle_loop fuel (reduce_level level)
      else of_option (head level)
  end.

Definition store_get_merkle_root `{Env} {S} (es : list MemEntry) : M S (list Z) :=
  if (length es =? 0)%nat then mret (oneshot (cstr "STR_EMPTY_v1"))
  else malloc;; merkle_loop (length es) (map leaf_hash es).

(** The root as a function of the entries. *)
Fixpoint level_root (fuel : nat) (level : list (list Z)) : list Z :=
  match fuel with
  | O => default [] (head level)
  | S fuel =>
      if (1 <? length level)%nat then level_root fuel (reduce_level level)
      else default [] (head level)
  end.

Definition merkle_root (es : list MemEntry) : list Z :=
  if (length es =? 0)%nat then oneshot (cstr "STR_EMPTY_v1")
  else level_root (length es) (map leaf_hash es).
End Merkle.

(** Two steps at a time. *)
Lemma list_ind2 {A} (P : list A -> Prop) :
  P [] -> (forall a, P [a]) -> (forall a b l, P l -> P (a :: b :: l)) -> forall l, P l.
Proof.
  intros H0 H1 H2. assert (forall l, P l /\ forall a, P (a :: l)) as H; [|apply H].
  induction l as [|b l [IH1 IH2]]; [by split|]. split; [done|]. intros a. by apply H2.
Qed.

Section Computes.
Context {C : Type} `{StreamHash C}.

Lemma reduce_length l : (2 * length (reduce_level l) <= length l + 1)%nat /\
  (l <> [] -> reduce_level l <> []).
Proof. induction l as [|a|a b l [IH1 IH2]] using list_ind2; simpl in *; split; try done; lia. Qed.

Lemma merkle_loop_ok `{Env} {S} (P : S -> Prop) fuel l :
  l <> [] -> (length l <= fuel)%nat ->
  triple P (merkle_loop fuel l) (fun r s => P s /\ r = level_root fuel l)
    (fun e s => e = STORE_ERR_NOMEM /\ alloc_failed /\ P s).
Proof.
  revert l. induction fuel as [|fuel IH]; intros l Hl Hf; [destruct l; simpl in Hf; [done|lia]|].
  cbn [merkle_loop level_root]. destruct (Nat.ltb_spec 1 (length l)) as [Hlt|Hge].
  - apply bind_malloc; [done|]. destruct (reduce_length l) as [H1 H2]. apply IH; [by apply H2|lia].
  - destruct l as [|a l]; [done|]. by apply triple_ret.
Qed.

(** The function computes [merkle_root], whatever the allocator answers. *)
Lemma merkle_root_ok `{Env} {S} (P : S -> Prop) es :
  triple P (store_get_merkle_root es) (fun r s => P s /\ r = merkle_root es)
    (fun e s => e = STORE_ERR_NOMEM /\ alloc_failed /\ P s).
Proof.
  unfold store_get_merkle_root, merkle_root. destruct (Nat.eqb_spec (length es) 0) as [E|E].
  - by apply triple_ret.
  - apply bind_malloc; [done|]. apply merkle_loop_ok; [|by rewrite length_map].
    destruct es; [done|]. discriminate.
Qed.
End Computes.

(** ** The root commits to the map *)

(** The limits of [store_put], which every stored entry satisfies. *)
Definition key_ok (k : list Z) : Prop := (0 < length k <= 1024)%nat.
Definition val_ok (v : list Z) : Prop := Z.of_nat (length v) <= 1048576.
Definition entry_ok (e : MemEntry) : Prop := key_ok (e_key e) /\ val_ok (e_val e).

(** The iff of stdpp under a name of its own. *)
Lemma nodup_cons {A} (x : A) l : NoDup (x :: l) <-> (x ∉ l) /\ NoDup l.
Proof. apply list.NoDup_cons. Qed.

Section Binding.
Context {C : Type} `{StreamHash C} {digest : list Z -> list Z} `{!StreamHashLaws C digest}.

(** The message of a leaf. *)
Definition leaf_msg (e : MemEntry) : list Z :=
  0 :: write_u16_le (Z.of_nat (length (e_key e))) ++ e_key e ++
  write_u32_le (Z.of_nat (length (e_val e))) ++ e_val e.

Lemma oneshot_digest m : oneshot m = digest m.
Proof. pose proof (sh_concat (digest := digest) [m]) as E. simpl in E. by rewrite app_nil_r in E. Qed.

Lemma leaf_hash_digest e : leaf_hash e = digest (leaf_msg e).
Proof.
  set (k := write_u16_le (Z.of_nat (length (e_key e)))).
  set (v := write_u32_le (Z.of_nat (length (e_val e)))).
  pose proof (sh_concat (digest := digest) [[0]; k; e_key e; v; e_val e]) as E.
  pose proof (sh_concat (digest := digest) [[0]; k; e_key e; v]) as E0.
  unfold leaf_hash, leaf_msg. fold k v. unfold sh_parts in *.
  cbn [fold_left concat app] in E, E0. rewrite !app_nil_r in *.
  destruct (Nat.ltb_spec 0 (length (e_val e))) as [Hl|Hl]; [exact E|].
  rewrite E0. do 2 f_equal. destruct (e_val e); [by rewrite !app_nil_r|simpl in Hl; lia].
Qed.

Lemma parent_digest a b : parent a b = digest (1 :: a ++ b).
Proof. apply oneshot_digest. Qed.

Lemma leaf_msg_inj e1 e2 : entry_ok e1 -> entry_ok e2 -> leaf_msg e1 = leaf_msg e2 -> e1 = e2.
Proof.
  destruct e1 as [k1 v1], e2 as [k2 v2]. unfold entry_ok, key_ok, val_ok, leaf_msg.
  cbn [e_key e_val]. intros [Hk1 Hv1] [Hk2 Hv2] E. apply (f_equal tail) in E. cbn [tail] in E.
  pose proof (f_equal read_u16_le E) as El. rewrite !read_write_u16 in El by (unfold two16; lia).
  apply app_inj_1 in E as [_ E]; [|done]. apply app_inj_1 in E as [<- E]; [|lia].
  apply app_inj_1 in E as [_ ->]; done.
Qed.

Lemma parent_length a b : length (parent a b) = 32%nat.
Proof. rewrite parent_digest. apply (sh_length (digest := digest)). Qed.

Lemma parent_inj a b c d :
  length a = length c -> parent a b = parent c d -> (a = c /\ b = d) \/ collision digest.
Proof.
  intros Hl. rewrite !parent_digest. intros [E|]%digest_inj; [left|by right].
  injection E as E. by apply app_inj_1 in E.
Qed.

(** A node at height [j]: the prefixes keep heights apart. *)
Inductive hashed : nat -> list Z -> Prop :=
| H_leaf e : hashed 0 (leaf_hash e)
| H_node j a b : hashed j a -> hashed j b -> hashed (S j) (parent a b).

Lemma hashed_length j h : hashed j h -> length h = 32%nat.
Proof.
  destruct 1; [rewrite leaf_hash_digest; apply (sh_length (digest := digest))|apply parent_length].
Qed.

Lemma leaf_not_parent e a b : leaf_hash e = parent a b -> collision digest.
Proof.
  rewrite leaf_hash_digest, parent_digest. intros [E|]%digest_inj; [|done]. by injection E.
Qed.

Lemma hashed_height i h : hashed i h -> forall j h', hashed j h' -> h = h' -> i = j \/ collision digest.
Proof.
  induction 1 as [e|i a b Ha IHa Hb IHb]; intros j h' [e'|j' c d Hc Hd] E.
  - by left.
  - right. by eapply leaf_not_parent.
  - right. symmetry in E. by eapply leaf_not_parent.
  - apply parent_inj in E as [[-> ->]|]; [|by right|].
    + destruct (IHa j' _ Hc eq_refl) as [->|]; [by left|by right].
    + by rewrite (hashed_length _ _ Ha), (hashed_length _ _ Hc).
Qed.

(** ** Levels *)

Definition level_ok (j : nat) (l : list (list Z)) : Prop := Forall (hashed j) l /\ NoDup l /\ l <> [].

Lemma elem_reduce x l : x ∈ reduce_level l -> exists a b, a ∈ l /\ b ∈ l /\ x = parent a b.
Proof.
  induction l as [|a|a b l IH] using list_ind2; cbn [reduce_level].
  - by intros ?%elem_of_nil.
  - intros ->%list_elem_of_singleton. exists a, a. split_and!; try done; by left.
  - intros [->|Hx]%elem_of_cons; [exists a, b; split; [left|split; [right; left|done]]|].
    destruct (IH Hx) as (c & d & ? & ? & ->). exists c, d. split; [do 2 right; done|split; [do 2 right; done|done]].
Qed.

Lemma reduce_hashed j l : Forall (hashed j) l -> Forall (hashed (S j)) (reduce_level l).
Proof.
  induction l as [|a|a b l IH] using list_ind2; cbn [reduce_level]; intros Hl.
  - constructor.
  - apply Forall_cons_1 in Hl as [Ha _]. apply Forall_cons_2; [by apply H_node|constructor].
  - apply Forall_cons_1 in Hl as [Ha [Hb Hl]%Forall_cons_1].
    apply Forall_cons_2; [by apply H_node|by apply IH].
Qed.

Lemma reduce_nodup j l :
  Forall (hashed j) l -> NoDup l -> NoDup (reduce_level l) \/ collision digest.
Proof.
  induction l as [|a|a b l IH] using list_ind2; cbn [reduce_level]; intros Hh Hd.
  - left. constructor.
  - left. apply NoDup_singleton.
  - apply Forall_cons_1 in Hh as [Ha [Hb Hl]%Forall_cons_1].
    apply nodup_cons in Hd as [Hna [_ Hd]%nodup_cons].
    destruct (IH Hl Hd) as [IH'|]; [|by right].
    destruct (decide (parent a b ∈ reduce_level l)) as [Hin|]; [|left; by apply nodup_cons].
    apply elem_reduce in Hin as (c & d & Hc & _ & E).
    apply parent_inj in E as [[-> _]|]; [by destruct Hna; right|by right|].
    rewrite (hashed_length _ _ Ha). symmetry. by apply (hashed_length j), (Forall_elem _ _ _ Hl).
Qed.

(** Without repeated nodes, a level is determined by the one above it. *)
Lemma reduce_inj j l1 : forall l2,
  Forall (hashed j) l1 -> Forall (hashed j) l2 -> NoDup l1 -> NoDup l2 ->
  reduce_level l1 = reduce_level l2 -> l1 = l2 \/ collision digest.
Proof.
  assert (forall a b, hashed j a -> hashed j b -> length a = length b) as Hlen.
  { intros a b Ha Hb. by rewrite (hashed_length _ _ Ha), (hashed_length _ _ Hb). }
  induction l1 as [|a|a b l1 IH] using list_ind2; intros [|c [|d l2]] H1 H2 D1 D2 E;
    cbn [reduce_level] in E; try discriminate E; [by left|..];
    repeat match goal with H : Forall _ (_ :: _) |- _ => apply Forall_cons_1 in H as [? ?] end;
    (remember (reduce_level l2) as t2 eqn:Et2 || idtac); injection E as E;
    (apply parent_inj in E as [[Ea Eb]|]; [|by right|by apply Hlen]); subst.
  - by left.
  - exfalso. apply nodup_cons in D2 as [Hn _]. set_solver.
  - exfalso. apply nodup_cons in D1 as [Hn _]. set_solver.
  - apply nodup_cons in D1 as [_ [_ D1]%nodup_cons], D2 as [_ [_ D2]%nodup_cons].
    destruct (IH l2) as [->|]; [done..|by left|by right].
Qed.

Lemma root_hashed fuel : forall j l, Forall (hashed j) l -> l <> [] -> (length l <= fuel)%nat ->
  exists k, hashed (j + k) (level_root fuel l) /\ ((1 < length l)%nat -> k <> O) /\ ((length l <= 1)%nat -> k = O).
Proof.
  induction fuel as [|fuel IH]; intros j l Hh Hl Hf; [destruct l; simpl in Hf; [done|lia]|].
  cbn [level_root]. destruct (Nat.ltb_spec 1 (length l)) as [Hlt|Hge].
  - destruct (reduce_length l) as [H1 H2].
    destruct (IH (S j) (reduce_level l)) as (k & Hk & _); [by apply reduce_hashed|by apply H2|lia|].
    exists (S k). rewrite Nat.add_succ_r. split; [done|]. split; [done|lia].
  - exists O. rewrite Nat.add_0_r. split; [|split; [lia|done]]. destruct l as [|a l]; [done|].
    by apply Forall_cons_1 in Hh as [? _].
Qed.

Lemma level_root_inj fuel1 : forall fuel2 j l1 l2,
  level_ok j l1 -> level_ok j l2 -> (length l1 <= fuel1)%nat -> (length l2 <= fuel2)%nat ->
  level_root fuel1 l1 = level_root fuel2 l2 -> l1 = l2 \/ collision digest.
Proof.
  induction fuel1 as [|fuel1 IH]; intros fuel2 j l1 l2 (H1 & D1 & N1) (H2 & D2 & N2) F1 F2 E.
  { destruct l1; simpl in F1; [done|lia]. }
  destruct fuel2 as [|fuel2]; [destruct l2; simpl in F2; [done|lia]|].
  destruct (root_hashed _ _ _ H1 N1 F1) as (k1 & R1 & K1 & K1').
  destruct (root_hashed _ _ _ H2 N2 F2) as (k2 & R2 & K2 & K2').
  destruct (hashed_height _ _ R1 _ _ R2 E) as [Ek|]; [|by right].
  clear R1 R2. cbn [level_root] in E.
  destruct (Nat.ltb_spec 1 (length l1)) as [L1|L1], (Nat.ltb_spec 1 (length l2)) as [L2|L2].
  - destruct (reduce_length l1) as [A1 B1], (reduce_length l2) as [A2 B2].
    destruct (reduce_nodup j l1) as [D1'|]; [done..| |by right].
    destruct (reduce_nodup j l2) as [D2'|]; [done..| |by right].
    destruct (IH fuel2 (S j) (reduce_level l1) (reduce_level l2)) as [E'|];
      [split_and!; auto using reduce_hashed..|lia|lia|done| |by right].
    by eapply reduce_inj.
  - exfalso. apply K1; [done|]. rewrite K2' in Ek by done. lia.
  - exfalso. apply K2; [done|]. rewrite K1' in Ek by done. lia.
  - left. destruct l1 as [|a [|? ?]], l2 as [|b [|? ?]]; simpl in *; try done; try lia.
    by rewrite E.
Qed.

(** ** The theorem *)

Lemma NoDup_map_or {A B} `{EqDecision B} (f : A -> B) (X : Prop) l :
  NoDup l -> (forall x y, x ∈ l -> y ∈ l -> f x = f y -> x = y \/ X) -> NoDup (map f l) \/ X.
Proof.
  induction l as [|x l IH]; intros Hd Hf; [left; constructor|].
  apply nodup_cons in Hd as [Hx Hd].
  destruct (IH Hd) as [Hm|]; [|cbn [map]|by right].
  { intros a b Ha Hb. apply Hf; by right. }
  destruct (decide (f x ∈ map f l)) as [(y & E & Hy)%list_elem_of_fmap|Hn]; [|left; by apply nodup_cons].
  destruct (Hf x y) as [->|]; [left|by right|done|done|by right].
Qed.

Definition entries_ok (es : list MemEntry) : Prop := Forall entry_ok es.

Lemma leaves_ok es :
  sorted es -> entries_ok es -> es <> [] ->
  level_ok 0 (map leaf_hash es) \/ collision digest.
Proof.
  intros Hs Ho Hn. destruct (NoDup_map_or leaf_hash (collision digest) es) as [Hd|]; [| |left|by right].
  - by apply sorted_nodup.
  - intros x y Hx Hy. rewrite !leaf_hash_digest. intros [E|]%digest_inj; [left|by right].
    by apply leaf_msg_inj; [apply (Forall_elem _ _ _ Ho)..|].
  - split_and!; [|done|by destruct es]. apply Forall_map, Forall_true. intros e. apply H_leaf.
Qed.

Lemma leaf_inj_map l1 l2 :
  entries_ok l1 -> entries_ok l2 -> map leaf_hash l1 = map leaf_hash l2 -> l1 = l2 \/ collision digest.
Proof.
  revert l2. induction l1 as [|e l1 IH]; intros [|e' l2] O1 O2 E; try discriminate E; [by left|].
  apply Forall_cons_1 in O1 as [Oe O1], O2 as [Oe' O2].
  cbn [map] in E. pose proof (f_equal (head (A := list Z)) E) as Eh.
  apply (f_equal tail) in E. cbn [head tail] in Eh, E.
  destruct (IH l2 O1 O2 E) as [->|]; [|by right]. assert (leaf_hash e = leaf_hash e') as Ee by congruence.
  rewrite !leaf_hash_digest in Ee. apply digest_inj in Ee as [Ee|]; [left|by right].
  f_equal. by apply leaf_msg_inj.
Qed.

(** A non-empty root is not the constant of the empty store. *)
Lemma hashed_prefix j h m : hashed j h -> h = digest (83 :: m) -> collision digest.
Proof.
  intros [e|i a b _ _]; rewrite ?leaf_hash_digest, ?parent_digest; intros [E|]%digest_inj; try done.
Qed.

Lemma root_not_empty es :
  es <> [] -> oneshot (cstr "STR_EMPTY_v1") = level_root (length es) (map leaf_hash es) ->
  collision digest.
Proof.
  intros Hn E. destruct (root_hashed (length es) 0 (map leaf_hash es)) as (k & Hk & _).
  - apply Forall_map, Forall_true. intros e. apply H_leaf.
  - by destruct es.
  - by rewrite length_map.
  - rewrite <- E, oneshot_digest in Hk. by eapply (hashed_prefix _ _ _ Hk).
Qed.

Lemma merkle_root_inj es1 es2 :
  sorted es1 -> sorted es2 -> entries_ok es1 -> entries_ok es2 ->
  merkle_root es1 = merkle_root es2 -> es1 = es2 \/ collision digest.
Proof.
  intros S1 S2 O1 O2. unfold merkle_root.
  destruct (Nat.eqb_spec (length es1) 0) as [N1%nil_length_inv|N1],
    (Nat.eqb_spec (length es2) 0) as [N2%nil_length_inv|N2].
  - left. congruence.
  - intros E. right. apply (root_not_empty es2); [by intros ->|done].
  - intros E. right. apply (root_not_empty es1); [by intros ->|done].
  - intros E. destruct (leaves_ok es1) as [L1|]; [done|done|by intros ->| |by right].
    destruct (leaves_ok es2) as [L2|]; [done|done|by intros ->| |by right].
    apply (level_root_inj _ _ 0) in E as [E|]; [|by right|done|done|by rewrite length_map..].
    by apply leaf_inj_map.
Qed.
End Binding.


