(* ===== verification/Wal.v ===== *)
(** * store_c0.c: the write-ahead log format

    The frame [store_commit] writes for a staged operation, the checks
    [recover_and_replay_wal] makes before replaying one, and the proof that the
    second recognises exactly the first. *)
From stdpp Require Import gmap strings.
From S2P Require Import Prelude Common Sha256 Sys Memtable Merkle.

Definition STORE_MAX_KEY_LEN : Z := 1024.
Definition STORE_MAX_VAL_LEN : Z := 1048576.
Definition STORE_MAX_WAL_SIZE : Z := 1073741824.
Definition STORE_PAGE_SIZE : Z := 4096.
Definition STORE_OP_PUT : Z := 1.
Definition STORE_OP_DEL : Z := 2.

Section Format.
Context {C : Type} `{StreamHash C}.

(** The 12 bytes of [write_wal_header]. *)
Definition wal_header : list Z :=
  cstr "STRW" ++ write_u16_le 1 ++ write_u32_le STORE_PAGE_SIZE ++ write_u16_le 0.

(** The test on the header of an existing log. *)
Definition header_valid (hdr : list Z) : bool :=
  bytes_eqb (take 4 hdr) (cstr "STRW") &&
  (read_u16_le (drop 4 hdr) =? 1) && (read_u32_le (drop 6 hdr) =? STORE_PAGE_SIZE) &&
  (read_u16_le (drop 10 hdr) =? 0).

(** [frame_len] of an operation. *)
Definition frame_len_of (key val : list Z) : Z :=
  u32 (1 + 2 + 4 + Z.of_nat (length key) + Z.of_nat (length val) + 32).

(** The buffer [store_commit] builds. *)
Definition frame_fields (op : Z) (key val : list Z) : list Z :=
  op :: write_u16_le (Z.of_nat (length key)) ++ write_u32_le (Z.of_nat (length val)) ++ key ++ val.
Definition frame (op : Z) (key val : list Z) : list Z :=
  write_u32_le (frame_len_of key val) ++ frame_fields op key val ++ oneshot (frame_fields op key val).

(** The checks on the [frame_len] bytes of a frame, in their order; [None]
    truncates the log before it. *)
Definition decode_frame (frame_len : Z) (buf : list Z) : option (Z * list Z * list Z) :=
  let op := byte_at buf 0 in
  let klen := read_u16_le (drop 1 buf) in
  let vlen := read_u32_le (drop 3 buf) in
  if negb (u32 (7 + klen + vlen + 32) =? frame_len) then None
  else if negb (op =? STORE_OP_PUT) && negb (op =? STORE_OP_DEL) then None
  else if (klen =? 0) || (STORE_MAX_KEY_LEN <? klen) || (STORE_MAX_VAL_LEN <? vlen) then None
  else if (op =? STORE_OP_DEL) && negb (vlen =? 0) then None
  else
    let n := Z.to_nat (7 + klen + vlen) in
    if negb (bytes_eqb (oneshot (take n buf)) (slice n 32 buf)) then None
    else Some (op, slice 7 (Z.to_nat klen) buf, slice (7 + Z.to_nat klen) (Z.to_nat vlen) buf).
End Format.

(** ** Updates: what a frame records *)

Inductive update : Type :=
| U_put (key val : list Z)
| U_del (key : list Z).

Definition apply (m : gmap (list Z) (list Z)) (u : update) : gmap (list Z) (list Z) :=
  match u with U_put k v => <[k := v]> m | U_del k => delete k m end.

Definition replay (us : list update) : gmap (list Z) (list Z) := fold_left apply us ∅.

Definition u_op (u : update) : Z := match u with U_put _ _ => STORE_OP_PUT | U_del _ => STORE_OP_DEL end.
Definition u_key (u : update) : list Z := match u with U_put k _ => k | U_del k => k end.
Definition u_val (u : update) : list Z := match u with U_put _ v => v | U_del _ => [] end.

Definition update_ok (u : update) : Prop :=
  key_ok (u_key u) /\ val_ok (u_val u) /\ bytes_wf (u_key u) /\ bytes_wf (u_val u).

Section Frames.
Context {C : Type} `{StreamHash C} {digest : list Z -> list Z} `{!StreamHashLaws C digest}.

Definition frame_of (u : update) : list Z := frame (u_op u) (u_key u) (u_val u).
Definition frames (us : list update) : list Z := concat (map frame_of us).

(** The loop body of the recovery on the bytes from the current offset on:
    the update they start with. *)
Definition next_frame (l : list Z) : option (update * list Z) :=
  let lb := take 4 l in
  if (length lb <? 4)%nat then None
  else
    let frame_len := read_u32_le lb in
    if (frame_len <? 39) || (STORE_MAX_KEY_LEN + STORE_MAX_VAL_LEN + 39 <? frame_len) then None
    else
      let buf := take (Z.to_nat frame_len) (drop 4 l) in
      if (length buf <? Z.to_nat frame_len)%nat then None
      else
        '(op, key, val) ← decode_frame frame_len buf;
        Some (if op =? STORE_OP_PUT then U_put key val else U_del key,
              drop (4 + Z.to_nat frame_len) l).

Lemma length_frame_fields op k v : length (frame_fields op k v) = (7 + length k + length v)%nat.
Proof.
  unfold frame_fields. rewrite write_u16_le_eq, write_u32_le_eq. cbn [length].
  rewrite !length_app, !length_le_bytes. lia.
Qed.

Lemma frame_len_ok u : update_ok u ->
  frame_len_of (u_key u) (u_val u) = Z.of_nat (39 + length (u_key u) + length (u_val u)).
Proof.
  intros (Hk & Hv & _). unfold key_ok, val_ok in *. unfold frame_len_of.
  rewrite u32_id by (unfold in_u32, two32; lia). lia.
Qed.

Lemma length_frame u : update_ok u ->
  length (frame_of u) = (43 + length (u_key u) + length (u_val u))%nat.
Proof.
  intros Hu. unfold frame_of, frame. rewrite write_u32_le_eq, !length_app, length_le_bytes.
  rewrite (oneshot_digest (digest := digest)), (sh_length (digest := digest)), length_frame_fields. lia.
Qed.
(** Reading back the fields. *)
Lemma decode_fields op k v sum :
  key_ok k -> val_ok v -> (op = STORE_OP_PUT \/ op = STORE_OP_DEL /\ v = []) ->
  sum = oneshot (frame_fields op k v) ->
  decode_frame (Z.of_nat (39 + length k + length v)) (frame_fields op k v ++ sum) = Some (op, k, v).
Proof.
  intros Hk Hv Hop Hsum. unfold key_ok, val_ok in *.
  assert (length sum = 32%nat) as Hs.
  { by rewrite Hsum, (oneshot_digest (digest := digest)), (sh_length (digest := digest)). }
  assert (read_u16_le (drop 1 (frame_fields op k v ++ sum)) = Z.of_nat (length k)) as E1.
  { unfold frame_fields. cbn [app drop]. rewrite <- app_assoc. apply read_write_u16. unfold two16. lia. }
  assert (read_u32_le (drop 3 (frame_fields op k v ++ sum)) = Z.of_nat (length v)) as E2.
  { unfold frame_fields. rewrite write_u16_le_eq. cbn [app drop le_bytes]. rewrite <- app_assoc.
    apply read_write_u32. unfold two32. lia. }
  pose proof (length_frame_fields op k v) as Hlen.
  unfold decode_frame. rewrite E1, E2.
  replace (byte_at (frame_fields op k v ++ sum) 0) with op by done.
  rewrite u32_id by (unfold in_u32, two32; lia).
  replace (7 + Z.of_nat (length k) + Z.of_nat (length v) + 32 =? Z.of_nat (39 + length k + length v))
    with true by (symmetry; apply Z.eqb_eq; lia). cbn [negb].
  replace (negb (op =? STORE_OP_PUT) && negb (op =? STORE_OP_DEL)) with false
    by (by destruct Hop as [->|[-> _]]).
  unfold STORE_MAX_KEY_LEN, STORE_MAX_VAL_LEN.
  replace ((Z.of_nat (length k) =? 0) || _ || _) with false.
  2: { symmetry. apply orb_false_iff. split; [apply orb_false_iff; split|].
       - apply Z.eqb_neq. lia. - apply Z.ltb_ge. lia. - apply Z.ltb_ge. lia. }
  replace ((op =? STORE_OP_DEL) && negb (Z.of_nat (length v) =? 0)) with false.
  2: { destruct Hop as [->|[-> ->]]; reflexivity. }
  replace (Z.to_nat (7 + Z.of_nat (length k) + Z.of_nat (length v))) with (length (frame_fields op k v)) by lia.
  rewrite take_app_length. unfold slice at 1. rewrite drop_app_length, take_ge, <- Hsum by lia.
  rewrite bytes_eqb_refl. cbn [negb]. rewrite !Nat2Z.id. do 3 f_equal.
  - unfold frame_fields. rewrite write_u16_le_eq, write_u32_le_eq.
    unfold slice. cbn [app le_bytes drop]. rewrite <- !app_assoc. by rewrite drop_0, take_app_length.
  - unfold frame_fields. rewrite write_u16_le_eq, write_u32_le_eq.
    unfold slice. cbn [app le_bytes drop Nat.add]. rewrite <- !app_assoc.
    by rewrite drop_app_length, take_app_length.
Qed.

(** The header and the two texts behind it are the fields of a frame. *)
Lemma fields_cut z z0 z1 z2 z3 z4 z5 buf : bytes_wf [z0; z1] -> bytes_wf [z2; z3; z4; z5] ->
  let klen := le_val [z0; z1] in let vlen := le_val [z2; z3; z4; z5] in
  klen + vlen <= Z.of_nat (length buf) ->
  take (Z.to_nat (7 + klen + vlen)) (z :: z0 :: z1 :: z2 :: z3 :: z4 :: z5 :: buf) =
    frame_fields z (take (Z.to_nat klen) buf) (take (Z.to_nat vlen) (drop (Z.to_nat klen) buf)).
Proof.
  intros Wk Wv klen vlen Hb. pose proof (le_val_range _ Wk) as Rk. pose proof (le_val_range _ Wv) as Rv.
  fold klen in Rk. fold vlen in Rv. unfold frame_fields. rewrite !length_take, length_drop, !Nat.min_l, !Z2Nat.id by lia.
  rewrite write_u16_le_eq, write_u32_le_eq by (cbn [length Z.of_nat] in Rk, Rv; lia). unfold klen at 2, vlen at 2. rewrite !le_bytes_val by done.
  replace (Z.to_nat (7 + klen + vlen)) with (7 + (Z.to_nat klen + Z.to_nat vlen))%nat by lia.
  cbn [Nat.add take app]. do 7 f_equal. by rewrite take_take_drop.
Qed.

(** An operation code and its texts are those of one update. *)
Lemma fields_update z key val : bytes_wf key -> bytes_wf val -> key_ok key -> val_ok val -> z = STORE_OP_PUT \/ z = STORE_OP_DEL /\ val = [] ->
  exists u, update_ok u /\ u_op u = z /\ u_key u = key /\ u_val u = val.
Proof. intros Wk Wv Hk Hv [->|[-> ->]]; [by exists (U_put key val)|by exists (U_del key)]. Qed.

Lemma next_frame_of u r : update_ok u -> next_frame (frame_of u ++ r) = Some (u, r).
Proof.
  intros Hu. pose proof Hu as (Hk & Hv & _). pose proof Hk as Hk'. pose proof Hv as Hv'.
  unfold key_ok, val_ok in Hk', Hv'.
  pose proof (frame_len_ok u Hu) as Hfl. pose proof (length_frame u Hu) as Hlen.
  unfold next_frame. unfold frame_of, frame in *. rewrite <- !app_assoc.
  rewrite Hfl. set (n := (39 + length (u_key u) + length (u_val u))%nat) in *.
  rewrite write_u32_le_eq.
  rewrite take_app_le, take_ge by (rewrite length_le_bytes; lia).
  rewrite length_le_bytes. change (4 <? 4)%nat with false. cbv iota.
  pose proof (read_write_u32 (Z.of_nat n) []) as Hr. rewrite app_nil_r, write_u32_le_eq in Hr.
  rewrite Hr by (unfold two32; lia).
  replace (_ || _) with false.
  2: { symmetry. unfold STORE_MAX_KEY_LEN, STORE_MAX_VAL_LEN. apply orb_false_iff.
       split; apply Z.ltb_ge; lia. }
  rewrite drop_app_length' by (by rewrite length_le_bytes).
  rewrite Nat2Z.id, app_assoc.
  assert (length (frame_fields (u_op u) (u_key u) (u_val u) ++
    oneshot (frame_fields (u_op u) (u_key u) (u_val u))) = n) as Hn.
  { rewrite length_app, length_frame_fields, (oneshot_digest (digest := digest)),
      (sh_length (digest := digest)). lia. }
  rewrite take_app_length' by done. rewrite Hn, Nat.ltb_irrefl.
  assert (u_op u = STORE_OP_PUT \/ u_op u = STORE_OP_DEL /\ u_val u = []) as Hop
    by (destruct u; [by left|by right]).
  pose proof (decode_fields _ _ _ _ Hk Hv Hop eq_refl) as Hd. fold n in Hd. rewrite Hd.
  cbn [mbind option_bind]. f_equal. f_equal; [by destruct u|].
  rewrite app_assoc, drop_app_length'; [done|]. rewrite length_app, length_le_bytes, Hn. done.
Qed.
(** What passes the checks is a frame. *)
Lemma decode_frame_inv frame_len buf op k v :
  bytes_wf buf -> 39 <= frame_len -> Z.of_nat (length buf) = frame_len ->
  decode_frame frame_len buf = Some (op, k, v) ->
  exists u, update_ok u /\ u_op u = op /\ u_key u = k /\ u_val u = v /\
    frame_len = frame_len_of k v /\ buf = frame_fields op k v ++ oneshot (frame_fields op k v).
Proof.
  intros Hw Hfl Hlen. do 7 (destruct buf as [|? buf]; [simpl in Hlen; lia|]).
  unfold bytes_wf in Hw. repeat (apply Forall_cons_1 in Hw as [? Hw]).
  unfold decode_frame. cbn [drop]. rewrite read_u16_le_eq, read_u32_le_eq by done.
  cbn [byte_at nth].
  set (klen := le_val [z0; z1]). set (vlen := le_val [z2; z3; z4; z5]).
  assert (bytes_wf [z0; z1]) as Wk by (repeat (apply Forall_cons_2; [done|]); constructor).
  assert (bytes_wf [z2; z3; z4; z5]) as Wv by (repeat (apply Forall_cons_2; [done|]); constructor).
  pose proof (le_val_range _ Wk) as Rk. pose proof (le_val_range _ Wv) as Rv.
  fold klen in Rk. fold vlen in Rv. cbn [length Z.of_nat] in Rk, Rv.
  unfold byte_at. cbn [nth].
  destruct (Z.eqb_spec (u32 (7 + klen + vlen + 32)) frame_len) as [E|]; [cbn [negb]|done].
  destruct (negb (z =? STORE_OP_PUT) && _) eqn:Eop; [done|].
  destruct ((klen =? 0) || _ || _) eqn:Elim; [done|]. unfold STORE_MAX_KEY_LEN, STORE_MAX_VAL_LEN in Elim.
  to_prop. rewrite u32_id in E by (unfold in_u32, two32; lia).
  destruct ((z =? STORE_OP_DEL) && _) eqn:Edel; [done|].
  set (n := Z.to_nat (7 + klen + vlen)).
  remember (z :: z0 :: z1 :: z2 :: z3 :: z4 :: z5 :: buf) as full eqn:Hfull.
  assert (length full = (n + 32)%nat) as Hn by lia.
  destruct (bytes_eqb _ _) eqn:Esum; [cbn [negb]|done]. apply bytes_eqb_eq in Esum.
  intros Hres. assert (op = z /\ k = slice 7 (Z.to_nat klen) full /\
    v = slice (7 + Z.to_nat klen) (Z.to_nat vlen) full) as (-> & -> & ->) by (by injection Hres as <- <- <-).
  clear Hres. assert (Hk : slice 7 (Z.to_nat klen) full = take (Z.to_nat klen) buf) by (subst full; done).
  assert (Hv : slice (7 + Z.to_nat klen) (Z.to_nat vlen) full =
    take (Z.to_nat vlen) (drop (Z.to_nat klen) buf)) by (subst full; done).
  rewrite Hk, Hv. set (key := take (Z.to_nat klen) buf). set (val := take _ (drop _ buf)).
  assert (length buf = (Z.to_nat klen + Z.to_nat vlen + 32)%nat) as Hbuf.
  { rewrite Hfull in Hn. simpl in Hn. lia. }
  assert (length key = Z.to_nat klen) as Lk by (unfold key; rewrite length_take; lia).
  assert (length val = Z.to_nat vlen) as Lv by (unfold val; rewrite length_take, length_drop; lia).
  assert (take n full = frame_fields z key val) as Hf.
  { unfold n, key, val. rewrite Hfull. apply fields_cut; [done..|fold klen vlen; lia]. }
  assert (drop n full = oneshot (take n full)) as Hd.
  { rewrite Esum. unfold slice. rewrite take_ge; [done|]. rewrite length_drop. lia. }
  assert (z = STORE_OP_PUT \/ z = STORE_OP_DEL /\ val = []) as Hop.
  { destruct Eop as [Eop|Eop]; to_prop; [by left|right]. split; [done|].
    destruct Edel as [Edel|Edel]; to_prop; [done|]. apply nil_length_inv. lia. }
  destruct (fields_update z key val) as (u & Hu & Eu & Ek & Ev); [by apply bytes_wf_take|by apply bytes_wf_take, bytes_wf_drop|unfold key_ok; lia|unfold val_ok; lia|done|].
  exists u. split_and!; [done..| |].
  - unfold frame_len_of. rewrite u32_id by (unfold in_u32, two32; lia). lia.
  - by rewrite <- Hf, <- Hd, take_drop.
Qed.

Lemma next_frame_inv l u r :
  bytes_wf l -> next_frame l = Some (u, r) -> update_ok u /\ l = frame_of u ++ r.
Proof.
  intros Hw. unfold next_frame. rewrite length_take.
  destruct (Nat.ltb_spec (4 `min` length l) 4) as [|Hl]; [done|].
  set (n := read_u32_le (take 4 l)).
  destruct ((n <? 39) || _) eqn:En; [done|]. to_prop.
  set (buf := take (Z.to_nat n) (drop 4 l)).
  destruct (Nat.ltb_spec (length buf) (Z.to_nat n)) as [|Hb]; [done|].
  assert (length buf = Z.to_nat n) as Hn by (unfold buf in *; rewrite length_take in *; lia).
  destruct (decode_frame n buf) as [[[op k] v]|] eqn:Ed; [|done]. cbn [mbind option_bind].
  apply decode_frame_inv in Ed as (u' & Hu & <- & <- & <- & Hfl & Hbuf); [| |lia|lia].
  2: { apply bytes_wf_take. by apply bytes_wf_drop. }
  intros Hres. assert (u = u' /\ r = drop (4 + Z.to_nat n) l) as [-> ->].
  { split; [|by injection Hres as _ <-]. injection Hres as <- _. by destruct u'. }
  split; [done|]. unfold frame_of, frame. rewrite <- Hfl, <- Hbuf.
  assert (take 4 l = write_u32_le n) as <-.
  { rewrite write_u32_le_eq. unfold n. do 4 (destruct l as [|? l]; [simpl in Hl; lia|]).
    cbn [take]. unfold bytes_wf in Hw. repeat (apply Forall_cons_1 in Hw as [? Hw]).
    rewrite read_u32_le_eq by done. symmetry. apply le_bytes_val; [|done].
    repeat (apply Forall_cons_2; [done|]). constructor. }
  unfold buf. rewrite <- drop_drop, <- app_assoc. by rewrite !take_drop.
Qed.
End Frames.

(** The log format is unambiguous: on any bytes, the checks recovery makes
    before replaying accept exactly the frames the commit path writes for an
    update within the limits (key of 1 to 1024 bytes, value of at most 1 MiB, no
    value in a deletion), and give back that update and the bytes after it. *)
Theorem next_frame_iff {C} `{StreamHash C} (digest : list Z -> list Z)
    (HL : StreamHashLaws C digest) l u r :
  bytes_wf l ->
  next_frame l = Some (u, r) <-> update_ok u /\ l = frame_of u ++ r.
Proof.
  intros Hw. split.
  - by apply next_frame_inv.
  - intros [Hu ->]. by apply next_frame_of.
Qed.

Definition small_log : list Z := frame_of (C := LinSha256) (U_put [97] [1]) ++ [7].

Lemma small_log_wf : bytes_wf small_log.
Proof. apply bytes_wfb_wf. vm_compute. reflexivity. Qed.

Lemma small_log_frame : next_frame (C := LinSha256) small_log = Some (U_put [97] [1], [7]).
Proof. vm_compute. reflexivity. Qed.

Lemma next_frame_iff_witness :
  update_ok (U_put [97] [1]) /\ small_log = frame_of (C := LinSha256) (U_put [97] [1]) ++ [7].
Proof.
  exact (proj1 (next_frame_iff (C := LinSha256) sha256_spec LinSha256_laws small_log (U_put [97] [1]) [7]
    small_log_wf) small_log_frame).
Defined.
