(* ===== verification/Store.v ===== *)
(** * store_c0.c: the store and its operations

    A [Machine] is the store instance and the files of its directory.  The
    operations receive the instance and non-NULL strings unless an argument is an
    [option]; the C test [!s] is the type of the state.  A staged operation owns
    two buffers: [s_live] says that they have not been freed, and using or
    freeing them again is [stuck]. *)
From stdpp Require Import gmap strings.
From S2P Require Import Prelude Common Sha256 Sys Memtable Merkle Wal.

Record StagedOp : Type := mkStaged { s_op : Z; s_key : list Z; s_val : list Z; s_live : bool }.

Record Store : Type := mkStore {
  memtable : MemTable;
  staged_ops : list StagedOp;
  staged_capacity : nat;
  frame_count : Z;
  wal_size : nat
}.

(** The directory: [store.wal], [store.chk], [store.chk.tmp], and whether the
    lock of [store.lock] is held. *)
Record Disk : Type := mkDisk {
  wal : list Z;
  chk : option (list Z);
  chk_tmp : option (list Z);
  locked : bool
}.

Record Machine : Type := mkMachine { store : Store; disk : Disk }.

Definition set_table (mt : MemTable) (s : Store) : Store :=
  mkStore mt (staged_ops s) (staged_capacity s) (frame_count s) (wal_size s).
Definition set_staged (l : list StagedOp) (cap : nat) (s : Store) : Store :=
  mkStore (memtable s) l cap (frame_count s) (wal_size s).
Definition set_cursors (frames : Z) (size : nat) (s : Store) : Store :=
  mkStore (memtable s) (staged_ops s) (staged_capacity s) frames size.
Definition set_wal (w : list Z) (d : Disk) : Disk := mkDisk w (chk d) (chk_tmp d) (locked d).
Definition set_chk (c t : option (list Z)) (d : Disk) : Disk := mkDisk (wal d) c t (locked d).
Definition set_lock (b : bool) (d : Disk) : Disk := mkDisk (wal d) (chk d) (chk_tmp d) b.

Definition on_store (f : Store -> Store) : M Machine unit :=
  modify (fun m => mkMachine (f (store m)) (disk m)).
Definition on_disk (f : Disk -> Disk) : M Machine unit :=
  modify (fun m => mkMachine (store m) (f (disk m))).
Definition on_table {A} (a : M MemTable A) : M Machine A :=
  zoom (fun m => memtable (store m))
    (fun mt m => mkMachine (set_table mt (store m)) (disk m)) a.

(** A result that is dropped. *)
Definition ignore {S} (a : M S unit) : M S unit := fun s t =>
  match a s t with Fail _ s t => Done tt s t | r => r end.

(** ** File operations on the log *)

(** [bs] written at offset [off], the file being extended when needed. *)
Definition file_write (off : nat) (bs file : list Z) : list Z :=
  take off (file ++ replicate (off - length file) 0) ++ bs ++ drop (off + length bs) file.

Section Operations.
Context `{Env} {C : Type} `{StreamHash C}.

(** [pread]: at most [n] bytes, or an error. *)
Definition pread (n off : nat) : M Machine (option (list Z)) :=
  ok ← io; m ← get; mret (if (ok : bool) then Some (slice off n (wal (disk m))) else None).

(** [pwrite(...) == len]; a failing one may have written a strict prefix. *)
Definition pwrite (bs : list Z) (off : nat) : M Machine bool := fun m t =>
  let done := if io_ok t then bs else take (Nat.min (io_count t) (length bs - 1)) bs in
  Done (io_ok t) (mkMachine (store m) (set_wal (file_write off done (wal (disk m))) (disk m))) (t + 1)%nat.

Definition ftruncate (n : nat) : M Machine bool :=
  ok ← io;
  if (ok : bool) then on_disk (fun d => set_wal (take n (wal d)) d);; mret true else mret false.

(** [fdatasync(fd) == 0 || fsync(fd) == 0]. *)
Definition sync : M Machine bool := ok ← io; if (ok : bool) then mret true else io.

(** ** Recovery *)

Definition write_wal_header : M Machine unit :=
  ok ← pwrite wal_header 0;
  if negb ok then raise STORE_ERR_IO
  else ok ← sync; if negb ok then raise STORE_ERR_IO else mret tt.

(** A torn or invalid frame: cut the log before it and stop. *)
Definition truncate_tail (frame_start : nat) (valid_frames : Z) : M Machine (nat * Z) :=
  ok ← ftruncate frame_start;
  if negb ok then raise STORE_ERR_IO else mret (frame_start, valid_frames).

Fixpoint replay_loop (fuel size offset : nat) (valid_frames : Z) : M Machine (nat * Z) :=
  match fuel with
  | O => stuck
  | S fuel =>
      if (offset <? size)%nat then
        n ← pread 4 offset;
        match n with
        | None => truncate_tail offset valid_frames
        | Some len_bytes =>
            if (length len_bytes =? 0)%nat then mret (offset, valid_frames)
            else if (length len_bytes <? 4)%nat then truncate_tail offset valid_frames
            else
              let frame_len := read_u32_le len_bytes in
              if (frame_len <? 39) || (STORE_MAX_KEY_LEN + STORE_MAX_VAL_LEN + 39 <? frame_len)
              then truncate_tail offset valid_frames
              else
                malloc;;
                n ← pread (Z.to_nat frame_len) (offset + 4);
                match n with
                | None => truncate_tail offset valid_frames
                | Some frame_buf =>
                    if (length frame_buf <? Z.to_nat frame_len)%nat
                    then truncate_tail offset valid_frames
                    else
                      match decode_frame frame_len frame_buf with
                      | None => truncate_tail offset valid_frames
                      | Some (op, key, val) =>
                          (if op =? STORE_OP_PUT then on_table (memtable_put key val)
                           else ignore (on_table (memtable_del key)));;
                          replay_loop fuel size (offset + 4 + Z.to_nat frame_len)
                            (u64 (valid_frames + 1))
                      end
                end
        end
      else mret (offset, valid_frames)
  end.

Definition recover_and_replay_wal : M Machine unit :=
  ok ← io;
  if negb ok then raise STORE_ERR_IO
  else
    m ← get;
    let size := length (wal (disk m)) in
    if (size =? 0)%nat then
      write_wal_header;; on_store (set_cursors 0 12)
    else if (size <? 12)%nat then raise STORE_ERR_CORRUPT
    else
      hdr ← pread 12 0;
      match hdr with
      | None => raise STORE_ERR_IO
      | Some hdr =>
          if negb (length hdr =? 12)%nat then raise STORE_ERR_IO
          else if negb (header_valid hdr) then raise STORE_ERR_CORRUPT
          else
            '(offset, valid_frames) ← replay_loop (S size) size 12 0;
            on_store (set_cursors valid_frames offset);;
            _ ← io; mret tt
      end.

(** ** Checkpoints *)

(** The 48 bytes the checksum covers. *)
Definition chk_body (frames : Z) (root : list Z) : list Z :=
  cstr "STRCHK" ++ write_u16_le 1 ++ write_u64_le frames ++ root.
Definition chk_bytes (frames : Z) (root : list Z) : list Z :=
  chk_body frames root ++ oneshot (chk_body frames root).

Definition merkle_root_of_table : M Machine (list Z) :=
  m ← get; store_get_merkle_root (entries (memtable (store m))).

Definition verify_checkpoint_on_open : M Machine unit :=
  ok ← io;
  m ← get;
  match chk (disk m) with
  | None => mret tt
  | Some raw =>
      if negb ok then raise STORE_ERR_IO
      else
        ok ← io;
        if negb ok || negb (length raw =? 80)%nat then mret tt
        else
          ok ← io;
          if negb ok then mret tt
          else if negb (bytes_eqb (take 6 raw) (cstr "STRCHK")) then mret tt
          else if negb (read_u16_le (drop 6 raw) =? 1) then mret tt
          else
            let chk_frames := read_u64_le (drop 8 raw) in
            if negb (bytes_eqb (oneshot (take 48 raw)) (slice 48 32 raw)) then mret tt
            else if frame_count (store m) <? chk_frames then mret tt
            else if chk_frames =? frame_count (store m) then
              current_root ← merkle_root_of_table;
              if negb (bytes_eqb current_root (slice 16 32 raw)) then raise STORE_ERR_CHK_MISMATCH
              else mret tt
            else mret tt
  end.

Definition store_checkpoint : M Machine unit :=
  ok ← sync;
  if negb ok then raise STORE_ERR_IO
  else
    root ← merkle_root_of_table;
    m ← get;
    let chk_raw := chk_bytes (frame_count (store m)) root in
    ok ← io;
    if negb ok then raise STORE_ERR_IO
    else
      on_disk (fun d => set_chk (chk d) (Some []) d);;
      ok ← io;
      if negb ok then on_disk (fun d => set_chk (chk d) None d);; raise STORE_ERR_IO
      else
        on_disk (fun d => set_chk (chk d) (Some chk_raw) d);;
        ok ← io;
        if negb ok then on_disk (fun d => set_chk (chk d) None d);; raise STORE_ERR_IO
        else
          ok ← io;
          if negb ok then on_disk (fun d => set_chk (chk d) None d);; raise STORE_ERR_IO
          else
            on_disk (fun d => set_chk (Some chk_raw) None d);;
            _ ← io; mret tt.

(** ** Opening and closing *)

(** [calloc]: every field zero. *)
Definition new_store : Store := mkStore memtable_init [] 0 0 0.

(** Run on a new instance; on failure it is freed and the lock released. *)
Definition with_new_store (a : M Machine unit) : M Disk Store := fun d t =>
  match a (mkMachine new_store d) t with
  | Done _ m t => Done (store m) (disk m) t
  | Fail e m t => Fail e (set_lock false (disk m)) t
  | Stuck => Stuck
  end.

(** [dir_ok]: the directory exists or could be made. *)
Definition store_open (dir_ok : bool) : M Disk Store :=
  if negb dir_ok then raise STORE_ERR_IO
  else
    malloc;;
    ok ← io;
    if negb ok then raise STORE_ERR_IO
    else
      d ← get;
      if locked d then raise STORE_ERR_LOCKED
      else
        modify (set_lock true);;
        ok ← io;
        if negb ok then modify (set_lock false);; raise STORE_ERR_IO
        else with_new_store (recover_and_replay_wal;; verify_checkpoint_on_open).

(** Freeing the staged buffers, once each. *)
Definition free_staged (l : list StagedOp) : M Machine unit :=
  if forallb s_live l then mret tt else stuck.

(** The instance is gone afterwards: only the disk is left. *)
Definition store_close : M Machine Disk :=
  _ ← io;
  on_disk (set_lock false);;
  m ← get;
  free_staged (staged_ops (store m));;
  mret (disk m).

(** ** Staging *)

(** Grow the staging queue when it is full. *)
Definition reserve_staged : M Machine unit :=
  m ← get;
  let s := store m in
  if (staged_capacity s <=? length (staged_ops s))%nat then
    let new_cap := if (staged_capacity s =? 0)%nat then 16%nat else (staged_capacity s * 2)%nat in
    malloc;; on_store (fun s => set_staged (staged_ops s) new_cap s)
  else mret tt.

Definition push_staged (sop : StagedOp) : M Machine unit :=
  on_store (fun s => set_staged (staged_ops s ++ [sop]) (staged_capacity s) s).

Definition store_put (key : option (list Z)) (val : option (list Z)) (val_len : Z) : M Machine unit :=
  match key with
  | None => raise STORE_ERR_INVALID_ARG
  | Some k =>
      let key_len := Z.of_nat (length k) in
      if key_len =? 0 then raise STORE_ERR_INVALID_ARG
      else if STORE_MAX_KEY_LEN <? key_len then raise STORE_ERR_LIMIT_KEY
      else if STORE_MAX_VAL_LEN <? val_len then raise STORE_ERR_LIMIT_VAL
      else if bool_decide (val = None) && (0 <? val_len) then raise STORE_ERR_INVALID_ARG
      else
        let v := take (Z.to_nat val_len) (default [] val) in
        reserve_staged;;
        malloc;;
        malloc;;
        on_table (memtable_put k v);;
        push_staged (mkStaged STORE_OP_PUT k v true)
  end.

Definition store_del (key : option (list Z)) : M Machine unit :=
  match key with
  | None => raise STORE_ERR_INVALID_ARG
  | Some k =>
      let key_len := Z.of_nat (length k) in
      if key_len =? 0 then raise STORE_ERR_INVALID_ARG
      else if STORE_MAX_KEY_LEN <? key_len then raise STORE_ERR_LIMIT_KEY
      else
        m ← get;
        '(_, found) ← of_option (memtable_find (memtable (store m)) k);
        if negb found then raise STORE_ERR_NOT_FOUND
        else
          reserve_staged;;
          malloc;;
          on_table (memtable_del k);;
          push_staged (mkStaged STORE_OP_DEL k [] true)
  end.

(** ** Commit *)

Fixpoint total_bytes (l : list StagedOp) : Z :=
  match l with
  | [] => 0
  | sop :: l => 4 + frame_len_of (s_key sop) (s_val sop) + total_bytes l
  end.

Fixpoint commit_loop (l : list StagedOp) (write_cursor : nat) : M Machine nat :=
  match l with
  | [] => mret write_cursor
  | sop :: l =>
      malloc;;
      if negb (s_live sop) then stuck
      else
        let buf := frame (s_op sop) (s_key sop) (s_val sop) in
        ok ← pwrite buf write_cursor;
        if negb ok then raise STORE_ERR_IO
        else commit_loop l (write_cursor + (4 + Z.to_nat (frame_len_of (s_key sop) (s_val sop))))
  end.

Definition kill (sop : StagedOp) : StagedOp := mkStaged (s_op sop) (s_key sop) (s_val sop) false.

Definition store_commit : M Machine unit :=
  m ← get;
  let s := store m in
  if (length (staged_ops s) =? 0)%nat then mret tt
  else if STORE_MAX_WAL_SIZE <? Z.of_nat (wal_size s) + total_bytes (staged_ops s)
  then raise STORE_ERR_LIMIT_WAL
  else
    write_cursor ← commit_loop (staged_ops s) (wal_size s);
    on_store (fun s => set_cursors
      (u64 (frame_count s + Z.of_nat (length (staged_ops s)))) write_cursor s);;
    free_staged (staged_ops s);;
    on_store (fun s => set_staged (map kill (staged_ops s)) (staged_capacity s) s);;
    ok ← sync;
    if negb ok then raise STORE_ERR_IO
    else on_store (set_staged [] 0).

(** ** Reading *)

(** The result code, [*out_vlen] and the bytes copied to [out_val]; [None] is
    memory left alone. *)
Definition store_get (s : Store) (key : option (list Z)) (out_val : bool) (cap : Z) (out_vlen : bool)
    : option (option StoreErr * option Z * option (list Z)) :=
  match key with
  | None => Some (Some STORE_ERR_INVALID_ARG, None, None)
  | Some k =>
      if (length k =? 0)%nat || negb out_vlen then Some (Some STORE_ERR_INVALID_ARG, None, None)
      else
        '(idx, found) ← memtable_find (memtable s) k;
        if negb (found : bool) then Some (Some STORE_ERR_NOT_FOUND, Some 0, None)
        else
          e ← entries (memtable s) !! idx;
          let val_len := Z.of_nat (length (e_val e)) in
          if cap <? val_len then Some (Some STORE_ERR_LIMIT_VAL, Some val_len, None)
          else Some (None, Some val_len, if out_val && (0 <? val_len) then Some (e_val e) else None)
  end.

Definition store_get_frame_count (s : option Store) : Z :=
  match s with Some s => frame_count s | None => 0 end.
Definition store_get_active_keys_count (s : option Store) : nat :=
  match s with Some s => length (entries (memtable s)) | None => O end.
Definition store_get_wal_size (s : option Store) : nat :=
  match s with Some s => wal_size s | None => O end.
End Operations.
