(* ===== verification/Recover.v ===== *)
(** * Recovery of the log: what an open finds

    The log of a list of updates is the header and their frames.  Whatever the
    file holds, recovery replays the longest prefix of whole, valid frames and
    cuts the rest off. *)
From stdpp Require Import gmap strings.
From S2P Require Import Prelude Common Sha256 Sys Memtable Merkle Wal Store.

Section Recovery.
Context `{EV : Env} {C : Type} `{HC : StreamHash C} {digest : list Z -> list Z} `{!StreamHashLaws C digest}.

Definition log (us : list update) : list Z := wal_header ++ frames us.

(** A machine that differs from [s0] and [d0] by its log and its table, which
    stands for [m]. *)
Definition at_ (s0 : Store) (d0 : Disk) (w : list Z) (mp : gmap (list Z) (list Z)) (m : Machine) : Prop :=
  exists mt, m = mkMachine (set_table mt s0) (set_wal w d0) /\ table_ok mt mp.

Lemma frames_app us vs : frames (us ++ vs) = frames us ++ frames vs.
Proof. unfold frames. by rewrite map_app, concat_app. Qed.

Lemma frames_cons u us : frames (u :: us) = frame_of u ++ frames us.
Proof. done. Qed.

Lemma log_app us vs : log (us ++ vs) = log us ++ frames vs.
Proof. unfold log. by rewrite frames_app, app_assoc. Qed.

Lemma length_header : length wal_header = 12%nat.
Proof. done. Qed.

Lemma header_ok : header_valid wal_header = true.
Proof. reflexivity. Qed.

Lemma pread_ok s0 d0 pre l mp n k (E : StoreErr -> Machine -> Prop) :
  triple (at_ s0 d0 (pre ++ l) mp) (pread n (length pre + k))
    (fun r m => at_ s0 d0 (pre ++ l) mp m /\
       (r = Some (take n (drop k l)) \/ r = None /\ io_failed)) E.
Proof.
  assert (forall m, at_ s0 d0 (pre ++ l) mp m ->
    slice (length pre + k) n (wal (disk m)) = take n (drop k l)) as Hs.
  { intros m (mt & -> & _). cbn [disk wal set_wal]. unfold slice.
    by rewrite <- drop_drop, drop_app_length. }
  unfold pread. apply bind_io.
  - apply bind_get. intros m Hm. apply triple_ret. intros ? ->. rewrite Hs by done. auto.
  - intros Hio. apply bind_get. intros m Hm. apply triple_ret. intros ? ->. auto.
Qed.

Lemma truncate_ok s0 d0 pre l mp n :
  triple (at_ s0 d0 (pre ++ l) mp) (truncate_tail (length pre) n)
    (fun r m => r = (length pre, n) /\ at_ s0 d0 pre mp m)
    (fun e m => e = STORE_ERR_IO /\ io_failed /\ at_ s0 d0 (pre ++ l) mp m).
Proof.
  unfold truncate_tail. eapply triple_bind with (R := fun b m =>
    if b : bool then at_ s0 d0 pre mp m else io_failed /\ at_ s0 d0 (pre ++ l) mp m).
  - unfold ftruncate. apply bind_io.
    + eapply bind_modify; [|apply triple_ret; exact (fun s H => H)].
      intros m (mt & -> & Hmt). exists mt. split; [|done]. cbn. unfold set_wal. cbn.
      by rewrite take_app_length.
    + intros Hio. apply triple_ret. by intros.
  - intros []; cbn [negb].
    + by apply triple_ret.
    + apply triple_raise. intros m [? ?]. done.
Qed.

Lemma table_put_ok s0 d0 w mp k v :
  triple (at_ s0 d0 w mp) (on_table (memtable_put k v))
    (fun _ => at_ s0 d0 w (<[k := v]> mp))
    (fun e m => e = STORE_ERR_NOMEM /\ alloc_failed /\ at_ s0 d0 w mp m).
Proof.
  intros m t (mt & -> & Hmt). unfold on_table, zoom.
  pose proof (memtable_put_ok mt mp k v Hmt mt t eq_refl) as Hp.
  cbn [store memtable set_table]. destruct (memtable_put k v mt t) as [[] mt' t'|e mt' t'|]; [|  |done].
  - by exists mt'.
  - destruct Hp as (-> & Ha & _ & Hok). split_and!; [done|done|]. by exists mt'.
Qed.

Lemma table_del_ok s0 d0 w mp k E :
  triple (at_ s0 d0 w mp) (ignore (on_table (memtable_del k)))
    (fun _ => at_ s0 d0 w (delete k mp)) E.
Proof.
  intros m t (mt & -> & Hmt). unfold ignore, on_table, zoom.
  pose proof (memtable_del_ok mt mp k Hmt mt t eq_refl) as Hp.
  cbn [store memtable set_table]. destruct (memtable_del k mt t) as [[] mt' t'|e mt' t'|]; [|  |done].
  - exists mt'. split; [done|]. apply Hp.
  - destruct Hp as (_ & -> & Hn). exists mt. by rewrite delete_id.
Qed.
(** What the loop leaves, started at the end of [pre] with [l] ahead. *)
Definition replayed (s0 : Store) (d0 : Disk) (pre l : list Z) (mp : gmap (list Z) (list Z)) (n0 : Z)
    (r : nat * Z) (m : Machine) : Prop :=
  exists us rest, l = frames us ++ rest /\ Forall update_ok us /\
    (next_frame rest = None \/ io_failed) /\
    r = ((length pre + length (frames us))%nat, u64 (n0 + Z.of_nat (length us))) /\
    at_ s0 d0 (pre ++ frames us) (fold_left apply us mp) m.

Definition replay_failed (s0 : Store) (d0 : Disk) (w : list Z) (e : StoreErr) (m : Machine) : Prop :=
  (e = STORE_ERR_NOMEM /\ alloc_failed \/ e = STORE_ERR_IO /\ io_failed) /\
  exists mp, at_ s0 d0 w mp m.

Lemma stop_here s0 d0 pre l mp n0 :
  in_u64 n0 -> (next_frame l = None \/ io_failed) ->
  triple (at_ s0 d0 (pre ++ l) mp) (truncate_tail (length pre) n0)
    (replayed s0 d0 pre l mp n0) (replay_failed s0 d0 (pre ++ l)).
Proof.
  intros Hn Hl. eapply triple_weaken; [apply truncate_ok|done| |].
  - intros r m [-> Hm]. exists [], l. split; [done|]. split; [constructor|]. split; [done|].
    split; [by rewrite Z.add_0_r, u64_id, Nat.add_0_r|]. by rewrite app_nil_r.
  - intros e m (-> & ? & Hm). split; [by right|by eexists].
Qed.

Lemma replayed_cons s0 d0 pre l mp n0 u r m :
  update_ok u ->
  replayed s0 d0 (pre ++ frame_of u) l (apply mp u) (u64 (n0 + 1)) r m ->
  replayed s0 d0 pre (frame_of u ++ l) mp n0 r m.
Proof.
  intros Hu (us & rest & -> & Hus & Hr & -> & Hm). exists (u :: us), rest.
  rewrite frames_cons, <- !app_assoc in *. split; [done|]. split; [by constructor|].
  split; [done|]. split; [|done]. rewrite !length_app. cbn [length].
  f_equal; [lia|]. rewrite Nat2Z.inj_succ. unfold u64, two64. rewrite Zplus_mod_idemp_l. f_equal. lia.
Qed.

Lemma replay_loop_ok fuel : forall s0 d0 pre l mp n0,
  (length l < fuel)%nat -> bytes_wf l -> in_u64 n0 ->
  triple (at_ s0 d0 (pre ++ l) mp)
    (replay_loop fuel (length (pre ++ l)) (length pre) n0)
    (replayed s0 d0 pre l mp n0) (replay_failed s0 d0 (pre ++ l)).
Proof.
  induction fuel as [|fuel IH]; intros s0 d0 pre l mp n0 Hf Hw Hn; [lia|].
  cbn [replay_loop]. rewrite length_app.
  destruct (Nat.ltb_spec (length pre) (length pre + length l)) as [Hlt|Hge].
  2: { apply triple_ret. intros m Hm. exists [], l. destruct l; [|simpl in Hge; lia].
       split; [done|]. split; [constructor|]. split; [by left|].
       split; [by rewrite Z.add_0_r, u64_id, Nat.add_0_r|done]. }
  eapply triple_bind; [rewrite <- (Nat.add_0_r (length pre)) at 1; apply pread_ok|].
  rewrite drop_0. intros r. apply triple_at. intros m [Hm Hr].
  eapply triple_from with (P := at_ s0 d0 (pre ++ l) mp); [|by intros ? ->].
  clear m Hm. destruct Hr as [->|[-> Hio]]; [|apply stop_here; auto].
  rewrite length_take.
  destruct (Nat.eqb_spec (4 `min` length l) 0) as [|_]; [lia|].
  assert (next_frame l = next_frame l) as Hnf by done. unfold next_frame at 2 in Hnf.
  rewrite length_take in Hnf.
  destruct (Nat.ltb_spec (4 `min` length l) 4); [apply stop_here; auto|].
  destruct ((read_u32_le (take 4 l) <? 39) || _) eqn:El; [apply stop_here; auto|].
  set (n := read_u32_le (take 4 l)) in *.
  apply bind_malloc; [intros s Hs Ha; split; [by left|by eexists]|].
  eapply triple_bind; [apply pread_ok|]. intros r. apply triple_at. intros m [Hm Hr].
  eapply triple_from with (P := at_ s0 d0 (pre ++ l) mp); [|by intros ? ->].
  clear m Hm. destruct Hr as [->|[-> Hio]]; [|apply stop_here; auto].
  set (buf := take (Z.to_nat n) (drop 4 l)) in *.
  destruct (Nat.ltb_spec (length buf) (Z.to_nat n)); [apply stop_here; auto|].
  destruct (decode_frame n buf) as [[[op k] v]|] eqn:Ed; [|apply stop_here; auto].
  cbn [mbind option_bind] in Hnf.
  apply next_frame_inv in Hnf as [Hu Hl]; [|done].
  set (u := if op =? STORE_OP_PUT then U_put k v else U_del k) in *.
  set (tl := drop (4 + Z.to_nat n) l) in *.
  assert (length (frame_of u) = (4 + Z.to_nat n)%nat) as Hlen.
  { apply (f_equal length) in Hl. rewrite length_app in Hl. unfold tl, buf in *.
    rewrite length_take, length_drop in *. lia. }
  eapply triple_bind with (R := fun _ => at_ s0 d0 (pre ++ l) (apply mp u)).
  { unfold u. destruct (op =? STORE_OP_PUT); [|apply table_del_ok].
    eapply triple_weaken; [apply table_put_ok|done|done|].
    intros e m (-> & ? & ?). split; [by left|by eexists]. }
  intros []. replace (length pre + 4 + Z.to_nat n)%nat with (length (pre ++ frame_of u))
    by (rewrite length_app; lia).
  assert (length pre + length l = length ((pre ++ frame_of u) ++ tl))%nat as ->
    by (rewrite <- app_assoc, <- Hl, length_app; done).
  assert (pre ++ l = (pre ++ frame_of u) ++ tl) as Heq by by rewrite <- app_assoc, <- Hl.
  rewrite Heq. eapply triple_weaken; [apply (IH s0 d0 (pre ++ frame_of u) tl (apply mp u))|done| |done].
  - unfold tl. rewrite length_drop. lia.
  - by apply bytes_wf_drop.
  - apply u64_range.
  - intros r m Hr. rewrite Hl. by apply replayed_cons.
Qed.
(** A valid header is the one the store writes. *)
Lemma header_inv h : bytes_wf h -> length h = 12%nat -> header_valid h = true -> h = wal_header.
Proof.
  intros Hw Hl. do 12 (destruct h as [|? h]; [done|]). destruct h; [|done]. clear Hl.
  unfold bytes_wf in Hw. repeat (apply Forall_cons_1 in Hw as [? Hw]).
  unfold header_valid. cbn [take drop]. rewrite !read_u16_le_eq, read_u32_le_eq by done.
  intros ((([= -> -> -> ->]%bytes_eqb_eq & E1%Z.eqb_eq)%andb_true_iff & E2%Z.eqb_eq)%andb_true_iff &
    E3%Z.eqb_eq)%andb_true_iff.
  assert (forall l v, bytes_wf l -> le_val l = v -> l = le_bytes (length l) v) as Hle.
  { intros l v Hwl <-. symmetry. by apply le_bytes_val. }
  apply Hle in E1; [|by repeat (apply Forall_cons_2; [done|]); constructor].
  apply Hle in E2; [|by repeat (apply Forall_cons_2; [done|]); constructor].
  apply Hle in E3; [|by repeat (apply Forall_cons_2; [done|]); constructor].
  cbn in E1, E2, E3. injection E1 as -> ->. injection E2 as -> -> -> ->. injection E3 as -> ->.
  reflexivity.
Qed.

(** What the recovery makes of a file. *)
Definition recovered (s0 : Store) (d0 : Disk) (w : list Z) (m : Machine) : Prop :=
  exists us rest, (w = log us ++ rest \/ w = [] /\ us = [] /\ rest = []) /\ Forall update_ok us /\
    (next_frame rest = None \/ io_failed) /\
    at_ (set_cursors (u64 (Z.of_nat (length us))) (length (log us)) s0) d0 (log us) (replay us) m.

Definition recover_failed (s0 : Store) (d0 : Disk) (w : list Z) (e : StoreErr) (m : Machine) : Prop :=
  (exists w' mp, at_ s0 d0 w' mp m /\ (w' = w \/ w = [] /\ io_failed)) /\
  (e = STORE_ERR_NOMEM /\ alloc_failed \/ e = STORE_ERR_IO /\ io_failed \/
   e = STORE_ERR_CORRUPT /\ w <> [] /\ take 12 w <> wal_header).

Lemma set_cursors_at s0 d0 w mp n k m :
  at_ s0 d0 w mp m -> at_ (set_cursors n k s0) d0 w mp (mkMachine (set_cursors n k (store m)) (disk m)).
Proof. intros (mt & -> & Hmt). by exists mt. Qed.

Lemma pwrite_ok s0 d0 w mp bs off (E : StoreErr -> Machine -> Prop) :
  triple (at_ s0 d0 w mp) (pwrite bs off)
    (fun b m => if b then at_ s0 d0 (file_write off bs w) mp m
       else io_failed /\ exists k, (k <= length bs - 1)%nat /\ at_ s0 d0 (file_write off (take k bs) w) mp m) E.
Proof.
  intros m t (mt & -> & Hmt). unfold pwrite. cbn [store disk wal set_wal].
  destruct (io_ok t) eqn:Eio.
  - by exists mt.
  - split; [by exists t|]. eexists. split; [apply Nat.le_min_r|]. by exists mt.
Qed.

Lemma sync_ok (P : Machine -> Prop) E :
  triple P sync (fun b m => P m /\ (b = false -> io_failed)) E.
Proof.
  unfold sync. apply bind_io; [by apply triple_ret|]. intros Hio. apply triple_io.
Qed.

(** A new log gets its header. *)
Lemma fresh_header s0 d0 :
  triple (at_ s0 d0 [] ∅) write_wal_header (fun _ => at_ s0 d0 wal_header ∅) (recover_failed s0 d0 []).
Proof.
  unfold write_wal_header. eapply triple_bind; [apply pwrite_ok|]. intros []; cbn [negb].
  - change (file_write 0 wal_header []) with wal_header.
    eapply triple_bind; [apply sync_ok|]. intros []; cbn [negb].
    + apply triple_ret. by intros m [? _].
    + apply triple_raise. intros m [Hm Hb]. specialize (Hb eq_refl). split; [|auto]. eexists _, _. split; [exact Hm|]. by right.
  - apply triple_raise. intros m (Hio & k & _ & Hm). split; [|auto]. eexists _, _. split; [exact Hm|]. by right.
Qed.

Lemma recover_ok s0 d0 w :
  bytes_wf w ->
  triple (at_ s0 d0 w ∅) recover_and_replay_wal
    (fun _ => recovered s0 d0 w) (recover_failed s0 d0 w).
Proof.
  intros Hw. unfold recover_and_replay_wal. apply bind_io; cbn [negb].
  2: { intros Hio. apply triple_raise. intros m Hm. split; [eexists _, _; eauto|auto]. }
  apply bind_get. intros m Hm. destruct (Hm) as (mt & Em & Hmt). rewrite Em.
  cbn [disk wal set_wal]. rewrite <- Em.
  eapply triple_from with (P := at_ s0 d0 w ∅); [|by intros ? ->]. clear m mt Em Hmt Hm.
  destruct (Nat.eqb_spec (length w) 0) as [->%nil_length_inv|Hne].
  { eapply triple_bind; [apply fresh_header|]. intros []. apply triple_modify. intros m Hm. exists [], []. split; [by right|].
    split; [constructor|]. split; [by left|]. by apply set_cursors_at. }
  assert (w <> []) as Hnil by by intros ->.
  destruct (Nat.ltb_spec (length w) 12) as [Hlt|Hge].
  { apply triple_raise. intros m Hm. split; [eexists _, _; eauto|]. do 2 right. split; [done|].
    split; [done|]. intros E. apply (f_equal length) in E. rewrite length_take, length_header in E. lia. }
  eapply triple_bind with (R := fun r m => at_ s0 d0 w ∅ m /\ (r = Some (take 12 w) \/ r = None /\ io_failed)).
  { apply (pread_ok s0 d0 [] w ∅ 12 0). }
  intros r. apply triple_at. intros m [Hm Hr].
  eapply triple_from with (P := at_ s0 d0 w ∅); [|by intros ? ->]. clear m Hm.
  destruct Hr as [->|[-> Hio]].
  2: { apply triple_raise. intros m Hm. split; [eexists _, _; eauto|auto]. }
  rewrite length_take. destruct (Nat.eqb_spec (12 `min` length w) 12) as [_|]; [|lia]. cbn [negb].
  destruct (header_valid (take 12 w)) eqn:Eh; cbn [negb].
  2: { apply triple_raise. intros m Hm. split; [eexists _, _; eauto|]. do 2 right. split; [done|].
       split; [done|]. intros E. by rewrite E in Eh. }
  apply header_inv in Eh; [|by apply bytes_wf_take|rewrite length_take; lia].
  assert (w = wal_header ++ drop 12 w) as Hcut by (by rewrite <- Eh, take_drop).
  set (l := drop 12 w) in *.
  eapply triple_bind with (R := replayed s0 d0 wal_header l ∅ 0).
  { rewrite Hcut. eapply triple_weaken; [apply (replay_loop_ok _ s0 d0 wal_header l)|done|done|].
    - rewrite length_app, length_header. lia.
    - by apply bytes_wf_drop.
    - unfold in_u64, two64. lia.
    - intros e m (He & mp & Hm). split; [eexists _, _; eauto|]. destruct He; auto. }
  intros r. apply triple_at. intros m (us & rest & Hl & Hus & Hrest & -> & Hm).
  apply bind_modify with (P' := recovered s0 d0 w).
  { intros ? ->. exists us, rest. split; [left; by rewrite Hcut, Hl, app_assoc|].
    split; [done|]. split; [done|]. rewrite Z.add_0_l. by apply (set_cursors_at s0 d0 (log us)). }
  apply bind_io; [by apply triple_ret|]. intros _. by apply triple_ret.
Qed.
End Recovery.
