(* ===== verification/StoreSpec.v ===== *)
(** * What the store promises

    The abstract store is a list of committed updates and a list of staged ones;
    a machine implements it when its table stands for the replay of both, its
    queue holds the staged ones, and its log file the committed ones, followed
    by whatever part of the staged ones a failed commit has already written.
    Every operation preserves the invariant, and an open finds what is in the
    file. *)
From stdpp Require Import gmap strings.
From S2P Require Import Prelude Common Sha256 Sys Memtable Merkle Wal Store Recover.

(** The staged operation of an update. *)
Definition staged_of (u : update) : StagedOp := mkStaged (u_op u) (u_key u) (u_val u) true.

Section Spec.
Context `{EV : Env} {C : Type} `{HC : StreamHash C} {digest : list Z -> list Z} `{!StreamHashLaws C digest}.

Record store_inv (committed staged : list update) (written : nat) (m : Machine) : Prop := mkInv {
  inv_committed : Forall update_ok committed;
  inv_staged : Forall update_ok staged;
  inv_queue : staged_ops (store m) = map staged_of staged;
  inv_cap : (length staged <= staged_capacity (store m))%nat;
  inv_table : table_ok (memtable (store m)) (replay (committed ++ staged));
  inv_frames : frame_count (store m) = u64 (Z.of_nat (length committed));
  inv_size : wal_size (store m) = length (log committed);
  inv_wal : wal (disk m) = log committed ++ take written (frames staged);
  inv_written : (written <= length (frames staged))%nat;
  inv_locked : locked (disk m) = true
}.

(** ** Opening *)

Definition chk_valid (raw : list Z) : bool :=
  (length raw =? 80)%nat && bytes_eqb (take 6 raw) (cstr "STRCHK") &&
  (read_u16_le (drop 6 raw) =? 1) && bytes_eqb (oneshot (take 48 raw)) (slice 48 32 raw).

(** A checkpoint of as many frames, with another root. *)
Definition chk_conflicts (s : Store) (raw : list Z) : bool :=
  chk_valid raw && (read_u64_le (drop 8 raw) =? frame_count s) &&
  negb (bytes_eqb (merkle_root (entries (memtable s))) (slice 16 32 raw)).

Definition verify_failed (m : Machine) (e : StoreErr) : Prop :=
  e = STORE_ERR_NOMEM /\ alloc_failed \/ e = STORE_ERR_IO /\ io_failed \/
  e = STORE_ERR_CHK_MISMATCH /\ exists raw, chk (disk m) = Some raw /\ chk_conflicts (store m) raw = true.

Definition verified (m : Machine) : Prop :=
  io_failed \/ forall raw, chk (disk m) = Some raw -> chk_conflicts (store m) raw = false.

Lemma verify_ok m :
  triple (fun x => x = m) verify_checkpoint_on_open
    (fun _ x => x = m /\ verified m) (fun e x => x = m /\ verify_failed m e).
Proof.
  unfold verify_checkpoint_on_open. eapply triple_bind; [apply triple_io|]. intros ok1.
  apply bind_get. intros x [-> Hio1].
  destruct (chk (disk m)) as [raw|] eqn:Ec.
  2: { apply triple_ret. intros ? ->. split; [done|]. right. intros raw Hr. congruence. }
  assert (forall X : Prop, (X -> io_failed) ->
    (X \/ chk_conflicts (store m) raw = false) ->
    triple (fun x => x = m) (mret tt : M Machine unit) (fun _ x => x = m /\ verified m)
      (fun e x => x = m /\ verify_failed m e)) as Hret.
  { intros X HX Hc. apply triple_ret. intros ? ->. split; [done|]. destruct Hc as [Hx|Hc]; [left; auto|right].
    intros r Hr. rewrite Ec in Hr. by injection Hr as <-. }
  unfold chk_conflicts, chk_valid in Hret.
  destruct ok1; cbn [negb].
  2: { apply triple_raise. intros ? ->. split; [done|]. right; left. auto. }
  apply bind_io; [|intros Hio; apply (Hret io_failed); auto]. cbn [negb orb].
  destruct (Nat.eqb_spec (length raw) 80) as [Hl|Hl]; cbn [negb] in *; [|apply (Hret False); [done|by right]].
  apply bind_io; [|intros Hio; apply (Hret io_failed); auto]. cbn [negb].
  destruct (bytes_eqb (take 6 raw) _) eqn:E1; cbn [negb andb] in *; [|apply (Hret False); [done|by right]].
  destruct (read_u16_le (drop 6 raw) =? 1) eqn:E2; cbn [negb andb] in *; [|apply (Hret False); [done|by right]].
  destruct (bytes_eqb (oneshot _) _) eqn:E3; cbn [negb andb] in *; [|apply (Hret False); [done|by right]].
  destruct (frame_count (store m) <? read_u64_le (drop 8 raw)) eqn:E4.
  { apply (Hret False); [done|right]. to_prop. destruct (Z.eqb_spec (read_u64_le (drop 8 raw)) (frame_count (store m))); [lia|done]. }
  destruct (read_u64_le (drop 8 raw) =? frame_count (store m)) eqn:E5; cbn [andb] in *; [|apply (Hret False); [done|by right]].
  eapply triple_bind with (R := fun r x => x = m /\ r = merkle_root (entries (memtable (store m)))).
  { unfold merkle_root_of_table. apply bind_get. intros x ->.
    eapply triple_weaken; [apply (merkle_root_ok (fun x => x = m))|done|done|].
    intros e x (-> & Ha & ->). split; [done|]. by left. }
  intros r. apply triple_at. intros x [-> ->].
  destruct (bytes_eqb (merkle_root _) _) eqn:E6; cbn [negb] in *; [apply (Hret False); [done|by right]|].
  apply triple_raise. intros ? ->. split; [done|]. do 2 right. split; [done|]. exists raw.
  split; [done|]. unfold chk_conflicts, chk_valid. rewrite Hl, E1, E2, E3, E5, E6. done.
Qed.
(** What an open finds in a file: the longest prefix of whole valid frames. *)
Definition finds (w : list Z) (us : list update) : Prop :=
  Forall update_ok us /\
  exists rest, (w = log us ++ rest \/ w = [] /\ us = [] /\ rest = []) /\
    (next_frame rest = None \/ io_failed).

Definition opened (d : Disk) (s : Store) (d' : Disk) : Prop :=
  exists us, finds (wal d) us /\ store_inv us [] 0 (mkMachine s d') /\ chk d' = chk d /\
    verified (mkMachine s d').

Definition open_failed (d : Disk) (e : StoreErr) (d' : Disk) : Prop :=
  locked d' = false /\ chk d' = chk d /\
  (wal d' = wal d \/ wal d = [] \/ exists us, finds (wal d) us /\ wal d' = log us) /\
  (e = STORE_ERR_NOMEM /\ alloc_failed \/ e = STORE_ERR_IO /\ io_failed \/
   e = STORE_ERR_CORRUPT /\ wal d <> [] /\ take 12 (wal d) <> wal_header /\ wal d' = wal d \/
   e = STORE_ERR_CHK_MISMATCH /\ exists us s raw, finds (wal d) us /\
     store_inv us [] 0 (mkMachine s (set_lock true d')) /\ chk d = Some raw /\ chk_conflicts s raw = true).

Lemma recovered_inv d m :
  locked d = true -> recovered new_store d (wal d) m ->
  exists us, finds (wal d) us /\ store_inv us [] 0 m /\ chk (disk m) = chk d /\ wal (disk m) = log us.
Proof.
  intros Hl (us & rest & Hw & Hus & Hr & mt & -> & Hmt). exists us.
  split; [split; [done|by exists rest]|]. split; [|done].
  constructor; cbn; try done.
  - by rewrite app_nil_r.
  - by rewrite app_nil_r.
Qed.

Lemma open_ok d t :
  bytes_wf (wal d) -> locked d = false ->
  match store_open true d t with
  | Done s d' _ => opened d s d'
  | Fail e d' _ => open_failed d e d'
  | Stuck => False
  end.
Proof.
  intros Hw Hl.
  assert (triple (fun x => x = d) (store_open true) (opened d) (open_failed d)) as H; [|exact (H d t eq_refl)].
  assert (forall e, (e = STORE_ERR_NOMEM /\ alloc_failed \/ e = STORE_ERR_IO /\ io_failed) ->
    open_failed d e d) as Hsame.
  { intros e He. split; [done|]. split; [done|]. split; [by left|]. destruct He; auto. }
  unfold store_open. cbn [negb].
  apply bind_malloc; [intros ? -> Ha; apply Hsame; auto|].
  apply bind_io; cbn [negb]; [|intros Hio; apply triple_raise; intros ? ->; apply Hsame; auto].
  apply bind_get. intros ? ->. rewrite Hl.
  apply bind_modify with (P' := fun x => x = set_lock true d); [by intros ? ->|].
  apply bind_io; cbn [negb].
  2: { intros Hio. apply bind_modify with (P' := fun x => x = d).
       - intros ? ->. destruct d; simpl in *; subst; done.
       - apply triple_raise. intros ? ->. apply Hsame. auto. }
  intros x t' ->. unfold with_new_store.
  set (d1 := set_lock true d). 
  assert (triple (fun m => m = mkMachine new_store d1)
    (recover_and_replay_wal;; verify_checkpoint_on_open)
    (fun _ m => opened d (store m) (disk m)) (fun e m => open_failed d e (set_lock false (disk m)))) as Hrun.
  2: { specialize (Hrun _ t' eq_refl). by destruct ((recover_and_replay_wal;; verify_checkpoint_on_open) (mkMachine new_store d1) t'). }
  eapply triple_bind with (R := fun _ => recovered new_store d1 (wal d1)).
  - eapply triple_weaken; [apply (recover_ok new_store d1 (wal d1) Hw)| |done|].
    + intros ? ->. exists memtable_init. split; [done|apply table_init_ok].
    + intros e m ((w' & mp & (mt & -> & _) & Hw') & He). split; [done|]. split; [done|].
      split; [destruct Hw' as [->|[? _]]; auto|]. destruct He as [?|[?|(-> & H1 & H2)]]; [auto|auto|].
      do 2 right. left. split_and!; try done. by destruct Hw' as [->|[? _]].
  - intros []. apply triple_at. intros m Hm.
    destruct (recovered_inv d1 m eq_refl Hm) as (us & Hf & Hinv & Hc & Hlog).
    eapply triple_weaken; [apply (verify_ok m)|done| |].
    + intros _ ? [-> Hv]. exists us. by destruct m.
    + intros e ? [-> He]. split; [done|]. split; [done|].
      split; [do 2 right; by exists us|]. destruct He as [?|[?|(-> & raw & Hraw & Hcf)]]; [auto|auto|].
      do 3 right. split; [done|]. exists us, (store m), raw. split; [done|]. split; [|by rewrite <- Hraw, Hc].
      destruct Hinv. constructor; try done.
Qed.
(** ** Staging *)

Lemma replay_snoc us u : replay (us ++ [u]) = apply (replay us) u.
Proof. unfold replay. by rewrite fold_left_app. Qed.

(** The queue has room for one more. *)
Definition with_room (c s : list update) (w : nat) (d : Disk) (m : Machine) : Prop :=
  store_inv c s w m /\ disk m = d /\ (length s < staged_capacity (store m))%nat.

Lemma reserve_staged_ok c s w d :
  triple (fun m => store_inv c s w m /\ disk m = d) reserve_staged
    (fun _ => with_room c s w d)
    (fun e m => e = STORE_ERR_NOMEM /\ alloc_failed /\ store_inv c s w m /\ disk m = d).
Proof.
  unfold reserve_staged. apply bind_get. intros m [Hi Hd].
  pose proof (inv_queue _ _ _ _ Hi) as Hq. pose proof (inv_cap _ _ _ _ Hi) as Hc.
  rewrite Hq, length_map.
  destruct (Nat.leb_spec (staged_capacity (store m)) (length s)) as [Hle|Hlt].
  - apply bind_malloc; [by intros ? ->|]. apply triple_modify. intros ? ->.
    assert (length s < if (staged_capacity (store m) =? 0)%nat then 16 else staged_capacity (store m) * 2)%nat
      as Hcap by (destruct (Nat.eqb_spec (staged_capacity (store m)) 0); lia).
    split; [|done]. destruct Hi. constructor; try done. cbn [store staged_capacity set_staged]. lia.
  - apply triple_ret. by intros ? ->.
Qed.

(** A table operation followed by queueing the staged operation. *)
Lemma stage_ok c s w d u (tab : M MemTable unit) :
  update_ok u ->
  (forall mt m, table_ok mt m -> m = replay (c ++ s) ->
     triple (fun x => x = mt) tab (fun _ mt' => table_ok mt' (apply m u))
       (fun e mt' => e = STORE_ERR_NOMEM /\ alloc_failed /\ table_ok mt' m)) ->
  triple (with_room c s w d)
    (on_table tab;; push_staged (mkStaged (u_op u) (u_key u) (u_val u) true))
    (fun _ m => store_inv c (s ++ [u]) w m /\ disk m = d)
    (fun e m => e = STORE_ERR_NOMEM /\ alloc_failed /\ store_inv c s w m /\ disk m = d).
Proof.
  intros Hu Htab. 
  eapply triple_bind with (R := fun _ m => exists m0 mt, with_room c s w d m0 /\
    m = mkMachine (set_table mt (store m0)) (disk m0) /\ table_ok mt (apply (replay (c ++ s)) u)).
  - intros m t (Hi & Hd & Hr). unfold on_table, zoom.
    specialize (Htab _ _ (inv_table _ _ _ _ Hi) eq_refl (memtable (store m)) t eq_refl).
    destruct (tab (memtable (store m)) t) as [[] mt' t'|e mt' t'|]; [| |done].
    + by exists m, mt'.
    + destruct Htab as (-> & Ha & Hok). do 2 (split; [done|]). split; [|done].
      destruct Hi. by constructor.
  - intros []. apply triple_modify. intros m (m0 & mt & (Hi & Hd & Hr) & -> & Hmt).
    split; [|done]. destruct Hi. constructor; cbn [store disk set_table set_staged staged_ops
      staged_capacity memtable frame_count wal_size]; try done.
    + by apply Forall_app_2; [|apply Forall_singleton].
    + by rewrite inv_queue0, map_app.
    + rewrite length_app. simpl. lia.
    + by rewrite app_assoc, replay_snoc.
    + rewrite frames_app, take_app_le by done. done.
    + rewrite frames_app, length_app. lia.
Qed.
Definition unchanged (c s : list update) (w : nat) (d : Disk) (m : Machine) : Prop :=
  store_inv c s w m /\ disk m = d.

Lemma store_put_ok c s w d k v :
  update_ok (U_put k v) ->
  triple (unchanged c s w d) (store_put (Some k) (Some v) (Z.of_nat (length v)))
    (fun _ => unchanged c (s ++ [U_put k v]) w d)
    (fun e m => e = STORE_ERR_NOMEM /\ alloc_failed /\ unchanged c s w d m).
Proof.
  intros Hu. pose proof Hu as (Hk & Hv & _). unfold key_ok, val_ok in Hk, Hv. cbn [u_key u_val] in Hk, Hv.
  unfold store_put, STORE_MAX_KEY_LEN, STORE_MAX_VAL_LEN.
  destruct (Z.eqb_spec (Z.of_nat (length k)) 0); [lia|].
  destruct (Z.ltb_spec 1024 (Z.of_nat (length k))); [lia|].
  destruct (Z.ltb_spec 1048576 (Z.of_nat (length v))); [lia|].
  replace (bool_decide (Some v = None)) with false by done. cbn [andb]. cbv zeta.
  change (default [] (Some v)) with v. rewrite Nat2Z.id, take_ge by lia.
  eapply triple_bind; [apply reserve_staged_ok|]. intros [].
  do 2 (apply bind_malloc; [by intros m (Hi & Hd & _)|]).
  eapply triple_weaken; [apply (stage_ok c s w d (U_put k v) (memtable_put k v) Hu)|done|done|done].
  intros mt m Hok ->. eapply triple_weaken; [by apply memtable_put_ok|done|done|].
  by intros e mt' (-> & ? & _ & ?).
Qed.

(** Arguments outside the limits are refused, each with its code, before
    anything is touched. *)
Lemma store_put_refuses key val n m t :
  store_put key val n m t =
    match key with
    | None => Fail STORE_ERR_INVALID_ARG m t
    | Some k =>
        if (length k =? 0)%nat then Fail STORE_ERR_INVALID_ARG m t
        else if (1024 <? length k)%nat then Fail STORE_ERR_LIMIT_KEY m t
        else if 1048576 <? n then Fail STORE_ERR_LIMIT_VAL m t
        else if bool_decide (val = None) && (0 <? n) then Fail STORE_ERR_INVALID_ARG m t
        else store_put key val n m t
    end.
Proof.
  destruct key as [k|]; [|done]. unfold store_put, STORE_MAX_KEY_LEN, STORE_MAX_VAL_LEN.
  destruct (Nat.eqb_spec (length k) 0) as [->|]; [done|].
  destruct (Z.eqb_spec (Z.of_nat (length k)) 0); [lia|].
  destruct (Nat.ltb_spec 1024 (length k)), (Z.ltb_spec 1024 (Z.of_nat (length k))); try lia; [done|].
  destruct (1048576 <? n); [done|]. by destruct (bool_decide _ && _).
Qed.

Lemma store_del_ok c s w d k :
  key_ok k -> bytes_wf k ->
  triple (unchanged c s w d) (store_del (Some k))
    (fun _ m => unchanged c (s ++ [U_del k]) w d m /\ is_Some (replay (c ++ s) !! k))
    (fun e m => unchanged c s w d m /\
       (e = STORE_ERR_NOMEM /\ alloc_failed \/ e = STORE_ERR_NOT_FOUND /\ replay (c ++ s) !! k = None)).
Proof.
  intros Hk Hw. unfold store_del, STORE_MAX_KEY_LEN. unfold key_ok in Hk.
  destruct (Z.eqb_spec (Z.of_nat (length k)) 0); [lia|].
  destruct (Z.ltb_spec 1024 (Z.of_nat (length k))); [lia|].
  apply bind_get. intros m Hm. pose proof Hm as [Hi Hd].
  destruct (find_map _ _ k (inv_table _ _ _ _ Hi)) as (i & b & Hf & Hl).
  eapply bind_option; [exact Hf|]. destruct b; cbn [negb].
  2: { apply triple_raise. intros ? ->. split; [done|]. by right. }
  assert (is_Some (replay (c ++ s) !! k)) as Hsome.
  { destruct (memtable_find_spec (memtable (store m)) k) as (i' & b' & Hf' & Hfound).
    { apply (inv_table _ _ _ _ Hi). }
    rewrite Hf in Hf'. injection Hf' as <- <-. destruct (proj1 Hfound eq_refl) as (e & He & _).
    rewrite Hl, He. by eexists. }
  eapply triple_from with (P := unchanged c s w d); [|by intros ? ->].
  eapply triple_weaken with (Q := fun _ => unchanged c (s ++ [U_del k]) w d)
    (E := fun e m => e = STORE_ERR_NOMEM /\ alloc_failed /\ unchanged c s w d m);
    [|done|done|intros e x (-> & ? & ?); auto].
  eapply triple_bind; [apply reserve_staged_ok|]. intros [].
  apply bind_malloc; [by intros x (Hi' & Hd' & _)|].
  eapply triple_weaken; [apply (stage_ok c s w d (U_del k) (memtable_del k))|done|done|done].
  { split; [done|]. split; [unfold val_ok; simpl; lia|]. split; [done|constructor]. }
  intros mt mp Hok ->. eapply triple_weaken; [by apply memtable_del_ok|done|by intros ? ? [? _]|].
  intros e mt' (_ & _ & Hn). destruct Hsome as [x Hx]. congruence.
Qed.

(** Reading sees the staged updates. *)
Lemma store_get_ok c s w m k out cap :
  store_inv c s w m -> (length k <> 0)%nat ->
  store_get (store m) (Some k) out cap true =
    Some match replay (c ++ s) !! k with
         | None => (Some STORE_ERR_NOT_FOUND, Some 0, None)
         | Some v =>
             let n := Z.of_nat (length v) in
             if cap <? n then (Some STORE_ERR_LIMIT_VAL, Some n, None)
             else (None, Some n, if out && (0 <? n) then Some v else None)
         end.
Proof.
  intros Hi Hk. unfold store_get.
  destruct (Nat.eqb_spec (length k) 0) as [|_]; [done|]. cbn [orb negb].
  destruct (memtable_find_spec (memtable (store m)) k) as (i & b & Hf & Hfound).
  { apply (inv_table _ _ _ _ Hi). }
  rewrite Hf. cbn [mbind option_bind].
  destruct (inv_table _ _ _ _ Hi) as (Hs & _ & <-). destruct b; cbn [negb].
  - destruct (found_true _ _ _ Hs Hfound) as (e & -> & _ & _ & ->). cbn [mbind option_bind]. cbv zeta.
    by destruct (cap <? _).
  - by destruct (insert_ok _ _ [] _ Hs Hfound) as (-> & _).
Qed.
(** ** Commit *)

(** Writing the next part of a stream over what is already there of it. *)
Lemma file_write_stream (base pre bs post : list Z) w off :
  (length pre <= w <= length (pre ++ bs ++ post))%nat -> off = (length base + length pre)%nat ->
  file_write off bs (base ++ take w (pre ++ bs ++ post)) =
    base ++ take (Nat.max w (length pre + length bs)) (pre ++ bs ++ post).
Proof.
  intros Hw ->. unfold file_write.
  assert (length (take w (pre ++ bs ++ post)) = w) as Hl by (rewrite length_take; lia).
  replace (length base + length pre - length (base ++ take w (pre ++ bs ++ post)))%nat with O
    by (rewrite length_app, Hl; lia). cbn [replicate]. rewrite app_nil_r.
  rewrite take_app_add', <- app_assoc by done. f_equal.
  rewrite take_take, Nat.min_l, take_app_length by lia.
  rewrite <- Nat.add_assoc, <- drop_drop, drop_app_length.
  destruct (Nat.max_spec w (length pre + length bs)) as [[Hm ->]|[Hm ->]].
  - rewrite (drop_ge (take w _)) by (rewrite Hl; lia). rewrite app_nil_r.
    by rewrite take_app_add', take_app_length.
  - assert (w = length pre + (length bs + (w - (length pre + length bs))))%nat as Hw' by lia.
    rewrite Hw' at 2. rewrite take_app_add', take_app_add' by done.
    f_equal. f_equal. rewrite Hw', take_app_add', take_app_add' by done.
    rewrite app_assoc, drop_app_length'; [|by rewrite length_app].
    f_equal. lia.
Qed.

Lemma frame_cursor u : update_ok u ->
  (4 + Z.to_nat (frame_len_of (u_key u) (u_val u)))%nat = length (frame_of u).
Proof. intros Hu. rewrite frame_len_ok, length_frame by done. lia. Qed.

(** The log while a commit of [us] runs. *)
Definition writing (st : Store) (d0 : Disk) (base : list Z) (us : list update) (w : nat) (m : Machine) : Prop :=
  (w <= length (frames us))%nat /\ m = mkMachine st (set_wal (base ++ take w (frames us)) d0).

Lemma commit_loop_ok st d0 base rest : forall fin w,
  Forall update_ok rest -> (length (frames fin) <= w)%nat ->
  triple (writing st d0 base (fin ++ rest) w)
    (commit_loop (map staged_of rest) (length base + length (frames fin)))
    (fun r m => r = (length base + length (frames (fin ++ rest)))%nat /\
       writing st d0 base (fin ++ rest) (length (frames (fin ++ rest))) m)
    (fun e m => (e = STORE_ERR_NOMEM /\ alloc_failed \/ e = STORE_ERR_IO /\ io_failed) /\
       exists w', writing st d0 base (fin ++ rest) w' m).
Proof.
  induction rest as [|u rest IH]; intros fin w Hok Hw; cbn [map commit_loop].
  - rewrite app_nil_r. apply triple_ret. intros m [Hle ->]. split; [done|].
    split; [done|]. by rewrite !take_ge.
  - apply Forall_cons_1 in Hok as [Hu Hok].
    apply bind_malloc; [intros m Hm Ha; split; [by left|by exists w]|].
    cbn [staged_of s_live s_op s_key s_val negb].
    assert (frames (fin ++ u :: rest) = frames fin ++ frame_of u ++ frames rest) as Hsplit
      by by rewrite frames_app.
    eapply triple_bind with (R := fun b m =>
      if b : bool then writing st d0 base (fin ++ u :: rest) (Nat.max w (length (frames fin) + length (frame_of u))) m
      else io_failed /\ exists w', writing st d0 base (fin ++ u :: rest) w' m).
    + intros m t [Hle ->]. unfold pwrite.
      change (frame (u_op u) (u_key u) (u_val u)) with (frame_of u). cbn [store disk wal set_wal]. unfold writing. rewrite Hsplit in *.
      rewrite !length_app in *. destruct (io_ok t) eqn:Eio.
      * split; [lia|]. f_equal. unfold set_wal. cbn [wal chk chk_tmp locked]. f_equal. apply file_write_stream; [|done].
        rewrite !length_app. lia.
      * split; [by exists t|]. set (k := (io_count t `min` _)%nat).
        exists (Nat.max w (length (frames fin) + length (take k (frame_of u)))).
        split; [rewrite length_take; lia|]. f_equal. unfold set_wal. cbn [wal chk chk_tmp locked]. f_equal.
        pose proof (file_write_stream base (frames fin) (take k (frame_of u))
          (drop k (frame_of u) ++ frames rest) w) as Hfw.
        rewrite (app_assoc (take k (frame_of u))), take_drop in Hfw. apply Hfw; [|done].
        rewrite !length_app. lia.
    + intros []; cbn [negb].
      2: { apply triple_raise. intros m [Hio Hm]. auto. }
      rewrite frame_cursor by done. rewrite cons_middle, (app_assoc fin).
      replace (length base + length (frames fin) + length (frame_of u))%nat
        with (length base + length (frames (fin ++ [u])))%nat.
      2: { rewrite frames_app, frames_cons, !length_app. simpl. lia. }
      apply IH; [done|]. rewrite frames_app, frames_cons, !length_app. simpl. lia.
Qed.
(** After a failed [fsync]: the cursors are published, the queue still lists
    operations whose buffers are freed. *)
Definition dangling (c s : list update) (m : Machine) : Prop :=
  staged_ops (store m) = map kill (map staged_of s) /\ s <> [] /\
  wal (disk m) = log (c ++ s) /\ table_ok (memtable (store m)) (replay (c ++ s)) /\
  wal_size (store m) = length (log (c ++ s)).

Definition commit_failed (c s : list update) (w : nat) (d : Disk) (e : StoreErr) (m : Machine) : Prop :=
  chk (disk m) = chk d /\
  (e = STORE_ERR_LIMIT_WAL /\ STORE_MAX_WAL_SIZE < Z.of_nat (length (log c)) + total_bytes (map staged_of s) /\ unchanged c s w d m \/
   (e = STORE_ERR_NOMEM /\ alloc_failed \/ e = STORE_ERR_IO /\ io_failed) /\ (exists w', store_inv c s w' m) \/
   e = STORE_ERR_IO /\ io_failed /\ dangling c s m).

Lemma u64_add a b : u64 (u64 a + b) = u64 (a + b).
Proof. unfold u64, two64. by rewrite Zplus_mod_idemp_l. Qed.

Lemma inv_writing c s w m :
  store_inv c s w m -> writing (store m) (disk m) (log c) s w m.
Proof.
  intros Hi. split; [apply (inv_written _ _ _ _ Hi)|].
  rewrite <- (inv_wal _ _ _ _ Hi). by destruct m as [st [? ? ? ?]].
Qed.

Lemma writing_inv c s w w' m m' :
  store_inv c s w m -> writing (store m) (disk m) (log c) s w' m' -> store_inv c s w' m'.
Proof. intros Hi [Hw ->]. destruct Hi. by constructor. Qed.

Lemma store_commit_ok c s w d :
  triple (unchanged c s w d) store_commit
    (fun _ m => store_inv (c ++ s) [] 0 m /\ chk (disk m) = chk d)
    (commit_failed c s w d).
Proof.
  unfold store_commit. apply bind_get. intros m [Hi Hd].
  pose proof (inv_queue _ _ _ _ Hi) as Hq. rewrite Hq, length_map.
  destruct (Nat.eqb_spec (length s) 0) as [->%nil_length_inv|Hs].
  { apply triple_ret. intros ? ->. split; [|by rewrite Hd]. rewrite app_nil_r.
    pose proof (inv_written _ _ _ _ Hi) as Hw. simpl in Hw. by replace w with O in Hi by lia. }
  rewrite (inv_size _ _ _ _ Hi). destruct (Z.ltb_spec STORE_MAX_WAL_SIZE (Z.of_nat (length (log c)) + total_bytes (map staged_of s))).
  { apply triple_raise. intros ? ->. split; [by rewrite Hd|]. by left. }
  eapply triple_bind with (R := fun r x => r = length (log (c ++ s)) /\
    writing (store m) (disk m) (log c) s (length (frames s)) x).
  { pose proof (commit_loop_ok (store m) (disk m) (log c) s [] w) as Hloop.
    change (length (frames [])) with O in Hloop. rewrite Nat.add_0_r in Hloop. cbn [app] in Hloop.
    eapply triple_weaken; [apply Hloop; [apply (inv_staged _ _ _ _ Hi)|lia]| | |].
    - intros ? ->. by apply inv_writing.
    - intros r x [-> Hx]. split; [|done]. by rewrite log_app, length_app.
    - intros e x [He (w' & Hx)]. split; [destruct Hx as [_ ->]; by rewrite <- Hd|].
      right; left. split; [done|]. exists w'. by eapply writing_inv. }
  intros r. apply triple_at. intros x [-> [_ ->]]. rewrite take_ge by done.
  rewrite <- log_app. set (m1 := mkMachine (store m) (set_wal (log (c ++ s)) (disk m))).
  eapply bind_modify with (P' := fun x => x = mkMachine (set_cursors (u64 (Z.of_nat (length (c ++ s))))
    (length (log (c ++ s))) (store m)) (set_wal (log (c ++ s)) (disk m))).
  { intros ? ->. unfold m1. cbn [store disk]. rewrite (inv_frames _ _ _ _ Hi), Hq, length_map, u64_add.
    by rewrite length_app, Nat2Z.inj_add. }
  assert (forallb s_live (map staged_of s) = true) as Hlive by (clear; by induction s).
  eapply triple_bind with (R := fun _ x => x = mkMachine (set_cursors (u64 (Z.of_nat (length (c ++ s))))
    (length (log (c ++ s))) (store m)) (set_wal (log (c ++ s)) (disk m))).
  { unfold free_staged. rewrite Hlive. by apply triple_ret. }
  intros [].
  apply bind_modify with (P' := fun x => dangling c s x /\
    store_inv (c ++ s) [] 0 (mkMachine (set_staged [] 0 (store x)) (disk x)) /\ chk (disk x) = chk d).
  - intros ? ->. unfold dangling. cbn [store disk set_cursors set_staged staged_ops memtable wal_size].
    rewrite Hq. split; [|split; [|by rewrite <- Hd]].
    + split; [done|]. split; [by intros ->|]. split; [done|]. split; [|done]. apply (inv_table _ _ _ _ Hi).
    + destruct Hi. constructor; cbn; try done.
      * by apply Forall_app_2.
      * by rewrite app_nil_r.
      * by rewrite app_nil_r.
  - eapply triple_bind; [apply sync_ok|]. intros []; cbn [negb].
    + apply triple_modify. intros y [(_ & ? & ?) _]. done.
    + apply triple_raise. intros y [(Hdang & _ & Hc) Hb]. split; [done|].
      do 2 right. split; [done|]. split; [by apply Hb|done].
Qed.
(** ** Torn logs *)

Lemma next_frame_nil : next_frame [] = None.
Proof. done. Qed.

(** A strict prefix of a frame is no frame. *)
Lemma next_frame_prefix u w :
  update_ok u -> (w < length (frame_of u))%nat -> bytes_wf (frame_of u) ->
  next_frame (take w (frame_of u)) = None.
Proof.
  intros Hu Hw Hb. destruct (next_frame (take w (frame_of u))) as [[u' r']|] eqn:E; [|done].
  apply next_frame_inv in E as [Hu' E]; [|by apply bytes_wf_take].
  pose proof (next_frame_of u [] Hu) as H1. rewrite app_nil_r in H1.
  pose proof (next_frame_of u' (r' ++ drop w (frame_of u)) Hu') as H2.
  rewrite app_assoc, <- E, take_drop, H1 in H2. injection H2 as -> Hr.
  apply (f_equal length) in Hr. rewrite length_app, length_drop in Hr. cbn [length] in Hr. lia.
Qed.

Lemma frame_wf u : update_ok u -> bytes_wf (frame_of u).
Proof.
  intros (_ & _ & Hk & Hv). unfold frame_of, frame, frame_fields.
  rewrite (oneshot_digest (digest := digest)), !write_u32_le_eq, write_u16_le_eq.
  apply bytes_wf_app. split; [apply le_bytes_wf|]. apply bytes_wf_app.
  split; [|apply (sh_bytes (digest := digest))]. apply Forall_cons_2.
  - destruct u; unfold in_u8, two8; simpl; unfold STORE_OP_PUT, STORE_OP_DEL; lia.
  - rewrite !bytes_wf_app. split_and!; auto using le_bytes_wf.
Qed.

Lemma frames_wf us : Forall update_ok us -> bytes_wf (frames us).
Proof.
  induction 1 as [|u us Hu Hus IH]; [constructor|]. rewrite frames_cons. apply bytes_wf_app.
  split; [by apply frame_wf|done].
Qed.

Lemma log_wf us : Forall update_ok us -> bytes_wf (log us).
Proof.
  intros Hus. apply bytes_wf_app. split; [|by apply frames_wf].
  by apply bytes_wfb_wf.
Qed.

Lemma frame_pos u : update_ok u -> (0 < length (frame_of u))%nat.
Proof. intros Hu. rewrite length_frame by done. lia. Qed.

(** A log cut anywhere is some whole frames and a tail that is none. *)
Lemma torn s w : Forall update_ok s -> exists j rest,
  take w (frames s) = frames (take j s) ++ rest /\ next_frame rest = None /\
  (w = O -> j = O) /\ ((length (frames s) <= w)%nat -> take j s = s).
Proof.
  intros Hs. revert w. induction Hs as [|u s Hu Hs IH]; intros w.
  - exists O, []. change (frames []) with (@nil Z). rewrite !take_nil. split_and!; done.
  - rewrite frames_cons. pose proof (frame_pos u Hu).
    destruct (Nat.lt_ge_cases w (length (frame_of u))) as [Hlt|Hge].
    + exists O, (take w (frame_of u)). rewrite take_app_le by lia.
      split; [done|]. split; [apply next_frame_prefix; [done|done|by apply frame_wf]|].
      split; [done|]. rewrite length_app. lia.
    + destruct (IH (w - length (frame_of u))%nat) as (j & rest & E & Hn & H0 & Hall).
      exists (S j), rest. cbn [take]. rewrite frames_cons, <- app_assoc, <- E.
      split; [|split; [done|split; [lia|]]].
      * replace w with (length (frame_of u) + (w - length (frame_of u)))%nat at 1 by lia.
        by rewrite take_app_add'.
      * rewrite length_app. intros Hw. by rewrite Hall by lia.
Qed.

Lemma frames_unique us : forall us' rest rest',
  Forall update_ok us -> Forall update_ok us' -> next_frame rest = None -> next_frame rest' = None ->
  frames us ++ rest = frames us' ++ rest' -> us = us' /\ rest = rest'.
Proof.
  induction us as [|u us IH]; intros [|u' us'] rest rest' H1 H2 N1 N2 E.
  - done.
  - apply Forall_cons_1 in H2 as [Hu _]. change (frames []) with (@nil Z) in E. cbn [app] in E. rewrite frames_cons, <- app_assoc in E. subst rest.
    by rewrite next_frame_of in N1.
  - apply Forall_cons_1 in H1 as [Hu _]. change (frames []) with (@nil Z) in E. cbn [app] in E. rewrite frames_cons, <- app_assoc in E. subst rest'.
    by rewrite next_frame_of in N2.
  - apply Forall_cons_1 in H1 as [Hu H1], H2 as [Hu' H2].
    rewrite !frames_cons, <- !app_assoc in E. apply (f_equal next_frame) in E.
    rewrite !next_frame_of in E by done. injection E as <- E.
    by destruct (IH us' rest rest' H1 H2 N1 N2 E) as [-> ->].
Qed.

Lemma log_unique us us' rest rest' :
  Forall update_ok us -> Forall update_ok us' -> next_frame rest = None -> next_frame rest' = None ->
  log us ++ rest = log us' ++ rest' -> us = us' /\ rest = rest'.
Proof.
  unfold log. rewrite <- !app_assoc. intros H1 H2 N1 N2 E. apply app_inv_head in E. by eapply frames_unique.
Qed.

Lemma finds_unique w us us' rest :
  ~ io_failed -> finds w us -> w = log us' ++ rest -> Forall update_ok us' -> next_frame rest = None ->
  us = us'.
Proof.
  intros Hio (Hus & rest0 & [Hw|(Hw & -> & ->)] & Hn) E Hus' Hn'.
  - destruct Hn as [Hn|]; [|done]. rewrite Hw in E. by apply log_unique in E as [-> _].
  - rewrite Hw in E. apply (f_equal length) in E. unfold log in E.
    rewrite !length_app, length_header in E. simpl in E. lia.
Qed.
End Spec.
