(* ===== verification/StoreProps.v ===== *)
(** * Reachable stores: refinement, durability, and where they stop

    [reach (c, s) m]: [m] is a store that was opened on some directory and then
    driven by calls, each in an environment of its own (any allocation or system
    call may fail), with [c] the updates committed and [s] those staged. *)
From stdpp Require Import gmap strings.
From S2P Require Import Prelude Common Sha256 Sys Memtable Merkle Wal Store Recover StoreSpec.

Inductive call : Type :=
| C_put (k v : list Z)
| C_del (k : list Z)
| C_commit
| C_checkpoint.

Definition call_ok (a : call) : Prop :=
  match a with
  | C_put k v => update_ok (U_put k v)
  | C_del k => update_ok (U_del k)
  | _ => True
  end.

Definition effect (a : call) (cs : list update * list update) : list update * list update :=
  let '(c, s) := cs in
  match a with
  | C_put k v => (c, s ++ [U_put k v])
  | C_del k => (c, s ++ [U_del k])
  | C_commit => (c ++ s, [])
  | C_checkpoint => (c, s)
  end.

Section Reach.
Context {C : Type} `{HC : StreamHash C}.

Definition perform (EV : Env) (a : call) : M Machine unit :=
  match a with
  | C_put k v => store_put (Some k) (Some v) (Z.of_nat (length v))
  | C_del k => store_del (Some k)
  | C_commit => store_commit
  | C_checkpoint => store_checkpoint
  end.

(** A failed call leaves a usable store when its queue still owns its buffers. *)
Definition usable (m : Machine) : Prop := forallb s_live (staged_ops (store m)) = true.

Inductive reach : list update * list update -> Machine -> Prop :=
| R_open (EV : Env) d t s d' t' us :
    bytes_wf (wal d) -> locked d = false ->
    store_open true d t = Done s d' t' -> wal d' = log us -> Forall update_ok us ->
    reach (us, []) (mkMachine s d')
| R_call EV a cs m t m' t' :
    reach cs m -> call_ok a -> perform EV a m t = Done tt m' t' -> reach (effect a cs) m'
| R_fail EV a cs m t e m' t' :
    reach cs m -> call_ok a -> perform EV a m t = Fail e m' t' -> usable m' -> reach cs m'.
End Reach.

Section Props.
Context {C : Type} `{HC : StreamHash C} {digest : list Z -> list Z} `{!StreamHashLaws C digest}.

Lemma merkle_root_length es : length (merkle_root es) = 32%nat.
Proof.
  unfold merkle_root. destruct (Nat.eqb_spec (length es) 0) as [|Hn].
  - by rewrite (oneshot_digest (digest := digest)), (sh_length (digest := digest)).
  - destruct (root_hashed (length es) 0 (map leaf_hash es)) as (k & Hk & _).
    + apply Forall_map, Forall_true. intros e. apply H_leaf.
    + destruct es; [done|]. discriminate.
    + by rewrite length_map.
    + by eapply (hashed_length (digest := digest)).
Qed.

Definition chk_of (m : Machine) : list Z :=
  chk_bytes (frame_count (store m)) (merkle_root (entries (memtable (store m)))).

(** The log and the instance do not depend on the checkpoint files. *)
Lemma inv_set_chk c s w m a b :
  store_inv c s w m -> store_inv c s w (mkMachine (store m) (set_chk a b (disk m))).
Proof. intros []. by constructor. Qed.

(** The checkpoint files while a checkpoint is written: only the temporary one
    has changed. *)
Definition only_tmp (m x : Machine) (b : option (list Z)) : Prop :=
  x = mkMachine (store m) (set_chk (chk (disk m)) b (disk m)).

Lemma abort_ok `{EV : Env} m b Q :
  io_failed ->
  triple (fun x => only_tmp m x b)
    (on_disk (fun d => set_chk (chk d) None d);; raise (A := unit) STORE_ERR_IO) Q
    (fun e x => (e = STORE_ERR_NOMEM /\ alloc_failed \/ e = STORE_ERR_IO /\ io_failed) /\
       exists b, only_tmp m x b).
Proof.
  intros Hio. apply bind_modify with (P' := fun x => only_tmp m x None); [by intros ? ->|].
  apply triple_raise. intros x Hx. split; [auto|by eexists].
Qed.

Lemma store_checkpoint_ok `{EV : Env} m :
  triple (fun x => x = m) store_checkpoint
    (fun _ x => x = mkMachine (store m) (set_chk (Some (chk_of m)) None (disk m)))
    (fun e x => (e = STORE_ERR_NOMEM /\ alloc_failed \/ e = STORE_ERR_IO /\ io_failed) /\
       exists b, only_tmp m x b).
Proof.
  assert (m = mkMachine (store m) (set_chk (chk (disk m)) (chk_tmp (disk m)) (disk m))) as Hm0
    by by destruct m as [? []].
  unfold store_checkpoint. eapply triple_bind; [apply sync_ok|]. intros []; cbn [negb].
  2: { apply triple_raise. intros ? [-> Hb]. split; [right; auto|]. by eexists. }
  eapply triple_bind with (R := fun r x => x = m /\ r = merkle_root (entries (memtable (store m)))).
  { intros x t [-> _]. unfold merkle_root_of_table.
    pose proof (merkle_root_ok (fun x => x = m) (entries (memtable (store m))) m t eq_refl) as Hr.
    unfold mbind, M_bind, get.
    destruct (store_get_merkle_root _ m t) as [r x' t'|e x' t'|]; [by destruct Hr| |done].
    destruct Hr as (-> & Ha & ->). split; [by left|]. by eexists. }
  intros r. apply triple_at. intros x [-> ->].
  apply bind_get. intros ? ->. fold (chk_of m).
  apply bind_io; cbn [negb].
  2: { intros Hio. apply triple_raise. intros ? ->. split; [auto|]. by eexists. }
  apply bind_modify with (P' := fun x => only_tmp m x (Some []));
    [by intros ? ->|].
  apply bind_io; cbn [negb]; [|intros Hio; by apply abort_ok].
  apply bind_modify with (P' := fun x => only_tmp m x (Some (chk_of m)));
    [by intros ? ->|].
  apply bind_io; cbn [negb]; [|intros Hio; by apply abort_ok].
  apply bind_io; cbn [negb]; [|intros Hio; by apply abort_ok].
  apply bind_modify with (P' := fun x => x = mkMachine (store m) (set_chk (Some (chk_of m)) None (disk m)));
    [by intros ? ->|].
  apply bind_io; [by apply triple_ret|intros _; by apply triple_ret].
Qed.
(** ** Reachable stores are well formed *)

Lemma inv_usable c s w m : store_inv c s w m -> usable m.
Proof.
  intros Hi. unfold usable. rewrite (inv_queue _ _ _ _ Hi). clear. by induction s.
Qed.

Lemma dangling_unusable c s m : dangling c s m -> ~ usable m.
Proof.
  unfold usable. intros (-> & Hs & _). by destruct s.
Qed.

(** One call from a well-formed store: where it ends, for every environment. *)
Lemma perform_ok (EV : Env) a c s w m :
  call_ok a -> store_inv c s w m ->
  triple (fun x => x = m) (perform EV a)
    (fun _ x => exists w', store_inv (effect a (c, s)).1 (effect a (c, s)).2 w' x)
    (fun _ x => usable x -> exists w', store_inv c s w' x).
Proof.
  intros Ha Hi. assert (forall x, x = m -> unchanged c s w (disk m) x) as Hu by by intros ? ->.
  destruct a as [k v|k| |]; cbn [perform effect fst snd].
  - eapply triple_weaken; [by apply (store_put_ok c s w (disk m) k v)|done| |].
    + intros _ x [? _]. by eexists.
    + intros e x (_ & _ & ? & _) _. by eexists.
  - destruct Ha as (Hk & _ & Hw & _).
    eapply triple_weaken; [by apply (store_del_ok c s w (disk m) k)|done| |].
    + intros _ x [[? _] _]. by eexists.
    + intros e x [[? _] _] _. by eexists.
  - eapply triple_weaken; [apply (store_commit_ok c s w (disk m))|done| |].
    + intros _ x [? _]. by eexists.
    + intros e x (_ & [(_ & _ & ? & _)|[[_ ?]|(_ & _ & Hd)]]) Hx; [by eexists|done|].
      by apply dangling_unusable in Hd.
  - eapply triple_weaken; [apply (store_checkpoint_ok m)|done| |].
    + intros _ x ->. exists w. by apply inv_set_chk.
    + intros e x [_ [b H]] _. exists w. rewrite H; by apply inv_set_chk.
Qed.

Lemma reach_inv cs m : reach cs m -> exists w, store_inv cs.1 cs.2 w m.
Proof.
  induction 1 as [EV d t s d' t' us Hw Hl Ho Hlog Hus|EV a [c s] m t m' t' Hr [w IH] Ha Hp
    |EV a [c s] m t e m' t' Hr [w IH] Ha Hp Hu].
  - pose proof (open_ok d t Hw Hl) as Hop. rewrite Ho in Hop.
    destruct Hop as (us' & _ & Hi & _). exists O. cbn [fst snd].
    pose proof (inv_wal _ _ _ _ Hi) as Hwal. cbn [disk] in Hwal.
    change (take 0 (frames [])) with (@nil Z) in Hwal. rewrite Hlog in Hwal.
    destruct (log_unique us us' [] []) as [-> _]; try done; [apply (inv_committed _ _ _ _ Hi)|].
    by rewrite (app_nil_r (log us)).
  - pose proof (perform_ok EV a c s w m Ha IH m t eq_refl) as Hok. by rewrite Hp in Hok.
  - pose proof (perform_ok EV a c s w m Ha IH m t eq_refl) as Hok. rewrite Hp in Hok. by apply Hok.
Qed.
(** ** Reopening *)

Lemma reopen_ok (EV : Env) c s w m t :
  store_inv c s w m -> (forall u, io_ok u = true) ->
  exists j, (w = O -> j = O) /\
    match store_open true (set_lock false (disk m)) t with
    | Done st d' _ => store_inv (c ++ take j s) [] 0 (mkMachine st d') /\ chk d' = chk (disk m)
    | Fail e d' _ => e = STORE_ERR_NOMEM /\ alloc_failed \/
        e = STORE_ERR_CHK_MISMATCH /\ exists st raw, chk (disk m) = Some raw /\
          store_inv (c ++ take j s) [] 0 (mkMachine st (set_lock true d')) /\ chk_conflicts st raw = true
    | Stuck => False
    end.
Proof.
  intros Hi Hio. pose proof Hi as [Hc Hs _ _ _ _ _ Hwal _ _].
  destruct (torn s w Hs) as (j & rest & Htorn & Hn & H0 & _). exists j. split; [done|].
  assert (~ io_failed) as Hnio by (intros [u Hu]; by rewrite Hio in Hu).
  assert (Forall update_ok (c ++ take j s)) as Hok by (apply Forall_app_2; [done|by apply Forall_take]).
  assert (wal (disk m) = log (c ++ take j s) ++ rest) as Hw
    by by rewrite Hwal, Htorn, log_app, app_assoc.
  assert (bytes_wf (wal (disk m))) as Hwf.
  { rewrite Hwal. apply bytes_wf_app. split; [by apply log_wf|]. by apply bytes_wf_take, frames_wf. }
  assert (forall us, finds (wal (disk m)) us -> us = c ++ take j s) as Huniq
    by (intros us Hf; by eapply finds_unique).
  pose proof (open_ok (set_lock false (disk m)) t Hwf eq_refl) as Hop.
  destruct (store_open true (set_lock false (disk m)) t) as [st d' t'|e d' t'|]; [| |done].
  - destruct Hop as (us & Hf & Hi' & Hchk & _). by rewrite (Huniq us Hf) in Hi'.
  - destruct Hop as (_ & _ & _ & [?|[[_ ?]|[(_ & _ & Hh & _)|(-> & us & st & raw & Hf & Hi' & Hraw & Hcf)]]]);
      [by left|done| |].
    + destruct Hh. cbn [wal set_lock]. by rewrite Hw.
    + right. split; [done|]. exists st, raw. by rewrite (Huniq us Hf) in Hi'.
Qed.

(** A checkpoint of a store without staged updates matches its log. *)
Lemma chk_of_matches m s :
  entries (memtable s) = entries (memtable (store m)) ->
  chk_conflicts s (chk_of m) = false.
Proof.
  intros He. unfold chk_conflicts. rewrite He.
  assert (slice 16 32 (chk_of m) = merkle_root (entries (memtable (store m)))) as ->.
  { unfold chk_of, chk_bytes, chk_body. rewrite write_u64_le_eq, write_u16_le_eq, <- !app_assoc.
    set (root := merkle_root _). set (sum := oneshot _). unfold slice.
    rewrite (app_assoc (cstr "STRCHK")), (app_assoc (cstr "STRCHK" ++ _)), drop_app_length'.
    - apply take_app_length'. symmetry. apply merkle_root_length.
    - rewrite !length_app, !length_le_bytes. done. }
  rewrite bytes_eqb_refl. apply andb_false_r.
Qed.
End Props.

(** C34. Refinement: a store reached by any calls, in any environments, is the
    abstract store of the committed and staged updates.  Its table and every
    read are the map obtained by replaying both (read your own writes); its
    queue is the staged updates; its log file is the committed frames followed
    by at most the part of the staged frames a failed commit left; and no call
    on it has undefined behaviour: each returns, or fails leaving the same
    abstract store (except a commit whose final sync fails, see below). *)
Theorem store_refines {C} `{StreamHash C} (digest : list Z -> list Z)
    (HL : StreamHashLaws C digest) c s m :
  reach (c, s) m ->
  table_ok (memtable (store m)) (replay (c ++ s)) /\
  staged_ops (store m) = map staged_of s /\
  wal_size (store m) = length (log c) /\
  (exists w, wal (disk m) = log c ++ take w (frames s)) /\
  (forall k out cap, (length k <> 0)%nat ->
     store_get (store m) (Some k) out cap true =
       Some match replay (c ++ s) !! k with
            | None => (Some STORE_ERR_NOT_FOUND, Some 0, None)
            | Some v =>
                let n := Z.of_nat (length v) in
                if cap <? n then (Some STORE_ERR_LIMIT_VAL, Some n, None)
                else (None, Some n, if out && (0 <? n) then Some v else None)
            end) /\
  (forall EV a t, call_ok a ->
     match perform EV a m t with
     | Done _ m' _ => reach (effect a (c, s)) m'
     | Fail _ m' _ => usable m' -> reach (c, s) m'
     | Stuck => False
     end).
Proof.
  intros Hr. destruct (reach_inv _ _ Hr) as [w Hi]. cbn [fst snd] in Hi. split_and!.
  - apply (inv_table _ _ _ _ Hi).
  - apply (inv_queue _ _ _ _ Hi).
  - apply (inv_size _ _ _ _ Hi).
  - exists w. apply (inv_wal _ _ _ _ Hi).
  - intros k out cap Hk. by eapply store_get_ok.
  - intros EV a t Ha. pose proof (perform_ok EV a c s w m Ha Hi m t eq_refl) as Hok.
    destruct (perform EV a m t) as [[] m' t'|e m' t'|] eqn:E; [| |done].
    + by eapply R_call.
    + intros Hu. by eapply R_fail.
Qed.

Lemma store_durability_base {C} `{StreamHash C} (digest : list Z -> list Z)
    (HL : StreamHashLaws C digest) c s m (EV : Env) t :
  reach (c, s) m -> (forall u, io_ok u = true) ->
  exists j, match store_open true (set_lock false (disk m)) t with
  | Done st d' _ =>
      reach (c ++ take j s, []) (mkMachine st d') /\
      table_ok (memtable st) (replay (c ++ take j s)) /\
      (wal (disk m) = log c -> j = O)
  | Fail e _ _ => e = STORE_ERR_NOMEM /\ alloc_failed \/
      e = STORE_ERR_CHK_MISMATCH /\ chk (disk m) <> None
  | Stuck => False
  end.
Proof.
  intros Hr Hio. destruct (reach_inv _ _ Hr) as [w Hi]. cbn [fst snd] in Hi.
  destruct (reopen_ok EV c s w m t Hi Hio) as (j & H0 & Hop). exists j.
  destruct (store_open true (set_lock false (disk m)) t) as [st d' t'|e d' t'|] eqn:E; [| |done].
  - destruct Hop as [Hi' Hc]. split_and!.
    + eapply (R_open EV (set_lock false (disk m))); [|done|exact E| |].
      * cbn [wal set_lock]. rewrite (inv_wal _ _ _ _ Hi). apply bytes_wf_app.
        split; [apply log_wf, (inv_committed _ _ _ _ Hi)|].
        apply bytes_wf_take, frames_wf, (inv_staged _ _ _ _ Hi).
      * pose proof (inv_wal _ _ _ _ Hi') as Hw. change (take 0 (frames [])) with (@nil Z) in Hw.
        by rewrite app_nil_r in Hw.
      * apply (inv_committed _ _ _ _ Hi').
    + pose proof (inv_table _ _ _ _ Hi') as Ht. by rewrite app_nil_r in Ht.
    + intros Hw. apply H0. rewrite (inv_wal _ _ _ _ Hi) in Hw.
      apply (f_equal length) in Hw. rewrite length_app, length_take in Hw.
      pose proof (inv_written _ _ _ _ Hi). lia.
  - destruct Hop as [?|(-> & st & raw & Hraw & _)]; [by left|right]. split; [done|]. by rewrite Hraw.
Qed.


(** A frame takes its length field and its fields. *)
Lemma total_bytes_frames {C} `{StreamHash C} (digest : list Z -> list Z) (HL : StreamHashLaws C digest) us :
  Forall update_ok us -> total_bytes (map staged_of us) = Z.of_nat (length (frames us)).
Proof.
  induction 1 as [|u us Hu _ IH]; [done|]. cbn [map total_bytes staged_of s_key s_val]. rewrite IH, frames_cons, length_app, Nat2Z.inj_add.
  f_equal. rewrite <- (frame_cursor (digest := digest) u Hu), frame_len_ok by done. lia.
Qed.



(** C37. Recovery is total and fail-closed: whatever bytes the log holds and
    whatever fails, opening an unlocked directory returns.  If it succeeds, the
    store holds exactly the updates of the longest prefix of whole, valid frames
    (unless a read failed), the file is cut to them, and the checkpoint does not
    contradict them; if it fails, the lock is released, the checkpoint kept, and
    the code tells why: CORRUPT exactly on a bad header, with the file untouched,
    CHK_MISMATCH only on a valid checkpoint of the same length with another root. *)
Theorem store_open_recovers {C} `{StreamHash C} (digest : list Z -> list Z)
    (HL : StreamHashLaws C digest) (EV : Env) d t :
  bytes_wf (wal d) -> locked d = false ->
  match store_open true d t with
  | Done s d' _ => exists us, finds (wal d) us /\
      table_ok (memtable s) (replay us) /\ staged_ops s = [] /\
      frame_count s = u64 (Z.of_nat (length us)) /\ wal_size s = length (wal d') /\
      wal d' = log us /\ chk d' = chk d /\ locked d' = true /\
      verified (mkMachine s d')
  | Fail e d' _ => open_failed d e d'
  | Stuck => False
  end.
Proof.
  intros Hw Hl. pose proof (open_ok d t Hw Hl) as Hop.
  destruct (store_open true d t) as [s d' t'|e d' t'|]; [|done|done].
  destruct Hop as (us & Hf & Hi & Hc & Hv). exists us.
  pose proof (inv_wal _ _ _ _ Hi) as Hwal. pose proof (inv_table _ _ _ _ Hi) as Ht.
  change (take 0 (frames [])) with (@nil Z) in Hwal. rewrite app_nil_r in Hwal, Ht.
  cbn [disk store] in *. split_and!; try done.
  - apply (inv_queue _ _ _ _ Hi).
  - apply (inv_frames _ _ _ _ Hi).
  - rewrite Hwal. apply (inv_size _ _ _ _ Hi).
  - apply (inv_locked _ _ _ _ Hi).
Qed.

(** ** A small run *)

Definition empty_disk : Disk := mkDisk [] None None false.

Definition after {S A} (m : M S A) (s : S) : S :=
  match m s O with Done _ s _ => s | Fail _ s _ => s | Stuck => s end.

Definition run_open : Machine :=
  match @store_open calm LinSha256 _ true empty_disk 0%nat with
  | Done s d _ => mkMachine s d
  | _ => mkMachine new_store empty_disk
  end.
Definition run_put : Machine := after (perform (C := LinSha256) calm (C_put [97] [1])) run_open.
Definition run_commit : Machine := after (perform (C := LinSha256) calm C_commit) run_put.

Lemma run_open_eq :
  @store_open calm LinSha256 _ true empty_disk 0%nat = Done (store run_open) (disk run_open) 7%nat.
Proof. vm_compute. reflexivity. Qed.

Lemma run_put_eq : perform (C := LinSha256) calm (C_put [97] [1]) run_open 0%nat = Done tt run_put 6%nat.
Proof. vm_compute. reflexivity. Qed.

Lemma run_commit_eq : perform (C := LinSha256) calm C_commit run_put 0%nat = Done tt run_commit 3%nat.
Proof. vm_compute. reflexivity. Qed.

Lemma run_update_ok : update_ok (U_put [97] [1]).
Proof.
  unfold update_ok, key_ok, val_ok. cbn [u_key u_val length].
  split; [lia|]. split; [lia|]. split; by apply bytes_wfb_wf.
Qed.

Lemma run_open_reach : reach (C := LinSha256) ([], []) run_open.
Proof.
  destruct run_open as [s d] eqn:E. eapply (R_open calm empty_disk 0%nat).
  - constructor.
  - done.
  - rewrite run_open_eq, E. done.
  - replace d with (disk run_open) by by rewrite E. by vm_compute.
  - constructor.
Qed.

Lemma run_put_reach : reach (C := LinSha256) ([], [U_put [97] [1]]) run_put.
Proof.
  exact (R_call calm (C_put [97] [1]) _ _ _ _ _ run_open_reach run_update_ok run_put_eq).
Qed.

Lemma run_commit_reach : reach (C := LinSha256) ([U_put [97] [1]], []) run_commit.
Proof. exact (R_call calm C_commit _ _ _ _ _ run_put_reach I run_commit_eq). Qed.

Lemma store_refines_witness :
  table_ok (memtable (store run_put)) (replay ([] ++ [U_put [97] [1]])).
Proof.
  exact (proj1 (store_refines (C := LinSha256) sha256_spec LinSha256_laws [] [U_put [97] [1]]
    run_put run_put_reach)).
Defined.




Lemma torn_file_wf : bytes_wf (wal_header ++ [45; 0; 0]).
Proof. by apply bytes_wfb_wf. Qed.

Lemma store_open_recovers_witness :
  match @store_open calm LinSha256 _ true (mkDisk (wal_header ++ [45; 0; 0]) None None false) 0%nat with
  | Done s d' _ => exists us, @finds calm LinSha256 _ (wal_header ++ [45; 0; 0]) us /\
      table_ok (memtable s) (replay us) /\ staged_ops s = [] /\
      frame_count s = u64 (Z.of_nat (length us)) /\ wal_size s = length (wal d') /\
      wal d' = log (C := LinSha256) us /\ chk d' = None /\ locked d' = true /\
      @verified calm LinSha256 _ (mkMachine s d')
  | Fail e d' _ => @open_failed calm LinSha256 _ (mkDisk (wal_header ++ [45; 0; 0]) None None false) e d'
  | Stuck => False
  end.
Proof.
  exact (store_open_recovers (C := LinSha256) sha256_spec LinSha256_laws calm
    (mkDisk (wal_header ++ [45; 0; 0]) None None false) 0%nat torn_file_wf eq_refl).
Defined.

(** ** Where the code stops short of its contract *)

(** Every write succeeds; the two syncs that end the commit do not. *)
Definition no_sync : Env :=
  {| alloc_ok := fun _ => true; io_ok := fun t => (t <? 2)%nat; io_count := fun _ => O |}.

Definition run_unsynced : Machine :=
  match perform (C := LinSha256) no_sync C_commit run_put 0%nat with
  | Fail _ m _ => m
  | _ => run_put
  end.

(** A commit whose final sync fails leaves the store unusable: it returns
    IO, having freed the buffers of the staged operations that stay queued; the
    retry its comment promises reads freed memory, and closing the store frees
    them a second time. *)
Theorem commit_sync_failure_dangles :
  reach (C := LinSha256) ([], [U_put [97] [1]]) run_put /\
  (exists t, perform (C := LinSha256) no_sync C_commit run_put 0%nat = Fail STORE_ERR_IO run_unsynced t) /\
  perform (C := LinSha256) calm C_commit run_unsynced 0%nat = Stuck /\
  @store_close calm run_unsynced 0%nat = Stuck.
Proof.
  split; [exact run_put_reach|]. split; [eexists; vm_compute; reflexivity|].
  split; vm_compute; reflexivity.
Qed.

Definition run_early_checkpoint : Machine := after (perform (C := LinSha256) calm C_checkpoint) run_put.

(** A checkpoint taken while updates are staged makes the directory
    unopenable: it records the root of the table, staged updates included, with
    the number of committed frames, so that after a close every open ends in
    CHK_MISMATCH, although nothing failed. *)
Theorem checkpoint_of_staged_mismatch :
  perform (C := LinSha256) calm C_checkpoint run_put 0%nat = Done tt run_early_checkpoint 7%nat /\
  reach (C := LinSha256) ([], [U_put [97] [1]]) run_early_checkpoint /\
  exists d m t d' t', @store_close calm run_early_checkpoint 0%nat = Done d m t /\
    @store_open calm LinSha256 _ true d 0%nat = Fail STORE_ERR_CHK_MISMATCH d' t'.
Proof.
  assert (perform (C := LinSha256) calm C_checkpoint run_put 0%nat = Done tt run_early_checkpoint 7%nat)
    as E by (vm_compute; reflexivity).
  split; [exact E|]. split; [exact (R_call calm C_checkpoint _ _ _ _ _ run_put_reach I E)|].
  do 5 eexists. split; [vm_compute; reflexivity|vm_compute; reflexivity].
Qed.

(** The read of the first frame fails, nothing else does. *)
Definition bad_read : Env :=
  {| alloc_ok := fun _ => true; io_ok := fun t => negb (t =? 5)%nat; io_count := fun _ => O |}.

(** A read error during recovery destroys committed data: [pread]
    returning -1 is taken for a torn tail, so that one transient failure makes
    an open of a directory with a committed key succeed, empty, with the frame
    cut off the file; a later open without any failure finds nothing. *)
Theorem read_error_truncates :
  wal (disk run_commit) = log (C := LinSha256) [U_put [97] [1]] /\
  exists s d t, @store_open bad_read LinSha256 _ true (set_lock false (disk run_commit)) 0%nat = Done s d t /\
    entries (memtable s) = [] /\ wal d = wal_header /\
    exists s2 d2 t2, @store_open calm LinSha256 _ true (set_lock false d) 0%nat = Done s2 d2 t2 /\
      entries (memtable s2) = [].
Proof.
  split; [vm_compute; reflexivity|]. do 3 eexists. split; [vm_compute; reflexivity|].
  do 2 (split; [vm_compute; reflexivity|]). do 3 eexists. split; [vm_compute; reflexivity|vm_compute; reflexivity].
Qed.
