(* ===== verification/C0Lex.v ===== *)
(** * tool/lin_c0_front.c: memory, function headers, tokens and numerals

    The allocator of the front: a bump arena of chunks and the [realloc]s of its
    growing arrays, whose answers are those of an [Env].  [Mem A] is a function
    that may return NULL because an allocation failed ([Null]); [Stuck] is a
    model out of fuel, which the totality lemmas exclude.  A (pointer, length)
    view is its bytes; a NUL-terminated copy is its bytes up to the first NUL,
    since every reader goes through [strlen]. *)
From stdpp Require Import strings.
From S2P Require Import Prelude Common Token Sys.

(** ** Memory *)

Definition C0_CHUNK_DEFAULT : Z := 65536.

(** The clock of the environment and the head chunk of the arena. *)
Record C0Mem : Type := mkMem { m_clock : nat; m_used : Z; m_cap : Z }.

Inductive mres (A : Type) : Type :=
| Val (x : A) (m : C0Mem)
| Null (m : C0Mem)
| MStuck.
Arguments Val {A} x m.
Arguments Null {A} m.
Arguments MStuck {A}.

Definition Mem (A : Type) : Type := C0Mem -> mres A.

#[export] Instance Mem_ret : MRet Mem := fun _ x m => Val x m.
#[export] Instance Mem_bind : MBind Mem := fun _ _ k f m =>
  match f m with
  | Val x m => k x m
  | Null m => Null m
  | MStuck => MStuck
  end.

Definition null {A} : Mem A := fun m => Null m.
Definition mstuck {A} : Mem A := fun _ => MStuck.

Section Alloc.
Context `{Env}.

(** One call of [malloc] or [realloc]. *)
Definition c0_malloc (m : C0Mem) : bool * C0Mem :=
  (alloc_ok (m_clock m), mkMem (m_clock m + 1) (m_used m) (m_cap m)).

(** [(n + 7) & ~7], 8 for an empty request. *)
Definition aligned (n : Z) : Z := if n =? 0 then 8 else Z.land (n + 7) (Z.lnot 7).

Definition c0_chunk_new (payload : Z) (m : C0Mem) : bool * C0Mem :=
  let cap := if C0_CHUNK_DEFAULT <? payload then payload else C0_CHUNK_DEFAULT in
  let '(ok, m) := c0_malloc m in
  if ok then (true, mkMem (m_clock m) 0 cap) else (false, m).

(** The arena object, then its first chunk. *)
Definition c0_arena_new (m : C0Mem) : bool * C0Mem :=
  let '(ok, m) := c0_malloc m in
  if ok then c0_chunk_new 0 m else (false, m).

Definition c0_arena_alloc (n : Z) (m : C0Mem) : bool * C0Mem :=
  let '(ok, m) :=
    if m_cap m <? m_used m + aligned n then c0_chunk_new (aligned n) m else (true, m) in
  if ok then (true, mkMem (m_clock m) (m_used m + aligned n) (m_cap m)) else (false, m).

(** The bytes before the first NUL. *)
Definition strz (l : list Z) : list Z := take (run_length (fun c => negb (c =? 0)) l) l.

Definition c0_arena_strdup_n (s : list Z) (m : C0Mem) : option (list Z) * C0Mem :=
  let '(ok, m) := c0_arena_alloc (Z.of_nat (length s) + 1) m in
  (if ok then Some (strz s) else None, m).

(** The two as functions that end the caller with NULL. *)
Definition alloc_or_null (f : C0Mem -> bool * C0Mem) : Mem unit := fun m =>
  let '(ok, m) := f m in if ok then Val tt m else Null m.
Definition strdup_or_null (s : list Z) : Mem (list Z) := fun m =>
  let '(r, m) := c0_arena_strdup_n s m in
  match r with Some s => Val s m | None => Null m end.
End Alloc.

(** [nc = cap ? cap * 2 : first] *)
Definition next_cap (first cap : nat) : nat := if (cap =? 0)%nat then first else (cap * 2)%nat.

(** [if (n == cap) realloc]: the new capacity. *)
Definition reserve_or_null `{Env} (first n cap : nat) : Mem nat :=
  if (n =? cap)%nat then alloc_or_null c0_malloc ≫= fun _ => mret (next_cap first cap)
  else mret cap.

(** ** Characters and views *)

Definition in_range (lo hi c : Z) : bool := (lo <=? c) && (c <=? hi).

Definition c0_is_ident_start (c : Z) : bool :=
  in_range 97 122 c || in_range 65 90 c || (c =? 95) || (c =? 36).
Definition c0_is_ident_part (c : Z) : bool := c0_is_ident_start c || in_range 48 57 c.
Definition c0_is_name_char (c : Z) : bool :=
  in_range 97 122 c || in_range 65 90 c || in_range 48 57 c || (c =? 95) || (c =? 36).
Definition c0_is_space (c : Z) : bool := (c =? 32) || (c =? 9) || (c =? 13) || (c =? 10).

(** The two loops: from the front, then from the back. *)
Definition trim_by (P : Z -> bool) (l : list Z) : list Z :=
  let l := drop (run_length P l) l in
  take (length l - run_length P (rev l)) l.

Definition c0_trim (l : list Z) : list Z := trim_by c0_is_space l.

(** [None] is SIZE_MAX. *)
Fixpoint c0_index_char (l : list Z) (ch : Z) : option nat :=
  match l with
  | [] => None
  | c :: l => if c =? ch then Some O else S <$> c0_index_char l ch
  end.

Fixpoint c0_index_str (l needle : list Z) : option nat :=
  if bytes_eqb (take (length needle) l) needle then Some O
  else match l with
  | [] => None
  | _ :: l => S <$> c0_index_str l needle
  end.

(** ** Function headers *)

Record C0Param : Type := mkParam { p_name : list Z; type_name : list Z }.

Record C0FnInfo : Type := mkInfo {
  fi_name : list Z;
  fi_params : list C0Param;
  return_type : list Z;
  fi_body : list Z;
  fi_line : nat
}.

Definition newlines (l : list Z) : nat := length (List.filter (Z.eqb 10) l).

Section Headers.
Context `{Env} (src : list Z).

(** [while (pos < len && P(src[pos])) { count newlines; pos += 1; }] *)
Definition skip_while (P : Z -> bool) (pos line : nat) : nat * nat :=
  let q := scan P src pos in (q, (line + newlines (slice pos (q - pos) src))%nat).

(** The loops that look for the closing parenthesis or brace, past strings. *)
Fixpoint match_close (fuel : nat) (o c : Z) (pos depth line : nat) : option (nat * nat) :=
  match fuel with
  | O => None
  | S fuel =>
      match src !! pos with
      | None => Some (pos, line)
      | Some ch =>
          if (depth =? 0)%nat then Some (pos, line)
          else
            let line := if ch =? 10 then S line else line in
            if ch =? 34 then
              let '(q, line) := skip_while (fun d => negb (d =? 34)) (pos + 1) line in
              match_close fuel o c (if (q <? length src)%nat then (q + 1)%nat else q) depth line
            else if ch =? o then match_close fuel o c (pos + 1) (depth + 1) line
            else if ch =? c then match_close fuel o c (pos + 1) (depth - 1) line
            else match_close fuel o c (pos + 1) depth line
      end
  end.

(** One piece between commas; an empty piece declares nothing. *)
Definition parse_param (piece : list Z) : Mem (list C0Param) :=
  let piece := c0_trim piece in
  if (length piece =? 0)%nat then mret []
  else
    let '(pn, pt) := match c0_index_char piece 58 with
                     | Some colon => (c0_trim (take colon piece), c0_trim (drop (colon + 1) piece))
                     | None => (piece, cstr "any")
                     end in
    n ← strdup_or_null pn;
    t ← strdup_or_null pt;
    mret [mkParam n t].

(** The loop over the pieces; the growth of the array is tested before each
    parameter is stored. *)
Fixpoint parse_params (fuel : nat) (rest : list Z) (ps : list C0Param) (cap : nat)
    : Mem (list C0Param) :=
  match fuel with
  | O => mstuck
  | S fuel =>
      let comma := c0_index_char rest 44 in
      let piece := match comma with Some k => take k rest | None => rest end in
      cap ← (if (length (c0_trim piece) =? 0)%nat then mret cap
             else reserve_or_null 8 (length ps) cap);
      p ← parse_param piece;
      match comma with
      | None => mret (ps ++ p)
      | Some k => parse_params fuel (drop (k + 1) rest) (ps ++ p) cap
      end
  end.

(** Between the parenthesis and the brace: [-> T], or [: T], or nothing. *)
Definition parse_return (hdr : list Z) : Mem (list Z) :=
  match c0_index_str hdr (cstr "->") with
  | Some arrow => strdup_or_null (c0_trim (drop (arrow + 2) hdr))
  | None =>
      match c0_index_char hdr 58 with
      | Some colon => strdup_or_null (c0_trim (drop (colon + 1) hdr))
      | None => mret (cstr "any")
      end
  end.

(** A declaration from the [!] at [i]: the function and the index after its
    body, or none; and the line reached. *)
Definition parse_decl (n_list cap_list i line : nat) : Mem (option (C0FnInfo * nat * nat) * nat) :=
  let '(pos0, line1) := skip_while c0_is_space (i + 1) line in
  let pos := scan c0_is_name_char src pos0 in
  if (0 <? pos - pos0)%nat && bool_decide (src !! pos = Some 40) then
    match match_close (S (length src)) 40 41 (pos + 1) 1 line1 with
    | None => mstuck
    | Some (close, line2) =>
        ps ← parse_params (S (length src)) (slice (pos + 1) (close - 1 - (pos + 1)) src) [] 0;
        let '(hdr_end, line3) := skip_while (fun d => negb (d =? 123)) close line2 in
        rt ← parse_return (slice close (hdr_end - close) src);
        if bool_decide (src !! hdr_end = Some 123) then
          match match_close (S (length src)) 123 125 (hdr_end + 1) 1 line3 with
          | None => mstuck
          | Some (bpos, line4) =>
              cap ← reserve_or_null 16 n_list cap_list;
              name ← strdup_or_null (slice pos0 (pos - pos0) src);
              mret (Some (mkInfo name ps rt
                            (slice (hdr_end + 1) (bpos - 1 - (hdr_end + 1)) src) line, bpos, cap),
                    line4)
          end
        else mret (None, line3)
    end
  else mret (None, line1).

Fixpoint infos_loop (fuel : nat) (i line : nat) (infos : list C0FnInfo) (cap : nat)
    : Mem (list C0FnInfo) :=
  match fuel with
  | O => mstuck
  | S fuel =>
      match src !! i with
      | None => mret infos
      | Some ch =>
          let line := if ch =? 10 then S line else line in
          if (ch =? 33) && negb (bool_decide (src !! (i + 1)%nat = Some 61)) then
            r ← parse_decl (length infos) cap i line;
            match r with
            | (Some (info, bpos, cap), line) => infos_loop fuel bpos line (infos ++ [info]) cap
            | (None, line) => infos_loop fuel (i + 1) line infos cap
            end
          else infos_loop fuel (i + 1) line infos cap
      end
  end.

(** The list is NULL when it is empty. *)
Definition c0_parse_fn_infos : Mem (list C0FnInfo) :=
  infos ← infos_loop (S (length src)) 0 1 [] 0;
  match infos with [] => null | _ => mret infos end.
End Headers.

(** ** Tokens *)

Inductive C0TokKind : Type := C0_TK_IDENT | C0_TK_NUMBER | C0_TK_PUNCT | C0_TK_STR | C0_TK_EOF.

#[export] Instance C0TokKind_eq_dec : EqDecision C0TokKind.
Proof. solve_decision. Defined.

Record C0Tok : Type := mkTok { tk_kind : C0TokKind; tk_text : list Z }.

Definition tok_eof : C0Tok := mkTok C0_TK_EOF [].

Definition TWO : list (list Z) := map cstr ["=="; "!="; "<="; ">="; "&&"; "||"; "->"; "<<"; ">>"]%string.

(** The body of a string literal: up to the closing quote, a backslash hiding
    the character after it. *)
Fixpoint str_run (l : list Z) : nat :=
  match l with
  | [] => O
  | c :: l =>
      if c =? 34 then O
      else if c =? 92 then match l with [] => 1%nat | _ :: l => S (S (str_run l)) end
      else S (str_run l)
  end.

(** What starts at a position: how many bytes, and the token if there is one. *)
Definition lex_one (l : list Z) : nat * option C0Tok :=
  match l with
  | [] => (O, None)
  | c :: l' =>
      if c0_is_space c then (1%nat, None)
      else if (c =? 47) && bool_decide (head l' = Some 47)
      then (run_length (fun d => negb (d =? 10)) l, None)
      else if c =? 34 then
        let n := (1 + str_run l')%nat in
        let n := if (n <? length l)%nat then S n else n in
        (n, Some (mkTok C0_TK_STR (take n l)))
      else if in_range 48 57 c then
        let n := run_length (in_range 48 57) l in (n, Some (mkTok C0_TK_NUMBER (take n l)))
      else if c0_is_ident_start c then
        let n := run_length c0_is_ident_part l in (n, Some (mkTok C0_TK_IDENT (take n l)))
      else if existsb (bytes_eqb (take 2 l)) TWO then (2%nat, Some (mkTok C0_TK_PUNCT (take 2 l)))
      else (1%nat, Some (mkTok C0_TK_PUNCT [c]))
  end.

(** TOK_APPEND *)
Definition tok_append `{Env} (t : C0Tok) (out : list C0Tok) (cap : nat) : Mem (list C0Tok * nat) :=
  cap ← reserve_or_null 64 (length out) cap;
  mret (out ++ [t], cap).

Fixpoint tokenize_loop `{Env} (fuel : nat) (l : list Z) (out : list C0Tok) (cap : nat)
    : Mem (list C0Tok) :=
  match fuel with
  | O => mstuck
  | S fuel =>
      match l with
      | [] => '(out, _) ← tok_append tok_eof out cap; mret out
      | _ =>
          let '(n, t) := lex_one l in
          match t with
          | None => tokenize_loop fuel (drop n l) out cap
          | Some t =>
              '(out, cap) ← tok_append t out cap;
              tokenize_loop fuel (drop n l) out cap
          end
      end
  end.

Definition c0_tokenize `{Env} (src : list Z) : Mem (list C0Tok) :=
  tokenize_loop (S (length src)) src [] 0.

(** ** Numerals *)

(** The loop of [c0_parse_i64]: [acc] is a [uint64_t]; [seen] is [digits]. *)
Fixpoint i64_digits (max_mag acc : Z) (seen : bool) (t : list Z) : option (Z * bool) :=
  match t with
  | [] => Some (acc, seen)
  | c :: t =>
      if negb (in_range 48 57 c) then None
      else
        let d := c - 48 in
        if (max_mag - d) / 10 <? acc then None
        else i64_digits max_mag (u64 (u64 (acc * 10) + d)) true t
  end.

Definition c0_parse_i64 (t : list Z) : option Z :=
  match t with
  | [] => None
  | c :: t' =>
      let signed := (c =? 45) || (c =? 43) in
      let neg := c =? 45 in
      let max_mag := if neg then INT64_MAX + 1 else INT64_MAX in
      match i64_digits max_mag 0 false (if signed then t' else t) with
      | Some (acc, true) => Some (if neg then i64 (u64 (0 - acc)) else i64 acc)
      | _ => None
      end
  end.

Fixpoint u16_digits (acc : Z) (t : list Z) : option Z :=
  match t with
  | [] => Some acc
  | c :: t =>
      if negb (in_range 48 57 c) then None
      else
        let acc := u32 (u32 (acc * 10) + (c - 48)) in
        if 65535 <? acc then None else u16_digits acc t
  end.

Definition c0_parse_u16 (t : list Z) : option Z :=
  match t with [] => None | _ => u16_digits 0 t end.

(** ** Examples *)

Definition mem0 : C0Mem := mkMem 0 0 C0_CHUNK_DEFAULT.

Example tokenize_example :
  exists m, @c0_tokenize calm (cstr "x1=-7<<2; // end") mem0 =
    Val [mkTok C0_TK_IDENT (cstr "x1"); mkTok C0_TK_PUNCT (cstr "="); mkTok C0_TK_PUNCT (cstr "-");
         mkTok C0_TK_NUMBER (cstr "7"); mkTok C0_TK_PUNCT (cstr "<<"); mkTok C0_TK_NUMBER (cstr "2");
         mkTok C0_TK_PUNCT (cstr ";"); tok_eof] m.
Proof. eexists. vm_compute. reflexivity. Qed.

Example infos_example :
  exists m, @c0_parse_fn_infos calm (cstr "!f(a: int, b:[3]int) -> int { ^a }") mem0 =
    Val [mkInfo (cstr "f") [mkParam (cstr "a") (cstr "int"); mkParam (cstr "b") (cstr "[3]int")]
           (cstr "int") (cstr " ^a ") 1] m.
Proof. eexists. vm_compute. reflexivity. Qed.
