(* ===== verification/C0Comp.v ===== *)
(** * tool/lin_c0_front.c: the one-pass compiler from tokens to bytecode

    [CM A] is a C function over the compiler's state: it returns a value and the
    new state; [None] is an access out of the token or code array, or a model
    out of fuel, both excluded by [C0Sound.wp].  As in C, a rejection is sticky
    and each function tests it where the code does ([unless_rejected]).  The
    levels of the expression grammar take the next level as an argument, and
    [c0_expr] and [c0_stmt] tie the recursion; the loops of a level share the
    fuel of the call. *)
From stdpp Require Import strings.
From S2P Require Import Prelude Common Sys Vm C0Lex.

(** A rejection code, or the sentinel of an exhausted allocator. *)
Inductive rejection : Type :=
| Rej (code : string)
| C0_OOM.

Record C0Comp : Type := mkComp {
  cc_mem : C0Mem;
  cc_toks : list C0Tok;
  cc_pos : nat;
  cc_code : list VmIns;
  code_cap : nat;
  cc_locals : list (list Z);
  locals_cap : nat;
  cc_arr_n : list Z;
  arrn_cap : nat;
  cc_fns : list VmFn;
  cc_reject : option rejection;
  allow_div : bool;
  allow_shift : bool
}.

Definition CM (A : Type) : Type := C0Comp -> option (A * C0Comp).

#[export] Instance CM_ret : MRet CM := fun _ x c => Some (x, c).
#[export] Instance CM_bind : MBind CM := fun _ _ k f c =>
  match f c with Some (x, c) => k x c | None => None end.

Definition set_mem (m : C0Mem) (c : C0Comp) : C0Comp :=
  mkComp m (cc_toks c) (cc_pos c) (cc_code c) (code_cap c) (cc_locals c) (locals_cap c)
    (cc_arr_n c) (arrn_cap c) (cc_fns c) (cc_reject c) (allow_div c) (allow_shift c).
Definition set_pos (p : nat) (c : C0Comp) : C0Comp :=
  mkComp (cc_mem c) (cc_toks c) p (cc_code c) (code_cap c) (cc_locals c) (locals_cap c)
    (cc_arr_n c) (arrn_cap c) (cc_fns c) (cc_reject c) (allow_div c) (allow_shift c).
Definition set_code (l : list VmIns) (cap : nat) (c : C0Comp) : C0Comp :=
  mkComp (cc_mem c) (cc_toks c) (cc_pos c) l cap (cc_locals c) (locals_cap c)
    (cc_arr_n c) (arrn_cap c) (cc_fns c) (cc_reject c) (allow_div c) (allow_shift c).
Definition set_locals (l : list (list Z)) (lcap : nat) (n : list Z) (ncap : nat) (c : C0Comp) : C0Comp :=
  mkComp (cc_mem c) (cc_toks c) (cc_pos c) (cc_code c) (code_cap c) l lcap
    n ncap (cc_fns c) (cc_reject c) (allow_div c) (allow_shift c).
Definition set_reject (r : option rejection) (c : C0Comp) : C0Comp :=
  mkComp (cc_mem c) (cc_toks c) (cc_pos c) (cc_code c) (code_cap c) (cc_locals c) (locals_cap c)
    (cc_arr_n c) (arrn_cap c) (cc_fns c) r (allow_div c) (allow_shift c).

Definition gets {A} (f : C0Comp -> A) : CM A := fun c => Some (f c, c).
Definition upd (f : C0Comp -> C0Comp) : CM unit := fun c => Some (tt, f c).
Definition out_of_fuel {A} : CM A := fun _ => None.

Definition is_some {A} (o : option A) : bool := match o with Some _ => true | None => false end.
Definition rejected : CM bool := gets (fun c => is_some (cc_reject c)).

(** [if (c->reject) return;] *)
Definition unless_rejected (k : CM unit) : CM unit := r ← rejected; if r : bool then mret tt else k.

(** ** Tokens *)

Definition c0_tok_eq (t : C0Tok) (s : string) : bool := bytes_eqb (tk_text t) (cstr s).
Definition is_kind (k : C0TokKind) (t : C0Tok) : bool := bool_decide (tk_kind t = k).
Definition is_punct (s : string) (t : C0Tok) : bool := is_kind C0_TK_PUNCT t && c0_tok_eq t s.
Definition is_word (s : string) (t : C0Tok) : bool := is_kind C0_TK_IDENT t && c0_tok_eq t s.

Definition c0_peek : CM C0Tok := fun c =>
  match cc_toks c !! cc_pos c with Some t => Some (t, c) | None => None end.

Definition c0_bump : CM C0Tok :=
  tk ← c0_peek;
  if is_kind C0_TK_EOF tk then mret tk
  else _ ← upd (fun c => set_pos (cc_pos c + 1) c); mret tk.

Definition c0_at_punct (s : string) : CM bool := tk ← c0_peek; mret (is_punct s tk).
Definition c0_at_ident (s : string) : CM bool := tk ← c0_peek; mret (is_word s tk).
Definition c0_accept_punct (s : string) : CM bool :=
  b ← c0_at_punct s; if b : bool then _ ← c0_bump; mret true else mret false.

Definition c0_fail_with (r : rejection) : CM unit :=
  upd (fun c => if is_some (cc_reject c) then c else set_reject (Some r) c).
Definition c0_fail (code : string) : CM unit := c0_fail_with (Rej code).

(** [if (!c0_accept_punct(c, s)) { c0_fail(c, code); return; }] *)
Definition expect (s code : string) (k : CM unit) : CM unit :=
  b ← c0_accept_punct s; if b : bool then k else c0_fail code.

(** ** Code *)

Section Compiler.
Context `{Env}.

(** [realloc] of an array of the compiler. *)
Definition c0_realloc : CM bool := fun c =>
  let '(ok, m) := c0_malloc (cc_mem c) in Some (ok, set_mem m c).

Definition c0_emit (o : VmOp) (x : Z) : CM nat :=
  c ← gets id;
  ok ← (if (length (cc_code c) =? code_cap c)%nat then c0_realloc else mret true);
  if ok : bool then
    let cap := if (length (cc_code c) =? code_cap c)%nat then next_cap 256 (code_cap c) else code_cap c in
    _ ← upd (set_code (cc_code c ++ [mkIns o x]) cap);
    mret (length (cc_code c))
  else _ ← c0_fail_with C0_OOM; mret O.

Definition c0_here : CM Z := gets (fun c => Z.of_nat (length (cc_code c))).

(** A write out of the code array is undefined. *)
Definition c0_patch (at_ : nat) : CM unit := fun c =>
  match cc_code c !! at_ with
  | Some i =>
      Some (tt, set_code (<[at_ := mkIns (op i) (Z.of_nat (length (cc_code c)))]> (cc_code c)) (code_cap c) c)
  | None => None
  end.

(** ** Locals *)

Fixpoint index_of (name : list Z) (ls : list (list Z)) : option nat :=
  match ls with
  | [] => None
  | l :: ls => if bytes_eqb l name then Some O else S <$> index_of name ls
  end.

Definition c0_find_local (name : list Z) : CM (option nat) := gets (fun c => index_of name (cc_locals c)).

(** The index of the local, declared if it is new; 0 after a rejection. *)
Definition c0_local_idx (name : list Z) : CM nat :=
  c ← gets id;
  match index_of name (cc_locals c) with
  | Some v => mret v
  | None =>
      if (LIN_VM_MAX_LOCALS <=? length (cc_locals c))%nat then
        _ ← c0_fail "VM_REJ_TOO_MANY_LOCALS"; mret O
      else
        let lfull := (length (cc_locals c) =? locals_cap c)%nat in
        ok ← (if lfull then c0_realloc else mret true);
        if negb ok then _ ← c0_fail_with C0_OOM; mret O
        else
          let lcap := if lfull then next_cap 16 (locals_cap c) else locals_cap c in
          _ ← upd (set_locals (cc_locals c) lcap (cc_arr_n c) (arrn_cap c));
          let nfull := (length (cc_arr_n c) =? arrn_cap c)%nat in
          ok ← (if nfull then c0_realloc else mret true);
          if negb ok then _ ← c0_fail_with C0_OOM; mret O
          else
            let ncap := if nfull then next_cap 16 (arrn_cap c) else arrn_cap c in
            _ ← upd (set_locals (cc_locals c) lcap (cc_arr_n c) ncap);
            copy ← (fun c => let '(s, m) := c0_arena_strdup_n name (cc_mem c) in Some (s, set_mem m c));
            match copy with
            | None => _ ← c0_fail_with C0_OOM; mret O
            | Some copy =>
                _ ← upd (set_locals (cc_locals c ++ [copy]) lcap (cc_arr_n c ++ [0]) ncap);
                mret (length (cc_locals c))
            end
  end.

Definition c0_local_arr_n (li : nat) : CM Z := gets (fun c => default 0 (cc_arr_n c !! li)).
Definition c0_mark_arr (li : nat) (n : Z) : CM unit :=
  upd (fun c => set_locals (cc_locals c) (locals_cap c) (<[li := n]> (cc_arr_n c)) (arrn_cap c) c).

(** The first function of that name whose signature is accepted. *)
Fixpoint index_fn (name : list Z) (fs : list VmFn) : option nat :=
  match fs with
  | [] => None
  | f :: fs => if sig_ok f && bytes_eqb (fn_name f) name then Some O else S <$> index_fn name fs
  end.

Definition c0_find_fn (name : list Z) : CM (option nat) := gets (fun c => index_fn name (cc_fns c)).

(** ** Expressions *)

Definition emit_ (o : VmOp) (x : Z) : CM unit := _ ← c0_emit o x; mret tt.

(** What a level does at a token: stop, reject, or compile an operator. *)
Inductive choice : Type :=
| Stop
| Refuse (code : string)
| Operator (o : VmOp).

(** The loop of a left-associative level. *)
Fixpoint binop_loop (n : nat) (ops : C0Comp -> C0Tok -> choice) (sub : CM unit) : CM unit :=
  match n with
  | O => out_of_fuel
  | S n =>
      unless_rejected (
        c ← gets id;
        tk ← c0_peek;
        match ops c tk with
        | Stop => mret tt
        | Refuse code => c0_fail code
        | Operator o =>
            _ ← c0_bump;
            _ ← sub;
            unless_rejected (_ ← emit_ o 0; binop_loop n ops sub)
        end)
  end.

Definition single (s : string) (o : VmOp) : C0Comp -> C0Tok -> choice :=
  fun _ tk => if is_punct s tk then Operator o else Stop.

Definition cmp_ops (c : C0Comp) (tk : C0Tok) : choice :=
  if is_punct "==" tk then Operator OP_CMP_EQ
  else if is_punct "!=" tk then Operator OP_CMP_NE
  else if is_punct "<=" tk then Operator OP_CMP_LE
  else if is_punct ">=" tk then Operator OP_CMP_GE
  else if is_punct "<" tk then Operator OP_CMP_LT
  else if is_punct ">" tk then Operator OP_CMP_GT
  else Stop.

Definition shift_ops (c : C0Comp) (tk : C0Tok) : choice :=
  if is_punct "<<" tk then (if allow_shift c then Operator OP_SHL else Refuse "VM_REJ_SHIFT")
  else if is_punct ">>" tk then (if allow_shift c then Operator OP_SHR else Refuse "VM_REJ_SHIFT")
  else Stop.

Definition add_ops (c : C0Comp) (tk : C0Tok) : choice :=
  if is_punct "+" tk then Operator OP_ADD
  else if is_punct "-" tk then Operator OP_SUB
  else Stop.

Definition mul_ops (c : C0Comp) (tk : C0Tok) : choice :=
  if is_punct "*" tk then Operator OP_MUL
  else if is_punct "%" tk then Operator OP_MOD
  else if is_punct "/" tk then (if allow_div c then Operator OP_DIV else Refuse "VM_REJ_INT_DIVISION")
  else Stop.

Section Levels.
(** The fuel of the loops, and the recursive call of [c0_expr]. *)
Context (n : nat) (expr : CM unit).

(** The loop over the arguments: their number. *)
Fixpoint args_loop (k : nat) (argc : nat) : CM nat :=
  match k with
  | O => out_of_fuel
  | S k =>
      r ← rejected;
      if r : bool then mret argc
      else
        _ ← expr;
        r ← rejected;
        if r : bool then mret argc
        else
          b ← c0_accept_punct ",";
          if b : bool then args_loop k (argc + 1) else mret (argc + 1)%nat
  end.

Definition intrinsic (tk : C0Tok) : option VmOp :=
  if c0_tok_eq tk "_lia_shl" then Some OP_SHL
  else if c0_tok_eq tk "_lia_shr" then Some OP_SHR
  else if c0_tok_eq tk "_lia_ushr" then Some OP_USHR
  else if c0_tok_eq tk "_lia_mod" then Some OP_MOD
  else if c0_tok_eq tk "@rem" then Some OP_MOD
  else None.

(** An identifier followed by an opening parenthesis. *)
Definition c0_call (tk : C0Tok) : CM unit :=
  _ ← c0_bump;
  b ← c0_at_punct ")";
  '(argc, stop) ← (if b : bool then mret (O, false)
                   else argc ← args_loop n 0; r ← rejected; mret (argc, r : bool));
  if (stop : bool) then mret tt
  else
    expect ")" "VM_REJ_PARSE" (
      match intrinsic tk with
      | Some o => if negb (argc =? 2)%nat then c0_fail "VM_REJ_ARITY" else emit_ o 0
      | None =>
          fi ← c0_find_fn (tk_text tk);
          match fi with
          | None => c0_fail "VM_REJ_UNKNOWN_CALL"
          | Some fi =>
              fs ← gets cc_fns;
              if negb (default O (nparams <$> fs !! fi) =? argc)%nat then c0_fail "VM_REJ_ARITY"
              else emit_ OP_CALL (Z.of_nat fi)
          end
      end).

(** An identifier followed by a dot. *)
Definition c0_member (tk : C0Tok) : CM unit :=
  _ ← c0_bump;
  fld ← c0_peek;
  if is_kind C0_TK_IDENT fld && (c0_tok_eq fld "length" || c0_tok_eq fld "len") then
    _ ← c0_bump;
    li ← c0_find_local (tk_text tk);
    match li with
    | None => c0_fail "VM_REJ_UNBOUND_IDENT"
    | Some li =>
        an ← c0_local_arr_n li;
        if an =? 0 then c0_fail "VM_REJ_LENGTH_NOT_ARRAY" else emit_ OP_ARR_LEN (Z.of_nat li)
    end
  else c0_fail "VM_REJ_MEMBER_ACCESS".

(** An identifier followed by an opening bracket. *)
Definition c0_index (tk : C0Tok) : CM unit :=
  li ← c0_find_local (tk_text tk);
  match li with
  | None => c0_fail "VM_REJ_UNBOUND_IDENT"
  | Some li =>
      an ← c0_local_arr_n li;
      if an =? 0 then c0_fail "VM_REJ_INDEX_NOT_ARRAY"
      else
        _ ← c0_bump;
        _ ← expr;
        unless_rejected (expect "]" "VM_REJ_PARSE" (emit_ OP_LOAD_INDEX (Z.of_nat li)))
  end.

Definition c0_var (tk : C0Tok) : CM unit :=
  li ← c0_find_local (tk_text tk);
  match li with
  | None => c0_fail "VM_REJ_UNBOUND_IDENT"
  | Some li =>
      an ← c0_local_arr_n li;
      if 0 <? an then c0_fail "VM_REJ_ARRAY_AS_SCALAR" else emit_ OP_LOAD_LOCAL (Z.of_nat li)
  end.

Definition c0_ident (tk : C0Tok) : CM unit :=
  _ ← c0_bump;
  if c0_tok_eq tk "true" then emit_ OP_PUSH_CONST 1
  else if c0_tok_eq tk "false" then emit_ OP_PUSH_CONST 0
  else
    nx ← c0_peek;
    if is_punct "(" nx then c0_call tk
    else if is_punct "." nx then c0_member tk
    else if is_punct "[" nx then c0_index tk
    else c0_var tk.

Definition c0_e_primary : CM unit :=
  tk ← c0_peek;
  match tk_kind tk with
  | C0_TK_STR => _ ← c0_bump; c0_fail "VM_REJ_STRING_LITERAL"
  | C0_TK_NUMBER =>
      _ ← c0_bump;
      match c0_parse_i64 (tk_text tk) with
      | None => c0_fail "VM_REJ_LITERAL_RANGE"
      | Some v => emit_ OP_PUSH_CONST v
      end
  | _ =>
      p ← c0_accept_punct "(";
      if p : bool then
        _ ← expr;
        unless_rejected (expect ")" "VM_REJ_PARSE" (mret tt))
      else if is_kind C0_TK_IDENT tk then c0_ident tk
      else _ ← c0_fail "VM_REJ_PARSE"; _ ← c0_bump; mret tt
  end.

Definition unary_op (tk : C0Tok) : option VmOp :=
  if is_punct "~" tk then Some OP_BIT_NOT
  else if is_punct "-" tk then Some OP_NEG
  else if is_punct "!" tk then Some OP_LOG_NOT
  else None.

Fixpoint c0_e_unary (k : nat) : CM unit :=
  match k with
  | O => out_of_fuel
  | S k =>
      tk ← c0_peek;
      match unary_op tk with
      | Some o => _ ← c0_bump; _ ← c0_e_unary k; unless_rejected (emit_ o 0)
      | None => c0_e_primary
      end
  end.

Definition c0_e_mul : CM unit := _ ← c0_e_unary n; binop_loop n mul_ops (c0_e_unary n).
Definition c0_e_add : CM unit := _ ← c0_e_mul; binop_loop n add_ops c0_e_mul.
Definition c0_e_band : CM unit := _ ← c0_e_add; binop_loop n (single "&" OP_BIT_AND) c0_e_add.
Definition c0_e_bxor : CM unit := _ ← c0_e_band; binop_loop n (single "^" OP_BIT_XOR) c0_e_band.
Definition c0_e_bor : CM unit := _ ← c0_e_bxor; binop_loop n (single "|" OP_BIT_OR) c0_e_bxor.
Definition c0_e_shift : CM unit := _ ← c0_e_bor; binop_loop n shift_ops c0_e_bor.
Definition c0_e_cmp : CM unit := _ ← c0_e_shift; binop_loop n cmp_ops c0_e_shift.

(** The loops of the short-circuit operators. *)
Fixpoint logic_loop (k : nat) (s : string) (o : VmOp) (sub : CM unit) : CM unit :=
  match k with
  | O => out_of_fuel
  | S k =>
      unless_rejected (
        b ← c0_at_punct s;
        if b : bool then
          _ ← c0_bump;
          j ← c0_emit o 0;
          unless_rejected (
            _ ← emit_ OP_POP 0;
            unless_rejected (
              _ ← sub;
              unless_rejected (_ ← c0_patch j; logic_loop k s o sub)))
        else mret tt)
  end.

Definition c0_e_and : CM unit := _ ← c0_e_cmp; logic_loop n "&&" OP_JUMP_IF_FALSE_KEEP c0_e_cmp.
Definition c0_e_or : CM unit := _ ← c0_e_and; logic_loop n "||" OP_JUMP_IF_TRUE_KEEP c0_e_and.
End Levels.

Fixpoint c0_expr (fuel : nat) : CM unit :=
  match fuel with
  | O => out_of_fuel
  | S fuel => c0_e_or (S fuel) (c0_expr fuel)
  end.

(** ** Statements *)

(** The elements of an array literal; [ei] is the index of the next one. *)
Fixpoint elements_loop (n k li : nat) (cap ei : Z) : CM unit :=
  match k with
  | O => out_of_fuel
  | S k =>
      unless_rejected (
        if cap <=? ei then c0_fail "VM_REJ_ARRAY_LIT_LEN"
        else
          _ ← emit_ OP_PUSH_CONST ei;
          unless_rejected (
            _ ← c0_expr n;
            unless_rejected (
              _ ← emit_ OP_STORE_INDEX (Z.of_nat li);
              unless_rejected (
                b ← c0_accept_punct ",";
                if b : bool then elements_loop n k li cap (ei + 1) else mret tt))))
  end.

Definition c0_emit_arr_lit (n li : nat) (cap : Z) : CM unit :=
  expect "[" "VM_REJ_PARSE" (
    b ← c0_at_punct "]";
    if b : bool then expect "]" "VM_REJ_PARSE" (mret tt)
    else
      _ ← elements_loop n n li cap 0;
      unless_rejected (expect "]" "VM_REJ_PARSE" (mret tt))).

(** [x[i] = e] *)
Definition assign_index (n : nat) (tk : C0Tok) : CM unit :=
  li ← c0_find_local (tk_text tk);
  match li with
  | None => c0_fail "VM_REJ_UNBOUND_IDENT"
  | Some li =>
      an ← c0_local_arr_n li;
      if an =? 0 then c0_fail "VM_REJ_INDEX_NOT_ARRAY"
      else
        _ ← c0_bump;
        _ ← c0_expr n;
        unless_rejected (
          expect "]" "VM_REJ_PARSE" (
          expect "=" "VM_REJ_UNSUPPORTED_STMT" (
            _ ← c0_expr n;
            unless_rejected (emit_ OP_STORE_INDEX (Z.of_nat li)))))
  end.

(** [x : [N]int] and an optional literal, after the colon. *)
Definition declare_array (n : nat) (tk : C0Tok) : CM unit :=
  expect "[" "VM_REJ_PARSE" (
    ntk ← c0_peek;
    if negb (is_kind C0_TK_NUMBER ntk) then c0_fail "VM_REJ_PARSE"
    else
      _ ← c0_bump;
      match c0_parse_u16 (tk_text ntk) with
      | None => c0_fail "VM_REJ_ARRAY_TOO_LARGE"
      | Some nval =>
          if (nval <? 1) || (Z.of_nat LIN_VM_MAX_ARR_LEN <? nval) then c0_fail "VM_REJ_ARRAY_TOO_LARGE"
          else
            expect "]" "VM_REJ_PARSE" (
              i1 ← c0_at_ident "int";
              i2 ← c0_at_ident "i64";
              if negb (i1 || i2) then c0_fail "VM_REJ_ARRAY_ELEM_NOT_INT"
              else
                _ ← c0_bump;
                li ← c0_local_idx (tk_text tk);
                unless_rejected (
                  _ ← c0_mark_arr li nval;
                  b ← c0_accept_punct "=";
                  if b : bool then c0_emit_arr_lit n li nval else mret tt))
      end).

(** [x = [..]], at the bracket. *)
Definition assign_literal (n : nat) (tk : C0Tok) : CM unit :=
  li ← c0_local_idx (tk_text tk);
  unless_rejected (
    cap ← c0_local_arr_n li;
    if cap =? 0 then c0_fail "VM_REJ_INDEX_NOT_ARRAY" else c0_emit_arr_lit n li cap).

(** [x = e], after the equals sign. *)
Definition assign_scalar (n : nat) (tk : C0Tok) : CM unit :=
  _ ← c0_expr n;
  unless_rejected (
    li ← c0_local_idx (tk_text tk);
    unless_rejected (
      an ← c0_local_arr_n li;
      if 0 <? an then c0_fail "VM_REJ_ARRAY_AS_SCALAR" else emit_ OP_STORE_LOCAL (Z.of_nat li))).

Definition c0_assign (n : nat) : CM unit :=
  tk ← c0_peek;
  if negb (is_kind C0_TK_IDENT tk) then c0_fail "VM_REJ_UNSUPPORTED_STMT"
  else
    _ ← c0_bump;
    ix ← c0_at_punct "[";
    if ix : bool then assign_index n tk
    else
      colon ← c0_accept_punct ":";
      if colon : bool then declare_array n tk
      else
        expect "=" "VM_REJ_UNSUPPORTED_STMT" (
          lit ← c0_at_punct "[";
          if lit : bool then assign_literal n tk else assign_scalar n tk).

(** The closing parenthesis that balances the one before [i]. *)
Fixpoint for_close (ts : list C0Tok) (i depth : nat) : option nat :=
  match ts with
  | [] => None
  | tk :: ts =>
      if is_punct "(" tk then for_close ts (i + 1) (depth + 1)
      else if is_punct ")" tk then
        if (depth =? 0)%nat then Some i else for_close ts (i + 1) (depth - 1)
      else for_close ts (i + 1) depth
  end.

Definition c0_for_close (start : nat) : CM (option nat) :=
  gets (fun c => for_close (drop start (cc_toks c)) start 0).

Section Statements.
(** The fuel of the loops and expressions, and the recursive call of [c0_stmt]. *)
Context (n : nat) (stmt : CM unit).

(** [true] when the closing brace is reached, [false] on an early return. *)
Fixpoint block_loop (k : nat) : CM bool :=
  match k with
  | O => out_of_fuel
  | S k =>
      b ← c0_at_punct "}";
      if b : bool then mret true
      else
        r ← rejected;
        if r : bool then mret false
        else
          tk ← c0_peek;
          if is_kind C0_TK_EOF tk then _ ← c0_fail "VM_REJ_PARSE"; mret false
          else _ ← stmt; block_loop k
  end.

Definition c0_block : CM unit :=
  expect "{" "VM_REJ_PARSE" (
    b ← block_loop n;
    if b : bool then _ ← c0_bump; mret tt else mret tt).

(** [ends] and its capacity are the caller's; they are returned. *)
Fixpoint c0_if_chain (k : nat) (ends : list nat) (cap_ends : nat) : CM (list nat) :=
  match k with
  | O => out_of_fuel
  | S k =>
      b ← c0_accept_punct "(";
      if negb b then _ ← c0_fail "VM_REJ_PARSE"; mret ends
      else
        _ ← c0_expr n;
        r ← rejected;
        if r : bool then mret ends
        else
          b ← c0_accept_punct ")";
          if negb b then _ ← c0_fail "VM_REJ_PARSE"; mret ends
          else
            jf ← c0_emit OP_JUMP_IF_FALSE 0;
            r ← rejected;
            if r : bool then mret ends
            else
              _ ← c0_block;
              r ← rejected;
              if r : bool then mret ends
              else
                je ← c0_emit OP_JUMP 0;
                r ← rejected;
                if r : bool then mret ends else c0_if_else k ends cap_ends jf je
  end

(** From the growth of [ends]. *)
with c0_if_else (k : nat) (ends : list nat) (cap_ends jf je : nat) : CM (list nat) :=
  match k with
  | O => out_of_fuel
  | S k =>
      let full := (length ends =? cap_ends)%nat in
      ok ← (if full then c0_realloc else mret true);
      if negb ok then _ ← c0_fail_with C0_OOM; mret ends
      else
        let cap_ends := if full then next_cap 16 cap_ends else cap_ends in
        let ends := ends ++ [je] in
        _ ← c0_patch jf;
        colon ← c0_accept_punct ":";
        if colon : bool then
          paren ← c0_at_punct "(";
          if paren : bool then c0_if_chain k ends cap_ends else _ ← c0_block; mret ends
        else
          els ← c0_at_ident "else";
          if els : bool then
            _ ← c0_bump;
            if_ ← c0_at_ident "if";
            if if_ : bool then _ ← c0_bump; c0_if_chain k ends cap_ends
            else _ ← c0_block; mret ends
          else mret ends
  end.

Fixpoint patch_all (ends : list nat) : CM unit :=
  match ends with
  | [] => mret tt
  | e :: ends => _ ← c0_patch e; patch_all ends
  end.

(** [(void)c0_accept_punct(c, ";")] *)
Definition skip_semi : CM unit := _ ← c0_accept_punct ";"; mret tt.

Definition stmt_return : CM unit :=
  _ ← c0_bump;
  _ ← c0_expr n;
  unless_rejected (_ ← skip_semi; emit_ OP_RET 0).

Definition stmt_if : CM unit :=
  _ ← c0_bump;
  ends ← c0_if_chain n [] 0;
  unless_rejected (_ ← patch_all ends; skip_semi).

Definition stmt_while : CM unit :=
  _ ← c0_bump;
  top ← c0_here;
  expect "(" "VM_REJ_PARSE" (
    _ ← c0_expr n;
    unless_rejected (
      expect ")" "VM_REJ_PARSE" (
        jf ← c0_emit OP_JUMP_IF_FALSE 0;
        unless_rejected (
          _ ← c0_block;
          unless_rejected (
            _ ← emit_ OP_JUMP top;
            unless_rejected (_ ← c0_patch jf; skip_semi)))))).

(** The body, then the increment that lies before it in the text. *)
Definition for_body (cond_pos : Z) (step_pos close_pos : nat) : CM unit :=
  _ ← upd (set_pos (close_pos + 1));
  jf ← c0_emit OP_JUMP_IF_FALSE 0;
  unless_rejected (
    _ ← c0_block;
    unless_rejected (
      body_end ← gets cc_pos;
      _ ← upd (set_pos step_pos);
      stop ← (if (step_pos =? close_pos)%nat then mret false
              else
                _ ← c0_assign n;
                r ← rejected;
                if r : bool then mret true
                else
                  p ← gets cc_pos;
                  if (p =? close_pos)%nat then mret false
                  else _ ← c0_fail "VM_REJ_PARSE"; mret true);
      if (stop : bool) then mret tt
      else
        _ ← upd (set_pos body_end);
        _ ← emit_ OP_JUMP cond_pos;
        unless_rejected (_ ← c0_patch jf; skip_semi))).

Definition for_rest (cond_pos : Z) : CM unit :=
  expect ";" "VM_REJ_PARSE" (
    step_pos ← gets cc_pos;
    close ← c0_for_close step_pos;
    match close with
    | None => c0_fail "VM_REJ_PARSE"
    | Some close_pos => for_body cond_pos step_pos close_pos
    end).

Definition stmt_for : CM unit :=
  _ ← c0_bump;
  expect "(" "VM_REJ_PARSE" (
    e ← c0_at_punct ";";
    _ ← (if e : bool then mret tt else c0_assign n);
    unless_rejected (
      expect ";" "VM_REJ_PARSE" (
        cond_pos ← c0_here;
        e ← c0_at_punct ";";
        if e : bool then _ ← emit_ OP_PUSH_CONST 1; for_rest cond_pos
        else _ ← c0_expr n; unless_rejected (for_rest cond_pos)))).

(** An assignment; also what is no statement. *)
Definition stmt_other : CM unit :=
  hash ← c0_at_punct "#";
  if hash : bool then c0_fail "VM_REJ_FOR_LOOP"
  else _ ← c0_assign n; unless_rejected (expect ";" "VM_REJ_PARSE" (mret tt)).

Definition stmt_step : CM unit :=
  semi ← c0_accept_punct ";";
  if semi : bool then mret tt
  else
    tk ← c0_peek;
    if is_punct "^" tk || is_word "return" tk then stmt_return
    else if is_punct "?" tk || is_word "if" tk then stmt_if
    else if is_word "while" tk then stmt_while
    else if is_word "for" tk then stmt_for
    else stmt_other.
End Statements.

Fixpoint c0_stmt (fuel : nat) : CM unit :=
  match fuel with
  | O => out_of_fuel
  | S fuel => stmt_step (S fuel) (c0_stmt fuel)
  end.

(** The loop of [c0_build_impl] over the statements of a body. *)
Fixpoint body_loop (n k : nat) : CM unit :=
  match k with
  | O => out_of_fuel
  | S k =>
      tk ← c0_peek;
      r ← rejected;
      if is_kind C0_TK_EOF tk || r then mret tt
      else _ ← c0_stmt n; body_loop n k
  end.
End Compiler.
