(* ===== verification/C0Build.v ===== *)
(** * tool/lin_c0_front.c: eligibility of signatures, dependencies, c0_build

    [c0_build_impl] turns source text into a module: every function of the text
    has an entry, whose [reject] says why it has no code; [Null] is a NULL
    result.  The sizes of the arena's objects are those of an LP64 host. *)
From stdpp Require Import strings.
From S2P Require Import Prelude Common Sys Vm C0Lex C0Comp.

(** ** Types of parameters *)

Definition c0_is_blank (c : Z) : bool := (c =? 32) || (c =? 9).

Definition is_int (ty : list Z) : bool := bytes_eqb ty (cstr "int") || bytes_eqb ty (cstr "i64").

(** The length of an array type [[N]int]. *)
Definition c0_arr_len_of (ty : list Z) : option Z :=
  let t := c0_trim ty in
  if (length t <? 6)%nat || negb (bool_decide (head t = Some 91)) then None
  else
    match c0_index_char t 93 with
    | None => None
    | Some close =>
        match c0_parse_u16 (trim_by c0_is_blank (slice 1 (close - 1) t)) with
        | None => None
        | Some v => if is_int (trim_by c0_is_blank (drop (close + 1) t)) then Some v else None
        end
    end.

Definition arr_len_bad (n : Z) : bool := (n <? 1) || (Z.of_nat LIN_VM_MAX_ARR_LEN <? n).

Fixpoint params_eligible (ps : list C0Param) : option string :=
  match ps with
  | [] => None
  | p :: ps =>
      if is_int (type_name p) then params_eligible ps
      else match c0_arr_len_of (type_name p) with
      | Some n => if arr_len_bad n then Some "VM_REJ_ARRAY_TOO_LARGE"%string else params_eligible ps
      | None => Some "VM_REJ_PARAM_NOT_INT"%string
      end
  end.

Definition c0_sig_eligible (info : C0FnInfo) : option string :=
  if negb (is_int (return_type info)) then Some "VM_REJ_RETURN_NOT_INT"%string
  else params_eligible (fi_params info).

(** ** Dependencies *)

(** Whether an instruction calls a function that has no code. *)
Definition bad_call (fs : list VmFn) (i : VmIns) : bool :=
  bool_decide (op i = OP_CALL) &&
  match lookupz fs (u64 (a i)) with Some g => negb (ok g) | None => true end.

Definition dep_rejected (f : VmFn) : VmFn :=
  mkFn (fn_name f) (nparams f) (nlocals f) (code f) (sig_ok f) false
    (cstr "VM_REJ_DEP_REJECTED") (arr_n f).

(** The [for] loop over the functions: [k] of them from [i] on. *)
Fixpoint resolve_pass (k i : nat) (fs : list VmFn) (changed : bool) : list VmFn * bool :=
  match k with
  | O => (fs, changed)
  | S k =>
      match fs !! i with
      | None => (fs, changed)
      | Some f =>
          if ok f && existsb (bad_call fs) (code f)
          then resolve_pass k (i + 1) (<[i := dep_rejected f]> fs) true
          else resolve_pass k (i + 1) fs changed
      end
  end.

Fixpoint resolve_loop (fuel : nat) (fs : list VmFn) : option (list VmFn) :=
  match fuel with
  | O => None
  | S fuel =>
      let '(fs, changed) := resolve_pass (length fs) 0 fs false in
      if changed : bool then resolve_loop fuel fs else Some fs
  end.

(** Each turn but the last rejects a function. *)
Definition c0_resolve_deps (fs : list VmFn) : option (list VmFn) := resolve_loop (S (length fs)) fs.

(** ** The module *)

Definition SIZEOF_VmModule : Z := 16.
Definition SIZEOF_VmFn : Z := 72.
Definition SIZEOF_VmIns : Z := 16.
Definition SIZEOF_uint16 : Z := 2.

(** The first loop: signatures. *)
Definition declare_fn (info : C0FnInfo) : VmFn :=
  match c0_sig_eligible info with
  | Some rej => mkFn (fi_name info) (length (fi_params info)) 0 [] false false (cstr rej) []
  | None => mkFn (fi_name info) (length (fi_params info)) 0 [] true false [] []
  end.

Definition reject_fn (f : VmFn) (sig : bool) (r : list Z) : VmFn :=
  mkFn (fn_name f) (nparams f) (nlocals f) (code f) sig (ok f) r (arr_n f).

Definition rejection_text (r : rejection) : list Z :=
  match r with
  | Rej code => cstr code
  | C0_OOM => cstr "C0_REJ_OUT_OF_MEMORY"
  end.

Section Build.
Context `{Env} (div shift : bool).

(** The loop over the parameters: whether it broke on a bad array. *)
Fixpoint declare_params (ps : list C0Param) : CM bool :=
  match ps with
  | [] => mret false
  | p :: ps =>
      li ← c0_local_idx (p_name p);
      r ← rejected;
      if r : bool then mret false
      else
        match c0_arr_len_of (type_name p) with
        | None => declare_params ps
        | Some n => if arr_len_bad n then mret true else _ ← c0_mark_arr li n; declare_params ps
        end
  end.

(** [c0_stmt] until the end of the body, then [push_const 0; ret]. *)
Definition compile_body (info : C0FnInfo) (fuel : nat) : CM bool :=
  broke ← declare_params (fi_params info);
  if broke : bool then mret true
  else
    _ ← body_loop fuel fuel;
    _ ← unless_rejected (_ ← emit_ OP_PUSH_CONST 0; emit_ OP_RET 0);
    mret false.

Definition comp_init (m : C0Mem) (toks : list C0Tok) (fs : list VmFn) : C0Comp :=
  mkComp m toks 0 [] 0 [] 0 [] 0 fs None div shift.

(** One turn of the second loop. *)
Definition compile_fn (fs : list VmFn) (info : C0FnInfo) (f : VmFn) : Mem VmFn :=
  if negb (sig_ok f) then mret f
  else
    toks ← c0_tokenize (fi_body info);
    r ← (fun m => match compile_body info (S (length toks)) (comp_init m toks fs) with
                  | Some (broke, c) => Val (broke, c) (cc_mem c)
                  | None => MStuck
                  end);
    let '(broke, c) := r : bool * C0Comp in
    if broke then mret (reject_fn f false (cstr "VM_REJ_ARRAY_TOO_LARGE"))
    else
      match cc_reject c with
      | Some r => mret (reject_fn f (sig_ok f) (rejection_text r))
      | None =>
          _ ← alloc_or_null (c0_arena_alloc (Z.of_nat (length (cc_code c)) * SIZEOF_VmIns));
          _ ← alloc_or_null (c0_arena_alloc (Z.of_nat (Nat.max 1 (length (cc_arr_n c))) * SIZEOF_uint16));
          mret (mkFn (fn_name f) (nparams f) (length (cc_locals c)) (cc_code c) (sig_ok f) true
                  (reject f) (cc_arr_n c))
      end.

Fixpoint compile_fns (i : nat) (infos : list C0FnInfo) (fs : list VmFn) : Mem (list VmFn) :=
  match infos with
  | [] => mret fs
  | info :: infos =>
      match fs !! i with
      | None => mstuck
      | Some f => f ← compile_fn fs info f; compile_fns (i + 1) infos (<[i := f]> fs)
      end
  end.

Definition c0_build_impl (src : list Z) : Mem VmModule :=
  infos ← c0_parse_fn_infos src;
  _ ← alloc_or_null (c0_arena_alloc SIZEOF_VmModule);
  _ ← alloc_or_null (c0_arena_alloc (Z.of_nat (Nat.max 1 (length infos)) * SIZEOF_VmFn));
  fs ← compile_fns 0 infos (map declare_fn infos);
  match c0_resolve_deps fs with
  | None => mstuck
  | Some fs => mret (mkModule fs)
  end.
End Build.

Definition c0_build `{Env} : list Z -> Mem VmModule := c0_build_impl true false.
Definition c0_build_full `{Env} : list Z -> Mem VmModule := c0_build_impl true true.

(** ** An example *)

Definition sample : list Z := cstr
"!fib(n: int) -> int { ? (n < 2) { ^n } ^fib(n-1) + fib(n-2) }
!sumto(n: int) -> int { s = 0; i = 1; while (i <= n) { s = s + i; i = i + 1; } return s; }
!sq(n: int) -> int { t : [3]int = [7, 8, 9]; s = 0; for (i = 0; i < t.length; i = i + 1) { s = s + t[i] * n; } ^s }".

Definition run_sample (fi : Z) (args : list Z) : option vm_out :=
  match @c0_build calm sample mem0 with
  | Val m _ => vm_exec 4000 m true fi args 0 0
  | _ => None
  end.

Example sample_runs :
  run_sample 0 [10] = Some (V_ok (mkResult 55 1) 1766) /\
  run_sample 1 [100] = Some (V_ok (mkResult 5050 1) 1310) /\
  run_sample 2 [10] = Some (V_ok (mkResult 240 1) 67).
Proof. vm_compute. auto. Qed.
