(* ===== verification/C0Lang.v ===== *)
(** * The C0 language: syntax trees, grammar, scopes and the code of a tree

    What [c0_stmt] and [c0_expr] compile, stated without them: [dexpr] and
    [dstmt] derive trees from tokens, [scope_expr] and [scope_stmt] resolve the
    names, [gen] and [gen_stmt] lay out the code of a tree from the index it
    starts at.  Operators are named by their opcode. *)
From stdpp Require Import strings.
From S2P Require Import Prelude Common Vm C0Lex C0Comp.

Inductive cexpr : Type :=
| XNum (v : Z)
| XVar (x : list Z)
| XIndex (x : list Z) (e : cexpr)
| XLen (x : list Z)
| XUn (o : VmOp) (e : cexpr)
| XBin (o : VmOp) (e1 e2 : cexpr)
| XAnd (e1 e2 : cexpr)
| XOr (e1 e2 : cexpr)
| XCall (f : list Z) (args : cargs)
with cargs : Type :=
| ANil
| ACons (e : cexpr) (es : cargs).

Scheme cexpr_mind := Induction for cexpr Sort Prop
with cargs_mind := Induction for cargs Sort Prop.
Combined Scheme cexpr_cargs_ind from cexpr_mind, cargs_mind.

Inductive cstmt : Type :=
| SSkip
| SSeq (s1 s2 : cstmt)
| SReturn (e : cexpr)
| SAssign (x : list Z) (e : cexpr)
| SStore (x : list Z) (i e : cexpr)
| SDecl (x : list Z) (n : Z) (lit : cargs)
| SLit (x : list Z) (lit : cargs)
| SIf (e : cexpr) (s1 s2 : cstmt)
| SWhile (e : cexpr) (s : cstmt)
| SFor (init : cstmt) (cond : cexpr) (step body : cstmt).

Fixpoint args_len (es : cargs) : nat :=
  match es with ANil => O | ACons _ es => S (args_len es) end.

(** ** Grammar *)

Section Grammar.
Context (div shift : bool).

(** The binary operators of each level, loosest first. *)
Definition op_table (l : nat) : list (string * (cexpr -> cexpr -> cexpr)) :=
  match l with
  | 0 => [("||"%string, XOr)]
  | 1 => [("&&"%string, XAnd)]
  | 2 => [("=="%string, XBin OP_CMP_EQ); ("!="%string, XBin OP_CMP_NE);
          ("<="%string, XBin OP_CMP_LE); (">="%string, XBin OP_CMP_GE);
          ("<"%string, XBin OP_CMP_LT); (">"%string, XBin OP_CMP_GT)]
  | 3 => if shift then [("<<"%string, XBin OP_SHL); (">>"%string, XBin OP_SHR)] else []
  | 4 => [("|"%string, XBin OP_BIT_OR)]
  | 5 => [("^"%string, XBin OP_BIT_XOR)]
  | 6 => [("&"%string, XBin OP_BIT_AND)]
  | 7 => [("+"%string, XBin OP_ADD); ("-"%string, XBin OP_SUB)]
  | 8 => [("*"%string, XBin OP_MUL); ("%"%string, XBin OP_MOD)] ++
         (if div then [("/"%string, XBin OP_DIV)] else [])
  | _ => []
  end%nat.

Definition unary_table : list (string * VmOp) :=
  [("~"%string, OP_BIT_NOT); ("-"%string, OP_NEG); ("!"%string, OP_LOG_NOT)].

(** The calls that are operators. *)
Definition intrinsic_table : list (string * VmOp) :=
  [("_lia_shl"%string, OP_SHL); ("_lia_shr"%string, OP_SHR); ("_lia_ushr"%string, OP_USHR);
   ("_lia_mod"%string, OP_MOD); ("@rem"%string, OP_MOD)].

Definition punct (s : string) : C0Tok := mkTok C0_TK_PUNCT (cstr s).
Definition ident (x : list Z) : C0Tok := mkTok C0_TK_IDENT x.
Definition word (s : string) : C0Tok := ident (cstr s).

(** A name that is not a boolean literal. *)
Definition plain (x : list Z) : Prop := x <> cstr "true" /\ x <> cstr "false".

Inductive dexpr : nat -> list C0Tok -> cexpr -> Prop :=
| D_up l ts e : (l < 9)%nat -> dexpr (S l) ts e -> dexpr l ts e
| D_bin l s mk ts1 ts2 e1 e2 :
    (s, mk) ∈ op_table l -> dexpr l ts1 e1 -> dexpr (S l) ts2 e2 ->
    dexpr l (ts1 ++ punct s :: ts2) (mk e1 e2)
| D_un s o ts e : (s, o) ∈ unary_table -> dexpr 9 ts e -> dexpr 9 (punct s :: ts) (XUn o e)
| D_num t v : c0_parse_i64 t = Some v -> dexpr 9 [mkTok C0_TK_NUMBER t] (XNum v)
| D_true : dexpr 9 [word "true"] (XNum 1)
| D_false : dexpr 9 [word "false"] (XNum 0)
| D_paren ts e : dexpr 0 ts e -> dexpr 9 (punct "(" :: ts ++ [punct ")"]) e
| D_var x : plain x -> dexpr 9 [ident x] (XVar x)
| D_index x ts e : plain x -> dexpr 0 ts e ->
    dexpr 9 (ident x :: punct "[" :: ts ++ [punct "]"]) (XIndex x e)
| D_len x s : plain x -> s ∈ ["length"; "len"]%string ->
    dexpr 9 [ident x; punct "."; word s] (XLen x)
| D_intrinsic s o ts e1 e2 : (s, o) ∈ intrinsic_table -> dargs ts (ACons e1 (ACons e2 ANil)) ->
    dexpr 9 (word s :: punct "(" :: ts ++ [punct ")"]) (XBin o e1 e2)
| D_call f ts es : plain f -> (forall s o, (s, o) ∈ intrinsic_table -> f <> cstr s) -> dargs ts es ->
    dexpr 9 (ident f :: punct "(" :: ts ++ [punct ")"]) (XCall f es)
(** Expressions separated by commas. *)
with dargs : list C0Tok -> cargs -> Prop :=
| D_none : dargs [] ANil
| D_last ts e : dexpr 0 ts e -> dargs ts (ACons e ANil)
| D_more ts1 ts2 e1 e2 es : dexpr 0 ts1 e1 -> dargs ts2 (ACons e2 es) ->
    dargs (ts1 ++ punct "," :: ts2) (ACons e1 (ACons e2 es)).

Inductive dlit : list C0Tok -> cargs -> Prop :=
| D_lit ts es : dargs ts es -> dlit (punct "[" :: ts ++ [punct "]"]) es.

Inductive dassign : list C0Tok -> cstmt -> Prop :=
| D_assign x ts e : dexpr 0 ts e -> dassign (ident x :: punct "=" :: ts) (SAssign x e)
| D_store x ts1 ts2 i e : dexpr 0 ts1 i -> dexpr 0 ts2 e ->
    dassign (ident x :: punct "[" :: ts1 ++ punct "]" :: punct "=" :: ts2) (SStore x i e)
| D_decl x t n ty : c0_parse_u16 t = Some n -> 1 <= n <= Z.of_nat LIN_VM_MAX_ARR_LEN ->
    ty ∈ ["int"; "i64"]%string ->
    dassign [ident x; punct ":"; punct "["; mkTok C0_TK_NUMBER t; punct "]"; word ty] (SDecl x n ANil)
| D_decl_lit x t n ty ts es : c0_parse_u16 t = Some n -> 1 <= n <= Z.of_nat LIN_VM_MAX_ARR_LEN ->
    ty ∈ ["int"; "i64"]%string -> dlit ts es ->
    dassign ([ident x; punct ":"; punct "["; mkTok C0_TK_NUMBER t; punct "]"; word ty; punct "="] ++ ts)
      (SDecl x n es)
| D_assign_lit x ts es : dlit ts es -> dassign (ident x :: punct "=" :: ts) (SLit x es).

(** An optional semicolon. *)
Definition semi (ts : list C0Tok) : Prop := ts = [] \/ ts = [punct ";"].

Inductive dstmt : list C0Tok -> cstmt -> Prop :=
| D_skip : dstmt [punct ";"] SSkip
| D_return tk ts e sc : tk = punct "^" \/ tk = word "return" -> dexpr 0 ts e -> semi sc ->
    dstmt (tk :: ts ++ sc) (SReturn e)
| D_if tk ts s sc : tk = punct "?" \/ tk = word "if" -> dchain ts s -> semi sc ->
    dstmt (tk :: ts ++ sc) s
| D_while ts1 ts2 e s sc : dexpr 0 ts1 e -> dblock ts2 s -> semi sc ->
    dstmt (word "while" :: punct "(" :: ts1 ++ punct ")" :: ts2 ++ sc) (SWhile e s)
| D_for ts1 ts2 ts3 ts4 init cond step body sc :
    dclause ts1 init -> dcond ts2 cond -> dclause ts3 step -> dblock ts4 body -> semi sc ->
    dstmt (word "for" :: punct "(" :: ts1 ++ punct ";" :: ts2 ++ punct ";" :: ts3 ++ punct ")" :: ts4 ++ sc)
      (SFor init cond step body)
| D_assignment ts s : dassign ts s -> dstmt (ts ++ [punct ";"]) s
(** After [if]: the condition, the block, and what follows it. *)
with dchain : list C0Tok -> cstmt -> Prop :=
| D_chain ts1 ts2 ts3 e s1 s2 : dexpr 0 ts1 e -> dblock ts2 s1 -> delse ts3 s2 ->
    dchain (punct "(" :: ts1 ++ punct ")" :: ts2 ++ ts3) (SIf e s1 s2)
with delse : list C0Tok -> cstmt -> Prop :=
| D_no_else : delse [] SSkip
| D_else tk ts s : tk = punct ":" \/ tk = word "else" -> dblock ts s -> delse (tk :: ts) s
| D_elif ts s : dchain ts s -> delse (punct ":" :: ts) s
| D_else_if ts s : dchain ts s -> delse (word "else" :: word "if" :: ts) s
with dblock : list C0Tok -> cstmt -> Prop :=
| D_block ts s : dstmts ts s -> dblock (punct "{" :: ts ++ [punct "}"]) s
with dstmts : list C0Tok -> cstmt -> Prop :=
| D_end : dstmts [] SSkip
| D_seq ts1 ts2 s1 s2 : dstmt ts1 s1 -> dstmts ts2 s2 -> dstmts (ts1 ++ ts2) (SSeq s1 s2)
(** The clauses of a for header; an empty condition is true. *)
with dclause : list C0Tok -> cstmt -> Prop :=
| D_no_clause : dclause [] SSkip
| D_clause ts s : dassign ts s -> dclause ts s
with dcond : list C0Tok -> cexpr -> Prop :=
| D_no_cond : dcond [] (XNum 1)
| D_cond ts e : dexpr 0 ts e -> dcond ts e.
End Grammar.

(** ** Scopes *)

(** The locals declared so far and the length of each as an array, 0 for a
    scalar. *)
Record scope : Type := mkScope { s_names : list (list Z); s_arrs : list Z }.

(** The two lists run in parallel; an array has at most 256 elements. *)
Definition scope_wf (G : scope) : Prop :=
  length (s_names G) = length (s_arrs G) /\
  Forall (fun n => 0 <= n <= Z.of_nat LIN_VM_MAX_ARR_LEN) (s_arrs G).

Definition arr_len (G : scope) (i : nat) : Z := default 0 (s_arrs G !! i).

Definition scalar_in (G : scope) (x : list Z) : bool :=
  match index_of x (s_names G) with Some i => arr_len G i <=? 0 | None => false end.
Definition array_in (G : scope) (x : list Z) : bool :=
  match index_of x (s_names G) with Some i => negb (arr_len G i =? 0) | None => false end.

Section Scopes.
Context (fs : list VmFn).

Fixpoint scope_expr (G : scope) (e : cexpr) : bool :=
  match e with
  | XNum _ => true
  | XVar x => scalar_in G x
  | XIndex x e => array_in G x && scope_expr G e
  | XLen x => array_in G x
  | XUn _ e => scope_expr G e
  | XBin _ e1 e2 | XAnd e1 e2 | XOr e1 e2 => scope_expr G e1 && scope_expr G e2
  | XCall f es =>
      match index_fn f fs with
      | Some fi => (default O (nparams <$> fs !! fi) =? args_len es)%nat && scope_args G es
      | None => false
      end
  end
with scope_args (G : scope) (es : cargs) : bool :=
  match es with
  | ANil => true
  | ACons e es => scope_expr G e && scope_args G es
  end.

(** The local of a name, declared if it is new. *)
Definition declare (x : list Z) (G : scope) : option (nat * scope) :=
  match index_of x (s_names G) with
  | Some i => Some (i, G)
  | None =>
      if (LIN_VM_MAX_LOCALS <=? length (s_names G))%nat then None
      else Some (length (s_names G), mkScope (s_names G ++ [x]) (s_arrs G ++ [0]))
  end.

Definition mark (i : nat) (n : Z) (G : scope) : scope := mkScope (s_names G) (<[i := n]> (s_arrs G)).

Lemma declare_wf x G i G' : declare x G = Some (i, G') -> scope_wf G -> scope_wf G'.
Proof.
  unfold declare. intros H [Hl Ha]. case_match; [by injection H as _ <-|]. case_match; [done|].
  injection H as _ <-. split; cbn [s_names s_arrs]; [rewrite !length_app, Hl; done|].
  apply Forall_app. split; [done|]. constructor; [lia|done].
Qed.

Lemma mark_wf i n G : 0 <= n <= Z.of_nat LIN_VM_MAX_ARR_LEN -> scope_wf G -> scope_wf (mark i n G).
Proof.
  intros Hn [Hl Ha]. split; cbn [mark s_names s_arrs]; [by rewrite length_insert|].
  by apply Forall_insert.
Qed.

Lemma arr_len_nonneg G i : scope_wf G -> 0 <= arr_len G i.
Proof.
  intros [_ Ha]. unfold arr_len. destruct (s_arrs G !! i) as [z|] eqn:E; simpl; [|lia].
  apply (Forall_lookup_1 _ _ _ _ Ha) in E. lia.
Qed.

(** A name just declared is a scalar. *)
Lemma declare_scalar x G i G' : scope_wf G -> index_of x (s_names G) = None ->
  declare x G = Some (i, G') -> arr_len G' i = 0.
Proof.
  intros [Hl _] E. unfold declare. rewrite E. case_match; [done|]. intros [= <- <-].
  unfold arr_len. cbn [s_arrs]. by rewrite lookup_app_r, Hl, Nat.sub_diag by lia.
Qed.

Definition lit_fits (n : Z) (es : cargs) : bool := Z.of_nat (args_len es) <=? n.

(** The scope after a statement, when its names resolve. *)
Fixpoint scope_stmt (G : scope) (s : cstmt) : option scope :=
  match s with
  | SSkip => Some G
  | SSeq s1 s2 => G ← scope_stmt G s1; scope_stmt G s2
  | SReturn e => if scope_expr G e then Some G else None
  | SAssign x e =>
      if scope_expr G e then
        '(i, G) ← declare x G; if arr_len G i <=? 0 then Some G else None
      else None
  | SStore x i e => if array_in G x && scope_expr G i && scope_expr G e then Some G else None
  | SDecl x n lit =>
      '(i, G) ← declare x G;
      let G := mark i n G in
      if scope_args G lit && lit_fits n lit then Some G else None
  | SLit x lit =>
      match index_of x (s_names G) with
      | Some i =>
          if negb (arr_len G i =? 0) && scope_args G lit && lit_fits (arr_len G i) lit
          then Some G else None
      | None => None
      end
  | SIf e s1 s2 => if scope_expr G e then G ← scope_stmt G s1; scope_stmt G s2 else None
  | SWhile e s => if scope_expr G e then scope_stmt G s else None
  | SFor init cond step body =>
      G ← scope_stmt G init;
      if scope_expr G cond then G ← scope_stmt G body; scope_stmt G step else None
  end.
End Scopes.

(** ** Code *)

Section Gen.
Context (names : list (list Z)) (fs : list VmFn).

Definition slot (x : list Z) : Z := Z.of_nat (default O (index_of x names)).
Definition target (f : list Z) : Z := Z.of_nat (default O (index_fn f fs)).
Definition jump (o : VmOp) (pc : nat) : VmIns := mkIns o (Z.of_nat pc).

Fixpoint gen (base : nat) (e : cexpr) : list VmIns :=
  match e with
  | XNum v => [mkIns OP_PUSH_CONST v]
  | XVar x => [mkIns OP_LOAD_LOCAL (slot x)]
  | XIndex x e => gen base e ++ [mkIns OP_LOAD_INDEX (slot x)]
  | XLen x => [mkIns OP_ARR_LEN (slot x)]
  | XUn o e => gen base e ++ [mkIns o 0]
  | XBin o e1 e2 =>
      let c1 := gen base e1 in
      c1 ++ gen (base + length c1) e2 ++ [mkIns o 0]
  | XAnd e1 e2 =>
      let c1 := gen base e1 in
      let c2 := gen (base + length c1 + 2) e2 in
      c1 ++ [jump OP_JUMP_IF_FALSE_KEEP (base + length c1 + 2 + length c2); mkIns OP_POP 0] ++ c2
  | XOr e1 e2 =>
      let c1 := gen base e1 in
      let c2 := gen (base + length c1 + 2) e2 in
      c1 ++ [jump OP_JUMP_IF_TRUE_KEEP (base + length c1 + 2 + length c2); mkIns OP_POP 0] ++ c2
  | XCall f es => gen_args base es ++ [mkIns OP_CALL (target f)]
  end
with gen_args (base : nat) (es : cargs) : list VmIns :=
  match es with
  | ANil => []
  | ACons e es => let c := gen base e in c ++ gen_args (base + length c) es
  end.

(** The elements of a literal, from the index [ei]. *)
Fixpoint gen_lit (base : nat) (li ei : Z) (es : cargs) : list VmIns :=
  match es with
  | ANil => []
  | ACons e es =>
      let c := [mkIns OP_PUSH_CONST ei] ++ gen (base + 1) e ++ [mkIns OP_STORE_INDEX li] in
      c ++ gen_lit (base + length c) li (ei + 1) es
  end.

Fixpoint gen_stmt (base : nat) (s : cstmt) : list VmIns :=
  match s with
  | SSkip => []
  | SSeq s1 s2 => let c1 := gen_stmt base s1 in c1 ++ gen_stmt (base + length c1) s2
  | SReturn e => gen base e ++ [mkIns OP_RET 0]
  | SAssign x e => gen base e ++ [mkIns OP_STORE_LOCAL (slot x)]
  | SStore x i e =>
      let c1 := gen base i in
      c1 ++ gen (base + length c1) e ++ [mkIns OP_STORE_INDEX (slot x)]
  | SDecl x _ lit | SLit x lit => gen_lit base (slot x) 0 lit
  | SIf e s1 s2 =>
      let c := gen base e in
      let c1 := gen_stmt (base + length c + 1) s1 in
      let else_ := (base + length c + 1 + length c1 + 1)%nat in
      let c2 := gen_stmt else_ s2 in
      c ++ [jump OP_JUMP_IF_FALSE else_] ++ c1 ++ [jump OP_JUMP (else_ + length c2)] ++ c2
  | SWhile e s =>
      let c := gen base e in
      let c1 := gen_stmt (base + length c + 1) s in
      c ++ [jump OP_JUMP_IF_FALSE (base + length c + 1 + length c1 + 1)] ++ c1 ++ [jump OP_JUMP base]
  | SFor init cond step body =>
      let ci := gen_stmt base init in
      let top := (base + length ci)%nat in
      let c := gen top cond in
      let cb := gen_stmt (top + length c + 1) body in
      let cs := gen_stmt (top + length c + 1 + length cb) step in
      ci ++ c ++ [jump OP_JUMP_IF_FALSE (top + length c + 1 + length cb + length cs + 1)] ++
      cb ++ cs ++ [jump OP_JUMP top]
  end.
End Gen.

(** ** Extending the scope *)

Lemma index_of_app x names k i : index_of x names = Some i -> index_of x (names ++ k) = Some i.
Proof.
  revert i. induction names as [|y names IH]; intros i; cbn [index_of app]; [done|].
  destruct (bytes_eqb y x); [done|]. destruct (index_of x names); [|done].
  intros [= <-]. by rewrite (IH _ eq_refl).
Qed.

Lemma index_of_new x names : index_of x names = None ->
  index_of x (names ++ [x]) = Some (length names).
Proof.
  induction names as [|y names IH]; cbn [index_of app length]; [by rewrite bytes_eqb_refl|].
  destruct (bytes_eqb y x); [done|]. destruct (index_of x names); [done|]. intros _. by rewrite IH.
Qed.

Lemma index_of_lookup x names i : index_of x names = Some i -> names !! i = Some x.
Proof.
  revert i. induction names as [|y names IH]; intros i; cbn [index_of]; [done|].
  destruct (bytes_eqb y x) eqn:E; [apply bytes_eqb_eq in E as ->; by intros [= <-]|].
  destruct (index_of x names); [|done]. intros [= <-]. by apply IH.
Qed.

Lemma index_of_None x names : index_of x names = None <-> x ∉ names.
Proof.
  induction names as [|y names IH]; cbn [index_of]; [split; [intros _; apply not_elem_of_nil|done]|].
  destruct (bytes_eqb y x) eqn:E.
  - apply bytes_eqb_eq in E as ->. split; [done|]. intros H. destruct H. left.
  - apply bytes_eqb_neq in E. rewrite fmap_None, IH. split.
    + intros Hn [?|?]%elem_of_cons; congruence.
    + intros Hn Hx. apply Hn. by right.
Qed.

Definition bound (x : list Z) (names : list (list Z)) : Prop := exists i, index_of x names = Some i.

Lemma slot_ext x names k : bound x names -> slot (names ++ k) x = slot names x.
Proof. intros [i Hi]. unfold slot. by rewrite Hi, (index_of_app _ _ k i Hi). Qed.

Lemma scalar_in_bound G x : scalar_in G x = true -> bound x (s_names G).
Proof. unfold scalar_in. destruct (index_of x (s_names G)) as [i|] eqn:E; [by exists i|done]. Qed.
Lemma array_in_bound G x : array_in G x = true -> bound x (s_names G).
Proof. unfold array_in. destruct (index_of x (s_names G)) as [i|] eqn:E; [by exists i|done]. Qed.

Lemma prefix_trans (l1 l2 l3 : list (list Z)) :
  l1 `prefix_of` l2 -> l2 `prefix_of` l3 -> l1 `prefix_of` l3.
Proof. intros H1 H2. by etrans. Qed.

Ltac prefixes := first [done|by eauto using prefix_trans].

Section Extend.
Context (fs : list VmFn).

Lemma gen_ext_all k :
  (forall e G base, scope_expr fs G e = true ->
     gen (s_names G ++ k) fs base e = gen (s_names G) fs base e) /\
  (forall es G base, scope_args fs G es = true ->
     gen_args (s_names G ++ k) fs base es = gen_args (s_names G) fs base es).
Proof.
  apply cexpr_cargs_ind; simpl.
  - done.
  - intros x G base Hx. by rewrite slot_ext by (by apply scalar_in_bound).
  - intros x e IH G base H. to_prop. rewrite slot_ext by (by apply array_in_bound). by rewrite IH.
  - intros x G base H. by rewrite slot_ext by (by apply array_in_bound).
  - intros o e IH G base H. by rewrite IH.
  - intros o e1 IH1 e2 IH2 G base H. to_prop. rewrite IH1 by done. by rewrite IH2.
  - intros e1 IH1 e2 IH2 G base H. to_prop. rewrite IH1 by done. by rewrite IH2.
  - intros e1 IH1 e2 IH2 G base H. to_prop. rewrite IH1 by done. by rewrite IH2.
  - intros f es IH G base H. destruct (index_fn f fs); [|done]. to_prop. by rewrite IH.
  - done.
  - intros e IH es IHs G base H. to_prop. rewrite IH by done. by rewrite IHs.
Qed.

Lemma gen_ext G names base e :
  scope_expr fs G e = true -> s_names G `prefix_of` names ->
  gen names fs base e = gen (s_names G) fs base e.
Proof. intros He [k ->]. by apply gen_ext_all. Qed.

Lemma gen_lit_ext G names base li ei es :
  scope_args fs G es = true -> s_names G `prefix_of` names ->
  gen_lit names fs base li ei es = gen_lit (s_names G) fs base li ei es.
Proof.
  intros He Hp. revert base ei He. induction es as [|e es IH]; intros base ei; cbn [scope_args gen_lit]; [done|].
  intros He. to_prop. rewrite (gen_ext G names) by done. by rewrite IH.
Qed.

Lemma slot_prefix x names names' : bound x names -> names `prefix_of` names' -> slot names' x = slot names x.
Proof. intros Hb [k ->]. by apply slot_ext. Qed.

Lemma declare_prefix x G i G' : declare x G = Some (i, G') ->
  s_names G `prefix_of` s_names G' /\ index_of x (s_names G') = Some i.
Proof.
  unfold declare. destruct (index_of x (s_names G)) as [j|] eqn:E; [by intros [= <- <-]|].
  case_match; [done|]. intros [= <- <-]. cbn [s_names]. split; [by exists [x]|by apply index_of_new].
Qed.

Lemma scope_stmt_prefix s : forall G G', scope_stmt fs G s = Some G' -> s_names G `prefix_of` s_names G'.
Proof.
  induction s as [|s1 IH1 s2 IH2|e|x e|x i e|x n lit|x lit|e s1 IH1 s2 IH2|e s IH|init IHi cond step IHs body IHb];
    cbn [scope_stmt]; intros G G' H.
  - by injection H as <-.
  - apply bind_Some in H as (G1 & H1 & H2). etrans; [by eapply IH1|by eapply IH2].
  - by case_match; simplify_eq.
  - case_match; [|done]. apply bind_Some in H as ([i G1] & H1 & H2). case_match; simplify_eq.
    by apply declare_prefix in H1 as [? _].
  - by case_match; simplify_eq.
  - apply bind_Some in H as ([i G1] & H1 & H2). case_match; simplify_eq. cbn [mark s_names].
    by apply declare_prefix in H1 as [? _].
  - by repeat case_match; simplify_eq.
  - case_match; [|done]. apply bind_Some in H as (G1 & H1 & H2). etrans; [by eapply IH1|by eapply IH2].
  - case_match; [|done]. by apply IH.
  - apply bind_Some in H as (G1 & H1 & H). case_match; [|done].
    apply bind_Some in H as (G2 & H2 & H3). etrans; [by eapply IHi|]. etrans; [by eapply IHb|by eapply IHs].
Qed.

(** The code of a statement only depends on the names its scope declares. *)
Lemma gen_stmt_ext s : forall G G' names base,
  scope_stmt fs G s = Some G' -> s_names G' `prefix_of` names ->
  gen_stmt names fs base s = gen_stmt (s_names G') fs base s.
Proof.
  induction s as [|s1 IH1 s2 IH2|e|x e|x i e|x n lit|x lit|e s1 IH1 s2 IH2|e s IH|init IHi cond step IHs body IHb];
    cbn [scope_stmt gen_stmt]; intros G G' names base H Hp.
  - done.
  - apply bind_Some in H as (G1 & H1 & H2). pose proof (scope_stmt_prefix _ _ _ H2) as P.
    rewrite (IH1 G G1 names), (IH1 G G1 (s_names G')), (IH2 G1 G' names); prefixes.
  - case_match; simplify_eq. by rewrite (gen_ext G').
  - case_match; [|done]. apply bind_Some in H as ([i G1] & H1 & H2). case_match; simplify_eq.
    apply declare_prefix in H1 as [P Hi].
    rewrite (gen_ext G names), (gen_ext G (s_names G')), (slot_prefix x (s_names G') names); try done; [by exists i|by etrans].
  - case_match; simplify_eq. to_prop. rewrite (gen_ext G' names base i), (gen_ext G' names _ e) by done.
    by rewrite (slot_prefix x (s_names G') names) by (try done; by apply array_in_bound).
  - apply bind_Some in H as ([i G1] & H1 & H2). case_match; simplify_eq. to_prop.
    apply declare_prefix in H1 as [P Hi]. cbn [mark s_names] in *.
    rewrite (gen_lit_ext (mark i n G1) names), (slot_prefix x (s_names G1) names); try done. by exists i.
  - case_match; [|done]. case_match; simplify_eq. to_prop.
    rewrite (gen_lit_ext G' names), (slot_prefix x (s_names G') names); try done. by eexists.
  - case_match; [|done]. apply bind_Some in H as (G1 & H1 & H2). pose proof (scope_stmt_prefix _ _ _ H1) as P1.
    pose proof (scope_stmt_prefix _ _ _ H2) as P2.
    rewrite (gen_ext G names), (gen_ext G (s_names G')), (IH1 G G1 names), (IH1 G G1 (s_names G')), (IH2 G1 G' names);
      prefixes.
  - case_match; [|done]. pose proof (scope_stmt_prefix _ _ _ H) as P.
    rewrite (gen_ext G names), (gen_ext G (s_names G')), (IH G G' names); prefixes.
  - apply bind_Some in H as (G1 & H1 & H). case_match; [|done]. apply bind_Some in H as (G2 & H2 & H3).
    pose proof (scope_stmt_prefix _ _ _ H1) as P1. pose proof (scope_stmt_prefix _ _ _ H2) as P2.
    pose proof (scope_stmt_prefix _ _ _ H3) as P3.
    assert (s_names G1 `prefix_of` s_names G') as P13 by (by etrans).
    rewrite (IHi G G1 names), (IHi G G1 (s_names G')), (gen_ext G1 names), (gen_ext G1 (s_names G')),
      (IHb G1 G2 names), (IHb G1 G2 (s_names G')), (IHs G2 G' names); prefixes.
Qed.
End Extend.

(** ** Sizes and the jumps of a chain

    The code of a tree has the same length under any names and at any address. *)

Fixpoint size (e : cexpr) : nat :=
  match e with
  | XNum _ | XVar _ | XLen _ => 1
  | XIndex _ e | XUn _ e => size e + 1
  | XBin _ e1 e2 => size e1 + (size e2 + 1)
  | XAnd e1 e2 | XOr e1 e2 => size e1 + (2 + size e2)
  | XCall _ es => size_args es + 1
  end%nat
with size_args (es : cargs) : nat :=
  match es with
  | ANil => O
  | ACons e es => (size e + size_args es)%nat
  end.

Fixpoint size_lit (es : cargs) : nat :=
  match es with
  | ANil => O
  | ACons e es => (1 + (size e + 1) + size_lit es)%nat
  end.

Fixpoint size_stmt (s : cstmt) : nat :=
  match s with
  | SSkip => O
  | SSeq s1 s2 => size_stmt s1 + size_stmt s2
  | SReturn e | SAssign _ e => size e + 1
  | SStore _ i e => size i + (size e + 1)
  | SDecl _ _ lit | SLit _ lit => size_lit lit
  | SIf e s1 s2 => size e + (1 + (size_stmt s1 + (1 + size_stmt s2)))
  | SWhile e s => size e + (1 + (size_stmt s + 1))
  | SFor init cond step body =>
      size_stmt init + (size cond + (1 + (size_stmt body + (size_stmt step + 1))))
  end%nat.

Lemma gen_sizes names fs :
  (forall e base, length (gen names fs base e) = size e) /\
  (forall es base, length (gen_args names fs base es) = size_args es).
Proof.
  apply cexpr_cargs_ind; simpl; intros; rewrite ?length_app; simpl; rewrite ?length_app; simpl;
    repeat match goal with H : forall b, length (_ b _) = _ |- _ => rewrite H end; done.
Qed.

Lemma gen_size names fs base e : length (gen names fs base e) = size e.
Proof. apply gen_sizes. Qed.

Lemma gen_lit_size names fs li es : forall base ei, length (gen_lit names fs base li ei es) = size_lit es.
Proof.
  induction es as [|e es IH]; intros base ei; cbn [gen_lit size_lit]; [done|].
  rewrite !length_app, gen_size, IH. simpl. lia.
Qed.

Lemma gen_stmt_size names fs s : forall base, length (gen_stmt names fs base s) = size_stmt s.
Proof.
  induction s; intros base; cbn [gen_stmt size_stmt]; rewrite ?length_app, ?gen_size, ?gen_lit_size;
    simpl; rewrite ?length_app, ?gen_size; simpl; congruence.
Qed.

(** The code of an if chain whose exits jump to [v]. *)
Fixpoint gen_chain (names : list (list Z)) (fs : list VmFn) (base : nat) (s : cstmt) (v : nat) : list VmIns :=
  match s with
  | SIf e s1 s2 =>
      let else_ := (base + size e + 1 + size_stmt s1 + 1)%nat in
      gen names fs base e ++ [jump OP_JUMP_IF_FALSE else_] ++
      gen_stmt names fs (base + size e + 1) s1 ++ [jump OP_JUMP v] ++ gen_chain names fs else_ s2 v
  | _ => gen_stmt names fs base s
  end.

(** Where those exits are. *)
Fixpoint chain_jumps (base : nat) (s : cstmt) : list nat :=
  match s with
  | SIf e s1 s2 =>
      let je := (base + size e + 1 + size_stmt s1)%nat in je :: chain_jumps (je + 1) s2
  | _ => []
  end.

Lemma gen_chain_stmt names fs s : forall base,
  gen_chain names fs base s (base + size_stmt s) = gen_stmt names fs base s.
Proof.
  induction s as [| | | | | | |e s1 IH1 s2 IH2| |]; intros base; try done.
  cbn [gen_chain gen_stmt size_stmt]. rewrite gen_size, !gen_stmt_size.
  rewrite <- IH2. cbn [app]. repeat (f_equal; try lia).
Qed.

Lemma gen_chain_size names fs s : forall base v,
  length (gen_chain names fs base s v) = size_stmt s.
Proof.
  induction s as [| | | | | | |e s1 IH1 s2 IH2| |]; intros base v; try apply gen_stmt_size.
  cbn [gen_chain size_stmt]. rewrite !length_app, gen_size, gen_stmt_size, IH2. reflexivity.
Qed.

Lemma gen_chain_ext fs s : forall G G' names base v,
  scope_stmt fs G s = Some G' -> s_names G' `prefix_of` names ->
  gen_chain names fs base s v = gen_chain (s_names G') fs base s v.
Proof.
  induction s as [| | | | | | |e s1 IH1 s2 IH2| |]; intros G G' names base v H Hp;
    try (by apply (gen_stmt_ext fs _ G G' names base)).
  cbn [gen_chain scope_stmt] in *. case_match; [|done]. apply bind_Some in H as (G1 & H1 & H2).
  pose proof (scope_stmt_prefix _ _ _ _ H1) as P1. pose proof (scope_stmt_prefix _ _ _ _ H2) as P2.
  rewrite (gen_ext fs G names), (gen_ext fs G (s_names G')), (gen_stmt_ext fs s1 G G1 names),
    (gen_stmt_ext fs s1 G G1 (s_names G')), (IH2 G1 G' names); prefixes.
Qed.
