(* ===== verification/C0Sound.v ===== *)
(** * The compiler against the C0 language: what it accepts and emits

    [wp m Q c]: the function [m] returns from the state [c], within the arrays
    and the fuel, in a state satisfying [Q].  Every function of [C0Comp] either
    rejects or consumes the tokens of a tree that is in scope and appends the
    code of that tree. *)
From stdpp Require Import strings.
From S2P Require Import Prelude Common Sys Vm C0Lex C0Comp C0Lang.

Definition wp {A} (m : CM A) (Q : A -> C0Comp -> Prop) (c : C0Comp) : Prop :=
  match m c with Some (x, c') => Q x c' | None => False end.

Lemma wp_mono {A} (m : CM A) (Q R : A -> C0Comp -> Prop) c :
  wp m Q c -> (forall x c', Q x c' -> R x c') -> wp m R c.
Proof. unfold wp. destruct (m c) as [[x c']|]; auto. Qed.

Lemma wp_bind {A B} (m : CM A) (k : A -> CM B) Q c :
  wp m (fun x c' => wp (k x) Q c') c -> wp (m ≫= k) Q c.
Proof. unfold wp, mbind, CM_bind. by destruct (m c) as [[x c']|]. Qed.

Lemma wp_ret {A} (x : A) (Q : A -> C0Comp -> Prop) c : Q x c -> wp (mret x) Q c.
Proof. done. Qed.

(** The call of a function whose specification is known. *)
Lemma wp_call {A B} (m : CM A) (k : A -> CM B) (R : A -> C0Comp -> Prop) Q c :
  wp m R c -> (forall x c', R x c' -> wp (k x) Q c') -> wp (m ≫= k) Q c.
Proof. intros Hm Hk. apply wp_bind. eapply wp_mono; [exact Hm|exact Hk]. Qed.

(** ** Tokens *)

Definition rest (c : C0Comp) : list C0Tok := drop (cc_pos c) (cc_toks c).
Definition next (c : C0Comp) : C0Comp := set_pos (cc_pos c + 1) c.

(** A token before the end; the text of an identifier has no NUL. *)
Definition good_tok (t : C0Tok) : Prop :=
  tk_kind t <> C0_TK_EOF /\ (tk_kind t = C0_TK_IDENT -> strz (tk_text t) = tk_text t).
Definition good_rest (ts : list C0Tok) : Prop := exists k, ts = k ++ [tok_eof] /\ Forall good_tok k.

Lemma good_rest_cons ts : good_rest ts ->
  exists tk r, ts = tk :: r /\ ((tk = tok_eof /\ r = []) \/ (good_tok tk /\ good_rest r)).
Proof.
  intros (k & -> & Hk). destruct k as [|t k]; [by exists tok_eof, []; split; [|left]|].
  apply Forall_cons_1 in Hk as [Ht Hk]. exists t, (k ++ [tok_eof]). split; [done|right].
  split; [done|]. by exists k.
Qed.

Lemma good_rest_app ts r : good_rest (ts ++ r) -> r <> [] -> good_rest r.
Proof.
  revert r. induction ts as [|t ts IH]; intros r H Hr; [done|].
  apply good_rest_cons in H as (tk & r' & [= -> <-] & [[-> H]|[_ H]]); [|by apply IH].
  apply app_eq_nil in H as [_ ->]. done.
Qed.

Lemma good_rest_nonempty ts : good_rest ts -> ts <> [].
Proof. intros (k & -> & _) H. apply app_eq_nil in H as [_ H]. done. Qed.

Lemma rest_next c tk r : rest c = tk :: r -> rest (next c) = r.
Proof.
  unfold rest, next. cbn [cc_pos cc_toks set_pos]. intros H.
  rewrite <- drop_drop. by rewrite H.
Qed.

Lemma rest_lookup c tk r : rest c = tk :: r -> cc_toks c !! cc_pos c = Some tk.
Proof. unfold rest. intros H. rewrite <- (Nat.add_0_r (cc_pos c)), <- lookup_drop. by rewrite H. Qed.

Lemma is_punct_eq s tk : is_punct s tk = true <-> tk = punct s.
Proof.
  unfold is_punct, is_kind, c0_tok_eq, punct. destruct tk as [k x]. cbn [tk_kind tk_text].
  rewrite andb_true_iff, bool_decide_eq_true, bytes_eqb_eq. split; [by intros [-> ->]|by intros [= -> ->]].
Qed.

Lemma is_word_eq s tk : is_word s tk = true <-> tk = word s.
Proof.
  unfold is_word, is_kind, c0_tok_eq, word, ident. destruct tk as [k x]. cbn [tk_kind tk_text].
  rewrite andb_true_iff, bool_decide_eq_true, bytes_eqb_eq. split; [by intros [-> ->]|by intros [= -> ->]].
Qed.

Lemma is_kind_eq k tk : is_kind k tk = true <-> tk_kind tk = k.
Proof. apply bool_decide_eq_true. Qed.

(** ** Moves *)

(** From [c] to [c'] the tokens [ts] are consumed and the code [cs] appended;
    nothing is rejected. *)
Record moves (c c' : C0Comp) (ts : list C0Tok) (cs : list VmIns) : Prop := {
  mv_toks : cc_toks c' = cc_toks c;
  mv_fns : cc_fns c' = cc_fns c;
  mv_div : allow_div c' = allow_div c;
  mv_shift : allow_shift c' = allow_shift c;
  mv_pos : cc_pos c' = (cc_pos c + length ts)%nat;
  mv_rest : rest c = ts ++ rest c';
  mv_code : cc_code c' = cc_code c ++ cs;
  mv_reject : cc_reject c' = None
}.

Definition scope_of (c : C0Comp) : scope := mkScope (cc_locals c) (cc_arr_n c).

Lemma moves_refl c : cc_reject c = None -> moves c c [] [].
Proof. intros H. constructor; try done. by rewrite app_nil_r. Qed.

Lemma moves_trans c1 c2 c3 ts1 ts2 cs1 cs2 :
  moves c1 c2 ts1 cs1 -> moves c2 c3 ts2 cs2 -> moves c1 c3 (ts1 ++ ts2) (cs1 ++ cs2).
Proof.
  intros [T1 F1 D1 S1 P1 R1 C1 J1] [T2 F2 D2 S2 P2 R2 C2 J2].
  constructor; try congruence.
  - rewrite P2, P1, length_app. lia.
  - by rewrite R1, R2, app_assoc.
  - by rewrite C2, C1, app_assoc.
Qed.

Lemma moves_next c tk r : rest c = tk :: r -> cc_reject c = None -> moves c (next c) [tk] [].
Proof.
  intros H Hr. constructor; try done; [|by rewrite app_nil_r].
  by rewrite (rest_next _ _ _ H).
Qed.

Lemma moves_eq c c' ts cs ts' cs' :
  moves c c' ts cs -> ts = ts' -> cs = cs' -> moves c c' ts' cs'.
Proof. by intros M <- <-. Qed.

(** Concatenations to the right. *)
Ltac lists := rewrite <- ?app_assoc, ?app_nil_r; cbn [app]; rewrite <- ?app_assoc, ?app_nil_r; cbn [app].

(** A rejected state, whose tokens can still be read. *)
Definition failed (c : C0Comp) : Prop := good_rest (rest c) /\ cc_reject c <> None.

Section Sound.
Context `{Env} (div shift : bool) (fs : list VmFn).

(** The states in which the functions are called. *)
Record wf (c : C0Comp) : Prop := {
  wf_rest : good_rest (rest c);
  wf_fns : cc_fns c = fs;
  wf_div : allow_div c = div;
  wf_shift : allow_shift c = shift;
  wf_reject : cc_reject c = None;
  wf_scope : scope_wf (scope_of c)
}.

Lemma moves_wf c c' ts cs : wf c -> moves c c' ts cs -> rest c' <> [] -> scope_wf (scope_of c') -> wf c'.
Proof.
  intros [R F D S J G] M Hr HG. destruct M as [T1 F1 D1 S1 P1 R1 C1 J1].
  constructor; try congruence. rewrite R1 in R. by eapply good_rest_app.
Qed.

Lemma wf_nonempty c : wf c -> rest c <> [].
Proof. intros Hc. apply good_rest_nonempty, Hc. Qed.

(** The cases of the current token of a state. *)
Lemma wf_token c : wf c ->
  exists tk r, rest c = tk :: r /\ ((tk = tok_eof /\ r = []) \/ (good_tok tk /\ wf (next c))).
Proof.
  intros Hc. destruct (good_rest_cons _ (wf_rest _ Hc)) as (tk & r & E & Hk).
  exists tk, r. split; [done|]. destruct Hk as [Hk|[Hk Hg]]; [by left|right]. split; [done|].
  destruct Hc. constructor; try done. by rewrite (rest_next _ _ _ E).
Qed.

Lemma wp_peek {B} (k : C0Tok -> CM B) Q c tk r :
  rest c = tk :: r -> wp (k tk) Q c -> wp (c0_peek ≫= k) Q c.
Proof.
  intros E Hk. apply wp_bind. unfold wp at 1, c0_peek. by rewrite (rest_lookup _ _ _ E).
Qed.

Lemma wp_bump {B} (k : C0Tok -> CM B) Q c tk r :
  rest c = tk :: r -> tk_kind tk <> C0_TK_EOF -> wp (k tk) Q (next c) -> wp (c0_bump ≫= k) Q c.
Proof.
  intros E Hk Hn. apply wp_bind. eapply wp_peek; [exact E|].
  destruct (is_kind C0_TK_EOF tk) eqn:Ek; [by apply is_kind_eq in Ek|]. exact Hn.
Qed.

Lemma wp_at_punct {B} s (k : bool -> CM B) Q c tk r :
  rest c = tk :: r -> wp (k (is_punct s tk)) Q c -> wp (c0_at_punct s ≫= k) Q c.
Proof. intros E Hk. apply wp_bind. unfold c0_at_punct. eapply wp_peek; [exact E|]. exact Hk. Qed.

Lemma wp_at_ident {B} s (k : bool -> CM B) Q c tk r :
  rest c = tk :: r -> wp (k (is_word s tk)) Q c -> wp (c0_at_ident s ≫= k) Q c.
Proof. intros E Hk. apply wp_bind. unfold c0_at_ident. eapply wp_peek; [exact E|]. exact Hk. Qed.

Lemma wp_accept {B} s (k : bool -> CM B) Q c tk r :
  rest c = tk :: r ->
  (tk = punct s -> wp (k true) Q (next c)) -> (is_punct s tk = false -> wp (k false) Q c) ->
  wp (c0_accept_punct s ≫= k) Q c.
Proof.
  intros E Ht Hf. apply wp_bind. unfold c0_accept_punct. eapply wp_at_punct; [exact E|].
  destruct (is_punct s tk) eqn:Ep; [|by apply Hf].
  apply is_punct_eq in Ep. eapply wp_bump; [exact E|by rewrite Ep|]. by apply Ht.
Qed.

Lemma fail_failed c r : good_rest (rest c) ->
  wp (c0_fail_with r) (fun _ c' => failed c' /\ rest c' = rest c) c.
Proof.
  intros Hr. unfold wp, c0_fail_with, upd, failed. destruct (cc_reject c) eqn:E; cbn [is_some].
  - by rewrite E.
  - done.
Qed.

Lemma wp_fail code Q c : good_rest (rest c) -> (forall c', failed c' -> Q tt c') -> wp (c0_fail code) Q c.
Proof. intros Hr HQ. eapply wp_mono; [by apply fail_failed|]. intros [] c' [Hc _]. by apply HQ. Qed.

Lemma wp_expect s code k Q c tk r :
  wf c -> rest c = tk :: r -> (tk = punct s -> wp k Q (next c)) -> (forall c', failed c' -> Q tt c') ->
  wp (expect s code k) Q c.
Proof.
  intros Hc E Hk HQ. unfold expect. eapply wp_accept; [exact E|done|].
  intros _. apply wp_fail; [apply Hc|done].
Qed.

Lemma wp_unless k Q c : cc_reject c = None -> wp k Q c -> wp (unless_rejected k) Q c.
Proof. intros E Hk. apply wp_bind. unfold wp at 1, rejected, gets. by rewrite E. Qed.

Lemma wp_unless_failed k (Q : unit -> C0Comp -> Prop) c :
  failed c -> Q tt c -> wp (unless_rejected k) Q c.
Proof.
  intros [_ E] HQ. apply wp_bind. unfold wp at 1, rejected, gets. by destruct (cc_reject c).
Qed.

(** After a call that rejected or moved. *)
Lemma wp_unless_or k (Q : unit -> C0Comp -> Prop) (P : Prop) c :
  failed c \/ P -> (forall c', failed c' -> Q tt c') -> (P -> cc_reject c = None /\ wp k Q c) ->
  wp (unless_rejected k) Q c.
Proof.
  intros [Hf|HP] HQ Hk; [apply wp_unless_failed; auto|]. destruct (Hk HP). by apply wp_unless.
Qed.

(** ** Emission *)

Lemma emit_spec o x c :
  cc_reject c = None -> good_rest (rest c) ->
  wp (c0_emit o x) (fun j c' => failed c' \/
    (j = length (cc_code c) /\ moves c c' [] [mkIns o x] /\ scope_of c' = scope_of c)) c.
Proof.
  intros Hr Hn. unfold c0_emit. apply wp_bind. unfold wp at 1, gets, id.
  destruct (Nat.eqb_spec (length (cc_code c)) (code_cap c)) as [E|E].
  - apply wp_bind. unfold wp at 1, c0_realloc, c0_malloc.
    destruct (alloc_ok (m_clock (cc_mem c))).
    + cbn. right. split; [done|]. split; [|done]. by constructor.
    + cbn [negb]. apply wp_bind. eapply wp_mono; [by apply fail_failed|]. intros [] c' [Hc _]. by left.
  - cbn. right. split; [done|]. split; [|done]. by constructor.
Qed.

Lemma wp_emit {B} o x (k : nat -> CM B) Q c :
  wf c ->
  (forall c', moves c c' [] [mkIns o x] -> scope_of c' = scope_of c -> wf c' ->
     wp (k (length (cc_code c))) Q c') ->
  (forall j c', failed c' -> wp (k j) Q c') -> wp (c0_emit o x ≫= k) Q c.
Proof.
  intros Hc Hk Hf. pose proof (wf_nonempty _ Hc). pose proof (wf_rest _ Hc). apply wp_bind.
  eapply wp_mono; [apply emit_spec; [by apply Hc|done]|].
  intros j c' [Hc'|(-> & Hm & Hs)]; [by apply Hf|]. apply Hk; [done|done|].
  eapply moves_wf; [exact Hc|exact Hm| |rewrite Hs; by apply Hc].
  pose proof (mv_rest _ _ _ _ Hm) as E. cbn [app] in E. congruence.
Qed.

(** ** Expressions *)

Definition derived (l : nat) (c c' : C0Comp) (ts : list C0Tok) (e : cexpr) : Prop :=
  ts <> [] /\ dexpr div shift l ts e /\ scope_expr fs (scope_of c) e = true /\
  moves c c' ts (gen (cc_locals c) fs (length (cc_code c)) e) /\
  scope_of c' = scope_of c /\ wf c'.

Definition expr_post (l : nat) (c c' : C0Comp) : Prop :=
  failed c' \/ exists ts e, derived l c c' ts e.

(** [m] compiles the expressions of level [l], given at most [n] tokens. *)
Definition parses (l n : nat) (m : CM unit) : Prop :=
  forall c, wf c -> (length (rest c) <= n)%nat -> wp m (fun _ => expr_post l c) c.

Lemma moves_code_len c c' ts cs : moves c c' ts cs ->
  length (cc_code c') = (length (cc_code c) + length cs)%nat.
Proof. intros M. by rewrite (mv_code _ _ _ _ M), length_app. Qed.

Lemma moves_rest_len c c' ts cs : moves c c' ts cs ->
  length (rest c) = (length ts + length (rest c'))%nat.
Proof. intros M. by rewrite (mv_rest _ _ _ _ M), length_app. Qed.

Lemma rest_len_pos c : wf c -> (1 <= length (rest c))%nat.
Proof. intros Hc%wf_nonempty. destruct (rest c); [done|simpl; lia]. Qed.

Lemma scope_names c c' : scope_of c' = scope_of c -> cc_locals c' = cc_locals c.
Proof. by intros [= -> _]. Qed.

Lemma ts_nonempty (ts : list C0Tok) : ts <> [] -> (1 <= length ts)%nat.
Proof. destruct ts; [done|simpl; lia]. Qed.

(** Consuming one token of a parsed state. *)
Lemma moves_tok c c' ts cs tk r :
  moves c c' ts cs -> rest c' = tk :: r -> moves c (next c') (ts ++ [tk]) cs.
Proof.
  intros M E. rewrite <- (app_nil_r cs). eapply moves_trans; [exact M|].
  eapply moves_next; [exact E|apply M].
Qed.

(** Where a state is known to be well formed, so is the one after a token. *)
Lemma wf_next c tk r : wf c -> rest c = tk :: r -> tk <> tok_eof -> wf (next c) /\ good_tok tk.
Proof.
  intros Hc E Hk. destruct (wf_token c Hc) as (tk' & r' & E' & Hd).
  rewrite E in E'. injection E' as <- <-. destruct Hd as [[? _]|[? ?]]; [done|by split].
Qed.

Lemma failed_next c tk r : failed c -> rest c = tk :: r -> tk_kind tk <> C0_TK_EOF -> failed (next c).
Proof.
  intros [G J] E Hk. split; [|done]. rewrite (rest_next _ _ _ E).
  apply good_rest_cons in G as (tk' & r' & E' & Hd). rewrite E in E'. injection E' as <- <-.
  by destruct Hd as [[-> _]|[_ ?]].
Qed.

Section Binary.
Context (l n : nat) (ops : C0Comp -> C0Tok -> choice) (sub : CM unit).
Context (Hl : (l < 9)%nat) (Hsub : parses (S l) n sub).
Context (Hops : forall c tk o, wf c -> ops c tk = Operator o ->
  exists s, tk = punct s /\ (s, XBin o) ∈ op_table div shift l).

Lemma binop_loop_failed k c : (0 < k)%nat -> failed c ->
  wp (binop_loop k ops sub) (fun _ c' => failed c') c.
Proof. intros Hk Hc. destruct k; [lia|]. by apply wp_unless_failed. Qed.

Lemma binop_loop_sound k : forall c0 c ts e,
  derived l c0 c ts e -> (length (rest c) <= n)%nat -> (length (rest c) <= k)%nat ->
  wp (binop_loop k ops sub) (fun _ => expr_post l c0) c.
Proof.
  induction k as [|k IH]; intros c0 c ts e Hd Hn Hk.
  { destruct Hd as (_ & _ & _ & _ & _ & Hc). pose proof (rest_len_pos _ Hc). lia. }
  pose proof Hd as (Hts & De & Se & M & Es & Hc). cbn [binop_loop].
  apply wp_unless; [apply Hc|]. apply wp_bind. unfold wp at 1, gets, id.
  destruct (wf_token c Hc) as (tk & r & E & Htk). eapply wp_peek; [exact E|].
  destruct (ops c tk) as [|code|o] eqn:Eo.
  - apply wp_ret. right. by exists ts, e.
  - apply wp_fail; [apply Hc|]. by left.
  - destruct (Hops _ _ _ Hc Eo) as (s & -> & Hin).
    destruct (wf_next _ _ _ Hc E) as [Hc1 _]; [done|].
    eapply wp_bump; [exact E|done|].
    pose proof (rest_next _ _ _ E) as E1. assert (length (rest c) = S (length (rest (next c)))) as Hlen.
    { by rewrite E, E1. }
    eapply wp_call; [apply Hsub; [done|lia]|]. intros [] c2 Hp.
    eapply wp_unless_or; [exact Hp|by left|].
    intros (ts2 & e2 & Hts2 & D2 & S2 & M2 & Es2 & Hc2). split; [apply Hc2|].
    pose proof (moves_tok _ _ _ _ _ _ M E) as M'.
    pose proof (moves_trans _ _ _ _ _ _ _ M' M2) as M2'.
    apply wp_bind. unfold emit_. apply wp_emit; [done| |].
    + intros c3 M3 Es3 Hc3. apply wp_ret.
      pose proof (moves_trans _ _ _ _ _ _ _ M2' M3) as M3'.
      apply (IH c0 c3 (ts ++ punct s :: ts2) (XBin o e e2)).
      * split; [by destruct ts|]. split; [by apply D_bin|].
        split; [cbn [scope_expr]; rewrite Se; cbn [andb]; by rewrite <- Es|].
        split; [|split; [|done]; rewrite Es3, Es2; exact Es].
        eapply moves_eq; [exact M3'|by lists|].
        cbn [gen]. lists. rewrite <- (moves_code_len _ _ _ _ M), <- (scope_names c0 c Es). done.
      * pose proof (moves_rest_len _ _ _ _ M2). pose proof (moves_rest_len _ _ _ _ M3). cbn [length] in *. lia.
      * pose proof (moves_rest_len _ _ _ _ M2). pose proof (moves_rest_len _ _ _ _ M3). cbn [length] in *. lia.
    + intros j c3 Hc3. apply wp_ret. eapply wp_mono; [apply binop_loop_failed; [|done]|by left].
      pose proof (rest_len_pos _ Hc). pose proof (rest_len_pos _ Hc1). lia.
Qed.

(** A whole level: the first operand, then the loop. *)
Lemma level_sound : parses l n (_ ← sub; binop_loop n ops sub).
Proof.
  intros c Hc Hn. pose proof (rest_len_pos _ Hc). eapply wp_call; [by apply Hsub|].
  intros [] c1 [Hf|(ts & e & Hts & De & Se & M & Es & Hc1)].
  - eapply wp_mono; [apply binop_loop_failed; [lia|done]|by left].
  - pose proof (moves_rest_len _ _ _ _ M). apply (binop_loop_sound n c c1 ts e); [|lia..].
    split; [done|]. split; [by apply D_up|]. done.
Qed.
End Binary.

(** Patching an instruction emitted since [c0]. *)
Lemma wp_patch {B} (k : unit -> CM B) Q c c0 ts a i b :
  moves c0 c ts (a ++ i :: b) ->
  (forall c', moves c0 c' ts (a ++ mkIns (op i) (Z.of_nat (length (cc_code c))) :: b) ->
     scope_of c' = scope_of c -> rest c' = rest c -> (wf c -> wf c') -> wp (k tt) Q c') ->
  wp (c0_patch (length (cc_code c0) + length a) ≫= k) Q c.
Proof.
  intros M Hk. apply wp_bind. unfold wp at 1, c0_patch.
  pose proof (mv_code _ _ _ _ M) as Hcode.
  assert (cc_code c !! (length (cc_code c0) + length a)%nat = Some i) as Hi.
  { by rewrite Hcode, lookup_app_r, Nat.add_comm, Nat.add_sub, list_lookup_middle by lia. }
  rewrite Hi. apply Hk; [|done|done|by intros []].
  destruct M as [T1 F1 D1 S1 P1 R1 C1 J1]. constructor; try done.
  cbn [set_code cc_code]. generalize (mkIns (op i) (Z.of_nat (length (cc_code c)))) as x. intros x.
  rewrite C1, insert_app_r. f_equal.
  replace (length a) with (length a + 0)%nat at 1 by lia. by rewrite insert_app_r.
Qed.

(** A call whose failure ends the caller. *)
Lemma failed_unless k c (Q : unit -> C0Comp -> Prop) :
  failed c -> (forall c', failed c' -> Q tt c') -> wp (unless_rejected k) Q c.
Proof. intros Hc HQ. apply wp_unless_failed; auto. Qed.

Lemma emit_unless o x (k : nat -> CM unit) Q c :
  wf c ->
  (forall c', moves c c' [] [mkIns o x] -> scope_of c' = scope_of c -> wf c' ->
     wp (k (length (cc_code c))) Q c') ->
  (forall c', failed c' -> Q tt c') ->
  wp (j ← c0_emit o x; unless_rejected (k j)) Q c.
Proof.
  intros Hc Hk HQ. apply wp_emit; [done| |intros j c' Hf; by apply failed_unless].
  intros c' M Es Hc'. apply wp_unless; [apply Hc'|]. by apply Hk.
Qed.

Section Logic.
Context (l n : nat) (s : string) (o : VmOp) (mk : cexpr -> cexpr -> cexpr) (sub : CM unit).
Context (Hl : (l < 9)%nat) (Hsub : parses (S l) n sub).
Context (Hin : (s, mk) ∈ op_table div shift l).
Context (Hscope : forall G e1 e2,
  scope_expr fs G (mk e1 e2) = scope_expr fs G e1 && scope_expr fs G e2).
Context (Hgen : forall names base e1 e2, gen names fs base (mk e1 e2) =
  let c1 := gen names fs base e1 in
  let c2 := gen names fs (base + length c1 + 2) e2 in
  c1 ++ [jump o (base + length c1 + 2 + length c2); mkIns OP_POP 0] ++ c2).

Lemma logic_loop_sound k : forall c0 c ts e,
  derived l c0 c ts e -> (length (rest c) <= n)%nat -> (length (rest c) <= k)%nat ->
  wp (logic_loop k s o sub) (fun _ => expr_post l c0) c.
Proof.
  induction k as [|k IH]; intros c0 c ts e Hd Hn Hk.
  { destruct Hd as (_ & _ & _ & _ & _ & Hc). pose proof (rest_len_pos _ Hc). lia. }
  pose proof Hd as (Hts & De & Se & M & Es & Hc). cbn [logic_loop].
  apply wp_unless; [apply Hc|].
  destruct (wf_token c Hc) as (tk & r & E & Htk). eapply wp_at_punct; [exact E|].
  destruct (is_punct s tk) eqn:Ep; [|apply wp_ret; right; by exists ts, e].
  apply is_punct_eq in Ep as ->.
  destruct (wf_next _ _ _ Hc E) as [Hc1 _]; [done|]. eapply wp_bump; [exact E|done|].
  pose proof (rest_next _ _ _ E) as E1. assert (length (rest c) = S (length (rest (next c)))) as Hlen.
  { by rewrite E, E1. }
  pose proof (moves_tok _ _ _ _ _ _ M E) as M1.
  apply emit_unless; [done| |by left]. intros c2 M2 Es2 Hc2.
  pose proof (moves_trans _ _ _ _ _ _ _ M1 M2) as M12.
  unfold emit_. apply wp_bind, wp_emit; [done| |intros j c' Hf; apply wp_ret, failed_unless; [done|by left]].
  intros c3 M3 Es3 Hc3. apply wp_ret, wp_unless; [apply Hc3|].
  pose proof (moves_trans _ _ _ _ _ _ _ M12 M3) as M13.
  pose proof (moves_rest_len _ _ _ _ M2) as L2. pose proof (moves_rest_len _ _ _ _ M3) as L3. cbn [length] in L2, L3.
  eapply wp_call; [apply Hsub; [done|lia]|]. intros [] c4 Hp.
  eapply wp_unless_or; [exact Hp|by left|].
  intros (ts2 & e2 & Hts2 & D2 & S2 & M4 & Es4 & Hc4). split; [apply Hc4|].
  pose proof (moves_trans _ _ _ _ _ _ _ M13 M4) as M14. pose proof (moves_rest_len _ _ _ _ M4).
  assert (scope_of c3 = scope_of c0) as Es30 by (rewrite Es3, Es2; exact Es).
  pose proof (moves_code_len _ _ _ _ M) as Lc. pose proof (moves_code_len _ _ _ _ M13) as Lc3.
  change (length (cc_code (next c))) with (length (cc_code c)). rewrite Lc.
  eapply wp_patch.
  { eapply moves_eq; [exact M14|reflexivity|]. lists. reflexivity. }
  intros c5 M5 Es5 R5 W5. apply IH with (ts := ts ++ punct s :: ts2) (e := mk e e2); rewrite ?R5; [|lia..].
  split; [by destruct ts|]. split; [by apply D_bin|].
  split; [rewrite Hscope, Se; cbn [andb]; by rewrite <- Es30|].
  split; [|split; [rewrite Es5, Es4; exact Es30|by apply W5]].
  eapply moves_eq; [exact M5|by lists|]. rewrite Hgen.
    rewrite (moves_code_len _ _ _ _ M14). revert Lc3. rewrite !length_app. cbn [length]. intros Lc3.
    rewrite (scope_names c0 c3 Es30), Lc3. unfold jump. cbn [op app].
  set (L := length (gen _ _ _ e)).
  replace (length (cc_code c0) + (L + 1 + 1))%nat with (length (cc_code c0) + L + 2)%nat by lia.
  f_equal. f_equal. f_equal. lia.
Qed.

Lemma logic_level_sound : parses l n (_ ← sub; logic_loop n s o sub).
Proof.
  intros c Hc Hn. pose proof (rest_len_pos _ Hc). eapply wp_call; [by apply Hsub|].
  intros [] c1 [Hf|(ts & e & Hts & De & Se & M & Es & Hc1)].
  - destruct n; [lia|]. by apply failed_unless; [|left].
  - pose proof (moves_rest_len _ _ _ _ M). apply (logic_loop_sound n c c1 ts e); [|lia..].
    split; [done|]. split; [by apply D_up|]. done.
Qed.
End Logic.

(** The arguments of a call, or the elements of a literal: one or more. *)
Definition args_post (c c' : C0Comp) (ts : list C0Tok) (es : cargs) (cs : list VmIns) : Prop :=
  es <> ANil /\ dargs div shift ts es /\ scope_args fs (scope_of c) es = true /\
  moves c c' ts cs /\ scope_of c' = scope_of c /\ wf c'.

Section Primary.
Context (n : nat) (expr : CM unit).
Context (Hexpr : forall c, wf c -> (length (rest c) < n)%nat -> wp expr (fun _ => expr_post 0 c) c).

Lemma args_loop_sound k : forall c i, wf c -> (length (rest c) < n)%nat -> (length (rest c) <= k)%nat ->
  wp (args_loop expr k i) (fun argc c' => failed c' \/ exists ts es,
    args_post c c' ts es (gen_args (cc_locals c) fs (length (cc_code c)) es) /\
    argc = (i + args_len es)%nat) c.
Proof.
  induction k as [|k IH]; intros c i Hc Hn Hk; [pose proof (rest_len_pos _ Hc); lia|].
  cbn [args_loop]. apply wp_bind. unfold wp at 1, rejected, gets. rewrite (wf_reject _ Hc). cbn [is_some].
  eapply wp_call; [by apply Hexpr|]. intros [] c1 Hp.
  apply wp_bind. unfold wp at 1, rejected, gets.
  destruct Hp as [Hf|(ts & e & Hts & De & Se & M & Es & Hc1)].
  { destruct (cc_reject c1) eqn:Er; [|by destruct Hf]. by apply wp_ret; left. }
  rewrite (wf_reject _ Hc1). cbn [is_some].
  destruct (wf_token c1 Hc1) as (tk & r & E & Htk). pose proof (moves_rest_len _ _ _ _ M).
  eapply wp_accept; [exact E| |].
  - intros ->. destruct (wf_next _ _ _ Hc1 E) as [Hc2 _]; [done|].
    pose proof (rest_next _ _ _ E) as E1. assert (length (rest c1) = S (length (rest (next c1)))) as Hlen.
    { by rewrite E, E1. }
    eapply wp_mono; [apply IH; [done|lia..]|].
    intros argc c' [Hf|(ts2 & es & (Hes & D2 & S2 & M2 & Es2 & Hc') & ->)]; [by left|right].
    destruct es as [|e2 es]; [done|].
    exists (ts ++ punct "," :: ts2), (ACons e (ACons e2 es)). split; [|cbn [args_len]; lia].
    split; [done|]. split; [by constructor|].
    split; [cbn [scope_args]; rewrite Se; rewrite <- Es; exact S2|].
    split; [|split; [rewrite Es2; exact Es|done]].
    pose proof (moves_trans _ _ _ _ _ _ _ (moves_tok _ _ _ _ _ _ M E) M2) as M'.
    eapply moves_eq; [exact M'|by lists|].
    change (length (cc_code (next c1))) with (length (cc_code c1)).
    rewrite (moves_code_len _ _ _ _ M). change (cc_locals (next c1)) with (cc_locals c1).
    by rewrite (scope_names c c1 Es).
  - intros _. apply wp_ret. right. exists ts, (ACons e ANil). split; [|cbn [args_len]; lia].
    split; [done|]. split; [by constructor|].
    split; [cbn [scope_args]; by rewrite Se|]. split; [|done].
    eapply moves_eq; [exact M|done|]. cbn [gen_args]. by rewrite app_nil_r.
Qed.

(** A token consumed by a primary. *)
Lemma derived_intro c c' ts e cs :
  ts <> [] -> dexpr div shift 9 ts e -> scope_expr fs (scope_of c) e = true ->
  moves c c' ts cs -> cs = gen (cc_locals c) fs (length (cc_code c)) e ->
  scope_of c' = scope_of c -> wf c' -> expr_post 9 c c'.
Proof. intros ? ? ? ? -> ? ?. right. by exists ts, e. Qed.

(** The last instruction of a primary. *)
Lemma wp_emit_last o x c c1 ts e cs :
  wf c1 -> ts <> [] -> dexpr div shift 9 ts e -> scope_expr fs (scope_of c) e = true ->
  moves c c1 ts cs -> scope_of c1 = scope_of c ->
  cs ++ [mkIns o x] = gen (cc_locals c) fs (length (cc_code c)) e ->
  wp (emit_ o x) (fun _ => expr_post 9 c) c1.
Proof.
  intros Hc1 Hts De Se M Es Hcs. unfold emit_. apply wp_emit; [done| |intros j c' Hf; by apply wp_ret; left].
  intros c2 M2 Es2 Hc2. apply wp_ret. pose proof (moves_trans _ _ _ _ _ _ _ M M2) as M'.
  rewrite app_nil_r in M'. eapply derived_intro; try done. by rewrite Es2.
Qed.

Lemma intrinsic_Some tk o : tk_kind tk = C0_TK_IDENT -> intrinsic tk = Some o ->
  exists s, tk = word s /\ (s, o) ∈ intrinsic_table.
Proof.
  destruct tk as [kd x]. cbn [tk_kind]. intros ->. unfold intrinsic, c0_tok_eq, intrinsic_table, word, ident.
  cbn [tk_text]. repeat (case_match; [intros [= <-]; eexists; split; [f_equal; by apply bytes_eqb_eq|member]|]).
  done.
Qed.

Lemma intrinsic_None tk : intrinsic tk = None ->
  forall s o, (s, o) ∈ intrinsic_table -> tk_text tk <> cstr s.
Proof.
  unfold intrinsic, c0_tok_eq. repeat (case_match; [done|]). intros _ s o Hin.
  repeat match goal with H : bytes_eqb _ _ = false |- _ => apply bytes_eqb_neq in H end.
  apply list_elem_of_In in Hin. simpl in Hin. by destruct_or! Hin; simplify_eq.
Qed.

(** The start of a primary that is an identifier [x]. *)
Context (c : C0Comp) (x : list Z) (r : list C0Tok).
Context (Hc : wf c) (Hn : (length (rest c) <= n)%nat) (E : rest c = ident x :: r).

Lemma ident_next : wf (next c) /\ moves c (next c) [ident x] [] /\ (length (rest (next c)) < n)%nat.
Proof.
  destruct (wf_next _ _ _ Hc E) as [Hc1 _]; [done|]. split; [done|].
  split; [eapply moves_next; [exact E|apply Hc]|]. rewrite (rest_next _ _ _ E). rewrite E in Hn. simpl in Hn. lia.
Qed.

(** The closing parenthesis and the instruction of a call. *)
Lemma call_tail c2 ts es : plain x -> wf c2 -> dargs div shift ts es ->
  scope_args fs (scope_of c) es = true -> scope_of c2 = scope_of c ->
  moves c c2 (ident x :: punct "(" :: ts) (gen_args (cc_locals c) fs (length (cc_code c)) es) ->
  wp (expect ")" "VM_REJ_PARSE" (
        match intrinsic (ident x) with
        | Some o => if negb (args_len es =? 2)%nat then c0_fail "VM_REJ_ARITY" else emit_ o 0
        | None =>
            fi ← c0_find_fn (tk_text (ident x));
            match fi with
            | None => c0_fail "VM_REJ_UNKNOWN_CALL"
            | Some fi =>
                fs ← gets cc_fns;
                if negb (default O (nparams <$> fs !! fi) =? args_len es)%nat then c0_fail "VM_REJ_ARITY"
                else emit_ OP_CALL (Z.of_nat fi)
            end
        end)) (fun _ => expr_post 9 c) c2.
Proof.
  intros Hp Hc2 D Sa Es M. destruct (wf_token c2 Hc2) as (tk & r2 & E2 & Htk).
  eapply wp_expect; [eassumption|exact E2| |by left]. intros ->.
  destruct (wf_next _ _ _ Hc2 E2) as [Hc3 _]; [done|]. pose proof (wf_rest _ Hc3) as Hne.
  pose proof (moves_tok _ _ _ _ _ _ M E2) as M3.
  assert (forall code, wp (c0_fail code) (fun _ => expr_post 9 c) (next c2)) as Hfail.
  { intros code. apply wp_fail; [done|by left]. }
  destruct (intrinsic (ident x)) as [o|] eqn:Ei.
  - apply intrinsic_Some in Ei as (s & Ex & Hin); [|done]. injection Ex as ->.
    destruct (Nat.eqb_spec (args_len es) 2) as [E'|]; cbn [negb]; [|apply Hfail].
    destruct es as [|e1 [|e2 [|]]]; try discriminate E'.
    cbn [scope_args] in Sa. rewrite andb_true_r in Sa.
    eapply wp_emit_last; [done| |by eapply D_intrinsic|exact Sa|eapply moves_eq; [exact M3|reflexivity|reflexivity]|done|].
    + done.
    + cbn [gen_args gen]. by lists.
  - apply wp_bind. unfold wp at 1, c0_find_fn, gets. rewrite (wf_fns _ Hc3). cbn [tk_text ident].
    destruct (index_fn x fs) as [fi|] eqn:Ef; [|apply Hfail].
    apply wp_bind. unfold wp at 1, gets. rewrite (wf_fns _ Hc3).
    destruct (Nat.eqb_spec (default O (nparams <$> fs !! fi)) (args_len es)) as [E'|]; cbn [negb]; [|apply Hfail].
    eapply wp_emit_last; [done| |apply D_call; [exact Hp|by apply (intrinsic_None (ident x))|exact D]| |
      eapply moves_eq; [exact M3|reflexivity|reflexivity]|done|].
    + done.
    + cbn [scope_expr]. by rewrite Ef, E', Nat.eqb_refl, Sa.
    + cbn [gen]. unfold target. by rewrite Ef.
Qed.

Lemma call_sound r1 : plain x -> rest (next c) = punct "(" :: r1 ->
  wp (c0_call n expr (ident x)) (fun _ => expr_post 9 c) (next c).
Proof.
  intros Hp E1. destruct ident_next as (Hc1 & M1 & L1). unfold c0_call.
  destruct (wf_next _ _ _ Hc1 E1) as [Hc2 _]; [done|]. eapply wp_bump; [exact E1|done|].
  pose proof (moves_tok _ _ _ _ _ _ M1 E1) as M2. cbn [app] in M2.
  destruct (wf_token _ Hc2) as (tk & r2 & E2 & Htk). eapply wp_at_punct; [exact E2|].
  destruct (is_punct ")" tk) eqn:Ep.
  - apply wp_bind, wp_ret. eapply (call_tail (next (next c)) [] ANil); try done; constructor.
  - apply wp_bind. assert (length (rest (next c)) = S (length (rest (next (next c))))) as L2.
    { by rewrite E1, (rest_next _ _ _ E1). }
    eapply wp_call; [apply args_loop_sound; [done|lia..]|].
    intros argc c3 Hp3. apply wp_bind. unfold wp at 1, rejected, gets. apply wp_ret.
    destruct Hp3 as [Hf|(ts & es & (Hes & D & Sa & M3 & Es & Hc3) & ->)].
    + destruct (cc_reject c3) eqn:Er; [|by destruct Hf]. by apply wp_ret; left.
    + rewrite (wf_reject _ Hc3). cbn [is_some]. eapply (call_tail c3 ts es); try done.
      pose proof (moves_trans _ _ _ _ _ _ _ M2 M3) as M'. exact M'.
Qed.

(** Reading a local of the scope. *)
Lemma wp_find_local {B} (k : option nat -> CM B) Q c1 :
  wp (k (index_of x (cc_locals c1))) Q c1 -> wp (c0_find_local x ≫= k) Q c1.
Proof. intros Hk. by apply wp_bind. Qed.

Lemma array_in_index c1 li : index_of x (cc_locals c1) = Some li ->
  (default 0 (cc_arr_n c1 !! li) =? 0) = false -> array_in (scope_of c1) x = true.
Proof. intros Ei Ea. unfold array_in, arr_len. cbn [scope_of s_names s_arrs]. by rewrite Ei, Ea. Qed.

Lemma slot_index names li : index_of x names = Some li -> slot names x = Z.of_nat li.
Proof. unfold slot. by intros ->. Qed.

Lemma fail_post code c1 : wf c1 -> wp (c0_fail code) (fun _ => expr_post 9 c) c1.
Proof. intros Hc1. apply wp_fail; [apply Hc1|by left]. Qed.

Lemma member_sound r1 : plain x -> rest (next c) = punct "." :: r1 ->
  wp (c0_member (ident x)) (fun _ => expr_post 9 c) (next c).
Proof.
  intros Hp E1. destruct ident_next as (Hc1 & M1 & L1). unfold c0_member.
  destruct (wf_next _ _ _ Hc1 E1) as [Hc2 _]; [done|]. eapply wp_bump; [exact E1|done|].
  pose proof (moves_tok _ _ _ _ _ _ M1 E1) as M2. cbn [app] in M2.
  destruct (wf_token _ Hc2) as (fld & r2 & E2 & _). eapply wp_peek; [exact E2|].
  destruct (is_kind C0_TK_IDENT fld && _) eqn:Ef; [|by apply fail_post]. to_prop.
  apply is_kind_eq in H0. assert (fld <> tok_eof) as Hne by (intros ->; done).
  destruct (wf_next _ _ _ Hc2 E2 Hne) as [Hc3 _]. eapply wp_bump; [exact E2|by rewrite H0|].
  pose proof (moves_tok _ _ _ _ _ _ M2 E2) as M3. cbn [app] in M3.
  apply wp_find_local. destruct (index_of x _) as [li|] eqn:Ei; [|by apply fail_post].
  apply wp_bind. unfold wp at 1, c0_local_arr_n, gets.
  destruct (_ =? 0) eqn:Ea; [by apply fail_post|].
  destruct fld as [kd y]. cbn [tk_kind] in H0. subst kd.
  assert (exists s, y = cstr s /\ s ∈ ["length"; "len"]%string) as (s & -> & Hs).
  { unfold c0_tok_eq in H1. cbn [tk_text] in H1. destruct H1 as [H1|H1]; apply bytes_eqb_eq in H1; eexists; (split; [exact H1|member]). }
  eapply wp_emit_last; [done| |apply D_len; [exact Hp|exact Hs]| |exact M3|done|].
  - done.
  - cbn [scope_expr]. by apply (array_in_index c li).
  - cbn [gen]. by rewrite (slot_index _ li).
Qed.

Lemma index_sound r1 : plain x -> rest (next c) = punct "[" :: r1 ->
  wp (c0_index expr (ident x)) (fun _ => expr_post 9 c) (next c).
Proof.
  intros Hp E1. destruct ident_next as (Hc1 & M1 & L1). unfold c0_index.
  apply wp_find_local. destruct (index_of x _) as [li|] eqn:Ei; [|by apply fail_post].
  apply wp_bind. unfold wp at 1, c0_local_arr_n, gets.
  destruct (_ =? 0) eqn:Ea; [by apply fail_post|].
  destruct (wf_next _ _ _ Hc1 E1) as [Hc2 _]; [done|]. eapply wp_bump; [exact E1|done|].
  pose proof (moves_tok _ _ _ _ _ _ M1 E1) as M2. cbn [app] in M2.
  assert (length (rest (next c)) = S (length (rest (next (next c))))) as L2.
  { by rewrite E1, (rest_next _ _ _ E1). }
  eapply wp_call; [apply Hexpr; [done|lia]|]. intros [] c3 Hp3.
  eapply wp_unless_or; [exact Hp3|by left|].
  intros (ts & e & Hts & De & Se & M3 & Es & Hc3). split; [apply Hc3|].
  destruct (wf_token _ Hc3) as (tk & r3 & E3 & _). eapply wp_expect; [eassumption|exact E3| |by left]. intros ->.
  destruct (wf_next _ _ _ Hc3 E3) as [Hc4 _]; [done|].
  pose proof (moves_tok _ _ _ _ _ _ (moves_trans _ _ _ _ _ _ _ M2 M3) E3) as M4.
  eapply wp_emit_last; [done| |apply D_index; [exact Hp|exact De]| |eapply moves_eq; [exact M4|reflexivity|reflexivity]|exact Es|].
  - done.
  - cbn [scope_expr]. rewrite (array_in_index c li); [exact Se|done|done].
  - cbn [gen app]. by rewrite (slot_index _ li).
Qed.

Lemma var_sound : plain x -> wp (c0_var (ident x)) (fun _ => expr_post 9 c) (next c).
Proof.
  intros Hp. destruct ident_next as (Hc1 & M1 & L1). unfold c0_var.
  apply wp_find_local. destruct (index_of x _) as [li|] eqn:Ei; [|by apply fail_post].
  apply wp_bind. unfold wp at 1, c0_local_arr_n, gets.
  destruct (0 <? _) eqn:Ea; [by apply fail_post|]. to_prop.
  eapply wp_emit_last; [done| |by apply D_var| |exact M1|done|].
  - done.
  - cbn [scope_expr]. unfold scalar_in, arr_len. cbn [scope_of s_names s_arrs].
    change (cc_locals (next c)) with (cc_locals c) in Ei. rewrite Ei. by apply Z.leb_le.
  - cbn [gen]. by rewrite (slot_index _ li).
Qed.

Lemma ident_sound : wp (c0_ident n expr (ident x)) (fun _ => expr_post 9 c) c.
Proof.
  destruct ident_next as (Hc1 & M1 & L1). unfold c0_ident. eapply wp_bump; [exact E|done|].
  unfold c0_tok_eq. cbn [tk_text ident].
  destruct (bytes_eqb x (cstr "true")) eqn:Et.
  { apply bytes_eqb_eq in Et as ->. by eapply wp_emit_last; [done| |apply D_true| |exact M1|done|]. }
  destruct (bytes_eqb x (cstr "false")) eqn:Ef.
  { apply bytes_eqb_eq in Ef as ->. by eapply wp_emit_last; [done| |apply D_false| |exact M1|done|]. }
  apply bytes_eqb_neq in Et, Ef. assert (plain x) as Hp by done.
  destruct (wf_token _ Hc1) as (nx & r1 & E1 & _). eapply wp_peek; [exact E1|].
  destruct (is_punct "(" nx) eqn:E2; [apply is_punct_eq in E2 as ->; by eapply call_sound|].
  destruct (is_punct "." nx) eqn:E3; [apply is_punct_eq in E3 as ->; by eapply member_sound|].
  destruct (is_punct "[" nx) eqn:E4; [apply is_punct_eq in E4 as ->; by eapply index_sound|].
  by apply var_sound.
Qed.
End Primary.

Section LevelStack.
Context (n : nat) (expr : CM unit).
Context (Hexpr : forall c, wf c -> (length (rest c) < n)%nat -> wp expr (fun _ => expr_post 0 c) c).

Lemma paren_sound c r : wf c -> (length (rest c) <= n)%nat -> rest c = punct "(" :: r ->
  wp (_ ← expr; unless_rejected (expect ")" "VM_REJ_PARSE" (mret tt))) (fun _ => expr_post 9 c) (next c).
Proof.
  intros Hc Hn E. destruct (wf_next _ _ _ Hc E) as [Hc1 _]; [done|].
  assert (length (rest c) = S (length (rest (next c)))) as L1 by (by rewrite E, (rest_next _ _ _ E)).
  eapply wp_call; [apply Hexpr; [done|lia]|]. intros [] c2 Hp.
  eapply wp_unless_or; [exact Hp|by left|].
  intros (ts & e & Hts & De & Se & M2 & Es & Hc2). split; [apply Hc2|].
  destruct (wf_token _ Hc2) as (tk & r2 & E2 & _). eapply wp_expect; [eassumption|exact E2| |by left]. intros ->.
  destruct (wf_next _ _ _ Hc2 E2) as [Hc3 _]; [done|].
  pose proof (moves_next _ _ _ E (wf_reject _ Hc)) as M1.
  pose proof (moves_tok _ _ _ _ _ _ (moves_trans _ _ _ _ _ _ _ M1 M2) E2) as M3.
  apply wp_ret. eapply derived_intro; [|apply D_paren; exact De|exact Se|exact M3|done|exact Es|done]. done.
Qed.

Lemma primary_sound : parses 9 n (c0_e_primary n expr).
Proof.
  intros c Hc Hn. unfold c0_e_primary. destruct (wf_token _ Hc) as (tk & r & E & Htk).
  eapply wp_peek; [exact E|].
  assert (wp (p ← c0_accept_punct "(";
     if p : bool then _ ← expr; unless_rejected (expect ")" "VM_REJ_PARSE" (mret tt))
     else if is_kind C0_TK_IDENT tk then c0_ident n expr tk
     else _ ← c0_fail "VM_REJ_PARSE"; _ ← c0_bump; mret tt) (fun _ => expr_post 9 c) c) as Hother.
  { eapply wp_accept; [exact E|intros ->; by eapply paren_sound|]. intros _.
    destruct (is_kind C0_TK_IDENT tk) eqn:Ek.
    - apply is_kind_eq in Ek. destruct tk as [kd x]. cbn [tk_kind] in Ek. subst kd. by eapply ident_sound.
    - eapply wp_call; [apply fail_failed; apply Hc|]. intros [] c1 [Hf R].
      destruct (wf_token _ Hc) as (tk' & r' & E' & Htk'). rewrite E' in R. apply wp_bind.
      eapply wp_peek; [exact R|]. destruct Htk' as [[-> ->]|[[Hg _] Hc1]]; [by apply wp_ret; left|].
      destruct (is_kind C0_TK_EOF tk') eqn:Ek'; [by apply is_kind_eq in Ek'|].
      left. by eapply failed_next; [exact Hf|exact R|]. }
  destruct (tk_kind tk) eqn:Ek; try exact Hother.
  - assert (tk <> tok_eof) as Hne by (intros ->; done).
    destruct (wf_next _ _ _ Hc E Hne) as [Hc1 _]. eapply wp_bump; [exact E|by rewrite Ek|].
    destruct (c0_parse_i64 (tk_text tk)) as [v|] eqn:Ev; [|by apply fail_post].
    destruct tk as [kd t]. cbn [tk_kind tk_text] in *. subst kd.
    eapply wp_emit_last; [done| |by apply D_num|done|by eapply moves_next; [exact E|apply Hc]|done|done]. done.
  - assert (tk <> tok_eof) as Hne by (intros ->; done).
    destruct (wf_next _ _ _ Hc E Hne) as [Hc1 _]. eapply wp_bump; [exact E|by rewrite Ek|]. by apply fail_post.
Qed.

Lemma unary_op_Some tk o : unary_op tk = Some o -> exists s, tk = punct s /\ (s, o) ∈ unary_table.
Proof.
  unfold unary_op, unary_table.
  repeat (case_match; [intros [= <-]; eexists; split; [by apply is_punct_eq|member]|]). done.
Qed.

Lemma unary_sound k : forall c, wf c -> (length (rest c) <= n)%nat -> (length (rest c) <= k)%nat ->
  wp (c0_e_unary n expr k) (fun _ => expr_post 9 c) c.
Proof.
  induction k as [|k IH]; intros c Hc Hn Hk; [pose proof (rest_len_pos _ Hc); lia|].
  cbn [c0_e_unary]. destruct (wf_token _ Hc) as (tk & r & E & Htk). eapply wp_peek; [exact E|].
  destruct (unary_op tk) as [o|] eqn:Eo; [|by apply primary_sound].
  apply unary_op_Some in Eo as (s & -> & Hin).
  destruct (wf_next _ _ _ Hc E) as [Hc1 _]; [done|]. eapply wp_bump; [exact E|done|].
  assert (length (rest c) = S (length (rest (next c)))) as L1 by (by rewrite E, (rest_next _ _ _ E)).
  eapply wp_call; [apply IH; [done|lia..]|]. intros [] c2 Hp.
  eapply wp_unless_or; [exact Hp|by left|].
  intros (ts & e & Hts & De & Se & M2 & Es & Hc2). split; [apply Hc2|].
  pose proof (moves_trans _ _ _ _ _ _ _ (moves_next _ _ _ E (wf_reject _ Hc)) M2) as M3.
  eapply wp_emit_last; [done| |apply D_un; [exact Hin|exact De]|exact Se|exact M3|exact Es|done]. done.
Qed.

(** The operators of each level are those of the grammar. *)
Ltac table_case := case_match; [intros [= <-]; eexists; split; [by apply is_punct_eq|member]|].

Lemma level0_sound : parses 0 n (c0_e_or n expr).
Proof.
  assert (parses 9 n (c0_e_unary n expr n)) as H9 by (intros c Hc Hn; by apply unary_sound).
  assert (parses 8 n (c0_e_mul n expr)) as H8.
  { apply level_sound; [lia|done|]. intros c tk o Hc. unfold mul_ops. rewrite (wf_div _ Hc).
    cbn [op_table]. do 2 table_case. case_match; [|done]. destruct div; [|done].
    intros [= <-]; eexists; split; [by apply is_punct_eq|member]. }
  assert (parses 7 n (c0_e_add n expr)) as H7.
  { apply level_sound; [lia|done|]. intros c tk o _. unfold add_ops. by do 2 table_case. }
  assert (parses 6 n (c0_e_band n expr)) as H6.
  { apply level_sound; [lia|done|]. intros c tk o _. unfold single. by table_case. }
  assert (parses 5 n (c0_e_bxor n expr)) as H5.
  { apply level_sound; [lia|done|]. intros c tk o _. unfold single. by table_case. }
  assert (parses 4 n (c0_e_bor n expr)) as H4.
  { apply level_sound; [lia|done|]. intros c tk o _. unfold single. by table_case. }
  assert (parses 3 n (c0_e_shift n expr)) as H3.
  { apply level_sound; [lia|done|]. intros c tk o Hc. unfold shift_ops. rewrite (wf_shift _ Hc).
    cbn [op_table]. destruct shift; [by do 2 table_case|by repeat case_match]. }
  assert (parses 2 n (c0_e_cmp n expr)) as H2.
  { apply level_sound; [lia|done|]. intros c tk o _. unfold cmp_ops. by do 6 table_case. }
  assert (parses 1 n (c0_e_and n expr)) as H1.
  { apply (logic_level_sound 1 n "&&" OP_JUMP_IF_FALSE_KEEP XAnd); [lia|done|member|done|done]. }
  apply (logic_level_sound 0 n "||" OP_JUMP_IF_TRUE_KEEP XOr); [lia|done|member|done|done].
Qed.
End LevelStack.

Lemma expr_sound fuel : parses 0 fuel (c0_expr fuel).
Proof.
  induction fuel as [|fuel IH]; intros c Hc Hn; [pose proof (rest_len_pos _ Hc); lia|].
  cbn [c0_expr]. apply level0_sound; [|done|done]. intros c' Hc' Hn'. apply IH; [done|lia].
Qed.
End Sound.
