(* ===== verification/C0SoundStmt.v ===== *)
(** * The compiler against the C0 language: statements

    Continues [C0Sound]: literals, assignments, blocks, conditionals and loops
    either reject or consume the tokens of a statement of the grammar that is in
    scope, and append its code. *)
From stdpp Require Import strings.
From S2P Require Import Prelude Common Sys Vm C0Lex C0Comp C0Lang C0Sound.

Section Stmts.
Context `{Env} (div shift : bool) (fs : list VmFn).
Local Abbreviation wf := (wf div shift fs).
Local Abbreviation expr_post := (expr_post div shift fs).

(** ** Locals *)

Lemma moves_local c c' : moves c c' [] [] -> rest c' = rest c.
Proof. intros M. by rewrite (mv_rest _ _ _ _ M). Qed.

Lemma wf_same c c' : wf c -> moves c c' [] [] -> scope_wf (scope_of c') -> wf c'.
Proof.
  intros Hc M HG. eapply moves_wf; [exact Hc|exact M| |exact HG]. rewrite (moves_local _ _ M). by eapply wf_nonempty.
Qed.

Lemma strdup_cases x m : exists r m', c0_arena_strdup_n x m = (r, m') /\ (r = None \/ r = Some (strz x)).
Proof.
  unfold c0_arena_strdup_n. destruct (c0_arena_alloc _ m) as [b m']. exists (if b then Some (strz x) else None), m'.
  split; [done|]. destruct b; auto.
Qed.

Lemma local_idx_sound x c : wf c -> strz x = x ->
  wp (c0_local_idx x) (fun li c' => failed c' \/
    (moves c c' [] [] /\ wf c' /\ declare x (scope_of c) = Some (li, scope_of c'))) c.
Proof.
  intros Hc Hx. pose proof (wf_reject _ _ _ _ Hc) as Hr. pose proof (wf_rest _ _ _ _ Hc) as Hn.
  assert (forall c', rest c' = rest c -> cc_reject c' <> None -> failed c') as Hfail.
  { intros c' E J. split; [by rewrite E|done]. }
  pose proof (declare_wf x (scope_of c)) as Hdw. specialize (fun i G' H => Hdw i G' H (wf_scope _ _ _ _ Hc)).
  unfold wp, c0_local_idx, mbind, CM_bind, gets, upd, c0_realloc, c0_malloc, c0_fail, c0_fail_with, id.
  unfold declare in *. cbn [scope_of s_names s_arrs] in *.
  destruct (index_of x (cc_locals c)) as [v|] eqn:Ei.
  { cbn. right. split; [by apply moves_refl|done]. }
  destruct (LIN_VM_MAX_LOCALS <=? length (cc_locals c))%nat.
  { cbn. left. rewrite Hr. by apply Hfail. }
  destruct (length (cc_locals c) =? locals_cap c)%nat, (length (cc_arr_n c) =? arrn_cap c)%nat; cbn;
    repeat match goal with
    | |- context [if alloc_ok ?t then _ else _] => destruct (alloc_ok t)
    | |- context [alloc_ok ?t] => destruct (alloc_ok t); cbn
    end; cbn; rewrite ?Hr; cbn; try (by left; apply Hfail);
    match goal with |- context [c0_arena_strdup_n x ?m] =>
      destruct (strdup_cases x m) as (r & m' & -> & [->| ->]) end; cbn; rewrite ?Hr; cbn;
    try (by left; apply Hfail); right; rewrite Hx;
    match goal with |- moves ?c0 ?s _ _ /\ _ =>
      assert (moves c0 s [] []) as M by (constructor; cbn; rewrite ?app_nil_r; done) end;
    (split; [exact M|split; [eapply wf_same; [done|exact M|by eapply Hdw]|done]]).
Qed.

(** ** Literals *)

Local Abbreviation scoped c es := (scope_args fs (scope_of c) es = true).

(** The elements from index [ei] compile to a literal of the local [li]. *)
Definition elements_post (li : nat) (cap ei : Z) (c c' : C0Comp) : Prop :=
  failed c' \/ exists ts es, es <> ANil /\ dargs div shift ts es /\ scoped c es /\
    ei + Z.of_nat (args_len es) <= cap /\
    moves c c' ts (gen_lit (cc_locals c) fs (length (cc_code c)) (Z.of_nat li) ei es) /\
    scope_of c' = scope_of c /\ wf c'.

(** Emission inside a statement: a failure ends it. *)
Lemma wp_emit_unless o x (k : CM unit) Q c :
  wf c -> (forall c', failed c' -> Q tt c') ->
  (forall c', moves c c' [] [mkIns o x] -> scope_of c' = scope_of c -> wf c' -> wp k Q c') ->
  wp (_ ← emit_ o x; unless_rejected k) Q c.
Proof.
  intros Hc HQ Hk. apply wp_bind. unfold emit_. eapply wp_emit; [exact Hc| |].
  - intros c' M E Hc'. apply wp_ret, wp_unless; [by eapply wf_reject|]. by apply Hk.
  - intros j c' Hf. by apply wp_ret, failed_unless.
Qed.

Lemma expr_unless n (k : CM unit) Q c :
  wf c -> (length (rest c) <= n)%nat -> (forall c', failed c' -> Q tt c') ->
  (forall c' ts e, ts <> [] -> dexpr div shift 0 ts e -> scope_expr fs (scope_of c) e = true ->
     moves c c' ts (gen (cc_locals c) fs (length (cc_code c)) e) -> scope_of c' = scope_of c -> wf c' ->
     wp k Q c') ->
  wp (_ ← c0_expr n; unless_rejected k) Q c.
Proof.
  intros Hc Hn HQ Hk. eapply wp_call; [by apply (expr_sound div shift fs n)|]. intros [] c' Hp.
  eapply wp_unless_or; [exact Hp|exact HQ|].
  intros (ts & e & Hts & De & Se & M & Es & Hc'). split; [by eapply wf_reject|]. by eapply Hk.
Qed.

Lemma elements_sound n li cap k : forall c ei, wf c -> (length (rest c) <= n)%nat ->
  (length (rest c) <= k)%nat ->
  wp (elements_loop n k li cap ei) (fun _ => elements_post li cap ei c) c.
Proof.
  induction k as [|k IH]; intros c ei Hc Hn Hk; [pose proof (rest_len_pos _ _ _ _ Hc); lia|].
  assert (forall c', failed c' -> elements_post li cap ei c c') as HQ by (by left).
  cbn [elements_loop]. apply wp_unless; [by eapply wf_reject|].
  destruct (Z.leb_spec cap ei); [by apply wp_fail; [eapply wf_rest|]|].
  apply wp_emit_unless; [done|done|]. intros c1 M1 E1 Hc1. pose proof (moves_rest_len _ _ _ _ M1) as L1.
  cbn [length] in L1. apply expr_unless; [done|lia|done|]. intros c2 ts e Hts De Se M2 E2 Hc2.
  pose proof (moves_rest_len _ _ _ _ M2) as L2. pose proof (ts_nonempty _ Hts).
  apply wp_emit_unless; [done|done|]. intros c3 M3 E3 Hc3. pose proof (moves_rest_len _ _ _ _ M3) as L3.
  cbn [length] in L3.
  assert (scope_of c3 = scope_of c) as Es by congruence.
  assert (moves c c3 ts ([mkIns OP_PUSH_CONST ei] ++ gen (cc_locals c) fs (length (cc_code c) + 1) e ++
    [mkIns OP_STORE_INDEX (Z.of_nat li)])) as M13.
  { eapply moves_eq; [exact (moves_trans _ _ _ _ _ _ _ (moves_trans _ _ _ _ _ _ _ M1 M2) M3)|by lists|].
    rewrite (scope_names _ _ E1), (moves_code_len _ _ _ _ M1). by lists. }
  destruct (wf_token _ _ _ _ Hc3) as (tk & r & E & _). rewrite E1 in Se.
  eapply wp_accept; [exact E| |].
  - intros ->. destruct (wf_next _ _ _ _ _ _ Hc3 E) as [Hc4 _]; [done|].
    pose proof (moves_tok _ _ _ _ _ _ M13 E) as M4. pose proof (moves_rest_len _ _ _ _ M4) as L4.
    rewrite length_app in L4. cbn [length] in L4.
    eapply wp_mono; [apply IH; [done|lia..]|].
    intros [] c' [Hf|(ts2 & es & Hes & D2 & S2 & F2 & M5 & Es2 & Hc')]; [by left|right].
    destruct es as [|e2 es]; [done|]. exists (ts ++ punct "," :: ts2), (ACons e (ACons e2 es)).
    split; [done|]. split; [by constructor|].
    split; [cbn [scope_args]; rewrite Se; rewrite <- Es; exact S2|].
    split; [cbn [args_len] in *; lia|]. split; [|split; [rewrite Es2; exact Es|done]].
    eapply moves_eq; [exact (moves_trans _ _ _ _ _ _ _ M4 M5)|by lists|].
    change (cc_locals (next c3)) with (cc_locals c3). change (cc_code (next c3)) with (cc_code c3).
    rewrite (scope_names _ _ Es), (moves_code_len _ _ _ _ M13). reflexivity.
  - intros _. apply wp_ret. right. exists ts, (ACons e ANil).
    split; [done|]. split; [by constructor|]. split; [cbn [scope_args]; by rewrite Se|].
    split; [cbn [args_len]; lia|]. split; [|done].
    eapply moves_eq; [exact M13|done|]. cbn [gen_lit]. by rewrite app_nil_r.
Qed.

Lemma arr_lit_sound n li cap c : wf c -> (length (rest c) <= n)%nat -> 0 <= cap ->
  wp (c0_emit_arr_lit n li cap) (fun _ c' => failed c' \/ exists ts es,
    dlit div shift ts es /\ scoped c es /\ lit_fits cap es = true /\
    moves c c' ts (gen_lit (cc_locals c) fs (length (cc_code c)) (Z.of_nat li) 0 es) /\
    scope_of c' = scope_of c /\ wf c') c.
Proof.
  intros Hc Hn Hcap. unfold c0_emit_arr_lit. destruct (wf_token _ _ _ _ Hc) as (tk & r & E & _).
  eapply wp_expect; [eassumption|exact E| |by left]. intros ->.
  destruct (wf_next _ _ _ _ _ _ Hc E) as [Hc1 _]; [done|].
  pose proof (moves_next _ _ _ E ltac:(by eapply wf_reject)) as M1.
  pose proof (moves_rest_len _ _ _ _ M1) as L1. cbn [length] in L1.
  destruct (wf_token _ _ _ _ Hc1) as (tk1 & r1 & E1 & _). eapply wp_at_punct; [exact E1|].
  destruct (is_punct "]" tk1) eqn:Ep.
  - eapply wp_expect; [eassumption|exact E1| |by left]. intros ->.
    destruct (wf_next _ _ _ _ _ _ Hc1 E1) as [Hc2 _]; [done|].
    apply wp_ret. right. exists ([punct "["] ++ [punct "]"]), ANil.
    split; [apply (D_lit div shift []); constructor|]. split; [done|].
    split; [by apply Z.leb_le|]. split; [|done]. exact (moves_tok _ _ _ _ _ _ M1 E1).
  - eapply wp_call; [apply (elements_sound n li cap n (next (c)) 0); [done|lia..]|]. intros [] c2 Hp.
    eapply wp_unless_or; [exact Hp|by left|].
    intros (ts & es & Hes & D & S & F & M2 & Es & Hc2). split; [by eapply wf_reject|].
    destruct (wf_token _ _ _ _ Hc2) as (tk2 & r2 & E2 & _). eapply wp_expect; [eassumption|exact E2| |by left]. intros ->.
    destruct (wf_next _ _ _ _ _ _ Hc2 E2) as [Hc3 _]; [done|]. apply wp_ret. right.
    exists (punct "[" :: ts ++ [punct "]"]), es. split; [by constructor|]. split; [exact S|].
    split; [apply Z.leb_le; lia|]. split; [|done].
    exact (moves_tok _ _ _ _ _ _ (moves_trans _ _ _ _ _ _ _ M1 M2) E2).
Qed.

(** ** Assignments *)

(** Compiled as a statement of [D]. *)
Definition stmt_post (D : list C0Tok -> cstmt -> Prop) (c c' : C0Comp) : Prop :=
  failed c' \/ exists ts s, D ts s /\ scope_stmt fs (scope_of c) s = Some (scope_of c') /\
    moves c c' ts (gen_stmt (cc_locals c') fs (length (cc_code c)) s) /\ wf c'.

Lemma stmt_intro (D : list C0Tok -> cstmt -> Prop) c c' ts s cs :
  D ts s -> scope_stmt fs (scope_of c) s = Some (scope_of c') ->
  moves c c' ts cs -> cs = gen_stmt (cc_locals c') fs (length (cc_code c)) s -> wf c' ->
  stmt_post D c c'.
Proof. intros HD HS M -> Hc. right. by exists ts, s. Qed.

Lemma stmt_fail D code c c1 : good_rest (rest c1) -> wp (c0_fail code) (fun _ => stmt_post D c) c1.
Proof. intros Hr. apply wp_fail; [done|by left]. Qed.

(** The code of an expression in scope, under the names declared later. *)
Lemma gen_later G e names base : scope_expr fs G e = true -> s_names G `prefix_of` names ->
  gen (s_names G) fs base e = gen names fs base e.
Proof. intros. symmetry. by apply gen_ext. Qed.

Lemma wp_bind_gets {A B} (f : C0Comp -> A) (k : A -> CM B) Q c : wp (k (f c)) Q c -> wp (gets f ≫= k) Q c.
Proof. intros Hk. by apply wp_bind. Qed.

Lemma array_scope c x li : index_of x (cc_locals c) = Some li ->
  (default 0 (cc_arr_n c !! li) =? 0) = false -> array_in (scope_of c) x = true.
Proof. intros Ei Ea. unfold array_in, arr_len. cbn [scope_of s_names s_arrs]. by rewrite Ei, Ea. Qed.

Section Assign.
Context (n : nat) (c : C0Comp) (x : list Z).
Context (Hc : wf c) (Hx : strz x = x).
Local Abbreviation post := (fun _ => stmt_post (dassign div shift) c).

(** A state reached by consuming [ts], within the scope of [c]. *)
Definition at_ (c1 : C0Comp) (ts : list C0Tok) : Prop :=
  moves c c1 ts [] /\ scope_of c1 = scope_of c /\ wf c1 /\ (length (rest c1) < n)%nat.

Lemma assign_scalar_sound c1 : at_ c1 [ident x; punct "="] ->
  wp (assign_scalar n (ident x)) post c1.
Proof.
  intros (M1 & E1 & Hc1 & Hn). unfold assign_scalar. cbn [tk_text ident]. apply expr_unless; [done|lia|by left|].
  intros c2 ts e Hts De Se M2 E2 Hc2. rewrite E1 in Se.
  eapply wp_call; [by apply local_idx_sound|]. intros li c3 [Hf|(M3 & Hc3 & Hd)].
  { by apply failed_unless; [|left]. }
  apply wp_unless; [by eapply wf_reject|]. apply wp_bind_gets. pose proof (declare_prefix _ _ _ _ Hd) as [Hp Hi].
  destruct (0 <? _) eqn:Ea; [apply stmt_fail; by eapply wf_rest|].
  unfold emit_. eapply wp_emit; [exact Hc3| |intros j c' Hf; by apply wp_ret; left].
  intros c4 M4 E4 Hc4. apply wp_ret.
  assert (scope_of c2 = scope_of c) as E20 by congruence. rewrite E20 in Hd.
  eapply stmt_intro; [by apply D_assign| |eapply moves_eq;
    [exact (moves_trans _ _ _ _ _ _ _ (moves_trans _ _ _ _ _ _ _ (moves_trans _ _ _ _ _ _ _ M1 M2) M3) M4)|by lists|reflexivity]| |done].
  - cbn [scope_stmt]. rewrite Se, Hd. cbn [mbind option_bind]. unfold arr_len. cbn [scope_of s_arrs].
    assert ((default 0 (cc_arr_n c3 !! li) <=? 0) = true) as -> by (apply Z.ltb_ge in Ea; by apply Z.leb_le).
    by rewrite <- E4.
  - cbn [gen_stmt app]. rewrite (slot_index x (cc_locals c4) li); [|by rewrite (scope_names _ _ E4)].
    rewrite app_nil_r. f_equal. rewrite (moves_code_len _ _ _ _ M1), Nat.add_0_r, (scope_names _ _ E1).
    apply (gen_later (scope_of c)); [done|]. rewrite (scope_names _ _ E4), <- E20. exact Hp.
Qed.

Lemma assign_literal_sound c1 : at_ c1 [ident x; punct "="] ->
  wp (assign_literal n (ident x)) post c1.
Proof.
  intros (M1 & E1 & Hc1 & Hn). unfold assign_literal. cbn [tk_text ident].
  eapply wp_call; [by apply local_idx_sound|]. intros li c2 [Hf|(M2 & Hc2 & Hd)].
  { by apply failed_unless; [|left]. }
  apply wp_unless; [by eapply wf_reject|]. apply wp_bind_gets. change (default 0 (cc_arr_n c2 !! li)) with (arr_len (scope_of c2) li).
  destruct (arr_len (scope_of c2) li =? 0) eqn:Ea; [apply stmt_fail; by eapply wf_rest|].
  pose proof (moves_rest_len _ _ _ _ M2) as L2. cbn [length] in L2. rewrite E1 in Hd.
  destruct (index_of x (s_names (scope_of c))) as [v|] eqn:Ei.
  2:{ exfalso. apply declare_scalar in Hd; [|by apply Hc|done]. by rewrite Hd in Ea. }
  unfold declare in Hd. rewrite Ei in Hd. injection Hd as <- E2.
  assert (scope_of c2 = scope_of c) as E2' by (unfold scope_of; congruence).
  eapply wp_mono; [apply arr_lit_sound; [done|lia|by apply arr_len_nonneg, Hc2]|].
  intros [] c3 [Hf|(ts & es & D & S & F & M3 & E3 & Hc3)]; [by left|].
  rewrite E2' in S, F, Ea.
  eapply stmt_intro; [by apply D_assign_lit| |eapply moves_eq;
    [exact (moves_trans _ _ _ _ _ _ _ (moves_trans _ _ _ _ _ _ _ M1 M2) M3)|by lists|reflexivity]| |done].
  - cbn [scope_stmt]. rewrite Ei, Ea, S, F. cbn [negb andb]. f_equal. congruence.
  - cbn [gen_stmt app]. rewrite (slot_index x (cc_locals c3) v); [|by rewrite (scope_names c c3) by congruence].
    by rewrite (moves_code_len _ _ _ _ M2), (moves_code_len _ _ _ _ M1), !Nat.add_0_r, (scope_names _ _ E3).
Qed.
Lemma assign_index_sound c1 r : moves c c1 [ident x] [] -> scope_of c1 = scope_of c -> wf c1 ->
  rest c1 = punct "[" :: r -> (length (rest c1) <= n)%nat ->
  wp (assign_index n (ident x)) post c1.
Proof.
  intros M1 E1 Hc1 E Hn. unfold assign_index. cbn [tk_text ident]. apply wp_find_local.
  pose proof (wf_rest _ _ _ _ Hc1) as Hne.
  destruct (index_of x (cc_locals c1)) as [li|] eqn:Ei; [|by apply stmt_fail].
  apply wp_bind_gets. destruct (_ =? 0) eqn:Ea; [by apply stmt_fail|].
  pose proof (array_scope _ _ _ Ei Ea) as Hin. rewrite E1 in Hin.
  destruct (wf_next _ _ _ _ _ _ Hc1 E) as [Hc2 _]; [done|]. eapply wp_bump; [exact E|done|].
  pose proof (moves_tok _ _ _ _ _ _ M1 E) as M2. cbn [app] in M2.
  pose proof (moves_rest_len _ _ _ _ (moves_next _ _ _ E (wf_reject _ _ _ _ Hc1))) as L2. cbn [length] in L2.
  apply expr_unless; [done|lia|by left|]. intros c3 ts1 i Hts1 D1 S1 M3 E3 Hc3.
  pose proof (moves_rest_len _ _ _ _ M3) as L3.
  destruct (wf_token _ _ _ _ Hc3) as (tk3 & r3 & R3 & _). eapply wp_expect; [eassumption|exact R3| |by left]. intros ->.
  destruct (wf_next _ _ _ _ _ _ Hc3 R3) as [Hc4 _]; [done|].
  destruct (wf_token _ _ _ _ Hc4) as (tk4 & r4 & R4 & _). eapply wp_expect; [eassumption|exact R4| |by left]. intros ->.
  destruct (wf_next _ _ _ _ _ _ Hc4 R4) as [Hc5 _]; [done|].
  pose proof (moves_tok _ _ _ _ _ _ (moves_tok _ _ _ _ _ _ (moves_trans _ _ _ _ _ _ _ M2 M3) R3) R4) as M5.
  pose proof (rest_next _ _ _ R3) as L4. pose proof (rest_next _ _ _ R4) as L5.
  assert (length (rest (next (next c3))) <= n)%nat as Hn5.
  { rewrite L5. rewrite R3 in L3. rewrite <- L4, R4 in L3. cbn [length] in L3. lia. }
  apply expr_unless; [done|exact Hn5|by left|]. intros c6 ts2 e Hts2 D2 S2 M6 E6 Hc6.
  assert (scope_of c3 = scope_of c) as E30 by (rewrite E3; exact E1).
  assert (scope_of (next c1) = scope_of c) as E2 by exact E1.
  assert (scope_of (next (next c3)) = scope_of c) as E5 by exact E30.
  rewrite E2 in S1. rewrite E5 in S2, E6.
  unfold emit_. eapply wp_emit; [exact Hc6| |intros j c' Hf; by apply wp_ret; left].
  intros c7 M7 E7 Hc7. apply wp_ret.
  eapply stmt_intro; [apply D_store; [exact D1|exact D2]| |eapply moves_eq;
    [exact (moves_trans _ _ _ _ _ _ _ (moves_trans _ _ _ _ _ _ _ M5 M6) M7)|by lists|reflexivity]| |done].
  - cbn [scope_stmt]. rewrite Hin, S1, S2. cbn [andb]. by rewrite E7, E6.
  - cbn [gen_stmt app]. assert (cc_locals c7 = cc_locals c) as En by (apply scope_names; by rewrite E7).
    rewrite (slot_index x (cc_locals c7) li); [|by rewrite En, <- (scope_names _ _ E1)].
    rewrite En, (moves_code_len _ _ _ _ M5), (scope_names _ _ E2), (scope_names _ _ E5).
    change (length (cc_code (next c1))) with (length (cc_code c1)). rewrite (moves_code_len _ _ _ _ M1).
    rewrite Nat.add_0_r. lists. done.
Qed.

Lemma mark_scope li z c1 : scope_of (set_locals (cc_locals c1) (locals_cap c1) (<[li := z]> (cc_arr_n c1)) (arrn_cap c1) c1)
  = mark li z (scope_of c1).
Proof. done. Qed.

(** After the type of the array: the local, its length, and the literal. *)
Lemma declare_tail nval ty t c1 :
  at_ c1 [ident x; punct ":"; punct "["; mkTok C0_TK_NUMBER t; punct "]"; word ty] ->
  c0_parse_u16 t = Some nval -> 1 <= nval <= Z.of_nat LIN_VM_MAX_ARR_LEN -> ty ∈ ["int"; "i64"]%string ->
  wp (li ← c0_local_idx x;
      unless_rejected (
        _ ← c0_mark_arr li nval;
        b ← c0_accept_punct "=";
        if b : bool then c0_emit_arr_lit n li nval else mret tt)) post c1.
Proof.
  intros (M1 & E1 & Hc1 & Hn) Ht Hv Hty.
  eapply wp_call; [by apply local_idx_sound|]. intros li c2 [Hf|(M2 & Hc2 & Hd)].
  { by apply failed_unless; [|left]. }
  apply wp_unless; [by eapply wf_reject|]. apply wp_bind. unfold wp at 1, c0_mark_arr, upd.
  set (c3 := set_locals _ _ _ _ c2). rewrite E1 in Hd.
  assert (scope_of c3 = mark li nval (scope_of c2)) as E3 by done.
  assert (moves c2 c3 [] []) as M3.
  { pose proof (wf_reject _ _ _ _ Hc2). constructor; try done. by rewrite app_nil_r. }
  assert (wf c3) as Hc3.
  { eapply wf_same; [exact Hc2|exact M3|]. rewrite E3. apply mark_wf; [lia|by apply Hc2]. }
  pose proof (moves_trans _ _ _ _ _ _ _ (moves_trans _ _ _ _ _ _ _ M1 M2) M3) as M13.
  pose proof (declare_prefix _ _ _ _ Hd) as [Hp Hi].
  pose proof (moves_rest_len _ _ _ _ M2) as L2. pose proof (moves_rest_len _ _ _ _ M3) as L3. cbn [length] in L2, L3.
  destruct (wf_token _ _ _ _ Hc3) as (tk & r & R & _). eapply wp_accept; [exact R| |].
  - intros ->. destruct (wf_next _ _ _ _ _ _ Hc3 R) as [Hc4 _]; [done|].
    pose proof (moves_rest_len _ _ _ _ (moves_next _ _ _ R (wf_reject _ _ _ _ Hc3))) as L4. cbn [length] in L4.
    eapply wp_mono; [apply arr_lit_sound; [done|lia|lia]|].
    intros [] c5 [Hf|(ts & es & D & S & F & M5 & E5 & Hc5)]; [by left|].
    pose proof (moves_trans _ _ _ _ _ _ _ (moves_tok _ _ _ _ _ _ M13 R) M5) as M15.
    eapply stmt_intro; [eapply D_decl_lit; [exact Ht|exact Hv|exact Hty|exact D]| |
      eapply moves_eq; [exact M15|by lists|reflexivity]| |done].
    + cbn [scope_stmt]. rewrite Hd. cbn [mbind option_bind].
      change (scope_of (next c3)) with (scope_of c3) in S. rewrite <- E3, S, F. cbn [andb]. f_equal. by rewrite E5.
    + cbn [gen_stmt app]. rewrite (slot_index x (cc_locals c5) li); [|by rewrite (scope_names _ _ E5)].
      change (cc_locals (next c3)) with (cc_locals c3). change (length (cc_code (next c3))) with (length (cc_code c3)).
      by rewrite (moves_code_len _ _ _ _ M13), Nat.add_0_r, (scope_names _ _ E5).
  - intros _. apply wp_ret. eapply stmt_intro; [eapply D_decl; [exact Ht|exact Hv|exact Hty]| |
      eapply moves_eq; [exact M13|by lists|reflexivity]| |done].
    + cbn [scope_stmt]. rewrite Hd. cbn [mbind option_bind scope_args].
      assert (lit_fits nval ANil = true) as -> by (apply Z.leb_le; cbn [args_len]; lia). done.
    + done.
Qed.
Lemma declare_array_sound c1 : at_ c1 [ident x; punct ":"] -> wp (declare_array n (ident x)) post c1.
Proof.
  intros (M1 & E1 & Hc1 & Hn). unfold declare_array. cbn [tk_text ident].
  destruct (wf_token _ _ _ _ Hc1) as (tk1 & r1 & R1 & _). eapply wp_expect; [eassumption|exact R1| |by left]. intros ->.
  destruct (wf_next _ _ _ _ _ _ Hc1 R1) as [Hc2 _]; [done|]. pose proof (moves_tok _ _ _ _ _ _ M1 R1) as M2.
  pose proof (wf_rest _ _ _ _ Hc2).
  destruct (wf_token _ _ _ _ Hc2) as (tk2 & r2 & R2 & _). eapply wp_peek; [exact R2|].
  destruct (is_kind C0_TK_NUMBER tk2) eqn:Ek; cbn [negb]; [|by apply stmt_fail]. apply is_kind_eq in Ek.
  assert (tk2 <> tok_eof) as Hne by (intros ->; done).
  destruct (wf_next _ _ _ _ _ _ Hc2 R2 Hne) as [Hc3 _]. pose proof (moves_tok _ _ _ _ _ _ M2 R2) as M3.
  eapply wp_bump; [exact R2|by rewrite Ek|]. pose proof (wf_rest _ _ _ _ Hc3).
  destruct (c0_parse_u16 (tk_text tk2)) as [v|] eqn:Ev; [|by apply stmt_fail].
  destruct ((v <? 1) || (Z.of_nat LIN_VM_MAX_ARR_LEN <? v)) eqn:Eb; [by apply stmt_fail|]. to_prop.
  destruct (wf_token _ _ _ _ Hc3) as (tk3 & r3 & R3 & _). eapply wp_expect; [eassumption|exact R3| |by left]. intros ->.
  destruct (wf_next _ _ _ _ _ _ Hc3 R3) as [Hc4 _]; [done|]. pose proof (moves_tok _ _ _ _ _ _ M3 R3) as M4.
  pose proof (wf_rest _ _ _ _ Hc4).
  destruct (wf_token _ _ _ _ Hc4) as (tk4 & r4 & R4 & _).
  eapply wp_at_ident; [exact R4|]. eapply wp_at_ident; [exact R4|].
  destruct (is_word "int" tk4 || is_word "i64" tk4) eqn:Ew; cbn [negb]; [|by apply stmt_fail].
  assert (exists ty, tk4 = word ty /\ ty ∈ ["int"; "i64"]%string) as (ty & -> & Hty).
  { apply orb_true_iff in Ew as [Ew|Ew]; apply is_word_eq in Ew as ->; eexists; (split; [done|member]). }
  destruct (wf_next _ _ _ _ _ _ Hc4 R4) as [Hc5 _]; [done|]. pose proof (moves_tok _ _ _ _ _ _ M4 R4) as M5.
  eapply wp_bump; [exact R4|done|]. destruct tk2 as [kd t]. cbn [tk_kind tk_text] in Ek, Ev. subst kd.
  apply (declare_tail v ty t); [|done|lia|done].
  split; [exact M5|]. split; [exact E1|]. split; [exact Hc5|].
  pose proof (moves_rest_len _ _ _ _ M1) as L1. pose proof (moves_rest_len _ _ _ _ M5) as L5.
  rewrite !length_app in L5. cbn [length] in L1, L5. lia.
Qed.
End Assign.

Lemma assign_sound n c : wf c -> (length (rest c) <= n)%nat ->
  wp (c0_assign n) (fun _ => stmt_post (dassign div shift) c) c.
Proof.
  intros Hc Hn. unfold c0_assign. destruct (wf_token _ _ _ _ Hc) as (tk & r & R & _).
  pose proof (wf_rest _ _ _ _ Hc). eapply wp_peek; [exact R|].
  destruct (is_kind C0_TK_IDENT tk) eqn:Ek; cbn [negb]; [|by apply stmt_fail]. apply is_kind_eq in Ek.
  assert (tk <> tok_eof) as Hne by (intros ->; done).
  destruct (wf_next _ _ _ _ _ _ Hc R Hne) as [Hc1 [_ Hg]]. specialize (Hg Ek).
  destruct tk as [kd x]. cbn [tk_kind tk_text] in Ek, Hg. subst kd. change (mkTok C0_TK_IDENT x) with (ident x) in *.
  eapply wp_bump; [exact R|done|]. pose proof (moves_next _ _ _ R (wf_reject _ _ _ _ Hc)) as M1.
  pose proof (moves_rest_len _ _ _ _ M1) as L1. cbn [length] in L1.
  destruct (wf_token _ _ _ _ Hc1) as (tk1 & r1 & R1 & _). eapply wp_at_punct; [exact R1|].
  destruct (is_punct "[" tk1) eqn:E1.
  { apply is_punct_eq in E1 as ->. eapply assign_index_sound; [exact M1|done|done|exact R1|lia]. }
  eapply wp_accept; [exact R1| |].
  - intros ->. destruct (wf_next _ _ _ _ _ _ Hc1 R1) as [Hc2 _]; [done|].
    pose proof (moves_tok _ _ _ _ _ _ M1 R1) as M2. pose proof (moves_rest_len _ _ _ _ M2) as L2. cbn [app length] in L2.
    apply declare_array_sound; [exact Hg|]. split; [exact M2|]. split; [done|]. split; [done|lia].
  - intros _. eapply wp_expect; [eassumption|exact R1| |by left]. intros ->.
    destruct (wf_next _ _ _ _ _ _ Hc1 R1) as [Hc2 _]; [done|].
    pose proof (moves_tok _ _ _ _ _ _ M1 R1) as M2. pose proof (moves_rest_len _ _ _ _ M2) as L2. cbn [app length] in L2.
    assert (at_ n c (next (next c)) [ident x; punct "="]) as Hat.
    { split; [exact M2|]. split; [done|]. split; [done|lia]. }
    destruct (wf_token _ _ _ _ Hc2) as (tk2 & r2 & R2 & _). eapply wp_at_punct; [exact R2|].
    destruct (is_punct "[" tk2); [by apply assign_literal_sound|by apply assign_scalar_sound].
Qed.
End Stmts.
