(* ===== verification/C0SoundFlow.v ===== *)
(** * The compiler against the C0 language: blocks, conditionals and loops

    Continues [C0SoundStmt] up to the whole body of a function. *)
From stdpp Require Import strings.
From S2P Require Import Prelude Common Sys Vm C0Lex C0Comp C0Lang C0Sound C0SoundStmt.

(** [emits c c' cs]: the code [cs] is appended, wherever the position goes. *)
Record emits (c c' : C0Comp) (cs : list VmIns) : Prop := {
  em_toks : cc_toks c' = cc_toks c;
  em_fns : cc_fns c' = cc_fns c;
  em_div : allow_div c' = allow_div c;
  em_shift : allow_shift c' = allow_shift c;
  em_code : cc_code c' = cc_code c ++ cs;
  em_reject : cc_reject c' = None
}.

Lemma moves_emits c c' ts cs : moves c c' ts cs -> emits c c' cs.
Proof. by intros []. Qed.

Lemma emits_trans c1 c2 c3 cs1 cs2 : emits c1 c2 cs1 -> emits c2 c3 cs2 -> emits c1 c3 (cs1 ++ cs2).
Proof.
  intros [T1 F1 D1 S1 C1 J1] [T2 F2 D2 S2 C2 J2]. constructor; try congruence. by rewrite C2, C1, app_assoc.
Qed.

Lemma emits_eq c c' cs cs' : emits c c' cs -> cs = cs' -> emits c c' cs'.
Proof. by intros M <-. Qed.

Lemma emits_pos c c' cs p : emits c c' cs -> emits c (set_pos p c') cs.
Proof. by intros []. Qed.

Lemma emits_moves c c' ts cs :
  emits c c' cs -> cc_pos c' = (cc_pos c + length ts)%nat -> rest c = ts ++ rest c' -> moves c c' ts cs.
Proof. intros []. by constructor. Qed.

Section Flow.
Context `{Env} (div shift : bool) (fs : list VmFn).
Local Abbreviation wf := (wf div shift fs).
Local Abbreviation stmt_post := (stmt_post div shift fs).

Lemma dstmt_nonempty ts s : dstmt div shift ts s -> ts <> [].
Proof. inversion 1; try done. intros E. by apply app_eq_nil in E as [_ ?]. Qed.

Lemma gen_stmt_later G G' names s base :
  scope_stmt fs G s = Some G' -> s_names G' `prefix_of` names ->
  gen_stmt (s_names G') fs base s = gen_stmt names fs base s.
Proof. intros. symmetry. by eapply gen_stmt_ext. Qed.

(** An optional semicolon. *)
Lemma skip_semi_sound {B} (k : unit -> CM B) Q c :
  wf c -> (forall ts c', semi ts -> moves c c' ts [] -> scope_of c' = scope_of c -> wf c' -> wp (k tt) Q c') ->
  wp (skip_semi ≫= k) Q c.
Proof.
  intros Hc Hk. apply wp_bind. unfold skip_semi. destruct (wf_token _ _ _ _ Hc) as (tk & r & R & _).
  eapply wp_accept; [exact R| |].
  - intros ->. destruct (wf_next _ _ _ _ _ _ Hc R) as [Hc1 _]; [done|]. apply wp_ret.
    eapply Hk; [by right|by eapply moves_next; [exact R|apply Hc]|done|done].
  - intros _. apply wp_ret. eapply Hk; [by left|apply moves_refl, Hc|done|done].
Qed.

(** The same at the end of a statement. *)
Lemma skip_semi_last (Q : unit -> C0Comp -> Prop) c :
  wf c -> (forall ts c', semi ts -> moves c c' ts [] -> scope_of c' = scope_of c -> wf c' -> Q tt c') ->
  wp skip_semi Q c.
Proof.
  intros Hc Hk. pose proof (skip_semi_sound mret Q c Hc) as Hs. unfold wp, mbind, CM_bind in Hs.
  unfold wp. destruct (skip_semi c) as [[[] c']|]; apply Hs; intros; by eapply Hk.
Qed.

(** Growing an array of the compiler. *)
Lemma wp_realloc {B} (b : bool) (k : bool -> CM B) Q c :
  wf c -> (forall ok c', moves c c' [] [] -> scope_of c' = scope_of c -> wf c' -> wp (k ok) Q c') ->
  wp ((if b then c0_realloc else mret true) ≫= k) Q c.
Proof.
  intros Hc Hk. apply wp_bind. destruct b.
  - unfold wp at 1, c0_realloc, c0_malloc. pose proof (wf_reject _ _ _ _ Hc).
    assert (moves c (set_mem (mkMem (m_clock (cc_mem c) + 1) (m_used (cc_mem c)) (m_cap (cc_mem c))) c) [] []) as M.
    { constructor; try done. by rewrite app_nil_r. }
    apply Hk; [exact M|done|]. eapply wf_same; [exact Hc|exact M|apply Hc].
  - apply wp_ret, Hk; [apply moves_refl, Hc|done|done].
Qed.

(** A rejection tested by a function that returns a value. *)
Lemma wp_rejected {B} (k : bool -> CM B) Q c : wf c -> wp (k false) Q c -> wp (rejected ≫= k) Q c.
Proof. intros Hc Hk. apply wp_bind_gets. by rewrite (wf_reject _ _ _ _ Hc). Qed.

Lemma wp_rejected_failed {A} (x : A) (k : CM A) (Q : A -> C0Comp -> Prop) c :
  failed c -> Q x c -> wp (r ← rejected; if r : bool then mret x else k) Q c.
Proof. intros [_ Hr] HQ. apply wp_bind_gets. by destruct (cc_reject c). Qed.

(** The closing parenthesis of a for header is a token ahead. *)
Lemma for_close_spec ts : forall i d p, for_close ts i d = Some p ->
  exists k r, ts = k ++ punct ")" :: r /\ p = (i + length k)%nat.
Proof.
  induction ts as [|tk ts IH]; intros i d p; cbn [for_close]; [done|].
  assert (forall d, for_close ts (i + 1) d = Some p ->
    exists k r, tk :: ts = k ++ punct ")" :: r /\ p = (i + length k)%nat) as Hgo.
  { intros d' Hd. apply IH in Hd as (k & r & -> & ->). exists (tk :: k), r. split; [done|cbn [length]; lia]. }
  destruct (is_punct "(" tk); [apply Hgo|]. destruct (is_punct ")" tk) eqn:Ep; [|apply Hgo].
  destruct (d =? 0)%nat; [|apply Hgo]. apply is_punct_eq in Ep as ->. intros [= <-].
  exists [], ts. split; [done|cbn [length]; lia].
Qed.

Lemma rest_set_pos c p : rest (set_pos p c) = drop p (cc_toks c).
Proof. done. Qed.

(** The state just after that parenthesis. *)
Lemma rest_jump c k r : rest c = k ++ punct ")" :: r ->
  drop (cc_pos c + length k) (cc_toks c) = punct ")" :: r /\
  drop (cc_pos c + length k + 1) (cc_toks c) = r.
Proof.
  unfold rest. intros E. rewrite <- !drop_drop, E, drop_app_length. done.
Qed.

Lemma good_jump c k r : good_rest (rest c) -> rest c = k ++ punct ")" :: r -> good_rest r.
Proof.
  intros G E. rewrite E in G. apply good_rest_app in G; [|done].
  apply good_rest_cons in G as (tk & r' & [= <- <-] & [[E' _]|[_ ?]]); done.
Qed.

Lemma emit_failed o x c : failed c -> wp (c0_emit o x) (fun _ c' => failed c') c.
Proof.
  intros [G J]. unfold wp, c0_emit, mbind, CM_bind, gets, upd, c0_realloc, c0_malloc, c0_fail_with, id.
  destruct (length (cc_code c) =? code_cap c)%nat; cbn; [|done].
  destruct (alloc_ok _); cbn; [done|]. destruct (cc_reject c) eqn:E; [|done]. cbn. by split; [|cbn; congruence].
Qed.

Section Fuel.
Context (n : nat) (stmt : CM unit).
Context (Hstmt : forall c, wf c -> (length (rest c) < n)%nat ->
  wp stmt (fun _ => stmt_post (dstmt div shift) c) c).

Lemma block_loop_sound k : forall c, wf c -> (length (rest c) < n)%nat -> (length (rest c) <= k)%nat ->
  wp (block_loop stmt k) (fun b c' => failed c' \/ (b = true /\ exists ts s r,
    dstmts div shift ts s /\ scope_stmt fs (scope_of c) s = Some (scope_of c') /\
    moves c c' ts (gen_stmt (cc_locals c') fs (length (cc_code c)) s) /\ wf c' /\
    rest c' = punct "}" :: r)) c.
Proof.
  induction k as [|k IH]; intros c Hc Hn Hk; [pose proof (rest_len_pos _ _ _ _ Hc); lia|].
  cbn [block_loop]. destruct (wf_token _ _ _ _ Hc) as (tk & r & R & _). eapply wp_at_punct; [exact R|].
  destruct (is_punct "}" tk) eqn:Ep.
  { apply is_punct_eq in Ep as ->. apply wp_ret. right. split; [done|]. exists [], SSkip, r.
    split; [constructor|]. split; [done|]. split; [apply moves_refl, Hc|done]. }
  apply wp_bind_gets. rewrite (wf_reject _ _ _ _ Hc). cbn [is_some].
  eapply wp_peek; [exact R|]. destruct (is_kind C0_TK_EOF tk) eqn:Ek.
  { eapply wp_call; [apply fail_failed, Hc|]. intros [] c' [Hf _]. by apply wp_ret; left. }
  eapply wp_call; [by apply Hstmt|]. intros [] c1 [Hf|(ts & s & D & S & M & Hc1)].
  - (* the next turn of the loop returns *)
    destruct k as [|k].
    { exfalso. assert (tk <> tok_eof) as Hne by (intros ->; done).
      destruct (wf_next _ _ _ _ _ _ Hc R Hne) as [Hc2 _]. pose proof (rest_len_pos _ _ _ _ Hc2) as L.
      rewrite (rest_next _ _ _ R) in L. rewrite R in Hk. cbn [length] in Hk. lia. }
    cbn [block_loop]. destruct (good_rest_cons _ (proj1 Hf)) as (tk1 & r1 & R1 & _).
    eapply wp_at_punct; [exact R1|]. destruct (is_punct "}" tk1); [by apply wp_ret; left|].
    apply wp_bind_gets. destruct (cc_reject c1) eqn:Er; [|by destruct Hf]. by apply wp_ret; left.
  - pose proof (moves_rest_len _ _ _ _ M) as L. pose proof (ts_nonempty _ (dstmt_nonempty _ _ D)).
    eapply wp_mono; [apply IH; [done|lia..]|].
    intros b c' [Hf|(-> & ts2 & s2 & r2 & D2 & S2 & M2 & Hc' & R2)]; [by left|right]. split; [done|].
    exists (ts ++ ts2), (SSeq s s2), r2. split; [by constructor|].
    split; [cbn [scope_stmt]; by rewrite S|]. split; [|done].
    eapply moves_eq; [exact (moves_trans _ _ _ _ _ _ _ M M2)|done|]. cbn [gen_stmt].
    rewrite (moves_code_len _ _ _ _ M), (gen_stmt_later _ _ _ _ _ S (scope_stmt_prefix _ _ _ _ S2)). done.
Qed.

Lemma block_sound c : wf c -> (length (rest c) <= n)%nat ->
  wp (c0_block n stmt) (fun _ => stmt_post (dblock div shift) c) c.
Proof.
  intros Hc Hn. unfold c0_block. destruct (wf_token _ _ _ _ Hc) as (tk & r & R & _).
  eapply wp_expect; [eassumption|exact R| |by left]. intros ->.
  destruct (wf_next _ _ _ _ _ _ Hc R) as [Hc1 _]; [done|].
  pose proof (moves_next _ _ _ R (wf_reject _ _ _ _ Hc)) as M1.
  pose proof (moves_rest_len _ _ _ _ M1) as L1. cbn [length] in L1.
  eapply wp_call; [apply block_loop_sound; [done|lia..]|].
  intros b c2 [Hf|(-> & ts & s & r2 & D & S & M2 & Hc2 & R2)].
  - destruct b; [|by apply wp_ret; left]. apply wp_bind.
    destruct (good_rest_cons _ (proj1 Hf)) as (tk1 & r1 & R1 & _). unfold c0_bump. eapply wp_peek; [exact R1|].
    destruct (is_kind C0_TK_EOF tk1) eqn:Ek; [by apply wp_ret; left|].
    left. eapply failed_next; [exact Hf|exact R1|]. intros Hk. apply is_kind_eq in Hk. congruence.
  - destruct (wf_next _ _ _ _ _ _ Hc2 R2) as [Hc3 _]; [done|]. eapply wp_bump; [exact R2|done|].
    apply wp_ret. eapply stmt_intro; [apply D_block; exact D|exact S|
      exact (moves_tok _ _ _ _ _ _ (moves_trans _ _ _ _ _ _ _ M1 M2) R2)|done|done].
Qed.
(** A chain, or what follows its block, whose exits are still to be patched. *)
Definition chain_post (D : list C0Tok -> cstmt -> Prop) (ends : list nat) (c : C0Comp)
    (ends' : list nat) (c' : C0Comp) : Prop :=
  failed c' \/ exists ts s, D ts s /\ scope_stmt fs (scope_of c) s = Some (scope_of c') /\
    moves c c' ts (gen_chain (cc_locals c') fs (length (cc_code c)) s 0) /\
    ends' = ends ++ chain_jumps (length (cc_code c)) s /\ wf c'.

(** A block is not a chain: it has no exit of its own. *)
Lemma dblock_chain ts s names base v : dblock div shift ts s ->
  gen_chain names fs base s v = gen_stmt names fs base s /\ chain_jumps base s = [].
Proof. intros Hb. inversion Hb as [? ? Hs]. by inversion Hs. Qed.

Lemma block_chain (D : list C0Tok -> cstmt -> Prop) ends c c1 ts0 :
  (forall ts s, dblock div shift ts s -> D (ts0 ++ ts) s) ->
  moves c c1 ts0 [] -> scope_of c1 = scope_of c -> wf c1 -> (length (rest c1) <= n)%nat ->
  wp (_ ← c0_block n stmt; mret ends) (chain_post D ends c) c1.
Proof.
  intros HD M1 E1 Hc1 Hn. eapply wp_call; [by apply block_sound|].
  intros [] c2 [Hf|(ts & s & Db & S & M2 & Hc2)]; [by apply wp_ret; left|].
  apply wp_ret. right. destruct (dblock_chain _ _ (cc_locals c2) (length (cc_code c)) 0 Db) as [Eg Ej].
  exists (ts0 ++ ts), s. split; [by apply HD|]. split; [by rewrite <- E1|].
  split; [|split; [by rewrite Ej, app_nil_r|done]].
  eapply moves_eq; [exact (moves_trans _ _ _ _ _ _ _ M1 M2)|done|].
  rewrite Eg, (moves_code_len _ _ _ _ M1). cbn [app length]. by rewrite Nat.add_0_r.
Qed.

(** What follows a block, given the chains below. *)
Lemma else_part_sound k ends cap c :
  wf c -> (length (rest c) <= n)%nat ->
  (forall c' cap, wf c' -> (length (rest c') < length (rest c))%nat ->
     wp (c0_if_chain n stmt k ends cap) (chain_post (dchain div shift) ends c') c') ->
  wp (colon ← c0_accept_punct ":";
      if colon : bool then
        paren ← c0_at_punct "(";
        if paren : bool then c0_if_chain n stmt k ends cap else _ ← c0_block n stmt; mret ends
      else
        els ← c0_at_ident "else";
        if els : bool then
          _ ← c0_bump;
          if_ ← c0_at_ident "if";
          if if_ : bool then _ ← c0_bump; c0_if_chain n stmt k ends cap
          else _ ← c0_block n stmt; mret ends
        else mret ends) (chain_post (delse div shift) ends c) c.
Proof.
  intros Hc Hn Hchain. pose proof (wf_reject _ _ _ _ Hc) as Hr.
  assert (forall c1 ts0, (forall ts s, dchain div shift ts s -> delse div shift (ts0 ++ ts) s) ->
    moves c c1 ts0 [] -> scope_of c1 = scope_of c -> wf c1 -> ts0 <> [] ->
    wp (c0_if_chain n stmt k ends cap) (chain_post (delse div shift) ends c) c1) as Hgo.
  { intros c1 ts0 HD M1 E1 Hc1 H0. pose proof (moves_rest_len _ _ _ _ M1). pose proof (ts_nonempty _ H0).
    eapply wp_mono; [apply Hchain; [done|lia]|].
    intros ends' c2 [Hf|(ts & s & Dc & S & M2 & -> & Hc2)]; [by left|right].
    pose proof (moves_code_len _ _ _ _ M1) as Lc. cbn [length] in Lc. rewrite Nat.add_0_r in Lc.
    exists (ts0 ++ ts), s. split; [by apply HD|]. split; [by rewrite <- E1|]. rewrite <- Lc.
    split; [|done]. eapply moves_eq; [exact (moves_trans _ _ _ _ _ _ _ M1 M2)|done|done]. }
  destruct (wf_token _ _ _ _ Hc) as (tk & r & R & _). eapply wp_accept; [exact R| |].
  - intros ->. destruct (wf_next _ _ _ _ _ _ Hc R) as [Hc1 _]; [done|].
    pose proof (moves_next _ _ _ R Hr) as M1. pose proof (moves_rest_len _ _ _ _ M1) as L1. cbn [length] in L1.
    destruct (wf_token _ _ _ _ Hc1) as (tk1 & r1 & R1 & _). eapply wp_at_punct; [exact R1|].
    destruct (is_punct "(" tk1); [eapply Hgo; [|exact M1|done..]; intros; by apply D_elif|].
    eapply block_chain; [|exact M1|done|done|lia]. intros. apply D_else; auto.
  - intros _. eapply wp_at_ident; [exact R|]. destruct (is_word "else" tk) eqn:Ew.
    + apply is_word_eq in Ew as ->. destruct (wf_next _ _ _ _ _ _ Hc R) as [Hc1 _]; [done|].
      pose proof (moves_next _ _ _ R Hr) as M1. pose proof (moves_rest_len _ _ _ _ M1) as L1. cbn [length] in L1.
      eapply wp_bump; [exact R|done|].
      destruct (wf_token _ _ _ _ Hc1) as (tk1 & r1 & R1 & _). eapply wp_at_ident; [exact R1|].
      destruct (is_word "if" tk1) eqn:Ew1.
      * apply is_word_eq in Ew1 as ->. destruct (wf_next _ _ _ _ _ _ Hc1 R1) as [Hc2 _]; [done|].
        eapply wp_bump; [exact R1|done|]. pose proof (moves_tok _ _ _ _ _ _ M1 R1) as M2.
        eapply Hgo; [|exact M2|done..]. intros. by apply D_else_if.
      * eapply block_chain; [|exact M1|done|done|lia]. intros. apply D_else; auto.
    + apply wp_ret. right. exists [], SSkip. split; [constructor|]. split; [done|].
      split; [by apply moves_refl|]. by rewrite app_nil_r.
Qed.
Lemma if_chain_S k ends cap : c0_if_chain n stmt (S k) ends cap =
  (b ← c0_accept_punct "(";
   if negb b then _ ← c0_fail "VM_REJ_PARSE"; mret ends
   else
     _ ← c0_expr n;
     r ← rejected;
     if r : bool then mret ends
     else
       b ← c0_accept_punct ")";
       if negb b then _ ← c0_fail "VM_REJ_PARSE"; mret ends
       else
         jf ← c0_emit OP_JUMP_IF_FALSE 0;
         r ← rejected;
         if r : bool then mret ends
         else
           _ ← c0_block n stmt;
           r ← rejected;
           if r : bool then mret ends
           else
             je ← c0_emit OP_JUMP 0;
             r ← rejected;
             if r : bool then mret ends else c0_if_else n stmt k ends cap jf je).
Proof. reflexivity. Qed.

Lemma fail_ret {A} j (x : A) (Q : A -> C0Comp -> Prop) c :
  wf c -> (forall c', failed c' -> Q x c') -> wp (_ ← c0_fail_with j; mret x) Q c.
Proof.
  intros Hc HQ. eapply wp_call; [apply fail_failed, Hc|]. intros [] c' [Hf _]. apply wp_ret. by apply HQ.
Qed.

(** From the growth of [ends]: the state [c] holds the condition, the block and
    its exit. *)
Lemma if_else_sound k ends cap c0 c ts ge g1 :
  wf c -> (length (rest c) <= n)%nat ->
  moves c0 c ts (ge ++ mkIns OP_JUMP_IF_FALSE 0 :: g1 ++ [mkIns OP_JUMP 0]) ->
  (forall ends c' cap, wf c' -> (length (rest c') < length (rest c))%nat ->
     wp (c0_if_chain n stmt k ends cap) (chain_post (dchain div shift) ends c') c') ->
  wp (c0_if_else n stmt (S k) ends cap (length (cc_code c0) + length ge) (length (cc_code c) - 1))
    (fun ends' c' => failed c' \/ exists ts2 s2,
      delse div shift ts2 s2 /\ scope_stmt fs (scope_of c) s2 = Some (scope_of c') /\
      moves c0 c' (ts ++ ts2) ((ge ++ jump OP_JUMP_IF_FALSE (length (cc_code c)) :: g1 ++ [mkIns OP_JUMP 0]) ++
        gen_chain (cc_locals c') fs (length (cc_code c)) s2 0) /\
      ends' = ends ++ [(length (cc_code c) - 1)%nat] ++ chain_jumps (length (cc_code c)) s2 /\ wf c') c.
Proof.
  intros Hc Hn M Hchain. cbn [c0_if_else]. apply wp_realloc; [done|]. intros ok c1 M1 E1 Hc1.
  destruct ok; cbn [negb]; [|apply fail_ret; [done|by left]].
  pose proof (moves_rest_len _ _ _ _ M1) as L1. pose proof (moves_code_len _ _ _ _ M1) as Lc1.
  cbn [length] in L1, Lc1. rewrite Nat.add_0_r in Lc1.
  eapply wp_patch.
  { eapply moves_eq; [exact (moves_trans _ _ _ _ _ _ _ M M1)|by rewrite app_nil_r|]. lists. reflexivity. }
  intros c2 M2 E2 R2 W2. specialize (W2 Hc1). cbn [op] in M2.
  eapply wp_mono; [apply else_part_sound; [done|rewrite R2; lia|]|].
  { intros c' cap' Hc' Hl. apply Hchain; [done|]. rewrite R2 in Hl. lia. }
  intros ends' c3 [Hf|(ts2 & s2 & D & S & M3 & -> & Hc3)]; [by left|right]. exists ts2, s2.
  assert (length (cc_code c2) = length (cc_code c)) as Lc2.
  { rewrite (moves_code_len _ _ _ _ M2), (moves_code_len _ _ _ _ M), !length_app. cbn [length].
    rewrite !length_app. reflexivity. }
  rewrite Lc2 in M3. rewrite Lc2. rewrite E2, E1 in S. rewrite Lc1 in M2.
  split; [done|]. split; [done|]. split; [exact (moves_trans _ _ _ _ _ _ _ M2 M3)|].
  split; [by rewrite <- app_assoc|done].
Qed.
(** The tail of a chain, from its block. *)
Lemma chain_block_sound k ends cap c0 c ts1 e :
  wf c0 -> wf c -> (length (rest c) <= n)%nat -> (length (rest c) <= k)%nat -> scope_of c = scope_of c0 ->
  dexpr div shift 0 ts1 e -> scope_expr fs (scope_of c0) e = true ->
  moves c0 c (punct "(" :: ts1 ++ [punct ")"])
    (gen (cc_locals c0) fs (length (cc_code c0)) e ++ [mkIns OP_JUMP_IF_FALSE 0]) ->
  (forall ends c' cap, wf c' -> (length (rest c') < length (rest c))%nat ->
     wp (c0_if_chain n stmt (k - 1) ends cap) (chain_post (dchain div shift) ends c') c') ->
  wp (_ ← c0_block n stmt;
      r ← rejected;
      if r : bool then mret ends
      else
        je ← c0_emit OP_JUMP 0;
        r ← rejected;
        if r : bool then mret ends
        else c0_if_else n stmt k ends cap (length (cc_code c0) + size e) je)
    (chain_post (dchain div shift) ends c0) c.
Proof.
  intros Hc0 Hc Hn Hk E De Se M Hchain. pose proof (rest_len_pos _ _ _ _ Hc).
  eapply wp_call; [by apply block_sound|]. intros [] c1 [Hf|(ts2 & s1 & D1 & S1 & M1 & Hc1)].
  { by apply wp_rejected_failed; [|left]. }
  apply wp_rejected; [done|]. pose proof (moves_rest_len _ _ _ _ M1) as L1.
  assert (ts2 <> []) as Hts2 by (by inversion D1). pose proof (ts_nonempty _ Hts2).
  eapply wp_emit; [done| |intros j c' Hf; by apply wp_rejected_failed; [|left]].
  intros c2 M2 E2 Hc2. apply wp_rejected; [done|].
  pose proof (moves_rest_len _ _ _ _ M2) as L2. cbn [length] in L2.
  pose proof (moves_trans _ _ _ _ _ _ _ (moves_trans _ _ _ _ _ _ _ M M1) M2) as M02.
  destruct k as [|k]; [lia|]. rewrite Nat.sub_succ, Nat.sub_0_r in Hchain.
  assert (length (cc_code c1) = (length (cc_code c2) - 1)%nat) as ->.
  { rewrite (moves_code_len _ _ _ _ M2). cbn [length]. lia. }
  rewrite <- (gen_size (cc_locals c0) fs (length (cc_code c0)) e).
  eapply wp_mono; [eapply (if_else_sound k ends cap c0 c2 _ _ (gen_stmt (cc_locals c1) fs (length (cc_code c)) s1));
    [done|lia| |]|].
  { eapply moves_eq; [exact M02|reflexivity|by lists]. }
  { intros ends' c' cap' Hc' Hl. apply Hchain; [done|lia]. }
  intros ends' c3 [Hf|(ts3 & s2 & D2 & S2 & M3 & -> & Hc3)]; [by left|right].
  rewrite E2 in S2. pose proof (scope_stmt_prefix _ _ _ _ S1) as P1. pose proof (scope_stmt_prefix _ _ _ _ S2) as P2.
  assert (length (cc_code c) = (length (cc_code c0) + size e + 1)%nat) as Lc.
  { rewrite (moves_code_len _ _ _ _ M), length_app, gen_size. cbn [length]. lia. }
  assert (length (cc_code c2) = (length (cc_code c0) + size e + 1 + size_stmt s1 + 1)%nat) as Lc2.
  { rewrite (moves_code_len _ _ _ _ M2), (moves_code_len _ _ _ _ M1), gen_stmt_size, Lc. cbn [length]. lia. }
  exists (punct "(" :: ts1 ++ punct ")" :: ts2 ++ ts3), (SIf e s1 s2).
  split; [by constructor|]. split; [cbn [scope_stmt]; rewrite Se, <- E, S1; exact S2|].
  split; [|split; [|done]].
  - eapply moves_eq; [exact M3|by lists|]. cbn [gen_chain]. rewrite Lc2, Lc. lists.
    rewrite E in P1.
    rewrite (gen_later fs (scope_of c0) e (cc_locals c3)) by (done || by eapply prefix_trans).
    by rewrite (gen_stmt_later _ _ _ _ _ S1 P2).
  - cbn [chain_jumps]. rewrite Lc2. cbn [app]. repeat (f_equal; try lia).
Qed.

Lemma if_chain_sound k : forall ends cap c, wf c -> (length (rest c) <= n)%nat -> (length (rest c) <= k)%nat ->
  wp (c0_if_chain n stmt k ends cap) (chain_post (dchain div shift) ends c) c.
Proof.
  induction k as [k IH] using lt_wf_ind. intros ends cap c Hc Hn Hk. pose proof (rest_len_pos _ _ _ _ Hc).
  destruct k as [|k]; [lia|]. rewrite if_chain_S. unfold c0_fail.
  destruct (wf_token _ _ _ _ Hc) as (tk & r & R & _).
  eapply wp_accept; [exact R| |intros _; cbn [negb]; apply fail_ret; [done|by left]].
  intros ->. cbn [negb]. destruct (wf_next _ _ _ _ _ _ Hc R) as [Hc1 _]; [done|].
  pose proof (moves_next _ _ _ R (wf_reject _ _ _ _ Hc)) as M1.
  pose proof (moves_rest_len _ _ _ _ M1) as L1. cbn [length] in L1.
  eapply wp_call; [apply (expr_sound div shift fs n); [done|lia]|].
  intros [] c2 [Hf|(ts1 & e & Hts & De & Se & M2 & E2 & Hc2)]; [by apply wp_rejected_failed; [|left]|].
  apply wp_rejected; [done|]. pose proof (moves_rest_len _ _ _ _ M2) as L2.
  destruct (wf_token _ _ _ _ Hc2) as (tk2 & r2 & R2 & _).
  eapply wp_accept; [exact R2| |intros _; cbn [negb]; apply fail_ret; [done|by left]].
  intros ->. cbn [negb]. destruct (wf_next _ _ _ _ _ _ Hc2 R2) as [Hc3 _]; [done|].
  pose proof (moves_next _ _ _ R2 (wf_reject _ _ _ _ Hc2)) as M3.
  pose proof (moves_rest_len _ _ _ _ M3) as L3. cbn [length] in L3.
  eapply wp_emit; [done| |intros j c' Hf; by apply wp_rejected_failed; [|left]].
  intros c4 M4 E4 Hc4. apply wp_rejected; [done|].
  pose proof (moves_rest_len _ _ _ _ M4) as L4. cbn [length] in L4.
  pose proof (moves_trans _ _ _ _ _ _ _ (moves_trans _ _ _ _ _ _ _ (moves_trans _ _ _ _ _ _ _ M1 M2) M3) M4) as M04.
  assert (length (cc_code (next c2)) = (length (cc_code c) + size e)%nat) as ->.
  { change (length (cc_code (next c2))) with (length (cc_code c2)).
    rewrite (moves_code_len _ _ _ _ M2), gen_size. done. }
  eapply (chain_block_sound k ends cap c c4 ts1 e); try done; [lia|lia|by rewrite E4| |].
  - eapply moves_eq; [exact M04|by lists|by lists].
  - intros ends' c' cap' Hc' Hl. destruct k as [|k]; [lia|]. rewrite Nat.sub_succ, Nat.sub_0_r.
    apply IH; [lia|done|lia|lia].
Qed.
(** Patching the exits of a chain that starts after [a]. *)
Lemma patch_all_sound (Q : unit -> C0Comp -> Prop) c0 v s : forall c ts a,
  wf c -> length (cc_code c) = v ->
  moves c0 c ts (a ++ gen_chain (cc_locals c) fs (length (cc_code c0) + length a) s 0) ->
  (forall c', moves c0 c' ts (a ++ gen_chain (cc_locals c) fs (length (cc_code c0) + length a) s v) ->
     scope_of c' = scope_of c -> wf c' -> Q tt c') ->
  wp (patch_all (chain_jumps (length (cc_code c0) + length a) s)) Q c.
Proof.
  induction s as [| | | | | | |e s1 _ s2 IH| |]; intros c ts pre Hc Hv M HQ;
    try (apply wp_ret; by eapply HQ; [exact M|done|done]).
  cbn [chain_jumps patch_all gen_chain] in *. set (base := (length (cc_code c0) + length pre)%nat) in *.
  set (je := (base + size e + 1 + size_stmt s1)%nat) in *.
  set (mid := pre ++ gen (cc_locals c) fs base e ++ [jump OP_JUMP_IF_FALSE (je + 1)] ++
    gen_stmt (cc_locals c) fs (base + size e + 1) s1).
  assert (je = length (cc_code c0) + length mid)%nat as Ej.
  { unfold mid. rewrite !length_app, gen_size, gen_stmt_size. cbn [length]. unfold je, base. lia. }
  rewrite Ej. eapply wp_patch.
  { eapply moves_eq; [exact M|reflexivity|]. unfold mid. lists. reflexivity. }
  intros c1 M1 E1 R1 W1. specialize (W1 Hc). cbn [jump op] in M1. rewrite Hv in M1.
  assert (length (cc_code c1) = v) as Hv1.
  { rewrite <- Hv, (moves_code_len _ _ _ _ M1), (moves_code_len _ _ _ _ M). unfold mid.
    rewrite ?length_app. cbn [length]. rewrite ?length_app. cbn [length]. rewrite ?length_app. lia. }
  replace (length (cc_code c0) + length mid + 1)%nat
    with (length (cc_code c0) + length (mid ++ [jump OP_JUMP v]))%nat by (rewrite length_app; cbn [length]; lia).
  assert (length (cc_code c0) + length (mid ++ [jump OP_JUMP v]) = je + 1)%nat as Ej1.
  { rewrite length_app. cbn [length]. lia. }
  apply (IH c1 ts (mid ++ [jump OP_JUMP v])); [done|done| |].
  - rewrite Ej1, (scope_names _ _ E1). eapply moves_eq; [exact M1|done|]. unfold jump. lists. done.
  - intros c2 M2 E2 Hc2. apply HQ; [|congruence|done].
    rewrite Ej1, (scope_names _ _ E1) in M2. eapply moves_eq; [exact M2|done|]. unfold mid. lists. done.
Qed.

Lemma wp_after_skip c0 c s ts (D : list C0Tok -> cstmt -> Prop) :
  wf c -> (forall sc, semi sc -> D (ts ++ sc) s) ->
  scope_stmt fs (scope_of c0) s = Some (scope_of c) ->
  moves c0 c ts (gen_stmt (cc_locals c) fs (length (cc_code c0)) s) ->
  wp skip_semi (fun _ => stmt_post D c0) c.
Proof.
  intros Hc HD S M. apply skip_semi_last; [done|]. intros sc c1 Hsc M1 E1 Hc1.
  eapply stmt_intro; [by apply HD|by rewrite E1| |by rewrite (scope_names _ _ E1)|done].
  eapply moves_eq; [exact (moves_trans _ _ _ _ _ _ _ M M1)|done|]. by rewrite app_nil_r.
Qed.

Lemma stmt_return_sound c tk r : wf c -> (length (rest c) <= n)%nat -> rest c = tk :: r ->
  tk = punct "^" \/ tk = word "return" ->
  wp (stmt_return n) (fun _ => stmt_post (dstmt div shift) c) c.
Proof.
  intros Hc Hn R Htk. unfold stmt_return.
  assert (tk <> tok_eof) as Hne by (by destruct Htk as [->| ->]).
  destruct (wf_next _ _ _ _ _ _ Hc R Hne) as [Hc1 [Hk _]]. eapply wp_bump; [exact R|done|].
  pose proof (moves_next _ _ _ R (wf_reject _ _ _ _ Hc)) as M1.
  pose proof (moves_rest_len _ _ _ _ M1) as L1. cbn [length] in L1.
  apply (expr_unless div shift fs); [done|lia|by left|]. intros c2 ts e Hts De Se M2 E2 Hc2.
  apply skip_semi_sound; [done|]. intros sc c3 Hsc M3 E3 Hc3.
  unfold emit_. eapply wp_emit; [done| |intros j c' Hf; by apply wp_ret; left].
  intros c4 M4 E4 Hc4. apply wp_ret.
  eapply stmt_intro; [exact (D_return div shift tk ts e sc Htk De Hsc)| |
    eapply moves_eq; [exact (moves_trans _ _ _ _ _ _ _ (moves_trans _ _ _ _ _ _ _ (moves_trans _ _ _ _ _ _ _ M1 M2) M3) M4)|by lists|reflexivity]| |done].
  - cbn [scope_stmt]. change (scope_of (next c)) with (scope_of c) in Se. rewrite Se, E4, E3, E2. done.
  - cbn [gen_stmt app]. rewrite app_nil_r, (scope_names c c4) by (by rewrite E4, E3, E2). done.
Qed.

Lemma stmt_if_sound c tk r : wf c -> (length (rest c) <= n)%nat -> rest c = tk :: r ->
  tk = punct "?" \/ tk = word "if" ->
  wp (stmt_if n stmt) (fun _ => stmt_post (dstmt div shift) c) c.
Proof.
  intros Hc Hn R Htk. unfold stmt_if.
  assert (tk <> tok_eof) as Hne by (by destruct Htk as [->| ->]).
  destruct (wf_next _ _ _ _ _ _ Hc R Hne) as [Hc1 [Hk _]]. eapply wp_bump; [exact R|done|].
  pose proof (moves_next _ _ _ R (wf_reject _ _ _ _ Hc)) as M1.
  pose proof (moves_rest_len _ _ _ _ M1) as L1. cbn [length] in L1.
  eapply wp_call; [apply if_chain_sound; [done|lia..]|].
  intros ends c2 [Hf|(ts & s & D & S & M2 & -> & Hc2)]; [by apply failed_unless; [|left]|].
  apply wp_unless; [by eapply wf_reject|]. apply wp_bind. cbn [app].
  rewrite <- (Nat.add_0_r (length (cc_code (next c)))).
  eapply (patch_all_sound _ (next c) (length (cc_code c2)) s c2 ts []); [done|done| |].
  { eapply moves_eq; [exact M2|done|]. cbn [app length]. by rewrite Nat.add_0_r. }
  cbn [app length]. rewrite Nat.add_0_r. intros c3 M3 E3 Hc3.
  assert (length (cc_code c2) = length (cc_code (next c)) + size_stmt s)%nat as Hl.
  { rewrite (moves_code_len _ _ _ _ M2), <- (gen_chain_size (cc_locals c2) fs s (length (cc_code (next c))) 0). done. }
  rewrite Hl, gen_chain_stmt in M3.
  eapply (wp_after_skip c c3 s (tk :: ts)); [done| |by rewrite E3|].
  - intros sc Hsc. by apply D_if.
  - eapply moves_eq; [exact (moves_trans _ _ _ _ _ _ _ M1 M3)|done|]. by rewrite (scope_names _ _ E3).
Qed.
Lemma stmt_while_sound c r : wf c -> (length (rest c) <= n)%nat -> rest c = word "while" :: r ->
  wp (stmt_while n stmt) (fun _ => stmt_post (dstmt div shift) c) c.
Proof.
  intros Hc Hn R. unfold stmt_while. destruct (wf_next _ _ _ _ _ _ Hc R) as [Hc1 _]; [done|].
  eapply wp_bump; [exact R|done|]. pose proof (moves_next _ _ _ R (wf_reject _ _ _ _ Hc)) as M1.
  pose proof (moves_rest_len _ _ _ _ M1) as L1. cbn [length] in L1. apply wp_bind_gets.
  destruct (wf_token _ _ _ _ Hc1) as (tk1 & r1 & R1 & _).
  eapply wp_expect; [eassumption|exact R1| |by left]. intros ->.
  destruct (wf_next _ _ _ _ _ _ Hc1 R1) as [Hc2 _]; [done|]. pose proof (moves_tok _ _ _ _ _ _ M1 R1) as M2.
  pose proof (moves_rest_len _ _ _ _ M2) as L2. cbn [length app] in L2.
  apply (expr_unless div shift fs); [done|lia|by left|]. intros c3 ts1 e Hts De Se M3 E3 Hc3.
  destruct (wf_token _ _ _ _ Hc3) as (tk3 & r3 & R3 & _).
  eapply wp_expect; [eassumption|exact R3| |by left]. intros ->.
  destruct (wf_next _ _ _ _ _ _ Hc3 R3) as [Hc4 _]; [done|].
  pose proof (moves_tok _ _ _ _ _ _ (moves_trans _ _ _ _ _ _ _ M2 M3) R3) as M4.
  pose proof (moves_rest_len _ _ _ _ M4) as L4.
  eapply (emit_unless div shift fs); [done| |by left]. intros c5 M5 E5 Hc5.
  pose proof (moves_rest_len _ _ _ _ M5) as L5. cbn [length] in L5.
  eapply wp_call; [apply block_sound; [done|lia]|]. intros [] c6 Hp.
  eapply wp_unless_or; [exact Hp|by left|]. intros (ts2 & s & D & S & M6 & Hc6).
  split; [by eapply wf_reject|]. apply (wp_emit_unless div shift fs); [done|by left|]. intros c7 M7 E7 Hc7.
  pose proof (moves_trans _ _ _ _ _ _ _ (moves_trans _ _ _ _ _ _ _ (moves_trans _ _ _ _ _ _ _ M4 M5) M6) M7) as M07.
  assert (length (cc_code (next c3)) = length (cc_code c) + size e)%nat as Lj.
  { change (cc_code (next c3)) with (cc_code c3). rewrite (moves_code_len _ _ _ _ M3), gen_size. done. }
  rewrite Lj, <- (gen_size (cc_locals c) fs (length (cc_code c)) e). eapply wp_patch.
  { eapply moves_eq; [exact M07|reflexivity|]. cbn [app]. lists.
    change (cc_locals (next (next c))) with (cc_locals c).
    change (length (cc_code (next (next c)))) with (length (cc_code c)). reflexivity. }
  intros c8 M8 E8 R8 W8. cbn [op] in M8.
  assert (scope_of c5 = scope_of c) as E50 by (rewrite E5; exact E3). rewrite E50 in S.
  assert (scope_of c8 = scope_of c6) as E86 by congruence.
  assert (length (cc_code c5) = length (cc_code c) + size e + 1)%nat as L50.
  { rewrite (moves_code_len _ _ _ _ M5), Lj. reflexivity. }
  eapply (wp_after_skip c c8 (SWhile e s) (word "while" :: punct "(" :: ts1 ++ punct ")" :: ts2)); [by apply W8| | |].
  - intros sc Hsc. cbn [app]. rewrite <- app_assoc. cbn [app]. by apply D_while.
  - cbn [scope_stmt]. change (scope_of (next (next c))) with (scope_of c) in Se. by rewrite Se, E86.
  - eapply moves_eq; [exact M8|by lists|]. cbn [gen_stmt]. rewrite gen_size, gen_stmt_size.
    rewrite (moves_code_len _ _ _ _ M7), (moves_code_len _ _ _ _ M6), gen_stmt_size, L50. cbn [length].
    rewrite (scope_names _ _ E86), (gen_later fs (scope_of c) e (cc_locals c6)) by
      (done || by apply (scope_stmt_prefix _ _ _ _ S)). reflexivity.
Qed.
(** The header's condition could not be emitted: the rest of it is skipped. *)
Lemma for_rest_failed p c : failed c -> wp (for_rest n stmt p) (fun _ c' => failed c') c.
Proof.
  intros Hf. unfold for_rest, expect. destruct (good_rest_cons _ (proj1 Hf)) as (tk & r & R & _).
  eapply wp_accept; [exact R| |].
  - intros ->. pose proof (failed_next _ _ _ Hf R ltac:(done)) as Hf1. apply wp_bind_gets. apply wp_bind_gets.
    destruct (for_close _ _ _) as [q|] eqn:Eq; [|by apply wp_fail; [apply Hf1|]].
    apply for_close_spec in Eq as (k & r2 & E & ->). unfold for_body.
    apply wp_bind. unfold wp at 1, upd. apply wp_bind.
    assert (failed (set_pos (cc_pos (next c) + length k + 1) (next c))) as Hf2.
    { split; [|apply Hf1]. rewrite rest_set_pos. destruct (rest_jump _ _ _ E) as [_ ->].
      eapply good_jump; [apply Hf1|exact E]. }
    eapply wp_mono; [by apply emit_failed|]. intros j c' Hf'. by apply wp_unless_failed.
  - intros _. by apply wp_fail; [apply Hf|].
Qed.

(** The increment, compiled after the body from its place in the header. *)
Lemma for_step_sound c k r :
  wf c -> (length (rest c) <= n)%nat -> rest c = k ++ punct ")" :: r ->
  wp (if (cc_pos c =? cc_pos c + length k)%nat then mret false
      else
        _ ← c0_assign n;
        r ← rejected;
        if r : bool then mret true
        else
          p ← gets cc_pos;
          if (p =? cc_pos c + length k)%nat then mret false
          else _ ← c0_fail "VM_REJ_PARSE"; mret true)
    (fun stop c' => (stop = true /\ failed c') \/ (stop = false /\ exists s,
       dclause div shift k s /\ scope_stmt fs (scope_of c) s = Some (scope_of c') /\
       moves c c' k (gen_stmt (cc_locals c') fs (length (cc_code c)) s) /\ wf c')) c.
Proof.
  intros Hc Hn E. destruct (Nat.eqb_spec (cc_pos c) (cc_pos c + length k)) as [Ek|Ek].
  - apply wp_ret. right. split; [done|]. destruct k as [|tk k]; [|cbn [length] in Ek; lia].
    exists SSkip. split; [constructor|]. split; [done|]. split; [apply moves_refl, Hc|done].
  - eapply wp_call; [by apply (assign_sound div shift fs)|]. intros [] c1 [Hf|(ts & s & D & S & M & Hc1)].
    { by apply wp_rejected_failed; [|left]. }
    apply wp_rejected; [done|]. apply wp_bind_gets.
    destruct (Nat.eqb_spec (cc_pos c1) (cc_pos c + length k)) as [Ep|Ep].
    + apply wp_ret. right. split; [done|]. exists s.
      assert (ts = k) as ->.
      { pose proof (mv_rest _ _ _ _ M) as R. rewrite (mv_pos _ _ _ _ M) in Ep. rewrite E in R.
        assert (length ts = length k) as Hl by lia. symmetry in R. by apply app_inj_1 in R as [-> _]. }
      by split; [constructor|].
    + eapply wp_call; [apply fail_failed, Hc1|]. intros [] c2 [Hf _]. apply wp_ret. by left.
Qed.
(** The code of a loop whose condition is at [top] and ends before [base]. *)
Definition gen_loop (names : list (list Z)) (base : nat) (top : Z) (body step : cstmt) : list VmIns :=
  [jump OP_JUMP_IF_FALSE (base + 1 + size_stmt body + size_stmt step + 1)] ++
  gen_stmt names fs (base + 1) body ++ gen_stmt names fs (base + 1 + size_stmt body) step ++
  [mkIns OP_JUMP top].

Lemma set_pos_wf c p : wf c -> good_rest (drop p (cc_toks c)) -> wf (set_pos p c).
Proof. intros [] Hg. by constructor. Qed.

Lemma set_pos_emits c p : cc_reject c = None -> emits c (set_pos p c) [].
Proof. intros Hr. constructor; try done. by rewrite app_nil_r. Qed.

(** The code of the body and the step, the way it lies behind the condition. *)
Lemma for_code G1 G2 G3 body step base top : scope_stmt fs G1 body = Some G2 -> scope_stmt fs G2 step = Some G3 ->
  mkIns OP_JUMP_IF_FALSE (Z.of_nat (base + 1 + size_stmt body + size_stmt step + 1)) :: gen_stmt (s_names G2) fs (base + 1) body ++
    gen_stmt (s_names G3) fs (base + 1 + size_stmt body) step ++ [mkIns OP_JUMP top] = gen_loop (s_names G3) base top body step.
Proof.
  intros Sb Ss. unfold gen_loop. by rewrite <- (gen_stmt_later _ _ (s_names G3) body _ Sb (scope_stmt_prefix _ _ _ _ Ss)).
Qed.

Lemma for_body_sound top c k r :
  wf c -> (length (rest c) <= n)%nat -> rest c = k ++ punct ")" :: r ->
  wp (for_body n stmt top (cc_pos c) (cc_pos c + length k)) (fun _ c' => failed c' \/
    exists ts step body sc G1, dclause div shift k step /\ dblock div shift ts body /\ semi sc /\
      scope_stmt fs (scope_of c) body = Some G1 /\ scope_stmt fs G1 step = Some (scope_of c') /\
      moves c c' (k ++ punct ")" :: ts ++ sc)
        (gen_loop (cc_locals c') (length (cc_code c)) top body step) /\ wf c') c.
Proof.
  intros Hc Hn E. destruct (rest_jump _ _ _ E) as [_ Er]. pose proof (wf_reject _ _ _ _ Hc) as Hr.
  pose proof (good_jump _ _ _ (wf_rest _ _ _ _ Hc) E) as Gr. unfold for_body.
  apply wp_bind. unfold wp at 1, upd. set (c1 := set_pos _ c).
  assert (wf c1) as Hc1 by (apply set_pos_wf; [done|by rewrite Er]).
  assert (rest c1 = r) as R1 by exact Er.
  assert (length (rest c) = length k + 1 + length r)%nat as Lr by (rewrite E, length_app; cbn [length]; lia).
  eapply (emit_unless div shift fs); [done| |by left]. intros c2 M2 E2 Hc2.
  pose proof (moves_rest_len _ _ _ _ M2) as L2. rewrite R1 in L2. cbn [length] in L2.
  eapply wp_call; [apply block_sound; [done|lia]|]. intros [] c3 Hp.
  eapply wp_unless_or; [exact Hp|by left|]. intros (ts & body & Db & Sb & M3 & Hc3).
  split; [by eapply wf_reject|]. apply wp_bind_gets. apply wp_bind. unfold wp at 1, upd.
  set (c4 := set_pos (cc_pos c) c3).
  pose proof (moves_trans _ _ _ _ _ _ _ M2 M3) as M13. cbn [app] in M13.
  assert (rest c4 = rest c) as R4.
  { unfold c4. rewrite rest_set_pos, (mv_toks _ _ _ _ M13). done. }
  assert (wf c4) as Hc4 by (apply set_pos_wf; [done|rewrite (mv_toks _ _ _ _ M13); apply Hc]).
  eapply wp_call; [apply (for_step_sound c4 k r); [done|by rewrite R4|by rewrite R4]|].
  intros stop c5 [[-> Hf]|[-> (step & Ds & Ss & M5 & Hc5)]]; [by apply wp_ret; left|].
  apply wp_bind. unfold wp at 1, upd. set (c6 := set_pos (cc_pos c3) c5).
  assert (emits c1 c6 (mkIns OP_JUMP_IF_FALSE 0 :: gen_stmt (cc_locals c3) fs (length (cc_code c2)) body ++
    gen_stmt (cc_locals c5) fs (length (cc_code c4)) step)) as Em.
  { apply emits_pos. eapply (emits_trans c1 c4 c5 (_ :: _)); [apply emits_pos; by eapply moves_emits|by eapply moves_emits]. }
  assert (rest c6 = rest c3) as R6.
  { pose proof (em_toks _ _ _ Em) as Et. unfold rest. rewrite Et, <- (mv_toks _ _ _ _ M13). done. }
  assert (moves c1 c6 ts (mkIns OP_JUMP_IF_FALSE 0 :: gen_stmt (cc_locals c3) fs (length (cc_code c2)) body ++
    gen_stmt (cc_locals c5) fs (length (cc_code c4)) step)) as M6.
  { apply emits_moves; [done|exact (mv_pos _ _ _ _ M13)|rewrite R6; exact (mv_rest _ _ _ _ M13)]. }
  assert (wf c6) as Hc6.
  { apply set_pos_wf; [done|]. change (good_rest (rest c6)). rewrite R6. apply Hc3. }
  apply (wp_emit_unless div shift fs); [done|by left|]. intros c7 M7 E7 Hc7.
  pose proof (moves_trans _ _ _ _ _ _ _ M6 M7) as M17. rewrite <- (Nat.add_0_r (length (cc_code c1))).
  eapply (wp_patch div shift fs _ _ c7 c1 _ []).
  { eapply moves_eq; [exact M17|by rewrite app_nil_r|]. lists. reflexivity. }
  intros c8 M8 E8 R8 W8. specialize (W8 Hc7). cbn [op app] in M8.
  apply skip_semi_last; [done|]. intros sc c9 Hsc M9 E9 Hc9. right.
  pose proof (moves_trans _ _ _ _ _ _ _ M8 M9) as M19.
  exists ts, step, body, sc, (scope_of c3).
  assert (scope_of c9 = scope_of c5) as E95 by (rewrite E9, E8, E7; done).
  split; [done|]. split; [done|]. split; [done|]. split; [by rewrite <- Sb, E2|].
  split; [by rewrite E95|]. split; [|done].
  apply emits_moves.
  - pose proof (emits_trans _ _ _ _ _ (set_pos_emits c _ Hr) (moves_emits _ _ _ _ M19)) as Em9.
    cbn [app] in Em9. eapply emits_eq; [exact Em9|]. rewrite app_nil_r.
    assert (length (cc_code c2) = length (cc_code c) + 1)%nat as Lc2 by (rewrite (moves_code_len _ _ _ _ M2); done).
    assert (length (cc_code c4) = length (cc_code c) + 1 + size_stmt body)%nat as Lc4.
    { change (cc_code c4) with (cc_code c3). by rewrite (moves_code_len _ _ _ _ M3), gen_stmt_size, Lc2. }
    assert (length (cc_code c7) = length (cc_code c) + 1 + size_stmt body + size_stmt step + 1)%nat as ->.
    { rewrite (moves_code_len _ _ _ _ M7), (moves_code_len _ _ _ _ M6). cbn [length]. rewrite length_app, !gen_stmt_size.
      change (length (cc_code c1)) with (length (cc_code c)). lia. }
    rewrite Lc2, Lc4, (scope_names _ _ E95). exact (for_code _ (scope_of c3) (scope_of c5) body step _ top Sb Ss).
  - rewrite (mv_pos _ _ _ _ M19). cbn [set_pos cc_pos c1]. rewrite !length_app. cbn [length]. rewrite length_app. lia.
  - rewrite E, <- R1, (mv_rest _ _ _ _ M19). lists. done.
Qed.
(** The part of a for loop from its second semicolon; [c0] is before the [for]. *)
Lemma for_rest_sound c0 c ts1 ts2 init cond G1 :
  wf c0 -> wf c -> (length (rest c) <= n)%nat ->
  dclause div shift ts1 init -> dcond div shift ts2 cond ->
  scope_stmt fs (scope_of c0) init = Some G1 -> scope_expr fs G1 cond = true -> scope_of c = G1 ->
  moves c0 c (word "for" :: punct "(" :: ts1 ++ punct ";" :: ts2)
    (gen_stmt (s_names G1) fs (length (cc_code c0)) init ++
     gen (s_names G1) fs (length (cc_code c0) + size_stmt init) cond) ->
  wp (for_rest n stmt (Z.of_nat (length (cc_code c0) + size_stmt init)))
    (fun _ => stmt_post (dstmt div shift) c0) c.
Proof.
  intros Hc0 Hc Hn D1 D2 Si Sc E M. unfold for_rest.
  destruct (wf_token _ _ _ _ Hc) as (tk & r & R & _).
  eapply wp_expect; [eassumption|exact R| |by left]. intros ->.
  destruct (wf_next _ _ _ _ _ _ Hc R) as [Hc1 _]; [done|]. pose proof (moves_tok _ _ _ _ _ _ M R) as M1.
  pose proof (moves_rest_len _ _ _ _ (moves_next _ _ _ R (wf_reject _ _ _ _ Hc))) as L1. cbn [length] in L1.
  apply wp_bind_gets, wp_bind_gets.
  destruct (for_close _ _ _) as [p|] eqn:Ep; [|apply stmt_fail, Hc1].
  apply for_close_spec in Ep as (k & r2 & E2 & ->).
  eapply wp_mono; [eapply (for_body_sound _ (next c) k r2); [done|lia|exact E2]|].
  intros [] c' [Hf|(ts4 & step & body & sc & G2 & D3 & D4 & Hsc & Sb & Ss & M2 & Hc')]; [by left|].
  change (scope_of (next c)) with (scope_of c) in Sb. rewrite E in Sb.
  pose proof (scope_stmt_prefix _ _ _ _ Sb) as P1. pose proof (scope_stmt_prefix _ _ _ _ Ss) as P2.
  eapply stmt_intro; [exact (D_for div shift ts1 ts2 k ts4 init cond step body sc D1 D2 D3 D4 Hsc)| |
    eapply moves_eq; [exact (moves_trans _ _ _ _ _ _ _ M1 M2)|by lists|reflexivity]| |done].
  - cbn [scope_stmt]. rewrite Si. cbn [mbind option_bind]. by rewrite Sc, Sb.
  - cbn [gen_stmt]. rewrite !gen_stmt_size, !gen_size, ?gen_stmt_size.
    change (cc_code (next c)) with (cc_code c).
    assert (length (cc_code c) = length (cc_code c0) + size_stmt init + size cond)%nat as ->.
    { rewrite (moves_code_len _ _ _ _ M), length_app, gen_stmt_size, gen_size. lia. }
    rewrite (gen_stmt_later _ _ (cc_locals c') init _ Si) by (eapply prefix_trans; [exact P1|exact P2]).
    rewrite (gen_later fs G1 cond (cc_locals c')) by (done || by eapply prefix_trans; [exact P1|exact P2]).
    unfold gen_loop, jump. lists. done.
Qed.

Lemma stmt_for_sound c r : wf c -> (length (rest c) <= n)%nat -> rest c = word "for" :: r ->
  wp (stmt_for n stmt) (fun _ => stmt_post (dstmt div shift) c) c.
Proof.
  intros Hc Hn R. unfold stmt_for. destruct (wf_next _ _ _ _ _ _ Hc R) as [Hc1 _]; [done|].
  eapply wp_bump; [exact R|done|]. pose proof (moves_next _ _ _ R (wf_reject _ _ _ _ Hc)) as M1.
  destruct (wf_token _ _ _ _ Hc1) as (tk1 & r1 & R1 & _).
  eapply wp_expect; [eassumption|exact R1| |by left]. intros ->.
  destruct (wf_next _ _ _ _ _ _ Hc1 R1) as [Hc2 _]; [done|]. pose proof (moves_tok _ _ _ _ _ _ M1 R1) as M2.
  pose proof (moves_rest_len _ _ _ _ M2) as L2. cbn [length app] in L2, M2.
  destruct (wf_token _ _ _ _ Hc2) as (tk2 & r2 & R2 & _). eapply wp_at_punct; [exact R2|].
  eapply (wp_call _ _ (fun _ c3 => failed c3 \/ exists ts1 init, dclause div shift ts1 init /\
    scope_stmt fs (scope_of c) init = Some (scope_of c3) /\
    moves (next (next c)) c3 ts1 (gen_stmt (cc_locals c3) fs (length (cc_code c)) init) /\ wf c3)).
  { destruct (is_punct ";" tk2).
    - apply wp_ret. right. exists [], SSkip. split; [constructor|]. split; [done|].
      split; [apply moves_refl, Hc2|done].
    - eapply wp_mono; [apply (assign_sound div shift fs n); [done|lia]|].
      intros [] c3 [Hf|(ts & s & D & S & M & Hc3)]; [by left|right]. exists ts, s. by split; [constructor|]. }
  intros [] c3 Hp. eapply wp_unless_or; [exact Hp|by left|]. intros (ts1 & init & D1 & Si & M3 & Hc3).
  split; [by eapply wf_reject|]. destruct (wf_token _ _ _ _ Hc3) as (tk3 & r3 & R3 & _).
  eapply wp_expect; [eassumption|exact R3| |by left]. intros ->.
  destruct (wf_next _ _ _ _ _ _ Hc3 R3) as [Hc4 _]; [done|].
  pose proof (moves_tok _ _ _ _ _ _ (moves_trans _ _ _ _ _ _ _ M2 M3) R3) as M4.
  pose proof (moves_rest_len _ _ _ _ M4) as L4. apply wp_bind_gets.
  change (cc_code (next c3)) with (cc_code c3).
  assert (length (cc_code c3) = length (cc_code c) + size_stmt init)%nat as Lc3.
  { rewrite (moves_code_len _ _ _ _ M3), gen_stmt_size. done. }
  rewrite Lc3. destruct (wf_token _ _ _ _ Hc4) as (tk4 & r4 & R4 & _). eapply wp_at_punct; [exact R4|].
  destruct (is_punct ";" tk4).
  - unfold emit_. apply wp_bind. eapply wp_emit; [done| |].
    + intros c5 M5 E5 Hc5. apply wp_ret.
      pose proof (moves_rest_len _ _ _ _ M5) as L5. cbn [length] in L5.
      eapply (for_rest_sound c c5 ts1 [] init (XNum 1) (scope_of c3)); try done; [lia|constructor|].
      eapply moves_eq; [exact (moves_trans _ _ _ _ _ _ _ M4 M5)|by lists|done].
    + intros j c5 Hf. apply wp_ret. eapply wp_mono; [by apply for_rest_failed|by left].
  - apply (expr_unless div shift fs); [done|lia|by left|]. intros c5 ts2 cond Hts2 D2 Sc M5 E5 Hc5.
    pose proof (moves_rest_len _ _ _ _ M5) as L5.
    eapply (for_rest_sound c c5 ts1 ts2 init cond (scope_of c3)); try done; [lia|by constructor|].
    eapply moves_eq; [exact (moves_trans _ _ _ _ _ _ _ M4 M5)|by lists|].
    change (cc_code (next c3)) with (cc_code c3). rewrite Lc3. done.
Qed.

Lemma stmt_step_sound c : wf c -> (length (rest c) <= n)%nat ->
  wp (stmt_step n stmt) (fun _ => stmt_post (dstmt div shift) c) c.
Proof.
  intros Hc Hn. unfold stmt_step. destruct (wf_token _ _ _ _ Hc) as (tk & r & R & _).
  eapply wp_accept; [exact R| |].
  - intros ->. destruct (wf_next _ _ _ _ _ _ Hc R) as [Hc1 _]; [done|]. apply wp_ret.
    eapply stmt_intro; [apply D_skip|done|eapply moves_next; [exact R|apply Hc]|done|done].
  - intros _. eapply wp_peek; [exact R|].
    destruct (is_punct "^" tk || is_word "return" tk) eqn:E1.
    { apply orb_true_iff in E1. rewrite is_punct_eq, is_word_eq in E1. by eapply stmt_return_sound. }
    destruct (is_punct "?" tk || is_word "if" tk) eqn:E2.
    { apply orb_true_iff in E2. rewrite is_punct_eq, is_word_eq in E2. by eapply stmt_if_sound. }
    destruct (is_word "while" tk) eqn:E3; [apply is_word_eq in E3 as ->; by eapply stmt_while_sound|].
    destruct (is_word "for" tk) eqn:E4; [apply is_word_eq in E4 as ->; by eapply stmt_for_sound|].
    unfold stmt_other. eapply wp_at_punct; [exact R|]. destruct (is_punct "#" tk); [apply stmt_fail, Hc|].
    eapply wp_call; [by apply (assign_sound div shift fs n)|]. intros [] c1 Hp.
    eapply wp_unless_or; [exact Hp|by left|]. intros (ts & s & D & S & M & Hc1). split; [by eapply wf_reject|].
    destruct (wf_token _ _ _ _ Hc1) as (tk1 & r1 & R1 & _).
    eapply wp_expect; [eassumption|exact R1| |by left]. intros ->.
    destruct (wf_next _ _ _ _ _ _ Hc1 R1) as [Hc2 _]; [done|]. apply wp_ret.
    eapply stmt_intro; [by apply D_assignment|exact S|exact (moves_tok _ _ _ _ _ _ M R1)|done|done].
Qed.
End Fuel.

Lemma stmt_sound fuel : forall c, wf c -> (length (rest c) <= fuel)%nat ->
  wp (c0_stmt fuel) (fun _ => stmt_post (dstmt div shift) c) c.
Proof.
  induction fuel as [|fuel IH]; intros c Hc Hn; [pose proof (rest_len_pos _ _ _ _ Hc); lia|].
  cbn [c0_stmt]. apply stmt_step_sound; [|done|done]. intros c' Hc' Hn'. apply IH; [done|lia].
Qed.

(** The whole body: the statements up to the end of the tokens. *)
Lemma body_sound n k : forall c, wf c -> (length (rest c) <= n)%nat -> (length (rest c) <= k)%nat ->
  wp (body_loop n k) (fun _ c' => failed c' \/ exists ts s,
    dstmts div shift ts s /\ scope_stmt fs (scope_of c) s = Some (scope_of c') /\
    moves c c' ts (gen_stmt (cc_locals c') fs (length (cc_code c)) s) /\ wf c' /\ rest c' = [tok_eof]) c.
Proof.
  induction k as [|k IH]; intros c Hc Hn Hk; [pose proof (rest_len_pos _ _ _ _ Hc); lia|].
  cbn [body_loop]. destruct (wf_token _ _ _ _ Hc) as (tk & r & R & Htk). eapply wp_peek; [exact R|].
  apply wp_rejected; [done|]. rewrite orb_false_r. destruct (is_kind C0_TK_EOF tk) eqn:Ek.
  { apply wp_ret. right. exists [], SSkip. split; [constructor|]. split; [done|].
    split; [apply moves_refl, Hc|]. split; [done|].
    destruct Htk as [[-> ->]|[[Hg _] _]]; [done|by apply is_kind_eq in Ek]. }
  destruct Htk as [[-> _]|[Hg Hcn]]; [done|].
  eapply wp_call; [by apply stmt_sound|]. intros [] c1 [Hf|(ts & s & D & S & M & Hc1)].
  - destruct k as [|k].
    { exfalso. pose proof (rest_len_pos _ _ _ _ Hcn) as L. rewrite (rest_next _ _ _ R) in L.
      rewrite R in Hk. cbn [length] in Hk. lia. }
    cbn [body_loop]. destruct (good_rest_cons _ (proj1 Hf)) as (tk1 & r1 & R1 & _). eapply wp_peek; [exact R1|].
    apply wp_bind_gets. destruct (cc_reject c1) eqn:Er; [|by destruct Hf].
    cbn [is_some]. rewrite orb_true_r. by apply wp_ret; left.
  - pose proof (moves_rest_len _ _ _ _ M) as L. pose proof (ts_nonempty _ (dstmt_nonempty _ _ D)).
    eapply wp_mono; [apply IH; [done|lia..]|].
    intros [] c' [Hf|(ts2 & s2 & D2 & S2 & M2 & Hc' & R2)]; [by left|right].
    exists (ts ++ ts2), (SSeq s s2). split; [by constructor|].
    split; [cbn [scope_stmt]; by rewrite S|]. split; [|done].
    eapply moves_eq; [exact (moves_trans _ _ _ _ _ _ _ M M2)|done|]. cbn [gen_stmt].
    rewrite (moves_code_len _ _ _ _ M), (gen_stmt_later _ _ _ _ _ S (scope_stmt_prefix _ _ _ _ S2)). done.
Qed.
End Flow.
