(* ===== verification/C0LexSpec.v ===== *)
(** * The lexical grammar of C0 and what the tokenizer and the numerals decide *)
From stdpp Require Import strings.
From S2P Require Import Prelude Common Sys C0Lex C0Comp C0Lang C0Sound.

(** ** Memory *)

(** Whether some allocation of the environment fails. *)
Definition mem_ok {A} `{Env} (Q : A -> Prop) (r : mres A) : Prop :=
  match r with
  | Val x _ => Q x
  | Null _ => alloc_failed
  | MStuck => False
  end.

Lemma mem_bind {A B} `{Env} (f : Mem A) (k : A -> Mem B) (R : A -> Prop) Q m :
  mem_ok R (f m) -> (forall x m, R x -> mem_ok Q (k x m)) -> mem_ok Q ((f ≫= k) m).
Proof. unfold mbind, Mem_bind. destruct (f m) as [x m'| |]; cbn; auto. Qed.

Lemma mem_weaken {A} `{Env} (R Q : A -> Prop) r : mem_ok R r -> (forall x, R x -> Q x) -> mem_ok Q r.
Proof. destruct r; cbn; auto. Qed.

Section Alloc.
Context `{Env}.

Lemma malloc_failed m m' : c0_malloc m = (false, m') -> alloc_failed.
Proof. intros [= Hf _]. by eexists. Qed.

Lemma chunk_failed n m m' : c0_chunk_new n m = (false, m') -> alloc_failed.
Proof. unfold c0_chunk_new, c0_malloc. destruct (alloc_ok (m_clock m)) eqn:E; [done|]. intros _. by eexists. Qed.

Lemma arena_failed n m m' : c0_arena_alloc n m = (false, m') -> alloc_failed.
Proof.
  unfold c0_arena_alloc. destruct (m_cap m <? _); [|done].
  destruct (c0_chunk_new (aligned n) m) as [[] m1] eqn:E; [done|]. intros _. by eapply chunk_failed.
Qed.

Lemma alloc_mem f m : (forall m', f m = (false, m') -> alloc_failed) -> mem_ok (fun _ => True) (alloc_or_null f m).
Proof. unfold alloc_or_null. destruct (f m) as [[] m']; cbn; eauto. Qed.

Lemma malloc_mem m : mem_ok (fun _ => True) (alloc_or_null c0_malloc m).
Proof. apply alloc_mem. intros m'. apply malloc_failed. Qed.
Lemma arena_mem n m : mem_ok (fun _ => True) (alloc_or_null (c0_arena_alloc n) m).
Proof. apply alloc_mem. intros m'. apply arena_failed. Qed.

Lemma strdup_mem s m : mem_ok (fun t => t = strz s) (strdup_or_null s m).
Proof.
  unfold strdup_or_null, c0_arena_strdup_n. destruct (c0_arena_alloc _ m) as [[] m'] eqn:E; cbn; [done|].
  by eapply arena_failed.
Qed.

Lemma reserve_mem first n cap m : mem_ok (fun _ => True) (reserve_or_null first n cap m).
Proof.
  unfold reserve_or_null. destruct (n =? cap)%nat; [|done].
  eapply mem_bind; [apply malloc_mem|]. done.
Qed.
End Alloc.

(** ** Tokens *)

(** A string literal: its quotes, and between them characters other than a
    quote, a backslash taking the next character with it; or an unclosed one. *)
Inductive string_body : list Z -> Prop :=
| SB_nil : string_body []
| SB_char c l : c <> 34 -> c <> 92 -> string_body l -> string_body (c :: l)
| SB_escape c l : string_body l -> string_body (92 :: c :: l).

Inductive string_token : list Z -> list Z -> Prop :=
| ST_closed l k : string_body l -> string_token (34 :: l ++ [34]) k
| ST_open l : string_body l -> string_token (34 :: l) []
| ST_open_backslash l : string_body l -> string_token (34 :: l ++ [92]) [].

Definition stops (P : Z -> bool) (k : list Z) : Prop := forall c, head k = Some c -> P c = false.

(** [lexes l ts]: the tokens of a text; runs are maximal. *)
Inductive lexes : list Z -> list C0Tok -> Prop :=
| X_end : lexes [] [tok_eof]
| X_space c k ts : c0_is_space c = true -> lexes k ts -> lexes (c :: k) ts
| X_comment l k ts : Forall (fun c => c <> 10) l -> stops (fun c => negb (c =? 10)) k -> lexes k ts ->
    lexes (47 :: 47 :: l ++ k) ts
| X_string s k ts : string_token s k -> lexes k ts -> lexes (s ++ k) (mkTok C0_TK_STR s :: ts)
| X_number s k ts : s <> [] -> forallb (in_range 48 57) s = true -> stops (in_range 48 57) k ->
    lexes k ts -> lexes (s ++ k) (mkTok C0_TK_NUMBER s :: ts)
| X_ident c s k ts : c0_is_ident_start c = true -> forallb c0_is_ident_part s = true ->
    stops c0_is_ident_part k -> lexes k ts -> lexes (c :: s ++ k) (ident (c :: s) :: ts)
| X_two s k ts : s ∈ TWO -> lexes k ts -> lexes (s ++ k) (mkTok C0_TK_PUNCT s :: ts)
| X_one c k ts : c0_is_space c = false -> c <> 34 -> in_range 48 57 c = false ->
    c0_is_ident_start c = false -> (forall s, s ∈ cstr "//" :: TWO -> take 2 (c :: k) <> s) ->
    lexes k ts -> lexes (c :: k) (mkTok C0_TK_PUNCT [c] :: ts).

Lemma run_length_stops P l : stops P (drop (run_length P l) l).
Proof.
  induction l as [|c l IH]; cbn [run_length]; [done|]. destruct (P c) eqn:E; [exact IH|].
  intros d [= <-]. done.
Qed.

Lemma take_drop_eq (n : nat) (l : list Z) : l = take n l ++ drop n l.
Proof. by rewrite take_drop. Qed.

(** The body of a string up to its closing quote or the end. *)
Lemma str_run_spec l : exists b,
  string_body b /\
  ((l = b ++ drop (str_run l) l /\ take (str_run l) l = b /\ (str_run l <= length l)%nat /\
    (drop (str_run l) l = [] \/ head (drop (str_run l) l) = Some 34)) \/
   (l = b ++ [92] /\ str_run l = length l)).
Proof.
  induction l as [l IH] using (induction_ltof1 _ (@length Z)). unfold ltof in IH.
  destruct l as [|c l]; [exists []; split; [constructor|left; auto]|]. cbn [str_run].
  destruct (Z.eqb_spec c 34) as [->|Hq]; [exists []; split; [constructor|left; repeat split; auto; simpl; lia]|].
  destruct (Z.eqb_spec c 92) as [->|Hb].
  - destruct l as [|d l]; [exists []; split; [constructor|by right]|].
    destruct (IH l ltac:(simpl; lia)) as (b & Hbody & [(E & Et & Hl & Hd)|(E & Hl)]); exists (92 :: d :: b).
    + split; [by constructor|]. left. cbn [drop take length]. rewrite Et. split; [by rewrite E at 1|].
      split; [done|]. split; [lia|done].
    + split; [by constructor|]. right. cbn [length]. rewrite Hl. by rewrite E at 1.
  - destruct (IH l ltac:(simpl; lia)) as (b & Hbody & [(E & Et & Hl & Hd)|(E & Hl)]); exists (c :: b).
    + split; [by constructor|]. left. cbn [drop take length]. rewrite Et. split; [by rewrite E at 1|].
      split; [done|]. split; [lia|done].
    + split; [by constructor|]. right. cbn [length]. rewrite Hl. by rewrite E at 1.
Qed.

Lemma lex_string (l : list Z) : exists n : nat, lex_one (34 :: l) = (n, Some (mkTok C0_TK_STR (take n (34%Z :: l)))) /\
  (1 <= n <= length (34%Z :: l))%nat /\ string_token (take n (34%Z :: l)) (drop n (34%Z :: l)).
Proof.
  unfold lex_one. cbn [c0_is_space Z.eqb orb andb]. change (c0_is_space 34) with false. cbn iota.
  change ((34 =? 47) && bool_decide (head l = Some 47)) with false. cbn iota.
  change (34 =? 34) with true. cbn iota. eexists. split; [reflexivity|].
  destruct (str_run_spec l) as (b & Hb & [(E & Et & Hl & Hd)|(E & Hl)]).
  - destruct (Nat.ltb_spec (1 + str_run l) (length (34 :: l))) as [Hlt|Hge]; cbn [length] in *.
    + destruct Hd as [Hd|Hd].
      { apply (f_equal length) in Hd. rewrite length_drop in Hd. cbn [length] in Hd. lia. }
      destruct (drop (str_run l) l) as [|q k] eqn:Ek; [done|]. injection Hd as ->.
      assert (str_run l = length b) as Hlb by (subst b; rewrite length_take; lia).
      split; [lia|]. cbn [Nat.add take drop]. rewrite Hlb, E, <- (Nat.add_1_r (length b)).
      rewrite take_app_add, drop_app_add. cbn [take drop]. by constructor.
    + split; [lia|]. cbn [Nat.add take drop]. rewrite Et. rewrite drop_ge by lia. by constructor.
  - assert (length l = length b + 1)%nat as El by (rewrite E, length_app; done).
    rewrite Hl. destruct (Nat.ltb_spec (1 + length l) (length (34 :: l))) as [Hlt|Hge]; cbn [length] in *; [lia|].
    split; [lia|]. cbn [Nat.add take drop]. rewrite take_ge, drop_ge by lia. subst l. by constructor.
Qed.

Lemma run_pos P c l : P c = true -> (1 <= run_length P (c :: l) <= length (c :: l))%nat.
Proof. intros Hc. pose proof (run_length_le P (c :: l)) as Hl. cbn [run_length] in *. rewrite Hc in *. lia. Qed.

Lemma TWO_length s : s ∈ TWO -> length s = 2%nat.
Proof.
  intros Hs. apply list_elem_of_In in Hs. cbn in Hs. by destruct_or! Hs; subst.
Qed.

(** One turn of the tokenizer is one rule of the grammar. *)
Lemma lex_one_spec (l : list Z) (n : nat) t : l <> [] -> lex_one l = (n, t) ->
  (1 <= n <= length l)%nat /\
  forall ts, lexes (drop n l) ts -> lexes l (match t with Some t => t :: ts | None => ts end).
Proof.
  destruct l as [|c l]; [done|]. intros _ E.
  destruct (Z.eq_dec c 34) as [->|Hq].
  { destruct (lex_string l) as (n' & E' & Hn & Hs). rewrite E in E'. injection E' as -> ->.
    split; [done|]. intros ts Hk. rewrite (take_drop_eq n' (34 :: l)) at 1. by constructor. }
  unfold lex_one in E.
  destruct (c0_is_space c) eqn:Es.
  { injection E as <- <-. split; [cbn [length]; lia|]. intros ts Hk. by constructor. }
  destruct ((c =? 47) && bool_decide (head l = Some 47)) eqn:Ec.
  { injection E as <- <-. to_prop. subst c. destruct l as [|d l]; [done|]. injection H0 as ->.
    pose proof (run_pos (fun d => negb (d =? 10)) 47 (47 :: l) eq_refl). split; [done|].
    intros ts Hk. cbn [run_length Z.eqb negb drop] in *.
    change (run_length (fun d => negb (d =? 10)) (47 :: 47 :: l)) with (S (S (run_length (fun d => negb (d =? 10)) l))) in Hk.
    cbn [drop] in Hk. rewrite (take_drop_eq (run_length (fun d => negb (d =? 10)) l) l). constructor; [|apply run_length_stops|done].
    pose proof (run_length_take (fun d => negb (d =? 10)) l) as Hf.
    apply Forall_forall. intros z Hz. apply List.forallb_forall with (x := z) in Hf; [|done]. by to_prop. }
  destruct (Z.eqb_spec c 34) as [|_]; [done|].
  destruct (in_range 48 57 c) eqn:Ed.
  { injection E as <- <-. pose proof (run_pos _ c l Ed) as Hn. split; [done|]. intros ts Hk.
    rewrite (take_drop_eq (run_length (in_range 48 57) (c :: l)) (c :: l)) at 1.
    apply (X_number (take (run_length (in_range 48 57) (c :: l)) (c :: l)));
      [|apply run_length_take|apply run_length_stops|done].
    intros E. apply (f_equal length) in E. rewrite length_take in E. cbn [length] in *. lia. }
  destruct (c0_is_ident_start c) eqn:Ei.
  { injection E as <- <-. assert (c0_is_ident_part c = true) as Hp by (unfold c0_is_ident_part; by rewrite Ei).
    pose proof (run_pos _ c l Hp) as Hn. split; [done|]. intros ts Hk. cbn [run_length] in *. rewrite Hp in *.
    cbn [take drop] in *. rewrite (take_drop_eq (run_length c0_is_ident_part l) l) at 1.
    constructor; [done|apply run_length_take|apply run_length_stops|done]. }
  destruct (existsb (bytes_eqb (take 2 (c :: l))) TWO) eqn:Et.
  { injection E as <- <-. apply List.existsb_exists in Et as (s & Hs & Hb). apply bytes_eqb_eq in Hb.
    apply list_elem_of_In in Hs. pose proof (TWO_length _ Hs) as Hl. rewrite <- Hb in Hs, Hl.
    split; [rewrite length_take in Hl; lia|]. intros ts Hk.
    rewrite (take_drop_eq 2 (c :: l)) at 1. by constructor. }
  injection E as <- <-. split; [cbn [length]; lia|]. intros ts Hk. apply X_one; try done.
  intros s Hs E. apply list_elem_of_In in Hs. destruct Hs as [<-|Hs].
  - destruct l as [|d l]; [done|]. cbn in E. injection E as -> ->. done.
  - assert (existsb (bytes_eqb (take 2 (c :: l))) TWO = true) as Ht; [|congruence].
    apply List.existsb_exists. exists s. split; [done|]. rewrite E. apply bytes_eqb_refl.
Qed.

Section Tokenize.
Context `{Env}.

Lemma append_mem t out cap m : mem_ok (fun r => r.1 = out ++ [t]) (tok_append t out cap m).
Proof. unfold tok_append. eapply mem_bind; [apply reserve_mem|]. done. Qed.

Lemma tokenize_loop_spec fuel : forall l out cap m, (length l < fuel)%nat ->
  mem_ok (fun ts => exists k, ts = out ++ k /\ lexes l k) (tokenize_loop fuel l out cap m).
Proof.
  induction fuel as [|fuel IH]; intros l out cap m Hf; [lia|]. cbn [tokenize_loop].
  destruct l as [|c l].
  - eapply mem_bind; [apply append_mem|]. intros [ts cap'] m'. cbn. intros ->. exists [tok_eof]. split; [done|constructor].
  - destruct (lex_one (c :: l)) as [n t] eqn:E. apply lex_one_spec in E as [Hn Hl]; [|done].
    assert (length (drop n (c :: l)) < fuel)%nat as Hd by (rewrite length_drop; lia).
    destruct t as [t|].
    + eapply mem_bind; [apply append_mem|]. intros [ts cap'] m'. cbn. intros ->.
      eapply mem_weaken; [by apply IH|].
      intros ts (k & -> & Hk). exists (t :: k). split; [by rewrite <- app_assoc|by apply Hl].
    + eapply mem_weaken; [by apply IH|]. intros ts (k & -> & Hk). exists k. split; [done|by apply Hl].
Qed.

Lemma c0_tokenize_mem src m : mem_ok (lexes src) (c0_tokenize src m).
Proof.
  eapply mem_weaken; [apply tokenize_loop_spec; lia|]. by intros ts (k & -> & Hk).
Qed.
End Tokenize.

(** ** What the compiler needs of tokens *)

Lemma strz_id l : Forall (fun c => c <> 0) l -> strz l = l.
Proof.
  unfold strz. induction 1 as [|c l Hc Hl IH]; [done|]. cbn [run_length].
  destruct (Z.eqb_spec c 0); [done|]. cbn [negb take]. by f_equal.
Qed.

Lemma strz_nonzero l : Forall (fun c => c <> 0) (strz l).
Proof.
  unfold strz. induction l as [|c l IH]; [constructor|]. cbn [run_length].
  destruct (Z.eqb_spec c 0); [constructor|]. cbn [negb take]. by constructor.
Qed.

Lemma strz_strz l : strz (strz l) = strz l.
Proof. apply strz_id, strz_nonzero. Qed.

Lemma ident_part_nonzero s : forallb c0_is_ident_part s = true -> Forall (fun c => c <> 0) s.
Proof.
  intros Hs. apply Forall_forall. intros c Hc ->. apply List.forallb_forall with (x := 0) in Hs; [|done]. done.
Qed.

Lemma lexes_good l ts : lexes l ts -> good_rest ts.
Proof.
  assert (forall t ts, good_tok t -> good_rest ts -> good_rest (t :: ts)) as Hcons.
  { intros t ts' Ht (k & -> & Hk). exists (t :: k). split; [done|by constructor]. }
  induction 1; auto; try (apply Hcons; [split; [done|by intros [=]]|done]).
  - by exists [].
  - apply Hcons; [|done]. split; [done|]. intros _. change (strz (c :: s) = c :: s).
    apply strz_id, ident_part_nonzero. cbn [forallb]. unfold c0_is_ident_part at 1. by rewrite H.
Qed.

(** ** Numerals *)

(** The value of a string of digits. *)
Definition digits_val (t : list Z) : Z := fold_left (fun a c => a * 10 + (c - 48)) t 0.
Definition is_digits (t : list Z) : bool := forallb (in_range 48 57) t.

Lemma fold_digits_ge t : forall a, is_digits t = true -> 0 <= a -> a <= fold_left (fun a c => a * 10 + (c - 48)) t a.
Proof.
  induction t as [|c t IH]; intros a Ht Ha; cbn [fold_left]; [lia|]. cbn [is_digits forallb] in Ht.
  apply andb_true_iff in Ht as [Hc Ht]. unfold in_range in Hc. to_prop.
  etrans; [|apply IH; [done|lia]]. lia.
Qed.

(** Digits are accumulated exactly, and given up exactly when too many. *)
Lemma i64_digits_spec M t : 10 <= M <= INT64_MAX + 1 -> forall acc seen, 0 <= acc <= M ->
  i64_digits M acc seen t =
    if is_digits t && (fold_left (fun a c => a * 10 + (c - 48)) t acc <=? M)
    then Some (fold_left (fun a c => a * 10 + (c - 48)) t acc, seen || negb (bool_decide (t = [])))
    else None.
Proof.
  intros HM. induction t as [|c t IH]; intros acc seen Ha; cbn [i64_digits is_digits forallb fold_left andb].
  - destruct (Z.leb_spec acc M); [|lia]. by rewrite bool_decide_true, orb_false_r.
  - rewrite (bool_decide_false (c :: t = [])) by done. cbn [negb]. rewrite orb_true_r.
    destruct (in_range 48 57 c) eqn:Ec; cbn [negb andb]; [|done]. unfold in_range in Ec. to_prop.
    change (forallb (in_range 48 57) t) with (is_digits t).
    destruct (Z.ltb_spec ((M - (c - 48)) / 10) acc) as [Hlt|Hge].
    + destruct (is_digits t) eqn:Et; cbn [andb]; [|done].
      pose proof (fold_digits_ge t (acc * 10 + (c - 48)) Et). rewrite (proj2 (Z.leb_gt _ _)); [done|].
      pose proof (Z.mul_succ_div_gt (M - (c - 48)) 10). lia.
    + assert (acc * 10 + (c - 48) <= M) as Hle by (pose proof (Z.mul_div_le (M - (c - 48)) 10); lia).
      clear Hge. rewrite (u64_id (acc * 10)) by int_lia. rewrite u64_id by int_lia.
      rewrite IH by lia. done.
Qed.

(** A number token is its value when it fits a signed 64-bit integer. *)
Lemma c0_parse_i64_digits t : is_digits t = true -> t <> [] ->
  c0_parse_i64 t = if digits_val t <=? INT64_MAX then Some (digits_val t) else None.
Proof.
  intros Ht Hn. unfold c0_parse_i64. destruct t as [|c t']; [done|].
  assert (in_range 48 57 c = true) as Hc by (cbn [is_digits forallb] in Ht; by apply andb_true_iff in Ht as [? _]).
  unfold in_range in Hc. to_prop.
  destruct (Z.eqb_spec c 45), (Z.eqb_spec c 43); [lia..|]. cbn [orb].
  rewrite i64_digits_spec by (unfold INT64_MAX; lia). rewrite Ht, (bool_decide_false (c :: t' = [])) by done. cbn [andb orb negb].
  fold (digits_val (c :: t')). destruct (Z.leb_spec (digits_val (c :: t')) INT64_MAX); [|done].
  rewrite i64_id; [done|]. pose proof (fold_digits_ge (c :: t') 0 Ht) as Hge. fold (digits_val (c :: t')) in Hge.
  int_lia.
Qed.

(** [c0_tokenize] always ends, and unless an allocation fails its tokens
    spell the text: white space and comments apart, each is the longest word, numeral, string
    or operator at its place, in order, and an end token closes the list. *)
Theorem c0_tokenize_lexes `{Env} src m :
  match c0_tokenize src m with
  | Val ts _ => lexes src ts
  | Null _ => alloc_failed
  | MStuck => False
  end.
Proof. exact (c0_tokenize_mem src m). Qed.
