(* ===== verification/C0Code.v ===== *)
(** * The code of C0 trees: operators, sizes and operands

    What the grammar guarantees of a tree ([expr_ok], [stmt_ok]), how long its
    code is, and that its operands satisfy the image loader ([ins_valid]). *)
From stdpp Require Import strings.
From S2P Require Import Prelude Common Vm Linbc1 C0Lex C0Comp C0Lang C0Sound C0LexSpec.

Scheme dexpr_mind := Induction for dexpr Sort Prop
with dargs_mind := Induction for dargs Sort Prop.
Combined Scheme dexpr_dargs_ind from dexpr_mind, dargs_mind.

Scheme dstmt_mind := Induction for dstmt Sort Prop
with dchain_mind := Induction for dchain Sort Prop
with delse_mind := Induction for delse Sort Prop
with dblock_mind := Induction for dblock Sort Prop
with dstmts_mind := Induction for dstmts Sort Prop
with dclause_mind := Induction for dclause Sort Prop
with dcond_mind := Induction for dcond Sort Prop.
Combined Scheme dstmt_all_ind from
  dstmt_mind, dchain_mind, delse_mind, dblock_mind, dstmts_mind, dclause_mind, dcond_mind.

(** ** Operators and literals *)

Definition is_unary (o : VmOp) : bool :=
  match o with OP_BIT_NOT | OP_NEG | OP_LOG_NOT => true | _ => false end.
Definition is_binary (o : VmOp) : bool :=
  match o with
  | OP_ADD | OP_SUB | OP_MUL | OP_DIV | OP_MOD | OP_BIT_AND | OP_BIT_OR | OP_BIT_XOR
  | OP_SHL | OP_SHR | OP_USHR | OP_CMP_EQ | OP_CMP_NE | OP_CMP_LT | OP_CMP_GT | OP_CMP_LE | OP_CMP_GE => true
  | _ => false
  end.

Fixpoint expr_ok (e : cexpr) : Prop :=
  match e with
  | XNum v => in_i64 v
  | XVar _ | XLen _ => True
  | XIndex _ e => expr_ok e
  | XUn o e => is_unary o = true /\ expr_ok e
  | XBin o e1 e2 => is_binary o = true /\ expr_ok e1 /\ expr_ok e2
  | XAnd e1 e2 | XOr e1 e2 => expr_ok e1 /\ expr_ok e2
  | XCall _ es => args_ok es
  end
with args_ok (es : cargs) : Prop :=
  match es with
  | ANil => True
  | ACons e es => expr_ok e /\ args_ok es
  end.

Fixpoint stmt_ok (s : cstmt) : Prop :=
  match s with
  | SSkip => True
  | SSeq s1 s2 => stmt_ok s1 /\ stmt_ok s2
  | SReturn e | SAssign _ e => expr_ok e
  | SStore _ i e => expr_ok i /\ expr_ok e
  | SDecl _ n lit => 1 <= n <= Z.of_nat LIN_VM_MAX_ARR_LEN /\ args_ok lit
  | SLit _ lit => args_ok lit
  | SIf e s1 s2 => expr_ok e /\ stmt_ok s1 /\ stmt_ok s2
  | SWhile e s => expr_ok e /\ stmt_ok s
  | SFor init cond step body => stmt_ok init /\ expr_ok cond /\ stmt_ok step /\ stmt_ok body
  end.

Section Derived.
Context (div shift : bool).

Lemma parse_i64_range t v : c0_parse_i64 t = Some v -> in_i64 v.
Proof.
  unfold c0_parse_i64. destruct t as [|c t]; [done|]. destruct (i64_digits _ _ _ _) as [[acc []]|]; [|done..].
  intros [= <-]. destruct (c =? 45); apply i64_range.
Qed.

Lemma op_table_ok l s mk e1 e2 : (s, mk) ∈ op_table div shift l -> expr_ok e1 -> expr_ok e2 ->
  expr_ok (mk e1 e2) /\ (size (mk e1 e2) <= size e1 + size e2 + 2)%nat.
Proof.
  intros Hop H1 H2. apply list_elem_of_In in Hop.
  do 9 (destruct l as [|l]; [destruct div, shift; cbn in Hop; destruct_or? Hop; simplify_eq; simpl; split; try done; lia|]).
  done.
Qed.

Lemma unary_table_ok s o : (s, o) ∈ unary_table -> is_unary o = true.
Proof. intros Ho. apply list_elem_of_In in Ho. cbn in Ho. by destruct_or? Ho; simplify_eq. Qed.
Lemma intrinsic_table_ok s o : (s, o) ∈ intrinsic_table -> is_binary o = true.
Proof. intros Ho. apply list_elem_of_In in Ho. cbn in Ho. by destruct_or? Ho; simplify_eq. Qed.

(** The code of an expression is at most twice as long as its tokens. *)
Lemma derived_all :
  (forall l ts e, dexpr div shift l ts e -> expr_ok e /\ (size e <= 2 * length ts)%nat) /\
  (forall ts es, dargs div shift ts es -> args_ok es /\ (size_args es <= 2 * length ts)%nat /\
     (size_lit es <= 2 * length ts + 2)%nat).
Proof.
  apply (dexpr_dargs_ind div shift (fun l ts e _ => expr_ok e /\ (size e <= 2 * length ts)%nat)
    (fun ts es _ => args_ok es /\ (size_args es <= 2 * length ts)%nat /\ (size_lit es <= 2 * length ts + 2)%nat)).
  - done.
  - intros l s mk ts1 ts2 e1 e2 Hop _ [H1 S1] _ [H2 S2]. destruct (op_table_ok _ _ _ e1 e2 Hop H1 H2) as [Hk Hs].
    split; [done|]. rewrite length_app. cbn [length]. lia.
  - intros s o ts e Ho _ [H1 S1]. simpl. split; [by split; [eapply unary_table_ok|]|lia].
  - intros t v Hv. simpl. split; [by eapply parse_i64_range|lia].
  - split; [unfold expr_ok; int_lia|simpl; lia].
  - split; [unfold expr_ok; int_lia|simpl; lia].
  - intros ts e _ [H1 S1]. split; [done|]. cbn [length]. rewrite length_app. lia.
  - intros x _. simpl. split; [done|lia].
  - intros x ts e _ _ [H1 S1]. simpl. split; [done|]. rewrite length_app. simpl. lia.
  - intros x s _ _. simpl. split; [done|lia].
  - intros s o ts e1 e2 Ho _ (H1 & S1 & _). cbn [args_ok size_args] in *. simpl. rewrite length_app. simpl.
    split; [split; [by eapply intrinsic_table_ok|]; tauto|lia].
  - intros f ts es _ _ _ (H1 & S1 & _). simpl. split; [done|]. rewrite length_app. simpl. lia.
  - simpl. split; [done|lia].
  - intros ts e _ [H1 S1]. simpl. split; [done|]. lia.
  - intros ts1 ts2 e1 e2 es _ [H1 S1] _ (H2 & S2 & L2). rewrite length_app. cbn [args_ok size_args size_lit length] in *.
    split; [done|]. lia.
Qed.

Lemma dlit_ok ts es : dlit div shift ts es -> args_ok es /\ (size_lit es <= 2 * length ts)%nat.
Proof.
  intros [ts' es' H]. apply derived_all in H as (H1 & _ & H3). split; [done|].
  cbn [length]. rewrite length_app. cbn [length]. lia.
Qed.

Lemma dassign_ok ts s : dassign div shift ts s -> stmt_ok s /\ (size_stmt s + 2 <= 2 * length ts)%nat.
Proof.
  destruct derived_all as [He Ha].
  destruct 1 as [x ts e H|x ts1 ts2 i e H1 H2|x t n ty Ht Hn _|x t n ty ts es Ht Hn _ H|x ts es H].
  - apply He in H as [H S]. simpl. split; [done|lia].
  - apply He in H1 as [H1 S1]. apply He in H2 as [H2 S2]. simpl. rewrite length_app. simpl. split; [done|lia].
  - simpl. split; [done|lia].
  - apply dlit_ok in H as [H S]. simpl. split; [done|lia].
  - apply dlit_ok in H as [H S]. simpl. split; [done|lia].
Qed.

Lemma derived_stmt :
  (forall ts s, dstmt div shift ts s -> stmt_ok s /\ (size_stmt s <= 2 * length ts)%nat) /\
  (forall ts s, dchain div shift ts s -> stmt_ok s /\ (size_stmt s <= 2 * length ts)%nat) /\
  (forall ts s, delse div shift ts s -> stmt_ok s /\ (size_stmt s <= 2 * length ts)%nat) /\
  (forall ts s, dblock div shift ts s -> stmt_ok s /\ (size_stmt s + 4 <= 2 * length ts)%nat) /\
  (forall ts s, dstmts div shift ts s -> stmt_ok s /\ (size_stmt s <= 2 * length ts)%nat) /\
  (forall ts s, dclause div shift ts s -> stmt_ok s /\ (size_stmt s <= 2 * length ts)%nat) /\
  (forall ts e, dcond div shift ts e -> expr_ok e /\ (size e <= 2 * length ts + 1)%nat).
Proof.
  destruct (derived_all) as [He _].
  apply (dstmt_all_ind div shift
    (fun ts s _ => stmt_ok s /\ (size_stmt s <= 2 * length ts)%nat)
    (fun ts s _ => stmt_ok s /\ (size_stmt s <= 2 * length ts)%nat)
    (fun ts s _ => stmt_ok s /\ (size_stmt s <= 2 * length ts)%nat)
    (fun ts s _ => stmt_ok s /\ (size_stmt s + 4 <= 2 * length ts)%nat)
    (fun ts s _ => stmt_ok s /\ (size_stmt s <= 2 * length ts)%nat)
    (fun ts s _ => stmt_ok s /\ (size_stmt s <= 2 * length ts)%nat)
    (fun ts e _ => expr_ok e /\ (size e <= 2 * length ts + 1)%nat));
    intros; repeat match goal with
      | H : dexpr _ _ _ _ _ |- _ => apply He in H
      | H : dassign _ _ _ _ |- _ => apply dassign_ok in H
      | H : _ /\ _ |- _ => destruct H
      end; simpl in *; repeat (rewrite length_app in *; simpl in *); try (split_and!; try done; int_lia).
Qed.
End Derived.

(** ** Operands *)

Lemma bound_prefix x names names' : bound x names' -> names' `prefix_of` names -> bound x names.
Proof. intros [i Hi] [k ->]. exists i. by apply index_of_app. Qed.

Section Operands.
Context (fs : list VmFn) (names : list (list Z)) (len : nat).

(** What the loader tests, of every instruction of a function whose code has
    [len] instructions. *)
Local Abbreviation valid := (ins_valid (Z.of_nat len) (Z.of_nat (length fs)) (Z.of_nat (length names))).

Lemma index_of_lt x ns i : index_of x ns = Some i -> (i < length ns)%nat.
Proof. intros Hi%index_of_lookup. by eapply lookup_lt_Some. Qed.

Lemma index_fn_lookup x fs' i : index_fn x fs' = Some i -> exists f, fs' !! i = Some f /\ sig_ok f = true /\ fn_name f = x.
Proof.
  revert i. induction fs' as [|f l IH]; intros i; cbn [index_fn]; [done|].
  destruct (sig_ok f && bytes_eqb (fn_name f) x) eqn:E.
  - intros [= <-]. exists f. apply andb_true_iff in E as [? ?%bytes_eqb_eq]. done.
  - intros (j & Hj & ->)%fmap_Some. by apply IH.
Qed.

Context (Hlen : Z.of_nat len < two63) (Hfs : Z.of_nat (length fs) < two63)
  (Hloc : (length names <= LIN_VM_MAX_LOCALS)%nat).

Lemma local_valid o x : (o = OP_LOAD_LOCAL \/ o = OP_STORE_LOCAL \/ o = OP_LOAD_INDEX \/ o = OP_STORE_INDEX \/ o = OP_ARR_LEN) ->
  bound x names -> valid (mkIns o (slot names x)).
Proof.
  intros Ho [i Hi]. unfold slot. rewrite Hi. apply index_of_lt in Hi. unfold LIN_VM_MAX_LOCALS in Hloc.
  change (default O (Some i)) with i.
  split; [unfold in_i64, two63; cbn [a]; lia|]. by destruct_or! Ho; subst o; split; try done; cbn [a op]; lia.
Qed.

Lemma jump_valid o pc : (o = OP_JUMP \/ o = OP_JUMP_IF_FALSE \/ o = OP_JUMP_IF_FALSE_KEEP \/ o = OP_JUMP_IF_TRUE_KEEP) ->
  (pc < len)%nat -> valid (jump o pc).
Proof.
  intros Ho Hpc. split; [unfold in_i64; cbn [jump a]; lia|].
  by destruct_or! Ho; subst o; split; try done; cbn [jump a op]; lia.
Qed.

Lemma const_valid v : in_i64 v -> valid (mkIns OP_PUSH_CONST v).
Proof. by split. Qed.

Lemma plain_valid o : is_unary o || is_binary o || bool_decide (o = OP_POP) || bool_decide (o = OP_RET) = true ->
  valid (mkIns o 0).
Proof. intros Ho. split; [cbn [a]; int_lia|]. by destruct o. Qed.

Context (G : scope) (HG : s_names G `prefix_of` names).

Lemma gen_valid_all :
  (forall e base, expr_ok e -> scope_expr fs G e = true -> (base + size e < len)%nat ->
     Forall valid (gen names fs base e)) /\
  (forall es base, args_ok es -> scope_args fs G es = true -> (base + size_args es < len)%nat ->
     Forall valid (gen_args names fs base es)).
Proof.
  apply cexpr_cargs_ind; simpl.
  - intros v base Hv _ _. by auto using const_valid.
  - intros x base _ Hx _. constructor; [|done]. apply local_valid; [auto|eapply bound_prefix; [by apply scalar_in_bound|done]].
  - intros x e IH base He Hs Hb. to_prop. apply Forall_app. split; [apply IH; [done..|lia]|].
    constructor; [|done]. apply local_valid; [auto|eapply bound_prefix; [by apply array_in_bound|done]].
  - intros x base _ Hx _. constructor; [|done]. apply local_valid; [auto|eapply bound_prefix; [by apply array_in_bound|done]].
  - intros o e IH base [Ho He] Hs Hb. apply Forall_app. split; [apply IH; [done..|lia]|].
    constructor; [|done]. apply plain_valid. by rewrite Ho.
  - intros o e1 IH1 e2 IH2 base (Ho & H1 & H2) Hs Hb. to_prop. rewrite gen_size.
    apply Forall_app. split; [apply IH1; [done..|lia]|]. apply Forall_app. split; [apply IH2; [done..|lia]|].
    constructor; [|done]. apply plain_valid. by rewrite Ho, orb_true_r.
  - intros e1 IH1 e2 IH2 base (H1 & H2) Hs Hb. to_prop. rewrite !gen_size.
    apply Forall_app. split; [apply IH1; [done..|lia]|].
    constructor; [apply jump_valid; [auto|lia]|]. constructor; [by apply plain_valid|]. apply IH2; [done..|lia].
  - intros e1 IH1 e2 IH2 base (H1 & H2) Hs Hb. to_prop. rewrite !gen_size.
    apply Forall_app. split; [apply IH1; [done..|lia]|].
    constructor; [apply jump_valid; [auto|lia]|]. constructor; [by apply plain_valid|]. apply IH2; [done..|lia].
  - intros f es IH base He Hs Hb. destruct (index_fn f fs) as [i|] eqn:Ef; [|done]. to_prop.
    apply Forall_app. split; [apply IH; [done..|lia]|]. constructor; [|done].
    apply index_fn_lookup in Ef as Eg. destruct Eg as (g & Eg & _). apply lookup_lt_Some in Eg.
    unfold target. rewrite Ef. change (default O (Some i)) with i.
    split; [unfold in_i64; cbn [a]; lia|]. split; [done|]. cbn [a op]. lia.
  - constructor.
  - intros e IH es IHs base [He Hes] Hs Hb. to_prop. rewrite gen_size.
    apply Forall_app. split; [apply IH; [done..|lia]|]. apply IHs; [done..|lia].
Qed.

Lemma gen_valid e base : expr_ok e -> scope_expr fs G e = true -> (base + size e < len)%nat ->
  Forall valid (gen names fs base e).
Proof. apply gen_valid_all. Qed.

Lemma gen_lit_valid x es : forall base ei, args_ok es -> scope_args fs G es = true -> bound x names ->
  0 <= ei -> ei + Z.of_nat (args_len es) <= 65536 -> (base + size_lit es < len)%nat ->
  Forall valid (gen_lit names fs base (slot names x) ei es).
Proof.
  induction es as [|e es IH]; intros base ei Hok Hs Hx Hei Hn Hb; cbn [gen_lit size_lit scope_args args_ok args_len] in *; [done|].
  destruct Hok as [He Hes]. to_prop. rewrite !length_app, gen_size. cbn [length].
  apply Forall_app. split; [|apply IH; [done..|lia|lia|lia]].
  constructor; [apply const_valid; int_lia|]. apply Forall_app.
  split; [apply gen_valid; [done..|lia]|]. constructor; [|done]. apply local_valid; [auto|done].
Qed.
End Operands.

Section Statements.
Context (fs : list VmFn) (names : list (list Z)) (len : nat).
Local Abbreviation valid := (ins_valid (Z.of_nat len) (Z.of_nat (length fs)) (Z.of_nat (length names))).
Context (Hlen : Z.of_nat len < two63) (Hfs : Z.of_nat (length fs) < two63)
  (Hloc : (length names <= LIN_VM_MAX_LOCALS)%nat).

Lemma lit_len_small G i lit : scope_wf G -> lit_fits (arr_len G i) lit = true -> 0 + Z.of_nat (args_len lit) <= 65536.
Proof.
  intros [_ Ha] Hl. apply Z.leb_le in Hl. unfold arr_len in Hl. destruct (s_arrs G !! i) as [n|] eqn:E.
  - apply (Forall_lookup_1 _ _ _ _ Ha) in E. change (default 0 (Some n)) with n in Hl. unfold LIN_VM_MAX_ARR_LEN in E. lia.
  - change (default 0 None) with 0 in Hl. lia.
Qed.

(** The code of a statement in range, and the scope it leaves well formed. *)
Definition stmt_valid (s : cstmt) : Prop := forall G G' base, stmt_ok s -> scope_wf G -> scope_stmt fs G s = Some G' -> s_names G' `prefix_of` names ->
  (base + size_stmt s < len)%nat -> Forall valid (gen_stmt names fs base s) /\ scope_wf G'.

Lemma expr_valid G e base : s_names G `prefix_of` names -> expr_ok e -> scope_expr fs G e = true -> (base + size e < len)%nat ->
  Forall valid (gen names fs base e).
Proof. intros. by eapply gen_valid. Qed.

Lemma jump_in_range o pc : (o = OP_JUMP \/ o = OP_JUMP_IF_FALSE) -> (pc < len)%nat -> valid (jump o pc).
Proof. intros Ho Hpc. apply jump_valid; try done. tauto. Qed.

Local Ltac open_valid :=
  unfold stmt_valid; cbn [scope_stmt gen_stmt stmt_ok size_stmt]; intros G G' base Hok Hw H Hp Hb; rewrite ?gen_size, ?gen_stmt_size.

Lemma if_valid e s1 s2 : stmt_valid s1 -> stmt_valid s2 -> stmt_valid (SIf e s1 s2).
Proof.
  intros IH1 IH2. open_valid.
  case_match; [|done]. apply bind_Some in H as (G1 & H1 & H2). destruct Hok as (K0 & K1 & K2).
  pose proof (scope_stmt_prefix _ _ _ _ H1) as P1. pose proof (scope_stmt_prefix _ _ _ _ H2) as P2.
  assert (s_names G1 `prefix_of` names) as P1n by (by etrans).
  destruct (IH1 G G1 (base + size e + 1)%nat) as [F1 W1]; [done..|lia|].
  destruct (IH2 G1 G' (base + size e + 1 + size_stmt s1 + 1)%nat) as [F2 W2]; [done..|lia|]. split; [|done].
  apply Forall_app. split; [apply (expr_valid G); [by etrans|done..|lia]|].
  constructor; [apply jump_in_range; [auto|lia]|]. apply Forall_app. split; [done|]. constructor; [apply jump_in_range; [auto|lia]|done].
Qed.

Lemma while_valid e s : stmt_valid s -> stmt_valid (SWhile e s).
Proof.
  intros IH. open_valid.
  case_match; [|done]. destruct Hok as [K1 K2]. pose proof (scope_stmt_prefix _ _ _ _ H) as P1.
  destruct (IH G G' (base + size e + 1)%nat) as [F1 W1]; [done..|lia|]. split; [|done].
  apply Forall_app. split; [apply (expr_valid G); [by etrans|done..|lia]|].
  constructor; [apply jump_in_range; [auto|lia]|]. apply Forall_app. split; [done|]. constructor; [apply jump_in_range; [auto|lia]|done].
Qed.

Lemma for_valid init cond step body : stmt_valid init -> stmt_valid step -> stmt_valid body -> stmt_valid (SFor init cond step body).
Proof.
  intros IHi IHs IHb. open_valid.
  apply bind_Some in H as (G1 & H1 & H). case_match; [|done]. apply bind_Some in H as (G2 & H2 & H3).
  destruct Hok as (K1 & K2 & K3 & K4).
  pose proof (scope_stmt_prefix _ _ _ _ H1) as P1. pose proof (scope_stmt_prefix _ _ _ _ H2) as P2.
  pose proof (scope_stmt_prefix _ _ _ _ H3) as P3.
  assert (s_names G2 `prefix_of` names) as P2n by (by etrans). assert (s_names G1 `prefix_of` names) as P1n by (by etrans).
  destruct (IHi G G1 base) as [F1 W1]; [done..|lia|].
  destruct (IHb G1 G2 (base + size_stmt init + size cond + 1)%nat) as [F2 W2]; [done..|lia|].
  destruct (IHs G2 G' (base + size_stmt init + size cond + 1 + size_stmt body)%nat) as [F3 W3]; [done..|lia|].
  split; [|done]. apply Forall_app. split; [done|]. apply Forall_app. split; [apply (expr_valid G1); [done..|lia]|].
  constructor; [apply jump_in_range; [auto|lia]|]. apply Forall_app. split; [done|]. apply Forall_app. split; [done|].
  constructor; [apply jump_in_range; [auto|lia]|done].
Qed.

Lemma gen_stmt_valid s : stmt_valid s.
Proof.
  induction s as [|s1 IH1 s2 IH2|e|x e|x i e|x n lit|x lit|e s1 IH1 s2 IH2|e s IH|init IHi cond step IHs body IHb];
    [..|by apply if_valid|by apply while_valid|by apply for_valid]; open_valid.
  - by injection H as <-.
  - destruct Hok as [K1 K2]. apply bind_Some in H as (G1 & H1 & H2). pose proof (scope_stmt_prefix _ _ _ _ H2) as P.
    destruct (IH1 G G1 base) as [F1 W1]; [done|done|done|by etrans|lia|].
    destruct (IH2 G1 G' (base + size_stmt s1)%nat) as [F2 W2]; [done..|lia|]. split; [by apply Forall_app|done].
  - case_match; simplify_eq. split; [|done]. apply Forall_app. split; [apply (expr_valid G'); [done..|lia]|].
    constructor; [by apply plain_valid|done].
  - case_match; [|done]. apply bind_Some in H as ([i G1] & H1 & H2). case_match; simplify_eq.
    apply declare_wf in H1 as W1; [|done]. apply declare_prefix in H1 as [P Hi]. split; [|done].
    apply Forall_app. split; [apply (expr_valid G); [by etrans|done..|lia]|].
    constructor; [|done]. apply local_valid; try done; [auto|]. eapply bound_prefix; [by exists i|done].
  - case_match; simplify_eq. to_prop. destruct Hok as [K1 K2]. split; [|done].
    apply Forall_app. split; [apply (expr_valid G'); [done..|lia]|]. apply Forall_app. split; [apply (expr_valid G'); [done..|lia]|].
    constructor; [|done]. apply local_valid; try done; [auto|]. eapply bound_prefix; [by apply array_in_bound|done].
  - apply bind_Some in H as ([i G1] & H1 & H2). case_match; simplify_eq. to_prop. destruct Hok as [Kn Ka].
    apply declare_wf in H1 as W1; [|done]. apply declare_prefix in H1 as [P Hi]. unfold LIN_VM_MAX_ARR_LEN in Kn.
    split; [|apply mark_wf; [unfold LIN_VM_MAX_ARR_LEN; lia|done]].
    eapply gen_lit_valid; try done; [eapply bound_prefix; [by exists i|done]|].
    match goal with H : lit_fits _ _ = true |- _ => apply Z.leb_le in H end. lia.
  - case_match; [|done]. case_match; simplify_eq. to_prop. split; [|done].
    eapply gen_lit_valid; try done; [|by eapply lit_len_small]. eapply bound_prefix; [by eexists|done].
Qed.
End Statements.
