(* ===== verification/C0BuildSpec.v ===== *)
(** * What c0_build makes of a text

    The headers of a text are always found, every function is compiled or
    rejected, and the functions left are those whose calls all lead to
    functions left. *)
From stdpp Require Import strings.
From S2P Require Import Prelude Common Token Sys Vm VmSpec VmSafe Sha256 Linbc1 Encode C0Lex C0Comp C0Build C0Lang C0Sound C0SoundStmt C0SoundFlow C0LexSpec C0Code.

(** ** Function headers *)

Section Headers.
Context `{Env}.
Variable (src : list Z).

Lemma skip_while_bounds P pos line : (pos <= length src)%nat ->
  (pos <= (skip_while src P pos line).1 <= length src)%nat.
Proof. intros Hp. cbn [skip_while fst]. split; [apply scan_ge|by apply scan_le]. Qed.

(** The search for a closing character ends within one turn per byte. *)
Lemma match_close_total o c fuel : forall pos depth line,
  (pos <= length src)%nat -> (length src - pos < fuel)%nat ->
  exists p line', match_close src fuel o c pos depth line = Some (p, line') /\ (pos <= p <= length src)%nat.
Proof.
  induction fuel as [|fuel IH]; intros pos depth line Hp Hf; [lia|]. cbn [match_close].
  destruct (src !! pos) as [ch|] eqn:Ec; [|by eexists _, _; split; [done|lia]].
  apply lookup_lt_Some in Ec. destruct (depth =? 0)%nat; [by eexists _, _; split; [done|lia]|].
  assert (forall q d l, (S pos <= q <= length src)%nat ->
    exists p line', match_close src fuel o c q d l = Some (p, line') /\ (pos <= p <= length src)%nat) as Hgo.
  { intros q d l Hq. destruct (IH q d l) as (p & l' & E & Hb); [lia|lia|]. exists p, l'. split; [done|lia]. }
  destruct (ch =? 34).
  - pose proof (skip_while_bounds (fun d => negb (d =? 34)) (pos + 1) (if ch =? 10 then S line else line) ltac:(lia)) as Hb.
    destruct (skip_while src _ (pos + 1) _) as [q l]. cbn [fst] in Hb. apply Hgo.
    destruct (Nat.ltb_spec q (length src)); lia.
  - destruct (ch =? o); [apply Hgo; lia|]. destruct (ch =? c); apply Hgo; lia.
Qed.

(** What is stored of a parameter has no NUL. *)
Definition param_text (p : C0Param) : Prop := strz (p_name p) = p_name p /\ strz (type_name p) = type_name p.

Lemma parse_param_mem piece m : mem_ok (Forall param_text) (parse_param piece m).
Proof.
  unfold parse_param. destruct (_ =? 0)%nat; [constructor|]. destruct (match c0_index_char _ _ with Some _ => _ | None => _ end) as [pn pt].
  eapply mem_bind; [apply strdup_mem|]. intros n m1 ->. eapply mem_bind; [apply strdup_mem|]. intros t m2 ->.
  constructor; [|constructor]. split; apply strz_strz.
Qed.

Lemma index_char_lt l ch k : c0_index_char l ch = Some k -> (k < length l)%nat.
Proof.
  revert k. induction l as [|c l IH]; intros k; cbn [c0_index_char]; [done|]. destruct (c =? ch).
  - intros [= <-]. cbn [length]. lia.
  - intros (j & Hj & ->)%fmap_Some. apply IH in Hj. cbn [length]. lia.
Qed.

Lemma parse_params_mem fuel : forall rest ps cap m, (length rest < fuel)%nat -> Forall param_text ps ->
  mem_ok (Forall param_text) (parse_params fuel rest ps cap m).
Proof.
  induction fuel as [|fuel IH]; intros rest ps cap m Hf Hps; [lia|]. cbn [parse_params].
  eapply mem_bind with (R := fun _ => True).
  { destruct (_ =? 0)%nat; [done|apply reserve_mem]. }
  intros cap' m1 _. eapply mem_bind; [apply parse_param_mem|]. intros p m2 Hp.
  assert (Forall param_text (ps ++ p)) by (by apply Forall_app).
  destruct (c0_index_char rest 44) as [k|] eqn:E; [|done]. apply index_char_lt in E. apply IH; [|done].
  rewrite length_drop. lia.
Qed.

Lemma parse_return_mem hdr m : mem_ok (fun t => strz t = t) (parse_return hdr m).
Proof.
  assert (forall s m, mem_ok (fun t => strz t = t) (strdup_or_null s m)) as Hs.
  { intros s m'. eapply mem_weaken; [apply strdup_mem|]. intros t ->. apply strz_strz. }
  unfold parse_return. destruct (c0_index_str hdr _); [apply Hs|]. destruct (c0_index_char hdr 58); [apply Hs|done].
Qed.

(** What the rest of the build relies on. *)
Record info_ok (info : C0FnInfo) : Prop := {
  io_name : strz (fi_name info) = fi_name info;
  io_params : Forall param_text (fi_params info);
  io_body : exists off n, fi_body info = slice off n src;
  io_return : strz (return_type info) = return_type info;
  io_ident : forallb c0_is_name_char (fi_name info) = true;
  io_named : fi_name info <> []
}.

(** The name after a [!]. *)
Lemma name_text p : let q := scan c0_is_name_char src p in (0 < q - p)%nat -> (p <= length src)%nat ->
  forallb c0_is_name_char (strz (slice p (q - p) src)) = true /\ strz (slice p (q - p) src) <> [].
Proof.
  intros q Hq Hp. set (l := slice p (q - p) src).
  assert (forallb c0_is_name_char l = true) as Hl.
  { unfold l, slice, q, scan. rewrite Nat.add_comm, Nat.add_sub. apply run_length_take. }
  assert (strz l = l) as ->; [|split; [done|]].
  - unfold strz. assert (run_length (fun c => negb (c =? 0)) l = length l) as ->; [|apply firstn_all].
    clear -Hl. induction l as [|c l IH]; cbn [run_length forallb length] in *; [done|]. to_prop.
    destruct (Z.eqb_spec c 0) as [->|]; [done|]. cbn [negb]. by rewrite IH.
  - intros E. assert (length l = (q - p)%nat) as El; [|rewrite E in El; cbn in El; lia].
    apply length_slice. pose proof (scan_le c0_is_name_char src p Hp). fold q in H0. lia.
Qed.

Lemma parse_decl_mem n_list cap i line m : (i < length src)%nat ->
  mem_ok (fun r => match r.1 with
                   | Some (info, bpos, _) => info_ok info /\ (i < bpos <= length src)%nat
                   | None => True
                   end) (parse_decl src n_list cap i line m).
Proof.
  intros Hi. unfold parse_decl.
  pose proof (skip_while_bounds c0_is_space (i + 1) line ltac:(lia)) as H0.
  destruct (skip_while src c0_is_space (i + 1) line) as [pos0 line1]. cbn [fst] in H0.
  pose proof (scan_ge c0_is_name_char src pos0) as Hge.
  set (pos := scan c0_is_name_char src pos0) in *. destruct (_ && _) eqn:E; [|done]. to_prop.
  apply lookup_lt_Some in H2.
  destruct (match_close_total 40 41 (S (length src)) (pos + 1) 1 line1) as (close & line2 & -> & Hc); [lia|lia|].
  eapply mem_bind.
  { apply parse_params_mem; [|constructor]. unfold slice. rewrite length_take, length_drop. lia. }
  intros ps m1 Hps. pose proof (skip_while_bounds (fun d => negb (d =? 123)) close line2 ltac:(lia)) as Hb.
  destruct (skip_while src _ close line2) as [hdr_end line3]. cbn [fst] in Hb.
  eapply mem_bind; [apply parse_return_mem|]. intros rt m2 Hrt.
  destruct (bool_decide _) eqn:Eb; [|done]. to_prop. apply lookup_lt_Some in Eb.
  destruct (match_close_total 123 125 (S (length src)) (hdr_end + 1) 1 line3) as (bpos & line4 & -> & Hbp); [lia|lia|].
  eapply mem_bind; [apply reserve_mem|]. intros cap' m3 _. eapply mem_bind; [apply strdup_mem|]. intros nm m4 ->.
  destruct (name_text pos0) as [Hc1 Hc2]; [fold pos; lia|lia|]. fold pos in Hc1, Hc2.
  cbn. split; [|lia]. constructor; [apply strz_strz|done|by eexists _, _|done..].
Qed.

Lemma infos_loop_mem fuel : forall i line infos cap m, (length src - i < fuel)%nat -> Forall info_ok infos ->
  mem_ok (Forall info_ok) (infos_loop src fuel i line infos cap m).
Proof.
  induction fuel as [|fuel IH]; intros i line infos cap m Hf Ho; [lia|]. cbn [infos_loop].
  destruct (src !! i) as [ch|] eqn:Ec; [|done]. apply lookup_lt_Some in Ec.
  destruct (_ && _); [|apply IH; [lia|done]].
  eapply mem_bind; [by apply parse_decl_mem|]. intros [[[[info bpos] cap']|] line'] m'; cbn [fst].
  - intros [Hok Hb]. apply IH; [lia|]. apply Forall_app. by split; [|constructor].
  - intros _. apply IH; [lia|done].
Qed.

(** There are no more declarations than bytes. *)
Lemma infos_loop_count fuel : forall i line infos cap m, (length src - i < fuel)%nat ->
  (length infos <= i <= length src)%nat ->
  mem_ok (fun l => (length l <= length src)%nat) (infos_loop src fuel i line infos cap m).
Proof.
  induction fuel as [|fuel IH]; intros i line infos cap m Hf Ho; [lia|]. cbn [infos_loop].
  destruct (src !! i) as [ch|] eqn:Ec; [|cbn; lia]. apply lookup_lt_Some in Ec.
  destruct (_ && _); [|apply IH; lia].
  eapply mem_bind; [by apply parse_decl_mem|]. intros [[[[info bpos] cap']|] line'] m'; cbn [fst].
  - intros [_ Hb]. apply IH; [lia|]. rewrite length_app. cbn [length]. lia.
  - intros _. apply IH; lia.
Qed.

(** Whether the text declares a function, the allocator aside. *)
Lemma infos_mem m : mem_ok (Forall info_ok) (infos_loop src (S (length src)) 0 1 [] 0 m).
Proof. apply infos_loop_mem; [lia|constructor]. Qed.
End Headers.

(** ** Dependencies *)

(** A function is left alone, or rejected for its dependencies. *)
Definition resolved (f f' : VmFn) : Prop := f' = f \/ (ok f = true /\ f' = dep_rejected f).

(** The functions [P] are accepted and call each other only. *)
Definition supported (P : nat -> Prop) (fs : list VmFn) : Prop :=
  forall i f, fs !! i = Some f -> P i ->
    ok f = true /\
    Forall (fun ins => op ins = OP_CALL ->
      exists j, u64 (a ins) = Z.of_nat j /\ (j < length fs)%nat /\ P j) (code f).

Definition ok_at (fs : list VmFn) (i : nat) : Prop := exists f, fs !! i = Some f /\ ok f = true.

Definition ok_count (fs : list VmFn) : nat := length (List.filter ok fs).

Lemma bad_call_false fs i : bad_call fs i = false <->
  (op i = OP_CALL -> exists j, u64 (a i) = Z.of_nat j /\ (j < length fs)%nat /\ ok_at fs j).
Proof.
  unfold bad_call. destruct (bool_decide_reflect (op i = OP_CALL)) as [Ho|Ho]; cbn [andb]; [|naive_solver].
  split.
  - intros Hb _. destruct (lookupz fs (u64 (a i))) as [g|] eqn:E; [|done]. apply lookupz_Some in E as [Hu E].
    exists (Z.to_nat (u64 (a i))). split; [lia|]. split; [by eapply lookup_lt_Some|].
    exists g. split; [done|]. by destruct (ok g).
  - intros Hj. destruct (Hj Ho) as (j & -> & _ & g & Eg & Hok). by rewrite lookupz_nat, Eg, Hok.
Qed.

Lemma resolved_refl fs : Forall2 resolved fs fs.
Proof. induction fs; constructor; [by left|done]. Qed.

Lemma resolved_trans fs1 fs2 fs3 : Forall2 resolved fs1 fs2 -> Forall2 resolved fs2 fs3 -> Forall2 resolved fs1 fs3.
Proof.
  intros H1. revert fs3. induction H1 as [|f g fs1 fs2 Hf H1 IH]; intros fs3 H2; inv H2; constructor; [|by apply IH].
  destruct Hf as [->|[Hok ->]]; [done|]. right. split; [done|].
  match goal with H : resolved (dep_rejected _) _ |- _ => destruct H as [->|[? _]]; done end.
Qed.

Lemma reject_resolved fs i f : fs !! i = Some f -> ok f = true -> Forall2 resolved fs (<[i := dep_rejected f]> fs).
Proof.
  revert i. induction fs as [|g fs IH]; intros i E Hok; [done|]. destruct i as [|i]; cbn in *.
  - injection E as ->. constructor; [by right|apply resolved_refl].
  - constructor; [by left|by apply IH].
Qed.

Lemma reject_count fs i f : fs !! i = Some f -> ok f = true -> S (ok_count (<[i := dep_rejected f]> fs)) = ok_count fs.
Proof.
  unfold ok_count. revert i. induction fs as [|g fs IH]; intros i E Hok; [done|]. destruct i as [|i]; cbn in *.
  - injection E as ->. by rewrite Hok.
  - destruct (ok g); cbn; rewrite <- (IH i); done.
Qed.

Lemma supported_ok P fs j : supported P fs -> P j -> (j < length fs)%nat -> ok_at fs j.
Proof. intros Hs Hj Hl. apply lookup_lt_is_Some_2 in Hl as [f E]. exists f. split; [done|]. by apply (Hs j f). Qed.

Lemma reject_supported P fs i f : fs !! i = Some f -> existsb (bad_call fs) (code f) = true ->
  supported P fs -> supported P (<[i := dep_rejected f]> fs) /\ ~ P i.
Proof.
  intros E Hb Hs. assert (~ P i) as Hi.
  { intros Hi. destruct (Hs i f E Hi) as [_ Hc]. apply List.existsb_exists in Hb as (ins & Hin & Hb).
    apply list_elem_of_In in Hin. assert (bad_call fs ins = false); [|congruence]. apply bad_call_false.
    intros Ho. destruct (Forall_elem _ _ _ Hc Hin Ho) as (j & Ej & Hj & Hpj).
    exists j. split; [done|]. split; [done|]. by apply (supported_ok P). }
  split; [|done]. intros j g Ej Hj. destruct (decide (i = j)) as [->|Hne]; [done|].
  rewrite list_lookup_insert_ne in Ej by done. destruct (Hs j g Ej Hj) as [Hok Hc]. split; [done|].
  by rewrite length_insert.
Qed.

(** One pass over the functions from [i] on. *)
Lemma resolve_pass_spec k : forall i fs ch fs' ch', (i + k = length fs)%nat ->
  resolve_pass k i fs ch = (fs', ch') ->
  Forall2 resolved fs fs' /\
  (forall P, supported P fs -> supported P fs') /\
  (ok_count fs' <= ok_count fs)%nat /\
  (if ch' then ch = true \/ (ok_count fs' < ok_count fs)%nat
   else ch = false /\ fs' = fs /\
     forall j f, (i <= j)%nat -> fs !! j = Some f -> ok f = true -> existsb (bad_call fs) (code f) = false).
Proof.
  induction k as [|k IH]; intros i fs ch fs' ch' Hk E; cbn [resolve_pass] in E.
  - injection E as <- <-. split; [apply resolved_refl|]. split; [done|]. split; [lia|].
    destruct ch; [by left|]. split; [done|]. split; [done|]. intros j f Hj Ef. apply lookup_lt_Some in Ef. lia.
  - destruct (fs !! i) as [f|] eqn:Ef; [|apply lookup_ge_None in Ef; lia].
    destruct (ok f && existsb (bad_call fs) (code f)) eqn:Eb.
    + apply andb_true_iff in Eb as [Hok Hb]. pose proof (reject_count _ _ _ Ef Hok) as Hcnt.
      apply IH in E as (Hr & Hs & Hc & Hch); [|rewrite length_insert; lia].
      split; [eapply resolved_trans; [by apply (reject_resolved fs i f)|done]|].
      split; [intros P HP; apply Hs; by apply reject_supported|]. split; [lia|].
      destruct ch'; [right; lia|]. by destruct Hch as [? _].
    + apply IH in E as (Hr & Hs & Hc & Hch); [|lia]. split; [done|]. split; [done|]. split; [done|].
      destruct ch'; [done|]. destruct Hch as (-> & -> & Hj). split; [done|]. split; [done|].
      intros j g Hij Eg Hok. destruct (decide (i = j)) as [->|]; [|apply (Hj j); [lia|done..]].
      rewrite Ef in Eg. injection Eg as ->. by rewrite Hok in Eb.
Qed.

Lemma resolve_loop_spec fuel : forall fs, (ok_count fs < fuel)%nat ->
  exists fs', resolve_loop fuel fs = Some fs' /\
    Forall2 resolved fs fs' /\
    (forall P, supported P fs -> supported P fs') /\
    supported (ok_at fs') fs'.
Proof.
  induction fuel as [|fuel IH]; intros fs Hf; [lia|]. cbn [resolve_loop].
  destruct (resolve_pass (length fs) 0 fs false) as [fs1 ch] eqn:E.
  apply resolve_pass_spec in E as (Hr & Hs & Hc & Hch); [|done]. destruct ch.
  - destruct Hch as [?|Hlt]; [done|]. destruct (IH fs1) as (fs' & E' & Hr' & Hs' & Hm); [lia|].
    exists fs'. split; [done|]. split; [by eapply resolved_trans|]. split; [auto|done].
  - destruct Hch as (_ & -> & Hb). exists fs. split; [done|]. split; [done|]. split; [done|].
    intros i f Ef (g & Eg & Hok). rewrite Ef in Eg. injection Eg as <-. split; [done|].
    apply Forall_forall. intros ins Hin. apply bad_call_false.
    specialize (Hb i f ltac:(lia) Ef Hok). destruct (bad_call fs ins) eqn:Eb; [|done].
    rewrite <- Hb. symmetry. apply List.existsb_exists. by exists ins.
Qed.

(** The functions left are the largest set that is closed under calls. *)
Lemma resolve_deps_greatest fs : exists fs',
  c0_resolve_deps fs = Some fs' /\ Forall2 resolved fs fs' /\ supported (ok_at fs') fs' /\
  forall P, supported P fs -> forall i, (i < length fs)%nat -> P i -> fs' !! i = fs !! i.
Proof.
  destruct (resolve_loop_spec (S (length fs)) fs) as (fs' & E & Hr & Hs & Hm).
  { unfold ok_count. pose proof (filter_length_le ok fs). lia. }
  exists fs'. split; [done|]. split; [done|]. split; [done|]. intros P HP i Hi HPi.
  apply lookup_lt_is_Some_2 in Hi as [f Ef]. destruct (Forall2_lookup_l _ _ _ _ _ Hr Ef) as (f' & Ef' & [->|[_ ->]]); [congruence|].
  destruct (Hs P HP i _ Ef' HPi) as [Hok _]. done.
Qed.

(** ** One function *)

Definition empty_scope : scope := mkScope [] [].

(** The locals of the parameters. *)
Fixpoint scope_params (ps : list C0Param) (G : scope) : option scope :=
  match ps with
  | [] => Some G
  | p :: ps =>
      '(i, G) ← declare (p_name p) G;
      scope_params ps (match c0_arr_len_of (type_name p) with Some n => mark i n G | None => G end)
  end.

(** [f] is the code of the declaration [info], which calls functions of [fs]. *)
Definition compiled (div shift : bool) (fs : list VmFn) (info : C0FnInfo) (f : VmFn) : Prop :=
  c0_sig_eligible info = None /\
  exists ts s G G',
    lexes (fi_body info) (ts ++ [tok_eof]) /\ dstmts div shift ts s /\
    scope_params (fi_params info) empty_scope = Some G /\ scope_stmt fs G s = Some G' /\ scope_wf G' /\
    code f = gen_stmt (s_names G') fs 0 s ++ [mkIns OP_PUSH_CONST 0; mkIns OP_RET 0] /\
    nlocals f = length (s_names G') /\ arr_n f = s_arrs G'.

Lemma eligible_arr p ps n : params_eligible (p :: ps) = None -> c0_arr_len_of (type_name p) = Some n ->
  arr_len_bad n = false.
Proof.
  cbn [params_eligible]. destruct (is_int (type_name p)) eqn:Ei.
  - intros _. unfold is_int in Ei. apply orb_true_iff in Ei as [->%bytes_eqb_eq| ->%bytes_eqb_eq]; done.
  - intros He Hn. rewrite Hn in He. by destruct (arr_len_bad n).
Qed.

Lemma eligible_tail p ps : params_eligible (p :: ps) = None -> params_eligible ps = None.
Proof.
  cbn [params_eligible]. destruct (is_int _); [done|]. destruct (c0_arr_len_of _); [|done]. by destruct (arr_len_bad _).
Qed.

Section Function.
Context `{Env} (div shift : bool) (fs : list VmFn).
#[local] Abbreviation wf := (wf div shift fs).

Lemma declare_params_sound ps : forall c, wf c -> params_eligible ps = None -> Forall param_text ps ->
  wp (declare_params ps) (fun broke c' => broke = false /\ (failed c' \/
    (scope_params ps (scope_of c) = Some (scope_of c') /\ moves c c' [] [] /\ wf c'))) c.
Proof.
  induction ps as [|p ps IH]; intros c Hc He Ht; cbn [declare_params scope_params].
  { apply wp_ret. split; [done|right]. split; [done|]. split; [|done]. apply moves_refl. by eapply wf_reject. }
  apply Forall_cons_1 in Ht as [[Hp _] Ht].
  eapply wp_call; [by apply (local_idx_sound div shift fs)|]. intros li c1 Hl.
  destruct Hl as [Hf|(M1 & Hc1 & Hd)].
  { apply wp_bind_gets. destruct (cc_reject c1) eqn:Er; [|by destruct Hf]. apply wp_ret. split; [done|by left]. }
  apply (wp_rejected div shift fs); [done|]. rewrite Hd. cbn [mbind option_bind].
  destruct (c0_arr_len_of (type_name p)) as [n|] eqn:En.
  - rewrite (eligible_arr p ps n He En). unfold c0_mark_arr. apply wp_bind. unfold wp at 1, upd.
    set (c2 := set_locals _ _ _ _ c1).
    assert (moves c1 c2 [] []) as M2.
    { pose proof (wf_reject _ _ _ _ Hc1). constructor; try done. by rewrite app_nil_r. }
    assert (scope_of c2 = mark li n (scope_of c1)) as E2 by done.
    assert (wf c2) as Hc2.
    { apply (wf_same div shift fs c1); [done|done|]. rewrite E2. apply mark_wf; [|by eapply wf_scope].
      pose proof (eligible_arr p ps n He En) as Hb. unfold arr_len_bad in Hb. to_prop. lia. }
    eapply wp_mono; [apply IH; [done|by eapply eligible_tail|done]|].
    intros b c' [-> [Hf|(Hs & M & Hc')]]; (split; [done|]); [by left|right]. rewrite E2 in Hs.
    split; [done|]. split; [|done]. exact (moves_trans _ _ _ _ _ _ _ M1 (moves_trans _ _ _ _ _ _ _ M2 M)).
  - eapply wp_mono; [apply IH; [done|by eapply eligible_tail|done]|].
    intros b c' [-> [Hf|(Hs & M & Hc')]]; (split; [done|]); [by left|right]. split; [done|]. split; [|done].
    exact (moves_trans _ _ _ _ _ _ _ M1 M).
Qed.

(** An emission keeps a rejection. *)
Lemma emit_any o x c (Q : nat -> C0Comp -> Prop) :
  cc_reject c <> None -> (forall i c', cc_reject c' <> None -> Q i c') -> wp (c0_emit o x) Q c.
Proof.
  intros Hr HQ. unfold c0_emit. apply wp_bind_gets. unfold id.
  destruct (_ =? _)%nat; [|by apply HQ]. apply wp_bind. unfold wp at 1, c0_realloc, c0_malloc.
  destruct (alloc_ok _); [by apply HQ|]. apply wp_bind. unfold wp at 1, c0_fail_with, upd. cbn [set_mem cc_reject].
  destruct (cc_reject c) eqn:E; [|done]. cbn [is_some]. apply wp_ret, HQ. cbn [set_mem cc_reject]. by rewrite E.
Qed.

(** Nothing is compiled after a rejection. *)
Lemma body_failed n k c : failed c -> (1 <= k)%nat -> wp (body_loop n k) (fun _ c' => c' = c) c.
Proof.
  intros Hf Hk. destruct k as [|k]; [lia|]. cbn [body_loop].
  destruct (good_rest_cons _ (proj1 Hf)) as (tk & r & R & _). eapply wp_peek; [exact R|].
  apply wp_bind_gets. destruct (cc_reject c) eqn:Er; [|by destruct Hf].
  cbn [is_some]. rewrite orb_true_r. by apply wp_ret.
Qed.

(** The two instructions after the body. *)
Lemma finish_sound c : wf c ->
  wp (_ ← emit_ OP_PUSH_CONST 0; emit_ OP_RET 0) (fun _ c' => cc_reject c' <> None \/
    (cc_reject c' = None /\ scope_of c' = scope_of c /\
     cc_code c' = cc_code c ++ [mkIns OP_PUSH_CONST 0; mkIns OP_RET 0])) c.
Proof.
  intros Hc. apply wp_bind. unfold emit_ at 1. eapply wp_emit; [exact Hc| |].
  - intros c1 M1 E1 Hc1. apply wp_ret. unfold emit_. eapply wp_emit; [exact Hc1| |].
    + intros c2 M2 E2 Hc2. apply wp_ret. right. split; [apply M2|]. split; [congruence|].
      by rewrite (mv_code _ _ _ _ M2), (mv_code _ _ _ _ M1), <- app_assoc.
    + intros j c2 Hf. apply wp_ret. left. apply Hf.
  - intros j c1 Hf. apply wp_ret. unfold emit_. apply wp_bind. apply emit_any; [apply Hf|].
    intros i c2 Hr. apply wp_ret. by left.
Qed.

Lemma compile_body_sound info fuel c :
  wf c -> (length (rest c) <= fuel)%nat -> scope_of c = empty_scope -> cc_code c = [] ->
  params_eligible (fi_params info) = None -> Forall param_text (fi_params info) ->
  wp (compile_body info fuel) (fun broke c' => broke = false /\ (cc_reject c' <> None \/ exists ts s G,
    rest c = ts ++ [tok_eof] /\ dstmts div shift ts s /\
    scope_params (fi_params info) empty_scope = Some G /\ scope_stmt fs G s = Some (scope_of c') /\
    scope_wf (scope_of c') /\ cc_reject c' = None /\
    cc_code c' = gen_stmt (s_names (scope_of c')) fs 0 s ++ [mkIns OP_PUSH_CONST 0; mkIns OP_RET 0])) c.
Proof.
  intros Hc Hf Hs0 Hcode He Ht. pose proof (rest_len_pos _ _ _ _ Hc) as Hpos. unfold compile_body.
  eapply wp_call; [by apply declare_params_sound|]. intros broke c1 [-> [Hf1|(Hs1 & M1 & Hc1)]].
  - eapply wp_call; [by apply body_failed; [|lia]|]. intros [] c2 ->. apply wp_bind.
    apply wp_unless_failed; [done|]. apply wp_ret. split; [done|left]. apply Hf1.
  - pose proof (moves_rest_len _ _ _ _ M1) as L1. cbn [length] in L1. rewrite Hs0 in Hs1.
    eapply wp_call; [apply body_sound; [exact Hc1|lia..]|]. intros [] c2 [Hf2|(ts & s & D & S & M2 & Hc2 & R2)].
    { apply wp_bind, wp_unless_failed; [done|]. apply wp_ret. split; [done|left]. apply Hf2. }
    apply wp_bind, wp_unless; [by eapply wf_reject|].
    eapply wp_mono; [by apply finish_sound|]. intros [] c3 [Hr|(Hr & E3 & C3)]; apply wp_ret; (split; [done|]); [by left|right].
    exists ts, s, (scope_of c1).
    split; [by rewrite (mv_rest _ _ _ _ M1), (mv_rest _ _ _ _ M2), R2|].
    split; [done|]. split; [done|]. split; [by rewrite E3|]. split; [rewrite E3; by eapply wf_scope|]. split; [done|].
    rewrite C3, (mv_code _ _ _ _ M2), (mv_code _ _ _ _ M1), Hcode, E3. done.
Qed.
End Function.

(** ** The module *)

(** What calls of a function are compiled against. *)
Definition signature (f : VmFn) : list Z * nat * bool := (fn_name f, nparams f, sig_ok f).
Definition same_sigs (fs fs' : list VmFn) : Prop := map signature fs = map signature fs'.

Section Signatures.
Context (fs fs' : list VmFn) (Hs : same_sigs fs fs').

Lemma index_fn_sig x : index_fn x fs = index_fn x fs'.
Proof.
  revert fs' Hs. induction fs as [|f l IH]; intros [|f' l'] E; try done. unfold same_sigs in E. cbn [map] in E.
  injection E as E1 E2 E3 E4. cbn [index_fn]. rewrite E1, E3. by rewrite (IH l' E4).
Qed.

Lemma nparams_sig i : nparams <$> fs !! i = nparams <$> fs' !! i.
Proof.
  revert fs' Hs i. induction fs as [|f l IH]; intros [|f' l'] E i; try done. unfold same_sigs in E. cbn [map] in E.
  injection E as E1 E2 E3 E4. destruct i as [|i]; [by cbn; rewrite E2|]. apply (IH l' E4).
Qed.

Lemma scope_sigs :
  (forall e G, scope_expr fs G e = scope_expr fs' G e) /\ (forall es G, scope_args fs G es = scope_args fs' G es).
Proof.
  apply cexpr_cargs_ind; simpl; intros; try done;
    repeat match goal with H : forall G, _ = _ |- _ => rewrite H; clear H end; try done.
  rewrite index_fn_sig. destruct (index_fn f fs') as [i|]; [|done]. by rewrite nparams_sig.
Qed.

Lemma scope_stmt_sig s : forall G, scope_stmt fs G s = scope_stmt fs' G s.
Proof.
  destruct scope_sigs as [He Ha].
  induction s as [|s1 IH1 s2 IH2|e|x e|x i e|x n lit|x lit|e s1 IH1 s2 IH2|e s IH|init IHi cond step IHs body IHb];
    intros G; cbn [scope_stmt]; rewrite ?He; try done.
  - rewrite IH1. destruct (scope_stmt fs' G s1); cbn [mbind option_bind]; auto.
  - destruct (declare x G) as [[i G1]|]; cbn [mbind option_bind]; [|done]. by rewrite Ha.
  - destruct (index_of x (s_names G)); [|done]. by rewrite Ha.
  - rewrite IH1. destruct (scope_expr fs' G e), (scope_stmt fs' G s1); cbn [mbind option_bind]; auto.
  - by rewrite IH.
  - rewrite IHi. destruct (scope_stmt fs' G init) as [G1|]; cbn [mbind option_bind]; [|done]. rewrite He, IHb.
    destruct (scope_expr fs' G1 cond), (scope_stmt fs' G1 body); cbn [mbind option_bind]; auto.
Qed.

Lemma gen_sigs names :
  (forall e base, gen names fs base e = gen names fs' base e) /\
  (forall es base, gen_args names fs base es = gen_args names fs' base es).
Proof.
  apply cexpr_cargs_ind; simpl; intros; try done;
    repeat match goal with H : forall G, _ = _ |- _ => rewrite !H; clear H end; try done.
  unfold target. by rewrite index_fn_sig.
Qed.

Lemma gen_lit_sig names li es : forall base ei, gen_lit names fs base li ei es = gen_lit names fs' base li ei es.
Proof.
  destruct (gen_sigs names) as [Hg _]. induction es as [|e es IH]; intros base ei; cbn [gen_lit]; [done|]. by rewrite Hg, IH.
Qed.

Lemma gen_stmt_sig names s : forall base, gen_stmt names fs base s = gen_stmt names fs' base s.
Proof.
  destruct (gen_sigs names) as [Hg _].
  induction s; intros base; cbn [gen_stmt]; rewrite ?Hg, ?gen_lit_sig;
    repeat match goal with H : forall b, gen_stmt _ _ b _ = _ |- _ => rewrite !H; clear H end; done.
Qed.
End Signatures.

Lemma compiled_sig div shift fs fs' info f : same_sigs fs fs' -> compiled div shift fs info f -> compiled div shift fs' info f.
Proof.
  intros Hs (He & ts & s & G & G' & HL & HD & HP & HS & HW & HC & HN & HA). split; [done|]. exists ts, s, G, G'.
  rewrite <- (scope_stmt_sig _ _ Hs), <- (gen_stmt_sig _ _ Hs). do 7 (split; [done|]). done.
Qed.

(** What the second loop makes of a declaration. *)
Definition built (div shift : bool) (fs : list VmFn) (info : C0FnInfo) (f : VmFn) : Prop :=
  signature f = signature (declare_fn info) /\
  if ok f then compiled div shift fs info f /\ reject f = [] else code f = [] /\ nlocals f = O.

Section Module.
Context `{Env} (div shift : bool) (src : list Z).

Lemma declare_sig info : signature (declare_fn info) =
  (fi_name info, length (fi_params info), negb (is_some (c0_sig_eligible info))).
Proof. unfold declare_fn. by destruct (c0_sig_eligible info). Qed.

(** The compiler run on its own state. *)
Lemma mem_of_wp {A} (m : CM A) (Q : A -> C0Comp -> Prop) c m0 : wp m Q c ->
  mem_ok (fun r => Q r.1 r.2) ((fun _ : C0Mem => match m c with
                                         | Some (x, c) => Val (x, c) (cc_mem c)
                                         | None => MStuck
                                         end) m0).
Proof. unfold wp. by destruct (m c) as [[x c']|]. Qed.

Lemma compile_fn_mem fs info f m : info_ok src info -> f = declare_fn info ->
  mem_ok (built div shift fs info) (compile_fn div shift fs info f m).
Proof.
  intros [Hn Hps _ _ _ _] ->. unfold compile_fn.
  destruct (sig_ok (declare_fn info)) eqn:Es; cbn [negb].
  2:{ cbn. split; [done|]. unfold declare_fn. by destruct (c0_sig_eligible info). }
  assert (c0_sig_eligible info = None) as Hel by (unfold declare_fn in Es; by destruct (c0_sig_eligible info)).
  assert (params_eligible (fi_params info) = None) as He.
  { unfold c0_sig_eligible in Hel. by destruct (negb (is_int (return_type info))). }
  assert (ok (declare_fn info) = false /\ code (declare_fn info) = [] /\ nlocals (declare_fn info) = O) as (Ho & Hc0 & Hl0).
  { unfold declare_fn. by destruct (c0_sig_eligible info). }
  eapply mem_bind; [apply c0_tokenize_mem|]. intros toks m1 Hlex.
  set (c := comp_init div shift m1 toks fs).
  assert (rest c = toks) as Hrest by done.
  assert (wf div shift fs c) as Hwf.
  { constructor; [rewrite Hrest; by eapply lexes_good|done..|]. by split; [|constructor]. }
  pose proof (compile_body_sound div shift fs info (S (length toks)) c Hwf ltac:(rewrite Hrest; lia) eq_refl eq_refl He Hps) as Hw.
  eapply mem_bind; [exact (mem_of_wp _ _ c m1 Hw)|]. intros [broke c'] m2. cbn [fst snd].
  intros [-> [Hr|(ts & s & G & Er & HD & HP & HS & HW & Hr & Hcode)]].
  - destruct (cc_reject c') as [r|]; [|done].
    change (built div shift fs info (reject_fn (declare_fn info) true (rejection_text r))).
    split; [unfold signature; cbn [reject_fn fn_name nparams sig_ok]; by rewrite Es|]. cbn [reject_fn ok]. by rewrite Ho.
  - rewrite Hr. eapply mem_bind; [apply arena_mem|]. intros _ m3 _. eapply mem_bind; [apply arena_mem|]. intros _ m4 _.
    unfold mret, Mem_ret, mem_ok. split; [unfold signature; cbn [fn_name nparams sig_ok]; by rewrite Es|].
    cbn [ok reject]. split; [|unfold declare_fn; by rewrite Hel]. split; [done|]. exists ts, s, G, (scope_of c'). rewrite Hrest in Er. rewrite <- Er. do 7 (split; [done|]). done.
Qed.

(** The loop over the declarations: [front] is compiled, the rest is not. *)
Lemma compile_fns_mem fs0 infos : forall front infos0 m,
  same_sigs (front ++ map declare_fn infos) fs0 -> Forall (info_ok src) infos ->
  Forall2 (built div shift fs0) infos0 front ->
  mem_ok (Forall2 (built div shift fs0) (infos0 ++ infos))
    (compile_fns div shift (length front) infos (front ++ map declare_fn infos) m).
Proof.
  induction infos as [|info infos IH]; intros front infos0 m Hs Ho Hb; cbn [compile_fns map].
  { rewrite !app_nil_r. done. }
  apply Forall_cons_1 in Ho as [Hi Ho]. rewrite lookup_app_r, Nat.sub_diag by lia. cbn [lookup list_lookup].
  eapply mem_bind; [by apply compile_fn_mem|]. intros f m1 [Hf Hd].
  rewrite insert_app_r_alt, Nat.sub_diag by lia. cbn [insert list_insert map].
  rewrite !cons_middle, !(app_assoc _ [_]). rewrite Nat.add_1_r.
  assert (length (front ++ [f]) = S (length front)) as Hl by (rewrite length_app; cbn [length]; lia).
  rewrite <- Hl. apply IH; [|done|].
  - unfold same_sigs in *. rewrite <- Hs, !map_app. cbn [map]. by rewrite Hf, <- app_assoc.
  - apply Forall2_app; [done|]. constructor; [|constructor]. split; [done|].
    destruct (ok f); [|done]. destruct Hd as [Hd ?]. split; [by eapply compiled_sig|done].
Qed.
End Module.

(** ** Locals of a compiled function *)

(** At most 64 locals, all different. *)
Definition names_ok (G : scope) : Prop := (length (s_names G) <= LIN_VM_MAX_LOCALS)%nat /\ NoDup (s_names G).

Lemma declare_names x G i G' : declare x G = Some (i, G') -> names_ok G -> names_ok G'.
Proof.
  unfold declare. destruct (index_of x (s_names G)) eqn:E; [by intros [= _ <-]|].
  destruct (Nat.leb_spec LIN_VM_MAX_LOCALS (length (s_names G))) as [|Hlt]; [done|]. intros [= _ <-] [Hl Hd].
  split; cbn [s_names]; [rewrite length_app; cbn [length]; lia|].
  apply list.NoDup_app. split; [done|]. split; [|apply NoDup_singleton].
  intros y Hy ->%list_elem_of_singleton. by apply index_of_None in E.
Qed.

Lemma scope_stmt_names fs s : forall G G', scope_stmt fs G s = Some G' -> names_ok G -> names_ok G'.
Proof.
  induction s as [|s1 IH1 s2 IH2|e|x e|x i e|x n lit|x lit|e s1 IH1 s2 IH2|e s IH|init IHi cond step IHs body IHb];
    cbn [scope_stmt]; intros G G' H.
  - by injection H as <-.
  - apply bind_Some in H as (G1 & H1 & H2). eauto.
  - by case_match; simplify_eq.
  - case_match; [|done]. apply bind_Some in H as ([i G1] & H1 & H2). case_match; simplify_eq. by eapply declare_names.
  - by case_match; simplify_eq.
  - apply bind_Some in H as ([i G1] & H1 & H2). case_match; simplify_eq. by apply (declare_names x G i G1).
  - by repeat case_match; simplify_eq.
  - case_match; [|done]. apply bind_Some in H as (G1 & H1 & H2). eauto.
  - case_match; [|done]. eauto.
  - apply bind_Some in H as (G1 & H1 & H). case_match; [|done]. apply bind_Some in H as (G2 & H2 & H3). eauto.
Qed.

(** The parameters are the first locals, in order, when they are distinct. *)
Lemma scope_params_names ps : forall G G', scope_params ps G = Some G' ->
  NoDup (s_names G ++ map p_name ps) -> s_names G' = s_names G ++ map p_name ps.
Proof.
  induction ps as [|p ps IH]; intros G G' H Hd; cbn [scope_params map] in *.
  { injection H as ->. by rewrite app_nil_r. }
  apply bind_Some in H as ([i G1] & H1 & H2).
  assert (s_names G1 = s_names G ++ [p_name p]) as E1.
  { unfold declare in H1. destruct (index_of (p_name p) (s_names G)) eqn:E.
    - exfalso. apply index_of_lookup in E. apply list.NoDup_app in Hd as (_ & Hd & _).
      apply (Hd (p_name p)); [by eapply list_elem_of_lookup_2|left].
    - by destruct (_ <=? _)%nat; simplify_eq. }
  set (G2 := match c0_arr_len_of _ with Some _ => _ | None => _ end) in H2.
  assert (s_names G2 = s_names G1) as E2 by (unfold G2; by destruct (c0_arr_len_of _)).
  apply IH in H2; rewrite E2, E1, <- app_assoc in *; done.
Qed.

Lemma scope_params_ok ps : forall G G', scope_params ps G = Some G' -> names_ok G ->
  names_ok G' /\ s_names G `prefix_of` s_names G'.
Proof.
  induction ps as [|p ps IH]; intros G G' H HG; cbn [scope_params] in H; [by injection H as <-|].
  apply bind_Some in H as ([i G1] & H1 & H2). apply declare_prefix in H1 as P1. destruct P1 as [P1 _].
  apply declare_names in H1 as N1; [|done].
  set (G2 := match c0_arr_len_of _ with Some _ => _ | None => _ end) in H2.
  assert (s_names G2 = s_names G1) as E2 by (unfold G2; by destruct (c0_arr_len_of _)).
  apply IH in H2 as [N2 P2]; [|unfold names_ok; by rewrite E2]. split; [done|]. rewrite E2 in P2. by etrans.
Qed.

Lemma eligible_params info : c0_sig_eligible info = None -> params_eligible (fi_params info) = None.
Proof. unfold c0_sig_eligible. by destruct (negb (is_int (return_type info))). Qed.

Lemma scope_params_wf ps : forall G G', scope_params ps G = Some G' -> params_eligible ps = None ->
  scope_wf G -> scope_wf G'.
Proof.
  induction ps as [|p ps IH]; intros G G' H He HG; cbn [scope_params] in H; [by injection H as <-|].
  apply bind_Some in H as ([i G1] & H1 & H2). apply declare_wf in H1; [|done].
  eapply IH; [exact H2|by eapply eligible_tail|]. destruct (c0_arr_len_of (type_name p)) as [n|] eqn:En; [|done].
  pose proof (eligible_arr p ps n He En) as Hb. unfold arr_len_bad in Hb. to_prop. apply mark_wf; [lia|done].
Qed.

(** Texts of less than 2^60 bytes. *)
Definition text_limit : Z := 1152921504606846976.

Lemma lexes_length l ts : lexes l ts -> (length ts <= S (length l))%nat.
Proof.
  induction 1; cbn [length]; rewrite ?length_app; cbn [length]; try lia.
  - destruct H; cbn [length] in *; rewrite ?length_app; lia.
  - destruct s; [done|]. cbn [length]. lia.
  - apply list_elem_of_In in H. destruct s; [|cbn [length]; lia]. cbn in H. by destruct_or? H.
Qed.

(** A compiled function is one the image loader accepts. *)
Lemma compiled_valid div shift fs info f : compiled div shift fs info f -> ok f = true ->
  nparams f = length (fi_params info) -> NoDup (map p_name (fi_params info)) ->
  Z.of_nat (length (fi_body info)) < text_limit -> Z.of_nat (length fs) < text_limit ->
  fn_valid (Z.of_nat (length fs)) f.
Proof.
  intros (He & ts & s & G & G' & HL & HD & HP & HS & [HWl HWa] & HC & HN & HA) Hok Hp Hnd Hb Hfs.
  apply scope_params_ok in HP as HPn; [|split; [apply Nat.le_0_l|apply NoDup_nil_2]]. destruct HPn as [N1 _].
  apply scope_stmt_names in HS as N2; [|done]. destruct N2 as [N2 _].
  pose proof (scope_params_names _ _ _ HP Hnd) as E1. cbn [empty_scope s_names app] in E1.
  pose proof (scope_stmt_prefix _ _ _ _ HS) as P.
  destruct (derived_stmt div shift) as (_ & _ & _ & _ & Hs & _). apply Hs in HD as [Hsok Hsz].
  apply lexes_length in HL. rewrite length_app in HL. cbn [length] in HL.
  set (len := length (code f)).
  assert (len = size_stmt s + 2)%nat as Hlen by (unfold len; rewrite HC, length_app, gen_stmt_size; done).
  unfold text_limit in *.
  constructor; try done.
  - rewrite HC. intros E%app_eq_nil. by destruct E.
  - rewrite Hp, HN, <- (length_map p_name), <- E1. apply prefix_length in P. unfold LIN_VM_MAX_LOCALS in N2. lia.
  - by rewrite HA, HN, HWl.
  - by rewrite HA.
  - rewrite HN. fold len. rewrite HC. apply Forall_app. split.
    + assert (scope_wf G) as HWG.
      { eapply scope_params_wf; [exact HP|by apply eligible_params|]. by split; [|constructor]. }
      destruct (gen_stmt_valid fs (s_names G') len ltac:(unfold two63; lia) ltac:(unfold two63; lia) N2 s G G' 0%nat)
        as [F _]; try done. lia.
    + constructor; [by apply const_valid; try done; int_lia|]. constructor; [by apply plain_valid|constructor].
Qed.

(** ** What c0_build returns *)

(** The module of the declarations [infos]: each is compiled or rejected, then
    the functions whose calls do not all lead to accepted functions are
    rejected, and no others. *)
Definition module_of (div shift : bool) (infos : list C0FnInfo) (m : VmModule) : Prop :=
  exists fs,
    Forall2 (built div shift (map declare_fn infos)) infos fs /\
    Forall2 resolved fs (fns m) /\ supported (ok_at (fns m)) (fns m) /\
    forall P, supported P fs -> forall i, (i < length fs)%nat -> P i -> fns m !! i = fs !! i.

(** C8. [c0_resolve_deps] ends; it changes a function only by marking it
    VM_REJ_DEP_REJECTED, and a function is still accepted exactly when it
    belongs to a set of accepted functions whose calls stay in the set. *)
Theorem c0_resolve_deps_greatest fs : exists fs',
  c0_resolve_deps fs = Some fs' /\ Forall2 resolved fs fs' /\
  forall i, (i < length fs)%nat -> (ok_at fs' i <-> exists P, supported P fs /\ P i).
Proof.
  destruct (resolve_deps_greatest fs) as (fs' & E & Hr & Hm & Hg). exists fs'. split; [done|]. split; [done|].
  intros i Hi. split.
  - intros Hok. exists (ok_at fs'). split; [|done]. intros j f Ef (f' & Ef' & Hok').
    destruct (Forall2_lookup_l _ _ _ _ _ Hr Ef) as (g & Eg & Hfg). rewrite Ef' in Eg. injection Eg as <-.
    destruct Hfg as [->|[_ ->]]; [|done]. rewrite (Forall2_length Hr). apply (Hm j f Ef'). by exists f.
  - intros (P & HP & HPi). destruct (supported_ok P fs i HP HPi Hi) as (f & Ef & Hok).
    exists f. by rewrite (Hg P HP i Hi HPi).
Qed.

Section BuildImpl.
Context `{Env} (div shift : bool) (src : list Z).

Lemma module_mem infos fs : Forall2 (built div shift (map declare_fn infos)) infos fs ->
  exists fs', c0_resolve_deps fs = Some fs' /\ module_of div shift infos (mkModule fs').
Proof.
  intros Hb. destruct (resolve_deps_greatest fs) as (fs' & E & Hr & Hm & Hg). exists fs'. split; [done|].
  exists fs. by split.
Qed.

Lemma build_mem m :
  match c0_build_impl div shift src m with
  | MStuck => False
  | Null _ => alloc_failed \/ (exists m', infos_loop src (S (length src)) 0 1 [] 0 m = Val [] m')
  | Val md _ => exists infos m',
      infos_loop src (S (length src)) 0 1 [] 0 m = Val infos m' /\ infos <> [] /\
      Forall (info_ok src) infos /\ module_of div shift infos md
  end.
Proof.
  unfold c0_build_impl, c0_parse_fn_infos. pose proof (infos_mem src m) as Hi.
  unfold mbind at 1, Mem_bind at 1. unfold mbind at 1, Mem_bind at 1.
  destruct (infos_loop src (S (length src)) 0 1 [] 0 m) as [infos m1| |]; cbn [mem_ok] in Hi; [|by left|done].
  destruct infos as [|info infos]; [right; by exists m1|]. unfold mret at 1, Mem_ret at 1. cbv iota beta. set (l := info :: infos) in *.
  assert (mem_ok (module_of div shift l) ((
    _ ← alloc_or_null (c0_arena_alloc SIZEOF_VmModule);
    _ ← alloc_or_null (c0_arena_alloc (Z.of_nat (Nat.max 1 (length l)) * SIZEOF_VmFn));
    fs ← compile_fns div shift 0 l (map declare_fn l);
    match c0_resolve_deps fs with None => mstuck | Some fs => mret (mkModule fs) end) m1)) as Hm.
  { eapply mem_bind; [apply arena_mem|]. intros _ m2 _. eapply mem_bind; [apply arena_mem|]. intros _ m3 _.
    eapply mem_bind; [by apply (compile_fns_mem div shift src (map declare_fn l) l [] [])|].
    intros fs m4 Hb. destruct (module_mem l fs Hb) as (fs' & -> & Hmod). exact Hmod. }
  match type of Hm with mem_ok _ ?r => match goal with |- match ?g with Val _ _ => _ | Null _ => _ | MStuck => _ end => change g with r end; destruct r as [md m2| |] end;
    cbn [mem_ok] in Hm; [|by left|done].
  by exists l, m1.
Qed.
End BuildImpl.

(** C6. [c0_build] always returns.  NULL means that an allocation failed or
    that the text declares no function.  Otherwise every declaration of the text
    has its function: rejected, or the code of a syntax tree of the C0 grammar
    that its body spells, with its names resolved, calling only accepted
    functions; and no function is rejected for its dependencies without need. *)
Theorem c0_build_correct `{Env} (shift : bool) src m :
  match (if shift then c0_build_full src m else c0_build src m) with
  | MStuck => False
  | Null _ => alloc_failed \/ (exists m', infos_loop src (S (length src)) 0 1 [] 0 m = Val [] m')
  | Val md _ => exists infos m',
      infos_loop src (S (length src)) 0 1 [] 0 m = Val infos m' /\ infos <> [] /\
      Forall (info_ok src) infos /\ module_of true shift infos md
  end.
Proof. unfold c0_build, c0_build_full. destruct shift; exact (build_mem _ _ src m). Qed.

(** ** Images and safety of built modules *)

(** What the grammar of C0 does not bound: the sizes of the image format, and
    eight arrays a function. *)
Record within_limits (m : VmModule) : Prop := {
  wl_ok : Forall (fun f => ok f = true) (fns m);
  wl_nfns : Z.of_nat (length (fns m)) <= LIN_BC1_MAX_FNS;
  wl_ins : Z.of_nat (ins_total (fns m)) <= LIN_BC1_MAX_INS_TOTAL;
  wl_names : Z.of_nat (sum_list_with (fun f => length (fn_name f)) (fns m)) <= LIN_BC1_MAX_STR_BYTES;
  wl_arrays : Forall (fun f => count_arrays (arr_n f) <= 8) (fns m)
}.

Definition distinct_params (info : C0FnInfo) : Prop := NoDup (map p_name (fi_params info)).

Lemma slice_length off n (l : list Z) : (length (slice off n l) <= length l)%nat.
Proof. unfold slice. rewrite length_take, length_drop. lia. Qed.

(** An accepted function of a module comes from its declaration. *)
Lemma module_fn div shift infos m i f : module_of div shift infos m -> fns m !! i = Some f -> ok f = true ->
  exists info, infos !! i = Some info /\ compiled div shift (map declare_fn infos) info f /\ reject f = [] /\
    signature f = signature (declare_fn info).
Proof.
  intros (fs & Hb & Hr & _ & _) Ef Hok.
  destruct (Forall2_lookup_r _ _ _ _ _ Hr Ef) as (g & Eg & [->|[_ ->]]); [|done].
  destruct (Forall2_lookup_r _ _ _ _ _ Hb Eg) as (info & Ei & Hs & Hc). rewrite Hok in Hc.
  exists info. split; [done|]. by destruct Hc.
Qed.

Lemma module_length div shift infos m : module_of div shift infos m -> length (fns m) = length infos.
Proof. intros (fs & Hb & Hr & _). by rewrite <- (Forall2_length Hr), (Forall2_length Hb). Qed.

Lemma module_loadable div shift src infos m :
  module_of div shift infos m -> Forall (info_ok src) infos -> Forall distinct_params infos ->
  Z.of_nat (length src) < text_limit -> within_limits m -> loadable m.
Proof.
  intros Hm Ho Hd Hl [Wok Wn Wi Ws Wa].
  assert (forall i f, fns m !! i = Some f -> fn_valid (Z.of_nat (length (fns m))) f /\ sig_ok f = true /\ reject f = []) as Hall.
  { intros i f Ef. pose proof (Forall_lookup_1 _ _ _ _ Wok Ef) as Hok. cbn beta in Hok.
    destruct (module_fn _ _ _ _ _ _ Hm Ef Hok) as (info & Ei & Hc & Hrej & Hs).
    assert (sig_ok f = true) as Hsig.
    { destruct Hc as [He _]. unfold declare_fn in Hs. rewrite He in Hs. by injection Hs. }
    split; [|done]. rewrite (module_length _ _ _ _ Hm), <- (length_map declare_fn).
    destruct (Forall_lookup_1 _ _ _ _ Ho Ei) as [_ _ (off & n & Hbody) _ _ _].
    eapply compiled_valid; [exact Hc|done| |by apply (Forall_lookup_1 _ _ _ _ Hd Ei)| |].
    - rewrite declare_sig in Hs. by injection Hs.
    - rewrite Hbody. pose proof (slice_length off n src). lia.
    - rewrite length_map, <- (module_length _ _ _ _ Hm). unfold LIN_BC1_MAX_FNS, text_limit in *. lia. }
  constructor; try done; apply Forall_lookup; intros i f Ef; by destruct (Hall i f Ef).
Qed.

Lemma built_loadable `{Env} src m md m1 infos m2 :
  c0_build src m = Val md m1 ->
  infos_loop src (S (length src)) 0 1 [] 0 m = Val infos m2 ->
  Forall distinct_params infos -> Z.of_nat (length src) < text_limit -> within_limits md ->
  loadable md /\ module_safe md.
Proof.
  intros Hb Hi Hd Hl Hw. pose proof (build_mem true false src m) as Hs.
  unfold c0_build in Hb. rewrite Hb in Hs. destruct Hs as (infos' & m3 & Hi' & _ & Ho & Hm).
  rewrite Hi in Hi'. injection Hi' as <- _.
  pose proof (module_loadable _ _ _ _ _ Hm Ho Hd Hl Hw) as Hld. split; [done|].
  unfold module_safe. eapply Forall_impl; [|exact (ld_fns _ Hld)]. intros f. apply fn_valid_safe.
Qed.

(** C7. A module built from a text whose functions are all accepted, and name
    their parameters apart, is one the image format can carry and the machine
    can run: within the sizes of the format every operand, jump and call of its
    code is in range, its array lengths and locals fit, so [c0_image_encode] and
    [lin_bc1_load] are inverse on it, and it satisfies the machine's safety
    condition. *)
Theorem c0_build_loadable `{Env} src m md m1 infos m2 :
  c0_build src m = Val md m1 ->
  infos_loop src (S (length src)) 0 1 [] 0 m = Val infos m2 ->
  Forall distinct_params infos -> Z.of_nat (length src) < text_limit -> within_limits md ->
  loadable md /\ module_safe md.
Proof. exact (built_loadable src m md m1 infos m2). Qed.

Definition sample_infos : list C0FnInfo :=
  match @infos_loop calm sample (S (length sample)) 0 1 [] 0 mem0 with Val infos _ => infos | _ => [] end.
Definition sample_module : VmModule :=
  match @c0_build calm sample mem0 with Val md _ => md | _ => mkModule [] end.

Lemma sample_built : exists m1 m2, @c0_build calm sample mem0 = Val sample_module m1 /\
  @infos_loop calm sample (S (length sample)) 0 1 [] 0 mem0 = Val sample_infos m2.
Proof.
  eexists _, _. split; vm_compute; reflexivity.
Qed.

Lemma sample_distinct : Forall distinct_params sample_infos.
Proof.
  apply (bool_decide_unpack _). vm_compute. exact I.
Qed.

Lemma sample_limits : within_limits sample_module.
Proof.
  constructor; try (vm_compute; discriminate); apply (bool_decide_unpack _); vm_compute; exact I.
Qed.

Lemma c0_build_loadable_witness :
  (exists m1 m2, @c0_build calm sample mem0 = Val sample_module m1 /\
     @infos_loop calm sample (S (length sample)) 0 1 [] 0 mem0 = Val sample_infos m2) /\
  Forall distinct_params sample_infos /\ within_limits sample_module /\
  loadable sample_module /\ module_safe sample_module.
Proof.
  split; [exact sample_built|]. split; [exact sample_distinct|]. split; [exact sample_limits|].
  destruct sample_built as (m1 & m2 & E1 & E2).
  apply (c0_build_loadable sample mem0 sample_module m1 sample_infos m2 E1 E2 sample_distinct); [|exact sample_limits].
  reflexivity.
Defined.

(** ** Where the front accepts too much *)

(** The outcome of a call of the module of a text. *)
Definition run_text (src : list Z) (fi : Z) (args : list Z) : option vm_out :=
  match @c0_build calm src mem0 with
  | Val m _ => vm_exec 4000 m true fi args 0 0
  | _ => None
  end.

(** A function of 65 parameters of the same name. *)
Definition many_params : list Z :=
  cstr "!f(" ++ concat (replicate 64 (cstr "a: int, ")) ++ cstr "a: int) -> int { ^a }".

(** Parameters of the same name are accepted and share a local, while the
    machine places arguments by position: a later parameter reads the argument
    before its own, and with 65 of them the last argument is written past the
    64 locals of the frame. *)
Theorem duplicate_params_misplaced :
  run_text (cstr "!f(a: int, a: int, b: int) -> int { ^b }") 0 [1; 2; 3] = Some (V_ok (mkResult 2 1) 2) /\
  run_text many_params 0 (replicate 65 1) = Some V_ub.
Proof. split; vm_compute; reflexivity. Qed.

(** A scalar declared as an array after it was assigned keeps its value as
    the place of its array: here [x], of three zeros, reads the array [y]. *)
Theorem late_array_aliases :
  run_text (cstr "!f() -> int { x = 1; x : [3]int; y : [2]int = [7, 8]; ^x[0] }") 0 [] =
    Some (V_ok (mkResult 7 1) 11).
Proof. vm_compute. reflexivity. Qed.
