(* ===== verification/C0Sem.v ===== *)
(** * The meaning of C0 programs, with their cost

    An interpreter of syntax trees that knows nothing of bytecode: variables are
    names, arrays are lists, control is structured.  It counts the instructions
    the published goldens count, and stops with the error the machine reports
    when the count passes the limit, a division has no result, or calls nest too
    deep.  [None] is only a model out of fuel. *)
From stdpp Require Import strings gmap.
From S2P Require Import Prelude Common Vm C0Lex C0Comp C0Build C0Lang C0Code.

(** ** Outcomes and cost *)

Inductive sres (A : Type) : Type :=
| SVal (x : A) (steps : Z)
| SErr (e : LinErr) (steps : Z).
Arguments SVal {A} x steps.
Arguments SErr {A} e steps.

(** A computation from the steps made so far. *)
Definition SM (A : Type) : Type := Z -> option (sres A).

#[export] Instance SM_ret : MRet SM := fun _ x st => Some (SVal x st).
#[export] Instance SM_bind : MBind SM := fun _ _ k m st =>
  match m st with
  | Some (SVal x st) => k x st
  | Some (SErr e st) => Some (SErr e st)
  | None => None
  end.

Definition s_err {A} (e : LinErr) : SM A := fun st => Some (SErr e st).
Definition s_stuck {A} : SM A := fun _ => None.

(** The arithmetic of [int64_t]. *)
Definition unop (o : VmOp) (v : Z) : Z :=
  match o with
  | OP_BIT_NOT => Z.lnot v
  | OP_NEG => lin_wsub 0 v
  | _ => b2z (v =? 0)
  end.

Definition binop (o : VmOp) (x y : Z) : SM Z :=
  match binop_result o x y with
  | VOk r => mret r
  | VErr e => s_err e
  | VUB => s_stuck
  end.

(** ** Stores *)

(** The scalars (0 when never assigned) and the arrays of a running function. *)
Record store : Type := mkStore { scalars : gmap (list Z) Z; arrays : gmap (list Z) (list Z) }.

Definition scalar (σ : store) (x : list Z) : Z := default 0 (scalars σ !! x).
Definition array (σ : store) (x : list Z) : list Z := default [] (arrays σ !! x).

Definition assign (x : list Z) (v : Z) (σ : store) : store := mkStore (<[x := v]> (scalars σ)) (arrays σ).

(** Reading out of an array gives 0, writing out of it does nothing. *)
Definition read (σ : store) (x : list Z) (i : Z) : Z := default 0 (lookupz (array σ x) i).
Definition write (x : list Z) (i v : Z) (σ : store) : store :=
  mkStore (scalars σ) (<[x := default (array σ x) (insertz i v (array σ x))]> (arrays σ)).

(** A function: its parameters, its variables with the lengths of the arrays,
    and its body. *)
Record sfn : Type := mkSfn { sf_params : list (list Z); sf_scope : scope; sf_body : cstmt }.

(** The store a call starts from: the arguments of scalar parameters, and every
    array zeroed. *)
Fixpoint bind_params (ps : list (list Z)) (args : list Z) (σ : store) : store :=
  match ps, args with
  | x :: ps, v :: args => bind_params ps args (assign x v σ)
  | _, _ => σ
  end.

Fixpoint zero_arrays (names : list (list Z)) (lens : list Z) : gmap (list Z) (list Z) :=
  match names, lens with
  | x :: names, n :: lens =>
      if n =? 0 then zero_arrays names lens else <[x := replicate (Z.to_nat n) 0]> (zero_arrays names lens)
  | _, _ => ∅
  end.

Definition start_store (f : sfn) (args : list Z) : store :=
  bind_params (sf_params f) args (mkStore ∅ (zero_arrays (s_names (sf_scope f)) (s_arrs (sf_scope f)))).

(** ** Evaluation *)

(** How a statement ends. *)
Inductive flow : Type :=
| F_next (σ : store)
| F_return (v : Z).

(** The program: the function a name denotes, by its index. *)
Record program : Type := mkProgram { pg_sigs : list VmFn; pg_fns : list (option sfn) }.

Section Eval.
Context (limit : Z) (sigs : list VmFn).

(** One instruction of cost. *)
Definition tick : SM unit := fun st =>
  Some (if limit <? st + 1 then SErr LIN_ERR_VM_STEP_LIMIT (st + 1) else SVal tt (st + 1)).

(** The calls, by the index of the callee. *)
Context (call : nat -> list Z -> SM Z).

Fixpoint eval (σ : store) (e : cexpr) : SM Z :=
  match e with
  | XNum v => _ ← tick; mret v
  | XVar x => _ ← tick; mret (scalar σ x)
  | XIndex x e => i ← eval σ e; _ ← tick; mret (read σ x i)
  | XLen x => _ ← tick; mret (Z.of_nat (length (array σ x)))
  | XUn o e => v ← eval σ e; _ ← tick; mret (unop o v)
  | XBin o e1 e2 => v1 ← eval σ e1; v2 ← eval σ e2; _ ← tick; binop o v1 v2
  | XAnd e1 e2 => v1 ← eval σ e1; _ ← tick; if v1 =? 0 then mret v1 else _ ← tick; eval σ e2
  | XOr e1 e2 => v1 ← eval σ e1; _ ← tick; if v1 =? 0 then _ ← tick; eval σ e2 else mret v1
  | XCall f es =>
      vs ← eval_args σ es;
      _ ← tick;
      match index_fn f sigs with Some fi => call fi vs | None => s_stuck end
  end
with eval_args (σ : store) (es : cargs) : SM (list Z) :=
  match es with
  | ANil => mret []
  | ACons e es => v ← eval σ e; vs ← eval_args σ es; mret (v :: vs)
  end.

(** The elements of a literal, in order, each stored before the next is computed. *)
Fixpoint store_lit (x : list Z) (ei : Z) (es : cargs) (σ : store) : SM store :=
  match es with
  | ANil => mret σ
  | ACons e es => _ ← tick; v ← eval σ e; _ ← tick; store_lit x (ei + 1) es (write x ei v σ)
  end.

(** A loop: the condition, then the body, then a jump back. *)
Fixpoint loop (n : nat) (cond : cexpr) (body : store -> SM flow) (σ : store) : SM flow :=
  match n with
  | O => s_stuck
  | S n =>
      v ← eval σ cond;
      _ ← tick;
      if v =? 0 then mret (F_next σ)
      else
        r ← body σ;
        match r with
        | F_return v => mret (F_return v)
        | F_next σ => _ ← tick; loop n cond body σ
        end
  end.

(** [k] after a statement that did not return. *)
Definition and_then (r : flow) (k : store -> SM flow) : SM flow :=
  match r with F_return v => mret (F_return v) | F_next σ => k σ end.

Fixpoint exec (n : nat) (s : cstmt) (σ : store) : SM flow :=
  match s with
  | SSkip => mret (F_next σ)
  | SSeq s1 s2 => r ← exec n s1 σ; and_then r (exec n s2)
  | SReturn e => v ← eval σ e; _ ← tick; mret (F_return v)
  | SAssign x e => v ← eval σ e; _ ← tick; mret (F_next (assign x v σ))
  | SStore x i e => iv ← eval σ i; v ← eval σ e; _ ← tick; mret (F_next (write x iv v σ))
  | SDecl x _ lit | SLit x lit => σ ← store_lit x 0 lit σ; mret (F_next σ)
  | SIf e s1 s2 =>
      v ← eval σ e;
      _ ← tick;
      if v =? 0 then exec n s2 σ
      else r ← exec n s1 σ; and_then r (fun σ => _ ← tick; mret (F_next σ))
  | SWhile e s => loop n e (exec n s) σ
  | SFor init cond step body =>
      r ← exec n init σ;
      and_then r (loop n cond (fun σ => r ← exec n body σ; and_then r (exec n step)))
  end.

(** The body of a function; one that does not return gives 0, two instructions
    later. *)
Definition run_body (n : nat) (f : sfn) (args : list Z) : SM Z :=
  r ← exec n (sf_body f) (start_store f args);
  match r with
  | F_return v => mret v
  | F_next _ => _ ← tick; _ ← tick; mret 0
  end.
End Eval.

(** A call of the function of index [fi], at a nesting depth. *)
Fixpoint call_fn (limit : Z) (p : program) (fuel depth fi : nat) (args : list Z) : SM Z :=
  match fuel with
  | O => s_stuck
  | S fuel =>
      if (LIN_VM_MAX_DEPTH <? depth)%nat then s_err LIN_ERR_VM_DEPTH
      else
        match pg_fns p !! fi with
        | Some (Some f) =>
            if negb (length args =? length (sf_params f))%nat then s_err LIN_ERR_VM_ARITY
            else run_body limit (pg_sigs p) (call_fn limit p fuel (depth + 1)) fuel f args
        | _ => s_err LIN_ERR_VM_BAD_FN
        end
  end.
