(* ===== verification/C0Refine.v ===== *)
(** * Compiled code refines the meaning of its tree

    A [point] says which outcomes the machine has from a step count on:
    [at_ fr pc] runs the code from [pc], [halted] has returned.  [refines P m Q]:
    the machine at [P] does what the computation [m] does, and goes on from a
    point that [Q] describes by the value of [m]; the rules follow the monad. *)
From stdpp Require Import strings gmap.
From S2P Require Import Prelude Common Vm VmSpec VmSafe C0Lex C0Comp C0Build C0Lang C0Sound C0LexSpec C0Code C0Sem.

Definition point : Type := Z -> vm_out -> Prop.

Definition halted (v : Z) (sp : nat) : point := fun st o => o = V_ok (mkResult v sp) st.

Section Machine.
Context (ctx : LinVmContext) (f : VmFn) (depth : nat).
Context (Hlim : step_limit ctx + 1 < two64).

Definition at_ (fr : VmFrame) (pc : nat) : point := fun st o =>
  exists fuel, vm_loop fuel ctx f depth fr (Z.of_nat pc) st = Some o.

Definition refines {A} (P : point) (m : SM A) (Q : A -> point -> Prop) : Prop :=
  forall st r, 0 <= st <= step_limit ctx -> m st = Some r ->
  match r with
  | SVal x st' => st <= st' <= step_limit ctx /\ exists P', Q x P' /\ forall o, P' st' o -> P st o
  | SErr e st' => P st (V_err e st')
  end.

Lemma refines_ret {A} P (x : A) (Q : A -> point -> Prop) : Q x P -> refines P (mret x) Q.
Proof. intros HQ st r Hst [= <-]. split; [lia|]. by exists P. Qed.

Lemma refines_bind {A B} P (m : SM A) (k : A -> SM B) R Q :
  refines P m R -> (forall x P', R x P' -> refines P' (k x) Q) -> refines P (m ≫= k) Q.
Proof.
  intros Hm Hk st r Hst. unfold mbind, SM_bind. destruct (m st) as [[x st1|e st1]|] eqn:E; [| |done].
  - intros Er. destruct (Hm _ _ Hst E) as (H1 & P1 & HR & HP). specialize (Hk x P1 HR st1 r ltac:(lia) Er).
    destruct r as [y st2|e st2]; [|by apply HP]. destruct Hk as (H2 & P2 & HQ & HP2).
    split; [lia|]. exists P2. split; [done|]. auto.
  - intros [= <-]. exact (Hm _ _ Hst E).
Qed.

Lemma refines_weaken {A} P (m : SM A) (Q R : A -> point -> Prop) :
  refines P m R -> (forall x P', R x P' -> Q x P') -> refines P m Q.
Proof.
  intros Hm HQ st r Hst Er. specialize (Hm st r Hst Er). destruct r as [x st'|e st']; [|done].
  destruct Hm as (H1 & P' & HR & HP). split; [done|]. exists P'. auto.
Qed.

(** What an instruction does to the frame, as a point; [k] is what the source
    does after paying for it. *)
Definition after {A} (v : vres action) (pc : nat) (k : SM A) (Q : A -> point -> Prop) : Prop :=
  match v with
  | VOk (A_next fr) => refines (at_ fr (S pc)) k Q
  | VOk (A_jump fr pc') => exists n, pc' = Z.of_nat n /\ refines (at_ fr n) k Q
  | VOk (A_ret r) => refines (fun st o => o = V_ok r st) k Q
  | VErr e => refines (fun st o => o = V_err e st) k Q
  | _ => False
  end.

Lemma refines_tick {A} fr pc ins (k : SM A) Q :
  code f !! pc = Some ins -> after (vm_step ctx ins fr) pc k Q ->
  refines (at_ fr pc) (_ ← tick (step_limit ctx); k) Q.
Proof.
  intros Hc Hk st r Hst. unfold mbind, SM_bind, tick.
  assert (forall fuel, vm_loop (S fuel) ctx f depth fr (Z.of_nat pc) st =
    if step_limit ctx <? st + 1 then Some (V_err LIN_ERR_VM_STEP_LIMIT (st + 1)) else
    match vm_step ctx ins fr with
    | VUB => Some V_ub
    | VErr e => Some (V_err e (st + 1))
    | VOk (A_ret r) => Some (V_ok r (st + 1))
    | VOk (A_next fr) => vm_loop fuel ctx f depth fr (Z.of_nat pc + 1) (st + 1)
    | VOk (A_jump fr pc) => vm_loop fuel ctx f depth fr pc (st + 1)
    | VOk (A_call ti args fr) =>
        match vm_exec_ctx fuel ctx ti args (depth + 1) (st + 1) with
        | Some (V_ok r steps) =>
            if (LIN_VM_MAX_STACK <=? length (stack fr))%nat then Some V_ub
            else vm_loop fuel ctx f depth (with_stack fr (val r :: stack fr)) (Z.of_nat pc + 1) steps
        | other => other
        end
    end) as Hl.
  { intros fuel. cbn [vm_loop]. rewrite lookupz_nat, Hc, (u64_id (st + 1)) by (unfold in_u64; lia). done. }
  destruct (Z.ltb_spec (step_limit ctx) (st + 1)) as [Hlt|Hge].
  { intros [= <-]. exists 1%nat. apply Hl. }
  intros Er. assert (0 <= st + 1 <= step_limit ctx) as Hst1 by lia.
  assert (forall P', refines P' k Q -> (forall o, P' (st + 1) o -> at_ fr pc st o) ->
    match r with
    | SVal x st' => st <= st' <= step_limit ctx /\ exists P', Q x P' /\ forall o, P' st' o -> at_ fr pc st o
    | SErr e st' => at_ fr pc st (V_err e st')
    end) as Hgo.
  { intros P' HP HPo. specialize (HP _ _ Hst1 Er). destruct r as [x st'|e st']; [|by apply HPo].
    destruct HP as (H1 & P2 & HQ & HP2). split; [lia|]. exists P2. auto. }
  unfold after in Hk. destruct (vm_step ctx ins fr) as [[fr'|fr' pc'|rr|ti args fr']|e|]; try done.
  - apply (Hgo _ Hk). intros o [fuel Ho]. exists (S fuel). rewrite Hl.
    replace (Z.of_nat pc + 1) with (Z.of_nat (S pc)) by lia. done.
  - destruct Hk as (n & -> & Hk). apply (Hgo _ Hk). intros o [fuel Ho]. exists (S fuel). by rewrite Hl.
  - apply (Hgo _ Hk). intros o ->. exists 1%nat. by rewrite Hl.
  - apply (Hgo _ Hk). intros o ->. exists 1%nat. by rewrite Hl.
Qed.

(** A computation that fails where the machine has stopped. *)
Lemma refines_err {A} e (Q : A -> point -> Prop) : refines (fun st o => o = V_err e st) (s_err e) Q.
Proof. intros st r Hst [= <-]. done. Qed.

(** A computation whose model is out of fuel. *)
Lemma refines_stuck {A} P (Q : A -> point -> Prop) : refines P s_stuck Q.
Proof. by intros st r Hst. Qed.
End Machine.

(** ** Where code lies, and how frames hold stores *)

Definition code_at (f : VmFn) (base : nat) (cs : list VmIns) : Prop :=
  forall i ins, cs !! i = Some ins -> code f !! (base + i)%nat = Some ins.

Lemma code_at_app f base l1 l2 : code_at f base (l1 ++ l2) ->
  code_at f base l1 /\ code_at f (base + length l1) l2.
Proof.
  intros H. split; intros i ins Hi.
  - apply H. apply lookup_app_l_Some, Hi.
  - rewrite <- Nat.add_assoc. apply H. by rewrite lookup_app_r, Nat.add_comm, Nat.add_sub by lia.
Qed.

Lemma code_at_cons f base ins l : code_at f base (ins :: l) -> code f !! base = Some ins /\ code_at f (S base) l.
Proof.
  intros H. split; [rewrite <- (Nat.add_0_r base); by apply H|].
  intros i x Hi. replace (S base + i)%nat with (base + S i)%nat by lia. by apply H.
Qed.

(** The place in the pool of the array of the local [i]: the arrays before it. *)
Definition pool_slot (G : scope) (i : nat) : nat :=
  length (List.filter (fun n => negb (n =? 0)) (take i (s_arrs G))).

Record agrees (G : scope) (σ : store) (fr : VmFrame) : Prop := {
  ag_locals : length (locals fr) = LIN_VM_MAX_LOCALS;
  ag_pool : (length (pool fr) <= LIN_VM_MAX_ARRS)%nat;
  ag_scalar : forall i x, s_names G !! i = Some x -> arr_len G i = 0 -> locals fr !! i = Some (scalar σ x);
  ag_array : forall i x, s_names G !! i = Some x -> 0 < arr_len G i ->
    locals fr !! i = Some (Z.of_nat (pool_slot G i)) /\ pool fr !! pool_slot G i = Some (array σ x)
}.

(** The scopes of functions. *)
Record scope_ok (G : scope) : Prop := {
  so_wf : scope_wf G;
  so_small : (length (s_names G) <= LIN_VM_MAX_LOCALS)%nat;
  so_distinct : NoDup (s_names G)
}.

Lemma agrees_stack G σ fr s : agrees G σ fr -> agrees G σ (with_stack fr s).
Proof. by intros [? ? ? ?]. Qed.

Section Frames.
Context (G : scope) (HG : scope_ok G).

Lemma index_lookup x i : index_of x (s_names G) = Some i ->
  s_names G !! i = Some x /\ (i < LIN_VM_MAX_LOCALS)%nat /\ slot (s_names G) x = Z.of_nat i.
Proof.
  intros Hi. split; [by apply index_of_lookup|]. apply index_of_lt in Hi as Hl. pose proof (so_small _ HG).
  split; [lia|]. unfold slot. by rewrite Hi.
Qed.

Lemma small_u64 i : (i < LIN_VM_MAX_LOCALS)%nat -> u64 (Z.of_nat i) = Z.of_nat i.
Proof. unfold LIN_VM_MAX_LOCALS. intros. apply u64_id. unfold in_u64, two64. lia. Qed.

Lemma scalar_local σ fr x : agrees G σ fr -> scalar_in G x = true ->
  lookupz (locals fr) (u64 (slot (s_names G) x)) = Some (scalar σ x).
Proof.
  intros Ha Hx. unfold scalar_in in Hx. destruct (index_of x (s_names G)) as [i|] eqn:Ei; [|done].
  apply index_lookup in Ei as (El & Hi & ->). rewrite small_u64, lookupz_nat by done.
  apply (ag_scalar _ _ _ Ha); [done|]. to_prop. pose proof (arr_len_nonneg G i (so_wf _ HG)). lia.
Qed.

Lemma array_local σ fr x : agrees G σ fr -> array_in G x = true ->
  exists k, lookupz (locals fr) (u64 (slot (s_names G) x)) = Some (Z.of_nat k) /\
    pool fr !! k = Some (array σ x) /\ pool_array fr (Z.of_nat k) = Some (array σ x).
Proof.
  intros Ha Hx. unfold array_in in Hx. destruct (index_of x (s_names G)) as [i|] eqn:Ei; [|done].
  apply index_lookup in Ei as (El & Hi & ->). rewrite small_u64, lookupz_nat by done.
  to_prop. pose proof (arr_len_nonneg G i (so_wf _ HG)).
  destruct (ag_array _ _ _ Ha i x El ltac:(lia)) as [Hl Hp]. exists (pool_slot G i). split; [done|]. split; [done|].
  unfold pool_array. apply lookup_lt_Some in Hp as Hk. pose proof (ag_pool _ _ _ Ha) as Hpl. unfold LIN_VM_MAX_ARRS in *.
  rewrite u64_id by (unfold in_u64, two64; lia).
  destruct (Z.ltb_spec (Z.of_nat (pool_slot G i)) (Z.of_nat 8)); [|lia]. by rewrite lookupz_nat.
Qed.

Lemma index_unique x i j : s_names G !! i = Some x -> s_names G !! j = Some x -> i = j.
Proof. intros Hi Hj. eapply NoDup_lookup; [apply (so_distinct _ HG)|exact Hi|exact Hj]. Qed.

Lemma scalar_assign σ x v y : scalar (assign x v σ) y = if decide (x = y) then v else scalar σ y.
Proof. unfold scalar, assign. cbn [scalars]. destruct (decide (x = y)) as [->|]; by simplify_map_eq. Qed.

Lemma array_write σ x i v y : array (write x i v σ) y =
  if decide (x = y) then default (array σ x) (insertz i v (array σ x)) else array σ y.
Proof. unfold array at 1, write. cbn [arrays]. destruct (decide (x = y)) as [->|]; by simplify_map_eq. Qed.

Lemma pool_slot_lt i j : (i < j)%nat -> 0 < arr_len G i -> (pool_slot G i < pool_slot G j)%nat.
Proof.
  unfold pool_slot, arr_len. intros Hij Hi. destruct (s_arrs G !! i) as [n|] eqn:E; [|done].
  change (default 0 (Some n)) with n in Hi.
  replace (take j (s_arrs G)) with (take i (s_arrs G) ++ n :: take (j - S i) (drop (S i) (s_arrs G))).
  - rewrite List.filter_app, length_app. cbn [List.filter]. destruct (Z.eqb_spec n 0); [lia|]. cbn [negb length]. lia.
  - rewrite <- (take_drop i (take j (s_arrs G))). rewrite take_take, Nat.min_l by lia. f_equal.
    rewrite (drop_S (take j (s_arrs G)) n i) by (rewrite lookup_take_lt by lia; done).
    f_equal. rewrite take_drop_commute. f_equal. f_equal. lia.
Qed.

Lemma pool_slot_inj i j : 0 < arr_len G i -> 0 < arr_len G j -> pool_slot G i = pool_slot G j -> i = j.
Proof.
  intros Hi Hj E. destruct (Nat.lt_trichotomy i j) as [H|[H|H]]; [|done|].
  - apply pool_slot_lt in H; [lia|done].
  - apply pool_slot_lt in H; [lia|done].
Qed.

Lemma agrees_assign σ fr x i v s : agrees G σ fr -> index_of x (s_names G) = Some i -> arr_len G i = 0 ->
  agrees G (assign x v σ) (mkFrame (<[i := v]> (locals fr)) s (pool fr)).
Proof.
  intros [Hl Hp Hs Hr] Hi Hz. apply index_lookup in Hi as (Ei & Hlt & _).
  constructor; cbn [locals pool]; [by rewrite length_insert|done| |].
  - intros j y Ej Hy. rewrite scalar_assign. destruct (decide (x = y)) as [<-|Hne].
    + rewrite (index_unique _ _ _ Ej Ei). apply list_lookup_insert_eq. lia.
    + rewrite list_lookup_insert_ne; [by apply Hs|]. intros ->. congruence.
  - intros j y Ej Hy. destruct (Hr j y Ej Hy) as [H1 H2]. split; [|done].
    rewrite list_lookup_insert_ne; [done|]. intros ->. lia.
Qed.

Lemma agrees_write σ fr x i k v s : agrees G σ fr -> array_in G x = true ->
  lookupz (locals fr) (u64 (slot (s_names G) x)) = Some (Z.of_nat k) ->
  pool fr !! k = Some (array σ x) ->
  agrees G (write x i v σ) (mkFrame (locals fr) s
    (match insertz i v (array σ x) with Some arr => <[k := arr]> (pool fr) | None => pool fr end)).
Proof.
  intros [Hl Hp Hs Hr] Hx Hk Hpk. unfold array_in in Hx.
  destruct (index_of x (s_names G)) as [j|] eqn:Ej; [|done]. apply index_lookup in Ej as (Ej & Hj & Esl).
  to_prop. pose proof (arr_len_nonneg G j (so_wf _ HG)).
  rewrite Esl, small_u64, lookupz_nat in Hk by done. destruct (Hr j x Ej ltac:(lia)) as [Hloc Hpool].
  assert (k = pool_slot G j) as -> by (rewrite Hloc in Hk; injection Hk; lia).
  constructor; cbn [locals pool]; [done|by destruct (insertz _ _ _); rewrite ?length_insert| |].
  - intros i' y Ei Hy. by apply Hs.
  - intros i' y Ei Hy. destruct (Hr i' y Ei Hy) as [H1 H2]. split; [done|]. rewrite array_write.
    destruct (decide (x = y)) as [<-|Hne].
    + rewrite (index_unique _ _ _ Ei Ej) in *. destruct (insertz i v (array σ x)); [|done]. cbn [default].
      apply list_lookup_insert_eq. by eapply lookup_lt_Some.
    + assert (pool_slot G j <> pool_slot G i') as Hsl.
      { intros E. apply pool_slot_inj in E as ->; [|lia|done]. congruence. }
      destruct (insertz i v (array σ x)); [|done]. by rewrite list_lookup_insert_ne.
Qed.
End Frames.

(** ** The operand stack

    The slots an expression needs above those in use. *)
Fixpoint need (e : cexpr) : nat :=
  match e with
  | XNum _ | XVar _ | XLen _ => 1
  | XIndex _ e | XUn _ e => need e
  | XBin _ e1 e2 => Nat.max (need e1) (1 + need e2)
  | XAnd e1 e2 | XOr e1 e2 => Nat.max (need e1) (need e2)
  | XCall _ es => Nat.max 1 (need_args es)
  end%nat
with need_args (es : cargs) : nat :=
  match es with
  | ANil => O
  | ACons e es => Nat.max (need e) (1 + need_args es)
  end.

Fixpoint need_lit (es : cargs) : nat :=
  match es with
  | ANil => O
  | ACons e es => Nat.max (1 + need e) (need_lit es)
  end.

Fixpoint need_stmt (s : cstmt) : nat :=
  match s with
  | SSkip => O
  | SSeq s1 s2 => Nat.max (need_stmt s1) (need_stmt s2)
  | SReturn e | SAssign _ e => need e
  | SStore _ i e => Nat.max (need i) (1 + need e)
  | SDecl _ _ lit | SLit _ lit => need_lit lit
  | SIf e s1 s2 => Nat.max (need e) (Nat.max (need_stmt s1) (need_stmt s2))
  | SWhile e s => Nat.max (need e) (need_stmt s)
  | SFor init cond step body =>
      Nat.max (Nat.max (need_stmt init) (need cond)) (Nat.max (need_stmt step) (need_stmt body))
  end.

Lemma need_pos e : (1 <= need e)%nat.
Proof. induction e; simpl; lia. Qed.

(** ** Expressions *)

Section Expressions.
Context (ctx : LinVmContext) (f : VmFn) (depth : nat) (sigs : list VmFn) (G : scope).
Context (Hlim : step_limit ctx + 1 < two64) (HG : scope_ok G) (Hcode : Z.of_nat (length (code f)) < two63)
  (Hfns : Z.of_nat (length (fns (c_module ctx))) < two63).
Context (Hsigs : forall i, nparams <$> sigs !! i = nparams <$> fns (c_module ctx) !! i).

Local Abbreviation refines := (refines ctx).
Local Abbreviation at_ := (at_ ctx f depth).

(** The calls the machine makes are those of the meaning. *)
Definition out_of (sp : nat) (r : sres Z) : vm_out :=
  match r with SVal v st => V_ok (mkResult v sp) st | SErr e st => V_err e st end.

Definition calls_refine (d : nat) (call : nat -> list Z -> SM Z) : Prop :=
  forall fi args st r, 0 <= st <= step_limit ctx -> call fi args st = Some r ->
    (match r with SVal _ st' => st <= st' <= step_limit ctx | SErr _ _ => True end) /\
    exists fuel sp, vm_exec_ctx fuel ctx (Z.of_nat fi) args d st = Some (out_of sp r).

Context (call : nat -> list Z -> SM Z) (Hcall : calls_refine (depth + 1) call).

Lemma code_at_length base cs : code_at f base cs -> cs <> [] -> (base + length cs <= length (code f))%nat.
Proof.
  intros H Hn. destruct cs as [|i cs] using rev_ind; [done|]. clear IHcs.
  specialize (H (length cs) i). rewrite lookup_app_r, Nat.sub_diag in H by lia.
  specialize (H eq_refl). apply lookup_lt_Some in H. rewrite length_app. cbn [length]. lia.
Qed.

Lemma jump_u64 n : (n <= length (code f))%nat -> u64 (Z.of_nat n) = Z.of_nat n.
Proof. intros. apply u64_id. unfold in_u64, two63, two64 in *. lia. Qed.

Lemma push_refines fr pc o x v :
  code f !! pc = Some (mkIns o x) -> (length (stack fr) < LIN_VM_MAX_STACK)%nat ->
  vm_step ctx (mkIns o x) fr = VOk (A_next (with_stack fr (v :: stack fr))) ->
  refines (at_ fr pc) (_ ← tick (step_limit ctx); mret v)
    (fun v P' => P' = at_ (with_stack fr (v :: stack fr)) (S pc)).
Proof.
  intros Hc Hs Hv. eapply refines_tick; [done|exact Hc|]. rewrite Hv. by apply refines_ret.
Qed.

Lemma call_refines fr pc fi g vs s :
  code f !! pc = Some (mkIns OP_CALL (Z.of_nat fi)) -> Z.of_nat fi < two64 ->
  fns (c_module ctx) !! fi = Some g -> nparams g = length vs -> stack fr = rev vs ++ s ->
  (length s < LIN_VM_MAX_STACK)%nat ->
  refines (at_ fr pc) (_ ← tick (step_limit ctx); call fi vs)
    (fun v P' => P' = at_ (with_stack fr (v :: s)) (S pc)).
Proof.
  intros Hc Hfi Hg Hn Hs Hl st r Hst. unfold mbind, SM_bind, tick.
  assert (forall fuel, vm_loop (S fuel) ctx f depth fr (Z.of_nat pc) st =
    if step_limit ctx <? st + 1 then Some (V_err LIN_ERR_VM_STEP_LIMIT (st + 1)) else
    match vm_exec_ctx fuel ctx (Z.of_nat fi) vs (depth + 1) (st + 1) with
    | Some (V_ok r steps) => vm_loop fuel ctx f depth (with_stack fr (val r :: s)) (Z.of_nat pc + 1) steps
    | other => other
    end) as Hloop.
  { intros fuel. cbn [vm_loop]. rewrite lookupz_nat, Hc, (u64_id (st + 1)) by (unfold in_u64; lia).
    destruct (step_limit ctx <? st + 1); [done|]. unfold vm_step, exec_call. cbn [op a].
    rewrite (u64_id (Z.of_nat fi)) by (unfold in_u64; lia). rewrite lookupz_nat, Hg, Hn, Hs.
    rewrite length_app, length_rev. destruct (Nat.ltb_spec (length vs + length s) (length vs)); [lia|].
    rewrite <- (length_rev vs), take_app_length, drop_app_length, rev_involutive. cbn [with_stack stack].
    destruct (vm_exec_ctx fuel ctx (Z.of_nat fi) vs (depth + 1) (st + 1)) as [[r' st'|e st'|]|]; try done.
    destruct (Nat.leb_spec LIN_VM_MAX_STACK (length s)); [lia|]. done. }
  destruct (Z.ltb_spec (step_limit ctx) (st + 1)) as [Hlt|Hge].
  { intros [= <-]. exists 1%nat. apply Hloop. }
  intros Er. destruct (Hcall fi vs (st + 1) r ltac:(lia) Er) as [Hr (fuel & sp & Hv)].
  destruct r as [v st'|e st']; cbn [out_of] in Hv.
  - split; [lia|]. eexists. split; [reflexivity|]. intros o [fuel2 Ho]. exists (S (Nat.max fuel fuel2)). rewrite Hloop.
    rewrite (proj2 (vm_mono fuel) _ _ _ _ _ _ (Nat.max fuel fuel2) ltac:(lia) Hv). cbn [val].
    replace (Z.of_nat pc + 1) with (Z.of_nat (S pc)) by lia.
    apply (proj1 (vm_mono fuel2) _ _ _ _ _ _ _ (Nat.max fuel fuel2) ltac:(lia) Ho).
  - exists (S fuel). by rewrite Hloop, Hv.
Qed.

Definition value_at (fr : VmFrame) (pc : nat) (v : Z) (P : point) : Prop :=
  P = at_ (with_stack fr (v :: stack fr)) pc.

Lemma step_load σ fr x : agrees G σ fr -> scalar_in G x = true -> (length (stack fr) < LIN_VM_MAX_STACK)%nat ->
  vm_step ctx (mkIns OP_LOAD_LOCAL (slot (s_names G) x)) fr =
    VOk (A_next (with_stack fr (scalar σ x :: stack fr))).
Proof.
  intros Ha Hx Hs. unfold vm_step. cbn [op a]. destruct (Nat.leb_spec LIN_VM_MAX_STACK (length (stack fr))); [lia|].
  by rewrite (scalar_local G HG σ).
Qed.

Lemma step_arr_len σ fr x : agrees G σ fr -> array_in G x = true -> (length (stack fr) < LIN_VM_MAX_STACK)%nat ->
  vm_step ctx (mkIns OP_ARR_LEN (slot (s_names G) x)) fr =
    VOk (A_next (with_stack fr (Z.of_nat (length (array σ x)) :: stack fr))).
Proof.
  intros Ha Hx Hs. unfold vm_step, exec_arr_len. cbn [op a].
  destruct (Nat.leb_spec LIN_VM_MAX_STACK (length (stack fr))); [lia|].
  destruct (array_local G HG σ fr x Ha Hx) as (k & -> & _ & E). cbn [deref]. by rewrite E.
Qed.

Lemma step_load_index σ fr x i s : agrees G σ fr -> array_in G x = true -> stack fr = i :: s ->
  (length s < LIN_VM_MAX_STACK)%nat ->
  vm_step ctx (mkIns OP_LOAD_INDEX (slot (s_names G) x)) fr = VOk (A_next (with_stack fr (read σ x i :: s))).
Proof.
  intros Ha Hx Hs Hl. unfold vm_step, exec_load_index, pop. cbn [op a]. rewrite Hs. cbn [locals with_stack].
  destruct (array_local G HG σ fr x Ha Hx) as (k & -> & _ & E). cbn [deref].
  change (pool_array (with_stack fr s) (Z.of_nat k)) with (pool_array fr (Z.of_nat k)). rewrite E.
  unfold push. cbn [stack with_stack]. destruct (Nat.leb_spec LIN_VM_MAX_STACK (length s)); [lia|]. done.
Qed.

Lemma step_unary o fr v s : is_unary o = true -> stack fr = v :: s ->
  vm_step ctx (mkIns o 0) fr = VOk (A_next (with_stack fr (unop o v :: s))).
Proof. intros Ho Hs. destruct o; try done; unfold vm_step, pop; cbn [op a]; by rewrite Hs. Qed.

Lemma step_binary o fr x y s : is_binary o = true -> stack fr = y :: x :: s ->
  vm_step ctx (mkIns o 0) fr =
    match binop_result o x y with
    | VOk r => VOk (A_next (with_stack fr (r :: s)))
    | VErr e => VErr e
    | VUB => VUB
    end.
Proof. intros Ho Hs. destruct o; try done; unfold vm_step, exec_binop; cbn [op a]; by rewrite Hs. Qed.

Lemma binary_refines o fr pc x y s :
  code f !! pc = Some (mkIns o 0) -> is_binary o = true -> stack fr = y :: x :: s ->
  refines (at_ fr pc) (_ ← tick (step_limit ctx); binop o x y)
    (fun v P' => P' = at_ (with_stack fr (v :: s)) (S pc)).
Proof.
  intros Hc Ho Hs. eapply refines_tick; [done|exact Hc|]. rewrite (step_binary _ _ _ _ _ Ho Hs). unfold binop.
  destruct (binop_result o x y) eqn:E; cbn [after]; [by apply refines_ret|apply refines_err|by apply binop_no_ub in E].
Qed.

(** The code of an expression pushes its value, that of arguments their values. *)
Definition eval_refined (e : cexpr) : Prop := forall base σ fr, code_at f base (gen (s_names G) sigs base e) ->
  scope_expr sigs G e = true -> expr_ok e -> agrees G σ fr -> (length (stack fr) + need e <= LIN_VM_MAX_STACK)%nat ->
  refines (at_ fr base) (eval (step_limit ctx) sigs call σ e) (value_at fr (base + size e)).
Definition args_refined (es : cargs) : Prop := forall base σ fr, code_at f base (gen_args (s_names G) sigs base es) ->
  scope_args sigs G es = true -> args_ok es -> agrees G σ fr -> (length (stack fr) + need_args es <= LIN_VM_MAX_STACK)%nat ->
  refines (at_ fr base) (eval_args (step_limit ctx) sigs call σ es)
    (fun vs P' => length vs = args_len es /\ P' = at_ (with_stack fr (rev vs ++ stack fr)) (base + size_args es)).

Lemma index_refined x e : eval_refined e -> eval_refined (XIndex x e).
Proof.
  intros IH base σ fr Hc Hx He Ha Hn. simpl in *. to_prop. apply code_at_app in Hc as [Hc1 Hc2].
  apply code_at_cons in Hc2 as [Hc2 _]. rewrite gen_size in Hc2. pose proof (need_pos e).
  eapply refines_bind; [by apply IH|]. intros i P' ->. rewrite Nat.add_assoc, Nat.add_1_r.
  eapply refines_tick; [done|exact Hc2|].
  rewrite (step_load_index σ _ x i (stack fr)); [by apply refines_ret|by apply agrees_stack|done..|lia].
Qed.

Lemma binary_refined o e1 e2 : eval_refined e1 -> eval_refined e2 -> eval_refined (XBin o e1 e2).
Proof.
  intros IH1 IH2 base σ fr Hc Hs (Ho & He1 & He2) Ha Hn. simpl in *. to_prop.
  apply code_at_app in Hc as [Hc1 Hc]. apply code_at_app in Hc as [Hc2 Hc3].
  apply code_at_cons in Hc3 as [Hc3 _]. rewrite !gen_size in *.
  eapply refines_bind; [apply IH1; [done..|lia]|]. intros v1 P1 ->.
  eapply refines_bind; [apply IH2; [done..|by apply agrees_stack|cbn [stack with_stack length]; lia]|]. intros v2 P2 ->.
  replace (base + (size e1 + (size e2 + 1)))%nat with (S (base + size e1 + size e2)) by lia.
  by apply (binary_refines o (with_stack fr (v2 :: v1 :: stack fr)) (base + size e1 + size e2) v1 v2 (stack fr)).
Qed.

(** The two operators that may skip their right side. *)
Lemma and_refined e1 e2 : eval_refined e1 -> eval_refined e2 -> eval_refined (XAnd e1 e2).
Proof.
  intros IH1 IH2 base σ fr Hc Hs (He1 & He2) Ha Hn. simpl in *. to_prop.
  apply code_at_length in Hc as Hlen; [|by intros E%app_eq_nil; destruct E].
  apply code_at_app in Hc as [Hc1 Hc]. apply code_at_cons in Hc as [Hc2 Hc]. apply code_at_cons in Hc as [Hc3 Hc4].
  rewrite length_app in Hlen. cbn [length] in Hlen. rewrite !gen_size in *.
  eapply refines_bind; [apply IH1; [done..|lia]|]. intros v1 P1 ->.
  eapply refines_tick; [done|exact Hc2|]. unfold vm_step, pop. cbn [jump op a stack with_stack].
  destruct (v1 =? 0); cbn [after].
  - rewrite jump_u64 by lia. eexists. split; [reflexivity|]. apply refines_ret. unfold value_at. f_equal. lia.
  - eapply refines_tick; [done|exact Hc3|]. unfold vm_step, pop. cbn [op stack with_stack after].
    replace (S (S (base + size e1))) with (base + size e1 + 2)%nat in * by lia.
    replace (base + (size e1 + S (S (size e2))))%nat with (base + size e1 + 2 + size e2)%nat by lia.
    apply (IH2 _ σ (with_stack fr (stack fr))); [done..|by apply agrees_stack|cbn [stack with_stack]; lia].
Qed.

Lemma or_refined e1 e2 : eval_refined e1 -> eval_refined e2 -> eval_refined (XOr e1 e2).
Proof.
  intros IH1 IH2 base σ fr Hc Hs (He1 & He2) Ha Hn. simpl in *. to_prop.
  apply code_at_length in Hc as Hlen; [|by intros E%app_eq_nil; destruct E].
  apply code_at_app in Hc as [Hc1 Hc]. apply code_at_cons in Hc as [Hc2 Hc]. apply code_at_cons in Hc as [Hc3 Hc4].
  rewrite length_app in Hlen. cbn [length] in Hlen. rewrite !gen_size in *.
  eapply refines_bind; [apply IH1; [done..|lia]|]. intros v1 P1 ->.
  eapply refines_tick; [done|exact Hc2|]. unfold vm_step, pop. cbn [jump op a stack with_stack].
  destruct (v1 =? 0); cbn [after].
  - eapply refines_tick; [done|exact Hc3|]. unfold vm_step, pop. cbn [op stack with_stack after].
    replace (S (S (base + size e1))) with (base + size e1 + 2)%nat in * by lia.
    replace (base + (size e1 + S (S (size e2))))%nat with (base + size e1 + 2 + size e2)%nat by lia.
    apply (IH2 _ σ (with_stack fr (stack fr))); [done..|by apply agrees_stack|cbn [stack with_stack]; lia].
  - rewrite jump_u64 by lia. eexists. split; [reflexivity|]. apply refines_ret. unfold value_at. f_equal. lia.
Qed.

Lemma call_refined x es : args_refined es -> eval_refined (XCall x es).
Proof.
  intros IH base σ fr Hc Hs He Ha Hn. simpl in *. destruct (index_fn x sigs) as [fi|] eqn:Ef; [|done]. to_prop.
  apply code_at_app in Hc as [Hc1 Hc]. apply code_at_cons in Hc as [Hc2 _]. 
  rewrite (proj2 (gen_sizes _ _)) in Hc2. unfold target in Hc2. rewrite Ef in Hc2. cbn [default] in Hc2.
  apply index_fn_lookup in Ef as (g & Eg & _). pose proof (Hsigs fi) as Hg. rewrite Eg in Hg, H. cbn in Hg, H.
  destruct (fns (c_module ctx) !! fi) as [g'|] eqn:Eg'; [|done]. cbn in Hg. injection Hg as Hg.
  eapply refines_bind; [apply IH; [done..|lia]|]. intros vs P1 [Hvs ->].
  rewrite Nat.add_assoc, Nat.add_1_r. apply lookup_lt_Some in Eg' as Hfi.
  apply (call_refines (with_stack fr (rev vs ++ stack fr)) _ fi g' vs (stack fr)); try done; [|lia..].
  unfold two63, two64 in *. lia.
Qed.

Lemma args_cons_refined e es : eval_refined e -> args_refined es -> args_refined (ACons e es).
Proof.
  intros IH IHs base σ fr Hc Hs [He Hes] Ha Hn. simpl in *. to_prop.
  apply code_at_app in Hc as [Hc1 Hc2]. rewrite gen_size in Hc2.
  eapply refines_bind; [apply IH; [done..|lia]|]. intros v P1 ->.
  eapply refines_bind; [apply IHs; [done..|by apply agrees_stack|cbn [stack with_stack length]; lia]|]. intros vs P2 [Hl ->].
  apply refines_ret. split; [cbn [length]; lia|]. cbn [rev]. rewrite <- app_assoc, Nat.add_assoc. done.
Qed.
Lemma eval_refines_all : (forall e, eval_refined e) /\ (forall es, args_refined es).
Proof.
  apply cexpr_cargs_ind.
  - intros v base σ fr Hc _ _ _ Hn. apply code_at_cons in Hc as [Hc _]. simpl in *.
    rewrite Nat.add_1_r. apply (push_refines fr base OP_PUSH_CONST v v); [done|lia|].
    unfold vm_step, push. cbn [op a]. destruct (Nat.leb_spec LIN_VM_MAX_STACK (length (stack fr))); [lia|done].
  - intros x base σ fr Hc Hx _ Ha Hn. apply code_at_cons in Hc as [Hc _]. simpl in *.
    rewrite Nat.add_1_r. apply (push_refines fr base OP_LOAD_LOCAL (slot (s_names G) x) (scalar σ x)); [done|lia|].
    apply step_load; [done..|lia].
  - intros x e IH. by apply index_refined.
  - intros x base σ fr Hc Hx _ Ha Hn. apply code_at_cons in Hc as [Hc _]. simpl in *.
    rewrite Nat.add_1_r. apply (push_refines fr base OP_ARR_LEN (slot (s_names G) x) (Z.of_nat (length (array σ x)))); [done|lia|].
    apply step_arr_len; [done..|lia].
  - intros o e IH base σ fr Hc Hs [Ho He] Ha Hn. simpl in *. apply code_at_app in Hc as [Hc1 Hc2].
    apply code_at_cons in Hc2 as [Hc2 _]. rewrite gen_size in Hc2.
    eapply refines_bind; [by apply IH|]. intros v P' ->. rewrite Nat.add_assoc, Nat.add_1_r.
    eapply refines_tick; [done|exact Hc2|]. rewrite (step_unary o _ v (stack fr)) by done. by apply refines_ret.
  - intros o e1 IH1 e2 IH2. by apply binary_refined.
  - intros e1 IH1 e2 IH2. by apply and_refined.
  - intros e1 IH1 e2 IH2. by apply or_refined.
  - intros x es IH. by apply call_refined.
  - intros base σ fr _ _ _ _ _. apply refines_ret. split; [done|]. cbn [rev app size_args]. rewrite Nat.add_0_r. by destruct fr.
  - intros e IH es IHs. by apply args_cons_refined.
Qed.

Lemma eval_refines e base σ fr : code_at f base (gen (s_names G) sigs base e) ->
  scope_expr sigs G e = true -> expr_ok e -> agrees G σ fr ->
  (length (stack fr) + need e <= LIN_VM_MAX_STACK)%nat ->
  refines (at_ fr base) (eval (step_limit ctx) sigs call σ e) (value_at fr (base + size e)).
Proof. apply eval_refines_all. Qed.

(** ** Statements

    Where a statement leaves the machine: after its code, with a frame for the
    store, or returned. *)
Definition flow_at (pc : nat) (r : flow) (P : point) : Prop :=
  match r with
  | F_next σ => exists fr, agrees G σ fr /\ stack fr = [] /\ P = at_ fr pc
  | F_return v => exists sp, P = halted v sp
  end.

(** The name of every scalar of a statement is a scalar of [G], that of every
    array an array. *)
Fixpoint settled (s : cstmt) : bool :=
  match s with
  | SSkip => true
  | SSeq s1 s2 => settled s1 && settled s2
  | SReturn e => scope_expr sigs G e
  | SAssign x e => scalar_in G x && scope_expr sigs G e
  | SStore x i e => array_in G x && scope_expr sigs G i && scope_expr sigs G e
  | SDecl x _ lit | SLit x lit => array_in G x && scope_args sigs G lit
  | SIf e s1 s2 => scope_expr sigs G e && settled s1 && settled s2
  | SWhile e s => scope_expr sigs G e && settled s
  | SFor init cond step body => settled init && scope_expr sigs G cond && settled step && settled body
  end.

Lemma step_store_local σ fr x v s : agrees G σ fr -> scalar_in G x = true -> stack fr = v :: s ->
  exists fr', vm_step ctx (mkIns OP_STORE_LOCAL (slot (s_names G) x)) fr = VOk (A_next fr') /\
    stack fr' = s /\ agrees G (assign x v σ) fr'.
Proof.
  intros Ha Hx Hs. unfold scalar_in in Hx. destruct (index_of x (s_names G)) as [i|] eqn:Ei; [|done].
  destruct (index_lookup G HG x i Ei) as (_ & Hi & E). to_prop. pose proof (arr_len_nonneg G i (so_wf _ HG)).
  eexists. split; [|split; [|by apply (agrees_assign G HG σ fr x i v s); [done..|lia]]]; [|done].
  unfold vm_step, pop. cbn [op a]. rewrite Hs, E, small_u64 by done. cbn [locals with_stack].
  unfold insertz. rewrite (ag_locals _ _ _ Ha).
  destruct (Z.leb_spec 0 (Z.of_nat i)); [|lia]. destruct (Z.ltb_spec (Z.of_nat i) (Z.of_nat LIN_VM_MAX_LOCALS)); [|lia].
  cbn [andb deref stack with_stack pool]. by rewrite Nat2Z.id.
Qed.

Lemma step_store_index σ fr x i v s : agrees G σ fr -> array_in G x = true -> stack fr = v :: i :: s ->
  exists fr', vm_step ctx (mkIns OP_STORE_INDEX (slot (s_names G) x)) fr = VOk (A_next fr') /\
    stack fr' = s /\ agrees G (write x i v σ) fr'.
Proof.
  intros Ha Hx Hs. destruct (array_local G HG σ fr x Ha Hx) as (k & Hk & Hpk & Hpa).
  eexists. split; [|split; [|by apply (agrees_write G HG σ fr x i k v s)]]; [|done].
  unfold vm_step, exec_store_index. cbn [op a]. rewrite Hs. cbn [locals with_stack]. rewrite Hk. cbn [deref].
  change (pool_array (with_stack fr s) (Z.of_nat k)) with (pool_array fr (Z.of_nat k)). rewrite Hpa.
  assert (u64 (Z.of_nat k) = Z.of_nat k) as ->.
  { apply lookup_lt_Some in Hpk. pose proof (ag_pool _ _ _ Ha) as Hpl. unfold LIN_VM_MAX_ARRS in Hpl.
    apply u64_id. unfold in_u64, two64. lia. }
  rewrite Nat2Z.id. cbn [pool with_stack locals]. destruct (insertz i v (array σ x)); done.
Qed.

Lemma jump_refines {A} fr pc n (k : SM A) Q : code f !! pc = Some (jump OP_JUMP n) -> (n <= length (code f))%nat ->
  refines (at_ fr n) k Q -> refines (at_ fr pc) (_ ← tick (step_limit ctx); k) Q.
Proof.
  intros Hc Hn Hk. eapply refines_tick; [done|exact Hc|]. unfold vm_step. cbn [jump op a after].
  rewrite jump_u64 by done. by eexists.
Qed.

(** A condition: the two ways on. *)
Lemma branch_refines {A} fr pc n v (k1 k2 : SM A) Q :
  code f !! pc = Some (jump OP_JUMP_IF_FALSE n) -> (n <= length (code f))%nat -> stack fr = [] ->
  refines (at_ (with_stack fr []) n) k1 Q -> refines (at_ (with_stack fr []) (S pc)) k2 Q ->
  refines (at_ (with_stack fr (v :: stack fr)) pc) (_ ← tick (step_limit ctx); if v =? 0 then k1 else k2) Q.
Proof.
  intros Hc Hn Hs H1 H2. eapply refines_tick; [done|exact Hc|]. unfold vm_step, pop. rewrite Hs. cbn [jump op a stack with_stack].
  destruct (v =? 0); cbn [after]; [|exact H2]. rewrite jump_u64 by done. by eexists.
Qed.

Lemma store_lit_refines x es : forall ei base σ fr,
  code_at f base (gen_lit (s_names G) sigs base (slot (s_names G) x) ei es) -> array_in G x = true ->
  scope_args sigs G es = true -> args_ok es -> agrees G σ fr -> stack fr = [] ->
  (need_lit es <= LIN_VM_MAX_STACK)%nat ->
  refines (at_ fr base) (store_lit (step_limit ctx) sigs call x ei es σ)
    (fun σ' P' => flow_at (base + size_lit es) (F_next σ') P').
Proof.
  induction es as [|e es IH]; intros ei base σ fr Hc Hx Hs Hok Ha Hst Hn; simpl in Hc, Hs, Hok, Hn |- *.
  { apply refines_ret. exists fr. by rewrite Nat.add_0_r. }
  to_prop. destruct Hok as [He Hes].
  apply code_at_cons in Hc as [Hc1 Hc]. rewrite <- app_assoc in Hc. apply code_at_app in Hc as [Hc2 Hc].
  apply code_at_cons in Hc as [Hc3 Hc4]. rewrite length_app in Hc4. cbn [length] in Hc4. rewrite !gen_size in Hc3, Hc4.
  eapply refines_tick; [done|exact Hc1|]. unfold vm_step, push. cbn [op a]. rewrite Hst.
  destruct (Nat.leb_spec LIN_VM_MAX_STACK (length (@nil Z))) as [Hbad|_]; [unfold LIN_VM_MAX_STACK in Hbad; cbn in Hbad; lia|].
  cbn [after]. rewrite Nat.add_1_r in Hc2.
  eapply refines_bind; [apply (eval_refines e (S base) σ (with_stack fr [ei])); [done..|by apply agrees_stack|cbn [stack with_stack length]; lia]|].
  intros v P1 ->. eapply refines_tick; [done|exact Hc3|].
  destruct (step_store_index σ (with_stack fr [v; ei]) x ei v []) as (fr' & E & Hst' & Ha'); [by apply agrees_stack|done..|].
  change (with_stack (with_stack fr [ei]) (v :: stack (with_stack fr [ei]))) with (with_stack fr [v; ei]). rewrite E. cbn [after].
  replace (base + S (size e + 1 + size_lit es))%nat with (base + S (size e + 1) + size_lit es)%nat by lia.
  replace (S (S base + size e)) with (base + S (size e + 1))%nat in Hc4 |- * by lia.
  apply IH; try done. lia.
Qed.

Lemma with_nil fr : stack fr = [] -> with_stack fr [] = fr.
Proof. intros <-. by destruct fr. Qed.

(** The lengths of code, by its tree. *)
Local Ltac sizes_in H := rewrite ?gen_size, ?gen_stmt_size in H.

(** The layout of a loop: the condition at [top], the body after its jump, and
    at [back] the jump to [top]. *)
Lemma loop_refines n cond body top back out σ fr :
  code_at f top (gen (s_names G) sigs top cond) -> scope_expr sigs G cond = true -> expr_ok cond ->
  (need cond <= LIN_VM_MAX_STACK)%nat ->
  code f !! (top + size cond)%nat = Some (jump OP_JUMP_IF_FALSE out) ->
  code f !! back = Some (jump OP_JUMP top) -> (top <= out <= length (code f))%nat ->
  (forall σ fr, agrees G σ fr -> stack fr = [] ->
     refines (at_ fr (S (top + size cond))) (body σ) (flow_at back)) ->
  agrees G σ fr -> stack fr = [] ->
  refines (at_ fr top) (loop (step_limit ctx) sigs call n cond body σ) (flow_at out).
Proof.
  intros Hc Hs He Hn Hj Hb Hout Hbody. revert σ fr. induction n as [|n IH]; intros σ fr Ha Hst.
  { apply refines_stuck. }
  cbn [loop]. eapply refines_bind; [apply eval_refines; [done..|rewrite Hst; done]|]. intros v P1 ->.
  eapply branch_refines; [exact Hj|lia|done| |].
  - apply refines_ret. exists (with_stack fr []). split; [by apply agrees_stack|done].
  - eapply refines_bind; [apply Hbody; [by apply agrees_stack|done]|].
    intros [σ'|w] P2 HP2; cbn [flow_at] in HP2.
    + destruct HP2 as (fr2 & Ha2 & Hs2 & ->). eapply jump_refines; [exact Hb|lia|]. by apply IH.
    + by apply refines_ret.
Qed.

(** The continuation of a statement that may have returned. *)
Lemma and_then_refines pc pc' r P k : flow_at pc r P ->
  (forall σ fr, agrees G σ fr -> stack fr = [] -> refines (at_ fr pc) (k σ) (flow_at pc')) ->
  refines P (and_then r k) (flow_at pc').
Proof.
  intros HP Hk. destruct r as [σ|v]; cbn [flow_at and_then] in *.
  - destruct HP as (fr & Ha & Hs & ->). by apply Hk.
  - by apply refines_ret.
Qed.

(** The code of a statement does what the statement means. *)
Definition exec_refined (n : nat) (s : cstmt) : Prop := forall base σ fr,
  code_at f base (gen_stmt (s_names G) sigs base s) -> settled s = true -> stmt_ok s ->
  (need_stmt s <= LIN_VM_MAX_STACK)%nat -> agrees G σ fr -> stack fr = [] ->
  refines (at_ fr base) (exec (step_limit ctx) sigs call n s σ) (flow_at (base + size_stmt s)).

Local Ltac open_stmt :=
  intros base σ fr Hc Hs Hok Hn Ha Hst; cbn [gen_stmt settled stmt_ok need_stmt size_stmt exec] in Hc, Hs, Hok, Hn |- *;
  rewrite ?gen_size, ?gen_stmt_size in Hc; to_prop.

Lemma seq_refined n s1 s2 : exec_refined n s1 -> exec_refined n s2 -> exec_refined n (SSeq s1 s2).
Proof.
  intros IH1 IH2. open_stmt.
  destruct Hok as [K1 K2]. apply code_at_app in Hc as [Hc1 Hc2]. rewrite gen_stmt_size in Hc2.
  eapply refines_bind; [apply IH1; [done..|lia|done|done]|]. intros r P1 HP1.
  eapply and_then_refines; [exact HP1|]. intros σ1 fr1 Ha1 Hs1. rewrite Nat.add_assoc. apply IH2; [done..|lia|done|done].
Qed.

Lemma return_refined n e : exec_refined n (SReturn e).
Proof.
  open_stmt.
  apply code_at_app in Hc as [Hc1 Hc2]. apply code_at_cons in Hc2 as [Hc2 _]. rewrite gen_size in Hc2.
  eapply refines_bind; [apply eval_refines; [done..|by rewrite Hst]|]. intros v P1 ->.
  eapply refines_tick; [done|exact Hc2|]. unfold vm_step, pop. cbn [op stack with_stack after].
  apply refines_ret. by eexists.
Qed.

Lemma assign_refined n x e : exec_refined n (SAssign x e).
Proof.
  open_stmt.
  apply code_at_app in Hc as [Hc1 Hc2]. apply code_at_cons in Hc2 as [Hc2 _]. rewrite gen_size in Hc2.
  eapply refines_bind; [apply eval_refines; [done..|by rewrite Hst]|]. intros v P1 ->.
  destruct (step_store_local σ (with_stack fr (v :: stack fr)) x v (stack fr)) as (fr' & E & Hst' & Ha');
    [by apply agrees_stack|done|done|].
  eapply refines_tick; [done|exact Hc2|]. rewrite E. cbn [after]. rewrite Nat.add_assoc, Nat.add_1_r.
  apply refines_ret. exists fr'. split; [done|]. split; [by rewrite Hst'|done].
Qed.

Lemma store_refined n x i e : exec_refined n (SStore x i e).
Proof.
  open_stmt.
  destruct Hok as [K1 K2]. apply code_at_app in Hc as [Hc1 Hc]. apply code_at_app in Hc as [Hc2 Hc3].
  apply code_at_cons in Hc3 as [Hc3 _]. rewrite !gen_size in Hc3. rewrite gen_size in Hc2.
  eapply refines_bind; [apply eval_refines; [done..|rewrite Hst; cbn [length]; lia]|]. intros iv P1 ->.
  eapply refines_bind; [apply eval_refines; [done..|by apply agrees_stack|cbn [stack with_stack]; rewrite Hst; cbn [length]; lia]|].
  intros v P2 ->.
  destruct (step_store_index σ (with_stack fr (v :: iv :: stack fr)) x iv v (stack fr)) as (fr' & E & Hst' & Ha');
    [by apply agrees_stack|done|done|].
  eapply refines_tick; [done|exact Hc3|].
  change (with_stack (with_stack fr (iv :: stack fr)) (v :: stack (with_stack fr (iv :: stack fr))))
    with (with_stack fr (v :: iv :: stack fr)). rewrite E. cbn [after].
  replace (base + (size i + (size e + 1)))%nat with (S (base + size i + size e)) by lia.
  apply refines_ret. exists fr'. split; [done|]. split; [by rewrite Hst'|done].
Qed.

Lemma if_refined n e s1 s2 : exec_refined n s1 -> exec_refined n s2 -> exec_refined n (SIf e s1 s2).
Proof.
  intros IH1 IH2. open_stmt.
  destruct Hok as (K0 & K1 & K2).
  apply code_at_length in Hc as Hlen; [|by intros E%app_eq_nil; destruct E].
  apply code_at_app in Hc as [Hc0 Hc]. apply code_at_cons in Hc as [Hcj Hc].
  apply code_at_app in Hc as [Hc1 Hc]. apply code_at_cons in Hc as [Hce Hc2].
  rewrite length_app in Hlen. cbn [length app] in Hlen. rewrite length_app in Hlen. cbn [length] in Hlen.
  rewrite gen_size, !gen_stmt_size in Hlen. sizes_in Hcj; sizes_in Hc1; sizes_in Hce; sizes_in Hc2.
  set (j := (base + size e)%nat) in *. replace (j + 1)%nat with (S j) in Hc1, Hcj, Hce, Hc2 by lia.
  set (je := (S j + size_stmt s1)%nat) in *. replace (je + 1)%nat with (S je) in Hcj, Hce, Hc2 by lia.
  replace (base + (size e + (1 + (size_stmt s1 + (1 + size_stmt s2)))))%nat with (S je + size_stmt s2)%nat by lia.
  eapply refines_bind; [apply eval_refines; [done..|rewrite Hst; cbn [length]; lia]|]. intros v P1 ->.
  eapply branch_refines; [exact Hcj|lia|done| |].
  - apply IH2; [done..|lia|by apply agrees_stack|done].
  - eapply refines_bind; [apply IH1; [done..|lia|by apply agrees_stack|done]|]. intros r P2 HP2.
    eapply and_then_refines; [exact HP2|]. intros σ1 fr1 Ha1 Hs1.
    eapply jump_refines; [exact Hce|lia|]. apply refines_ret. by exists fr1.
Qed.

Lemma while_refined n e s : exec_refined n s -> exec_refined n (SWhile e s).
Proof.
  intros IH. open_stmt.
  destruct Hok as [K0 K1].
  apply code_at_length in Hc as Hlen; [|by intros E%app_eq_nil; destruct E].
  apply code_at_app in Hc as [Hc0 Hc]. apply code_at_cons in Hc as [Hcj Hc].
  apply code_at_app in Hc as [Hc1 Hc]. apply code_at_cons in Hc as [Hce _].
  rewrite length_app in Hlen. cbn [length app] in Hlen. rewrite length_app in Hlen. cbn [length] in Hlen.
  rewrite gen_size, gen_stmt_size in Hlen. sizes_in Hcj; sizes_in Hc1; sizes_in Hce.
  set (j := (base + size e)%nat) in *. replace (j + 1)%nat with (S j) in Hc1, Hcj by lia.
  set (je := (S j + size_stmt s)%nat) in *. replace (je + 1)%nat with (S je) in Hcj by lia.
  replace (base + (size e + (1 + (size_stmt s + 1))))%nat with (S je) by lia.
  eapply (loop_refines n e _ base je (S je)); try done; [lia|lia|].
  intros σ1 fr1 Ha1 Hs1. apply IH; [done..|lia|done|done].
Qed.

Lemma for_refined n init cond step body : exec_refined n init -> exec_refined n step -> exec_refined n body -> exec_refined n (SFor init cond step body).
Proof.
  intros IHi IHs IHb. open_stmt.
  destruct Hok as (K0 & K1 & K2 & K3).
  apply code_at_app in Hc as [Hci Hc]. rewrite gen_stmt_size in Hc.
  apply code_at_length in Hc as Hlen; [|by intros E%app_eq_nil; destruct E].
  apply code_at_app in Hc as [Hc0 Hc]. apply code_at_cons in Hc as [Hcj Hc].
  apply code_at_app in Hc as [Hcb Hc]. apply code_at_app in Hc as [Hcs Hc]. apply code_at_cons in Hc as [Hce _].
  rewrite length_app in Hlen. cbn [length app] in Hlen. rewrite !length_app in Hlen. cbn [length] in Hlen.
  rewrite gen_size, !gen_stmt_size in Hlen. sizes_in Hcj; sizes_in Hcb; sizes_in Hcs; sizes_in Hce.
  set (top := (base + size_stmt init)%nat) in *. set (j := (top + size cond)%nat) in *.
  replace (j + 1)%nat with (S j) in Hcj, Hcb, Hcs by lia. set (js := (S j + size_stmt body)%nat) in *.
  set (je := (js + size_stmt step)%nat) in *. replace (je + 1)%nat with (S je) in Hcj by lia.
  replace (base + (size_stmt init + (size cond + (1 + (size_stmt body + (size_stmt step + 1))))))%nat with (S je) by lia.
  eapply refines_bind; [apply IHi; [done..|lia|done|done]|]. intros r P1 HP1.
  eapply and_then_refines; [exact HP1|]. intros σ1 fr1 Ha1 Hs1.
  eapply (loop_refines n cond _ top je (S je)); try done; [lia|lia|].
  intros σ2 fr2 Ha2 Hs2. eapply refines_bind; [apply IHb; [done..|lia|done|done]|]. intros r2 P2 HP2.
  eapply and_then_refines; [exact HP2|]. intros σ3 fr3 Ha3 Hs3. apply IHs; [done..|lia|done|done].
Qed.

Lemma exec_refines n s : exec_refined n s.
Proof.
  induction s as [|s1 IH1 s2 IH2|e|x e|x i e|x m lit|x lit|e s1 IH1 s2 IH2|e s IH|init IHi cond step IHs body IHb].
  - open_stmt. apply refines_ret. exists fr. by rewrite Nat.add_0_r.
  - by apply seq_refined.
  - apply return_refined.
  - apply assign_refined.
  - apply store_refined.
  - open_stmt. destruct Hok as [_ K]. eapply refines_bind; [by apply store_lit_refines|]. intros σ' P' HP'. by apply refines_ret.
  - open_stmt. eapply refines_bind; [by apply store_lit_refines|]. intros σ' P' HP'. by apply refines_ret.
  - by apply if_refined.
  - by apply while_refined.
  - by apply for_refined.
Qed.
End Expressions.

(** ** Entering a function *)

(** The arrays among the lengths of locals. *)
Definition n_arrays (lens : list Z) : nat := length (List.filter (fun n => negb (n =? 0)) lens).

Lemma insertz_nat {A} i (x : A) l : (i < length l)%nat -> insertz (Z.of_nat i) x l = Some (<[i := x]> l).
Proof.
  intros Hi. unfold insertz. destruct (Z.leb_spec 0 (Z.of_nat i)); [|lia].
  destruct (Z.ltb_spec (Z.of_nat i) (Z.of_nat (length l))); [|lia]. by rewrite Nat2Z.id.
Qed.

Lemma alloc_arrays_spec lens : forall li ls pl,
  (li + length lens <= length ls)%nat -> (length pl + n_arrays lens <= LIN_VM_MAX_ARRS)%nat ->
  Forall (fun n => 0 <= n <= Z.of_nat LIN_VM_MAX_ARR_LEN) lens ->
  exists ls' pl', alloc_arrays (Z.of_nat li) lens ls pl = VOk (ls', pl') /\
    length ls' = length ls /\ length pl' = (length pl + n_arrays lens)%nat /\
    (forall k x, pl !! k = Some x -> pl' !! k = Some x) /\
    (forall j, (j < li \/ li + length lens <= j)%nat -> ls' !! j = ls !! j) /\
    (forall i n, lens !! i = Some n ->
       if n =? 0 then ls' !! (li + i)%nat = ls !! (li + i)%nat
       else ls' !! (li + i)%nat = Some (Z.of_nat (length pl + n_arrays (take i lens))) /\
            pl' !! (length pl + n_arrays (take i lens))%nat = Some (replicate (Z.to_nat n) 0)).
Proof.
  unfold n_arrays. induction lens as [|n lens IH]; intros li ls pl Hl Hn Hf; cbn [alloc_arrays].
  { exists ls, pl. cbn. rewrite Nat.add_0_r. by split_and!. }
  apply Forall_cons_1 in Hf as [Hn0 Hf]. cbn [length List.filter] in *. replace (Z.of_nat li + 1) with (Z.of_nat (S li)) by lia.
  destruct (Z.eqb_spec n 0) as [->|Hne]; cbn [negb length] in *.
  - destruct (IH (S li) ls pl) as (ls' & pl' & E & H1 & H2 & H3 & H4 & H5); [lia|lia|done|].
    exists ls', pl'. split; [done|]. split; [done|]. split; [done|]. split; [done|].
    split; [intros j Hj; apply H4; lia|]. intros [|i] m Ei; cbn in Ei.
    + injection Ei as <-. cbn [Z.eqb]. apply H4. lia.
    + specialize (H5 i m Ei). rewrite Nat.add_succ_r. exact H5.
  - destruct (Nat.leb_spec LIN_VM_MAX_ARRS (length pl)); [lia|].
    destruct (Z.ltb_spec (Z.of_nat LIN_VM_MAX_ARR_LEN) n); [lia|]. rewrite insertz_nat by lia. cbn [deref].
    destruct (IH (S li) (<[li := Z.of_nat (length pl)]> ls) (pl ++ [replicate (Z.to_nat n) 0]))
      as (ls' & pl' & E & H1 & H2 & H3 & H4 & H5); [rewrite length_insert; lia|rewrite length_app; cbn [length]; lia|done|].
    rewrite length_app in *. cbn [length] in *. rewrite length_insert in H1.
    exists ls', pl'. split; [done|]. split; [done|]. split; [lia|].
    split; [intros k x Hk; apply H3; by apply lookup_app_l_Some|].
    split; [intros j Hj; rewrite H4 by lia; by rewrite list_lookup_insert_ne by lia|].
    intros [|i] m Ei; cbn in Ei.
    + injection Ei as <-. destruct (Z.eqb_spec n 0); [done|]. rewrite Nat.add_0_r. cbn [take List.filter length].
      rewrite H4 by lia. rewrite list_lookup_insert_eq by lia. rewrite Nat.add_0_r. split; [done|].
      apply H3. by rewrite lookup_app_r, Nat.sub_diag by lia.
    + specialize (H5 i m Ei). destruct (Z.eqb_spec m 0).
      * rewrite Nat.add_succ_r. replace (S (li + i)) with (S li + i)%nat by lia. rewrite H5, list_lookup_insert_ne by lia. done.
      * cbn [take List.filter]. destruct (Z.eqb_spec n 0); [done|]. cbn [negb length].
        replace (li + S i)%nat with (S li + i)%nat by lia.
        set (k := length (List.filter _ (take i lens))) in H5 |- *.
        replace (length pl + S k)%nat with (length pl + 1 + k)%nat by lia. exact H5.
Qed.

Lemma copy_args_spec args : forall idx lens ls, (idx + length args <= length ls)%nat ->
  exists ls', copy_args (Z.of_nat idx) args lens ls = VOk ls' /\ length ls' = length ls /\
    (forall j, (j < idx \/ idx + length args <= j)%nat -> ls' !! j = ls !! j) /\
    (forall i v, args !! i = Some v ->
       ls' !! (idx + i)%nat = if 0 <? default 0 (lens !! i) then ls !! (idx + i)%nat else Some v).
Proof.
  induction args as [|v args IH]; intros idx lens ls Hl; cbn [copy_args].
  { exists ls. by split_and!. }
  cbn [length] in Hl. replace (Z.of_nat idx + 1) with (Z.of_nat (S idx)) by lia.
  assert (head lens = lens !! 0%nat) as Hh by (by destruct lens).
  assert (forall i, tail lens !! i = lens !! S i) as Ht by (by destruct lens). rewrite Hh.
  destruct (0 <? default 0 (lens !! 0%nat)) eqn:E0.
  - destruct (IH (S idx) (tail lens) ls) as (ls' & E & H1 & H2 & H3); [lia|].
    exists ls'. split; [done|]. split; [done|]. split; [intros j Hj; apply H2; cbn [length] in Hj; lia|].
    intros [|i] w Ei; cbn in Ei.
    + rewrite E0. apply H2. lia.
    + specialize (H3 i w Ei). by rewrite Ht, Nat.add_succ_comm in H3.
  - rewrite insertz_nat by lia. cbn [deref].
    destruct (IH (S idx) (tail lens) (<[idx := v]> ls)) as (ls' & E & H1 & H2 & H3); [rewrite length_insert; lia|].
    rewrite length_insert in H1. exists ls'. split; [done|]. split; [done|].
    split; [intros j Hj; cbn [length] in Hj; rewrite H2 by lia; by rewrite list_lookup_insert_ne by lia|].
    intros [|i] w Ei; cbn in Ei.
    + injection Ei as <-. rewrite E0, Nat.add_0_r, H2 by lia. rewrite list_lookup_insert_eq by lia. done.
    + specialize (H3 i w Ei). rewrite Ht, Nat.add_succ_comm, list_lookup_insert_ne in H3 by lia. exact H3.
Qed.

Lemma bind_params_arrays ps : forall args σ, arrays (bind_params ps args σ) = arrays σ.
Proof. induction ps as [|x ps IH]; intros [|v args] σ; cbn [bind_params]; try done. by rewrite IH. Qed.

Lemma bind_params_scalar ps : forall args σ x, NoDup ps ->
  scalar (bind_params ps args σ) x =
    match index_of x ps with Some i => default (scalar σ x) (args !! i) | None => scalar σ x end.
Proof.
  induction ps as [|y ps IH]; intros [|v args] σ x Hd; cbn [bind_params index_of].
  - done.
  - done.
  - destruct (bytes_eqb y x); [done|]. by destruct (index_of x ps).
  - apply list.NoDup_cons in Hd as [Hy Hd]. rewrite IH by done. rewrite scalar_assign.
    destruct (bytes_eqb y x) eqn:E.
    + apply bytes_eqb_eq in E as ->. rewrite decide_True by done.
      destruct (index_of x ps) as [i|] eqn:Ei; [|done]. apply index_of_lookup in Ei.
      destruct Hy. by eapply list_elem_of_lookup_2.
    + apply bytes_eqb_neq in E. rewrite decide_False by done. by destruct (index_of x ps).
Qed.

Lemma zero_arrays_lookup names : forall lens i x n, NoDup names -> names !! i = Some x -> lens !! i = Some n ->
  n <> 0 -> zero_arrays names lens !! x = Some (replicate (Z.to_nat n) 0).
Proof.
  induction names as [|y names IH]; intros [|m lens] [|i] x n Hd Hx Hn Hz; cbn in Hx, Hn; try done;
    apply list.NoDup_cons in Hd as [Hy Hd]; cbn [zero_arrays].
  - injection Hx as ->. injection Hn as ->. destruct (Z.eqb_spec n 0); [done|]. by simplify_map_eq.
  - assert (y <> x) as Hne by (intros ->; apply Hy; by eapply list_elem_of_lookup_2).
    destruct (m =? 0); [by eapply IH|]. rewrite lookup_insert_ne by done. by eapply IH.
Qed.

(** The parameters and the scope of a function. *)
Record params_ok (g : sfn) : Prop := {
  po_scope : scope_ok (sf_scope g);
  po_prefix : sf_params g `prefix_of` s_names (sf_scope g);
  po_arrays : (n_arrays (s_arrs (sf_scope g)) <= LIN_VM_MAX_ARRS)%nat
}.

(** The frame the machine makes holds the store the call starts from. *)
Lemma enter_frame_agrees f g args : params_ok g -> arr_n f = s_arrs (sf_scope g) ->
  length args = length (sf_params g) ->
  exists fr, enter_frame f args = VOk fr /\ stack fr = [] /\ agrees (sf_scope g) (start_store g args) fr.
Proof.
  intros [HG [k Hpre] Har] Ea Hl. set (G := sf_scope g) in *.
  destruct (so_wf _ HG) as [Hlen Hlens]. pose proof (so_small _ HG) as Hsm. pose proof (so_distinct _ HG) as Hnd.
  assert (length (replicate LIN_VM_MAX_LOCALS 0) = LIN_VM_MAX_LOCALS) as Hr by apply length_replicate.
  destruct (alloc_arrays_spec (s_arrs G) 0 (replicate LIN_VM_MAX_LOCALS 0) []) as (ls1 & pl & E1 & L1 & P1 & _ & O1 & A1);
    [lia|done|done|].
  assert (length args <= length (s_names G))%nat as Hargs by (rewrite Hpre, length_app; lia).
  destruct (copy_args_spec args 0 (s_arrs G) ls1) as (ls2 & E2 & L2 & O2 & A2); [lia|].
  exists (mkFrame ls2 [] pl). unfold enter_frame. rewrite Ea. change (alloc_arrays 0) with (alloc_arrays (Z.of_nat 0)). rewrite E1.
  change (copy_args 0) with (copy_args (Z.of_nat 0)). rewrite E2.
  split; [done|]. split; [done|].
  constructor; cbn [locals pool]; [lia|rewrite P1; exact Har| |].
  - intros i x Ei Hz. apply lookup_lt_Some in Ei as Hi. unfold start_store. rewrite bind_params_scalar.
    2:{ rewrite Hpre in Hnd. by apply list.NoDup_app in Hnd as [? _]. }
    destruct (lookup_lt_is_Some_2 (s_arrs G) i ltac:(lia)) as [n En].
    assert (n = 0) as -> by (unfold arr_len in Hz; rewrite En in Hz; exact Hz).
    pose proof (A1 i 0 En) as A1i. cbn [Z.eqb Nat.add] in A1i.
    assert (ls1 !! i = Some 0) as Hls1 by (rewrite A1i; apply lookup_replicate_2; lia).
    change (scalar (mkStore ∅ _) x) with 0.
    destruct (index_of x (sf_params g)) as [j|] eqn:Ej.
    + apply index_of_lookup in Ej. assert (s_names G !! j = Some x) as Ej' by (rewrite Hpre; by apply lookup_app_l_Some).
      rewrite (index_unique G HG x i j Ei Ej') in *.
      apply lookup_lt_Some in Ej. destruct (lookup_lt_is_Some_2 args j ltac:(lia)) as [v Ev]. rewrite Ev. cbn [default].
      pose proof (A2 j v Ev) as A2j. cbn [Nat.add] in A2j. rewrite A2j, En. done.
    + assert (length args <= i)%nat as Hi'.
      { destruct (Nat.le_gt_cases (length args) i); [done|]. exfalso.
        rewrite Hpre, lookup_app_l in Ei by lia. apply index_of_None in Ej. apply Ej. by eapply list_elem_of_lookup_2. }
      rewrite O2 by lia. done.
  - intros i x Ei Hp. unfold arr_len in Hp. destruct (s_arrs G !! i) as [n|] eqn:En; [|done].
    change (default 0 (Some n)) with n in Hp. pose proof (A1 i n En) as A1i.
    destruct (Z.eqb_spec n 0); [lia|]. cbn [Nat.add length] in A1i. destruct A1i as [Hloc Hpool].
    unfold array, start_store. rewrite bind_params_arrays. cbn [arrays]. fold G.
    rewrite (zero_arrays_lookup _ _ i x n Hnd Ei En) by lia. cbn [default]. split; [|exact Hpool].
    destruct (Nat.lt_ge_cases i (length args)) as [Hi|Hi].
    + destruct (lookup_lt_is_Some_2 args i Hi) as [v Ev]. pose proof (A2 i v Ev) as A2i. cbn [Nat.add] in A2i.
      rewrite A2i, En. change (default 0 (Some n)) with n. destruct (Z.ltb_spec 0 n); [done|lia].
    + by rewrite O2 by lia.
Qed.

(** ** Programs *)

(** [f] is the code of [g], compiled against the signatures [sigs], and within
    the machine's limits on operands and arrays. *)
Record implements (sigs : list VmFn) (f : VmFn) (g : sfn) : Prop := {
  im_ok : ok f = true;
  im_nparams : nparams f = length (sf_params g);
  im_arr_n : arr_n f = s_arrs (sf_scope g);
  im_code : code f = gen_stmt (s_names (sf_scope g)) sigs 0 (sf_body g) ++
              [mkIns OP_PUSH_CONST 0; mkIns OP_RET 0];
  im_params : params_ok g;
  im_settled : settled sigs (sf_scope g) (sf_body g) = true;
  im_stmt : stmt_ok (sf_body g);
  im_need : (need_stmt (sf_body g) <= LIN_VM_MAX_STACK)%nat;
  im_size : Z.of_nat (length (code f)) < two63
}.

(** Function by function; a function without a meaning is a rejected one. *)
Definition fn_refines (sigs : list VmFn) (f : VmFn) (g : option sfn) : Prop :=
  match g with Some g => implements sigs f g | None => ok f = false end.

Record module_refines (m : VmModule) (p : program) : Prop := {
  mr_fns : Forall2 (fn_refines (pg_sigs p)) (fns m) (pg_fns p);
  mr_sigs : forall i, nparams <$> pg_sigs p !! i = nparams <$> fns m !! i;
  mr_size : Z.of_nat (length (fns m)) < two63
}.

Section Program.
Context (m : VmModule) (p : program) (Hm : module_refines m p) (limit : Z) (Hlim : limit + 1 < two64).

(** The contexts of the calls of a run. *)
Definition run_ctx (ctx : LinVmContext) : Prop :=
  c_module ctx = m /\ step_limit ctx = limit /\ frames ctx || calloc_ok ctx = true.

(** The body of a function, run from its frame. *)
Lemma body_refines ctx f g depth n args fr call :
  run_ctx ctx -> implements (pg_sigs p) f g -> calls_refine ctx (depth + 1) call ->
  agrees (sf_scope g) (start_store g args) fr -> stack fr = [] ->
  refines ctx (at_ ctx f depth fr 0) (run_body limit (pg_sigs p) call n g args)
    (fun v P => exists sp, P = halted v sp).
Proof.
  intros (Em & El & _) Hi Hc Ha Hs. destruct Hi as [_ _ _ Hcode [HG _ _] Hse Hok Hn Hsz].
  assert (code_at f 0 (gen_stmt (s_names (sf_scope g)) (pg_sigs p) 0 (sf_body g) ++
    [mkIns OP_PUSH_CONST 0; mkIns OP_RET 0])) as Hat.
  { rewrite <- Hcode. intros i ins E. exact E. }
  apply code_at_app in Hat as [Hat1 Hat2]. rewrite gen_stmt_size in Hat2. cbn [Nat.add] in Hat2.
  apply code_at_cons in Hat2 as [Hp Hat2]. apply code_at_cons in Hat2 as [Hret _].
  unfold run_body. rewrite <- El in Hlim |- *. eapply refines_bind.
  { apply (exec_refines ctx f depth (pg_sigs p) (sf_scope g)); try done.
    - by rewrite Em; destruct Hm.
    - intros i. rewrite Em. apply (mr_sigs _ _ Hm). }
  intros [σ|v] P HP; cbn [flow_at Nat.add] in HP.
  - destruct HP as (fr1 & Ha1 & Hs1 & ->). eapply refines_tick; [done|exact Hp|].
    unfold vm_step, push. cbn [op a]. rewrite Hs1.
    destruct (Nat.leb_spec LIN_VM_MAX_STACK (length (@nil Z))) as [Hbad|_]; [unfold LIN_VM_MAX_STACK in Hbad; cbn in Hbad; lia|].
    cbn [after]. eapply refines_tick; [done|exact Hret|]. unfold vm_step, pop. cbn [op stack with_stack after].
    apply refines_ret. by eexists.
  - apply refines_ret. done.
Qed.

(** Calls of the machine are calls of the program. *)
Lemma call_fn_refines fuel : forall ctx depth, run_ctx ctx -> calls_refine ctx depth (call_fn limit p fuel depth).
Proof.
  induction fuel as [|fuel IH]; intros ctx depth Hctx fi args st r Hst Er; [done|].
  cbn [call_fn] in Er. destruct Hctx as (Em & El & Hfr).
  assert (forall e, r = SErr e st -> vm_enter ctx (Z.of_nat fi) args depth = VErr e ->
    match r with SVal _ st' => st <= st' <= step_limit ctx | SErr _ _ => True end /\
    exists fuel' sp, vm_exec_ctx fuel' ctx (Z.of_nat fi) args depth st = Some (out_of sp r)) as Herr.
  { intros e -> He. split; [done|]. exists 1%nat, O. cbn [vm_exec_ctx]. by rewrite He. }
  unfold vm_enter in Herr. rewrite Em, lookupz_nat in Herr.
  destruct (LIN_VM_MAX_DEPTH <? depth)%nat eqn:Ed.
  { injection Er as <-. by apply (Herr LIN_ERR_VM_DEPTH). }
  destruct (pg_fns p !! fi) as [[g|]|] eqn:Eg.
  - destruct (Forall2_lookup_r _ _ _ _ _ (mr_fns _ _ Hm) Eg) as (f & Ef & Hi). cbn [fn_refines] in Hi.
    pose proof Hi as [Hok Hnp Harr _ Hpo _ _ _ _]. rewrite Ef, Hok, Hnp in Herr. cbn [negb] in Herr.
    destruct (negb (length args =? length (sf_params g))%nat) eqn:El'.
    { injection Er as <-. by apply (Herr LIN_ERR_VM_ARITY). }
    apply negb_false_iff, Nat.eqb_eq in El'.
    destruct (enter_frame_agrees f g args Hpo Harr El') as (fr & Efr & Hs & Ha).
    assert (run_ctx (with_frames ctx)) as Hctx' by done.
    pose proof (body_refines (with_frames ctx) f g depth fuel args fr _ Hctx' Hi (IH _ _ Hctx') Ha Hs st r) as Hb.
    cbn [with_frames step_limit] in Hb. specialize (Hb Hst Er).
    assert (forall fuel' o, vm_loop fuel' (with_frames ctx) f depth fr 0 st = Some o ->
      vm_exec_ctx (S fuel') ctx (Z.of_nat fi) args depth st = Some o) as Hrun.
    { intros fuel' o Ho. cbn [vm_exec_ctx]. unfold vm_enter.
      rewrite Ed, Em, lookupz_nat, Ef, Hok, Hnp, El', Nat.eqb_refl. cbn [negb].
      assert (negb (frames ctx) && negb (calloc_ok ctx) = false) as ->.
      { destruct (frames ctx), (calloc_ok ctx); done. }
      by rewrite Efr. }
    destruct r as [v st'|e st'].
    + destruct Hb as (Hr & P & [sp ->] & HP). split; [exact Hr|].
      destruct (HP _ eq_refl) as [fuel' Hf]. exists (S fuel'), sp. by apply Hrun.
    + split; [done|]. destruct Hb as [fuel' Hf]. exists (S fuel'), O. by apply Hrun.
  - injection Er as <-. destruct (Forall2_lookup_r _ _ _ _ _ (mr_fns _ _ Hm) Eg) as (f & Ef & Hi). cbn [fn_refines] in Hi.
    rewrite Ef, Hi in Herr. by apply (Herr LIN_ERR_VM_BAD_FN).
  - injection Er as <-. assert (fns m !! fi = None) as Ef.
    { apply lookup_ge_None. apply lookup_ge_None in Eg. by rewrite (Forall2_length (mr_fns _ _ Hm)). }
    rewrite Ef in Herr. by apply (Herr LIN_ERR_VM_BAD_FN).
Qed.
End Program.
