(* ===== verification/C0Correct.v ===== *)
(** * C0 programs: the machine computes their meaning

    The interpreter of [C0Sem] always answers within a fuel bound; and what
    [c0_build] makes of a text is run by the machine to the result, the error
    and the step count of its meaning.  The conditions are read off the module:
    eight arrays a function, operands within the stack, and no local used both as
    a scalar and as an array. *)
From stdpp Require Import strings gmap.
From S2P Require Import Prelude Common Sys Vm VmSpec VmSafe Linbc1 C0Lex C0Comp C0Build C0Lang C0Sound C0LexSpec C0Code C0BuildSpec C0Sem C0Refine.

(** ** The interpreter answers *)

Section Total.
Context (limit : Z) (sigs : list VmFn).

(** [m] answers when at most [n] steps are left, and never turns the count back. *)
Definition answers {A} (n : nat) (m : SM A) : Prop :=
  forall st, 0 <= st <= limit -> limit - st < Z.of_nat n ->
  exists r, m st = Some r /\ match r with SVal _ st' => st <= st' <= limit | SErr _ _ => True end.

Lemma answers_ret {A} n (x : A) : answers n (mret x).
Proof. intros st Hst _. exists (SVal x st). split; [done|lia]. Qed.

Lemma answers_err {A} n e : answers n (s_err e : SM A).
Proof. intros st Hst _. by exists (SErr e st). Qed.

Lemma answers_bind {A B} n (m : SM A) (k : A -> SM B) :
  answers n m -> (forall x, answers n (k x)) -> answers n (m ≫= k).
Proof.
  intros Hm Hk st Hst Hn. unfold mbind, SM_bind. destruct (Hm st Hst Hn) as ([x st1|e st1] & -> & H1).
  - destruct (Hk x st1 ltac:(lia) ltac:(lia)) as (r & E & Hr). exists r. split; [done|]. destruct r; [lia|done].
  - by exists (SErr e st1).
Qed.

Lemma answers_less {A} n k (m : SM A) : (k <= n)%nat -> answers n m -> answers k m.
Proof. intros Hk Hm st Hst Hn. apply Hm; [done|lia]. Qed.

Lemma answers_tick {A} n (k : SM A) : answers n k -> answers (S n) (_ ← tick limit; k).
Proof.
  intros Hk st Hst Hn. unfold mbind, SM_bind, tick. destruct (Z.ltb_spec limit (st + 1)); [by eexists|].
  destruct (Hk (st + 1) ltac:(lia) ltac:(lia)) as (r & E & Hr). exists r. split; [done|]. destruct r; [lia|done].
Qed.

Lemma answers_tick_same {A} n (k : SM A) : answers n k -> answers n (_ ← tick limit; k).
Proof. intros Hk. apply (answers_less (S n)); [lia|]. by apply answers_tick. Qed.

Lemma answers_binop n o x y : answers n (binop o x y).
Proof.
  unfold binop. destruct (binop_result o x y) eqn:E; [apply answers_ret|apply answers_err|by apply binop_no_ub in E].
Qed.

Context (call : nat -> list Z -> SM Z) (n : nat) (Hcall : forall fi args, answers n (call fi args)).

Lemma eval_answers G :
  (forall e σ, scope_expr sigs G e = true -> answers (S n) (eval limit sigs call σ e)) /\
  (forall es σ, scope_args sigs G es = true -> answers (S n) (eval_args limit sigs call σ es)).
Proof.
  assert (forall (g : Z -> Z) m, answers (S n) m -> answers (S n) (v ← m; _ ← tick limit; mret (g v))) as Hone.
  { intros g m Hm. apply answers_bind; [done|]. intros v. apply answers_tick_same, answers_ret. }
  apply cexpr_cargs_ind; cbn [eval eval_args scope_expr scope_args].
  - intros v σ _. apply answers_tick_same, answers_ret.
  - intros x σ _. apply answers_tick_same, answers_ret.
  - intros x e IH σ Hs. to_prop. by apply Hone, IH.
  - intros x σ _. apply answers_tick_same, answers_ret.
  - intros o e IH σ Hs. by apply Hone, IH.
  - intros o e1 IH1 e2 IH2 σ Hs. to_prop. apply answers_bind; [by apply IH1|]. intros v1.
    apply answers_bind; [by apply IH2|]. intros v2. apply answers_tick_same, answers_binop.
  - intros e1 IH1 e2 IH2 σ Hs. to_prop. apply answers_bind; [by apply IH1|]. intros v.
    apply answers_tick_same. destruct (v =? 0); [apply answers_ret|by apply answers_tick_same, IH2].
  - intros e1 IH1 e2 IH2 σ Hs. to_prop. apply answers_bind; [by apply IH1|]. intros v.
    apply answers_tick_same. destruct (v =? 0); [by apply answers_tick_same, IH2|apply answers_ret].
  - intros f es IH σ Hs. destruct (index_fn f sigs) as [fi|]; [|done]. to_prop.
    apply answers_bind; [by apply IH|]. intros vs. by apply answers_tick.
  - intros σ _. apply answers_ret.
  - intros e IH es IHs σ Hs. to_prop. apply answers_bind; [by apply IH|]. intros v.
    apply answers_bind; [by apply IHs|]. intros vs. apply answers_ret.
Qed.

Lemma store_lit_answers G x es : forall ei σ, scope_args sigs G es = true ->
  answers (S n) (store_lit limit sigs call x ei es σ).
Proof.
  induction es as [|e es IH]; intros ei σ Hs; cbn [store_lit scope_args] in *; [apply answers_ret|]. to_prop.
  apply answers_tick_same, answers_bind; [by eapply eval_answers|]. intros v. by apply answers_tick_same, IH.
Qed.

(** Each turn of a loop costs two steps. *)
Lemma loop_answers G cond body : scope_expr sigs G cond = true -> (forall σ, answers (S n) (body σ)) ->
  forall k σ, (k <= S n)%nat -> answers k (loop limit sigs call k cond body σ).
Proof.
  intros Hc Hb. induction k as [|k IH]; intros σ Hk; [by intros st Hst Hn; lia|]. cbn [loop].
  apply answers_bind; [apply (answers_less (S n)); [done|by eapply eval_answers]|]. intros v.
  apply answers_tick. destruct (v =? 0); [apply answers_ret|].
  apply answers_bind; [apply (answers_less (S n)); [lia|apply Hb]|]. intros [σ'|w]; [|apply answers_ret].
  apply answers_tick_same, IH. lia.
Qed.

Lemma and_then_answers k r (f : store -> SM flow) : (forall σ, answers k (f σ)) -> answers k (and_then r f).
Proof. intros Hf. destruct r; [apply Hf|apply answers_ret]. Qed.

Lemma exec_answers G s : forall σ, settled sigs G s = true -> answers (S n) (exec limit sigs call (S n) s σ).
Proof.
  destruct (eval_answers G) as [He _].
  induction s as [|s1 IH1 s2 IH2|e|x e|x i e|x m lit|x lit|e s1 IH1 s2 IH2|e s IH|init IHi cond step IHs body IHb];
    intros σ Hs; cbn [exec settled] in *; to_prop.
  - apply answers_ret.
  - apply answers_bind; [by apply IH1|]. intros r. apply and_then_answers. intros. by apply IH2.
  - apply answers_bind; [by apply He|]. intros v. apply answers_tick_same, answers_ret.
  - apply answers_bind; [by apply He|]. intros v. apply answers_tick_same, answers_ret.
  - apply answers_bind; [by apply He|]. intros iv. apply answers_bind; [by apply He|]. intros v. apply answers_tick_same, answers_ret.
  - apply answers_bind; [by eapply store_lit_answers|]. intros σ'. apply answers_ret.
  - apply answers_bind; [by eapply store_lit_answers|]. intros σ'. apply answers_ret.
  - apply answers_bind; [by apply He|]. intros v. apply answers_tick_same. destruct (v =? 0); [by apply IH2|].
    apply answers_bind; [by apply IH1|]. intros r. apply and_then_answers. intros. apply answers_tick_same, answers_ret.
  - eapply loop_answers; [done| |done]. intros. by apply IH.
  - apply answers_bind; [by apply IHi|]. intros r. apply and_then_answers. intros.
    eapply loop_answers; [done| |done]. intros. apply answers_bind; [by apply IHb|]. intros r2.
    apply and_then_answers. intros. by apply IHs.
Qed.
End Total.

(** A call of a program answers with one unit of fuel more than the steps left,
    and one more. *)
Lemma call_fn_answers limit p :
  (forall i g, pg_fns p !! i = Some (Some g) -> settled (pg_sigs p) (sf_scope g) (sf_body g) = true) ->
  forall n depth fi args, answers limit n (call_fn limit p (S n) depth fi args).
Proof.
  intros Hp. induction n as [|n IH]; intros depth fi args; [by intros st Hst Hn; lia|].
  remember (S n) as k eqn:Ek. cbn [call_fn]. destruct (LIN_VM_MAX_DEPTH <? depth)%nat; [apply answers_err|].
  destruct (pg_fns p !! fi) as [[g|]|] eqn:Eg; [|apply answers_err..].
  destruct (negb _); [apply answers_err|]. unfold run_body. subst k.
  apply answers_bind; [by eapply exec_answers; [intros; apply IH|eapply Hp]|].
  intros [σ|v]; [|apply answers_ret]. apply answers_tick_same, answers_tick_same, answers_ret.
Qed.

(** ** Conditions on the code

    The operand stack along straight code; a jump leaves the height its target
    expects, so that one pass finds the highest. *)
Section Heights.
Context (fs : list VmFn).

Definition height_change (i : VmIns) : Z :=
  match op i with
  | OP_PUSH_CONST | OP_LOAD_LOCAL | OP_ARR_LEN => 1
  | OP_STORE_LOCAL | OP_POP | OP_JUMP_IF_FALSE | OP_RET => -1
  | OP_STORE_INDEX => -2
  | OP_CALL => 1 - Z.of_nat (default O (nparams <$> fs !! Z.to_nat (a i)))
  | o => if is_binary o then -1 else 0
  end.

Fixpoint max_height (h : Z) (cs : list VmIns) : Z :=
  match cs with
  | [] => h
  | i :: cs => Z.max h (max_height (h + height_change i) cs)
  end.

Lemma max_height_ge cs : forall h, h <= max_height h cs.
Proof. destruct cs as [|i cs]; intros h; cbn [max_height]; lia. Qed.

Context (names : list (list Z)).

Lemma gen_height_all G :
  (forall e base h k, scope_expr fs G e = true -> expr_ok e ->
     h + Z.of_nat (need e) <= max_height h (gen names fs base e ++ k) /\
     max_height (h + 1) k <= max_height h (gen names fs base e ++ k)) /\
  (forall es base h k, scope_args fs G es = true -> args_ok es ->
     h + Z.of_nat (need_args es) <= max_height h (gen_args names fs base es ++ k) /\
     max_height (h + Z.of_nat (args_len es)) k <= max_height h (gen_args names fs base es ++ k)).
Proof.
  apply cexpr_cargs_ind; simpl gen; simpl gen_args; simpl need; simpl need_args; simpl scope_expr; simpl scope_args; simpl expr_ok; simpl args_ok; cbn [args_len].
  - intros v base h k _ _. cbn. pose proof (max_height_ge k (h + 1)). lia.
  - intros x base h k _ _. cbn. pose proof (max_height_ge k (h + 1)). lia.
  - intros x e IH base h k Hs He. to_prop. rewrite <- app_assoc.
    destruct (IH base h ([mkIns OP_LOAD_INDEX (slot names x)] ++ k)) as [H1 H2]; [done..|].
    cbn [app max_height] in H1, H2 |- *. unfold height_change in H2. cbn [op is_binary] in H2. rewrite Z.add_0_r in H2. lia.
  - intros x base h k _ _. cbn. pose proof (max_height_ge k (h + 1)). lia.
  - intros o e IH base h k Hs [Ho He]. rewrite <- app_assoc.
    destruct (IH base h ([mkIns o 0] ++ k)) as [H1 H2]; [done..|].
    cbn [app max_height] in H1, H2 |- *. replace (height_change (mkIns o 0)) with 0 in H2 by (by destruct o). rewrite Z.add_0_r in H2. lia.
  - intros o e1 IH1 e2 IH2 base h k Hs (Ho & He1 & He2). to_prop. rewrite <- !app_assoc.
    destruct (IH1 base h (gen names fs (base + length (gen names fs base e1)) e2 ++ [mkIns o 0] ++ k)) as [H1 H2]; [done..|].
    destruct (IH2 (base + length (gen names fs base e1))%nat (h + 1) ([mkIns o 0] ++ k)) as [H3 H4]; [done..|].
    cbn [app max_height] in *. replace (height_change (mkIns o 0)) with (-1) in * by (by destruct o).
    replace (h + 1 + 1 + -1) with (h + 1) in * by lia. lia.
  - intros e1 IH1 e2 IH2 base h k Hs (He1 & He2). to_prop. rewrite <- !app_assoc.
    set (c2 := gen names fs (base + length (gen names fs base e1) + 2) e2).
    destruct (IH1 base h ([jump OP_JUMP_IF_FALSE_KEEP (base + length (gen names fs base e1) + 2 + length c2); mkIns OP_POP 0] ++ c2 ++ k)) as [H1 H2]; [done..|].
    destruct (IH2 (base + length (gen names fs base e1) + 2)%nat h k) as [H3 H4]; [done..|]. fold c2 in H3, H4.
    cbn [app max_height] in *. unfold height_change in H2. cbn [jump op is_binary] in H2.
    replace (h + 1 + 0 + -1) with h in H2 by lia. lia.
  - intros e1 IH1 e2 IH2 base h k Hs (He1 & He2). to_prop. rewrite <- !app_assoc.
    set (c2 := gen names fs (base + length (gen names fs base e1) + 2) e2).
    destruct (IH1 base h ([jump OP_JUMP_IF_TRUE_KEEP (base + length (gen names fs base e1) + 2 + length c2); mkIns OP_POP 0] ++ c2 ++ k)) as [H1 H2]; [done..|].
    destruct (IH2 (base + length (gen names fs base e1) + 2)%nat h k) as [H3 H4]; [done..|]. fold c2 in H3, H4.
    cbn [app max_height] in *. unfold height_change in H2. cbn [jump op is_binary] in H2.
    replace (h + 1 + 0 + -1) with h in H2 by lia. lia.
  - intros f es IH base h k Hs He. destruct (index_fn f fs) as [fi|] eqn:Ef; [|done]. to_prop. rewrite <- app_assoc.
    destruct (IH base h ([mkIns OP_CALL (target fs f)] ++ k)) as [H1 H2]; [done..|].
    assert (height_change (mkIns OP_CALL (target fs f)) = 1 - Z.of_nat (args_len es)) as Hch.
    { unfold height_change, target. cbn [op a]. rewrite Ef. change (default O (Some fi)) with fi. rewrite Nat2Z.id. lia. }
    cbn [app max_height] in H1, H2 |- *. rewrite Hch in H2.
    replace (h + Z.of_nat (args_len es) + (1 - Z.of_nat (args_len es))) with (h + 1) in H2 by lia.
    pose proof (max_height_ge k (h + 1)). lia.
  - intros base h k _ _. cbn. pose proof (max_height_ge k h). rewrite Z.add_0_r. lia.
  - intros e IH es IHs base h k Hs [He Hes]. to_prop. rewrite <- app_assoc.
    destruct (IH base h (gen_args names fs (base + length (gen names fs base e)) es ++ k)) as [H1 H2]; [done..|].
    destruct (IHs (base + length (gen names fs base e))%nat (h + 1) k) as [H3 H4]; [done..|].
    replace (h + 1 + Z.of_nat (args_len es)) with (h + Z.of_nat (S (args_len es))) in H4 by lia. lia.
Qed.

Lemma gen_height G e base h k : scope_expr fs G e = true -> expr_ok e ->
  h + Z.of_nat (need e) <= max_height h (gen names fs base e ++ k) /\
  max_height (h + 1) k <= max_height h (gen names fs base e ++ k).
Proof. intros. by apply (gen_height_all G). Qed.

(** An instruction between two pieces of code. *)
Lemma ins_height i h k d : height_change i = d -> max_height (h + d) k <= max_height h ([i] ++ k).
Proof. intros <-. cbn [app max_height]. lia. Qed.

Lemma gen_lit_height G li es : forall base ei h k, scope_args fs G es = true -> args_ok es ->
  h + Z.of_nat (need_lit es) <= max_height h (gen_lit names fs base li ei es ++ k) /\
  max_height h k <= max_height h (gen_lit names fs base li ei es ++ k).
Proof.
  induction es as [|e es IH]; intros base ei h k Hs Hok; cbn [gen_lit need_lit scope_args args_ok] in *.
  { cbn [app]. pose proof (max_height_ge k h). lia. }
  to_prop. destruct Hok as [He Hes]. set (c := [mkIns OP_PUSH_CONST ei] ++ gen names fs (base + 1) e ++ [mkIns OP_STORE_INDEX li]).
  set (r := gen_lit names fs (base + length c) li (ei + 1) es). unfold c. rewrite <- !app_assoc.
  pose proof (ins_height (mkIns OP_PUSH_CONST ei) h (gen names fs (base + 1) e ++ [mkIns OP_STORE_INDEX li] ++ r ++ k) 1 eq_refl) as H1.
  destruct (gen_height G e (base + 1) (h + 1) ([mkIns OP_STORE_INDEX li] ++ r ++ k)) as [H2 H3]; [done..|].
  pose proof (ins_height (mkIns OP_STORE_INDEX li) (h + 1 + 1) (r ++ k) (-2) eq_refl) as H4.
  destruct (IH (base + length c)%nat (ei + 1) h k) as [H5 H6]; [done..|]. fold r in H5, H6.
  replace (h + 1 + 1 + -2) with h in H4 by lia. lia.
Qed.

Lemma gen_stmt_height G s : forall base h k, settled fs G s = true -> stmt_ok s ->
  h + Z.of_nat (need_stmt s) <= max_height h (gen_stmt names fs base s ++ k) /\
  max_height h k <= max_height h (gen_stmt names fs base s ++ k).
Proof.
  induction s as [|s1 IH1 s2 IH2|e|x e|x i e|x m lit|x lit|e s1 IH1 s2 IH2|e s IH|init IHi cond step IHs body IHb];
    intros base h k Hs Hok; cbn [settled stmt_ok need_stmt gen_stmt] in *; to_prop; rewrite <- ?app_assoc.
  - cbn [app]. pose proof (max_height_ge k h). lia.
  - destruct Hok as [K1 K2].
    match goal with |- _ <= max_height h (_ ++ ?t) /\ _ => destruct (IH1 base h t) as [H1 H2]; [done..|] end.
    match goal with |- _ <= max_height h (_ ++ gen_stmt _ _ ?b _ ++ _) /\ _ => destruct (IH2 b h k) as [H3 H4]; [done..|] end. lia.
  - destruct (gen_height G e base h ([mkIns OP_RET 0] ++ k)) as [H1 H2]; [done..|].
    pose proof (ins_height (mkIns OP_RET 0) (h + 1) k (-1) eq_refl) as H3. replace (h + 1 + -1) with h in H3 by lia. lia.
  - destruct (gen_height G e base h ([mkIns OP_STORE_LOCAL (slot names x)] ++ k)) as [H1 H2]; [done..|].
    pose proof (ins_height (mkIns OP_STORE_LOCAL (slot names x)) (h + 1) k (-1) eq_refl) as H3.
    replace (h + 1 + -1) with h in H3 by lia. lia.
  - destruct Hok as [K1 K2].
    match goal with |- _ <= max_height h (_ ++ ?t) /\ _ => destruct (gen_height G i base h t) as [H2 H3]; [done..|] end.
    match goal with |- _ <= max_height h (_ ++ gen _ _ ?b _ ++ ?t) /\ _ => destruct (gen_height G e b (h + 1) t) as [H4 H5]; [done..|] end.
    pose proof (ins_height (mkIns OP_STORE_INDEX (slot names x)) (h + 1 + 1) k (-2) eq_refl) as H6.
    replace (h + 1 + 1 + -2) with h in H6 by lia. lia.
  - destruct Hok as [_ K]. by apply (gen_lit_height G).
  - by apply (gen_lit_height G).
  - destruct Hok as (K0 & K1 & K2).
    match goal with |- _ <= max_height h (_ ++ ?j ++ ?c1 ++ ?je ++ ?c2 ++ _) /\ _ =>
      destruct (gen_height G e base h (j ++ c1 ++ je ++ c2 ++ k)) as [H3 H4]; [done..|];
      pose proof (ins_height (jump OP_JUMP_IF_FALSE 0) (h + 1) (c1 ++ je ++ c2 ++ k) (-1) eq_refl) as H5
    end.
    match goal with |- _ <= max_height h (_ ++ _ ++ gen_stmt _ _ ?b _ ++ ?je ++ ?c2 ++ _) /\ _ =>
      destruct (IH1 b h (je ++ c2 ++ k)) as [H6 H7]; [done..|] end.
    match goal with |- _ <= max_height h (_ ++ _ ++ _ ++ _ ++ gen_stmt _ _ ?b _ ++ _) /\ _ =>
      destruct (IH2 b h k) as [H8 H9]; [done..|] end.
    cbn [app max_height] in *. unfold height_change in *. cbn [jump op is_binary] in *.
    rewrite ?Z.add_0_r in *. replace (h + 1 + -1) with h in * by lia. lia.
  - destruct Hok as (K0 & K1).
    match goal with |- _ <= max_height h (_ ++ ?t) /\ _ => destruct (gen_height G e base h t) as [H3 H4]; [done..|] end.
    match goal with |- _ <= max_height h (_ ++ _ ++ gen_stmt _ _ ?b _ ++ ?t) /\ _ => destruct (IH b h t) as [H6 H7]; [done..|] end.
    cbn [app max_height] in *. unfold height_change in *. cbn [jump op is_binary] in *.
    rewrite ?Z.add_0_r in *. replace (h + 1 + -1) with h in * by lia. lia.
  - destruct Hok as (K0 & K1 & K2 & K3).
    match goal with |- _ <= max_height h (_ ++ ?t) /\ _ => destruct (IHi base h t) as [A1 A2]; [done..|] end.
    match goal with |- _ <= max_height h (_ ++ gen _ _ ?b _ ++ ?t) /\ _ => destruct (gen_height G cond b h t) as [H3 H4]; [done..|] end.
    match goal with |- _ <= max_height h (_ ++ _ ++ _ ++ gen_stmt _ _ ?b _ ++ ?t) /\ _ => destruct (IHb b h t) as [H6 H7]; [done..|] end.
    match goal with |- _ <= max_height h (_ ++ _ ++ _ ++ _ ++ gen_stmt _ _ ?b _ ++ ?t) /\ _ => destruct (IHs b h t) as [H8 H9]; [done..|] end.
    cbn [app max_height] in *. unfold height_change in *. cbn [jump op is_binary] in *.
    rewrite ?Z.add_0_r in *. replace (h + 1 + -1) with h in * by lia. lia.
Qed.
End Heights.

(** The locals that code loads and stores are scalars. *)
Definition loads_scalar (lens : list Z) (i : VmIns) : bool :=
  match op i with
  | OP_LOAD_LOCAL | OP_STORE_LOCAL => default 0 (lens !! Z.to_nat (a i)) =? 0
  | _ => true
  end.

Section Settled.
Context (fs : list VmFn) (F : scope) (names : list (list Z)) (Enames : names = s_names F).

(** [F] has the names of [G], and its arrays. *)
Definition extends (G : scope) : Prop :=
  s_names G `prefix_of` s_names F /\ forall i, arr_len G i <> 0 -> arr_len F i <> 0.

Local Abbreviation ok_code cs := (forallb (loads_scalar (s_arrs F)) cs = true).

Lemma array_extends G x : extends G -> array_in G x = true -> array_in F x = true.
Proof.
  intros [[k E] Ha] Hx. unfold array_in in *. destruct (index_of x (s_names G)) as [i|] eqn:Ei; [|done].
  rewrite E, (index_of_app _ _ k i Ei). to_prop. apply Bool.negb_true_iff, Z.eqb_neq. auto.
Qed.

Lemma slot_scalar o x i : index_of x (s_names F) = Some i -> (o = OP_LOAD_LOCAL \/ o = OP_STORE_LOCAL) ->
  loads_scalar (s_arrs F) (mkIns o (slot names x)) = true -> scalar_in F x = true.
Proof.
  intros Hi Ho Hl. unfold scalar_in. rewrite Hi. unfold slot in Hl. rewrite Enames, Hi in Hl.
  change (default O (Some i)) with i in Hl.
  apply Z.leb_le. unfold arr_len. destruct Ho as [->| ->]; cbn [loads_scalar op a] in Hl; rewrite Nat2Z.id in Hl; to_prop; lia.
Qed.

Lemma settled_expr_all G : extends G ->
  (forall e base, scope_expr fs G e = true -> ok_code (gen names fs base e) -> scope_expr fs F e = true) /\
  (forall es base, scope_args fs G es = true -> ok_code (gen_args names fs base es) -> scope_args fs F es = true).
Proof.
  intros HG. apply cexpr_cargs_ind; simpl.
  - done.
  - intros x base Hx Hc. rewrite andb_true_r in Hc. unfold scalar_in in Hx.
    destruct (index_of x (s_names G)) as [i|] eqn:Ei; [|done]. destruct HG as [[k E] _].
    apply (slot_scalar OP_LOAD_LOCAL x i); [by rewrite E; apply index_of_app|auto|done].
  - intros x e IH base Hs Hc. rewrite forallb_app in Hc. to_prop. rewrite (array_extends G) by done. by apply (IH base).
  - intros x base Hx _. by apply (array_extends G).
  - intros o e IH base Hs Hc. rewrite forallb_app in Hc. to_prop. by eapply IH.
  - intros o e1 IH1 e2 IH2 base Hs Hc. rewrite !forallb_app in Hc. to_prop. rewrite (IH1 base) by done. by eapply IH2.
  - intros e1 IH1 e2 IH2 base Hs Hc. rewrite !forallb_app in Hc. to_prop. rewrite (IH1 base) by done. cbn [forallb loads_scalar jump op andb] in *. by eapply IH2.
  - intros e1 IH1 e2 IH2 base Hs Hc. rewrite !forallb_app in Hc. to_prop. rewrite (IH1 base) by done. cbn [forallb loads_scalar jump op andb] in *. by eapply IH2.
  - intros f es IH base Hs Hc. destruct (index_fn f fs); [|done]. rewrite forallb_app in Hc. to_prop.
    rewrite (IH base) by done. rewrite andb_true_r. by apply Nat.eqb_eq.
  - done.
  - intros e IH es IHs base Hs Hc. rewrite forallb_app in Hc. to_prop. rewrite (IH base) by done. by eapply IHs.
Qed.

Lemma settled_lit G li es : extends G -> forall base ei, scope_args fs G es = true ->
  ok_code (gen_lit names fs base li ei es) -> scope_args fs F es = true.
Proof.
  intros HG. induction es as [|e es IH]; intros base ei Hs Hc; cbn [gen_lit scope_args] in *; [done|].
  rewrite forallb_app in Hc. cbn [app forallb] in Hc. rewrite forallb_app in Hc. to_prop.
  rewrite (proj1 (settled_expr_all G HG) e (base + 1)%nat) by done. by eapply IH.
Qed.

(** Arrays stay arrays. *)
Lemma scope_stmt_arrays s : forall G G', stmt_ok s -> scope_wf G -> scope_stmt fs G s = Some G' ->
  scope_wf G' /\ forall i, arr_len G i <> 0 -> arr_len G' i <> 0.
Proof.
  assert (forall x G i G', scope_wf G -> declare x G = Some (i, G') ->
    scope_wf G' /\ (i < length (s_arrs G'))%nat /\ forall j, arr_len G j <> 0 -> arr_len G' j <> 0) as Hd.
  { intros x G i G' HW H. pose proof (declare_wf _ _ _ _ H HW) as HW'. split; [done|].
    pose proof (declare_prefix _ _ _ _ H) as [_ Hi]. apply index_of_lt in Hi. rewrite (proj1 HW') in Hi. split; [done|].
    intros j Hj. unfold declare in H. case_match; [by injection H as _ <-|]. case_match; [done|]. injection H as _ <-.
    unfold arr_len in *. cbn [s_arrs]. destruct (s_arrs G !! j) as [n|] eqn:E; [|done]. by rewrite (lookup_app_l_Some _ _ _ _ E). }
  induction s as [|s1 IH1 s2 IH2|e|x e|x i e|x n lit|x lit|e s1 IH1 s2 IH2|e s IH|init IHi cond step IHs body IHb];
    cbn [scope_stmt stmt_ok]; intros G G' Hok HW H.
  - by injection H as <-.
  - destruct Hok as [K1 K2]. apply bind_Some in H as (G1 & H1 & H2).
    destruct (IH1 G G1) as [W1 A1]; [done..|]. destruct (IH2 G1 G') as [W2 A2]; [done..|]. auto.
  - by case_match; simplify_eq.
  - case_match; [|done]. apply bind_Some in H as ([i G1] & H1 & H2). case_match; simplify_eq.
    by destruct (Hd _ _ _ _ HW H1) as (? & _ & ?).
  - by case_match; simplify_eq.
  - destruct Hok as [Kn _]. apply bind_Some in H as ([i G1] & H1 & H2). case_match; simplify_eq.
    destruct (Hd _ _ _ _ HW H1) as (W1 & Hi & A1).
    split; [apply mark_wf; [lia|done]|]. intros j Hj. unfold arr_len. cbn [mark s_arrs].
    destruct (decide (i = j)) as [->|Hne]; [rewrite list_lookup_insert_eq by done; simpl; lia|].
    rewrite list_lookup_insert_ne by done. by apply A1.
  - by repeat case_match; simplify_eq.
  - case_match; [|done]. apply bind_Some in H as (G1 & H1 & H2). destruct Hok as (_ & K1 & K2).
    destruct (IH1 G G1) as [W1 A1]; [done..|]. destruct (IH2 G1 G') as [W2 A2]; [done..|]. auto.
  - case_match; [|done]. destruct Hok as [_ K]. by apply IH.
  - apply bind_Some in H as (G1 & H1 & H). case_match; [|done]. apply bind_Some in H as (G2 & H2 & H3).
    destruct Hok as (K0 & _ & K2 & K3). destruct (IHi G G1) as [W1 A1]; [done..|].
    destruct (IHb G1 G2) as [W2 A2]; [done..|]. destruct (IHs G2 G') as [W3 A3]; [done..|]. auto 6.
Qed.

Lemma extends_back s G G' : stmt_ok s -> scope_wf G -> scope_stmt fs G s = Some G' -> extends G' -> extends G.
Proof.
  intros Hok HW H [P A]. destruct (scope_stmt_arrays s G G' Hok HW H) as [_ A'].
  split; [etrans; [by eapply scope_stmt_prefix|done]|auto].
Qed.

Ltac some_eq := lazymatch goal with E : Some _ = Some _ |- _ => injection E as <- end.

(** A statement whose code loads and stores scalars only has settled names. *)
Lemma settled_of_code s : forall G G' base, stmt_ok s -> scope_wf G -> scope_stmt fs G s = Some G' -> extends G' ->
  ok_code (gen_stmt names fs base s) -> settled fs F s = true.
Proof.
  assert (forall G e base, extends G -> scope_expr fs G e = true -> ok_code (gen names fs base e) -> scope_expr fs F e = true) as He.
  { intros G e base HG. by apply settled_expr_all. }
  induction s as [|s1 IH1 s2 IH2|e|x e|x i e|x n lit|x lit|e s1 IH1 s2 IH2|e s IH|init IHi cond step IHs body IHb];
    intros G G' base Hok HW H HE Hc; pose proof (extends_back _ _ _ Hok HW H HE) as HE0;
    pose proof (scope_stmt_arrays _ _ _ Hok HW H) as [HW' _];
    cbn [scope_stmt stmt_ok gen_stmt settled] in Hok, H, Hc |- *; rewrite ?forallb_app in Hc.
  - done.
  - destruct Hok as [K1 K2]. apply bind_Some in H as (G1 & H1 & H2). to_prop.
    destruct (scope_stmt_arrays s1 G G1 K1 HW H1) as [W1 _].
    rewrite (IH1 G G1 base) by (try done; by eapply extends_back). cbn [andb]. by eapply (IH2 G1 G').
  - case_match; [|done]; some_eq. to_prop. by eapply He.
  - case_match; [|done]. apply bind_Some in H as ([i G1] & H1 & H2). case_match; [|done]; some_eq. cbn [forallb] in Hc. to_prop.
    rewrite (He G e base) by done. rewrite andb_true_r.
    pose proof (declare_prefix _ _ _ _ H1) as [_ Hi]. destruct HE as [[k E] _].
    apply (slot_scalar OP_STORE_LOCAL x i); [by rewrite E; apply index_of_app|auto|done].
  - destruct Hok as [K1 K2]. case_match; [|done]; some_eq. to_prop. rewrite (array_extends G) by done.
    rewrite (He G i base) by done. cbn [andb]. by eapply (He G).
  - destruct Hok as [Kn K]. apply bind_Some in H as ([i G1] & H1 & H2). case_match; [|done]; some_eq. to_prop.
    pose proof (declare_prefix _ _ _ _ H1) as [_ Hi]. rewrite (array_extends (mark i n G1)).
    + cbn [andb]. eapply (settled_lit (mark i n G1)); done.
    + done.
    + unfold array_in. cbn [mark s_names]. rewrite Hi. apply Bool.negb_true_iff, Z.eqb_neq. unfold arr_len. cbn [s_arrs mark].
      apply index_of_lt in Hi. assert (length (s_names G1) = length (s_arrs G1)) as Hl by (by apply (declare_wf _ _ _ _ H1)).
      rewrite list_lookup_insert_eq by lia. simpl. lia.
  - case_match; [|done]. case_match; [|done]; some_eq. to_prop. rewrite (array_extends G) by
      (try done; unfold array_in; match goal with E : index_of _ _ = _ |- _ => rewrite E end; apply Bool.negb_true_iff, Z.eqb_neq; lia). cbn [andb]. by eapply (settled_lit G).
  - case_match; [|done]. apply bind_Some in H as (G1 & H1 & H2). destruct Hok as (_ & K1 & K2). to_prop.
    destruct (scope_stmt_arrays s1 G G1 K1 HW H1) as [W1 _].
    rewrite (He G e base) by done. cbn [andb].
    rewrite (IH1 G G1 (base + length (gen names fs base e) + 1)%nat) by (try done; by eapply extends_back). cbn [andb]. by eapply (IH2 G1 G').
  - case_match; [|done]. destruct Hok as [_ K]. to_prop. rewrite (He G e base) by done. cbn [andb]. by eapply (IH G G').
  - apply bind_Some in H as (G1 & H1 & H). case_match; [|done]. apply bind_Some in H as (G2 & H2 & H3).
    destruct Hok as (K0 & _ & K2 & K3). to_prop.
    destruct (scope_stmt_arrays init G G1 K0 HW H1) as [W1 _].
    destruct (scope_stmt_arrays body G1 G2 K3 W1 H2) as [W2 _].
    pose proof (extends_back _ _ _ K2 W2 H3 HE) as E2. pose proof (extends_back _ _ _ K3 W1 H2 E2) as E1.
    rewrite (IHi G G1 base) by done. cbn [andb].
    rewrite (He G1 cond (base + length (gen_stmt names fs base init))%nat) by done. cbn [andb].
    apply andb_true_iff. split; [by eapply (IHs G2 G')|by eapply (IHb G1 G2)].
Qed.
End Settled.

(** ** The meaning of a text *)

(** What the machine's frames allow: eight arrays, operands within the stack, and
    locals that are loaded and stored as scalars only if they are not arrays. *)
Definition runnable_fn (fs : list VmFn) (f : VmFn) : bool :=
  (n_arrays (arr_n f) <=? LIN_VM_MAX_ARRS)%nat && (max_height fs 0 (code f) <=? Z.of_nat LIN_VM_MAX_STACK) &&
  forallb (loads_scalar (arr_n f)) (code f).

Definition runnable (m : VmModule) : Prop := forallb (fun f => negb (ok f) || runnable_fn (fns m) f) (fns m) = true.

(** [g] reads the declaration [info]: a tree its body spells, in the scope that
    resolving its names ends with. *)
Definition reads (div shift : bool) (sigs : list VmFn) (info : C0FnInfo) (g : sfn) : Prop :=
  sf_params g = map p_name (fi_params info) /\
  exists ts G, lexes (fi_body info) (ts ++ [tok_eof]) /\ dstmts div shift ts (sf_body g) /\
    scope_params (fi_params info) empty_scope = Some G /\ scope_stmt sigs G (sf_body g) = Some (sf_scope g).

(** The functions without a meaning are those the build rejected. *)
Definition fn_reads (div shift : bool) (sigs : list VmFn) (info : C0FnInfo) (f : VmFn) (g : option sfn) : Prop :=
  match g with
  | Some g => ok f = true /\ reads div shift sigs info g
  | None => ok f = false
  end.

Definition program_of (div shift : bool) (infos : list C0FnInfo) (m : VmModule) (p : program) : Prop :=
  pg_sigs p = map declare_fn infos /\ length (pg_fns p) = length infos /\
  forall i info f, infos !! i = Some info -> fns m !! i = Some f ->
    exists g, pg_fns p !! i = Some g /\ fn_reads div shift (pg_sigs p) info f g.

Lemma max_height_sigs fs fs' cs : (forall i, nparams <$> fs !! i = nparams <$> fs' !! i) ->
  forall h, max_height fs h cs = max_height fs' h cs.
Proof.
  intros Hs. induction cs as [|i cs IH]; intros h; cbn [max_height]; [done|].
  assert (height_change fs i = height_change fs' i) as -> by (unfold height_change; by rewrite Hs). by rewrite IH.
Qed.

(** A compiled function implements a reading of its declaration. *)
Lemma compiled_implements div shift sigs info f :
  compiled div shift sigs info f -> ok f = true -> nparams f = length (fi_params info) ->
  distinct_params info -> runnable_fn sigs f = true ->
  Z.of_nat (length (fi_body info)) < text_limit ->
  exists g, reads div shift sigs info g /\ implements sigs f g.
Proof.
  intros (He & ts & s & G & G' & HL & HD & HP & HS & HW & HC & HN & HA) Hok Hp Hnd Hr Hb.
  unfold runnable_fn in Hr. to_prop. match goal with H : forallb _ _ = true |- _ => rename H into Hls end.
  exists (mkSfn (map p_name (fi_params info)) G' s). split; [split; [done|]; by exists ts, G|].
  apply scope_params_ok in HP as HPn; [|split; [apply Nat.le_0_l|apply NoDup_nil_2]]. destruct HPn as [N1 _].
  apply scope_stmt_names in HS as N2; [|done].
  pose proof (scope_params_names _ _ _ HP Hnd) as E1. cbn [empty_scope s_names app] in E1.
  pose proof (scope_stmt_prefix _ _ _ _ HS) as P.
  assert (scope_wf G) as HWG.
  { eapply scope_params_wf; [exact HP|by apply eligible_params|]. by split; [|constructor]. }
  destruct (derived_stmt div shift) as (_ & _ & _ & _ & Hs & _). apply Hs in HD as [Hsok Hsz].
  apply lexes_length in HL. rewrite length_app in HL. cbn [length] in HL.
  rewrite HC in Hls. rewrite forallb_app in Hls. to_prop.
  assert (settled sigs G' s = true) as Hset.
  { eapply (settled_of_code sigs G' (s_names G') eq_refl s G G' 0); try done. by rewrite <- HA. }
  constructor; cbn [sf_params sf_scope sf_body]; try done.
  - by rewrite length_map.
  - constructor; cbn [sf_scope sf_params]; [|by rewrite <- E1|by rewrite <- HA].
    destruct N2. by constructor.
  - destruct (gen_stmt_height sigs (s_names G') G' s 0 0 [mkIns OP_PUSH_CONST 0; mkIns OP_RET 0]) as [Hh _]; [done..|].
    rewrite HC in *. lia.
  - rewrite HC, length_app, gen_stmt_size. cbn [length]. unfold text_limit, two63 in *. lia.
Qed.

(** One choice for each place of a list. *)
Lemma list_choice {A B} (l : list A) : forall (P : nat -> A -> B -> Prop),
  (forall i x, l !! i = Some x -> exists y, P i x y) ->
  exists l', length l' = length l /\ forall i x, l !! i = Some x -> exists y, l' !! i = Some y /\ P i x y.
Proof.
  induction l as [|x l IH]; intros P H; [by exists []|].
  destruct (H 0%nat x eq_refl) as [y Hy].
  destruct (IH (fun i => P (S i))) as (l' & Hl & Hp); [intros i z Hz; by apply (H (S i) z)|].
  exists (y :: l'). split; [cbn [length]; by rewrite Hl|]. intros [|i] z Hz; [|by apply Hp].
  injection Hz as <-. by exists y.
Qed.

(** The build keeps the signatures. *)
Lemma built_sigs div shift sigs infos fs : Forall2 (built div shift sigs) infos fs -> same_sigs (map declare_fn infos) fs.
Proof. unfold same_sigs. induction 1 as [|info f infos fs [Hf _] Hb IH]; cbn [map]; [done|]. by rewrite IH, Hf. Qed.

Lemma resolved_sigs fs fs' : Forall2 resolved fs fs' -> same_sigs fs fs'.
Proof. unfold same_sigs. induction 1 as [|f f' fs fs' Hf Hb IH]; cbn [map]; [done|]. rewrite IH. by destruct Hf as [->|[_ ->]]. Qed.

(** A module built from a text refines a program that reads the text. *)
Lemma module_meaning div shift src infos md :
  module_of div shift infos md -> Forall (info_ok src) infos -> Forall distinct_params infos ->
  (length infos <= length src)%nat -> Z.of_nat (length src) < text_limit -> runnable md ->
  exists p, program_of div shift infos md p /\ module_refines md p.
Proof.
  intros Hm Ho Hd Hn Hl Hr. set (sigs := map declare_fn infos).
  pose proof (module_length _ _ _ _ Hm) as Hlen.
  assert (same_sigs sigs (fns md)) as Hsig.
  { destruct Hm as (fs & Hb & Hres & _). apply built_sigs in Hb. apply resolved_sigs in Hres. unfold same_sigs in *. etrans; [exact Hb|exact Hres]. }
  assert (forall i, nparams <$> sigs !! i = nparams <$> fns md !! i) as Hnp by (apply nparams_sig; done).
  destruct (list_choice (fns md) (fun i f g => forall info, infos !! i = Some info ->
    fn_reads div shift sigs info f g /\ fn_refines sigs f g)) as (gs & Hgl & Hg).
  { intros i f Ef. destruct (ok f) eqn:Hok.
    - destruct (module_fn _ _ _ _ _ _ Hm Ef Hok) as (info & Ei & Hc & _ & Hs).
      assert (f ∈ fns md) as Hin by (by eapply list_elem_of_lookup_2). apply list_elem_of_In in Hin.
      pose proof (proj1 (List.forallb_forall _ _) Hr f Hin) as Hrf. cbn beta in Hrf. rewrite Hok in Hrf. cbn [negb orb] in Hrf.
      assert (runnable_fn sigs f = true) as Hrs.
      { unfold runnable_fn in *. by rewrite (max_height_sigs sigs (fns md)) by done. }
      destruct (Forall_lookup_1 _ _ _ _ Ho Ei) as [_ _ (off & n & Hbody) _ _ _].
      destruct (compiled_implements div shift sigs info f) as (g & Hg1 & Hg2); try done.
      + rewrite declare_sig in Hs. by injection Hs.
      + by apply (Forall_lookup_1 _ _ _ _ Hd Ei).
      + rewrite Hbody. pose proof (slice_length off n src). lia.
      + exists (Some g). intros info' Ei'. rewrite Ei in Ei'. by injection Ei' as <-.
    - exists None. by intros info _. }
  exists (mkProgram sigs gs). split.
  - split; [done|]. split; [cbn [pg_fns]; lia|]. intros i info f Ei Ef. destruct (Hg i f Ef) as (g & Eg & H).
    exists g. split; [done|]. by apply H.
  - constructor; cbn [pg_sigs pg_fns]; [|done|unfold text_limit, two63 in *; lia].
    apply Forall2_same_length_lookup. split; [done|]. intros i f g Ef Eg. destruct (Hg i f Ef) as (g' & Eg' & H).
    rewrite Eg in Eg'. injection Eg' as <-. apply lookup_lt_Some in Ef. rewrite Hlen in Ef.
    apply lookup_lt_is_Some_2 in Ef as [info Ei]. by apply (H info).
Qed.

Lemma refined_settled m p : module_refines m p ->
  forall i g, pg_fns p !! i = Some (Some g) -> settled (pg_sigs p) (sf_scope g) (sf_body g) = true.
Proof.
  intros Hm i g Eg. destruct (Forall2_lookup_r _ _ _ _ _ (mr_fns _ _ Hm) Eg) as (f & _ & Hi). apply Hi.
Qed.

(** The fuel of the interpreter for a run from no steps. *)
Definition call_fuel : nat := S (S (Z.to_nat LIN_VM_STEP_LIMIT)).

Lemma step_limit_u64 : 0 <= LIN_VM_STEP_LIMIT /\ LIN_VM_STEP_LIMIT + 1 < two64.
Proof. split; [discriminate|reflexivity]. Qed.

(** A run of the machine is the call of the program. *)
Lemma program_runs m p fi args : module_refines m p ->
  exists r sp, call_fn LIN_VM_STEP_LIMIT p call_fuel 0 fi args 0 = Some r /\
    forall fuel, (2 * Z.to_nat LIN_VM_STEP_LIMIT + 2 <= fuel)%nat ->
      vm_exec fuel m true (Z.of_nat fi) args 0 0 = Some (out_of sp r).
Proof.
  intros Hm. destruct step_limit_u64 as [H0 Hu].
  destruct (call_fn_answers LIN_VM_STEP_LIMIT p (refined_settled m p Hm) (S (Z.to_nat LIN_VM_STEP_LIMIT)) 0 fi args 0)
    as (r & Er & _); [lia|lia|]. exists r.
  destruct (call_fn_refines m p Hm LIN_VM_STEP_LIMIT Hu call_fuel (vm_exec_context m true) 0 ltac:(done) fi args 0 r)
    as (_ & fuel0 & sp & E0); [cbn [vm_exec_context step_limit]; lia|exact Er|].
  exists sp. split; [exact Er|]. intros fuel Hf. unfold vm_exec. eapply vm_exec_fuel; [exact E0|].
  destruct (runs (2 * steps_left (vm_exec_context m true) 0 + 2)) as [_ Hrun].
  destruct (Hrun (vm_exec_context m true) (Z.of_nat fi) args 0%nat 0) as (o & Ho & _);
    [cbn [vm_exec_context step_limit]; lia|exact Hu|lia|].
  apply (proj2 (vm_mono _)) with (k := fuel) in Ho; [congruence|].
  unfold steps_left. cbn [vm_exec_context step_limit]. rewrite Z.sub_0_r. lia.
Qed.

Lemma built_meaning `{Env} (shift : bool) src m md m1 infos m2 :
  (if shift then c0_build_full src m else c0_build src m) = Val md m1 ->
  infos_loop src (S (length src)) 0 1 [] 0 m = Val infos m2 ->
  Forall distinct_params infos -> Z.of_nat (length src) < text_limit -> runnable md ->
  exists p, program_of true shift infos md p /\
    forall fi args, exists r sp,
      call_fn LIN_VM_STEP_LIMIT p call_fuel 0 fi args 0 = Some r /\
      forall fuel, (2 * Z.to_nat LIN_VM_STEP_LIMIT + 2 <= fuel)%nat ->
        vm_exec fuel md true (Z.of_nat fi) args 0 0 = Some (out_of sp r).
Proof.
  intros Hb Hi Hd Hl Hr. pose proof (build_mem true shift src m) as Hs.
  assert (c0_build_impl true shift src m = Val md m1) as Hb' by (by destruct shift). rewrite Hb' in Hs.
  destruct Hs as (infos' & m3 & Hi' & _ & Ho & Hm). rewrite Hi in Hi'. injection Hi' as <- _.
  pose proof (infos_loop_count src (S (length src)) 0 1 [] 0 m ltac:(lia) ltac:(cbn; lia)) as Hn.
  rewrite Hi in Hn. cbn [mem_ok] in Hn.
  destruct (module_meaning true shift src infos md Hm Ho Hd Hn Hl Hr) as (p & Hp & Href).
  exists p. split; [exact Hp|]. intros fi args. exact (program_runs md p fi args Href).
Qed.

(** C1. What [c0_build] makes of a text computes the meaning of the text.  When
    the functions of the text name their parameters apart and its module is
    runnable, there is a program that reads the text (syntax trees of the C0
    grammar that its bodies spell, none for a rejected function) such that every
    call of a function by the machine gives the result or the error of the
    program's meaning, after the same number of steps: the meaning always has a
    result within the step limit, and the machine finds it. *)
Theorem c0_build_meaning `{Env} (shift : bool) src m md m1 infos m2 :
  (if shift then c0_build_full src m else c0_build src m) = Val md m1 ->
  infos_loop src (S (length src)) 0 1 [] 0 m = Val infos m2 ->
  Forall distinct_params infos -> Z.of_nat (length src) < text_limit -> runnable md ->
  exists p, program_of true shift infos md p /\
    forall fi args, exists r sp,
      call_fn LIN_VM_STEP_LIMIT p call_fuel 0 fi args 0 = Some r /\
      forall fuel, (2 * Z.to_nat LIN_VM_STEP_LIMIT + 2 <= fuel)%nat ->
        vm_exec fuel md true (Z.of_nat fi) args 0 0 = Some (out_of sp r).
Proof. exact (built_meaning shift src m md m1 infos m2). Qed.

Lemma sample_runnable : runnable sample_module.
Proof. vm_compute. reflexivity. Qed.

Lemma c0_build_meaning_witness :
  Forall distinct_params sample_infos /\ runnable sample_module /\
  exists p, program_of true false sample_infos sample_module p /\
    forall fi args, exists r sp,
      call_fn LIN_VM_STEP_LIMIT p call_fuel 0 fi args 0 = Some r /\
      forall fuel, (2 * Z.to_nat LIN_VM_STEP_LIMIT + 2 <= fuel)%nat ->
        vm_exec fuel sample_module true (Z.of_nat fi) args 0 0 = Some (out_of sp r).
Proof.
  split; [exact sample_distinct|]. split; [exact sample_runnable|].
  destruct sample_built as (m1 & m2 & E1 & E2).
  apply (@c0_build_meaning calm false sample mem0 sample_module m1 sample_infos m2 E1 E2 sample_distinct);
    [reflexivity|exact sample_runnable].
Defined.
