(* ===== verification/C0Scan.v ===== *)
(** * tool/lin_c0_check.c: text buffers and scanners

    The growing buffer of the checker, whose [realloc]s may fail, and the
    scanners that [check] and [lint] share.  The buffer functions return 0 on a
    failure that no caller tests: the text is then not appended.  A scanner works
    on a view, a list of bytes; a loop that skips strings or comments carries
    where it is, and [None] is -1. *)
From stdpp Require Import strings.
From S2P Require Import Prelude Common Token Sys C0Lex.

(** ** Buffers *)

Definition SIZE_MAX : Z := two64 - 1.

(** [b_cap] is 0 exactly when [p] is NULL. *)
Record C0Buf : Type := mkBuf { b_text : list Z; b_cap : Z }.

Definition c0b_init : C0Buf := mkBuf [] 0.

(** What the caller takes as [b.p]. *)
Definition b_ptr (b : C0Buf) : option (list Z) := if b_cap b =? 0 then None else Some (b_text b).

(** The doubling loop; 64 turns reach SIZE_MAX. *)
Fixpoint grow_cap (fuel : nat) (nc need : Z) : Z :=
  match fuel with
  | O => nc
  | S fuel =>
      if nc <? need then if SIZE_MAX / 2 <? nc then need else grow_cap fuel (nc * 2) need
      else nc
  end.

Section Buffers.
Context `{Env}.

Definition c0b_reserve (b : C0Buf) (extra : Z) : Mem (bool * C0Buf) := fun m =>
  let n := Z.of_nat (length (b_text b)) in
  if SIZE_MAX - n - 1 <? extra then Val (false, b) m
  else
    let need := n + extra + 1 in
    if need <=? b_cap b then Val (true, b) m
    else
      let need := if need <? 64 then 64 else need in
      let need :=
        if SIZE_MAX / 2 <? need then n + extra + 1
        else grow_cap 64 (if b_cap b =? 0 then 64 else b_cap b) need in
      let '(ok, m) := c0_malloc m in
      if ok then Val (true, mkBuf (b_text b) need) m else Val (false, b) m.

Definition c0b_n (s : list Z) (b : C0Buf) : Mem C0Buf :=
  '(ok, b) ← c0b_reserve b (Z.of_nat (length s));
  if ok : bool then mret (mkBuf (b_text b ++ s) (b_cap b)) else mret b.

Definition c0b_s (s : list Z) (b : C0Buf) : Mem C0Buf := c0b_n (strz s) b.

(** The pieces of a format and its [%s] arguments; [vsnprintf] fails on more
    than INT_MAX bytes. *)
Definition c0b_fmt (pieces : list (list Z)) (b : C0Buf) : Mem C0Buf :=
  let s := concat (map strz pieces) in
  if 2147483647 <? Z.of_nat (length s) then mret b else c0b_n s b.
End Buffers.

(** ** Characters *)

Definition c0c_is_ident_start (c : Z) : bool :=
  in_range 97 122 c || in_range 65 90 c || (c =? 95) || (c =? 36).
Definition c0c_is_ident (c : Z) : bool := c0c_is_ident_start c || in_range 48 57 c.

(** [strchr(set, c)]: the set, and its terminator. *)
Definition in_set (set : string) (c : Z) : bool := existsb (Z.eqb c) (cstr set) || (c =? 0).
Definition c0c_trim_set (set : list Z) (l : list Z) : list Z :=
  trim_by (fun c => existsb (Z.eqb c) set || (c =? 0)) l.

Definition blanks : list Z := [32; 9].
Definition spaces : list Z := [32; 9; 13; 10].
Definition spaces_semi : list Z := [32; 9; 13; 10; 59].

Definition c0c_eq (l : list Z) (s : string) : bool := bytes_eqb l (cstr s).

(** ** Scanners *)

(** The bytes [c0c_skip_ws] skips; a comment ends before its newline. *)
Fixpoint ws_run (comment : bool) (l : list Z) : nat :=
  match l with
  | [] => O
  | c :: l' =>
      if (c =? 32) || (c =? 9) || (c =? 10) || (c =? 13) then
        S (ws_run (comment && negb (c =? 10)) l')
      else if comment then S (ws_run true l')
      else if (c =? 47) && bool_decide (head l' = Some 47) then S (ws_run true l')
      else O
  end.

Definition c0c_skip_ws (s : list Z) (i : nat) : nat := (i + ws_run false (drop i s))%nat.

Definition c0c_read_ident (s : list Z) (i : nat) : list Z :=
  match drop i s with
  | c :: l => if c0c_is_ident_start c then c :: take (run_length c0c_is_ident l) l else []
  | [] => []
  end.

Definition c0c_starts_lit (s : list Z) (i : nat) (lit : list Z) : bool :=
  bytes_eqb (take (length lit) (drop i s)) lit.

Definition c0c_count_lit (hay needle : list Z) : Z :=
  Z.of_nat (length (List.filter (fun i => c0c_starts_lit hay i needle) (seq 0 (length hay)))).

(** The closing character of the group that starts a view, past strings. *)
Fixpoint match_from (o c : Z) (quoted : bool) (depth : Z) (l : list Z) : option nat :=
  match l with
  | [] => None
  | d :: l =>
      if d =? 34 then S <$> match_from o c (negb quoted) depth l
      else if quoted then S <$> match_from o c true depth l
      else if d =? o then S <$> match_from o c false (depth + 1) l
      else if d =? c then
        if depth - 1 =? 0 then Some O else S <$> match_from o c false (depth - 1) l
      else S <$> match_from o c false depth l
  end.

Definition c0c_match_paren (s : list Z) (open : nat) : option nat :=
  Nat.add open <$> match_from 40 41 false 0 (drop open s).
Definition c0c_find_paren (s : list Z) (open : nat) : option nat :=
  Nat.add open <$> match_from 40 41 false 0 (drop open s).
Definition c0c_match_brace (s : list Z) (open : nat) : option nat :=
  Nat.add open <$> match_from 123 125 false 0 (drop open s).

Definition c0c_find_brace (s : list Z) (i : nat) : option nat :=
  Nat.add i <$> c0_index_char (drop i s) 123.

(** The decimal digits of the low five places; each one is appended alone. *)
Fixpoint rgs_loop (ps : list Z) (x : Z) (started : bool) : list Z :=
  match ps with
  | [] => []
  | p :: ps =>
      let d := (x / p) mod 10 in
      let x := x mod p in
      if (0 <? d) || started || (p =? 1) then d :: rgs_loop ps x true else rgs_loop ps x started
  end.

Definition rgs_digits (v : Z) : list Z :=
  if v <=? 0 then [0] else rgs_loop [10000; 1000; 100; 10; 1] v false.

Fixpoint put_each `{Env} (ss : list (list Z)) (b : C0Buf) : Mem C0Buf :=
  match ss with
  | [] => mret b
  | s :: ss => b ← c0b_s s b; put_each ss b
  end.

Definition c0c_rgs_num `{Env} (v : Z) (b : C0Buf) : Mem C0Buf :=
  put_each (map (fun d => [48 + d]) (rgs_digits v)) b.

(** ** Function names, header and exports *)

(** Past the body of the function whose [!] is at [i], or past the [!]. *)
Definition c0c_each_fn (src : list Z) (i : nat) : nat :=
  let nm := c0c_read_ident src (i + 1) in
  if (length nm =? 0)%nat then S i
  else
    let p := c0c_skip_ws src (i + 1 + length nm) in
    if negb (bool_decide (src !! p = Some 40)) then S i
    else
      let close_p := scan (fun c => negb (c =? 41)) src (p + 1) in
      match c0c_find_brace src (close_p + 1) with
      | None => S i
      | Some b => match c0c_match_brace src b with None => S i | Some close_b => S close_b end
      end.

Fixpoint names_loop `{Env} (src : list Z) (fuel i : nat) (first : bool) (b : C0Buf) : Mem C0Buf :=
  match fuel with
  | O => mstuck
  | S fuel =>
      let i := c0c_skip_ws src i in
      match src !! i with
      | None => mret b
      | Some c =>
          let nm := c0c_read_ident src (i + 1) in
          if (c =? 33) && negb (bool_decide (src !! (i + 1)%nat = Some 61)) && negb (length nm =? 0)%nat then
            b ← (if first then mret b else c0b_s (cstr ",") b);
            b ← c0b_n nm b;
            names_loop src fuel (c0c_each_fn src i) false b
          else names_loop src fuel (i + 1) first b
      end
  end.

Definition c0c_fn_names `{Env} (src : list Z) (b : C0Buf) : Mem C0Buf :=
  names_loop src (S (length src)) 0 true b.

Fixpoint c0c_header (l : list Z) : list Z :=
  match l with
  | [] => cstr "@LIN:L1c:0.2"
  | c :: l' => if c =? 64 then take (run_length (fun d => negb (d =? 10)) l) l else c0c_header l'
  end.

Fixpoint c0c_exports (l : list Z) : list Z :=
  match l with
  | [] => []
  | c :: l' =>
      if bytes_eqb (take 4 l) (cstr "=ex{") then
        let r := drop 4 l in take (run_length (fun d => negb (d =? 125)) r) r
      else c0c_exports l'
  end.

Fixpoint csv_loop `{Env} (csv : list Z) (fuel k : nat) (first : bool) (b : C0Buf) : Mem C0Buf :=
  match fuel with
  | O => mstuck
  | S fuel =>
      if (length csv <=? k)%nat then mret b
      else
        let id := c0c_read_ident csv k in
        if (0 <? length id)%nat then
          b ← (if first then mret b else c0b_s (cstr ",") b);
          b ← c0b_s [34] b;
          b ← c0b_n id b;
          b ← c0b_s [34] b;
          csv_loop csv fuel (k + length id) false b
        else csv_loop csv fuel (k + 1) first b
  end.

Definition c0c_csv_json_arr `{Env} (csv : list Z) (b : C0Buf) : Mem C0Buf :=
  b ← c0b_s (cstr "[") b;
  b ← csv_loop csv (S (length csv)) 0 true b;
  c0b_s (cstr "]") b.

(** ** Examples *)

Definition text_of (r : mres C0Buf) : option (list Z) :=
  match r with Val b _ => Some (b_text b) | _ => None end.

Example names_example :
  text_of (@c0c_fn_names calm (cstr "!f(a) { ^!g } // !h() {}
 !k (x) -> int { ^1 }") c0b_init mem0) = Some (cstr "f,k").
Proof. vm_compute. reflexivity. Qed.

Example csv_example :
  text_of (@c0c_csv_json_arr calm (cstr "f, g1") c0b_init mem0) = Some (cstr "[" ++ [34; 102; 34] ++ cstr "," ++ [34; 103; 49; 34] ++ cstr "]").
Proof. vm_compute. reflexivity. Qed.

Example rgs_example : map (fun v => rgs_digits v) [0; 7; 120; 54321; 100000; 123456] = [[0]; [7]; [1; 2; 0]; [5; 4; 3; 2; 1]; [0]; [2; 3; 4; 5; 6]].
Proof. vm_compute. reflexivity. Qed.
