(* ===== verification/C0Check.v ===== *)
(** * tool/lin_c0_check.c: the syntax test, the type check and the record of [check]

    Types are the strings the program writes.  A NULL result is [None]; an early
    [return] of the type check is [Return], so that a message lost to a failed
    allocation is still a return. *)
From stdpp Require Import strings.
From S2P Require Import Prelude Common Token Sys C0Lex C0Scan.

(** ** Syntax *)

(** The loop over braces: the depth at the end, [None] once it is negative. *)
Fixpoint brace_depth (quoted : bool) (depth : Z) (l : list Z) : option Z :=
  match l with
  | [] => Some depth
  | c :: l =>
      if c =? 34 then brace_depth (negb quoted) depth l
      else if quoted then brace_depth true depth l
      else if c =? 123 then brace_depth false (depth + 1) l
      else if c =? 125 then if depth - 1 <? 0 then None else brace_depth false (depth - 1) l
      else brace_depth false depth l
  end.

Definition c0_syntax_valid `{Env} (src : list Z) : Mem bool :=
  match brace_depth false 0 src with
  | Some 0 => nb ← c0c_fn_names src c0b_init; mret (0 <? length (b_text nb))%nat
  | _ => mret false
  end.

(** ** Types of expressions *)

(** The variables with a type, in the order they were first seen. *)
Definition C0Local : Type := (list Z * list Z)%type.

Fixpoint c0c_local_get (ls : list C0Local) (name : list Z) : option (list Z) :=
  match ls with
  | [] => None
  | (x, t) :: ls => if bytes_eqb x name then Some t else c0c_local_get ls name
  end.

Definition c0c_is_valid_ident (s : list Z) : bool :=
  match s with [] => false | c :: s => c0c_is_ident_start c && forallb c0c_is_ident s end.

Definition c0c_is_integer_literal (s : list Z) : bool :=
  match s with
  | [] => false
  | c :: s' =>
      if c =? 45 then negb (length s' =? 0)%nat && forallb (in_range 48 57) s'
      else forallb (in_range 48 57) s
  end.

(** Where a view stands: inside quotes, and the depths of parentheses and
    braces. *)
Record nesting : Type := mkNest { quoted : bool; paren : Z; brace : Z }.

Definition outside : nesting := mkNest false 0 0.
Definition at_top (q : nesting) : bool := negb (quoted q) && (paren q =? 0) && (brace q =? 0).

(** The characters that move it, and whether [c] is another one. *)
Definition nest (c : Z) (q : nesting) : nesting * bool :=
  if c =? 34 then (mkNest (negb (quoted q)) (paren q) (brace q), false)
  else if quoted q then (q, false)
  else if c =? 40 then (mkNest false (paren q + 1) (brace q), false)
  else if c =? 41 then (mkNest false (paren q - 1) (brace q), false)
  else if c =? 123 then (mkNest false (paren q) (brace q + 1), false)
  else if c =? 125 then (mkNest false (paren q) (brace q - 1), false)
  else (q, true).

Fixpoint top_op (op : list Z) (q : nesting) (l : list Z) : bool :=
  match l with
  | [] => false
  | c :: l' =>
      let '(q, other) := nest c q in
      if other && at_top q && bytes_eqb (take (length op) l) op then true else top_op op q l'
  end.

Definition c0c_has_top_op (s : list Z) (op : string) : bool := top_op (cstr op) outside s.

(** The first [op] at the top: the bytes before it. *)
Fixpoint top_char (op : Z) (q : nesting) (l : list Z) : option nat :=
  match l with
  | [] => None
  | c :: l' =>
      let '(q, other) := nest c q in
      if other && at_top q && (c =? op) then Some O else S <$> top_char op q l'
  end.

Definition c0c_split_top_op (s : list Z) (op : Z) : option (list Z * list Z) :=
  (fun i => (take i s, drop (i + 1) s)) <$> top_char op outside s.

Section Infer.
Context (locals : list C0Local) (fns : list C0FnInfo).

(** The return type of the first function of a name. *)
Definition callee_type (name : list Z) : option (list Z) :=
  return_type <$> List.find (fun f => bytes_eqb name (fi_name f)) fns.

(** The type of [name(...)], when [name] is a function. *)
Definition call_type (t : list Z) : option (list Z) :=
  match c0_index_char t 40 with
  | Some k =>
      if bool_decide (t !! (length t - 1)%nat = Some 41) then callee_type (c0c_trim_set blanks (take k t)) else None
  | None => None
  end.

Definition wrapped (o c : Z) (t : list Z) : bool :=
  (2 <=? length t)%nat && bool_decide (head t = Some o) && bool_decide (t !! (length t - 1)%nat = Some c).

Definition compares (t : list Z) : bool :=
  existsb (c0c_has_top_op t) ["=="; "!="; "<="; ">="; "<"; ">"; "&&"; "||"; " and "; " or "]%string.

Fixpoint c0c_infer (fuel : nat) (expr : list Z) : option (list Z) :=
  match fuel with
  | O => None
  | S fuel =>
      let t := c0c_trim_set spaces_semi expr in
      if (length t =? 0)%nat then Some (cstr "any")
      else if wrapped 34 34 t then Some (cstr "string")
      else if c0c_eq t "true" || c0c_eq t "false" then Some (cstr "bool")
      else if c0c_is_valid_ident t then
        Some (match c0c_local_get locals t with Some lt => lt | None => cstr "any" end)
      else if c0c_is_integer_literal t then Some (cstr "int")
      else
        match call_type t with
        | Some r => Some r
        | None =>
            if compares t then Some (cstr "bool")
            else if c0c_has_top_op t "+" then
              match c0c_split_top_op t 43 with
              | Some (L, R) =>
                  tl ← c0c_infer fuel L;
                  tr ← c0c_infer fuel R;
                  Some (if c0c_eq tl "string" || c0c_eq tr "string" then cstr "string" else cstr "int")
              | None => Some (cstr "int")
              end
            else if existsb (c0c_has_top_op t) ["-"; "*"; "/"; "%"]%string then Some (cstr "int")
            else if wrapped 40 41 t then c0c_infer fuel (slice 1 (length t - 2) t)
            else Some (cstr "any")
        end
  end.

(** The fuel: one unit a byte and one more. *)
Definition infer (expr : list Z) : option (list Z) := c0c_infer (S (length expr)) expr.
End Infer.

(** ** Statements and call sites *)

(** The pieces of a view at the commas of its top; [cur] is the piece so far. *)
Fixpoint arg_pieces (q : nesting) (cur l : list Z) : list (list Z) :=
  match l with
  | [] => [cur]
  | c :: l =>
      let q := (nest c q).1 in
      if at_top q && (c =? 44) then cur :: arg_pieces q [] l else arg_pieces q (cur ++ [c]) l
  end.

Section Growth.
Context `{Env}.

(** The pieces that are not blank; NULL, so none, when the array cannot grow. *)
Fixpoint keep_args (ps items : list (list Z)) (cap : nat) : Mem (list (list Z)) :=
  match ps with
  | [] => mret items
  | p :: ps =>
      let it := c0c_trim_set spaces p in
      if (length it =? 0)%nat then keep_args ps items cap
      else if (length items =? cap)%nat then
        fun m => let '(ok, m) := c0_malloc m in
          if ok then keep_args ps (items ++ [it]) (next_cap 8 cap) m else Val [] m
      else keep_args ps (items ++ [it]) cap
  end.

Definition c0c_split_args (raw : list Z) : Mem (list (list Z)) := keep_args (arg_pieces outside [] raw) [] 0.

(** The variables and the capacity of their array. *)
Definition env_t : Type := (list C0Local * nat)%type.

Fixpoint replace_local (ls : list C0Local) (name t : list Z) : option (list C0Local) :=
  match ls with
  | [] => None
  | (x, u) :: ls =>
      if bytes_eqb x name then Some ((x, t) :: ls) else cons (x, u) <$> replace_local ls name t
  end.

(** A variable is forgotten when the array cannot grow. *)
Definition c0c_local_put (name t : list Z) (e : env_t) : Mem env_t := fun m =>
  let '(ls, cap) := e in
  match replace_local ls name t with
  | Some ls => Val (ls, cap) m
  | None =>
      if (length ls =? cap)%nat then
        let '(ok, m) := c0_malloc m in
        if ok then Val (ls ++ [(name, t)], next_cap 16 cap) m else Val (ls, cap) m
      else Val (ls ++ [(name, t)], cap) m
  end.
End Growth.

(** The pieces of a body at the semicolons of its top, untrimmed. *)
Fixpoint body_pieces (q : nesting) (cur l : list Z) : list (list Z) :=
  match l with
  | [] => [cur]
  | c :: l =>
      let '(q, other) := nest c q in
      if other && at_top q && (c =? 59) then cur :: body_pieces q [] l else body_pieces q (cur ++ [c]) l
  end.

(** [lhs = rhs] at the first [=], when that is not part of a comparison and
    [lhs] is a name. *)
Definition assignment (stmt : list Z) : option (list Z * list Z) :=
  match c0_index_char stmt 61 with
  | Some e =>
      let before := stmt !! (e - 1)%nat in
      let bad c := existsb (Z.eqb c) [61; 33; 60; 62] in
      if (0 <? e)%nat && negb (from_option bad true before) && negb (bool_decide (stmt !! (e + 1)%nat = Some 61)) then
        let lhs := c0c_trim_set blanks (take e stmt) in
        let rhs := c0c_trim_set blanks (drop (e + 1) stmt) in
        if c0c_is_valid_ident lhs then Some (lhs, rhs) else None
      else None
  | None => None
  end.

(** The expression of [^expr] or [return expr]. *)
Definition returned (stmt : list Z) : option (list Z) :=
  if bool_decide (head stmt = Some 94) then Some (c0c_trim_set blanks (drop 1 stmt))
  else if bytes_eqb (take 7 stmt) (cstr "return ") then Some (c0c_trim_set blanks (drop 7 stmt))
  else None.

(** The pairs of types that a return statement may not mix. *)
Definition return_clash (exp actual : list Z) : bool :=
  (c0c_eq exp "int" && (c0c_eq actual "string" || c0c_eq actual "bool")) ||
  (c0c_eq exp "string" && (c0c_eq actual "int" || c0c_eq actual "bool")) ||
  (c0c_eq exp "bool" && (c0c_eq actual "string" || c0c_eq actual "int")).

Definition arg_clash (exp act : list Z) : bool :=
  negb (c0c_eq exp "any") && negb (c0c_eq act "any") && negb (bytes_eqb exp act).

(** The next place of [name] from [k] on. *)
Definition next_hit (stmt name : list Z) (k : nat) : option nat :=
  Nat.add k <$> c0_index_str (drop k stmt) name.

(** The arguments of the call at [k], a place of a name of [cn] bytes: none when
    the name goes on to the left, or no closed parenthesis follows. *)
Definition call_args (stmt : list Z) (k cn : nat) : option (list Z) :=
  let joined := (0 <? k)%nat && from_option c0c_is_ident false (stmt !! (k - 1)%nat) in
  let after := (k + cn)%nat in
  if joined || negb (bool_decide (stmt !! after = Some 40)) then None
  else (fun close_p => slice (after + 1) (close_p - (after + 1)) stmt) <$> c0c_find_paren stmt after.

(** ** The check *)

Inductive checked (A : Type) : Type :=
| Go (x : A)
| Return (msg : option (list Z)).
Arguments Go {A} x.
Arguments Return {A} msg.

Definition bind_checked {A B} `{Env} (m : Mem (checked A)) (k : A -> Mem (checked B)) : Mem (checked B) :=
  r ← m; match r with Go x => k x | Return msg => mret (Return msg) end.

Section TypeCheck.
Context `{Env} (fns : list C0FnInfo).

(** A message, in a buffer of its own. *)
Definition report {A} (pieces : list (list Z)) : Mem (checked A) :=
  mb ← c0b_fmt pieces c0b_init; mret (Return (b_ptr mb)).

Definition return_message (F : C0FnInfo) (actual : list Z) : list (list Z) :=
  [cstr "LIN_TYPE_ERROR: function '"; fi_name F; cstr "' return type mismatch: expected ";
   return_type F; cstr ", got "; actual].
Definition arg_message (C : C0FnInfo) (p : C0Param) (act : list Z) : list (list Z) :=
  [cstr "LIN_TYPE_ERROR: function '"; fi_name C; cstr "' argument '"; p_name p; cstr "' expected type ";
   type_name p; cstr ", got "; act].

Definition assign_stmt (stmt : list Z) (e : env_t) : Mem env_t :=
  match assignment stmt with
  | Some (lhs, rhs) =>
      match infer (fst e) fns rhs with Some rt => c0c_local_put lhs rt e | None => mstuck end
  | None => mret e
  end.

Definition check_return (F : C0FnInfo) (stmt : list Z) (ls : list C0Local) : Mem (checked unit) :=
  match returned stmt with
  | None => mret (Go tt)
  | Some rx =>
      match infer ls fns rx with
      | None => mstuck
      | Some actual =>
          if negb (c0c_eq (return_type F) "any") && negb (c0c_eq actual "any") && return_clash (return_type F) actual
          then report (return_message F actual) else mret (Go tt)
      end
  end.

Fixpoint check_args (C : C0FnInfo) (ls : list C0Local) (ps : list C0Param) (args : list (list Z)) : Mem (checked unit) :=
  match ps, args with
  | p :: ps, a :: args =>
      match infer ls fns a with
      | None => mstuck
      | Some act =>
          if arg_clash (type_name p) act then report (arg_message C p act)
          else check_args C ls ps args
      end
  | _, _ => mret (Go tt)
  end.

(** The calls of [C] in a statement, from [sp] on. *)
Fixpoint check_calls (C : C0FnInfo) (stmt : list Z) (ls : list C0Local) (fuel sp : nat) : Mem (checked unit) :=
  match fuel with
  | O => mstuck
  | S fuel =>
      let cn := length (fi_name C) in
      if (sp + cn <=? length stmt)%nat then
        match next_hit stmt (fi_name C) sp with
        | None => mret (Go tt)
        | Some k =>
            match call_args stmt k cn with
            | None => check_calls C stmt ls fuel (k + cn)
            | Some raw =>
                args ← c0c_split_args raw;
                bind_checked (check_args C ls (fi_params C) args)
                  (fun _ => check_calls C stmt ls fuel (k + cn))
            end
        end
      else mret (Go tt)
  end.

Fixpoint check_callees (Cs : list C0FnInfo) (stmt : list Z) (ls : list C0Local) : Mem (checked unit) :=
  match Cs with
  | [] => mret (Go tt)
  | C :: Cs =>
      bind_checked (if (length (fi_name C) =? 0)%nat then mret (Go tt)
                    else check_calls C stmt ls (S (length stmt)) 0)
        (fun _ => check_callees Cs stmt ls)
  end.

Definition check_stmt (F : C0FnInfo) (piece : list Z) (e : env_t) : Mem (checked env_t) :=
  let stmt := c0c_trim_set spaces_semi piece in
  if (length stmt =? 0)%nat then mret (Go e)
  else
    e ← assign_stmt stmt e;
    bind_checked (check_return F stmt (fst e)) (fun _ =>
      bind_checked (check_callees fns stmt (fst e)) (fun _ => mret (Go e))).

Fixpoint check_stmts (F : C0FnInfo) (pieces : list (list Z)) (e : env_t) : Mem (checked unit) :=
  match pieces with
  | [] => mret (Go tt)
  | p :: pieces => bind_checked (check_stmt F p e) (check_stmts F pieces)
  end.

Fixpoint put_params (ps : list C0Param) (e : env_t) : Mem env_t :=
  match ps with
  | [] => mret e
  | p :: ps => e ← c0c_local_put (p_name p) (type_name p) e; put_params ps e
  end.

Definition check_fn (F : C0FnInfo) : Mem (checked unit) :=
  e ← put_params (fi_params F) ([], O);
  check_stmts F (body_pieces outside [] (fi_body F)) e.

Fixpoint check_fns (Fs : list C0FnInfo) : Mem (checked unit) :=
  match Fs with
  | [] => mret (Go tt)
  | F :: Fs => bind_checked (check_fn F) (fun _ => check_fns Fs)
  end.

(** NULL when clean. *)
Definition c0_type_check : Mem (option (list Z)) :=
  r ← check_fns fns; mret (match r with Go _ => None | Return msg => msg end).
End TypeCheck.

(** ** The record *)

Section Record_.
Context `{Env}.

Fixpoint put_params_text (ps : list C0Param) (first : bool) (b : C0Buf) : Mem C0Buf :=
  match ps with
  | [] => mret b
  | p :: ps =>
      b ← (if first then mret b else c0b_s (cstr ",") b);
      b ← c0b_fmt [[34]; p_name p; cstr ":"; type_name p; [34]] b;
      put_params_text ps false b
  end.

Fixpoint put_types (fns : list C0FnInfo) (b : C0Buf) : Mem C0Buf :=
  match fns with
  | [] => mret b
  | f :: fns =>
      b ← c0b_fmt [cstr "  ."; fi_name f; cstr "{ params=["] b;
      b ← put_params_text (fi_params f) true b;
      b ← c0b_fmt [cstr "] return="; [34]; return_type f; [34]; cstr " }" ++ [10]] b;
      put_types fns b
  end.

Definition c0_check_rulel (src : list Z) (fns : list C0FnInfo) : Mem (option (list Z)) :=
  names ← c0c_fn_names src c0b_init;
  out ← c0b_s (cstr "@RULEL:LIN_CHECK:1.0.0" ++ [10] ++ cstr ".header=" ++ [34]) c0b_init;
  out ← c0b_n (c0c_header src) out;
  out ← c0b_s ([34; 10] ++ cstr ".fns=") out;
  out ← c0c_csv_json_arr (b_text names) out;
  out ← c0b_s ([10] ++ cstr ".exports=") out;
  out ← c0c_csv_json_arr (c0c_exports src) out;
  out ← c0b_s ([10] ++ cstr ".types{" ++ [10]) out;
  out ← put_types fns out;
  out ← c0b_s (cstr "}" ++ [10] ++ cstr ".typecheck=passed" ++ [10]) out;
  mret (b_ptr out).
End Record_.

(** ** Examples *)

Definition check_text (src : string) : option (option (list Z)) :=
  match (fns ← @c0_parse_fn_infos calm (cstr src); @c0_type_check calm fns) mem0 with
  | Val r _ => Some r
  | _ => None
  end.

Example check_clean : check_text "!f(n: int) -> int { x = n + 1; ^g(x) } !g(a: int) -> int { ^a }" = Some None.
Proof. vm_compute. reflexivity. Qed.

Example check_return_type : check_text "!f(n: int) -> int { ^n < 2 }" =
  Some (Some (cstr "LIN_TYPE_ERROR: function 'f' return type mismatch: expected int, got bool")).
Proof. vm_compute. reflexivity. Qed.

Example check_argument : check_text "!f(n: string) -> int { ^1 } !g(b: bool) -> int { ^f(b) }" =
  Some (Some (cstr "LIN_TYPE_ERROR: function 'f' argument 'n' expected type string, got bool")).
Proof. vm_compute. reflexivity. Qed.
