(* ===== verification/C0Lint.v ===== *)
(** * tool/lin_c0_check.c: the diagnostics of [lint]

    Two passes over the text append their diagnostics to one buffer: the
    operators the language has not, and the parameters whose names its type
    heuristic misreads.  The record wraps the buffer and counts what it holds. *)
From stdpp Require Import strings.
From S2P Require Import Prelude Common Token Sys C0Lex C0Scan.

(** ** Positions and heuristics *)

Definition line_of (src : list Z) (at_ : nat) : Z :=
  Z.of_nat (length (List.filter (Z.eqb 10) (take at_ src))) + 1.
(** The bytes back to the last newline. *)
Definition col_of (src : list Z) (at_ : nat) : Z :=
  Z.of_nat (run_length (fun c => negb (c =? 10)) (rev (take at_ src))) + 1.

Definition str_prefixes : list string :=
  ["q"; "body"; "params"; "names"; "chs"; "out"; "js_p"; "rewrite_"; "lin_"; "zig_"; "emit_"; "param_";
   "fn_ret"; "andor"; "kw_space"; "rgs_"; "jss_"; "cks_"; "slice2"; "read_ident"; "fromCharCode"; "charAt"]%string.

Definition c0c_heur_str (id : list Z) : bool :=
  negb (length id =? 0)%nat &&
  (existsb (fun p => c0c_starts_lit id 0 (cstr p)) str_prefixes ||
   ((length id =? 2)%nat && c0c_starts_lit id 0 (cstr "id")) ||
   ((length id =? 3)%nat && c0c_starts_lit id 0 (cstr "src"))).

Definition is_blank (c : Z) : bool := (c =? 32) || (c =? 9).

(** The last byte before [at_] that is not blank, or the first byte. *)
Fixpoint back_blank (src : list Z) (k : nat) : nat :=
  match k with
  | O => O
  | S k' => if from_option is_blank false (src !! k) then back_blank src k' else k
  end.

Definition c0c_side_literal (src : list Z) (at_ oplen : nat) : bool :=
  ((0 <? at_)%nat && bool_decide (src !! back_blank src (at_ - 1) = Some 34)) ||
  bool_decide (src !! c0c_skip_ws src (at_ + oplen) = Some 34).

(** The first byte of the identifier characters that end at [st]. *)
Fixpoint ident_start (src : list Z) (st : nat) : nat :=
  match st with
  | O => O
  | S st' => if from_option c0c_is_ident false (src !! st') then ident_start src st' else st
  end.

(** The opening parenthesis of the one that closes at [k], going back. *)
Fixpoint open_paren (src : list Z) (fuel k : nat) (d : Z) : option nat :=
  match fuel with
  | O => None
  | S fuel =>
      let d := if bool_decide (src !! k = Some 41) then d + 1 else d in
      if bool_decide (src !! k = Some 40) then
        if d - 1 =? 0 then Some k
        else if (k =? 0)%nat then None else open_paren src fuel (k - 1) (d - 1)
      else if (k =? 0)%nat then None else open_paren src fuel (k - 1) d
  end.

Definition c0c_call_left_str (src : list Z) (at_ : nat) : bool :=
  if (at_ =? 0)%nat then false
  else
    let k := back_blank src (at_ - 1) in
    if negb (bool_decide (src !! k = Some 41)) then false
    else
      match open_paren src (S k) k 0 with
      | Some (S k') =>
          if negb (from_option c0c_is_ident false (src !! k')) then false
          else c0c_heur_str (c0c_read_ident src (ident_start src k'))
      | _ => false
      end.

(** ** Diagnostics *)

Definition d_escape : string * string :=
  ("ESCAPE_IN_LITERAL", "literals carry no escapes; call q() to emit a quote")%string.
Definition d_division : string * string :=
  ("INT_DIVISION", "no integer division; subtract in a loop or pass a power of ten")%string.
Definition d_shl : string * string := ("SHIFT_OPERATOR", "no shift operator; call _lia_shl(a, b)")%string.
Definition d_shr : string * string := ("SHIFT_OPERATOR", "no shift operator; call _lia_shr(a, b)")%string.
Definition d_eq : string * string :=
  ("STRING_COMPARE", "no string equality; compare .length then starts_lit(s, 0, lit)")%string.
Definition d_ne : string * string :=
  ("STRING_COMPARE", "no string inequality; compare .length then starts_lit(s, 0, lit)")%string.
Definition d_concat : string * string :=
  ("CALL_LEFT_OF_CONCAT", "bind the call result to a variable first, then concatenate")%string.
Definition d_name : string * string :=
  ("NAME_TYPE_COLLISION", "parameter name is read as a string by the type heuristic; rename it")%string.

Section Lint.
Context `{Env} (src : list Z).

Definition c0c_diag (at_ : nat) (d : string * string) (b : C0Buf) : Mem C0Buf :=
  b ← c0b_s (cstr "  .d{ code=") b;
  b ← c0b_s (cstr (fst d)) b;
  b ← c0b_s (cstr " line=") b;
  b ← c0c_rgs_num (line_of src at_) b;
  b ← c0b_s (cstr " col=") b;
  b ← c0c_rgs_num (col_of src at_) b;
  b ← c0b_s (cstr " fix=" ++ [34]) b;
  b ← c0b_s (cstr (snd d)) b;
  c0b_s ([34] ++ cstr " }" ++ [10]) b.

Definition diag_if (c : bool) (at_ : nat) (d : string * string) (b : C0Buf) : Mem C0Buf :=
  if c then c0c_diag at_ d b else mret b.

(** Inside a string: up to its closing quote or the end. *)
Fixpoint lint_string (i : nat) (l : list Z) (b : C0Buf) : Mem (nat * C0Buf) :=
  match l with
  | [] => mret (i, b)
  | c :: l =>
      if c =? 34 then mret (i, b)
      else b ← diag_if (c =? 92) i d_escape b; lint_string (S i) l b
  end.

Definition next_is (i : nat) (c : Z) : bool := bool_decide (src !! (i + 1)%nat = Some c).

Fixpoint ops_loop (fuel i : nat) (b : C0Buf) : Mem C0Buf :=
  match fuel with
  | O => mstuck
  | S fuel =>
      match src !! i with
      | None => mret b
      | Some c =>
          if c =? 34 then
            '(j, b) ← lint_string (i + 1) (drop (i + 1) src) b; ops_loop fuel (j + 1) b
          else if (c =? 47) && next_is i 47 then
            ops_loop fuel (scan (fun d => negb (d =? 10)) src i) b
          else if c =? 47 then b ← c0c_diag i d_division b; ops_loop fuel (i + 1) b
          else if (c =? 60) && next_is i 60 then b ← c0c_diag i d_shl b; ops_loop fuel (i + 2) b
          else if (c =? 62) && next_is i 62 then b ← c0c_diag i d_shr b; ops_loop fuel (i + 2) b
          else if (c =? 61) && next_is i 61 then
            b ← diag_if (c0c_side_literal src i 2) i d_eq b; ops_loop fuel (i + 2) b
          else if (c =? 33) && next_is i 61 then
            b ← diag_if (c0c_side_literal src i 2) i d_ne b; ops_loop fuel (i + 2) b
          else if (c =? 43) && next_is i 43 then ops_loop fuel (i + 2) b
          else if c =? 43 then
            b ← diag_if (c0c_call_left_str src i) i d_concat b; ops_loop fuel (i + 1) b
          else ops_loop fuel (i + 1) b
      end
  end.

Definition c0c_cks_ops (b : C0Buf) : Mem C0Buf := ops_loop (S (length src)) 0 b.

(** A parameter whose declared type is not a string and whose name reads as one. *)
Definition name_collides (seg : list Z) : bool :=
  let p0 := c0c_skip_ws seg 0 in
  let nm := c0c_read_ident seg p0 in
  if (length nm =? 0)%nat then false
  else
    let p := c0c_skip_ws seg (p0 + length nm) in
    let ty := if bool_decide (seg !! p = Some 58) then c0c_read_ident seg (c0c_skip_ws seg (p + 1)) else [] in
    negb (length ty =? 0)%nat &&
    negb (existsb (fun s => c0c_starts_lit ty 0 (cstr s)) ["string"; "str"; "bool"]%string) &&
    c0c_heur_str nm.

Fixpoint plist_pieces (cur l : list Z) : list (list Z) :=
  match l with
  | [] => [cur]
  | c :: l => if c =? 44 then cur :: plist_pieces [] l else plist_pieces (cur ++ [c]) l
  end.

Fixpoint diag_pieces (segs : list (list Z)) (at_ : nat) (b : C0Buf) : Mem C0Buf :=
  match segs with
  | [] => mret b
  | seg :: segs => b ← diag_if (name_collides seg) at_ d_name b; diag_pieces segs at_ b
  end.

Definition c0c_cks_plist (plist : list Z) (at_ : nat) (b : C0Buf) : Mem C0Buf :=
  diag_pieces (plist_pieces [] plist) at_ b.

(** The parameter list of a declaration at [i]: where it opens and closes. *)
Definition param_list (i : nat) : option (nat * nat) :=
  if bool_decide (src !! i = Some 33) then
    let nm := c0c_read_ident src (i + 1) in
    if (length nm =? 0)%nat then None
    else
      let op := c0c_skip_ws src (i + 1 + length nm) in
      if bool_decide (src !! op = Some 40) then
        cl ← c0c_match_paren src op; if (op <? cl)%nat then Some (op, cl) else None
      else None
  else None.

Fixpoint params_loop (fuel i : nat) (b : C0Buf) : Mem C0Buf :=
  match fuel with
  | O => mstuck
  | S fuel =>
      if (length src <=? i)%nat then mret b
      else
        match param_list i with
        | Some (op, cl) =>
            b ← c0c_cks_plist (slice (op + 1) (cl - (op + 1)) src) op b; params_loop fuel (cl + 1) b
        | None => params_loop fuel (i + 1) b
        end
  end.

Definition c0c_cks_params (b : C0Buf) : Mem C0Buf := params_loop (S (length src)) 0 b.

Definition lint_head : list Z :=
  cstr "@RULEL:LIN_LINT:1.0.0" ++ [10] ++
  cstr ".policy{ level=error fail_closed=true rationale=every_rejected_construct_names_its_supported_alternative }" ++
  [10] ++ cstr ".diagnostics{" ++ [10].

Definition c0_lint : Mem (option (list Z)) :=
  body ← c0c_cks_ops c0b_init;
  body ← c0c_cks_params body;
  let errors := c0c_count_lit (b_text body) (cstr "  .d{") in
  out ← c0b_s lint_head c0b_init;
  out ← (match b_ptr body with Some t => c0b_s t out | None => mret out end);
  out ← c0b_s (cstr "}" ++ [10] ++ cstr ".summary{ errors=") out;
  nb ← c0c_rgs_num errors c0b_init;
  out ← c0b_s (default (cstr "0") (b_ptr nb)) out;
  out ← c0b_s (cstr " }" ++ [10]) out;
  mret (b_ptr out).
End Lint.

(** ** Examples *)

Definition lint_text (src : list Z) : option (list Z) :=
  match @c0_lint calm src mem0 with Val r _ => r | _ => None end.

Example lint_clean : lint_text (cstr "!f(a: int) -> int { ^a + 1 }") =
  Some (lint_head ++ cstr "}" ++ [10] ++ cstr ".summary{ errors=0 }" ++ [10]).
Proof. vm_compute. reflexivity. Qed.

Example lint_division : lint_text (cstr "!f(out: int) -> int {
 ^out / 2 }") =
  Some (lint_head ++ cstr "  .d{ code=INT_DIVISION line=2 col=7 fix=" ++ [34] ++ cstr (snd d_division) ++ [34] ++ cstr " }" ++ [10]
    ++ cstr "  .d{ code=NAME_TYPE_COLLISION line=1 col=3 fix=" ++ [34] ++ cstr (snd d_name) ++ [34] ++ cstr " }" ++ [10]
    ++ cstr "}" ++ [10] ++ cstr ".summary{ errors=2 }" ++ [10]).
Proof. vm_compute. reflexivity. Qed.
