(* ===== verification/C0ScanSpec.v ===== *)
(** * Buffers and scanners of the checker: what they promise

    A buffer never writes past its capacity; it holds what was appended to it
    unless an allocation failed or the text would pass INT_MAX bytes. *)
From stdpp Require Import strings.
From S2P Require Import Prelude Common Token Sys C0Lex C0Scan C0LexSpec.

(** ** Computations that always return *)

Definition val_ok {A} (Q : A -> Prop) (r : mres A) : Prop :=
  match r with Val x _ => Q x | _ => False end.

Lemma val_ret {A} (x : A) (Q : A -> Prop) m : Q x -> val_ok Q ((mret x : Mem A) m).
Proof. done. Qed.

Lemma val_bind {A B} (f : Mem A) (k : A -> Mem B) (R : A -> Prop) (Q : B -> Prop) m :
  val_ok R (f m) -> (forall x m, R x -> val_ok Q (k x m)) -> val_ok Q ((f ≫= k) m).
Proof. unfold mbind, Mem_bind. destruct (f m) as [x m'| |]; cbn [val_ok]; [|done..]. auto. Qed.

Lemma val_weaken {A} (P Q : A -> Prop) (r : mres A) : val_ok P r -> (forall x, P x -> Q x) -> val_ok Q r.
Proof. destruct r; cbn [val_ok]; auto. Qed.

Lemma val_exists {A} (Q : A -> Prop) (r : mres A) : val_ok Q r -> exists x m, r = Val x m /\ Q x.
Proof. destruct r as [x m| |]; cbn [val_ok]; [|done..]. by exists x, m. Qed.

(** ** Buffers *)

(** Texts a buffer and a format can hold. *)
Definition INT_MAX : Z := 2147483647.
Definition fits (l : list Z) : Prop := Z.of_nat (length l) <= INT_MAX.

(** The text and its NUL lie within the capacity. *)
Definition buf_wf (b : C0Buf) : Prop :=
  (b_cap b = 0 /\ b_text b = []) \/ Z.of_nat (length (b_text b)) < b_cap b.

Lemma buf_init : buf_wf c0b_init.
Proof. by left. Qed.

Lemma buf_ptr b : buf_wf b -> b_text b <> [] -> b_ptr b = Some (b_text b).
Proof.
  intros [[_ E]|Hc] Hn; [done|]. unfold b_ptr. destruct (Z.eqb_spec (b_cap b) 0); [lia|done].
Qed.

Lemma grow_cap_ge fuel : forall nc need, 0 < nc -> need <= nc * 2 ^ Z.of_nat fuel -> need <= grow_cap fuel nc need.
Proof.
  induction fuel as [|fuel IH]; intros nc need Hn Hb; cbn [grow_cap]; [lia|].
  destruct (Z.ltb_spec nc need); [|lia]. destruct (_ <? nc); [lia|]. apply IH; [lia|].
  rewrite Nat2Z.inj_succ, Z.pow_succ_r in Hb by lia. lia.
Qed.

Section Buffers.
Context `{Env}.

Lemma c0b_reserve_ok b extra m : buf_wf b -> 0 <= extra ->
  val_ok (fun r : bool * C0Buf => b_text r.2 = b_text b /\ buf_wf r.2 /\
    (if r.1 then Z.of_nat (length (b_text b)) + extra < b_cap r.2
     else r.2 = b /\ (alloc_failed \/ SIZE_MAX <= Z.of_nat (length (b_text b)) + extra))) (c0b_reserve b extra m).
Proof.
  intros Hb He. unfold c0b_reserve. set (n := Z.of_nat (length (b_text b))).
  destruct (Z.ltb_spec (SIZE_MAX - n - 1) extra); [cbn; split_and!; [done..|right; lia]|].
  destruct (Z.leb_spec (n + extra + 1) (b_cap b)); [cbn; split_and!; [done|done|lia]|].
  set (need := if n + extra + 1 <? 64 then 64 else n + extra + 1).
  assert (n + extra + 1 <= need) as H64 by (unfold need; destruct (Z.ltb_spec (n + extra + 1) 64); lia).
  assert (need <= SIZE_MAX) as Hmax.
  { unfold need. destruct (_ <? 64); [unfold SIZE_MAX, two64; lia|lia]. }
  set (cap := if SIZE_MAX / 2 <? need then n + extra + 1 else grow_cap 64 (if b_cap b =? 0 then 64 else b_cap b) need).
  assert (n + extra + 1 <= cap) as Hcap.
  { unfold cap. destruct (_ <? need); [lia|]. transitivity need; [done|]. apply grow_cap_ge.
    - destruct (Z.eqb_spec (b_cap b) 0) as [|Hne]; [lia|]. destruct Hb as [[? _]|?]; lia.
    - assert (1 <= if b_cap b =? 0 then 64 else b_cap b) as Hone.
      { destruct (Z.eqb_spec (b_cap b) 0) as [|Hne]; [lia|]. destruct Hb as [[? _]|?]; lia. }
      change (2 ^ Z.of_nat 64) with two64. unfold SIZE_MAX in Hmax. nia. }
  unfold c0_malloc. destruct (alloc_ok (m_clock m)) eqn:Ea; cbn [val_ok fst snd b_text b_cap].
  - split; [done|]. split; [right; cbn [b_text b_cap]; fold n; lia|fold n; lia].
  - split; [done|]. split; [done|]. split; [done|]. left. by exists (m_clock m).
Qed.

(** [b'] is [b] with [s] appended. *)
Definition wrote (s : list Z) (b b' : C0Buf) : Prop :=
  buf_wf b' /\ (b_text b' = b_text b ++ s \/ alloc_failed \/ ~ fits (b_text b ++ s)).

(** [f] appends [s]. *)
Definition writes (s : list Z) (f : C0Buf -> Mem C0Buf) : Prop :=
  forall b m, buf_wf b -> val_ok (wrote s b) (f b m).

Lemma wrote_nil b : buf_wf b -> wrote [] b b.
Proof. intros Hb. split; [done|left]. by rewrite app_nil_r. Qed.

Lemma wrote_trans s1 s2 b b1 b2 : wrote s1 b b1 -> wrote s2 b1 b2 -> wrote (s1 ++ s2) b b2.
Proof.
  intros [_ H1] [Hw H2]. split; [done|]. destruct H1 as [H1|[?|H1]]; [|by right; left|].
  - rewrite H1 in H2. by rewrite app_assoc.
  - right. right. intros Hfit. apply H1. unfold fits in *. rewrite !length_app in *. lia.
Qed.

Lemma writes_n s : writes s (c0b_n s).
Proof.
  intros b m Hb. unfold c0b_n. eapply val_bind; [by apply c0b_reserve_ok; [|lia]|].
  intros [[|] b'] m' (Ht & Hw & Hc); cbn [fst snd] in *; apply val_ret.
  - split; [|by left; rewrite <- Ht]. right. cbn [b_text b_cap]. rewrite length_app, Nat2Z.inj_add, Ht. lia.
  - split; [done|right]. destruct Hc as [_ [?|Hc]]; [by left|right]. unfold fits. rewrite length_app, Nat2Z.inj_add.
    unfold SIZE_MAX, INT_MAX, two64 in *. lia.
Qed.

(** Literals of the program have no NUL. *)
Lemma writes_s s : strz s = s -> writes s (c0b_s s).
Proof. intros Hs. unfold c0b_s. rewrite Hs. apply writes_n. Qed.

Lemma writes_fmt ps : Forall (fun s => strz s = s) ps -> writes (concat ps) (c0b_fmt ps).
Proof.
  intros Hs b m Hb. unfold c0b_fmt. assert (map strz ps = ps) as ->.
  { induction Hs as [|s ps Hs1 Hs IH]; cbn [map]; [done|]. by rewrite Hs1, IH. }
  destruct (Z.ltb_spec 2147483647 (Z.of_nat (length (concat ps)))); [|by apply writes_n].
  apply val_ret. split; [done|]. right. right. unfold fits, INT_MAX. rewrite length_app. lia.
Qed.

(** A message in a new buffer is whole, or there is no buffer. *)
Lemma fmt_new ps m : Forall (fun s => strz s = s) ps -> concat ps <> [] ->
  val_ok (fun b => b_ptr b = Some (concat ps) \/ (b_ptr b = None /\ (alloc_failed \/ ~ fits (concat ps))))
    (c0b_fmt ps c0b_init m).
Proof.
  intros Hs Hne. unfold c0b_fmt. assert (map strz ps = ps) as ->.
  { clear Hne. induction Hs as [|s ps Hs1 Hs IH]; cbn [map]; [done|]. by rewrite Hs1, IH. }
  destruct (Z.ltb_spec 2147483647 (Z.of_nat (length (concat ps)))).
  { apply val_ret. right. split; [done|]. right. unfold fits, INT_MAX. lia. }
  unfold c0b_n. eapply val_bind; [apply c0b_reserve_ok; [exact buf_init|lia]|].
  intros [[|] b] m' (Ht & Hw & Hc); cbn [fst snd] in *; apply val_ret.
  - left. unfold b_ptr. cbn [b_text b_cap c0b_init length] in *. destruct (Z.eqb_spec (b_cap b) 0); [lia|]. by rewrite Ht.
  - right. destruct Hc as [-> [?|Hc]]; (split; [done|]); [by left|right].
    cbn [c0b_init b_text length] in Hc. unfold fits, INT_MAX, SIZE_MAX, two64 in *. lia.
Qed.

Lemma writes_nil : writes [] (fun b => mret b).
Proof. intros b m Hb. apply val_ret. by apply wrote_nil. Qed.

Lemma writes_bind s1 s2 f g : writes s1 f -> writes s2 g -> writes (s1 ++ s2) (fun b => b ← f b; g b).
Proof.
  intros Hf Hg b m Hb. eapply val_bind; [by apply Hf|]. intros b1 m1 H1.
  eapply val_weaken; [by apply Hg, H1|]. intros b2. by apply wrote_trans.
Qed.

Lemma writes_if (c : bool) s f : writes s f -> writes (if c then s else []) (fun b => if c then f b else mret b).
Proof. intros Hf. destruct c; [done|apply writes_nil]. Qed.

Lemma writes_eq s s' f : writes s f -> s = s' -> writes s' f.
Proof. by intros ? <-. Qed.

Lemma writes_each ss : Forall (fun s => strz s = s) ss -> writes (concat ss) (put_each ss).
Proof.
  induction 1 as [|s ss Hs Hss IH]; cbn [put_each concat]; [apply writes_nil|].
  apply (writes_bind s (concat ss) (c0b_s s) (put_each ss)); [by apply writes_s|done].
Qed.
End Buffers.

(** ** Numbers *)

(** The decimal text of the low five digits. *)
Definition rgs_text (v : Z) : list Z := map (fun d => 48 + d) (rgs_digits v).

Lemma rgs_loop_digits ps : forall x st, Forall (fun d => 0 <= d < 10) (rgs_loop ps x st).
Proof.
  induction ps as [|p ps IH]; intros x st; cbn [rgs_loop]; [constructor|].
  destruct (_ || _); [|apply IH]. constructor; [apply Z.mod_pos_bound; lia|apply IH].
Qed.

Lemma rgs_digits_range v : Forall (fun d => 0 <= d < 10) (rgs_digits v).
Proof. unfold rgs_digits. destruct (v <=? 0); [constructor; [lia|constructor]|apply rgs_loop_digits]. Qed.

Lemma writes_num `{Env} v : writes (rgs_text v) (c0c_rgs_num v).
Proof.
  unfold c0c_rgs_num. eapply writes_eq; [apply writes_each|].
  - apply Forall_map. eapply Forall_impl; [|apply rgs_digits_range]. intros d Hd. cbn beta in *.
    unfold strz. cbn [run_length]. destruct (Z.eqb_spec (48 + d) 0) as [Hz|]; [exfalso; lia|done].
  - unfold rgs_text. induction (rgs_digits v) as [|d ds IH]; cbn [map concat app]; [done|]. by rewrite IH.
Qed.

(** Up to 99999 the text is the decimal numeral. *)
Fixpoint digits_value (acc : Z) (ds : list Z) : Z :=
  match ds with [] => acc | d :: ds => digits_value (acc * 10 + d) ds end.

Lemma rgs_digits_value v : 0 < v -> digits_value 0 (rgs_digits v) = v mod 100000.
Proof.
  intros Hv. unfold rgs_digits. destruct (Z.leb_spec v 0); [lia|]. cbn [rgs_loop].
  repeat match goal with |- context [if ?b then _ else _] => destruct b eqn:? end; cbn [digits_value]; to_prop;
    Z.div_mod_to_equations; lia.
Qed.

(** ** Brackets *)

Lemma match_from_lt o c l : forall q d k, match_from o c q d l = Some k -> (k < length l)%nat.
Proof.
  induction l as [|x l IH]; intros q d k; cbn [match_from length]; [done|].
  repeat case_match; try (intros (j & Hj & ->)%fmap_Some; apply IH in Hj; lia); by intros [= <-]; lia.
Qed.
