(* ===== verification/C0CheckSpec.v ===== *)
(** * The syntax test

    It accepts the texts whose braces nest, strings apart, and that declare a
    function. *)
From stdpp Require Import strings.
From S2P Require Import Prelude Common Token Sys C0Lex C0Scan C0Check C0LexSpec C0ScanSpec.

(** ** Nesting of braces *)

Definition no_quote (l : list Z) : Prop := Forall (fun c => c <> 34) l.

(** Texts whose braces nest; a string hides what it holds. *)
Inductive nested : list Z -> Prop :=
| N_nil : nested []
| N_char c l : c <> 34 -> c <> 123 -> c <> 125 -> nested l -> nested (c :: l)
| N_string b l : no_quote b -> nested l -> nested (34 :: b ++ 34 :: l)
| N_block l1 l2 : nested l1 -> nested l2 -> nested (123 :: l1 ++ 125 :: l2).

(** A string that is never closed, up to the end. *)
Definition open_string (t : list Z) : Prop := t = [] \/ exists b, t = 34 :: b /\ no_quote b.

(** A text that closes [n] blocks it did not open. *)
Inductive closes : nat -> list Z -> Prop :=
| C_end l t : nested l -> open_string t -> closes 0 (l ++ t)
| C_block n l k : nested l -> closes n k -> closes (S n) (l ++ 125 :: k).

Lemma closes_nested n l k : (forall l', nested l' -> nested (l ++ l')) -> closes n k -> closes n (l ++ k).
Proof. intros Hl Hc. inv Hc; rewrite app_assoc; constructor; auto. Qed.

Lemma closes_open n l : closes (S n) l -> closes n (123 :: l).
Proof.
  intros Hc. inv Hc. match goal with H : nested ?a, K : closes n ?k |- closes n (123 :: ?a ++ 125 :: ?k) =>
    change (closes n ([123] ++ (a ++ (125 :: k)))); inv K end.
  - replace ([123] ++ l0 ++ 125 :: l ++ t) with ((123 :: l0 ++ 125 :: l) ++ t) by (cbn; by rewrite <- app_assoc).
    by constructor; [constructor|].
  - replace ([123] ++ l0 ++ 125 :: l ++ 125 :: k0) with ((123 :: l0 ++ 125 :: l) ++ 125 :: k0) by (cbn; by rewrite <- app_assoc).
    by constructor; [constructor|].
Qed.

Lemma brace_depth_skip b k d : no_quote b -> brace_depth true d (b ++ k) = brace_depth true d k.
Proof. induction 1 as [|c b Hc Hb IH]; cbn [app brace_depth]; [done|]. by destruct (Z.eqb_spec c 34). Qed.

Lemma brace_depth_nested l : nested l -> forall d k, 0 <= d -> brace_depth false d (l ++ k) = brace_depth false d k.
Proof.
  induction 1 as [|c l H1 H2 H3 Hl IH|b l Hb Hl IH|l1 l2 H1 IH1 H2 IH2]; intros d k Hd; cbn [app brace_depth].
  - done.
  - destruct (Z.eqb_spec c 34), (Z.eqb_spec c 123), (Z.eqb_spec c 125); try done. by apply IH.
  - cbn [Z.eqb Pos.eqb]. rewrite <- app_assoc, brace_depth_skip by done. cbn [app brace_depth negb]. by apply IH.
  - cbn [Z.eqb Pos.eqb]. rewrite <- app_assoc, IH1 by lia. cbn [app brace_depth Z.eqb Pos.eqb].
    destruct (Z.ltb_spec (d + 1 - 1) 0); [lia|]. replace (d + 1 - 1) with d by lia. by apply IH2.
Qed.

Lemma closes_depth n l : closes n l -> brace_depth false (Z.of_nat n) l = Some 0.
Proof.
  induction 1 as [l t Hl Ht|n l k Hl Hk IH]; rewrite brace_depth_nested by (done || lia).
  - destruct Ht as [->|(b & -> & Hb)]; [done|]. cbn [brace_depth Z.eqb Pos.eqb negb].
    rewrite <- (app_nil_r b), brace_depth_skip by done. done.
  - cbn [brace_depth Z.eqb Pos.eqb]. destruct (Z.ltb_spec (Z.of_nat (S n) - 1) 0); [lia|].
    by replace (Z.of_nat (S n) - 1) with (Z.of_nat n) by lia.
Qed.

Lemma depth_closes l : forall n,
  (brace_depth false (Z.of_nat n) l = Some 0 -> closes n l) /\
  (brace_depth true (Z.of_nat n) l = Some 0 ->
     (n = O /\ no_quote l) \/ exists b k, l = b ++ 34 :: k /\ no_quote b /\ closes n k).
Proof.
  induction l as [|c l IH]; intros n; cbn [brace_depth]; split; intros H.
  - injection H as H. assert (n = O) as -> by lia. apply (C_end [] []); [constructor|by left].
  - injection H as H. left. split; [lia|constructor].
  - destruct (Z.eqb_spec c 34) as [->|H34]; cbn [negb] in H.
    { destruct (proj2 (IH n) H) as [[-> Hq]|(b & k & -> & Hb & Hk)].
      - apply (C_end [] (34 :: l)); [constructor|]. right. by exists l.
      - change (34 :: b ++ 34 :: k) with ((34 :: b) ++ ([34] ++ k)). rewrite app_assoc. apply closes_nested; [|done].
        intros l' Hl'. rewrite <- app_assoc. by apply (N_string b l'). }
    destruct (Z.eqb_spec c 123) as [->|H123].
    { apply closes_open, IH. by replace (Z.of_nat (S n)) with (Z.of_nat n + 1) by lia. }
    destruct (Z.eqb_spec c 125) as [->|H125].
    { destruct (Z.ltb_spec (Z.of_nat n - 1) 0); [done|]. destruct n as [|n]; [lia|].
      apply (C_block n []); [constructor|]. apply IH. by replace (Z.of_nat n) with (Z.of_nat (S n) - 1) by lia. }
    apply (closes_nested n [c]); [by constructor|]. by apply IH.
  - destruct (Z.eqb_spec c 34) as [->|H34]; cbn [negb] in H.
    + right. exists [], l. split; [done|]. split; [constructor|]. by apply IH.
    + destruct (proj2 (IH n) H) as [[-> Hq]|(b & k & -> & Hb & Hk)].
      * left. split; [done|]. by constructor.
      * right. exists (c :: b), k. split; [done|]. split; [by constructor|done].
Qed.

Lemma brace_depth_spec l :
  brace_depth false 0 l = Some 0 <-> exists l' t, l = l' ++ t /\ nested l' /\ open_string t.
Proof.
  split.
  - intros H. apply (proj1 (depth_closes l 0)) in H. inv H. by exists l0, t.
  - intros (l' & t & -> & Hl & Ht). apply (closes_depth 0). by constructor.
Qed.

(** ** The names of a text *)

Section Names.
Context (src : list Z).

(** A name is declared at [i]. *)
Definition named (i : nat) (nm : list Z) : Prop :=
  src !! i = Some 33 /\ src !! (i + 1)%nat <> Some 61 /\ nm = c0c_read_ident src (i + 1) /\ nm <> [].

Inductive names_from : nat -> list (list Z) -> Prop :=
| NF_end i : src !! c0c_skip_ws src i = None -> names_from i []
| NF_name i nm ns : named (c0c_skip_ws src i) nm -> names_from (c0c_each_fn src (c0c_skip_ws src i)) ns ->
    names_from i (nm :: ns)
| NF_skip i ns : is_Some (src !! c0c_skip_ws src i) -> (forall nm, ~ named (c0c_skip_ws src i) nm) ->
    names_from (c0c_skip_ws src i + 1) ns -> names_from i ns.

(** The names with commas between them. *)
Definition joined (ns : list (list Z)) : list Z :=
  match ns with
  | [] => []
  | nm :: ns => nm ++ concat (map (cons 44) ns)
  end.

Lemma skip_ws_ge s i : (i <= c0c_skip_ws s i)%nat.
Proof. unfold c0c_skip_ws. lia. Qed.

Lemma find_brace_ge i b : c0c_find_brace src i = Some b -> (i <= b)%nat.
Proof. unfold c0c_find_brace. intros (j & _ & ->)%fmap_Some. lia. Qed.

Lemma match_brace_ge i b : c0c_match_brace src i = Some b -> (i <= b)%nat.
Proof. unfold c0c_match_brace. intros (j & _ & ->)%fmap_Some. lia. Qed.

Lemma each_fn_gt i : (i < c0c_each_fn src i)%nat.
Proof.
  unfold c0c_each_fn. destruct (_ =? 0)%nat; [lia|]. destruct (negb _); [lia|].
  set (p := c0c_skip_ws src _). pose proof (skip_ws_ge src (i + 1 + length (c0c_read_ident src (i + 1)))) as Hp.
  fold p in Hp. pose proof (scan_ge (fun c => negb (c =? 41)) src (p + 1)) as Hs.
  destruct (c0c_find_brace src _) as [b|] eqn:Eb; [|lia]. apply find_brace_ge in Eb.
  destruct (c0c_match_brace src b) as [cb|] eqn:Ec; [|lia]. apply match_brace_ge in Ec. lia.
Qed.

Lemma named_dec i : {nm | named i nm} + {forall nm, ~ named i nm}.
Proof.
  destruct (decide (src !! i = Some 33)) as [H1|H1]; [|right; intros nm (? & _); congruence].
  destruct (decide (src !! (i + 1)%nat = Some 61)) as [H2|H2]; [right; intros nm (_ & ? & _); congruence|].
  destruct (decide (c0c_read_ident src (i + 1) = [])) as [H3|H3].
  - right. intros nm (_ & _ & -> & ?). congruence.
  - left. eexists. by split_and!.
Defined.

Lemma names_loop_ok `{Env} fuel : forall i first, (length src - i < fuel)%nat ->
  exists ns, names_from i ns /\
    writes (if first : bool then joined ns else concat (map (cons 44) ns)) (names_loop src fuel i first).
Proof.
  induction fuel as [|fuel IH]; intros i first Hf; [lia|].
  set (j := c0c_skip_ws src i). pose proof (skip_ws_ge src i) as Hj. fold j in Hj.
  destruct (src !! j) as [c|] eqn:Ec.
  2:{ exists []. split; [by constructor|]. eapply writes_eq; [|by destruct first].
      intros b m Hb. cbn [names_loop]. fold j. rewrite Ec. by apply writes_nil. }
  apply lookup_lt_Some in Ec as Hlt.
  destruct (named_dec j) as [[nm (H1 & H2 & Enm & H3)]|Hno].
  - destruct (IH (c0c_each_fn src j) false) as (ns & Hns & Hw); [pose proof (each_fn_gt j); lia|].
    exists (nm :: ns). split; [by apply NF_name|]. intros b m Hb. cbn [names_loop]. fold j.
    rewrite Ec. rewrite Ec in H1. injection H1 as ->. rewrite <- Enm. rewrite bool_decide_false by done.
    destruct (Nat.eqb_spec (length nm) 0) as [E0|_]; [by destruct nm|]. cbn [Z.eqb Pos.eqb negb andb].
    revert b m Hb. eapply writes_eq.
    + apply (writes_bind (if first then [] else [44]) (nm ++ concat (map (cons 44) ns))
        (fun b => if first then mret b else c0b_s (cstr ",") b)
        (fun b => b ← c0b_n nm b; names_loop src fuel (c0c_each_fn src j) false b)).
      * destruct first; [apply writes_nil|by apply writes_s].
      * apply (writes_bind nm _ (c0b_n nm) (names_loop src fuel (c0c_each_fn src j) false)); [apply writes_n|exact Hw].
    + by destruct first.
  - destruct (IH (j + 1)%nat first) as (ns & Hns & Hw); [lia|].
    exists ns. split; [by apply NF_skip|]. intros b m Hb. cbn [names_loop]. fold j. rewrite Ec.
    destruct (_ && _ && _) eqn:E; [|by apply Hw]. exfalso. to_prop.
    apply (Hno (c0c_read_ident src (j + 1))). subst c. split_and!; try done.
    intros E0. match goal with H : length _ <> 0%nat |- _ => by rewrite E0 in H end.
Qed.

Lemma names_from_nonempty i ns : names_from i ns -> ns <> [] -> joined ns <> [].
Proof.
  intros Hn Hne. destruct ns as [|nm ns]; [done|]. cbn [joined]. intros E%app_eq_nil. destruct E as [-> _].
  remember ([] :: ns) as l eqn:El. revert El Hne.
  induction Hn as [|i nm' ns' (_ & _ & _ & H) _ _|i ns' _ _ _ IH]; intros El Hne; [done|by injection El as -> _|auto].
Qed.
End Names.

Lemma syntax_valid_answers `{Env} src ns m : names_from src 0 ns ->
  (forall b m, buf_wf b -> val_ok (wrote (joined ns) b) (c0c_fn_names src b m)) ->
  val_ok (fun r => alloc_failed \/ ~ fits (joined ns) \/
      (r = true <-> ns <> [] /\ exists l t, src = l ++ t /\ nested l /\ open_string t)) (c0_syntax_valid src m).
Proof.
  intros Hns Hw. unfold c0_syntax_valid. pose proof (brace_depth_spec src) as Hb.
  destruct (brace_depth false 0 src) as [[|p|p]|] eqn:Ed; try (apply val_ret; right; right; split; [done|];
    intros [_ He]; apply Hb in He; congruence).
  eapply val_bind; [by apply (Hw c0b_init m buf_init)|]. intros b m1 [_ [Ht|[?|Hf]]]; apply val_ret; [|by left|by right; left].
  right. right. cbn [c0b_init b_text app] in Ht. rewrite Ht, Nat.ltb_lt. split.
  - intros Hl. split; [|by apply Hb]. intros ->. cbn in Hl. lia.
  - intros [Hne _]. pose proof (names_from_nonempty src 0 ns Hns Hne). destruct (joined ns); [done|cbn [length]; lia].
Qed.

(** [c0_syntax_valid] always answers: the text passes exactly when its
    braces nest, strings apart, and the scan for headers finds a name; only a
    failed allocation, or names of more than 2^31 bytes, can make it miss them. *)
Theorem c0_syntax_valid_correct `{Env} src m : exists ns, names_from src 0 ns /\
  match c0_syntax_valid src m with
  | Val r _ => alloc_failed \/ ~ fits (joined ns) \/
      (r = true <-> ns <> [] /\ exists l t, src = l ++ t /\ nested l /\ open_string t)
  | _ => False
  end.
Proof.
  destruct (names_loop_ok src (S (length src)) 0 true ltac:(lia)) as (ns & Hns & Hw). exists ns. split; [done|].
  pose proof (syntax_valid_answers src ns m Hns Hw) as Hs. destruct (c0_syntax_valid src m); cbn [val_ok] in Hs; done.
Qed.
