(* ===== verification/C0TypeSpec.v ===== *)
(** * The type check reports exactly the clashes of a program

    [statements] pairs every statement of a body with the types of the variables
    known there; [clash] says when a statement breaks the rules and with what
    message.  The check returns the message of a clash, or NULL when there is
    none; a failed allocation can hide any of them. *)
From stdpp Require Import strings.
From S2P Require Import Prelude Common Token Sys C0Lex C0Scan C0Check C0LexSpec C0ScanSpec C0Lang C0Sound C0SoundStmt C0SoundFlow C0Code C0BuildSpec.

(** ** Inference always answers *)

Lemma trim_by_length P l : (length (trim_by P l) <= length l)%nat.
Proof. unfold trim_by. rewrite length_take, length_drop. lia. Qed.

Lemma trim_set_length set l : (length (c0c_trim_set set l) <= length l)%nat.
Proof. apply trim_by_length. Qed.

Lemma top_char_lt op l : forall q i, top_char op q l = Some i -> (i < length l)%nat.
Proof.
  induction l as [|c l IH]; intros q i; cbn [top_char length]; [done|].
  destruct (nest c q) as [q' other]. destruct (_ && _).
  - intros [= <-]. lia.
  - intros (j & Hj & ->)%fmap_Some. apply IH in Hj. lia.
Qed.

Section Types.
Context (fns : list C0FnInfo).

Definition no_nul (t : list Z) : Prop := strz t = t.

(** What the messages need of a program: its texts have no NUL, and its names
    are identifiers. *)
Definition plain_fn (f : C0FnInfo) : Prop :=
  no_nul (fi_name f) /\ Forall param_text (fi_params f) /\ no_nul (return_type f) /\
  forallb c0_is_name_char (fi_name f) = true.
Definition plain_locals (ls : list C0Local) : Prop := Forall (fun p => no_nul p.2) ls.

Context (Hfns : Forall plain_fn fns).

Lemma local_get_plain ls x t : plain_locals ls -> c0c_local_get ls x = Some t -> no_nul t.
Proof.
  induction 1 as [|[y u] ls Hu Hls IH]; cbn [c0c_local_get]; [done|].
  destruct (bytes_eqb y x); [by intros [= <-]|done].
Qed.

Lemma call_type_plain t r : call_type fns t = Some r -> no_nul r.
Proof.
  unfold call_type. destruct (c0_index_char t 40); [|done]. case_bool_decide; [|done].
  unfold callee_type. intros (f & Hf & ->)%fmap_Some. apply List.find_some in Hf as [Hin _].
  apply list_elem_of_In in Hin. by destruct (Forall_elem _ _ _ Hfns Hin) as (_ & _ & ? & _).
Qed.

Lemma infer_total ls fuel : forall e, (length e < fuel)%nat -> exists t, c0c_infer ls fns fuel e = Some t.
Proof.
  induction fuel as [|fuel IH]; intros e Hf; [lia|]. cbn [c0c_infer].
  pose proof (trim_set_length spaces_semi e) as Ht. set (t := c0c_trim_set spaces_semi e) in *.
  destruct (Nat.eqb_spec (length t) 0) as [|Hn]; [by eexists|].
  destruct (wrapped 34 34 t); [by eexists|]. destruct (_ || _); [by eexists|].
  destruct (c0c_is_valid_ident t); [by eexists|]. destruct (c0c_is_integer_literal t); [by eexists|].
  destruct (call_type fns t); [by eexists|]. destruct (compares t); [by eexists|].
  destruct (c0c_has_top_op t "+").
  - unfold c0c_split_top_op. destruct (top_char 43 outside t) as [i|] eqn:Ei; [|by eexists].
    apply top_char_lt in Ei. cbn [fmap option_fmap option_map].
    destruct (IH (take i t)) as [tl ->]; [rewrite length_take; lia|].
    destruct (IH (drop (i + 1) t)) as [tr ->]; [rewrite length_drop; lia|]. by eexists.
  - destruct (existsb _ _); [by eexists|]. destruct (wrapped 40 41 t); [|by eexists].
    apply IH. unfold slice. rewrite length_take, length_drop. lia.
Qed.

Lemma infer_plain ls fuel : plain_locals ls -> forall e t, c0c_infer ls fns fuel e = Some t -> no_nul t.
Proof.
  intros Hls. induction fuel as [|fuel IH]; intros e t; cbn [c0c_infer]; [done|].
  set (e' := c0c_trim_set spaces_semi e). intros Ht.
  repeat match type of Ht with
  | (if ?b then _ else _) = _ => destruct b eqn:?; [try (injection Ht as <-; first [exact eq_refl|idtac])|]
  end.
  - destruct (c0c_local_get ls e') eqn:E; [by eapply local_get_plain|exact eq_refl].
  - destruct (call_type fns e') eqn:Ec; [injection Ht as <-; by eapply call_type_plain|].
    destruct (compares e'); [injection Ht as <-; exact eq_refl|]. destruct (c0c_has_top_op e' "+").
    + destruct (c0c_split_top_op e' 43) as [[L R]|]; [|injection Ht as <-; exact eq_refl].
      apply bind_Some in Ht as (tl & _ & Ht). apply bind_Some in Ht as (tr & _ & Ht).
      injection Ht as <-. destruct (c0c_eq tl "string" || _); exact eq_refl.
    + destruct (existsb _ _); [injection Ht as <-; exact eq_refl|].
      destruct (wrapped 40 41 e'); [by eapply IH|injection Ht as <-; exact eq_refl].
Qed.

(** ** The rules *)

Definition types (ls : list C0Local) (e t : list Z) : Prop := infer ls fns e = Some t.

Lemma types_total ls e : exists t, types ls e t.
Proof. apply infer_total. lia. Qed.

Definition put_local (ls : list C0Local) (x t : list Z) : list C0Local :=
  default (ls ++ [(x, t)]) (replace_local ls x t).

(** The variables after a statement, and those of a function. *)
Definition after_assign (ls : list C0Local) (stmt : list Z) : list C0Local :=
  match assignment stmt with
  | Some (x, e) => match infer ls fns e with Some t => put_local ls x t | None => ls end
  | None => ls
  end.

Definition param_locals (F : C0FnInfo) : list C0Local :=
  foldl (fun ls p => put_local ls (p_name p) (type_name p)) [] (fi_params F).

(** The statements of a body with the variables each is checked under. *)
Fixpoint statements_from (ls : list C0Local) (pieces : list (list Z)) : list (list C0Local * list Z) :=
  match pieces with
  | [] => []
  | p :: pieces =>
      let stmt := c0c_trim_set spaces_semi p in
      if (length stmt =? 0)%nat then statements_from ls pieces
      else (after_assign ls stmt, stmt) :: statements_from (after_assign ls stmt) pieces
  end.

Definition statements (F : C0FnInfo) : list (list C0Local * list Z) :=
  statements_from (param_locals F) (body_pieces outside [] (fi_body F)).

(** The arguments of a call, blanks dropped. *)
Definition arg_list (raw : list Z) : list (list Z) :=
  List.filter (fun a => negb (length a =? 0)%nat) (map (c0c_trim_set spaces) (arg_pieces outside [] raw)).

(** A call of [name] at [k], with its arguments. *)
Definition calls_at (stmt name : list Z) (k : nat) (raw : list Z) : Prop :=
  take (length name) (drop k stmt) = name /\ call_args stmt k (length name) = Some raw.

Inductive clash (F : C0FnInfo) (ls : list C0Local) (stmt : list Z) : list Z -> Prop :=
| K_return e t : returned stmt = Some e -> types ls e t ->
    return_type F <> cstr "any" -> t <> cstr "any" -> return_clash (return_type F) t = true ->
    clash F ls stmt (concat (return_message F t))
| K_arg C k raw i p a t : C ∈ fns -> fi_name C <> [] -> calls_at stmt (fi_name C) k raw ->
    fi_params C !! i = Some p -> arg_list raw !! i = Some a -> types ls a t ->
    type_name p <> cstr "any" -> t <> cstr "any" -> type_name p <> t ->
    clash F ls stmt (concat (arg_message C p t)).

(** ** The check follows the rules *)

Lemma put_local_plain ls x t : plain_locals ls -> no_nul t -> plain_locals (put_local ls x t).
Proof.
  intros Hls Ht. unfold put_local. destruct (replace_local ls x t) as [ls'|] eqn:E; cbn [default].
  - revert ls' E. induction Hls as [|[y u] ls Hu Hls IH]; intros ls'; cbn [replace_local]; [done|].
    destruct (bytes_eqb y x); [intros [= <-]; by constructor|].
    intros (l & Hl & ->)%fmap_Some. constructor; [done|by apply IH].
  - apply Forall_app. split; [done|]. by constructor.
Qed.

Lemma after_assign_plain ls stmt : plain_locals ls -> plain_locals (after_assign ls stmt).
Proof.
  intros Hls. unfold after_assign. destruct (assignment stmt) as [[x e]|]; [|done].
  destruct (infer ls fns e) as [t|] eqn:E; [|done]. apply put_local_plain; [done|]. by eapply infer_plain.
Qed.

Context `{Env}.

(** The outcome of a check: it goes on with what it promises, or it returns a
    message of [K], lost when a buffer cannot hold it; a failed allocation can
    lead to any return. *)
Definition checks {A} (Q : A -> Prop) (K : list Z -> Prop) (r : mres (checked A)) : Prop :=
  val_ok (fun r => match r with
                   | Go x => Q x
                   | Return (Some msg) => alloc_failed \/ K msg
                   | Return None => alloc_failed \/ exists msg, K msg /\ ~ fits msg
                   end) r.

Lemma checks_weaken {A} (Q Q' : A -> Prop) (K K' : list Z -> Prop) r :
  checks Q K r -> (forall x, Q x -> Q' x) -> (forall msg, K msg -> alloc_failed \/ K' msg) -> checks Q' K' r.
Proof.
  intros Hr HQ HK. eapply val_weaken; [exact Hr|]. intros [x|[msg|]]; [apply HQ|..].
  - intros [?|Hm]; [by left|by apply HK].
  - intros [?|(msg & Hm & Hf)]; [by left|]. destruct (HK msg Hm) as [?|?]; [by left|right]. by exists msg.
Qed.

Lemma checks_bind {A B} (f : Mem (checked A)) (k : A -> Mem (checked B)) (R : A -> Prop) (S : A -> B -> Prop)
    (K1 : list Z -> Prop) (K2 : A -> list Z -> Prop) (Q : B -> Prop) (K : list Z -> Prop) m :
  checks R K1 (f m) -> (forall x m, R x -> checks (S x) (K2 x) (k x m)) ->
  (forall x y, R x -> S x y -> Q y) -> (forall msg, K1 msg -> alloc_failed \/ K msg) ->
  (forall x msg, R x -> K2 x msg -> alloc_failed \/ K msg) ->
  checks Q K (bind_checked f k m).
Proof.
  intros Hf Hk HQ HK1 HK2. unfold bind_checked. eapply val_bind; [exact Hf|]. intros [x|msg] m'.
  - intros HR. eapply checks_weaken; [by apply Hk| |]; [intros y; by apply HQ|intros msg; by apply HK2].
  - intros HK. apply val_ret. destruct msg as [msg|].
    + destruct HK as [?|HK]; [by left|by apply HK1].
    + destruct HK as [?|(msg & Hm & Hf')]; [by left|]. destruct (HK1 msg Hm) as [?|?]; [by left|right]. by exists msg.
Qed.

Lemma checks_ret {A} (x : A) (Q : A -> Prop) K m : Q x -> checks Q K ((mret (Go x) : Mem (checked A)) m).
Proof. done. Qed.

Lemma report_ok {A} pieces m (Q : A -> Prop) (K : list Z -> Prop) :
  Forall no_nul pieces -> concat pieces <> [] -> K (concat pieces) -> checks Q K (report pieces m).
Proof.
  intros Hp Hne HK. unfold report. eapply val_bind; [by apply fmt_new|]. intros b m' Hb. apply val_ret.
  destruct Hb as [->|[-> [?|Hf]]]; [by right|by left|]. right. by exists (concat pieces).
Qed.

(** *** Variables *)

Lemma local_put_ok x t e m : val_ok (fun e' =>
    (fst e' = fst e \/ fst e' = put_local (fst e) x t) /\ (alloc_failed \/ fst e' = put_local (fst e) x t))
  (c0c_local_put x t e m).
Proof.
  destruct e as [ls cap]. unfold c0c_local_put, put_local. cbn [fst].
  destruct (replace_local ls x t) as [ls'|]; cbn [default val_ok fst]; [by auto|].
  destruct (_ =? _)%nat; [|cbn [val_ok fst]; by auto].
  unfold c0_malloc. destruct (alloc_ok (m_clock m)) eqn:Ea; cbn [val_ok fst]; [by auto|].
  split; [by left|left]. by exists (m_clock m).
Qed.

Lemma assign_ok stmt e m : plain_locals (fst e) ->
  val_ok (fun e' => plain_locals (fst e') /\ (alloc_failed \/ fst e' = after_assign (fst e) stmt)) (assign_stmt fns stmt e m).
Proof.
  intros Hp. unfold assign_stmt, after_assign. destruct (assignment stmt) as [[x rhs]|]; [|apply val_ret; split; [done|by right]].
  destruct (types_total (fst e) rhs) as [t Ht]. unfold types in Ht. rewrite Ht.
  eapply val_weaken; [apply local_put_ok|]. intros e' [HE Ha]. split; [|exact Ha]. destruct HE as [-> | ->]; [done|].
  apply put_local_plain; [done|]. by eapply infer_plain.
Qed.

Lemma put_params_ok ps : forall e m, plain_locals (fst e) -> Forall param_text ps ->
  val_ok (fun e' => plain_locals (fst e') /\
    (alloc_failed \/ fst e' = foldl (fun ls p => put_local ls (p_name p) (type_name p)) (fst e) ps)) (put_params ps e m).
Proof.
  induction ps as [|p ps IH]; intros e m He Hps; cbn [put_params foldl]; [apply val_ret; by auto|].
  apply Forall_cons_1 in Hps as [[_ Hp] Hps]. eapply val_bind; [apply local_put_ok|]. intros e1 m1 [H1 H2].
  assert (plain_locals (fst e1)) as He1 by (destruct H1 as [-> | ->]; [done|by apply put_local_plain]).
  eapply val_weaken; [by apply IH|]. intros e2 [Hp2 [?|E2]]; (split; [done|]); [by left|].
  destruct H2 as [?|<-]; [by left|by right].
Qed.

(** *** Return statements *)

Lemma plain_in F : F ∈ fns -> plain_fn F.
Proof. apply Forall_elem. exact Hfns. Qed.

Lemma not_any t : negb (c0c_eq t "any") = true <-> t <> cstr "any".
Proof. unfold c0c_eq. rewrite negb_true_iff. apply bytes_eqb_neq. Qed.

Definition return_fine (F : C0FnInfo) (ls : list C0Local) (stmt : list Z) : Prop :=
  forall e t, returned stmt = Some e -> types ls e t -> return_type F <> cstr "any" -> t <> cstr "any" ->
    return_clash (return_type F) t = false.

Lemma types_fun ls e t t' : types ls e t -> types ls e t' -> t = t'.
Proof. unfold types. congruence. Qed.

Lemma check_return_ok F stmt ls m : F ∈ fns -> plain_locals ls ->
  checks (fun _ => return_fine F ls stmt) (clash F ls stmt) (check_return fns F stmt ls m).
Proof.
  intros HF Hls. destruct (plain_in F HF) as (H1 & _ & H3 & _). unfold check_return, return_fine.
  destruct (returned stmt) as [rx|] eqn:Er; [|by apply checks_ret].
  destruct (types_total ls rx) as [t Ht]. pose proof Ht as Et. unfold types in Et. rewrite Et.
  destruct (negb (c0c_eq (return_type F) "any") && negb (c0c_eq t "any") && return_clash (return_type F) t) eqn:E.
  - to_prop. apply report_ok.
    + assert (no_nul t) as Hnt by (by eapply infer_plain). by repeat constructor.
    + unfold return_message. cbn [concat]. intros E0%app_eq_nil. by destruct E0.
    + rewrite <- negb_true_iff, not_any in *. eapply K_return; try done; by apply not_any, negb_true_iff.
  - apply checks_ret. intros e t' [= <-] Ht' Hr Hn. rewrite <- (types_fun _ _ _ _ Ht Ht') in *.
    apply not_any in Hr, Hn. rewrite Hr, Hn in E. exact E.
Qed.

(** *** Arguments *)

Lemma keep_args_ok ps : forall items cap m,
  val_ok (fun args => alloc_failed \/
    args = items ++ List.filter (fun a => negb (length a =? 0)%nat) (map (c0c_trim_set spaces) ps)) (keep_args ps items cap m).
Proof.
  induction ps as [|p ps IH]; intros items cap m; cbn [keep_args map List.filter].
  { apply val_ret. right. by rewrite app_nil_r. }
  destruct (length (c0c_trim_set spaces p) =? 0)%nat eqn:E; cbn [negb]; [apply IH|].
  assert (forall cap m, val_ok (fun args => alloc_failed \/ args = items ++ c0c_trim_set spaces p ::
    List.filter (fun a => negb (length a =? 0)%nat) (map (c0c_trim_set spaces) ps))
    (keep_args ps (items ++ [c0c_trim_set spaces p]) cap m)) as Hgo.
  { intros cap' m'. eapply val_weaken; [apply IH|]. intros args. by rewrite <- app_assoc. }
  destruct (_ =? cap)%nat; [|apply Hgo]. unfold c0_malloc. destruct (alloc_ok (m_clock m)) eqn:Ea; [apply Hgo|].
  left. by exists (m_clock m).
Qed.

Lemma split_args_ok raw m : val_ok (fun args => alloc_failed \/ args = arg_list raw) (c0c_split_args raw m).
Proof. apply keep_args_ok. Qed.

Definition args_fine (ls : list C0Local) (ps : list C0Param) (args : list (list Z)) : Prop :=
  forall i p a t, ps !! i = Some p -> args !! i = Some a -> types ls a t -> arg_clash (type_name p) t = false.

Definition args_clash (C : C0FnInfo) (ls : list C0Local) (ps : list C0Param) (args : list (list Z)) (msg : list Z) : Prop :=
  exists i p a t, ps !! i = Some p /\ args !! i = Some a /\ types ls a t /\ arg_clash (type_name p) t = true /\
    msg = concat (arg_message C p t).

Lemma check_args_ok C ls ps : forall args m, C ∈ fns -> plain_locals ls -> Forall param_text ps ->
  checks (fun _ => args_fine ls ps args) (args_clash C ls ps args) (check_args fns C ls ps args m).
Proof.
  induction ps as [|p ps IH]; intros [|a args] m HC Hls Hps; cbn [check_args]; try (apply checks_ret; by intros [|i]).
  apply Forall_cons_1 in Hps as [[Hp1 Hp2] Hps]. destruct (types_total ls a) as [t Ht].
  pose proof Ht as Et. unfold types in Et. rewrite Et. destruct (arg_clash (type_name p) t) eqn:E.
  - apply report_ok.
    + destruct (plain_in C HC) as (? & _). assert (no_nul t) as Hnt by (by eapply infer_plain). by repeat constructor.
    + unfold arg_message. cbn [concat]. intros E0%app_eq_nil. by destruct E0.
    + by exists 0%nat, p, a, t.
  - eapply checks_weaken; [by apply IH| |].
    + intros u Hf [|i] p' a' t' Hp' Ha' Ht'; [|by eapply Hf]. injection Hp' as <-. injection Ha' as <-.
      by rewrite <- (types_fun _ _ _ _ Ht Ht').
    + intros msg (i & p' & a' & t' & ?). right. by exists (S i), p', a', t'.
Qed.

(** *** Calls *)

Lemma hit_bound (stmt name : list Z) k : name <> [] -> take (length name) (drop k stmt) = name ->
  (k + length name <= length stmt)%nat.
Proof.
  intros Hn E. apply (f_equal length) in E. rewrite length_take, length_drop in E.
  assert (0 < length name)%nat by (destruct name; [done|cbn; lia]). lia.
Qed.

Lemma index_str_spec nd l : match c0_index_str l nd with
  | Some k => take (length nd) (drop k l) = nd /\ forall j, (j < k)%nat -> take (length nd) (drop j l) <> nd
  | None => nd <> [] -> forall j, take (length nd) (drop j l) <> nd
  end.
Proof.
  induction l as [|c l IH]; cbn [c0_index_str].
  - destruct (bytes_eqb (take (length nd) []) nd) eqn:E.
    + apply bytes_eqb_eq in E. split; [by rewrite drop_nil|]. intros j. lia.
    + apply bytes_eqb_neq in E. intros _ j. by rewrite drop_nil.
  - destruct (bytes_eqb (take (length nd) (c :: l)) nd) eqn:E.
    + apply bytes_eqb_eq in E. split; [done|]. intros j. lia.
    + apply bytes_eqb_neq in E. destruct (c0_index_str l nd) as [k|]; cbn [fmap option_fmap option_map].
      * destruct IH as [H1 H2]. split; [done|]. intros [|j] Hj; [done|]. apply H2. lia.
      * intros Hn [|j]; [done|]. by apply IH.
Qed.

Lemma next_hit_spec stmt name sp : name <> [] -> match next_hit stmt name sp with
  | Some k => (sp <= k)%nat /\ take (length name) (drop k stmt) = name /\
      forall j, (sp <= j < k)%nat -> take (length name) (drop j stmt) <> name
  | None => forall j, (sp <= j)%nat -> take (length name) (drop j stmt) <> name
  end.
Proof.
  intros Hn. unfold next_hit. pose proof (index_str_spec name (drop sp stmt)) as Hs.
  destruct (c0_index_str (drop sp stmt) name) as [k|]; cbn [fmap option_fmap option_map].
  - destruct Hs as [H1 H2]. rewrite drop_drop in H1. split; [lia|]. split; [done|]. intros j Hj.
    specialize (H2 (j - sp)%nat ltac:(lia)). rewrite drop_drop in H2. by replace (sp + (j - sp))%nat with j in H2 by lia.
  - intros j Hj. specialize (Hs Hn (j - sp)%nat). rewrite drop_drop in Hs. by replace (sp + (j - sp))%nat with j in Hs by lia.
Qed.

Lemma name_char_ident c : c0_is_name_char c = c0c_is_ident c.
Proof.
  unfold c0_is_name_char, c0c_is_ident, c0c_is_ident_start.
  destruct (in_range 97 122 c), (in_range 65 90 c), (in_range 48 57 c), (c =? 95), (c =? 36); done.
Qed.

(** No call starts inside a name. *)
Lemma no_call_inside (stmt name : list Z) k k' raw : forallb c0_is_name_char name = true ->
  take (length name) (drop k stmt) = name -> (k < k' < k + length name)%nat -> ~ calls_at stmt name k' raw.
Proof.
  intros Hc Hk Hb [_ Ha]. unfold call_args in Ha.
  assert (exists c, stmt !! (k' - 1)%nat = Some c /\ c0c_is_ident c = true) as (c & Ec & Hi).
  { destruct (lookup_lt_is_Some_2 name (k' - 1 - k)%nat ltac:(lia)) as [c Ec]. exists c. split.
    - rewrite <- Hk, lookup_take_lt, lookup_drop in Ec by lia. by replace (k' - 1)%nat with (k + (k' - 1 - k))%nat by lia.
    - rewrite <- name_char_ident. apply (proj1 (List.forallb_forall _ _) Hc), list_elem_of_In. by eapply list_elem_of_lookup_2. }
  rewrite Ec in Ha. cbn [from_option] in Ha. rewrite Hi in Ha.
  destruct (Nat.ltb_spec 0 k'); [|lia]. done.
Qed.

Definition calls_fine (C : C0FnInfo) (ls : list C0Local) (stmt : list Z) (sp : nat) : Prop :=
  forall k raw, (sp <= k)%nat -> calls_at stmt (fi_name C) k raw -> args_fine ls (fi_params C) (arg_list raw).

Definition calls_clash (C : C0FnInfo) (ls : list C0Local) (stmt msg : list Z) : Prop :=
  exists k raw, calls_at stmt (fi_name C) k raw /\ args_clash C ls (fi_params C) (arg_list raw) msg.

Lemma check_calls_ok C stmt ls fuel : forall sp m, C ∈ fns -> plain_locals ls -> fi_name C <> [] ->
  (length stmt - sp < fuel)%nat ->
  checks (fun _ => alloc_failed \/ calls_fine C ls stmt sp) (calls_clash C ls stmt) (check_calls fns C stmt ls fuel sp m).
Proof.
  induction fuel as [|fuel IH]; intros sp m HC Hls Hn Hf; [lia|]. cbn [check_calls].
  assert (0 < length (fi_name C))%nat as Hl by (destruct (fi_name C); [done|cbn; lia]).
  destruct (plain_in C HC) as (_ & Hps & _ & Hid).
  destruct (Nat.leb_spec (sp + length (fi_name C)) (length stmt)).
  2:{ apply checks_ret. right. intros k raw Hk [Hh _]. apply hit_bound in Hh; [lia|done]. }
  pose proof (next_hit_spec stmt (fi_name C) sp Hn) as Hh.
  destruct (next_hit stmt (fi_name C) sp) as [k|].
  2:{ apply checks_ret. right. intros k raw Hk [Hh' _]. by apply Hh in Hh'. }
  destruct Hh as (Hk & Ek & Hfirst). pose proof (hit_bound _ _ _ Hn Ek) as Hkb.
  assert (forall raw0, call_args stmt k (length (fi_name C)) = raw0 ->
    (forall raw, raw0 = Some raw -> args_fine ls (fi_params C) (arg_list raw)) ->
    calls_fine C ls stmt (k + length (fi_name C)) -> calls_fine C ls stmt sp) as Hjoin.
  { intros raw0 E0 Hk0 Hrest k' raw Hk' Hc. destruct (Nat.lt_trichotomy k' k) as [Hlt|[->|Hgt]].
    - destruct Hc as [Hc _]. exfalso. apply (Hfirst k'); [lia|exact Hc].
    - apply Hk0. destruct Hc as [_ Hc]. congruence.
    - destruct (Nat.lt_ge_cases k' (k + length (fi_name C))); [|by apply (Hrest k')].
      exfalso. by apply (no_call_inside stmt (fi_name C) k k' raw). }
  destruct (call_args stmt k (length (fi_name C))) as [raw|] eqn:Er.
  - eapply val_bind; [apply split_args_ok|]. intros args m1 Hargs.
    eapply checks_bind with (R := fun _ => args_fine ls (fi_params C) args) (K1 := args_clash C ls (fi_params C) args)
      (K2 := fun _ => calls_clash C ls stmt); [by apply check_args_ok|intros u m2 _; apply IH; [done..|lia]| | |by auto].
    + intros u v Hf1 [?|Hf2]; [by left|]. destruct Hargs as [?| ->]; [by left|right].
      apply (Hjoin (Some raw)); [done| |done]. by intros raw' [= <-].
    + intros msg Hc. destruct Hargs as [?| ->]; [by left|right]. by exists k, raw.
  - eapply checks_weaken; [apply IH; [done..|lia]| |by auto]. intros u [?|Hr]; [by left|right]. by apply (Hjoin None).
Qed.

Lemma check_callees_ok Cs stmt ls : forall m, Forall (fun C => C ∈ fns) Cs -> plain_locals ls ->
  checks (fun _ => alloc_failed \/ forall C, C ∈ Cs -> fi_name C <> [] -> calls_fine C ls stmt 0)
    (fun msg => exists C, C ∈ Cs /\ fi_name C <> [] /\ calls_clash C ls stmt msg) (check_callees fns Cs stmt ls m).
Proof.
  induction Cs as [|C Cs IH]; intros m HCs Hls; cbn [check_callees].
  { apply checks_ret. right. intros C HC. by apply not_elem_of_nil in HC. }
  apply Forall_cons_1 in HCs as [HC HCs].
  eapply checks_bind with (R := fun _ => alloc_failed \/ (fi_name C <> [] -> calls_fine C ls stmt 0))
    (K1 := fun msg => fi_name C <> [] /\ calls_clash C ls stmt msg).
  - destruct (Nat.eqb_spec (length (fi_name C)) 0) as [E|E].
    + apply checks_ret. right. intros Hn. by destruct (fi_name C).
    + assert (fi_name C <> []) as Hn by (intros E0; by rewrite E0 in E).
      eapply checks_weaken; [apply check_calls_ok; [done..|lia]|intros u [?|?]; by auto|by auto].
  - intros u m1 _. by apply IH.
  - intros u v [?|H1] [?|H2]; [by left..|right]. intros C' [->|HC']%elem_of_cons Hn; [by apply H1|by apply H2].
  - intros msg [Hn Hc]. right. exists C. split; [left|done].
  - intros u msg _ (C' & HC' & Hc). right. exists C'. split; [by right|done].
Qed.

(** *** Statements and functions *)

Definition fine (F : C0FnInfo) (ls : list C0Local) (stmt : list Z) : Prop := forall msg, ~ clash F ls stmt msg.

Lemma arg_clash_spec exp act :
  arg_clash exp act = true <-> exp <> cstr "any" /\ act <> cstr "any" /\ exp <> act.
Proof. unfold arg_clash. rewrite !andb_true_iff, !not_any, negb_true_iff, bytes_eqb_neq. tauto. Qed.

Lemma fine_parts F ls stmt : return_fine F ls stmt ->
  (forall C, C ∈ fns -> fi_name C <> [] -> calls_fine C ls stmt 0) -> fine F ls stmt.
Proof.
  intros Hr Hc msg Hk. inv Hk.
  - match goal with H : return_clash _ _ = true, Hret : returned stmt = Some _ |- _ => erewrite Hr in H by eassumption end. done.
  - match goal with HC : C ∈ fns, Hat : calls_at _ _ _ _, Hp : fi_params C !! _ = Some _, Ha : arg_list _ !! _ = Some _ |- _ =>
      pose proof (Hc C HC ltac:(done) k raw ltac:(lia) Hat i p a t Hp Ha ltac:(done)) as E end.
    assert (arg_clash (type_name p) t = true) by (by apply arg_clash_spec). congruence.
Qed.

Lemma calls_clash_clash F C ls stmt msg : C ∈ fns -> fi_name C <> [] -> calls_clash C ls stmt msg -> clash F ls stmt msg.
Proof.
  intros HC Hn (k & raw & Hat & i & p & a & t & Hp & Ha & Ht & Hcl & ->). apply arg_clash_spec in Hcl as (? & ? & ?).
  by eapply K_arg.
Qed.

Lemma check_stmt_ok F piece e m : F ∈ fns -> plain_locals (fst e) ->
  checks (fun e' => plain_locals (fst e') /\ (alloc_failed \/
      (forall ls s, (ls, s) ∈ statements_from (fst e) [piece] -> fine F ls s) /\
      forall pieces, statements_from (fst e) (piece :: pieces) =
        statements_from (fst e) [piece] ++ statements_from (fst e') pieces))
    (fun msg => exists ls s, (ls, s) ∈ statements_from (fst e) [piece] /\ clash F ls s msg)
    (check_stmt fns F piece e m).
Proof.
  intros HF He. unfold check_stmt. cbn [statements_from].
  destruct (length (c0c_trim_set spaces_semi piece) =? 0)%nat.
  { apply checks_ret. split; [done|]. right. split; [|done]. intros ls s Hin. by apply not_elem_of_nil in Hin. }
  set (stmt := c0c_trim_set spaces_semi piece).
  eapply val_bind; [by apply assign_ok|]. intros e1 m1 [He1 Ha].
  eapply checks_bind with (S := fun _ e' => e' = e1 /\ (alloc_failed \/ forall C, C ∈ fns -> fi_name C <> [] -> calls_fine C (fst e1) stmt 0))
    (K2 := fun _ => clash F (fst e1) stmt); [by apply check_return_ok| | | |].
  - intros u m2 _. eapply checks_bind with (S := fun _ e' => e' = e1) (K2 := fun _ _ => False).
    + apply check_callees_ok; [|done]. apply Forall_forall. intros C HC. by apply list_elem_of_In.
    + intros v m3 _. by apply checks_ret.
    + intros v y Hv ->. by split.
    + intros msg (C & HC & Hn & Hcl). right. by eapply calls_clash_clash.
    + done.
  - intros u y Hr [-> Hc]. split; [done|]. destruct Ha as [?|Ha]; [by left|]. destruct Hc as [?|Hc]; [by left|right].
    rewrite <- Ha. split; [|done]. intros ls s [= -> ->]%list_elem_of_singleton. by apply fine_parts.
  - intros msg Hk. destruct Ha as [?|Ha]; [by left|right]. rewrite Ha in Hk. eexists _, _. split; [left|done].
  - intros u msg _ Hk. destruct Ha as [?|Ha]; [by left|right]. rewrite Ha in Hk. eexists _, _. split; [left|done].
Qed.

Lemma check_stmts_ok F pieces : forall e m, F ∈ fns -> plain_locals (fst e) ->
  checks (fun _ => alloc_failed \/ forall ls s, (ls, s) ∈ statements_from (fst e) pieces -> fine F ls s)
    (fun msg => exists ls s, (ls, s) ∈ statements_from (fst e) pieces /\ clash F ls s msg)
    (check_stmts fns F pieces e m).
Proof.
  induction pieces as [|p pieces IH]; intros e m HF He; cbn [check_stmts].
  { apply checks_ret. right. intros ls s Hin. by apply not_elem_of_nil in Hin. }
  eapply checks_bind; [by apply check_stmt_ok|intros e1 m1 [He1 _]; by apply IH| | |].
  - intros e1 u [_ [?|[H1 Hs]]] [?|H2]; [by left..|right]. rewrite Hs. intros ls s [Hin|Hin]%elem_of_app; auto.
  - intros msg (ls & s & Hin & Hk).
    destruct (decide (length (c0c_trim_set spaces_semi p) = 0%nat)) as [E|E]; cbn [statements_from] in Hin |- *.
    + rewrite E in Hin. by apply not_elem_of_nil in Hin.
    + right. exists ls, s. split; [|done]. destruct (Nat.eqb_spec (length (c0c_trim_set spaces_semi p)) 0); [done|].
      apply list_elem_of_singleton in Hin. rewrite Hin. left.
  - intros e1 msg [_ [?|[_ Hs]]] (ls & s & Hin & Hk); [by left|right]. exists ls, s. split; [|done].
    rewrite Hs. apply elem_of_app. by right.
Qed.

Lemma check_fn_ok F m : F ∈ fns ->
  checks (fun _ => alloc_failed \/ forall ls s, (ls, s) ∈ statements F -> fine F ls s)
    (fun msg => exists ls s, (ls, s) ∈ statements F /\ clash F ls s msg) (check_fn fns F m).
Proof.
  intros HF. destruct (plain_in F HF) as (_ & Hps & _). unfold check_fn.
  eapply val_bind; [apply put_params_ok; [constructor|done]|]. intros e m1 [He Ha]. cbn [fst] in Ha.
  eapply checks_weaken; [by apply check_stmts_ok| |].
  - intros u [?|Hf]; [by left|]. destruct Ha as [?|Ha]; [by left|right]. unfold statements, param_locals. by rewrite <- Ha.
  - intros msg Hk. destruct Ha as [?|Ha]; [by left|right]. unfold statements, param_locals. by rewrite <- Ha.
Qed.

Lemma check_fns_ok Fs : forall m, Forall (fun F => F ∈ fns) Fs ->
  checks (fun _ => alloc_failed \/ forall F ls s, F ∈ Fs -> (ls, s) ∈ statements F -> fine F ls s)
    (fun msg => exists F ls s, F ∈ Fs /\ (ls, s) ∈ statements F /\ clash F ls s msg) (check_fns fns Fs m).
Proof.
  induction Fs as [|F Fs IH]; intros m HFs; cbn [check_fns].
  { apply checks_ret. right. intros F ls s HF. by apply not_elem_of_nil in HF. }
  apply Forall_cons_1 in HFs as [HF HFs].
  eapply checks_bind; [by apply check_fn_ok|intros u m1 _; by apply IH| | |].
  - intros u v [?|H1] [?|H2]; [by left..|right]. intros F' ls s [->|HF']%elem_of_cons Hin; [by apply H1|by eapply H2].
  - intros msg (ls & s & Hin & Hk). right. exists F, ls, s. split; [left|done].
  - intros u msg _ (F' & ls & s & HF' & Hk). right. exists F', ls, s. split; [by right|done].
Qed.
End Types.

Lemma info_plain src f : info_ok src f -> plain_fn f.
Proof. intros []. by split_and!. Qed.

(** The answer about some declarations. *)
Definition type_answer `{Env} (fns : list C0FnInfo) (r : option (list Z)) : Prop :=
  match r with
  | Some msg => alloc_failed \/ exists F ls s, F ∈ fns /\ (ls, s) ∈ statements fns F /\ clash fns F ls s msg
  | None => alloc_failed \/
      (forall F ls s, F ∈ fns -> (ls, s) ∈ statements fns F -> forall msg, ~ clash fns F ls s msg) \/
      exists F ls s msg, F ∈ fns /\ (ls, s) ∈ statements fns F /\ clash fns F ls s msg /\ ~ fits msg
  end.

Lemma type_check_answers `{Env} fns m : Forall plain_fn fns -> val_ok (type_answer fns) (c0_type_check fns m).
Proof.
  intros Hp. pose proof (check_fns_ok fns Hp fns m) as Hc.
  assert (Forall (fun F => F ∈ fns) fns) as Hin by (apply Forall_forall; intros C HC; by apply list_elem_of_In).
  specialize (Hc Hin). unfold c0_type_check, mbind at 1, Mem_bind. unfold checks in Hc.
  destruct (check_fns fns fns m) as [[u|[msg|]] m2| |]; cbn [val_ok] in Hc; try done; unfold mret, Mem_ret; cbn [val_ok type_answer].
  - destruct Hc as [?|Hc]; [by left|right; left]. intros F ls s HF Hs. by apply Hc.
  - destruct Hc as [?|(msg & (F & ls & s & HF & Hs & Hk) & Hf)]; [by left|right; right]. by exists F, ls, s, msg.
Qed.

(** C9. The type check of a text always answers, with a message exactly when
    some statement clashes: it returns the expression of a wrong type, or calls a
    function with an argument of a wrong type, the variables having the types
    their last assignment was inferred to have; the message names that clash.
    Only a failed allocation, or a message of more than 2^31 bytes, can hide it. *)
Theorem c0_type_check_correct `{Env} src m :
  match c0_parse_fn_infos src m with
  | Val fns m1 =>
      match c0_type_check fns m1 with
      | Val (Some msg) _ => alloc_failed \/
          exists F ls s, F ∈ fns /\ (ls, s) ∈ statements fns F /\ clash fns F ls s msg
      | Val None _ => alloc_failed \/
          (forall F ls s, F ∈ fns -> (ls, s) ∈ statements fns F -> forall msg, ~ clash fns F ls s msg) \/
          exists F ls s msg, F ∈ fns /\ (ls, s) ∈ statements fns F /\ clash fns F ls s msg /\ ~ fits msg
      | _ => False
      end
  | Null _ => True
  | MStuck => False
  end.
Proof.
  unfold c0_parse_fn_infos. pose proof (infos_mem src m) as Hi. unfold mbind at 1, Mem_bind at 1.
  destruct (infos_loop src (S (length src)) 0 1 [] 0 m) as [fns m1| |]; cbn [mem_ok] in Hi; [|done..].
  destruct fns as [|f fns]; [done|]. unfold mret at 1, Mem_ret at 1. cbv iota beta. set (l := f :: fns) in *.
  assert (Forall plain_fn l) as Hp by (eapply Forall_impl; [intros g; apply info_plain|exact Hi]).
  pose proof (type_check_answers l m1 Hp) as Hc. by destruct (c0_type_check l m1) as [[msg|] m2| |].
Qed.

Definition ill_typed : list Z := cstr "!f(n: int) -> int { ^n < 2 }".

(** One allocation fails, the [k]-th. *)
Definition failing_at (k : nat) : Env :=
  {| alloc_ok := fun t => negb (t =? k)%nat; io_ok := fun _ => true; io_count := fun _ => O |}.

(** The answer of [check] about [ill_typed]. *)
Definition check_under (e : Env) : option (option (list Z)) :=
  match (fns ← @c0_parse_fn_infos e ill_typed; @c0_type_check e fns) mem0 with Val r _ => Some r | _ => None end.

(** The check fails open: when the one allocation of its message fails, an
    ill-typed text is reported clean. *)
Theorem type_check_fails_open :
  check_under calm = Some (Some (cstr "LIN_TYPE_ERROR: function 'f' return type mismatch: expected int, got bool")) /\
  check_under (failing_at 3) = Some None.
Proof. split; vm_compute; reflexivity. Qed.
