(* ===== verification/C0LintSpec.v ===== *)
(** * What lint reports

    [ops_from] and [params_from] read a text and say where each diagnostic
    stands, strings and comments apart; [render] is how one is printed, and
    [c0_lint] prints exactly those. *)
From stdpp Require Import strings.
From S2P Require Import Prelude Common Token Sys C0Lex C0Scan C0Lint C0Lang C0LexSpec C0ScanSpec.

(** ** Diagnostics *)

Definition diag : Type := (nat * (string * string))%type.

Definition all_diags : list (string * string) :=
  [d_escape; d_division; d_shl; d_shr; d_eq; d_ne; d_concat; d_name].

Section Lint.
Context (src : list Z).

Definition render (d : diag) : list Z :=
  cstr "  .d{ code=" ++ cstr (fst (snd d)) ++ cstr " line=" ++ rgs_text (line_of src (fst d)) ++
  cstr " col=" ++ rgs_text (col_of src (fst d)) ++ (cstr " fix=" ++ [34]) ++ cstr (snd (snd d)) ++ ([34] ++ cstr " }" ++ [10]).

Definition body_text (ds : list diag) : list Z := concat (map render ds).

Lemma body_text_app ds1 ds2 : body_text (ds1 ++ ds2) = body_text ds1 ++ body_text ds2.
Proof. unfold body_text. by rewrite map_app, concat_app. Qed.

Definition known (d : diag) : Prop := snd d ∈ all_diags.

(** What [known] gives by looking at each of them. *)
Lemma known_cases (P : string * string -> Prop) d : known d -> Forall P all_diags -> P (snd d).
Proof. intros Hd HP. by apply (Forall_elem _ _ _ HP). Qed.

Lemma writes_diag `{Env} i d : d ∈ all_diags -> writes (render (i, d)) (c0c_diag src i d).
Proof.
  intros Hd. assert (strz (cstr (fst d)) = cstr (fst d) /\ strz (cstr (snd d)) = cstr (snd d)) as [H1 H2].
  { apply (known_cases (fun d => strz (cstr (fst d)) = cstr (fst d) /\ strz (cstr (snd d)) = cstr (snd d)) (i, d) Hd).
    repeat constructor. }
  unfold render, c0c_diag. cbn [fst snd].
  repeat match goal with |- writes (?a ++ ?s) _ => apply (writes_bind a s) end;
    first [by apply writes_s|apply writes_num].
Qed.

Lemma writes_diag_if `{Env} (c : bool) i d : d ∈ all_diags ->
  writes (body_text (if c then [(i, d)] else [])) (diag_if src c i d).
Proof.
  intros Hd. unfold diag_if. destruct c; [|apply writes_nil].
  eapply writes_eq; [by apply writes_diag|]. unfold body_text. cbn [map concat]. by rewrite app_nil_r.
Qed.

(** ** Operators *)

(** An operator or another character of code at [i]: how far it goes, and what
    is said of it. *)
Inductive op_at (i : nat) : nat -> list diag -> Prop :=
| OA_division : src !! i = Some 47 -> src !! (i + 1)%nat <> Some 47 -> op_at i 1 [(i, d_division)]
| OA_shl : src !! i = Some 60 -> src !! (i + 1)%nat = Some 60 -> op_at i 2 [(i, d_shl)]
| OA_shr : src !! i = Some 62 -> src !! (i + 1)%nat = Some 62 -> op_at i 2 [(i, d_shr)]
| OA_eq : src !! i = Some 61 -> src !! (i + 1)%nat = Some 61 ->
    op_at i 2 (if c0c_side_literal src i 2 then [(i, d_eq)] else [])
| OA_ne : src !! i = Some 33 -> src !! (i + 1)%nat = Some 61 ->
    op_at i 2 (if c0c_side_literal src i 2 then [(i, d_ne)] else [])
| OA_increment : src !! i = Some 43 -> src !! (i + 1)%nat = Some 43 -> op_at i 2 []
| OA_plus : src !! i = Some 43 -> src !! (i + 1)%nat <> Some 43 ->
    op_at i 1 (if c0c_call_left_str src i then [(i, d_concat)] else [])
| OA_other c : src !! i = Some c -> c <> 34 -> c <> 47 -> c <> 43 ->
    (c = 60 \/ c = 62 \/ c = 61 -> src !! (i + 1)%nat <> Some c) ->
    (c = 33 -> src !! (i + 1)%nat <> Some 61) -> op_at i 1 [].

(** The backslashes from [i] to [j]. *)
Definition escapes (i j : nat) : list diag :=
  map (fun k => (k, d_escape)) (List.filter (fun k => bool_decide (src !! k = Some 92)) (seq i (j - i))).

Inductive ops_from : nat -> list diag -> Prop :=
| OF_end i : src !! i = None -> ops_from i []
| OF_string i ds : src !! i = Some 34 ->
    let j := scan (fun c => negb (c =? 34)) src (i + 1) in
    ops_from (j + 1) ds -> ops_from i (escapes (i + 1) j ++ ds)
| OF_comment i ds : src !! i = Some 47 -> src !! (i + 1)%nat = Some 47 ->
    ops_from (scan (fun c => negb (c =? 10)) src i) ds -> ops_from i ds
| OF_op i n d ds : op_at i n d -> ops_from (i + n) ds -> ops_from i (d ++ ds).

Lemma filter_seq_shift (P : nat -> bool) i n : (0 < n)%nat ->
  List.filter P (seq i n) = (if P i then [i] else []) ++ List.filter P (seq (S i) (n - 1)).
Proof. destruct n as [|n]; [lia|]. intros _. cbn [seq List.filter]. rewrite Nat.sub_succ, Nat.sub_0_r. by destruct (P i). Qed.

Lemma lint_string_ok `{Env} l : forall i b m, drop i src = l -> buf_wf b ->
  val_ok (fun r : nat * C0Buf => r.1 = (i + run_length (fun c => negb (c =? 34)%Z) l)%nat /\
    wrote (body_text (escapes i r.1)) b r.2) (lint_string src i l b m).
Proof.
  assert (forall i : nat, escapes i i = []) as He0 by (intros i; unfold escapes; by rewrite Nat.sub_diag).
  induction l as [|c l IH]; intros i b m Hd Hb; cbn [lint_string run_length].
  { apply val_ret. cbn [fst snd]. rewrite Nat.add_0_r. split; [done|]. rewrite He0. by apply wrote_nil. }
  destruct (Z.eqb_spec c 34) as [->|Hc]; cbn [negb].
  { apply val_ret. cbn [fst snd]. rewrite Nat.add_0_r. split; [done|]. rewrite He0. by apply wrote_nil. }
  assert (src !! i = Some c) as Ec.
  { rewrite <- (Nat.add_0_r i), <- lookup_drop, Hd. done. }
  assert (drop (S i) src = l) as Hd'.
  { rewrite <- Nat.add_1_r, <- drop_drop, Hd. done. }
  eapply val_bind; [apply (writes_diag_if (c =? 92) i d_escape); [member|exact Hb]|].
  intros b1 m1 Hw1. eapply val_weaken; [apply IH; [exact Hd'|apply Hw1]|]. intros [j b2] [Hj Hw2]. cbn [fst snd] in *.
  split; [lia|]. assert (escapes i j = (if c =? 92 then [(i, d_escape)] else []) ++ escapes (S i) j) as ->.
  { unfold escapes. rewrite (filter_seq_shift _ i) by lia. rewrite Ec, map_app. replace (j - i - 1)%nat with (j - S i)%nat by lia. f_equal.
    destruct (Z.eqb_spec c 92) as [->|]; [done|]. rewrite bool_decide_false by congruence. done. }
  rewrite body_text_app. by eapply wrote_trans.
Qed.

Lemma next_is_spec i c : next_is src i c = true <-> src !! (i + 1)%nat = Some c.
Proof. apply bool_decide_eq_true. Qed.
Lemma next_is_false i c : next_is src i c = false <-> src !! (i + 1)%nat <> Some c.
Proof. apply bool_decide_eq_false. Qed.

(** One turn of the loop over an operator. *)
Lemma ops_op `{Env} fuel i n d f : op_at i n d -> writes (body_text d) f ->
  (exists ds, ops_from (i + n) ds /\ writes (body_text ds) (ops_loop src fuel (i + n))) ->
  exists ds, ops_from i ds /\ writes (body_text ds) (fun b => b ← f b; ops_loop src fuel (i + n) b).
Proof.
  intros Ho Hw (ds & Hf & Hl). exists (d ++ ds). split; [by eapply OF_op|]. rewrite body_text_app. by apply writes_bind.
Qed.

Lemma ops_skip `{Env} fuel i n : op_at i n [] ->
  (exists ds, ops_from (i + n) ds /\ writes (body_text ds) (ops_loop src fuel (i + n))) ->
  exists ds, ops_from i ds /\ writes (body_text ds) (ops_loop src fuel (i + n)).
Proof. intros Ho (ds & Hf & Hl). exists ds. split; [by apply (OF_op i n [])|done]. Qed.

(** The loop from [i] on writes the diagnostics of the text from [i] on. *)
Definition loop_writes `{Env} (fuel i : nat) : Prop := exists ds, ops_from i ds /\ writes (body_text ds) (ops_loop src fuel i).

Lemma ops_string `{Env} fuel i : src !! i = Some 34 -> (forall k, (i < k)%nat -> loop_writes fuel k) -> loop_writes (S fuel) i.
Proof.
  intros Ec IH. set (j := scan (fun c => negb (c =? 34)) src (i + 1)).
  pose proof (scan_ge (fun c => negb (c =? 34)) src (i + 1)) as Hj. fold j in Hj.
  destruct (IH (j + 1)%nat ltac:(lia)) as (ds & Hds & Hw). exists (escapes (i + 1) j ++ ds). split; [by apply OF_string|].
  cbn [ops_loop]. rewrite Ec. cbn [Z.eqb Pos.eqb]. intros b m Hb.
  eapply val_bind; [apply (lint_string_ok (drop (i + 1) src) (i + 1) b m eq_refl Hb)|].
  intros [j' b1] m1 [Ej Hb1]. cbn [fst snd] in *. change (j' = j) in Ej. subst j'.
  eapply val_weaken; [apply Hw, Hb1|]. intros b2. rewrite body_text_app. by apply wrote_trans.
Qed.

Lemma ops_slash `{Env} fuel i : src !! i = Some 47 -> (forall k, (i < k)%nat -> loop_writes fuel k) -> loop_writes (S fuel) i.
Proof.
  intros Ec IH. unfold loop_writes. cbn [ops_loop]. rewrite Ec. cbn [Z.eqb Pos.eqb andb]. destruct (next_is src i 47) eqn:En.
  - apply next_is_spec in En. assert (S i <= scan (fun d => negb (d =? 10)%Z) src i)%nat as Hs.
    { unfold scan. rewrite (drop_S src 47 i) by done. cbn [run_length Z.eqb Pos.eqb negb]. lia. }
    destruct (IH (scan (fun d => negb (d =? 10)) src i) ltac:(lia)) as (ds & Hds & Hw). exists ds. split; [by apply OF_comment|done].
  - apply next_is_false in En. apply (ops_op fuel i 1 [(i, d_division)]); [by constructor| |apply IH; lia].
    eapply writes_eq; [apply (writes_diag_if true i d_division); member|done].
Qed.


Local Ltac plain_byte Hskip i En c :=
  apply next_is_false in En; apply Hskip; [eapply (OA_other i c); intuition congruence|lia].

Lemma ops_loop_ok `{Env} fuel : forall i, (length src - i < fuel)%nat -> loop_writes fuel i.
Proof.
  induction fuel as [|fuel IH]; intros i Hf; [lia|].
  destruct (src !! i) as [c|] eqn:Ec.
  2:{ exists []. split; [by constructor|]. intros b m Hb. cbn [ops_loop]. rewrite Ec. by apply writes_nil. }
  apply lookup_lt_Some in Ec as Hi.
  assert (forall k, (i < k)%nat -> loop_writes fuel k) as Hgo by (intros k Hk; apply IH; lia).
  destruct (Z.eqb_spec c 34) as [->|H34]; [by apply ops_string|].
  destruct (Z.eqb_spec c 47) as [->|H47]; [by apply ops_slash|].
  unfold loop_writes. cbn [ops_loop]. rewrite Ec, (proj2 (Z.eqb_neq c 34) H34), (proj2 (Z.eqb_neq c 47) H47). cbn [andb].
  assert (forall n d f, op_at i n d -> (0 < n)%nat -> writes (body_text d) f ->
    exists ds, ops_from i ds /\ writes (body_text ds) (fun b => b ← f b; ops_loop src fuel (i + n) b)) as Hop.
  { intros n d f Ho Hn Hw. apply (ops_op fuel i n d); [done..|apply Hgo; lia]. }
  assert (forall n, op_at i n [] -> (0 < n)%nat ->
    exists ds, ops_from i ds /\ writes (body_text ds) (ops_loop src fuel (i + n))) as Hskip.
  { intros n Ho Hn. apply ops_skip; [done|apply Hgo; lia]. }
  destruct (Z.eqb_spec c 60) as [->|H60]; cbn [andb Z.eqb Pos.eqb].
  { destruct (next_is src i 60) eqn:En.
    - apply next_is_spec in En. apply (Hop 2%nat [(i, d_shl)]); [by constructor|lia|].
      eapply writes_eq; [apply (writes_diag_if true i d_shl); member|done].
    - plain_byte Hskip i En 60. }
  destruct (Z.eqb_spec c 62) as [->|H62]; cbn [andb Z.eqb Pos.eqb].
  { destruct (next_is src i 62) eqn:En.
    - apply next_is_spec in En. apply (Hop 2%nat [(i, d_shr)]); [by constructor|lia|].
      eapply writes_eq; [apply (writes_diag_if true i d_shr); member|done].
    - plain_byte Hskip i En 62. }
  destruct (Z.eqb_spec c 61) as [->|H61]; cbn [andb Z.eqb Pos.eqb].
  { destruct (next_is src i 61) eqn:En.
    - apply next_is_spec in En. apply (Hop 2%nat (if c0c_side_literal src i 2 then [(i, d_eq)] else [])); [by constructor|lia|].
      apply writes_diag_if. member.
    - plain_byte Hskip i En 61. }
  destruct (Z.eqb_spec c 33) as [->|H33]; cbn [andb Z.eqb Pos.eqb].
  { destruct (next_is src i 61) eqn:En.
    - apply next_is_spec in En. apply (Hop 2%nat (if c0c_side_literal src i 2 then [(i, d_ne)] else [])); [by constructor|lia|].
      apply writes_diag_if. member.
    - plain_byte Hskip i En 33. }
  destruct (Z.eqb_spec c 43) as [->|H43]; cbn [andb Z.eqb Pos.eqb].
  { destruct (next_is src i 43) eqn:En.
    - apply next_is_spec in En. apply Hskip; [by constructor|lia].
    - apply next_is_false in En. apply (Hop 1%nat (if c0c_call_left_str src i then [(i, d_concat)] else [])); [by constructor|lia|].
      apply writes_diag_if. member. }
  apply Hskip; [eapply (OA_other i c); intuition congruence|lia].
Qed.

(** ** Parameters *)

(** The diagnostics of the parameter list [plist], all at its parenthesis. *)
Definition collisions (op : nat) (plist : list Z) : list diag :=
  map (fun _ => (op, d_name)) (List.filter name_collides (plist_pieces [] plist)).

Inductive params_from : nat -> list diag -> Prop :=
| PF_end i : (length src <= i)%nat -> params_from i []
| PF_list i op cl ds : (i < length src)%nat -> param_list src i = Some (op, cl) -> params_from (cl + 1) ds ->
    params_from i (collisions op (slice (op + 1) (cl - (op + 1)) src) ++ ds)
| PF_skip i ds : (i < length src)%nat -> param_list src i = None -> params_from (i + 1) ds -> params_from i ds.

Lemma diag_pieces_ok `{Env} op segs :
  writes (body_text (map (fun _ => (op, d_name)) (List.filter name_collides segs))) (diag_pieces src segs op).
Proof.
  induction segs as [|seg segs IH]; cbn [diag_pieces List.filter map]; [apply writes_nil|].
  eapply writes_eq.
  { apply (writes_bind (body_text (if name_collides seg then [(op, d_name)] else []))
      (body_text (map (fun _ => (op, d_name)) (List.filter name_collides segs)))
      (diag_if src (name_collides seg) op d_name) (diag_pieces src segs op)); [apply writes_diag_if; member|exact IH]. }
  rewrite <- body_text_app. by destruct (name_collides seg).
Qed.

Lemma param_list_gt i op cl : param_list src i = Some (op, cl) -> (i < op < cl)%nat.
Proof.
  unfold param_list. repeat (case_bool_decide || case_match); try done. intros Hb.
  apply bind_Some in Hb as (cl' & _ & Hb). destruct (Nat.ltb_spec (c0c_skip_ws src (i + 1 + length (c0c_read_ident src (i + 1)))) cl'); [|done].
  injection Hb as <- <-. unfold c0c_skip_ws in *. lia.
Qed.

Lemma params_loop_ok `{Env} fuel : forall i, (length src - i < fuel)%nat ->
  exists ds, params_from i ds /\ writes (body_text ds) (params_loop src fuel i).
Proof.
  induction fuel as [|fuel IH]; intros i Hf; [lia|]. cbn [params_loop].
  destruct (Nat.leb_spec (length src) i) as [Hi|Hi].
  { exists []. split; [by constructor|apply writes_nil]. }
  destruct (param_list src i) as [[op cl]|] eqn:E.
  - pose proof (param_list_gt i op cl E). destruct (IH (cl + 1)%nat ltac:(lia)) as (ds & Hds & Hw).
    eexists. split; [by apply PF_list|]. rewrite body_text_app.
    apply (writes_bind _ _ (c0c_cks_plist src (slice (op + 1) (cl - (op + 1)) src) op) (params_loop src fuel (cl + 1))); [|done].
    apply diag_pieces_ok.
  - destruct (IH (i + 1)%nat ltac:(lia)) as (ds & Hds & Hw). exists ds. split; [by apply PF_skip|done].
Qed.

(** All the diagnostics of the text. *)
Definition lints (ds : list diag) : Prop := exists ds1 ds2, ops_from 0 ds1 /\ params_from 0 ds2 /\ ds = ds1 ++ ds2.

Lemma lint_body `{Env} : exists ds1 ds2, lints (ds1 ++ ds2) /\
  writes (body_text ds1) (c0c_cks_ops src) /\ writes (body_text ds2) (c0c_cks_params src).
Proof.
  destruct (ops_loop_ok (S (length src)) 0 ltac:(lia)) as (ds1 & H1 & W1).
  destruct (params_loop_ok (S (length src)) 0 ltac:(lia)) as (ds2 & H2 & W2).
  exists ds1, ds2. split; [by exists ds1, ds2|]. by split.
Qed.

Lemma op_at_known i n d : op_at i n d -> Forall known d.
Proof.
  destruct 1; repeat match goal with |- context [if ?b then _ else _] => destruct b end;
    repeat constructor; unfold known; cbn [snd]; member.
Qed.

Lemma ops_known i ds : ops_from i ds -> Forall known ds.
Proof.
  induction 1; [constructor|apply Forall_app; split; [|done]|done|apply Forall_app; split; [by eapply op_at_known|done]].
  apply Forall_map, Forall_forall. intros k _. unfold known. cbn [snd]. member.
Qed.

Lemma params_known i ds : params_from i ds -> Forall known ds.
Proof.
  induction 1; [constructor|apply Forall_app; split; [|done]|done].
  apply Forall_map, Forall_forall. intros k _. unfold known. cbn [snd]. member.
Qed.

Lemma lints_known ds : lints ds -> Forall known ds.
Proof. intros (ds1 & ds2 & H1 & H2 & ->). apply Forall_app. split; [by eapply ops_known|by eapply params_known]. Qed.
End Lint.

(** ** What is printed *)

Definition no_zero (l : list Z) : Prop := Forall (fun c => c <> 0) l.

Lemma strz_no_zero l : no_zero l -> strz l = l.
Proof.
  intros Hl. unfold strz. assert (run_length (fun c => negb (c =? 0)) l = length l) as ->; [|apply firstn_all].
  induction Hl as [|c l Hc Hl IH]; cbn [run_length length]; [done|]. by rewrite (proj2 (Z.eqb_neq c 0) Hc), IH.
Qed.

(** Texts where no two spaces meet, after a space or not. *)
Fixpoint no_gap (prev : bool) (l : list Z) : bool :=
  match l with
  | [] => true
  | c :: l => if c =? 32 then negb prev && no_gap true l else no_gap false l
  end.
Fixpoint ends_space (prev : bool) (l : list Z) : bool :=
  match l with [] => prev | c :: l => ends_space (c =? 32) l end.

Lemma no_gap_app l k : forall p, no_gap p (l ++ k) = no_gap p l && no_gap (ends_space p l) k.
Proof.
  induction l as [|c l IH]; intros p; cbn [app no_gap ends_space]; [done|].
  destruct (c =? 32); rewrite IH; [|done]. by rewrite andb_assoc.
Qed.

Lemma ends_space_app l k : forall p, ends_space p (l ++ k) = ends_space (ends_space p l) k.
Proof. induction l as [|c l IH]; intros p; cbn [app ends_space]; [done|apply IH]. Qed.

(** Decimal texts have no space and no NUL. *)
Lemma rgs_text_digits v : Forall (fun c => 48 <= c < 58) (rgs_text v).
Proof. apply Forall_map. eapply Forall_impl; [|apply rgs_digits_range]. intros d Hd. cbn beta in *. lia. Qed.

Lemma rgs_text_no_gap v : no_gap false (rgs_text v) = true /\ ends_space false (rgs_text v) = false.
Proof.
  induction (rgs_text_digits v) as [|c l Hc Hl IH]; cbn [no_gap ends_space]; [done|].
  by destruct (Z.eqb_spec c 32); [lia|].
Qed.

Lemma rgs_text_no_zero v : no_zero (rgs_text v).
Proof. eapply Forall_impl; [|apply rgs_text_digits]. intros c Hc. cbn beta in *. lia. Qed.

Lemma rgs_text_length v : (length (rgs_text v) <= 5)%nat.
Proof.
  unfold rgs_text. rewrite length_map. unfold rgs_digits. destruct (v <=? 0); [cbn; lia|].
  assert (forall ps x st, length (rgs_loop ps x st) <= length ps)%nat as Hl.
  { induction ps as [|p ps IH]; intros x st; cbn [rgs_loop length]; [lia|].
    destruct (_ || _); cbn [length]; [specialize (IH (x mod p) true)|specialize (IH (x mod p) st)]; lia. }
  apply (Hl [10000; 1000; 100; 10; 1]).
Qed.

Section Record_.
Context (src : list Z).

(** The two fixed texts of a diagnostic. *)
Definition tidy (d : string * string) : bool :=
  let a := cstr "  .d{ code=" ++ cstr (fst d) ++ cstr " line=" in
  let z := (cstr " fix=" ++ [34]) ++ cstr (snd d) ++ ([34] ++ cstr " }" ++ [10]) in
  forallb (fun c => negb (c =? 0)) (a ++ z) && no_gap false (tail a) && negb (ends_space false (tail a)) &&
  no_gap false z && negb (ends_space false z) && (length (a ++ z) <=? 180)%nat.

Lemma all_tidy d : known d -> tidy (snd d) = true.
Proof. intros Hd. apply (known_cases (fun d => tidy d = true) d Hd). repeat constructor. Qed.

(** A diagnostic: no NUL, at most 200 bytes, and two spaces only at its start. *)
Lemma render_shape d : known d -> exists t, render src d = 32 :: t /\ no_zero (render src d) /\
  (length (render src d) <= 200)%nat /\ no_gap false t = true /\ ends_space false t = false /\ take 5 (render src d) = cstr "  .d{".
Proof.
  intros Hd. pose proof (all_tidy d Hd) as Ht. destruct d as [i [code fix_]]. cbn [snd] in Ht. unfold tidy in Ht. cbn [fst snd] in Ht.
  unfold render. cbn [fst snd].
  set (z := (cstr " fix=" ++ [34]) ++ cstr fix_ ++ [34] ++ cstr " }" ++ [10]) in *.
  set (a' := tail (cstr "  .d{ code=" ++ cstr code ++ cstr " line=")) in *.
  assert (cstr "  .d{ code=" ++ cstr code ++ cstr " line=" = 32 :: a') as Ea by done. rewrite Ea in Ht.
  set (n1 := rgs_text (line_of src i)). set (n2 := rgs_text (col_of src i)).
  exists (a' ++ n1 ++ cstr " col=" ++ n2 ++ z).
  assert (cstr "  .d{ code=" ++ cstr code ++ cstr " line=" ++ n1 ++ cstr " col=" ++ n2 ++ z =
    32 :: a' ++ n1 ++ cstr " col=" ++ n2 ++ z) as ->.
  { change (32 :: a' ++ ?k) with ((32 :: a') ++ k). rewrite <- Ea. by rewrite <- !app_assoc. }
  apply andb_true_iff in Ht as [Ht H6%Nat.leb_le]. apply andb_true_iff in Ht as [Ht H5%negb_true_iff].
  apply andb_true_iff in Ht as [Ht H4]. apply andb_true_iff in Ht as [Ht H3%negb_true_iff]. apply andb_true_iff in Ht as [H1 H2].
  assert (no_zero (32 :: a') /\ no_zero z) as [Z1 Z2].
  { rewrite forallb_app in H1. apply andb_true_iff in H1 as [A B]. unfold no_zero. rewrite !List.Forall_forall.
    rewrite !List.forallb_forall in *. split; intros c Hc; [apply A in Hc|apply B in Hc]; to_prop; done. }
  destruct (rgs_text_no_gap (line_of src i)) as [G1 E1]. destruct (rgs_text_no_gap (col_of src i)) as [G2 E2]. fold n1 in G1, E1. fold n2 in G2, E2.
  pose proof (rgs_text_length (line_of src i)) as L1. pose proof (rgs_text_length (col_of src i)) as L2. fold n1 in L1. fold n2 in L2.
  assert (ends_space false (cstr " col=") = false /\ no_gap false (cstr " col=") = true) as [Ec Gc] by done.
  split; [done|]. split; [|split; [|split; [|split; [|done]]]].
  - change (no_zero ((32 :: a') ++ n1 ++ cstr " col=" ++ n2 ++ z)). unfold no_zero. rewrite !Forall_app.
    split; [done|]. split; [apply rgs_text_no_zero|]. split; [by repeat constructor|]. split; [apply rgs_text_no_zero|done].
  - cbn [length app] in *. rewrite !length_app in *. cbn [length] in *. change (length (cstr " col=")) with 5%nat. lia.
  - rewrite !no_gap_app, H2, H3, G1, E1, Gc, Ec, G2, E2, H4. done.
  - by rewrite !ends_space_app, H3, E1, Ec, E2.
Qed.

(** *** Counting *)

Lemma count_cons c l needle : c0c_count_lit (c :: l) needle =
  (if bytes_eqb (take (length needle) (c :: l)) needle then 1 else 0) + c0c_count_lit l needle.
Proof.
  unfold c0c_count_lit. cbn [length]. cbn [seq]. rewrite <- List.seq_shift. cbn [List.filter].
  assert (length (List.filter (fun i => c0c_starts_lit (c :: l) i needle) (map S (seq 0 (length l)))) =
    length (List.filter (fun i => c0c_starts_lit l i needle) (seq 0 (length l)))) as E.
  { induction (seq 0 (length l)) as [|i js IH]; cbn [map List.filter]; [done|].
    change (c0c_starts_lit (c :: l) (S i) needle) with (c0c_starts_lit l i needle).
    destruct (c0c_starts_lit l i needle); cbn [length]; by rewrite IH. }
  change (c0c_starts_lit (c :: l) 0 needle) with (bytes_eqb (take (length needle) (c :: l)) needle).
  destruct (bytes_eqb _ needle); cbn [length]; rewrite E; lia.
Qed.

Lemma count_tail t k : forall p, no_gap p t = true -> ends_space p t = false ->
  c0c_count_lit (t ++ k) (cstr "  .d{") = c0c_count_lit k (cstr "  .d{").
Proof.
  induction t as [|c t IH]; intros p Hg He; cbn [app]; [done|]. rewrite count_cons.
  cbn [no_gap ends_space] in Hg, He. destruct (bytes_eqb _ _) eqn:E.
  - exfalso. apply bytes_eqb_eq in E. change (cstr "  .d{") with [32; 32; 46; 100; 123] in E. cbn [length take] in E.
    injection E as -> E. cbn [Z.eqb Pos.eqb] in Hg, He. destruct t as [|c' t]; [done|]. cbn [app] in E. injection E as -> _.
    cbn [no_gap Z.eqb Pos.eqb negb andb] in Hg. by rewrite andb_false_r in Hg.
  - destruct (Z.eqb_spec c 32); to_prop; by eapply IH.
Qed.

Lemma count_body ds : Forall known ds -> c0c_count_lit (body_text src ds) (cstr "  .d{") = Z.of_nat (length ds).
Proof.
  induction 1 as [|d ds Hd Hds IH]; [done|]. unfold body_text. cbn [map concat length].
  destruct (render_shape d Hd) as (t & Et & _ & _ & Hg & He & H5). fold (body_text src ds).
  rewrite Et in *. cbn [app]. rewrite count_cons, (count_tail t _ false Hg He), IH.
  assert (take (length (cstr "  .d{")) (32 :: t ++ body_text src ds) = cstr "  .d{") as ->.
  { change (32 :: t ++ body_text src ds) with ((32 :: t) ++ body_text src ds). change (length (cstr "  .d{")) with 5%nat.
    rewrite take_app_le; [done|]. apply (f_equal length) in H5. rewrite length_take in H5. change (length (cstr "  .d{")) with 5%nat in H5. lia. }
  rewrite bytes_eqb_refl. lia.
Qed.

Lemma body_no_zero ds : Forall known ds -> no_zero (body_text src ds).
Proof.
  induction 1 as [|d ds Hd Hds IH]; [constructor|]. unfold body_text. cbn [map concat]. apply Forall_app. split; [|done].
  by destruct (render_shape d Hd) as (t & _ & ? & _).
Qed.

Lemma body_length ds : Forall known ds -> (length (body_text src ds) <= 200 * length ds)%nat.
Proof.
  induction 1 as [|d ds Hd Hds IH]; [done|]. unfold body_text. cbn [map concat length]. rewrite length_app.
  destruct (render_shape d Hd) as (t & _ & _ & ? & _). fold (body_text src ds). lia.
Qed.

(** The record of the diagnostics [ds]. *)
Definition lint_record (ds : list diag) : list Z :=
  lint_head ++ body_text src ds ++ (cstr "}" ++ [10] ++ cstr ".summary{ errors=") ++
  rgs_text (Z.of_nat (length ds)) ++ (cstr " }" ++ [10]).

Lemma rgs_text_nonempty v : rgs_text v <> [].
Proof.
  unfold rgs_text, rgs_digits. destruct (v <=? 0); [done|].
  assert (forall ps x st, (exists qs, ps = qs ++ [1]) -> rgs_loop ps x st <> []) as Hl.
  { induction ps as [|p ps IH]; intros x st [qs Eq]; [by destruct qs|]. cbn [rgs_loop].
    destruct (_ || _) eqn:E; [done|]. to_prop. destruct qs as [|q qs]; [by injection Eq as -> _|].
    injection Eq as _ ->. apply IH. by exists qs. }
  intros E%map_eq_nil. revert E. apply Hl. by exists [10000; 1000; 100; 10].
Qed.

Lemma fits_le (l k : list Z) : (length l <= length k)%nat -> ~ fits l -> ~ fits k.
Proof. unfold fits. lia. Qed.

Lemma record_length ds : (length (body_text src ds) <= length (lint_record ds))%nat /\
  (length (rgs_text (Z.of_nat (length ds))) <= length (lint_record ds))%nat.
Proof. unfold lint_record. rewrite !length_app. lia. Qed.

(** What the record holds, whatever the buffer of the diagnostics does. *)
Lemma lint_frame `{Env} body n m : 
  val_ok (fun r => alloc_failed \/ exists nb, wrote (rgs_text n) c0b_init nb /\
    let text := lint_head ++ strz (default [] (b_ptr body)) ++ (cstr "}" ++ [10] ++ cstr ".summary{ errors=") ++
      strz (default (cstr "0") (b_ptr nb)) ++ (cstr " }" ++ [10]) in
    ~ fits text \/ r = Some text)
  ((out ← c0b_s lint_head c0b_init;
    out ← (match b_ptr body with Some t => c0b_s t out | None => mret out end);
    out ← c0b_s (cstr "}" ++ [10] ++ cstr ".summary{ errors=") out;
    nb ← c0c_rgs_num n c0b_init;
    out ← c0b_s (default (cstr "0") (b_ptr nb)) out;
    out ← c0b_s (cstr " }" ++ [10]) out;
    mret (b_ptr out)) m).
Proof.
  eapply val_bind; [apply (writes_s lint_head eq_refl c0b_init m buf_init)|]. intros o1 m1 W1.
  eapply val_bind with (R := wrote (strz (default [] (b_ptr body))) o1).
  { destruct (b_ptr body) as [t|]; cbn [default]; [apply writes_n, W1|by apply wrote_nil, W1]. }
  intros o2 m2 W2. eapply val_bind; [apply writes_s; [exact eq_refl|apply W2]|]. intros o3 m3 W3.
  eapply val_bind; [apply (writes_num n c0b_init m3 buf_init)|]. intros nb m4 Wn.
  eapply val_bind; [apply writes_n, W3|]. intros o4 m5 W4.
  eapply val_bind; [apply writes_s; [exact eq_refl|apply W4]|]. intros o5 m6 W5. apply val_ret.
  pose proof (wrote_trans _ _ _ _ _ W1 (wrote_trans _ _ _ _ _ W2 (wrote_trans _ _ _ _ _ W3 (wrote_trans _ _ _ _ _ W4 W5)))) as [Hw Ht].
  cbn [c0b_init b_text app] in Ht. destruct Ht as [Ht|[?|Ht]]; [right|by left|right; exists nb; split; [done|by left]].
  exists nb. split; [done|]. right. rewrite (buf_ptr o5 Hw); [by rewrite Ht|]. rewrite Ht. done.
Qed.

Lemma lint_ok `{Env} m : exists ds, lints src ds /\
  val_ok (fun r => alloc_failed \/ ~ fits (lint_record ds) \/ r = Some (lint_record ds)) (c0_lint src m).
Proof.
  destruct (lint_body src) as (ds1 & ds2 & Hds & Hw1 & Hw2). set (ds := ds1 ++ ds2) in *.
  exists ds. split; [done|]. pose proof (lints_known src ds Hds) as Hk. destruct (record_length ds) as [L1 L2].
  unfold c0_lint. eapply val_bind; [apply (Hw1 c0b_init m buf_init)|]. intros b1 m1 W1.
  eapply val_bind; [apply Hw2, W1|]. intros body m2 W2.
  pose proof (wrote_trans _ _ _ _ _ W1 W2) as [Hb Ht]. rewrite <- body_text_app in Ht. fold ds in Ht.
  cbn [c0b_init b_text app] in Ht. eapply val_weaken; [apply (lint_frame body)|].
  intros r [?|(nb & [Hn Htn] & Hr)]; [by left|]. destruct Ht as [Ht|[?|Ht]]; [|by left|right; left; exact (fits_le _ _ L1 Ht)].
  rewrite Ht, (count_body ds Hk) in Htn. cbn [c0b_init b_text app] in Htn.
  destruct Htn as [Htn|[?|Htn]]; [|by left|right; left; exact (fits_le _ _ L2 Htn)].
  assert (strz (default [] (b_ptr body)) = body_text src ds) as E1.
  { destruct (b_ptr body) as [t|] eqn:E; unfold b_ptr in E; destruct (b_cap body =? 0) eqn:Ez; simplify_eq/=.
    - rewrite Ht. by apply strz_no_zero, body_no_zero.
    - destruct Hb as [[_ Hb]|Hb]; to_prop; [by rewrite <- Ht, Hb|lia]. }
  assert (strz (default (cstr "0") (b_ptr nb)) = rgs_text (Z.of_nat (length ds))) as E2.
  { rewrite (buf_ptr nb Hn); [|rewrite Htn; apply rgs_text_nonempty]. cbn [default]. rewrite Htn. apply strz_no_zero, rgs_text_no_zero. }
  cbv zeta in Hr. rewrite E1, E2 in Hr. by right.
Qed.
End Record_.
