(* ===== verification/C0LintClean.v ===== *)
(** * What lint's record promises

    The record is exactly the diagnostics of the two readings of C0LintSpec, and
    one without diagnostics means the tokens of the text hold no division, no
    shift and no escaped string.  The count of its summary, though, keeps five
    digits only. *)
From stdpp Require Import strings.
From S2P Require Import Prelude Common Token Sys C0Lex C0Scan C0Lint C0Lang C0LexSpec C0ScanSpec C0LintSpec.

(** ** How many diagnostics a text can have *)

Section Clean.
Context (src : list Z).

Lemma op_at_count i n d : op_at src i n d -> (i < length src)%nat /\ (length d <= 1)%nat /\ (1 <= n)%nat /\
  (i + n <= length src)%nat.
Proof.
  destruct 1 as [H ?|H H'|H H'|H H'|H H'|H H'|H ?|c H ? ? ? ? ?];
    repeat match goal with |- context [if ?b then _ else _] => destruct b end;
    apply lookup_lt_Some in H; try (apply lookup_lt_Some in H'); cbn [length]; lia.
Qed.

Lemma escapes_count i j : (length (escapes src i j) <= j - i)%nat.
Proof. unfold escapes. rewrite length_map. etrans; [apply List.filter_length_le|]. by rewrite length_seq. Qed.

Lemma ops_count i ds : ops_from src i ds -> (length ds <= length src - i)%nat.
Proof.
  induction 1 as [i H|i ds H j _ IH|i ds H H' _ IH|i n d ds Ho _ IH]; [cbn; lia|..].
  - rewrite length_app. pose proof (escapes_count (i + 1) j). pose proof (scan_ge (fun c => negb (c =? 34)) src (i + 1)) as Hj.
    apply lookup_lt_Some in H. pose proof (scan_le (fun c => negb (c =? 34)) src (i + 1) ltac:(lia)) as Hl.
    fold j in Hj, Hl. lia.
  - pose proof (scan_ge (fun c => negb (c =? 10)) src i). lia.
  - rewrite length_app. pose proof (op_at_count i n d Ho). lia.
Qed.

Lemma plist_pieces_count l : forall cur, (length (plist_pieces cur l) <= S (length l))%nat.
Proof.
  induction l as [|c l IH]; intros cur; cbn [plist_pieces length]; [lia|].
  destruct (c =? 44); cbn [length]; [specialize (IH [])|specialize (IH (cur ++ [c]))]; lia.
Qed.

Lemma param_list_lt i op cl : param_list src i = Some (op, cl) -> (i < op < cl)%nat /\ (cl < length src)%nat.
Proof.
  intros E. split; [by eapply param_list_gt|]. unfold param_list in E. repeat (case_bool_decide || case_match); try done.
  apply bind_Some in E as (cl' & Em & E). destruct (_ <? cl')%nat; [|done]. injection E as <- <-.
  apply fmap_Some in Em as (n & Em & ->). apply match_from_lt in Em. rewrite length_drop in Em. lia.
Qed.

Lemma params_count i ds : params_from src i ds -> (length ds <= length src - i)%nat.
Proof.
  induction 1 as [i H|i op cl ds H E _ IH|i ds H E _ IH]; [cbn; lia|..|lia].
  rewrite length_app. unfold collisions. rewrite length_map. destruct (param_list_lt i op cl E).
  pose proof (plist_pieces_count (slice (op + 1) (cl - (op + 1)) src) []) as Hp.
  pose proof (List.filter_length_le name_collides (plist_pieces [] (slice (op + 1) (cl - (op + 1)) src))).
  assert (length (slice (op + 1) (cl - (op + 1)) src) <= cl - (op + 1))%nat by (unfold slice; rewrite length_take; lia). lia.
Qed.

Lemma lints_count ds : lints src ds -> (length ds <= 2 * length src)%nat.
Proof.
  intros (ds1 & ds2 & H1 & H2 & ->). rewrite length_app. apply ops_count in H1. apply params_count in H2. lia.
Qed.

Lemma record_fits ds : lints src ds -> Z.of_nat (length src) <= 2 ^ 22 -> fits (lint_record src ds).
Proof.
  intros Hds Hs. pose proof (lints_count ds Hds). pose proof (body_length src ds (lints_known src ds Hds)).
  pose proof (rgs_text_length (Z.of_nat (length ds))). unfold fits, lint_record. rewrite !length_app.
  assert (length lint_head + length (cstr "}" ++ [10%Z] ++ cstr ".summary{ errors=") + length (cstr " }" ++ [10%Z]) <= 400)%nat
    by (apply Nat.leb_le; reflexivity). rewrite !length_app in *. unfold INT_MAX.
  change (2 ^ 22) with 4194304 in Hs. lia.
Qed.

(** A record without diagnostics is that of no diagnostics. *)
Lemma record_clean ds : Forall known ds -> lint_record src ds = lint_record src [] -> ds = [].
Proof.
  destruct 1 as [|d ds Hd Hds]; [done|]. unfold lint_record. intros E%app_inv_head.
  destruct (render_shape src d Hd) as (t & Et & _). unfold body_text in E. cbn [map concat app] in E.
  rewrite Et in E. done.
Qed.

(** ** Where the readings meet *)

(** The operators are read from here, or from the next byte: a [=] or [+] that
    the tokenizer takes alone. *)
Definition read_from (p : nat) : Prop :=
  ops_from src p [] \/ ((src !! p = Some 61 \/ src !! p = Some 43) /\ ops_from src (p + 1) []).

Lemma ops_clean p c : ops_from src p [] -> src !! p = Some c ->
  (exists j, c = 34 /\ j = scan (fun c => negb (c =? 34)) src (p + 1) /\ escapes src (p + 1) j = [] /\ ops_from src (j + 1) []) \/
  (c = 47 /\ src !! (p + 1)%nat = Some 47 /\ ops_from src (scan (fun c => negb (c =? 10)) src p) []) \/
  (exists n, op_at src p n [] /\ ops_from src (p + n) []).
Proof.
  intros H Hc. assert (exists ds, ops_from src p ds /\ ds = []) as (ds0 & H' & E) by eauto. clear H.
  destruct H' as [i Hn|i ds Hq j Hk|i ds Hs Hs' Hk|i n d ds Ho Hk]; [congruence|..].
  - apply app_eq_nil in E as [E ->]. left. exists j. split; [congruence|]. split; [reflexivity|]. split; [exact E|exact Hk].
  - right. left. rewrite E in Hk. split_and!; [congruence|done..].
  - apply app_eq_nil in E as [-> ->]. right. right. by exists n.
Qed.

Definition shifts (c : Z) : Prop := c = 60 \/ c = 62.

Lemma read_next p c : read_from p -> src !! p = Some c -> c <> 34 -> (c = 47 -> src !! (p + 1)%nat <> Some 47) ->
  read_from (p + 1) /\ c <> 47 /\ (shifts c -> src !! (p + 1)%nat <> Some c).
Proof.
  unfold shifts. intros [H|[Hc' H]] Hc Hq Hs.
  2:{ rewrite Hc in Hc'. split; [by left|]. destruct Hc' as [[= ->]|[= ->]]; (split; [done|]); by intros [?|?]. }
  destruct (ops_clean p c H Hc) as [(j & -> & _)|[(-> & Hn & _)|(n & Ho & Hk)]]; [done|by destruct Hs|].
  assert (p + 2 = p + 1 + 1)%nat as E2 by lia. unfold read_from.
  assert (exists d, op_at src p n d /\ d = []) as (d & Ho' & E) by eauto. clear Ho.
  destruct Ho' as [H1 H2|H1 H2|H1 H2|H1 H2|H1 H2|H1 H2|H1 H2|c' H1 H34 H47 H43 H2 H3]; try done;
    rewrite Hc in H1; injection H1 as ->; rewrite ?E2 in Hk.
  1-4: split; [by auto|]; (split; [done|]); by intros [?|?].
  split; [by left|]. split; [done|]. intros [->| ->]; auto.
Qed.

(** Bytes that open no string and no comment. *)
Lemma read_walk s : forall p k, drop p src = s ++ k -> Forall (fun c => c <> 34 /\ c <> 47) s -> read_from p ->
  read_from (p + length s).
Proof.
  induction s as [|c s IH]; intros p k Hd Hs Hr; cbn [length]; [by rewrite Nat.add_0_r|].
  apply Forall_cons_1 in Hs as [[Hq H47] Hs].
  assert (src !! p = Some c) as Hc by (rewrite <- (Nat.add_0_r p), <- lookup_drop, Hd; done).
  destruct (read_next p c Hr Hc Hq) as (Hr' & _); [done|]. replace (p + S (length s))%nat with (p + 1 + length s)%nat by lia.
  apply (IH _ k); [|done..]. by rewrite <- drop_drop, Hd.
Qed.

Lemma drop_past p s k : drop p src = s ++ k -> drop (p + length s) src = k.
Proof. intros Hd. by rewrite <- drop_drop, Hd, drop_app_length. Qed.

(** A string without backslashes ends where the other reading ends it. *)
Lemma body_plain l r : string_body l -> 92 ∉ take (run_length (fun c => negb (c =? 34)) (l ++ r)) (l ++ r) ->
  (92 ∉ l) /\ Forall (fun c => c <> 34) l.
Proof.
  induction 1 as [|c l Hq Hb Hl IH|c l Hl IH]; cbn [app run_length].
  - intros _. split; [by apply not_elem_of_nil|constructor].
  - rewrite (proj2 (Z.eqb_neq c 34) Hq). cbn [negb take]. intros [Hn1 Hn]%not_elem_of_cons. destruct (IH Hn) as [H1 H2].
    split; [by apply not_elem_of_cons|by constructor].
  - cbn [Z.eqb Pos.eqb negb take]. intros [[] _]%not_elem_of_cons. done.
Qed.

Lemma escapes_none i : escapes src i (scan (fun c => negb (c =? 34)) src i) = [] ->
  92 ∉ take (run_length (fun c => negb (c =? 34)) (drop i src)) (drop i src).
Proof.
  unfold escapes, scan. intros E%map_eq_nil Hin.
  apply list_elem_of_lookup_1 in Hin as [k Hk]. pose proof (lookup_lt_Some _ _ _ Hk) as Hl. rewrite length_take in Hl.
  rewrite lookup_take_lt, lookup_drop in Hk by lia.
  assert (In (i + k)%nat []) as []. rewrite <- E. apply List.filter_In. split.
  - apply in_seq. lia.
  - by apply bool_decide_eq_true.
Qed.

Lemma read_string p s k : drop p src = s ++ k -> string_token s k -> read_from p ->
  (92 ∉ s) /\ read_from (p + length s).
Proof.
  intros Hd Hs Hr. assert (src !! p = Some 34) as Hc.
  { rewrite <- (Nat.add_0_r p), <- lookup_drop, Hd. by destruct Hs. }
  destruct Hr as [H|[[H|H] _]]; [|congruence..].
  destruct (ops_clean p 34 H Hc) as [(j & _ & Hj & He & Hk)|[(? & _)|(n & Ho & _)]]; [|done|by inversion Ho; congruence].
  subst j. apply escapes_none in He.
  assert (exists b r, string_body b /\ drop (p + 1) src = b ++ r /\ s ++ k = 34 :: b ++ r /\
    ((s = 34 :: b ++ [34] /\ r = 34 :: k) \/ (s = 34 :: b /\ r = [] /\ k = []) \/ (s = 34 :: b ++ [92] /\ r = [92])))
    as (b & r & Hb & Er & Es & Hcase).
  { destruct Hs as [l k Hl|l Hl|l Hl]; exists l; [exists (34 :: k)|exists []|exists [92]];
      rewrite <- drop_drop, Hd; cbn [app drop]; rewrite ?app_nil_r, <- ?app_assoc; split_and!; auto. }
  rewrite Er in He. destruct (body_plain b r Hb He) as [Hn Hq].
  assert (run_length (fun c => negb (c =? 34)) (b ++ r) = (length b + run_length (fun c => negb (c =? 34)%Z) r)%nat) as Hl.
  { apply run_length_app. apply List.forallb_forall. intros c Hc'. apply list_elem_of_In, (Forall_elem _ _ _ Hq) in Hc'.
    by rewrite (proj2 (Z.eqb_neq c 34) Hc'). }
  unfold scan in Hk. rewrite Er, Hl in Hk. rewrite Hl in He.
  destruct Hcase as [[-> ->]|[(-> & -> & ->)|[-> ->]]].
  - split; [|left; cbn [length]; rewrite length_app; cbn [length run_length Z.eqb Pos.eqb negb] in *; replace (p + S (length b + 1))%nat with (p + 1 + (length b + 0) + 1)%nat by lia; exact Hk].
    apply not_elem_of_cons. split; [done|]. apply not_elem_of_app. split; [done|]. by apply not_elem_of_cons; split; [|apply not_elem_of_nil].
  - split; [by apply not_elem_of_cons|]. left. constructor. apply lookup_ge_None. apply (f_equal length) in Er.
    rewrite length_drop, app_nil_r in Er. cbn [length]. apply lookup_lt_Some in Hc. lia.
  - exfalso. apply He. cbn [run_length Z.eqb Pos.eqb negb]. rewrite firstn_all2 by (rewrite length_app; cbn; lia).
    apply elem_of_app. right. by apply elem_of_cons; left.
Qed.

(** Neither a division, nor a shift, nor a string with an escape. *)
Definition plain_tok (t : C0Tok) : Prop :=
  match tk_kind t with
  | C0_TK_PUNCT => tk_text t ∉ map cstr ["/"; "<<"; ">>"]%string
  | C0_TK_STR => 92 ∉ tk_text t
  | _ => True
  end.

Lemma not_div (c d : Z) : c <> 47 -> (shifts c -> d <> c) ->
  ([c] ∉ map cstr ["/"; "<<"; ">>"]%string) /\ ([c; d] ∉ map cstr ["/"; "<<"; ">>"]%string).
Proof.
  unfold shifts. intros Hc Hd. split; rewrite list_elem_of_In; cbn; intros Hi; destruct_or! Hi; try done;
    injection Hi as <-; [done|subst d; apply Hd; auto..].
Qed.

Lemma TWO_plain s : s ∈ TWO -> Forall (fun c => c <> 34 /\ c <> 47) s.
Proof. intros Hs. apply list_elem_of_In in Hs. cbn in Hs. destruct_or! Hs; subst; repeat constructor; done. Qed.

Lemma lexes_plain l ts : lexes l ts -> forall p, drop p src = l -> read_from p -> Forall plain_tok ts.
Proof.
  assert (forall p c k, drop p src = c :: k -> src !! p = Some c) as Hat.
  { intros p c k Hd. by rewrite <- (Nat.add_0_r p), <- lookup_drop, Hd. }
  assert (forall P c, (forall d, P d = true -> d <> 34 /\ d <> 47) -> forall s, forallb P s = true -> P c = true ->
    Forall (fun d => d <> 34 /\ d <> 47) (c :: s)) as Hrun.
  { intros P c HP s Hs Hc. constructor; [by apply HP|]. apply Forall_forall. intros d Hd.
    apply HP. by eapply (proj1 (List.forallb_forall _ _)) in Hs. }
  induction 1 as [|c k ts Hc Hk IH|l k ts Hl Hst Hk IH|s k ts Hs Hk IH|s k ts Hne Hs Hst Hk IH|c s k ts Hc Hs Hst Hk IH|s k ts Hs Hk IH|c k ts Hsp Hq Hdg Hid Htw Hk IH];
    intros p Hd Hr.
  - by repeat constructor.
  - apply (IH (p + 1)%nat); [by apply (drop_past p [c] k)|]. apply (read_walk [c] p k Hd); [|done].
    repeat constructor; intros ->; done.
  - destruct Hr as [H|[[H|H] _]]; [|rewrite (Hat _ _ _ Hd) in H; done..].
    destruct (ops_clean p 47 H (Hat _ _ _ Hd)) as [(j & ? & _)|[(_ & _ & Hk')|(n & Ho & _)]]; [done|..].
    + apply (IH (p + length (47%Z :: 47%Z :: l))%nat); [by apply drop_past|left].
      assert (run_length (fun c => negb (c =? 10)) (47 :: 47 :: l ++ k) = length (47%Z :: 47%Z :: l)) as E.
      { change (47 :: 47 :: l ++ k) with ((47 :: 47 :: l) ++ k). rewrite run_length_app.
        - destruct k as [|d k]; cbn [run_length]; [lia|]. rewrite (Hst d eq_refl). lia.
        - apply List.forallb_forall. intros d [<-|[<-|Hin]]; [done..|]. apply list_elem_of_In, (Forall_elem _ _ _ Hl) in Hin.
          by rewrite (proj2 (Z.eqb_neq d 10) Hin). }
      unfold scan in Hk'. rewrite Hd in Hk'. by rewrite E in Hk'.
    + pose proof (Hat _ _ _ Hd). inversion Ho; congruence.
  - destruct (read_string p s k Hd Hs Hr) as [Hn Hr']. constructor; [done|]. apply (IH (p + length s)%nat); [by apply drop_past|done].
  - destruct s as [|c s]; [done|]. apply andb_true_iff in Hs as [Hc Hs]. constructor; [done|].
    apply (IH (p + length (c :: s))%nat); [by apply drop_past|]. eapply read_walk; [exact Hd| |done].
    apply (Hrun (in_range 48 57)); [|done..]. intros d. unfold in_range. intros Hd'. to_prop. lia.
  - constructor; [done|]. apply (IH (p + length (c :: s))%nat); [by apply drop_past|].
    apply (read_walk (c :: s) p k Hd); [|done].
    apply (Hrun c0_is_ident_part); [|done|unfold c0_is_ident_part; by rewrite Hc].
    intros d Hd'. split; intros ->; done.
  - assert (exists c d, s = [c; d]) as (c & d & ->).
    { pose proof (TWO_length s Hs). destruct s as [|c [|d []]]; try done. by exists c, d. }
    pose proof (TWO_plain _ Hs) as Hp. pose proof Hp as Hp'. apply Forall_cons_1 in Hp' as [[H34 H47] _].
    destruct (read_next p c Hr (Hat _ _ _ Hd) H34) as (_ & _ & Hsh); [done|].
    constructor; [|apply (IH (p + length [c; d])%nat); [by apply drop_past|by eapply read_walk]].
    apply (not_div c d H47). intros Hc. specialize (Hsh Hc). rewrite <- lookup_drop, Hd in Hsh. by intros ->.
  - destruct (read_next p c Hr (Hat _ _ _ Hd) Hq) as (Hr' & H47 & Hsh).
    { intros -> Hn. apply (Htw (cstr "//")); [by left|]. rewrite <- lookup_drop, Hd in Hn.
      destruct k as [|d k]; [done|]. cbn in Hn. injection Hn as ->. done. }
    constructor; [by apply (not_div c (c + 1) H47); lia|]. apply (IH (p + 1)%nat); [by apply (drop_past p [c] k)|done].
Qed.
End Clean.

(** ** The record *)

(** C11. [c0_lint] always ends and returns a record: unless an allocation fails
    or the record would pass INT_MAX bytes, it lists the diagnostics of the text and
    no other, those of the operators in the order of the text before those of the
    parameter lists, each with its line, its column and the construct to use
    instead, and then their number. *)
Theorem c0_lint_correct `{Env} src m : exists ds, lints src ds /\
  match c0_lint src m with
  | Val r _ => alloc_failed \/ ~ fits (lint_record src ds) \/ r = Some (lint_record src ds)
  | _ => False
  end.
Proof. exact (lint_ok src m). Qed.

(** C10. When [c0_lint] reports nothing on a text of at most 4 MiB and no
    allocation fails, the tokens [c0_tokenize] makes of that text hold no division, no
    shift and no string with a backslash: the two readings of a text, which skip
    strings, comments and operators of two characters differently, never disagree
    on these. *)
Theorem c0_lint_clean `{Env} src m m1 m2 ts (Ha : ~ alloc_failed) (Hs : Z.of_nat (length src) <= 2 ^ 22) :
  c0_lint src m = Val (Some (lint_record src [])) m1 -> c0_tokenize src m = Val ts m2 -> Forall plain_tok ts.
Proof.
  intros El Et. destruct (lint_ok src m) as (ds & Hds & Hv). rewrite El in Hv.
  destruct Hv as [?|[Hf|Hr]]; [done|by destruct Hf; apply record_fits|]. apply (inj Some) in Hr.
  symmetry in Hr. apply record_clean in Hr as ->; [|exact (lints_known src ds Hds)].
  pose proof (c0_tokenize_mem src m) as Hx. rewrite Et in Hx. cbn [mem_ok] in Hx.
  eapply lexes_plain; [exact Hx|exact (drop_0 src)|]. left.
  destruct Hds as (ds1 & ds2 & H1 & _ & E). symmetry in E. by apply app_eq_nil in E as [-> _].
Qed.

Definition clean_sample : list Z := cstr "!f(a: int) -> int { ^a <== b + + c } // a / b".

Definition clean_tokens : list C0Tok :=
  match @c0_tokenize calm clean_sample mem0 with Val ts _ => ts | _ => [] end.

Lemma clean_sample_runs : exists m1 m2,
  @c0_lint calm clean_sample mem0 = Val (Some (lint_record clean_sample [])) m1 /\
  @c0_tokenize calm clean_sample mem0 = Val clean_tokens m2.
Proof.
  unfold clean_tokens.
  destruct (@c0_lint calm clean_sample mem0) as [r m1| |] eqn:E1; [|by vm_compute in E1..].
  destruct (@c0_tokenize calm clean_sample mem0) as [ts m2| |] eqn:E2; [|by vm_compute in E2..].
  exists m1, m2. split; [|done]. f_equal. vm_compute in E1. injection E1 as <- _. vm_compute. reflexivity.
Qed.

Lemma calm_allocates : ~ @alloc_failed calm.
Proof. by intros [n Hn]. Qed.

Lemma c0_lint_clean_witness : exists m1 m2,
  @c0_lint calm clean_sample mem0 = Val (Some (lint_record clean_sample [])) m1 /\
  @c0_tokenize calm clean_sample mem0 = Val clean_tokens m2 /\ Forall plain_tok clean_tokens.
Proof.
  destruct clean_sample_runs as (m1 & m2 & E1 & E2). exists m1, m2. split; [exact E1|]. split; [exact E2|].
  apply (@c0_lint_clean calm clean_sample mem0 m1 m2 clean_tokens calm_allocates); [vm_compute; discriminate|exact E1|exact E2].
Defined.

(** ** The count keeps five digits *)

(** [n] divisions. *)
Definition slashes (n : nat) : list Z := concat (repeat [47; 32] n).

Lemma slashes_length n : length (slashes n) = (2 * n)%nat.
Proof. unfold slashes. induction n as [|n IH]; [done|]. cbn [repeat concat app length]. rewrite IH. lia. Qed.

(** A slash with no other after it, or a space. *)
Definition lone (src : list Z) (i : nat) (k : nat) : Prop :=
  (src !! i = Some 47 /\ src !! (i + 1)%nat <> Some 47 /\ k = 1%nat) \/ (src !! i = Some 32 /\ k = 0%nat).

Lemma ops_lone src i k ds : lone src i k -> ops_from src i ds ->
  exists d ds', ds = d ++ ds' /\ length d = k /\ ops_from src (i + 1) ds'.
Proof.
  intros Hc H. destruct H as [i H|i ds H j _|i ds H H' _|i m d ds Ho Hk];
    try (destruct Hc as [(Hc & Hn & ->)|[Hc ->]]; congruence).
  exists d, ds. destruct Ho as [H1 H2|H1 H2|H1 H2|H1 H2|H1 H2|H1 H2|H1 H2|c' H1 H34 H47 H43 H2 H3];
    destruct Hc as [(Hc & Hn & ->)|[Hc ->]]; rewrite Hc in H1; simplify_eq; done.
Qed.

Lemma ops_slashes src n : forall i ds, drop i src = slashes n -> ops_from src i ds -> length ds = n.
Proof.
  assert (forall i c k, drop i src = c :: k -> src !! i = Some c /\ drop (i + 1) src = k) as Hat.
  { intros i c k Hd. split; [by rewrite <- (Nat.add_0_r i), <- lookup_drop, Hd|by rewrite <- drop_drop, Hd]. }
  induction n as [|n IH]; intros i ds Hd H.
  - assert (src !! i = None) as Hi.
    { apply lookup_ge_None. apply (f_equal length) in Hd. rewrite length_drop in Hd. cbn in Hd. lia. }
    destruct H as [i H|i ds H j _|i ds H H' _|i m d ds Ho Hk]; [done|congruence..|].
    destruct (op_at_count src i m d Ho) as (Hl & _). apply lookup_lt_is_Some in Hl as [c Hl]. congruence.
  - change (slashes (S n)) with (47 :: 32 :: slashes n) in Hd. destruct (Hat _ _ _ Hd) as [H1 Hd1]. destruct (Hat _ _ _ Hd1) as [H2 Hd2].
    destruct (ops_lone src i 1 ds) as (d1 & ds1 & -> & L1 & H'); [left; split_and!; [done|by rewrite H2|done]|done|].
    destruct (ops_lone src (i + 1) 0 ds1) as (d2 & ds2 & -> & L2 & H''); [by right|done|].
    rewrite !length_app, L1, L2, (IH _ _ Hd2 H''). done.
Qed.

Lemma params_slashes src i ds : 33 ∉ src -> params_from src i ds -> ds = [].
Proof.
  intros Hn. induction 1 as [|i op cl ds Hi E H IH|]; [done| |done]. exfalso. unfold param_list in E.
  case_bool_decide as Hb; [|done]. apply Hn. by apply list_elem_of_lookup_2 in Hb.
Qed.

Lemma slashes_no_mark n : 33 ∉ slashes n.
Proof.
  rewrite list_elem_of_In. unfold slashes. intros (l & Hl%repeat_spec & Hc)%in_concat. subst l. by destruct Hc as [?|[?|[]]].
Qed.

Lemma lints_slashes n ds : lints (slashes n) ds -> length ds = n.
Proof.
  intros (ds1 & ds2 & H1 & H2 & ->). apply params_slashes in H2 as ->.
  - rewrite app_nil_r. apply (ops_slashes (slashes n) n 0 ds1 (drop_0 _) H1).
  - apply slashes_no_mark.
Qed.

Lemma rgs_text_low v : 0 < v -> v mod 100000 = 0 -> rgs_text v = cstr "0".
Proof.
  intros Hv Hm. unfold rgs_text, rgs_digits. rewrite (proj2 (Z.leb_gt v 0) Hv). cbn [rgs_loop].
  assert (v / 10000 mod 10 = 0) as ->.
  { rewrite Z.mod_eq, Z.div_div by lia. change (10000 * 10) with 100000. rewrite Z.mod_eq in Hm by lia.
    replace v with (v / 100000 * 10 * 10000) at 1 by lia. rewrite Z.div_mul by lia. lia. }
  assert (v mod 10000 = 0) as ->; [|done].
  rewrite Z.mod_eq in Hm by lia. replace v with (v / 100000 * 10 * 10000) by lia. apply Z.mod_mul. lia.
Qed.

(** The summary of [c0_lint] keeps the low five digits of its count: a text
    with [n] divisions, [n] a positive multiple of 100000, gets a record with [n]
    diagnostics whose summary says [errors=0]. *)
Theorem c0_lint_count_wraps `{Env} n m (Ha : ~ alloc_failed) (Hn : 0 < n <= 2 ^ 21) :
  n mod 100000 = 0 ->
  exists body m', c0_lint (slashes (Z.to_nat n)) m =
      Val (Some (lint_head ++ body ++ cstr "}" ++ [10] ++ cstr ".summary{ errors=0 }" ++ [10])) m' /\
    c0c_count_lit body (cstr "  .d{") = n.
Proof.
  intros Hm. set (k := Z.to_nat n). assert (Z.of_nat k = n) as Hk by (unfold k; lia).
  destruct (lint_ok (slashes k) m) as (ds & Hds & Hv). pose proof (lints_slashes k ds Hds) as Hl.
  destruct (val_exists _ _ Hv) as (r & m' & -> & [?|[Hf| ->]]); [done|..].
  { destruct Hf. apply record_fits; [done|]. rewrite slashes_length. lia. }
  exists (body_text (slashes k) ds), m'. split; [|rewrite count_body, Hl; [done|exact (lints_known _ _ Hds)]].
  unfold lint_record. rewrite Hl, Hk, rgs_text_low by lia. done.
Qed.

Lemma c0_lint_count_wraps_witness : exists body m', @c0_lint calm (slashes (Z.to_nat 100000)) mem0 =
    Val (Some (lint_head ++ body ++ cstr "}" ++ [10] ++ cstr ".summary{ errors=0 }" ++ [10])) m' /\
  c0c_count_lit body (cstr "  .d{") = 100000.
Proof. apply (@c0_lint_count_wraps calm 100000 mem0 calm_allocates); [lia|reflexivity]. Defined.
