(* ===== verification/Lay.v ===== *)
(** * lint_c0/lint_c0.c: the compiler of layout texts

    One pass over the lines of a .lay text builds the nodes of a layout and the
    stack of the open ones; then the strings are interned in the order of the
    nodes and everything is written to an image.  The static arrays of the program
    are lists with their capacities tested where the code tests them, [LUB] is an
    access out of one of them, and [LDie] an exit with status 1.  A C string is
    its bytes up to its NUL. *)
From stdpp Require Import strings.
From S2P Require Import Prelude Common Sys C0Lex.

Definition MAXNODES : nat := 1024.
Definition MAXSTR : nat := 1024.
Definition STRCAP : Z := 8192.
Definition LINEBUF : nat := 2048.
Definition MAXTEXT : nat := 500.
Definition MAXDEPTH : nat := 256.
Definition MAXTOKS : nat := 64.

(** What stops the program. *)
Inductive LayErr : Type :=
| LAY_IN | LAY_LINE | LAY_NODES | LAY_DEPTH | LAY_STYLE | LAY_TAG | LAY_TEXT | LAY_ROOT | LAY_STRINGS | LAY_OPEN | LAY_WRITE.

Inductive lay (A : Type) : Type :=
| LOk (x : A)
| LDie (e : LayErr)
| LUB.
Arguments LOk {A} x.
Arguments LDie {A} e.
Arguments LUB {A}.

#[export] Instance lay_ret : MRet lay := fun _ x => LOk x.
#[export] Instance lay_bind : MBind lay := fun _ _ k m =>
  match m with LOk x => k x | LDie e => LDie e | LUB => LUB end.

(** [if (!b) DIE(e)] *)
Definition must (b : bool) (e : LayErr) : lay unit := if b then LOk tt else LDie e.
Definition access {A} (o : option A) : lay A := match o with Some x => LOk x | None => LUB end.

(** ** Tags and nodes *)

Definition TAGS : list (list Z * Z) :=
  [(cstr "VIEW", 0); (cstr "DIV", 1); (cstr "ROW", 2); (cstr "COL", 3); (cstr "H1", 4); (cstr "H2", 5);
   (cstr "H3", 6); (cstr "P", 7); (cstr "PRE", 8); (cstr "BUTTON", 9); (cstr "INPUT", 10); (cstr "SPAN", 11);
   (cstr "A", 12); (cstr "IMG", 13); (cstr "IFRAME", 14); (cstr "SECTION", 15)].

Definition tag_lookup (kw : list Z) : option Z := snd <$> List.find (fun e => bytes_eqb (fst e) kw) TAGS.

(** [parent] is [None] for -1. *)
Record Node : Type := mkNode {
  parent : option nat;
  tag : Z;
  text : list Z;
  style : list Z;
  attrs : list Z;
  action : list Z;
  childCnt : Z
}.

Definition new_node (p : option nat) (t : Z) : Node := mkNode p t [] [] [] [] 0.

(** [strncpy(dst, s, n)] into a zeroed array, and [strncat] with the room left
    in an array of 512. *)
Definition strncpy_ (n : nat) (s : list Z) : list Z := take n s.
Definition strncat_ (dst s : list Z) : list Z := dst ++ take (512 - length dst - 1) s.

Definition is_blank (c : Z) : bool := (c =? 32) || (c =? 9).
Definition upcase (s : list Z) : list Z := map (fun c => if in_range 97 122 c then c - 32 else c) s.

(** ** Lines *)

(** [fgets]: up to and with the newline, at most LINEBUF - 1 bytes; the rest of
    the file. *)
Definition fgets (l : list Z) : list Z * list Z :=
  let n := Nat.min (run_length (fun c => negb (c =? 10)) l + 1) (LINEBUF - 1) in (take n l, drop n l).

(** A line without newline that is not the end of the file. *)
Definition overlong (raw : list Z) : bool :=
  let at_eof := negb (existsb (Z.eqb 10) raw) && (length raw <? LINEBUF - 1)%nat in
  negb (existsb (Z.eqb 10) (strz raw)) && negb at_eof.

Definition strip_eol (raw : list Z) : list Z :=
  take (run_length (fun c => negb ((c =? 0) || (c =? 10) || (c =? 13))) raw) raw.

Fixpoint cut_comment (inq : bool) (l : list Z) : list Z :=
  match l with
  | [] => []
  | c :: l' =>
      let inq := if c =? 34 then negb inq else inq in
      if negb inq && (c =? 47) && bool_decide (head l' = Some 47) then [] else c :: cut_comment inq l'
  end.

(** Tokens: quotes stay in them; [cur] is the token that has started, [room] the
    places left in [toks]. *)
Fixpoint tokenize_from (room : nat) (inq : bool) (cur : option (list Z)) (l : list Z) : list (list Z) :=
  if (room =? 0)%nat then []
  else
    match l with
    | [] => match cur with Some t => [t] | None => [] end
    | c :: l =>
        let more := Some (default [] cur ++ [c]) in
        if c =? 34 then tokenize_from room (negb inq) more l
        else if negb inq && is_blank c then
          match cur with
          | Some t => t :: tokenize_from (room - 1) inq None l
          | None => tokenize_from room inq None l
          end
        else tokenize_from room inq more l
    end.

Definition tokenize (line : list Z) (cap : nat) : list (list Z) := tokenize_from cap false None line.

(** ** The fields of a node *)

(** A token of a node: a text in quotes, an attribute, or nothing. *)
Definition set_token (tok : list Z) (n : Node) : lay Node :=
  if bool_decide (head tok = Some 34) then
    let body :=
      if (2 <=? length tok)%nat && bool_decide (tok !! (length tok - 1)%nat = Some 34) then slice 1 (length tok - 2) tok
      else drop 1 tok in
    _ ← must (length body <=? MAXTEXT)%nat LAY_TEXT;
    mret (mkNode (parent n) (tag n) (strncpy_ 511 body) (style n) (attrs n) (action n) (childCnt n))
  else
    match c0_index_char tok 61 with
    | None => mret n
    | Some e =>
        let k := upcase (strncpy_ 31 (take e tok)) in
        let v := drop (e + 1) tok in
        mret (if bytes_eqb k (cstr "STYLE") then
                mkNode (parent n) (tag n) (text n) (strncpy_ 511 v) (attrs n) (action n) (childCnt n)
              else if bytes_eqb k (cstr "ACTION") then
                mkNode (parent n) (tag n) (text n) (style n) (attrs n) (strncpy_ 127 v) (childCnt n)
              else
                let a := if negb (length (attrs n) =? 0)%nat then strncat_ (attrs n) [32] else attrs n in
                mkNode (parent n) (tag n) (text n) (style n) (strncat_ a tok) (action n) (childCnt n))
    end.

Fixpoint set_tokens (toks : list (list Z)) (n : Node) : lay Node :=
  match toks with
  | [] => mret n
  | tok :: toks => n ← set_token tok n; set_tokens toks n
  end.

(** The tokens of STYLE, joined. *)
Fixpoint join_style (first : bool) (toks : list (list Z)) (s : list Z) : list Z :=
  match toks with
  | [] => s
  | tok :: toks => join_style false toks (strncat_ (if first then s else strncat_ s [32]) tok)
  end.

Definition with_style (s : list Z) (n : Node) : Node :=
  mkNode (parent n) (tag n) (text n) s (attrs n) (action n) (childCnt n).
Definition one_more_child (n : Node) : Node :=
  mkNode (parent n) (tag n) (text n) (style n) (attrs n) (action n) (childCnt n + 1).

(** ** The state of the pass *)

(** [stack] has (st_idx, st_ind), the innermost first; [first] says that no line
    was read that is not blank. *)
Record Lay : Type := mkLay {
  nodes : list Node;
  stack : list (nat * nat);
  rootIdx : option nat;
  first : bool
}.

Definition lay0 : Lay := mkLay [] [] None true.

Fixpoint pop_while (P : nat -> bool) (st : list (nat * nat)) : list (nat * nat) :=
  match st with
  | (i, ind) :: st' => if P ind then pop_while P st' else st
  | [] => []
  end.

(** The two loops that close what is indented as much as this line. *)
Definition close_to (indent : nat) (st : list (nat * nat)) : list (nat * nat) :=
  pop_while (fun ind => (indent =? ind)%nat) (pop_while (fun ind => (indent <? ind)%nat) st).

Definition innermost (st : list (nat * nat)) : option nat := fst <$> head st.

(** The new node [n], whose parent is set: it is stored, counted and opened. *)
Definition open_node (indent : nat) (n : Node) (root : option nat) (s : Lay) : lay Lay :=
  let i := length (nodes s) in
  ns ← (match parent n with
        | None => mret (nodes s)
        | Some p => x ← access (nodes s !! p); mret (<[p := one_more_child x]> (nodes s))
        end);
  _ ← must (length (stack s) <? MAXDEPTH)%nat LAY_DEPTH;
  mret (mkLay (ns ++ [n]) ((i, indent) :: stack s) root (first s)).

(** A line that is neither blank nor an annotation. *)
Record command : Type := mkCommand { c_indent : nat; c_kw : list Z; c_toks : list (list Z) }.

Definition exec_command (c : command) (s : Lay) : lay Lay :=
  let kw := c_kw c in
  let st := if bytes_eqb kw (cstr "STYLE") || bytes_eqb kw (cstr "END") then stack s
            else close_to (c_indent c) (stack s) in
  let s := mkLay (nodes s) st (rootIdx s) (first s) in
  let up := innermost st in
  if (length (c_toks c) =? 0)%nat then mret s
  else if bytes_eqb kw (cstr "VIEW") then
    _ ← must (length (nodes s) <? MAXNODES)%nat LAY_NODES;
    open_node (c_indent c) (new_node up 0)
      (match rootIdx s with None => Some (length (nodes s)) | r => r end) s
  else if bytes_eqb kw (cstr "STYLE") then
    _ ← must (negb (length st =? 0)%nat) LAY_STYLE;
    i ← access up;
    n ← access (nodes s !! i);
    mret (mkLay (<[i := with_style (join_style true (tail (c_toks c)) []) n]> (nodes s)) st (rootIdx s) (first s))
  else if bytes_eqb kw (cstr "END") then mret (mkLay (nodes s) (tail st) (rootIdx s) (first s))
  else
    match tag_lookup kw with
    | None => LDie LAY_TAG
    | Some id =>
        _ ← must (length (nodes s) <? MAXNODES)%nat LAY_NODES;
        n ← set_tokens (tail (c_toks c)) (new_node up id);
        open_node (c_indent c) n (rootIdx s) s
    end.

(** The command of a line, already without its end and its comment, from its
    first byte that is not blank. *)
Definition command_of (indent : nat) (t : list Z) : command :=
  let work := strncpy_ (LINEBUF - 1) t in
  mkCommand indent (upcase (strncpy_ 31 (take (run_length (fun c => negb (c =? 32)) work) work))) (tokenize work MAXTOKS).

Definition lay_line (raw : list Z) (s : Lay) : lay Lay :=
  if overlong raw then LDie LAY_LINE
  else
    let line := cut_comment false (strip_eol raw) in
    let indent := run_length is_blank line in
    let t := drop indent line in
    if (length t =? 0)%nat then mret s
    else
      let s' := mkLay (nodes s) (stack s) (rootIdx s) false in
      if first s && bytes_eqb (take 5 t) (cstr "@LAY:") then mret s'
      else if bool_decide (head t = Some 64) then mret s'
      else exec_command (command_of indent t) s'.

(** Each line has a byte at least: the length of the text is enough fuel. *)
Fixpoint lay_lines (fuel : nat) (l : list Z) (s : Lay) : lay Lay :=
  match l with
  | [] => mret s
  | _ :: _ =>
      match fuel with
      | O => LUB
      | S fuel => let '(raw, rest) := fgets l in s ← lay_line raw s; lay_lines fuel rest s
      end
  end.

(** ** The string table *)

Fixpoint find_str (s : list Z) (tab : list (list Z)) : option nat :=
  match tab with
  | [] => None
  | t :: tab => if bytes_eqb s t then Some O else S <$> find_str s tab
  end.

(** The index of [s], 0xFFFF for the empty string, and the table with it. *)
Definition intern (s : list Z) (tab : list (list Z)) : lay (Z * list (list Z)) :=
  if (length s =? 0)%nat then mret (65535, tab)
  else
    match find_str s tab with
    | Some i => mret (Z.of_nat i, tab)
    | None =>
        _ ← must (negb ((MAXSTR <=? length tab)%nat || (STRCAP <? Z.of_nat (length (concat tab) + length s)))) LAY_STRINGS;
        mret (Z.of_nat (length tab), tab ++ [s])
    end.

(** rT, rS, rA, rC *)
Record refs : Type := mkRefs { rT : Z; rS : Z; rA : Z; rC : Z }.

Fixpoint intern_nodes (ns : list Node) (tab : list (list Z)) : lay (list refs * list (list Z)) :=
  match ns with
  | [] => mret ([], tab)
  | n :: ns =>
      '(t, tab) ← intern (text n) tab;
      '(s, tab) ← intern (style n) tab;
      '(a, tab) ← intern (attrs n) tab;
      '(c, tab) ← intern (action n) tab;
      '(rs, tab) ← intern_nodes ns tab;
      mret (mkRefs (u16 t) (u16 s) (u16 a) (u16 c) :: rs, tab)
  end.

(** ** The image *)

Definition w16 (v : Z) : list Z := [u8 (Z.land v 255); u8 (Z.land (Z.shiftr v 8) 255)].

Definition flags (n : Node) : Z :=
  let fl := 0 in
  let fl := if (length (text n) =? 0)%nat then fl else Z.lor fl 1 in
  let fl := if (length (style n) =? 0)%nat then fl else Z.lor fl 2 in
  let fl := if (length (attrs n) =? 0)%nat then fl else Z.lor fl 4 in
  if (length (action n) =? 0)%nat then fl else Z.lor fl 8.

Definition put_node (n : Node) (r : refs) : list Z :=
  w16 (match parent n with None => 65535 | Some p => u16 (Z.of_nat p) end) ++
  [tag n; flags n] ++ w16 (rT r) ++ w16 (rS r) ++ w16 (rA r) ++ w16 (rC r) ++ [u8 (childCnt n); 0].

Definition put_str (s : list Z) : list Z := w16 (u16 (Z.of_nat (length s))) ++ s.

Definition image (root : nat) (ns : list Node) (rs : list refs) (tab : list (list Z)) : list Z :=
  cstr "LAY1" ++ [1] ++ w16 (u16 (Z.of_nat root)) ++ w16 (u16 (Z.of_nat (length ns))) ++
  w16 (u16 (Z.of_nat (length tab))) ++ concat (map put_str tab) ++ concat (zip_with put_node ns rs).

(** [out] has 65536 bytes. *)
Definition write_image (root : nat) (ns : list Node) : lay (list Z) :=
  '(rs, tab) ← intern_nodes ns [];
  let out := image root ns rs tab in
  if (65536 <? Z.of_nat (length out)) then LUB else mret out.

Definition lay_compile (input : list Z) : lay (list Z) :=
  s ← lay_lines (length input) input lay0;
  root ← (match rootIdx s with
          | Some r => mret r
          | None => if (length (nodes s) =? 0)%nat then LDie LAY_ROOT else mret O
          end);
  write_image root (nodes s).

(** [main], past the test of argc: the input file if it opens; the bytes written. *)
Definition lay_main `{Env} (input : option (list Z)) : lay (list Z) :=
  match input with
  | None => LDie LAY_IN
  | Some l => out ← lay_compile l; _ ← must (io_ok 0) LAY_OPEN; _ ← must (io_ok 1) LAY_WRITE; mret out
  end.

(** ** Examples *)

(** The texts of golden/. *)
Definition minimal_lay : list Z := qstr "@LAY:1.0
VIEW app
    H1 'Hello'
    P 'World'
END
".

(** golden/minimal.laybc *)
Example minimal_golden : lay_compile minimal_lay = LOk
  [76; 65; 89; 49; 1; 0; 0; 3; 0; 2; 0; 5; 0; 72; 101; 108; 108; 111; 5; 0; 87; 111; 114; 108; 100; 255; 255; 0; 0;
   255; 255; 255; 255; 255; 255; 255; 255; 2; 0; 0; 0; 4; 1; 0; 0; 255; 255; 255; 255; 255; 255; 0; 0; 0; 0; 7; 1;
   1; 0; 255; 255; 255; 255; 255; 255; 0; 0].
Proof. vm_compute. reflexivity. Qed.

Definition full_lay : list Z := qstr "@LAY:1.0
VIEW app
    H1 'Title'
    ROW
        COL
            INPUT ACTION=mount id=a placeholder=type here
            BUTTON 'Go' ACTION=mount
            BUTTON 'Clear' ACTION=clear
    P 'Foot'
END
".

(** golden/full.laybc *)
Example full_golden : lay_compile full_lay = LOk
  [76; 65; 89; 49; 1; 0; 0; 8; 0; 7; 0; 5; 0; 84; 105; 116; 108; 101; 21; 0; 105; 100; 61; 97; 32; 112; 108; 97;
   99; 101; 104; 111; 108; 100; 101; 114; 61; 116; 121; 112; 101; 5; 0; 109; 111; 117; 110; 116; 2; 0; 71; 111; 5;
   0; 67; 108; 101; 97; 114; 5; 0; 99; 108; 101; 97; 114; 4; 0; 70; 111; 111; 116; 255; 255; 0; 0; 255; 255; 255;
   255; 255; 255; 255; 255; 3; 0; 0; 0; 4; 1; 0; 0; 255; 255; 255; 255; 255; 255; 0; 0; 0; 0; 2; 0; 255; 255; 255;
   255; 255; 255; 255; 255; 1; 0; 2; 0; 3; 0; 255; 255; 255; 255; 255; 255; 255; 255; 3; 0; 3; 0; 10; 12; 255;
   255; 255; 255; 1; 0; 2; 0; 0; 0; 3; 0; 9; 9; 3; 0; 255; 255; 255; 255; 2; 0; 0; 0; 3; 0; 9; 9; 4; 0; 255; 255;
   255; 255; 5; 0; 0; 0; 0; 0; 7; 1; 6; 0; 255; 255; 255; 255; 255; 255; 0; 0].
Proof. vm_compute. reflexivity. Qed.
