(* ===== verification/LaySpec.v ===== *)
(** * Layout texts: the tree a text stands for

    The pass never leaves its arrays; the nodes it builds are those of the lines
    that open one, in order, and their parents make them the preorder of a forest.
    Without END lines the parent of a node is decided by the indentation alone. *)
From Stdlib Require Import Sorted.
From stdpp Require Import strings.
From S2P Require Import Prelude Common Sys C0Lex Lay.

(** ** Computations over the arrays *)

(** Never out of an array, and [Q] of a result. *)
Definition safely {A} (Q : A -> Prop) (r : lay A) : Prop :=
  match r with LOk x => Q x | LDie _ => True | LUB => False end.

Lemma safely_bind {A B} (m : lay A) (k : A -> lay B) (R : A -> Prop) (Q : B -> Prop) :
  safely R m -> (forall x, R x -> safely Q (k x)) -> safely Q (m ≫= k).
Proof. destruct m as [x|e|]; cbn; auto. Qed.

Lemma safely_must (b : bool) e : safely (fun _ => b = true) (must b e).
Proof. by destruct b. Qed.

Lemma safely_weaken {A} (R Q : A -> Prop) r : safely R r -> (forall x, R x -> Q x) -> safely Q r.
Proof. destruct r; cbn; auto. Qed.

(** ** The commands of a text *)

Definition line_command (raw : list Z) : option command :=
  let line := cut_comment false (strip_eol raw) in
  let indent := run_length is_blank line in
  let t := drop indent line in
  if (length t =? 0)%nat || bool_decide (head t = Some 64) then None else Some (command_of indent t).

Fixpoint text_lines (fuel : nat) (l : list Z) : list (list Z) :=
  match l, fuel with
  | [], _ | _, O => []
  | _ :: _, S fuel => let '(raw, rest) := fgets l in raw :: text_lines fuel rest
  end.

Definition text_commands (l : list Z) : list command := omap line_command (text_lines (length l) l).

(** A command has a token: its first byte is not blank. *)
Lemma tokenize_started room l : forall inq t, (0 < room)%nat -> tokenize_from room inq (Some t) l <> [].
Proof.
  induction l as [|c l IH]; intros inq t Hr; cbn [tokenize_from]; destruct (Nat.eqb_spec room 0); [lia|done|lia|].
  destruct (c =? 34); [by apply IH|]. destruct (negb inq && is_blank c); [done|by apply IH].
Qed.

Lemma tokenize_first x t : is_blank x = false -> tokenize (strncpy_ (LINEBUF - 1) (x :: t)) MAXTOKS <> [].
Proof.
  intros Hb. change (strncpy_ (LINEBUF - 1) (x :: t)) with (x :: take (LINEBUF - 2) t). generalize (take (LINEBUF - 2) t) as l.
  intros l. unfold tokenize. change (tokenize_from MAXTOKS false None (x :: l)) with
    (if x =? 34 then tokenize_from MAXTOKS true (Some [x]) l
     else if true && is_blank x then tokenize_from MAXTOKS false None l else tokenize_from MAXTOKS false (Some [x]) l).
  rewrite Hb. destruct (x =? 34); apply tokenize_started; unfold MAXTOKS; lia.
Qed.

Lemma drop_run_head (P : Z -> bool) l c : head (drop (run_length P l) l) = Some c -> P c = false.
Proof.
  induction l as [|d l IH]; cbn [run_length]; [done|]. destruct (P d) eqn:E; [exact IH|]. by intros [= <-].
Qed.

Lemma command_tokens raw c : line_command raw = Some c -> c_toks c <> [].
Proof.
  unfold line_command. set (line := cut_comment false (strip_eol raw)). pose proof (drop_run_head is_blank line) as Hb.
  destruct (drop (run_length is_blank line) line) as [|x t]; [done|]. specialize (Hb x eq_refl).
  destruct (_ || _); [done|]. intros [= <-]. cbn [command_of c_toks]. by apply tokenize_first.
Qed.

Lemma fgets_rest (l : list Z) : l <> [] -> (length (snd (fgets l)) < length l)%nat.
Proof.
  destruct l as [|c l]; [done|]. intros _. unfold fgets, LINEBUF. cbv zeta. cbn [snd]. rewrite length_drop. cbn [length].
  set (n := run_length _ _). lia.
Qed.

Section Induction.
Context (I : list command -> list Node -> list (nat * nat) -> option nat -> Prop).
Definition holds (cs : list command) (s : Lay) : Prop := I cs (nodes s) (stack s) (rootIdx s).

Context (Hstep : forall cs c s, c_toks c <> [] -> holds cs s -> safely (holds (cs ++ [c])) (exec_command c s)).

Lemma lay_line_inv cs raw s : holds cs s -> safely (holds (cs ++ option_list (line_command raw))) (lay_line raw s).
Proof.
  intros Hs. unfold lay_line. destruct (overlong raw); [done|]. pose proof (command_tokens raw) as Ht. unfold line_command in *.
  set (line := cut_comment false (strip_eol raw)) in *. set (t := drop _ line) in *.
  destruct (length t =? 0)%nat; cbn [orb] in *; [by rewrite app_nil_r|].
  destruct (first s && bytes_eqb (take 5 t) (cstr "@LAY:")) eqn:E.
  - apply andb_true_iff in E as [_ E]. apply bytes_eqb_eq in E. destruct t as [|x t']; [done|]. injection E as -> _.
    cbn [head]. rewrite bool_decide_true by done. by rewrite app_nil_r.
  - destruct (bool_decide (head t = Some 64)); [by rewrite app_nil_r|]. apply Hstep; [by apply Ht|exact Hs].
Qed.

Lemma lay_lines_inv fuel : forall l cs s, (length l <= fuel)%nat -> holds cs s ->
  safely (holds (cs ++ omap line_command (text_lines fuel l))) (lay_lines fuel l s).
Proof.
  induction fuel as [|fuel IH]; intros [|c l] cs s Hf Hs; cbn [lay_lines text_lines length] in *;
    [by rewrite app_nil_r|lia|by rewrite app_nil_r|].
  pose proof (fgets_rest (c :: l) ltac:(done)) as Hr. destruct (fgets (c :: l)) as [raw rest]. cbn [snd length] in Hr.
  eapply safely_bind; [by apply lay_line_inv|]. intros s' Hs'.
  eapply safely_weaken; [apply (IH rest (cs ++ option_list (line_command raw)) s'); [lia|exact Hs']|]. intros x. cbn [omap list_omap].
  destruct (line_command raw); cbn [option_list]; rewrite <- app_assoc; [done|]. by rewrite app_nil_l.
Qed.

Lemma lay_lines_from l : holds [] lay0 -> safely (holds (text_commands l)) (lay_lines (length l) l lay0).
Proof. intros H0. by apply (lay_lines_inv (length l) l []). Qed.
End Induction.

(** ** Forests as lists of parents *)

(** [under ps p k]: going from [k] to parents reaches [p]. *)
Inductive under (ps : list (option nat)) (p : nat) : nat -> Prop :=
| U_child k : ps !! k = Some (Some p) -> under ps p k
| U_step k j : ps !! k = Some (Some j) -> under ps p j -> under ps p k.

(** A parent comes before its child, and what stands between them is under it. *)
Definition preorder (ps : list (option nat)) : Prop := forall i p, ps !! i = Some (Some p) ->
  (p < i)%nat /\ forall k, (p < k < i)%nat -> under ps p k.

Definition children (ps : list (option nat)) (p : nat) : Z :=
  Z.of_nat (length (List.filter (fun q => bool_decide (q = Some p)) ps)).

Lemma under_app ps q p k : under ps p k -> under (ps ++ [q]) p k.
Proof.
  induction 1 as [k H|k j H _ IH]; [apply U_child|apply (U_step _ _ k j); [|done]]; by apply lookup_app_l_Some.
Qed.

Lemma children_app ps q p : children (ps ++ [q]) p = children ps p + (if bool_decide (q = Some p) then 1 else 0).
Proof.
  unfold children. rewrite List.filter_app, length_app. cbn [List.filter]. destruct (bool_decide _); cbn [length]; lia.
Qed.

(** ** The open nodes *)

(** The stack, innermost first: each entry's parent is the next one, and all the
    nodes after an entry are under it. *)
Inductive chain (ps : list (option nat)) : list (nat * nat) -> Prop :=
| C_nil : chain ps []
| C_cons i ind st : ps !! i = Some (fst <$> head st) -> (forall k, (i < k < length ps)%nat -> under ps i k) ->
    Forall (fun e => (fst e < i)%nat) st -> chain ps st -> chain ps ((i, ind) :: st).

Lemma chain_tail ps st : chain ps st -> chain ps (tail st).
Proof. by destruct 1; [constructor|]. Qed.

Lemma chain_pop ps P st : chain ps st -> chain ps (pop_while P st).
Proof. induction 1 as [|i ind st H1 H2 H3 H4 IH]; cbn [pop_while]; [constructor|]. destruct (P ind); [done|by constructor]. Qed.

Lemma chain_close ps d st : chain ps st -> chain ps (close_to d st).
Proof. intros H. by apply chain_pop, chain_pop. Qed.

Lemma chain_lt ps st : chain ps st -> Forall (fun e => (fst e < length ps)%nat) st.
Proof.
  induction 1 as [|i ind st H1 H2 H3 H4 IH]; constructor; [|done]. cbn [fst]. by apply lookup_lt_Some in H1.
Qed.

(** A node below all the open ones leaves them as they are. *)
Lemma chain_extend ps q st : chain ps st ->
  (forall e, e ∈ st -> exists j, q = Some j /\ (fst e <= j < length ps)%nat) -> chain (ps ++ [q]) st.
Proof.
  induction 1 as [|i ind st H1 H2 H3 H4 IH]; intros Hq; [constructor|]. constructor.
  - by apply lookup_app_l_Some.
  - intros k Hk. rewrite length_app in Hk. cbn [length] in Hk.
    destruct (decide (k < length ps)%nat) as [Hl|Hl]; [apply under_app, H2; lia|].
    destruct (Hq (i, ind)) as (j & -> & Hj); [by left|]. cbn [fst] in Hj.
    assert ((ps ++ [Some j]) !! k = Some (Some j)) as Hk'.
    { replace k with (length ps + 0)%nat by lia. rewrite lookup_app_r, Nat.add_comm, Nat.add_sub by lia. done. }
    destruct (decide (j = i)) as [->|Hne]; [by apply U_child|]. apply (U_step _ _ k j Hk'), under_app, H2. lia.
  - done.
  - apply IH. intros e He. apply Hq. by right.
Qed.

Lemma innermost_max ps st e : chain ps st -> e ∈ st -> exists j, innermost st = Some j /\ (fst e <= j < length ps)%nat.
Proof.
  destruct 1 as [|i ind st H1 H2 H3 H4]; [by intros ?%not_elem_of_nil|]. intros [->|He]%elem_of_cons; exists i; (split; [done|]).
  - cbn [fst]. apply lookup_lt_Some in H1. lia.
  - pose proof (Forall_elem _ _ _ H3 He). cbn beta in *. apply lookup_lt_Some in H1. lia.
Qed.

Lemma chain_push ps ind st : chain ps st -> chain (ps ++ [innermost st]) ((length ps, ind) :: st).
Proof.
  intros H. assert (chain (ps ++ [innermost st]) st) as H'.
  { apply chain_extend; [done|]. intros e He. by apply (innermost_max ps st e). }
  constructor; [|intros k; rewrite length_app; cbn [length]; lia| |done].
  - rewrite lookup_app_r, Nat.sub_diag by lia. done.
  - by apply chain_lt.
Qed.

Lemma preorder_push ps st : chain ps st -> preorder ps -> preorder (ps ++ [innermost st]).
Proof.
  intros Hc Hp i p Hi. destruct (decide (i < length ps)%nat) as [Hl|Hl].
  - rewrite lookup_app_l in Hi by done. destruct (Hp i p Hi) as [H1 H2]. split; [done|]. intros k Hk. by apply under_app, H2.
  - apply lookup_app_Some in Hi as [Hi|[_ Hi]]; [apply lookup_lt_Some in Hi; lia|].
    assert (i = length ps) as ->.
    { apply lookup_lt_Some in Hi. cbn [length] in Hi. lia. }
    rewrite Nat.sub_diag in Hi. injection Hi as Hi. pose proof Hc as Hc'.
    destruct Hc as [|j ind st H1 H2 H3 H4]; [done|]. injection Hi as ->. apply lookup_lt_Some in H1. split; [done|].
    intros k Hk. by apply under_app, H2.
Qed.

(** ** What every accepted text gives *)

Definition parents (ns : list Node) : list (option nat) := map parent ns.

(** The fields fit their arrays, and the children are counted. *)
Definition fields_ok (n : Node) : Prop :=
  0 <= tag n <= 15 /\ (length (text n) <= 500)%nat /\ (length (style n) <= 511)%nat /\
  (length (attrs n) <= 511)%nat /\ (length (action n) <= 127)%nat.

Definition counted (ns : list Node) : Prop := forall p n, ns !! p = Some n -> childCnt n = children (parents ns) p.

Record tree_ok (ns : list Node) (st : list (nat * nat)) (root : option nat) : Prop := {
  to_nodes : (length ns <= MAXNODES)%nat;
  to_depth : (length st <= MAXDEPTH)%nat;
  to_root : forall r, root = Some r -> (r < length ns)%nat;
  to_fields : Forall fields_ok ns;
  to_chain : chain (parents ns) st;
  to_preorder : preorder (parents ns);
  to_counted : counted ns
}.

Lemma parents_insert ns i n n' : ns !! i = Some n -> parent n' = parent n -> parents (<[i:=n']> ns) = parents ns.
Proof.
  intros Hi Hp. unfold parents. rewrite (list_fmap_insert parent), Hp. apply list_insert_id. by rewrite list_lookup_fmap, Hi.
Qed.

Lemma strncpy_le n s : (length (strncpy_ n s) <= n)%nat.
Proof. unfold strncpy_. rewrite length_take. lia. Qed.

Lemma strncat_le d s : (length d <= 511)%nat -> (length (strncat_ d s) <= 511)%nat.
Proof. intros Hd. unfold strncat_. rewrite length_app, length_take. lia. Qed.

Lemma join_style_le toks : forall b s, (length s <= 511)%nat -> (length (join_style b toks s) <= 511)%nat.
Proof.
  induction toks as [|t toks IH]; intros b s Hs; cbn [join_style]; [done|]. apply IH, strncat_le.
  destruct b; [done|by apply strncat_le].
Qed.

(** Tokens set fields only. *)
Definition fills (n n' : Node) : Prop :=
  parent n' = parent n /\ tag n' = tag n /\ childCnt n' = childCnt n /\ (fields_ok n -> fields_ok n').

Lemma set_token_fills tok n : safely (fills n) (set_token tok n).
Proof.
  unfold set_token, fills. destruct (bool_decide _).
  - eapply safely_bind; [apply safely_must|]. intros _ Hb%Nat.leb_le. cbn [mret lay_ret safely]. split_and!; [done..|]. intros (? & ? & ? & ? & ?).
    split_and!; cbn [tag text style attrs action]; try lia. unfold strncpy_. rewrite length_take. unfold MAXTEXT in Hb. lia.
  - destruct (c0_index_char tok 61); [|exact (conj eq_refl (conj eq_refl (conj eq_refl (fun H => H))))].
    match goal with |- safely _ (mret ?x) => change (safely (fills n) (LOk x)) end. unfold fills. cbn [safely].
    destruct (bytes_eqb _ _); [|destruct (bytes_eqb _ _); [|destruct (negb _)]]; (split_and!; [done..|]);
      intros (? & ? & ? & ? & ?); split_and!; cbn [tag text style attrs action]; try lia; eauto using strncpy_le, strncat_le.
Qed.

Lemma set_tokens_fills toks : forall n, safely (fills n) (set_tokens toks n).
Proof.
  induction toks as [|tok toks IH]; intros n; cbn [set_tokens]; [exact (conj eq_refl (conj eq_refl (conj eq_refl (fun H => H))))|].
  eapply safely_bind; [apply set_token_fills|]. intros n' (H1 & H2 & H3 & H4).
  eapply safely_weaken; [apply IH|]. intros n'' (G1 & G2 & G3 & G4). split_and!; [congruence..|auto].
Qed.

Lemma new_node_ok p t : 0 <= t <= 15 -> fields_ok (new_node p t).
Proof. intros Ht. split_and!; cbn; lia. Qed.

Lemma tag_lookup_range kw id : tag_lookup kw = Some id -> 0 <= id <= 15.
Proof.
  unfold tag_lookup. intros ([s i] & Hf & ->)%fmap_Some. apply List.find_some in Hf as [Hin _].
  repeat (destruct Hin as [[= <- <-]|Hin]; [cbn; lia|]). done.
Qed.

Lemma lookup_last {A} (l : list A) x i y : (l ++ [x]) !! i = Some y ->
  (l !! i = Some y /\ (i < length l)%nat) \/ (i = length l /\ y = x).
Proof.
  intros [H|[Hl H]]%lookup_app_Some; [left; split; [done|by apply lookup_lt_Some in H]|right].
  destruct (i - length l)%nat eqn:E; [|done]. injection H as ->. split; [lia|done].
Qed.

Lemma children_none ps : preorder ps -> children ps (length ps) = 0.
Proof.
  intros Hp. unfold children. assert (List.filter (fun q => bool_decide (q = Some (length ps))) ps = []) as ->; [|done].
  destruct (List.filter _ ps) as [|q l] eqn:E; [done|]. assert (In q (q :: l)) as Hq by (by left). rewrite <- E in Hq.
  apply List.filter_In in Hq as [Hq Hb]. apply bool_decide_eq_true in Hb as ->.
  apply list_elem_of_In, list_elem_of_lookup_1 in Hq as [i Hi]. destruct (Hp i _ Hi) as [Hl _]. apply lookup_lt_Some in Hi. lia.
Qed.

(** Opening a node under the innermost one. *)
Lemma open_node_ok ind n root s : tree_ok (nodes s) (stack s) (rootIdx s) -> (length (nodes s) < MAXNODES)%nat ->
  (forall r, root = Some r -> (r <= length (nodes s))%nat) ->
  parent n = innermost (stack s) -> childCnt n = 0 -> fields_ok n ->
  safely (fun s' => tree_ok (nodes s') (stack s') (rootIdx s')) (open_node ind n root s).
Proof.
  intros [Tn Td Tr Tf Tc Tp Tk] Hn Hr Hp Hc Hf. unfold open_node. set (ns := nodes s) in *.
  assert (length (parents ns) = length ns) as Hl by apply length_map.
  apply (safely_bind _ _ (fun ns' => length ns' = length ns /\ parents ns' = parents ns /\ Forall fields_ok ns' /\ forall p x, ns' !! p = Some x -> childCnt x = children (parents ns ++ [parent n]) p)).
  { destruct (parent n) as [p|].
    - assert (p < length ns)%nat as Hpl.
      { destruct (stack s) as [|[i d] st]; [done|]. injection Hp as ->. apply chain_lt, Forall_cons_1 in Tc as [Tc _]. cbn in Tc. lia. }
      apply lookup_lt_is_Some in Hpl as [x Hx]. rewrite Hx. cbn. rewrite length_insert. split; [done|].
      split; [by apply (parents_insert ns p x)|]. split.
      + apply Forall_insert; [done|]. by apply (Forall_lookup_1 _ _ _ _ Tf Hx).
      + intros q y Hy. rewrite children_app. destruct (decide (q = p)) as [->|Hne].
        * rewrite list_lookup_insert_eq in Hy by (by apply lookup_lt_Some in Hx). injection Hy as <-.
          rewrite bool_decide_true by done. cbn [one_more_child childCnt]. by rewrite (Tk p x Hx).
        * rewrite list_lookup_insert_ne in Hy by congruence. rewrite bool_decide_false by congruence. rewrite (Tk q y Hy). lia.
    - cbn. split_and!; [done..|]. intros q y Hy. rewrite children_app, bool_decide_false by done. rewrite (Tk q y Hy). lia. }
  intros ns' (L & P & F & K). eapply safely_bind; [apply safely_must|]. intros _ Hd%Nat.ltb_lt. cbn.
  assert (parents (ns' ++ [n]) = parents ns ++ [innermost (stack s)]) as Ep.
  { unfold parents in *. rewrite map_app, P. cbn [map]. by rewrite Hp. }
  split; [rewrite length_app; cbn; lia|cbn; lia| |apply Forall_app; split; [done|by constructor]|..].
  - intros r E. rewrite length_app, L. cbn [length]. specialize (Hr r E). lia.
  - rewrite Ep, <- Hl. by apply chain_push.
  - rewrite Ep. by apply (preorder_push _ (stack s)).
  - intros p x [[Hx _]|[-> ->]]%lookup_last; rewrite Ep, <- Hp; [by apply K|].
    rewrite L, children_app, <- Hl, children_none by done. rewrite bool_decide_false; [lia|].
    intros E. rewrite Hp in E. destruct (stack s) as [|[i d] st]; [done|]. injection E as ->.
    apply chain_lt, Forall_cons_1 in Tc as [Tc _]. cbn in Tc. lia.
Qed.

Lemma close_length d st : (length (close_to d st) <= length st)%nat.
Proof.
  assert (forall P st, (length (pop_while P st) <= length st)%nat) as Hp.
  { intros P l. induction l as [|[i ind] l IH]; cbn [pop_while]; [done|]. destruct (P ind); cbn [length]; lia. }
  unfold close_to. etrans; [apply Hp|apply Hp].
Qed.

Lemma tree_ok_stack ns st st' root : tree_ok ns st root -> chain (parents ns) st' -> (length st' <= length st)%nat -> tree_ok ns st' root.
Proof. intros [] Hc Hl. split; [done|lia|done..]. Qed.

Lemma exec_command_ok c s : tree_ok (nodes s) (stack s) (rootIdx s) ->
  safely (fun s' => tree_ok (nodes s') (stack s') (rootIdx s')) (exec_command c s).
Proof.
  intros Ht. unfold exec_command. set (st := if _ || _ then stack s else _).
  assert (tree_ok (nodes s) st (rootIdx s)) as Ht'.
  { unfold st. destruct (_ || _); [done|]. apply (tree_ok_stack _ (stack s)); [done|apply chain_close, Ht|apply close_length]. }
  clearbody st. clear Ht. destruct (length (c_toks c) =? 0)%nat; [exact Ht'|].
  destruct (bytes_eqb (c_kw c) (cstr "VIEW")).
  { eapply safely_bind; [apply safely_must|]. intros _ Hn%Nat.ltb_lt. apply open_node_ok; try done; [|by apply new_node_ok].
    cbn. intros r E. destruct (rootIdx s) as [r'|] eqn:Er; injection E as <-; [|done]. pose proof (to_root _ _ _ Ht' _ eq_refl). lia. }
  destruct (bytes_eqb (c_kw c) (cstr "STYLE")).
  { apply (safely_bind _ _ (fun _ => st <> [])); [by destruct st|]. intros _ Hst. destruct st as [|[i d] st]; [done|]. cbn [innermost head fmap option_fmap option_map fst access].
    pose proof (to_chain _ _ _ Ht') as Hc. apply chain_lt, Forall_cons_1 in Hc as [Hi _]. cbn in Hi. unfold parents in Hi. rewrite length_map in Hi.
    apply lookup_lt_is_Some in Hi as [n Hn]. cbn. rewrite Hn. cbn. destruct Ht' as [T1 T2 T3 T4 T5 T6 T7].
    assert (parents (<[i:=with_style (join_style true (tail (c_toks c)) []) n]> (nodes s)) = parents (nodes s)) as Ep by (by apply (parents_insert _ i n)).
    split; rewrite ?length_insert, ?Ep; try done.
    - apply Forall_insert; [done|]. destruct (Forall_lookup_1 _ _ _ _ T4 Hn) as (? & ? & ? & ? & ?).
      split_and!; cbn [with_style tag text style attrs action]; try lia. apply join_style_le. cbn. lia.
    - intros p x Hx. rewrite Ep. destruct (decide (p = i)) as [->|Hne].
      + rewrite list_lookup_insert_eq in Hx by (by apply lookup_lt_Some in Hn). injection Hx as <-. exact (T7 i n Hn).
      + rewrite list_lookup_insert_ne in Hx by congruence. by apply T7. }
  destruct (bytes_eqb (c_kw c) (cstr "END")).
  { cbn. apply (tree_ok_stack _ st); [done|apply chain_tail, Ht'|]. destruct st; cbn; lia. }
  destruct (tag_lookup (c_kw c)) as [id|] eqn:Eid; [|done]. eapply safely_bind; [apply safely_must|]. intros _ Hn%Nat.ltb_lt.
  eapply safely_bind; [apply set_tokens_fills|]. intros n (H1 & H2 & H3 & H4). apply open_node_ok; try done.
  - cbn. intros r E. pose proof (to_root _ _ _ Ht' _ E). lia.
  - apply H4, new_node_ok. by eapply tag_lookup_range.
Qed.

(** ** Nodes and lines *)

Definition opens (c : command) : bool := negb (bytes_eqb (c_kw c) (cstr "STYLE")) && negb (bytes_eqb (c_kw c) (cstr "END")).

(** The lines that open a node. *)
Definition openers (cs : list command) : list command := List.filter opens cs.

(** What a line says of its node; its style can be replaced later. *)
Definition fields (n : Node) : Z * list Z * list Z * list Z := (tag n, text n, attrs n, action n).

Definition made (c : command) (n : Node) : Prop :=
  if bytes_eqb (c_kw c) (cstr "VIEW") then fields n = (0, [], [], [])
  else exists id n', tag_lookup (c_kw c) = Some id /\
    set_tokens (tail (c_toks c)) (new_node (parent n) id) = LOk n' /\ fields n = fields n'.

Lemma made_same c n n' : parent n' = parent n -> fields n' = fields n -> made c n -> made c n'.
Proof. unfold made. intros -> ->. done. Qed.

Lemma Forall2_replace {A B} (R : A -> B -> Prop) l k i y y' :
  Forall2 R l k -> k !! i = Some y -> (forall x, R x y -> R x y') -> Forall2 R l (<[i:=y']> k).
Proof.
  intros H. revert i. induction H as [|x z l k Hx H IH]; intros [|i] Hi HR; try done.
  - injection Hi as <-. constructor; [by apply HR|done].
  - constructor; [done|]. by apply IH.
Qed.

Lemma openers_app cs c : openers (cs ++ [c]) = openers cs ++ (if opens c then [c] else []).
Proof. unfold openers. rewrite List.filter_app. cbn. by destruct (opens c). Qed.

(** The first VIEW among the lines. *)
Fixpoint first_view (cs : list command) : option nat :=
  match cs with
  | [] => None
  | c :: cs => if bytes_eqb (c_kw c) (cstr "VIEW") then Some O else S <$> first_view cs
  end.

Lemma first_view_app cs c : first_view (cs ++ [c]) =
  match first_view cs with
  | Some r => Some r
  | None => if bytes_eqb (c_kw c) (cstr "VIEW") then Some (length cs) else None
  end.
Proof.
  induction cs as [|d cs IH]; cbn [app first_view length]; [by destruct (bytes_eqb _ _)|].
  destruct (bytes_eqb (c_kw d) (cstr "VIEW")); [done|]. rewrite IH. destruct (first_view cs); [done|]. by destruct (bytes_eqb _ _).
Qed.

Lemma open_node_made cs c ind n root s : Forall2 made cs (nodes s) -> made c n ->
  safely (fun s' => Forall2 made (cs ++ [c]) (nodes s') /\ stack s' = (length (nodes s), ind) :: stack s /\
    parents (nodes s') = parents (nodes s) ++ [parent n] /\ rootIdx s' = root) (open_node ind n root s) \/ open_node ind n root s = LUB.
Proof.
  intros Hm Hn. unfold open_node. destruct (parent n) as [p|] eqn:Ep.
  - destruct (nodes s !! p) as [x|] eqn:Ex; [left|by right]. cbn [access mret lay_ret mbind lay_bind].
    eapply safely_bind; [apply safely_must|]. intros _ _. cbn.
    assert (Forall2 made cs (<[p:=one_more_child x]> (nodes s))) as Hm'.
    { eapply Forall2_replace; [done|exact Ex|]. intros y. by apply made_same. }
    split; [by apply Forall2_app; [|constructor]|]. split; [done|]. split; [|done].
    unfold parents. rewrite map_app. cbn [map]. rewrite Ep. f_equal. by apply (parents_insert (nodes s) p x).
  - left. cbn [mret lay_ret mbind lay_bind]. eapply safely_bind; [apply safely_must|]. intros _ _. cbn.
    split; [by apply Forall2_app; [|constructor]|]. split; [done|]. split; [|done].
    unfold parents. rewrite map_app. cbn [map]. by rewrite Ep.
Qed.

Lemma safely_or {A} (Q : A -> Prop) r : safely Q r \/ r = LUB -> forall x, r = LOk x -> Q x.
Proof. intros [H| ->] x E; [|done]. by rewrite E in H. Qed.

(** What a line does to the nodes and the stack. *)
Lemma exec_command_made cs c s s' : c_toks c <> [] -> Forall2 made (openers cs) (nodes s) -> exec_command c s = LOk s' ->
  Forall2 made (openers (cs ++ [c])) (nodes s') /\
  rootIdx s' = (match rootIdx s with
    | Some r => Some r
    | None => if bytes_eqb (c_kw c) (cstr "VIEW") then Some (length (nodes s)) else None
    end) /\
  (if opens c then
     let st := close_to (c_indent c) (stack s) in
     stack s' = (length (nodes s), c_indent c) :: st /\ parents (nodes s') = parents (nodes s) ++ [innermost st]
   else parents (nodes s') = parents (nodes s) /\ (c_kw c <> cstr "END" -> stack s' = stack s)).
Proof.
  intros Ht Hm. rewrite openers_app. unfold exec_command. set (st := if _ || _ then stack s else _).
  assert (st = if opens c then close_to (c_indent c) (stack s) else stack s) as Est.
  { unfold st, opens. by destruct (bytes_eqb _ _), (bytes_eqb _ _). }
  clearbody st. assert ((length (c_toks c) =? 0)%nat = false) as -> by (apply Nat.eqb_neq; by destruct (c_toks c)).
  set (s0 := mkLay (nodes s) st (rootIdx s) (first s)). change (nodes s) with (nodes s0) in Hm.
  destruct (bytes_eqb (c_kw c) (cstr "VIEW")) eqn:Ev.
  { assert (opens c = true) as Eo.
    { unfold opens. apply bytes_eqb_eq in Ev. by rewrite Ev. }
    rewrite Eo in *. intros E. destruct (length (nodes s0) <? MAXNODES)%nat; [|done]. cbn [must mbind lay_bind] in E.
    assert (made c (new_node (innermost st) 0)) as Hn by (unfold made; by rewrite Ev).
    destruct (safely_or _ _ (open_node_made (openers cs) c _ _ _ s0 Hm Hn) _ E) as (H1 & H2 & H3 & H4). subst st.
    split; [exact H1|]. split; [rewrite H4; cbn [rootIdx s0 nodes]; by destruct (rootIdx s)|]. split; [exact H2|exact H3]. }
  destruct (bytes_eqb (c_kw c) (cstr "STYLE")) eqn:Es.
  { assert (opens c = false) as Eo by (unfold opens; by rewrite Es). rewrite Eo in *. rewrite app_nil_r. intros E.
    destruct (negb (length st =? 0)%nat); [|done]. cbn [must mbind lay_bind] in E.
    destruct (innermost st) as [i|]; cbn [access mbind lay_bind] in E; [|done].
    destruct (nodes s0 !! i) as [n|] eqn:En; cbn [access mbind lay_bind] in E; [|done]. injection E as <-. cbn [nodes stack rootIdx s0]. split; [|split; [by destruct (rootIdx s)|split; [|done]]].
    - eapply Forall2_replace; [exact Hm|exact En|]. intros y. by apply made_same.
    - by apply (parents_insert _ i n). }
  destruct (bytes_eqb (c_kw c) (cstr "END")) eqn:Ee.
  { assert (opens c = false) as Eo by (unfold opens; by rewrite Es, Ee). rewrite Eo in *. rewrite app_nil_r. intros [= <-].
    split; [exact Hm|]. split; [cbn; by destruct (rootIdx s)|]. split; [done|]. intros Hk. by apply bytes_eqb_eq in Ee. }
  assert (opens c = true) as Eo by (unfold opens; by rewrite Es, Ee). rewrite Eo in *. intros E.
  destruct (tag_lookup (c_kw c)) as [id|] eqn:Eid; [|done]. destruct (length (nodes s0) <? MAXNODES)%nat; [|done].
  cbn [must mbind lay_bind] in E. pose proof (set_tokens_fills (tail (c_toks c)) (new_node (innermost st) id)) as Hf.
  destruct (set_tokens (tail (c_toks c)) (new_node (innermost st) id)) as [n| |] eqn:En; try done. destruct Hf as (Hp & _).
  cbn [new_node parent] in Hp. assert (made c n) as Hn.
  { unfold made. rewrite Ev. exists id, n. by rewrite Hp. }
  destruct (safely_or _ _ (open_node_made (openers cs) c _ _ _ s0 Hm Hn) _ E) as (H1 & H2 & H3 & H4). subst st. rewrite Hp in H3.
  split; [exact H1|]. split; [rewrite H4; cbn [rootIdx s0]; by destruct (rootIdx s)|]. split; [exact H2|exact H3].
Qed.

(** ** Indentation *)

(** The parent of line [i]: the last line before it that is indented less. *)
Definition encloses (inds : list nat) (i : nat) (p : option nat) : Prop :=
  forall d, inds !! i = Some d ->
  match p with
  | Some j => (j < i)%nat /\ (exists e, inds !! j = Some e /\ (e < d)%nat) /\
      forall k e, (j < k < i)%nat -> inds !! k = Some e -> (d <= e)%nat
  | None => forall k e, (k < i)%nat -> inds !! k = Some e -> (d <= e)%nat
  end.

(** The lines still open after [inds]: those indented less than all that follow. *)
Definition is_open (inds : list nat) (j d : nat) : Prop :=
  inds !! j = Some d /\ forall k e, (j < k)%nat -> inds !! k = Some e -> (d < e)%nat.

Definition inner (x y : nat * nat) : Prop := (fst y < fst x)%nat /\ (snd y < snd x)%nat.

Record open_stack (inds : list nat) (st : list (nat * nat)) : Prop := {
  os_sorted : StronglySorted inner st;
  os_open : forall j d, (j, d) ∈ st <-> is_open inds j d
}.

(** Closing to [d] leaves those indented less. *)
Lemma close_spec d st : StronglySorted inner st -> StronglySorted inner (close_to d st) /\
  forall e, e ∈ close_to d st <-> e ∈ st /\ (snd e < d)%nat.
Proof.
  induction 1 as [|[i ind] st Hs IH Hi].
  - split; [constructor|]. intros e. split; [by intros ?%not_elem_of_nil|by intros [?%not_elem_of_nil _]].
  - unfold close_to in *. cbn [pop_while]. destruct (Nat.ltb_spec d ind) as [Hd|Hd].
    + destruct IH as [IH1 IH2]. split; [done|]. intros e. rewrite IH2, elem_of_cons. split; [intros [He Hlt]; by split; [right|]|].
      intros [[->|He] Hlt]; [cbn in Hlt; lia|done].
    + cbn [pop_while]. assert (forall e, e ∈ st -> (snd e < ind)%nat) as Hlow.
      { intros e He. apply (Forall_elem _ _ _ Hi) in He. by destruct He. }
      destruct (Nat.eqb_spec d ind) as [->|Hne].
      * assert (pop_while (fun j => ind =? j)%nat st = st) as ->.
        { destruct st as [|[j e] st]; [done|]. cbn [pop_while]. specialize (Hlow (j, e) ltac:(by left)). cbn in Hlow.
          by destruct (Nat.eqb_spec ind e); [lia|]. }
        split; [done|]. intros e. rewrite elem_of_cons. split; [intros He; split; [by right|by apply Hlow]|].
        intros [[->|He] Hlt]; [cbn in Hlt; lia|done].
      * split; [by constructor|]. intros e. split; [|by intros [He _]]. intros He. split; [done|].
        apply elem_of_cons in He as [->|He]; cbn; [lia|]. specialize (Hlow e He). lia.
Qed.

(** Below a line indented less than [d] there is an open one indented less. *)
Lemma open_below inds d n : forall k e, (length inds - k <= n)%nat -> inds !! k = Some e -> (e < d)%nat ->
  exists j f, (k <= j)%nat /\ (f < d)%nat /\ is_open inds j f.
Proof.
  induction n as [|n IH]; intros k e Hn He Hd; [apply lookup_lt_Some in He; lia|].
  destruct (decide (Forall (fun f => e < f)%nat (drop (k + 1) inds))) as [Hf|Hf].
  - exists k, e. split; [lia|]. split; [done|]. split; [done|]. intros m f Hm Hl. apply (Forall_lookup_1 _ _ (m - (k + 1)) _ Hf).
    rewrite lookup_drop. by replace (k + 1 + (m - (k + 1)))%nat with m by lia.
  - apply not_Forall_Exists in Hf; [|intros x; apply _]. apply Exists_exists in Hf as (f & Hin & Hf).
    assert (f <= e)%nat by (apply Nat.nlt_ge; exact Hf). apply list_elem_of_In, list_elem_of_lookup_1 in Hin as [m Hm]. rewrite lookup_drop in Hm.
    destruct (IH (k + 1 + m)%nat f) as (j & g & ? & ? & ?); [lia|done|lia|]. exists j, g. split; [lia|done].
Qed.

Lemma encloses_new inds d st : open_stack inds st -> encloses (inds ++ [d]) (length inds) (innermost (close_to d st)).
Proof.
  intros [Hs Ho] d' Hd'. rewrite lookup_app_r, Nat.sub_diag in Hd' by lia. injection Hd' as <-.
  destruct (close_spec d st Hs) as [Hs' Hin]. set (cl := close_to d st) in *.
  assert (forall k e, (k < length inds)%nat -> (inds ++ [d]) !! k = Some e -> (e < d)%nat ->
    exists j f, (k <= j)%nat /\ (j, f) ∈ cl) as Hbelow.
  { intros k e Hk He Hlt. rewrite lookup_app_l in He by done.
    destruct (open_below inds d (length inds) k e ltac:(lia) He Hlt) as (j & f & Hj & Hf & Hop).
    exists j, f. split; [done|]. apply Hin. split; [by apply Ho|done]. }
  destruct cl as [|[j f] cl]; cbn [innermost head fmap option_fmap option_map fst].
  - intros k e Hk He. destruct (decide (e < d)%nat) as [Hlt|]; [|lia].
    destruct (Hbelow k e Hk He Hlt) as (j & f & _ & []%not_elem_of_nil).
  - destruct (Hin (j, f)) as [[Hj Hf] _]; [by left|]. cbn in Hf. apply Ho in Hj as [Hj _]. pose proof (lookup_lt_Some _ _ _ Hj).
    split; [done|]. split; [exists f; split; [by apply lookup_app_l_Some|done]|].
    intros k e Hk He. destruct (decide (e < d)%nat) as [Hlt|]; [|lia].
    destruct (Hbelow k e ltac:(lia) He Hlt) as (j' & f' & Hj' & [[= -> ->]|Hin']%elem_of_cons); [lia|].
    apply StronglySorted_inv in Hs' as [_ Hf']. apply (Forall_elem _ _ _ Hf') in Hin' as [Hlt' _]. cbn in Hlt'. lia.
Qed.

Lemma open_stack_push inds d st : open_stack inds st -> open_stack (inds ++ [d]) ((length inds, d) :: close_to d st).
Proof.
  intros [Hs Ho]. destruct (close_spec d st Hs) as [Hs' Hin]. split.
  - constructor; [done|]. apply Forall_forall. intros [j e] [Hj He]%list_elem_of_In%Hin. apply Ho in Hj as [Hj _].
    apply lookup_lt_Some in Hj. split; cbn in *; lia.
  - intros j e. rewrite elem_of_cons, Hin, Ho. unfold is_open. split.
    + intros [[= -> ->]|[[Hj Hk] Hlt]].
      * rewrite lookup_app_r, Nat.sub_diag by lia. split; [done|]. intros k f Hk Hf. apply lookup_lt_Some in Hf.
        rewrite length_app in Hf. cbn in Hf. lia.
      * split; [by apply lookup_app_l_Some|]. intros k f Hjk [Hf|[Hk' Hf]]%lookup_app_Some; [by apply (Hk k)|].
        destruct (k - length inds)%nat; [|done]. injection Hf as <-. done.
    + intros [Hj Hk]. apply lookup_last in Hj as [[Hj Hl]|[-> ->]]; [right|by left]. cbn [snd]. split; [split; [done|]|].
      * intros k f Hjk Hf. apply (Hk k); [done|by apply lookup_app_l_Some].
      * apply (Hk (length inds)); [done|]. by rewrite lookup_app_r, Nat.sub_diag.
Qed.

Lemma encloses_app inds d i p : (i < length inds)%nat -> encloses inds i p -> encloses (inds ++ [d]) i p.
Proof.
  intros Hi H d' Hd'. rewrite lookup_app_l in Hd' by done. specialize (H d' Hd').
  assert (forall k, (k < i)%nat -> (inds ++ [d]) !! k = inds !! k) as Ek by (intros k Hk; apply lookup_app_l; lia).
  destruct p as [j|].
  - destruct H as (Hj & (e & He & Hlt) & Hk). split; [done|]. split; [exists e; by rewrite Ek|].
    intros k f Hjk Hf. rewrite Ek in Hf by lia. by apply (Hk k).
  - intros k f Hk Hf. rewrite Ek in Hf by done. by apply (H k).
Qed.

(** ** The pass *)

Definition no_end (cs : list command) : Prop := Forall (fun c => c_kw c <> cstr "END") cs.
Definition indents (cs : list command) : list nat := map c_indent (openers cs).

(** The nodes [ns] stand for the lines [cs]. *)
Record stands (cs : list command) (ns : list Node) (st : list (nat * nat)) (root : option nat) : Prop := {
  sf_tree : tree_ok ns st root;
  sf_made : Forall2 made (openers cs) ns;
  sf_root : root = first_view (openers cs);
  sf_open : no_end cs -> open_stack (indents cs) st;
  sf_indent : no_end cs -> forall i p, parents ns !! i = Some p -> encloses (indents cs) i p
}.

Lemma stands_nil : stands [] [] [] None.
Proof.
  assert (tree_ok [] [] None) as Ht by (split; try done; cbn; try lia; constructor).
  split; [done|constructor|done| |done]. intros _. split; [constructor|].
  intros j d. split; [by intros ?%not_elem_of_nil|by intros [? _]].
Qed.

Lemma stands_step cs c s : c_toks c <> [] -> stands cs (nodes s) (stack s) (rootIdx s) ->
  safely (fun s' => stands (cs ++ [c]) (nodes s') (stack s') (rootIdx s')) (exec_command c s).
Proof.
  intros Ht [H1 H2 Hr H3 H4]. pose proof (exec_command_ok c s H1) as Hok. pose proof (exec_command_made cs c s) as Hm.
  destruct (exec_command c s) as [s'| |]; [|done..]. cbn [safely] in *. destruct (Hm s' Ht H2 eq_refl) as (Hm1 & Hroot & Hm2).
  pose proof (Forall2_length H2) as Hl.
  assert (indents (cs ++ [c]) = if opens c then indents cs ++ [c_indent c] else indents cs) as Ei.
  { unfold indents. rewrite openers_app, map_app. destruct (opens c); [done|apply app_nil_r]. }
  assert (length (indents cs) = length (nodes s)) as Hli by (unfold indents; by rewrite length_map).
  split; [done|done|..].
  { rewrite Hroot, Hr, openers_app. destruct (opens c) eqn:Eo.
    - rewrite first_view_app, Hl. done.
    - rewrite app_nil_r. destruct (first_view (openers cs)); [done|]. unfold opens in Eo.
      destruct (bytes_eqb (c_kw c) (cstr "VIEW")) eqn:Ev; [|done]. apply bytes_eqb_eq in Ev. by rewrite Ev in Eo. }
  all: intros [Hc Hce]%Forall_app; rewrite Ei; specialize (H3 Hc); specialize (H4 Hc).
  - destruct (opens c); [destruct Hm2 as [-> _]; rewrite <- Hli; by apply open_stack_push|].
    apply Forall_cons_1 in Hce as [Hce _]. destruct Hm2 as [_ Hs]. by rewrite Hs.
  - intros i p. destruct (opens c).
    + destruct Hm2 as [_ ->]. intros [[Hi Hlt]|[-> ->]]%lookup_last; unfold parents in *; rewrite ?length_map in *.
      * apply encloses_app; [lia|]. by apply H4.
      * rewrite <- Hli. by apply encloses_new.
    + destruct Hm2 as [-> _]. apply H4.
Qed.

Lemma lay_lines_stand l : safely (fun s => stands (text_commands l) (nodes s) (stack s) (rootIdx s)) (lay_lines (length l) l lay0).
Proof. apply (lay_lines_from stands); [apply stands_step|apply stands_nil]. Qed.
