(* ===== verification/LayImage.v ===== *)
(** * Layout images: what is written is what is read

    [lay_decode] reads an image; what [lay_compile] writes decodes to the nodes of
    the text, their strings and their places, with the number of children modulo
    256. *)
From stdpp Require Import strings.
From S2P Require Import Prelude Common Sys Linbc1 Encode Lay LaySpec.

(** ** A reader of images *)

(** A node as an image shows it. *)
Record view : Type := mkView {
  v_parent : option nat;
  v_tag : Z;
  v_text : list Z;
  v_style : list Z;
  v_attrs : list Z;
  v_action : list Z;
  v_children : Z
}.

Definition view_of (n : Node) : view :=
  mkView (parent n) (tag n) (text n) (style n) (attrs n) (action n) (childCnt n mod 256).

Local Abbreviation bad := LIN_BC1_ERR_SECTION.

Definition rd_ref (tab : list (list Z)) : P (list Z) :=
  r ← rd_u16 bad;
  if r =? 65535 then mret []
  else match tab !! Z.to_nat r with Some s => mret s | None => fail bad end.

Definition flags_of (t s a c : list Z) : Z :=
  let bit (l : list Z) w := if (length l =? 0)%nat then 0 else w in bit t 1 + bit s 2 + bit a 4 + bit c 8.

Definition rd_node (tab : list (list Z)) : P view :=
  p ← rd_u16 bad;
  g ← rd_u8 bad;
  fl ← rd_u8 bad;
  t ← rd_ref tab;
  s ← rd_ref tab;
  a ← rd_ref tab;
  c ← rd_ref tab;
  k ← rd_u8 bad;
  z ← rd_u8 bad;
  _ ← ensure ((fl =? flags_of t s a c) && (z =? 0)) bad;
  mret (mkView (if p =? 65535 then None else Some (Z.to_nat p)) g t s a c k).

Definition rd_str : P (list Z) := n ← rd_u16 bad; rd_view n bad.

Definition lay_decode : P (nat * list view) :=
  magic ← rd_view 5 bad;
  _ ← ensure (bytes_eqb magic (cstr "LAY1" ++ [1])) bad;
  root ← rd_u16 bad;
  nn ← rd_u16 bad;
  ns ← rd_u16 bad;
  tab ← section (Z.to_nat ns) 0 [] (fun _ _ => rd_str);
  vs ← section (Z.to_nat nn) 0 [] (fun _ _ => rd_node tab);
  mret (Z.to_nat root, vs).

(** ** Interning *)

Record table_ok (tab : list (list Z)) : Prop := {
  tb_count : (length tab <= MAXSTR)%nat;
  tb_bytes : Z.of_nat (length (concat tab)) <= STRCAP
}.

(** [r] stands for [s]. *)
Definition ref_ok (tab : list (list Z)) (s : list Z) (r : Z) : Prop :=
  0 <= r < two16 /\ (s = [] /\ r = 65535 \/ r <> 65535 /\ tab !! Z.to_nat r = Some s).

Lemma ref_ok_prefix tab k s r : ref_ok tab s r -> ref_ok (tab ++ k) s r.
Proof. intros [Hr [?|[Hn H]]]; (split; [done|]); [by left|right]. split; [done|]. by apply lookup_app_l_Some. Qed.

Lemma find_str_spec s tab i : find_str s tab = Some i -> tab !! i = Some s.
Proof.
  revert i. induction tab as [|t tab IH]; intros i; cbn [find_str]; [done|].
  destruct (bytes_eqb s t) eqn:E; [intros [= <-]; apply bytes_eqb_eq in E as ->; done|].
  intros (j & Hj & ->)%fmap_Some. by apply IH.
Qed.

Lemma intern_ok s tab : table_ok tab ->
  safely (fun r => exists k, r.2 = tab ++ k /\ table_ok (tab ++ k) /\ ref_ok (tab ++ k) s (u16 r.1)) (intern s tab).
Proof.
  intros Ht. unfold intern. destruct (Nat.eqb_spec (length s) 0) as [E|E].
  { exists []. cbn [fst snd]. rewrite app_nil_r. split; [done|]. split; [done|]. split; [done|]. left. by destruct s. }
  assert (forall i, (i < MAXSTR)%nat -> u16 (Z.of_nat i) = Z.of_nat i) as Hu.
  { intros i Hi. unfold u16, MAXSTR in *. apply Z.mod_small. unfold two16. lia. }
  destruct (find_str s tab) as [i|] eqn:Ef.
  - apply find_str_spec in Ef. pose proof (lookup_lt_Some _ _ _ Ef) as Hi. destruct Ht as [H1 H2].
    exists []. cbn [fst snd]. rewrite app_nil_r. split; [done|]. split; [done|]. rewrite Hu by lia. unfold MAXSTR in *.
    split; [unfold two16; lia|]. right. split; [lia|]. by rewrite Nat2Z.id.
  - eapply safely_bind; [apply safely_must|]. intros [] Hm. apply negb_true_iff, orb_false_iff in Hm as [Hm1%Nat.leb_gt Hm2%Z.ltb_ge].
    exists [s]. cbn [fst snd]. split; [done|]. split.
    + split; [rewrite length_app; cbn; lia|]. rewrite concat_app, length_app. cbn [concat]. rewrite app_nil_r. lia.
    + rewrite Hu by done. unfold MAXSTR in *. split; [unfold two16; lia|]. right. split; [lia|].
      rewrite Nat2Z.id, lookup_app_r, Nat.sub_diag by lia. done.
Qed.

Definition refs_ok (tab : list (list Z)) (n : Node) (r : refs) : Prop :=
  ref_ok tab (text n) (rT r) /\ ref_ok tab (style n) (rS r) /\ ref_ok tab (attrs n) (rA r) /\ ref_ok tab (action n) (rC r).

Lemma refs_ok_prefix tab k n r : refs_ok tab n r -> refs_ok (tab ++ k) n r.
Proof. intros (? & ? & ? & ?). split_and!; by apply ref_ok_prefix. Qed.

Lemma intern_nodes_ok ns : forall tab, table_ok tab ->
  safely (fun r => exists k, r.2 = tab ++ k /\ table_ok (tab ++ k) /\ Forall2 (refs_ok (tab ++ k)) ns r.1) (intern_nodes ns tab).
Proof.
  induction ns as [|n ns IH]; intros tab Ht; cbn [intern_nodes].
  { exists []. rewrite app_nil_r. by split_and!; [..|constructor]. }
  eapply safely_bind; [by apply (intern_ok (text n))|]. intros [t tab1] (k1 & E & Ht1 & R1). cbn [fst snd] in *. subst tab1.
  eapply safely_bind; [by apply (intern_ok (style n))|]. intros [s tab2] (k2 & E & Ht2 & R2). cbn [fst snd] in *. subst tab2.
  eapply safely_bind; [by apply (intern_ok (attrs n))|]. intros [a tab3] (k3 & E & Ht3 & R3). cbn [fst snd] in *. subst tab3.
  eapply safely_bind; [by apply (intern_ok (action n))|]. intros [c tab4] (k4 & E & Ht4 & R4). cbn [fst snd] in *. subst tab4.
  eapply safely_bind; [by apply IH|]. intros [rs tab5] (k5 & E & Ht5 & R5). cbn [fst snd] in *. subst tab5.
  rewrite <- !app_assoc in *. exists (k1 ++ k2 ++ k3 ++ k4 ++ k5). cbn [fst snd]. split; [done|]. split; [done|].
  constructor; [|done]. split_and!; cbn [rT rS rA rC].
  - apply (ref_ok_prefix _ (k2 ++ k3 ++ k4 ++ k5)) in R1. by rewrite <- app_assoc in R1.
  - apply (ref_ok_prefix _ (k3 ++ k4 ++ k5)) in R2. by rewrite <- !app_assoc in R2.
  - apply (ref_ok_prefix _ (k4 ++ k5)) in R3. by rewrite <- !app_assoc in R3.
  - apply (ref_ok_prefix _ k5) in R4. by rewrite <- !app_assoc in R4.
Qed.

(** ** Reading back *)

Lemma w16_le v : w16 v = le_bytes 2 v.
Proof.
  unfold w16. rewrite !land_255, shiftr_8 by lia. cbn [le_bytes]. unfold u8. by rewrite !Z.mod_mod by done.
Qed.

Lemma decodes_w16 v : decodes (rd_u16 bad) (w16 (u16 v)) (u16 v).
Proof. rewrite w16_le. apply decodes_u16. unfold u16, two16. apply Z.mod_pos_bound. lia. Qed.

(** A section whose entries do not depend on each other. *)
Lemma decodes_list {A} (f : P A) bss xs : Forall2 (decodes f) bss xs -> forall i acc,
  decodes (section (length xs) i acc (fun _ _ => f)) (concat bss) (rev acc ++ xs).
Proof.
  induction 1 as [|bs x bss xs H _ IH]; intros i acc; cbn [length section concat].
  - rewrite app_nil_r. apply decodes_ret.
  - eapply decodes_bind; [exact H|]. specialize (IH (i + 1) (x :: acc)). cbn [rev] in IH. by rewrite <- app_assoc in IH.
Qed.

Lemma decodes_ref tab s r : ref_ok tab s r -> decodes (rd_ref tab) (w16 r) s.
Proof.
  intros [Hr H]. unfold rd_ref. assert (r = u16 r) as E by (unfold u16; by rewrite Z.mod_small).
  rewrite E at 1. rewrite <- (app_nil_r (w16 _)). eapply decodes_bind; [apply decodes_w16|]. rewrite <- E.
  destruct H as [[-> ->]|[Hn Hs]]; [apply decodes_ret|]. rewrite (proj2 (Z.eqb_neq r 65535) Hn), Hs. apply decodes_ret.
Qed.

Lemma flags_spec n : flags n = flags_of (text n) (style n) (attrs n) (action n).
Proof. unfold flags, flags_of. by repeat destruct (_ =? 0)%nat. Qed.

Lemma decodes_str_entry s : Z.of_nat (length s) <= STRCAP -> decodes rd_str (put_str s) s.
Proof.
  intros Hs. unfold rd_str, put_str. eapply decodes_bind; [apply decodes_w16|].
  assert (u16 (Z.of_nat (length s)) = Z.of_nat (length s)) as ->; [|apply decodes_view].
  unfold u16. apply Z.mod_small. unfold two16, STRCAP in *. lia.
Qed.

Lemma decodes_node tab n r : refs_ok tab n r -> (forall p, parent n = Some p -> (p < MAXNODES)%nat) ->
  decodes (rd_node tab) (put_node n r) (view_of n).
Proof.
  intros (R1 & R2 & R3 & R4) Hp. unfold rd_node, put_node. set (p := match parent n with None => 65535 | Some p => u16 (Z.of_nat p) end).
  assert (p = u16 p) as Ep.
  { unfold p. destruct (parent n); [|done]. unfold u16. by rewrite Z.mod_mod by done. }
  assert ((if p =? 65535 then None else Some (Z.to_nat p)) = parent n) as Epar.
  { unfold p. destruct (parent n) as [q|]; [|done]. specialize (Hp q eq_refl). unfold MAXNODES in Hp.
    assert (u16 (Z.of_nat q) = Z.of_nat q) as -> by (unfold u16; apply Z.mod_small; unfold two16; lia).
    destruct (Z.eqb_spec (Z.of_nat q) 65535); [lia|]. by rewrite Nat2Z.id. }
  rewrite Ep at 1. eapply decodes_bind; [apply decodes_w16|]. rewrite <- Ep.
  change ([tag n; flags n] ++ ?k) with ([tag n] ++ [flags n] ++ k).
  eapply decodes_bind; [apply decodes_u8|]. eapply decodes_bind; [apply decodes_u8|].
  eapply decodes_bind; [by apply decodes_ref|]. eapply decodes_bind; [by apply decodes_ref|].
  eapply decodes_bind; [by apply decodes_ref|]. eapply decodes_bind; [by apply decodes_ref|].
  change [u8 (childCnt n); 0] with ([u8 (childCnt n)] ++ [0] ++ []).
  eapply decodes_bind; [apply decodes_u8|]. eapply decodes_bind; [apply decodes_u8|].
  eapply decodes_then; [apply decodes_ensure; by rewrite flags_spec, Z.eqb_refl|].
  rewrite Epar. apply decodes_ret.
Qed.

(** The image of a tree is read back. *)
Lemma decodes_image root ns rs tab : table_ok tab -> Forall2 (refs_ok tab) ns rs -> (length ns <= MAXNODES)%nat ->
  (root < MAXNODES)%nat -> (forall n p, n ∈ ns -> parent n = Some p -> (p < MAXNODES)%nat) ->
  decodes lay_decode (image root ns rs tab) (root, map view_of ns).
Proof.
  intros [T1 T2] Hr Hn Hroot Hp. unfold lay_decode, image.
  assert (forall k, (k <= MAXNODES)%nat -> u16 (Z.of_nat k) = Z.of_nat k) as Hu.
  { intros k Hk. unfold u16, MAXNODES in *. apply Z.mod_small. unfold two16. lia. }
  change (cstr "LAY1" ++ [1] ++ ?k) with ((cstr "LAY1" ++ [1]) ++ k).
  eapply decodes_bind; [apply (decodes_view bad (cstr "LAY1" ++ [1]))|].
  eapply decodes_then; [apply decodes_ensure; done|].
  eapply decodes_bind; [apply decodes_w16|]. eapply decodes_bind; [apply decodes_w16|]. eapply decodes_bind; [apply decodes_w16|].
  rewrite !Hu by (unfold MAXSTR, MAXNODES in *; lia). rewrite !Nat2Z.id.
  eapply decodes_bind; [apply (decodes_list rd_str (map put_str tab) tab)|].
  { clear Hr. assert (forall s, s ∈ tab -> Z.of_nat (length s) <= STRCAP) as Hs.
    { intros s Hs. apply list_elem_of_split in Hs as (l1 & l2 & ->). rewrite concat_app, length_app in T2. cbn [concat] in T2.
      rewrite length_app in T2. lia. }
    clear T1 T2. induction tab as [|s tab IH]; constructor; [apply decodes_str_entry, Hs; by left|]. apply IH. intros x Hx. apply Hs. by right. }
  cbn [rev app]. rewrite <- (app_nil_r (concat (zip_with put_node ns rs))).
  assert (length ns = length (map view_of ns)) as -> by (by rewrite length_map).
  eapply decodes_bind; [apply (decodes_list (rd_node tab) (zip_with put_node ns rs) (map view_of ns))|].
  { clear Hn. induction Hr as [|n r ns rs Hnr Hr IH]; constructor.
    - apply decodes_node; [done|]. intros p. apply Hp. by left.
    - apply IH. intros m p Hm. apply Hp. by right. }
  cbn [rev app]. apply decodes_ret.
Qed.

Lemma put_node_length n r : length (put_node n r) = 14%nat.
Proof. done. Qed.

Lemma nodes_length ns rs : (length (concat (zip_with put_node ns rs)) <= 14 * length ns)%nat.
Proof.
  revert rs. induction ns as [|n ns IH]; intros [|r rs]; cbn [zip_with concat length]; [lia..|].
  rewrite length_app, put_node_length. specialize (IH rs). lia.
Qed.

Lemma strings_length tab : length (concat (map put_str tab)) = (2 * length tab + length (concat tab))%nat.
Proof.
  induction tab as [|s tab IH]; cbn [map concat length]; [done|]. rewrite !length_app, IH. unfold put_str. rewrite length_app. cbn. lia.
Qed.

Lemma image_length root ns rs tab : table_ok tab -> (length ns <= MAXNODES)%nat ->
  Z.of_nat (length (image root ns rs tab)) <= 24587.
Proof.
  intros [T1 T2] Hn. pose proof (nodes_length ns rs). unfold image. rewrite !length_app, strings_length.
  assert (forall v, length (w16 v) = 2%nat) as Hw by done. rewrite !Hw.
  change (length (cstr "LAY1")) with 4%nat. change (length [1]) with 1%nat. unfold MAXSTR, STRCAP, MAXNODES in *. lia.
Qed.

Lemma children_counted ns p n : counted ns -> map view_of ns !! p = Some n ->
  v_children n = children (map v_parent (map view_of ns)) p mod 256.
Proof.
  intros Hc Hn. rewrite map_map. change (map (fun x => v_parent (view_of x)) ns) with (parents ns).
  apply list_lookup_fmap_Some in Hn as (m & -> & Hm). cbn [view_of v_children]. by rewrite (Hc p m Hm).
Qed.

(** What an image shows of the line of its node. *)
Definition v_fields (v : view) : Z * list Z * list Z * list Z := (v_tag v, v_text v, v_attrs v, v_action v).

Definition shows (c : command) (v : view) : Prop :=
  if bytes_eqb (c_kw c) (cstr "VIEW") then v_fields v = (0, [], [], [])
  else exists id n, tag_lookup (c_kw c) = Some id /\
    set_tokens (tail (c_toks c)) (new_node (v_parent v) id) = LOk n /\ v_fields v = fields n.

(** The root is the first VIEW, or the first node. *)
Record describes (l : list Z) (root : nat) (vs : list view) : Prop := {
  ds_forest : preorder (map v_parent vs);
  ds_children : forall p v, vs !! p = Some v -> v_children v = children (map v_parent vs) p mod 256;
  ds_root : root = default O (first_view (openers (text_commands l))) /\ (root < length vs)%nat;
  ds_lines : Forall2 shows (openers (text_commands l)) vs;
  ds_indent : no_end (text_commands l) -> forall i v, vs !! i = Some v -> encloses (indents (text_commands l)) i (v_parent v)
}.

Lemma stands_describes l ns st root : stands (text_commands l) ns st root -> ns <> [] ->
  describes l (default O root) (map view_of ns).
Proof.
  intros [[T1 T2 T3 T4 T5 T6 T7] Hm -> _ Hi] Hn.
  assert (map v_parent (map view_of ns) = parents ns) as Ep by (by rewrite map_map).
  split.
  - by rewrite Ep.
  - intros p v. by apply children_counted.
  - split; [done|]. rewrite length_map. destruct (first_view _) as [r|]; [by apply T3|]. destruct ns; [done|cbn; lia].
  - clear -Hm. induction Hm as [|c n cs ns H _ IH]; constructor; done.
  - intros He i v (n & -> & Hn')%list_lookup_fmap_Some. apply Hi; [done|]. unfold parents. by rewrite list_lookup_fmap, Hn'.
Qed.

Lemma lay_compile_ok l :
  safely (fun out => Z.of_nat (length out) <= 24587 /\
    exists root vs, lay_decode out = Ok ((root, vs), []) /\ describes l root vs) (lay_compile l).
Proof.
  unfold lay_compile. eapply safely_bind; [apply lay_lines_stand|]. intros s Hs.
  apply (safely_bind _ _ (fun r => r = default O (rootIdx s) /\ nodes s <> [])).
  { pose proof (to_root _ _ _ (sf_tree _ _ _ _ Hs)) as Hr. destruct (rootIdx s) as [r|]; cbn.
    - split; [done|]. specialize (Hr r eq_refl). destruct (nodes s); [cbn in Hr; lia|done].
    - destruct (nodes s); cbn; done. }
  intros root [-> Hn]. unfold write_image. pose proof (sf_tree _ _ _ _ Hs) as Ht.
  eapply safely_bind; [apply (intern_nodes_ok (nodes s) []); split; [apply Nat.le_0_l|done]|].
  intros [rs tab] (k & E & Htab & Hrs). cbn [fst snd app] in *. subst tab. pose proof (to_nodes _ _ _ Ht) as Hlen.
  pose proof (image_length (default O (rootIdx s)) (nodes s) rs k Htab Hlen) as Hl.
  destruct (Z.ltb_spec 65536 (Z.of_nat (length (image (default O (rootIdx s)) (nodes s) rs k)))); [lia|].
  cbn [safely mret lay_ret]. split; [done|]. exists (default O (rootIdx s)), (map view_of (nodes s)).
  pose proof (stands_describes l _ _ _ Hs Hn) as Hd. split; [|done].
  pose proof (decodes_image (default O (rootIdx s)) (nodes s) rs k Htab Hrs Hlen) as Hi.
  destruct (ds_root _ _ _ Hd) as [_ Hroot]. rewrite length_map in Hroot.
  rewrite <- (app_nil_r (image _ _ _ _)). apply Hi; [lia|]. intros n p Hin Hp. apply list_elem_of_lookup_1 in Hin as [i Hi'].
  destruct (to_preorder _ _ _ Ht i p) as [Hlt _]; [unfold parents; by rewrite list_lookup_fmap, Hi', <- Hp|].
  apply lookup_lt_Some in Hi'. lia.
Qed.


(** ** What is cut *)

Definition decoded (l : list Z) : option (list view) :=
  match lay_compile l with
  | LOk out => match lay_decode out with Ok ((_, vs), _) => Some vs | _ => None end
  | _ => None
  end.

(** A style of 600 bytes, a node of 70 attributes, a node of 256 children. *)
Definition long_style : list Z := cstr "VIEW
STYLE " ++ repeat 120 600.
Definition many_tokens : list Z := cstr "P" ++ concat (repeat (cstr " a=1") 70).
Definition many_children : list Z := cstr "VIEW" ++ concat (repeat ([10] ++ cstr " P") 256).

(** Excess is not always an error: a style of 600 bytes is cut to 511,
    the tokens of a line after the 64th are dropped, and a node with 256 children
    says it has none; the image is written in each case. *)
Theorem lay_silent_cuts :
  (exists v, decoded long_style = Some [v] /\ v_style v = repeat 120 511) /\
  (exists v, decoded many_tokens = Some [v] /\ v_attrs v = tail (concat (repeat (cstr " a=1") 63))) /\
  (exists v vs, decoded many_children = Some (v :: vs) /\ length vs = 256%nat /\
     Forall (fun w => v_parent w = Some O) vs /\ v_children v = 0).
Proof.
  split_and!.
  - eexists. split; vm_compute; reflexivity.
  - eexists. split; vm_compute; reflexivity.
  - eexists _, _. split; [vm_compute; reflexivity|]. split; [reflexivity|]. split; [|reflexivity]. by repeat constructor.
Qed.
