(* ===== verification/Linp.v ===== *)
(** * linp_c0/linp_c0.c: packing jobs

    A plan in directives and a payload give the bytecode of the job, the numbered
    pieces of the payload with their hashes, two manifests and a receipt.  [main]
    is [linp_main]: the three reads and the answers of the system are arguments,
    the files written are the result, by their names in the output directory.  A
    directive is its line, blanks trimmed; the texts are C strings without their
    NUL. *)
From stdpp Require Import strings.
From S2P Require Import Prelude Common Decimal Sha256 Sys C0Lex.

Definition PAYLOAD_MAX : Z := 4 * 1024 * 1024.
Definition PLAN_MAX : Z := 65536.
Definition LINP_LINEBUF : nat := 2048.
Definition DISKS_MAX : Z := 65536.

(** What stops the program, with status 1. *)
Inductive LinpErr : Type :=
| LINP_ORIG | LINP_COMP | LINP_PLAN | LINP_LINE | LINP_DUP | LINP_JOB | LINP_PATH | LINP_PATH_LONG | LINP_ALGO
| LINP_CHUNK | LINP_PACKS | LINP_DIRECTIVE | LINP_INCOMPLETE | LINP_PAYLOAD | LINP_EMPTY
| LINP_MKDIR | LINP_OPEN | LINP_WRITE | LINP_DISKS.

Definition die_unless (b : bool) (e : LinpErr) : res LinpErr unit := if b then Ok tt else Err e.

(** ** The plan *)

(** The globals. *)
Record plan : Type := mkPlan {
  g_job : list Z;
  g_file : list Z;
  g_algo : list Z;
  g_chunk : Z;
  g_packs : Z;
  complete : bool
}.

Definition plan0 : plan := mkPlan [] [] [] 0 0 false.

Definition algo_id (a : list Z) : option Z :=
  if bytes_eqb a (cstr "deflate") then Some 0
  else if bytes_eqb a (cstr "gzip") then Some 1
  else if bytes_eqb a (cstr "brotli") then Some 2
  else None.

(** [strtol]: without digits 0 and the whole text. *)
Definition strtol (s : list Z) : Z * list Z := default (0, s) (strtoll s).

Definition is_nil (l : list Z) : bool := (length l =? 0)%nat.

(** [s] without the keyword [kw] it starts with. *)
Definition after (kw : string) (s : list Z) : option (list Z) :=
  if bytes_eqb (take (length (cstr kw)) s) (cstr kw) then Some (drop (length (cstr kw)) s) else None.

Definition set_job (v : list Z) (p : plan) : res LinpErr plan :=
  let* _ := die_unless (is_nil (g_job p)) LINP_DUP in
  let* _ := die_unless (negb (is_nil v || (255 <? length v)%nat)) LINP_JOB in
  Ok (mkPlan v (g_file p) (g_algo p) (g_chunk p) (g_packs p) (complete p)).

Definition set_file (v : list Z) (p : plan) : res LinpErr plan :=
  let* _ := die_unless (is_nil (g_file p)) LINP_DUP in
  let* _ := die_unless (negb (bool_decide (is_Some (c0_index_str v (cstr ".."))) || bool_decide (head v = Some 47) || is_nil v)) LINP_PATH in
  let* _ := die_unless (negb (1023 <? length v)%nat) LINP_PATH_LONG in
  Ok (mkPlan (g_job p) v (g_algo p) (g_chunk p) (g_packs p) (complete p)).

Definition set_algo (v : list Z) (p : plan) : res LinpErr plan :=
  let* _ := die_unless (is_nil (g_algo p)) LINP_DUP in
  let* _ := die_unless (bool_decide (is_Some (algo_id v))) LINP_ALGO in
  Ok (mkPlan (g_job p) (g_file p) v (g_chunk p) (g_packs p) (complete p)).

Definition set_chunk (v : list Z) (p : plan) : res LinpErr plan :=
  let* _ := die_unless (g_chunk p =? 0) LINP_DUP in
  let '(n, rest) := strtol v in
  let* _ := die_unless (negb (negb (is_nil rest) || (n <? 64) || (1800000 <? n))) LINP_CHUNK in
  Ok (mkPlan (g_job p) (g_file p) (g_algo p) n (g_packs p) (complete p)).

Definition directive (s : list Z) (p : plan) : res LinpErr plan :=
  match after "JOB " s with
  | Some v => set_job v p
  | None =>
  match after "FILE " s with
  | Some v => set_file v p
  | None =>
  match after "ALGO " s with
  | Some v => set_algo v p
  | None =>
  match after "CHUNK " s with
  | Some v => set_chunk v p
  | None =>
      if bytes_eqb s (cstr "PACK") then
        let p := mkPlan (g_job p) (g_file p) (g_algo p) (g_chunk p) (g_packs p + 1) (complete p) in
        let* _ := die_unless (negb (1 <? g_packs p)) LINP_PACKS in Ok p
      else if bytes_eqb s (cstr "END") then Ok (mkPlan (g_job p) (g_file p) (g_algo p) (g_chunk p) (g_packs p) true)
      else Err LINP_DIRECTIVE
  end end end end.

Definition rstrip (P : Z -> bool) (l : list Z) : list Z := rev (drop (run_length P (rev l)) (rev l)).
Definition is_margin (c : Z) : bool := (c =? 32) || (c =? 9).

(** A physical line, blanks trimmed. *)
Definition trim_line (l : list Z) : list Z :=
  rstrip (fun c => is_margin c || (c =? 13)) (drop (run_length is_margin l) l).

(** The header is compared on eight bytes. *)
Definition plan_line (lineno : Z) (l : list Z) (p : plan) : res LinpErr plan :=
  let* _ := die_unless (length l <? LINP_LINEBUF)%nat LINP_LINE in
  let s := trim_line l in
  if is_nil s then Ok p
  else if (lineno =? 1) && bytes_eqb (take 8 s) (take 8 (cstr "@LINP:1.0")) then Ok p
  else directive s p.

(** The lines of a text: one more than its newlines. *)
Fixpoint plan_text_lines (cur l : list Z) : list (list Z) :=
  match l with
  | [] => [cur]
  | c :: l => if c =? 10 then cur :: plan_text_lines [] l else plan_text_lines (cur ++ [c]) l
  end.

Fixpoint plan_lines (lineno : Z) (ls : list (list Z)) (p : plan) : res LinpErr plan :=
  match ls with
  | [] => Ok p
  | l :: ls => let* p := plan_line lineno l p in plan_lines (lineno + 1) ls p
  end.

Definition parse_plan (text : list Z) : res LinpErr plan :=
  let* p := plan_lines 1 (plan_text_lines [] (strz text)) plan0 in
  let* _ := die_unless (negb (is_nil (g_job p) || is_nil (g_file p) || is_nil (g_algo p) || (g_chunk p =? 0) ||
                              negb (g_packs p =? 1) || negb (complete p))) LINP_INCOMPLETE in
  Ok p.

(** ** Inputs *)

(** A file that is missing, or has [cap] bytes or more, is refused. *)
Definition read_all (file : option (list Z)) (cap : Z) : option (list Z) :=
  match file with
  | Some l => if cap <=? Z.of_nat (length l) then None else Some l
  | None => None
  end.

Definition size_arg (arg : list Z) (e : LinpErr) : res LinpErr Z :=
  let '(n, rest) := strtol arg in
  let* _ := die_unless (negb (negb (is_nil rest) || (n <? 0))) e in Ok n.

Definition read_payload (file : option (list Z)) : res LinpErr (list Z) :=
  match read_all file PAYLOAD_MAX with
  | None => Err LINP_PAYLOAD
  | Some l =>
      let pay := rstrip (fun c => (c =? 10) || (c =? 13)) l in
      let* _ := die_unless (negb (is_nil pay)) LINP_EMPTY in Ok pay
  end.

(** ** Texts *)

(** [\u%04x] and [\x%02x] of a byte. *)
Definition hex2 (c : Z) : list Z := [hexd (Z.shiftr c 4); hexd (Z.land c 15)].

Definition json_byte (c : Z) : list Z :=
  if c =? 34 then [92; 34]
  else if c =? 92 then [92; 92]
  else if c =? 10 then cstr "\n"
  else if c =? 13 then cstr "\r"
  else if c =? 9 then cstr "\t"
  else if c =? 60 then cstr "\u003c"
  else if c =? 62 then cstr "\u003e"
  else if c =? 38 then cstr "\u0026"
  else if c <? 32 then cstr "\u00" ++ hex2 c
  else [c].
Definition json_str (s : list Z) : list Z := [34] ++ concat (map json_byte s) ++ [34].

Definition go_byte (c : Z) : list Z :=
  if c =? 34 then [92; 34]
  else if c =? 92 then [92; 92]
  else if c =? 10 then cstr "\n"
  else if c =? 13 then cstr "\r"
  else if c =? 9 then cstr "\t"
  else if (c <? 32) || (c =? 127) then cstr "\x" ++ hex2 c
  else [c].
Definition go_quote (s : list Z) : list Z := [34] ++ concat (map go_byte s) ++ [34].

(** ** The bytecode *)

Definition linp_w16 (v : Z) : list Z := [u8 (Z.land v 255); u8 (Z.land (Z.shiftr v 8) 255)].
Definition linp_w32 (v : Z) : list Z :=
  [u8 (Z.land v 255); u8 (Z.land (Z.shiftr v 8) 255); u8 (Z.land (Z.shiftr v 16) 255); u8 (Z.land (Z.shiftr v 24) 255)].

Definition bytecode (p : plan) : list Z :=
  cstr "LNP1" ++ [1] ++ linp_w16 0 ++ linp_w16 1 ++ [default 0 (algo_id (g_algo p))] ++ [0] ++ linp_w32 (u32 (g_chunk p)) ++
  linp_w16 2 ++ linp_w16 (u16 (Z.of_nat (length (g_job p)))) ++ g_job p ++
  linp_w16 (u16 (Z.of_nat (length (g_file p)))) ++ g_file p.

(** ** The pieces of the payload *)

Definition total_disks (chunk : Z) (pay : list Z) : Z := (Z.of_nat (length pay) + chunk - 1) / chunk.

Definition piece (chunk : Z) (pay : list Z) (i : nat) : list Z :=
  let st := Z.of_nat i * chunk in
  let en := Z.min (st + chunk) (Z.of_nat (length pay)) in
  take (Z.to_nat (en - st)) (drop (Z.to_nat st) pay).

Definition pieces (chunk : Z) (pay : list Z) : list (list Z) :=
  map (piece chunk pay) (seq 0 (Z.to_nat (total_disks chunk pay))).

(** [%02zu] *)
Definition pad2 (n : Z) : list Z := if n <? 10 then 48 :: fmt_u64 n else fmt_u64 n.

Definition disk_name (i : nat) : list Z := cstr "disk_" ++ pad2 (Z.of_nat i + 1) ++ cstr ".txt".

(** ** Files *)

Section Output.
Context {C : Type} `{StreamHash C}.

Definition hash_hex (m : list Z) : list Z := lin_sha256_hex (sh_final (sh_update sh_init m)).

(** [%.*s] stops at a NUL. *)
Definition disk_text (p : plan) (total : Z) (root : list Z) (i : nat) (slice_ : list Z) : list Z :=
  cstr "v2;" ++ g_algo p ++ cstr ";[" ++ fmt_u64 (Z.of_nat i + 1) ++ cstr "/" ++ fmt_u64 total ++ cstr "];" ++
  hash_hex slice_ ++ cstr ";" ++ root ++ cstr ";" ++ strz slice_.

(** The hashes of manifest.json, with the commas between them. *)
Definition json_hashes (hs : list (list Z)) : list Z :=
  concat (imap (fun i h => (if (i =? 0)%nat then [] else cstr ",") ++ [10] ++ qstr "    '" ++ h ++ [34]) hs).

Definition manifest_json (p : plan) (orig comp : Z) (pay : list Z) (hs : list (list Z)) : list Z :=
  cstr "{" ++ [10] ++ qstr "  'algorithm': " ++ json_str (g_algo p) ++
  cstr "," ++ [10] ++ qstr "  'compressed_bytes': " ++ fmt_i64 comp ++ cstr "," ++ [10] ++ qstr "  'disk_hashes': [" ++
  json_hashes hs ++
  [10] ++ cstr "  ]," ++ [10] ++ qstr "  'encoded_chars': " ++ fmt_u64 (Z.of_nat (length pay)) ++ cstr "," ++ [10] ++
  qstr "  'format_version': 'v2'," ++ [10] ++ qstr "  'job': " ++ json_str (g_job p) ++
  cstr "," ++ [10] ++ qstr "  'original_bytes': " ++ fmt_i64 orig ++ cstr "," ++ [10] ++ qstr "  'root_sha256': '" ++
  hash_hex pay ++ qstr "'," ++ [10] ++ qstr "  'source_file': " ++ json_str (g_file p) ++
  cstr "," ++ [10] ++ qstr "  'total_disks': " ++ fmt_u64 (total_disks (g_chunk p) pay) ++ [10] ++ cstr "}".

Definition rulel_hashes (hs : list (list Z)) : list Z := concat (map (fun h => qstr "  '" ++ h ++ qstr "'," ++ [10]) hs).

Definition manifest_rulel (p : plan) (orig comp : Z) (pay : list Z) (hs : list (list Z)) : list Z :=
  cstr "@RULEL:FLOPPY_MANIFEST:2.0.0" ++ [10] ++
  cstr "~R{.s=source .a=algo .o=orig_bytes .c=comp_bytes .e=enc_chars .t=total_disks .r=root_sha .f=format}" ++ [10] ++
  cstr ".source=" ++ go_quote (g_file p) ++ [10] ++ cstr ".algo=" ++ go_quote (g_algo p) ++
  [10] ++ qstr ".format='v2'" ++ [10] ++ cstr ".orig_bytes=" ++ fmt_i64 orig ++ [10] ++ cstr ".comp_bytes=" ++ fmt_i64 comp ++
  [10] ++ cstr ".enc_chars=" ++ fmt_u64 (Z.of_nat (length pay)) ++ [10] ++
  cstr ".total_disks=" ++ fmt_u64 (total_disks (g_chunk p) pay) ++ [10] ++ qstr ".root_sha256='" ++ hash_hex pay ++
  qstr "'" ++ [10] ++ cstr ".disk_hashes=[" ++ [10] ++ rulel_hashes hs ++ cstr "]" ++ [10].

Definition receipt_json (p : plan) (source bc pay : list Z) : list Z :=
  cstr "{" ++ [10] ++ qstr "  'algo': " ++ json_str (g_algo p) ++ cstr "," ++ [10] ++
  qstr "  'bytecode_sha256': '" ++ hash_hex bc ++ qstr "'," ++ [10] ++ qstr "  'job': " ++ json_str (g_job p) ++
  cstr "," ++ [10] ++ qstr "  'root_sha256': '" ++ hash_hex pay ++ qstr "'," ++ [10] ++
  qstr "  'source_sha256': '" ++ hash_hex source ++ qstr "'" ++ [10] ++ cstr "}".

(** What follows the bytecode; [source] is the plan, read again. *)
Definition other_files (p : plan) (orig comp : Z) (source pay : list Z) : list (list Z * list Z) :=
  let ps := pieces (g_chunk p) pay in
  let hs := map hash_hex ps in
  let total := total_disks (g_chunk p) pay in
  imap (fun i s => (disk_name i, disk_text p total (hash_hex pay) i s)) ps ++
  [(cstr "manifest.json", manifest_json p orig comp pay hs);
   (cstr "manifest.rulel", manifest_rulel p orig comp pay hs);
   (cstr "receipt.json", receipt_json p source (bytecode p) pay)].

Section Main.
Context `{Env}.

(** One [fopen] each; the first that fails ends the program. *)
Fixpoint write_files (fs : list (list Z * list Z)) (t : nat) : option LinpErr * list (list Z * list Z) :=
  match fs with
  | [] => (None, [])
  | f :: fs =>
      if io_ok t then let '(e, w) := write_files fs (S t) in (e, f :: w) else (Some LINP_OPEN, [])
  end.

(** What is decided before anything is written. *)
Definition prepare (argv3 argv4 : list Z) (plan_file pay_file : option (list Z)) : res LinpErr (plan * Z * Z * list Z) :=
  let* orig := size_arg argv3 LINP_ORIG in
  let* comp := size_arg argv4 LINP_COMP in
  match read_all plan_file PLAN_MAX with
  | None => Err LINP_PLAN
  | Some text =>
      let* p := parse_plan text in
      let* pay := read_payload pay_file in
      Ok (p, orig, comp, pay)
  end.

(** The error, if any, and the files written, in order. *)
Definition linp_main (argv3 argv4 : list Z) (plan_file pay_file plan_again : option (list Z)) :
    option LinpErr * list (list Z * list Z) :=
  match prepare argv3 argv4 plan_file pay_file with
  | Err e => (Some e, [])
  | Ok (p, orig, comp, pay) =>
      let bc := bytecode p in
      if negb (io_ok 0) then (Some LINP_MKDIR, [])
      else if negb (io_ok 1) then (Some LINP_OPEN, [])
      else if negb (io_ok 2) then (Some LINP_WRITE, [(cstr "job.linpbc", take (io_count 2) bc)])
      else
        let first := (cstr "job.linpbc", bc) in
        if DISKS_MAX <? total_disks (g_chunk p) pay then (Some LINP_DISKS, [first])
        else
          let source := default [] (read_all plan_again PLAN_MAX) in
          let '(e, w) := write_files (other_files p orig comp source pay) 3 in (e, first :: w)
  end.
End Main.
End Output.

(** ** Example *)

(** The job of golden/, and the files of golden/expected. *)
Definition demo_plan : list Z := qstr "@LINP:1.0
JOB demo
FILE input.html
ALGO deflate
CHUNK 64
PACK
END
".
Definition demo_pay : list Z := qstr "lNJNCkIxDMTxvafIDdr4LYSsvYaSR1-gtEGL4u2lK7fOen67_4j5S2VlvbqklVVCH_1NOWeq3oJKr7Y0ipuZt0KjU5n7_TOWp6T4eQb9FvQ70O9BfwD9EfQn0J9Bf8E8g335375pHmrzDQAA__8".

Definition demo_files : list (list Z * list Z) :=
  [(cstr "job.linpbc",
    [76; 78; 80; 49; 1; 0; 0; 1; 0; 0; 0; 64; 0; 0; 0; 2; 0; 4; 0; 100; 101; 109; 111; 10; 0; 105; 110; 112; 117; 116; 46; 104; 116; 109; 108]);
   (cstr "disk_01.txt",
    qstr "v2;deflate;[1/3];697b2a0bb9542c2dadd6678e6052701b6afdc2a377a8fdc8c3fc6ca890ce4d05;91fb92ef69d123d351f265c70bfecfeebf7f88cd34f9b54c212b43da8adf41bd;lNJNCkIxDMTxvafIDdr4LYSsvYaSR1-gtEGL4u2lK7fOen67_4j5S2VlvbqklVVC");
   (cstr "disk_02.txt",
    qstr "v2;deflate;[2/3];3501daf0b1987a8b6163d1a21f6b2f5cd1fc6568e007592a2a29850b6c4179d6;91fb92ef69d123d351f265c70bfecfeebf7f88cd34f9b54c212b43da8adf41bd;H_1NOWeq3oJKr7Y0ipuZt0KjU5n7_TOWp6T4eQb9FvQ70O9BfwD9EfQn0J9Bf8E8");
   (cstr "disk_03.txt",
    qstr "v2;deflate;[3/3];132a98f9f46a03d05c9693ccb5aa71438ed9b2f1edcbe8ec3c69820f13aa7d68;91fb92ef69d123d351f265c70bfecfeebf7f88cd34f9b54c212b43da8adf41bd;g335375pHmrzDQAA__8");
   (cstr "manifest.json", qstr "{
  'algorithm': 'deflate',
  'compressed_bytes': 110,
  'disk_hashes': [
    '697b2a0bb9542c2dadd6678e6052701b6afdc2a377a8fdc8c3fc6ca890ce4d05',
    '3501daf0b1987a8b6163d1a21f6b2f5cd1fc6568e007592a2a29850b6c4179d6',
    '132a98f9f46a03d05c9693ccb5aa71438ed9b2f1edcbe8ec3c69820f13aa7d68'
  ],
  'encoded_chars': 147,
  'format_version': 'v2',
  'job': 'demo',
  'original_bytes': 599,
  'root_sha256': '91fb92ef69d123d351f265c70bfecfeebf7f88cd34f9b54c212b43da8adf41bd',
  'source_file': 'input.html',
  'total_disks': 3
}");
   (cstr "manifest.rulel", qstr "@RULEL:FLOPPY_MANIFEST:2.0.0
~R{.s=source .a=algo .o=orig_bytes .c=comp_bytes .e=enc_chars .t=total_disks .r=root_sha .f=format}
.source='input.html'
.algo='deflate'
.format='v2'
.orig_bytes=599
.comp_bytes=110
.enc_chars=147
.total_disks=3
.root_sha256='91fb92ef69d123d351f265c70bfecfeebf7f88cd34f9b54c212b43da8adf41bd'
.disk_hashes=[
  '697b2a0bb9542c2dadd6678e6052701b6afdc2a377a8fdc8c3fc6ca890ce4d05',
  '3501daf0b1987a8b6163d1a21f6b2f5cd1fc6568e007592a2a29850b6c4179d6',
  '132a98f9f46a03d05c9693ccb5aa71438ed9b2f1edcbe8ec3c69820f13aa7d68',
]
");
   (cstr "receipt.json", qstr "{
  'algo': 'deflate',
  'bytecode_sha256': '2ae64e125b0e3a888bd19be1dc6843de63079f1fc868a74cf0657db03ecb6151',
  'job': 'demo',
  'root_sha256': '91fb92ef69d123d351f265c70bfecfeebf7f88cd34f9b54c212b43da8adf41bd',
  'source_sha256': '32b7ff52f6c15c5290d2ab04abfb5be4f4c9cddd2c35c5b0249b37cf3d56325f'
}")].

Example demo_golden :
  @linp_main LinSha256 _ calm (cstr "599") (cstr "110") (Some demo_plan) (Some demo_pay) (Some demo_plan) = (None, demo_files).
Proof. vm_compute. reflexivity. Qed.
