(* ===== verification/LinpSpec.v ===== *)
(** * Packing jobs: the plans accepted, and what the outputs say

    A plan is accepted exactly when its lines are directives, each well formed,
    with one JOB, FILE, ALGO, CHUNK and PACK and some END; its bytecode, its pieces
    and its texts can be read back. *)
From stdpp Require Import strings.
From S2P Require Import Prelude Common Token Str Decimal Sha256 Sys C0Lex Linbc1 Encode Linp.

(** ** Directives *)

Inductive dir : Type :=
| JOB (v : list Z)
| FILE (v : list Z)
| ALGO (v : list Z)
| CHUNK (n : Z)
| PACK
| END.

(** A path of the repository: relative and without two dots. *)
Definition inside (v : list Z) : Prop := v <> [] /\ head v <> Some 47 /\ ~ exists l k, v = l ++ cstr ".." ++ k.

(** The line [s] is the directive [d]. *)
Inductive is_dir : list Z -> dir -> Prop :=
| D_job v : v <> [] -> (length v <= 255)%nat -> is_dir (cstr "JOB " ++ v) (JOB v)
| D_file v : inside v -> (length v <= 1023)%nat -> is_dir (cstr "FILE " ++ v) (FILE v)
| D_algo v : In v [cstr "deflate"; cstr "gzip"; cstr "brotli"] -> is_dir (cstr "ALGO " ++ v) (ALGO v)
| D_chunk v n : strtol v = (n, []) -> 64 <= n <= 1800000 -> is_dir (cstr "CHUNK " ++ v) (CHUNK n)
| D_pack : is_dir (cstr "PACK") PACK
| D_end : is_dir (cstr "END") END.

(** The lines of a plan that are directives: not the blank ones, nor a header on
    the first line. *)
Definition is_header (s : list Z) : bool := bytes_eqb (take 8 s) (take 8 (cstr "@LINP:1.0")).

Definition plan_directives (text : list Z) : list (list Z) :=
  match map trim_line (plan_text_lines [] (strz text)) with
  | s :: ss => List.filter (fun s => negb (is_nil s)) ((if is_header s then [] else [s]) ++ ss)
  | [] => []
  end.

Definition short_lines (text : list Z) : Prop := Forall (fun l => (length l < LINP_LINEBUF)%nat) (plan_text_lines [] (strz text)).

Definition jobs (ds : list dir) : list (list Z) := omap (fun d => match d with JOB v => Some v | _ => None end) ds.
Definition files (ds : list dir) : list (list Z) := omap (fun d => match d with FILE v => Some v | _ => None end) ds.
Definition algos (ds : list dir) : list (list Z) := omap (fun d => match d with ALGO v => Some v | _ => None end) ds.
Definition chunks (ds : list dir) : list Z := omap (fun d => match d with CHUNK n => Some n | _ => None end) ds.
Definition packs (ds : list dir) : list unit := omap (fun d => match d with PACK => Some tt | _ => None end) ds.
Definition ends (ds : list dir) : list unit := omap (fun d => match d with END => Some tt | _ => None end) ds.

(** At most one of each so far, the last one the value of the plan. *)
Definition one {A} (l : list A) (x none : A) : Prop := (l = [] /\ x = none) \/ (l = [x] /\ x <> none).

Record gathered (ds : list dir) (p : plan) : Prop := {
  ga_job : one (jobs ds) (g_job p) [];
  ga_file : one (files ds) (g_file p) [];
  ga_algo : one (algos ds) (g_algo p) [];
  ga_chunk : one (chunks ds) (g_chunk p) 0;
  ga_packs : g_packs p = Z.of_nat (length (packs ds)) /\ (length (packs ds) <= 1)%nat;
  ga_ends : complete p = negb (length (ends ds) =? 0)%nat
}.

Lemma die_unless_ok b e u : die_unless b e = Ok u -> b = true.
Proof. by destruct b. Qed.

Lemma after_spec kw s v : after kw s = Some v <-> s = cstr kw ++ v.
Proof.
  unfold after. destruct (bytes_eqb _ _) eqn:E.
  - apply bytes_eqb_eq in E. split; [intros [= <-]|intros ->].
    + rewrite <- E at 1. by rewrite take_drop.
    + f_equal. by rewrite drop_app_length.
  - split; [done|]. intros ->. by rewrite take_app_length, bytes_eqb_refl in E.
Qed.

Lemma algo_id_spec v : is_Some (algo_id v) <-> In v [cstr "deflate"; cstr "gzip"; cstr "brotli"].
Proof.
  unfold algo_id. destruct (bytes_eqb v (cstr "deflate")) eqn:E1; [apply bytes_eqb_eq in E1|apply bytes_eqb_neq in E1].
  { split; [by left|eauto]. }
  destruct (bytes_eqb v (cstr "gzip")) eqn:E2; [apply bytes_eqb_eq in E2|apply bytes_eqb_neq in E2].
  { split; [by right; left|eauto]. }
  destruct (bytes_eqb v (cstr "brotli")) eqn:E3; [apply bytes_eqb_eq in E3|apply bytes_eqb_neq in E3].
  { split; [by right; right; left|eauto]. }
  split; [by intros [? ?]|]. intros [?|[?|[?|[]]]]; congruence.
Qed.

Lemma index_str_some nd l : is_Some (c0_index_str l nd) <-> exists a b, l = a ++ nd ++ b.
Proof.
  assert (forall l, bytes_eqb (take (length nd) l) nd = true -> l = [] ++ nd ++ drop (length nd) l) as Hhere.
  { intros k E%bytes_eqb_eq. rewrite <- E at 1. cbn. by rewrite take_drop. }
  split.
  - induction l as [|c l IH]; cbn [c0_index_str]; destruct (bytes_eqb _ _) eqn:E; eauto; [by intros [? ?]|].
    intros [k Hk]. destruct (c0_index_str l nd); [|done]. destruct IH as (a & b & ->); [eauto|]. by exists (c :: a), b.
  - intros (a & b & ->). induction a as [|c a IH]; cbn [app c0_index_str].
    + assert (bytes_eqb (take (length nd) (nd ++ b)) nd = true) as E by (by rewrite take_app_length, bytes_eqb_refl).
      destruct (nd ++ b); cbn [c0_index_str]; rewrite E; eauto.
    + destruct (bytes_eqb _ _); [eauto|]. destruct IH as [k ->]. eauto.
Qed.

Lemma inside_spec v :
  negb (bool_decide (is_Some (c0_index_str v (cstr ".."))) || bool_decide (head v = Some 47) || is_nil v) = true <-> inside v.
Proof.
  unfold inside, is_nil. rewrite negb_true_iff, !orb_false_iff, !bool_decide_eq_false, Nat.eqb_neq, index_str_some.
  split; [intros [[H1 H2] H3]|intros (H1 & H2 & H3)]; split_and!; try done; try (by intros ->); by destruct v.
Qed.

Lemma nil_spec l : is_nil l = true <-> l = [].
Proof. unfold is_nil. rewrite Nat.eqb_eq. by destruct l. Qed.

Lemma nil_false l : is_nil l = false <-> l <> [].
Proof. rewrite <- not_true_iff_false, nil_spec. done. Qed.

(** *** One more directive *)

Lemma one_first {A} (l : list A) x none y : one l x none -> x = none -> y <> none -> one (l ++ [y]) y none.
Proof. intros [[-> _]|[_ H]] E Hy; [by right|done]. Qed.

Lemma one_full {A} (l : list A) x none y : one l x none -> (length (l ++ [y]) <= 1)%nat -> x = none.
Proof. intros [[_ H]|[-> _]]; [done|]. cbn. lia. Qed.

Record at_most_one (ds : list dir) : Prop := {
  am_job : (length (jobs ds) <= 1)%nat;
  am_file : (length (files ds) <= 1)%nat;
  am_algo : (length (algos ds) <= 1)%nat;
  am_chunk : (length (chunks ds) <= 1)%nat;
  am_packs : (length (packs ds) <= 1)%nat
}.

Lemma gathered_most ds p : gathered ds p -> at_most_one ds.
Proof.
  intros []. assert (forall A (l : list A) x none, one l x none -> (length l <= 1)%nat) as Ho.
  { intros A l x none [[-> _]|[-> _]]; cbn; lia. }
  split; eauto. by destruct ga_packs0.
Qed.

Ltac by_omap := unfold jobs, files, algos, chunks, packs, ends; rewrite omap_app; cbn [omap list_omap app]; rewrite ?app_nil_r.

Lemma gathered_job ds p v : gathered ds p -> one (jobs ds ++ [v]) v [] ->
  gathered (ds ++ [JOB v]) (mkPlan v (g_file p) (g_algo p) (g_chunk p) (g_packs p) (complete p)).
Proof. intros [] H. split; cbn [g_job g_file g_algo g_chunk g_packs complete]; by_omap; done. Qed.
Lemma gathered_file ds p v : gathered ds p -> one (files ds ++ [v]) v [] ->
  gathered (ds ++ [FILE v]) (mkPlan (g_job p) v (g_algo p) (g_chunk p) (g_packs p) (complete p)).
Proof. intros [] H. split; cbn [g_job g_file g_algo g_chunk g_packs complete]; by_omap; done. Qed.
Lemma gathered_algo ds p v : gathered ds p -> one (algos ds ++ [v]) v [] ->
  gathered (ds ++ [ALGO v]) (mkPlan (g_job p) (g_file p) v (g_chunk p) (g_packs p) (complete p)).
Proof. intros [] H. split; cbn [g_job g_file g_algo g_chunk g_packs complete]; by_omap; done. Qed.
Lemma gathered_chunk ds p n : gathered ds p -> one (chunks ds ++ [n]) n 0 ->
  gathered (ds ++ [CHUNK n]) (mkPlan (g_job p) (g_file p) (g_algo p) n (g_packs p) (complete p)).
Proof. intros [] H. split; cbn [g_job g_file g_algo g_chunk g_packs complete]; by_omap; done. Qed.
Lemma gathered_pack ds p : gathered ds p -> packs ds = [] ->
  gathered (ds ++ [PACK]) (mkPlan (g_job p) (g_file p) (g_algo p) (g_chunk p) (g_packs p + 1) (complete p)).
Proof.
  intros [] H. rewrite H in ga_packs0. destruct ga_packs0 as [Hp _]. cbn in Hp.
  split; cbn [g_job g_file g_algo g_chunk g_packs complete]; by_omap; try done. fold (packs ds). rewrite H, Hp. cbn. lia.
Qed.
Lemma gathered_end ds p : gathered ds p ->
  gathered (ds ++ [END]) (mkPlan (g_job p) (g_file p) (g_algo p) (g_chunk p) (g_packs p) true).
Proof.
  intros []. split; cbn [g_job g_file g_algo g_chunk g_packs complete]; by_omap; try done.
  rewrite length_app. cbn [length]. by rewrite Nat.add_1_r.
Qed.

Lemma set_job_ok ds v p : gathered ds p ->
  (forall p', set_job v p = Ok p' -> v <> [] /\ (length v <= 255)%nat /\ gathered (ds ++ [JOB v]) p') /\
  (v <> [] -> (length v <= 255)%nat -> at_most_one (ds ++ [JOB v]) -> is_ok (set_job v p) = true).
Proof.
  intros Hg. unfold set_job. assert (negb (is_nil v || (255 <? length v)%nat) = true <-> v <> [] /\ (length v <= 255)%nat) as Ev.
  { rewrite negb_true_iff, orb_false_iff, nil_false, Nat.ltb_ge. done. }
  split.
  - intros p' E. destruct (is_nil (g_job p)) eqn:Ej; [|done]. apply nil_spec in Ej. cbn [die_unless] in E.
    destruct (negb (is_nil v || _)) eqn:Eb; [|done]. destruct (proj1 Ev eq_refl) as [Hv Hl]. injection E as <-.
    split; [done|]. split; [done|]. apply gathered_job; [done|]. by apply (one_first _ (g_job p)), Hv; [apply Hg|].
  - intros Hv Hl [Ha _ _ _ _]. assert (g_job p = []) as ->.
    { apply (one_full (jobs ds) _ _ v); [apply Hg|]. revert Ha. by_omap. done. }
    cbn [die_unless is_nil length Nat.eqb]. by rewrite (proj2 Ev (conj Hv Hl)).
Qed.

Lemma set_file_ok ds v p : gathered ds p ->
  (forall p', set_file v p = Ok p' -> inside v /\ (length v <= 1023)%nat /\ gathered (ds ++ [FILE v]) p') /\
  (inside v -> (length v <= 1023)%nat -> at_most_one (ds ++ [FILE v]) -> is_ok (set_file v p) = true).
Proof.
  intros Hg. unfold set_file. pose proof (inside_spec v) as Ev. split.
  - intros p' E. destruct (is_nil (g_file p)) eqn:Ej; [|done]. apply nil_spec in Ej. cbn [die_unless] in E.
    destruct (negb (_ || is_nil v)) eqn:Eb; [|done]. pose proof (proj1 Ev eq_refl) as Hv. cbn [die_unless] in E.
    destruct (Nat.ltb_spec 1023 (length v)); [done|]. injection E as <-. split; [done|]. split; [done|].
    apply gathered_file; [done|]. by apply (one_first _ (g_file p)), Hv; [apply Hg|].
  - intros Hv Hl [_ Ha _ _ _]. assert (g_file p = []) as ->.
    { apply (one_full (files ds) _ _ v); [apply Hg|]. revert Ha. by_omap. done. }
    cbn [die_unless is_nil length Nat.eqb]. rewrite (proj2 Ev Hv). cbn [die_unless].
    by destruct (Nat.ltb_spec 1023 (length v)); [lia|].
Qed.

Lemma set_algo_ok ds v p : gathered ds p ->
  (forall p', set_algo v p = Ok p' -> is_Some (algo_id v) /\ gathered (ds ++ [ALGO v]) p') /\
  (is_Some (algo_id v) -> at_most_one (ds ++ [ALGO v]) -> is_ok (set_algo v p) = true).
Proof.
  intros Hg. unfold set_algo. split.
  - intros p' E. destruct (is_nil (g_algo p)) eqn:Ej; [|done]. apply nil_spec in Ej. cbn [die_unless] in E.
    case_bool_decide as Hv; [|done]. injection E as <-. split; [done|]. apply gathered_algo; [done|].
    apply (one_first _ (g_algo p)); [apply Hg|done|]. intros ->. by destruct Hv.
  - intros Hv [_ _ Ha _ _]. assert (g_algo p = []) as ->.
    { apply (one_full (algos ds) _ _ v); [apply Hg|]. revert Ha. by_omap. done. }
    cbn [die_unless is_nil length Nat.eqb]. by rewrite bool_decide_true.
Qed.

Lemma set_chunk_ok ds v p : gathered ds p ->
  (forall p', set_chunk v p = Ok p' -> exists n, strtol v = (n, []) /\ 64 <= n <= 1800000 /\ gathered (ds ++ [CHUNK n]) p') /\
  (forall n, strtol v = (n, []) -> 64 <= n <= 1800000 -> at_most_one (ds ++ [CHUNK n]) -> is_ok (set_chunk v p) = true).
Proof.
  intros Hg. unfold set_chunk. destruct (strtol v) as [n rest].
  assert (negb (negb (is_nil rest) || (n <? 64) || (1800000 <? n)) = true <-> rest = [] /\ 64 <= n <= 1800000) as Ev.
  { rewrite negb_true_iff, !orb_false_iff, negb_false_iff, nil_spec, !Z.ltb_ge. tauto. }
  split.
  - intros p' E. destruct (Z.eqb_spec (g_chunk p) 0) as [Ej|]; [|done]. cbn [die_unless] in E.
    destruct (negb (_ || _)) eqn:Eb; [|done]. destruct (proj1 Ev eq_refl) as [-> Hn]. injection E as <-.
    exists n. split; [done|]. split; [done|]. apply gathered_chunk; [done|].
    apply (one_first _ (g_chunk p)); [apply Hg|done|lia].
  - intros n' [= <- ->] Hn [_ _ _ Ha _]. assert (g_chunk p = 0) as ->.
    { apply (one_full (chunks ds) _ _ n); [apply Hg|]. revert Ha. by_omap. done. }
    cbn [die_unless Z.eqb]. by rewrite (proj2 Ev (conj eq_refl Hn)).
Qed.

Lemma directive_sound ds s p p' : gathered ds p -> directive s p = Ok p' -> exists d, is_dir s d /\ gathered (ds ++ [d]) p'.
Proof.
  intros Hg. unfold directive.
  destruct (after "JOB " s) as [v|] eqn:E1.
  { apply after_spec in E1 as ->. intros (H1 & H2 & H3)%(set_job_ok ds v p Hg). exists (JOB v). split; [by constructor|done]. }
  destruct (after "FILE " s) as [v|] eqn:E2.
  { apply after_spec in E2 as ->. intros (H1 & H2 & H3)%(set_file_ok ds v p Hg). exists (FILE v). split; [by constructor|done]. }
  destruct (after "ALGO " s) as [v|] eqn:E3.
  { apply after_spec in E3 as ->. intros (H1 & H3)%(set_algo_ok ds v p Hg). exists (ALGO v).
    split; [by constructor; apply algo_id_spec|done]. }
  destruct (after "CHUNK " s) as [v|] eqn:E4.
  { apply after_spec in E4 as ->. intros (n & H1 & H2 & H3)%(set_chunk_ok ds v p Hg). exists (CHUNK n). split; [by constructor|done]. }
  destruct (bytes_eqb s (cstr "PACK")) eqn:E5.
  { apply bytes_eqb_eq in E5 as ->. cbn [g_packs]. destruct (Z.ltb_spec 1 (g_packs p + 1)); [done|]. intros [= <-].
    exists PACK. split; [constructor|]. apply gathered_pack; [done|]. destruct (ga_packs _ _ Hg) as [Hp _].
    destruct (packs ds); [done|]. cbn in Hp. lia. }
  destruct (bytes_eqb s (cstr "END")) eqn:E6; [|done]. apply bytes_eqb_eq in E6 as ->. intros [= <-].
  exists END. split; [constructor|by apply gathered_end].
Qed.

Lemma directive_complete ds s d p : gathered ds p -> is_dir s d -> at_most_one (ds ++ [d]) -> is_ok (directive s p) = true.
Proof.
  intros Hg Hd Ha. destruct Hd as [v H1 H2|v H1 H2|v H1|v n H1 H2| |]; unfold directive.
  - rewrite (proj2 (after_spec "JOB " _ v) eq_refl). by apply (set_job_ok ds).
  - change (after "JOB " (cstr "FILE " ++ v)) with (@None (list Z)). rewrite (proj2 (after_spec "FILE " _ v) eq_refl).
    by apply (set_file_ok ds).
  - change (after "JOB " (cstr "ALGO " ++ v)) with (@None (list Z)). change (after "FILE " (cstr "ALGO " ++ v)) with (@None (list Z)).
    rewrite (proj2 (after_spec "ALGO " _ v) eq_refl). apply (set_algo_ok ds); [done|by apply algo_id_spec|done].
  - change (after "JOB " (cstr "CHUNK " ++ v)) with (@None (list Z)). change (after "FILE " (cstr "CHUNK " ++ v)) with (@None (list Z)).
    change (after "ALGO " (cstr "CHUNK " ++ v)) with (@None (list Z)). rewrite (proj2 (after_spec "CHUNK " _ v) eq_refl).
    by apply (proj2 (set_chunk_ok ds v p Hg) n).
  - cbn. destruct (ga_packs _ _ Hg) as [-> _]. destruct Ha as [_ _ _ _ Ha]. revert Ha. by_omap. rewrite length_app. cbn [length].
    fold (packs ds). intros Ha. by destruct (Z.ltb_spec 1 (Z.of_nat (length (packs ds)) + 1)); [lia|].
  - done.
Qed.

(** *** All the lines *)

Lemma plan_line_cases n l p : (length l < LINP_LINEBUF)%nat -> plan_line n l p =
  if is_nil (trim_line l) || ((n =? 1) && is_header (trim_line l)) then Ok p else directive (trim_line l) p.
Proof.
  intros Hl. unfold plan_line. rewrite (proj2 (Nat.ltb_lt _ _) Hl). cbn [die_unless].
  destruct (is_nil (trim_line l)); [done|]. cbn [orb]. unfold is_header. by destruct (_ && _).
Qed.

(** The directives of the lines from the [n]-th on. *)
Definition directives_from (n : Z) (ls : list (list Z)) : list (list Z) :=
  match map trim_line ls with
  | s :: ss => List.filter (fun s => negb (is_nil s)) ((if (n =? 1) && is_header s then [] else [s]) ++ ss)
  | [] => []
  end.

Lemma directives_cons n l ls : 1 <= n -> directives_from n (l :: ls) =
  (if is_nil (trim_line l) || ((n =? 1) && is_header (trim_line l)) then [] else [trim_line l]) ++ directives_from (n + 1) ls.
Proof.
  intros Hn. unfold directives_from. cbn [map]. rewrite List.filter_app.
  assert (List.filter (fun s => negb (is_nil s)) (map trim_line ls) =
    match map trim_line ls with
    | [] => []
    | s :: ss => List.filter (fun s => negb (is_nil s)) ((if (n + 1 =? 1) && is_header s then [] else [s]) ++ ss)
    end) as ->.
  { destruct (map trim_line ls) as [|s ss]; [done|]. destruct (Z.eqb_spec (n + 1) 1); [lia|done]. }
  f_equal. destruct ((n =? 1) && is_header (trim_line l)); [by rewrite orb_true_r|]. rewrite orb_false_r. cbn.
  by destruct (is_nil (trim_line l)).
Qed.

Lemma plan_lines_sound ls : forall n p p' ds, 1 <= n -> gathered ds p -> plan_lines n ls p = Ok p' ->
  Forall (fun l => (length l < LINP_LINEBUF)%nat) ls /\
  exists es, Forall2 is_dir (directives_from n ls) es /\ gathered (ds ++ es) p'.
Proof.
  induction ls as [|l ls IH]; intros n p p' ds Hn Hg; cbn [plan_lines].
  - intros [= <-]. split; [constructor|]. exists []. rewrite app_nil_r. by split; [constructor|].
  - destruct (decide (length l < LINP_LINEBUF)%nat) as [Hl|Hl].
    2:{ unfold plan_line. by rewrite (proj2 (Nat.ltb_ge _ _)) by lia. }
    rewrite plan_line_cases, directives_cons by done.
    destruct (is_nil (trim_line l) || _).
    + intros E. apply (IH (n + 1) p p' ds) in E as [Hf H]; [|lia|done]. split; [by constructor|done].
    + destruct (directive (trim_line l) p) as [q|] eqn:E; [|done]. apply (directive_sound ds) in E as (d & Hd & Hq); [|done].
      intros E. apply (IH (n + 1) q p' (ds ++ [d])) in E as [Hf (es & He & H)]; [|lia|done]. split; [by constructor|].
      exists (d :: es). split; [by constructor|]. by rewrite <- app_assoc in H.
Qed.

Lemma at_most_prefix ds es : at_most_one (ds ++ es) -> at_most_one ds.
Proof.
  unfold jobs, files, algos, chunks, packs. intros [H1 H2 H3 H4 H5]. unfold jobs, files, algos, chunks, packs in *.
  rewrite omap_app, length_app in H1. rewrite omap_app, length_app in H2. rewrite omap_app, length_app in H3.
  rewrite omap_app, length_app in H4. rewrite omap_app, length_app in H5. split; unfold jobs, files, algos, chunks, packs; lia.
Qed.

Lemma is_dir_fun s d d' : is_dir s d -> is_dir s d' -> d = d'.
Proof.
  intros H1 H2. destruct H1; inversion H2; subst; congruence.
Qed.

Lemma plan_lines_complete ls : forall n p ds es, 1 <= n -> gathered ds p ->
  Forall (fun l => (length l < LINP_LINEBUF)%nat) ls -> Forall2 is_dir (directives_from n ls) es -> at_most_one (ds ++ es) ->
  exists p', plan_lines n ls p = Ok p' /\ gathered (ds ++ es) p'.
Proof.
  induction ls as [|l ls IH]; intros n p ds es Hn Hg Hf He Ha; cbn [plan_lines].
  - inversion He. rewrite app_nil_r. by exists p.
  - apply Forall_cons_1 in Hf as [Hl Hf]. rewrite plan_line_cases by done. rewrite directives_cons in He by done.
    destruct (is_nil (trim_line l) || _); cbn [app] in He; [by apply (IH (n + 1)); [lia|..]|].
    apply Forall2_cons_inv_l in He as (d & es' & Hd & He & ->).
    change (d :: es') with ([d] ++ es') in *. rewrite app_assoc in Ha. pose proof (at_most_prefix _ _ Ha) as Ha'.
    pose proof (directive_complete ds _ d p Hg Hd Ha') as Ho. destruct (directive (trim_line l) p) as [q|] eqn:E; [|done].
    destruct (directive_sound ds _ p q Hg E) as (d' & Hd' & Hq).
    assert (d' = d) as ->.
    { by eapply is_dir_fun. }
    rewrite app_assoc. apply (IH (n + 1)); [lia|done..].
Qed.

Lemma gathered_nil : gathered [] plan0.
Proof. split; try (by left); [cbn; lia|done]. Qed.

Lemma one_Some {A} (l : list A) x none : one l x none -> x <> none -> l = [x].
Proof. by intros [[_ H]|[H _]]. Qed.

Lemma one_get {A} (l : list A) x y none : one l x none -> l = [y] -> x = y /\ x <> none.
Proof. intros [[-> _]|[-> H]] E; [done|]. by injection E as ->. Qed.

(** Whether all the directives are there. *)
Definition whole (p : plan) : bool :=
  negb (is_nil (g_job p) || is_nil (g_file p) || is_nil (g_algo p) || (g_chunk p =? 0) || negb (g_packs p =? 1) || negb (complete p)).

Lemma whole_spec p : whole p = true <->
  g_job p <> [] /\ g_file p <> [] /\ g_algo p <> [] /\ g_chunk p <> 0 /\ g_packs p = 1 /\ complete p = true.
Proof.
  unfold whole. rewrite negb_true_iff, !orb_false_iff, !negb_false_iff, !nil_false, Z.eqb_neq, Z.eqb_eq. tauto.
Qed.

Lemma directives_first text : plan_directives text = directives_from 1 (plan_text_lines [] (strz text)).
Proof. unfold plan_directives, directives_from. by destruct (map trim_line _). Qed.

Lemma parse_plan_unfold text : parse_plan text =
  let* p := plan_lines 1 (plan_text_lines [] (strz text)) plan0 in let* _ := die_unless (whole p) LINP_INCOMPLETE in Ok p.
Proof. done. Qed.

Lemma parse_plan_iff text p : parse_plan text = Ok p <->
  short_lines text /\ exists ds, Forall2 is_dir (plan_directives text) ds /\
    jobs ds = [g_job p] /\ files ds = [g_file p] /\ algos ds = [g_algo p] /\ chunks ds = [g_chunk p] /\
    length (packs ds) = 1%nat /\ ends ds <> [] /\ g_packs p = 1 /\ complete p = true.
Proof.
  rewrite parse_plan_unfold, directives_first. unfold short_lines. set (ls := plan_text_lines [] (strz text)). split.
  - destruct (plan_lines 1 ls plan0) as [q|] eqn:E; [|done].
    apply (plan_lines_sound ls 1 plan0 q []) in E as [Hs (ds & Hd & Hg)]; [|done|apply gathered_nil]. cbn [app] in Hg.
    destruct (whole q) eqn:Ew; [|done]. intros [= <-]. apply whole_spec in Ew as (W1 & W2 & W3 & W4 & W5 & W6).
    destruct Hg as [G1 G2 G3 G4 [G5 _] G6]. split; [done|]. exists ds. split; [done|].
    split_and!; eauto using one_Some; [lia|]. intros He. by rewrite He, W6 in G6.
  - intros [Hs (ds & Hd & Hj & Hf & Ha & Hc & Hp & He & Hk & Hm)].
    destruct (plan_lines_complete ls 1 plan0 [] ds) as (q & -> & Hg); [done|apply gathered_nil|done..| |].
    { cbn [app]. split; rewrite ?Hj, ?Hf, ?Ha, ?Hc, ?Hp; done. }
    cbn [app] in Hg. destruct Hg as [G1 G2 G3 G4 [G5 _] G6].
    destruct (one_get _ _ _ _ G1 Hj), (one_get _ _ _ _ G2 Hf), (one_get _ _ _ _ G3 Ha), (one_get _ _ _ _ G4 Hc).
    assert (g_packs q = 1) by lia. assert (complete q = true) by (rewrite G6; by destruct (ends ds)).
    assert (whole q = true) as Ew by (by apply whole_spec). rewrite Ew. cbn [die_unless]. f_equal.
    destruct p, q. cbn in *. congruence.
Qed.

(** C13. A plan is accepted exactly when its lines are shorter than 2048 bytes
    and are directives, blank lines and a header on the first line apart: one JOB, one
    FILE inside the repository, one ALGO of the three known, one CHUNK within its
    bounds, one PACK and some END, in any order; the plan has their values. *)
Theorem parse_plan_correct text p : parse_plan text = Ok p <->
  short_lines text /\ exists ds, Forall2 is_dir (plan_directives text) ds /\
    jobs ds = [g_job p] /\ files ds = [g_file p] /\ algos ds = [g_algo p] /\ chunks ds = [g_chunk p] /\
    length (packs ds) = 1%nat /\ ends ds <> [] /\ g_packs p = 1 /\ complete p = true.
Proof. exact (parse_plan_iff text p). Qed.

(** What the limits of an accepted plan are. *)
Record plan_ok (p : plan) : Prop := {
  pk_job : g_job p <> [] /\ (length (g_job p) <= 255)%nat;
  pk_file : inside (g_file p) /\ (length (g_file p) <= 1023)%nat;
  pk_algo : In (g_algo p) [cstr "deflate"; cstr "gzip"; cstr "brotli"];
  pk_chunk : 64 <= g_chunk p <= 1800000
}.

Lemma parse_plan_ok text p : parse_plan text = Ok p -> plan_ok p.
Proof.
  intros (_ & ds & Hd & Hj & Hf & Ha & Hc & _)%parse_plan_iff.
  assert (forall d, d ∈ ds -> exists s, is_dir s d) as Hin.
  { intros d Hdd. apply list_elem_of_lookup_1 in Hdd as [i Hi]. destruct (Forall2_lookup_r _ _ _ _ _ Hd Hi) as (s & _ & Hs). by exists s. }
  assert (forall A (f : dir -> option A) x, omap f ds = [x] -> exists d s, is_dir s d /\ f d = Some x) as Hget.
  { intros A f x E. assert (x ∈ omap f ds) as Hx by (rewrite E; by left). apply list_elem_of_omap in Hx as (d & Hdd & Hfd).
    destruct (Hin d Hdd) as [s Hs]. by exists d, s. }
  apply Hget in Hj as (dj & sj & Hdj & Ej), Hf as (df & sf & Hdf & Ef), Ha as (da & sa & Hda & Ea), Hc as (dc & sc & Hdc & Ec).
  split; [destruct Hdj|destruct Hdf|destruct Hda|destruct Hdc]; simplify_eq; done.
Qed.

(** ** The bytecode *)

Local Abbreviation bad := LIN_BC1_ERR_SECTION.

(** A job: the number of its algorithm, its chunk, its name and its file. *)
Definition job_decode : P (Z * Z * list Z * list Z) :=
  magic ← rd_view 9 bad;
  _ ← ensure (bytes_eqb magic (cstr "LNP1" ++ [1; 0; 0; 1; 0])) bad;
  aid ← rd_u8 bad;
  z ← rd_u8 bad;
  _ ← ensure (z =? 0) bad;
  chunk ← rd_u32 bad;
  two ← rd_u16 bad;
  _ ← ensure (two =? 2) bad;
  jn ← rd_u16 bad;
  job ← rd_view jn bad;
  fn ← rd_u16 bad;
  file ← rd_view fn bad;
  mret (aid, chunk, job, file).

Lemma linp_w16_le v : linp_w16 v = le_bytes 2 v.
Proof. unfold linp_w16. rewrite !land_255, shiftr_8 by lia. cbn [le_bytes]. unfold u8. by rewrite !Z.mod_mod by done. Qed.

Lemma linp_w32_le v : linp_w32 v = le_bytes 4 v.
Proof.
  unfold linp_w32. rewrite !land_255, !shiftr_8 by lia. cbn [le_bytes]. unfold u8. rewrite !Z.mod_mod by done.
  by rewrite !Z.div_div by lia.
Qed.

Lemma decodes_text (l : list Z) : (length l <= 1023)%nat -> forall B (f : list Z -> P B) bs y, decodes (f l) bs y ->
  decodes (n ← rd_u16 bad; x ← rd_view n bad; f x) (linp_w16 (u16 (Z.of_nat (length l))) ++ l ++ bs) y.
Proof.
  intros Hl B f bs y Hf. assert (u16 (Z.of_nat (length l)) = Z.of_nat (length l)) as -> by (unfold u16; apply Z.mod_small; unfold two16; lia).
  rewrite linp_w16_le. eapply decodes_bind; [apply decodes_u16; unfold two16; lia|].
  eapply decodes_bind; [apply decodes_view|done].
Qed.

Lemma decodes_job p : plan_ok p ->
  decodes job_decode (bytecode p) (default 0 (algo_id (g_algo p)), g_chunk p, g_job p, g_file p).
Proof.
  intros [[_ Hj] [_ Hf] _ Hc]. unfold job_decode, bytecode.
  change (cstr "LNP1" ++ [1] ++ linp_w16 0 ++ linp_w16 1 ++ ?k) with ((cstr "LNP1" ++ [1; 0; 0; 1; 0]) ++ k).
  eapply decodes_bind; [apply (decodes_view bad (cstr "LNP1" ++ [1; 0; 0; 1; 0]))|].
  eapply decodes_then; [apply decodes_ensure; done|]. eapply decodes_bind; [apply decodes_u8|].
  eapply decodes_bind; [apply decodes_u8|]. eapply decodes_then; [apply decodes_ensure; done|].
  assert (u32 (g_chunk p) = g_chunk p) as -> by (apply u32_id; unfold in_u32, two32; lia).
  rewrite linp_w32_le. eapply decodes_bind; [apply decodes_u32; unfold in_u32, two32; lia|].
  rewrite (linp_w16_le 2). eapply decodes_bind; [apply decodes_u16; unfold two16; lia|].
  eapply decodes_then; [apply decodes_ensure; done|]. apply decodes_text; [lia|].
  rewrite <- (app_nil_r (g_file p)) at 2. apply decodes_text; [lia|]. apply decodes_ret.
Qed.

Lemma bytecode_length p : plan_ok p -> (length (bytecode p) <= 1299)%nat.
Proof.
  intros [[_ Hj] [_ Hf] _ _]. unfold bytecode. rewrite !length_app.
  assert (forall v, length (linp_w16 v) = 2%nat) as H2 by done. assert (forall v, length (linp_w32 v) = 4%nat) as H4 by done.
  rewrite !H2, H4. change (length (cstr "LNP1")) with 4%nat. cbn [length]. lia.
Qed.

(** The bytecode of an accepted plan fits its buffer of 8192 bytes and gives
    back, to its last byte, the algorithm, the chunk, the job and the file. *)
Theorem bytecode_roundtrip text p (Hp : parse_plan text = Ok p) :
  (length (bytecode p) <= 1299)%nat /\
  exists aid, algo_id (g_algo p) = Some aid /\ job_decode (bytecode p) = Ok ((aid, g_chunk p, g_job p, g_file p), []).
Proof.
  apply parse_plan_ok in Hp. split; [by apply bytecode_length|]. pose proof (pk_algo p Hp) as Ha. apply algo_id_spec in Ha as [aid Ha].
  exists aid. split; [done|]. rewrite <- (app_nil_r (bytecode p)), (decodes_job p Hp []), Ha. done.
Qed.

Lemma bytecode_roundtrip_witness : exists p, parse_plan demo_plan = Ok p /\ (length (bytecode p) <= 1299)%nat /\
  exists aid, algo_id (g_algo p) = Some aid /\ job_decode (bytecode p) = Ok ((aid, g_chunk p, g_job p, g_file p), []).
Proof.
  exists (mkPlan (cstr "demo") (cstr "input.html") (cstr "deflate") 64 1 true).
  assert (parse_plan demo_plan = Ok (mkPlan (cstr "demo") (cstr "input.html") (cstr "deflate") 64 1 true)) as E
    by (vm_compute; reflexivity).
  split; [exact E|]. exact (bytecode_roundtrip demo_plan _ E).
Defined.
