(* ===== verification/LinpOut.v ===== *)
(** * Packing jobs: the pieces, the texts and the files

    The pieces of a payload put together are the payload; quoted texts are read
    back; and whatever the system answers, what is written is the beginning of
    the same list of files. *)
From stdpp Require Import strings.
From S2P Require Import Prelude Common Token Str Decimal Sha256 Sys C0Lex C0LexSpec Linbc1 Encode Linp LinpSpec.

(** ** Pieces *)

Lemma concat_slices {A} (c n : nat) (l : list A) :
  concat (map (fun i => take c (drop (i * c) l)) (seq 0 n)) = take (n * c) l.
Proof.
  induction n as [|n IH]; [done|]. rewrite seq_S, map_app, concat_app, IH. cbn [map concat Nat.add]. rewrite app_nil_r.
  replace (S n * c)%nat with (n * c + c)%nat by lia. by rewrite <- take_take_drop.
Qed.

Section Pieces.
Context (chunk : Z) (pay : list Z) (Hc : 0 < chunk).

Lemma piece_eq i : (Z.of_nat i * chunk <= Z.of_nat (length pay)) ->
  piece chunk pay i = take (Z.to_nat chunk) (drop (i * Z.to_nat chunk) pay).
Proof.
  intros Hi. unfold piece. replace (Z.to_nat (Z.of_nat i * chunk)) with (i * Z.to_nat chunk)%nat by lia.
  destruct (Z.min_spec (Z.of_nat i * chunk + chunk) (Z.of_nat (length pay))) as [[H ->]|[H ->]].
  - f_equal. lia.
  - rewrite !take_ge; rewrite ?length_drop; [done|lia..].
Qed.

Lemma total_bounds : 0 <= total_disks chunk pay /\
  (total_disks chunk pay - 1) * chunk < Z.of_nat (length pay) \/ length pay = 0%nat.
Proof.
  unfold total_disks. set (n := Z.of_nat (length pay)). pose proof (Z.mul_div_le (n + chunk - 1) chunk Hc).
  destruct (decide (length pay = 0%nat)); [by right|left]. assert (0 < n) by (unfold n; lia).
  split; [apply Z.div_pos; lia|]. nia.
Qed.

Lemma total_covers : Z.of_nat (length pay) <= total_disks chunk pay * chunk.
Proof.
  unfold total_disks. set (n := Z.of_nat (length pay)). pose proof (Z.mul_succ_div_gt (n + chunk - 1) chunk Hc). nia.
Qed.

Lemma pieces_spec : pay <> [] ->
  concat (pieces chunk pay) = pay /\ Forall (fun s => 1 <= Z.of_nat (length s) <= chunk) (pieces chunk pay) /\
  Z.of_nat (length (pieces chunk pay)) = total_disks chunk pay.
Proof.
  intros Hp. destruct total_bounds as [[H0 H1]|H0]; [|by destruct pay]. pose proof total_covers as H2.
  unfold pieces. set (k := Z.to_nat (total_disks chunk pay)) in *.
  assert (forall i, In i (seq 0 k) -> Z.of_nat i * chunk < Z.of_nat (length pay)) as Hi.
  { intros i Hi%in_seq. nia. }
  assert (map (piece chunk pay) (seq 0 k) = map (fun i => take (Z.to_nat chunk) (drop (i * Z.to_nat chunk) pay)) (seq 0 k)) as ->.
  { apply map_ext_in. intros i Hin. apply piece_eq. specialize (Hi i Hin). lia. }
  split; [|split].
  - rewrite concat_slices. apply take_ge. nia.
  - apply Forall_map, List.Forall_forall. intros i Hin. specialize (Hi i Hin). rewrite length_take, length_drop. nia.
  - rewrite length_map, length_seq. lia.
Qed.
End Pieces.

(** ** Quoted texts *)

(** A string in double quotes, up to its closing quote: one-letter escapes, [\u]
    with four hexadecimal digits, [\x] with two; a code point is a byte. *)
Fixpoint quoted_body (l : list Z) : option (list Z * list Z) :=
  match l with
  | [] => None
  | c :: l1 =>
      if c =? 34 then Some ([], l1)
      else if c =? 92 then
        match l1 with
        | [] => None
        | e :: l2 =>
            let keep d l := (fun r => (d :: fst r, snd r)) <$> quoted_body l in
            if (e =? 34) || (e =? 92) then keep e l2
            else if e =? 110 then keep 10 l2
            else if e =? 114 then keep 13 l2
            else if e =? 116 then keep 9 l2
            else if e =? 117 then
              match l2 with
              | _ :: _ :: a :: b :: l3 => keep (unhex a * 16 + unhex b) l3
              | _ => None
              end
            else if e =? 120 then
              match l2 with
              | a :: b :: l3 => keep (unhex a * 16 + unhex b) l3
              | _ => None
              end
            else None
        end
      else (fun r => (c :: fst r, snd r)) <$> quoted_body l1
  end.

Definition read_quoted (l : list Z) : option (list Z * list Z) :=
  match l with c :: l => if c =? 34 then quoted_body l else None | [] => None end.

Definition keep (d : Z) (l : list Z) : option (list Z * list Z) := (fun r => (d :: fst r, snd r)) <$> quoted_body l.

Lemma hex2_back c : 0 <= c < 256 -> exists a b, hex2 c = [a; b] /\ unhex a * 16 + unhex b = c.
Proof.
  intros Hc. exists (hexd (Z.shiftr c 4)), (hexd (Z.land c 15)). split; [done|].
  change 15 with (Z.ones 4). rewrite Z.land_ones, Z.shiftr_div_pow2 by lia. change (2 ^ 4) with 16.
  rewrite !unhex_hexd by (Z.div_mod_to_equations; lia). Z.div_mod_to_equations. lia.
Qed.

Lemma json_byte_read c l : 0 <= c < 256 -> quoted_body (json_byte c ++ l) = keep c l.
Proof.
  intros Hc. unfold json_byte.
  repeat match goal with |- context [if ?x =? ?y then _ else _] => destruct (Z.eqb_spec x y) as [->|?]; [done|] end.
  destruct (c <? 32).
  - destruct (hex2_back c Hc) as (a & b & -> & E). change ((cstr "\u00" ++ [a; b]) ++ l) with (92 :: 117 :: 48 :: 48 :: a :: b :: l).
    cbn [quoted_body Z.eqb Pos.eqb orb]. by rewrite E.
  - cbn [app quoted_body]. by rewrite (proj2 (Z.eqb_neq c 34)), (proj2 (Z.eqb_neq c 92)).
Qed.

Lemma go_byte_read c l : 0 <= c < 256 -> quoted_body (go_byte c ++ l) = keep c l.
Proof.
  intros Hc. unfold go_byte.
  do 5 (match goal with |- context [if ?x =? ?y then _ else _] => destruct (Z.eqb_spec x y) as [->|?]; [done|] end).
  destruct ((c <? 32) || (c =? 127)).
  - destruct (hex2_back c Hc) as (a & b & -> & E). change ((cstr "\x" ++ [a; b]) ++ l) with (92 :: 120 :: a :: b :: l).
    cbn [quoted_body Z.eqb Pos.eqb orb]. by rewrite E.
  - cbn [app quoted_body]. by rewrite (proj2 (Z.eqb_neq c 34)), (proj2 (Z.eqb_neq c 92)).
Qed.

Lemma quoted_read (f : Z -> list Z) s k : (forall c l, 0 <= c < 256 -> quoted_body (f c ++ l) = keep c l) -> bytes_wf s ->
  read_quoted (([34] ++ concat (map f s) ++ [34]) ++ k) = Some (s, k).
Proof.
  intros Hf Hs. cbn [app read_quoted Z.eqb Pos.eqb]. induction Hs as [|c s Hc Hs IH]; cbn [map concat app]; [done|].
  rewrite <- !app_assoc. rewrite Hf by done. unfold keep. rewrite <- app_assoc in IH. by rewrite IH.
Qed.

(** Whatever bytes a name has, and whatever follows it in the file, the
    quoted texts of the manifests and of the receipt end where they should and
    give the name back. *)
Theorem quoted_roundtrip s k (Hs : bytes_wf s) :
  read_quoted (json_str s ++ k) = Some (s, k) /\ read_quoted (go_quote s ++ k) = Some (s, k).
Proof. split; apply quoted_read; auto using json_byte_read, go_byte_read. Qed.

Lemma quoted_roundtrip_witness : let s := map Z.of_nat (seq 0 256) in
  read_quoted (json_str s ++ [44]) = Some (s, [44]) /\ read_quoted (go_quote s ++ [44]) = Some (s, [44]).
Proof. apply (quoted_roundtrip (map Z.of_nat (seq 0 256)) [44]). apply bytes_wfb_wf. vm_compute. reflexivity. Defined.

(** ** Disks *)

(** A job that is not refused: a good plan, and a payload that makes at most 65536
    pieces. *)
Record job_ok (p : plan) (pay : list Z) : Prop := {
  jk_plan : plan_ok p;
  jk_pay : pay <> [];
  jk_len : Z.of_nat (length pay) < PAYLOAD_MAX;
  jk_total : 1 <= total_disks (g_chunk p) pay <= DISKS_MAX
}.

Lemma read_all_length f cap l : read_all f cap = Some l -> Z.of_nat (length l) < cap.
Proof. unfold read_all. destruct f; [|done]. case_match eqn:E; [done|]. intros [= <-]. by apply Z.leb_gt. Qed.

Lemma rstrip_length P l : (length (rstrip P l) <= length l)%nat.
Proof. unfold rstrip. rewrite length_rev, length_drop, length_rev. lia. Qed.

Lemma read_payload_ok f pay : read_payload f = Ok pay -> pay <> [] /\ Z.of_nat (length pay) < PAYLOAD_MAX.
Proof.
  unfold read_payload. destruct (read_all f PAYLOAD_MAX) as [l|] eqn:E; [|done]. apply read_all_length in E.
  destruct (is_nil _) eqn:En; [done|]. intros [= <-]. apply nil_false in En. split; [done|].
  pose proof (rstrip_length (fun c => (c =? 10) || (c =? 13)) l). lia.
Qed.

Lemma prepare_ok argv3 argv4 f1 f2 p orig comp pay : prepare argv3 argv4 f1 f2 = Ok (p, orig, comp, pay) -> job_ok p pay.
Proof.
  unfold prepare. destruct (size_arg argv3 _); [|done]. destruct (size_arg argv4 _); [|done].
  destruct (read_all f1 _) as [text|]; [|done]. destruct (parse_plan text) as [q|] eqn:Hq; [|done].
  destruct (read_payload f2) as [l|] eqn:Hl; [|done]. intros [= <- _ _ <-].
  apply parse_plan_ok in Hq. apply read_payload_ok in Hl as [Hn Hl]. split; [done..|].
  pose proof (pk_chunk q Hq) as Hc. unfold total_disks, DISKS_MAX. unfold PAYLOAD_MAX in Hl.
  assert (0 < Z.of_nat (length l)) by (destruct l; [done|cbn [length]; lia]). split.
  - apply Z.div_le_lower_bound; lia.
  - apply Z.lt_succ_r, Z.div_lt_upper_bound; nia.
Qed.

(** The text before the first [c] and the text after it. *)
Fixpoint cut (c : Z) (l : list Z) : option (list Z * list Z) :=
  match l with
  | [] => None
  | x :: l => if x =? c then Some ([], l) else (fun r => (x :: fst r, snd r)) <$> cut c l
  end.

Lemma cut_app c a k : ~ c ∈ a -> cut c (a ++ c :: k) = Some (a, k).
Proof.
  induction a as [|x a IH]; intros Ha; cbn [app cut]; [by rewrite Z.eqb_refl|].
  rewrite (proj2 (Z.eqb_neq x c)), IH; [done| |]; intros ?; apply Ha; [by right|subst; by left].
Qed.

(** What a disk says: the format, the algorithm, its number, the hash of its
    piece, the hash of the payload, the piece. *)
Record disk : Type := mkDisk { d_format : list Z; d_algo : list Z; d_label : list Z; d_hash : list Z; d_root : list Z; d_body : list Z }.

Definition read_disk (t : list Z) : option disk :=
  '(f, t) ← cut 59 t; '(a, t) ← cut 59 t; '(n, t) ← cut 59 t; '(h, t) ← cut 59 t; '(r, body) ← cut 59 t;
  Some (mkDisk f a n h r body).

Definition label (i : nat) (total : Z) : list Z := cstr "[" ++ fmt_u64 (Z.of_nat i + 1) ++ cstr "/" ++ fmt_u64 total ++ cstr "]".

Section Disks.
Context {C : Type} `{StreamHash C}.

(** The piece on disk [i] of [total], its number and its two hashes checked. *)
Definition check_disk (root : list Z) (total : Z) (i : nat) (t : list Z) : option (list Z) :=
  d ← read_disk t;
  if bytes_eqb (d_label d) (label i total) && bytes_eqb (d_hash d) (hash_hex (d_body d)) && bytes_eqb (d_root d) root
  then Some (d_body d) else None.

(** The payload of some disks. *)
Definition reassemble (root : list Z) (ts : list (list Z)) : option (list Z) :=
  bodies ← mapM id (imap (check_disk root (Z.of_nat (length ts))) ts);
  if bytes_eqb (hash_hex (concat bodies)) root then Some (concat bodies) else None.

Context {digest : list Z -> list Z} `{!StreamHashLaws C digest}.

Lemma hash_hex_digest m : hash_hex m = lin_sha256_hex (digest m).
Proof. unfold hash_hex. f_equal. pose proof (sh_concat [m]) as E. cbn in E. rewrite app_nil_r in E. exact E. Qed.

Lemma hexd_not_semicolon n : 0 <= n < 16 -> hexd n <> 59.
Proof.
  intros Hn. rewrite <- (Z2Nat.id n) by lia. assert (Z.to_nat n < 16)%nat as Hk by lia. revert Hk.
  generalize (Z.to_nat n) as k. clear. intros k Hk. do 16 (destruct k as [|k]; [done|]). lia.
Qed.

Lemma hex_no_semicolon d : bytes_wf d -> ~ 59 ∈ lin_sha256_hex d.
Proof.
  induction 1 as [|b d Hb _ IH]; [by intros ?%elem_of_nil|].
  assert (lin_sha256_hex (b :: d) = hexd (Z.shiftr b 4) :: hexd (Z.land b 15) :: lin_sha256_hex d) as -> by done.
  unfold in_u8, two8 in Hb. change 15 with (Z.ones 4). rewrite Z.land_ones, Z.shiftr_div_pow2 by lia. change (2 ^ 4) with 16.
  intros [E|[E|?]%elem_of_cons]%elem_of_cons; [| |done]; symmetry in E; apply hexd_not_semicolon in E; try done;
    Z.div_mod_to_equations; lia.
Qed.

Lemma hash_no_semicolon m : ~ 59 ∈ hash_hex m.
Proof. rewrite hash_hex_digest. apply hex_no_semicolon, (sh_bytes m). Qed.

Lemma hash_hex_inj m1 m2 : hash_hex m1 = hash_hex m2 -> m1 = m2 \/ collision digest.
Proof.
  rewrite !hash_hex_digest. intros E. apply digest_inj.
  assert (forall m, unhex_bytes (lin_sha256_hex (digest m)) = digest m) as Hd by (intros; apply lin_sha256_hex_inv, sh_bytes).
  by rewrite <- (Hd m1), <- (Hd m2), E.
Qed.

Lemma digits_not l c : forallb is_digit l = true -> is_digit c = false -> ~ c ∈ l.
Proof. intros Hl Hc Hin. apply forallb_forall with (x := c) in Hl; [congruence|by apply list_elem_of_In]. Qed.

Lemma label_no_semicolon i total : in_u64 (Z.of_nat i + 1) -> in_u64 total -> ~ 59 ∈ label i total.
Proof.
  intros Hi Ht. unfold label. rewrite !elem_of_app. destruct (fmt_u64_spec _ Hi) as (_ & Di & _), (fmt_u64_spec _ Ht) as (_ & Dt & _).
  assert (forall x, x <> 59 -> ~ 59 ∈ [x]) as H1 by (intros x Hx ?%list_elem_of_singleton; congruence).
  intros [E|[E|[E|[E|E]]]]; revert E; [by apply H1|by apply digits_not|by apply H1|by apply digits_not|by apply H1].
Qed.

Lemma read_disk_text p total root i s : plan_ok p -> in_u64 (Z.of_nat i + 1) -> in_u64 total -> ~ 59 ∈ root ->
  read_disk (disk_text p total root i s) = Some (mkDisk (cstr "v2") (g_algo p) (label i total) (hash_hex s) root (strz s)).
Proof.
  intros Hp Hi Ht Hr.
  assert (~ 59 ∈ g_algo p) as Ha.
  { destruct (pk_algo p Hp) as [<-|[<-|[<-|[]]]]; rewrite list_elem_of_In; cbn; intuition discriminate. }
  change (read_disk (cstr "v2" ++ 59 :: g_algo p ++ 59 :: cstr "[" ++ fmt_u64 (Z.of_nat i + 1) ++ cstr "/" ++ fmt_u64 total ++ cstr "]" ++
    59 :: hash_hex s ++ 59 :: root ++ 59 :: strz s) = Some (mkDisk (cstr "v2") (g_algo p) (label i total) (hash_hex s) root (strz s))).
  assert (forall k, cstr "[" ++ fmt_u64 (Z.of_nat i + 1) ++ cstr "/" ++ fmt_u64 total ++ cstr "]" ++ k = label i total ++ k) as ->
    by (intros; unfold label; by rewrite <- !app_assoc).
  unfold read_disk. rewrite cut_app by (rewrite list_elem_of_In; cbn; intuition discriminate). cbn [mbind option_bind].
  rewrite cut_app by done. cbn [mbind option_bind].
  rewrite cut_app by (by apply label_no_semicolon). cbn [mbind option_bind].
  rewrite cut_app by apply hash_no_semicolon. cbn [mbind option_bind]. by rewrite cut_app.
Qed.

Lemma piece_no_nul chunk pay s : 0 < chunk -> pay <> [] -> ~ 0 ∈ pay -> s ∈ pieces chunk pay -> strz s = s.
Proof.
  intros Hc Hp H0 Hs. apply strz_id, Forall_forall. intros x Hx ->. apply H0.
  destruct (pieces_spec chunk pay Hc Hp) as (<- & _). apply list_elem_of_In, in_concat. exists s. split; [by apply list_elem_of_In|done].
Qed.

Lemma mapM_id_Some {A} (l : list A) : mapM id (map Some l) = Some l.
Proof. induction l as [|x l IH]; [done|]. cbn in *. by rewrite IH. Qed.

Definition disk_texts (p : plan) (pay : list Z) : list (list Z) :=
  imap (disk_text p (total_disks (g_chunk p) pay) (hash_hex pay)) (pieces (g_chunk p) pay).

Lemma reassemble_disks p pay : job_ok p pay -> ~ 0 ∈ pay -> reassemble (hash_hex pay) (disk_texts p pay) = Some pay.
Proof.
  intros [Hp Hn Hl Ht] H0. pose proof (pk_chunk p Hp) as Hc. unfold reassemble, disk_texts. rewrite length_imap.
  destruct (pieces_spec (g_chunk p) pay) as (Hcat & _ & Hlen); [lia|done|]. rewrite Hlen.
  assert (imap (check_disk (hash_hex pay) (total_disks (g_chunk p) pay))
            (imap (disk_text p (total_disks (g_chunk p) pay) (hash_hex pay)) (pieces (g_chunk p) pay)) =
          map Some (pieces (g_chunk p) pay)) as ->.
  { apply list_eq. intros i. rewrite !list_lookup_imap. change (map Some ?l) with (Some <$> l). rewrite list_lookup_fmap.
    destruct (pieces (g_chunk p) pay !! i) as [s|] eqn:E; [|done]. cbn [fmap option_fmap option_map]. f_equal.
    pose proof (lookup_lt_Some _ _ _ E) as Hi. unfold DISKS_MAX in Ht. unfold check_disk.
    rewrite read_disk_text; [|done|unfold in_u64, two64; lia|unfold in_u64, two64; lia|apply hash_no_semicolon].
    cbn [mbind option_bind d_label d_hash d_root d_body].
    rewrite (piece_no_nul (g_chunk p) pay s) by (by eauto using list_elem_of_lookup_2 with lia). by rewrite !bytes_eqb_refl. }
  rewrite mapM_id_Some. cbn [mbind option_bind]. by rewrite Hcat, bytes_eqb_refl.
Qed.

Lemma reassemble_root root ts q : reassemble root ts = Some q -> hash_hex q = root.
Proof.
  unfold reassemble. intros (bodies & _ & E)%bind_Some. destruct (bytes_eqb _ _) eqn:Eb; [|done]. injection E as <-.
  by apply bytes_eqb_eq in Eb.
Qed.

Lemma disks_of_files p orig comp source pay :
  map snd (take (length (pieces (g_chunk p) pay)) (other_files p orig comp source pay)) = disk_texts p pay.
Proof.
  unfold other_files. rewrite take_app_le by (by rewrite length_imap). rewrite take_ge by (by rewrite length_imap).
  unfold disk_texts. change (map snd ?l) with (snd <$> l). by rewrite fmap_imap.
Qed.
End Disks.

(** C14. The disks of a job, read in order with their numbers and hashes checked,
    give the payload, if no byte of it is zero; and no other disks that pass the checks
    against the root of the manifests give another payload, but for a collision
    of the hash. *)
Theorem disks_reassemble {C} `{StreamHash C} (digest : list Z -> list Z) (HL : StreamHashLaws C digest)
    argv3 argv4 f1 f2 p orig comp pay source (Hp : prepare argv3 argv4 f1 f2 = Ok (p, orig, comp, pay)) :
  (~ 0 ∈ pay -> reassemble (hash_hex pay)
    (map snd (take (length (pieces (g_chunk p) pay)) (other_files p orig comp source pay))) = Some pay) /\
  forall ts q, reassemble (hash_hex pay) ts = Some q -> q = pay \/ collision digest.
Proof.
  apply prepare_ok in Hp. rewrite disks_of_files. split; [by apply reassemble_disks|].
  intros ts q Hq%reassemble_root. by apply hash_hex_inj.
Qed.

Lemma demo_prepare : prepare (cstr "599") (cstr "110") (Some demo_plan) (Some demo_pay) =
  Ok (mkPlan (cstr "demo") (cstr "input.html") (cstr "deflate") 64 1 true, 599, 110, demo_pay).
Proof. vm_compute. reflexivity. Qed.

Lemma disks_reassemble_witness : let p := mkPlan (cstr "demo") (cstr "input.html") (cstr "deflate") 64 1 true in
  (~ 0 ∈ demo_pay -> @reassemble LinSha256 _ (@hash_hex LinSha256 _ demo_pay)
    (map snd (take (length (pieces 64 demo_pay)) (@other_files LinSha256 _ p 599 110 demo_plan demo_pay))) = Some demo_pay) /\
  forall ts q, @reassemble LinSha256 _ (@hash_hex LinSha256 _ demo_pay) ts = Some q -> q = demo_pay \/ collision sha256_spec.
Proof. exact (disks_reassemble sha256_spec LinSha256_laws _ _ _ _ _ _ _ _ demo_plan demo_prepare). Defined.

(** With a zero byte in the payload, the text of a disk stops there and its hash
    does not. *)
Lemma nul_payload_truncated : let pay := cstr "abc" ++ [0] ++ cstr "def" in
  exists p, prepare (cstr "7") (cstr "7") (Some demo_plan) (Some pay) = Ok (p, 7, 7, pay) /\
    d_body <$> (@disk_texts LinSha256 _ p pay !! 0%nat ≫= read_disk) = Some (cstr "abc") /\
    @reassemble LinSha256 _ (@hash_hex LinSha256 _ pay) (disk_texts p pay) = None.
Proof. eexists. split; [vm_compute; reflexivity|]. split; vm_compute; reflexivity. Qed.

(** ** The whole program *)

Lemma pad2_val n : in_u64 n -> dec_val 0 (pad2 n) = n.
Proof. intros Hn. pose proof (proj1 (fmt_u64_spec n Hn)) as E. unfold pad2. destruct (n <? 10); exact E. Qed.

Lemma disk_name_inj i j : in_u64 (Z.of_nat i + 1) -> in_u64 (Z.of_nat j + 1) -> disk_name i = disk_name j -> i = j.
Proof.
  intros Hi Hj E. unfold disk_name in E. apply app_inv_head, app_inv_tail in E.
  pose proof (pad2_val _ Hi). pose proof (pad2_val _ Hj). rewrite E in *. lia.
Qed.

Definition job_files {C} `{StreamHash C} (p : plan) (orig comp : Z) (source pay : list Z) : list (list Z * list Z) :=
  (cstr "job.linpbc", bytecode p) :: other_files p orig comp source pay.

Lemma job_names {C} `{StreamHash C} p orig comp source pay : job_ok p pay -> NoDup (map fst (job_files p orig comp source pay)).
Proof.
  intros [Hp Hn Hl Ht]. pose proof (pk_chunk p Hp) as Hc. destruct (pieces_spec (g_chunk p) pay) as (_ & _ & Hlen); [lia|done|].
  unfold job_files, other_files. cbn [map fst]. rewrite map_app. change (map fst (imap ?f ?l)) with (fst <$> imap f l). rewrite fmap_imap.
  cbn [map fst]. set (ds := imap _ _).
  assert (forall x, x ∈ ds -> exists i, x = disk_name i) as Hds.
  { intros x (i & Hi)%list_elem_of_lookup_1. unfold ds in Hi. rewrite list_lookup_imap in Hi. apply fmap_Some in Hi as (s & _ & ->). by exists i. }
  apply list.NoDup_cons. split.
  { intros [[i E]%Hds|E]%elem_of_app; [done|]. apply list_elem_of_In in E. vm_compute in E. intuition discriminate. }
  apply list.NoDup_app. split_and!.
  - apply list.NoDup_alt. intros i j x Hi Hj. unfold ds in *. rewrite list_lookup_imap in Hi, Hj.
    apply fmap_Some in Hi as (s & Hi%lookup_lt_Some & ->), Hj as (s' & Hj%lookup_lt_Some & E). cbn in E. unfold DISKS_MAX in Ht.
    apply disk_name_inj in E; [done|unfold in_u64, two64; lia..].
  - intros x [i ->]%Hds E. apply list_elem_of_In in E. cbn in E. intuition discriminate.
  - repeat constructor; rewrite list_elem_of_In; vm_compute; intuition discriminate.
Qed.

Lemma write_files_prefix `{Env} fs : forall t e w, write_files fs t = (e, w) ->
  (e = None /\ w = fs) \/ (e = Some LINP_OPEN /\ exists rest, rest <> [] /\ fs = w ++ rest /\ exists t, io_ok t = false).
Proof.
  induction fs as [|f fs IH]; intros t e w E; cbn in E; [injection E as <- <-; by left|].
  destruct (io_ok t) eqn:Et.
  - destruct (write_files fs (S t)) as [e' w'] eqn:Ew. injection E as <- <-.
    destruct (IH _ _ _ Ew) as [[-> ->]|[-> (rest & Hr & -> & Ht)]]; [by left|right]. split; [done|]. by exists rest.
  - injection E as <- <-. right. split; [done|]. exists (f :: fs). split; [done|]. split; [done|]. by exists t.
Qed.

