(* ===== verification/Cli.v ===== *)
(** * tool/lin_c0.c: the commands of the compiler host

    A command is a function of its arguments, of the files it reads and of what
    the allocator and the system answer: [ran] is what it prints, on both
    streams, its status and the file it writes.  [argv] has the whole command
    line, the program first; texts are C strings, without their NUL.  The machine's
    fuel is an argument, as in [vm_exec]; [MStuck] is the model out of fuel, or an
    access C leaves undefined. *)
From stdpp Require Import strings.
From S2P Require Import Prelude Common Str Decimal Region Abi Vm Sha256 Linbc1 Encode Sys C0Lex C0Comp C0Build C0Scan C0Check C0Lint.

Record ran : Type := mkRan {
  out_text : list Z;
  err_text : list Z;
  status : Z;
  written : option (list Z * list Z)
}.

(** A record, and its status; a complaint. *)
Definition answer (t : list Z) (rc : Z) : Mem ran := mret (mkRan t [] rc None).
Definition complain (t : list Z) : Mem ran := mret (mkRan [] (t ++ [10]) 1 None).

(** The value of a C function that can return NULL. *)
Definition or_null {A} (f : Mem A) : Mem (option A) := fun m =>
  match f m with
  | Val x m => Val (Some x) m
  | Null m => Val None m
  | MStuck => MStuck
  end.

Definition quote (s : list Z) : list Z := [34] ++ s ++ [34].

Definition C0_VERSION : list Z := cstr "lin_c0 1.0.0 (LINVM-1 host, C11, no Zig)".
Definition C0_HOST_LINE : list Z :=
  qstr ".host{ engine='C11-lin_c0' zig=false profile=LINVM-1 opcodes=33 step_limit=200000000 overflow=wrapping }".
Definition C0_OPCODE_COUNT : Z := 33.

Section Commands.
Context `{Env}.
Context (fs : list Z -> option (list Z)).

Definition try_malloc : Mem bool := fun m => let '(ok, m) := c0_malloc m in Val ok m.

(** ** Files *)

(** The capacity and the bytes read of a file of [len] bytes.  When [realloc]
    fails the capacity is already doubled, and the NUL goes one byte past the
    buffer. *)
Fixpoint read_loop (fuel : nat) (cap used len : Z) : Mem (Z * Z) :=
  match fuel with
  | O => mstuck
  | S fuel =>
      let turn cap :=
        let n := Z.min (cap - used) (len - used) in
        if n =? 0 then mret (cap, used) else read_loop fuel cap (used + n) len in
      if used =? cap then
        if SIZE_MAX / 2 <? cap then mret (cap, used)
        else ok ← try_malloc; if ok : bool then turn (cap * 2) else mstuck
      else turn cap
  end.

Definition read_file (path : list Z) : Mem (option (list Z)) :=
  match fs path with
  | None => mret None
  | Some l =>
      ok ← try_malloc;
      if ok : bool then
        '(cap, used) ← read_loop 128 65536 0 (Z.of_nat (length l));
        mret (Some (if used <? cap then take (Z.to_nat used) l else take (Z.to_nat (cap - 1)) l ++ [0]))
      else mret None
  end.

(** ** Arguments and names *)

Definition hex64 (d : list Z) : list Z := lin_sha256_hex d.

Definition vm_err_code (e : LinErr) : list Z :=
  let n := cstr (lin_err_name (Some e)) in
  if bytes_eqb (take 6 n) (cstr "error.") then drop 6 n else n.

Definition mod_find_fn (m : VmModule) (name : list Z) : Z := find_fn 0 (fns m) name.

Fixpoint parse_args (cap : nat) (args : list (list Z)) : option (list Z) :=
  match args with
  | [] => Some []
  | a :: args =>
      match cap with
      | O => None
      | S cap =>
          if (length a =? 0)%nat then None
          else
            match strtoll a with
            | Some (v, []) => vs ← parse_args cap args; Some (v :: vs)
            | _ => None
            end
      end
  end.

Definition arg (argv : list (list Z)) (i : nat) : list Z := default [] (argv !! i).

(** ** check and lint *)

Definition cmd_check (argv : list (list Z)) : Mem ran :=
  if (length argv <? 3)%nat then complain (cstr "usage: lin_c0 check <file.lin>")
  else
    src ← read_file (arg argv 2);
    match src with
    | None => complain (cstr "check: cannot open " ++ arg argv 2)
    | Some src =>
        infos ← or_null (c0_parse_fn_infos src);
        let infos := default [] infos in
        valid ← c0_syntax_valid src;
        if negb valid then complain (cstr "LIN_PARSE")
        else
          err ← c0_type_check infos;
          match err with
          | Some e => complain (strz e)
          | None =>
              rulel ← c0_check_rulel src infos;
              match rulel with
              | None => complain (cstr "check: out of memory")
              | Some t => answer (strz t) 0
              end
          end
    end.

Definition cmd_lint (argv : list (list Z)) : Mem ran :=
  if (length argv <? 3)%nat then complain (cstr "usage: lin_c0 lint <file.lin>")
  else
    src ← read_file (arg argv 2);
    match src with
    | None => complain (cstr "lint: cannot open " ++ arg argv 2)
    | Some src =>
        rulel ← c0_lint src;
        match rulel with
        | None => complain (cstr "lint: out of memory")
        | Some t => answer (strz t ++ [10]) 0
        end
    end.

(** ** Running a module *)

(** [vm_exec] with its frame store: the value or the error, and the steps. *)
Definition exec (fuel : nat) (m : VmModule) (fi : Z) (args : list Z) : Mem (res LinErr VmExecResult * Z) :=
  ok ← try_malloc;
  match vm_exec fuel m ok fi args 0 0 with
  | Some (V_ok r steps) => mret (Ok r, steps)
  | Some (V_err e steps) => mret (Err e, steps)
  | Some V_ub | None => mstuck
  end.

Definition run_head : list Z := cstr "@RULEL:LIN_VM_RUN:1.0.0" ++ [10].

Definition run_error (fn : list Z) (e : LinErr) (steps : Z) : list Z :=
  run_head ++ cstr ".error{ fn=" ++ quote fn ++ cstr " code=" ++ quote (vm_err_code e) ++ cstr " steps=" ++ fmt_u64 steps ++ cstr " }" ++ [10].

Definition run_result (fn : list Z) (r : VmExecResult) (steps : Z) : list Z :=
  run_head ++ cstr ".result{ fn=" ++ quote fn ++ cstr " value=" ++ fmt_i64 (val r) ++ cstr " steps=" ++ fmt_u64 steps ++ cstr " }" ++ [10].

Definition fn_at (m : VmModule) (fi : Z) : VmFn := default (mkFn [] 0 0 [] false false [] []) (fns m !! Z.to_nat fi).

Definition count_ok (l : list VmFn) : nat := length (List.filter ok l).

Definition fn_line (f : VmFn) : list Z :=
  cstr "  .fn{ name=" ++ quote (fn_name f) ++ cstr " params=" ++ fmt_u64 (Z.of_nat (nparams f)) ++
  (if ok f then
     cstr " status=OK locals=" ++ fmt_u64 (Z.of_nat (nlocals f)) ++ cstr " code=" ++ fmt_u64 (Z.of_nat (length (code f)))
   else cstr " status=REJECTED reason=" ++ quote (reject f)) ++ cstr " }" ++ [10].

Definition print_coverage (m : VmModule) : list Z :=
  let total := Z.of_nat (length (fns m)) in
  let eligible := Z.of_nat (count_ok (fns m)) in
  cstr "@RULEL:LIN_VM:1.0.0" ++ [10] ++ C0_HOST_LINE ++ [10] ++
  cstr ".engine{ opcodes=" ++ fmt_i64 C0_OPCODE_COUNT ++ cstr " overflow=wrapping shifts=lia_compatible step_limit=" ++
  fmt_u64 LIN_VM_STEP_LIMIT ++ cstr " }" ++ [10] ++
  cstr ".coverage{ total=" ++ fmt_u64 total ++ cstr " eligible=" ++ fmt_u64 eligible ++
  cstr " rejected=" ++ fmt_u64 (total - eligible) ++ cstr " }" ++ [10] ++
  cstr ".fns{" ++ [10] ++ concat (map fn_line (fns m)) ++ cstr "}" ++ [10].

Definition file_error (head path code : list Z) : list Z :=
  head ++ cstr ".error{ file=" ++ quote path ++ cstr " code=" ++ quote code ++ cstr " }" ++ [10].

(** [info], [vm] and, with shifts, [vmfull]. *)
Definition cmd_vm (fuel : nat) (full : bool) (argv : list (list Z)) : Mem ran :=
  let head := cstr "@RULEL:LIN_VM:1.0.0" ++ [10] ++ C0_HOST_LINE ++ [10] in
  if (length argv <? 3)%nat then complain (cstr "usage: lin_c0 vm|vmfull <file.lin> [fn] [int args...]")
  else
    let path := arg argv 2 in
    src ← read_file path;
    match src with
    | None => answer (file_error head path (cstr "C0_READ_FAILED")) 1
    | Some src =>
        md ← or_null (if full then c0_build_full src else c0_build src);
        match md with
        | None => answer (file_error head path (cstr "C0_BUILD_FAILED")) 1
        | Some md =>
            if (length argv <? 4)%nat then answer (print_coverage md) 0
            else
              let fi := mod_find_fn md (arg argv 3) in
              if fi <? 0 then complain (cstr "vm: unknown function: " ++ arg argv 3)
              else
                let f := fn_at md fi in
                if negb (ok f) then
                  answer (run_head ++ cstr ".refused{ fn=" ++ quote (fn_name f) ++ cstr " reason=" ++ quote (reject f) ++ cstr " }" ++ [10]) 1
                else
                  match parse_args 64 (drop 4 argv) with
                  | None => complain (cstr "vm: bad integer argument")
                  | Some args =>
                      '(r, steps) ← exec fuel md fi args;
                      match r with
                      | Err e => answer (run_error (fn_name f) e steps) 1
                      | Ok r => answer (run_result (fn_name f) r steps) 0
                      end
                  end
        end
    end.

(** ** Images *)

Section Images.
Context (realloc_ok : nat -> bool).

(** The last [-o] that has an argument. *)
Fixpoint out_path (args : list (list Z)) (r : option (list Z)) : option (list Z) :=
  match args with
  | a :: args =>
      match args with
      | p :: args' => if bytes_eqb a (cstr "-o") then out_path args' (Some p) else out_path args r
      | [] => r
      end
  | [] => r
  end.

Definition image_head : list Z := cstr "@RULEL:LIN_BC1_IMAGE:1.0.0" ++ [10].

Definition image_record (md : VmModule) (img : list Z) : list Z :=
  let digest := lin_sha256 img in
  image_head ++ cstr ".image{ bytes=" ++ fmt_u64 (Z.of_nat (length img)) ++ cstr " fns=" ++ fmt_u64 (Z.of_nat (length (fns md))) ++
  cstr " ins=" ++ fmt_u64 (Z.of_nat (sum_list_with (fun f => length (code f)) (fns md))) ++
  cstr " profile=1 fold=" ++ fmt_i64 (lin_bc1_fold_digest digest) ++ cstr " sha256=" ++ hex64 digest ++
  cstr " img=" ++ quote (hex64 digest) ++ cstr " }" ++ [10].

(** The first function that is not executable. *)
Definition refused_record (md : VmModule) (err : list Z) : list Z :=
  let '(fn, why) := match List.find (fun f => negb (ok f)) (fns md) with Some f => (fn_name f, reject f) | None => ([], []) end in
  image_head ++ cstr ".refused{ reason=" ++ quote err ++ cstr " fn=" ++ quote fn ++ cstr " detail=" ++ quote why ++ cstr " }" ++ [10].

(** Writing [-o]: the file may not open, or take the first bytes only. *)
Definition write_image_file (path : list Z) (text img : list Z) : Mem ran := fun m =>
  let t := m_clock m in
  let m := mkMem (t + 2) (m_used m) (m_cap m) in
  if negb (io_ok t) then Val (mkRan text (cstr "image: cannot write " ++ path ++ [10]) 1 None) m
  else if negb (io_ok (t + 1)) then
    Val (mkRan text (cstr "image: short write " ++ path ++ [10]) 1 (Some (path, take (io_count (t + 1)) img))) m
  else Val (mkRan text [] 0 (Some (path, img))) m.

Definition cmd_image (argv : list (list Z)) : Mem ran :=
  if (length argv <? 3)%nat then complain (cstr "usage: lin_c0 image <file.lin> [-o out.linbc]")
  else
    let path := arg argv 2 in
    src ← read_file path;
    match src with
    | None => answer (file_error image_head path (cstr "C0_READ_FAILED")) 1
    | Some src =>
        md ← or_null (c0_build src);
        match md with
        | None => answer (file_error image_head path (cstr "C0_BUILD_FAILED")) 1
        | Some md =>
            match c0_image_encode (C := LinSha256) realloc_ok md with
            | Err err => answer (refused_record md (cstr err)) 1
            | Ok img =>
                let text := image_record md img in
                match out_path (drop 3 argv) None with
                | None => answer text 0
                | Some p => write_image_file p text img
                end
            end
        end
    end.

Definition cmd_run (fuel : nat) (argv : list (list Z)) : Mem ran :=
  if (length argv <? 4)%nat then complain (cstr "usage: lin_c0 run <img.linbc> <fn> [int args...]")
  else
    let path := arg argv 2 in
    img ← read_file path;
    match img with
    | None => answer (file_error run_head path (cstr "C0_READ_FAILED")) 1
    | Some img =>
        match lin_bc1_load (C := LinSha256) img with
        | Err le =>
            answer (run_head ++ cstr ".refused{ image=" ++ quote path ++ cstr " reason=" ++
                    quote (cstr "LINBC1_" ++ cstr (lin_bc1_err_name (Some le))) ++ cstr " }" ++ [10]) 1
        | Ok vm =>
            let fi := lin_bc1_find_fn vm (arg argv 3) in
            if fi <? 0 then complain (cstr "run: unknown function: " ++ arg argv 3)
            else
              match parse_args 64 (drop 4 argv) with
              | None => complain (cstr "run: bad integer argument")
              | Some args =>
                  '(r, steps) ← exec fuel (b_mod vm) fi args;
                  match r with
                  | Err e => answer (run_error (arg argv 3) e steps) 1
                  | Ok r => answer (run_result (arg argv 3) r steps) 0
                  end
              end
        end
    end.

(** ** Source against image *)

Definition trip_head : list Z := cstr "@RULEL:LIN_ROUNDTRIP:1.0.0" ++ [10].
Definition divergence (why : list Z) : list Z :=
  trip_head ++ cstr ".verdict{ status=" ++ quote (cstr "DIVERGENCE") ++ why ++ cstr " }" ++ [10].

(** The source ran to [s] in [s_steps], the image to [i] in [i_steps]. *)
Definition trip_verdict (fn : list Z) (s : VmExecResult) (s_steps : Z) (i : VmExecResult) (i_steps : Z) (img : list Z) : Mem ran :=
  if (val s =? val i) && (s_steps =? i_steps) && (sp_at_ret s =? sp_at_ret i)%nat then
    answer (trip_head ++ cstr ".verdict{ status=" ++ quote (cstr "CONSENSUS") ++ cstr " fn=" ++ quote fn ++
            cstr " value=" ++ fmt_i64 (val s) ++ cstr " steps=" ++ fmt_u64 s_steps ++ cstr " sp=" ++ fmt_u64 (Z.of_nat (sp_at_ret s)) ++
            cstr " image_bytes=" ++ fmt_u64 (Z.of_nat (length img)) ++ cstr " img=" ++ quote (hex64 (lin_sha256 img)) ++ cstr " }" ++ [10]) 0
  else
    answer (divergence (cstr " fn=" ++ quote fn ++ cstr " source_value=" ++ fmt_i64 (val s) ++ cstr " source_steps=" ++ fmt_u64 s_steps ++
            cstr " image_value=" ++ fmt_i64 (val i) ++ cstr " image_steps=" ++ fmt_u64 i_steps ++
            cstr " source_sp=" ++ fmt_u64 (Z.of_nat (sp_at_ret s)) ++ cstr " image_sp=" ++ fmt_u64 (Z.of_nat (sp_at_ret i)))) 1.

(** The image route, after the source ran. *)
Definition trip_image (fuel : nat) (md : VmModule) (fn : list Z) (args : list Z) (s : VmExecResult) (s_steps : Z) : Mem ran :=
  match c0_image_encode (C := LinSha256) realloc_ok md with
  | Err err => answer (trip_head ++ cstr ".refused{ reason=" ++ quote (cstr err) ++ cstr " }" ++ [10]) 1
  | Ok img =>
      match lin_bc1_load (C := LinSha256) img with
      | Err le =>
          answer (divergence (cstr " why=" ++ quote (cstr "loader_rejected") ++ cstr " reason=" ++
                              quote (cstr "LINBC1_" ++ cstr (lin_bc1_err_name (Some le))))) 1
      | Ok vm =>
          let fi_img := lin_bc1_find_fn vm fn in
          if fi_img <? 0 then answer (divergence (cstr " why=" ++ quote (cstr "fn_missing"))) 1
          else
            '(i, i_steps) ← exec fuel (b_mod vm) fi_img args;
            match i with
            | Err e => answer (divergence (cstr " why=" ++ quote (cstr "image_error") ++ cstr " code=" ++ quote (vm_err_code e))) 1
            | Ok i => trip_verdict fn s s_steps i i_steps img
            end
      end
  end.

Definition cmd_roundtrip (fuel : nat) (argv : list (list Z)) : Mem ran :=
  if (length argv <? 4)%nat then complain (cstr "usage: lin_c0 roundtrip <file.lin> <fn> [int args...]")
  else
    let path := arg argv 2 in
    src ← read_file path;
    match src with
    | None => answer (file_error trip_head path (cstr "C0_READ_FAILED")) 1
    | Some src =>
        md ← or_null (c0_build src);
        match md with
        | None => answer (file_error trip_head path (cstr "C0_BUILD_FAILED")) 1
        | Some md =>
            let fi := mod_find_fn md (arg argv 3) in
            if fi <? 0 then complain (cstr "roundtrip: unknown function: " ++ arg argv 3)
            else
              let f := fn_at md fi in
              if negb (ok f) then
                answer (trip_head ++ cstr ".refused{ fn=" ++ quote (fn_name f) ++ cstr " reason=" ++ quote (reject f) ++ cstr " }" ++ [10]) 1
              else
                match parse_args 64 (drop 4 argv) with
                | None => complain (cstr "roundtrip: bad integer argument")
                | Some args =>
                    '(s, s_steps) ← exec fuel md fi args;
                    match s with
                    | Err e =>
                        answer (trip_head ++ cstr ".error{ fn=" ++ quote (arg argv 3) ++ cstr " code=" ++ quote (vm_err_code e) ++
                                cstr " steps=" ++ fmt_u64 s_steps ++ cstr " }" ++ [10]) 1
                    | Ok s => trip_image fuel md (arg argv 3) args s s_steps
                    end
                end
        end
    end.
End Images.
End Commands.
