(* ===== verification/CliReceipt.v ===== *)
(** * tool/lin_c0.c: compute receipts

    [receipt create] runs an expression of [x] on the machine and prints what it
    computed with a hash of it; [receipt verify] reads such a text, of either form,
    and recomputes the hash.  [sscanf] is modelled for the directives the program
    uses. *)
From stdpp Require Import strings.
From S2P Require Import Prelude Common Token Ast Parse Str Decimal Region Abi Vm Lower Sha256 Sys C0Lex Cli.

(** ** sscanf *)

(** [%lld], [%llu], [%02x], a text of [n] bytes at most without double quotes, a
    white space and another character. *)
Inductive fmt : Type :=
| F_i64
| F_u64
| F_x2
| F_text (n : nat)
| F_blank
| F_char (c : Z).

Inductive scanned : Type :=
| S_num (v : Z)
| S_text (s : list Z).

Definition skip_blanks (s : list Z) : list Z := drop (run_length is_space s) s.

(** An optional sign, then digits. *)
Definition scan_sign (s : list Z) : bool * list Z :=
  match s with
  | c :: r => if c =? 45 then (true, r) else if c =? 43 then (false, r) else (false, s)
  | [] => (false, s)
  end.

(** [strtoull]: a negative number wraps, one too large saturates. *)
Definition strtoull (s : list Z) : option (Z * list Z) :=
  let '(neg, r) := scan_sign (skip_blanks s) in
  let n := run_length is_digit r in
  if (n =? 0)%nat then None
  else
    let v := dec_val 0 (take n r) in
    Some (if two64 - 1 <? v then two64 - 1 else if neg then u64 (- v) else v, drop n r).

Definition hex_digit (c : Z) : option Z :=
  if in_range 48 57 c then Some (c - 48)
  else if in_range 97 102 c then Some (c - 87)
  else if in_range 65 70 c then Some (c - 55)
  else None.

Definition is_hex (c : Z) : bool := bool_decide (is_Some (hex_digit c)).

(** At most two characters after the blanks: a sign counts, and [0x] alone is no
    number. *)
Definition scan_x2 (s : list Z) : option (Z * list Z) :=
  let s := skip_blanks s in
  let '(neg, r) := scan_sign s in
  let width := if (length r <? length s)%nat then 1%nat else 2%nat in
  let digits := take (run_length is_hex (take width r)) r in
  if (length digits =? 0)%nat then None
  else if (length digits =? 1)%nat && (width =? 2)%nat && bytes_eqb (take 1 r) [48] &&
          (bool_decide (r !! 1%nat = Some 120) || bool_decide (r !! 1%nat = Some 88)) then None
  else
    let v := fold_left (fun v c => v * 16 + default 0 (hex_digit c)) digits 0 in
    Some (u32 (if neg then - v else v), drop (length digits) r).

(** What is assigned, in order. *)
Fixpoint sscanf (s : list Z) (fs : list fmt) : list scanned :=
  match fs with
  | [] => []
  | F_blank :: fs => sscanf (skip_blanks s) fs
  | F_char c :: fs =>
      match s with
      | d :: s => if c =? d then sscanf s fs else []
      | [] => []
      end
  | F_i64 :: fs => match strtoll s with Some (v, s) => S_num v :: sscanf s fs | None => [] end
  | F_u64 :: fs => match strtoull s with Some (v, s) => S_num v :: sscanf s fs | None => [] end
  | F_x2 :: fs => match scan_x2 s with Some (v, s) => S_num v :: sscanf s fs | None => [] end
  | F_text n :: fs =>
      let k := run_length (fun c => negb (c =? 34)) (take n s) in
      if (k =? 0)%nat then [] else S_text (take k s) :: sscanf (drop k s) fs
  end.

(** A format without conversions. *)
Definition lit (s : list Z) : list fmt := map (fun c => if is_space c then F_blank else F_char c) s.

Definition first_num (r : list scanned) (old : Z) : Z := match r with S_num v :: _ => v | _ => old end.
Definition first_text (r : list scanned) (old : list Z) : list Z := match r with S_text s :: _ => s | _ => old end.

(** ** create *)

Record create_opts : Type := mkOpts { source_code : list Z; input_val : Z; target_dev : list Z; export_json : bool }.

(** An option without its argument is skipped, and so is an unknown word;
    [strtoll] without digits gives 0. *)
Fixpoint create_args (args : list (list Z)) (o : create_opts) : create_opts :=
  match args with
  | [] => o
  | a :: args =>
      match args with
      | [] => o
      | v :: rest =>
          if bytes_eqb a (cstr "--source") then create_args rest (mkOpts v (input_val o) (target_dev o) (export_json o))
          else if bytes_eqb a (cstr "--input") then
            create_args rest (mkOpts (source_code o) (default 0 (fst <$> strtoll v)) (target_dev o) (export_json o))
          else if bytes_eqb a (cstr "--device") then create_args rest (mkOpts (source_code o) (input_val o) v (export_json o))
          else if bytes_eqb a (cstr "--format") || bytes_eqb a (cstr "--export") then
            create_args rest (mkOpts (source_code o) (input_val o) (target_dev o) (export_json o || bytes_eqb v (cstr "json")))
          else create_args args o
      end
  end.

Definition default_opts : create_opts := mkOpts (cstr "return x * x;") 9 (cstr "linvm_cpu") false.

Definition is_gap (c : Z) : bool := (c =? 32) || (c =? 9) || (c =? 10) || (c =? 13).

(** The expression: a leading return and trailing semicolons and blanks go; what
    is past 511 bytes goes first. *)
Definition expr_clean (source : list Z) : list Z :=
  let e := drop (run_length is_gap source) source in
  let e := if bytes_eqb (take 7 e) (cstr "return ") then drop 7 e else e in
  let e := take 511 e in
  rev (drop (run_length (fun c => (c =? 59) || is_gap c) (rev e)) (rev e)).

Definition entry_fn (c : LoweredCode) : VmFn := mkFn (cstr "entry") 1 1 c true true [] [].

(** The 64 bytes that are hashed. *)
Definition receipt_leaf (digest : list Z) (out steps sp inp : Z) : list Z :=
  digest ++ le_bytes 8 (u64 out) ++ le_bytes 8 steps ++ le_bytes 8 sp ++ le_bytes 8 (u64 inp).

Record compute : Type := mkCompute { c_out : Z; c_steps : Z; c_sp : Z }.

(** What stops it: a stage and an error. *)
Inductive create_err : Type := CE_parse | CE_lower | CE_exec (e : LinErr).

(** Parsing reads an expression and stops there; [None] is the model out of fuel. *)
Definition compute_receipt (fuel : nat) (calloc : bool) (source : list Z) (input : Z) : option (res create_err compute) :=
  match parse_expression fuel (parser_init (expr_clean source)) 0 with
  | None => None
  | Some (Err _) => Some (Err CE_parse)
  | Some (Ok (root, p)) =>
      match lower_arena LIN_ARENA_CAP (p_arena p) root [mkBinding (cstr "x") 0] with
      | None => None
      | Some (Err _) => Some (Err CE_lower)
      | Some (Ok lc) =>
          match vm_exec (length lc + 1) (mkModule [entry_fn lc]) calloc 0 [input] 0 0 with
          | Some (V_ok r steps) => Some (Ok (mkCompute (val r) steps (Z.of_nat (sp_at_ret r))))
          | Some (V_err e _) => Some (Err (CE_exec e))
          | Some V_ub | None => None
          end
      end
  end.

(** The host, from the first bytes of /proc/cpuinfo. *)
Definition host_arch (cpuinfo : option (list Z)) : list Z :=
  match cpuinfo with
  | None => cstr "Intel_Xeon_Haswell_v3"
  | Some l =>
      let buf := strz (take 1023 l) in
      if bool_decide (is_Some (c0_index_str buf (cstr "Xeon"))) then cstr "Intel_Xeon_Haswell_v3"
      else if bool_decide (is_Some (c0_index_str buf (cstr "AMD"))) then cstr "AMD_x86_64"
      else if bool_decide (is_Some (c0_index_str buf (cstr "Intel"))) then cstr "Intel_x86_64"
      else cstr "Intel_Xeon_Haswell_v3"
  end.

Definition code_hex (o : create_opts) : list Z := hex64 (lin_sha256 (source_code o)).
Definition merkle_hex (o : create_opts) (c : compute) : list Z :=
  hex64 (lin_sha256 (receipt_leaf (lin_sha256 (source_code o)) (c_out c) (c_steps c) (c_sp c) (input_val o))).

Definition json_receipt (o : create_opts) (host : list Z) (c : compute) : list Z :=
  cstr "{" ++ [10] ++ qstr "  'schema': 'LIN_COMPUTE_RECEIPT_1.0'," ++ [10] ++ qstr "  'status': 'INTEGRITY_RECEIPT_LOCAL'," ++ [10] ++
  qstr "  'verification_level': 0," ++ [10] ++ qstr "  'artifact': 'sha256:" ++ code_hex o ++ qstr "'," ++ [10] ++
  qstr "  'input': '" ++ fmt_i64 (input_val o) ++ qstr "'," ++ [10] ++ qstr "  'output': '" ++ fmt_i64 (c_out c) ++ qstr "'," ++ [10] ++
  qstr "  'steps': " ++ fmt_u64 (c_steps c) ++ cstr "," ++ [10] ++ qstr "  'sp_at_ret': " ++ fmt_u64 (c_sp c) ++ cstr "," ++ [10] ++
  qstr "  'target_device': '" ++ target_dev o ++ qstr "'," ++ [10] ++ qstr "  'host_arch': '" ++ host ++ qstr "'," ++ [10] ++
  qstr "  'merkle_root': 'sha256:" ++ merkle_hex o c ++ qstr "'" ++ [10] ++ cstr "}" ++ [10].

Definition rulel_receipt (o : create_opts) (host : list Z) (c : compute) : list Z :=
  cstr "@LIN:RECEIPT:1.0.0" ++ [10] ++
  cstr "~R{.a=artifact .i=input .o=output .s=steps .p=sp .d=device .h=host .m=merkle .v=level}" ++ [10] ++
  qstr ".status='INTEGRITY_RECEIPT_LOCAL'" ++ [10] ++ cstr ".level=0" ++ [10] ++ qstr ".a='sha256:" ++ code_hex o ++ [34; 10] ++
  cstr ".i=" ++ fmt_i64 (input_val o) ++ [10] ++ cstr ".o=" ++ fmt_i64 (c_out c) ++ [10] ++ cstr ".s=" ++ fmt_u64 (c_steps c) ++ [10] ++
  cstr ".p=" ++ fmt_u64 (c_sp c) ++ [10] ++ qstr ".d='" ++ target_dev o ++ [34; 10] ++ qstr ".h='" ++ host ++ [34; 10] ++
  qstr ".m='sha256:" ++ merkle_hex o c ++ [34; 10].

Section Receipts.
Context `{Env}.
Context (fs : list Z -> option (list Z)).

Definition receipt_create (fuel : nat) (args : list (list Z)) : Mem ran :=
  let o := create_args args default_opts in
  ok ← try_malloc;
  match compute_receipt fuel ok (source_code o) (input_val o) with
  | None => mstuck
  | Some (Err CE_parse) => complain (cstr "receipt error: failed to parse --source " ++ quote (source_code o))
  | Some (Err CE_lower) => complain (cstr "receipt error: failed to lower --source " ++ quote (source_code o))
  | Some (Err (CE_exec e)) => complain (cstr "receipt error: failed to execute on LinVM: " ++ vm_err_code e)
  | Some (Ok c) =>
      let host := host_arch (fs (cstr "/proc/cpuinfo")) in
      answer (if export_json o then json_receipt o host c else rulel_receipt o host c) 0
  end.

(** ** verify *)

Record claim : Type := mkClaim {
  art_hex : list Z;
  inp_num : Z;
  out_num : Z;
  steps_val : Z;
  sp_val : Z;
  stored_merkle : list Z
}.

Definition claim0 : claim := mkClaim [] 0 0 0 0 [].

(** The text from the first occurrence of a key. *)
Definition strstr (s nd : list Z) : option (list Z) := (fun i => drop i s) <$> c0_index_str s nd.

Definition json_artifact (p : list Z) : list Z :=
  let a := first_text (sscanf p (lit (qstr "'artifact': 'sha256:") ++ [F_text 64] ++ lit [34])) [] in
  if (length a =? 0)%nat then first_text (sscanf p (lit (qstr "'artifact': '") ++ [F_text 64] ++ lit [34])) [] else a.

(** A number in quotes, or bare. *)
Definition json_i64 (key : list Z) (p : list Z) : Z :=
  match sscanf p (lit (key ++ qstr " '") ++ [F_i64] ++ lit [34]) with
  | S_num v :: _ => v
  | _ => first_num (sscanf p (lit (key ++ cstr " ") ++ [F_i64])) 0
  end.

Definition json_u64 (key : list Z) (p : list Z) : Z := first_num (sscanf p (lit (key ++ cstr " ") ++ [F_u64])) 0.

Definition read_json (content : list Z) : claim :=
  let field {A} (key : list Z) (f : list Z -> A) (none : A) := match strstr content key with Some p => f p | None => none end in
  mkClaim (field (qstr "'artifact':") json_artifact [])
    (field (qstr "'input':") (json_i64 (qstr "'input':")) 0)
    (field (qstr "'output':") (json_i64 (qstr "'output':")) 0)
    (field (qstr "'steps':") (json_u64 (qstr "'steps':")) 0)
    (field (qstr "'sp_at_ret':") (json_u64 (qstr "'sp_at_ret':")) 0)
    (field (qstr "'merkle_root':") (fun p => first_text (sscanf p (lit (qstr "'merkle_root': '") ++ [F_text 127] ++ lit [34])) []) []).

(** One line, its blanks skipped; what is absent from the 64 bytes copied is
    zero, which ends the text. *)
Definition read_line (line : list Z) (c : claim) : claim :=
  let t := drop (run_length (fun c => (c =? 32) || (c =? 9)) line) line in
  let starts k := bytes_eqb (take (length (qstr k)) t) (qstr k) in
  if starts ".a='" then
    let raw := first_text (sscanf (drop 4 t) [F_text 127]) [] in
    let h := if bytes_eqb (take 7 raw) (cstr "sha256:") then take 64 (drop 7 raw) else take 64 raw in
    mkClaim h (inp_num c) (out_num c) (steps_val c) (sp_val c) (stored_merkle c)
  else if starts ".i=" then mkClaim (art_hex c) (first_num (sscanf (drop 3 t) [F_i64]) 0) (out_num c) (steps_val c) (sp_val c) (stored_merkle c)
  else if starts ".o=" then mkClaim (art_hex c) (inp_num c) (first_num (sscanf (drop 3 t) [F_i64]) 0) (steps_val c) (sp_val c) (stored_merkle c)
  else if starts ".s=" then mkClaim (art_hex c) (inp_num c) (out_num c) (first_num (sscanf (drop 3 t) [F_u64]) 0) (sp_val c) (stored_merkle c)
  else if starts ".p=" then mkClaim (art_hex c) (inp_num c) (out_num c) (steps_val c) (first_num (sscanf (drop 3 t) [F_u64]) 0) (stored_merkle c)
  else if starts ".m='" then
    mkClaim (art_hex c) (inp_num c) (out_num c) (steps_val c) (sp_val c) (first_text (sscanf (drop 4 t) [F_text 127]) (stored_merkle c))
  else c.

(** The lines of a text, the last one without its newline. *)
Fixpoint rulel_lines (cur l : list Z) : list (list Z) :=
  match l with
  | [] => [cur]
  | c :: l => if c =? 10 then cur :: rulel_lines [] l else rulel_lines (cur ++ [c]) l
  end.

Definition read_rulel (content : list Z) : claim := fold_left (fun c l => read_line l c) (rulel_lines [] content) claim0.

Definition read_claim (content : list Z) : claim :=
  if bool_decide (head content = Some 123) || bool_decide (is_Some (c0_index_str content (qstr "'schema'")))
  then read_json content else read_rulel content.

(** The 32 bytes of the artifact. *)
Fixpoint read_hex (n : nat) (h : list Z) : option (list Z) :=
  match n with
  | O => Some []
  | S n =>
      match sscanf h [F_x2] with
      | S_num v :: _ => bs ← read_hex n (drop 2 h); Some (u8 v :: bs)
      | _ => None
      end
  end.

(** The last [--receipt] that has an argument. *)
Fixpoint verify_args (args : list (list Z)) (r : option (list Z)) : option (list Z) :=
  match args with
  | a :: args =>
      match args with
      | p :: args' => if bytes_eqb a (cstr "--receipt") then verify_args args' (Some p) else verify_args args r
      | [] => r
      end
  | [] => r
  end.

(** [None]: the artifact is no hexadecimal text. *)
Definition claimed_root (c : claim) : option (list Z) :=
  digest ← read_hex 32 (art_hex c);
  Some (hex64 (lin_sha256 (receipt_leaf digest (out_num c) (steps_val c) (sp_val c) (inp_num c)))).

Definition stored_hex (c : claim) : list Z :=
  if bytes_eqb (take 7 (stored_merkle c)) (cstr "sha256:") then drop 7 (stored_merkle c) else stored_merkle c.

Definition receipt_verify (args : list (list Z)) : Mem ran :=
  match verify_args args None with
  | None => complain (cstr "receipt verify error: no receipt file given (use --receipt <file>)")
  | Some f =>
      content ← read_file fs f;
      match content with
      | None => complain (cstr "receipt verify error: cannot open " ++ f)
      | Some content =>
          let c := read_claim (strz content) in
          match claimed_root c with
          | None => complain (cstr "FAIL: Invalid artifact hex in receipt")
          | Some root =>
              if bytes_eqb root (stored_hex c) then
                answer (cstr "PASS: Compute Receipt " ++ quote f ++ cstr " cryptographically verified! Merkle root valid: sha256:" ++ root ++ [10]) 0
              else
                complain (cstr "FAIL: Compute Receipt " ++ quote f ++ cstr " TAMPERED! Calculated: sha256:" ++ root ++
                          cstr ", Stored: " ++ stored_merkle c)
          end
      end
  end.

Definition cmd_receipt (fuel : nat) (argv : list (list Z)) : Mem ran :=
  if (length argv <? 3)%nat then
    complain (cstr "usage: lin_c0 receipt create [--source <src>] [--input <n>] | verify --receipt <file>")
  else if bytes_eqb (arg argv 2) (cstr "create") then receipt_create fuel (drop 3 argv)
  else if bytes_eqb (arg argv 2) (cstr "verify") then receipt_verify (drop 3 argv)
  else complain (cstr "receipt: unknown subcommand " ++ arg argv 2).
End Receipts.

(** ** Examples *)

Definition no_files : list Z -> option (list Z) := fun _ => None.

(** Whatever [create] prints, [verify] passes. *)
Definition create_then_verify (args : list (list Z)) : option Z :=
  match @receipt_create calm no_files 100 args mem0 with
  | Val r _ =>
      match @receipt_verify calm (fun _ => Some (out_text r)) (map cstr ["--receipt"; "f"]%string) mem0 with
      | Val v _ => Some (status v)
      | _ => None
      end
  | _ => None
  end.

Example create_default : create_then_verify [] = Some 0.
Proof. vm_compute. reflexivity. Qed.
Example create_json : create_then_verify (map cstr ["--source"; "x - 10"; "--input"; "-3"; "--format"; "json"]%string) = Some 0.
Proof. vm_compute. reflexivity. Qed.
