(* ===== verification/CliSpec.v ===== *)
(** * The commands of the compiler host: what they print

    Reading a file, and the three ways to run a function of a text: from the text,
    from its image, and both against each other.  Each prints the value, the error
    and the steps of the meaning of the text. *)
From stdpp Require Import strings.
From S2P Require Import Prelude Common Token Str Decimal Region Abi Vm VmSpec VmSafe Sha256 Linbc1 Encode Sys C0Lex C0Comp C0Build.
From S2P Require Import C0Scan C0Check C0Lint C0Lang C0BuildSpec C0Sem C0Refine C0Correct Cli.

(** ** Files *)

Definition mallocs_succeed `{Env} : Prop := forall t, alloc_ok t = true.

Lemma try_malloc_ok `{Env} m : mallocs_succeed -> exists m', try_malloc m = Val true m'.
Proof. intros Ha. unfold try_malloc, c0_malloc. rewrite Ha. by eexists. Qed.

Lemma read_loop_ok `{Env} (Ha : mallocs_succeed) (k : nat) : forall cap fuel len m,
  0 < cap -> 0 <= len < cap * 2 ^ Z.of_nat k -> len < 2 ^ 62 -> (k + 2 <= fuel)%nat ->
  exists cap' m', read_loop fuel cap (Z.min cap len) len m = Val (cap', len) m' /\ len < cap'.
Proof.
  induction k as [|k IH]; intros cap fuel len m Hc Hl Hs Hf; destruct fuel as [|fuel]; try lia; cbn [read_loop]; cbv zeta.
  - change (2 ^ Z.of_nat 0) with 1 in Hl. rewrite Z.min_r by lia. destruct (Z.eqb_spec len cap); [lia|].
    replace (Z.min (cap - len) (len - len)) with 0 by lia. exists cap, m. split; [reflexivity|lia].
  - destruct (Z.eqb_spec (Z.min cap len) cap) as [E|E].
    + destruct (Z.ltb_spec (SIZE_MAX / 2) cap) as [Hm|_]; [change (SIZE_MAX / 2) with 9223372036854775807 in Hm; lia|].
      destruct (try_malloc_ok m Ha) as [m1 Hm1]. unfold mbind at 1, Mem_bind at 1. rewrite Hm1, E.
      destruct (Z.eqb_spec (Z.min (cap * 2 - cap) (len - cap)) 0) as [E0|E0].
      * assert (len = cap) as -> by lia. exists (cap * 2), m1. split; [done|lia].
      * replace (cap + Z.min (cap * 2 - cap) (len - cap)) with (Z.min (cap * 2) len) by lia. apply IH; [lia| |lia|lia].
        rewrite Nat2Z.inj_succ, Z.pow_succ_r in Hl; lia.
    + assert (len < cap) by lia. replace (Z.min cap len) with len by lia. replace (Z.min (cap - len) (len - len)) with 0 by lia. exists cap, m. split; [reflexivity|lia].
Qed.

Lemma read_loop_start `{Env} (Ha : mallocs_succeed) fuel len m : 0 <= len < 2 ^ 62 -> (48 <= fuel)%nat ->
  exists cap m', read_loop (S fuel) 65536 0 len m = Val (cap, len) m' /\ len < cap.
Proof.
  intros Hl Hf. cbn [read_loop Z.eqb]. cbv zeta. rewrite !Z.sub_0_r, Z.add_0_l.
  destruct (Z.eqb_spec (Z.min 65536 len) 0) as [E0|E0]; [assert (len = 0) as -> by lia; exists 65536, m; split; [reflexivity|lia]|].
  apply (read_loop_ok Ha 46); [lia|split; [lia|]|lia|lia]. change (65536 * 2 ^ Z.of_nat 46) with (2 ^ 62). lia.
Qed.

Lemma read_file_ok `{Env} fs path l m : mallocs_succeed -> fs path = Some l -> Z.of_nat (length l) < 2 ^ 62 ->
  exists m', read_file fs path m = Val (Some l) m'.
Proof.
  intros Ha Hp Hl. unfold read_file. rewrite Hp. destruct (try_malloc_ok m Ha) as [m1 Hm1]. unfold mbind at 1, Mem_bind at 1. rewrite Hm1.
  destruct (read_loop_start Ha 127 (Z.of_nat (length l)) m1) as (cap & m2 & E & Hlt); [lia|lia|].
  unfold mbind, Mem_bind. rewrite E, (proj2 (Z.ltb_lt _ _) Hlt), Nat2Z.id, take_ge by lia. by eexists.
Qed.

(** When [realloc] fails on a file of 64 KiB or more, the NUL is written past the
    buffer. *)
Lemma read_file_overflow `{Env} fs path l m : fs path = Some l -> Z.of_nat (length l) = 65536 ->
  alloc_ok (m_clock m) = true -> alloc_ok (m_clock m + 1) = false -> read_file fs path m = MStuck.
Proof.
  intros Hp Hl H1 H2. unfold read_file. rewrite Hp. unfold mbind at 1, Mem_bind at 1, try_malloc, c0_malloc. rewrite H1, Hl.
  assert (forall fuel, read_loop (S (S fuel)) 65536 0 65536 (mkMem (m_clock m + 1) (m_used m) (m_cap m)) = MStuck) as E.
  { intros fuel. change (read_loop (S (S fuel)) 65536 0 65536) with (read_loop (S fuel) 65536 65536 65536).
    change (read_loop (S fuel) 65536 65536 65536) with
      (ok ← try_malloc; if ok : bool then (if Z.min (65536 * 2 - 65536) 0 =? 0 then mret (65536 * 2, 65536) else
         read_loop fuel (65536 * 2) (65536 + Z.min (65536 * 2 - 65536) 0) 65536) else mstuck).
    unfold mbind, Mem_bind, try_malloc, c0_malloc. cbn [m_clock]. by rewrite H2. }
  unfold mbind, Mem_bind. by rewrite (E 126%nat).
Qed.

(** ** Running *)

Lemma find_fn_at name fs : forall i, 0 <= i -> 0 <= find_fn i fs name ->
  i <= find_fn i fs name /\ exists f, fs !! Z.to_nat (find_fn i fs name - i) = Some f /\ fn_name f = name.
Proof.
  induction fs as [|f fs IH]; intros i Hi; cbn [find_fn]; [lia|].
  destruct (bytes_eqb (fn_name f) name) eqn:E; intros Hf.
  - apply bytes_eqb_eq in E. split; [lia|]. rewrite Z.sub_diag. by exists f.
  - destruct (IH (i + 1)) as (Hle & g & Hg & Hn); [lia..|]. split; [lia|]. exists g. split; [|done].
    replace (find_fn (i + 1) fs name - i) with (Z.succ (find_fn (i + 1) fs name - (i + 1))) by lia. by rewrite Z2Nat.inj_succ by lia.
Qed.

Lemma fn_at_name md fn : 0 <= mod_find_fn md fn -> fn_name (fn_at md (mod_find_fn md fn)) = fn.
Proof.
  intros Hf. destruct (find_fn_at fn (fns md) 0) as (_ & f & Hg & Hn); [done..|]. rewrite Z.sub_0_r in Hg. unfold fn_at, mod_find_fn.
  by rewrite Hg.
Qed.

(** Fuel for any run. *)
Definition enough (fuel : nat) : Prop := (2 * Z.to_nat LIN_VM_STEP_LIMIT + 2 <= fuel)%nat.

Lemma exec_ok `{Env} fuel md fi args sp r m : mallocs_succeed -> vm_exec fuel md true fi args 0 0 = Some (out_of sp r) ->
  exists m', exec fuel md fi args m =
    Val (match r with SVal v st => (Ok (mkResult v sp), st) | SErr e st => (Err e, st) end) m'.
Proof.
  intros Ha Hv. unfold exec. destruct (try_malloc_ok m Ha) as [m1 Hm1]. unfold mbind, Mem_bind. rewrite Hm1, Hv.
  destruct r; by eexists.
Qed.

(** A text that compiles to a module the machine runs without overflow. *)
Record clean_text `{Env} (full : bool) (src : list Z) (m : C0Mem) (md : VmModule) (infos : list C0FnInfo) : Prop := {
  ct_build : exists m1, (if full then c0_build_full src m else c0_build src m) = Val md m1;
  ct_infos : exists m2, infos_loop src (S (length src)) 0 1 [] 0 m = Val infos m2;
  ct_params : Forall distinct_params infos;
  ct_length : Z.of_nat (length src) < text_limit;
  ct_runs : runnable md
}.

(** What [vm] and [run] print of an outcome. *)
Definition record_of (fn : list Z) (r : sres Z) : ran :=
  match r with
  | SVal v st => mkRan (run_result fn (mkResult v 0) st) [] 0 None
  | SErr e st => mkRan (run_error fn e st) [] 1 None
  end.

(** The outcome of a function in the meaning of a text. *)
Definition means (full : bool) (infos : list C0FnInfo) (md : VmModule) (fn : list Z) (args : list Z) (r : sres Z) : Prop :=
  exists p, program_of true full infos md p /\
    call_fn LIN_VM_STEP_LIMIT p call_fuel 0 (Z.to_nat (mod_find_fn md fn)) args 0 = Some r.

(** The machine runs a function to that outcome, whatever the memory. *)
Definition runs_to `{Env} (fuel : nat) (md : VmModule) (fn args : list Z) (sp : nat) (r : sres Z) : Prop :=
  forall m, exists m', exec fuel md (mod_find_fn md fn) args m =
    Val (match r with SVal v st => (Ok (mkResult v sp), st) | SErr e st => (Err e, st) end) m'.

Lemma clean_means `{Env} full src m md infos fn args fuel : mallocs_succeed -> clean_text full src m md infos -> 0 <= mod_find_fn md fn ->
  enough fuel -> exists r sp, means full infos md fn args r /\ runs_to fuel md fn args sp r.
Proof.
  intros Ha [[m1 Hb] [m2 Hi] Hd Hl Hr] Hf Hfuel.
  destruct (built_meaning full src m md m1 infos m2 Hb Hi Hd Hl Hr) as (p & Hp & Hc).
  destruct (Hc (Z.to_nat (mod_find_fn md fn)) args) as (r & sp & Hcall & Hrun). exists r, sp. split; [by exists p|].
  intros m3. apply exec_ok; [done|]. rewrite <- (Z2Nat.id (mod_find_fn md fn)) by done. by apply Hrun.
Qed.

Lemma or_null_val {A} (f : Mem A) m x m1 : f m = Val x m1 -> or_null f m = Val (Some x) m1.
Proof. unfold or_null. by intros ->. Qed.

(** A step of a command whose first call is known. *)
Ltac after E := unfold mbind at 1, Mem_bind at 1; rewrite E; cbv iota beta.

Lemma cmd_vm_prints `{Env} fs fuel full p0 p1 path fn words m src m1 md infos args sp r :
  read_file fs path m = Val (Some src) m1 -> clean_text full src m1 md infos -> 0 <= mod_find_fn md fn ->
  ok (fn_at md (mod_find_fn md fn)) = true -> parse_args 64 words = Some args -> runs_to fuel md fn args sp r ->
  exists m', cmd_vm fs fuel full (p0 :: p1 :: path :: fn :: words) m = Val (record_of fn r) m'.
Proof.
  intros Hs Hc Hf Hok Hw Hx. destruct (ct_build _ _ _ _ _ Hc) as [m2 Hb]. destruct (Hx m2) as [m3 E3].
  exists m3. unfold cmd_vm. cbn [length Nat.ltb Nat.leb]. change (arg (p0 :: p1 :: path :: fn :: words) 2) with path. after Hs.
  assert (or_null (if full then c0_build_full src else c0_build src) m1 = Val (Some md) m2) as Eb by (apply or_null_val; by destruct full).
  after Eb. change (arg (p0 :: p1 :: path :: fn :: words) 3) with fn. rewrite (proj2 (Z.ltb_ge _ _) Hf), Hok. cbn [negb].
  change (drop 4 (p0 :: p1 :: path :: fn :: words)) with words. rewrite Hw. after E3.
  rewrite fn_at_name by done. by destruct r.
Qed.

(** [vm] on a text prints the meaning of the function it names. *)
Theorem cmd_vm_meaning `{Env} fs fuel full p0 p1 path fn words m src m1 md infos args
    (Ha : mallocs_succeed) (Hs : read_file fs path m = Val (Some src) m1) (Hc : clean_text full src m1 md infos)
    (Hf : 0 <= mod_find_fn md fn) (Hok : ok (fn_at md (mod_find_fn md fn)) = true) (Hw : parse_args 64 words = Some args)
    (Hfuel : enough fuel) :
  exists r m', means full infos md fn args r /\ cmd_vm fs fuel full (p0 :: p1 :: path :: fn :: words) m = Val (record_of fn r) m'.
Proof.
  destruct (clean_means full src m1 md infos fn args fuel) as (r & sp & Hr & Hx); [done..|].
  destruct (cmd_vm_prints fs fuel full p0 p1 path fn words m src m1 md infos args sp r) as [m' E]; [done..|]. by exists r, m'.
Qed.

(** ** Images *)

Lemma well_loadable `{Env} src m md infos : clean_text false src m md infos -> within_limits md -> loadable md.
Proof. intros [[m1 Hb] [m2 Hi] Hd Hl _] Hw. by apply (built_loadable src m md m1 infos m2). Qed.

Lemma enc_arrays_small ns : forall li, (length (enc_arrays li ns) <= 3 * length ns)%nat.
Proof.
  induction ns as [|n ns IH]; intros li; cbn [enc_arrays length]; [lia|]. rewrite length_app. specialize (IH (li + 1)).
  destruct (n =? 0); cbn [length]; rewrite ?length_le_bytes; lia.
Qed.

Lemma enc_code_small c : length (enc_code c) = (9 * length c)%nat.
Proof.
  unfold enc_code. induction c as [|i c IH]; [done|]. cbn [map concat]. rewrite length_app, IH. cbn [length]. rewrite length_le_bytes. lia.
Qed.

Lemma enc_fns_small nf fs : Forall (fn_valid nf) fs -> forall i,
  (length (enc_fns i fs) <= 203 * length fs + 9 * ins_total fs)%nat.
Proof.
  induction 1 as [|f fs Hf _ IH]; intros i; cbn [enc_fns]; [done|]. unfold enc_fn. rewrite !length_app, !length_le_bytes, enc_code_small.
  pose proof (enc_arrays_small (arr_n f) 0). specialize (IH (i + 1)). destruct Hf as [_ _ Hp Ha _ _].
  unfold ins_total in *. cbn [sum_list_with length]. lia.
Qed.

Lemma enc_pool_small fs : length (enc_pool fs) = (4 * length fs + sum_list_with (fun f => length (fn_name f)) fs)%nat.
Proof.
  unfold enc_pool. induction fs as [|f fs IH]; [done|]. cbn [map concat length sum_list_with]. rewrite !length_app, IH, length_le_bytes. lia.
Qed.

Lemma Ok_inj (x y : list Z) : @Ok string _ x = Ok y -> x = y.
Proof. by intros [= ->]. Qed.

Lemma image_small realloc_ok md img : loadable md -> c0_image_encode (C := LinSha256) realloc_ok md = Ok img ->
  Z.of_nat (length img) < 200000.
Proof.
  intros Hl E. destruct (encode_bytes realloc_ok (C := LinSha256) md (loadable_encodable md Hl)) as [E'|[E' _]]; rewrite E in E'; [|done].
  apply Ok_inj in E' as ->. rewrite length_app, (image_digest_eq (digest := sha256_spec)), (sh_length (digest := sha256_spec)).
  destruct Hl as [H1 H2 H3 H4 _ _]. pose proof (enc_fns_small _ _ H2 0). pose proof (enc_pool_small (fns md)).
  unfold enc_body. rewrite !length_app, !length_le_bytes. change (length MAGIC) with 6%nat. cbn [length].
  unfold LIN_BC1_MAX_FNS, LIN_BC1_MAX_INS_TOTAL, LIN_BC1_MAX_STR_BYTES in *. lia.
Qed.

(** The image of a module, which loads to it. *)
Definition loads_as (img : list Z) (md : VmModule) : Prop := exists vm, lin_bc1_load (C := LinSha256) img = Ok vm /\ b_mod vm = md.

Lemma image_exists realloc_ok md : (forall n, realloc_ok n = true) -> loadable md ->
  exists img, c0_image_encode (C := LinSha256) realloc_ok md = Ok img /\ loads_as img md /\ Z.of_nat (length img) < 200000.
Proof.
  intros Hre Hld. destruct (image_decodes realloc_ok md Hld) as [(img & He & _ & Hd)|[_ [n Hn]]]; [|by rewrite Hre in Hn].
  exists img. split; [done|]. split; [by eexists|]. by apply (image_small realloc_ok md).
Qed.

Lemma cmd_image_writes `{Env} fs realloc_ok p0 p1 path ipath m src m1 md infos img : (forall t, io_ok t = true) ->
  read_file fs path m = Val (Some src) m1 -> clean_text false src m1 md infos -> c0_image_encode (C := LinSha256) realloc_ok md = Ok img ->
  exists m', cmd_image fs realloc_ok [p0; p1; path; cstr "-o"; ipath] m = Val (mkRan (image_record md img) [] 0 (Some (ipath, img))) m'.
Proof.
  intros Hio Hs Hc He. destruct (ct_build _ _ _ _ _ Hc) as [m2 Hb]. eexists.
  unfold cmd_image. cbn [length Nat.ltb Nat.leb]. change (arg [p0; p1; path; cstr "-o"; ipath] 2) with path. after Hs.
  assert (or_null (c0_build src) m1 = Val (Some md) m2) as Eb by (by apply or_null_val). after Eb. rewrite He.
  change (out_path (drop 3 [p0; p1; path; cstr "-o"; ipath]) None) with (Some ipath). cbv iota beta. unfold write_image_file.
  by rewrite !Hio.
Qed.

Lemma cmd_run_prints `{Env} fs fuel p0 p1 ipath img fn words m md args sp r : mallocs_succeed ->
  fs ipath = Some img -> Z.of_nat (length img) < 200000 -> loads_as img md -> 0 <= mod_find_fn md fn ->
  parse_args 64 words = Some args -> runs_to fuel md fn args sp r ->
  exists m', cmd_run fs fuel (p0 :: p1 :: ipath :: fn :: words) m = Val (record_of fn r) m'.
Proof.
  intros Ha Hfs Hlen (vm & Hd & <-) Hf Hw Hx. destruct (read_file_ok fs ipath img m) as [m4 Hread]; [done|done|lia|].
  destruct (Hx m4) as [m5 E5]. exists m5. unfold cmd_run. cbn [length Nat.ltb Nat.leb].
  change (arg (p0 :: p1 :: ipath :: fn :: words) 2) with ipath. after Hread. rewrite Hd. cbv zeta.
  change (arg (p0 :: p1 :: ipath :: fn :: words) 3) with fn.
  change (lin_bc1_find_fn vm fn) with (mod_find_fn (b_mod vm) fn). rewrite (proj2 (Z.ltb_ge _ _) Hf).
  change (drop 4 (p0 :: p1 :: ipath :: fn :: words)) with words. rewrite Hw. after E5. by destruct r.
Qed.

(** [image] writes a file from which [run] prints the meaning of the text,
    as [vm] does from the text itself. *)
Theorem image_route_meaning `{Env} fs realloc_ok fuel p0 p1 path ipath m src m1 md infos
    (Ha : mallocs_succeed) (Hio : forall t, io_ok t = true) (Hre : forall n, realloc_ok n = true)
    (Hs : read_file fs path m = Val (Some src) m1) (Hc : clean_text false src m1 md infos) (Hl : within_limits md) (Hfuel : enough fuel) :
  exists img m', cmd_image fs realloc_ok [p0; p1; path; cstr "-o"; ipath] m =
    Val (mkRan (image_record md img) [] 0 (Some (ipath, img))) m' /\
  forall fs' fn words args m2, fs' ipath = Some img -> 0 <= mod_find_fn md fn -> parse_args 64 words = Some args ->
    exists r m3, means false infos md fn args r /\ cmd_run fs' fuel (p0 :: p1 :: ipath :: fn :: words) m2 = Val (record_of fn r) m3.
Proof.
  destruct (image_exists realloc_ok md Hre (well_loadable _ _ _ _ Hc Hl)) as (img & He & Hd & Hlen).
  destruct (cmd_image_writes fs realloc_ok p0 p1 path ipath m src m1 md infos img) as [m' E]; [done..|]. exists img, m'. split; [exact E|].
  intros fs' fn words args m2 Hfs Hf Hw. destruct (clean_means false src m1 md infos fn args fuel) as (r & sp & Hr & Hx); [done..|].
  destruct (cmd_run_prints fs' fuel p0 p1 ipath img fn words m2 md args sp r) as [m3 E3]; [done..|]. by exists r, m3.
Qed.

(** ** Source against image *)

(** What [roundtrip] prints of an outcome. *)
Definition trip_record (fn img : list Z) (sp : nat) (r : sres Z) : ran :=
  match r with
  | SVal v st =>
      mkRan (trip_head ++ cstr ".verdict{ status=" ++ quote (cstr "CONSENSUS") ++ cstr " fn=" ++ quote fn ++
             cstr " value=" ++ fmt_i64 v ++ cstr " steps=" ++ fmt_u64 st ++ cstr " sp=" ++ fmt_u64 (Z.of_nat sp) ++
             cstr " image_bytes=" ++ fmt_u64 (Z.of_nat (length img)) ++ cstr " img=" ++ quote (hex64 (lin_sha256 img)) ++ cstr " }" ++ [10])
            [] 0 None
  | SErr e st =>
      mkRan (trip_head ++ cstr ".error{ fn=" ++ quote fn ++ cstr " code=" ++ quote (vm_err_code e) ++ cstr " steps=" ++ fmt_u64 st ++ cstr " }" ++ [10])
            [] 1 None
  end.

(** C16. [roundtrip] never finds a divergence: it prints CONSENSUS with the
    meaning of the function, or its error. *)
Theorem roundtrip_consensus `{Env} fs realloc_ok fuel p0 p1 path fn words m src m1 md infos args
    (Ha : mallocs_succeed) (Hre : forall n, realloc_ok n = true)
    (Hs : read_file fs path m = Val (Some src) m1) (Hc : clean_text false src m1 md infos) (Hl : within_limits md)
    (Hf : 0 <= mod_find_fn md fn) (Hok : ok (fn_at md (mod_find_fn md fn)) = true) (Hw : parse_args 64 words = Some args)
    (Hfuel : enough fuel) :
  exists r sp img m', means false infos md fn args r /\ c0_image_encode (C := LinSha256) realloc_ok md = Ok img /\
    cmd_roundtrip fs realloc_ok fuel (p0 :: p1 :: path :: fn :: words) m = Val (trip_record fn img sp r) m'.
Proof.
  pose proof (well_loadable _ _ _ _ Hc Hl) as Hld.
  destruct (image_decodes realloc_ok md Hld) as [(img & He & _ & Hd)|[_ [n Hn]]]; [|by rewrite Hre in Hn].
  destruct (ct_build _ _ _ _ _ Hc) as [m2 Hb].
  destruct (clean_means false src m1 md infos fn args fuel) as (r & sp & Hr & Hx); [done..|]. destruct (Hx m2) as [m3 E3].
  destruct (Hx m3) as [m4 E4]. exists r, sp, img.
  assert (or_null (c0_build src) m1 = Val (Some md) m2) as Eb by (by apply or_null_val).
  destruct r as [v st|e st]; eexists; (split; [exact Hr|]); (split; [done|]); unfold cmd_roundtrip; cbn [length Nat.ltb Nat.leb];
    change (arg (p0 :: p1 :: path :: fn :: words) 2) with path; after Hs; after Eb;
    change (arg (p0 :: p1 :: path :: fn :: words) 3) with fn; rewrite (proj2 (Z.ltb_ge _ _) Hf), Hok; cbn [negb];
    change (drop 4 (p0 :: p1 :: path :: fn :: words)) with words; rewrite Hw; after E3; [|reflexivity].
  unfold trip_image. rewrite He, Hd. cbv zeta.
  match goal with |- context [lin_bc1_find_fn ?v fn] => change (lin_bc1_find_fn v fn) with (mod_find_fn md fn) end.
  rewrite (proj2 (Z.ltb_ge _ _) Hf). cbn [b_mod]. after E4. unfold trip_verdict. cbn [val sp_at_ret]. rewrite !Z.eqb_refl, Nat.eqb_refl.
  reflexivity.
Qed.

(** ** The three routes on a text *)

Definition sample_files (p : list Z) : option (list Z) := if bytes_eqb p (cstr "a.lin") then Some sample else None.
Definition sample_mem : C0Mem := mkMem 1 0 C0_CHUNK_DEFAULT.

Lemma sample_read : @read_file calm sample_files (cstr "a.lin") mem0 = Val (Some sample) sample_mem.
Proof. vm_compute. reflexivity. Qed.

Lemma sample_clean : @clean_text calm false sample sample_mem sample_module sample_infos.
Proof.
  constructor; [eexists; vm_compute; reflexivity|eexists; vm_compute; reflexivity|exact sample_distinct|reflexivity|exact sample_runnable].
Qed.

Lemma full_fuel : enough (2 * Z.to_nat LIN_VM_STEP_LIMIT + 2).
Proof. apply Nat.le_refl. Qed.

Lemma sample_fn : mod_find_fn sample_module (cstr "fib") = 0 /\ ok (fn_at sample_module 0) = true /\
  parse_args 64 [cstr "10"] = Some [10].
Proof. split_and!; vm_compute; reflexivity. Qed.

Lemma cmd_vm_meaning_witness : exists r m', means false sample_infos sample_module (cstr "fib") [10] r /\
  @cmd_vm calm sample_files (2 * Z.to_nat LIN_VM_STEP_LIMIT + 2) false (map cstr ["lin_c0"; "vm"; "a.lin"; "fib"; "10"]%string) mem0 =
    Val (record_of (cstr "fib") r) m'.
Proof.
  destruct sample_fn as (E1 & E2 & E3).
  apply (@cmd_vm_meaning calm sample_files _ false (cstr "lin_c0") (cstr "vm") (cstr "a.lin") (cstr "fib") [cstr "10"] mem0 sample
    sample_mem sample_module sample_infos [10] (fun _ => eq_refl) sample_read sample_clean); [|..|exact full_fuel];
    rewrite ?E1; done.
Defined.

Lemma image_route_meaning_witness :
  exists img m', @cmd_image calm sample_files (fun _ => true) (map cstr ["lin_c0"; "image"; "a.lin"; "-o"; "a.linbc"]%string) mem0 =
    Val (mkRan (image_record sample_module img) [] 0 (Some (cstr "a.linbc", img))) m' /\
  forall fs' fn words args m2, fs' (cstr "a.linbc") = Some img -> 0 <= mod_find_fn sample_module fn -> parse_args 64 words = Some args ->
    exists r m3, means false sample_infos sample_module fn args r /\
      @cmd_run calm fs' (2 * Z.to_nat LIN_VM_STEP_LIMIT + 2) (cstr "lin_c0" :: cstr "image" :: cstr "a.linbc" :: fn :: words) m2 =
        Val (record_of fn r) m3.
Proof.
  exact (@image_route_meaning calm sample_files (fun _ => true) _ (cstr "lin_c0") (cstr "image") (cstr "a.lin") (cstr "a.linbc") mem0
    sample sample_mem sample_module sample_infos (fun _ => eq_refl) (fun _ => eq_refl) (fun _ => eq_refl) sample_read sample_clean
    sample_limits full_fuel).
Defined.

Lemma roundtrip_consensus_witness : exists r sp img m', means false sample_infos sample_module (cstr "fib") [10] r /\
  c0_image_encode (C := LinSha256) (fun _ => true) sample_module = Ok img /\
  @cmd_roundtrip calm sample_files (fun _ => true) (2 * Z.to_nat LIN_VM_STEP_LIMIT + 2)
    (map cstr ["lin_c0"; "roundtrip"; "a.lin"; "fib"; "10"]%string) mem0 = Val (trip_record (cstr "fib") img sp r) m'.
Proof.
  destruct sample_fn as (E1 & E2 & E3).
  apply (@roundtrip_consensus calm sample_files (fun _ => true) _ (cstr "lin_c0") (cstr "roundtrip") (cstr "a.lin") (cstr "fib") [cstr "10"]
    mem0 sample sample_mem sample_module sample_infos [10] (fun _ => eq_refl) (fun _ => eq_refl) sample_read sample_clean sample_limits);
    [|..|exact full_fuel]; rewrite ?E1; done.
Defined.

(** Past the limits of the loader, which the encoder does not check, the image is
    written and the round trip diverges: here a name of 4097 bytes. *)
Definition long_name : list Z := repeat 97 4097.
Definition long_text : list Z := cstr "!" ++ long_name ++ cstr "() -> int { ^1 }".

Lemma roundtrip_diverges : exists m',
  @cmd_roundtrip calm (fun _ => Some long_text) (fun _ => true) 4000 [cstr "lin_c0"; cstr "roundtrip"; cstr "a.lin"; long_name] mem0 =
    Val (mkRan (divergence (qstr " why='loader_rejected' reason='LINBC1_count'")) [] 1 None) m'.
Proof. eexists. vm_compute. reflexivity. Qed.
