(* ===== verification/CliCheck.v ===== *)
(** * check and lint: what the commands print

    [check] ends with status 0 exactly when the text is well formed and no
    statement clashes with the types, and then prints the record of the text: its
    header, its names, its exports and its signatures. *)
From stdpp Require Import strings.
From S2P Require Import Prelude Common Decimal Sys C0Lex C0Comp C0LexSpec C0BuildSpec C0Scan C0Check C0Lint C0ScanSpec C0CheckSpec C0TypeSpec.
From S2P Require Import Cli CliSpec.

(** ** The record of a text *)

(** The identifiers of a text from [k] on. *)
Inductive idents (csv : list Z) : nat -> list (list Z) -> Prop :=
| I_end k : (length csv <= k)%nat -> idents csv k []
| I_ident k l : (k < length csv)%nat -> c0c_read_ident csv k <> [] -> idents csv (k + length (c0c_read_ident csv k)) l ->
    idents csv k (c0c_read_ident csv k :: l)
| I_skip k l : (k < length csv)%nat -> c0c_read_ident csv k = [] -> idents csv (k + 1) l -> idents csv k l.

Definition commas (l : list (list Z)) : list Z := joined l.
Definition json_array (l : list (list Z)) : list Z := cstr "[" ++ commas (map quote l) ++ cstr "]".

Definition signature_line (f : C0FnInfo) : list Z :=
  cstr "  ." ++ fi_name f ++ cstr "{ params=[" ++ commas (map (fun p => quote (p_name p ++ cstr ":" ++ type_name p)) (fi_params f)) ++
  cstr "] return=" ++ quote (return_type f) ++ cstr " }" ++ [10].

Definition check_record (src : list Z) (ns exports : list (list Z)) (fns : list C0FnInfo) : list Z :=
  cstr "@RULEL:LIN_CHECK:1.0.0" ++ [10] ++ cstr ".header=" ++ quote (c0c_header src) ++ [10] ++ cstr ".fns=" ++ json_array ns ++
  [10] ++ cstr ".exports=" ++ json_array exports ++ [10] ++ cstr ".types{" ++ [10] ++ concat (map signature_line fns) ++
  cstr "}" ++ [10] ++ cstr ".typecheck=passed" ++ [10].

Section Record_.
Context `{Env}.

Lemma csv_loop_ok csv fuel : forall k, (length csv - k < fuel)%nat -> exists l, idents csv k l /\
  forall first, writes (if first : bool then commas (map quote l) else concat (map (fun i => cons 44 (quote i)) l)) (csv_loop csv fuel k first).
Proof.
  induction fuel as [|fuel IH]; intros k Hk; [lia|]. cbn [csv_loop]. destruct (Nat.leb_spec (length csv) k) as [Hl|Hl].
  { exists []. split; [by constructor|]. intros [|]; apply writes_nil. }
  cbv zeta. destruct (Nat.ltb_spec 0 (length (c0c_read_ident csv k))) as [Hn|Hn].
  - destruct (IH (k + length (c0c_read_ident csv k))%nat) as (l & Hi & Hw); [lia|]. exists (c0c_read_ident csv k :: l). split.
    { apply I_ident; [done| |done]. intros E. rewrite E in Hn. cbn in Hn. lia. }
    intros first. set (id := c0c_read_ident csv k) in *.
    apply (writes_eq ((if first then [] else [44]) ++ [34] ++ id ++ [34] ++ concat (map (fun i => cons 44 (quote i)) l))).
    + apply (writes_bind (if first then [] else [44]) _ (fun b => if first then mret b else c0b_s (cstr ",") b));
        [destruct first; [apply writes_nil|by apply writes_s]|].
      apply (writes_bind [34]); [by apply writes_s|]. apply writes_bind; [apply writes_n|]. apply (writes_bind [34]); [by apply writes_s|apply (Hw false)].
    + unfold commas, quote. destruct first; cbn [map joined concat app]; rewrite <- ?app_assoc; cbn [app]; by rewrite ?map_map.
  - destruct (IH (k + 1)%nat) as (l & Hi & Hw); [lia|]. exists l. split; [|exact Hw].
    apply I_skip; [done| |done]. destruct (c0c_read_ident csv k); [done|cbn in Hn; lia].
Qed.

Lemma csv_array_ok csv : exists l, idents csv 0 l /\ writes (json_array l) (c0c_csv_json_arr csv).
Proof.
  destruct (csv_loop_ok csv (S (length csv)) 0) as (l & Hi & Hw); [lia|]. exists l. split; [done|]. unfold c0c_csv_json_arr, json_array.
  apply writes_bind; [by apply writes_s|]. apply writes_bind; [apply (Hw true)|by apply writes_s].
Qed.

Lemma params_text_ok ps : Forall param_text ps -> forall first,
  writes (let l := map (fun p => quote (p_name p ++ cstr ":" ++ type_name p)) ps in
    if first : bool then commas l else concat (map (cons 44) l)) (put_params_text ps first).
Proof.
  induction 1 as [|p ps [Hn Ht] _ IH]; intros first; cbn [put_params_text].
  - destruct first; apply writes_nil.
  - apply (writes_eq ((if first then [] else [44]) ++ concat [[34]; p_name p; cstr ":"; type_name p; [34]] ++
      concat (map (cons 44) (map (fun p => quote (p_name p ++ cstr ":" ++ type_name p)) ps)))).
    + apply (writes_bind (if first then [] else [44]) _ (fun b => if first then mret b else c0b_s (cstr ",") b));
        [destruct first; [apply writes_nil|by apply writes_s]|].
      apply writes_bind; [by apply writes_fmt; repeat constructor|apply (IH false)].
    + unfold commas, quote. destruct first; cbn [map joined concat app]; rewrite ?app_nil_r, <- ?app_assoc; cbn [app]; done.
Qed.

Lemma types_ok fns : Forall plain_fn fns -> writes (concat (map signature_line fns)) (put_types fns).
Proof.
  induction 1 as [|f fns (Hn & Hp & Hr & _) _ IH]; cbn [put_types map concat]; [apply writes_nil|].
  apply (writes_eq (concat [cstr "  ."; fi_name f; cstr "{ params=["] ++
    commas (map (fun p => quote (p_name p ++ cstr ":" ++ type_name p)) (fi_params f)) ++
    concat [cstr "] return="; [34]; return_type f; [34]; cstr " }" ++ [10]] ++ concat (map signature_line fns))).
  - apply writes_bind; [by apply writes_fmt; repeat constructor|]. apply writes_bind; [by apply (params_text_ok _ Hp true)|].
    apply writes_bind; [by apply writes_fmt; repeat constructor|done].
  - unfold signature_line, quote. cbn [concat]. by rewrite ?app_nil_r, <- !app_assoc.
Qed.
End Record_.

(** ** Names *)

Definition is_id (nm : list Z) : Prop :=
  exists c l, nm = c :: l /\ c0c_is_ident_start c = true /\ forallb c0c_is_ident l = true.

Lemma run_all P (l : list Z) : forallb P (take (run_length P l) l) = true.
Proof. induction l as [|c l IH]; cbn [run_length]; [done|]. destruct (P c) eqn:E; [|done]. cbn [take forallb]. by rewrite E, IH. Qed.

Lemma read_ident_id s i : c0c_read_ident s i <> [] -> is_id (c0c_read_ident s i).
Proof.
  unfold c0c_read_ident. destruct (drop i s) as [|c l]; [done|]. destruct (c0c_is_ident_start c) eqn:E; [|done]. intros _.
  exists c, (take (run_length c0c_is_ident l) l). split_and!; [done|done|apply run_all].
Qed.

Lemma names_are_ids src i ns : names_from src i ns -> Forall is_id ns.
Proof. induction 1 as [|i nm ns (_ & _ & -> & Hne) _ IH|]; [constructor|constructor; [by apply read_ident_id|done]|done]. Qed.

Lemma read_ident_at pre nm k : is_id nm -> (forall c, head k = Some c -> c0c_is_ident c = false) ->
  c0c_read_ident (pre ++ nm ++ k) (length pre) = nm.
Proof.
  intros (c & l & -> & Hc & Hl) Hk. unfold c0c_read_ident. rewrite drop_app_length. cbn [app]. rewrite Hc.
  rewrite run_length_all by (done || naive_solver). by rewrite take_app_length.
Qed.

Lemma idents_tail ns : Forall is_id ns -> forall pre, idents (pre ++ concat (map (cons 44) ns)) (length pre) ns.
Proof.
  induction 1 as [|nm ns Hn _ IH]; intros pre; cbn [map concat].
  { apply I_end. rewrite app_nil_r. done. }
  set (k := concat (map (cons 44) ns)).
  assert (forall c, head k = Some c -> c0c_is_ident c = false) as Hk.
  { unfold k. destruct ns as [|n ns]; [done|]. by intros c [= <-]. }
  replace (pre ++ (44 :: nm) ++ k) with ((pre ++ [44]) ++ nm ++ k) by (by rewrite <- app_assoc).
  apply I_skip; [rewrite !length_app; cbn [length]; lia| |].
  - unfold c0c_read_ident. rewrite <- app_assoc, drop_app_length. done.
  - replace (length pre + 1)%nat with (length (pre ++ [44])) by (rewrite length_app; done).
    pose proof (read_ident_at (pre ++ [44]) nm k Hn Hk) as E. rewrite <- E at 2. destruct Hn as (c & l & Hnm & _).
    apply I_ident; rewrite ?E.
    + rewrite !length_app, Hnm. cbn [length]. lia.
    + by rewrite Hnm.
    + rewrite <- length_app, app_assoc. apply IH.
Qed.

Lemma idents_joined ns : Forall is_id ns -> idents (joined ns) 0 ns.
Proof.
  intros Hns. destruct Hns as [|nm ns Hn Hns]; cbn [joined]; [by apply I_end|]. set (k := concat (map (cons 44) ns)).
  assert (forall c, head k = Some c -> c0c_is_ident c = false) as Hk.
  { unfold k. destruct ns as [|n ns']; [done|]. by intros c [= <-]. }
  pose proof (read_ident_at [] nm k Hn Hk) as E. cbn [app length] in E. rewrite <- E at 2. destruct Hn as (c & l & Hnm & _).
  apply I_ident; rewrite ?E; [rewrite length_app, Hnm; cbn [length]; lia|by rewrite Hnm|]. by apply idents_tail.
Qed.

Lemma idents_fun csv k l : idents csv k l -> forall l', idents csv k l' -> l = l'.
Proof.
  induction 1 as [k Hk|k l Hk Hr _ IH|k l Hk Hr _ IH]; intros l' H'; inv H'; try done; try lia.
  - f_equal. by apply IH.
  - by apply IH.
Qed.

(** ** check *)

Definition well_formed (src : list Z) (ns : list (list Z)) : Prop :=
  ns <> [] /\ exists l t, src = l ++ t /\ nested l /\ open_string t.

Lemma val_writes `{Env} {A} s1 s f b0 b (k : C0Buf -> Mem A) Q m : writes s f -> wrote s1 b0 b ->
  (forall b' m', wrote (s1 ++ s) b0 b' -> val_ok Q (k b' m')) -> val_ok Q ((f b ≫= k) m).
Proof.
  intros Hf Hb Hk. eapply val_bind; [apply Hf, Hb|]. intros b' m' H'. apply Hk. by eapply wrote_trans.
Qed.

Lemma check_record_ok `{Env} src ns fns m : mallocs_succeed -> names_from src 0 ns ->
  (forall b m, buf_wf b -> val_ok (wrote (joined ns) b) (c0c_fn_names src b m)) -> Forall plain_fn fns -> fits (joined ns) ->
  exists ex, idents (c0c_exports src) 0 ex /\ (fits (check_record src ns ex fns) ->
    val_ok (fun r => r = Some (check_record src ns ex fns)) (c0_check_rulel src fns m)).
Proof.
  intros Ha Hns Hw Hp Hfit. destruct (csv_array_ok (c0c_exports src)) as (ex & He & Hwe). exists ex. split; [done|]. intros Hf.
  unfold c0_check_rulel. eapply val_bind; [by apply (Hw c0b_init m buf_init)|]. intros names m1 [_ [Ht|[[t Ht]|Ht]]];
    [|by rewrite Ha in Ht|by cbn in Ht]. cbn [c0b_init b_text app] in Ht. rewrite Ht.
  destruct (csv_array_ok (joined ns)) as (l & Hl & Hwl).
  assert (l = ns) as -> by (eapply idents_fun; [exact Hl|apply idents_joined; by eapply names_are_ids]).
  assert (wrote [] c0b_init c0b_init) as H0 by (apply wrote_nil, buf_init).
  pose proof (types_ok fns Hp) as Hwt.
  do 9 (eapply val_writes; [|eassumption|];
    [match goal with
     | |- writes _ (c0b_s ?t) => by apply (writes_s t)
     | |- writes _ (c0b_n ?t) => apply (writes_n t)
     | _ => eassumption
     end|clear dependent m1; intros ? m1 ?]).
  apply val_ret. match goal with Hr : wrote _ _ ?b' |- b_ptr ?b' = _ => rename b' into b; destruct Hr as [Hwf [E|[[t E]|E]]] end; [|by rewrite Ha in E|].
  - cbn [c0b_init b_text] in E. rewrite app_nil_l in E.
    match type of E with _ = ?r => assert (r = check_record src ns ex fns) as Er by (unfold check_record, quote; by rewrite <- !app_assoc) end.
    rewrite Er in E. unfold b_ptr. destruct (Z.eqb_spec (b_cap b) 0) as [E0|_]; [|by rewrite E].
    destruct Hwf as [[_ Ed]|Hcap]; [by rewrite E in Ed|lia].
  - exfalso. apply E. cbn [c0b_init b_text]. rewrite app_nil_l.
    match goal with |- fits ?r => assert (r = check_record src ns ex fns) as -> by (unfold check_record, quote; by rewrite <- !app_assoc) end. done.
Qed.

(** The declarations [check] reads; none when they cannot be read. *)
Definition declared `{Env} (src : list Z) (m : C0Mem) : list C0FnInfo :=
  match c0_parse_fn_infos src m with Val l _ => l | _ => [] end.

Lemma declared_plain `{Env} src m : Forall plain_fn (declared src m) /\
  exists r m', or_null (c0_parse_fn_infos src) m = Val r m' /\ default [] r = declared src m.
Proof.
  unfold declared, or_null, c0_parse_fn_infos. pose proof (infos_mem src m) as Hi. unfold mbind, Mem_bind.
  destruct (infos_loop src (S (length src)) 0 1 [] 0 m) as [fns m1|m1|]; cbn [mem_ok] in Hi; [|split; [constructor|by eexists _, _]|done].
  destruct fns as [|f fns]; (split; [|by eexists _, _]); [constructor|].
  eapply Forall_impl; [intros g; apply info_plain|exact Hi].
Qed.

(** [check] reports a text of the wrong form, or one of its clashes of types,
    with status 1, and otherwise prints its record with status 0. *)
Theorem cmd_check_correct `{Env} fs p0 p1 path words m src m1
    (Ha : mallocs_succeed) (Hs : read_file fs path m = Val (Some src) m1) :
  let fns := declared src m1 in
  let clashes msg := exists F ls s, F ∈ fns /\ (ls, s) ∈ statements fns F /\ clash fns F ls s msg in
  exists ns ex, names_from src 0 ns /\ idents (c0c_exports src) 0 ex /\
    (fits (joined ns) -> fits (check_record src ns ex fns) -> (forall msg, clashes msg -> fits msg) ->
     exists r m', cmd_check fs (p0 :: p1 :: path :: words) m = Val r m' /\
     ((~ well_formed src ns /\ r = mkRan [] (cstr "LIN_PARSE" ++ [10]) 1 None) \/
      (well_formed src ns /\ exists msg, clashes msg /\ r = mkRan [] (strz msg ++ [10]) 1 None) \/
      (well_formed src ns /\ (forall msg, ~ clashes msg) /\ r = mkRan (strz (check_record src ns ex fns)) [] 0 None))).
Proof.
  intros fns clashes. destruct (names_loop_ok src (S (length src)) 0 true ltac:(lia)) as (ns & Hns & Hw).
  destruct (declared_plain src m1) as (Hp & infos & m2 & Ei & Ed). fold fns in Hp, Ed.
  destruct (csv_array_ok (c0c_exports src)) as (ex & He & _). exists ns, ex. split_and!; [done..|]. intros F1 F2 F3.
  assert (~ alloc_failed) as Hna by (intros [t Ht]; by rewrite Ha in Ht).
  unfold cmd_check. cbn [length Nat.ltb Nat.leb]. change (arg (p0 :: p1 :: path :: words) 2) with path. after Hs. after Ei. cbv zeta. rewrite Ed.
  destruct (val_exists _ _ (syntax_valid_answers src ns m2 Hns Hw)) as (v & m3 & E3 & [?|[?|Hv]]); [done..|]. after E3.
  fold (well_formed src ns) in Hv. destruct v; cbn [negb]; [|eexists _, _; split; [reflexivity|left; split; [|done]; intros Hwf; by apply Hv in Hwf]].
  assert (well_formed src ns) as Hwf by (by apply Hv).
  destruct (val_exists _ _ (type_check_answers fns m3 Hp)) as ([msg|] & m4 & E4 & Ht); after E4; cbn [type_answer] in Ht.
  - destruct Ht as [?|Ht]; [done|]. eexists _, _. split; [reflexivity|]. right. left. split; [done|]. by exists msg.
  - destruct Ht as [?|[Ht|(F & ls & s & msg & HF & Hi & Hk & Hf)]]; [done| |exfalso; apply Hf, F3; by exists F, ls, s].
    destruct (check_record_ok src ns fns m4 Ha Hns Hw Hp F1) as (ex' & He' & Hr).
    assert (ex' = ex) as -> by (by eapply idents_fun).
    destruct (val_exists _ _ (Hr F2)) as (t & m5 & E5 & ->). after E5. eexists _, _. split; [reflexivity|]. right. right.
    split; [done|]. split; [|done]. intros msg (F & ls & s & HF & Hi & Hk). by apply (Ht F ls s HF Hi msg).
Qed.

(** With no memory for the declarations the types of none are checked, and an
    ill-typed text passes: the arena takes two allocations, the file the third. *)
Definition fails_once : Env := {| alloc_ok := fun t => negb (t =? 3)%nat; io_ok := fun _ => true; io_count := fun _ => O |}.
Definition ill_typed_text : list Z := cstr "!f(n: int) -> int { ^n < 2 }".

Lemma check_fails_open :
  match @cmd_check fails_once (fun _ => Some ill_typed_text) (map cstr ["lin_c0"; "check"; "a.lin"]%string) (mkMem 2 0 C0_CHUNK_DEFAULT) with
  | Val r _ => status r = 0
  | _ => False
  end /\
  match @cmd_check calm (fun _ => Some ill_typed_text) (map cstr ["lin_c0"; "check"; "a.lin"]%string) (mkMem 2 0 C0_CHUNK_DEFAULT) with
  | Val r _ => status r = 1
  | _ => False
  end.
Proof. split; vm_compute; reflexivity. Qed.

Lemma cmd_check_correct_witness :
  let fns := @declared calm ill_typed_text sample_mem in
  let clashes msg := exists F ls s, F ∈ fns /\ (ls, s) ∈ statements fns F /\ clash fns F ls s msg in
  exists ns ex, names_from ill_typed_text 0 ns /\ idents (c0c_exports ill_typed_text) 0 ex /\
    (fits (joined ns) -> fits (check_record ill_typed_text ns ex fns) -> (forall msg, clashes msg -> fits msg) ->
     exists r m', @cmd_check calm (fun _ => Some ill_typed_text) (map cstr ["lin_c0"; "check"; "a.lin"]%string) mem0 = Val r m' /\
     ((~ well_formed ill_typed_text ns /\ r = mkRan [] (cstr "LIN_PARSE" ++ [10]) 1 None) \/
      (well_formed ill_typed_text ns /\ exists msg, clashes msg /\ r = mkRan [] (strz msg ++ [10]) 1 None) \/
      (well_formed ill_typed_text ns /\ (forall msg, ~ clashes msg) /\
         r = mkRan (strz (check_record ill_typed_text ns ex fns)) [] 0 None))).
Proof.
  assert (@read_file calm (fun _ => Some ill_typed_text) (cstr "a.lin") mem0 = Val (Some ill_typed_text) sample_mem) as E
    by (vm_compute; reflexivity).
  exact (@cmd_check_correct calm (fun _ => Some ill_typed_text) (cstr "lin_c0") (cstr "check") (cstr "a.lin") [] mem0 ill_typed_text
    sample_mem (fun _ => eq_refl) E).
Defined.
