(* ===== verification/CliReceiptRead.v ===== *)
(** * Compute receipts: the two texts read back

    Searching a text for a key, scanning its fields, and the round trip: the claim
    read from a printed receipt is what it was printed from. *)
From stdpp Require Import strings.
From S2P Require Import Prelude Common Token Ast Parse ParseSpec Str Decimal Region Abi Vm Lower Sha256 Sys C0Lex C0LexSpec Cli CliReceipt CliSpec.

(** ** Searching a text *)

(** No occurrence of [nd] starts in [a], whatever follows. *)
Definition compatible (nd t : list Z) : bool := bytes_eqb (take (length nd) t) (take (length t) nd).

Fixpoint misses (nd a : list Z) : bool :=
  match a with
  | [] => true
  | _ :: a' => negb (compatible nd a) && misses nd a'
  end.

Lemma strstr_next c s nd : take (length nd) (c :: s) <> nd -> strstr (c :: s) nd = strstr s nd.
Proof.
  intros Hn. unfold strstr. cbn [c0_index_str]. apply bytes_eqb_neq in Hn. rewrite Hn.
  by destruct (c0_index_str s nd).
Qed.

Lemma strstr_misses nd a s : misses nd a = true -> strstr (a ++ s) nd = strstr s nd.
Proof.
  induction a as [|c a IH]; cbn [misses app]; [done|]. intros [Hc Hm]%andb_true_iff.
  rewrite strstr_next; [by apply IH|]. intros E. apply negb_true_iff, bytes_eqb_neq in Hc. apply Hc.
  rewrite <- E at 2. change (c :: a ++ s) with ((c :: a) ++ s). rewrite take_take, take_app.
  destruct (Nat.le_ge_cases (length nd) (length (c :: a))) as [Hl|Hl].
  - rewrite Nat.min_r by done. replace (length nd - length (c :: a))%nat with O by lia. by rewrite take_0, app_nil_r.
  - rewrite Nat.min_l by done. rewrite Nat.sub_diag, take_0, app_nil_r, !take_ge by lia. done.
Qed.

Lemma strstr_skip a s w : ~ 34 ∈ a -> strstr (a ++ s) (34 :: w) = strstr s (34 :: w).
Proof.
  induction a as [|c a IH]; [done|]. intros Hn. cbn [app]. rewrite strstr_next.
  - apply IH. intros Ha. apply Hn. by right.
  - intros [= -> _]. apply Hn. by left.
Qed.

Lemma strstr_here nd s : nd <> [] -> strstr (nd ++ s) nd = Some (nd ++ s).
Proof.
  intros Hn. unfold strstr. destruct nd as [|c nd]; [done|]. cbn [app c0_index_str].
  change (c :: nd ++ s) with ((c :: nd) ++ s). by rewrite take_app_length, bytes_eqb_refl.
Qed.

(** What follows a quote up to the next one. *)
Lemma quoted_match a w s z : ~ 34 ∈ a -> ~ 34 ∈ w ->
  take (length (w ++ 34 :: z)) (a ++ 34 :: s) = w ++ 34 :: z -> a = w /\ take (length z) s = z.
Proof.
  intros Ha. revert w. induction a as [|c a IH]; intros [|d w] Hw; cbn [app length take].
  - intros [= E]. done.
  - intros [= <- _]. destruct Hw. by left.
  - intros [= -> _]. destruct Ha. by left.
  - intros [= -> E]. destruct (IH (fun Hx => Ha ltac:(by right)) w (fun Hx => Hw ltac:(by right)) E) as [-> Hz]. done.
Qed.

Lemma strstr_quoted a s w z : ~ 34 ∈ a -> ~ 34 ∈ w -> a <> w \/ take (length z) s <> z ->
  strstr (34 :: a ++ 34 :: s) (34 :: w ++ 34 :: z) = strstr (34 :: s) (34 :: w ++ 34 :: z).
Proof.
  intros Ha Hw Hn. rewrite strstr_next; [by apply (strstr_skip a (34 :: s))|]. cbn [length take]. intros [= E].
  apply quoted_match in E as [-> E]; [|done..]. by destruct Hn.
Qed.

(** ** Reading back *)

Definition not_digit_next (rest : list Z) : Prop := forall c k, rest = c :: k -> is_digit c = false.

Lemma fmt_u64_head x rest : in_u64 x -> exists c l, fmt_u64 x ++ rest = c :: l /\ is_digit c = true.
Proof.
  intros Hx. destruct (fmt_u64_spec x Hx) as (_ & _ & Hl). destruct (fmt_u64 x) as [|c l] eqn:E; [simpl in Hl; lia|].
  exists c, (l ++ rest). split; [done|by apply (digit_head x c l)].
Qed.

Lemma skip_blanks_digit x rest : in_u64 x -> skip_blanks (fmt_u64 x ++ rest) = fmt_u64 x ++ rest.
Proof.
  intros Hx. destruct (fmt_u64_head x rest Hx) as (c & l & -> & Hc). unfold skip_blanks. cbn [run_length].
  by rewrite (proj1 (digit_not_space c Hc)).
Qed.

Lemma strtoull_fmt x rest : in_u64 x -> not_digit_next rest -> strtoull (fmt_u64 x ++ rest) = Some (x, rest).
Proof.
  intros Hx Hr. unfold strtoull. rewrite skip_blanks_digit by done.
  assert (scan_sign (fmt_u64 x ++ rest) = (false, fmt_u64 x ++ rest)) as ->.
  { destruct (fmt_u64_head x rest Hx) as (c & l & -> & Hc). unfold scan_sign.
    destruct (digit_not_space c Hc) as (_ & -> & ->). done. }
  destruct (fmt_u64_spec x Hx) as (Hv & Hd & Hl). rewrite run_length_all, take_app_length, drop_app_length, Hv by done.
  destruct (Nat.eqb_spec (length (fmt_u64 x)) 0); [lia|]. unfold in_u64, two64 in *.
  destruct (Z.ltb_spec (18446744073709551616 - 1) x); [lia|]. done.
Qed.

(** Every blank of a format stands before another character. *)
Fixpoint tight (k : list Z) : bool :=
  match k with
  | [] => true
  | c :: k' =>
      (if is_space c then match k' with d :: _ => negb (is_space d) | [] => false end else true) && tight k'
  end.

Lemma sscanf_lit k s fs : tight k = true -> sscanf (k ++ s) (lit k ++ fs) = sscanf s fs.
Proof.
  induction k as [|c k IH]; [done|]. cbn [tight]. intros [Hc Ht]%andb_true_iff. unfold lit in *. cbn [map app].
  destruct (is_space c) eqn:Ec; cbn [sscanf].
  - destruct k as [|d k]; [done|]. rewrite <- (IH Ht). unfold skip_blanks. cbn [app run_length]. rewrite Ec.
    apply negb_true_iff in Hc. by rewrite Hc.
  - rewrite Z.eqb_refl. by apply IH.
Qed.

Lemma sscanf_i64 x rest fs : in_i64 x -> not_digit_next rest -> sscanf (fmt_i64 x ++ rest) (F_i64 :: fs) = S_num x :: sscanf rest fs.
Proof. intros Hx Hr. cbn [sscanf]. by rewrite strtoll_fmt. Qed.

Lemma sscanf_u64 x rest fs : in_u64 x -> not_digit_next rest -> sscanf (fmt_u64 x ++ rest) (F_u64 :: fs) = S_num x :: sscanf rest fs.
Proof. intros Hx Hr. cbn [sscanf]. by rewrite strtoull_fmt. Qed.

Lemma sscanf_text v rest n fs : ~ 34 ∈ v -> v <> [] -> (length v <= n)%nat ->
  sscanf (v ++ 34 :: rest) (F_text n :: fs) = S_text v :: sscanf (34 :: rest) fs.
Proof.
  intros Hv Hn Hl. cbn [sscanf]. assert (run_length (fun c => negb (c =? 34)) (take n (v ++ 34 :: rest)) = length v) as ->.
  { rewrite take_app, take_ge by lia. rewrite run_length_all; [done| |].
    - apply List.forallb_forall. intros c Hc. apply negb_true_iff, Z.eqb_neq. intros ->. by apply Hv, list_elem_of_In.
    - intros c k. destruct (n - length v)%nat; cbn [take]; [done|]. intros [= <- _]. done. }
  destruct (Nat.eqb_spec (length v) 0) as [E|_]; [by destruct v|]. by rewrite take_app_length, drop_app_length.
Qed.

(** ** Hexadecimal *)

Lemma hex_digit_range c v : hex_digit c = Some v ->
  0 <= v < 16 /\ is_space c = false /\ (c =? 45) = false /\ (c =? 43) = false.
Proof.
  unfold hex_digit, in_range, is_space. intros H. repeat case_match; simplify_eq; to_prop;
    (split; [lia|]); (split; [apply orb_false_iff; split; [|apply andb_false_iff; right]|split]);
    first [apply Z.eqb_neq|apply Z.leb_gt]; lia.
Qed.

Lemma scan_x2_two c1 c2 v1 v2 rest : hex_digit c1 = Some v1 -> hex_digit c2 = Some v2 ->
  scan_x2 (c1 :: c2 :: rest) = Some (v1 * 16 + v2, rest).
Proof.
  intros H1 H2. destruct (hex_digit_range _ _ H1) as (R1 & Hs & E45 & E43). destruct (hex_digit_range _ _ H2) as (R2 & _).
  unfold scan_x2, skip_blanks. cbn [run_length]. rewrite Hs. cbn [drop]. unfold scan_sign. rewrite E45, E43, Nat.ltb_irrefl.
  assert (is_hex c1 = true /\ is_hex c2 = true) as [I1 I2] by (split; apply bool_decide_eq_true; eauto).
  change (take 2 (c1 :: c2 :: rest)) with [c1; c2]. cbn [run_length]. rewrite I1, I2.
  change (take 2 (c1 :: c2 :: rest)) with [c1; c2]. cbn [length Nat.eqb andb fold_left]. rewrite H1, H2.
  change (drop 2 (c1 :: c2 :: rest)) with rest. cbv [from_option id].
  rewrite u32_id by (unfold in_u32, two32; lia). done.
Qed.

Lemma hex_digit_hexd n : 0 <= n < 16 -> hex_digit (hexd n) = Some n.
Proof.
  intros Hn. rewrite <- (Z2Nat.id n) by lia. assert (Z.to_nat n < 16)%nat as Hk by lia. revert Hk.
  generalize (Z.to_nat n) as k. clear. intros k Hk. do 16 (destruct k as [|k]; [reflexivity|]). lia.
Qed.

Lemma scan_hexd b rest : 0 <= b < 256 -> sscanf (hexd (Z.shiftr b 4) :: hexd (Z.land b 15) :: rest) [F_x2] = [S_num b].
Proof.
  intros Hb. change 15 with (Z.ones 4). rewrite Z.land_ones, Z.shiftr_div_pow2 by lia. change (2 ^ 4) with 16.
  cbn [sscanf]. rewrite (scan_x2_two _ _ (b / 16) (b mod 16)) by (apply hex_digit_hexd; Z.div_mod_to_equations; lia).
  do 2 f_equal. Z.div_mod_to_equations. lia.
Qed.

Lemma read_hex_digest d : bytes_wf d -> read_hex (length d) (lin_sha256_hex d) = Some d.
Proof.
  induction 1 as [|b d Hb _ IH]; [done|]. unfold in_u8, two8 in Hb.
  change (lin_sha256_hex (b :: d)) with (hexd (Z.shiftr b 4) :: hexd (Z.land b 15) :: lin_sha256_hex d).
  cbn [length read_hex]. rewrite scan_hexd by done.
  change (drop 2 (hexd (Z.shiftr b 4) :: hexd (Z.land b 15) :: lin_sha256_hex d)) with (lin_sha256_hex d). rewrite IH. cbn [mbind option_bind]. by rewrite u8_id.
Qed.

(** ** The texts of a receipt *)

(** A field that neither ends its line nor its quotes. *)
Definition clean (l : list Z) : Prop := Forall (fun c => c <> 0 /\ c <> 10 /\ c <> 34) l.

Lemma clean_no_quote l : clean l -> ~ 34 ∈ l.
Proof. intros Hl Hx. by apply list_elem_of_In, (proj1 (Forall_forall _ _) Hl) in Hx as (_ & _ & ?). Qed.

Lemma clean_no_newline l : clean l -> ~ 10 ∈ l.
Proof. intros Hl Hx. by apply list_elem_of_In, (proj1 (Forall_forall _ _) Hl) in Hx as (_ & ? & _). Qed.

Definition cleanb (l : list Z) : bool := forallb (fun c => negb ((c =? 0) || (c =? 10) || (c =? 34))) l.

Lemma cleanb_clean l : cleanb l = true -> clean l.
Proof.
  intros Hl. apply Forall_forall. intros c Hc. apply (proj1 (List.forallb_forall _ _) Hl) in Hc. to_prop. done.
Qed.

Lemma clean_digits l : forallb is_digit l = true -> clean l.
Proof.
  intros Hl. apply Forall_forall. intros c Hc. apply (proj1 (List.forallb_forall _ _) Hl) in Hc. unfold is_digit in Hc. to_prop. lia.
Qed.

Lemma clean_u64 x : in_u64 x -> clean (fmt_u64 x).
Proof. intros Hx. by apply clean_digits, (fmt_u64_spec x). Qed.

Lemma clean_i64 x : in_i64 x -> clean (fmt_i64 x).
Proof.
  unfold in_i64, two63, fmt_i64. intros Hx. destruct (Z.ltb_spec x 0); [constructor; [done|]|]; apply clean_u64; unfold in_u64, two64; lia.
Qed.

Lemma clean_hex d : bytes_wf d -> clean (lin_sha256_hex d).
Proof.
  assert (forall n, 0 <= n < 16 -> hexd n <> 0 /\ hexd n <> 10 /\ hexd n <> 34) as Hh.
  { intros n Hn. rewrite <- (Z2Nat.id n) by lia. assert (Z.to_nat n < 16)%nat as Hk by lia. revert Hk.
    generalize (Z.to_nat n) as k. clear. intros k Hk. do 16 (destruct k as [|k]; [done|]). lia. }
  induction 1 as [|b d Hb _ IH]; [constructor|]. unfold in_u8, two8 in Hb.
  change (lin_sha256_hex (b :: d)) with (hexd (Z.shiftr b 4) :: hexd (Z.land b 15) :: lin_sha256_hex d).
  change 15 with (Z.ones 4). rewrite Z.land_ones, Z.shiftr_div_pow2 by lia. change (2 ^ 4) with 16.
  constructor; [|constructor; [|done]]; apply Hh; Z.div_mod_to_equations; lia.
Qed.

Lemma lin_sha256_facts m : bytes_wf (lin_sha256 m) /\ length (lin_sha256 m) = 32%nat /\ lin_sha256 m = sha256_spec m.
Proof.
  assert (lin_sha256 m = sha256_spec m) as ->.
  { pose proof (sh_concat (C := LinSha256) (digest := sha256_spec) [m]) as E. cbn [concat] in E. by rewrite app_nil_r in E. }
  split; [apply (sh_bytes (C := LinSha256))|]. split; [apply (sh_length (C := LinSha256))|done].
Qed.

Lemma hex64_facts m : clean (hex64 (lin_sha256 m)) /\ length (hex64 (lin_sha256 m)) = 64%nat /\
  read_hex 32 (hex64 (lin_sha256 m)) = Some (lin_sha256 m).
Proof.
  destruct (lin_sha256_facts m) as (Hb & Hl & _). unfold hex64. split; [by apply clean_hex|].
  destruct (lin_sha256_hex_inv _ Hb) as [-> _]. rewrite Hl. split; [done|]. rewrite <- Hl. by apply read_hex_digest.
Qed.

Record printable (o : create_opts) (host : list Z) (c : compute) : Prop := {
  ro_input : in_i64 (input_val o);
  ro_out : in_i64 (c_out c);
  ro_steps : in_u64 (c_steps c);
  ro_sp : in_u64 (c_sp c);
  ro_dev : clean (target_dev o);
  ro_host : clean host
}.

(** What a receipt claims. *)
Definition claim_of (o : create_opts) (c : compute) : claim :=
  mkClaim (code_hex o) (input_val o) (c_out c) (c_steps c) (c_sp c) (cstr "sha256:" ++ merkle_hex o c).

(** *** JSON *)

(** A field on its line, quoted or bare. *)
Definition quoted_field (k v rest : list Z) : list Z := [10; 32; 32] ++ k ++ 32 :: 34 :: v ++ 34 :: 44 :: rest.
Definition bare_field (k v rest : list Z) : list Z := [10; 32; 32] ++ k ++ 32 :: v ++ 44 :: rest.

Definition key (w : list Z) : list Z := 34 :: w ++ [34; 58].

Lemma json_shape o host c : json_receipt o host c =
  123 :: quoted_field (key (cstr "schema")) (cstr "LIN_COMPUTE_RECEIPT_1.0") (quoted_field (key (cstr "status")) (cstr "INTEGRITY_RECEIPT_LOCAL")
   (bare_field (key (cstr "verification_level")) (cstr "0") (quoted_field (key (cstr "artifact")) (cstr "sha256:" ++ code_hex o)
   (quoted_field (key (cstr "input")) (fmt_i64 (input_val o)) (quoted_field (key (cstr "output")) (fmt_i64 (c_out c))
   (bare_field (key (cstr "steps")) (fmt_u64 (c_steps c)) (bare_field (key (cstr "sp_at_ret")) (fmt_u64 (c_sp c))
   (quoted_field (key (cstr "target_device")) (target_dev o) (quoted_field (key (cstr "host_arch")) host
   ([10; 32; 32] ++ key (cstr "merkle_root") ++ 32 :: 34 :: (cstr "sha256:" ++ merkle_hex o c) ++ [34; 10; 125; 10])))))))))).
Proof. reflexivity. Qed.


Definition key_name (w : list Z) : bool :=
  forallb (fun c => negb (c =? 34)) w && match w with c :: _ => negb ((c =? 58) || (c =? 44)) | [] => false end.

Lemma no_quote_test w : forallb (fun c => negb (c =? 34)) w = true -> ~ 34 ∈ w.
Proof. intros Hw Hx. apply list_elem_of_In in Hx. by apply (proj1 (List.forallb_forall _ _) Hw) in Hx. Qed.

Section Fields.
Context (w : list Z) (Hw : key_name w = true).

Lemma key_no_quote : ~ 34 ∈ w.
Proof. unfold key_name in Hw. apply andb_true_iff in Hw as [H _]. by apply no_quote_test. Qed.

(** A quote before a colon or a comma opens no key. *)
Lemma skip_close d s : d = 58 \/ d = 44 -> strstr (34 :: d :: s) (key w) = strstr s (key w).
Proof.
  unfold key_name in Hw. apply andb_true_iff in Hw as [_ H]. destruct w as [|c w']; [done|]. apply negb_true_iff in H. to_prop.
  intros Hd. rewrite strstr_next; [rewrite strstr_next; [done|]|].
  - unfold key. cbn [app length take]. intros [= E _]. lia.
  - unfold key. cbn [app length take]. intros [= E _]. lia.
Qed.

Lemma find_field rest : strstr ([10; 32; 32] ++ key w ++ rest) (key w) = Some (key w ++ rest).
Proof. unfold key at 2. rewrite (strstr_skip [10; 32; 32]) by (by apply no_quote_test). by apply (strstr_here (key w)). Qed.

Lemma find_quoted v rest : strstr (quoted_field (key w) v rest) (key w) = Some (key w ++ 32 :: 34 :: v ++ 34 :: 44 :: rest).
Proof. apply find_field. Qed.

Lemma find_bare v rest : strstr (bare_field (key w) v rest) (key w) = Some (key w ++ 32 :: v ++ 44 :: rest).
Proof. apply find_field. Qed.

Lemma skip_key k s : key_name k = true -> k <> w -> strstr ([10; 32; 32] ++ key k ++ s) (key w) = strstr s (key w).
Proof.
  intros Hk Hn. assert (~ 34 ∈ k) as Hq by (unfold key_name in Hk; apply andb_true_iff in Hk as [H _]; by apply no_quote_test).
  unfold key at 2. rewrite (strstr_skip [10; 32; 32]) by (by apply no_quote_test).
  unfold key at 1. cbn [app]. rewrite <- app_assoc. change ([34; 58] ++ s) with (34 :: 58 :: s).
  rewrite strstr_quoted; [|done|apply key_no_quote|by left]. change (34 :: w ++ [34; 58]) with (key w). apply skip_close. by left.
Qed.

Lemma skip_quoted k v rest : key_name k = true -> k <> w -> clean v -> strstr (quoted_field (key k) v rest) (key w) = strstr rest (key w).
Proof.
  intros Hk Hn Hv%clean_no_quote. unfold quoted_field. rewrite skip_key by done.
  change (32 :: 34 :: v ++ 34 :: 44 :: rest) with ([32] ++ 34 :: v ++ 34 :: 44 :: rest). unfold key.
  rewrite (strstr_skip [32]) by (by apply no_quote_test).
  rewrite strstr_quoted; [|done|apply key_no_quote|by right]. change (34 :: w ++ [34; 58]) with (key w). apply skip_close. by right.
Qed.

Lemma skip_bare k v rest : key_name k = true -> k <> w -> clean v -> strstr (bare_field (key k) v rest) (key w) = strstr rest (key w).
Proof.
  intros Hk Hn Hv%clean_no_quote. unfold bare_field. rewrite skip_key by done.
  replace (32 :: v ++ 44 :: rest) with ((32 :: v ++ [44]) ++ rest) by (cbn [app]; by rewrite <- app_assoc).
  apply strstr_skip. intros [?|[?|?%list_elem_of_singleton]%elem_of_app]%elem_of_cons; done.
Qed.
End Fields.

(** Reading one field. *)
Lemma scan_bare w x rest : key_name w = true -> tight (key w) = true -> in_u64 x ->
  json_u64 (key w) (key w ++ 32 :: fmt_u64 x ++ 44 :: rest) = x.
Proof.
  intros Hw Ht Hx. unfold json_u64, lit. rewrite map_app, <- app_assoc. change (map _ (key w)) with (lit (key w)).
  rewrite sscanf_lit by done. change (map _ (cstr " ") ++ [F_u64]) with [F_blank; F_u64]. cbn [sscanf].
  change (skip_blanks (32 :: fmt_u64 x ++ 44 :: rest)) with (skip_blanks (fmt_u64 x ++ 44 :: rest)).
  rewrite skip_blanks_digit, strtoull_fmt by (done || (by intros ? ? [= <- _])). done.
Qed.

Lemma scan_quoted w x rest : tight (key w ++ qstr " '") = true -> in_i64 x ->
  json_i64 (key w) (key w ++ 32 :: 34 :: fmt_i64 x ++ 34 :: 44 :: rest) = x.
Proof.
  intros Ht Hx. unfold json_i64. replace (key w ++ 32 :: 34 :: fmt_i64 x ++ 34 :: 44 :: rest) with
    ((key w ++ qstr " '") ++ fmt_i64 x ++ 34 :: 44 :: rest) by (by rewrite <- app_assoc).
  rewrite sscanf_lit by done. change ([F_i64] ++ lit [34]) with (F_i64 :: lit [34]).
  rewrite sscanf_i64 by (done || (by intros ? ? [= <- _])). done.
Qed.

Lemma scan_quotes L v n rest : tight L = true -> ~ 34 ∈ v -> (0 < length v <= n)%nat ->
  sscanf (L ++ v ++ 34 :: rest) (lit L ++ [F_text n] ++ lit [34]) = [S_text v].
Proof.
  intros HL Hv Hn. rewrite sscanf_lit by done. change ([F_text n] ++ lit [34]) with (F_text n :: lit [34]).
  rewrite sscanf_text by (done || lia || by intros ->; simpl in Hn; lia). done.
Qed.

Ltac reach w find :=
  repeat first [rewrite (skip_quoted w) by (done || by apply cleanb_clean)|rewrite (skip_bare w) by (done || by apply cleanb_clean)];
  rewrite (find w) by done; cbv beta iota.

Lemma read_claim_json o host c : printable o host c -> read_claim (json_receipt o host c) = claim_of o c.
Proof.
  intros [Hi Ho Hs Hp Hd Hh]. destruct (hex64_facts (source_code o)) as (Ca & La & _).
  destruct (hex64_facts (receipt_leaf (lin_sha256 (source_code o)) (c_out c) (c_steps c) (c_sp c) (input_val o))) as (Cm & Lm & _).
  fold (code_hex o) in Ca, La. fold (merkle_hex o c) in Cm, Lm.
  unfold read_claim. rewrite (bool_decide_true (head _ = Some 123)) by done. cbn [orb]. rewrite json_shape. unfold read_json.
  pose proof (clean_i64 _ Hi). pose proof (clean_i64 _ Ho). pose proof (clean_u64 _ Hs). pose proof (clean_u64 _ Hp).
  assert (clean (cstr "sha256:" ++ code_hex o)) by (apply Forall_app; split; [by apply cleanb_clean|done]).
  change (qstr "'artifact':") with (key (cstr "artifact")). change (qstr "'input':") with (key (cstr "input")).
  change (qstr "'output':") with (key (cstr "output")). change (qstr "'steps':") with (key (cstr "steps")).
  change (qstr "'sp_at_ret':") with (key (cstr "sp_at_ret")). change (qstr "'merkle_root':") with (key (cstr "merkle_root")).
  assert (forall w r, strstr (123 :: r) (key w) = strstr r (key w)) as Hb by (intros; apply strstr_next; discriminate).
  rewrite !Hb.
  reach (cstr "artifact") find_quoted. reach (cstr "input") find_quoted. reach (cstr "output") find_quoted.
  reach (cstr "steps") find_bare. reach (cstr "sp_at_ret") find_bare. reach (cstr "merkle_root") find_field.
  rewrite !scan_quoted, !scan_bare by done. unfold claim_of. f_equal.
  - unfold json_artifact. change (key (cstr "artifact") ++ 32 :: 34 :: (cstr "sha256:" ++ code_hex o) ++ 34 :: ?r) with
      (qstr "'artifact': 'sha256:" ++ code_hex o ++ 34 :: r).
    rewrite scan_quotes by (done || lia || by apply clean_no_quote). cbn [first_text]. by rewrite La.
  - change (key (cstr "merkle_root") ++ 32 :: 34 :: (cstr "sha256:" ++ merkle_hex o c) ++ [34; 10; 125; 10]) with
      (qstr "'merkle_root': '" ++ (cstr "sha256:" ++ merkle_hex o c) ++ 34 :: [10; 125; 10]).
    assert (clean (cstr "sha256:" ++ merkle_hex o c)) by (apply Forall_app; split; [by apply cleanb_clean|done]).
    assert (length (cstr "sha256:" ++ merkle_hex o c) = 71%nat) as L by (by rewrite length_app, Lm).
    rewrite scan_quotes by (done || lia || by apply clean_no_quote). done.
Qed.

(** *** RULEL *)

Lemma rulel_lines_cons cur a r : ~ 10 ∈ a -> rulel_lines cur (a ++ 10 :: r) = (cur ++ a) :: rulel_lines [] r.
Proof.
  revert cur. induction a as [|c a IH]; intros cur Ha; cbn [app rulel_lines]; [by rewrite app_nil_r|].
  destruct (Z.eqb_spec c 10) as [->|]; [destruct Ha; by left|]. rewrite IH by (intros ?; apply Ha; by right).
  by rewrite <- app_assoc.
Qed.

Definition number_line (k : list Z) (v rest : list Z) : list Z := k ++ v ++ 10 :: rest.
Definition quoted_line (k : list Z) (v rest : list Z) : list Z := k ++ 34 :: v ++ 34 :: 10 :: rest.

Lemma rulel_shape o host c : rulel_receipt o host c =
  number_line (cstr "@LIN:RECEIPT:1.0.0") [] (number_line (cstr "~R{.a=artifact .i=input .o=output .s=steps .p=sp .d=device .h=host .m=merkle .v=level}") []
   (quoted_line (cstr ".status=") (cstr "INTEGRITY_RECEIPT_LOCAL") (number_line (cstr ".level=0") []
   (quoted_line (cstr ".a=") (cstr "sha256:" ++ code_hex o) (number_line (cstr ".i=") (fmt_i64 (input_val o))
   (number_line (cstr ".o=") (fmt_i64 (c_out c)) (number_line (cstr ".s=") (fmt_u64 (c_steps c))
   (number_line (cstr ".p=") (fmt_u64 (c_sp c)) (quoted_line (cstr ".d=") (target_dev o) (quoted_line (cstr ".h=") host
   (quoted_line (cstr ".m=") (cstr "sha256:" ++ merkle_hex o c) []))))))))))).
Proof. reflexivity. Qed.

Lemma lines_number k v rest : cleanb k = true -> clean v -> rulel_lines [] (number_line k v rest) = (k ++ v) :: rulel_lines [] rest.
Proof.
  intros Hk%cleanb_clean%clean_no_newline Hv%clean_no_newline. unfold number_line. rewrite app_assoc.
  apply (rulel_lines_cons [] (k ++ v)). by intros [?|?]%elem_of_app.
Qed.

Lemma lines_quoted k v rest : cleanb k = true -> clean v ->
  rulel_lines [] (quoted_line k v rest) = (k ++ 34 :: v ++ [34]) :: rulel_lines [] rest.
Proof.
  intros Hk%cleanb_clean%clean_no_newline Hv%clean_no_newline. unfold quoted_line.
  replace (k ++ 34 :: v ++ 34 :: 10 :: rest) with ((k ++ 34 :: v ++ [34]) ++ 10 :: rest) by (rewrite <- app_assoc; cbn [app]; by rewrite <- app_assoc).
  apply (rulel_lines_cons [] (k ++ 34 :: v ++ [34])). intros [?|[?|[?|?%list_elem_of_singleton]%elem_of_app]%elem_of_cons]%elem_of_app; done.
Qed.

(** The lines that are read. *)
Lemma read_line_a v c : read_line (cstr ".a=" ++ 34 :: v) c =
  (let raw := first_text (sscanf v [F_text 127]) [] in
   mkClaim (if bytes_eqb (take 7 raw) (cstr "sha256:") then take 64 (drop 7 raw) else take 64 raw) (inp_num c) (out_num c) (steps_val c) (sp_val c) (stored_merkle c)).
Proof. reflexivity. Qed.

Lemma read_line_i v c : read_line (cstr ".i=" ++ v) c =
  mkClaim (art_hex c) (first_num (sscanf v [F_i64]) 0) (out_num c) (steps_val c) (sp_val c) (stored_merkle c).
Proof. reflexivity. Qed.

Lemma read_line_o v c : read_line (cstr ".o=" ++ v) c =
  mkClaim (art_hex c) (inp_num c) (first_num (sscanf v [F_i64]) 0) (steps_val c) (sp_val c) (stored_merkle c).
Proof. reflexivity. Qed.

Lemma read_line_s v c : read_line (cstr ".s=" ++ v) c =
  mkClaim (art_hex c) (inp_num c) (out_num c) (first_num (sscanf v [F_u64]) 0) (sp_val c) (stored_merkle c).
Proof. reflexivity. Qed.

Lemma read_line_p v c : read_line (cstr ".p=" ++ v) c =
  mkClaim (art_hex c) (inp_num c) (out_num c) (steps_val c) (first_num (sscanf v [F_u64]) 0) (stored_merkle c).
Proof. reflexivity. Qed.

Lemma read_line_m v c : read_line (cstr ".m=" ++ 34 :: v) c =
  mkClaim (art_hex c) (inp_num c) (out_num c) (steps_val c) (sp_val c) (first_text (sscanf v [F_text 127]) (stored_merkle c)).
Proof. reflexivity. Qed.

Lemma read_line_other k v c : k = cstr ".d=" \/ k = cstr ".h=" -> read_line (k ++ v) c = c.
Proof. intros [-> | ->]; reflexivity. Qed.

(** A RULEL text is taken for JSON only when a field of it is the word schema. *)
Definition schema : list Z := cstr "schema".
Definition quoted_schema : list Z := 34 :: schema ++ [34].

Lemma schema_number k v rest : cleanb k = true -> clean v -> strstr (number_line k v rest) quoted_schema = strstr rest quoted_schema.
Proof.
  intros Hk%cleanb_clean%clean_no_quote Hv%clean_no_quote. unfold number_line.
  replace (k ++ v ++ 10 :: rest) with ((k ++ v ++ [10]) ++ rest) by (rewrite <- !app_assoc; done).
  apply strstr_skip. intros [?|[?|?%list_elem_of_singleton]%elem_of_app]%elem_of_app; done.
Qed.

Lemma schema_quoted k v rest : cleanb k = true -> clean v -> v <> schema -> strstr (quoted_line k v rest) quoted_schema = strstr rest quoted_schema.
Proof.
  intros Hk%cleanb_clean%clean_no_quote Hv%clean_no_quote Hn. unfold quoted_line, quoted_schema. rewrite strstr_skip by done.
  rewrite strstr_quoted by (done || (by apply no_quote_test) || by left).
  rewrite !strstr_next by discriminate. done.
Qed.

Ltac fields := cbn [claim0 art_hex inp_num out_num steps_val sp_val stored_merkle].

Lemma read_claim_rulel o host c : printable o host c -> target_dev o <> schema -> host <> schema ->
  read_claim (rulel_receipt o host c) = claim_of o c.
Proof.
  intros [Hi Ho Hs Hp Hd Hh] Nd Nh. destruct (hex64_facts (source_code o)) as (Ca & La & _).
  destruct (hex64_facts (receipt_leaf (lin_sha256 (source_code o)) (c_out c) (c_steps c) (c_sp c) (input_val o))) as (Cm & Lm & _).
  fold (code_hex o) in Ca, La. fold (merkle_hex o c) in Cm, Lm.
  pose proof (clean_i64 _ Hi). pose proof (clean_i64 _ Ho). pose proof (clean_u64 _ Hs). pose proof (clean_u64 _ Hp).
  assert (clean (cstr "sha256:" ++ code_hex o)) by (apply Forall_app; split; [by apply cleanb_clean|done]).
  assert (clean (cstr "sha256:" ++ merkle_hex o c)) by (apply Forall_app; split; [by apply cleanb_clean|done]).
  assert (clean []) by constructor.
  rewrite rulel_shape. unfold read_claim. rewrite (bool_decide_false (head _ = Some 123)) by done. cbn [orb].
  rewrite bool_decide_false.
  - unfold read_rulel.
    repeat first [rewrite lines_number by (done || by apply cleanb_clean)|rewrite lines_quoted by (done || by apply cleanb_clean)].
    cbn [fold_left].
    rewrite !(read_line_other (cstr ".d=")), !(read_line_other (cstr ".h=")) by auto.
    change (rulel_lines [] []) with [@nil Z]. cbn [fold_left].
    assert (forall l, read_line l claim0 = claim0 -> read_line (l ++ []) claim0 = claim0) as Hn by (intros l; by rewrite app_nil_r).
    rewrite !Hn by reflexivity. change (read_line (cstr ".status=" ++ 34 :: cstr "INTEGRITY_RECEIPT_LOCAL" ++ [34]) claim0) with claim0.
    assert (forall x, in_i64 x -> first_num (sscanf (fmt_i64 x) [F_i64]) 0 = x) as Ri.
    { intros x Hx. rewrite <- (app_nil_r (fmt_i64 x)), sscanf_i64; done. }
    assert (forall x, in_u64 x -> first_num (sscanf (fmt_u64 x) [F_u64]) 0 = x) as Ru.
    { intros x Hx. rewrite <- (app_nil_r (fmt_u64 x)), sscanf_u64; done. }
    rewrite read_line_a, sscanf_text by (done || (rewrite length_app; simpl; lia) || by apply clean_no_quote). cbn [first_text].
    change (take 7 (cstr "sha256:" ++ code_hex o)) with (cstr "sha256:").
    rewrite bytes_eqb_refl. change (drop 7 (cstr "sha256:" ++ code_hex o)) with (code_hex o). rewrite take_ge by lia.
    rewrite read_line_i, Ri by done. fields. rewrite read_line_o, Ri by done. fields. rewrite read_line_s, Ru by done. fields.
    rewrite read_line_p, Ru by done. fields. rewrite read_line_m.
    by rewrite sscanf_text by (done || (rewrite length_app; simpl; lia) || by apply clean_no_quote).
  - intros [i E]. match type of E with c0_index_str ?t _ = _ => assert (strstr t quoted_schema = None) as E' end.
    + repeat first [rewrite schema_number by (done || by apply cleanb_clean)|rewrite schema_quoted by (done || by apply cleanb_clean)]. done.
    + unfold strstr in E'. change (qstr "'schema'") with quoted_schema in E. rewrite E in E'. done.
Qed.

(** *** The texts are C strings *)

Definition nonzero (l : list Z) : Prop := Forall (fun c => c <> 0) l.

Lemma clean_nonzero l : clean l -> nonzero l.
Proof. apply Forall_impl. tauto. Qed.

Ltac nz := repeat first [assumption|apply clean_nonzero; first [assumption|by apply cleanb_clean]
  |apply Forall_app; split|apply List.Forall_cons; [done|]|apply List.Forall_nil].

Definition receipt_text (o : create_opts) (host : list Z) (c : compute) : list Z :=
  if export_json o then json_receipt o host c else rulel_receipt o host c.

Lemma receipt_text_strz o host c : printable o host c -> strz (receipt_text o host c) = receipt_text o host c.
Proof.
  intros [Hi Ho Hs Hp Hd Hh]. destruct (hex64_facts (source_code o)) as (Ca & _ & _).
  destruct (hex64_facts (receipt_leaf (lin_sha256 (source_code o)) (c_out c) (c_steps c) (c_sp c) (input_val o))) as (Cm & _ & _).
  fold (code_hex o) in Ca. fold (merkle_hex o c) in Cm.
  pose proof (clean_i64 _ Hi). pose proof (clean_i64 _ Ho). pose proof (clean_u64 _ Hs). pose proof (clean_u64 _ Hp).
  apply strz_id. change (nonzero (receipt_text o host c)). unfold receipt_text. destruct (export_json o).
  - rewrite json_shape. unfold quoted_field, bare_field, key. nz.
  - rewrite rulel_shape. unfold quoted_line, number_line. nz.
Qed.

(** A field that makes the text be read as the other form. *)
Definition confusing (o : create_opts) (host : list Z) : Prop := export_json o = false /\ (target_dev o = schema \/ host = schema).

Lemma read_claim_text o host c : printable o host c -> ~ confusing o host -> read_claim (strz (receipt_text o host c)) = claim_of o c.
Proof.
  intros Hp Hc. rewrite receipt_text_strz by done. unfold receipt_text, confusing in *. destruct (export_json o).
  - by apply read_claim_json.
  - apply read_claim_rulel; [done|..]; intros ?; apply Hc; auto.
Qed.

Lemma claimed_root_of o c : claimed_root (claim_of o c) = Some (merkle_hex o c) /\ stored_hex (claim_of o c) = merkle_hex o c.
Proof.
  split; [|done]. unfold claimed_root. cbn [claim_of art_hex out_num steps_val sp_val inp_num].
  destruct (hex64_facts (source_code o)) as (_ & _ & Hr). fold (code_hex o) in Hr. by rewrite Hr.
Qed.

Definition pass (f root : list Z) : ran :=
  mkRan (cstr "PASS: Compute Receipt " ++ quote f ++ cstr " cryptographically verified! Merkle root valid: sha256:" ++ root ++ [10]) [] 0 None.

Lemma verify_text `{Env} fs f o host c m m1 :
  read_file fs f m = Val (Some (receipt_text o host c)) m1 -> printable o host c -> ~ confusing o host ->
  receipt_verify fs [cstr "--receipt"; f] m = Val (pass f (merkle_hex o c)) m1.
Proof.
  intros Hr Hp Hc. unfold receipt_verify. change (verify_args [cstr "--receipt"; f] None) with (Some f). cbv iota beta. after Hr.
  rewrite read_claim_text by done. destruct (claimed_root_of o c) as [-> ->]. by rewrite bytes_eqb_refl.
Qed.
