(* ===== verification/CliReceiptSpec.v ===== *)
(** * Compute receipts: what create prints and what verify accepts

    [receipt create] prints the value of the expression its source starts with,
    and [receipt verify] passes it; a root binds the claim; and verify recomputes
    the hash only, never the computation. *)
From stdpp Require Import strings.
From S2P Require Import Prelude Common Token Ast Parse ParseSpec Str Decimal Region Abi Vm Lower Sha256 Sys C0Lex C0LexSpec Cli CliReceipt CliSpec CliReceiptRead.

(** ** What create prints *)

Lemma create_args_cons a v rest o : create_args (a :: v :: rest) o =
  if bytes_eqb a (cstr "--source") then create_args rest (mkOpts v (input_val o) (target_dev o) (export_json o))
  else if bytes_eqb a (cstr "--input") then create_args rest (mkOpts (source_code o) (default 0 (fst <$> strtoll v)) (target_dev o) (export_json o))
  else if bytes_eqb a (cstr "--device") then create_args rest (mkOpts (source_code o) (input_val o) v (export_json o))
  else if bytes_eqb a (cstr "--format") || bytes_eqb a (cstr "--export") then
    create_args rest (mkOpts (source_code o) (input_val o) (target_dev o) (export_json o || bytes_eqb v (cstr "json")))
  else create_args (v :: rest) o.
Proof. reflexivity. Qed.

Lemma create_args_input args : forall o, in_i64 (input_val o) -> in_i64 (input_val (create_args args o)).
Proof.
  assert (forall n args o, (length args <= n)%nat -> in_i64 (input_val o) -> in_i64 (input_val (create_args args o))) as Hn.
  { intros n. induction n as [|n IH]; intros l o Hl Ho; (destruct l as [|a [|v l]]; [done|done|]); cbn [length] in Hl; [lia|].
    rewrite create_args_cons. destruct (bytes_eqb a (cstr "--source")); [apply IH; [lia|done]|].
    destruct (bytes_eqb a (cstr "--input")); [|destruct (bytes_eqb a (cstr "--device")); [apply IH; [lia|done]|];
      destruct (_ || _); apply IH; cbn [length input_val]; done || lia].
    apply IH; [lia|]. cbn [input_val]. destruct (strtoll v) as [[x r]|] eqn:E; cbn [fmap option_fmap option_map fst from_option]; [|unfold in_i64, two63; cbn; lia].
    by eapply strtoll_range. }
  intros o. by apply (Hn (length args)).
Qed.

Lemma host_arch_clean l : clean (host_arch l) /\ host_arch l <> schema.
Proof. unfold host_arch. repeat case_match; (split; [by apply cleanb_clean|by vm_compute]). Qed.

Definition x_env (input : Z) : list VarBinding := [mkBinding (cstr "x") input].

(** Lowering looks at the name only. *)
Lemma x_env_value a b e : closed (x_env a) e = closed (x_env b) e /\ compile (x_env a) e = compile (x_env b) e.
Proof.
  induction e as [| |e [IH1 IH2]|e [IH1 IH2]|op l [IHl1 IHl2] r [IHr1 IHr2]|]; cbn [closed compile]; try done.
  - by rewrite IH2.
  - by rewrite IHl1, IHl2, IHr1, IHr2.
Qed.

(** The expression at the start of a text, and that nothing after it continues it. *)
Definition starts_with (text : list Z) (e : expr) : Prop :=
  exists ts pos, ParseSpec.lexes text 0 ts pos /\ derives 0 (LIN_PARSER_MAX_DEPTH + 1) ts e /\ (esize e <= LIN_ARENA_CAP)%nat /\
    get_precedence (tok_kind (lin_peek_token text pos)) = O.

Inductive computed (source : list Z) (input : Z) : res create_err compute -> Prop :=
| CP_parse fuel e : parse_expression fuel (parser_init (expr_clean source)) 0 = Some (Err e) -> computed source input (Err CE_parse)
| CP_lower e : starts_with (expr_clean source) e -> closed (x_env input) e = false -> computed source input (Err CE_lower)
| CP_div e : starts_with (expr_clean source) e -> closed (x_env input) e = true -> eval_expr (x_env input) e = Err LIN_ERR_DIV_ZERO ->
    computed source input (Err (CE_exec LIN_ERR_VM_DIV_ZERO))
| CP_val e v : starts_with (expr_clean source) e -> eval_expr (x_env input) e = Ok v ->
    computed source input (Ok (mkCompute v (Z.of_nat (length (compile (x_env input) e ++ [mkIns OP_RET 0]))) 1)).

Lemma compute_receipt_ok fuel source input : in_i64 input -> (6 * length (expr_clean source) + 3 <= fuel)%nat ->
  exists r, compute_receipt fuel true source input = Some r /\ computed source input r /\
    forall c, r = Ok c -> in_i64 (c_out c) /\ in_u64 (c_steps c) /\ in_u64 (c_sp c).
Proof.
  intros Hi Hf. unfold compute_receipt. pose proof (parse_full_not_none fuel _ Hf) as Hnn. unfold parse_full in Hnn.
  destruct (parse_expression fuel (parser_init (expr_clean source)) 0) as [[[root p]|e]|] eqn:E; [|exists (Err CE_parse); split; [done|]; split; [by eapply CP_parse|done]|done].
  apply parsed_expression in E as (ts & e & L & D & St & R & Hl & Hs). change [mkBinding (cstr "x") 0] with (x_env 0).
  assert (starts_with (expr_clean source) e) as Hst by (exists ts, (p_pos p); done).
  assert (env_ok (x_env input)) as He by (by apply Forall_singleton).
  assert (length (x_env input) <= LIN_VM_MAX_LOCALS)%nat as Hlen by (unfold LIN_VM_MAX_LOCALS; simpl; lia).
  rewrite (lower_arena_repr _ _ e) by done. destruct (x_env_value 0 input e) as [-> ->]. destruct (closed (x_env input) e) eqn:Hc; [|exists (Err CE_lower); split; [done|]; split; [by apply (CP_lower _ _ e)|done]].
  set (code := compile (x_env input) e ++ [mkIns OP_RET 0]).
  pose proof (exec_lowered (mkModule [entry_fn code]) (entry_fn code) e (x_env input) eq_refl ltac:(by constructor) Hc Hl He Hlen Hs) as Hx.
  cbv zeta in Hx. fold code in Hx. change (map vb_val (x_env input)) with [input] in Hx.
  destruct (eval_expr (x_env input) e) as [v|er] eqn:Ev.
  - rewrite Hx. eexists. split; [done|]. split; [by eapply CP_val|]. intros c [= <-]. cbn [c_out c_steps c_sp val sp_at_ret].
    split; [by eapply eval_expr_range|]. pose proof (compile_length (x_env input) e). unfold code. rewrite length_app. cbn [length].
    unfold LIN_ARENA_CAP in Hs. unfold in_u64, two64. lia.
  - destruct Hx as (s & -> & _). eexists. split; [done|]. split; [|done]. eapply CP_div; [done..|]. rewrite Ev. f_equal. by eapply eval_closed_err.
Qed.

(** What is printed of it. *)
Definition create_record (o : create_opts) (host : list Z) (r : res create_err compute) : ran :=
  match r with
  | Ok c => mkRan (receipt_text o host c) [] 0 None
  | Err CE_parse => mkRan [] (cstr "receipt error: failed to parse --source " ++ quote (source_code o) ++ [10]) 1 None
  | Err CE_lower => mkRan [] (cstr "receipt error: failed to lower --source " ++ quote (source_code o) ++ [10]) 1 None
  | Err (CE_exec e) => mkRan [] (cstr "receipt error: failed to execute on LinVM: " ++ vm_err_code e ++ [10]) 1 None
  end.

Lemma receipt_create_ok `{Env} fs fuel args m :
  mallocs_succeed -> let o := create_args args default_opts in
  (6 * length (expr_clean (source_code o)) + 3 <= fuel)%nat ->
  exists r m', receipt_create fs fuel args m = Val (create_record o (host_arch (fs (cstr "/proc/cpuinfo"))) r) m' /\
    computed (source_code o) (input_val o) r /\ forall c, r = Ok c -> in_i64 (c_out c) /\ in_u64 (c_steps c) /\ in_u64 (c_sp c).
Proof.
  intros Ha o Hf. destruct (try_malloc_ok m Ha) as [m1 E1].
  destruct (compute_receipt_ok fuel (source_code o) (input_val o)) as (r & Hr & Hc & Hg); [|done|].
  { apply create_args_input. unfold default_opts, in_i64, two63. cbn. lia. }
  exists r, m1. split; [|done]. unfold receipt_create. after E1. fold o. rewrite Hr.
  destruct r as [c|[| |e]]; try done; unfold complain, mret, Mem_ret; cbn [create_record]; by rewrite <- !app_assoc.
Qed.

(** C26. [receipt create] always answers when memory does not run out, with fuel for
    the parser.  It reads the longest start of its cleaned source that is an
    expression; unless that fails to parse, has another variable than [x] or a
    call, or divides by zero - each with its complaint - it prints a receipt whose
    output is the value of the expression at the input, whose steps are the
    instructions of its code; and [receipt verify] passes that receipt, in either
    form, if no field of it breaks the form. *)
Theorem receipt_create_verifies `{Env} fs fuel args m
    (Ha : mallocs_succeed) (Hf : (6 * length (expr_clean (source_code (create_args args default_opts))) + 3 <= fuel)%nat) :
  let o := create_args args default_opts in
  let host := host_arch (fs (cstr "/proc/cpuinfo")) in
  exists r m', receipt_create fs fuel args m = Val (create_record o host r) m' /\ computed (source_code o) (input_val o) r /\
    forall c fs' f n n1, r = Ok c -> clean (target_dev o) -> ~ (export_json o = false /\ target_dev o = schema) ->
      read_file fs' f n = Val (Some (receipt_text o host c)) n1 ->
      receipt_verify fs' [cstr "--receipt"; f] n = Val (pass f (merkle_hex o c)) n1.
Proof.
  intros o host. destruct (receipt_create_ok fs fuel args m Ha Hf) as (r & m' & E & Hc & Hr). exists r, m'. split_and!; [done..|].
  intros c fs' f n n1 -> Hd Hs Hf'. destruct (Hr c eq_refl) as (H1 & H2 & H3).
  destruct (host_arch_clean (fs (cstr "/proc/cpuinfo"))) as [Hh1 Hh2]. eapply verify_text; [exact Hf'| |].
  - constructor; try done. apply create_args_input. unfold default_opts, in_i64, two63. cbn. lia.
  - intros [Hj [?|?]]; [by apply Hs|done].
Qed.

Definition sample_opts : list (list Z) := map cstr ["--source"; "return x * (x - 10);"; "--input"; "-3"]%string.

Lemma sample_created : exists r m', @receipt_create calm no_files 300 sample_opts mem0 = Val r m' /\ status r = 0.
Proof. do 2 eexists. split; vm_compute; reflexivity. Qed.

Lemma receipt_create_verifies_witness :
  let o := create_args sample_opts default_opts in let host := host_arch None in
  exists c m', @receipt_create calm no_files 300 sample_opts mem0 = Val (mkRan (receipt_text o host c) [] 0 None) m' /\
    forall n n1 f, @read_file calm (fun _ => Some (receipt_text o host c)) f n = Val (Some (receipt_text o host c)) n1 ->
    @receipt_verify calm (fun _ => Some (receipt_text o host c)) [cstr "--receipt"; f] n = Val (pass f (merkle_hex o c)) n1.
Proof.
  cbv zeta. assert (@mallocs_succeed calm) as Ha by (intros t; reflexivity).
  destruct (@receipt_create_verifies calm no_files 300 sample_opts mem0 Ha ltac:(vm_compute; lia)) as (r & m' & E & _ & Hv).
  destruct sample_created as (r2 & m2 & E2 & Hs). rewrite E in E2.
  assert (forall (a b : ran) (m n : C0Mem), Val a m = Val b n -> a = b) as Hi by congruence.
  apply Hi in E2. rewrite <- E2 in Hs. destruct r as [c|[| |e]]; [|discriminate Hs..]. exists c, m'. split; [exact E|].
  intros n n1 f Hf. eapply Hv; [reflexivity| | |exact Hf].
  - apply cleanb_clean. reflexivity.
  - intros [_ Hd]. discriminate Hd.
Defined.

(** ** What a root binds *)

Lemma dec_val_digits l num : forallb is_digit l = true -> 0 <= num -> 0 <= dec_val num l.
Proof.
  revert num. induction l as [|c l IH]; intros num Hl Hn; cbn [dec_val]; [done|]. cbn [forallb] in Hl.
  apply andb_true_iff in Hl as [Hc Hl]. unfold is_digit in Hc. to_prop. apply IH; [done|lia].
Qed.

Lemma strtoull_range s v r : strtoull s = Some (v, r) -> in_u64 v.
Proof.
  unfold strtoull. destruct (scan_sign (skip_blanks s)) as [neg q]. destruct (_ =? 0)%nat; [done|]. intros [= <- _].
  pose proof (dec_val_digits _ 0 (run_length_take is_digit q) ltac:(lia)).
  destruct (Z.ltb_spec (two64 - 1) (dec_val 0 (take (run_length is_digit q) q))); [unfold in_u64, two64; lia|].
  destruct neg; [apply u64_range|unfold in_u64, two64 in *; lia].
Qed.

(** What a format that only reads numbers of one kind gives. *)
Definition gives (P : Z -> Prop) (f : fmt) : Prop :=
  match f with
  | F_i64 => forall s v r, strtoll s = Some (v, r) -> P v
  | F_u64 => forall s v r, strtoull s = Some (v, r) -> P v
  | F_x2 => False
  | F_text _ | F_blank | F_char _ => True
  end.

Lemma sscanf_gives P fs : Forall (gives P) fs -> forall s v, S_num v ∈ sscanf s fs -> P v.
Proof.
  induction 1 as [|f fs Hf _ IH]; intros s v; cbn [sscanf]; [by intros ?%elem_of_nil|].
  destruct f; cbn [gives] in Hf; try done.
  - destruct (strtoll s) as [[x r]|] eqn:E; [|by intros ?%elem_of_nil].
    intros [[= ->]|Hx]%elem_of_cons; [by eapply Hf|by eapply IH].
  - destruct (strtoull s) as [[x r]|] eqn:E; [|by intros ?%elem_of_nil].
    intros [[= ->]|Hx]%elem_of_cons; [by eapply Hf|by eapply IH].
  - destruct (_ =? 0)%nat; [by intros ?%elem_of_nil|]. intros [[=]|Hx]%elem_of_cons. by eapply IH.
  - by apply IH.
  - destruct s as [|d s]; [by intros ?%elem_of_nil|]. destruct (c =? d); [by apply IH|by intros ?%elem_of_nil].
Qed.

Lemma gives_lit P k : Forall (gives P) (lit k).
Proof. unfold lit. induction k as [|c k IH]; cbn [map]; constructor; [by destruct (is_space c)|done]. Qed.

Lemma first_num_gives (P : Z -> Prop) s fs old : Forall (gives P) fs -> P old -> P (first_num (sscanf s fs) old).
Proof.
  intros Hf Ho. pose proof (sscanf_gives P fs Hf s) as Hs. unfold first_num. destruct (sscanf s fs) as [|[v|x] l]; try done.
  apply Hs. by left.
Qed.

Definition in_range_claim (c : claim) : Prop := in_i64 (inp_num c) /\ in_i64 (out_num c) /\ in_u64 (steps_val c) /\ in_u64 (sp_val c).

Lemma gives_i64 : gives in_i64 F_i64.
Proof. exact strtoll_range. Qed.
Lemma gives_u64 : gives in_u64 F_u64.
Proof. exact strtoull_range. Qed.

Lemma json_i64_range k p : in_i64 (json_i64 k p).
Proof.
  assert (in_i64 0) as H0 by (unfold in_i64, two63; lia). unfold json_i64.
  assert (in_i64 (first_num (sscanf p (lit (k ++ qstr " '") ++ [F_i64] ++ lit [34])) 0)) as H1.
  { apply first_num_gives; [|done]. apply Forall_app; split; [apply gives_lit|]. constructor; [apply gives_i64|apply gives_lit]. }
  assert (in_i64 (first_num (sscanf p (lit (k ++ cstr " ") ++ [F_i64])) 0)) as H2.
  { apply first_num_gives; [|done]. apply Forall_app; split; [apply gives_lit|]. constructor; [apply gives_i64|constructor]. }
  destruct (sscanf p (lit (k ++ qstr " '") ++ [F_i64] ++ lit [34])) as [|[v|x] l]; done.
Qed.

Lemma json_u64_range k p : in_u64 (json_u64 k p).
Proof.
  unfold json_u64. apply first_num_gives; [|unfold in_u64, two64; lia].
  apply Forall_app; split; [apply gives_lit|]. constructor; [apply gives_u64|constructor].
Qed.

Lemma read_line_range l c : in_range_claim c -> in_range_claim (read_line l c).
Proof.
  intros (H1 & H2 & H3 & H4). assert (in_i64 0 /\ in_u64 0) as [Z1 Z2] by (unfold in_i64, in_u64, two63, two64; lia).
  unfold read_line. cbv zeta. unfold in_range_claim.
  repeat case_match; cbn [inp_num out_num steps_val sp_val]; split_and!; try done; apply first_num_gives; try done;
    (constructor; [first [apply gives_i64|apply gives_u64]|constructor]).
Qed.

Lemma read_claim_range content : in_range_claim (read_claim content).
Proof.
  assert (in_i64 0 /\ in_u64 0) as [Z1 Z2] by (unfold in_i64, in_u64, two63, two64; lia).
  unfold read_claim. destruct (_ || _).
  - unfold read_json, in_range_claim. cbn [inp_num out_num steps_val sp_val].
    split_and!; (destruct (strstr content _); [first [apply json_i64_range|apply json_u64_range]|done]).
  - unfold read_rulel. assert (in_range_claim claim0) as H0 by (unfold in_range_claim; split_and!; assumption). revert H0. generalize claim0.
    induction (rulel_lines [] content) as [|l ls IH]; intros c Hc; cbn [fold_left]; [done|]. by apply IH, read_line_range.
Qed.

Lemma read_hex_wf n : forall h d, read_hex n h = Some d -> length d = n /\ bytes_wf d.
Proof.
  induction n as [|n IH]; intros h d; cbn [read_hex]; [intros [= <-]; split; [done|constructor]|]. destruct (sscanf h [F_x2]) as [|[v|] l]; try done.
  destruct (read_hex n (drop 2 h)) as [bs|] eqn:E; cbn [mbind option_bind]; [|done]. intros [= <-]. destruct (IH _ _ E) as [<- Hb].
  split; [done|]. constructor; [apply u8_range|done].
Qed.

Lemma receipt_leaf_inj d1 o1 s1 p1 i1 d2 o2 s2 p2 i2 :
  length d1 = length d2 -> in_i64 o1 -> in_i64 o2 -> in_u64 s1 -> in_u64 s2 -> in_u64 p1 -> in_u64 p2 -> in_i64 i1 -> in_i64 i2 ->
  receipt_leaf d1 o1 s1 p1 i1 = receipt_leaf d2 o2 s2 p2 i2 -> d1 = d2 /\ o1 = o2 /\ s1 = s2 /\ p1 = p2 /\ i1 = i2.
Proof.
  intros Hd Ho1 Ho2 Hs1 Hs2 Hp1 Hp2 Hi1 Hi2 E. unfold receipt_leaf in E.
  apply app_inj_1 in E as [-> E]; [|done]. apply app_inj_1 in E as [Eo E]; [|by rewrite !length_le_bytes].
  apply app_inj_1 in E as [Es E]; [|by rewrite !length_le_bytes]. apply app_inj_1 in E as [Ep Ei]; [|by rewrite !length_le_bytes].
  assert (forall x y, in_u64 x -> in_u64 y -> le_bytes 8 x = le_bytes 8 y -> x = y) as Hl.
  { intros x y Hx Hy. unfold in_u64, two64 in *. apply le_bytes_inj; change (256 ^ Z.of_nat 8) with 18446744073709551616; lia. }
  assert (forall x y, in_i64 x -> in_i64 y -> u64 x = u64 y -> x = y) as Hu by (intros x y Hx Hy; int_lia).
  split_and!; [done|apply Hu, Hl|apply Hl|apply Hl|apply Hu, Hl]; try done; apply u64_range.
Qed.

Definition same_claim (a b : claim) : Prop :=
  read_hex 32 (art_hex a) = read_hex 32 (art_hex b) /\ inp_num a = inp_num b /\ out_num a = out_num b /\
  steps_val a = steps_val b /\ sp_val a = sp_val b.

Lemma claimed_root_binds a b r : in_range_claim a -> in_range_claim b -> claimed_root a = Some r -> claimed_root b = Some r ->
  same_claim a b \/ collision sha256_spec.
Proof.
  intros (A1 & A2 & A3 & A4) (B1 & B2 & B3 & B4). unfold claimed_root.
  destruct (read_hex 32 (art_hex a)) as [da|] eqn:Ea; cbn [mbind option_bind]; [|done].
  destruct (read_hex 32 (art_hex b)) as [db|] eqn:Eb; cbn [mbind option_bind]; [|done].
  assert (forall x y : list Z, Some x = Some r -> Some y = Some r -> x = y) as Hs by congruence. intros E1 E2.
  pose proof (Hs _ _ E1 E2) as E. clear E1 E2. unfold hex64 in E.
  set (la := receipt_leaf da _ _ _ _) in *. set (lb := receipt_leaf db _ _ _ _) in *.
  destruct (lin_sha256_facts la) as (Wa & _ & Sa). destruct (lin_sha256_facts lb) as (Wb & _ & Sb).
  apply (f_equal unhex_bytes) in E. rewrite (proj2 (lin_sha256_hex_inv _ Wa)), (proj2 (lin_sha256_hex_inv _ Wb)), Sa, Sb in E.
  destruct (digest_inj sha256_spec la lb E) as [El|?]; [|by right]. left. destruct (read_hex_wf _ _ _ Ea), (read_hex_wf _ _ _ Eb).
  apply receipt_leaf_inj in El as (-> & Ho & Hs' & Hp & Hi); [|congruence|done..]. unfold same_claim. by rewrite Ea, Eb.
Qed.

(** [receipt verify] on the file [f] ends with status 0. *)
Definition passes `{Env} fs f m : Prop := exists r m', receipt_verify fs [cstr "--receipt"; f] m = Val r m' /\ status r = 0.

Lemma passes_iff `{Env} fs f a m m1 : read_file fs f m = Val (Some a) m1 ->
  passes fs f m <-> claimed_root (read_claim (strz a)) = Some (stored_hex (read_claim (strz a))).
Proof.
  intros Hf. unfold passes, receipt_verify. change (verify_args [cstr "--receipt"; f] None) with (Some f). cbv iota beta.
  set (cl := read_claim (strz a)).
  assert (forall k : option (list Z) -> Mem ran, (x ← read_file fs f; k x) m = k (Some a) m1) as Hb by (intros k; unfold mbind, Mem_bind; by rewrite Hf).
  rewrite Hb. fold cl. destruct (claimed_root cl) as [root|].
  - destruct (bytes_eqb root (stored_hex cl)) eqn:E.
    + apply bytes_eqb_eq in E as ->. split; [done|]. intros _. by do 2 eexists.
    + apply bytes_eqb_neq in E. split; [|intros Er; by assert (root = stored_hex cl) by congruence].
      intros (r & m' & Hr & Hs). assert (forall (x y : ran) m n, Val x m = Val y n -> x = y) as Hi by congruence.
      apply Hi in Hr. by rewrite <- Hr in Hs.
  - split; [|done]. intros (r & m' & Hr & Hs). assert (forall (x y : ran) m n, Val x m = Val y n -> x = y) as Hi by congruence.
    apply Hi in Hr. by rewrite <- Hr in Hs.
Qed.


(** A receipt of a computation that never happened: 2 + 2 = 5. *)
Definition forged_opts : create_opts := mkOpts (cstr "2 + 2") 0 (cstr "linvm_cpu") false.
Definition forged : list Z := receipt_text forged_opts (host_arch None) (mkCompute 5 4 1).

Lemma forged_read : exists n1, @read_file calm (fun _ => Some forged) (cstr "f") mem0 = Val (Some forged) n1.
Proof. eexists. vm_compute. reflexivity. Qed.

Lemma forged_claim : out_num (read_claim (strz forged)) = 5 /\ claimed_root (read_claim (strz forged)) = Some (stored_hex (read_claim (strz forged))).
Proof. vm_compute. by split. Qed.


(** Text after the expression is in the hash of the source and never read. *)
Lemma receipt_trailing_text : exists m', @receipt_create calm no_files 300 (map cstr ["--source"; "x) + launch("]%string) mem0 =
  Val (mkRan (receipt_text (mkOpts (cstr "x) + launch(") 9 (cstr "linvm_cpu") false) (host_arch None) (mkCompute 9 2 1)) [] 0 None) m'.
Proof. eexists. vm_compute. reflexivity. Qed.

(** A device that breaks the form: the receipt create prints does not pass. *)
Lemma receipt_schema_fails :
  let t := receipt_text (mkOpts (cstr "x") 9 schema false) (host_arch None) (mkCompute 9 2 1) in
  claimed_root (read_claim (strz t)) = None.
Proof. vm_compute. reflexivity. Qed.
