(* ===== verification/CLang.v ===== *)
(** * A fragment of C11

    The C that the JIT back end emits: expressions over scalars and arrays of
    integers, with the usual conversions; declarations, assignments, blocks, tests,
    a counted loop, labels and gotos, calls of functions that take an array.
    Undefined behaviour - an index out of its array, an indeterminate value, a
    signed overflow, a shift by the width or more, a division that has no result,
    the missing return of a value - is the outcome [Bad].  Right shifts of negative
    numbers and conversions to narrower signed types, which C leaves to the
    implementation, are those of two's complement.  [ctokens] is the lexical
    analysis of such a text and [e_toks], [s_toks] are the tokens of the syntax. *)
From stdpp Require Import strings.
From S2P Require Import Prelude Common Decimal.

(** ** Types and values *)

(** int, uint16_t, int64_t, uint64_t (unsigned long long) and size_t (unsigned
    long), both of 64 bits. *)
Inductive cty : Type := TI32 | TU16 | TI64 | TU64 | TSize.

#[export] Instance cty_eq_dec : EqDecision cty.
Proof. solve_decision. Defined.

Definition i32 (z : Z) : Z := (z + 2147483648) mod two32 - 2147483648.

(** Conversion to a type. *)
Definition cvt (t : cty) (z : Z) : Z :=
  match t with TI32 => i32 z | TU16 => u16 z | TI64 => i64 z | TU64 | TSize => u64 z end.

(** Integer promotion, and the common type of two promoted operands. *)
Definition promote (t : cty) : cty := match t with TU16 => TI32 | t => t end.

Definition common (t1 t2 : cty) : cty :=
  match promote t1, promote t2 with
  | TU64, _ | _, TU64 | TSize, TI64 | TI64, TSize => TU64
  | TSize, _ | _, TSize => TSize
  | TI64, _ | _, TI64 => TI64
  | _, _ => TI32
  end.

(** The result of an operation at a type: unsigned wraps, signed must fit. *)
Definition arith (t : cty) (z : Z) : option Z :=
  match t with
  | TU64 | TSize => Some (u64 z)
  | _ => if cvt t z =? z then Some z else None
  end.

(** ** Syntax *)

Inductive cunop : Type := Minus | Tilde.
Inductive cbinop : Type :=
| Plus | Sub | Times | Slash | Percent | Amp | Bar | Caret | ShiftL | ShiftR
| EqEq | BangEq | Less | Greater | LessEq | GreaterEq | AndAnd.

Inductive cexpr : Type :=
| Num (t : cty) (z : Z)
| Minval                                   (* INT64_MIN *)
| Var (x : string)
| At (x : string) (e : cexpr)              (* x[e] *)
| At2 (x : string) (e1 e2 : cexpr)         (* x[e1][e2] *)
| PreDec (x : string)                      (* --x *)
| PostInc (x : string)                     (* x++ *)
| Un (o : cunop) (e : cexpr)
| Bin (o : cbinop) (e1 e2 : cexpr)
| Cast (t : cty) (e : cexpr)
| Cond (t : cty) (c e1 e2 : cexpr)         (* of type t *)
| Paren (e : cexpr)
| Call2 (f : string) (e1 e2 : cexpr).

Inductive cstmt : Type :=
| Skip
| Seq (s1 s2 : cstmt)
| Decl (t : cty) (x : string) (e : option cexpr)
| DeclArr (t : cty) (x : string) (n : nat) (zero : bool)
| DeclArr2 (t : cty) (x : string) (n m : nat)            (* = {{0}} *)
| Assign (l e : cexpr)
| SubAssign (x : string) (e : cexpr)
| PostDec (x : string)
| DeclCall (t : cty) (x : string) (f : list Z) (arr : string)
| If (c : cexpr) (s : cstmt)
| IfPtr (x : string) (s : cstmt)                         (* x is a pointer *)
| Block (s : cstmt)
| For (x : string) (c : cexpr) (s : cstmt)               (* for (size_t x = 0; c; x++) s *)
| Goto (n : Z)
| Label (n : Z)
| Return (e : cexpr).

Declare Scope c_scope.
Delimit Scope c_scope with c.
Infix ";;" := Seq (at level 100, right associativity) : c_scope.

(** ** States *)

Inductive cell : Type :=
| Sc (t : cty) (v : option Z)
| Ar (t : cty) (vs : list (option Z))
| Ar2 (t : cty) (rows : list (list (option Z))).

Definition cenv : Type := string -> option cell.

Definition cset (x : string) (c : option cell) (s : cenv) : cenv := fun y => if String.eqb y x then c else s y.

Definition truth (b : bool) : Z := if b then 1 else 0.

Definition shift_ok (t : cty) (n : Z) : bool := (0 <=? n) && (n <? match t with TI32 | TU16 => 32 | _ => 64 end).

(** Both operands have been converted to [t]; the shifts excepted, whose type is
    that of the left one. *)
Definition binop_at (o : cbinop) (t : cty) (x y : Z) : option (cty * Z) :=
  match o with
  | Plus => pair t <$> arith t (x + y)
  | Sub => pair t <$> arith t (x - y)
  | Times => pair t <$> arith t (x * y)
  | Slash => if y =? 0 then None else pair t <$> arith t (Z.quot x y)
  | Percent => if (y =? 0) || negb (bool_decide (is_Some (arith t (Z.quot x y)))) then None else Some (t, Z.rem x y)
  | Amp => Some (t, Z.land x y)
  | Bar => Some (t, Z.lor x y)
  | Caret => Some (t, Z.lxor x y)
  | ShiftL => if shift_ok t y && (0 <=? x) then pair t <$> arith t (Z.shiftl x y) else None
  | ShiftR => if shift_ok t y then Some (t, Z.shiftr x y) else None
  | EqEq => Some (TI32, truth (x =? y))
  | BangEq => Some (TI32, truth (negb (x =? y)))
  | Less => Some (TI32, truth (x <? y))
  | Greater => Some (TI32, truth (y <? x))
  | LessEq => Some (TI32, truth (x <=? y))
  | GreaterEq => Some (TI32, truth (y <=? x))
  | AndAnd => None
  end.

Definition is_shift (o : cbinop) : bool := match o with ShiftL | ShiftR => true | _ => false end.

Definition c_binop (o : cbinop) (v1 v2 : cty * Z) : option (cty * Z) :=
  let '(t1, x) := v1 in
  let '(t2, y) := v2 in
  if is_shift o then binop_at o (promote t1) (cvt (promote t1) x) (cvt (promote t2) y)
  else let t := common t1 t2 in binop_at o t (cvt t x) (cvt t y).

Definition c_unop (o : cunop) (v : cty * Z) : option (cty * Z) :=
  let '(t, x) := v in
  let t := promote t in
  match o with
  | Minus => pair t <$> arith t (- x)
  | Tilde => Some (t, cvt t (Z.lnot x))
  end.

(** ** Expressions

    The value, its type, and the state after the side effects; operands go left to
    right, which no text here can tell.  [helper] is what the functions of two
    numbers return. *)
Section Expressions.
Context (helper : string -> Z -> Z -> option Z).

Fixpoint eval (e : cexpr) (s : cenv) : option (cty * Z * cenv) :=
  match e with
  | Num t z => if (0 <=? z) && (cvt t z =? z) then Some (t, z, s) else None
  | Minval => Some (TI64, INT64_MIN, s)
  | Var x => match s x with Some (Sc t (Some v)) => Some (t, v, s) | _ => None end
  | At x e =>
      '(_, i, s) ← eval e s;
      match s x with
      | Some (Ar t vs) => match lookupz vs i with Some (Some v) => Some (t, v, s) | _ => None end
      | _ => None
      end
  | At2 x e1 e2 =>
      '(_, i, s) ← eval e1 s;
      '(_, j, s) ← eval e2 s;
      match s x with
      | Some (Ar2 t rows) =>
          row ← lookupz rows i;
          match lookupz row j with Some (Some v) => Some (t, v, s) | _ => None end
      | _ => None
      end
  | PreDec x =>
      match s x with
      | Some (Sc t (Some v)) =>
          w ← c_binop Sub (t, v) (TI32, 1);
          let v := cvt t w.2 in Some (t, v, cset x (Some (Sc t (Some v))) s)
      | _ => None
      end
  | PostInc x =>
      match s x with
      | Some (Sc t (Some v)) =>
          w ← c_binop Plus (t, v) (TI32, 1);
          Some (t, v, cset x (Some (Sc t (Some (cvt t w.2)))) s)
      | _ => None
      end
  | Un o e => '(t, v, s) ← eval e s; w ← c_unop o (t, v); Some (w, s)
  | Bin AndAnd e1 e2 =>
      '(_, x, s) ← eval e1 s;
      if x =? 0 then Some (TI32, 0, s) else '(_, y, s) ← eval e2 s; Some (TI32, truth (negb (y =? 0)), s)
  | Bin o e1 e2 =>
      '(t1, x, s) ← eval e1 s;
      '(t2, y, s) ← eval e2 s;
      w ← c_binop o (t1, x) (t2, y); Some (w, s)
  | Cast t e => '(_, v, s) ← eval e s; Some (t, cvt t v, s)
  | Cond t c e1 e2 =>
      '(_, b, s) ← eval c s;
      '(_, v, s) ← (if b =? 0 then eval e2 s else eval e1 s);
      Some (t, cvt t v, s)
  | Paren e => eval e s
  | Call2 f e1 e2 =>
      '(_, x, s) ← eval e1 s;
      '(_, y, s) ← eval e2 s;
      r ← helper f (cvt TI64 x) (cvt TI64 y);
      Some (TI64, r, s)
  end.

(** [l = v] *)
Definition store (l : cexpr) (v : Z) (s : cenv) : option cenv :=
  match l with
  | Var x => match s x with Some (Sc t _) => Some (cset x (Some (Sc t (Some (cvt t v)))) s) | _ => None end
  | At x e =>
      '(_, i, s) ← eval e s;
      match s x with
      | Some (Ar t vs) => vs ← insertz i (Some (cvt t v)) vs; Some (cset x (Some (Ar t vs)) s)
      | _ => None
      end
  | At2 x e1 e2 =>
      '(_, i, s) ← eval e1 s;
      '(_, j, s) ← eval e2 s;
      match s x with
      | Some (Ar2 t rows) =>
          row ← lookupz rows i;
          row ← insertz j (Some (cvt t v)) row;
          rows ← insertz i row rows;
          Some (cset x (Some (Ar2 t rows)) s)
      | _ => None
      end
  | _ => None
  end.

(** ** Statements *)

(** What a call gives: a value, undefined behaviour, or no answer within the fuel. *)
Inductive cres : Type := CVal (v : Z) | CBad | CFuel.

Inductive out : Type :=
| Go (s : cenv)
| Jump (n : Z) (s : cenv)
| Ret (v : Z)
| Bad
| NoFuel.

Definition go (o : option cenv) : out := match o with Some s => Go s | None => Bad end.

(** The names a block declares, which leave with it. *)
Fixpoint declares (s : cstmt) (x : string) : bool :=
  match s with
  | Seq s1 s2 => declares s1 x || declares s2 x
  | Decl _ y _ | DeclArr _ y _ _ | DeclArr2 _ y _ _ | DeclCall _ y _ _ => String.eqb x y
  | _ => false
  end.

Definition leave (b : cstmt) (before after : cenv) : cenv := fun x => if declares b x then before x else after x.

Definition map_env (f : cenv -> cenv) (o : out) : out :=
  match o with Go s => Go (f s) | Jump n s => Jump n (f s) | o => o end.

(** The turns of a loop: every loop here is bounded by the 64 locals. *)
Definition LOOP_FUEL : nat := 66.

Fixpoint turns (x : string) (c : cexpr) (body : cenv -> out) (k : nat) (s : cenv) : out :=
  match k with
  | O => NoFuel
  | S k =>
      match eval c s with
      | Some (_, v, s) =>
          if v =? 0 then Go s
          else
            match body s with
            | Go s => match eval (PostInc x) s with Some (_, _, s) => turns x c body k s | None => Bad end
            | o => o
            end
      | None => Bad
      end
  end.

Context (call : list Z -> list (option Z) -> cres).

Fixpoint exec (b : cstmt) (s : cenv) : out :=
  match b with
  | Skip | Label _ => Go s
  | Seq s1 s2 => match exec s1 s with Go s => exec s2 s | o => o end
  | Decl t x None => Go (cset x (Some (Sc t None)) s)
  | Decl t x (Some e) => go ('(_, v, s) ← eval e s; Some (cset x (Some (Sc t (Some (cvt t v)))) s))
  | DeclArr t x n zero => Go (cset x (Some (Ar t (replicate n (if zero then Some 0 else None)))) s)
  | DeclArr2 t x n m => Go (cset x (Some (Ar2 t (replicate n (replicate m (Some 0))))) s)
  | Assign l e => go ('(_, v, s) ← eval e s; store l v s)
  | SubAssign x e => go ('(_, v, s) ← eval (Bin Sub (Var x) e) s; store (Var x) v s)
  | PostDec x => go ('(_, _, s) ← eval (PreDec x) s; Some s)
  | DeclCall t x f arr =>
      match s arr with
      | Some (Ar _ vs) =>
          match call f vs with
          | CVal v => Go (cset x (Some (Sc t (Some (cvt t v)))) s)
          | CBad => Bad
          | CFuel => NoFuel
          end
      | _ => Bad
      end
  | If c b =>
      match eval c s with
      | Some (_, v, s) => if v =? 0 then Go s else exec b s
      | None => Bad
      end
  | IfPtr x b => match s x with Some (Ar _ _) => exec b s | _ => Bad end
  | Block b => map_env (leave b s) (exec b s)
  | For x c b => map_env (cset x (s x)) (turns x c (exec b) LOOP_FUEL (cset x (Some (Sc TSize (Some 0))) s))
  | Goto n => Jump n s
  | Return e => match eval e s with Some (_, v, _) => Ret (cvt TI64 v) | None => Bad end
  end.
End Expressions.

(** ** Functions and programs *)

(** A function of two numbers, without calls or jumps. *)
Record chelper : Type := mkHelper { h_name : string; h_x : string; h_y : string; h_body : cstmt }.

Definition no_helper (f : string) (x y : Z) : option Z := None.
Definition no_call (f : list Z) (vs : list (option Z)) : cres := CBad.
Definition empty_env : cenv := fun _ => None.

Definition run_helper (h : chelper) (x y : Z) : option Z :=
  match exec no_helper no_call (h_body h) (cset (h_x h) (Some (Sc TI64 (Some x))) (cset (h_y h) (Some (Sc TI64 (Some y))) empty_env)) with
  | Ret v => Some v
  | _ => None
  end.

(** A function of an array of numbers, its parameter [args]: a body of items. *)
Record cfun : Type := mkCFun { cf_name : list Z; cf_body : list cstmt }.

Record cprog : Type := mkProg { p_helpers : list chelper; p_funs : list cfun }.

Definition helpers_of (p : cprog) (f : string) (x y : Z) : option Z :=
  h ← List.find (fun h => String.eqb (h_name h) f) (p_helpers p); run_helper h x y.

Definition fun_of (p : cprog) (f : list Z) : option cfun := List.find (fun g => bytes_eqb (cf_name g) f) (p_funs p).

(** The items from a label on. *)
Fixpoint from_label (n : Z) (body : list cstmt) : option (list cstmt) :=
  match body with
  | [] => None
  | Seq (Label k) b :: rest => if k =? n then Some body else from_label n rest
  | _ :: rest => from_label n rest
  end.

(** A body, item by item; the end of a body returns nothing. *)
Fixpoint run_items (helper : string -> Z -> Z -> option Z) (call : list Z -> list (option Z) -> cres) (body : list cstmt)
    (fuel : nat) (rest : list cstmt) (s : cenv) : cres :=
  match fuel with
  | O => CFuel
  | S fuel =>
      match rest with
      | [] => CBad
      | b :: rest =>
          match exec helper call b s with
          | Go s => run_items helper call body fuel rest s
          | Jump n s =>
              match from_label n body with
              | Some rest => run_items helper call body fuel rest s
              | None => CBad
              end
          | Ret v => CVal v
          | Bad => CBad
          | NoFuel => CFuel
          end
      end
  end.

(** A call of a function by its name.  The fuel bounds the items a body runs and
    the nesting of calls. *)
Fixpoint call_c (fuel : nat) (p : cprog) (f : list Z) (vs : list (option Z)) : cres :=
  match fuel with
  | O => CFuel
  | S fuel =>
      match fun_of p f with
      | Some g =>
          run_items (helpers_of p) (call_c fuel p) (cf_body g) fuel (cf_body g)
            (cset "args" (Some (Ar TI64 vs)) empty_env)
      | None => CBad
      end
  end.

(** ** Tokens *)

Definition is_word (c : Z) : bool :=
  ((48 <=? c) && (c <=? 57)) || ((65 <=? c) && (c <=? 90)) || ((97 <=? c) && (c <=? 122)) || (c =? 95).

(** Blank, in a word, in an operator, or a token of its own. *)
Definition char_class (c : Z) : Z :=
  if is_space c then 0
  else if is_word c then 1
  else if bool_decide (c ∈ cstr "+-*/%&|^~<>=!") then 2
  else 3.

Definition flush (cur : list Z) : list (list Z) := match cur with [] => [] | _ => [cur] end.

(** Runs of word characters and of operator characters are tokens; [k] is the
    class of the run being read. *)
Fixpoint lex (k : Z) (cur l : list Z) : list (list Z) :=
  match l with
  | [] => flush cur
  | c :: l =>
      let k' := char_class c in
      if (k' =? k) && ((k =? 1) || (k =? 2)) then lex k (cur ++ [c]) l
      else
        flush cur ++
        (if k' =? 0 then lex 0 [] l else if k' =? 3 then [c] :: lex 0 [] l else lex k' [c] l)
  end.

Definition ctokens (l : list Z) : list (list Z) := lex 0 [] l.

Definition tok (s : string) : list (list Z) := [cstr s].

Definition t_tok (t : cty) : list (list Z) :=
  tok match t with TI32 => "int" | TU16 => "uint16_t" | TI64 => "int64_t" | TU64 => "uint64_t" | TSize => "size_t" end.

Definition unop_tok (o : cunop) : list (list Z) := tok match o with Minus => "-" | Tilde => "~" end.

Definition binop_tok (o : cbinop) : list (list Z) :=
  tok match o with
      | Plus => "+" | Sub => "-" | Times => "*" | Slash => "/" | Percent => "%" | Amp => "&" | Bar => "|" | Caret => "^"
      | ShiftL => "<<" | ShiftR => ">>" | EqEq => "==" | BangEq => "!=" | Less => "<" | Greater => ">" | LessEq => "<="
      | GreaterEq => ">=" | AndAnd => "&&"
      end.

Definition num_tok (t : cty) (z : Z) : list (list Z) :=
  match t with TI64 => [fmt_u64 z ++ cstr "LL"] | _ => [fmt_u64 z] end.

Fixpoint e_toks (e : cexpr) : list (list Z) :=
  match e with
  | Num t z => num_tok t z
  | Minval => tok "INT64_MIN"
  | Var x => tok x
  | At x e => tok x ++ tok "[" ++ e_toks e ++ tok "]"
  | At2 x e1 e2 => tok x ++ tok "[" ++ e_toks e1 ++ tok "]" ++ tok "[" ++ e_toks e2 ++ tok "]"
  | PreDec x => tok "--" ++ tok x
  | PostInc x => tok x ++ tok "++"
  | Un o e => unop_tok o ++ e_toks e
  | Bin o e1 e2 => e_toks e1 ++ binop_tok o ++ e_toks e2
  | Cast t e => tok "(" ++ t_tok t ++ tok ")" ++ e_toks e
  | Cond _ c e1 e2 => e_toks c ++ tok "?" ++ e_toks e1 ++ tok ":" ++ e_toks e2
  | Paren e => tok "(" ++ e_toks e ++ tok ")"
  | Call2 f e1 e2 => tok f ++ tok "(" ++ e_toks e1 ++ tok "," ++ e_toks e2 ++ tok ")"
  end.

Definition dim (n : nat) : list (list Z) := tok "[" ++ [fmt_u64 (Z.of_nat n)] ++ tok "]".
Definition label_tok (n : Z) : list (list Z) := [cstr "pc_" ++ fmt_u64 n].

Fixpoint s_toks (b : cstmt) : list (list Z) :=
  match b with
  | Skip => []
  | Seq s1 s2 => s_toks s1 ++ s_toks s2
  | Decl t x e => t_tok t ++ tok x ++ match e with Some e => tok "=" ++ e_toks e | None => [] end ++ tok ";"
  | DeclArr t x n zero => t_tok t ++ tok x ++ dim n ++ (if zero then tok "=" ++ map cstr ["{"; "0"; "}"]%string else []) ++ tok ";"
  | DeclArr2 t x n m => t_tok t ++ tok x ++ dim n ++ dim m ++ tok "=" ++ map cstr ["{"; "{"; "0"; "}"; "}"; ";"]%string
  | Assign l e => e_toks l ++ tok "=" ++ e_toks e ++ tok ";"
  | SubAssign x e => tok x ++ tok "-=" ++ e_toks e ++ tok ";"
  | PostDec x => tok x ++ tok "--" ++ tok ";"
  | DeclCall t x f arr => t_tok t ++ tok x ++ tok "=" ++ [f] ++ tok "(" ++ tok arr ++ tok ")" ++ tok ";"
  | If c b => tok "if" ++ tok "(" ++ e_toks c ++ tok ")" ++ s_toks b
  | IfPtr x b => tok "if" ++ tok "(" ++ tok x ++ tok ")" ++ s_toks b
  | Block b => tok "{" ++ s_toks b ++ tok "}"
  | For x c b =>
      map cstr ["for"; "("; "size_t"]%string ++ tok x ++ map cstr ["="; "0"; ";"]%string ++ e_toks c ++ tok ";" ++ tok x ++
      map cstr ["++"; ")"]%string ++ s_toks b
  | Goto n => tok "goto" ++ label_tok n ++ tok ";"
  | Label n => label_tok n ++ map cstr [":"; ";"]%string
  | Return e => tok "return" ++ e_toks e ++ tok ";"
  end.

Definition helper_toks (h : chelper) : list (list Z) :=
  map cstr ["static"; "inline"; "int64_t"]%string ++ tok (h_name h) ++ map cstr ["("; "int64_t"]%string ++ tok (h_x h) ++
  map cstr [","; "int64_t"]%string ++ tok (h_y h) ++ map cstr [")"; "{"]%string ++ s_toks (h_body h) ++ tok "}".

Definition fun_head (f : cfun) : list (list Z) :=
  tok "int64_t" ++ [cf_name f] ++ map cstr ["("; "const"; "int64_t"; "*"; "args"; ")"]%string.

Definition fun_toks (f : cfun) : list (list Z) := fun_head f ++ tok "{" ++ concat (map s_toks (cf_body f)) ++ tok "}".

(** The typedefs and the definition of INT64_MIN that the semantics has built in. *)
Definition typedef (ty : list string) (x : string) : list (list Z) := tok "typedef" ++ map cstr ty ++ tok x ++ tok ";".

Definition prelude_toks : list (list Z) :=
  typedef ["unsigned"; "long"; "long"] "uint64_t" ++ typedef ["long"; "long"] "int64_t" ++ typedef ["unsigned"; "int"] "uint32_t" ++
  typedef ["int"] "int32_t" ++ typedef ["unsigned"; "short"] "uint16_t" ++ typedef ["short"] "int16_t" ++
  typedef ["unsigned"; "char"] "uint8_t" ++ typedef ["unsigned"; "long"] "size_t" ++
  map cstr ["#"; "define"; "INT64_MIN"; "("; "-"; "9223372036854775807LL"; "-"; "1"; ")"]%string.

Definition prog_toks (p : cprog) : list (list Z) :=
  prelude_toks ++ concat (map helper_toks (p_helpers p)) ++ concat (map (fun f => fun_head f ++ tok ";") (p_funs p)) ++
  concat (map fun_toks (p_funs p)).

(** ** More fuel *)

(** The second answer is the first, unless the first ran out of fuel. *)
Definition cres_le (r r' : cres) : Prop := r = CFuel \/ r' = r.
Definition out_le (o o' : out) : Prop := o = NoFuel \/ o' = o.

Section More.
Context (helper : string -> Z -> Z -> option Z).

Lemma turns_more x c body body' : (forall s, out_le (body s) (body' s)) -> forall k s, out_le (turns helper x c body k s) (turns helper x c body' k s).
Proof.
  intros Hb. induction k as [|k IH]; intros s; cbn [turns]; [by left|]. destruct (eval helper c s) as [[[t v] s1]|]; [|by right].
  destruct (v =? 0); [by right|]. destruct (Hb s1) as [-> | ->]; [by left|]. destruct (body s1) as [s2|n s2|r| |]; try by right.
  destruct (eval helper (PostInc x) s2) as [[[? ?] s3]|]; [apply IH|by right].
Qed.

Lemma map_env_le f o o' : out_le o o' -> out_le (map_env f o) (map_env f o').
Proof. intros [-> | ->]; [by left|by right]. Qed.

Lemma exec_more call call' : (forall f vs, cres_le (call f vs) (call' f vs)) -> forall b s, out_le (exec helper call b s) (exec helper call' b s).
Proof.
  intros Hc. induction b as [| b1 IH1 b2 IH2|t x [e|]|t x n z|t x n m|l e|x e|x|t x f arr|c b IH|x b IH|b IH|x c b IH|n|n|e]; intros s;
    cbn [exec]; [by right| |by right|by right|by right|by right|by right|by right|by right| | | | | |by right|by right|by right].
  - destruct (IH1 s) as [-> | ->]; [by left|]. destruct (exec helper call b1 s) as [s1|n s1|r| |]; [apply IH2|by right..].
  - destruct (s arr) as [[|t' vs|]|]; [by right| |by right|by right]. destruct (Hc f vs) as [-> | ->]; [by left|by right].
  - destruct (eval helper c s) as [[[t v] s1]|]; [|by right]. destruct (v =? 0); [by right|apply IH].
  - destruct (s x) as [[|t' vs|]|]; [by right|apply IH|by right..].
  - apply map_env_le, IH.
  - apply map_env_le, turns_more, IH.
Qed.

Lemma run_items_more call call' body : (forall f vs, cres_le (call f vs) (call' f vs)) -> forall k k' rest s, (k <= k')%nat ->
  cres_le (run_items helper call body k rest s) (run_items helper call' body k' rest s).
Proof.
  intros Hc. induction k as [|k IH]; intros k' rest s Hk; [by left|]. destruct k' as [|k']; [lia|]. cbn [run_items].
  destruct rest as [|b rest]; [by right|]. destruct (exec_more call call' Hc b s) as [-> | ->]; [by left|].
  destruct (exec helper call b s) as [s1|n s1|r| |]; [apply IH; lia| |by right..]. destruct (from_label n body); [apply IH; lia|by right].
Qed.
End More.

Lemma call_c_more m : forall m' p f vs, (m <= m')%nat -> cres_le (call_c m p f vs) (call_c m' p f vs).
Proof.
  induction m as [|m IH]; intros m' p f vs Hm; [by left|]. destruct m' as [|m']; [lia|]. cbn [call_c]. destruct (fun_of p f) as [g|]; [|by right].
  apply run_items_more; [|lia]. intros f' vs'. apply IH. lia.
Qed.

(** What a call returns, with fuel enough. *)
Definition c_returns (p : cprog) (f : list Z) (vs : list (option Z)) (v : Z) : Prop := exists m, call_c m p f vs = CVal v.

Lemma c_returns_det p f vs v w : c_returns p f vs v -> c_returns p f vs w -> v = w.
Proof.
  intros [m Hm] [n Hn]. destruct (call_c_more m (max m n) p f vs ltac:(lia)) as [E|E]; [congruence|].
  destruct (call_c_more n (max m n) p f vs ltac:(lia)) as [E'|E']; congruence.
Qed.
