(* ===== verification/Jit.v ===== *)
(** * tool/lin_c0_jit.c: C11 text from a module, compiled in memory

    The text is built from pieces, in the order of the program, in a buffer whose
    allocations can fail; the C library's [sb_printf] goes through 1024 bytes.
    libtcc is the record [Tcc]: what each of its calls answers, and what the
    function compiled under a symbol returns.  Times are texts. *)
From stdpp Require Import strings.
From S2P Require Import Prelude Common Str Decimal Region Abi Vm Linbc1 Sys C0Lex C0Comp C0Build Cli.

(** ** The buffer *)

(** [None]: data is NULL. *)
Record StrBuf : Type := mkSb { sb_data : option (list Z); sb_cap : Z }.

Inductive piece : Type :=
| Puts (s : list Z)
| Printf (s : list Z).

(** A capacity doubled until it holds [need] bytes; 64 turns pass any size. *)
Fixpoint grow (fuel : nat) (need cap : Z) : Z :=
  match fuel with
  | O => cap
  | S fuel => if cap <=? need then grow fuel need (cap * 2) else cap
  end.

Definition ln (s : list Z) : list Z := s ++ [10].
Definition lns (l : list string) : list Z := concat (map (fun s => ln (cstr s)) l).

Definition sanitize_char (c : Z) : Z :=
  if in_range 97 122 c || in_range 65 90 c || in_range 48 57 c || (c =? 95) then c else 95.

Definition sanitize_fn_name (name : list Z) (max : nat) : list Z := map sanitize_char (take (max - 1) name).

Definition safe_name (f : VmFn) : list Z := sanitize_fn_name (fn_name f) 128.

Section Buffer.
Context `{Env}.

Definition sb_init : Mem StrBuf := ok ← try_malloc; mret (mkSb (if ok : bool then Some [] else None) 4096).

Definition sb_ensure (sb : StrBuf) (extra : nat) : Mem StrBuf :=
  let need := Z.of_nat (length (default [] (sb_data sb)) + extra + 1) in
  if sb_cap sb <=? need then
    ok ← try_malloc;
    mret (mkSb (if ok : bool then Some (default [] (sb_data sb)) else None) (grow 64 need (sb_cap sb)))
  else mret sb.

(** [memcpy] to NULL is stuck. *)
Definition sb_append (sb : StrBuf) (s : list Z) : Mem StrBuf :=
  sb ← sb_ensure sb (length s);
  match sb_data sb with
  | Some l => mret (mkSb (Some (l ++ s)) (sb_cap sb))
  | None => mstuck
  end.

Definition sb_puts (sb : StrBuf) (s : list Z) : Mem StrBuf := sb_append sb s.

(** [vsnprintf] cuts at 1023 bytes, but what it wanted to write is copied. *)
Definition sb_printf (sb : StrBuf) (s : list Z) : Mem StrBuf :=
  if (length s =? 0)%nat then mret sb
  else if (1024 <? length s)%nat then mstuck
  else sb_append sb (if (length s =? 1024)%nat then take 1023 s ++ [0] else s).

Definition sb_piece (sb : StrBuf) (p : piece) : Mem StrBuf :=
  match p with Puts s => sb_puts sb s | Printf s => sb_printf sb s end.

Fixpoint sb_pieces (sb : StrBuf) (ps : list piece) : Mem StrBuf :=
  match ps with
  | [] => mret sb
  | p :: ps => sb ← sb_piece sb p; sb_pieces sb ps
  end.
End Buffer.

(** ** The text *)

Definition boilerplate : list Z := lns [
  "typedef unsigned long long uint64_t;"; "typedef long long int64_t;"; "typedef unsigned int uint32_t;"; "typedef int int32_t;";
  "typedef unsigned short uint16_t;"; "typedef short int16_t;"; "typedef unsigned char uint8_t;"; "typedef unsigned long size_t;";
  "#define INT64_MIN (-9223372036854775807LL - 1)"; "";
  "static inline int64_t lin_wadd(int64_t a, int64_t b) { return (int64_t)((uint64_t)a + (uint64_t)b); }";
  "static inline int64_t lin_wsub(int64_t a, int64_t b) { return (int64_t)((uint64_t)a - (uint64_t)b); }";
  "static inline int64_t lin_wmul(int64_t a, int64_t b) { return (int64_t)((uint64_t)a * (uint64_t)b); }";
  "static inline int64_t lin_wdiv(int64_t x, int64_t y) {"; "    if (y == 0) return 0;";
  "    if (x == INT64_MIN && y == -1) return INT64_MIN;"; "    return x / y;"; "}";
  "static inline int64_t lin_wrem(int64_t x, int64_t y) {"; "    if (y == 0) return 0;";
  "    if (x == INT64_MIN && y == -1) return 0;"; "    return x % y;"; "}"; ""]%string.

Definition fn_decl (f : VmFn) : piece := Printf (cstr "int64_t lin_fn_" ++ safe_name f ++ ln (cstr "(const int64_t *args);")).

Definition size_text (z : Z) : list Z := fmt_u64 (u64 z).

(** [stack[sp++] = e] of the two values on top. *)
Definition binary_text (e : string) : piece :=
  Puts (cstr "    { int64_t b = stack[--sp]; int64_t a = stack[--sp]; stack[sp++] = " ++ cstr e ++ ln (cstr "; }")).
Definition shift_text (e : string) : piece :=
  Puts (cstr "    { int64_t s = stack[--sp]; int64_t a = stack[--sp]; stack[sp++] = " ++ cstr e ++ ln (cstr "; }")).

Definition slot_line (i : VmIns) : list Z := cstr "        size_t slot = (size_t)locals[" ++ size_text (a i) ++ ln (cstr "];").

Definition call_text (target : VmFn) : piece :=
  Printf (ln (cstr "    {") ++ cstr "        size_t np = " ++ fmt_u64 (Z.of_nat (nparams target)) ++ ln (cstr ";") ++
    lns ["        int64_t cargs[64] = {0};"; "        for (size_t j = 0; j < np && j < 64; j++) cargs[j] = stack[sp - np + j];";
         "        sp -= np;"]%string ++
    cstr "        int64_t ret = lin_fn_" ++ safe_name target ++ ln (cstr "(cargs);") ++
    lns ["        stack[sp++] = ret;"; "    }"]%string).

(** The switch. *)
Definition ins_pieces (md : VmModule) (i : VmIns) : list piece :=
  match op i with
  | OP_PUSH_CONST => [Printf (cstr "    stack[sp++] = " ++ fmt_i64 (a i) ++ ln (cstr "LL;"))]
  | OP_LOAD_LOCAL => [Printf (cstr "    stack[sp++] = locals[" ++ size_text (a i) ++ ln (cstr "];"))]
  | OP_STORE_LOCAL => [Printf (cstr "    locals[" ++ size_text (a i) ++ ln (cstr "] = stack[--sp];"))]
  | OP_POP => [Puts (ln (cstr "    if (sp > 0) sp--;"))]
  | OP_ADD => [binary_text "lin_wadd(a, b)"]
  | OP_SUB => [binary_text "lin_wsub(a, b)"]
  | OP_MUL => [binary_text "lin_wmul(a, b)"]
  | OP_DIV => [binary_text "lin_wdiv(a, b)"]
  | OP_MOD => [binary_text "lin_wrem(a, b)"]
  | OP_BIT_AND => [binary_text "(a & b)"]
  | OP_BIT_OR => [binary_text "(a | b)"]
  | OP_BIT_XOR => [binary_text "(a ^ b)"]
  | OP_BIT_NOT => [Puts (ln (cstr "    stack[sp - 1] = ~stack[sp - 1];"))]
  | OP_NEG => [Puts (ln (cstr "    stack[sp - 1] = lin_wsub(0, stack[sp - 1]);"))]
  | OP_LOG_NOT => [Puts (ln (cstr "    stack[sp - 1] = (stack[sp - 1] == 0) ? 1 : 0;"))]
  | OP_SHL => [shift_text "(int64_t)((uint64_t)a << (s & 63))"]
  | OP_SHR => [shift_text "(a >> (s & 63))"]
  | OP_USHR => [shift_text "(int64_t)((uint64_t)a >> (s & 63))"]
  | OP_CMP_EQ => [binary_text "(a == b) ? 1 : 0"]
  | OP_CMP_NE => [binary_text "(a != b) ? 1 : 0"]
  | OP_CMP_LT => [binary_text "(a < b) ? 1 : 0"]
  | OP_CMP_GT => [binary_text "(a > b) ? 1 : 0"]
  | OP_CMP_LE => [binary_text "(a <= b) ? 1 : 0"]
  | OP_CMP_GE => [binary_text "(a >= b) ? 1 : 0"]
  | OP_JUMP => [Printf (cstr "    goto pc_" ++ fmt_i64 (a i) ++ ln (cstr ";"))]
  | OP_JUMP_IF_FALSE => [Printf (cstr "    if (stack[--sp] == 0) goto pc_" ++ fmt_i64 (a i) ++ ln (cstr ";"))]
  | OP_JUMP_IF_FALSE_KEEP => [Printf (cstr "    if (stack[sp - 1] == 0) goto pc_" ++ fmt_i64 (a i) ++ ln (cstr ";"))]
  | OP_JUMP_IF_TRUE_KEEP => [Printf (cstr "    if (stack[sp - 1] != 0) goto pc_" ++ fmt_i64 (a i) ++ ln (cstr ";"))]
  | OP_RET => [Puts (ln (cstr "    return (sp > 0) ? stack[sp - 1] : 0;"))]
  | OP_LOAD_INDEX => [Printf (lns ["    {"; "        int64_t ix = stack[--sp];"]%string ++ slot_line i ++
      lns ["        int64_t v = 0;"; "        if (slot < 8 && ix >= 0 && ix < (int64_t)pool_len[slot]) {";
           "            v = pool[slot][(size_t)ix];"; "        }"; "        stack[sp++] = v;"; "    }"]%string)]
  | OP_STORE_INDEX => [Printf (lns ["    {"; "        int64_t ix = stack[sp - 2];"; "        int64_t val = stack[sp - 1];";
           "        sp -= 2;"]%string ++ slot_line i ++
      lns ["        if (slot < 8 && ix >= 0 && ix < (int64_t)pool_len[slot]) {"; "            pool[slot][(size_t)ix] = val;";
           "        }"; "    }"]%string)]
  | OP_ARR_LEN => [Printf (ln (cstr "    {") ++ slot_line i ++
      lns ["        stack[sp++] = (slot < 8) ? (int64_t)pool_len[slot] : 0;"; "    }"]%string)]
  | OP_CALL => match lookupz (fns md) (u64 (a i)) with Some target => [call_text target] | None => [] end
  | OP_ABI_CALL => []
  end.

Definition code_pieces (md : VmModule) (code : list VmIns) : list piece :=
  concat (imap (fun pc i => Printf (cstr "pc_" ++ fmt_u64 (Z.of_nat pc) ++ ln (cstr ":;")) :: ins_pieces md i) code).

Definition arg_line (p : nat) : piece :=
  Printf (cstr "        locals[" ++ fmt_u64 (Z.of_nat p) ++ cstr "] = args[" ++ fmt_u64 (Z.of_nat p) ++ ln (cstr "];")).

Definition arg_pieces (n : nat) : list piece :=
  if (n =? 0)%nat then []
  else Printf (ln (cstr "    if (args) {")) :: map arg_line (seq 0 (min n 64)) ++ [Printf (ln (cstr "    }"))].

Definition array_piece (li : nat) (an : Z) : list piece :=
  if 0 <? an then
    [Printf (lns ["    if (pool_used < 8) {"; "        size_t slot = pool_used++;"]%string ++
       cstr "        pool_len[slot] = " ++ fmt_u64 an ++ ln (cstr ";") ++
       cstr "        locals[" ++ fmt_u64 (Z.of_nat li) ++ ln (cstr "] = (int64_t)slot;") ++ ln (cstr "    }"))]
  else [].

Definition array_pieces (arrs : list Z) : list piece :=
  if (length arrs =? 0)%nat then []
  else [Puts (ln (cstr "    int64_t pool[8][256] = {{0}};")); Puts (ln (cstr "    uint16_t pool_len[8] = {0};"));
        Puts (ln (cstr "    size_t pool_used = 0;"))] ++ concat (imap array_piece arrs).

Definition fn_pieces (md : VmModule) (f : VmFn) : list piece :=
  [Printf (cstr "int64_t lin_fn_" ++ safe_name f ++ ln (cstr "(const int64_t *args) {"));
   Puts (ln (cstr "    int64_t locals[64] = {0};")); Puts (ln (cstr "    int64_t stack[256];")); Puts (ln (cstr "    size_t sp = 0;"))] ++
  arg_pieces (nparams f) ++ array_pieces (arr_n f) ++ code_pieces md (code f) ++
  [Puts (ln (cstr "    return (sp > 0) ? stack[sp - 1] : 0;")); Puts (ln (cstr "}") ++ [10])].

Definition module_pieces (md : VmModule) : list piece :=
  let fs := List.filter ok (fns md) in
  [Puts boilerplate] ++ map fn_decl fs ++ [Puts [10]] ++ concat (map (fn_pieces md) fs).

Section Jit.
Context `{Env}.

(** [None] is NULL. *)
Definition c0_jit_emit_c11 (md : VmModule) : Mem (option (list Z)) :=
  if (length (fns md) =? 0)%nat then mret None
  else sb ← sb_init; sb ← sb_pieces sb (module_pieces md); mret (sb_data sb).

(** ** libtcc *)

Record Tcc : Type := mkTcc {
  tcc_load : bool;
  tcc_new : bool;
  tcc_compile_string : list Z -> bool;
  tcc_relocate : list Z -> bool;
  tcc_get_symbol : list Z -> list Z -> bool;
  (** the value of a compiled function at its 64 arguments, if it returns *)
  tcc_run : list Z -> list Z -> list Z -> option Z;
  compile_ms : list Z;
  exec_us : list Z
}.

Context (tcc : Tcc).

Definition c0_jit_is_available : bool := tcc_load tcc.

(** [LinJitResult]: a value, or the error. *)
Definition c0_jit_exec (md : VmModule) (fn : list Z) (args : list Z) : Mem (res (list Z) Z) :=
  if negb (tcc_load tcc) then mret (Err (cstr "LIBTCC_UNAVAILABLE"))
  else
    src ← c0_jit_emit_c11 md;
    match src with
    | None => mret (Err (cstr "C11_EMIT_FAILED"))
    | Some src =>
        if negb (tcc_new tcc) then mret (Err (cstr "TCC_NEW_FAILED"))
        else if negb (tcc_compile_string tcc (strz src)) then mret (Err (cstr "TCC_COMPILE_FAILED"))
        else if negb (tcc_relocate tcc (strz src)) then mret (Err (cstr "TCC_RELOCATE_FAILED"))
        else
          let safe_target := cstr "lin_fn_" ++ sanitize_fn_name fn 128 in
          if negb (tcc_get_symbol tcc (strz src) safe_target) then mret (Err (cstr "SYMBOL_NOT_FOUND"))
          else
            let safe_args := take 64 args ++ replicate (64 - length args) 0 in
            match tcc_run tcc (strz src) safe_target safe_args with
            | Some v => mret (Ok v)
            | None => mstuck
            end
    end.

Definition jit_head : list Z := ln (cstr "@RULEL:LIN_JIT_ROUNDTRIP:1.0.0").

Definition jit_divergence (why : list Z) : list Z :=
  jit_head ++ cstr ".verdict{ status=" ++ quote (cstr "DIVERGENCE") ++ why ++ ln (cstr " }").

(** What is printed, and whether the two agree. *)
Definition c0_jit_roundtrip (fuel : nat) (md : VmModule) (fn : list Z) (args : list Z) : Mem (list Z * bool) :=
  let fi := find_fn 0 (fns md) fn in
  if fi <? 0 then mret (jit_divergence (cstr " why=" ++ quote (cstr "fn_not_found")), false)
  else
    '(r, steps) ← exec fuel md fi args;
    match r with
    | Err e => mret (jit_divergence (cstr " why=" ++ quote (cstr "vm_error") ++ cstr " code=" ++ quote (cstr (lin_err_name (Some e)))), false)
    | Ok r =>
        j ← c0_jit_exec md fn args;
        match j with
        | Err e => mret (jit_divergence (cstr " why=" ++ quote (cstr "jit_error") ++ cstr " code=" ++ quote e), false)
        | Ok v =>
            if val r =? v then
              mret (jit_head ++ cstr ".verdict{ status=" ++ quote (cstr "CONSENSUS") ++ cstr " fn=" ++ quote fn ++ cstr " value=" ++
                    fmt_i64 v ++ cstr " vm_steps=" ++ fmt_u64 steps ++ cstr " jit_compile_ms=" ++ compile_ms tcc ++
                    cstr " jit_exec_us=" ++ exec_us tcc ++ ln (cstr " }"), true)
            else
              mret (jit_divergence (cstr " fn=" ++ quote fn ++ cstr " vm_value=" ++ fmt_i64 (val r) ++ cstr " jit_value=" ++ fmt_i64 v), false)
        end
    end.

(** How many functions compile and run on zeros. *)
Fixpoint verify_loop (md : VmModule) (l : list VmFn) : Mem nat :=
  match l with
  | [] => mret O
  | f :: l =>
      if ok f then
        j ← c0_jit_exec md (fn_name f) (replicate (nparams f) 0);
        n ← verify_loop md l;
        mret (if is_ok j then S n else n)
      else verify_loop md l
  end.

Definition c0_jit_verify_module (md : VmModule) : Mem (list Z * bool) :=
  let total := length (List.filter ok (fns md)) in
  passed ← verify_loop md (fns md);
  mret (ln (cstr "@RULEL:LIN_JIT_VERIFY:1.0.0") ++ cstr ".summary{ total=" ++ fmt_u64 (Z.of_nat total) ++ cstr " compiled_and_run=" ++
        fmt_u64 (Z.of_nat passed) ++ ln (cstr " }"), (passed =? total)%nat).

(** ** The commands of tool/lin_c0.c *)

Context (fs : list Z -> option (list Z)).

Definition jit_run_head : list Z := ln (cstr "@RULEL:LIN_JIT_RUN:1.0.0").

Definition cmd_jit (argv : list (list Z)) : Mem ran :=
  if (length argv <? 3)%nat then complain (cstr "usage: lin_c0 jit <file.lin> [fn] [int args...]")
  else
    let path := arg argv 2 in
    src ← read_file fs path;
    match src with
    | None => complain (cstr "jit: cannot read " ++ path)
    | Some src =>
        md ← or_null (c0_build src);
        match md with
        | None => complain (cstr "jit: build failed for " ++ path)
        | Some md =>
            let fn := if (4 <=? length argv)%nat then arg argv 3 else cstr "main" in
            match parse_args 64 (drop 4 argv) with
            | None => complain (cstr "jit: bad integer argument")
            | Some args =>
                j ← c0_jit_exec md fn args;
                match j with
                | Err e => answer (jit_run_head ++ cstr ".error{ fn=" ++ quote fn ++ cstr " reason=" ++ quote e ++ ln (cstr " }")) 1
                | Ok v =>
                    answer (jit_run_head ++ cstr ".result{ fn=" ++ quote fn ++ cstr " value=" ++ fmt_i64 v ++ cstr " compile_ms=" ++
                            compile_ms tcc ++ cstr " exec_us=" ++ exec_us tcc ++ ln (cstr " }")) 0
                end
            end
        end
    end.

Definition cmd_roundtrip_jit (fuel : nat) (argv : list (list Z)) : Mem ran :=
  if (length argv <? 4)%nat then complain (cstr "usage: lin_c0 roundtrip-jit <file.lin> <fn> [int args...]")
  else
    let path := arg argv 2 in
    src ← read_file fs path;
    match src with
    | None => complain (cstr "roundtrip-jit: cannot read " ++ path)
    | Some src =>
        md ← or_null (c0_build src);
        match md with
        | None => complain (cstr "roundtrip-jit: build failed for " ++ path)
        | Some md =>
            match parse_args 64 (drop 4 argv) with
            | None => complain (cstr "roundtrip-jit: bad integer argument")
            | Some args => '(t, agree) ← c0_jit_roundtrip fuel md (arg argv 3) args; answer t (if agree : bool then 0 else 1)
            end
        end
    end.

Definition cmd_jit_verify (argv : list (list Z)) : Mem ran :=
  if (length argv <? 3)%nat then complain (cstr "usage: lin_c0 jit-verify <file.lin>")
  else
    let path := arg argv 2 in
    src ← read_file fs path;
    match src with
    | None => complain (cstr "jit-verify: cannot read " ++ path)
    | Some src =>
        md ← or_null (c0_build src);
        match md with
        | None => complain (cstr "jit-verify: build failed for " ++ path)
        | Some md => '(t, all) ← c0_jit_verify_module md; answer t (if all : bool then 0 else 1)
        end
    end.
End Jit.
