(* ===== verification/JitProg.v ===== *)
(** * The C program of a module, and that its text spells it

    [jit_program] is the abstract syntax of what the JIT back end emits, function
    by function and instruction by instruction; the emitted text has exactly its
    tokens. *)
From stdpp Require Import strings.
From S2P Require Import Prelude Common Token Decimal Region Abi Vm Sys C0Lex Cli CLang Jit.

(** ** The program *)

Local Open Scope c_scope.

Definition int (z : Z) : cexpr := Num TI32 z.
Definition sp : cexpr := Var "sp".
Definition pop_e : cexpr := At "stack" (PreDec "sp").
Definition top_e : cexpr := At "stack" (Bin Sub sp (int 1)).
Definition push_s (e : cexpr) : cstmt := Assign (At "stack" (PostInc "sp")) e.
Definition local_e (n : Z) : cexpr := At "locals" (int n).

Definition const_e (z : Z) : cexpr := if z <? 0 then Un Minus (Num TI64 (- z)) else Num TI64 z.

Definition helper_2 (f : string) (t e : cexpr) : cexpr := Call2 f t e.

Definition cast_binop (o : cbinop) : cexpr := Cast TI64 (Paren (Bin o (Cast TU64 (Var "a")) (Cast TU64 (Var "b")))).

Definition div_helper (f : string) (o : cbinop) (special : cexpr) : chelper :=
  mkHelper f "x" "y"
    (If (Bin EqEq (Var "y") (int 0)) (Return (int 0)) ;;
     If (Bin AndAnd (Bin EqEq (Var "x") Minval) (Bin EqEq (Var "y") (Un Minus (int 1)))) (Return special) ;;
     Return (Bin o (Var "x") (Var "y"))).

Definition helpers : list chelper := [
  mkHelper "lin_wadd" "a" "b" (Return (cast_binop Plus));
  mkHelper "lin_wsub" "a" "b" (Return (cast_binop Sub));
  mkHelper "lin_wmul" "a" "b" (Return (cast_binop Times));
  div_helper "lin_wdiv" Slash Minval;
  div_helper "lin_wrem" Percent (int 0)
].

Definition binary_s (e : cexpr) : cstmt := Block (Decl TI64 "b" (Some pop_e) ;; Decl TI64 "a" (Some pop_e) ;; push_s e).
Definition shift_s (e : cexpr) : cstmt := Block (Decl TI64 "s" (Some pop_e) ;; Decl TI64 "a" (Some pop_e) ;; push_s e).
Definition ab (o : cbinop) : cexpr := Paren (Bin o (Var "a") (Var "b")).
Definition flag (c : cexpr) : cexpr := Cond TI32 (Paren c) (int 1) (int 0).
Definition cmp_s (o : cbinop) : cstmt := binary_s (flag (Bin o (Var "a") (Var "b"))).
Definition masked : cexpr := Paren (Bin Amp (Var "s") (int 63)).

Definition return_top : cstmt := Return (Cond TI64 (Paren (Bin Greater sp (int 0))) top_e (int 0)).

Definition slot_s (n : Z) : cstmt := Decl TSize "slot" (Some (Cast TSize (local_e n))).
Definition pool_len_e : cexpr := Cast TI64 (At "pool_len" (Var "slot")).
Definition in_pool : cexpr :=
  Bin AndAnd (Bin AndAnd (Bin Less (Var "slot") (int 8)) (Bin GreaterEq (Var "ix") (int 0))) (Bin Less (Var "ix") pool_len_e).
Definition pool_e : cexpr := At2 "pool" (Var "slot") (Cast TSize (Var "ix")).

Definition load_index_s (n : Z) : cstmt :=
  Block (Decl TI64 "ix" (Some pop_e) ;; slot_s n ;; Decl TI64 "v" (Some (int 0)) ;;
         If in_pool (Block (Assign (Var "v") pool_e)) ;; push_s (Var "v")).

Definition store_index_s (n : Z) : cstmt :=
  Block (Decl TI64 "ix" (Some (At "stack" (Bin Sub sp (int 2)))) ;; Decl TI64 "val" (Some top_e) ;; SubAssign "sp" (int 2) ;;
         slot_s n ;; If in_pool (Block (Assign pool_e (Var "val")))).

Definition arr_len_s (n : Z) : cstmt :=
  Block (slot_s n ;; push_s (Cond TI64 (Paren (Bin Less (Var "slot") (int 8))) pool_len_e (int 0))).

Definition fn_symbol (f : VmFn) : list Z := cstr "lin_fn_" ++ safe_name f.

Definition call_s (g : VmFn) : cstmt :=
  Block (Decl TSize "np" (Some (int (Z.of_nat (nparams g)))) ;; DeclArr TI64 "cargs" 64 true ;;
         For "j" (Bin AndAnd (Bin Less (Var "j") (Var "np")) (Bin Less (Var "j") (int 64)))
           (Assign (At "cargs" (Var "j")) (At "stack" (Bin Plus (Bin Sub sp (Var "np")) (Var "j")))) ;;
         SubAssign "sp" (Var "np") ;; DeclCall TI64 "ret" (fn_symbol g) "cargs" ;; push_s (Var "ret")).

Definition jump_if (c : cexpr) (o : cbinop) (i : VmIns) : cstmt := If (Bin o c (int 0)) (Goto (a i)).

Definition ins_stmt (md : VmModule) (i : VmIns) : cstmt :=
  match op i with
  | OP_PUSH_CONST => push_s (const_e (a i))
  | OP_LOAD_LOCAL => push_s (local_e (u64 (a i)))
  | OP_STORE_LOCAL => Assign (local_e (u64 (a i))) pop_e
  | OP_POP => If (Bin Greater sp (int 0)) (PostDec "sp")
  | OP_ADD => binary_s (Call2 "lin_wadd" (Var "a") (Var "b"))
  | OP_SUB => binary_s (Call2 "lin_wsub" (Var "a") (Var "b"))
  | OP_MUL => binary_s (Call2 "lin_wmul" (Var "a") (Var "b"))
  | OP_DIV => binary_s (Call2 "lin_wdiv" (Var "a") (Var "b"))
  | OP_MOD => binary_s (Call2 "lin_wrem" (Var "a") (Var "b"))
  | OP_BIT_AND => binary_s (ab Amp)
  | OP_BIT_OR => binary_s (ab Bar)
  | OP_BIT_XOR => binary_s (ab Caret)
  | OP_BIT_NOT => Assign top_e (Un Tilde top_e)
  | OP_NEG => Assign top_e (Call2 "lin_wsub" (int 0) top_e)
  | OP_LOG_NOT => Assign top_e (flag (Bin EqEq top_e (int 0)))
  | OP_SHL => shift_s (Cast TI64 (Paren (Bin ShiftL (Cast TU64 (Var "a")) masked)))
  | OP_SHR => shift_s (Paren (Bin ShiftR (Var "a") masked))
  | OP_USHR => shift_s (Cast TI64 (Paren (Bin ShiftR (Cast TU64 (Var "a")) masked)))
  | OP_CMP_EQ => cmp_s EqEq
  | OP_CMP_NE => cmp_s BangEq
  | OP_CMP_LT => cmp_s Less
  | OP_CMP_GT => cmp_s Greater
  | OP_CMP_LE => cmp_s LessEq
  | OP_CMP_GE => cmp_s GreaterEq
  | OP_JUMP => Goto (a i)
  | OP_JUMP_IF_FALSE => jump_if pop_e EqEq i
  | OP_JUMP_IF_FALSE_KEEP => jump_if top_e EqEq i
  | OP_JUMP_IF_TRUE_KEEP => jump_if top_e BangEq i
  | OP_RET => return_top
  | OP_LOAD_INDEX => load_index_s (u64 (a i))
  | OP_STORE_INDEX => store_index_s (u64 (a i))
  | OP_ARR_LEN => arr_len_s (u64 (a i))
  | OP_CALL => match lookupz (fns md) (u64 (a i)) with Some g => call_s g | None => Skip end
  | OP_ABI_CALL => Skip
  end.

Definition seqs (l : list cstmt) : cstmt := fold_right Seq Skip l.

Definition copy_arg (p : nat) : cstmt := Assign (local_e (Z.of_nat p)) (At "args" (int (Z.of_nat p))).
Definition copy_args_s (n : nat) : cstmt :=
  if (n =? 0)%nat then Skip else IfPtr "args" (Block (seqs (map copy_arg (seq 0 (min n 64))))).

Definition array_s (li : nat) (an : Z) : cstmt :=
  if 0 <? an then
    If (Bin Less (Var "pool_used") (int 8))
      (Block (Decl TSize "slot" (Some (PostInc "pool_used")) ;; Assign (At "pool_len" (Var "slot")) (int an) ;;
              Assign (local_e (Z.of_nat li)) (Cast TI64 (Var "slot"))))
  else Skip.

Definition arrays_s (arrs : list Z) : cstmt :=
  if (length arrs =? 0)%nat then Skip
  else DeclArr2 TI64 "pool" 8 256 ;; DeclArr TU16 "pool_len" 8 true ;; Decl TSize "pool_used" (Some (int 0)) ;; seqs (imap array_s arrs).

Definition prologue (f : VmFn) : cstmt :=
  DeclArr TI64 "locals" 64 true ;; DeclArr TI64 "stack" 256 false ;; Decl TSize "sp" (Some (int 0)) ;;
  copy_args_s (nparams f) ;; arrays_s (arr_n f).

Definition code_items (md : VmModule) (code : list VmIns) : list cstmt :=
  imap (fun pc i => Label (Z.of_nat pc) ;; ins_stmt md i) code.

Definition fn_prog (md : VmModule) (f : VmFn) : cfun :=
  mkCFun (fn_symbol f) (prologue f :: code_items md (code f) ++ [return_top]).

Definition jit_program (md : VmModule) : cprog := mkProg helpers (map (fn_prog md) (List.filter ok (fns md))).

(** ** Lexing in pieces *)

Fixpoint lexs (k : Z) (cur l : list Z) : list (list Z) * Z * list Z :=
  match l with
  | [] => ([], k, cur)
  | c :: l =>
      let k' := char_class c in
      if (k' =? k) && ((k =? 1) || (k =? 2)) then lexs k (cur ++ [c]) l
      else
        let '(ts, k1, c1) :=
          if k' =? 0 then lexs 0 [] l else if k' =? 3 then let '(ts, k1, c1) := lexs 0 [] l in ([c] :: ts, k1, c1) else lexs k' [c] l in
        (flush cur ++ ts, k1, c1)
  end.

Lemma lex_lexs s l : forall k cur, lex k cur (s ++ l) = let '(ts, k', cur') := lexs k cur s in ts ++ lex k' cur' l.
Proof.
  induction s as [|c s IH]; intros k cur; [done|]. cbn [app lex lexs].
  destruct (_ && _); [apply IH|]. destruct (char_class c =? 0); [|destruct (char_class c =? 3)]; rewrite IH.
  - destruct (lexs 0 [] s) as [[ts k1] c1]. by rewrite app_assoc.
  - destruct (lexs 0 [] s) as [[ts k1] c1]. by rewrite <- app_assoc.
  - destruct (lexs (char_class c) [c] s) as [[ts k1] c1]. by rewrite app_assoc.
Qed.

Lemma lexs_app s l : forall k cur, lexs k cur (s ++ l) =
  let '(t1, k1, c1) := lexs k cur s in let '(t2, k2, c2) := lexs k1 c1 l in (t1 ++ t2, k2, c2).
Proof.
  induction s as [|c s IH]; intros k cur; [cbn [app lexs]; by destruct (lexs k cur l) as [[? ?] ?]|]. cbn [app lexs].
  destruct (_ && _); [apply IH|]. destruct (char_class c =? 0); [|destruct (char_class c =? 3)]; rewrite IH.
  - destruct (lexs 0 [] s) as [[ts k1] c1]. destruct (lexs k1 c1 l) as [[t2 k2] c2]. by rewrite app_assoc.
  - destruct (lexs 0 [] s) as [[ts k1] c1]. destruct (lexs k1 c1 l) as [[t2 k2] c2]. by rewrite <- app_assoc.
  - destruct (lexs (char_class c) [c] s) as [[ts k1] c1]. destruct (lexs k1 c1 l) as [[t2 k2] c2]. by rewrite app_assoc.
Qed.

(** A text that ends between tokens. *)
Definition spells (s : list Z) (ts : list (list Z)) : Prop := lexs 0 [] s = (ts, 0, []).

Lemma spells_tokens s ts : spells s ts -> ctokens s = ts.
Proof.
  intros Hs. unfold ctokens. pose proof (lex_lexs s [] 0 []) as E. rewrite app_nil_r, Hs in E. cbn in E. by rewrite app_nil_r in E.
Qed.

Lemma spells_app a b ta tb : spells a ta -> spells b tb -> spells (a ++ b) (ta ++ tb).
Proof. unfold spells. intros Ha Hb. by rewrite lexs_app, Ha, Hb. Qed.

Lemma spells_nil : spells [] [].
Proof. done. Qed.

Definition words (w : list Z) : Prop := forallb is_word w = true.

Lemma word_class c : is_word c = true -> char_class c = 1.
Proof.
  intros Hw. unfold char_class. rewrite Hw. assert (is_space c = false) as ->; [|done].
  unfold is_word in Hw. unfold is_space. apply orb_false_iff. split.
  - apply Z.eqb_neq. intros ->. done.
  - apply andb_false_iff. right. apply Z.leb_gt. repeat (apply orb_true_iff in Hw as [Hw|Hw]); to_prop; lia.
Qed.

Lemma lexs_words w : forall cur, words w -> lexs 1 cur w = ([], 1, cur ++ w).
Proof.
  induction w as [|c w IH]; intros cur Hw; [cbn [lexs]; by rewrite app_nil_r|]. apply andb_true_iff in Hw as [Hc Hw].
  cbn [lexs]. rewrite word_class by done. cbn [Z.eqb Pos.eqb andb orb]. rewrite IH by done. by rewrite <- app_assoc.
Qed.

Lemma lexs_start_word w k cur : words w -> w <> [] -> k <> 1 -> lexs k cur w = (flush cur, 1, w).
Proof.
  destruct w as [|c w]; [done|]. intros Hw _ Hk. apply andb_true_iff in Hw as [Hc Hw]. cbn [lexs]. rewrite word_class by done.
  destruct (Z.eqb_spec 1 k) as [?|_]; [congruence|]. cbn [andb Z.eqb Pos.eqb]. rewrite lexs_words by done. by rewrite app_nil_r.
Qed.

(** The next character starts another token. *)
Definition breaks (s : list Z) : Prop := match s with c :: _ => char_class c <> 1 | [] => False end.

Lemma lexs_break cur s : cur <> [] -> breaks s -> lexs 1 cur s = let '(ts, k, c) := lexs 0 [] s in (cur :: ts, k, c).
Proof.
  destruct s as [|c s]; [done|]. intros Hc Hb. unfold breaks in Hb. cbn [lexs flush app].
  destruct (Z.eqb_spec (char_class c) 1) as [?|_]; [done|]. cbn [andb]. replace ((char_class c =? 0) && ((0 =? 1) || (0 =? 2))) with false by (by rewrite andb_false_r).
  destruct cur as [|d cur]; [done|]. cbn [flush app].
  destruct (char_class c =? 0); [by destruct (lexs 0 [] s) as [[? ?] ?]|]. destruct (char_class c =? 3); [by destruct (lexs 0 [] s) as [[? ?] ?]|].
  by destruct (lexs (char_class c) [c] s) as [[? ?] ?].
Qed.

(** A word in the middle of a text, alone or after the start of a word. *)
Definition joined_word (k : Z) (c w : list Z) : list (list Z) := if k =? 1 then [c ++ w] else flush c ++ [w].

Lemma spells_hole C w s t k c ts all : lexs 0 [] C = (t, k, c) -> words w -> w <> [] -> breaks s ->
  spells s ts -> all = t ++ joined_word k c w ++ ts -> spells (C ++ w ++ s) all.
Proof.
  intros HC Hw Hn Hb Hs ->. unfold spells in *. rewrite lexs_app, HC, lexs_app. unfold joined_word. destruct (Z.eqb_spec k 1) as [->|Hk].
  - rewrite lexs_words by done. rewrite lexs_break, Hs; [done| |done]. by intros [_ ->]%app_eq_nil.
  - rewrite lexs_start_word by done. rewrite lexs_break, Hs by done. by rewrite <- app_assoc.
Qed.

Lemma words_u64 x : in_u64 x -> words (fmt_u64 x) /\ fmt_u64 x <> [].
Proof.
  intros Hx. destruct (fmt_u64_spec x Hx) as (_ & Hd & Hl). split; [|intros E; rewrite E in Hl; simpl in Hl; lia].
  apply List.forallb_forall. intros c Hc. apply (proj1 (List.forallb_forall _ _) Hd) in Hc. unfold is_digit in Hc. unfold is_word.
  to_prop. rewrite (proj2 (Z.leb_le 48 c)), (proj2 (Z.leb_le c 57)) by lia. done.
Qed.

Lemma words_safe f : words (safe_name f).
Proof.
  apply List.forallb_forall. intros c Hc. unfold safe_name, sanitize_fn_name in Hc. apply in_map_iff in Hc as (d & <- & _).
  unfold sanitize_char. destruct (in_range 97 122 d || in_range 65 90 d || in_range 48 57 d || (d =? 95)) eqn:E; [|done].
  unfold is_word, in_range in *. repeat (apply orb_true_iff in E as [E|E]); rewrite E; by rewrite ?orb_true_r.
Qed.

(** ** The text spells the program *)

Definition piece_text (p : piece) : list Z := match p with Puts s | Printf s => s end.
Definition pieces_text (ps : list piece) : list Z := concat (map piece_text ps).

Lemma spells_pieces ps qs ta tb : spells (pieces_text ps) ta -> spells (pieces_text qs) tb -> spells (pieces_text (ps ++ qs)) (ta ++ tb).
Proof. intros Ha Hb. unfold pieces_text. rewrite map_app, concat_app. by apply spells_app. Qed.

Lemma spells_one p ts : spells (piece_text p) ts -> spells (pieces_text [p]) ts.
Proof. intros Hp. unfold pieces_text. cbn [map concat]. by rewrite app_nil_r. Qed.

Lemma spells_cons p ps ta tb : spells (piece_text p) ta -> spells (pieces_text ps) tb -> spells (pieces_text (p :: ps)) (ta ++ tb).
Proof. intros Hp Hq. unfold pieces_text. cbn [map concat]. by apply spells_app. Qed.

Lemma spells_concat {A} (f : A -> list piece) (g : A -> list (list Z)) l :
  (forall x, x ∈ l -> spells (pieces_text (f x)) (g x)) -> spells (pieces_text (concat (map f l))) (concat (map g l)).
Proof.
  induction l as [|x l IH]; intros Hl; [apply spells_nil|]. cbn [map concat].
  apply spells_pieces; [apply Hl; by left|apply IH; intros y Hy; apply Hl; by right].
Qed.

Ltac spell := apply spells_one; vm_compute; reflexivity.

(** [hole C]: the text is the concrete [C], a word, and a text that is spelt. *)
Ltac hole C := eapply (spells_hole C); [vm_compute; reflexivity| | |vm_compute; discriminate| |].

Lemma in_u64_u64 z : in_u64 (u64 z).
Proof. apply u64_range. Qed.

(** The operands a text can spell: jumps are not negative and constants are not
    INT64_MIN. *)
Definition spellable (i : VmIns) : Prop :=
  in_i64 (a i) /\ (op i = OP_PUSH_CONST -> a i <> INT64_MIN) /\
  (op i ∈ [OP_JUMP; OP_JUMP_IF_FALSE; OP_JUMP_IF_FALSE_KEEP; OP_JUMP_IF_TRUE_KEEP] -> 0 <= a i).

Lemma spells_const z : in_i64 z ->
  spells (cstr "    stack[sp++] = " ++ fmt_i64 z ++ ln (cstr "LL;")) (s_toks (push_s (const_e z))).
Proof.
  intros Hz. unfold in_i64, two63 in Hz. unfold fmt_i64, const_e. destruct (Z.ltb_spec z 0).
  - destruct (words_u64 (- z)) as [Hw Hn]; [unfold in_u64, two64; lia|].
    assert (words (fmt_u64 (- z) ++ cstr "LL")) as HL by (unfold words; rewrite forallb_app, Hw; done).
    change (cstr "    stack[sp++] = " ++ (45 :: fmt_u64 (- z)) ++ ln (cstr "LL;")) with
      (cstr "    stack[sp++] = -" ++ fmt_u64 (- z) ++ cstr "LL" ++ ln (cstr ";")). rewrite (app_assoc (fmt_u64 (- z))).
    hole (cstr "    stack[sp++] = -"); [exact HL|by destruct (fmt_u64 (- z))|vm_compute; reflexivity|reflexivity].
  - destruct (words_u64 z) as [Hw Hn]; [unfold in_u64, two64; lia|].
    assert (words (fmt_u64 z ++ cstr "LL")) as HL by (unfold words; rewrite forallb_app, Hw; done).
    change (ln (cstr "LL;")) with (cstr "LL" ++ ln (cstr ";")). rewrite (app_assoc (fmt_u64 z)).
    hole (cstr "    stack[sp++] = "); [exact HL|by destruct (fmt_u64 z)|vm_compute; reflexivity|reflexivity].
Qed.

(** A number between two concrete texts. *)
Ltac number_hole C x Hx := let Hw := fresh in let Hn := fresh in destruct (words_u64 x Hx) as [Hw Hn];
  hole C; [exact Hw|exact Hn|vm_compute; reflexivity|reflexivity].

Lemma spells_load n : in_u64 n -> spells (cstr "    stack[sp++] = locals[" ++ fmt_u64 n ++ ln (cstr "];")) (s_toks (push_s (local_e n))).
Proof. intros Hu. number_hole (cstr "    stack[sp++] = locals[") n Hu. Qed.

Lemma spells_store n : in_u64 n -> spells (cstr "    locals[" ++ fmt_u64 n ++ ln (cstr "] = stack[--sp];")) (s_toks (Assign (local_e n) pop_e)).
Proof. intros Hu. number_hole (cstr "    locals[") n Hu. Qed.

Lemma fmt_i64_pos z : 0 <= z -> fmt_i64 z = fmt_u64 z.
Proof. intros Hz. unfold fmt_i64. by destruct (Z.ltb_spec z 0); [lia|]. Qed.

Lemma spells_jumps i : in_i64 (a i) -> 0 <= a i ->
  spells (cstr "    goto pc_" ++ fmt_u64 (a i) ++ ln (cstr ";")) (s_toks (Goto (a i))) /\
  spells (cstr "    if (stack[--sp] == 0) goto pc_" ++ fmt_u64 (a i) ++ ln (cstr ";")) (s_toks (jump_if pop_e EqEq i)) /\
  spells (cstr "    if (stack[sp - 1] == 0) goto pc_" ++ fmt_u64 (a i) ++ ln (cstr ";")) (s_toks (jump_if top_e EqEq i)) /\
  spells (cstr "    if (stack[sp - 1] != 0) goto pc_" ++ fmt_u64 (a i) ++ ln (cstr ";")) (s_toks (jump_if top_e BangEq i)).
Proof.
  intros Hi Hz. assert (in_u64 (a i)) as Hu by (unfold in_i64, in_u64, two63, two64 in *; lia). split_and!.
  - number_hole (cstr "    goto pc_") (a i) Hu.
  - number_hole (cstr "    if (stack[--sp] == 0) goto pc_") (a i) Hu.
  - number_hole (cstr "    if (stack[sp - 1] == 0) goto pc_") (a i) Hu.
  - number_hole (cstr "    if (stack[sp - 1] != 0) goto pc_") (a i) Hu.
Qed.

Definition slot_text (n : Z) : list Z := cstr "        size_t slot = (size_t)locals[" ++ fmt_u64 n ++ ln (cstr "];").

Lemma spells_slot n : in_u64 n -> spells (slot_text n) (s_toks (slot_s n)).
Proof. intros Hu. unfold slot_text. number_hole (cstr "        size_t slot = (size_t)locals[") n Hu. Qed.

(** A text around another one. *)
Lemma spells_around C D s tc ts td all : spells C tc -> spells s ts -> spells D td -> all = tc ++ ts ++ td -> spells (C ++ s ++ D) all.
Proof. intros HC Hs HD ->. apply spells_app; [done|by apply spells_app]. Qed.

Lemma words_symbol f : words (fn_symbol f) /\ fn_symbol f <> [].
Proof.
  split; [|discriminate]. unfold words, fn_symbol. rewrite forallb_app. apply andb_true_iff. split; [reflexivity|apply words_safe].
Qed.

Lemma spells_call g : in_u64 (Z.of_nat (nparams g)) -> spells (piece_text (call_text g)) (s_toks (call_s g)).
Proof.
  intros Hu. destruct (words_u64 _ Hu) as [Hw Hn]. unfold call_text, piece_text. rewrite (app_assoc (ln (cstr "    {"))).
  hole (ln (cstr "    {") ++ cstr "        size_t np = "); [exact Hw|exact Hn| |].
  - apply spells_app; [vm_compute; reflexivity|]. apply spells_app; [vm_compute; reflexivity|].
    change (cstr "        int64_t ret = lin_fn_" ++ safe_name g ++ ln (cstr "(cargs);") ++ lns ["        stack[sp++] = ret;"; "    }"]%string)
      with (cstr "        int64_t ret = " ++ fn_symbol g ++ ln (cstr "(cargs);") ++ lns ["        stack[sp++] = ret;"; "    }"]%string).
    destruct (words_symbol g) as [Hs Hm]. hole (cstr "        int64_t ret = "); [exact Hs|exact Hm|vm_compute; reflexivity|reflexivity].
  - reflexivity.
Qed.

Lemma spells_ins md i : spellable i -> Forall (fun g => in_u64 (Z.of_nat (nparams g))) (fns md) ->
  spells (pieces_text (ins_pieces md i)) (s_toks (ins_stmt md i)).
Proof.
  intros (Hi & Hc & Hj) Hg. pose proof (in_u64_u64 (a i)) as Hu. unfold ins_pieces, ins_stmt.
  destruct (op i) eqn:Eo;
    lazymatch type of Eo with
    | _ = OP_PUSH_CONST => idtac | _ = OP_LOAD_LOCAL => idtac | _ = OP_STORE_LOCAL => idtac | _ = OP_JUMP => idtac
    | _ = OP_JUMP_IF_FALSE => idtac | _ = OP_JUMP_IF_FALSE_KEEP => idtac | _ = OP_JUMP_IF_TRUE_KEEP => idtac | _ = OP_CALL => idtac
    | _ = OP_LOAD_INDEX => idtac | _ = OP_STORE_INDEX => idtac | _ = OP_ARR_LEN => idtac | _ = OP_ABI_CALL => idtac
    | _ => spell
    end; try apply spells_one; cbn [piece_text]; unfold size_text, slot_line.
  - by apply spells_const.
  - by apply spells_load.
  - by apply spells_store.
  - assert (0 <= a i) as Hp by (apply Hj; member). rewrite fmt_i64_pos by done. apply (spells_jumps i Hi Hp).
  - assert (0 <= a i) as Hp by (apply Hj; member). rewrite fmt_i64_pos by done. apply (spells_jumps i Hi Hp).
  - assert (0 <= a i) as Hp by (apply Hj; member). rewrite fmt_i64_pos by done. apply (spells_jumps i Hi Hp).
  - assert (0 <= a i) as Hp by (apply Hj; member). rewrite fmt_i64_pos by done. apply (spells_jumps i Hi Hp).
  - destruct (lookupz (fns md) (u64 (a i))) as [g|] eqn:Eg; [|apply spells_nil]. apply spells_one, spells_call.
    rewrite Forall_forall in Hg. by apply Hg, list_elem_of_In, (lookupz_elem _ _ _ Eg).
  - eapply (spells_around _ _ (slot_text (u64 (a i)))); [vm_compute; reflexivity|by apply spells_slot|vm_compute; reflexivity|reflexivity].
  - eapply (spells_around _ _ (slot_text (u64 (a i)))); [vm_compute; reflexivity|by apply spells_slot|vm_compute; reflexivity|reflexivity].
  - eapply (spells_around _ _ (slot_text (u64 (a i)))); [vm_compute; reflexivity|by apply spells_slot|vm_compute; reflexivity|reflexivity].
  - apply spells_nil.
Qed.

Lemma u64_nat n : Z.of_nat n < 18446744073709551616 -> in_u64 (Z.of_nat n).
Proof. unfold in_u64, two64. lia. Qed.

Lemma seqs_toks l : s_toks (seqs l) = concat (map s_toks l).
Proof. induction l as [|b l IH]; [done|]. cbn [seqs fold_right s_toks map concat]. by rewrite <- IH. Qed.

Lemma spells_arg_line p : (p < 64)%nat -> spells (piece_text (arg_line p)) (s_toks (copy_arg p)).
Proof.
  intros Hp. assert (in_u64 (Z.of_nat p)) as Hu by (apply u64_nat; lia). destruct (words_u64 _ Hu) as [Hw Hn].
  unfold arg_line, piece_text. hole (cstr "        locals["); [exact Hw|exact Hn| |].
  - number_hole (cstr "] = args[") (Z.of_nat p) Hu.
  - reflexivity.
Qed.

Lemma spells_args n : spells (pieces_text (arg_pieces n)) (s_toks (copy_args_s n)).
Proof.
  unfold arg_pieces, copy_args_s. destruct (n =? 0)%nat; [apply spells_nil|].
  cbn [s_toks]. rewrite seqs_toks, map_map.
  apply (spells_cons _ _ (tok "if" ++ tok "(" ++ tok "args" ++ tok ")" ++ tok "{") (concat (map (fun p => s_toks (copy_arg p)) (seq 0 (min n 64))) ++ tok "}"));
    [vm_compute; reflexivity|].
  apply spells_pieces; [|spell].
  replace (map arg_line (seq 0 (min n 64))) with (concat (map (fun p => [arg_line p]) (seq 0 (min n 64)))) by (induction (seq 0 (min n 64)) as [|x l IH]; [done|]; cbn [map concat app]; by rewrite IH).
  apply spells_concat. intros p Hp. apply spells_one, spells_arg_line. apply elem_of_seq in Hp. lia.
Qed.

Lemma spells_array li an : in_u64 an -> in_u64 (Z.of_nat li) -> spells (pieces_text (array_piece li an)) (s_toks (array_s li an)).
Proof.
  intros Ha Hu. unfold array_piece, array_s. destruct (0 <? an); [|apply spells_nil]. apply spells_one. unfold piece_text.
  destruct (words_u64 _ Ha) as [Hw Hn].
  rewrite (app_assoc (lns _)).
  hole (lns ["    if (pool_used < 8) {"; "        size_t slot = pool_used++;"]%string ++ cstr "        pool_len[slot] = "); [exact Hw|exact Hn| |].
  - rewrite (app_assoc (ln (cstr ";"))). number_hole (ln (cstr ";") ++ cstr "        locals[") (Z.of_nat li) Hu.
  - reflexivity.
Qed.

(** [imap] is [map] over the indices. *)
Lemma spells_imap {A} (f : nat -> A -> list piece) (g : nat -> A -> cstmt) l : forall k,
  (forall i x, l !! i = Some x -> spells (pieces_text (f (k + i)%nat x)) (s_toks (g (k + i)%nat x))) ->
  spells (pieces_text (concat (imap (fun i => f (k + i)%nat) l))) (concat (map s_toks (imap (fun i => g (k + i)%nat) l))).
Proof.
  induction l as [|x l IH]; intros k Hl; [apply spells_nil|]. cbn [imap map concat]. apply spells_pieces.
  - by apply (Hl O).
  - rewrite (imap_ext _ (fun i => f (S k + i)%nat)) by (intros i y _; cbn; f_equal; lia).
    rewrite (imap_ext _ (fun i => g (S k + i)%nat)) by (intros i y _; cbn; f_equal; lia).
    apply IH. intros i y Hy. replace (S k + i)%nat with (k + S i)%nat by lia. by apply Hl.
Qed.

Lemma spells_arrays arrs : Forall in_u64 arrs -> Z.of_nat (length arrs) < two16 -> spells (pieces_text (array_pieces arrs)) (s_toks (arrays_s arrs)).
Proof.
  intros Ha Hl. unfold array_pieces, arrays_s. destruct (length arrs =? 0)%nat; [apply spells_nil|].
  cbn [s_toks]. rewrite seqs_toks. rewrite !app_assoc. apply spells_pieces; [vm_compute; reflexivity|].
  apply (spells_imap array_piece array_s arrs 0). intros i x Hx. apply spells_array.
  - by eapply Forall_lookup_1.
  - apply lookup_lt_Some in Hx. unfold two16 in Hl. apply u64_nat. lia.
Qed.

Definition fn_spellable (f : VmFn) : Prop :=
  Forall spellable (code f) /\ Forall in_u64 (arr_n f) /\ Z.of_nat (length (code f)) < two32 /\ Z.of_nat (length (arr_n f)) < two16 /\
  in_u64 (Z.of_nat (nparams f)).

Lemma spells_label pc : in_u64 (Z.of_nat pc) -> spells (cstr "pc_" ++ fmt_u64 (Z.of_nat pc) ++ ln (cstr ":;")) (s_toks (Label (Z.of_nat pc))).
Proof. intros Hu. number_hole (cstr "pc_") (Z.of_nat pc) Hu. Qed.

Lemma spells_code md code : Forall spellable code -> Z.of_nat (length code) < two32 ->
  Forall (fun g => in_u64 (Z.of_nat (nparams g))) (fns md) ->
  spells (pieces_text (code_pieces md code)) (concat (map s_toks (code_items md code))).
Proof.
  intros Hc Hl Hg. apply (spells_imap (fun pc i => Printf (cstr "pc_" ++ fmt_u64 (Z.of_nat pc) ++ ln (cstr ":;")) :: ins_pieces md i)
    (fun pc i => Seq (Label (Z.of_nat pc)) (ins_stmt md i)) code 0). intros pc i Hi. cbn [s_toks]. apply spells_cons.
  - apply spells_label, u64_nat. apply lookup_lt_Some in Hi. unfold two32 in Hl. lia.
  - apply spells_ins; [|done]. by eapply Forall_lookup_1.
Qed.

Lemma spells_head f s ts : spells s ts -> breaks s ->
  spells (cstr "int64_t lin_fn_" ++ safe_name f ++ cstr "(const int64_t *args)" ++ s)
    (tok "int64_t" ++ [fn_symbol f] ++ map cstr ["("; "const"; "int64_t"; "*"; "args"; ")"]%string ++ ts).
Proof.
  intros Hs Hb. destruct (words_symbol f) as [Hw Hn].
  change (cstr "int64_t lin_fn_" ++ safe_name f ++ cstr "(const int64_t *args)" ++ s) with
    (cstr "int64_t " ++ fn_symbol f ++ cstr "(const int64_t *args)" ++ s).
  hole (cstr "int64_t "); [exact Hw|exact Hn|apply spells_app; [vm_compute; reflexivity|exact Hs]|reflexivity].
Qed.

Lemma spells_fn md f : fn_spellable f -> Forall (fun g => in_u64 (Z.of_nat (nparams g))) (fns md) ->
  spells (pieces_text (fn_pieces md f)) (fun_toks (fn_prog md f)).
Proof.
  intros (Hc & Ha & Hlc & Hla & Hn) Hg. unfold fn_pieces.
  pose proof (spells_head f (ln (cstr " {")) (tok "{") ltac:(vm_compute; reflexivity) ltac:(vm_compute; discriminate)) as Hh.
  pose proof (spells_args (nparams f)) as H1. pose proof (spells_arrays (arr_n f) Ha Hla) as H2. pose proof (spells_code md (code f) Hc Hlc Hg) as H3.
  assert (fun_toks (fn_prog md f) = (fun_head (fn_prog md f) ++ tok "{") ++
    s_toks (DeclArr TI64 "locals" 64 true ;; DeclArr TI64 "stack" 256 false ;; Decl TSize "sp" (Some (int 0))) ++
    s_toks (copy_args_s (nparams f)) ++ s_toks (arrays_s (arr_n f)) ++ concat (map s_toks (code_items md (code f))) ++
    s_toks return_top ++ tok "}") as ->.
  { unfold fun_toks, fn_prog. cbn [cf_body map concat]. rewrite map_app, concat_app. cbn [map concat prologue s_toks].
    by rewrite app_nil_r, <- !app_assoc. }
  cbn [app]. apply spells_cons; [exact Hh|].
  match goal with |- spells (pieces_text (?a :: ?b :: ?c :: ?r)) _ => change (a :: b :: c :: r) with ([a; b; c] ++ r) end.
  apply spells_pieces; [vm_compute; reflexivity|]. apply spells_pieces; [exact H1|]. apply spells_pieces; [exact H2|].
  apply spells_pieces; [exact H3|]. apply spells_cons; [vm_compute; reflexivity|spell].
Qed.

Lemma spells_decl md f : spells (piece_text (fn_decl f)) (fun_head (fn_prog md f) ++ tok ";").
Proof. apply (spells_head f (ln (cstr ";")) (tok ";")); vm_compute; [reflexivity|discriminate]. Qed.

Definition spellable_module (md : VmModule) : Prop :=
  Forall fn_spellable (List.filter ok (fns md)) /\ Forall (fun g => in_u64 (Z.of_nat (nparams g))) (fns md).

(** The text of a module has the tokens of its program. *)
Lemma spells_module md : spellable_module md -> ctokens (pieces_text (module_pieces md)) = prog_toks (jit_program md).
Proof.
  intros [Hf Hg]. apply spells_tokens. unfold module_pieces, prog_toks, jit_program. cbn [p_helpers p_funs]. rewrite !map_map.
  assert (spells (piece_text (Puts boilerplate)) (prelude_toks ++ concat (map helper_toks helpers))) as Hb by (vm_compute; reflexivity).
  rewrite app_assoc. cbn [app]. apply (spells_cons _ _ (prelude_toks ++ concat (map helper_toks helpers))); [exact Hb|].
  replace (map fn_decl (List.filter ok (fns md))) with (concat (map (fun f => [fn_decl f]) (List.filter ok (fns md)))) by
    (induction (List.filter ok (fns md)) as [|x l IH]; [done|]; cbn [map concat app]; rewrite IH; [done|by inversion Hf]).
  apply spells_pieces; [apply (spells_concat (fun f => [fn_decl f])); intros f _; apply spells_one, spells_decl|].
  apply (spells_cons _ _ []); [vm_compute; reflexivity|]. apply spells_concat. intros f Hx. apply spells_fn; [|done].
  apply list_elem_of_In in Hx. by rewrite Forall_forall in Hf; apply Hf.
Qed.
