(* ===== verification/JitSim.v ===== *)
(** * The C program of a module simulates the machine

    Every instruction's statement does to the C variables what [vm_step] does to
    the frame, whenever that step succeeds. *)
From Stdlib Require Import FunctionalExtensionality.
From stdpp Require Import strings.
From S2P Require Import Prelude Common Region Abi Vm VmSpec VmSafe CLang Jit JitProg.

(** ** C states that hold a frame *)

Record holds (arrs : bool) (fr : VmFrame) (s : cenv) : Prop := {
  h_locals : s "locals"%string = Some (Ar TI64 (map Some (locals fr)));
  h_sp : s "sp"%string = Some (Sc TSize (Some (Z.of_nat (length (stack fr)))));
  h_stack : exists cs, s "stack"%string = Some (Ar TI64 cs) /\ length cs = LIN_VM_MAX_STACK /\
    take (length (stack fr)) cs = map Some (rev (stack fr));
  h_pool : arrs = true -> exists rows lens, s "pool"%string = Some (Ar2 TI64 rows) /\ s "pool_len"%string = Some (Ar TU16 lens) /\
    length rows = LIN_VM_MAX_ARRS /\ length lens = LIN_VM_MAX_ARRS /\
    forall i, (i < LIN_VM_MAX_ARRS)%nat -> exists row, rows !! i = Some row /\ length row = LIN_VM_MAX_ARR_LEN /\
      match pool fr !! i with
      | Some arr => lens !! i = Some (Some (Z.of_nat (length arr))) /\ take (length arr) row = map Some arr
      | None => lens !! i = Some (Some 0)
      end
}.

(** The variables of a frame; the others are temporaries. *)
Definition frame_var (x : string) : bool :=
  existsb (String.eqb x) ["locals"; "sp"; "stack"; "pool"; "pool_len"]%string.

Lemma holds_ext arrs fr s s' : holds arrs fr s -> (forall x, frame_var x = true -> s' x = s x) -> holds arrs fr s'.
Proof.
  intros [Hl Hs Hk Hp] He. pose proof (He "locals"%string eq_refl) as E1. pose proof (He "sp"%string eq_refl) as E2.
  pose proof (He "stack"%string eq_refl) as E3. pose proof (He "pool"%string eq_refl) as E4. pose proof (He "pool_len"%string eq_refl) as E5.
  constructor; [congruence|congruence|by rewrite E3|]. intros Ha. rewrite E4, E5. by apply Hp.
Qed.

Lemma cset_other x c s y : String.eqb y x = false -> cset x c s y = s y.
Proof. intros E. unfold cset. by rewrite E. Qed.

Lemma cset_this x c s : cset x c s x = c.
Proof. unfold cset. by rewrite String.eqb_refl. Qed.

Lemma frame_var_ne x y : frame_var x = false -> frame_var y = true -> String.eqb y x = false.
Proof. intros Hx Hy. destruct (String.eqb_spec y x) as [->|]; [congruence|done]. Qed.

Lemma holds_temp arrs fr s x c : holds arrs fr s -> frame_var x = false -> holds arrs fr (cset x c s).
Proof. intros Hh Hx. eapply holds_ext; [exact Hh|]. intros y Hy. apply cset_other. by apply frame_var_ne. Qed.

(** ** Arithmetic of the stack pointer *)

Lemma size_op n m : (n <= 256)%nat -> 0 <= m <= Z.of_nat n ->
  c_binop Sub (TSize, Z.of_nat n) (TI32, m) = Some (TSize, Z.of_nat n - m) /\
  c_binop Sub (TSize, Z.of_nat n) (TSize, m) = Some (TSize, Z.of_nat n - m) /\
  c_binop Plus (TSize, Z.of_nat n) (TI32, 1) = Some (TSize, Z.of_nat n + 1).
Proof.
  intros Hn Hm. unfold c_binop. cbn [is_shift common promote binop_at arith cvt fmap option_fmap option_map].
  assert (forall z, 0 <= z <= 131072 -> u64 z = z) as Hu by (intros; apply u64_id; unfold in_u64, two64; lia).
  assert (Z.of_nat n <= 256) by lia. rewrite !(Hu (Z.of_nat n)), !(Hu m), !(Hu 1), !Hu by lia. done.
Qed.

Lemma eval_sp_minus h arrs fr s m : holds arrs fr s -> frame_ok fr -> 0 <= m <= Z.of_nat (length (stack fr)) -> m <= 2147483647 ->
  eval h (Bin Sub sp (int m)) s = Some (TSize, Z.of_nat (length (stack fr)) - m, s).
Proof.
  intros Hh Hf Hm H31. pose proof (ok_sp _ Hf). unfold LIN_VM_MAX_STACK in *. unfold sp, int. cbn [eval]. rewrite (h_sp _ _ _ Hh).
  cbn [mbind option_bind].
  assert (cvt TI32 m = m) as -> by (cbn [cvt]; unfold i32, two32; rewrite Z.mod_small; lia).
  rewrite (proj2 (Z.leb_le 0 m)), Z.eqb_refl by lia. cbn [andb mbind option_bind].
  destruct (size_op (length (stack fr)) m) as (-> & _); [lia..|]. done.
Qed.

(** The cell of an entry of the stack, counted from the bottom. *)
Lemma stack_cell arrs fr s i : holds arrs fr s -> (i < length (stack fr))%nat ->
  exists cs v, s "stack"%string = Some (Ar TI64 cs) /\ lookupz cs (Z.of_nat i) = Some (Some v) /\ rev (stack fr) !! i = Some v.
Proof.
  intros Hh Hi. destruct (h_stack _ _ _ Hh) as (cs & Hs & Hl & Ht). destruct (lookup_lt_is_Some_2 (rev (stack fr)) i) as [v Hv]; [by rewrite length_rev|].
  exists cs, v. split; [done|]. split; [|done]. rewrite lookupz_nat, <- (lookup_take_lt cs (length (stack fr))), Ht, list_lookup_fmap, Hv by done. done.
Qed.

Lemma rev_last {A} (v : A) st : rev (v :: st) !! length st = Some v.
Proof. cbn [rev]. rewrite lookup_app_r, length_rev, Nat.sub_diag by (by rewrite length_rev). done. Qed.

Lemma holds_drop arrs fr s k : holds arrs fr s -> frame_ok fr -> (k <= length (stack fr))%nat ->
  holds arrs (with_stack fr (drop k (stack fr))) (cset "sp" (Some (Sc TSize (Some (Z.of_nat (length (stack fr) - k))))) s).
Proof.
  intros [Hl Hs (cs & Hk & Hn & Ht) Hp] Hf Hle. constructor; cbn [locals stack pool with_stack].
  - by rewrite cset_other.
  - rewrite cset_this. by rewrite length_drop.
  - exists cs. rewrite cset_other by done. split_and!; [done..|]. rewrite length_drop.
    replace (take (length (stack fr) - k) cs) with (take (length (stack fr) - k) (take (length (stack fr)) cs)) by (rewrite take_take; f_equal; lia).
    rewrite Ht, firstn_map, List.firstn_rev. do 3 f_equal. lia.
  - intros Ha. rewrite !cset_other by done. by apply Hp.
Qed.

Definition sp_cell (n : nat) : option cell := Some (Sc TSize (Some (Z.of_nat n))).

(** ** Popping and pushing *)

Lemma eval_pop h arrs fr s v st : holds arrs fr s -> frame_ok fr -> stack fr = v :: st ->
  eval h pop_e s = Some (TI64, v, cset "sp" (sp_cell (length st)) s) /\
  holds arrs (with_stack fr st) (cset "sp" (sp_cell (length st)) s).
Proof.
  intros Hh Hf Es. pose proof (ok_sp _ Hf) as Hn. unfold LIN_VM_MAX_STACK in Hn. rewrite Es in Hn. cbn [length] in Hn. split.
  - destruct (stack_cell arrs fr s (length st) Hh) as (cs & w & Hs & Hc & Hw); [rewrite Es; cbn [length]; lia|].
    rewrite Es, rev_last in Hw. injection Hw as <-.
    unfold pop_e. cbn [eval]. rewrite (h_sp _ _ _ Hh), Es. cbn [length].
    destruct (size_op (S (length st)) 1) as (-> & _); [lia..|]. cbn [mbind option_bind snd].
    replace (Z.of_nat (S (length st)) - 1) with (Z.of_nat (length st)) by lia.
    assert (cvt TSize (Z.of_nat (length st)) = Z.of_nat (length st)) as -> by (cbn [cvt]; apply u64_id; unfold in_u64, two64; lia).
    rewrite cset_other, Hs, Hc by done. done.
  - pose proof (holds_drop arrs fr s 1 Hh Hf ltac:(rewrite Es; cbn [length]; lia)) as Hd. rewrite Es in Hd. cbn [drop length] in Hd.
    by rewrite Nat.sub_succ, Nat.sub_0_r in Hd.
Qed.

Lemma map_insert_last (cs : list (option Z)) v l : (length l < length cs)%nat -> take (length l) cs = map Some (rev l) ->
  take (S (length l)) (<[length l := Some v]> cs) = map Some (rev (v :: l)).
Proof.
  intros Hl Ht. rewrite (take_S_r _ _ (Some v)) by (by apply list_lookup_insert_eq). rewrite take_insert_ge, Ht by lia.
  cbn [rev]. by rewrite map_app.
Qed.

Lemma exec_push h call arrs fr s s1 e t v : eval h e s = Some (t, v, s1) -> holds arrs fr s1 -> (length (stack fr) < LIN_VM_MAX_STACK)%nat -> in_i64 v ->
  exists s2, exec h call (push_s e) s = Go s2 /\ holds arrs (with_stack fr (v :: stack fr)) s2 /\
    forall x, frame_var x = false -> s2 x = s1 x.
Proof.
  intros He Hh Hn Hv. unfold LIN_VM_MAX_STACK in Hn. destruct Hh as [Hl Hs (cs & Hk & Hlen & Ht) Hp]. unfold LIN_VM_MAX_STACK in Hlen.
  set (s2 := cset "sp" (sp_cell (S (length (stack fr)))) s1).
  exists (cset "stack" (Some (Ar TI64 (<[length (stack fr) := Some v]> cs))) s2). split; [|split].
  - unfold push_s. cbn [exec]. rewrite He. cbn [mbind option_bind store eval]. rewrite Hs.
    destruct (size_op (length (stack fr)) 0) as (_ & _ & ->); [lia..|]. cbn [mbind option_bind snd].
    replace (Z.of_nat (length (stack fr)) + 1) with (Z.of_nat (S (length (stack fr)))) by lia.
    assert (cvt TSize (Z.of_nat (S (length (stack fr)))) = Z.of_nat (S (length (stack fr)))) as -> by (cbn [cvt]; apply u64_id; unfold in_u64, two64; lia).
    rewrite cset_other, Hk by done. rewrite insertz_in by lia. cbn [mbind option_bind go cvt]. rewrite (i64_id v Hv), Nat2Z.id. done.
  - unfold s2. constructor; cbn [locals stack pool with_stack].
    + by rewrite !cset_other.
    + by rewrite cset_other, cset_this by done.
    + eexists. rewrite cset_this. split; [done|]. split; [by rewrite length_insert|]. cbn [length]. apply map_insert_last; [by rewrite Hlen|done].
    + intros Ha. rewrite !cset_other by done. by apply Hp.
  - intros x Hx. unfold s2. assert (x <> "stack"%string /\ x <> "sp"%string) as [H1 H2] by (split; intros ->; done).
    rewrite !cset_other; [done| |]; by apply String.eqb_neq.
Qed.

(** The result on the state of a block: its variables are temporaries. *)
Lemma holds_leave arrs fr b s s' : holds arrs fr s' -> (forall x, frame_var x = true -> declares b x = false) -> holds arrs fr (leave b s s').
Proof. intros Hh Hd. eapply holds_ext; [exact Hh|]. intros x Hx. unfold leave. by rewrite Hd. Qed.

(** A block that declares none of the frame's variables. *)
Ltac temporaries := let x := fresh in intros x; unfold frame_var; cbn [existsb];
  repeat match goal with |- context [String.eqb x ?y] => destruct (String.eqb_spec x y) as [->|_]; [intros _; reflexivity|] end;
  let HH := fresh in intros HH; discriminate HH.

(** ** Binary operations *)

Section Binary.
Context (h : string -> Z -> Z -> option Z) (call : list Z -> list (option Z) -> cres).

Lemma eval_var x t v s : s x = Some (Sc t (Some v)) -> eval h (Var x) s = Some (t, v, s).
Proof. intros E. cbn [eval]. by rewrite E. Qed.

(** The name of the second operand is b, or s in a shift. *)
Definition two_s (n : string) (e : cexpr) : cstmt := Block (Decl TI64 n (Some pop_e);; Decl TI64 "a" (Some pop_e);; push_s e)%c.

Lemma exec_binary n arrs fr s x y st e r t : n = "b"%string \/ n = "s"%string ->
  holds arrs fr s -> frame_ok fr -> stack fr = y :: x :: st -> in_i64 r ->
  (forall s, s "a"%string = Some (Sc TI64 (Some x)) -> s n = Some (Sc TI64 (Some y)) -> eval h e s = Some (t, r, s)) ->
  exists s', exec h call (two_s n e) s = Go s' /\ holds arrs (with_stack fr (r :: st)) s'.
Proof.
  intros En Hh Hf Es Hr He. assert (frame_var n = false /\ String.eqb n "a" = false) as [Hn1 Hn2] by (by destruct En as [-> | ->]). pose proof (ok_stack _ Hf) as Hs64. rewrite Es in Hs64.
  apply Forall_cons_1 in Hs64 as [Hy Hs64]. apply Forall_cons_1 in Hs64 as [Hx Hst].
  pose proof (ok_sp _ Hf) as Hn. rewrite Es in Hn. cbn [length] in Hn.
  destruct (eval_pop h arrs fr s y (x :: st) Hh Hf Es) as [E1 H1].
  set (s1 := cset n (Some (Sc TI64 (Some y))) (cset "sp" (sp_cell (length (x :: st))) s)) in *.
  assert (holds arrs (with_stack fr (x :: st)) s1) as H1' by (by apply holds_temp).
  assert (frame_ok (with_stack fr (x :: st))) as Hf1 by (apply frame_stack; [done|cbn [length]; lia|by constructor]).
  destruct (eval_pop h arrs (with_stack fr (x :: st)) s1 x st H1' Hf1 eq_refl) as [E2 H2].
  set (s2 := cset "a" (Some (Sc TI64 (Some x))) (cset "sp" (sp_cell (length st)) s1)) in *.
  assert (holds arrs (with_stack fr st) s2) as H2' by (by apply holds_temp).
  destruct (exec_push h call arrs (with_stack fr st) s2 s2 e t r) as (s3 & E3 & H3 & _).
  { apply He; [apply cset_this|]. unfold s2, s1. rewrite cset_other, cset_other by (done || by destruct En as [-> | ->]). apply cset_this. }
  1-3: first [done|cbn [stack with_stack]; lia].
  exists (leave (Decl TI64 n (Some pop_e);; Decl TI64 "a" (Some pop_e);; push_s e)%c s s3). split.
  - unfold two_s. cbn [exec]. rewrite E1. cbn [mbind option_bind go cvt]. rewrite (i64_id y Hy). fold s1. rewrite E2.
    cbn [mbind option_bind go cvt]. rewrite (i64_id x Hx). fold s2. by rewrite E3.
  - destruct En as [-> | ->]; (apply holds_leave; [exact H3|temporaries]).
Qed.
End Binary.

(** ** The helpers *)

Definition c_div (x y : Z) : Z := if y =? 0 then 0 else lin_wdiv x y.
Definition c_rem (x y : Z) : Z := if y =? 0 then 0 else lin_wrem x y.

Record helpers_ok (h : string -> Z -> Z -> option Z) : Prop := {
  hk_add x y : in_i64 x -> in_i64 y -> h "lin_wadd"%string x y = Some (lin_wadd x y);
  hk_sub x y : in_i64 x -> in_i64 y -> h "lin_wsub"%string x y = Some (lin_wsub x y);
  hk_mul x y : in_i64 x -> in_i64 y -> h "lin_wmul"%string x y = Some (lin_wmul x y);
  hk_div x y : in_i64 x -> in_i64 y -> h "lin_wdiv"%string x y = Some (c_div x y);
  hk_rem x y : in_i64 x -> in_i64 y -> h "lin_wrem"%string x y = Some (c_rem x y)
}.

Lemma run_add (o : cbinop) x y g : in_i64 x -> in_i64 y -> (forall u v, binop_at o TU64 u v = Some (TU64, u64 (g u v))) -> is_shift o = false ->
  o <> AndAnd -> forall f, run_helper (mkHelper f "a" "b" (Return (cast_binop o))) x y = Some (i64 (u64 (g (u64 x) (u64 y)))).
Proof.
  intros Hx Hy Hg Hs Ho f. unfold run_helper, cast_binop. cbn [h_body h_x h_y exec].
  set (s := cset "a" (Some (Sc TI64 (Some x))) (cset "b" (Some (Sc TI64 (Some y))) empty_env)).
  assert (eval no_helper (Cast TU64 (Var "a")) s = Some (TU64, u64 x, s)) as Ea by reflexivity.
  assert (eval no_helper (Cast TU64 (Var "b")) s = Some (TU64, u64 y, s)) as Eb by reflexivity.
  assert (eval no_helper (Bin o (Cast TU64 (Var "a")) (Cast TU64 (Var "b"))) s = Some (TU64, u64 (g (u64 x) (u64 y)), s)) as E.
  { destruct o; try done; cbn [eval] in *; rewrite Ea; cbn [mbind option_bind]; rewrite Eb; cbn [mbind option_bind c_binop is_shift common promote cvt];
      rewrite !(u64_id (u64 _)) by apply u64_range; rewrite Hg; done. }
  change (eval no_helper (Cast TI64 (Paren ?e)) s) with ('(_, v, s) ← eval no_helper e s; Some (TI64, cvt TI64 v, s)).
  rewrite E. cbn [mbind option_bind cvt]. f_equal. apply i64_id, i64_range.
Qed.

Lemma run_div (o : cbinop) x y sp_e sp_v r : in_i64 x -> in_i64 y -> (o = Slash \/ o = Percent) ->
  (forall s, eval no_helper sp_e s = Some (TI64, sp_v, s) \/ eval no_helper sp_e s = Some (TI32, sp_v, s)) -> in_i64 sp_v ->
  (y <> 0 -> (x =? INT64_MIN) && (y =? -1) = false -> binop_at o TI64 x y = Some (TI64, r) /\ in_i64 r) -> forall f,
  run_helper (div_helper f o sp_e) x y = Some (if y =? 0 then 0 else if (x =? INT64_MIN) && (y =? -1) then sp_v else r).
Proof.
  intros Hx Hy Ho Hsp Hv Hr f. unfold run_helper, div_helper. cbn [h_body h_x h_y].
  set (s := cset "x" (Some (Sc TI64 (Some x))) (cset "y" (Some (Sc TI64 (Some y))) empty_env)).
  assert (eval no_helper (Var "x") s = Some (TI64, x, s)) as Ex by reflexivity.
  assert (eval no_helper (Var "y") s = Some (TI64, y, s)) as Ey by reflexivity.
  assert (eval no_helper (Bin EqEq (Var "y") (int 0)) s = Some (TI32, truth (y =? 0), s)) as E0.
  { unfold int. cbn [eval] in *. rewrite Ey. cbn [mbind option_bind]. change ((0 <=? 0) && (cvt TI32 0 =? 0)) with true.
    cbn [mbind option_bind c_binop is_shift common promote cvt binop_at]. by rewrite (i64_id y Hy). }
  assert (eval no_helper (Bin EqEq (Var "x") Minval) s = Some (TI32, truth (x =? INT64_MIN), s)) as E1.
  { cbn [eval] in *. rewrite Ex. cbn [mbind option_bind c_binop is_shift common promote cvt binop_at]. by rewrite (i64_id x Hx). }
  assert (eval no_helper (Bin EqEq (Var "y") (Un Minus (int 1))) s = Some (TI32, truth (y =? -1), s)) as E2.
  { unfold int. cbn [eval] in *. rewrite Ey. cbn [mbind option_bind]. change ((0 <=? 1) && (cvt TI32 1 =? 1)) with true. cbn [mbind option_bind c_unop promote].
    change (arith TI32 (- (1))) with (Some (-1)). cbn [fmap option_fmap option_map mbind option_bind c_binop is_shift common promote cvt binop_at].
    by rewrite (i64_id y Hy). }
  cbn [exec]. rewrite E0. unfold truth at 1. destruct (Z.eqb_spec y 0) as [->|Hy0]; [done|]. cbn [Z.eqb].
  assert (eval no_helper (Bin AndAnd (Bin EqEq (Var "x") Minval) (Bin EqEq (Var "y") (Un Minus (int 1)))) s =
    Some (TI32, truth ((x =? INT64_MIN) && (y =? -1)), s)) as E3.
  { cbn [eval] in *. rewrite E1. cbn [mbind option_bind]. destruct (x =? INT64_MIN); [|done]. cbn [truth Z.eqb]. rewrite E2. cbn [mbind option_bind].
    by destruct (y =? -1). }
  rewrite E3. destruct ((x =? INT64_MIN) && (y =? -1)) eqn:Em; cbn [truth Z.eqb].
  - destruct (Hsp s) as [-> | ->]; by rewrite i64_id.
  - destruct (Hr Hy0 eq_refl) as [Eb Hri].
    assert (eval no_helper (Bin o (Var "x") (Var "y")) s = Some (TI64, r, s)) as ->.
    { destruct Ho as [-> | ->]; cbn [eval] in *; rewrite Ex; cbn [mbind option_bind]; rewrite Ey; cbn [mbind option_bind c_binop is_shift common promote cvt];
        by rewrite (i64_id x Hx), (i64_id y Hy), Eb. }
    by rewrite i64_id.
Qed.

Lemma helpers_are_ok fs : helpers_ok (helpers_of (mkProg helpers fs)).
Proof.
  constructor; intros x y Hx Hy.
  - change (helpers_of (mkProg helpers fs) "lin_wadd" x y) with (run_helper (mkHelper "lin_wadd" "a" "b" (Return (cast_binop Plus))) x y).
    by rewrite (run_add Plus x y Z.add).
  - change (helpers_of (mkProg helpers fs) "lin_wsub" x y) with (run_helper (mkHelper "lin_wsub" "a" "b" (Return (cast_binop Sub))) x y).
    by rewrite (run_add Sub x y Z.sub).
  - change (helpers_of (mkProg helpers fs) "lin_wmul" x y) with (run_helper (mkHelper "lin_wmul" "a" "b" (Return (cast_binop Times))) x y).
    by rewrite (run_add Times x y Z.mul).
  - change (helpers_of (mkProg helpers fs) "lin_wdiv" x y) with (run_helper (div_helper "lin_wdiv" Slash Minval) x y).
    rewrite (run_div Slash x y Minval INT64_MIN (Z.quot x y)); [done|done|done|by left|by left|unfold in_i64, INT64_MIN, two63; lia|].
    intros H0 Hm. pose proof (lin_wdiv_eq x y Hx Hy H0) as E. unfold lin_wdiv in E. rewrite Hm in E.
    assert (in_i64 (Z.quot x y)) as Hq by (rewrite E; apply i64_range). split; [|done].
    cbn [binop_at]. destruct (Z.eqb_spec y 0); [done|]. unfold arith. cbn [cvt]. by rewrite i64_id, Z.eqb_refl.
  - change (helpers_of (mkProg helpers fs) "lin_wrem" x y) with (run_helper (div_helper "lin_wrem" Percent (int 0)) x y).
    rewrite (run_div Percent x y (int 0) 0 (Z.rem x y)); [done|done|done|by right|by right|unfold in_i64, two63; lia|].
    intros H0 Hm. pose proof (lin_wdiv_eq x y Hx Hy H0) as E. unfold lin_wdiv in E. rewrite Hm in E.
    assert (in_i64 (Z.quot x y)) as Hq by (rewrite E; apply i64_range).
    destruct (lin_wrem_eq x y Hx Hy H0) as [Er Hri]. rewrite Er in Hri. split; [|done].
    cbn [binop_at]. destruct (Z.eqb_spec y 0); [done|]. unfold arith. cbn [cvt]. rewrite (i64_id _ Hq), Z.eqb_refl. done.
Qed.

(** ** Instructions *)

(** The operators that the machine and C agree on; a shift by 64 or more is 0 to
    the machine and a shift by the low six bits to C. *)
Definition agreed (o : VmOp) : bool := match o with OP_SHL | OP_SHR | OP_USHR | OP_ABI_CALL => false | _ => true end.

Section Instructions.
Context (h : string -> Z -> Z -> option Z) (Hh : helpers_ok h) (call : list Z -> list (option Z) -> cres).
Context (ctx : LinVmContext) (Habi : c_abi ctx = None) (arrs : bool).
Local Abbreviation md := (c_module ctx).

(** A statement that does what an action says; calls are apart. *)
Definition simulates (fr : VmFrame) (b : cstmt) (s : cenv) (i : VmIns) (act : action) : Prop :=
  match act with
  | A_next fr' => exists s', exec h call b s = Go s' /\ holds arrs fr' s'
  | A_jump fr' pc => pc = u64 (a i) /\ exists s', exec h call b s = Jump (a i) s' /\ holds arrs fr' s'
  | A_ret r => exec h call b s = Ret (val r)
  | A_call _ _ _ => True
  end.

Lemma eval_ab o x y s t r : s "a"%string = Some (Sc TI64 (Some x)) -> s "b"%string = Some (Sc TI64 (Some y)) -> in_i64 x -> in_i64 y ->
  is_shift o = false -> o <> AndAnd -> binop_at o TI64 x y = Some (t, r) -> eval h (Bin o (Var "a") (Var "b")) s = Some (t, r, s).
Proof.
  intros Ea Eb Hx Hy Hs Ho Hr. pose proof (eval_var h "a" TI64 x s Ea) as E1. pose proof (eval_var h "b" TI64 y s Eb) as E2.
  destruct o; try done; cbn [eval] in *; rewrite E1; cbn [mbind option_bind]; rewrite E2; cbn [mbind option_bind c_binop is_shift common promote cvt];
    rewrite (i64_id x Hx), (i64_id y Hy), Hr; done.
Qed.

Lemma eval_flag c b s : eval h c s = Some (TI32, truth b, s) -> eval h (flag c) s = Some (TI32, b2z b, s).
Proof. intros E. unfold flag. cbn [eval]. rewrite E. cbn [mbind option_bind]. by destruct b. Qed.

Definition b2z_truth b : b2z b = truth b := eq_refl.

(** The C expression of a binary operator. *)
Definition binary_e (o : VmOp) : option cexpr :=
  match o with
  | OP_ADD => Some (Call2 "lin_wadd" (Var "a") (Var "b"))
  | OP_SUB => Some (Call2 "lin_wsub" (Var "a") (Var "b"))
  | OP_MUL => Some (Call2 "lin_wmul" (Var "a") (Var "b"))
  | OP_DIV => Some (Call2 "lin_wdiv" (Var "a") (Var "b"))
  | OP_MOD => Some (Call2 "lin_wrem" (Var "a") (Var "b"))
  | OP_BIT_AND => Some (ab Amp)
  | OP_BIT_OR => Some (ab Bar)
  | OP_BIT_XOR => Some (ab Caret)
  | OP_CMP_EQ => Some (flag (Bin EqEq (Var "a") (Var "b")))
  | OP_CMP_NE => Some (flag (Bin BangEq (Var "a") (Var "b")))
  | OP_CMP_LT => Some (flag (Bin Less (Var "a") (Var "b")))
  | OP_CMP_GT => Some (flag (Bin Greater (Var "a") (Var "b")))
  | OP_CMP_LE => Some (flag (Bin LessEq (Var "a") (Var "b")))
  | OP_CMP_GE => Some (flag (Bin GreaterEq (Var "a") (Var "b")))
  | _ => None
  end.

Lemma eval_call2 f x y s r : s "a"%string = Some (Sc TI64 (Some x)) -> s "b"%string = Some (Sc TI64 (Some y)) -> in_i64 x -> in_i64 y ->
  h f x y = Some r -> eval h (Call2 f (Var "a") (Var "b")) s = Some (TI64, r, s).
Proof.
  intros Ea Eb Hx Hy Hr. cbn [eval]. rewrite Ea. cbn [mbind option_bind]. rewrite Eb. cbn [mbind option_bind cvt].
  by rewrite (i64_id x Hx), (i64_id y Hy), Hr.
Qed.

Lemma binary_eval o e x y r : binary_e o = Some e -> in_i64 x -> in_i64 y -> binop_result o x y = VOk r ->
  exists t, forall s, s "a"%string = Some (Sc TI64 (Some x)) -> s "b"%string = Some (Sc TI64 (Some y)) -> eval h e s = Some (t, r, s).
Proof.
  intros He Hx Hy Hr. destruct o; try discriminate He; cbn [binary_e binop_result] in He, Hr; injection He as <-;
    try (destruct (Z.eqb_spec y 0) as [?|Hy0]; [discriminate Hr|]); injection Hr as <-.
  1-5: eexists; intros s Ea Eb; apply eval_call2 with (x := x) (y := y); try done; first
    [by apply hk_add|by apply hk_sub|by apply hk_mul
    |rewrite hk_div by done; unfold c_div; by destruct (Z.eqb_spec y 0)|rewrite hk_rem by done; unfold c_rem; by destruct (Z.eqb_spec y 0)].
  1-3: exists TI64; intros s Ea Eb; unfold ab; match goal with |- eval h (Paren ?e) s = _ => change (eval h (Paren e) s) with (eval h e s) end;
    by apply (eval_ab _ x y).
  all: exists TI32; intros s Ea Eb; apply eval_flag; by apply (eval_ab _ x y).
Qed.

Lemma binary_stmt o e i : binary_e o = Some e -> op i = o -> ins_stmt md i = binary_s e.
Proof. intros He Ho. unfold ins_stmt. rewrite Ho. destruct o; try discriminate He; injection He as <-; reflexivity. Qed.

Lemma sim_binary fr s i e act : holds arrs fr s -> frame_ok fr -> binary_e (op i) = Some e -> exec_binop i fr = VOk act ->
  simulates fr (ins_stmt md i) s i act.
Proof.
  intros Hs Hf He Hx. rewrite (binary_stmt _ _ _ He eq_refl). unfold exec_binop in Hx.
  destruct (stack fr) as [|y [|x st]] eqn:Es; [discriminate Hx..|].
  destruct (binop_result (op i) x y) as [r| |] eqn:Er; [|discriminate Hx..]. injection Hx as <-.
  pose proof (ok_stack _ Hf) as Hs64. rewrite Es in Hs64. apply Forall_cons_1 in Hs64 as [Hy Hs64]. apply Forall_cons_1 in Hs64 as [Hx _].
  destruct (binary_eval _ _ _ _ _ He Hx Hy Er) as [t Ht].
  assert (in_i64 r) as Hr by (by apply (binop_i64 (op i) x y)).
  exact (exec_binary h call _ arrs fr s x y st e r t (or_introl eq_refl) Hs Hf Es Hr Ht).
Qed.

Lemma rev_lookup_top {A} (l : list A) k v : l !! k = Some v -> rev l !! (length l - 1 - k)%nat = Some v.
Proof.
  intros Hk. pose proof (lookup_lt_Some _ _ _ Hk). rewrite rev_alt. change (rev_append l []) with (reverse l).
  rewrite reverse_lookup by lia. by replace (length l - S (length l - 1 - k))%nat with k by lia.
Qed.

(** The entry [m] from the top. *)
Lemma eval_peek fr s m v : holds arrs fr s -> frame_ok fr -> 1 <= m <= 2147483647 -> stack fr !! Z.to_nat (m - 1) = Some v ->
  eval h (At "stack" (Bin Sub sp (int m))) s = Some (TI64, v, s).
Proof.
  intros Hs Hf Hm Hv. pose proof (lookup_lt_Some _ _ _ Hv) as Hl. pose proof (rev_lookup_top _ _ _ Hv) as Hr.
  pose proof (eval_sp_minus h arrs fr s m Hs Hf ltac:(lia) ltac:(lia)) as E.
  change (eval h (At "stack" ?e) s) with ('(_, i, s) ← eval h e s;
    match s "stack"%string with Some (Ar t vs) => match lookupz vs i with Some (Some v) => Some (t, v, s) | _ => None end | _ => None end).
  rewrite E. cbn [mbind option_bind].
  destruct (stack_cell arrs fr s (length (stack fr) - 1 - Z.to_nat (m - 1)) Hs) as (cs & w & -> & Hc & Hw); [lia|].
  assert (w = v) as -> by congruence.
  replace (Z.of_nat (length (stack fr)) - m) with (Z.of_nat (length (stack fr) - 1 - Z.to_nat (m - 1))) by lia. by rewrite Hc.
Qed.

Lemma eval_top fr s v st : holds arrs fr s -> frame_ok fr -> stack fr = v :: st -> eval h top_e s = Some (TI64, v, s).
Proof. intros Hs Hf Es. apply (eval_peek fr s 1 v); [done|done|lia|by rewrite Es]. Qed.

Lemma store_top fr s v st r : holds arrs fr s -> frame_ok fr -> stack fr = v :: st -> in_i64 r ->
  exists s', store h top_e r s = Some s' /\ holds arrs (with_stack fr (r :: st)) s'.
Proof.
  intros Hs Hf Es Hr. pose proof (ok_sp _ Hf) as Hn. rewrite Es in Hn. cbn [length] in Hn.
  pose proof (eval_sp_minus h arrs fr s 1 Hs Hf ltac:(rewrite Es; cbn [length]; lia) ltac:(lia)) as E. rewrite Es in E. cbn [length] in E.
  destruct Hs as [Hl Hsp (cs & Hk & Hlen & Ht) Hp]. rewrite Es in Ht, Hsp. cbn [length] in Ht, Hsp.
  exists (cset "stack" (Some (Ar TI64 (<[length st := Some r]> cs))) s). split.
  - change (store h top_e r s) with ('(_, i, s) ← eval h (Bin Sub sp (int 1)) s;
      match s "stack"%string with Some (Ar t vs) => vs ← insertz i (Some (cvt t r)) vs; Some (cset "stack" (Some (Ar t vs)) s) | _ => None end).
    rewrite E. cbn [mbind option_bind]. rewrite Hk. rewrite insertz_in by lia. cbn [mbind option_bind cvt]. rewrite (i64_id r Hr).
    by replace (Z.to_nat (Z.of_nat (S (length st)) - 1)) with (length st) by lia.
  - constructor; cbn [locals stack pool with_stack].
    + by rewrite cset_other.
    + by rewrite cset_other.
    + eexists. rewrite cset_this. split; [done|]. split; [by rewrite length_insert|]. cbn [length]. apply map_insert_last; [lia|].
      apply (f_equal (take (length st))) in Ht. rewrite take_take, Nat.min_l, firstn_map, List.firstn_rev in Ht by lia.
      rewrite Ht. do 3 f_equal. replace (length (v :: st) - length st)%nat with 1%nat by (cbn [length]; lia). done.
    + intros Ha. rewrite !cset_other by done. by apply Hp.
Qed.

Lemma sim_unary fr s i e g act : holds arrs fr s -> frame_ok fr ->
  (forall v st, stack fr = v :: st -> exists t, eval h e s = Some (t, g v, s)) -> (forall v, in_i64 v -> in_i64 (g v)) ->
  (vlet (v, fr) := pop fr in VOk (A_next (with_stack fr (g v :: stack fr)))) = VOk act ->
  simulates fr (Assign top_e e) s i act.
Proof.
  intros Hs Hf He Hg. unfold pop. destruct (stack fr) as [|v st] eqn:Es; [done|]. intros [= <-]. cbn [simulates stack with_stack].
  destruct (He v st eq_refl) as [t Ht]. pose proof (ok_stack _ Hf) as Hs64. rewrite Es in Hs64. apply Forall_cons_1 in Hs64 as [Hv _].
  destruct (store_top fr s v st (g v) Hs Hf Es (Hg v Hv)) as (s' & E & H'). exists s'. split; [|done].
  cbn [exec]. rewrite Ht. cbn [mbind option_bind]. by rewrite E.
Qed.

Lemma eval_int n s : 0 <= n <= 2147483647 -> eval h (int n) s = Some (TI32, n, s).
Proof.
  intros Hn. unfold int. cbn [eval cvt]. rewrite (proj2 (Z.leb_le 0 n)) by lia.
  assert (i32 n = n) as -> by (unfold i32, two32; rewrite Z.mod_small; lia). by rewrite Z.eqb_refl.
Qed.

Lemma eval_const z s : in_i64 z -> z <> INT64_MIN -> eval h (const_e z) s = Some (TI64, z, s).
Proof.
  intros Hz Hm. unfold in_i64, two63, INT64_MIN in *. unfold const_e. destruct (Z.ltb_spec z 0); cbn [eval cvt].
  - rewrite (proj2 (Z.leb_le 0 (- z))), (i64_id (- z)), Z.eqb_refl by (unfold in_i64, two63; lia). cbn [andb mbind option_bind c_unop promote].
    unfold arith. cbn [cvt]. rewrite Z.opp_involutive, i64_id, Z.eqb_refl by (unfold in_i64, two63; lia). done.
  - by rewrite (proj2 (Z.leb_le 0 z)), (i64_id z), Z.eqb_refl by (unfold in_i64, two63; lia).
Qed.

Lemma eval_at x e s t vs t' i : s x = Some (Ar t vs) -> eval h e s = Some (t', i, s) ->
  eval h (At x e) s = match lookupz vs i with Some (Some v) => Some (t, v, s) | _ => None end.
Proof.
  intros Hs He. change (eval h (At x e) s) with ('(_, i, s) ← eval h e s;
    match s x with Some (Ar t vs) => match lookupz vs i with Some (Some v) => Some (t, v, s) | _ => None end | _ => None end).
  rewrite He. cbn [mbind option_bind]. by rewrite Hs.
Qed.

Lemma store_at x e s t vs t' i v : s x = Some (Ar t vs) -> eval h e s = Some (t', i, s) -> 0 <= i < Z.of_nat (length vs) ->
  store h (At x e) v s = Some (cset x (Some (Ar t (<[Z.to_nat i := Some (cvt t v)]> vs))) s).
Proof.
  intros Hs He Hi. change (store h (At x e) v s) with ('(_, i, s) ← eval h e s;
    match s x with Some (Ar t vs) => vs ← insertz i (Some (cvt t v)) vs; Some (cset x (Some (Ar t vs)) s) | _ => None end).
  rewrite He. cbn [mbind option_bind]. rewrite Hs, insertz_in by done. done.
Qed.

Definition local_index (i : VmIns) : Prop := 0 <= a i < Z.of_nat LIN_VM_MAX_LOCALS.

Lemma u64_local_id i : local_index i -> u64 (a i) = a i.
Proof. unfold local_index, LIN_VM_MAX_LOCALS. intros ?. apply u64_id. unfold in_u64, two64. lia. Qed.

Lemma eval_local fr s n v : holds arrs fr s -> 0 <= n < Z.of_nat LIN_VM_MAX_LOCALS -> lookupz (locals fr) n = Some v ->
  eval h (local_e n) s = Some (TI64, v, s).
Proof.
  intros Hs Hn Hv. unfold LIN_VM_MAX_LOCALS in Hn. unfold local_e.
  rewrite (eval_at _ _ s TI64 (map Some (locals fr)) TI32 n); [|apply Hs|apply eval_int; lia].
  apply lookupz_Some in Hv as [H0 Hv]. rewrite <- (Z2Nat.id n), lookupz_nat, list_lookup_fmap, Hv by lia. done.
Qed.

Lemma store_local fr s n v : holds arrs fr s -> length (locals fr) = LIN_VM_MAX_LOCALS -> 0 <= n < Z.of_nat LIN_VM_MAX_LOCALS -> in_i64 v ->
  exists s', store h (local_e n) v s = Some s' /\ holds arrs (mkFrame (<[Z.to_nat n := v]> (locals fr)) (stack fr) (pool fr)) s' /\
    forall x, String.eqb x "locals" = false -> s' x = s x.
Proof.
  intros Hs Hl Hn Hv. pose proof Hn as Hn'. unfold LIN_VM_MAX_LOCALS in Hn'. eexists. split; [|split].
  - unfold local_e. apply (store_at _ _ s TI64 (map Some (locals fr)) TI32 n); [apply Hs|apply eval_int; lia|by rewrite length_map, Hl].
  - destruct Hs as [H1 H2 (cs & H3 & H3') H4]. constructor; cbn [locals stack pool].
    + rewrite cset_this. cbn [cvt]. rewrite (i64_id v Hv). change (map Some) with (fmap (M := list) (@Some Z)). by rewrite list_fmap_insert.
    + by rewrite cset_other.
    + exists cs. by rewrite cset_other.
    + intros Ha. rewrite !cset_other by done. by apply H4.
  - intros x. apply cset_other.
Qed.

Lemma sim_push fr s i v e t act : holds arrs fr s -> in_i64 v -> eval h e s = Some (t, v, s) ->
  (vlet fr := push fr v in VOk (A_next fr)) = VOk act -> simulates fr (push_s e) s i act.
Proof.
  intros Hs Hv He. unfold push. destruct (Nat.leb_spec LIN_VM_MAX_STACK (length (stack fr))); [done|]. intros [= <-].
  destruct (exec_push h call arrs fr s s e t v He Hs) as (s' & E & H' & _); [done|done|]. by exists s'.
Qed.

Lemma sim_load fr s i act : holds arrs fr s -> frame_ok fr -> op i = OP_LOAD_LOCAL -> local_index i -> vm_step ctx i fr = VOk act ->
  simulates fr (ins_stmt md i) s i act.
Proof.
  intros Hs Hf Eo Hi. unfold vm_step, ins_stmt. rewrite Eo, (u64_local_id i Hi). intros Hx.
  destruct (lookupz_in (locals fr) (a i)) as [v Hv]; [by rewrite (ok_nlocals _ Hf)|]. rewrite Hv in Hx. cbn [deref] in Hx.
  apply (sim_push fr s i v _ TI64); [done| |by apply (eval_local fr)|].
  - apply (Forall_elem _ _ _ (ok_locals _ Hf)). by eapply lookupz_elem.
  - unfold push. by destruct (LIN_VM_MAX_STACK <=? length (stack fr))%nat.
Qed.

Lemma sim_store fr s i act : holds arrs fr s -> frame_ok fr -> op i = OP_STORE_LOCAL -> local_index i -> vm_step ctx i fr = VOk act ->
  simulates fr (ins_stmt md i) s i act.
Proof.
  intros Hs Hf Eo Hi. unfold vm_step, ins_stmt, pop. rewrite Eo, (u64_local_id i Hi). destruct (stack fr) as [|v st] eqn:Es; [done|].
  cbn [locals with_stack]. rewrite insertz_in by (by rewrite (ok_nlocals _ Hf)). intros [= <-]. cbn [simulates stack pool with_stack].
  destruct (eval_pop h arrs fr s v st Hs Hf Es) as [E H']. pose proof (ok_stack _ Hf) as Hs64. rewrite Es in Hs64. apply Forall_cons_1 in Hs64 as [Hv _].
  destruct (store_local _ _ (a i) v H') as (s' & E' & H'' & _); [by apply Hf|done|done|]. exists s'. split; [|done].
  cbn [exec]. rewrite E. cbn [mbind option_bind]. by rewrite E'.
Qed.

Lemma eval_sp_pos fr s : holds arrs fr s -> frame_ok fr ->
  eval h (Bin Greater sp (int 0)) s = Some (TI32, truth (0 <? Z.of_nat (length (stack fr))), s).
Proof.
  intros Hs Hf. pose proof (ok_sp _ Hf). unfold LIN_VM_MAX_STACK in *.
  assert (eval h sp s = Some (TSize, Z.of_nat (length (stack fr)), s)) as E1 by (unfold sp; cbn [eval]; by rewrite (h_sp _ _ _ Hs)).
  pose proof (eval_int 0 s ltac:(lia)) as E2. cbn [eval] in *. rewrite E1. cbn [mbind option_bind]. rewrite E2.
  cbn [mbind option_bind c_binop is_shift common promote cvt binop_at]. rewrite !u64_id by (unfold in_u64, two64; lia). done.
Qed.

Lemma eval_test e s s' v : eval h e s = Some (TI64, v, s') -> in_i64 v ->
  eval h (Bin EqEq e (int 0)) s = Some (TI32, truth (v =? 0), s') /\ eval h (Bin BangEq e (int 0)) s = Some (TI32, truth (negb (v =? 0)), s').
Proof.
  intros E1 Hv. pose proof (eval_int 0 s' ltac:(lia)) as E2.
  split; cbn [eval] in *; rewrite E1; cbn [mbind option_bind]; rewrite E2;
    cbn [mbind option_bind c_binop is_shift common promote cvt binop_at]; by rewrite (i64_id v Hv).
Qed.

Lemma exec_jump_if c o s s' b i : eval h (Bin o c (int 0)) s = Some (TI32, truth b, s') ->
  exec h call (jump_if c o i) s = if b then Jump (a i) s' else Go s'.
Proof.
  intros E. unfold jump_if. change (exec h call (If ?e ?k) s) with (match eval h e s with Some (_, v, s) => if v =? 0 then Go s else exec h call k s | None => Bad end).
  rewrite E. by destruct b.
Qed.

Lemma sim_pop fr s i act : holds arrs fr s -> frame_ok fr -> op i = OP_POP -> vm_step ctx i fr = VOk act -> simulates fr (ins_stmt md i) s i act.
Proof.
  intros Hs Hf Eo. unfold vm_step, ins_stmt, pop. rewrite Eo. destruct (stack fr) as [|v st] eqn:Es; [done|]. intros [= <-]. cbn [simulates].
  destruct (eval_pop h arrs fr s v st Hs Hf Es) as [E H']. eexists. split; [|exact H'].
  pose proof (eval_sp_pos fr s Hs Hf) as Ep. rewrite Es in Ep.
  change (exec h call (If ?e ?k) s) with (match eval h e s with Some (_, v, s) => if v =? 0 then Go s else exec h call k s | None => Bad end).
  rewrite Ep. cbn [length]. rewrite (proj2 (Z.ltb_lt 0 _)) by lia. cbn [truth Z.eqb].
  change (exec h call (PostDec "sp") s) with (go ('(_, _, s) ← eval h (PreDec "sp") s; Some s)).
  assert (exists t w, eval h (PreDec "sp") s = Some (t, w, cset "sp" (sp_cell (length st)) s)) as (t & w & ->); [|done].
  unfold pop_e in E. cbn [eval] in *. destruct (s "sp"%string) as [[t [w|]| |]|]; cbn [mbind option_bind] in *; try discriminate E.
  destruct (c_binop Sub (t, w) (TI32, 1)) as [r|]; cbn [mbind option_bind] in *; [|discriminate E].
  destruct (cset "sp" (Some (Sc t (Some (cvt t r.2)))) s "stack"%string) as [[| |]|]; try discriminate E.
  destruct (lookupz vs (cvt t r.2)) as [[x|]|]; try discriminate E. injection E as _ _ E. rewrite E. by do 2 eexists.
Qed.

Lemma sim_jumps fr s i act : holds arrs fr s -> frame_ok fr -> 0 <= a i -> in_i64 (a i) ->
  op i ∈ [OP_JUMP; OP_JUMP_IF_FALSE; OP_JUMP_IF_FALSE_KEEP; OP_JUMP_IF_TRUE_KEEP] -> vm_step ctx i fr = VOk act ->
  simulates fr (ins_stmt md i) s i act.
Proof.
  intros Hs Hf H0 Hi Ho. assert (forall v st, stack fr = v :: st -> in_i64 v) as Hv.
  { intros v st Es. pose proof (ok_stack _ Hf) as Hs64. rewrite Es in Hs64. by apply Forall_cons_1 in Hs64 as [? _]. }
  unfold vm_step, ins_stmt, pop.
  repeat (apply elem_of_cons in Ho as [Eo|Ho]; [rewrite Eo|]); [| | | |by apply elem_of_nil in Ho].
  - intros [= <-]. cbn [simulates exec]. split; [done|]. by exists s.
  - destruct (stack fr) as [|v st] eqn:Es; [done|]. intros [= <-]. destruct (eval_pop h arrs fr s v st Hs Hf Es) as [E H'].
    destruct (eval_test _ _ _ _ E (Hv v st eq_refl)) as [E0 _].
    destruct (v =? 0) eqn:Ev; cbn [simulates]; rewrite (exec_jump_if _ _ _ _ _ _ E0), ?Ev; [split; [done|]|]; by eexists.
  - destruct (stack fr) as [|v st] eqn:Es; [done|]. intros [= <-]. pose proof (eval_top fr s v st Hs Hf Es) as E.
    destruct (eval_test _ _ _ _ E (Hv v st eq_refl)) as [E0 _].
    destruct (v =? 0) eqn:Ev; cbn [simulates]; rewrite (exec_jump_if _ _ _ _ _ _ E0), ?Ev; [split; [done|]|]; by eexists.
  - destruct (stack fr) as [|v st] eqn:Es; [done|]. intros [= <-]. pose proof (eval_top fr s v st Hs Hf Es) as E.
    destruct (eval_test _ _ _ _ E (Hv v st eq_refl)) as [_ E0].
    destruct (v =? 0) eqn:Ev; cbn [simulates]; rewrite (exec_jump_if _ _ _ _ _ _ E0), ?Ev; [|split; [done|]]; by eexists.
Qed.

Lemma exec_return fr s v st : holds arrs fr s -> frame_ok fr -> stack fr = v :: st -> exec h call return_top s = Ret v.
Proof.
  intros Hs Hf Es. pose proof (ok_stack _ Hf) as Hs64. rewrite Es in Hs64. apply Forall_cons_1 in Hs64 as [Hv _].
  pose proof (eval_sp_pos fr s Hs Hf) as Ep. rewrite Es in Ep. cbn [length] in Ep. rewrite (proj2 (Z.ltb_lt 0 _)) in Ep by lia.
  unfold return_top. change (exec h call (Return ?e) s) with (match eval h e s with Some (_, v, _) => Ret (cvt TI64 v) | None => Bad end).
  change (eval h (Cond TI64 (Paren ?c) ?e1 ?e2) s) with ('(_, b, s) ← eval h c s;
    '(_, v, s) ← (if b =? 0 then eval h e2 s else eval h e1 s); Some (TI64, cvt TI64 v, s)).
  rewrite Ep. cbn [mbind option_bind truth Z.eqb]. rewrite (eval_top fr s v st Hs Hf Es). cbn [mbind option_bind cvt].
  by rewrite !(i64_id v Hv).
Qed.

Lemma sim_ret fr s i act : holds arrs fr s -> frame_ok fr -> op i = OP_RET -> vm_step ctx i fr = VOk act -> simulates fr (ins_stmt md i) s i act.
Proof.
  intros Hs Hf Eo. unfold vm_step, ins_stmt, pop. rewrite Eo. destruct (stack fr) as [|v st] eqn:Es; [done|]. intros [= <-].
  by apply (exec_return fr s v st).
Qed.

Lemma sim_units fr s i act : holds arrs fr s -> frame_ok fr -> op i ∈ [OP_BIT_NOT; OP_NEG; OP_LOG_NOT] -> vm_step ctx i fr = VOk act ->
  simulates fr (ins_stmt md i) s i act.
Proof.
  intros Hs Hf Ho. assert (forall v st, stack fr = v :: st -> in_i64 v) as Hv.
  { intros v st Es. pose proof (ok_stack _ Hf) as Hs64. rewrite Es in Hs64. by apply Forall_cons_1 in Hs64 as [? _]. }
  unfold vm_step, ins_stmt. repeat (apply elem_of_cons in Ho as [Eo|Ho]; [rewrite Eo|]); [| | |by apply elem_of_nil in Ho].
  - apply (sim_unary fr s i _ Z.lnot); [done|done| |apply lnot_i64]. intros v st Es. exists TI64.
    pose proof (eval_top fr s v st Hs Hf Es) as E. cbn [eval] in *. rewrite E. cbn [mbind option_bind c_unop promote cvt].
    by rewrite i64_id by (by apply lnot_i64, (Hv v st)).
  - apply (sim_unary fr s i _ (lin_wsub 0)); [done|done| |intros; apply lin_wsub_range]. intros v st Es. exists TI64.
    pose proof (eval_top fr s v st Hs Hf Es) as E. pose proof (eval_int 0 s ltac:(lia)) as E0. cbn [eval] in *. rewrite E0. cbn [mbind option_bind].
    rewrite E. cbn [mbind option_bind cvt]. rewrite (i64_id v (Hv v st Es)). by rewrite (hk_sub h Hh (i64 0) v (i64_range 0) (Hv v st Es)).
  - apply (sim_unary fr s i _ (fun v => b2z (v =? 0))); [done|done| |intros; apply b2z_i64]. intros v st Es. exists TI32.
    apply eval_flag. apply (eval_test _ _ _ _ (eval_top fr s v st Hs Hf Es) (Hv v st Es)).
Qed.

Lemma sim_const fr s i act : holds arrs fr s -> op i = OP_PUSH_CONST -> in_i64 (a i) -> a i <> INT64_MIN -> vm_step ctx i fr = VOk act ->
  simulates fr (ins_stmt md i) s i act.
Proof.
  intros Hs Eo Hi Hm. unfold vm_step, ins_stmt. rewrite Eo. apply (sim_push fr s i (a i) _ TI64); [done|done|]. by apply eval_const.
Qed.

(** ** Shifts *)

(** A shift whose amount, on top, is below 64. *)
Definition shift_e (o : VmOp) : option cexpr :=
  match o with
  | OP_SHL => Some (Cast TI64 (Paren (Bin ShiftL (Cast TU64 (Var "a")) masked)))
  | OP_SHR => Some (Paren (Bin ShiftR (Var "a") masked))
  | OP_USHR => Some (Cast TI64 (Paren (Bin ShiftR (Cast TU64 (Var "a")) masked)))
  | _ => None
  end.

Lemma land_63 y : 0 <= y < 64 -> Z.land y 63 = y.
Proof. intros Hy. change 63 with (Z.ones 6). rewrite Z.land_ones by lia. by apply Z.mod_small. Qed.

Lemma eval_masked s y : s "s"%string = Some (Sc TI64 (Some y)) -> 0 <= y < 64 -> eval h masked s = Some (TI64, y, s).
Proof.
  intros Es Hy. change (eval h masked s) with (eval h (Bin Amp (Var "s") (int 63)) s).
  pose proof (eval_var h "s" TI64 y s Es) as E1. pose proof (eval_int 63 s ltac:(lia)) as E2. cbn [eval] in *. rewrite E1. cbn [mbind option_bind].
  rewrite E2. cbn [mbind option_bind c_binop is_shift common promote cvt binop_at].
  rewrite !i64_id, land_63 by (unfold in_i64, two63; lia). done.
Qed.

Lemma shift_eval o e x y s : shift_e o = Some e -> in_i64 x -> 0 <= y < 64 ->
  s "a"%string = Some (Sc TI64 (Some x)) -> s "s"%string = Some (Sc TI64 (Some y)) ->
  exists r, binop_result o x y = VOk r /\ eval h e s = Some (TI64, r, s).
Proof.
  intros He Hx Hy Ea Es. pose proof (eval_var h "a" TI64 x s Ea) as E1. pose proof (eval_masked s y Es Hy) as E2.
  assert (eval h (Cast TU64 (Var "a")) s = Some (TU64, u64 x, s)) as E3 by (cbn [eval] in *; by rewrite E1).
  assert (i64 y = y) as Hiy by (apply i64_id; unfold in_i64, two63; lia).
  assert (shift_ok TU64 y = true /\ shift_ok TI64 y = true) as [Hk1 Hk2] by (unfold shift_ok; rewrite (proj2 (Z.leb_le 0 y)), (proj2 (Z.ltb_lt y 64)) by lia; done).
  assert ((y <? 0) || (64 <=? y) = false) as Hr by (rewrite (proj2 (Z.ltb_ge y 0)), (proj2 (Z.leb_gt 64 y)) by lia; done).
  assert (0 <= u64 x) as Hu by (pose proof (u64_range x) as Hu; unfold in_u64 in Hu; lia).
  destruct o; try discriminate He; injection He as <-; cbn [binop_result]; unfold vm_shift, vm_ushr; rewrite Hr; (eexists; split; [reflexivity|]).
  - change (eval h (Cast TI64 (Paren ?e)) s) with ('(_, v, s) ← eval h e s; Some (TI64, cvt TI64 v, s)).
    assert (eval h (Bin ShiftL (Cast TU64 (Var "a")) masked) s = Some (TU64, u64 (Z.shiftl (u64 x) y), s)) as ->; [|done].
    cbn [eval] in *. rewrite E3. cbn [mbind option_bind]. rewrite E2. cbn [mbind option_bind c_binop is_shift promote cvt binop_at].
    rewrite Hiy, u64_id, Hk1, (proj2 (Z.leb_le _ _) Hu) by apply u64_range. done.
  - change (eval h (Paren ?e) s) with (eval h e s). cbn [eval] in *. rewrite E1. cbn [mbind option_bind]. rewrite E2.
    cbn [mbind option_bind c_binop is_shift promote cvt binop_at]. by rewrite Hiy, (i64_id x Hx), Hk2.
  - change (eval h (Cast TI64 (Paren ?e)) s) with ('(_, v, s) ← eval h e s; Some (TI64, cvt TI64 v, s)).
    assert (eval h (Bin ShiftR (Cast TU64 (Var "a")) masked) s = Some (TU64, Z.shiftr (u64 x) y, s)) as ->; [|done].
    cbn [eval] in *. rewrite E3. cbn [mbind option_bind]. rewrite E2. cbn [mbind option_bind c_binop is_shift promote cvt binop_at].
    by rewrite Hiy, u64_id, Hk1 by apply u64_range.
Qed.

Lemma shift_stmt o e i : shift_e o = Some e -> op i = o -> ins_stmt md i = shift_s e.
Proof. intros He Ho. unfold ins_stmt. rewrite Ho. destruct o; try discriminate He; injection He as <-; reflexivity. Qed.

Lemma sim_shift fr s i e act c st : holds arrs fr s -> frame_ok fr -> shift_e (op i) = Some e -> stack fr = c :: st -> 0 <= c < 64 ->
  exec_binop i fr = VOk act -> simulates fr (ins_stmt md i) s i act.
Proof.
  intros Hs Hf He Es Hc Hx. rewrite (shift_stmt _ _ _ He eq_refl). unfold exec_binop in Hx. rewrite Es in Hx.
  destruct st as [|x st]; [discriminate Hx|]. destruct (binop_result (op i) x c) as [r| |] eqn:Er; [|discriminate Hx..]. injection Hx as <-.
  pose proof (ok_stack _ Hf) as Hs64. rewrite Es in Hs64. apply Forall_cons_1 in Hs64 as [Hy Hs64]. apply Forall_cons_1 in Hs64 as [Hx _].
  apply (exec_binary h call "s" arrs fr s x c st e r TI64 (or_intror eq_refl) Hs Hf Es); [by apply (binop_i64 (op i) x c)|].
  intros s' Ea Eb. destruct (shift_eval _ e x c s' He Hx Hc Ea Eb) as (r' & E1 & E2). congruence.
Qed.

(** ** Arrays *)

Lemma eval_and e1 e2 s b c t1 t2 : eval h e1 s = Some (t1, truth b, s) -> (b = true -> eval h e2 s = Some (t2, truth c, s)) ->
  eval h (Bin AndAnd e1 e2) s = Some (TI32, truth (b && c), s).
Proof.
  intros E1 E2. cbn [eval]. rewrite E1. cbn [mbind option_bind]. destruct b; [|done]. cbn [truth Z.eqb]. rewrite (E2 eq_refl).
  cbn [mbind option_bind andb]. by destruct c.
Qed.

Lemma lookupz_le {A} (l : list A) z : lookupz l z = if 0 <=? z then l !! Z.to_nat z else None.
Proof.
  destruct (Z.leb_spec 0 z).
  - by rewrite <- (lookupz_nat l (Z.to_nat z)), Z2Nat.id by lia.
  - destruct (lookupz l z) as [x|] eqn:E; [|done]. apply lookupz_Some in E as [? _]. lia.
Qed.

(** The cell that a slot and an index name. *)
Definition pool_cell (fr : VmFrame) (l ix : Z) : option Z := arr ← pool_array fr l; lookupz arr ix.

Lemma eval_less_8 s l : s "slot"%string = Some (Sc TSize (Some (u64 l))) ->
  eval h (Bin Less (Var "slot") (int 8)) s = Some (TI32, truth (u64 l <? 8), s).
Proof.
  intros Es. pose proof (eval_var h "slot" TSize _ s Es) as E1. pose proof (eval_int 8 s ltac:(lia)) as E2. cbn [eval] in *. rewrite E1.
  cbn [mbind option_bind]. rewrite E2. cbn [mbind option_bind c_binop is_shift common promote cvt binop_at].
  rewrite (u64_id (u64 l)), (u64_id 8) by (apply u64_range || (unfold in_u64, two64; lia)). done.
Qed.

(** [(int64_t)pool_len[slot]] *)
Lemma eval_pool_len fr s l : holds true fr s -> frame_ok fr -> s "slot"%string = Some (Sc TSize (Some (u64 l))) -> u64 l < 8 ->
  eval h pool_len_e s = Some (TI64, match pool_array fr l with Some arr => Z.of_nat (length arr) | None => 0 end, s).
Proof.
  intros Hs Hf Es Hl. destruct (h_pool _ _ _ Hs eq_refl) as (rows & lens & _ & H1 & _ & Hn & Hp). pose proof (u64_range l) as [H0 _].
  unfold pool_len_e. change (eval h (Cast TI64 ?e) s) with ('(_, v, s) ← eval h e s; Some (TI64, cvt TI64 v, s)).
  rewrite (eval_at "pool_len" _ s TU16 lens TSize (u64 l) H1 (eval_var h "slot" TSize _ s Es)).
  destruct (Hp (Z.to_nat (u64 l))) as (row & _ & _ & Hc); [unfold LIN_VM_MAX_ARRS; lia|].
  unfold pool_array. rewrite !lookupz_le, (proj2 (Z.ltb_lt (u64 l) _)), (proj2 (Z.leb_le 0 (u64 l))) by (unfold LIN_VM_MAX_ARRS; lia).
  destruct (pool fr !! Z.to_nat (u64 l)) as [arr|] eqn:Ea.
  - destruct Hc as [-> _]. cbn [mbind option_bind cvt]. rewrite i64_id; [done|].
    pose proof (Forall_elem _ _ _ (ok_arrays _ Hf) (list_elem_of_lookup_2 _ _ _ Ea)) as [Hm _]. unfold LIN_VM_MAX_ARR_LEN in Hm. unfold in_i64, two63. lia.
  - by rewrite Hc.
Qed.

Lemma eval_in_pool fr s l ix : holds true fr s -> frame_ok fr -> s "slot"%string = Some (Sc TSize (Some (u64 l))) ->
  s "ix"%string = Some (Sc TI64 (Some ix)) -> in_i64 ix ->
  eval h in_pool s = Some (TI32, truth (match pool_cell fr l ix with Some _ => true | None => false end), s).
Proof.
  intros Hs Hf Es Ei Hi. pose proof (eval_var h "ix" TI64 ix s Ei) as E1. pose proof (eval_int 0 s ltac:(lia)) as E2.
  set (n := match pool_array fr l with Some arr => Z.of_nat (length arr) | None => 0 end).
  assert (eval h (Bin GreaterEq (Var "ix") (int 0)) s = Some (TI32, truth (0 <=? ix), s)) as E3.
  { cbn [eval] in *. rewrite E1. cbn [mbind option_bind]. rewrite E2. cbn [mbind option_bind c_binop is_shift common promote cvt binop_at].
    by rewrite (i64_id ix Hi). }
  pose proof (eval_and _ _ s _ _ _ _ (eval_less_8 s l Es) (fun _ => E3)) as E4.
  assert (in_i64 n) as Hn.
  { unfold n. destruct (pool_array fr l) as [arr|] eqn:Ea; [|by apply in_i64_small]. destruct (pool_array_ok _ _ _ Hf Ea) as [[Hm _] _].
    apply in_i64_small. unfold LIN_VM_MAX_ARR_LEN in Hm. lia. }
  unfold in_pool. rewrite (eval_and _ _ s _ (ix <? n) _ TI32 E4).
  - do 4 f_equal. unfold pool_cell, n, pool_array. change (Z.of_nat LIN_VM_MAX_ARRS) with 8. destruct (u64 l <? 8); [|done].
    destruct (lookupz (pool fr) (u64 l)) as [arr|]; cbn [mbind option_bind andb];
      [|destruct (Z.leb_spec 0 ix), (Z.ltb_spec ix 0); try done; lia].
    rewrite lookupz_le. destruct (0 <=? ix) eqn:H0; [|done]. apply Z.leb_le in H0. destruct (Z.ltb_spec ix (Z.of_nat (length arr))) as [Hx|Hx].
    + by destruct (lookup_lt_is_Some_2 arr (Z.to_nat ix)) as [v ->]; [lia|].
    + by rewrite lookup_ge_None_2 by lia.
  - intros [Hl _]%andb_true_iff. apply Z.ltb_lt in Hl. pose proof (eval_pool_len fr s l Hs Hf Es Hl) as E5. fold n in E5.
    cbn [eval] in *. rewrite E1. cbn [mbind option_bind]. rewrite E5. cbn [mbind option_bind c_binop is_shift common promote cvt binop_at].
    by rewrite (i64_id ix Hi), (i64_id n Hn).
Qed.

Lemma pool_cell_row fr s l ix v : holds true fr s -> frame_ok fr -> pool_cell fr l ix = Some v ->
  exists k arr rows lens row, Z.of_nat k = u64 l /\ (k < LIN_VM_MAX_ARRS)%nat /\ pool_array fr l = Some arr /\ pool fr !! k = Some arr /\
    0 <= ix < Z.of_nat (length arr) /\ arr !! Z.to_nat ix = Some v /\ (length arr <= LIN_VM_MAX_ARR_LEN)%nat /\
    s "pool"%string = Some (Ar2 TI64 rows) /\ s "pool_len"%string = Some (Ar TU16 lens) /\
    length rows = LIN_VM_MAX_ARRS /\ rows !! k = Some row /\ length row = LIN_VM_MAX_ARR_LEN /\ take (length arr) row = map Some arr.
Proof.
  intros Hs Hf. unfold pool_cell. destruct (pool_array fr l) as [arr|] eqn:Ea; [|done]. cbn [mbind option_bind]. intros Hv.
  destruct (pool_array_ok _ _ _ Hf Ea) as [[Hm _] _]. pose proof Ea as Ea'. unfold pool_array in Ea. destruct (Z.ltb_spec (u64 l) (Z.of_nat LIN_VM_MAX_ARRS)) as [Hl|]; [|done].
  apply lookupz_Some in Ea as [H0 Ea]. pose proof (lookupz_range _ _ _ Hv). apply lookupz_Some in Hv as [_ Hv].
  destruct (h_pool _ _ _ Hs eq_refl) as (rows & lens & H1 & H2 & H3 & _ & Hp). destruct (Hp (Z.to_nat (u64 l))) as (row & Hr & Hlr & Hc); [lia|].
  rewrite Ea in Hc. destruct Hc as [_ Ht]. exists (Z.to_nat (u64 l)), arr, rows, lens, row. split_and!; try done; lia.
Qed.

Lemma eval_slots s l ix : s "slot"%string = Some (Sc TSize (Some (u64 l))) -> s "ix"%string = Some (Sc TI64 (Some ix)) -> 0 <= ix < 65536 ->
  eval h (Var "slot") s = Some (TSize, u64 l, s) /\ eval h (Cast TSize (Var "ix")) s = Some (TSize, ix, s).
Proof.
  intros E1 E2 Hx. split; [by apply eval_var|]. cbn [eval]. rewrite E2. cbn [mbind option_bind cvt].
  by rewrite u64_id by (unfold in_u64, two64; lia).
Qed.

Lemma eval_pool_cell fr s l ix v : holds true fr s -> frame_ok fr -> s "slot"%string = Some (Sc TSize (Some (u64 l))) ->
  s "ix"%string = Some (Sc TI64 (Some ix)) -> pool_cell fr l ix = Some v -> eval h pool_e s = Some (TI64, v, s).
Proof.
  intros Hs Hf Es Ei Hv. destruct (pool_cell_row _ _ _ _ _ Hs Hf Hv) as (k & arr & rows & lens & row & Hk & Hk8 & _ & _ & Hx & Hv' & Hm & Hp & _ & Hn & Hr & Hlr & Ht).
  unfold LIN_VM_MAX_ARR_LEN in *. destruct (eval_slots s l ix Es Ei) as [E1 E2]; [lia|].
  unfold pool_e. change (eval h (At2 ?x ?e1 ?e2) s) with ('(_, i, s) ← eval h e1 s; '(_, j, s) ← eval h e2 s;
    match s x with Some (Ar2 t rows) => row ← lookupz rows i; match lookupz row j with Some (Some v) => Some (t, v, s) | _ => None end | _ => None end).
  rewrite E1. cbn [mbind option_bind]. rewrite E2. cbn [mbind option_bind]. rewrite Hp, <- Hk, lookupz_nat, Hr. cbn [mbind option_bind].
  assert (row !! Z.to_nat ix = Some (Some v)) as Hrow.
  { rewrite <- (lookup_take_lt row (length arr)), Ht, list_lookup_fmap, Hv' by lia. done. }
  by rewrite lookupz_le, (proj2 (Z.leb_le 0 ix)), Hrow by lia.
Qed.

Lemma take_insert_map (row : list (option Z)) arr n v : take (length arr) row = map Some arr -> (n < length arr)%nat ->
  take (length (<[n := v]> arr)) (<[n := Some v]> row) = map Some (<[n := v]> arr).
Proof.
  intros Ht Hn. rewrite length_insert, take_insert_lt, Ht by done. change (map Some) with (fmap (M := list) (@Some Z)). by rewrite list_fmap_insert.
Qed.

Lemma store_pool_cell fr s l ix w v arr : holds true fr s -> frame_ok fr -> s "slot"%string = Some (Sc TSize (Some (u64 l))) ->
  s "ix"%string = Some (Sc TI64 (Some ix)) -> pool_cell fr l ix = Some w -> in_i64 v -> pool_array fr l = Some arr ->
  exists s', store h pool_e v s = Some s' /\
    holds true (mkFrame (locals fr) (stack fr) (<[Z.to_nat (u64 l) := <[Z.to_nat ix := v]> arr]> (pool fr))) s'.
Proof.
  intros Hs Hf Es Ei Hw Hv Ha. destruct (pool_cell_row _ _ _ _ _ Hs Hf Hw) as (k & arr' & rows & lens & row & Hk & Hk8 & Ha' & Hpk & Hx & _ & Hm & Hp & Hpl & Hn & Hr & Hlr & Ht).
  assert (arr' = arr) as -> by congruence. unfold LIN_VM_MAX_ARR_LEN in *. destruct (eval_slots s l ix Es Ei) as [E1 E2]; [lia|].
  eexists. split.
  - unfold pool_e. change (store h (At2 ?x ?e1 ?e2) v s) with ('(_, i, s) ← eval h e1 s; '(_, j, s) ← eval h e2 s;
      match s x with Some (Ar2 t rows) => row ← lookupz rows i; row ← insertz j (Some (cvt t v)) row; rows ← insertz i row rows;
        Some (cset x (Some (Ar2 t rows)) s) | _ => None end).
    rewrite E1. cbn [mbind option_bind]. rewrite E2. cbn [mbind option_bind]. rewrite Hp, <- Hk, lookupz_nat, Hr. cbn [mbind option_bind cvt].
    rewrite insertz_in by lia. cbn [mbind option_bind]. rewrite insertz_in by lia. cbn [mbind option_bind]. by rewrite (i64_id v Hv).
  - rewrite <- Hk, Nat2Z.id. destruct Hs as [H1 H2 (cs & H3 & H3') H4]. constructor; cbn [locals stack pool].
    + by rewrite cset_other.
    + by rewrite cset_other.
    + exists cs. by rewrite cset_other.
    + intros _. destruct (H4 eq_refl) as (rows' & lens' & E3 & E4 & _ & Hll & Hi). rewrite cset_this, cset_other by done.
      assert (rows' = rows) as -> by congruence. eexists _, lens'. split_and!; try done; [by rewrite length_insert|].
      intros i Hi8. destruct (decide (i = k)) as [->|Hne].
      * rewrite !list_lookup_insert_eq by first [by rewrite Hn|by apply lookup_lt_Some in Hpk]. eexists. split; [done|]. split; [by rewrite length_insert|].
        rewrite length_insert. destruct (Hi k Hk8) as (? & _ & _ & Hc). rewrite Hpk in Hc. destruct Hc as [Hc _]. split; [done|].
        rewrite <- (take_insert_map row arr) by (done || lia). by rewrite length_insert.
      * rewrite !list_lookup_insert_ne by done. by apply Hi.
Qed.

(** [size_t slot = (size_t)locals[n];] *)
Lemma exec_slot fr s n l : holds arrs fr s -> 0 <= n < Z.of_nat LIN_VM_MAX_LOCALS -> lookupz (locals fr) n = Some l ->
  exec h call (slot_s n) s = Go (cset "slot" (Some (Sc TSize (Some (u64 l)))) s).
Proof.
  intros Hs Hn Hl. unfold slot_s. change (exec h call (Decl TSize ?x (Some ?e)) s) with (go ('(_, v, s) ← eval h e s; Some (cset x (Some (Sc TSize (Some (cvt TSize v)))) s))).
  change (eval h (Cast TSize ?e) s) with ('(_, v, s) ← eval h e s; Some (TSize, cvt TSize v, s)).
  rewrite (eval_local fr s n l Hs Hn Hl). cbn [mbind option_bind go cvt]. by rewrite u64_id by apply u64_range.
Qed.

Lemma exec_decl t x e t' v s s' : eval h e s = Some (t', v, s') -> exec h call (Decl t x (Some e)) s = Go (cset x (Some (Sc t (Some (cvt t v)))) s').
Proof. intros E. cbn [exec]. by rewrite E. Qed.

Lemma exec_seq b1 b2 s s' : exec h call b1 s = Go s' -> exec h call (b1;; b2)%c s = exec h call b2 s'.
Proof. intros E. cbn [exec]. by rewrite E. Qed.

Lemma exec_seq2 b1 b2 b3 s s' : exec h call (b1;; b2)%c s = Go s' -> exec h call (b1;; b2;; b3)%c s = exec h call b3 s'.
Proof. cbn [exec]. destruct (exec h call b1 s); try done. by intros ->. Qed.

Lemma exec_block b fr s s' : exec h call b s = Go s' -> holds arrs fr s' -> (forall x, frame_var x = true -> declares b x = false) ->
  exists s'', exec h call (Block b) s = Go s'' /\ holds arrs fr s''.
Proof. intros E H Hd. exists (leave b s s'). split; [cbn [exec]; by rewrite E|by apply holds_leave]. Qed.

(** A test with a block that declares nothing. *)
Lemma exec_if c b d s t : eval h c s = Some (t, truth b, s) -> (forall x, declares d x = false) ->
  exec h call (If c (Block d)) s = if b then exec h call d s else Go s.
Proof.
  intros E Hd. cbn [exec]. rewrite E. destruct b; [|done]. cbn [truth Z.eqb].
  assert (forall s', leave d s s' = s') as Hl.
  { intros s'. unfold leave. apply functional_extensionality. intros x. by rewrite Hd. }
  destruct (exec h call d s); cbn [map_env]; by rewrite ?Hl.
Qed.

Lemma frame_popped fr v st : frame_ok fr -> stack fr = v :: st -> frame_ok (with_stack fr st) /\ in_i64 v /\ (S (length st) <= LIN_VM_MAX_STACK)%nat.
Proof.
  intros Hf Es. pose proof (ok_stack _ Hf) as Hs64. rewrite Es in Hs64. apply Forall_cons_1 in Hs64 as [Hv Hst].
  pose proof (ok_sp _ Hf) as Hn. rewrite Es in Hn. cbn [length] in Hn. split_and!; [|done|done]. apply frame_stack; [done|lia|done].
Qed.

Lemma sim_load_index fr s i act : arrs = true -> holds arrs fr s -> frame_ok fr -> op i = OP_LOAD_INDEX -> local_index i -> vm_step ctx i fr = VOk act ->
  simulates fr (ins_stmt md i) s i act.
Proof.
  intros Ha Hs Hf Eo Hi. unfold vm_step, ins_stmt. rewrite Eo. unfold exec_load_index, pop. rewrite (u64_local_id i Hi).
  destruct (stack fr) as [|ix st] eqn:Es; [done|]. cbn [locals with_stack].
  destruct (lookupz_in (locals fr) (a i)) as [l Hl]; [by rewrite (ok_nlocals _ Hf)|]. rewrite Hl. cbn [deref].
  destruct (frame_popped _ _ _ Hf Es) as (Hf' & Hix & Hn). destruct (eval_pop h arrs fr s ix st Hs Hf Es) as [E1 H1].
  pose proof (holds_temp arrs (with_stack fr st) _ "ix" (Some (Sc TI64 (Some (cvt TI64 ix)))) H1 eq_refl) as H2.
  set (s2 := cset "ix" _ _) in H2. pose proof (exec_slot _ s2 (a i) l H2 Hi Hl) as E3.
  pose proof (holds_temp arrs (with_stack fr st) s2 "slot" (Some (Sc TSize (Some (u64 l)))) H2 eq_refl) as H3.
  set (s3 := cset "slot" _ s2) in *. pose proof (holds_temp arrs (with_stack fr st) s3 "v" (Some (Sc TI64 (Some 0))) H3 eq_refl) as H4.
  set (s4 := cset "v" _ s3) in *. rewrite Ha in H4.
  assert (s4 "slot"%string = Some (Sc TSize (Some (u64 l))) /\ s4 "ix"%string = Some (Sc TI64 (Some ix))) as [Es1 Es2].
  { unfold s4, s3, s2. cbn [cvt]. rewrite (i64_id ix Hix). by split. }
  set (v := default 0 (pool_cell (with_stack fr st) l ix)).
  assert (exists s5, exec h call (If in_pool (Block (Assign (Var "v") pool_e))) s4 = Go s5 /\ holds arrs (with_stack fr st) s5 /\
    s5 "v"%string = Some (Sc TI64 (Some v))) as (s5 & E5 & H5 & Ev).
  { rewrite (exec_if _ _ _ _ _ (eval_in_pool _ s4 l ix H4 Hf' Es1 Es2 Hix)) by done. unfold v. rewrite <- Ha in H4.
    destruct (pool_cell (with_stack fr st) l ix) as [w|] eqn:Ew; [|by exists s4].
    exists (cset "v" (Some (Sc TI64 (Some w))) s4). split; [|split; [by apply holds_temp|apply cset_this]].
    cbn [exec]. rewrite Ha in H4. rewrite (eval_pool_cell _ s4 l ix w H4 Hf' Es1 Es2 Ew). cbn [mbind option_bind store].
    destruct (pool_cell_row _ _ _ _ _ H4 Hf' Ew) as (_ & arr & _ & _ & _ & _ & _ & Hpa & _ & _ & Hw & _). cbn [s4 cset String.eqb Ascii.eqb Bool.eqb].
    change (s4 "v"%string) with (Some (Sc TI64 (Some 0))). cbn [go default]. cbn [cvt]. rewrite i64_id; [done|].
    apply (Forall_elem _ _ _ (proj2 (proj1 (pool_array_ok _ _ _ Hf' Hpa)))). by eapply list_elem_of_lookup_2. }
  assert (in_i64 v) as Hv.
  { unfold v. destruct (pool_cell (with_stack fr st) l ix) as [w|] eqn:Ew; [|by apply in_i64_small]. cbn [default].
    destruct (pool_cell_row _ _ _ _ _ H4 Hf' Ew) as (_ & arr & _ & _ & _ & _ & _ & Hpa & _ & _ & Hw & _).
    apply (Forall_elem _ _ _ (proj2 (proj1 (pool_array_ok _ _ _ Hf' Hpa)))). by eapply list_elem_of_lookup_2. }
  assert (match pool_array (with_stack fr st) l with Some arr => default 0 (lookupz arr ix) | None => 0 end = v) as ->.
  { unfold v, pool_cell. by destruct (pool_array (with_stack fr st) l). }
  destruct (exec_push h call arrs _ s5 s5 (Var "v") TI64 v (eval_var h _ _ _ _ Ev) H5) as (s6 & E6 & H6 & _); [cbn [stack with_stack]; lia|done|].
  unfold push. cbn [stack with_stack]. destruct (Nat.leb_spec LIN_VM_MAX_STACK (length st)); [lia|]. intros [= <-]. cbn [simulates].
  apply (exec_block _ _ _ s6); [|done|temporaries].
  rewrite (exec_seq _ _ _ _ (exec_decl TI64 "ix" pop_e _ _ _ _ E1)). fold s2. rewrite (exec_seq _ _ _ _ E3).
  rewrite (exec_seq _ _ _ _ (exec_decl TI64 "v" (int 0) _ _ _ _ (eval_int 0 s3 ltac:(lia)))). change (cset "v" _ s3) with s4.
  by rewrite (exec_seq _ _ _ _ E5).
Qed.

(** [sp -= m;] *)
Lemma exec_sub_sp fr s m e : holds arrs fr s -> frame_ok fr -> (m <= length (stack fr))%nat -> (m <= 256)%nat ->
  eval h (Bin Sub sp e) s = Some (TSize, Z.of_nat (length (stack fr)) - Z.of_nat m, s) ->
  exists s', exec h call (SubAssign "sp" e) s = Go s' /\ holds arrs (with_stack fr (drop m (stack fr))) s' /\ (forall x, frame_var x = false -> s' x = s x).
Proof.
  intros Hs Hf Hm Hm' E. pose proof (ok_sp _ Hf). unfold LIN_VM_MAX_STACK in *. eexists. split; [|split; [exact (holds_drop arrs fr s m Hs Hf Hm)|]].
  - change (exec h call (SubAssign ?x e) s) with (go ('(_, v, s) ← eval h (Bin Sub sp e) s; store h (Var "sp") v s)). rewrite E.
    cbn [mbind option_bind store]. rewrite (h_sp _ _ _ Hs). cbn [go cvt]. rewrite u64_id by (unfold in_u64, two64; lia).
    by rewrite Nat2Z.inj_sub by done.
  - intros x Hx. apply cset_other. apply String.eqb_neq. by intros ->.
Qed.

Lemma sim_store_index fr s i act : arrs = true -> holds arrs fr s -> frame_ok fr -> op i = OP_STORE_INDEX -> local_index i -> vm_step ctx i fr = VOk act ->
  simulates fr (ins_stmt md i) s i act.
Proof.
  intros Ha Hs Hf Eo Hi. unfold vm_step, ins_stmt. rewrite Eo. unfold exec_store_index. rewrite (u64_local_id i Hi).
  destruct (stack fr) as [|v [|ix st]] eqn:Es; [done..|]. cbn [locals with_stack].
  destruct (lookupz_in (locals fr) (a i)) as [l Hl]; [by rewrite (ok_nlocals _ Hf)|]. rewrite Hl. cbn [deref].
  destruct (frame_popped _ _ _ Hf Es) as (Hf1 & Hv & _). destruct (frame_popped _ _ _ Hf1 eq_refl) as (Hf2 & Hix & _).
  change (with_stack (with_stack fr (ix :: st)) st) with (with_stack fr st) in Hf2.
  assert (eval h (At "stack" (Bin Sub sp (int 2))) s = Some (TI64, ix, s)) as E1 by (apply (eval_peek fr); [done|done|lia|by rewrite Es]).
  set (s1 := cset "ix" (Some (Sc TI64 (Some (cvt TI64 ix)))) s). assert (holds arrs fr s1) as H1 by by apply holds_temp.
  pose proof (eval_top fr s1 v _ H1 Hf Es) as E2. set (s2 := cset "val" (Some (Sc TI64 (Some (cvt TI64 v)))) s1).
  assert (holds arrs fr s2) as H2 by by apply holds_temp.
  destruct (exec_sub_sp fr s2 2 (int 2) H2 Hf) as (s3 & E3 & H3 & Ht3); [rewrite Es; cbn [length]; lia|lia| |].
  { apply (eval_sp_minus h arrs); [done|done|rewrite Es; cbn [length]; lia|lia]. }
  rewrite Es in H3. change (drop 2 (v :: ix :: st)) with st in H3. pose proof (exec_slot _ s3 (a i) l H3 Hi Hl) as E4.
  set (s4 := cset "slot" (Some (Sc TSize (Some (u64 l)))) s3) in *. assert (holds arrs (with_stack fr st) s4) as H4 by by apply holds_temp.
  assert (s4 "slot"%string = Some (Sc TSize (Some (u64 l))) /\ s4 "ix"%string = Some (Sc TI64 (Some ix)) /\ s4 "val"%string = Some (Sc TI64 (Some v))) as (Es1 & Es2 & Es3).
  { unfold s4. rewrite cset_this, !cset_other, !Ht3 by done. unfold s2, s1. cbn [cvt]. rewrite (i64_id ix Hix), (i64_id v Hv). by split_and!. }
  rewrite Ha in H4. pose proof (eval_in_pool _ s4 l ix H4 Hf2 Es1 Es2 Hix) as Ep.
  assert (forall fr' s5, exec h call (If in_pool (Block (Assign pool_e (Var "val")))) s4 = Go s5 -> holds true fr' s5 ->
    exists s', exec h call (store_index_s (a i)) s = Go s' /\ holds arrs fr' s') as Hend.
  { intros fr' s5 E5 H5. apply (exec_block _ _ _ s5); [|by rewrite Ha|temporaries].
    rewrite (exec_seq _ _ _ _ (exec_decl TI64 "ix" _ _ _ _ _ E1)). fold s1. rewrite (exec_seq _ _ _ _ (exec_decl TI64 "val" _ _ _ _ _ E2)). fold s2.
    by rewrite (exec_seq _ _ _ _ E3), (exec_seq _ _ _ _ E4). }
  rewrite (exec_if _ _ _ _ _ Ep) in Hend by done. unfold pool_cell in Hend, Ep.
  destruct (pool_array (with_stack fr st) l) as [arr|] eqn:Ea; [|intros [= <-]; by apply (Hend _ s4)]. cbn [mbind option_bind] in Hend.
  destruct (lookupz arr ix) as [w|] eqn:Ew.
  - rewrite (insertz_in arr ix v) by (by apply lookupz_range in Ew). intros [= <-]. cbn [simulates].
    destruct (store_pool_cell (with_stack fr st) s4 l ix w v arr H4 Hf2 Es1 Es2) as (s5 & E5 & H5); [by unfold pool_cell; rewrite Ea|done|done|].
    apply (Hend _ s5); [|exact H5]. cbn [exec eval]. rewrite Es3. cbn [mbind option_bind]. by rewrite E5.
  - assert (insertz ix v arr = None) as ->; [|intros [= <-]; by apply (Hend _ s4)].
    destruct (insertz ix v arr) eqn:Ei; [|done]. apply insertz_Some in Ei as [Hr _]. destruct (lookupz_in arr ix Hr) as [? E]. congruence.
Qed.

Lemma sim_arr_len fr s i act : arrs = true -> holds arrs fr s -> frame_ok fr -> op i = OP_ARR_LEN -> local_index i -> vm_step ctx i fr = VOk act ->
  simulates fr (ins_stmt md i) s i act.
Proof.
  intros Ha Hs Hf Eo Hi. unfold vm_step, ins_stmt. rewrite Eo. unfold exec_arr_len. rewrite (u64_local_id i Hi).
  destruct (Nat.leb_spec LIN_VM_MAX_STACK (length (stack fr))) as [|Hn]; [done|].
  destruct (lookupz_in (locals fr) (a i)) as [l Hl]; [by rewrite (ok_nlocals _ Hf)|]. rewrite Hl. cbn [deref]. intros [= <-]. cbn [simulates].
  pose proof (exec_slot _ s (a i) l Hs Hi Hl) as E1. set (s1 := cset "slot" (Some (Sc TSize (Some (u64 l)))) s) in *.
  assert (holds arrs fr s1) as H1 by by apply holds_temp. assert (s1 "slot"%string = Some (Sc TSize (Some (u64 l)))) as Es1 by apply cset_this.
  set (n := match pool_array fr l with Some arr => Z.of_nat (length arr) | None => 0 end).
  assert (in_i64 n) as Hni.
  { unfold n. destruct (pool_array fr l) as [arr|] eqn:Ea; [|by apply in_i64_small]. destruct (pool_array_ok _ _ _ Hf Ea) as [[Hm _] _].
    apply in_i64_small. unfold LIN_VM_MAX_ARR_LEN in Hm. lia. }
  assert (eval h (Cond TI64 (Paren (Bin Less (Var "slot") (int 8))) pool_len_e (int 0)) s1 = Some (TI64, n, s1)) as E2.
  { change (eval h (Cond TI64 (Paren ?c) ?e1 ?e2) s1) with ('(_, b, s) ← eval h c s1;
      '(_, v, s) ← (if b =? 0 then eval h e2 s else eval h e1 s); Some (TI64, cvt TI64 v, s)).
    rewrite (eval_less_8 s1 l Es1). cbn [mbind option_bind]. destruct (Z.ltb_spec (u64 l) 8) as [Hl8|Hl8]; cbn [truth Z.eqb].
    - rewrite Ha in H1. rewrite (eval_pool_len fr s1 l H1 Hf Es1 Hl8). fold n. cbn [mbind option_bind cvt]. by rewrite (i64_id n Hni).
    - rewrite (eval_int 0) by lia. cbn [mbind option_bind cvt]. unfold n, pool_array. by rewrite (proj2 (Z.ltb_ge _ _)) by (unfold LIN_VM_MAX_ARRS; lia). }
  destruct (exec_push h call arrs fr s1 s1 _ TI64 n E2 H1 Hn Hni) as (s2 & E3 & H3 & _).
  apply (exec_block _ _ _ s2); [|done|temporaries]. by rewrite (exec_seq _ _ _ _ E1).
Qed.

(** ** Calls *)

(** The 64 cells of an argument array. *)
Definition arg_cells (args : list Z) : list (option Z) := map Some (args ++ replicate (64 - length args) 0).

(** [n] arguments, the first [j] copied. *)
Record copying (fr : VmFrame) (n j : nat) (s : cenv) : Prop := {
  y_frame : holds arrs fr s;
  y_np : s "np"%string = Some (Sc TSize (Some (Z.of_nat n)));
  y_j : s "j"%string = Some (Sc TSize (Some (Z.of_nat j)));
  y_cargs : s "cargs"%string = Some (Ar TI64 (arg_cells (take j (rev (take n (stack fr))))))
}.

Lemma size_cmp s e1 e2 n m t : eval h e1 s = Some (TSize, Z.of_nat n, s) -> eval h e2 s = Some (t, Z.of_nat m, s) -> t = TSize \/ t = TI32 ->
  (n <= 256)%nat -> (m <= 256)%nat -> eval h (Bin Less e1 e2) s = Some (TI32, truth (n <? m)%nat, s).
Proof.
  intros E1 E2 Ht Hn Hm. cbn [eval]. rewrite E1. cbn [mbind option_bind]. rewrite E2. cbn [mbind option_bind].
  assert (c_binop Less (TSize, Z.of_nat n) (t, Z.of_nat m) = Some (TI32, truth (n <? m)%nat)) as ->; [|done].
  destruct Ht as [-> | ->]; cbn [c_binop is_shift common promote cvt binop_at]; rewrite !u64_id by (unfold in_u64, two64; lia);
    do 3 f_equal; destruct (Nat.ltb_spec n m), (Z.ltb_spec (Z.of_nat n) (Z.of_nat m)); try done; lia.
Qed.

Lemma more_args fr n j s : copying fr n j s -> (j <= n <= 64)%nat ->
  eval h (Bin AndAnd (Bin Less (Var "j") (Var "np")) (Bin Less (Var "j") (int 64))) s = Some (TI32, truth (j <? n)%nat, s).
Proof.
  intros [_ Hnp Hj _] Hn. pose proof (eval_var h _ _ _ _ Hnp) as E1. pose proof (eval_var h _ _ _ _ Hj) as E2.
  pose proof (size_cmp s _ _ _ _ _ E2 E1 (or_introl eq_refl) ltac:(lia) ltac:(lia)) as E3.
  pose proof (size_cmp s _ _ j 64 _ E2 (eval_int 64 s ltac:(lia)) (or_intror eq_refl) ltac:(lia) ltac:(lia)) as E4.
  rewrite (eval_and _ _ s _ _ _ _ E3 (fun _ => E4)). do 4 f_equal. destruct (Nat.ltb_spec j n); [|done]. cbn [andb]. by apply Nat.ltb_lt; lia.
Qed.

(** [stack[sp - np + j]] *)
Lemma eval_arg fr n j s v : copying fr n j s -> frame_ok fr -> (j < n <= length (stack fr))%nat -> rev (take n (stack fr)) !! j = Some v ->
  eval h (At "stack" (Bin Plus (Bin Sub sp (Var "np")) (Var "j"))) s = Some (TI64, v, s).
Proof.
  intros [Hs Hnp Hj _] Hf Hn Hv. pose proof (ok_sp _ Hf) as Hsp. unfold LIN_VM_MAX_STACK in Hsp.
  assert (eval h sp s = Some (TSize, Z.of_nat (length (stack fr)), s)) as E1 by (unfold sp; cbn [eval]; by rewrite (h_sp _ _ _ Hs)).
  pose proof (eval_var h _ _ _ _ Hnp) as E2. pose proof (eval_var h _ _ _ _ Hj) as E3.
  assert (eval h (Bin Sub sp (Var "np")) s = Some (TSize, Z.of_nat (length (stack fr) - n), s)) as E4.
  { cbn [eval] in *. rewrite E1. cbn [mbind option_bind]. rewrite E2. cbn [mbind option_bind].
    destruct (size_op (length (stack fr)) (Z.of_nat n)) as (_ & -> & _); [lia..|]. cbn [mbind option_bind]. by rewrite Nat2Z.inj_sub by lia. }
  assert (eval h (Bin Plus (Bin Sub sp (Var "np")) (Var "j")) s = Some (TSize, Z.of_nat (length (stack fr) - n + j), s)) as E5.
  { cbn [eval] in *. rewrite E4. cbn [mbind option_bind]. rewrite E3. cbn [mbind option_bind c_binop is_shift common promote cvt binop_at arith fmap option_fmap option_map].
    rewrite (u64_id (Z.of_nat (_ - n))), (u64_id (Z.of_nat j)), u64_id by (unfold in_u64, two64; lia). by rewrite Nat2Z.inj_add. }
  destruct (stack_cell arrs fr s (length (stack fr) - n + j) Hs) as (cs & w & Hk & Hc & Hw); [lia|].
  rewrite (eval_at _ _ s _ _ _ _ Hk E5), Hc. do 3 f_equal.
  pose proof (rev_app_distr (take n (stack fr)) (drop n (stack fr))) as Er. rewrite take_drop in Er.
  rewrite Er, lookup_app_r, length_rev, length_drop in Hw by (rewrite length_rev, length_drop; lia).
  replace (length (stack fr) - n + j - (length (stack fr) - n))%nat with j in Hw by lia. congruence.
Qed.

Lemma arg_cells_snoc l v : (length l < 64)%nat -> <[length l := Some v]> (arg_cells l) = arg_cells (l ++ [v]).
Proof.
  intros Hl. unfold arg_cells. rewrite length_app. cbn [length]. replace (64 - length l)%nat with (S (64 - (length l + 1))) by lia.
  cbn [replicate]. rewrite !map_app. rewrite insert_app_r_alt by (by rewrite length_map). rewrite length_map, Nat.sub_diag. by rewrite <- app_assoc.
Qed.

Lemma arg_cells_length l : (length l <= 64)%nat -> length (arg_cells l) = 64%nat.
Proof. intros Hl. unfold arg_cells. rewrite length_map, length_app, length_replicate. lia. Qed.

Definition copy_e : cstmt := Assign (At "cargs" (Var "j")) (At "stack" (Bin Plus (Bin Sub sp (Var "np")) (Var "j"))).

Lemma copy_turn fr n j s : copying fr n j s -> frame_ok fr -> (j < n <= length (stack fr))%nat -> (n <= 64)%nat ->
  exists s', exec h call copy_e s = Go s' /\ exists t v s'', eval h (PostInc "j") s' = Some (t, v, s'') /\ copying fr n (S j) s''.
Proof.
  intros Hy Hf Hn H64. destruct (lookup_lt_is_Some_2 (rev (take n (stack fr))) j) as [v Hv]; [rewrite length_rev, length_take; lia|].
  pose proof (eval_arg _ _ _ _ _ Hy Hf Hn Hv) as E1. destruct Hy as [Hs Hnp Hj Hc]. pose proof (eval_var h _ _ _ _ Hj) as E2.
  assert (length (take j (rev (take n (stack fr)))) = j) as Hlj by (rewrite length_take, length_rev, length_take; lia).
  assert (in_i64 v) as Hv64.
  { apply (Forall_elem _ _ _ (ok_stack _ Hf)). apply list_elem_of_lookup_2 in Hv. apply list_elem_of_In, in_rev, list_elem_of_In in Hv.
    apply list_elem_of_lookup in Hv as [k Hk]. apply lookup_take_Some in Hk as [Hk _]. by eapply list_elem_of_lookup_2. }
  eexists. split.
  - unfold copy_e. cbn [exec]. rewrite E1. cbn [mbind option_bind go].
    rewrite (store_at _ _ s _ _ _ _ v Hc E2) by (rewrite arg_cells_length by lia; lia). cbn [cvt]. rewrite (i64_id v Hv64), Nat2Z.id. reflexivity.
  - do 3 eexists. split.
    + cbn [eval]. rewrite cset_other, Hj by done. destruct (size_op j 0) as (_ & _ & ->); [lia..|]. cbn [mbind option_bind snd cvt].
      rewrite u64_id by (unfold in_u64, two64; lia). reflexivity.
    + constructor.
      * by apply holds_temp; [apply holds_temp|].
      * by rewrite !cset_other.
      * rewrite cset_this. by replace (Z.of_nat (S j)) with (Z.of_nat j + 1) by lia.
      * rewrite cset_other, cset_this by done. rewrite (take_S_r _ _ v) by done. rewrite <- arg_cells_snoc by lia. by rewrite Hlj.
Qed.

Lemma copy_loop fr n : frame_ok fr -> (n <= length (stack fr))%nat -> (n <= 64)%nat ->
  forall k j s, copying fr n j s -> (j <= n)%nat -> (n - j < k)%nat ->
  exists s', turns h "j" (Bin AndAnd (Bin Less (Var "j") (Var "np")) (Bin Less (Var "j") (int 64))) (exec h call copy_e) k s = Go s' /\ copying fr n n s'.
Proof.
  intros Hf Hn H64. induction k as [|k IH]; intros j s Hy Hj Hk; [lia|]. cbn [turns]. rewrite (more_args fr n j s Hy) by lia.
  destruct (Nat.ltb_spec j n) as [Hlt|Hge]; cbn [truth Z.eqb].
  - destruct (copy_turn fr n j s Hy Hf) as (s1 & -> & t & v & s2 & -> & Hy2); [lia..|]. apply (IH (S j)); [done|lia..].
  - exists s. replace j with n in Hy by lia. done.
Qed.

Lemma declare_args fr s n : holds arrs fr s -> (n <= 64)%nat ->
  exists s', exec h call (Decl TSize "np" (Some (int (Z.of_nat n)));; DeclArr TI64 "cargs" 64 true)%c s = Go s' /\ holds arrs fr s' /\
    copying fr n 0 (cset "j" (Some (Sc TSize (Some 0))) s').
Proof.
  intros Hs Hn. eexists. split; [|split].
  - rewrite (exec_seq _ _ _ _ (exec_decl TSize "np" _ _ _ _ _ (eval_int (Z.of_nat n) s ltac:(lia)))). cbn [exec cvt].
    rewrite u64_id by (unfold in_u64, two64; lia). reflexivity.
  - repeat (apply holds_temp; [|reflexivity]). exact Hs.
  - constructor; [|reflexivity..].
    repeat (apply holds_temp; [|reflexivity]). exact Hs.
Qed.

Lemma exec_call_s fr g s r : holds arrs fr s -> frame_ok fr -> (nparams g <= length (stack fr))%nat -> (nparams g <= 64)%nat -> in_i64 r ->
  (length (stack fr) - nparams g < LIN_VM_MAX_STACK)%nat ->
  call (fn_symbol g) (arg_cells (rev (take (nparams g) (stack fr)))) = CVal r ->
  exists s', exec h call (call_s g) s = Go s' /\ holds arrs (with_stack fr (r :: drop (nparams g) (stack fr))) s'.
Proof.
  intros Hs Hf Hn H64 Hr Hroom Hc. set (n := nparams g) in *. destruct (declare_args fr s n Hs H64) as (s1 & E1 & H1 & Hy).
  destruct (copy_loop fr n Hf Hn H64 LOOP_FUEL 0 _ Hy) as (s2 & E2 & Hy2); [lia|unfold LOOP_FUEL; lia|].
  set (s3 := cset "j" (s1 "j"%string) s2). assert (holds arrs fr s3) as H3 by (apply holds_temp; [apply Hy2|done]).
  assert (s3 "np"%string = Some (Sc TSize (Some (Z.of_nat n)))) as Hnp by (unfold s3; rewrite cset_other by done; apply Hy2).
  destruct (exec_sub_sp fr s3 n (Var "np") H3 Hf Hn) as (s4 & E4 & H4 & Ht4); [lia| |].
  { pose proof (eval_var h _ _ _ _ Hnp) as Ev. assert (eval h sp s3 = Some (TSize, Z.of_nat (length (stack fr)), s3)) as Es by (unfold sp; cbn [eval]; by rewrite (h_sp _ _ _ H3)).
    pose proof (ok_sp _ Hf) as Hsp. unfold LIN_VM_MAX_STACK in Hsp. cbn [eval] in *. rewrite Es. cbn [mbind option_bind]. rewrite Ev. cbn [mbind option_bind].
    by destruct (size_op (length (stack fr)) (Z.of_nat n)) as (_ & -> & _); [lia..|]. }
  assert (s4 "cargs"%string = Some (Ar TI64 (arg_cells (rev (take n (stack fr)))))) as Hca.
  { rewrite Ht4 by done. unfold s3. rewrite cset_other by done. rewrite (y_cargs _ _ _ _ Hy2). by rewrite firstn_all2 by (rewrite length_rev, length_take; lia). }
  assert (exec h call (DeclCall TI64 "ret" (fn_symbol g) "cargs") s4 = Go (cset "ret" (Some (Sc TI64 (Some r))) s4)) as E5.
  { cbn [exec]. rewrite Hca, Hc. cbn [cvt]. by rewrite (i64_id r Hr). }
  set (s5 := cset "ret" (Some (Sc TI64 (Some r))) s4) in *. assert (holds arrs (with_stack fr (drop n (stack fr))) s5) as H5 by by apply holds_temp.
  destruct (exec_push h call arrs _ s5 s5 (Var "ret") TI64 r (eval_var h _ _ _ _ (cset_this _ _ _)) H5) as (s6 & E6 & H6 & _);
    [cbn [stack with_stack]; rewrite length_drop; lia|done|].
  apply (exec_block _ _ s s6); [|done|temporaries]. fold n.
  rewrite (exec_seq2 _ _ _ s s1 E1). rewrite (exec_seq _ _ s1 s3) by (change (exec h call (For ?x ?c ?b) s1) with (map_env (cset x (s1 x)) (turns h x c (exec h call b) LOOP_FUEL (cset x (Some (Sc TSize (Some 0))) s1)));
    fold copy_e; by rewrite E2).
  by rewrite (exec_seq _ _ _ _ E4), (exec_seq _ _ _ _ E5).
Qed.
End Instructions.
