(* ===== verification/JitFun.v ===== *)
(** * The functions of the C program compute what the machine returns

    A module that fits the C back end, its decidable conditions, and the lock-step
    proof: instruction by instruction, through the prologue, over a whole run and
    its calls. *)
From stdpp Require Import strings.
From S2P Require Import Prelude Common Region Abi Vm VmSpec VmSafe C0Lex CLang Jit JitProg JitSim.

(** ** Modules that fit *)

Definition jump_op (o : VmOp) : bool :=
  match o with OP_JUMP | OP_JUMP_IF_FALSE | OP_JUMP_IF_FALSE_KEEP | OP_JUMP_IF_TRUE_KEEP => true | _ => false end.

Definition shift_op (o : VmOp) : bool := match o with OP_SHL | OP_SHR | OP_USHR => true | _ => false end.

(** A constant other than INT64_MIN, whose literal C does not have; a jump into
    the code; an array only where the function has arrays; a call of a function
    that is emitted. *)
Definition ins_fits (md : VmModule) (f : VmFn) (i : VmIns) : bool :=
  match op i with
  | OP_PUSH_CONST => negb (a i =? INT64_MIN)
  | OP_JUMP | OP_JUMP_IF_FALSE | OP_JUMP_IF_FALSE_KEEP | OP_JUMP_IF_TRUE_KEEP => (0 <=? a i) && (a i <? Z.of_nat (length (code f)))
  | OP_LOAD_INDEX | OP_STORE_INDEX | OP_ARR_LEN => negb (length (arr_n f) =? 0)%nat
  | OP_CALL => match lookupz (fns md) (u64 (a i)) with Some g => ok g | None => false end
  | OP_ABI_CALL => false
  | _ => true
  end.

(** A shift is by a constant below 64, just pushed, and nothing jumps to it. *)
Definition shift_fits (code : list VmIns) (pc : nat) (i : VmIns) : bool :=
  if shift_op (op i) then
    match pc with
    | O => false
    | S p =>
        match code !! p with
        | Some j => bool_decide (op j = OP_PUSH_CONST) && (0 <=? a j) && (a j <? 64)
        | None => false
        end
    end && forallb (fun j => negb (jump_op (op j) && (a j =? Z.of_nat pc))) code
  else true.

Definition ends_fit (code : list VmIns) : bool :=
  match code !! (length code - 1)%nat with Some i => bool_decide (op i = OP_RET) || bool_decide (op i = OP_JUMP) | None => false end.

Definition fn_fits (md : VmModule) (f : VmFn) : bool :=
  forallb (ins_fits md f) (code f) && forallb (fun b => b) (imap (shift_fits (code f)) (code f)) && ends_fit (code f) &&
  (Z.of_nat (length (code f)) <? two32).

Definition emitted (md : VmModule) : list VmFn := List.filter ok (fns md).

(** And distinct names after sanitising. *)
Definition module_fits (md : VmModule) : bool :=
  forallb (fn_fits md) (emitted md) && bool_decide (NoDup (map fn_symbol (emitted md))).

Lemma emitted_elem md f : f ∈ emitted md <-> f ∈ fns md /\ ok f = true.
Proof. unfold emitted. rewrite !list_elem_of_In. apply filter_In. Qed.

Record fits (md : VmModule) (f : VmFn) : Prop := {
  fit_ins : forall pc i, code f !! pc = Some i -> ins_fits md f i = true;
  fit_shift : forall pc i, code f !! pc = Some i -> shift_fits (code f) pc i = true;
  fit_end : ends_fit (code f) = true;
  fit_len : Z.of_nat (length (code f)) < two32
}.

Lemma module_fits_spec md : module_fits md = true -> NoDup (map fn_symbol (emitted md)) /\ forall f, f ∈ emitted md -> fits md f.
Proof.
  unfold module_fits. intros [Hf Hn]%andb_true_iff. split; [by apply bool_decide_eq_true in Hn|]. intros f Hin.
  rewrite forallb_forall in Hf. apply list_elem_of_In, Hf in Hin. unfold fn_fits in Hin.
  apply andb_true_iff in Hin as [Hin Hlen]. apply andb_true_iff in Hin as [Hin He]. apply andb_true_iff in Hin as [Hi Hs].
  rewrite forallb_forall in Hi, Hs. constructor; [| |done|by apply Z.ltb_lt].
  - intros pc i Hpc. apply Hi, list_elem_of_In. by eapply list_elem_of_lookup_2.
  - intros pc i Hpc. apply (Hs (shift_fits (code f) pc i)), list_elem_of_In. apply (list_elem_of_lookup_2 _ pc). by rewrite list_lookup_imap, Hpc.
Qed.

(** ** One instruction *)

(** The amount of the shift that is next is on top. *)
Definition shift_ready (f : VmFn) (pc : Z) (fr : VmFrame) : Prop :=
  forall i, lookupz (code f) pc = Some i -> shift_op (op i) = true -> exists c st, stack fr = c :: st /\ 0 <= c < 64.

Definition has_arrays (f : VmFn) : bool := negb (length (arr_n f) =? 0)%nat.

Section Step.
Context (h : string -> Z -> Z -> option Z) (Hh : helpers_ok h) (call : list Z -> list (option Z) -> cres).
Context (ctx : LinVmContext) (Habi : c_abi ctx = None) (Hsafe : module_safe (c_module ctx)).
Context (f : VmFn) (Hin : f ∈ emitted (c_module ctx)) (Hfits : fits (c_module ctx) f).
Local Abbreviation md := (c_module ctx).

Lemma f_safe : fn_safe f.
Proof. apply emitted_elem in Hin as [Hf _]. by apply (Forall_elem _ _ _ Hsafe). Qed.

Lemma ins_at pc i : lookupz (code f) pc = Some i -> ins_safe i /\ ins_fits md f i = true.
Proof.
  intros Hi. split.
  - apply (Forall_elem _ _ _ (safe_code _ f_safe)). by eapply lookupz_elem.
  - apply lookupz_Some in Hi as [_ Hi]. by eapply (fit_ins _ _ Hfits).
Qed.

Lemma sim_step fr s pc i act : holds (has_arrays f) fr s -> frame_ok fr -> lookupz (code f) pc = Some i -> shift_ready f pc fr ->
  vm_step ctx i fr = VOk act -> simulates h call (has_arrays f) fr (ins_stmt md i) s i act.
Proof.
  intros Hs Hf Hi Hr Hx. destruct (ins_at pc i Hi) as [[H64 Hl] Hfit]. unfold ins_fits in Hfit. specialize (Hr i Hi).
  assert (uses_local (op i) = true -> local_index i) as Hli by exact Hl.
  destruct (binary_e (op i)) as [e|] eqn:Eb; [apply (sim_binary h Hh call ctx _ fr s i e); try done; by destruct (op i) eqn:Eo; try discriminate Eb; unfold vm_step in Hx; rewrite Eo in Hx|].
  destruct (shift_e (op i)) as [e|] eqn:Es.
  { destruct Hr as (c & st & Est & Hc); [by destruct (op i); try discriminate Es|].
    apply (sim_shift h call ctx _ fr s i e act c st); try done. by destruct (op i) eqn:Eo; try discriminate Es; unfold vm_step in Hx; rewrite Eo in Hx. }
  destruct (op i) eqn:Eo; try discriminate Eb; try discriminate Es; try discriminate Hfit.
  - apply (sim_const h call ctx); try done. by apply negb_true_iff, Z.eqb_neq in Hfit.
  - by apply (sim_load h call ctx); try done; apply Hli.
  - by apply (sim_store h call ctx); try done; apply Hli.
  - apply (sim_units h Hh call ctx); try done. rewrite Eo. member.
  - apply (sim_units h Hh call ctx); try done. rewrite Eo. member.
  - apply (sim_units h Hh call ctx); try done. rewrite Eo. member.
  - apply andb_true_iff in Hfit as [H0%Z.leb_le _]. apply (sim_jumps h call ctx); try done. rewrite Eo. member.
  - apply andb_true_iff in Hfit as [H0%Z.leb_le _]. apply (sim_jumps h call ctx); try done. rewrite Eo. member.
  - apply andb_true_iff in Hfit as [H0%Z.leb_le _]. apply (sim_jumps h call ctx); try done. rewrite Eo. member.
  - apply andb_true_iff in Hfit as [H0%Z.leb_le _]. apply (sim_jumps h call ctx); try done. rewrite Eo. member.
  - by apply (sim_pop h call ctx).
  - unfold vm_step in Hx. rewrite Eo in Hx. unfold exec_call in Hx. destruct (lookupz (fns md) _) as [g|]; [|done].
    destruct (_ <? nparams g)%nat; [done|]. by injection Hx as <-.
  - by apply (sim_ret h call ctx).
  - by apply (sim_load_index h call ctx); try done; apply Hli.
  - by apply (sim_store_index h call ctx); try done; apply Hli.
  - by apply (sim_arr_len h call ctx); try done; apply Hli.
Qed.

(** A jump lands in the code, not on a shift; a next instruction that is a shift
    follows the constant it shifts by. *)
Lemma next_ready fr pc i fr' : lookupz (code f) pc = Some i -> vm_step ctx i fr = VOk (A_next fr') -> shift_ready f (pc + 1) fr'.
Proof.
  intros Hi Hx j Hj Hsh. apply lookupz_Some in Hi as [H0 Hi]. apply lookupz_Some in Hj as [_ Hj].
  pose proof (fit_shift _ _ Hfits _ _ Hj) as Hf. unfold shift_fits in Hf. rewrite Hsh in Hf.
  replace (Z.to_nat (pc + 1)) with (S (Z.to_nat pc)) in Hf by lia. rewrite Hi in Hf. apply andb_true_iff in Hf as [Hf _].
  apply andb_true_iff in Hf as [Hf H64%Z.ltb_lt]. apply andb_true_iff in Hf as [Ho%bool_decide_eq_true Hp%Z.leb_le].
  unfold vm_step in Hx. rewrite Ho in Hx. unfold push in Hx. destruct (_ <=? _)%nat; [done|]. injection Hx as <-. by exists (a i), (stack fr).
Qed.

Lemma jump_in pc i : lookupz (code f) pc = Some i -> jump_op (op i) = true ->
  0 <= a i < Z.of_nat (length (code f)) /\ u64 (a i) = a i /\ forall fr, shift_ready f (a i) fr.
Proof.
  intros Hi Hj. destruct (ins_at pc i Hi) as [_ Hfit]. unfold ins_fits in Hfit.
  assert (0 <= a i < Z.of_nat (length (code f))) as Ha.
  { destruct (op i); try discriminate Hj; apply andb_true_iff in Hfit as [?%Z.leb_le ?%Z.ltb_lt]; lia. }
  pose proof (fit_len _ _ Hfits) as Hl. unfold two32 in Hl. split_and!; [lia..|apply u64_id; unfold in_u64, two64; lia|].
  intros fr k Hk Hsh. exfalso. apply lookupz_Some in Hk as [_ Hk]. pose proof (fit_shift _ _ Hfits _ _ Hk) as Hf.
  unfold shift_fits in Hf. rewrite Hsh in Hf. apply andb_true_iff in Hf as [_ Hf]. rewrite forallb_forall in Hf.
  pose proof (lookupz_elem _ _ _ Hi) as Hin'. apply list_elem_of_In, Hf in Hin'. by rewrite Hj, Z2Nat.id, Z.eqb_refl in Hin' by lia.
Qed.

Lemma step_jump fr i fr' pc : vm_step ctx i fr = VOk (A_jump fr' pc) -> jump_op (op i) = true /\ pc = u64 (a i).
Proof.
  unfold vm_step. intros Hx. destruct (op i) eqn:Eo; try (by split; [|congruence]);
    try (unfold exec_binop in Hx; rewrite ?Eo in Hx); try (unfold exec_load_index in Hx); try (unfold exec_store_index in Hx);
    try (unfold exec_arr_len in Hx); try (unfold exec_call in Hx); try (unfold exec_abi_call in Hx);
    repeat (match type of Hx with context [match ?m with _ => _ end] => destruct m end; try discriminate Hx); (split; [reflexivity|congruence]).
Qed.
End Step.

(** ** The locals of a new frame *)

(** Whether local [j] gets the slot of an array. *)
Definition slot_local (li : Z) (lens : list Z) (j : nat) : bool :=
  match lookupz lens (Z.of_nat j - li) with Some an => negb (an =? 0) | None => false end.

Lemma slot_local_cons li an lens j : slot_local li (an :: lens) j = if Z.of_nat j =? li then negb (an =? 0) else slot_local (li + 1) lens j.
Proof.
  unfold slot_local. rewrite !lookupz_le. destruct (Z.eqb_spec (Z.of_nat j) li) as [<-|Hne]; [by rewrite Z.sub_diag|].
  destruct (Z.leb_spec 0 (Z.of_nat j - li)), (Z.leb_spec 0 (Z.of_nat j - (li + 1))); try (exfalso; lia); try done.
  by replace (Z.to_nat (Z.of_nat j - li)) with (S (Z.to_nat (Z.of_nat j - (li + 1)))) by lia.
Qed.

Lemma insertz_lookup {A} z (v : A) l l' (j : nat) : insertz z v l = Some l' -> l' !! j = if Z.of_nat j =? z then Some v else l !! j.
Proof.
  intros [Hz ->]%insertz_Some. destruct (Z.eqb_spec (Z.of_nat j) z) as [<-|Hne].
  - rewrite Nat2Z.id. apply list_lookup_insert_eq. lia.
  - apply list_lookup_insert_ne. lia.
Qed.

(** Allocation writes the locals of the arrays and reads none. *)
Lemma alloc_arrays_over lens : forall li ls pl ls' pl', alloc_arrays li lens ls pl = VOk (ls', pl') -> forall ls2, length ls2 = length ls ->
  exists ls2', alloc_arrays li lens ls2 pl = VOk (ls2', pl') /\ length ls2' = length ls2 /\
    forall j, ls2' !! j = (if slot_local li lens j then ls' !! j else ls2 !! j) /\ (slot_local li lens j = false -> ls' !! j = ls !! j).
Proof.
  induction lens as [|an lens IH]; intros li ls pl ls' pl'; cbn [alloc_arrays].
  - intros [= <- <-] ls2 Hl. exists ls2. split_and!; [done..|]. intros j. unfold slot_local. rewrite lookupz_le.
    by destruct (_ <=? _); rewrite ?lookup_nil.
  - destruct (an =? 0) eqn:Ea.
    + intros Hx ls2 Hl. destruct (IH _ _ _ _ _ Hx ls2 Hl) as (ls2' & E & Hl' & Hj). exists ls2'. split_and!; [done..|]. intros j.
      specialize (Hj j). rewrite slot_local_cons, Ea. destruct (Z.eqb_spec (Z.of_nat j) li) as [<-|]; [|done].
      assert (slot_local (Z.of_nat j + 1) lens j = false) as Hs; [|by rewrite Hs in Hj].
      unfold slot_local. rewrite lookupz_le. by destruct (Z.leb_spec 0 (Z.of_nat j - (Z.of_nat j + 1))); [lia|].
    + destruct (_ <=? length pl)%nat; [done|]. destruct (_ <? an); [done|].
      destruct (insertz li (Z.of_nat (length pl)) ls) as [l1|] eqn:E1; [|done]. cbn [deref]. intros Hx ls2 Hl.
      pose proof (proj1 (insertz_Some _ _ _ _) E1) as [Hr _]. pose proof (insertz_length _ _ _ _ E1) as Hl1.
      rewrite (insertz_in ls2) by lia. cbn [deref]. set (l2 := <[Z.to_nat li := _]> ls2).
      assert (insertz li (Z.of_nat (length pl)) ls2 = Some l2) as E2 by (apply insertz_in; lia).
      destruct (IH _ _ _ _ _ Hx l2) as (ls2' & E & Hl' & Hj); [unfold l2; rewrite length_insert; lia|].
      exists ls2'. split_and!; [done|by rewrite Hl'; unfold l2; rewrite length_insert|]. intros j. specialize (Hj j).
      rewrite slot_local_cons, Ea. rewrite (insertz_lookup _ _ _ _ j E1), (insertz_lookup _ _ _ _ j E2) in Hj.
      destruct (Z.of_nat j =? li); [|done]. cbn [negb]. destruct Hj as [H1 H2]. split; [|done].
      destruct (slot_local (li + 1) lens j); [done|]. by rewrite H1, H2.
Qed.

Lemma copy_args_lookup args : forall idx lens ls ls', copy_args idx args lens ls = VOk ls' -> length ls' = length ls /\ forall j : nat,
  ls' !! j = match lookupz args (Z.of_nat j - idx) with
             | Some v => if 0 <? default 0 (lookupz lens (Z.of_nat j - idx)) then ls !! j else Some v
             | None => ls !! j
             end.
Proof.
  induction args as [|v args IH]; intros idx lens ls ls'; cbn [copy_args].
  - intros [= <-]. split; [done|]. intros j. rewrite lookupz_le. by destruct (_ <=? _); rewrite ?lookup_nil.
  - assert (forall j : nat, lookupz (v :: args) (Z.of_nat j - idx) = (if Z.of_nat j =? idx then Some v else lookupz args (Z.of_nat j - (idx + 1))) /\
      default 0 (lookupz lens (Z.of_nat j - idx)) = if Z.of_nat j =? idx then default 0 (head lens) else default 0 (lookupz (tail lens) (Z.of_nat j - (idx + 1)))) as Hc.
    { intros j. rewrite !lookupz_le. destruct (Z.eqb_spec (Z.of_nat j) idx) as [<-|Hne]; [rewrite Z.sub_diag; by destruct lens|].
      destruct (Z.leb_spec 0 (Z.of_nat j - idx)), (Z.leb_spec 0 (Z.of_nat j - (idx + 1))); try (exfalso; lia); try (by destruct lens).
      replace (Z.to_nat (Z.of_nat j - idx)) with (S (Z.to_nat (Z.of_nat j - (idx + 1)))) by lia. by destruct lens. }
    assert (forall k : nat, Z.of_nat k = idx -> lookupz args (Z.of_nat k - (idx + 1)) = None) as Hn.
    { intros k <-. rewrite lookupz_le. by destruct (Z.leb_spec 0 (Z.of_nat k - (Z.of_nat k + 1))); [lia|]. }
    destruct (0 <? default 0 (head lens)) eqn:Eh.
    + intros [Hl Hj]%IH. split; [done|]. intros j. destruct (Hc j) as [-> ->]. rewrite Hj.
      destruct (Z.eqb_spec (Z.of_nat j) idx) as [E|]; [|done]. by rewrite (Hn j E), Eh.
    + destruct (insertz idx v ls) as [l1|] eqn:E1; [|done]. cbn [deref]. intros [Hl Hj]%IH.
      split; [by rewrite Hl, (insertz_length _ _ _ _ E1)|]. intros j. destruct (Hc j) as [-> ->]. rewrite Hj, (insertz_lookup _ _ _ _ j E1).
      destruct (Z.eqb_spec (Z.of_nat j) idx) as [E|]; [|done]. by rewrite (Hn j E), Eh.
Qed.

(** Copying the arguments first and then allocating gives the same frame. *)
Lemma enter_frame_over f args fr : fn_safe f -> length args = nparams f -> enter_frame f args = VOk fr ->
  alloc_arrays 0 (arr_n f) (args ++ replicate (64 - length args) 0) [] = VOk (locals fr, pool fr) /\ stack fr = [].
Proof.
  intros [Hp _ Hn _] Hl. unfold LIN_VM_MAX_LOCALS in Hp. unfold enter_frame.
  destruct (alloc_arrays _ _ _ _) as [[ls pl]| |] eqn:Ea; [|done..]. destruct (copy_args _ _ _ _) as [ls'| |] eqn:Ec; [|done..].
  intros [= <-]. cbn [locals stack pool]. split; [|done].
  destruct (alloc_arrays_over _ _ _ _ _ _ Ea (args ++ replicate (64 - length args) 0)) as (ls2 & E & _ & Hj).
  { rewrite length_app, !length_replicate. unfold LIN_VM_MAX_LOCALS. lia. }
  rewrite E. do 2 f_equal. apply list_eq. intros j. destruct (Hj j) as [-> Hz]. destruct (copy_args_lookup _ _ _ _ _ Ec) as [_ ->].
  clear Hj. rewrite Z.sub_0_r, !lookupz_nat. unfold slot_local in *. rewrite Z.sub_0_r, lookupz_nat in *.
  assert (slot_local 0 (arr_n f) j = (0 <? default 0 (arr_n f !! j))) as Hs.
  { unfold slot_local. rewrite Z.sub_0_r, lookupz_nat. destruct (arr_n f !! j) as [an|] eqn:Ean; [|done]. cbn [default].
    pose proof (Forall_lookup_1 _ _ _ _ Hn Ean) as [H0 _]. unfold id. destruct (Z.eqb_spec an 0), (Z.ltb_spec 0 an); try (exfalso; lia); done. }
  unfold slot_local in Hs. rewrite Z.sub_0_r, lookupz_nat in Hs. rewrite Hs in *.
  destruct (0 <? default 0 (arr_n f !! j)); [by destruct (args !! j)|]. rewrite (Hz eq_refl), lookup_app.
  destruct (args !! j) as [v|] eqn:Eg; [done|]. apply lookup_ge_None in Eg. unfold LIN_VM_MAX_LOCALS.
  destruct (decide (j < 64)%nat).
  - by rewrite !lookup_replicate_2 by lia.
  - rewrite !lookup_ge_None_2 by (rewrite length_replicate; lia). done.
Qed.

(** ** The prologue *)

Definition no_pool : list (list (option Z)) := replicate LIN_VM_MAX_ARRS (replicate LIN_VM_MAX_ARR_LEN (Some 0)).

Section Prologue.
Context (h : string -> Z -> Z -> option Z) (call : list Z -> list (option Z) -> cres).

Lemma exec_seqs b l s s' : exec h call b s = Go s' -> exec h call (seqs (b :: l)) s = exec h call (seqs l) s'.
Proof. intros E. cbn [seqs fold_right exec]. by rewrite E. Qed.

Lemma exec_decl0 t x b s : exec h call (Decl t x (Some (int 0));; b)%c s = exec h call b (cset x (Some (Sc t (Some (cvt t 0)))) s).
Proof. reflexivity. Qed.

(** The first [p] arguments are in the locals. *)
Lemma exec_copies vals k : forall p s, length vals = 64%nat -> Forall in_i64 vals -> (p + k <= 64)%nat ->
  s "args"%string = Some (Ar TI64 (map Some vals)) -> holds false (mkFrame (take p vals ++ replicate (64 - p) 0) [] []) s ->
  exists s', exec h call (seqs (map copy_arg (seq p k))) s = Go s' /\ holds false (mkFrame (take (p + k) vals ++ replicate (64 - (p + k)) 0) [] []) s'.
Proof.
  induction k as [|k IH]; intros p s Hl Hv Hp Ha Hs; [rewrite Nat.add_0_r; by exists s|]. cbn [seq map].
  destruct (lookup_lt_is_Some_2 vals p) as [v Hlv]; [lia|].
  assert (eval h (At "args" (int (Z.of_nat p))) s = Some (TI64, v, s)) as E.
  { rewrite (eval_at h _ _ s _ _ _ _ Ha (eval_int h (Z.of_nat p) s ltac:(lia))), lookupz_nat, list_lookup_fmap, Hlv. done. }
  destruct (store_local h _ _ s (Z.of_nat p) v Hs) as (s' & Est & Hs' & Ho).
  { cbn [locals]. rewrite length_app, length_take, length_replicate. unfold LIN_VM_MAX_LOCALS. lia. }
  { unfold LIN_VM_MAX_LOCALS. lia. }
  { by apply (Forall_lookup_1 _ _ _ _ Hv Hlv). }
  assert (exec h call (copy_arg p) s = Go s') as Ec by (unfold copy_arg; cbn [exec]; rewrite E; cbn [mbind option_bind]; by rewrite Est).
  rewrite (exec_seqs _ _ _ _ Ec). replace (p + S k)%nat with (S p + k)%nat by lia. apply (IH (S p) s' Hl Hv); [lia|by rewrite Ho|].
  cbn [locals stack pool] in Hs'. rewrite Nat2Z.id in Hs'.
  assert (<[p := v]> (take p vals ++ replicate (64 - p) 0) = take (S p) vals ++ replicate (64 - S p) 0) as <-; [|done].
  rewrite insert_app_r_alt by (rewrite length_take; lia). rewrite length_take. replace (p - _)%nat with O by lia.
  replace (64 - p)%nat with (S (64 - S p)) by lia. cbn [replicate]. rewrite (take_S_r _ _ v Hlv). by rewrite <- app_assoc.
Qed.

Lemma exec_copy_args args s : (length args <= 64)%nat -> Forall in_i64 args -> s "args"%string = Some (Ar TI64 (arg_cells args)) ->
  holds false (mkFrame (replicate 64 0) [] []) s ->
  exists s', exec h call (copy_args_s (length args)) s = Go s' /\ holds false (mkFrame (args ++ replicate (64 - length args) 0) [] []) s'.
Proof.
  intros Hn Hi Ha Hs. unfold copy_args_s. destruct (Nat.eqb_spec (length args) 0) as [E0|_].
  { apply nil_length_inv in E0 as ->. by exists s. }
  destruct (exec_copies (args ++ replicate (64 - length args) 0) (length args) 0 s) as (s' & E & Hs'); [|..|done|done|].
  { rewrite length_app, length_replicate. lia. }
  { apply Forall_app. split; [done|]. apply Forall_replicate, in_i64_small. lia. }
  { lia. }
  cbn [plus] in Hs'. rewrite take_app_length in Hs'. exists (leave (seqs (map copy_arg (seq 0 (length args)))) s s'). split.
  - cbn [exec]. rewrite Ha, Nat.min_l by done. by rewrite E.
  - apply holds_leave; [done|]. intros x _. clear. induction (seq 0 (length args)) as [|p l IH]; [done|exact IH].
Qed.

(** Arrays of zeros, [pool_used] of them. *)
Record allocating (ls : list Z) (pl : list (list Z)) (s : cenv) : Prop := {
  al_frame : holds true (mkFrame ls [] pl) s;
  al_used : s "pool_used"%string = Some (Sc TSize (Some (Z.of_nat (length pl))));
  al_pool : s "pool"%string = Some (Ar2 TI64 no_pool)
}.

Lemma allocating_ext ls pl s s' : allocating ls pl s -> (forall x, String.eqb x "slot" = false -> s' x = s x) -> allocating ls pl s'.
Proof.
  intros [Hf Hu Hp] He. constructor; [|by rewrite He..]. apply (holds_ext _ _ s); [done|]. intros x Hx. apply He, frame_var_ne; done.
Qed.

Lemma take_zeros n : (n <= LIN_VM_MAX_ARR_LEN)%nat -> take n (replicate LIN_VM_MAX_ARR_LEN (Some 0)) = map Some (replicate n 0).
Proof. intros Hn. rewrite take_replicate, Nat.min_l by done. clear. by induction n as [|n IH]; [|cbn [replicate map]; rewrite <- IH]. Qed.

(** [size_t slot = pool_used++; pool_len[slot] = an;] *)
Lemma exec_new_len ls pl s an : allocating ls pl s -> (length pl < LIN_VM_MAX_ARRS)%nat -> 0 < an <= Z.of_nat LIN_VM_MAX_ARR_LEN ->
  exists s', exec h call (Decl TSize "slot" (Some (PostInc "pool_used"));; Assign (At "pool_len" (Var "slot")) (int an))%c s = Go s' /\
    allocating ls (pl ++ [replicate (Z.to_nat an) 0]) s' /\ s' "slot"%string = Some (Sc TSize (Some (Z.of_nat (length pl)))).
Proof.
  intros [Hs Hu Hp] Hn Han. unfold LIN_VM_MAX_ARRS, LIN_VM_MAX_ARR_LEN in *. destruct (h_pool _ _ _ Hs eq_refl) as (rows & lens & Hr & Hl & _ & Hnl & Hi).
  assert (rows = no_pool) as -> by congruence. unfold LIN_VM_MAX_ARRS in Hnl.
  set (s1 := cset "pool_used" (Some (Sc TSize (Some (Z.of_nat (S (length pl)))))) s). set (s2 := cset "slot" (Some (Sc TSize (Some (Z.of_nat (length pl))))) s1).
  assert (exec h call (Decl TSize "slot" (Some (PostInc "pool_used"))) s = Go s2) as E1.
  { cbn [exec eval]. rewrite Hu. destruct (size_op (length pl) 0) as (_ & _ & ->); [lia..|]. cbn [mbind option_bind snd go cvt].
    rewrite !u64_id by (unfold in_u64, two64; lia). by replace (Z.of_nat (length pl) + 1) with (Z.of_nat (S (length pl))) by lia. }
  assert (s2 "pool_len"%string = Some (Ar TU16 lens)) as Hl2 by exact Hl. assert (u16 an = an) as Hu16 by (unfold u16, two16; rewrite Z.mod_small; lia).
  exists (cset "pool_len" (Some (Ar TU16 (<[length pl := Some an]> lens))) s2). split; [|split; [|reflexivity]].
  - rewrite (exec_seq _ _ _ _ _ _ E1).
    assert (exec h call (Assign (At "pool_len" (Var "slot")) (int an)) s2 = go (store h (At "pool_len" (Var "slot")) an s2)) as ->.
    { pose proof (eval_int h an s2 ltac:(lia)) as E. cbn [exec]. by rewrite E. }
    rewrite (store_at h _ _ s2 _ _ TSize (Z.of_nat (length pl)) an Hl2) by (done || lia). cbn [cvt]. by rewrite Hu16, Nat2Z.id.
  - constructor; [|rewrite length_app, Nat.add_1_r; reflexivity|exact Hp]. destruct Hs as [Hls Hsp Hst _]. constructor; [exact Hls|exact Hsp|exact Hst|].
    intros _. exists no_pool, (<[length pl := Some an]> lens). split_and!; [exact Hp|apply cset_this|apply length_replicate|by rewrite length_insert|].
    intros i H8. destruct (Hi i H8) as (row & Hri & Hlr & Hc). exists row. split_and!; [done..|]. cbn [pool] in *.
    unfold no_pool in Hri. rewrite lookup_replicate_2 in Hri by done. injection Hri as <-. destruct (decide (i = length pl)) as [->|Hne].
    + rewrite lookup_app_r, Nat.sub_diag, list_lookup_insert_eq by lia. cbn [lookup list_lookup]. rewrite length_replicate, Z2Nat.id by lia.
      split; [done|]. apply take_zeros. unfold LIN_VM_MAX_ARR_LEN. lia.
    + rewrite list_lookup_insert_ne by done. destruct (decide (i < length pl)%nat); [by rewrite lookup_app_l by lia|].
      rewrite lookup_ge_None_2 in Hc by lia. rewrite lookup_ge_None_2; [done|]. rewrite length_app. cbn [length]. lia.
Qed.

Lemma exec_array ls pl s li an ls' : allocating ls pl s -> length ls = LIN_VM_MAX_LOCALS -> (length pl < LIN_VM_MAX_ARRS)%nat ->
  0 < an <= Z.of_nat LIN_VM_MAX_ARR_LEN -> insertz (Z.of_nat li) (Z.of_nat (length pl)) ls = Some ls' ->
  exists s', exec h call (array_s li an) s = Go s' /\ allocating ls' (pl ++ [replicate (Z.to_nat an) 0]) s'.
Proof.
  intros Ha Hl Hn Han [Hr ->]%insertz_Some. destruct (exec_new_len _ _ _ _ Ha Hn Han) as (s1 & E1 & Ha1 & Hsl). unfold LIN_VM_MAX_ARRS in Hn.
  destruct (store_local h true _ s1 (Z.of_nat li) (Z.of_nat (length pl)) (al_frame _ _ _ Ha1) Hl) as (s2 & E2 & Hs2 & Ho); [lia|apply in_i64_small; lia|].
  assert (exec h call (Assign (local_e (Z.of_nat li)) (Cast TI64 (Var "slot"))) s1 = Go s2) as E3.
  { pose proof (eval_var h _ _ _ _ Hsl) as Ev. cbn [exec eval] in *. rewrite Ev. cbn [mbind option_bind cvt].
    rewrite i64_id by (apply in_i64_small; lia). by rewrite E2. }
  set (b := (Decl TSize "slot" (Some (PostInc "pool_used"));; Assign (At "pool_len" (Var "slot")) (int an);;
    Assign (local_e (Z.of_nat li)) (Cast TI64 (Var "slot")))%c).
  exists (leave b s s2). split.
  - unfold array_s. rewrite (proj2 (Z.ltb_lt 0 an)) by lia.
    assert (eval h (Bin Less (Var "pool_used") (int 8)) s = Some (TI32, 1, s)) as E0.
    { pose proof (eval_var h _ _ _ _ (al_used _ _ _ Ha)) as Ev.
      rewrite (size_cmp h s _ _ (length pl) 8 TI32 Ev (eval_int h 8 s ltac:(lia))) by (lia || by right). by rewrite (proj2 (Nat.ltb_lt _ _)). }
    change (exec h call (If ?c (Block ?d)) s) with (match eval h c s with Some (_, v, s) => if v =? 0 then Go s else map_env (leave d s) (exec h call d s) | None => Bad end).
    rewrite E0. cbn [Z.eqb]. by rewrite (exec_seq2 _ _ _ _ _ _ _ E1), E3.
  - assert (allocating (<[Z.to_nat (Z.of_nat li) := Z.of_nat (length pl)]> ls) (pl ++ [replicate (Z.to_nat an) 0]) s2) as Ha2.
    { constructor; [exact Hs2|rewrite Ho by done; apply Ha1|rewrite Ho by done; apply Ha1]. }
    apply (allocating_ext _ _ s2 _ Ha2). intros x Hx. unfold leave, b. cbn [declares]. by rewrite Hx.
Qed.

Lemma exec_arrays lens : forall li ls pl s ls' pl', allocating ls pl s -> length ls = LIN_VM_MAX_LOCALS ->
  Forall (fun n => 0 <= n <= Z.of_nat LIN_VM_MAX_ARR_LEN) lens -> alloc_arrays (Z.of_nat li) lens ls pl = VOk (ls', pl') ->
  exists s', exec h call (seqs (imap (fun k => array_s (li + k)) lens)) s = Go s' /\ allocating ls' pl' s'.
Proof.
  induction lens as [|an lens IH]; intros li ls pl s ls' pl' Ha Hl Hn; cbn [alloc_arrays]; [intros [= <- <-]; by exists s|].
  apply Forall_cons_1 in Hn as [Han Hn]. cbn [imap]. rewrite Nat.add_0_r.
  assert (imap ((fun k => array_s (li + k)) ∘ S) lens = imap (fun k => array_s (S li + k)) lens) as ->.
  { apply imap_ext. intros k x _. unfold compose. by rewrite Nat.add_succ_r. }
  replace (Z.of_nat li + 1) with (Z.of_nat (S li)) by lia. destruct (Z.eqb_spec an 0) as [->|Hne].
  - intros Hx. assert (exec h call (array_s li 0) s = Go s) as E by reflexivity. rewrite (exec_seqs _ _ _ _ E). by apply (IH _ ls pl).
  - destruct (Nat.leb_spec LIN_VM_MAX_ARRS (length pl)); [done|]. destruct (Z.ltb_spec (Z.of_nat LIN_VM_MAX_ARR_LEN) an); [done|].
    destruct (insertz _ _ ls) as [l1|] eqn:Ei; [|done]. cbn [deref]. intros Hx.
    destruct (exec_array ls pl s li an l1 Ha Hl) as (s1 & E & Ha1); [done|lia|done|]. rewrite (exec_seqs _ _ _ _ E).
    apply (IH _ l1 (pl ++ [replicate (Z.to_nat an) 0])); try done. by rewrite (insertz_length _ _ _ _ Ei).
Qed.

Lemma holds_start vals s : s = cset "sp" (Some (Sc TSize (Some 0))) (cset "stack" (Some (Ar TI64 (replicate 256 None)))
    (cset "locals" (Some (Ar TI64 (replicate 64 (Some 0)))) (cset "args" (Some (Ar TI64 vals)) empty_env))) ->
  holds false (mkFrame (replicate 64 0) [] []) s /\ s "args"%string = Some (Ar TI64 vals).
Proof.
  intros ->. split; [|reflexivity]. constructor; [reflexivity|reflexivity| |discriminate]. eexists. split; [reflexivity|].
  split; [apply length_replicate|reflexivity].
Qed.

Lemma allocating_start ls s : holds false (mkFrame ls [] []) s ->
  allocating ls [] (cset "pool_used" (Some (Sc TSize (Some 0))) (cset "pool_len" (Some (Ar TU16 (replicate 8 (Some 0))))
    (cset "pool" (Some (Ar2 TI64 (replicate 8 (replicate 256 (Some 0))))) s))).
Proof.
  intros [Hl Hs Hk _]. constructor; [|reflexivity..]. constructor; [exact Hl|exact Hs|exact Hk|]. intros _. exists no_pool, (replicate 8 (Some 0)).
  split_and!; [reflexivity..|]. intros i Hi. exists (replicate LIN_VM_MAX_ARR_LEN (Some 0)). split_and!.
  - unfold no_pool. by apply lookup_replicate_2.
  - apply length_replicate.
  - cbn [pool]. rewrite lookup_nil. by apply lookup_replicate_2.
Qed.

Lemma exec_prologue f args fr : fn_safe f -> length args = nparams f -> Forall in_i64 args -> enter_frame f args = VOk fr ->
  exists s, exec h call (prologue f) (cset "args" (Some (Ar TI64 (arg_cells args))) empty_env) = Go s /\ holds (has_arrays f) fr s.
Proof.
  intros Hf Hl Hi Hx. pose proof (safe_params _ Hf) as Hp. unfold LIN_VM_MAX_LOCALS in Hp. destruct (enter_frame_over f args fr Hf Hl Hx) as [Ha Hst].
  destruct (holds_start (arg_cells args) _ eq_refl) as [Hs0 Hargs]. destruct (exec_copy_args args _ ltac:(lia) Hi Hargs Hs0) as (s1 & E1 & H1).
  unfold prologue. rewrite (exec_seq _ _ (DeclArr TI64 "locals" 64 true) _ _ _ eq_refl), (exec_seq _ _ (DeclArr TI64 "stack" 256 false) _ _ _ eq_refl).
  rewrite exec_decl0. change (cvt TSize 0) with 0. rewrite <- Hl. rewrite (exec_seq _ _ _ _ _ _ E1).
  unfold arrays_s, has_arrays. destruct (length (arr_n f) =? 0)%nat eqn:E0; cbn [negb].
  - apply Nat.eqb_eq, nil_length_inv in E0. rewrite E0 in Ha. injection Ha as El Epl. exists s1. split; [done|].
    rewrite El in H1. destruct fr as [ls st pl]. cbn [locals stack pool] in *. by subst.
  - rewrite (exec_seq _ _ (DeclArr2 TI64 "pool" 8 256) _ _ _ eq_refl), (exec_seq _ _ (DeclArr TU16 "pool_len" 8 true) _ _ _ eq_refl).
    rewrite exec_decl0. change (cvt TSize 0) with 0.
    destruct (exec_arrays (arr_n f) 0 _ [] _ (locals fr) (pool fr) (allocating_start _ _ H1)) as (s2 & E2 & H2); [|apply Hf|exact Ha|].
    { rewrite length_app, length_replicate. unfold LIN_VM_MAX_LOCALS. lia. }
    exists s2. split; [exact E2|]. destruct fr as [ls st pl]. cbn [locals stack pool] in *. rewrite Hst. apply H2.
Qed.
End Prologue.

(** ** A run *)

Lemma fun_of_emitted md f : NoDup (map fn_symbol (emitted md)) -> f ∈ emitted md -> fun_of (jit_program md) (fn_symbol f) = Some (fn_prog md f).
Proof.
  unfold fun_of, jit_program. cbn [p_funs]. fold (emitted md). generalize (emitted md) as l. induction l as [|g l IH]; intros Hn Hin; [by apply elem_of_nil in Hin|].
  cbn [map] in *. apply list.NoDup_cons in Hn as [Hg Hn]. cbn [List.find fn_prog cf_name]. apply elem_of_cons in Hin as [->|Hin].
  - by rewrite bytes_eqb_refl.
  - assert (bytes_eqb (fn_symbol g) (fn_symbol f) = false) as ->; [|by apply IH]. apply bytes_eqb_neq. intros E. apply Hg. rewrite E.
    apply list_elem_of_In, in_map, list_elem_of_In, Hin.
Qed.

Definition body_tail (md : VmModule) (f : VmFn) (pc : nat) : list cstmt := drop pc (code_items md (code f)) ++ [return_top].

Lemma tail_cons md f pc i : code f !! pc = Some i -> body_tail md f pc = (Label (Z.of_nat pc);; ins_stmt md i)%c :: body_tail md f (S pc).
Proof.
  intros Hi. unfold body_tail, code_items. erewrite drop_S; [reflexivity|]. by rewrite list_lookup_imap, Hi.
Qed.

Lemma from_label_items md l rest : forall k n, (n < length l)%nat ->
  from_label (Z.of_nat (k + n)) (imap (fun j i => Label (Z.of_nat (k + j));; ins_stmt md i)%c l ++ rest) =
  Some (drop n (imap (fun j i => Label (Z.of_nat (k + j));; ins_stmt md i)%c l) ++ rest).
Proof.
  induction l as [|i l IH]; intros k n Hn; cbn [length] in Hn; [lia|]. cbn [imap app from_label]. destruct n as [|n].
  - rewrite Nat.add_0_r, Z.eqb_refl. reflexivity.
  - rewrite (proj2 (Z.eqb_neq _ _)) by lia. cbn [drop].
    assert (imap ((fun j i => Label (Z.of_nat (k + j));; ins_stmt md i)%c ∘ S) l = imap (fun j i => Label (Z.of_nat (S k + j));; ins_stmt md i)%c l) as ->.
    { apply imap_ext. intros j x _. unfold compose. by rewrite Nat.add_succ_r. }
    replace (k + S n)%nat with (S k + n)%nat by lia. apply IH. lia.
Qed.

Lemma label_tail md f pc : (pc < length (code f))%nat -> from_label (Z.of_nat pc) (cf_body (fn_prog md f)) = Some (body_tail md f pc).
Proof. exact (from_label_items md (code f) [return_top] 0 pc). Qed.

Section Run.
Context (md : VmModule) (Hsafe : module_safe md) (Hfit : module_fits md = true).

Definition loop_agrees (n : nat) : Prop :=
  forall ctx f depth fr pc steps r st s, c_module ctx = md -> c_abi ctx = None -> f ∈ emitted md -> frame_ok fr -> holds (has_arrays f) fr s ->
    0 <= pc < Z.of_nat (length (code f)) -> shift_ready f pc fr -> vm_loop n ctx f depth fr pc steps = Some (V_ok r st) ->
    in_i64 (val r) /\ forall k m, (n <= k)%nat -> (n <= m)%nat ->
      run_items (helpers_of (jit_program md)) (call_c m (jit_program md)) (cf_body (fn_prog md f)) k (body_tail md f (Z.to_nat pc)) s = CVal (val r).

Definition call_agrees (n : nat) : Prop :=
  forall ctx fi args depth steps r st f, c_module ctx = md -> c_abi ctx = None -> Forall in_i64 args -> lookupz (fns md) fi = Some f ->
    vm_exec_ctx n ctx fi args depth steps = Some (V_ok r st) ->
    in_i64 (val r) /\ forall m, (n < m)%nat -> call_c m (jit_program md) (fn_symbol f) (arg_cells args) = CVal (val r).

Lemma fits_of f : f ∈ emitted md -> fits md f.
Proof. apply module_fits_spec, Hfit. Qed.

(** Only a jump or a return is last. *)
Lemma next_in ctx f pc i fr : c_module ctx = md -> f ∈ emitted md -> lookupz (code f) pc = Some i ->
  ((exists fr', vm_step ctx i fr = VOk (A_next fr')) \/ op i = OP_CALL) -> pc + 1 < Z.of_nat (length (code f)).
Proof.
  intros Hc Hf Hi Ha. pose proof (lookupz_range _ _ _ Hi) as Hr. destruct (decide (pc + 1 = Z.of_nat (length (code f)))) as [E|]; [|lia]. exfalso.
  pose proof (fit_end _ _ (fits_of f Hf)) as He. unfold ends_fit in He. replace (length (code f) - 1)%nat with (Z.to_nat pc) in He by lia.
  apply lookupz_Some in Hi as [_ Hi]. rewrite Hi in He. unfold vm_step, pop in Ha.
  apply orb_true_iff in He as [He%bool_decide_eq_true|He%bool_decide_eq_true]; rewrite He in Ha; destruct Ha as [[fr' Ha]|Ha]; try discriminate Ha.
  by destruct (stack fr).
Qed.

Lemma step_call ctx i fr ti args fr' : vm_step ctx i fr = VOk (A_call ti args fr') ->
  op i = OP_CALL /\ exists g, lookupz (fns (c_module ctx)) (u64 (a i)) = Some g /\ ti = u64 (a i) /\ (nparams g <= length (stack fr))%nat /\
    args = rev (take (nparams g) (stack fr)) /\ fr' = with_stack fr (drop (nparams g) (stack fr)).
Proof.
  unfold vm_step. intros Hx. destruct (op i) eqn:Eo;
    try (unfold exec_binop in Hx; rewrite ?Eo in Hx); try (unfold exec_load_index in Hx); try (unfold exec_store_index in Hx);
    try (unfold exec_arr_len in Hx); try (unfold exec_abi_call in Hx); try discriminate Hx;
    try (repeat (match type of Hx with context [match ?m with _ => _ end] => destruct m end; try discriminate Hx); fail).
  split; [done|]. unfold exec_call in Hx. destruct (lookupz (fns (c_module ctx)) (u64 (a i))) as [g|]; [|done]. exists g.
  destruct (Nat.ltb_spec (length (stack fr)) (nparams g)); [done|]. by injection Hx as <- <- <-.
Qed.

Lemma run_go k m f pc i s s' : lookupz (code f) pc = Some i ->
  exec (helpers_of (jit_program md)) (call_c m (jit_program md)) (ins_stmt md i) s = Go s' ->
  run_items (helpers_of (jit_program md)) (call_c m (jit_program md)) (cf_body (fn_prog md f)) (S k) (body_tail md f (Z.to_nat pc)) s =
  run_items (helpers_of (jit_program md)) (call_c m (jit_program md)) (cf_body (fn_prog md f)) k (body_tail md f (Z.to_nat (pc + 1))) s'.
Proof.
  intros Hi E. apply lookupz_Some in Hi as [H0 Hi]. rewrite (tail_cons md f _ i Hi). replace (Z.to_nat (pc + 1)) with (S (Z.to_nat pc)) by lia.
  cbn [run_items exec]. by rewrite E.
Qed.

Lemma run_jump k m f pc i s s' n : lookupz (code f) pc = Some i -> (n < length (code f))%nat ->
  exec (helpers_of (jit_program md)) (call_c m (jit_program md)) (ins_stmt md i) s = Jump (Z.of_nat n) s' ->
  run_items (helpers_of (jit_program md)) (call_c m (jit_program md)) (cf_body (fn_prog md f)) (S k) (body_tail md f (Z.to_nat pc)) s =
  run_items (helpers_of (jit_program md)) (call_c m (jit_program md)) (cf_body (fn_prog md f)) k (body_tail md f n) s'.
Proof.
  intros Hi Hn E. apply lookupz_Some in Hi as [H0 Hi]. rewrite (tail_cons md f _ i Hi).
  cbn [run_items exec]. rewrite E. by rewrite label_tail.
Qed.

Lemma run_ret k m f pc i s v : lookupz (code f) pc = Some i ->
  exec (helpers_of (jit_program md)) (call_c m (jit_program md)) (ins_stmt md i) s = Ret v ->
  run_items (helpers_of (jit_program md)) (call_c m (jit_program md)) (cf_body (fn_prog md f)) (S k) (body_tail md f (Z.to_nat pc)) s = CVal v.
Proof. intros Hi E. apply lookupz_Some in Hi as [H0 Hi]. rewrite (tail_cons md f _ i Hi). cbn [run_items exec]. by rewrite E. Qed.

Definition returns (f : VmFn) (n : nat) (pc : Z) (s : cenv) (v : Z) : Prop :=
  in_i64 v /\ forall k m, (n <= k)%nat -> (n <= m)%nat ->
    run_items (helpers_of (jit_program md)) (call_c m (jit_program md)) (cf_body (fn_prog md f)) k (body_tail md f (Z.to_nat pc)) s = CVal v.

(** A statement that goes on, whatever the fuel of the calls. *)
Lemma returns_go f n pc i s v (P : cenv -> Prop) : lookupz (code f) pc = Some i ->
  (forall m, (n < m)%nat -> exists s', exec (helpers_of (jit_program md)) (call_c m (jit_program md)) (ins_stmt md i) s = Go s' /\ P s') ->
  (forall s', P s' -> returns f n (pc + 1) s' v) -> returns f (S n) pc s v.
Proof.
  intros Hi He Hp. split.
  - destruct (He (S n) ltac:(lia)) as (s' & _ & Hs'). by destruct (Hp s' Hs').
  - intros [|k] m Hk Hm; [lia|]. destruct (He m ltac:(lia)) as (s' & E & Hs'). rewrite (run_go k m f pc i s s' Hi E). apply (Hp s' Hs'); lia.
Qed.

Lemma returns_jump f n pc i s v (P : cenv -> Prop) : lookupz (code f) pc = Some i -> 0 <= a i < Z.of_nat (length (code f)) ->
  (forall m, exists s', exec (helpers_of (jit_program md)) (call_c m (jit_program md)) (ins_stmt md i) s = Jump (a i) s' /\ P s') ->
  (forall s', P s' -> returns f n (a i) s' v) -> returns f (S n) pc s v.
Proof.
  intros Hi Ha He Hp. split.
  - destruct (He n) as (s' & _ & Hs'). by destruct (Hp s' Hs').
  - intros [|k] m Hk Hm; [lia|]. destruct (He m) as (s' & E & Hs'). rewrite <- (Z2Nat.id (a i)) in E by lia.
    rewrite (run_jump k m f pc i s s' (Z.to_nat (a i)) Hi ltac:(lia) E). apply (Hp s' Hs'); lia.
Qed.

Lemma agree_call_ins n ctx f depth fr pc i ti args fr' steps r st s : loop_agrees n -> call_agrees n ->
  c_module ctx = md -> c_abi ctx = None -> f ∈ emitted md -> frame_ok fr -> holds (has_arrays f) fr s ->
  lookupz (code f) pc = Some i -> vm_step ctx i fr = VOk (A_call ti args fr') ->
  match vm_exec_ctx n ctx ti args (depth + 1) steps with
  | Some (V_ok r steps) =>
      if (LIN_VM_MAX_STACK <=? length (stack fr'))%nat then Some V_ub
      else vm_loop n ctx f depth (with_stack fr' (val r :: stack fr')) (pc + 1) steps
  | other => other
  end = Some (V_ok r st) -> returns f (S n) pc s (val r).
Proof.
  intros IHl IHc Hm Ha Hin Hf Hs Hi E Hx. destruct (step_call _ _ _ _ _ _ E) as (Eo & g & Hg & -> & Hnp & -> & ->).
  pose proof (next_in ctx f pc i fr Hm Hin Hi (or_intror Eo)) as Hn. rewrite Hm in Hg. pose proof (ok_stack _ Hf) as H64.
  assert (Forall in_i64 (rev (take (nparams g) (stack fr)))) as Hargs by (apply Forall_rev, Forall_take, H64).
  destruct (vm_exec_ctx n ctx _ _ _ _) as [[r' st'|e st'|]|] eqn:Ec; try discriminate Hx.
  destruct (IHc _ _ _ _ _ _ _ g Hm Ha Hargs Hg Ec) as [Hr' Hcall].
  destruct (Nat.leb_spec LIN_VM_MAX_STACK (length (stack (with_stack fr (drop (nparams g) (stack fr)))))) as [|Hroom]; [discriminate Hx|].
  cbn [stack with_stack] in Hroom. assert ((nparams g <= 64)%nat) as Hg64.
  { apply (safe_params g), (Forall_elem _ _ _ Hsafe). by eapply lookupz_elem. }
  set (fr1 := with_stack fr (val r' :: drop (nparams g) (stack fr))).
  assert (frame_ok fr1) as Hf1 by (apply frame_stack; [done|cbn [length]; lia|constructor; [done|by apply Forall_drop]]).
  apply (returns_go f n pc i s (val r) (holds (has_arrays f) fr1) Hi).
  - intros m Hm'. apply lookupz_Some in Hi as [_ Hi]. unfold ins_stmt. rewrite Eo, Hg.
    rewrite length_drop in Hroom. apply exec_call_s; try done. by apply Hcall.
  - intros s' Hs'. apply (IHl ctx f depth fr1 (pc + 1) st' r st s'); try done; [pose proof (lookupz_range _ _ _ Hi); lia|].
    intros j Hj Hsh. exfalso. apply lookupz_Some in Hi as [H0 Hi]. apply lookupz_Some in Hj as [_ Hj]. replace (Z.to_nat (pc + 1)) with (S (Z.to_nat pc)) in Hj by lia.
    pose proof (fit_shift _ _ (fits_of f Hin) _ _ Hj) as Hsf. unfold shift_fits in Hsf. rewrite Hsh, Hi in Hsf.
    apply andb_true_iff in Hsf as [Hsf _]. apply andb_true_iff in Hsf as [Hsf _]. apply andb_true_iff in Hsf as [Hsf%bool_decide_eq_true _]. congruence.
Qed.

Lemma agree_loop n : loop_agrees n -> call_agrees n -> loop_agrees (S n).
Proof.
  intros IHl IHc ctx f depth fr pc steps r st s Hm Ha Hin Hf Hs Hpc Hr Hx. cbn [vm_loop] in Hx. pose proof (fits_of f Hin) as Hfi.
  destruct (lookupz_in (code f) pc Hpc) as [i Hi]. rewrite Hi in Hx. destruct (step_limit ctx <? _); [done|].
  assert (forall m act, vm_step ctx i fr = VOk act -> simulates (helpers_of (jit_program md)) (call_c m (jit_program md)) (has_arrays f) fr (ins_stmt md i) s i act) as Hsim.
  { intros m act E. rewrite <- Hm. apply (sim_step _ (helpers_are_ok _) _ ctx) with (pc := pc); rewrite ?Hm; done. }
  assert (ctx_safe ctx) as Hcs by (split; [by rewrite Hm|by rewrite Ha]).
  assert (ins_safe i) as His by (apply (ins_at ctx ltac:(by rewrite Hm) f ltac:(by rewrite Hm) ltac:(by rewrite Hm) pc i Hi)).
  pose proof (vm_step_ok ctx Hcs i His fr Hf) as Hok. change (returns f (S n) pc s (val r)).
  destruct (vm_step ctx i fr) as [[fr'|fr' pc'|r'|ti args fr']| |] eqn:E; try discriminate Hx.
  - pose proof (next_in ctx f pc i fr Hm Hin Hi (or_introl (ex_intro _ _ E))) as Hn.
    apply (returns_go f n pc i s (val r) (holds (has_arrays f) fr') Hi); [intros m _; exact (Hsim m _ eq_refl)|]. intros s' Hs'.
    apply (IHl ctx f depth fr' (pc + 1) (u64 (steps + 1)) r st s' Hm Ha Hin Hok Hs'); [lia| |exact Hx].
    apply (next_ready ctx f) with (i := i) (fr := fr); by rewrite ?Hm.
  - destruct (step_jump ctx Ha fr i fr' pc' E) as [Hj ->]. destruct (jump_in ctx ltac:(by rewrite Hm) f ltac:(by rewrite Hm) ltac:(by rewrite Hm) pc i Hi Hj) as (Hai & Hu & Hrd).
    rewrite Hu in *. apply (returns_jump f n pc i s (val r) (holds (has_arrays f) fr') Hi Hai).
    + intros m. apply (Hsim m _ eq_refl).
    + intros s' Hs'. by apply (IHl ctx f depth fr' (a i) (u64 (steps + 1)) r st s').
  - injection Hx as -> _. split; [apply Hok|]. intros [|k] m Hk Hm'; [lia|]. apply (run_ret k m f pc i s (val r) Hi). exact (Hsim m _ eq_refl).
  - by apply (agree_call_ins n ctx f depth fr pc i ti args fr' (u64 (steps + 1)) r st s).
Qed.

Lemma agree_call n : loop_agrees n -> call_agrees (S n).
Proof.
  intros IHl ctx fi args depth steps r st f Hm Ha Hi Hf Hx. cbn [vm_exec_ctx] in Hx.
  destruct (vm_enter ctx fi args depth) as [g| |] eqn:Ee; [|discriminate Hx..]. apply vm_enter_inv in Ee as (_ & Hg & Hok & Hl).
  rewrite Hm, Hf in Hg. injection Hg as <-. assert (f ∈ emitted md) as Hin by (apply emitted_elem; split; [by eapply lookupz_elem|done]).
  assert (fn_safe f) as Hs by (apply (Forall_elem _ _ _ Hsafe); by eapply lookupz_elem).
  pose proof (enter_frame_ok f args Hs Hl Hi) as Hfr. destruct (enter_frame f args) as [fr| |] eqn:Eef; [|discriminate Hx..].
  assert (0 <= 0 < Z.of_nat (length (code f))) as Hpc.
  { pose proof (fit_end _ _ (fits_of f Hin)) as He. unfold ends_fit in He. destruct (code f); [done|]. cbn [length]. lia. }
  assert (shift_ready f 0 fr) as Hr.
  { intros j Hj Hsh. apply lookupz_Some in Hj as [_ Hj]. pose proof (fit_shift _ _ (fits_of f Hin) _ _ Hj) as Hsf. unfold shift_fits in Hsf. by rewrite Hsh in Hsf. }
  assert (forall m, exists s, exec (helpers_of (jit_program md)) (call_c m (jit_program md)) (prologue f) (cset "args" (Some (Ar TI64 (arg_cells args))) empty_env) = Go s /\
    returns f n 0 s (val r)) as Hp.
  { intros m. destruct (exec_prologue (helpers_of (jit_program md)) (call_c m (jit_program md)) f args fr Hs Hl Hi Eef) as (s & E & Hs').
    exists s. split; [done|]. by apply (IHl (with_frames ctx) f depth fr 0 steps r st s). }
  split; [destruct (Hp 0%nat) as (s & _ & Hv & _); done|]. intros [|[|m]] Hmn; [lia|lia|]. destruct (Hp (S m)) as (s & E & _ & Hrun).
  change (call_c (S (S m)) ?p ?f0 ?vs) with (match fun_of p f0 with
    | Some g => run_items (helpers_of p) (call_c (S m) p) (cf_body g) (S m) (cf_body g) (cset "args" (Some (Ar TI64 vs)) empty_env) | None => CBad end).
  rewrite (fun_of_emitted md f (proj1 (module_fits_spec md Hfit)) Hin). cbn [fn_prog cf_body].
  change (run_items ?h ?c ?b (S m) (?x :: ?l) ?s0) with (match exec h c x s0 with
    | Go s1 => run_items h c b m l s1
    | Jump k s1 => match from_label k b with Some rest => run_items h c b m rest s1 | None => CBad end
    | Ret v => CVal v | Bad => CBad | NoFuel => CFuel end).
  rewrite E. apply Hrun; lia.
Qed.

Lemma agree n : loop_agrees n /\ call_agrees n.
Proof.
  induction n as [|n [IHl IHc]]; [split; intros ?; intros; discriminate|]. split; [by apply agree_loop|by apply agree_call].
Qed.
End Run.
