(* ===== verification/JitEmit.v ===== *)
(** * The text the JIT back end emits

    With memory, the buffer receives every piece in full: no formatted piece is
    cut at 1023 bytes, no byte ends the text early, and the text spells the C
    program of the module. *)
From stdpp Require Import strings.
From S2P Require Import Prelude Common Token Decimal Region Abi Vm VmSafe Sys C0Lex C0LexSpec Cli CliSpec CLang Jit JitProg JitSim JitFun.

(** ** The buffer *)

Definition short (p : piece) : Prop := match p with Printf s => (length s <= 1023)%nat | Puts _ => True end.

Section Emit.
Context `{Env} (Ha : mallocs_succeed).

Lemma sb_ensure_ok l cap n m : exists cap' m', sb_ensure (mkSb (Some l) cap) n m = Val (mkSb (Some l) cap') m'.
Proof.
  unfold sb_ensure. cbn [sb_data sb_cap default id]. destruct (cap <=? _); [|by do 2 eexists].
  destruct (try_malloc_ok m Ha) as [m' E]. unfold mbind, Mem_bind. rewrite E. by do 2 eexists.
Qed.

Lemma sb_append_ok l cap s m : exists cap' m', sb_append (mkSb (Some l) cap) s m = Val (mkSb (Some (l ++ s)) cap') m'.
Proof.
  destruct (sb_ensure_ok l cap (length s) m) as (cap' & m' & E). unfold sb_append, mbind, Mem_bind. rewrite E. by do 2 eexists.
Qed.

Lemma sb_piece_ok l cap p m : short p -> exists cap' m', sb_piece (mkSb (Some l) cap) p m = Val (mkSb (Some (l ++ piece_text p)) cap') m'.
Proof.
  destruct p as [s|s]; cbn [short sb_piece piece_text]; intros Hs; [apply sb_append_ok|]. unfold sb_printf.
  destruct (Nat.eqb_spec (length s) 0) as [E0|_]; [apply nil_length_inv in E0 as ->; rewrite app_nil_r; by do 2 eexists|].
  destruct (Nat.ltb_spec 1024 (length s)) as [|_]; [exfalso; lia|]. destruct (Nat.eqb_spec (length s) 1024) as [|_]; [exfalso; lia|]. apply sb_append_ok.
Qed.

Lemma sb_pieces_ok ps : Forall short ps -> forall l cap m,
  exists cap' m', sb_pieces (mkSb (Some l) cap) ps m = Val (mkSb (Some (l ++ pieces_text ps)) cap') m'.
Proof.
  induction ps as [|p ps IH]; intros Hp l cap m; cbn [sb_pieces]; [unfold pieces_text; rewrite app_nil_r; by do 2 eexists|].
  apply Forall_cons_1 in Hp as [Hp Hps]. destruct (sb_piece_ok l cap p m Hp) as (c1 & m1 & E). unfold mbind, Mem_bind. rewrite E.
  destruct (IH Hps (l ++ piece_text p) c1 m1) as (c2 & m2 & E2). rewrite E2. unfold pieces_text. cbn [map concat]. rewrite <- app_assoc. by do 2 eexists.
Qed.
End Emit.

(** ** Bounded texts *)

Definition texty (n : nat) (s : list Z) : Prop := (length s <= n)%nat /\ Forall (fun c => c <> 0) s.

Lemma texty_app n1 n2 s1 s2 : texty n1 s1 -> texty n2 s2 -> texty (n1 + n2) (s1 ++ s2).
Proof. intros [H1 H2] [H3 H4]. split; [rewrite length_app; lia|by apply Forall_app]. Qed.

Lemma texty_lit s : forallb (fun c => negb (c =? 0)) s = true -> texty (length s) s.
Proof.
  intros Hs. split; [done|]. apply Forall_forall. intros c Hc. apply (proj1 (List.forallb_forall _ _) Hs) in Hc.
  by apply negb_true_iff, Z.eqb_neq in Hc.
Qed.

Lemma texty_digits s : forallb is_digit s = true -> (length s <= 24)%nat -> texty 24 s.
Proof.
  intros Hs Hl. split; [done|]. apply Forall_forall. intros c Hc. apply (proj1 (List.forallb_forall _ _) Hs) in Hc. unfold is_digit in Hc. to_prop. lia.
Qed.

Lemma texty_u64 x : in_u64 x -> texty 24 (fmt_u64 x).
Proof. intros Hx. destruct (fmt_u64_spec x Hx) as (_ & Hd & _ & Hl). by apply texty_digits. Qed.

Lemma texty_i64 x : in_i64 x -> texty 25 (fmt_i64 x).
Proof.
  intros Hx. split; [by apply fmt_i64_length|]. unfold in_i64, two63, fmt_i64 in *. destruct (Z.ltb_spec x 0).
  - constructor; [done|]. apply texty_u64. unfold in_u64, two64. lia.
  - apply texty_u64. unfold in_u64, two64. lia.
Qed.

Lemma texty_safe f : texty 127 (safe_name f).
Proof.
  unfold safe_name, sanitize_fn_name. split; [rewrite length_map, length_take; lia|]. apply Forall_map, Forall_forall. intros c _.
  unfold compose, sanitize_char. destruct (_ || _) eqn:E; [|done]. unfold in_range in E.
  intros ->. vm_compute in E. done.
Qed.

(** A piece that is whole in the buffer and holds no NUL. *)
Definition whole (p : piece) : Prop := short p /\ Forall (fun c => c <> 0) (piece_text p).

Lemma whole_printf n s : texty n s -> (n <=? 1023)%nat = true -> whole (Printf s).
Proof. intros [Hl Hs] Hn%Nat.leb_le. split; [cbn [short]; lia|done]. Qed.

Lemma whole_puts s : forallb (fun c => negb (c =? 0)) s = true -> whole (Puts s).
Proof. intros Hs. split; [done|]. by apply texty_lit. Qed.

(** The bound of a text is found part by part. *)
Ltac text_part :=
  lazymatch goal with
  | |- texty _ (fmt_i64 _) => apply texty_i64; assumption
  | |- texty _ (fmt_u64 (u64 _)) => apply texty_u64, u64_range
  | |- texty _ (fmt_u64 (Z.of_nat _)) => apply texty_u64; first [assumption|apply u64_nat; lia]
  | |- texty _ (fmt_u64 _) => apply texty_u64; assumption
  | |- texty _ (safe_name _) => apply texty_safe
  | |- texty _ (ln (cstr _)) => apply texty_lit; vm_compute; reflexivity
  | |- texty _ (lns _) => apply texty_lit; vm_compute; reflexivity
  | |- texty _ (cstr _) => apply texty_lit; vm_compute; reflexivity
  | |- texty _ (_ ++ _) => eapply texty_app; [text_part|text_part]
  end.
Ltac whole_piece :=
  lazymatch goal with
  | |- whole (Puts _) => apply whole_puts; vm_compute; reflexivity
  | |- whole (Printf _) => eapply whole_printf; [text_part|vm_compute; reflexivity]
  end.

Lemma whole_ins md i : in_i64 (a i) -> Forall (fun g => in_u64 (Z.of_nat (nparams g))) (fns md) -> Forall whole (ins_pieces md i).
Proof.
  intros Hi Hg. unfold ins_pieces, binary_text, shift_text, slot_line, size_text, call_text.
  destruct (op i); try (constructor; [whole_piece|constructor]); [|constructor].
  destruct (lookupz (fns md) (u64 (a i))) as [g|] eqn:E; [|constructor]. apply lookupz_elem, (Forall_elem _ _ _ Hg) in E.
  constructor; [whole_piece|constructor].
Qed.

Lemma whole_concat {A} (f : A -> list piece) l : (forall x, x ∈ l -> Forall whole (f x)) -> Forall whole (concat (map f l)).
Proof.
  induction l as [|x l IH]; intros Hf; [constructor|]. cbn [map concat]. apply Forall_app. split; [apply Hf; by apply elem_of_cons; left|].
  apply IH. intros y Hy. apply Hf. apply elem_of_cons. by right.
Qed.

Lemma whole_imap {A} (g : nat -> A -> list piece) l n : Z.of_nat n + Z.of_nat (length l) <= 18446744073709551615 ->
  (forall k x, in_u64 (Z.of_nat (n + k)) -> x ∈ l -> Forall whole (g (n + k)%nat x)) -> Forall whole (concat (imap (fun k => g (n + k)%nat) l)).
Proof.
  revert n. induction l as [|x l IH]; intros n Hn Hg; [constructor|]. cbn [length] in Hn. cbn [imap concat]. apply Forall_app. split.
  - apply Hg; [apply u64_nat; lia|by apply elem_of_cons; left].
  - assert (imap ((fun k => g (n + k)%nat) ∘ S) l = imap (fun k => g (S n + k)%nat) l) as -> by (apply imap_ext; intros k y _; unfold compose; by rewrite Nat.add_succ_r).
    apply IH; [lia|]. intros k y Hk Hy. replace (S n + k)%nat with (n + S k)%nat in * by lia. apply Hg; [done|by apply elem_of_cons; right].
Qed.

Lemma whole_code md f : Forall (fun i => in_i64 (a i)) (code f) -> Forall (fun g => in_u64 (Z.of_nat (nparams g))) (fns md) ->
  Z.of_nat (length (code f)) < two32 -> Forall whole (code_pieces md (code f)).
Proof.
  unfold two32. intros Hi Hg Hl. unfold code_pieces.
  apply (whole_imap (fun pc i => Printf (cstr "pc_" ++ fmt_u64 (Z.of_nat pc) ++ ln (cstr ":;")) :: ins_pieces md i) (code f) 0); [lia|]. intros k i Hk Hin.
  constructor; [whole_piece|]. apply whole_ins; [by apply (Forall_elem _ _ _ Hi)|done].
Qed.

Lemma whole_args n : Forall whole (arg_pieces n).
Proof.
  unfold arg_pieces. destruct (n =? 0)%nat; [constructor|]. constructor; [whole_piece|]. apply Forall_app. split; [|constructor; [whole_piece|constructor]].
  apply Forall_map, Forall_forall. intros p Hp. unfold compose, arg_line. apply in_seq in Hp. whole_piece.
Qed.

Lemma whole_arrays arrs : Forall in_u64 arrs -> Z.of_nat (length arrs) < two16 -> Forall whole (array_pieces arrs).
Proof.
  unfold two16. intros Ha Hl. unfold array_pieces. destruct (length arrs =? 0)%nat; [constructor|]. cbn [app]. constructor; [whole_piece|]. constructor; [whole_piece|].
  constructor; [whole_piece|]. apply (whole_imap array_piece arrs 0); [lia|]. intros k an Hk Hin. unfold array_piece. destruct (0 <? an); [|constructor].
  pose proof (Forall_elem _ _ _ Ha Hin). constructor; [whole_piece|constructor].
Qed.

Lemma whole_fn md f : fn_spellable f -> Forall (fun g => in_u64 (Z.of_nat (nparams g))) (fns md) -> Forall whole (fn_pieces md f).
Proof.
  intros (Hc & Ha & Hlc & Hla & _) Hg. unfold fn_pieces. cbn [app]. do 4 (constructor; [whole_piece|]).
  apply Forall_app. split; [apply whole_args|]. apply Forall_app. split; [by apply whole_arrays|]. apply Forall_app. split.
  - apply whole_code; [|done..]. eapply List.Forall_impl; [|exact Hc]. by intros i [? _].
  - do 2 (constructor; [whole_piece|]). constructor.
Qed.

Lemma whole_module md : spellable_module md -> Forall whole (module_pieces md).
Proof.
  intros [Hf Hg]. unfold module_pieces. cbn [app]. constructor; [whole_piece|]. apply Forall_app. split.
  { apply Forall_map, Forall_forall. intros f _. unfold compose, fn_decl. whole_piece. }
  constructor; [whole_piece|]. apply whole_concat. intros f Hin. apply whole_fn; [|done]. by apply (Forall_elem _ _ _ Hf).
Qed.

(** ** The text of a module that fits *)

Lemma fits_spellable md : module_safe md -> module_fits md = true -> spellable_module md.
Proof.
  intros Hs Hf. destruct (module_fits_spec md Hf) as [_ Hfit].
  assert (Forall (fun g => in_u64 (Z.of_nat (nparams g))) (fns md)) as Hn.
  { eapply List.Forall_impl; [|exact Hs]. intros g Hg. pose proof (safe_params _ Hg) as Hp. unfold LIN_VM_MAX_LOCALS in Hp. apply u64_nat. lia. }
  split; [|exact Hn]. apply Forall_forall. intros f Hin. apply list_elem_of_In in Hin. pose proof (Hfit f Hin) as Hff. apply emitted_elem in Hin as [Hin _].
  pose proof (Forall_elem _ _ _ Hs Hin) as Hsf. unfold LIN_VM_MAX_LOCALS in *. split_and!.
  - apply Forall_forall. intros i Hi. apply list_elem_of_In in Hi. pose proof (Forall_elem _ _ _ (safe_code _ Hsf) Hi) as [H64 _].
    apply list_elem_of_lookup in Hi as [pc Hi]. pose proof (fit_ins _ _ Hff pc i Hi) as Hfi. unfold ins_fits in Hfi. split_and!; [done| |].
    + intros Ho. rewrite Ho in Hfi. by apply negb_true_iff, Z.eqb_neq in Hfi.
    + intros Ho. repeat (apply elem_of_cons in Ho as [Eo|Ho]; [rewrite Eo in Hfi; apply andb_true_iff in Hfi as [?%Z.leb_le _]; done|]). by apply elem_of_nil in Ho.
  - eapply List.Forall_impl; [|exact (safe_lens _ Hsf)]. intros n Hl. unfold LIN_VM_MAX_ARR_LEN in Hl. unfold in_u64, two64. lia.
  - apply Hff.
  - pose proof (safe_arr_n _ Hsf) as Hal. unfold LIN_VM_MAX_LOCALS in Hal. unfold two16. lia.
  - by apply (Forall_elem _ _ _ Hn).
Qed.

Lemma pieces_nonzero ps : Forall whole ps -> strz (pieces_text ps) = pieces_text ps.
Proof.
  intros Hp. apply strz_id. unfold pieces_text. induction Hp as [|p ps [_ Hp] _ IH]; [constructor|]. cbn [map concat]. by apply Forall_app.
Qed.

Definition module_text (md : VmModule) : list Z := pieces_text (module_pieces md).

Lemma jit_emit_ok `{Env} md m : mallocs_succeed -> module_safe md -> module_fits md = true -> fns md <> [] ->
  exists m', c0_jit_emit_c11 md m = Val (Some (module_text md)) m' /\ strz (module_text md) = module_text md /\
    ctokens (module_text md) = prog_toks (jit_program md).
Proof.
  intros Ha Hs Hf Hn. pose proof (fits_spellable md Hs Hf) as Hsp. pose proof (whole_module md Hsp) as Hw.
  assert (Forall short (module_pieces md)) as Hshort by (eapply List.Forall_impl; [|exact Hw]; by intros p [? _]).
  destruct (try_malloc_ok m Ha) as [m1 E1]. destruct (sb_pieces_ok Ha _ Hshort [] 4096 m1) as (cap & m2 & E2). exists m2. split; [|split].
  - unfold c0_jit_emit_c11. destruct (fns md) as [|f fs] eqn:Ef; [done|]. cbn [length Nat.eqb]. unfold sb_init, mbind, Mem_bind. rewrite E1. cbn [mret Mem_ret].
    rewrite E2. done.
  - by apply pieces_nonzero.
  - by apply spells_module.
Qed.
