(* ===== verification/JitBuild.v ===== *)
(** * Built modules fit the JIT

    What [c0_build] makes of a text satisfies what the JIT's C relies on
    ([module_fits]), apart from the two things the text can choose badly: a
    shift whose count is not a constant below 64, and two functions with one
    sanitised name. *)
From stdpp Require Import strings.
From S2P Require Import Prelude Common Str Sys Vm VmSafe Linbc1 Encode C0Lex C0Comp C0Build C0Lang C0Sound C0LexSpec C0Code C0BuildSpec Jit JitProg JitFun.

(** ** Literals are not negative *)

Definition num_token (t : C0Tok) : Prop := tk_kind t = C0_TK_NUMBER -> is_digits (tk_text t) = true /\ tk_text t <> [].

Lemma lexes_numbers l ts : lexes l ts -> Forall num_token ts.
Proof. induction 1; repeat constructor; try done. Qed.

Fixpoint expr_nonneg (e : cexpr) : Prop :=
  match e with
  | XNum v => 0 <= v
  | XVar _ | XLen _ => True
  | XIndex _ e | XUn _ e => expr_nonneg e
  | XBin _ e1 e2 | XAnd e1 e2 | XOr e1 e2 => expr_nonneg e1 /\ expr_nonneg e2
  | XCall _ es => args_nonneg es
  end
with args_nonneg (es : cargs) : Prop :=
  match es with
  | ANil => True
  | ACons e es => expr_nonneg e /\ args_nonneg es
  end.

Fixpoint stmt_nonneg (s : cstmt) : Prop :=
  match s with
  | SSkip => True
  | SSeq s1 s2 => stmt_nonneg s1 /\ stmt_nonneg s2
  | SReturn e | SAssign _ e => expr_nonneg e
  | SStore _ i e => expr_nonneg i /\ expr_nonneg e
  | SDecl _ _ lit | SLit _ lit => args_nonneg lit
  | SIf e s1 s2 => expr_nonneg e /\ stmt_nonneg s1 /\ stmt_nonneg s2
  | SWhile e s => expr_nonneg e /\ stmt_nonneg s
  | SFor init cond step body => stmt_nonneg init /\ expr_nonneg cond /\ stmt_nonneg step /\ stmt_nonneg body
  end.

Section Derived.
Context (div shift : bool).

Lemma number_nonneg t v : num_token (mkTok C0_TK_NUMBER t) -> c0_parse_i64 t = Some v -> 0 <= v.
Proof.
  intros Hn. destruct (Hn eq_refl) as [Hd Hne]. cbn [tk_text] in *. rewrite c0_parse_i64_digits by done.
  destruct (_ <=? _); [|done]. intros [= <-]. apply (fold_digits_ge t 0 Hd); lia.
Qed.

Lemma op_table_nonneg l s mk e1 e2 : (s, mk) ∈ op_table div shift l -> expr_nonneg e1 -> expr_nonneg e2 -> expr_nonneg (mk e1 e2).
Proof.
  intros Hop H1 H2. apply list_elem_of_In in Hop.
  do 9 (destruct l as [|l]; [destruct div, shift; cbn in Hop; destruct_or? Hop; simplify_eq; by simpl|]). done.
Qed.

Ltac tokens := repeat match goal with
  | H : Forall num_token (_ :: _) |- _ => apply Forall_cons_1 in H as [? H]
  | H : Forall num_token (_ ++ _) |- _ => apply Forall_app in H as [? H]
  | H : Forall num_token ?l -> _, H2 : Forall num_token ?l |- _ => specialize (H H2)
  end.

Lemma derived_nonneg :
  (forall l ts e, dexpr div shift l ts e -> Forall num_token ts -> expr_nonneg e) /\
  (forall ts es, dargs div shift ts es -> Forall num_token ts -> args_nonneg es).
Proof.
  apply (dexpr_dargs_ind div shift (fun l ts e _ => Forall num_token ts -> expr_nonneg e)
    (fun ts es _ => Forall num_token ts -> args_nonneg es)); intros; cbn [app] in *; tokens; simpl in *; try done.
  - by eapply op_table_nonneg.
  - by eapply number_nonneg.
  - tauto.
Qed.

Lemma dassign_nonneg ts s : dassign div shift ts s -> Forall num_token ts -> stmt_nonneg s.
Proof.
  destruct derived_nonneg as [He Ha].
  destruct 1 as [x ts e H|x ts1 ts2 i e H1 H2|x t n ty Ht Hn _|x t n ty ts es Ht Hn _ [ts' es' H]|x ts es [ts' es' H]];
    intros Hnum; cbn [app] in *; tokens; simpl; eauto.
Qed.

Lemma derived_stmt_nonneg ts s : dstmts div shift ts s -> Forall num_token ts -> stmt_nonneg s.
Proof.
  destruct derived_nonneg as [He _].
  assert (forall l ts e, dexpr div shift l ts e -> Forall num_token ts -> expr_nonneg e) as He' by exact He.
  pose proof (dstmt_all_ind div shift
    (fun ts s _ => Forall num_token ts -> stmt_nonneg s) (fun ts s _ => Forall num_token ts -> stmt_nonneg s)
    (fun ts s _ => Forall num_token ts -> stmt_nonneg s) (fun ts s _ => Forall num_token ts -> stmt_nonneg s)
    (fun ts s _ => Forall num_token ts -> stmt_nonneg s) (fun ts s _ => Forall num_token ts -> stmt_nonneg s)
    (fun ts e _ => Forall num_token ts -> expr_nonneg e)) as Hind.
  cut (forall ts s, dstmts div shift ts s -> Forall num_token ts -> stmt_nonneg s); [by eauto|].
  apply Hind; clear Hind; intros; cbn [app] in *; tokens; simpl; eauto 10 using dassign_nonneg; try lia.
Qed.
End Derived.

(** ** Operands are not negative *)

Definition operand_nonneg (i : VmIns) : Prop := 0 <= a i.

Section Code.
Context (names : list (list Z)) (fs : list VmFn).

Ltac pieces := repeat match goal with
  | |- Forall operand_nonneg (_ ++ _) => apply Forall_app; split
  | |- Forall operand_nonneg (_ :: _) => constructor; [unfold operand_nonneg; cbn [a jump]; unfold slot, target; lia|]
  | |- Forall operand_nonneg [] => constructor
  end.

Lemma gen_nonneg :
  (forall e base, expr_nonneg e -> Forall operand_nonneg (gen names fs base e)) /\
  (forall es base, args_nonneg es -> Forall operand_nonneg (gen_args names fs base es)).
Proof.
  apply cexpr_cargs_ind; intros; cbn [gen gen_args expr_nonneg args_nonneg] in *; destruct_and?; pieces; auto.
Qed.

Lemma gen_lit_nonneg x es : forall base ei, args_nonneg es -> 0 <= ei -> Forall operand_nonneg (gen_lit names fs base (slot names x) ei es).
Proof.
  destruct gen_nonneg as [He _].
  induction es as [|e es IH]; intros base ei; cbn [gen_lit args_nonneg]; intros; destruct_and?; pieces; auto with lia.
Qed.

Lemma gen_stmt_nonneg s : forall base, stmt_nonneg s -> Forall operand_nonneg (gen_stmt names fs base s).
Proof.
  destruct gen_nonneg as [He _].
  induction s; intros base; cbn [gen_stmt stmt_nonneg]; intros; destruct_and?; pieces; auto using gen_lit_nonneg with lia.
Qed.
End Code.

Lemma compiled_nonneg div shift fs info f : compiled div shift fs info f -> Forall operand_nonneg (code f).
Proof.
  intros (_ & ts & s & G & G' & HL & HD & _ & _ & _ & -> & _). apply lexes_numbers, Forall_app in HL as [HL _].
  apply Forall_app. split; [by eapply gen_stmt_nonneg, derived_stmt_nonneg|].
  repeat constructor; unfold operand_nonneg; cbn [a]; lia.
Qed.

Lemma compiled_ends div shift fs info f : compiled div shift fs info f -> ends_fit (code f) = true.
Proof.
  intros (_ & ts & s & G & G' & _ & _ & _ & _ & _ & -> & _). unfold ends_fit. rewrite length_app. cbn [length].
  set (c := gen_stmt _ _ _ _). rewrite lookup_app_r by lia.
  by replace (length c + 2 - 1 - length c)%nat with 1%nat by lia.
Qed.

(** ** Built modules *)

(** What is left to the text: shifts by constants below 64, distinct names. *)
Definition shifts_fit (md : VmModule) : bool :=
  forallb (fun f => forallb (fun b => b) (imap (shift_fits (code f)) (code f))) (fns md).
Definition names_fit (md : VmModule) : bool := bool_decide (NoDup (map fn_symbol (fns md))).

Lemma emitted_all md : Forall (fun f => ok f = true) (fns md) -> emitted md = fns md.
Proof.
  unfold emitted. induction 1 as [|f l Hf Hl IH]; [done|]. cbn [List.filter]. by rewrite Hf, IH.
Qed.

Lemma ins_total_elem f fs : f ∈ fs -> (length (code f) <= ins_total fs)%nat.
Proof.
  induction 1 as [f fs|f g fs _ IH]; unfold ins_total in *; cbn [sum_list_with] in *; lia.
Qed.

Lemma ins_fits_valid md f i : Forall (fun f => ok f = true) (fns md) -> length (arr_n f) = nlocals f -> 0 <= a i ->
  Z.of_nat (length (fns md)) < two63 ->
  ins_valid (Z.of_nat (length (code f))) (Z.of_nat (length (fns md))) (Z.of_nat (nlocals f)) i -> ins_fits md f i = true.
Proof.
  intros Hok Hn Ha Hlen (Hr & Habi & Hv). unfold ins_fits. rewrite Hn.
  destruct (op i); try done;
    try (apply andb_true_intro; split; [apply Z.leb_le|apply Z.ltb_lt]; lia);
    try (destruct (nlocals f); [lia|done]).
  - apply negb_true_iff, Z.eqb_neq. unfold INT64_MIN. lia.
  - rewrite u64_id by int_lia. destruct (lookupz (fns md) (a i)) as [g|] eqn:E; [exact (Forall_elem _ _ _ Hok (lookupz_elem _ _ _ E))|].
    destruct (lookupz_in (fns md) (a i) ltac:(lia)) as [g Eg]. congruence.
Qed.

Lemma module_fits_built div shift src infos md : module_of div shift infos md -> Forall (info_ok src) infos -> Forall distinct_params infos ->
  Z.of_nat (length src) < text_limit -> within_limits md -> shifts_fit md = true -> names_fit md = true -> module_fits md = true.
Proof.
  intros Hm Ho Hd Hl Hw Hs Hn. pose proof (module_loadable _ _ _ _ _ Hm Ho Hd Hl Hw) as Hld. destruct Hw as [Wok Wn Wi Ws Wa].
  unfold module_fits. rewrite (emitted_all md Wok). fold (names_fit md). rewrite Hn, andb_true_r. unfold shifts_fit in Hs.
  apply forallb_forall. rewrite forallb_forall in Hs. intros f Hin. unfold fn_fits. rewrite (Hs f Hin), andb_true_r. apply list_elem_of_In in Hin.
  pose proof (Forall_elem _ _ _ (ld_fns _ Hld) Hin) as Hv. pose proof (Forall_elem _ _ _ Wok Hin) as Hok.
  apply list_elem_of_lookup in Hin as Hi. destruct Hi as [j Ej]. destruct (module_fn _ _ _ _ _ _ Hm Ej Hok) as (info & _ & Hc & _ & _).
  pose proof (compiled_nonneg _ _ _ _ _ Hc) as Hnn. rewrite (compiled_ends _ _ _ _ _ Hc), andb_true_r. apply andb_true_intro. split.
  - apply forallb_forall. intros i Hi%list_elem_of_In. apply ins_fits_valid; [done|apply Hv|exact (Forall_elem _ _ _ Hnn Hi)| |exact (Forall_elem _ _ _ (fv_ins _ _ Hv) Hi)].
    unfold LIN_BC1_MAX_FNS, two63 in *. lia.
  - apply Z.ltb_lt. pose proof (ins_total_elem f (fns md) Hin). unfold LIN_BC1_MAX_INS_TOTAL, two32 in *. lia.
Qed.

(** A built module comes from the headers of its text. *)
Lemma built_module `{Env} src m md m1 infos m2 : c0_build src m = Val md m1 -> infos_loop src (S (length src)) 0 1 [] 0 m = Val infos m2 ->
  module_of true false infos md /\ Forall (info_ok src) infos.
Proof.
  intros Hb Hi. pose proof (build_mem true false src m) as Hs.
  unfold c0_build in Hb. rewrite Hb in Hs. destruct Hs as (infos' & m3 & Hi' & _ & Ho & Hm).
  rewrite Hi in Hi'. by injection Hi' as <- _.
Qed.

Lemma built_fits `{Env} src m md m1 infos m2 : c0_build src m = Val md m1 -> infos_loop src (S (length src)) 0 1 [] 0 m = Val infos m2 ->
  Forall distinct_params infos -> Z.of_nat (length src) < text_limit -> within_limits md ->
  shifts_fit md = true -> names_fit md = true -> module_fits md = true.
Proof. intros Hb Hi Hd Hl Hw. destruct (built_module _ _ _ _ _ _ Hb Hi) as [Hm Ho]. by eapply module_fits_built. Qed.

(** Its accepted functions have operands that are not negative and a name of name
    characters. *)
Lemma module_fn_text div shift src infos md f : module_of div shift infos md -> Forall (info_ok src) infos -> f ∈ fns md -> ok f = true ->
  Forall operand_nonneg (code f) /\ forallb c0_is_name_char (fn_name f) = true.
Proof.
  intros Hm Ho [j Ej]%list_elem_of_lookup Hok. destruct (module_fn _ _ _ _ _ _ Hm Ej Hok) as (info & Ei & Hc & _ & Hs).
  split; [by eapply compiled_nonneg|]. rewrite declare_sig in Hs. injection Hs as -> _ _. apply (Forall_lookup_1 _ _ _ _ Ho Ei).
Qed.
