(* ===== verification/JitSpec.v ===== *)
(** * The JIT back end: its C computes what the machine computes

    The emitted text spells a C program whose functions return what [vm_exec_ctx]
    returns, whenever that is a value; so with a C compiler that does what C says,
    [roundtrip-jit] finds consensus with the meaning of the source and [jit]
    prints it.  Where the two do part is at the end. *)
From stdpp Require Import strings.
From S2P Require Import Prelude Common Token Str Decimal Region Abi Vm VmSpec VmSafe Linbc1 Encode Sys C0Lex C0Comp C0Build C0Lang C0BuildSpec.
From S2P Require Import C0Sem C0Correct Cli CliSpec CLang Jit JitProg JitSim JitFun JitEmit JitBuild.

(** C17. The C11 text of a module that fits - jumps into the code, shifts by constants
    below 64, names distinct after sanitising - is a correct compilation of it. It
    is emitted in full: no piece is cut, no byte ends it early, and its tokens are
    exactly those of [jit_program]. And in that C program, whenever the machine
    returns a value, the function of that name called on the same arguments padded
    to 64 returns it too, with little more fuel: no undefined behaviour, no missing
    return, no endless loop, through loops, arrays and calls. *)
Theorem jit_text_correct `{Env} md m (Ha : mallocs_succeed) (Hs : module_safe md) (Hf : module_fits md = true) (Hn : fns md <> []) :
  exists src m', c0_jit_emit_c11 md m = Val (Some src) m' /\ strz src = src /\ ctokens src = prog_toks (jit_program md) /\
    forall n calloc fi args r st f, Forall in_i64 args -> lookupz (fns md) fi = Some f -> vm_exec n md calloc fi args 0 0 = Some (V_ok r st) ->
      forall k, (n < k)%nat -> call_c k (jit_program md) (fn_symbol f) (arg_cells args) = CVal (val r).
Proof.
  destruct (jit_emit_ok md m Ha Hs Hf Hn) as (m' & E & Hz & Ht). exists (module_text md), m'. split; [exact E|]. split; [exact Hz|]. split; [exact Ht|].
  intros n calloc fi args r st f Hi Hl Hx. destruct (agree md Hs Hf n) as [_ Hc].
  apply (Hc (vm_exec_context md calloc) fi args 0%nat 0 r st f eq_refl eq_refl Hi Hl Hx).
Qed.

(** ** A compiler that does what C says *)

(** On a text that spells the program, libtcc compiles and relocates, finds the
    function, and running it gives what C says. *)
Record obeys_c11 (tcc : Tcc) (p : cprog) (f : list Z) (args : list Z) (src : list Z) : Prop := {
  tc_compile : tcc_compile_string tcc src = true;
  tc_relocate : tcc_relocate tcc src = true;
  tc_symbol : tcc_get_symbol tcc src f = true;
  tc_run : forall v, c_returns p f (map Some args) v -> tcc_run tcc src f args = Some v
}.

Record c_compiler (tcc : Tcc) (p : cprog) (f : list Z) (args : list Z) : Prop := {
  cc_load : tcc_load tcc = true;
  cc_new : tcc_new tcc = true;
  cc_obeys : forall src, ctokens src = prog_toks p -> obeys_c11 tcc p f args src
}.

Definition padded (args : list Z) : list Z := take 64 args ++ replicate (64 - length args) 0.

Lemma padded_cells args : (length args <= 64)%nat -> map Some (padded args) = arg_cells args.
Proof. intros Hl. unfold padded, arg_cells. by rewrite firstn_all2. Qed.

Section Jit.
Context `{Env} (Ha : mallocs_succeed) (tcc : Tcc).

Lemma jit_exec_ok md f args v m : module_safe md -> module_fits md = true -> f ∈ fns md -> (length args <= 64)%nat ->
  c_compiler tcc (jit_program md) (fn_symbol f) (padded args) -> c_returns (jit_program md) (fn_symbol f) (arg_cells args) v ->
  exists m', c0_jit_exec tcc md (fn_name f) args m = Val (Ok v) m'.
Proof.
  intros Hs Hf Hin Hl [Hload Hnew Hob] Hr. destruct (jit_emit_ok md m Ha Hs Hf) as (m' & E & Hz & Ht); [by intros E; rewrite E in Hin; apply elem_of_nil in Hin|].
  destruct (Hob _ Ht) as [H1 H2 H3 H4]. rewrite <- padded_cells in Hr by done. exists m'.
  unfold c0_jit_exec. rewrite Hload. cbn [negb]. unfold mbind, Mem_bind. rewrite E, Hnew, Hz, H1, H2. cbn [negb].
  change (cstr "lin_fn_" ++ sanitize_fn_name (fn_name f) 128) with (fn_symbol f). rewrite H3. cbn [negb]. fold (padded args). by rewrite (H4 v Hr).
Qed.

Lemma exec_vm fuel md fi args r st m m' : Cli.exec fuel md fi args m = Val (Ok r, st) m' -> vm_exec fuel md true fi args 0 0 = Some (V_ok r st).
Proof.
  unfold Cli.exec. destruct (try_malloc_ok m Ha) as [m1 E]. unfold mbind, Mem_bind. rewrite E.
  destruct (vm_exec fuel md true fi args 0 0) as [[r' st'|e st'|]|]; try done. by intros [= <- <- _].
Qed.

Lemma vm_exec_length fuel md fi args r st f : vm_exec fuel md true fi args 0 0 = Some (V_ok r st) -> lookupz (fns md) fi = Some f -> length args = nparams f.
Proof.
  unfold vm_exec. destruct fuel as [|fuel]; [done|]. cbn [vm_exec_ctx]. destruct (vm_enter _ fi args 0) as [g| |] eqn:E; [|done..].
  apply vm_enter_inv in E as (_ & Hg & _ & Hl). cbn [c_module vm_exec_context] in Hg. intros _ Hf. congruence.
Qed.

(** The C function returns what the machine does. *)
Lemma jit_exec_vm md fuel fn args r st m : module_safe md -> module_fits md = true -> Forall in_i64 args -> 0 <= mod_find_fn md fn ->
  vm_exec fuel md true (mod_find_fn md fn) args 0 0 = Some (V_ok r st) ->
  c_compiler tcc (jit_program md) (cstr "lin_fn_" ++ sanitize_fn_name fn 128) (padded args) ->
  exists m', c0_jit_exec tcc md fn args m = Val (Ok (val r)) m'.
Proof.
  intros Hs Hf Hargs Hfi Hx Hcc. destruct (find_fn_at fn (fns md) 0) as (_ & f & Hg & Hname); [done..|]. rewrite Z.sub_0_r in Hg.
  assert (lookupz (fns md) (mod_find_fn md fn) = Some f) as Hlook by (by apply lookupz_Some).
  pose proof (vm_exec_length _ _ _ _ _ _ _ Hx Hlook) as Hl. pose proof (lookupz_elem _ _ _ Hlook) as Hin.
  pose proof (safe_params _ (Forall_elem _ _ _ Hs Hin)) as Hp. unfold LIN_VM_MAX_LOCALS in Hp.
  subst fn. apply jit_exec_ok; try done; [lia|]. exists (S fuel). destruct (agree md Hs Hf fuel) as [_ Hc].
  apply (Hc (vm_exec_context md true) (mod_find_fn md (fn_name f)) args 0%nat 0 r st f); try done. lia.
Qed.
End Jit.

(** ** The commands *)

Lemma parse_args_i64 words : forall cap args, parse_args cap words = Some args -> Forall in_i64 args.
Proof.
  induction words as [|w words IH]; intros [|cap] args; cbn [parse_args]; intros E; [injection E as <-; constructor..|done|].
  destruct (length w =? 0)%nat; [done|]. destruct (strtoll w) as [[v [|]]|] eqn:Ev; [|done..].
  destruct (parse_args cap words) as [vs|] eqn:Ep; [|done]. injection E as <-. constructor; [by eapply strtoll_range|by eapply IH].
Qed.

Definition consensus (tcc : Tcc) (fn : list Z) (v steps : Z) : list Z :=
  jit_head ++ cstr ".verdict{ status=" ++ quote (cstr "CONSENSUS") ++ cstr " fn=" ++ quote fn ++ cstr " value=" ++ fmt_i64 v ++ cstr " vm_steps=" ++
  fmt_u64 steps ++ cstr " jit_compile_ms=" ++ compile_ms tcc ++ cstr " jit_exec_us=" ++ exec_us tcc ++ ln (cstr " }").

(** What [roundtrip-jit] prints of an outcome. *)
Definition jit_trip_record (tcc : Tcc) (fn : list Z) (r : sres Z) : ran :=
  match r with
  | SVal v st => mkRan (consensus tcc fn v st) [] 0 None
  | SErr e _ => mkRan (jit_divergence (cstr " why=" ++ quote (cstr "vm_error") ++ cstr " code=" ++ quote (cstr (lin_err_name (Some e))))) [] 1 None
  end.

Definition jit_run_record (tcc : Tcc) (fn : list Z) (v : Z) : ran :=
  mkRan (jit_run_head ++ cstr ".result{ fn=" ++ quote fn ++ cstr " value=" ++ fmt_i64 v ++ cstr " compile_ms=" ++ compile_ms tcc ++
         cstr " exec_us=" ++ exec_us tcc ++ ln (cstr " }")) [] 0 None.

Definition jit_symbol (fn : list Z) : list Z := cstr "lin_fn_" ++ sanitize_fn_name fn 128.

Section Commands.
Context `{Env} (Ha : mallocs_succeed) (tcc : Tcc).
Context (src : list Z) (m1 : C0Mem) (md : VmModule) (infos : list C0FnInfo) (Hc : clean_text false src m1 md infos) (Hl : within_limits md).
Context (Hshift : shifts_fit md = true) (Hnames : names_fit md = true) (fn : list Z) (Hf : 0 <= mod_find_fn md fn) (args : list Z) (Hargs : Forall in_i64 args).
Context (Hcc : c_compiler tcc (jit_program md) (jit_symbol fn) (padded args)).

Lemma clean_module_safe : module_safe md.
Proof. destruct Hc as [[m2 Hb] [m3 Hi] Hd Hlen _]. by apply (built_loadable src m1 md m2 infos m3). Qed.

Lemma clean_fits : module_fits md = true.
Proof. destruct Hc as [[m2 Hb] [m3 Hi] Hd Hlen _]. by apply (built_fits src m1 md m2 infos m3). Qed.

Lemma jit_exec_means fuel v st sp m2 m3 m : Cli.exec fuel md (mod_find_fn md fn) args m2 = Val (Ok (mkResult v sp), st) m3 ->
  exists m', c0_jit_exec tcc md fn args m = Val (Ok v) m'.
Proof.
  intros E. apply (exec_vm Ha) in E. exact (jit_exec_vm Ha tcc md fuel fn args _ st m clean_module_safe clean_fits Hargs Hf E Hcc).
Qed.

Lemma jit_roundtrip_ok fuel m : enough fuel -> exists r m', means false infos md fn args r /\
  c0_jit_roundtrip tcc fuel md fn args m = Val (match r with SVal v st => (consensus tcc fn v st, true) | SErr e _ =>
    (jit_divergence (cstr " why=" ++ quote (cstr "vm_error") ++ cstr " code=" ++ quote (cstr (lin_err_name (Some e)))), false) end) m'.
Proof.
  intros Hfuel. destruct (clean_means false src m1 md infos fn args fuel) as (r & sp & Hr & Hx); [done..|]. destruct (Hx m) as [m2 E].
  exists r. unfold c0_jit_roundtrip. change (find_fn 0 (fns md) fn) with (mod_find_fn md fn). rewrite (proj2 (Z.ltb_ge _ _) Hf). unfold mbind, Mem_bind.
  rewrite E. destruct r as [v st|e st]; [|by exists m2]. destruct (jit_exec_means fuel v st sp m m2 m2 E) as [m3 E3]. rewrite E3. cbn [val].
  rewrite Z.eqb_refl. by exists m3.
Qed.
End Commands.

(** C18. [roundtrip-jit] on a text whose shifts are by constants below 64, and
    whose names stay distinct when sanitised, finds no divergence of values: with
    a compiler that does what C says, it prints CONSENSUS with the meaning of the
    function, or the machine's error.  Everything else the C relies on - jumps into
    the code, no literal past [long long], calls of emitted functions, a return at
    the end - holds of what [c0_build] makes of a text. *)
Theorem roundtrip_jit_consensus `{Env} tcc fs fuel p0 p1 path fn words m src m1 md infos args
    (Ha : mallocs_succeed) (Hs : read_file fs path m = Val (Some src) m1) (Hc : clean_text false src m1 md infos) (Hl : within_limits md)
    (Hshift : shifts_fit md = true) (Hnames : names_fit md = true) (Hf : 0 <= mod_find_fn md fn) (Hw : parse_args 64 words = Some args) (Hfuel : enough fuel)
    (Hcc : c_compiler tcc (jit_program md) (jit_symbol fn) (padded args)) :
  exists r m', means false infos md fn args r /\
    cmd_roundtrip_jit tcc fs fuel (p0 :: p1 :: path :: fn :: words) m = Val (jit_trip_record tcc fn r) m'.
Proof.
  destruct (ct_build _ _ _ _ _ Hc) as [m2 Hb]. assert (or_null (c0_build src) m1 = Val (Some md) m2) as Eb by (by apply or_null_val).
  destruct (jit_roundtrip_ok Ha tcc src m1 md infos Hc Hl Hshift Hnames fn Hf args (parse_args_i64 _ _ _ Hw) Hcc fuel m2 Hfuel) as (r & m3 & Hr & E).
  exists r, m3. split; [done|]. unfold cmd_roundtrip_jit. cbn [length Nat.ltb Nat.leb]. change (arg (p0 :: p1 :: path :: fn :: words) 2) with path. after Hs. after Eb.
  change (drop 4 (p0 :: p1 :: path :: fn :: words)) with words. rewrite Hw. change (arg (p0 :: p1 :: path :: fn :: words) 3) with fn. after E. by destruct r.
Qed.

(** [jit] on such a text prints the meaning of the function, whenever that is a
    value. *)
Theorem cmd_jit_meaning `{Env} tcc fs p0 p1 path fn words m src m1 md infos args
    (Ha : mallocs_succeed) (Hs : read_file fs path m = Val (Some src) m1) (Hc : clean_text false src m1 md infos) (Hl : within_limits md)
    (Hshift : shifts_fit md = true) (Hnames : names_fit md = true) (Hf : 0 <= mod_find_fn md fn) (Hw : parse_args 64 words = Some args)
    (Hcc : c_compiler tcc (jit_program md) (jit_symbol fn) (padded args)) :
  exists r, means false infos md fn args r /\ forall v st, r = SVal v st ->
    exists m', cmd_jit tcc fs (p0 :: p1 :: path :: fn :: words) m = Val (jit_run_record tcc fn v) m'.
Proof.
  destruct (ct_build _ _ _ _ _ Hc) as [m2 Hb]. assert (or_null (c0_build src) m1 = Val (Some md) m2) as Eb by (by apply or_null_val).
  destruct (clean_means false src m1 md infos fn args _ Ha Hc Hf full_fuel) as (r & sp & Hr & Hx). exists r. split; [done|].
  intros v st ->. destruct (Hx m2) as [m3 E3].
  destruct (jit_exec_means Ha tcc src m1 md infos Hc Hl Hshift Hnames fn Hf args (parse_args_i64 _ _ _ Hw) Hcc _ v st sp m2 m3 m2 E3) as [m4 E4]. exists m4.
  unfold cmd_jit. cbn [length Nat.ltb Nat.leb]. change (arg (p0 :: p1 :: path :: fn :: words) 2) with path. after Hs. after Eb.
  change (drop 4 (p0 :: p1 :: path :: fn :: words)) with words. rewrite Hw. change (arg (p0 :: p1 :: path :: fn :: words) 3) with fn. after E4. reflexivity.
Qed.

(** ** Witnesses *)

(** A compiler that runs the program as C says. *)
Definition sample_tcc : Tcc :=
  mkTcc true true (fun _ => true) (fun _ => true) (fun _ f => bytes_eqb f (jit_symbol (cstr "fib")))
    (fun _ f vs => match call_c 100 (jit_program sample_module) f (map Some vs) with CVal v => Some v | _ => None end)
    (cstr "0.100") (cstr "2.500").

Lemma sample_c_compiler : c_compiler sample_tcc (jit_program sample_module) (jit_symbol (cstr "fib")) (padded [3]).
Proof.
  constructor; [reflexivity..|]. intros src _. constructor; [reflexivity..|]. intros v Hv. cbn [sample_tcc tcc_run].
  assert (call_c 100 (jit_program sample_module) (jit_symbol (cstr "fib")) (map Some (padded [3])) = CVal 2) as E by (vm_compute; reflexivity).
  rewrite E. f_equal. apply (c_returns_det (jit_program sample_module) (jit_symbol (cstr "fib")) (map Some (padded [3]))); [by exists 100%nat|exact Hv].
Qed.

Lemma sample_fits : module_fits sample_module = true.
Proof. vm_compute. reflexivity. Qed.

Lemma sample_choices : shifts_fit sample_module = true /\ names_fit sample_module = true.
Proof. split; vm_compute; reflexivity. Qed.

Lemma sample_safe : module_safe sample_module.
Proof. exact (clean_module_safe sample sample_mem sample_module sample_infos sample_clean sample_limits). Qed.

Lemma jit_text_correct_witness : exists src m', @c0_jit_emit_c11 calm sample_module mem0 = Val (Some src) m' /\ strz src = src /\
  ctokens src = prog_toks (jit_program sample_module) /\
  forall n calloc fi args r st f, Forall in_i64 args -> lookupz (fns sample_module) fi = Some f ->
    vm_exec n sample_module calloc fi args 0 0 = Some (V_ok r st) ->
    forall k, (n < k)%nat -> call_c k (jit_program sample_module) (fn_symbol f) (arg_cells args) = CVal (val r).
Proof. apply (@jit_text_correct calm sample_module mem0 (fun _ => eq_refl) sample_safe sample_fits). vm_compute. discriminate. Defined.

Lemma sample_fib : 0 <= mod_find_fn sample_module (cstr "fib") /\ parse_args 64 [cstr "3"] = Some [3].
Proof. split; vm_compute; [discriminate|reflexivity]. Qed.

Lemma roundtrip_jit_consensus_witness : exists r m', means false sample_infos sample_module (cstr "fib") [3] r /\
  @cmd_roundtrip_jit calm sample_tcc sample_files (2 * Z.to_nat LIN_VM_STEP_LIMIT + 2)
    (map cstr ["lin_c0"; "roundtrip-jit"; "a.lin"; "fib"; "3"]%string) mem0 = Val (jit_trip_record sample_tcc (cstr "fib") r) m'.
Proof.
  destruct sample_fib as [E1 E2].
  exact (@roundtrip_jit_consensus calm sample_tcc sample_files _ (cstr "lin_c0") (cstr "roundtrip-jit") (cstr "a.lin") (cstr "fib") [cstr "3"] mem0 sample
    sample_mem sample_module sample_infos [3] (fun _ => eq_refl) sample_read sample_clean sample_limits (proj1 sample_choices) (proj2 sample_choices) E1 E2 full_fuel sample_c_compiler).
Defined.

(** ** Where they part *)

Definition vm_val (o : option vm_out) : option Z := match o with Some (V_ok r _) => Some (val r) | _ => None end.

Definition code_fn (name : string) (np : nat) (c : list VmIns) : VmFn := mkFn (cstr name) np np c true true [] (replicate np 0).
Definition run_c (md : VmModule) (f : string) (args : list Z) : cres := call_c 100 (jit_program md) (cstr "lin_fn_" ++ cstr f) (arg_cells args).
Definition run_vm (md : VmModule) (args : list Z) : option vm_out := vm_exec 100 md true 0 args 0 0.

(** Division by zero: an error of the machine, 0 in C. *)
Definition div_module : VmModule :=
  mkModule [code_fn "q" 2 [mkIns OP_LOAD_LOCAL 0; mkIns OP_LOAD_LOCAL 1; mkIns OP_DIV 0; mkIns OP_RET 0]].

Lemma jit_division_by_zero : run_vm div_module [7; 0] = Some (V_err LIN_ERR_VM_DIV_ZERO 3) /\ run_c div_module "q" [7; 0] = CVal 0.
Proof. split; vm_compute; reflexivity. Qed.

(** A shift by 64: 0 to the machine, the operand itself in C. *)
Definition shl_module : VmModule :=
  mkModule [code_fn "s" 2 [mkIns OP_LOAD_LOCAL 0; mkIns OP_LOAD_LOCAL 1; mkIns OP_SHL 0; mkIns OP_RET 0]].

Lemma jit_shift_masks : vm_val (run_vm shl_module [7; 64]) = Some 0 /\ run_c shl_module "s" [7; 64] = CVal 7.
Proof. split; vm_compute; reflexivity. Qed.

(** The end of the code: 0 to the machine, the top of the stack in C. *)
Definition off_module : VmModule := mkModule [code_fn "e" 0 [mkIns OP_PUSH_CONST 5]].

Lemma jit_end_of_code : vm_val (run_vm off_module []) = Some 0 /\ run_c off_module "e" [] = CVal 5.
Proof. split; vm_compute; reflexivity. Qed.

(** Names that differ only outside letters and digits are one C function. *)
Definition twin_module : VmModule :=
  mkModule [code_fn "a_b" 0 [mkIns OP_PUSH_CONST 1; mkIns OP_RET 0]; code_fn "a$b" 0 [mkIns OP_PUSH_CONST 2; mkIns OP_RET 0]].

Lemma jit_names_collide : map fn_symbol (fns twin_module) = [cstr "lin_fn_a_b"; cstr "lin_fn_a_b"] /\
  vm_val (vm_exec 100 twin_module true 1 [] 0 0) = Some 2.
Proof. split; vm_compute; reflexivity. Qed.

(** The literal of INT64_MIN is one past [long long]: undefined in this C. *)
Definition min_module : VmModule := mkModule [code_fn "m" 0 [mkIns OP_PUSH_CONST INT64_MIN; mkIns OP_RET 0]].

Lemma jit_min_literal : vm_val (run_vm min_module []) = Some INT64_MIN /\ run_c min_module "m" [] = CBad /\
  exists s t, piece_text (default (Puts []) (head (ins_pieces min_module (mkIns OP_PUSH_CONST INT64_MIN)))) = s ++ cstr "-9223372036854775808LL" ++ t.
Proof. split_and!; [vm_compute; reflexivity..|]. exists (cstr "    stack[sp++] = "), (ln (cstr ";")). vm_compute. reflexivity. Qed.
