(* ===== verification/Gpu.v ===== *)
(** * tool/lin_c0_gpu.c: kernels of OpenCL C, run against the machine

    [lower_unary_fn_to_opencl] prints a function of one parameter as a kernel into
    8192 bytes; [c0_gpu_verify] runs it over seven sizes and compares every element
    with [vm_exec].  The OpenCL library is the record [OpenCl]: what its calls
    answer, and what a launch leaves in the output.  The size of an enum is 4, in
    little-endian order, as on the hosts the tool runs on. *)
From stdpp Require Import strings.
From S2P Require Import Prelude Common Str Decimal Region Abi Vm Sha256 Linbc1 Encode Sys C0Lex C0Comp C0Build CLang Cli Jit.

(** ** The kernel text *)

Definition KERNEL_MAX : Z := 8192.

(** The offset, which counts what did not fit, and the text in the buffer. *)
Record KBuf : Type := mkKBuf { kb_off : Z; kb_text : list Z }.

(** [off += snprintf(buf + off, max_buf - off, ...)]: past the buffer the
    difference wraps and the write is out of bounds. *)
Definition k_print (b : KBuf) (s : list Z) : option KBuf :=
  if KERNEL_MAX <? kb_off b then None
  else Some (mkKBuf (kb_off b + Z.of_nat (length s)) (kb_text b ++ take (Z.to_nat (KERNEL_MAX - kb_off b - 1)) s)).

Definition kernel_head (name : list Z) : list Z :=
  cstr "/* LIN-GPU-004: Auto-lowered from LIN function '" ++ name ++ ln (cstr "' (Sovereign Zero-Zig) */") ++
  lns ["__kernel void lin_gpu_kernel("; "    __global const int* input,"; "    __global int* output,"; "    const int n)"; "{";
       "    int gid = get_global_id(0);"; "    if (gid >= n) return;"; "    long locals[32];";
       "    for (int i = 0; i < 32; i++) locals[i] = 0;"; "    locals[0] = (long)input[gid];"; "    long s[32];";
       "    int sp = 0;"]%string.

Definition k_line (s : string) : list Z := ln (cstr "    " ++ cstr s).

(** The switch; what it has no case for prints nothing. *)
Definition kernel_line (i : VmIns) : list Z :=
  match op i with
  | OP_LOAD_LOCAL => cstr "    s[sp++] = locals[" ++ fmt_i64 (a i) ++ ln (cstr "];")
  | OP_STORE_LOCAL => cstr "    locals[" ++ fmt_i64 (a i) ++ ln (cstr "] = s[--sp];")
  | OP_PUSH_CONST => cstr "    s[sp++] = " ++ fmt_i64 (a i) ++ ln (cstr "L;")
  | OP_ADD => k_line "s[sp-2] = s[sp-2] + s[sp-1]; sp--;"
  | OP_SUB => k_line "s[sp-2] = s[sp-2] - s[sp-1]; sp--;"
  | OP_MUL => k_line "s[sp-2] = s[sp-2] * s[sp-1]; sp--;"
  | OP_DIV => k_line "s[sp-2] = (s[sp-1] != 0L) ? (s[sp-2] / s[sp-1]) : 0L; sp--;"
  | OP_MOD => k_line "s[sp-2] = (s[sp-1] != 0L) ? (s[sp-2] % s[sp-1]) : 0L; sp--;"
  | OP_BIT_AND => k_line "s[sp-2] = s[sp-2] & s[sp-1]; sp--;"
  | OP_BIT_OR => k_line "s[sp-2] = s[sp-2] | s[sp-1]; sp--;"
  | OP_BIT_XOR => k_line "s[sp-2] = s[sp-2] ^ s[sp-1]; sp--;"
  | OP_BIT_NOT => k_line "s[sp-1] = ~s[sp-1];"
  | OP_NEG => k_line "s[sp-1] = -s[sp-1];"
  | OP_SHL => k_line "s[sp-2] = s[sp-2] << (s[sp-1] & 63L); sp--;"
  | OP_SHR => k_line "s[sp-2] = s[sp-2] >> (s[sp-1] & 63L); sp--;"
  | OP_USHR => k_line "s[sp-2] = (long)((ulong)s[sp-2] >> (s[sp-1] & 63L)); sp--;"
  | OP_CMP_EQ => k_line "s[sp-2] = (s[sp-2] == s[sp-1]) ? 1L : 0L; sp--;"
  | OP_CMP_NE => k_line "s[sp-2] = (s[sp-2] != s[sp-1]) ? 1L : 0L; sp--;"
  | OP_CMP_LT => k_line "s[sp-2] = (s[sp-2] < s[sp-1]) ? 1L : 0L; sp--;"
  | OP_CMP_GT => k_line "s[sp-2] = (s[sp-2] > s[sp-1]) ? 1L : 0L; sp--;"
  | OP_CMP_LE => k_line "s[sp-2] = (s[sp-2] <= s[sp-1]) ? 1L : 0L; sp--;"
  | OP_CMP_GE => k_line "s[sp-2] = (s[sp-2] >= s[sp-1]) ? 1L : 0L; sp--;"
  | OP_LOG_NOT => k_line "s[sp-1] = (s[sp-1] == 0L) ? 1L : 0L;"
  | OP_POP => k_line "sp--;"
  | OP_RET => k_line "output[gid] = (int)s[sp-1];" ++ k_line "return;"
  | _ => []
  end.

(** The loop: [Some None] when the buffer is nearly full. *)
Fixpoint lower_code (b : KBuf) (code : list VmIns) : option (option KBuf) :=
  match code with
  | [] => Some (Some b)
  | i :: code =>
      b ← (match kernel_line i with [] => Some b | s => k_print b s end);
      if KERNEL_MAX - 100 <=? kb_off b then Some None else lower_code b code
  end.

Definition semantic_hash (f : VmFn) : list Z :=
  let step c i := lin_sha256_update (lin_sha256_update c (le_bytes 4 (op_ord (op i)))) (le_bytes 8 (u64 (a i))) in
  lin_sha256_final (fold_left step (code f) (lin_sha256_update lin_sha256_init (fn_name f))).

Definition lowering_hash (sem : list Z) : list Z :=
  lin_sha256_final (fold_left lin_sha256_update
    [cstr "LIN:GPU_LOWERING:1.0.0"; cstr "opencl_c_2.0"; cstr "opencl_relaxed_i32"; cstr "global_contiguous"; sem] lin_sha256_init).

(** The text and the two hashes; [Some None] when it returns 0, [None] when it
    writes out of bounds. *)
Definition lower_unary_fn_to_opencl (f : VmFn) : option (option (list Z * list Z * list Z)) :=
  let sem := semantic_hash f in
  let low := lowering_hash sem in
  b ← k_print (mkKBuf 0 []) (kernel_head (fn_name f));
  r ← lower_code b (code f);
  match r with
  | None => Some None
  | Some b => b ← k_print b (ln (cstr "}")); Some (Some (kb_text b, sem, low))
  end.

(** ** OpenCL *)

(** A code and a handle, which may be NULL. *)
Record OpenCl : Type := mkOpenCl {
  cl_dlopen : string -> bool;
  cl_dlsym : string -> bool;
  cl_platforms : list (list Z);                    (* the name of each *)
  cl_gpu_device : nat -> bool;                     (* of a platform *)
  cl_any_device : nat -> bool;
  cl_device_name : nat -> list Z;
  cl_context : Z * bool;
  cl_queue_with_properties : Z * bool;
  cl_queue : Z * bool;
  cl_program : list Z -> Z;
  cl_build : list Z -> Z;
  cl_build_log : list Z -> list Z;
  cl_kernel : list Z -> Z;
  (** what a launch over an input leaves in the output, as far as it is read;
      [None] when it fails, whose event is not initialised *)
  cl_launch : list Z -> list Z -> option (nat -> Z)
}.

(** The functions of OpenClApi, in the order in which they are loaded. *)
Definition OpenClApi : list string := [
  "clGetPlatformIDs"; "clGetPlatformInfo"; "clGetDeviceIDs"; "clGetDeviceInfo"; "clCreateContext"; "clReleaseContext";
  "clCreateCommandQueueWithProperties"; "clCreateCommandQueue"; "clReleaseCommandQueue"; "clCreateProgramWithSource";
  "clBuildProgram"; "clGetProgramBuildInfo"; "clReleaseProgram"; "clCreateKernel"; "clReleaseKernel"; "clCreateBuffer";
  "clReleaseMemObject"; "clEnqueueWriteBuffer"; "clSetKernelArg"; "clEnqueueNDRangeKernel"; "clWaitForEvents";
  "clReleaseEvent"; "clEnqueueReadBuffer"; "clFinish"]%string.

(** A library, and every symbol in it but the two that make a queue. *)
Definition opencl_load (cl : OpenCl) : bool :=
  (cl_dlopen cl "libOpenCL.so" || cl_dlopen cl "libOpenCL.so.1") &&
  forallb (fun s => cl_dlsym cl s || negb (negb (String.eqb s "clCreateCommandQueueWithProperties") && negb (String.eqb s "clCreateCommandQueue")))
    OpenClApi.

Definition fibonacci_prng (i : Z) : Z := i32 (u32 (u64 ((i + 1) * 2654435769))).

Definition SIZES : list Z := [1; 2; 7; 31; 1024; 65536; 1000000].

Definition preferred (name : list Z) : bool :=
  existsb (fun s => is_some (c0_index_str name (cstr s))) ["AMD"; "ROCm"; "rusticl"]%string.

(** The platform of choice; reading past the eight asked for is out of bounds. *)
Fixpoint choose_platform (i : nat) (names : list (list Z)) : option nat :=
  match names with
  | [] => Some O
  | name :: names =>
      if (8 <=? i)%nat then None
      else if preferred name then Some i else choose_platform (S i) names
  end.

Definition open_queue (cl : OpenCl) : Z * bool :=
  let '(err, q) := if cl_dlsym cl "clCreateCommandQueueWithProperties" then cl_queue_with_properties cl else (0, false) in
  if negb q && cl_dlsym cl "clCreateCommandQueue" then cl_queue cl else (err, q).

(** [%-8zu] *)
Definition left_8 (s : list Z) : list Z := s ++ replicate (8 - length s) 32.

Definition nat_text (n : nat) : list Z := fmt_u64 (Z.of_nat n).

Section Verify.
Context `{Env} (cl : OpenCl) (fuel : nat).

(** ** One size *)

(** [vm_exec] on one element; the result of an error is not initialised. *)
Definition oracle (md : VmModule) (fi : nat) (x : Z) : Mem Z :=
  '(r, _) ← Cli.exec fuel md (Z.of_nat fi) [x];
  match r with Ok r => mret (i32 (val r)) | Err _ => mstuck end.

Fixpoint oracles (md : VmModule) (fi : nat) (xs : list Z) : Mem (list Z) :=
  match xs with
  | [] => mret []
  | x :: xs => v ← oracle md fi x; vs ← oracles md fi xs; mret (v :: vs)
  end.

(** The first element that differs. *)
Fixpoint first_diff (i : nat) (gpu : nat -> Z) (vm : list Z) : option (nat * Z * Z) :=
  match vm with
  | [] => None
  | v :: vm => if gpu i =? v then first_diff (S i) gpu vm else Some (i, gpu i, v)
  end.

Definition inputs (n : Z) : list Z := map (fun i => fibonacci_prng (Z.of_nat i)) (seq 0 (Z.to_nat n)).

Definition size_head (s_idx : nat) (n : list Z) : list Z := cstr "  [GPU-004 " ++ nat_text (s_idx + 1) ++ cstr "/7] N=" ++ n.

Definition divergence_line (s_idx : nat) (n : Z) (d : nat * Z * Z) : list Z :=
  let '(i, g, v) := d in
  size_head s_idx (fmt_u64 n) ++ cstr " DIVERGENCE @ i=" ++ nat_text i ++ cstr ": gpu=" ++ fmt_i64 g ++ cstr " vm=" ++ ln (fmt_i64 v).

Definition exact_line (s_idx : nat) (n : Z) : list Z :=
  size_head s_idx (left_8 (fmt_u64 n)) ++ ln (cstr " LIN_VM=OK  GPU_SILICON=OK  BIT_EXACT").

(** What is printed, and whether they match; the three buffers are not tested. *)
Definition gpu_size (md : VmModule) (fi : nat) (src : list Z) (s_idx : nat) (n : Z) : Mem (list Z * bool) :=
  ok1 ← try_malloc;
  ok2 ← try_malloc;
  ok3 ← try_malloc;
  if (ok1 : bool) && (ok2 : bool) && (ok3 : bool) then
    vm ← oracles md fi (inputs n);
    match cl_launch cl src (inputs n) with
    | None => mstuck
    | Some gpu =>
        match first_diff 0 gpu vm with
        | Some d => mret (divergence_line s_idx n d, false)
        | None => mret (exact_line s_idx n, true)
        end
    end
  else mstuck.

Fixpoint gpu_sizes (md : VmModule) (fi : nat) (src : list Z) (s_idx : nat) (ns : list Z) : Mem (list Z * nat) :=
  match ns with
  | [] => mret ([], O)
  | n :: ns =>
      '(t, m) ← gpu_size md fi src s_idx n;
      '(t', k) ← gpu_sizes md fi src (S s_idx) ns;
      mret (t ++ t', if m : bool then S k else k)
  end.

(** ** One kernel *)

Definition rule (n : nat) : list Z := concat (replicate n (cstr "─")).

Definition kernel_banner (f : VmFn) : list Z := rule 2 ++ cstr " LIN Kernel: " ++ fn_name f ++ cstr " " ++ ln (rule 41).

Definition hash_lines (sem low : list Z) : list Z :=
  cstr "  [LOWERER] mir_semantic_hash = sha256:" ++ hex64 sem ++ ln [] ++
  cstr "  [LOWERER] lowering_hash     = sha256:" ++ hex64 low ++ ln [].

Definition conformance (path : list Z) (f : VmFn) (sem low : list Z) (confirmed : nat) : list Z :=
  ln [] ++ ln (cstr "  @LIN:GPU_KERNEL_CONFORMANCE:1.0.0") ++ cstr "  .kernel=" ++ ln (quote (fn_name f)) ++
  cstr "  .source=" ++ ln path ++ cstr "  .mir_semantic_hash=" ++ ln (quote (cstr "sha256:" ++ hex64 sem)) ++
  cstr "  .lowering_hash=" ++ ln (quote (cstr "sha256:" ++ hex64 low)) ++
  cstr "  .targets=7 .confirmed=" ++ nat_text confirmed ++ cstr " .refuted=" ++ ln (nat_text (7 - confirmed)) ++ ln [].

Definition failed_call (what : string) (err : Z) : list Z := cstr "  [OPENCL] " ++ cstr what ++ cstr " failed (err=" ++ fmt_i64 err ++ ln (cstr ")").

(** Both streams, and the sizes confirmed. *)
Definition gpu_kernel (md : VmModule) (path : list Z) (fi : nat) (f : VmFn) : Mem (list Z * list Z * nat) :=
  let out := kernel_banner f in
  match lower_unary_fn_to_opencl f with
  | None => mstuck
  | Some None => mret (out, cstr "  [LOWERER] failed to lower " ++ fn_name f ++ ln (cstr " to OpenCL C"), O)
  | Some (Some (src, sem, low)) =>
      let out := out ++ hash_lines sem low in
      let src := strz src in
      if negb (cl_program cl src =? 0) then mret (out, failed_call "clCreateProgramWithSource" (cl_program cl src), O)
      else if negb (cl_build cl src =? 0) then mret (out, ln (cstr "  [BUILD ERROR]") ++ ln (cl_build_log cl src), O)
      else if negb (cl_kernel cl src =? 0) then mret (out, failed_call "clCreateKernel" (cl_kernel cl src), O)
      else
        '(t, k) ← gpu_sizes md fi src 0 SIZES;
        mret (out ++ t ++ conformance path f sem low k, [], k)
  end.

Definition is_unary (f : VmFn) : bool :=
  ok f && (nparams f =? 1)%nat && negb (bytes_eqb (take 5 (fn_name f)) (cstr "test_")).

(** Both streams, the sizes confirmed and the kernels met. *)
Fixpoint gpu_kernels (md : VmModule) (path : list Z) (fi : nat) (fs : list VmFn) : Mem (list Z * list Z * nat * nat) :=
  match fs with
  | [] => mret ([], [], O, O)
  | f :: fs =>
      if is_unary f then
        '(o, e, k) ← gpu_kernel md path fi f;
        '(o', e', total, unary) ← gpu_kernels md path (S fi) fs;
        mret (o ++ o', e ++ e', (k + total)%nat, S unary)
      else gpu_kernels md path (S fi) fs
  end.

(** ** The driver *)

Definition said (t : list Z) (rc : Z) : Mem ran := answer (cstr "gpu-verify: " ++ ln t) rc.
Definition wrong (t : list Z) : Mem ran := complain (cstr "gpu-verify: " ++ t).

Definition pipeline_head (platform device : list Z) : list Z :=
  let bar := ln (replicate 80 61) in
  ln [] ++ bar ++ ln (cstr "=== LINVM C0 SOVEREIGN GPU PIPELINE (LIN -> LinVM C0 -> ROCm/GPU)            ===") ++ bar ++
  cstr "[GPU PIPELINE] Platform : " ++ ln platform ++ cstr "[GPU PIPELINE] Device   : " ++ ln device ++ ln [].

Definition gpu_run (md : VmModule) (path : list Z) (plat : nat) : Mem ran :=
  let platform := default [] (cl_platforms cl !! plat) in
  '(o, e, total, unary) ← gpu_kernels md path 0 (fns md);
  let out := pipeline_head platform (cl_device_name cl plat) ++ o in
  if (unary =? 0)%nat then
    mret (mkRan (out ++ cstr "gpu-verify: no valid unary kernels found in " ++ ln path) e 1 None)
  else mret (mkRan out e (if (total =? unary * 7)%nat then 0 else 1) None).

Definition gpu_device (md : VmModule) (path : list Z) : Mem ran :=
  if negb (opencl_load cl) then said (cstr "no OpenCL library found (skipping physical GPU execution)") 0
  else if (length (cl_platforms cl) =? 0)%nat then said (cstr "no OpenCL platforms found") 0
  else
    match choose_platform 0 (cl_platforms cl) with
    | None => mstuck
    | Some plat =>
        if negb (cl_gpu_device cl plat || cl_any_device cl plat) then said (cstr "no OpenCL device found") 0
        else
          let '(err, ctx) := cl_context cl in
          if negb (err =? 0) || negb ctx then wrong (cstr "clCreateContext failed (err=" ++ fmt_i64 err ++ cstr ")")
          else
            let '(err, q) := open_queue cl in
            if negb (err =? 0) || negb q then wrong (cstr "clCreateCommandQueue failed (err=" ++ fmt_i64 err ++ cstr ")")
            else gpu_run md path plat
    end.

Context (fs : list Z -> option (list Z)).

Definition c0_gpu_verify (path : list Z) : Mem ran :=
  match fs path with
  | None => wrong (cstr "cannot open file " ++ path)
  | Some src =>
      ok ← try_malloc;
      if negb ok then wrong (cstr "failed to read " ++ path)
      else
        md ← or_null (c0_build src);
        match md with
        | None => wrong (cstr "failed to compile module " ++ path)
        | Some md => gpu_device md path
        end
  end.
End Verify.
