(* ===== verification/GpuProg.v ===== *)
(** * Kernels as programs

    [kernel] is the abstract syntax of what [lower_unary_fn_to_opencl] prints, in
    the C fragment of [CLang] with what a kernel adds: its global id, an early
    return without a value, a loop that counts an int.  long and ulong are the
    64-bit types of OpenCL C.  A work item runs the kernel on the buffers it shares
    with the others; a launch runs the work items in any order.  The printed text,
    when it fits the buffer, has exactly the tokens of this program. *)
From stdpp Require Import strings.
From S2P Require Import Prelude Common Token Decimal Region Abi Vm Sys C0Lex Cli CLang Jit JitProg Gpu.

(** ** The program *)

Inductive kitem : Type :=
| Do (b : cstmt)
| GlobalId (x : string)                   (* int x = get_global_id(0); *)
| LeaveIf (c : cexpr)                     (* if (c) return; *)
| CountUp (x : string) (c : cexpr) (b : cstmt)   (* for (int x = 0; c; x++) b *)
| Leave.                                  (* return; *)

Local Open Scope c_scope.

Definition L (z : Z) : cexpr := Num TI64 z.
Definition top (k : Z) : cexpr := At "s" (Bin Sub (Var "sp") (int k)).
Definition to_top (k : Z) (e : cexpr) : cstmt := Assign (top k) e.
Definition k_push (e : cexpr) : cstmt := Assign (At "s" (PostInc "sp")) e.
Definition k_local (z : Z) : cexpr := At "locals" (if z <? 0 then Un Minus (int (- z)) else int z).
Definition k_binary (e : cexpr) : list kitem := [Do (to_top 2 e ;; PostDec "sp")].
Definition k_op (o : cbinop) : list kitem := k_binary (Bin o (top 2) (top 1)).
Definition k_choice (c e1 e2 : cexpr) : cexpr := Cond TI64 (Paren c) e1 e2.
Definition k_divide (o : cbinop) : list kitem :=
  k_binary (k_choice (Bin BangEq (top 1) (L 0)) (Paren (Bin o (top 2) (top 1))) (L 0)).
Definition k_flag (o : cbinop) : list kitem := k_binary (k_choice (Bin o (top 2) (top 1)) (L 1) (L 0)).
Definition k_mask : cexpr := Paren (Bin Amp (top 1) (L 63)).

Definition ins_items (i : VmIns) : list kitem :=
  match op i with
  | OP_LOAD_LOCAL => [Do (k_push (k_local (a i)))]
  | OP_STORE_LOCAL => [Do (Assign (k_local (a i)) (At "s" (PreDec "sp")))]
  | OP_PUSH_CONST => [Do (k_push (const_e (a i)))]
  | OP_ADD => k_op Plus
  | OP_SUB => k_op Sub
  | OP_MUL => k_op Times
  | OP_DIV => k_divide Slash
  | OP_MOD => k_divide Percent
  | OP_BIT_AND => k_op Amp
  | OP_BIT_OR => k_op Bar
  | OP_BIT_XOR => k_op Caret
  | OP_BIT_NOT => [Do (to_top 1 (Un Tilde (top 1)))]
  | OP_NEG => [Do (to_top 1 (Un Minus (top 1)))]
  | OP_SHL => k_binary (Bin ShiftL (top 2) k_mask)
  | OP_SHR => k_binary (Bin ShiftR (top 2) k_mask)
  | OP_USHR => k_binary (Cast TI64 (Paren (Bin ShiftR (Cast TU64 (top 2)) k_mask)))
  | OP_CMP_EQ => k_flag EqEq
  | OP_CMP_NE => k_flag BangEq
  | OP_CMP_LT => k_flag Less
  | OP_CMP_GT => k_flag Greater
  | OP_CMP_LE => k_flag LessEq
  | OP_CMP_GE => k_flag GreaterEq
  | OP_LOG_NOT => [Do (to_top 1 (k_choice (Bin EqEq (top 1) (L 0)) (L 1) (L 0)))]
  | OP_POP => [Do (PostDec "sp")]
  | OP_RET => [Do (Assign (At "output" (Var "gid")) (Cast TI32 (top 1))); Leave]
  | _ => []
  end.

Definition k_prologue : list kitem := [
  GlobalId "gid";
  LeaveIf (Bin GreaterEq (Var "gid") (Var "n"));
  Do (DeclArr TI64 "locals" 32 false);
  CountUp "i" (Bin Less (Var "i") (int 32)) (Assign (At "locals" (Var "i")) (int 0));
  Do (Assign (At "locals" (int 0)) (Cast TI64 (At "input" (Var "gid"))));
  Do (DeclArr TI64 "s" 32 false);
  Do (Decl TI32 "sp" (Some (int 0)))
].

Definition kernel (code : list VmIns) : list kitem := k_prologue ++ concat (map ins_items code).

(** ** Its meaning *)

(** The state at the end of a work item; [None] is undefined behaviour. *)
Fixpoint run_kernel (gid : Z) (k : list kitem) (s : cenv) : option cenv :=
  match k with
  | [] | Leave :: _ => Some s
  | Do b :: k => match exec no_helper no_call b s with Go s => run_kernel gid k s | _ => None end
  | GlobalId x :: k => run_kernel gid k (cset x (Some (Sc TI32 (Some (i32 gid)))) s)
  | LeaveIf c :: k => '(_, v, s) ← eval no_helper c s; if v =? 0 then run_kernel gid k s else Some s
  | CountUp x c b :: k =>
      match turns no_helper x c (exec no_helper no_call b) LOOP_FUEL (cset x (Some (Sc TI32 (Some 0))) s) with
      | Go s' => run_kernel gid k (cset x (s x) s')
      | _ => None
      end
  end.

Definition k_args (inp : list Z) (out : list (option Z)) : cenv :=
  cset "input" (Some (Ar TI32 (map Some inp))) (cset "output" (Some (Ar TI32 out))
    (cset "n" (Some (Sc TI32 (Some (Z.of_nat (length inp))))) empty_env)).

(** The output buffer after a work item. *)
Definition work_item (k : list kitem) (inp : list Z) (out : list (option Z)) (gid : Z) : option (list (option Z)) :=
  s ← run_kernel gid k (k_args inp out);
  match s "output"%string with Some (Ar _ out) => Some out | _ => None end.

Fixpoint launch (k : list kitem) (inp : list Z) (out : list (option Z)) (order : list nat) : option (list (option Z)) :=
  match order with
  | [] => Some out
  | gid :: order => out ← work_item k inp out (Z.of_nat gid); launch k inp out order
  end.

(** [gws]: the size rounded up to whole groups of 256. *)
Definition global_size (n : nat) : nat := ((n + 255) / 256 * 256)%nat.

(** Every order of the work items leaves these values. *)
Definition launches (k : list kitem) (inp vals : list Z) : Prop :=
  forall order, Permutation order (seq 0 (global_size (length inp))) ->
    launch k inp (replicate (length inp) None) order = Some (map Some vals).

(** ** Its tokens *)

Definition k_type (t : cty) : string := match t with TI64 => "long" | TU64 => "ulong" | TI32 => "int" | TU16 => "ushort" | TSize => "size_t" end.

Fixpoint ke_toks (e : cexpr) : list (list Z) :=
  match e with
  | Num TI64 z => [fmt_u64 z ++ cstr "L"]
  | Num _ z => [fmt_u64 z]
  | At x e => tok x ++ tok "[" ++ ke_toks e ++ tok "]"
  | Un o e => unop_tok o ++ ke_toks e
  | Bin o e1 e2 => ke_toks e1 ++ binop_tok o ++ ke_toks e2
  | Cast t e => tok "(" ++ tok (k_type t) ++ tok ")" ++ ke_toks e
  | Cond _ c e1 e2 => ke_toks c ++ tok "?" ++ ke_toks e1 ++ tok ":" ++ ke_toks e2
  | Paren e => tok "(" ++ ke_toks e ++ tok ")"
  | e => e_toks e
  end.

Fixpoint ks_toks (b : cstmt) : list (list Z) :=
  match b with
  | Seq s1 s2 => ks_toks s1 ++ ks_toks s2
  | Decl t x (Some e) => tok (k_type t) ++ tok x ++ tok "=" ++ ke_toks e ++ tok ";"
  | DeclArr t x n false => tok (k_type t) ++ tok x ++ dim n ++ tok ";"
  | Assign l e => ke_toks l ++ tok "=" ++ ke_toks e ++ tok ";"
  | b => s_toks b
  end.

Definition k_toks (i : kitem) : list (list Z) :=
  match i with
  | Do b => ks_toks b
  | GlobalId x => tok "int" ++ tok x ++ map cstr ["="; "get_global_id"; "("; "0"; ")"; ";"]%string
  | LeaveIf c => tok "if" ++ tok "(" ++ ke_toks c ++ tok ")" ++ map cstr ["return"; ";"]%string
  | CountUp x c b =>
      map cstr ["for"; "("; "int"]%string ++ tok x ++ map cstr ["="; "0"; ";"]%string ++ ke_toks c ++ tok ";" ++ tok x ++
      map cstr ["++"; ")"]%string ++ ks_toks b
  | Leave => map cstr ["return"; ";"]%string
  end.

Definition kernel_signature : list (list Z) :=
  map cstr ["__kernel"; "void"; "lin_gpu_kernel"; "("; "__global"; "const"; "int"; "*"; "input"; ","; "__global"; "int"; "*"; "output"; ",";
            "const"; "int"; "n"; ")"; "{"]%string.

Definition kernel_toks (k : list kitem) : list (list Z) := kernel_signature ++ concat (map k_toks k) ++ tok "}".

(** What follows a comment. *)
Fixpoint after_comment (l : list Z) : list Z :=
  match l with
  | [] => []
  | c :: l' => if bytes_eqb (take 2 l) (cstr "*/") then drop 2 l else after_comment l'
  end.

Definition opencl_tokens (l : list Z) : list (list Z) :=
  ctokens (if bytes_eqb (take 2 l) (cstr "/*") then after_comment (drop 2 l) else l).

(** ** The text spells the program *)

Definition k_spellable (i : VmIns) : Prop := in_i64 (a i) /\ (op i = OP_PUSH_CONST -> a i <> INT64_MIN) /\
  (op i = OP_LOAD_LOCAL \/ op i = OP_STORE_LOCAL -> 0 <= a i).

Lemma words_long z : in_u64 z -> words (fmt_u64 z ++ cstr "L") /\ fmt_u64 z ++ cstr "L" <> [].
Proof.
  intros Hz. destruct (words_u64 z Hz) as [Hw _]. split; [unfold words; by rewrite forallb_app, Hw|]. by destruct (fmt_u64 z).
Qed.

Lemma spells_k_const z : in_i64 z -> spells (cstr "    s[sp++] = " ++ fmt_i64 z ++ ln (cstr "L;")) (ks_toks (k_push (const_e z))).
Proof.
  intros Hz. unfold in_i64, two63 in Hz. unfold fmt_i64, const_e. change (ln (cstr "L;")) with (cstr "L" ++ ln (cstr ";")).
  destruct (Z.ltb_spec z 0).
  - destruct (words_long (- z)) as [Hw Hn]; [unfold in_u64, two64; lia|].
    change (cstr "    s[sp++] = " ++ (45 :: fmt_u64 (- z)) ++ cstr "L" ++ ln (cstr ";")) with
      (cstr "    s[sp++] = -" ++ fmt_u64 (- z) ++ cstr "L" ++ ln (cstr ";")). rewrite (app_assoc (fmt_u64 (- z))).
    hole (cstr "    s[sp++] = -"); [exact Hw|exact Hn|vm_compute; reflexivity|reflexivity].
  - destruct (words_long z) as [Hw Hn]; [unfold in_u64, two64; lia|]. rewrite (app_assoc (fmt_u64 z)).
    hole (cstr "    s[sp++] = "); [exact Hw|exact Hn|vm_compute; reflexivity|reflexivity].
Qed.

Lemma spells_k_load z : in_i64 z -> 0 <= z -> spells (cstr "    s[sp++] = locals[" ++ fmt_i64 z ++ ln (cstr "];")) (ks_toks (k_push (k_local z))).
Proof.
  intros Hz H0. assert (in_u64 z) as Hu by (unfold in_i64, in_u64, two63, two64 in *; lia). rewrite fmt_i64_pos by done.
  unfold k_local. rewrite (proj2 (Z.ltb_ge z 0)) by done. number_hole (cstr "    s[sp++] = locals[") z Hu.
Qed.

Lemma spells_k_store z : in_i64 z -> 0 <= z ->
  spells (cstr "    locals[" ++ fmt_i64 z ++ ln (cstr "] = s[--sp];")) (ks_toks (Assign (k_local z) (At "s" (PreDec "sp")))).
Proof.
  intros Hz H0. assert (in_u64 z) as Hu by (unfold in_i64, in_u64, two63, two64 in *; lia). rewrite fmt_i64_pos by done.
  unfold k_local. rewrite (proj2 (Z.ltb_ge z 0)) by done. number_hole (cstr "    locals[") z Hu.
Qed.

Lemma spells_kernel_line i : k_spellable i -> spells (kernel_line i) (concat (map k_toks (ins_items i))).
Proof.
  intros (Hi & Hc & Hl). unfold kernel_line, ins_items. destruct (op i) eqn:Eo;
    lazymatch type of Eo with
    | _ = OP_PUSH_CONST => idtac | _ = OP_LOAD_LOCAL => idtac | _ = OP_STORE_LOCAL => idtac
    | _ => vm_compute; reflexivity
    end; cbn [map concat k_toks]; rewrite app_nil_r.
  - by apply spells_k_const.
  - apply spells_k_load; [done|auto].
  - apply spells_k_store; [done|auto].
Qed.

Lemma spells_kernel code : Forall k_spellable code -> spells (concat (map kernel_line code)) (concat (map k_toks (concat (map ins_items code)))).
Proof.
  induction 1 as [|i code Hi _ IH]; [apply spells_nil|]. cbn [map concat]. rewrite map_app, concat_app.
  apply spells_app; [by apply spells_kernel_line|exact IH].
Qed.

Definition kernel_text (f : VmFn) : list Z := kernel_head (fn_name f) ++ concat (map kernel_line (code f)) ++ ln (cstr "}").

Lemma after_comment_skip p l : Forall (fun c => c <> 42) p -> after_comment (p ++ l) = after_comment l.
Proof.
  induction 1 as [|c p Hc _ IH]; [done|]. cbn [app after_comment]. assert (bytes_eqb (take 2 (c :: p ++ l)) (cstr "*/") = false) as ->; [|exact IH].
  apply bytes_eqb_neq. destruct (p ++ l) as [|d r]; cbn; intros [= ? ?]; done.
Qed.

Lemma kernel_tokens f : Forall k_spellable (code f) -> Forall (fun c => c <> 42) (fn_name f) ->
  opencl_tokens (kernel_text f) = kernel_toks (kernel (code f)).
Proof.
  intros Hc Hn. unfold kernel_text, kernel_head. rewrite <- !app_assoc.
  set (rest := lns _ ++ _).
  assert (opencl_tokens (cstr "/* LIN-GPU-004: Auto-lowered from LIN function '" ++ fn_name f ++ ln (cstr "' (Sovereign Zero-Zig) */") ++ rest) = ctokens (10 :: rest)) as ->.
  { unfold opencl_tokens. change (bytes_eqb (take 2 (cstr "/* LIN-GPU-004: Auto-lowered from LIN function '" ++ fn_name f ++ ln (cstr "' (Sovereign Zero-Zig) */") ++ rest)) (cstr "/*")) with true.
    cbv iota. f_equal.
    change (drop 2 (cstr "/* LIN-GPU-004: Auto-lowered from LIN function '" ++ fn_name f ++ ln (cstr "' (Sovereign Zero-Zig) */") ++ rest))
      with (cstr " LIN-GPU-004: Auto-lowered from LIN function '" ++ fn_name f ++ cstr "' (Sovereign Zero-Zig) " ++ cstr "*/" ++ 10 :: rest).
    rewrite after_comment_skip by (apply (bool_decide_unpack _); vm_compute; exact I). rewrite after_comment_skip by done.
    rewrite after_comment_skip by (apply (bool_decide_unpack _); vm_compute; exact I). reflexivity. }
  apply spells_tokens. change (10 :: rest) with ([10] ++ rest). unfold rest, kernel_toks, kernel. rewrite map_app, concat_app, <- !app_assoc.
  rewrite (app_assoc kernel_signature), (app_assoc [10]).
  apply spells_app; [vm_compute; reflexivity|]. apply spells_app; [by apply spells_kernel|vm_compute; reflexivity].
Qed.

(** ** The text is whole, or there is none *)

Definition text_length (l : list Z) : Z := Z.of_nat (length l).

(** The buffer holds [t], if it fits. *)
Record holds_text (b : KBuf) (t : list Z) : Prop := {
  ht_off : kb_off b = text_length t;
  ht_text : kb_off b < KERNEL_MAX -> kb_text b = t
}.

Lemma text_length_app l k : text_length (l ++ k) = text_length l + text_length k.
Proof. unfold text_length. rewrite length_app. lia. Qed.

Lemma k_print_text b t s : holds_text b t ->
  match k_print b s with Some b => holds_text b (t ++ s) | None => KERNEL_MAX < text_length t end.
Proof.
  intros [Ho Ht]. unfold k_print. destruct (Z.ltb_spec KERNEL_MAX (kb_off b)); [lia|]. constructor; cbn [kb_off kb_text].
  - rewrite text_length_app. unfold text_length in *. lia.
  - intros Hs. rewrite Ht by lia. f_equal. apply firstn_all2. lia.
Qed.

Definition lines_text (code : list VmIns) : list Z := concat (map kernel_line code).

Lemma lower_code_text code : forall b t, holds_text b t -> text_length t < KERNEL_MAX - 100 ->
  match lower_code b code with
  | Some (Some b) => holds_text b (t ++ lines_text code) /\ text_length (t ++ lines_text code) < KERNEL_MAX - 100
  | Some None => KERNEL_MAX - 100 <= text_length (t ++ lines_text code)
  | None => False
  end.
Proof.
  induction code as [|i code IH]; intros b t Hb Ht; cbn [lower_code].
  { unfold lines_text. cbn [map concat]. by rewrite app_nil_r. }
  change (lines_text (i :: code)) with (kernel_line i ++ lines_text code). rewrite (app_assoc t).
  assert (exists b', match kernel_line i with [] => Some b | s => k_print b s end = Some b' /\ holds_text b' (t ++ kernel_line i)) as (b' & -> & Hb').
  { destruct (kernel_line i) as [|c s]; [exists b; by rewrite app_nil_r|]. pose proof (k_print_text b t (c :: s) Hb) as Hp.
    destruct (k_print b (c :: s)) as [b'|]; [by exists b'|]. unfold KERNEL_MAX in *. lia. }
  cbn [mbind option_bind]. destruct (Z.leb_spec (KERNEL_MAX - 100) (kb_off b')).
  - rewrite text_length_app. pose proof (ht_off _ _ Hb'). assert (0 <= text_length (lines_text code)) by apply Nat2Z.is_nonneg. lia.
  - apply IH; [done|]. pose proof (ht_off _ _ Hb'). lia.
Qed.

Definition kernel_fits (f : VmFn) : Prop := text_length (kernel_head (fn_name f) ++ lines_text (code f)) < KERNEL_MAX - 100.

(** A kernel that fits is printed in full. *)
Lemma lower_fits f : kernel_fits f ->
  lower_unary_fn_to_opencl f = Some (Some (kernel_text f, semantic_hash f, lowering_hash (semantic_hash f))).
Proof.
  unfold kernel_fits. intros Hf. unfold lower_unary_fn_to_opencl.
  assert (holds_text (mkKBuf 0 []) []) as H0 by done. pose proof (k_print_text _ _ (kernel_head (fn_name f)) H0) as Hp.
  destruct (k_print _ (kernel_head _)) as [b|]; [|unfold KERNEL_MAX, text_length in Hp; cbn in Hp; lia]. cbn [mbind option_bind]. cbn [app] in Hp.
  rewrite text_length_app in Hf. assert (0 <= text_length (lines_text (code f))) by apply Nat2Z.is_nonneg.
  pose proof (lower_code_text (code f) b _ Hp ltac:(lia)) as Hc. rewrite text_length_app in Hc.
  destruct (lower_code b (code f)) as [[b'|]|]; [|lia|done]. cbn [mbind option_bind]. destruct Hc as [Hb' Hlt].
  pose proof (k_print_text b' _ (ln (cstr "}")) Hb') as Hq. destruct (k_print b' _) as [b2|]; [|rewrite text_length_app in Hq; lia].
  cbn [mbind option_bind]. do 4 f_equal. destruct Hq as [Ho Ht]. rewrite Ht; [by rewrite <- app_assoc|].
  rewrite Ho, !text_length_app. change (text_length (ln (cstr "}"))) with 2. lia.
Qed.

(** One that does not fit is refused, or its name alone is past the buffer. *)
Lemma lower_refuses f : ~ kernel_fits f -> code f <> [] ->
  match lower_unary_fn_to_opencl f with
  | Some (Some _) => False
  | Some None => True
  | None => KERNEL_MAX < text_length (kernel_head (fn_name f))
  end.
Proof.
  unfold kernel_fits. intros Hf Hc. unfold lower_unary_fn_to_opencl.
  assert (holds_text (mkKBuf 0 []) []) as H0 by done. pose proof (k_print_text _ _ (kernel_head (fn_name f)) H0) as Hp.
  destruct (k_print _ (kernel_head _)) as [b|]; [|unfold KERNEL_MAX, text_length in Hp; cbn in Hp; lia]. cbn [mbind option_bind app] in *.
  destruct (Z.ltb_spec (text_length (kernel_head (fn_name f))) (KERNEL_MAX - 100)) as [Hlt|Hge].
  - pose proof (lower_code_text (code f) b _ Hp Hlt) as Hl. destruct (lower_code b (code f)) as [[b'|]|]; [tauto|done..].
  - destruct (code f) as [|i c]; [done|]. cbn [lower_code].
    pose proof (ht_off _ _ Hp) as Ho. assert (forall s, match k_print b s with Some b' => KERNEL_MAX - 100 <= kb_off b' | None => KERNEL_MAX < text_length (kernel_head (fn_name f)) end) as Hk.
    { intros s. pose proof (k_print_text b _ s Hp) as Hk. destruct (k_print b s) as [b'|]; [|done]. rewrite (ht_off _ _ Hk), text_length_app.
      assert (0 <= text_length s) by apply Nat2Z.is_nonneg. lia. }
    destruct (kernel_line i) as [|d s].
    + cbn [mbind option_bind]. rewrite (proj2 (Z.leb_le _ _)) by lia. done.
    + specialize (Hk (d :: s)). destruct (k_print b (d :: s)) as [b'|]; cbn [mbind option_bind]; [|done]. by rewrite (proj2 (Z.leb_le _ _)) by lia.
Qed.
