(* ===== verification/GpuSim.v ===== *)
(** * A kernel computes what the machine computes

    Of a function without jumps, calls and arrays, on an input where no arithmetic
    overflows ([straight]), the kernel leaves the low 32 bits of the machine's
    result in the element of its work item, and the work items do so in any
    order. *)
From stdpp Require Import strings.
From S2P Require Import Prelude Common Decimal Region Abi Vm VmSpec VmSafe Linbc1 CLang Jit JitProg JitSim Gpu GpuProg.

(** ** Runs without overflow *)

Definition fits64 (z : Z) : bool := (- two63 <=? z) && (z <? two63).

(** An operation the kernel has, within 32 locals and 32 entries, whose exact
    result fits; the count of a shift is below 64. *)
Definition steady (i : VmIns) (fr : VmFrame) : bool :=
  let room := (length (stack fr) <? 32)%nat in
  let local := (0 <=? a i) && (a i <? 32) in
  match op i, stack fr with
  | OP_PUSH_CONST, _ => room && negb (a i =? INT64_MIN)
  | OP_LOAD_LOCAL, _ => room && local
  | OP_STORE_LOCAL, _ => local
  | OP_POP, _ | OP_BIT_NOT, _ | OP_LOG_NOT, _ | OP_RET, _ => true
  | OP_NEG, x :: _ => fits64 (- x)
  | OP_ADD, y :: x :: _ => fits64 (x + y)
  | OP_SUB, y :: x :: _ => fits64 (x - y)
  | OP_MUL, y :: x :: _ => fits64 (x * y)
  | OP_DIV, y :: x :: _ | OP_MOD, y :: x :: _ => fits64 (Z.quot x y)
  | OP_SHL, y :: x :: _ => (0 <=? y) && (y <? 64) && (0 <=? x) && fits64 (Z.shiftl x y)
  | OP_SHR, y :: x :: _ | OP_USHR, y :: x :: _ => (0 <=? y) && (y <? 64)
  | OP_BIT_AND, _ | OP_BIT_OR, _ | OP_BIT_XOR, _ => true
  | OP_CMP_EQ, _ | OP_CMP_NE, _ | OP_CMP_LT, _ | OP_CMP_GT, _ | OP_CMP_LE, _ | OP_CMP_GE, _ => true
  | _, _ => false
  end.

(** The machine's run from a frame, instruction after instruction, while it is
    steady: its result at OP_RET. *)
Fixpoint straight (ctx : LinVmContext) (code : list VmIns) (fr : VmFrame) : option VmExecResult :=
  match code with
  | [] => None
  | i :: code =>
      if steady i fr then
        match vm_step ctx i fr with
        | VOk (A_next fr) => straight ctx code fr
        | VOk (A_ret r) => Some r
        | _ => None
        end
      else None
  end.

(** ** C states that hold a frame *)

Record k_holds (fr : VmFrame) (s : cenv) : Prop := {
  k_sp : s "sp"%string = Some (Sc TI32 (Some (Z.of_nat (length (stack fr)))));
  k_stack : exists junk, s "s"%string = Some (Ar TI64 (map Some (rev (stack fr)) ++ junk)) /\ (length (stack fr) + length junk = 32)%nat;
  k_locals : s "locals"%string = Some (Ar TI64 (map Some (take 32 (locals fr))))
}.

Definition k_var (x : string) : bool := existsb (String.eqb x) ["sp"; "s"; "locals"]%string.

(** The other variables stay. *)
Definition k_same (s s' : cenv) : Prop := forall x, k_var x = false -> s' x = s x.

Lemma k_same_trans s1 s2 s3 : k_same s1 s2 -> k_same s2 s3 -> k_same s1 s3.
Proof. intros H1 H2 x Hx. rewrite (H2 x Hx). by apply H1. Qed.

Lemma k_same_set x c s : k_var x = true -> k_same s (cset x c s).
Proof. intros Hx y Hy. apply cset_other. destruct (String.eqb_spec y x) as [->|]; [congruence|done]. Qed.

Lemma small_i32 z : - 2147483648 <= z < 2147483648 -> i32 z = z.
Proof. intros Hz. unfold i32, two32. rewrite Z.mod_small; lia. Qed.

Lemma int_op o n m r : binop_at o TI32 n m = Some r -> is_shift o = false -> 0 <= n <= 64 -> 0 <= m <= 64 -> c_binop o (TI32, n) (TI32, m) = Some r.
Proof. intros Hr Ho Hn Hm. unfold c_binop. rewrite Ho. cbn [common promote cvt]. by rewrite !small_i32 by lia. Qed.

Lemma int_minus n m : 0 <= m <= n -> n <= 64 -> c_binop Sub (TI32, n) (TI32, m) = Some (TI32, n - m).
Proof. intros. apply int_op; [|done|lia..]. cbn [binop_at arith cvt]. by rewrite small_i32, Z.eqb_refl by lia. Qed.

Lemma int_plus n : 0 <= n <= 64 -> c_binop Plus (TI32, n) (TI32, 1) = Some (TI32, n + 1).
Proof. intros. apply int_op; [|done|lia..]. cbn [binop_at arith cvt]. by rewrite small_i32, Z.eqb_refl by lia. Qed.

Section States.
Context (h : string -> Z -> Z -> option Z) (call : list Z -> list (option Z) -> cres).

Lemma eval_L m s : 0 <= m < two63 -> eval h (L m) s = Some (TI64, m, s).
Proof. intros Hm. unfold L. cbn [eval cvt]. rewrite i64_id, Z.eqb_refl, (proj2 (Z.leb_le 0 m)) by (unfold in_i64; lia). done. Qed.

(** An entry of the stack, and another value there. *)
Lemma cell_middle (st : list Z) (c : option Z) (junk : list (option Z)) v :
  lookupz (map Some (rev st) ++ c :: junk) (Z.of_nat (length st)) = Some c /\
  insertz (Z.of_nat (length st)) v (map Some (rev st) ++ c :: junk) = Some (map Some (rev st) ++ v :: junk).
Proof.
  assert (length (map Some (rev st)) = length st) as Hl by (by rewrite length_map, length_rev). split.
  - rewrite lookupz_nat. by apply list_lookup_middle.
  - rewrite insertz_in by (rewrite length_app, Hl; cbn [length]; lia). f_equal. rewrite Nat2Z.id, insert_app_r_alt, Hl, Nat.sub_diag by lia. done.
Qed.

(** The cells under one or two entries. *)
Lemma cells_1 fr s y st : k_holds fr s -> stack fr = y :: st ->
  exists junk, s "s"%string = Some (Ar TI64 (map Some (rev st) ++ Some y :: junk)) /\ (S (length st) + length junk = 32)%nat.
Proof.
  intros [_ (junk & Hs & Hl) _] E. rewrite E in Hs, Hl. exists junk. split; [|done]. rewrite Hs. cbn [rev]. by rewrite map_app, <- app_assoc.
Qed.

Lemma cells_2 fr s y x st : k_holds fr s -> stack fr = y :: x :: st ->
  exists junk, s "s"%string = Some (Ar TI64 (map Some (rev st) ++ Some x :: Some y :: junk)) /\ (S (S (length st)) + length junk = 32)%nat.
Proof.
  intros Hh E. destruct (cells_1 _ _ _ _ Hh E) as (junk & Hs & Hl). exists junk. split; [|done]. rewrite Hs. cbn [rev]. by rewrite map_app, <- app_assoc.
Qed.

Lemma eval_sp fr s k n : k_holds fr s -> length (stack fr) = (n + k)%nat -> (n + k <= 32)%nat ->
  eval h (Bin Sub (Var "sp") (int (Z.of_nat k))) s = Some (TI32, Z.of_nat n, s).
Proof.
  intros Hh Hl Hn. cbn [eval]. rewrite (k_sp _ _ Hh). cbn [mbind option_bind].
  change (int (Z.of_nat k)) with (Num TI32 (Z.of_nat k)). cbn [eval cvt]. rewrite small_i32, Z.eqb_refl, (proj2 (Z.leb_le 0 (Z.of_nat k))) by lia.
  cbn [andb mbind option_bind]. rewrite int_minus by lia. cbn [mbind option_bind]. do 3 f_equal. lia.
Qed.

Lemma eval_top_1 fr s y st : k_holds fr s -> stack fr = y :: st -> eval h (top 1) s = Some (TI64, y, s).
Proof.
  intros Hh E. destruct (cells_1 _ _ _ _ Hh E) as (junk & Hs & Hl). unfold top. change 1 with (Z.of_nat 1).
  remember (Bin Sub (Var "sp") (int (Z.of_nat 1))) as e eqn:Ee. cbn [eval]. subst e.
  rewrite (eval_sp fr s 1 (length st) Hh) by (rewrite ?E; cbn [length]; lia). cbn [mbind option_bind].
  rewrite Hs, (proj1 (cell_middle st (Some y) junk None)). done.
Qed.

Lemma eval_top_2 fr s y x st : k_holds fr s -> stack fr = y :: x :: st -> eval h (top 2) s = Some (TI64, x, s).
Proof.
  intros Hh E. destruct (cells_2 _ _ _ _ _ Hh E) as (junk & Hs & Hl). unfold top. change 2 with (Z.of_nat 2).
  remember (Bin Sub (Var "sp") (int (Z.of_nat 2))) as e eqn:Ee. cbn [eval]. subst e.
  rewrite (eval_sp fr s 2 (length st) Hh) by (rewrite ?E; cbn [length]; lia). cbn [mbind option_bind].
  rewrite Hs, (proj1 (cell_middle st (Some x) (Some y :: junk) None)). done.
Qed.

Definition replaced (st : list Z) (v : Z) (junk : list (option Z)) (s : cenv) : cenv :=
  cset "s" (Some (Ar TI64 (map Some (rev st) ++ Some v :: junk))) s.

Lemma replaced_holds fr s st v junk n : k_holds fr s -> (S (length st) + length junk = 32)%nat -> n = S (length st) ->
  s "sp"%string = Some (Sc TI32 (Some (Z.of_nat n))) -> k_holds (with_stack fr (v :: st)) (replaced st v junk s).
Proof.
  intros [Hsp _ Hl] Hn -> E. constructor; cbn [with_stack stack locals]; unfold replaced.
  - by rewrite cset_other.
  - exists junk. rewrite cset_this. split; [|done]. cbn [rev]. by rewrite map_app, <- app_assoc.
  - by rewrite cset_other.
Qed.

(** [s[sp-1] = e] *)
Lemma exec_top_1 fr s y st e t v : k_holds fr s -> stack fr = y :: st -> eval h e s = Some (t, v, s) -> in_i64 v ->
  exists s', exec h call (to_top 1 e) s = Go s' /\ k_holds (with_stack fr (v :: st)) s' /\ k_same s s'.
Proof.
  intros Hh E He Hv. destruct (cells_1 _ _ _ _ Hh E) as (junk & Hs & Hl). exists (replaced st v junk s). split_and!.
  - unfold to_top, top. change 1 with (Z.of_nat 1). cbn [exec]. rewrite He. cbn [mbind option_bind].
    remember (Bin Sub (Var "sp") (int (Z.of_nat 1))) as i eqn:Ei. cbn [store]. subst i.
    rewrite (eval_sp fr s 1 (length st) Hh) by (rewrite ?E; cbn [length]; lia). cbn [mbind option_bind].
    rewrite Hs, (proj2 (cell_middle st (Some y) junk (Some (cvt TI64 v)))). cbn [mbind option_bind go cvt]. by rewrite i64_id.
  - eapply replaced_holds; [exact Hh|done..|]. rewrite (k_sp _ _ Hh), E. done.
  - by apply k_same_set.
Qed.

(** [s[sp-2] = e; sp--;] *)
Lemma exec_top_2 fr s y x st e t v : k_holds fr s -> stack fr = y :: x :: st -> eval h e s = Some (t, v, s) -> in_i64 v ->
  exists s', exec h call (Seq (to_top 2 e) (PostDec "sp")) s = Go s' /\ k_holds (with_stack fr (v :: st)) s' /\ k_same s s'.
Proof.
  intros Hh E He Hv. destruct (cells_2 _ _ _ _ _ Hh E) as (junk & Hs & Hl).
  exists (cset "sp" (Some (Sc TI32 (Some (Z.of_nat (S (length st)))))) (replaced st v (Some y :: junk) s)). split_and!.
  - unfold to_top, top. change 2 with (Z.of_nat 2). cbn [exec]. rewrite He. cbn [mbind option_bind].
    remember (Bin Sub (Var "sp") (int (Z.of_nat 2))) as i eqn:Ei. cbn [store]. subst i.
    rewrite (eval_sp fr s 2 (length st) Hh) by (rewrite ?E; cbn [length]; lia). cbn [mbind option_bind].
    rewrite Hs, (proj2 (cell_middle st (Some x) (Some y :: junk) (Some (cvt TI64 v)))). cbn [mbind option_bind go cvt]. rewrite i64_id by done.
    fold (replaced st v (Some y :: junk) s). cbn [eval]. unfold replaced at 1. rewrite cset_other, (k_sp _ _ Hh), E by done. cbn [length].
    rewrite int_minus by lia. cbn [mbind option_bind snd cvt go]. rewrite small_i32 by lia. do 5 f_equal. lia.
  - destruct Hh as [Hsp _ Hlo]. constructor; cbn [with_stack stack locals]; unfold replaced.
    + by rewrite cset_this.
    + exists (Some y :: junk). rewrite cset_other, cset_this by done. cbn [rev length]. rewrite map_app, <- app_assoc. split; [done|lia].
    + by rewrite !cset_other.
  - eapply k_same_trans; by apply k_same_set.
Qed.

(** [s[sp++] = e;] *)
Lemma exec_k_push fr s e t v : k_holds fr s -> (length (stack fr) < 32)%nat -> eval h e s = Some (t, v, s) -> in_i64 v ->
  exists s', exec h call (k_push e) s = Go s' /\ k_holds (with_stack fr (v :: stack fr)) s' /\ k_same s s'.
Proof.
  intros [Hsp (junk & Hs & Hl) Hlo] Hn He Hv. destruct junk as [|c junk]; [cbn [length] in Hl; lia|]. cbn [length] in Hl.
  set (s1 := cset "sp" (Some (Sc TI32 (Some (Z.of_nat (S (length (stack fr))))))) s).
  exists (replaced (stack fr) v junk s1). split_and!.
  - unfold k_push. cbn [exec]. rewrite He. cbn [mbind option_bind store eval]. rewrite Hsp, int_plus by lia. cbn [mbind option_bind snd cvt].
    rewrite small_i32 by lia. replace (Z.of_nat (length (stack fr)) + 1) with (Z.of_nat (S (length (stack fr)))) by lia. fold s1.
    unfold s1 at 1. rewrite cset_other, Hs by done. rewrite (proj2 (cell_middle (stack fr) c junk (Some (cvt TI64 v)))). cbn [mbind option_bind go cvt].
    by rewrite i64_id.
  - unfold replaced, s1. constructor; cbn [with_stack stack locals].
    + by rewrite cset_other, cset_this.
    + exists junk. rewrite cset_this. cbn [rev length]. rewrite map_app, <- app_assoc. split; [done|lia].
    + by rewrite !cset_other.
  - eapply k_same_trans; by apply k_same_set.
Qed.

(** [sp--;] *)
Lemma exec_k_pop fr s y st : k_holds fr s -> stack fr = y :: st ->
  exists s', exec h call (PostDec "sp") s = Go s' /\ k_holds (with_stack fr st) s' /\ k_same s s'.
Proof.
  intros Hh E. destruct (cells_1 _ _ _ _ Hh E) as (junk & Hs & Hl). exists (cset "sp" (Some (Sc TI32 (Some (Z.of_nat (length st))))) s). split_and!.
  - cbn [exec eval]. rewrite (k_sp _ _ Hh), E. cbn [length]. rewrite int_minus by lia. cbn [mbind option_bind snd cvt go]. rewrite small_i32 by lia.
    do 5 f_equal. lia.
  - destruct Hh as [Hsp _ Hlo]. constructor; cbn [with_stack stack locals].
    + by rewrite cset_this.
    + exists (Some y :: junk). rewrite cset_other by done. split; [done|cbn [length]; lia].
    + by rewrite cset_other.
  - by apply k_same_set.
Qed.

(** ** Locals *)

Lemma take_locals fr n : length (locals fr) = LIN_VM_MAX_LOCALS -> 0 <= n < 32 ->
  exists v, lookupz (locals fr) n = Some v /\ lookupz (map Some (take 32 (locals fr))) n = Some (Some v).
Proof.
  intros Hl Hn. unfold LIN_VM_MAX_LOCALS in Hl. destruct (lookupz_in (locals fr) n ltac:(lia)) as [v Hv]. exists v. split; [done|].
  apply lookupz_Some in Hv as [_ Hv]. apply lookupz_Some. split; [lia|]. rewrite list_lookup_fmap, lookup_take_lt, Hv by lia. done.
Qed.

Lemma eval_k_local fr s n : k_holds fr s -> length (locals fr) = LIN_VM_MAX_LOCALS -> 0 <= n < 32 ->
  exists v, lookupz (locals fr) n = Some v /\ eval h (k_local n) s = Some (TI64, v, s).
Proof.
  intros Hh Hl Hn. destruct (take_locals fr n Hl Hn) as (v & Hv & Hc). exists v. split; [done|].
  unfold k_local. rewrite (proj2 (Z.ltb_ge n 0)) by lia. pose proof (eval_int h n s ltac:(lia)) as Ei.
  remember (int n) as e eqn:Ee. cbn [eval]. rewrite Ei. cbn [mbind option_bind]. by rewrite (k_locals _ _ Hh), Hc.
Qed.

(** [locals[n] = s[--sp];] *)
Lemma exec_k_store fr s y st n ls : k_holds fr s -> stack fr = y :: st -> in_i64 y -> length (locals fr) = LIN_VM_MAX_LOCALS -> 0 <= n < 32 ->
  insertz n y (locals fr) = Some ls ->
  exists s', exec h call (Assign (k_local n) (At "s" (PreDec "sp"))) s = Go s' /\ k_holds (mkFrame ls st (pool fr)) s' /\ k_same s s'.
Proof.
  intros Hh E Hy Hlen Hn Hi. destruct (cells_1 _ _ _ _ Hh E) as (junk & Hs & Hl). apply insertz_Some in Hi as [_ ->].
  set (s1 := cset "sp" (Some (Sc TI32 (Some (Z.of_nat (length st))))) s).
  exists (cset "locals" (Some (Ar TI64 (map Some (take 32 (<[Z.to_nat n := y]> (locals fr)))))) s1). split_and!.
  - cbn [exec eval]. rewrite (k_sp _ _ Hh), E. cbn [length]. rewrite int_minus by lia. cbn [mbind option_bind snd cvt]. rewrite small_i32 by lia.
    replace (Z.of_nat (S (length st)) - 1) with (Z.of_nat (length st)) by lia. fold s1. unfold s1 at 1.
    rewrite cset_other, Hs, (proj1 (cell_middle st (Some y) junk None)) by done. cbn [mbind option_bind].
    unfold k_local. rewrite (proj2 (Z.ltb_ge n 0)) by lia. pose proof (eval_int h n s1 ltac:(lia)) as Ei.
    remember (int n) as e eqn:Ee. cbn [store]. rewrite Ei. cbn [mbind option_bind]. unfold s1 at 1. rewrite cset_other, (k_locals _ _ Hh) by done.
    unfold LIN_VM_MAX_LOCALS in Hlen. rewrite insertz_in by (rewrite length_map, length_take; lia). cbn [mbind option_bind go cvt]. rewrite i64_id by done.
    rewrite take_insert_lt by lia. change map with (@fmap list list_fmap). by rewrite list_fmap_insert.
  - unfold s1. constructor; cbn [stack locals].
    + by rewrite cset_other, cset_this.
    + exists (Some y :: junk). rewrite !cset_other by done. split; [done|cbn [length]; lia].
    + by rewrite cset_this.
  - eapply k_same_trans; by apply k_same_set.
Qed.
End States.

(** ** One instruction *)

Section Step.
Context (h : string -> Z -> Z -> option Z) (call : list Z -> list (option Z) -> cres).

Lemma fits64_range z : fits64 z = true <-> in_i64 z.
Proof. unfold fits64, in_i64. rewrite andb_true_iff, Z.leb_le, Z.ltb_lt. lia. Qed.

(** Two numbers of 64 bits. *)
Lemma long_op o x y r : in_i64 x -> in_i64 y -> binop_at o TI64 x y = Some r -> c_binop o (TI64, x) (TI64, y) = Some r.
Proof. intros Hx Hy Hr. unfold c_binop. destruct (is_shift o); cbn [common promote cvt]; by rewrite !i64_id. Qed.

(** What is needed of an instruction: its one statement. *)
Definition k_step (i : VmIns) (s : cenv) (fr : VmFrame) : Prop :=
  exists b s', ins_items i = [Do b] /\ exec h call b s = Go s' /\ k_holds fr s' /\ k_same s s'.

Context (fr : VmFrame) (s : cenv) (Hh : k_holds fr s) (Hf : frame_ok fr).

Section Binary.
Context (y x : Z) (st : list Z) (E : stack fr = y :: x :: st).

Lemma two_range : in_i64 x /\ in_i64 y.
Proof. pose proof (ok_stack _ Hf) as Hs. rewrite E in Hs. apply Forall_cons_1 in Hs as [? Hs]. by apply Forall_cons_1 in Hs as [? _]. Qed.

Lemma eval_two o r : o <> AndAnd -> binop_at o TI64 x y = Some r -> eval h (Bin o (top 2) (top 1)) s = Some (r, s).
Proof.
  intros Ho Hr. destruct two_range as [Hx Hy]. pose proof (eval_top_2 h fr s y x st Hh E) as E2. pose proof (eval_top_1 h fr s y (x :: st) Hh E) as E1.
  remember (top 2) as e2 eqn:H2. remember (top 1) as e1 eqn:H1.
  destruct o; try done; cbn [eval]; rewrite E2; cbn [mbind option_bind]; rewrite E1; cbn [mbind option_bind]; by rewrite (long_op _ _ _ _ Hx Hy Hr).
Qed.

(** A comparison with 0 or of the two, as 1 or 0. *)
Lemma eval_choice c b e1 e2 v : eval h c s = Some (TI32, truth b, s) -> (exists t, eval h (if b then e1 else e2) s = Some (t, v, s)) -> in_i64 v ->
  eval h (k_choice c e1 e2) s = Some (TI64, v, s).
Proof.
  intros Hc [t Ht] Hv. unfold k_choice. cbn [eval]. rewrite Hc. cbn [mbind option_bind].
  destruct b; cbn [truth Z.eqb]; rewrite Ht; cbn [mbind option_bind cvt]; by rewrite i64_id.
Qed.

Lemma turn_binary i e t v : ins_items i = k_binary e -> eval h e s = Some (t, v, s) -> in_i64 v -> k_step i s (with_stack fr (v :: st)).
Proof.
  intros Ei He Hv. destruct (exec_top_2 h call fr s y x st e t v Hh E He Hv) as (s' & Hx & Hh' & Hs).
  exists (Seq (to_top 2 e) (PostDec "sp")), s'. split_and!; [exact Ei|exact Hx|exact Hh'|exact Hs].
Qed.

Lemma step_op i o r t : ins_items i = k_op o -> o <> AndAnd -> binop_at o TI64 x y = Some (t, r) -> in_i64 r -> k_step i s (with_stack fr (r :: st)).
Proof. intros Ei Ho Hr Hv. eapply turn_binary; [exact Ei|by apply eval_two|done]. Qed.

Lemma flag_range b : in_i64 (b2z b).
Proof. destruct b; unfold in_i64, two63; cbn; lia. Qed.

Lemma eval_bit (b : bool) : exists t, eval h (if b then L 1 else L 0) s = Some (t, b2z b, s).
Proof. exists TI64. destruct b; [apply (eval_L h 1)|apply (eval_L h 0)]; unfold two63; lia. Qed.

Lemma step_flag i o b : ins_items i = k_flag o -> o <> AndAnd -> binop_at o TI64 x y = Some (TI32, truth b) -> k_step i s (with_stack fr (b2z b :: st)).
Proof.
  intros Ei Ho Hr. eapply turn_binary; [exact Ei| |apply flag_range]. apply (eval_choice _ b); [by apply eval_two|apply eval_bit|apply flag_range].
Qed.

Lemma eval_nonzero : eval h (Bin BangEq (top 1) (L 0)) s = Some (TI32, truth (negb (y =? 0)), s).
Proof.
  pose proof (eval_top_1 h fr s y (x :: st) Hh E) as E1. pose proof (eval_L h 0 s ltac:(unfold two63; lia)) as E0.
  remember (top 1) as e1 eqn:H1. remember (L 0) as e0 eqn:H0. cbn [eval]. rewrite E1. cbn [mbind option_bind]. rewrite E0. cbn [mbind option_bind].
  destruct two_range as [_ Hy]. by rewrite (long_op BangEq y 0 _ Hy ltac:(unfold in_i64, two63; lia) eq_refl).
Qed.

Lemma step_divide i o r : ins_items i = k_divide o -> o <> AndAnd -> y <> 0 -> binop_at o TI64 x y = Some (TI64, r) -> in_i64 r ->
  k_step i s (with_stack fr (r :: st)).
Proof.
  intros Ei Ho Hy Hr Hv. eapply turn_binary; [exact Ei| |exact Hv]. apply (eval_choice _ (negb (y =? 0))); [apply eval_nonzero| |done].
  rewrite (proj2 (Z.eqb_neq y 0) Hy). exists TI64. cbn [negb]. exact (eval_two o (TI64, r) Ho Hr).
Qed.

Lemma eval_mask : 0 <= y < 64 -> eval h k_mask s = Some (TI64, y, s).
Proof.
  intros Hy. pose proof (eval_top_1 h fr s y (x :: st) Hh E) as E1. pose proof (eval_L h 63 s ltac:(unfold two63; lia)) as E0.
  unfold k_mask. remember (top 1) as e1 eqn:H1. remember (L 63) as e0 eqn:H0. cbn [eval]. rewrite E1. cbn [mbind option_bind]. rewrite E0. cbn [mbind option_bind].
  destruct two_range as [_ Hy'].
  rewrite (long_op Amp y 63 (TI64, Z.land y 63) Hy' ltac:(unfold in_i64, two63; lia) eq_refl). cbn [mbind option_bind]. by rewrite land_63.
Qed.

Lemma step_shift i o r : ins_items i = k_binary (Bin o (top 2) k_mask) -> o <> AndAnd -> 0 <= y < 64 -> binop_at o TI64 x y = Some (TI64, r) -> in_i64 r ->
  k_step i s (with_stack fr (r :: st)).
Proof.
  intros Ei Ho Hy Hr Hv. eapply turn_binary; [exact Ei| |exact Hv]. destruct two_range as [Hx' Hy'].
  pose proof (eval_top_2 h fr s y x st Hh E) as E2. pose proof (eval_mask Hy) as Em. remember (top 2) as e2 eqn:H2. remember k_mask as m eqn:Hm.
  destruct o; try done; cbn [eval]; rewrite E2; cbn [mbind option_bind]; rewrite Em; cbn [mbind option_bind]; rewrite (long_op _ _ _ _ Hx' Hy' Hr); reflexivity.
Qed.

Lemma step_ushr i : op i = OP_USHR -> 0 <= y < 64 -> k_step i s (with_stack fr (i64 (Z.shiftr (u64 x) y) :: st)).
Proof.
  intros Eo Hy. eapply turn_binary; [unfold ins_items; rewrite Eo; reflexivity| |apply i64_range].
  pose proof (eval_top_2 h fr s y x st Hh E) as E2. pose proof (eval_mask Hy) as Em. remember (top 2) as e2 eqn:H2. remember k_mask as m eqn:Hm.
  cbn [eval]. rewrite E2. cbn [mbind option_bind]. rewrite Em. cbn [mbind option_bind]. unfold c_binop. cbn [is_shift promote cvt binop_at shift_ok].
  destruct two_range as [_ Hy']. rewrite (i64_id y Hy').
  assert (shift_ok TU64 y = true) as -> by (unfold shift_ok; apply andb_true_intro; split; [apply Z.leb_le|apply Z.ltb_lt]; lia).
  cbn [mbind option_bind].
  by rewrite (u64_id (u64 x)) by apply u64_range.
Qed.
End Binary.

Lemma arith_fits z : fits64 z = true -> arith TI64 z = Some z /\ i64 z = z.
Proof. intros Hz%fits64_range. unfold arith. cbn [cvt]. rewrite (i64_id z Hz), Z.eqb_refl. done. Qed.

(** A binary operation. *)
Lemma sim_binop i fr' : frame_ok fr' -> steady i fr = true -> exec_binop i fr = VOk (A_next fr') -> k_step i s fr'.
Proof.
  intros Hf' Hc Hx. unfold exec_binop in Hx. destruct (stack fr) as [|y [|x st]] eqn:E; try discriminate Hx.
  destruct (binop_result (op i) x y) as [r|e|] eqn:Er; try discriminate Hx. injection Hx as <-.
  assert (in_i64 r) as Hr by apply (Forall_cons_1 _ _ _ (ok_stack _ Hf')). destruct (two_range y x st E) as [Hx64 Hy64].
  unfold steady in Hc. rewrite E in Hc.
  destruct (op i) eqn:Eo; try discriminate Er; try (injection Er as <-);
    assert (forall its, its = ins_items i -> ins_items i = its) as Hits by auto;
    try (eapply (step_flag y x st E i); [unfold ins_items; by rewrite Eo|done|reflexivity]).
  - destruct (arith_fits _ Hc) as [Ea Ei]. rewrite lin_wadd_eq, Ei in *. eapply (step_op y x st E i Plus); [unfold ins_items; by rewrite Eo|done| |done]. cbn [binop_at]. by rewrite Ea.
  - destruct (arith_fits _ Hc) as [Ea Ei]. rewrite lin_wsub_eq, Ei in *. eapply (step_op y x st E i Sub); [unfold ins_items; by rewrite Eo|done| |done]. cbn [binop_at]. by rewrite Ea.
  - destruct (arith_fits _ Hc) as [Ea Ei]. rewrite lin_wmul_eq, Ei in *. eapply (step_op y x st E i Times); [unfold ins_items; by rewrite Eo|done| |done]. cbn [binop_at]. by rewrite Ea.
  - cbn [binop_result] in Er. destruct (Z.eqb_spec y 0) as [|Hy]; [done|]. injection Er as <-. destruct (arith_fits _ Hc) as [Ea Ei]. rewrite lin_wdiv_eq, Ei in * by done.
    eapply (step_divide y x st E i Slash); [unfold ins_items; by rewrite Eo|done|done| |done]. cbn [binop_at]. rewrite (proj2 (Z.eqb_neq y 0) Hy). by rewrite Ea.
  - cbn [binop_result] in Er. destruct (Z.eqb_spec y 0) as [|Hy]; [done|]. injection Er as <-. destruct (arith_fits _ Hc) as [Ea Ei]. rewrite (proj1 (lin_wrem_eq x y Hx64 Hy64 Hy)) in *.
    eapply (step_divide y x st E i Percent); [unfold ins_items; by rewrite Eo|done|done| |done]. cbn [binop_at]. rewrite (proj2 (Z.eqb_neq y 0) Hy), Ea.
    rewrite bool_decide_true by done. done.
  - eapply (step_op y x st E i Amp); [unfold ins_items; by rewrite Eo|done|reflexivity|done].
  - eapply (step_op y x st E i Bar); [unfold ins_items; by rewrite Eo|done|reflexivity|done].
  - eapply (step_op y x st E i Caret); [unfold ins_items; by rewrite Eo|done|reflexivity|done].
  - apply andb_true_iff in Hc as [Hc Hfit]. to_prop. destruct (arith_fits _ Hfit) as [Ea Ei]. unfold vm_shift in *.
    rewrite (proj2 (Z.ltb_ge y 0)), (proj2 (Z.leb_gt 64 y)) in * by lia. cbn [orb] in *. rewrite (u64_id x), i64_u64, Ei in * by (unfold in_i64, in_u64, two63, two64 in *; lia).
    eapply (step_shift y x st E i ShiftL); [unfold ins_items; by rewrite Eo|done|lia| |done]. cbn [binop_at]. unfold shift_ok.
    rewrite (proj2 (Z.leb_le 0 y)), (proj2 (Z.ltb_lt y 64)), (proj2 (Z.leb_le 0 x)) by lia. cbn [andb]. by rewrite Ea.
  - to_prop. unfold vm_shift in *. rewrite (proj2 (Z.ltb_ge y 0)), (proj2 (Z.leb_gt 64 y)) in * by lia. cbn [orb] in *.
    eapply (step_shift y x st E i ShiftR); [unfold ins_items; by rewrite Eo|done|lia| |done]. cbn [binop_at]. unfold shift_ok.
    rewrite (proj2 (Z.leb_le 0 y)), (proj2 (Z.ltb_lt y 64)) by lia. done.
  - to_prop. unfold vm_ushr in *. rewrite (proj2 (Z.ltb_ge y 0)), (proj2 (Z.leb_gt 64 y)) in * by lia. cbn [orb] in *.
    apply (step_ushr y x st E i Eo). lia.
Qed.

(** The top replaced. *)
Lemma turn_unary i e y st v : stack fr = y :: st -> ins_items i = [Do (to_top 1 e)] -> (exists t, eval h e s = Some (t, v, s)) -> in_i64 v ->
  k_step i s (with_stack fr (v :: st)).
Proof.
  intros E Ei [t He] Hv. destruct (exec_top_1 h call fr s y st e t v Hh E He Hv) as (s' & Hx & Hh' & Hs).
  exists (to_top 1 e), s'. split_and!; [exact Ei|exact Hx|exact Hh'|exact Hs].
Qed.

Lemma gpu_unary i fr' : op i ∈ [OP_BIT_NOT; OP_NEG; OP_LOG_NOT] -> frame_ok fr' -> steady i fr = true -> forall ctx, vm_step ctx i fr = VOk (A_next fr') -> k_step i s fr'.
Proof.
  intros Ho Hf' Hc ctx Hx. destruct (stack fr) as [|y st] eqn:E.
  { exfalso. unfold vm_step, pop in Hx. rewrite E in Hx. apply list_elem_of_In in Ho as [Eo|[Eo|[Eo|[]]]]; by rewrite <- Eo in Hx. }
  pose proof (eval_top_1 h fr s y st Hh E) as E1. pose proof (ok_stack _ Hf) as Hst. rewrite E in Hst. apply Forall_cons_1 in Hst as [Hy _].
  assert (forall v, fr' = with_stack fr (v :: st) -> in_i64 v) as Hv by (intros v ->; apply (Forall_cons_1 _ _ _ (ok_stack _ Hf'))).
  unfold vm_step, pop in Hx. rewrite E in Hx.
  apply list_elem_of_In in Ho as [Eo|[Eo|[Eo|[]]]]; symmetry in Eo; rewrite Eo in Hx; injection Hx as <-;
    (eapply (turn_unary i _ y st); [exact E|unfold ins_items; by rewrite Eo| |by apply Hv]).
  - exists TI64. remember (top 1) as e1 eqn:H1. cbn [eval]. rewrite E1. cbn [mbind option_bind c_unop promote cvt]. rewrite i64_id; [done|]. by apply Hv.
  - exists TI64. remember (top 1) as e1 eqn:H1. cbn [eval]. rewrite E1. cbn [mbind option_bind c_unop promote]. unfold steady in Hc. rewrite Eo, E in Hc.
    destruct (arith_fits _ Hc) as [Ea Ei]. rewrite Ea. assert (lin_wsub 0 y = - y) as -> by (rewrite lin_wsub_eq; exact Ei). reflexivity.
  - exists TI64. apply (eval_choice _ (y =? 0)); [|apply eval_bit|apply flag_range].
    pose proof (eval_L h 0 s ltac:(unfold two63; lia)) as E0. remember (top 1) as e1 eqn:H1. remember (L 0) as e0 eqn:H0. cbn [eval]. rewrite E1. cbn [mbind option_bind]. rewrite E0.
    cbn [mbind option_bind]. by rewrite (long_op EqEq y 0 _ Hy ltac:(unfold in_i64, two63; lia) eq_refl).
Qed.

Lemma steady_room i : op i = OP_PUSH_CONST \/ op i = OP_LOAD_LOCAL -> steady i fr = true -> (length (stack fr) < 32)%nat.
Proof. intros Ho Hc. unfold steady in Hc. destruct Ho as [Eo|Eo]; rewrite Eo in Hc; apply andb_true_iff in Hc as [Hc _]; by apply Nat.ltb_lt. Qed.

(** Of the machine's step, the statement of the kernel. *)
Lemma sim_ins ctx i fr' : in_i64 (a i) -> frame_ok fr' -> steady i fr = true -> vm_step ctx i fr = VOk (A_next fr') -> k_step i s fr'.
Proof.
  intros Ha Hf' Hc Hx.
  assert (forall b s', ins_items i = [Do b] -> exec h call b s = Go s' -> k_holds fr' s' -> k_same s s' -> k_step i s fr') as Hone
    by (intros b s' H1 H2 H3 H4; exists b, s'; split_and!; [exact H1|exact H2|exact H3|exact H4]).
  destruct (op i) eqn:Eo;
    try (unfold steady in Hc; rewrite Eo in Hc; destruct (stack fr); discriminate Hc);
    try (apply (sim_binop i); [exact Hf'|exact Hc|]; unfold vm_step in Hx; rewrite Eo in Hx; exact Hx);
    try (apply (gpu_unary i) with (ctx := ctx); [solve [rewrite Eo; member]|exact Hf'|exact Hc|exact Hx]).
  - pose proof (steady_room i ltac:(auto) Hc) as Hroom. unfold steady in Hc. rewrite Eo in Hc. apply andb_true_iff in Hc as [_ Hm%negb_true_iff%Z.eqb_neq].
    unfold vm_step, push in Hx. rewrite Eo in Hx. destruct (_ <=? _)%nat; [done|]. injection Hx as <-.
    destruct (exec_k_push h call fr s _ TI64 (a i) Hh Hroom (eval_const h (a i) s Ha Hm) Ha) as (s' & H1 & H2 & H3).
    eapply Hone; [unfold ins_items; by rewrite Eo|exact H1|exact H2|exact H3].
  - pose proof (steady_room i ltac:(auto) Hc) as Hroom. unfold steady in Hc. rewrite Eo in Hc. apply andb_true_iff in Hc as [_ Hl]. to_prop.
    unfold vm_step in Hx. rewrite Eo in Hx. destruct (_ <=? _)%nat; [done|]. rewrite u64_id in Hx by (unfold in_u64, two64; lia).
    destruct (eval_k_local h fr s (a i) Hh (ok_nlocals _ Hf) ltac:(lia)) as (v & Hv & He). rewrite Hv in Hx. injection Hx as <-.
    assert (in_i64 v) as Hv64 by (apply (Forall_elem _ _ _ (ok_locals _ Hf)); by eapply lookupz_elem).
    destruct (exec_k_push h call fr s _ TI64 v Hh Hroom He Hv64) as (s' & H1 & H2 & H3).
    eapply Hone; [unfold ins_items; by rewrite Eo|exact H1|exact H2|exact H3].
  - unfold steady in Hc. rewrite Eo in Hc. assert (0 <= a i < 32) as Hr by (destruct (stack fr); to_prop; lia).
    unfold vm_step, pop in Hx. rewrite Eo in Hx. destruct (stack fr) as [|y st] eqn:E; [done|]. cbv beta iota in Hx.
    pose proof (ok_stack _ Hf) as Hst. rewrite E in Hst. apply Forall_cons_1 in Hst as [Hy _].
    cbn [locals with_stack stack pool] in Hx. rewrite u64_id in Hx by (unfold in_u64, two64; lia).
    destruct (insertz (a i) y (locals fr)) as [ls|] eqn:Ei; [|done]. injection Hx as <-.
    destruct (exec_k_store h call fr s y st (a i) ls Hh E Hy (ok_nlocals _ Hf) Hr Ei) as (s' & H1 & H2 & H3).
    eapply Hone; [unfold ins_items; by rewrite Eo|exact H1|exact H2|exact H3].
  - unfold vm_step, pop in Hx. rewrite Eo in Hx. destruct (stack fr) as [|y st] eqn:E; [done|]. injection Hx as <-.
    destruct (exec_k_pop h call fr s y st Hh E) as (s' & H1 & H2 & H3).
    eapply Hone; [unfold ins_items; by rewrite Eo|exact H1|exact H2|exact H3].
  - unfold vm_step in Hx. rewrite Eo in Hx. unfold pop in Hx. by destruct (stack fr).
Qed.
End Step.

(** ** A work item *)

Section Item.
Context (ctx : LinVmContext) (Hctx : ctx_safe ctx).

(** The last statement: the element of this work item. *)
Lemma exec_output fr s y st g out out' : k_holds fr s -> stack fr = y :: st -> s "gid"%string = Some (Sc TI32 (Some g)) ->
  s "output"%string = Some (Ar TI32 out) -> insertz g (Some (i32 y)) out = Some out' -> i32 (i32 y) = i32 y ->
  exec no_helper no_call (Assign (At "output" (Var "gid")) (Cast TI32 (top 1))) s = Go (cset "output" (Some (Ar TI32 out')) s).
Proof.
  intros Hh E Hg Ho Hi H32. pose proof (eval_top_1 no_helper fr s y st Hh E) as E1. remember (top 1) as e1 eqn:H1.
  cbn [exec eval]. rewrite E1. cbn [mbind option_bind store eval]. rewrite Hg. cbn [mbind option_bind cvt]. rewrite Ho. cbn [cvt]. rewrite H32, Hi. done.
Qed.

Lemma i32_idem z : i32 (i32 z) = i32 z.
Proof. apply small_i32. unfold i32, two32. pose proof (Z.mod_pos_bound (z + 2147483648) 4294967296 ltac:(lia)). lia. Qed.

(** The code, from a frame. *)
Lemma run_straight gid code g out out' r : forall fr s, k_holds fr s -> frame_ok fr -> Forall ins_safe code ->
  s "gid"%string = Some (Sc TI32 (Some g)) -> s "output"%string = Some (Ar TI32 out) ->
  insertz g (Some (i32 (val r))) out = Some out' -> straight ctx code fr = Some r ->
  exists s', run_kernel gid (concat (map ins_items code)) s = Some s' /\ s' "output"%string = Some (Ar TI32 out').
Proof.
  induction code as [|i code IH]; intros fr s Hh Hf Hs Hg Ho Hi Hr; [done|]. cbn [straight] in Hr. apply Forall_cons_1 in Hs as [Hsi Hs].
  destruct (steady i fr) eqn:Hc; [|done]. pose proof (vm_step_ok ctx Hctx i Hsi fr Hf) as Hok.
  destruct (vm_step ctx i fr) as [[fr'|fr' pc|r'|ti args fr']| |] eqn:Hx; try done.
  - destruct (sim_ins no_helper no_call fr s Hh Hf ctx i fr' (proj1 Hsi) Hok Hc Hx) as (b & s1 & Ei & He & Hh1 & Hsame).
    cbn [map concat]. rewrite Ei. cbn [app run_kernel]. rewrite He. apply (IH fr'); try done; by rewrite Hsame.
  - injection Hr as ->. assert (op i = OP_RET) as Eo.
    { destruct (op i) eqn:Eo; try done; try (unfold steady in Hc; rewrite Eo in Hc; destruct (stack fr); discriminate Hc);
        unfold vm_step, push, pop, exec_binop in Hx; rewrite Eo in Hx; repeat (case_match; try discriminate Hx). }
    unfold vm_step, pop in Hx. rewrite Eo in Hx. destruct (stack fr) as [|y st] eqn:E; [done|]. injection Hx as <-. cbn [val] in Hi.
    exists (cset "output" (Some (Ar TI32 out')) s). split; [|by rewrite cset_this]. cbn [map concat]. unfold ins_items at 1. rewrite Eo. cbn [app run_kernel].
    rewrite (exec_output fr s y st g out out' Hh E Hg Ho Hi (i32_idem y)). done.
Qed.
End Item.

(** ** The prologue *)

Definition start_frame (x : Z) : VmFrame := mkFrame (x :: replicate 63 0) [] [].

Lemma start_frame_ok x : in_i64 x -> frame_ok (start_frame x).
Proof.
  intros Hx. constructor; cbn [start_frame locals stack pool]; try constructor; try done; try (unfold LIN_VM_MAX_STACK, LIN_VM_MAX_ARRS; cbn; lia).
  apply Forall_replicate. unfold in_i64, two63. lia.
Qed.

(** The machine enters a function of one scalar parameter and no arrays so. *)
Lemma copy_no_arrays : forall x lens ls, Forall (fun n => n = 0) lens -> copy_args 0 [x] lens ls = vlet ls := deref (insertz 0 x ls) in VOk ls.
Proof. intros x lens ls Hl. cbn [copy_args]. destruct Hl as [|n lens -> _]; cbn [head default]; done. Qed.

Lemma alloc_no_arrays lens : Forall (fun n => n = 0) lens -> forall li ls pl, alloc_arrays li lens ls pl = VOk (ls, pl).
Proof. induction 1 as [|n lens -> _ IH]; intros li ls pl; cbn [alloc_arrays]; [done|]. cbn [Z.eqb]. apply IH. Qed.

Lemma enter_unary f x : Forall (fun n => n = 0) (arr_n f) -> enter_frame f [x] = VOk (start_frame x).
Proof. intros Hf. unfold enter_frame. rewrite (alloc_no_arrays _ Hf). cbv beta iota. rewrite copy_no_arrays by done. reflexivity. Qed.

(** [for (int i = 0; i < 32; i++) locals[i] = 0;] *)
Definition zero_cells (k : nat) : list (option Z) := replicate (32 - k) (Some 0) ++ replicate k None.

Lemma insert_zero_cell k : (k < 32)%nat -> insertz (Z.of_nat (32 - S k)) (Some 0) (zero_cells (S k)) = Some (zero_cells k).
Proof.
  intros Hk. unfold zero_cells. rewrite insertz_in by (rewrite length_app, !length_replicate; lia). f_equal. rewrite Nat2Z.id.
  rewrite insert_app_r_alt by (rewrite length_replicate; lia). rewrite length_replicate, Nat.sub_diag. cbn [replicate]. cbn [insert list_insert].
  replace (32 - k)%nat with (S (32 - S k)) by lia. rewrite replicate_S_end, <- app_assoc. done.
Qed.

Lemma count_up k : forall m s, (k <= 32)%nat -> s "i"%string = Some (Sc TI32 (Some (Z.of_nat (32 - k)))) ->
  s "locals"%string = Some (Ar TI64 (zero_cells k)) ->
  exists s', turns no_helper "i" (Bin Less (Var "i") (int 32)) (exec no_helper no_call (Assign (At "locals" (Var "i")) (int 0))) (S k + m) s = Go s' /\
    s' "locals"%string = Some (Ar TI64 (zero_cells 0)) /\ forall x, x <> "i"%string -> x <> "locals"%string -> s' x = s x.
Proof.
  induction k as [|k IH]; intros m s Hk Hi Hl; cbn [Nat.add turns]; pose proof (eval_int no_helper 32 s ltac:(lia)) as E32; remember (int 32) as e32 eqn:Ee32;
    cbn [eval]; rewrite Hi; cbn [mbind option_bind]; rewrite E32; cbn [mbind option_bind].
  - rewrite (int_op Less _ 32 (TI32, 0)) by (try reflexivity; lia). cbn [mbind option_bind Z.eqb]. exists s. done.
  - rewrite (int_op Less _ 32 (TI32, 1)); [| |reflexivity|lia..]; [|cbn [binop_at]; by rewrite (proj2 (Z.ltb_lt _ _)) by lia].
    cbn [mbind option_bind Z.eqb]. pose proof (eval_int no_helper 0 s ltac:(lia)) as E0. remember (int 0) as e0 eqn:Ee0.
    cbn [exec]. rewrite E0. cbn [mbind option_bind store eval]. rewrite Hi. cbn [mbind option_bind]. rewrite Hl. cbn [cvt]. rewrite (i64_id 0) by (unfold in_i64, two63; lia).
    rewrite insert_zero_cell by lia. cbn [mbind option_bind go]. set (s1 := cset "locals" _ s).
    assert (s1 "i"%string = s "i"%string) as -> by (by apply cset_other). rewrite Hi, int_plus by lia. cbn [mbind option_bind snd cvt]. rewrite small_i32 by lia.
    set (s2 := cset "i" _ s1). subst e32. destruct (IH m s2) as (s' & Ht & Hl' & Hs').
    + lia.
    + unfold s2. rewrite cset_this. do 4 f_equal. lia.
    + unfold s2, s1. by rewrite cset_other, cset_this.
    + exists s'. split; [exact Ht|]. split; [done|]. intros x H1 H2. rewrite Hs' by done. unfold s2, s1. rewrite !cset_other; [done| |]; by apply String.eqb_neq.
Qed.

(** The state after the prologue, of a work item below [n]. *)
Lemma run_prologue inp out g x rest : (g < length inp)%nat -> Z.of_nat (length inp) < 2147483648 -> inp !! g = Some x -> in_i64 x -> i32 x = x ->
  exists s, run_kernel (Z.of_nat g) (k_prologue ++ rest) (k_args inp out) = run_kernel (Z.of_nat g) rest s /\
    k_holds (start_frame x) s /\ s "gid"%string = Some (Sc TI32 (Some (Z.of_nat g))) /\ s "output"%string = Some (Ar TI32 out).
Proof.
  intros Hg Hn Hx H64 H32. unfold k_prologue. cbn [app run_kernel]. rewrite small_i32 by lia.
  set (s1 := cset "gid" _ (k_args inp out)).
  assert (eval no_helper (Bin GreaterEq (Var "gid") (Var "n")) s1 = Some (TI32, 0, s1)) as ->.
  { cbn [eval]. unfold s1 at 1. rewrite cset_this. cbn [mbind option_bind]. unfold s1 at 1. rewrite cset_other by done.
    change (k_args inp out "n"%string) with (Some (Sc TI32 (Some (Z.of_nat (length inp))))). cbn [mbind option_bind].
    unfold c_binop. cbn [is_shift common promote cvt binop_at]. rewrite !small_i32 by lia. by rewrite (proj2 (Z.leb_gt _ _)) by lia. }
  cbn [mbind option_bind Z.eqb exec]. set (s2 := cset "locals" _ s1).
  destruct (count_up 32 33 (cset "i" (Some (Sc TI32 (Some 0))) s2)) as (s3 & Et & Hl & Hs3); [lia|by rewrite cset_this|reflexivity|].
  change (turns no_helper "i" (Bin Less (Var "i") (int 32)) (fun s => go ('(_, v, s0) ← eval no_helper (int 0) s; store no_helper (At "locals" (Var "i")) v s0)) LOOP_FUEL)
    with (turns no_helper "i" (Bin Less (Var "i") (int 32)) (exec no_helper no_call (Assign (At "locals" (Var "i")) (int 0))) (33 + 33)).
  rewrite Et. set (s4 := cset "i" (s2 "i"%string) s3).
  assert (forall y, y <> "i"%string -> y <> "locals"%string -> s4 y = s1 y) as Hs4.
  { intros y Hi Hlo. unfold s4. rewrite cset_other by (by apply String.eqb_neq). rewrite Hs3 by done. unfold s2. by rewrite !cset_other by (by apply String.eqb_neq). }
  assert (s4 "gid"%string = Some (Sc TI32 (Some (Z.of_nat g)))) as Eg by (by rewrite Hs4).
  assert (s4 "locals"%string = Some (Ar TI64 (zero_cells 0))) as El by (unfold s4; by rewrite cset_other).
  assert (eval no_helper (Cast TI64 (At "input" (Var "gid"))) s4 = Some (TI64, x, s4)) as Ein.
  { cbn [eval]. rewrite Eg. cbn [mbind option_bind]. rewrite Hs4 by done. change (s1 "input"%string) with (Some (Ar TI32 (map Some inp))).
    cbv beta iota. rewrite lookupz_nat, list_lookup_fmap, Hx. cbn [fmap option_fmap option_map mbind option_bind cvt]. by rewrite i64_id. }
  assert (store no_helper (At "locals" (int 0)) x s4 = Some (cset "locals" (Some (Ar TI64 (Some x :: replicate 31 (Some 0)))) s4)) as Est.
  { pose proof (eval_int no_helper 0 s4 ltac:(lia)) as E0. remember (int 0) as e0 eqn:Ee0. cbn [store]. rewrite E0. cbn [mbind option_bind]. rewrite El. cbn [cvt]. rewrite i64_id by done.
    reflexivity. }
  rewrite Ein. cbn [mbind option_bind]. rewrite Est. cbn [go]. set (s5 := cset "locals" _ s4). set (s6 := cset "s" _ s5).
  exists (cset "sp" (Some (Sc TI32 (Some 0))) s6). split; [reflexivity|]. split; [|split].
  - constructor; cbn [start_frame stack locals rev map app length].
    + by rewrite cset_this.
    + exists (replicate 32 None). split; [|done]. rewrite cset_other by done. unfold s6. by rewrite cset_this.
    + rewrite cset_other by done. unfold s6. rewrite cset_other by done. unfold s5. by rewrite cset_this.
  - rewrite cset_other by done. unfold s6. rewrite cset_other by done. unfold s5. by rewrite cset_other.
  - rewrite cset_other by done. unfold s6. rewrite cset_other by done. unfold s5. rewrite cset_other by done. by rewrite Hs4.
Qed.

(** ** Launches *)

Section Launch.
Context (ctx : LinVmContext) (Hctx : ctx_safe ctx) (code : list VmIns) (Hcode : Forall ins_safe code).
Context (inp vals : list Z) (Hn : Z.of_nat (length inp) < 1073741824) (Hinp : Forall (fun x => - 2147483648 <= x < 2147483648) inp).

(** What a kernel computes of one element, and of all of them. *)
Definition computes (x v : Z) : Prop := exists r, straight ctx code (start_frame x) = Some r /\ v = i32 (val r).

Context (Hvals : Forall2 computes inp vals).

Lemma item_below g v out : vals !! g = Some v -> length out = length inp ->
  work_item (kernel code) inp out (Z.of_nat g) = Some (<[g := Some v]> out).
Proof.
  intros Hv Hl. destruct (Forall2_lookup_r _ _ _ _ _ Hvals Hv) as (x & Hx & r & Hr & ->). apply lookup_lt_Some in Hx as Hg.
  pose proof (Forall_lookup_1 _ _ _ _ Hinp Hx) as Hx32. cbn beta in Hx32. assert (in_i64 x) as Hx64 by (unfold in_i64, two63; lia).
  destruct (run_prologue inp out g x (concat (map ins_items code)) Hg ltac:(lia) Hx Hx64 (small_i32 x Hx32)) as (s & E & Hh & Hgid & Ho).
  assert (insertz (Z.of_nat g) (Some (i32 (val r))) out = Some (<[g := Some (i32 (val r))]> out)) as Hi by (rewrite insertz_in, Nat2Z.id by lia; done).
  destruct (run_straight ctx Hctx (Z.of_nat g) code (Z.of_nat g) out _ r (start_frame x) s Hh (start_frame_ok x Hx64) Hcode Hgid Ho Hi Hr) as (s' & E' & Ho').
  unfold work_item, kernel. rewrite E, E'. cbn [mbind option_bind]. by rewrite Ho'.
Qed.

Lemma item_above g out : (length inp <= g)%nat -> Z.of_nat g < 2147483648 -> work_item (kernel code) inp out (Z.of_nat g) = Some out.
Proof.
  intros Hg Hlt. unfold work_item, kernel, k_prologue. cbn [app run_kernel]. rewrite small_i32 by lia.
  set (s1 := cset "gid" _ (k_args inp out)).
  assert (eval no_helper (Bin GreaterEq (Var "gid") (Var "n")) s1 = Some (TI32, 1, s1)) as ->.
  { cbn [eval]. unfold s1 at 1. rewrite cset_this. cbn [mbind option_bind]. unfold s1 at 1. rewrite cset_other by done.
    change (k_args inp out "n"%string) with (Some (Sc TI32 (Some (Z.of_nat (length inp))))). cbn [mbind option_bind].
    unfold c_binop. cbn [is_shift common promote cvt binop_at]. rewrite !small_i32 by lia. by rewrite (proj2 (Z.leb_le _ _)) by lia. }
  reflexivity.
Qed.

(** After some of the work items, in whatever order, their elements are written. *)
Lemma launch_some order : forall out, length out = length inp -> Forall (fun g => Z.of_nat g < 2147483648) order ->
  exists out', launch (kernel code) inp out order = Some out' /\ length out' = length inp /\
    forall g v, vals !! g = Some v -> (g ∈ order -> out' !! g = Some (Some v)) /\ (g ∉ order -> out' !! g = out !! g).
Proof.
  pose proof (Forall2_length Hvals) as Hlen. induction order as [|g order IH]; intros out Hl Ho; cbn [launch].
  { exists out. split_and!; [done..|]. intros g v _. split; [by intros ?%elem_of_nil|done]. }
  apply Forall_cons_1 in Ho as [Hg Ho]. destruct (vals !! g) as [w|] eqn:Ew.
  - rewrite (item_below g w out Ew Hl). cbn [mbind option_bind]. apply lookup_lt_Some in Ew as Hlt.
    destruct (IH (<[g := Some w]> out)) as (out' & E & Hl' & Hout); [by rewrite length_insert|done|]. exists out'. split_and!; [done..|].
    intros k v Hk. destruct (Hout k v Hk) as [H1 H2]. destruct (decide (k ∈ order)) as [Hin|Hin].
    + split; [by intros _; apply H1|]. intros Hnot. exfalso. apply Hnot. by right.
    + rewrite (H2 Hin). split.
      * intros [->|?]%elem_of_cons; [|done]. rewrite Ew in Hk. injection Hk as <-. apply list_lookup_insert_eq. lia.
      * intros Hnot. apply list_lookup_insert_ne. intros ->. apply Hnot. by left.
  - apply lookup_ge_None in Ew. rewrite item_above by lia. cbn [mbind option_bind].
    destruct (IH out Hl Ho) as (out' & E & Hl' & Hout). exists out'. split_and!; [done..|]. intros k v Hk. destruct (Hout k v Hk) as [H1 H2].
    apply lookup_lt_Some in Hk as Hlt. split; [intros [->|?]%elem_of_cons; [lia|by apply H1]|]. intros Hnot. apply H2. intros ?. apply Hnot. by right.
Qed.

Lemma global_size_bounds n : (n <= global_size n < n + 256)%nat.
Proof.
  unfold global_size. pose proof (Nat.div_mod_eq (n + 255) 256) as E. pose proof (Nat.mod_upper_bound (n + 255) 256 ltac:(lia)) as B. lia.
Qed.

(** Every order of all of them leaves the same output. *)
Lemma kernel_launches : launches (kernel code) inp vals.
Proof.
  intros order Hp. pose proof (Forall2_length Hvals) as Hlen. pose proof (global_size_bounds (length inp)) as Hgs.
  assert (forall g, g ∈ order <-> (g < global_size (length inp))%nat) as Hin.
  { intros g. rewrite Hp, list_elem_of_In, in_seq. lia. }
  destruct (launch_some order (replicate (length inp) None)) as (out' & E & Hl & Hout); [by rewrite length_replicate| |].
  { apply Forall_forall. intros g Hg%list_elem_of_In%Hin. lia. }
  rewrite E. f_equal. apply list_eq. intros g. rewrite list_lookup_fmap. destruct (vals !! g) as [v|] eqn:Ev.
  - apply (Hout g v Ev). apply Hin. apply lookup_lt_Some in Ev. lia.
  - apply lookup_ge_None in Ev. apply lookup_ge_None_2. lia.
Qed.
End Launch.

(** ** The machine on the same element *)

Lemma straight_loop ctx f depth r code : forall fuel fr pc steps, code = drop (Z.to_nat pc) (Vm.code f) -> 0 <= pc ->
  straight ctx code fr = Some r -> (length code < fuel)%nat -> 0 <= steps -> steps + Z.of_nat (length code) <= step_limit ctx -> step_limit ctx < two64 ->
  exists st, vm_loop fuel ctx f depth fr pc steps = Some (V_ok r st).
Proof.
  induction code as [|i code IH]; intros fuel fr pc steps Hcode Hpc Hr Hf Hs Hl Hw; [done|]. destruct fuel as [|fuel]; [lia|].
  cbn [length] in *. cbn [vm_loop straight] in *. assert (Vm.code f !! Z.to_nat pc = Some i) as Hi.
  { rewrite <- (Nat.add_0_r (Z.to_nat pc)), <- lookup_drop, <- Hcode. done. }
  assert (lookupz (Vm.code f) pc = Some i) as -> by (by apply lookupz_Some). rewrite u64_id by (unfold in_u64, two64 in *; lia).
  rewrite (proj2 (Z.ltb_ge _ _)) by lia. destruct (steady i fr); [|done].
  destruct (vm_step ctx i fr) as [[fr'|fr' p|r'|ti args fr']| |]; try done.
  - apply (IH fuel fr' (pc + 1) (steps + 1)); try lia; [|done]. replace (Z.to_nat (pc + 1)) with (S (Z.to_nat pc)) by lia.
    pose proof (drop_S _ _ _ Hi) as Hd. rewrite <- Hcode in Hd. by injection Hd.
  - injection Hr as ->. by eexists.
Qed.

Definition kernel_context (md : VmModule) : LinVmContext := with_frames (vm_exec_context md true).

Lemma straight_exec md fi f x r fuel : lookupz (fns md) fi = Some f -> ok f = true -> nparams f = 1%nat -> Forall (fun n => n = 0) (arr_n f) ->
  straight (kernel_context md) (code f) (start_frame x) = Some r -> (length (code f) + 1 < fuel)%nat -> Z.of_nat (length (code f)) <= LIN_VM_STEP_LIMIT ->
  exists st, vm_exec fuel md true fi [x] 0 0 = Some (V_ok r st).
Proof.
  intros Hf Hok Hp Ha Hr Hfuel Hlim. destruct fuel as [|fuel]; [lia|]. unfold vm_exec. cbn [vm_exec_ctx].
  assert (vm_enter (vm_exec_context md true) fi [x] 0 = VOk f) as ->.
  { unfold vm_enter. cbn [vm_exec_context c_module frames calloc_ok]. rewrite Hf, Hok, Hp. done. }
  rewrite (enter_unary f x Ha). apply (straight_loop _ f 0%nat r (code f)); try done; lia.
Qed.
