(* ===== verification/GpuSpec.v ===== *)
(** * gpu-verify confirms what it should, and what it cannot see

    On a text whose unary functions are straight code without overflow, with an
    OpenCL that compiles and runs kernels as C says, [gpu-verify] finds every
    element of every size equal to the machine's.  Where kernels and machine part
    is at the end. *)
From stdpp Require Import strings.
From S2P Require Import Prelude Common Str Decimal Region Abi Vm VmSpec VmSafe Sha256 Linbc1 Encode Sys C0Lex C0LexSpec C0Comp C0Build C0Lang C0BuildSpec.
From S2P Require Import C0Sem C0Correct Cli CliSpec CLang Jit JitProg JitSim JitEmit JitBuild Gpu GpuProg GpuSim.

(** ** Texts *)

Local Abbreviation nonzero := (Forall (fun c : Z => c <> 0)).

Lemma nonzero_lit s : forallb (fun c => negb (c =? 0)) s = true -> nonzero s.
Proof. intros Hs. apply (texty_lit s Hs). Qed.

Lemma nonzero_i64 x : in_i64 x -> nonzero (fmt_i64 x).
Proof. intros Hx. apply (texty_i64 x Hx). Qed.

Lemma kernel_line_nonzero i : in_i64 (a i) -> nonzero (kernel_line i).
Proof.
  intros Hi. unfold kernel_line. destruct (op i) eqn:Eo;
    lazymatch type of Eo with
    | _ = OP_PUSH_CONST => idtac | _ = OP_LOAD_LOCAL => idtac | _ = OP_STORE_LOCAL => idtac
    | _ => apply nonzero_lit; vm_compute; reflexivity
    end; (apply Forall_app; split; [apply nonzero_lit; reflexivity|]; apply Forall_app; split; [by apply nonzero_i64|apply nonzero_lit; reflexivity]).
Qed.

Lemma name_char_plain c : c0_is_name_char c = true -> c <> 0 /\ c <> 42.
Proof. unfold c0_is_name_char, in_range. intros Hc. split; intros ->; by vm_compute in Hc. Qed.

Lemma kernel_text_nonzero f : Forall (fun i => in_i64 (a i)) (code f) -> forallb c0_is_name_char (fn_name f) = true -> strz (kernel_text f) = kernel_text f.
Proof.
  intros Hc Hn. apply strz_id. unfold kernel_text, kernel_head. rewrite <- !app_assoc.
  rewrite !Forall_app. split_and!; try (apply nonzero_lit; reflexivity).
  - apply Forall_forall. intros c Hin. apply name_char_plain. by apply (proj1 (List.forallb_forall _ _) Hn).
  - induction Hc as [|i code Hi _ IH]; [constructor|]. cbn [map concat]. apply Forall_app. split; [by apply kernel_line_nonzero|done].
Qed.

(** ** What is asked of the functions and of OpenCL *)

(** A kernel that fits its buffer, of a function without arrays, steady on every
    32-bit input. *)
Record gpu_fit (md : VmModule) (f : VmFn) : Prop := {
  gf_text : kernel_fits f;
  gf_arrays : Forall (fun n => n = 0) (arr_n f);
  gf_steady : forall x, - 2147483648 <= x < 2147483648 -> is_Some (straight (kernel_context md) (code f) (start_frame x))
}.

(** A text that spells the kernel compiles; a launch leaves what every order of
    the work items leaves. *)
Record obeys_opencl (cl : OpenCl) (k : list kitem) (src : list Z) : Prop := {
  oc_program : cl_program cl src = 0;
  oc_build : cl_build cl src = 0;
  oc_kernel : cl_kernel cl src = 0;
  oc_launch : forall inp vals, launches k inp vals ->
    exists gpu, cl_launch cl src inp = Some gpu /\ forall i v, vals !! i = Some v -> gpu i = v
}.

Definition opencl_compiler (cl : OpenCl) (k : list kitem) : Prop := forall src, opencl_tokens src = kernel_toks k -> obeys_opencl cl k src.

(** A platform with a device, a context and a queue. *)
Record opencl_ready (cl : OpenCl) (plat : nat) : Prop := {
  or_library : opencl_load cl = true;
  or_platforms : cl_platforms cl <> [];
  or_choice : choose_platform 0 (cl_platforms cl) = Some plat;
  or_device : cl_gpu_device cl plat || cl_any_device cl plat = true;
  or_context : cl_context cl = (0, true);
  or_queue : open_queue cl = (0, true)
}.

(** ** What is printed *)

Definition kernel_report (path : list Z) (f : VmFn) : list Z :=
  kernel_banner f ++ hash_lines (semantic_hash f) (lowering_hash (semantic_hash f)) ++ concat (imap exact_line SIZES) ++
  conformance path f (semantic_hash f) (lowering_hash (semantic_hash f)) 7.

Definition unary_fns (md : VmModule) : list VmFn := List.filter is_unary (fns md).

Definition gpu_record (cl : OpenCl) (path : list Z) (plat : nat) (md : VmModule) : ran :=
  let out := pipeline_head (default [] (cl_platforms cl !! plat)) (cl_device_name cl plat) ++ concat (map (kernel_report path) (unary_fns md)) in
  match unary_fns md with
  | [] => mkRan (out ++ cstr "gpu-verify: no valid unary kernels found in " ++ ln path) [] 1 None
  | _ => mkRan out [] 0 None
  end.

(** ** One kernel *)

Definition kernel_value (md : VmModule) (f : VmFn) (x : Z) : Z :=
  match straight (kernel_context md) (code f) (start_frame x) with Some r => i32 (val r) | None => 0 end.

Lemma fibonacci_range i : - 2147483648 <= fibonacci_prng i < 2147483648.
Proof. unfold fibonacci_prng, i32, two32. pose proof (Z.mod_pos_bound (u32 (u64 ((i + 1) * 2654435769)) + 2147483648) 4294967296 ltac:(lia)). lia. Qed.

Lemma inputs_range n : Forall (fun x => - 2147483648 <= x < 2147483648) (inputs n).
Proof. unfold inputs. apply Forall_map, Forall_forall. intros i _. apply fibonacci_range. Qed.

Lemma inputs_length n : length (inputs n) = Z.to_nat n.
Proof. unfold inputs. by rewrite length_map, length_seq. Qed.

Lemma first_diff_none gpu vm : forall i, (forall k v, vm !! k = Some v -> gpu (i + k)%nat = v) -> first_diff i gpu vm = None.
Proof.
  induction vm as [|v vm IH]; intros i Hg; cbn [first_diff]; [done|].
  pose proof (Hg O v eq_refl) as H0. rewrite Nat.add_0_r in H0. rewrite H0, Z.eqb_refl. apply IH. intros k w Hk. rewrite Nat.add_succ_comm. by apply Hg.
Qed.

Section Kernel.
Context `{Env} (Ha : mallocs_succeed) (cl : OpenCl) (fuel : nat) (md : VmModule) (Hsafe : module_safe md).
Context (fi : nat) (f : VmFn) (Hfi : fns md !! fi = Some f) (Hu : is_unary f = true) (Hfit : gpu_fit md f).
Context (Hfuel : (length (code f) + 1 < fuel)%nat) (Hlim : Z.of_nat (length (code f)) <= LIN_VM_STEP_LIMIT).

Lemma unary_fn : ok f = true /\ nparams f = 1%nat.
Proof. unfold is_unary in Hu. apply andb_true_iff in Hu as [Hu' _]. apply andb_true_iff in Hu' as [? ?%Nat.eqb_eq]. done. Qed.

Lemma unary_safe : fn_safe f.
Proof. apply (Forall_elem _ _ _ Hsafe). by eapply list_elem_of_lookup_2. Qed.

Lemma oracle_ok x m : - 2147483648 <= x < 2147483648 -> exists m', oracle fuel md fi x m = Val (kernel_value md f x) m'.
Proof.
  intros Hx. destruct unary_fn as [Hok Hp]. destruct (gf_steady _ _ Hfit x Hx) as [r Hr].
  destruct (straight_exec md (Z.of_nat fi) f x r fuel) as [st E]; try done; [by rewrite lookupz_nat|apply Hfit|].
  unfold oracle, Cli.exec, kernel_value. destruct (try_malloc_ok m Ha) as [m1 Em]. unfold mbind, Mem_bind. rewrite Em, E, Hr. by eexists.
Qed.

Lemma oracles_ok xs : forall m, Forall (fun x => - 2147483648 <= x < 2147483648) xs -> exists m', oracles fuel md fi xs m = Val (map (kernel_value md f) xs) m'.
Proof.
  induction xs as [|x xs IH]; intros m Hxs; cbn [oracles map]; [by eexists|]. apply Forall_cons_1 in Hxs as [Hx Hxs].
  destruct (oracle_ok x m Hx) as [m1 E]. destruct (IH m1 Hxs) as [m2 E2]. after E. after E2. by eexists.
Qed.

Lemma kernel_computes xs : Forall (fun x => - 2147483648 <= x < 2147483648) xs ->
  Forall2 (computes (kernel_context md) (code f)) xs (map (kernel_value md f) xs).
Proof.
  induction 1 as [|x xs Hx _ IH]; [constructor|]. cbn [map]. constructor; [|done]. destruct (gf_steady _ _ Hfit x Hx) as [r Hr]. exists r.
  unfold kernel_value. by rewrite Hr.
Qed.

Lemma kernel_context_safe : ctx_safe (kernel_context md).
Proof. by split. Qed.

Context (src : list Z) (Hob : obeys_opencl cl (kernel (code f)) src).

Lemma gpu_size_ok s_idx n m : 0 <= n <= 1000000 -> exists m', gpu_size cl fuel md fi src s_idx n m = Val (exact_line s_idx n, true) m'.
Proof.
  intros Hn. pose proof (inputs_range n) as Hr. pose proof (kernel_launches (kernel_context md) kernel_context_safe (code f) (safe_code _ unary_safe) (inputs n)
    (map (kernel_value md f) (inputs n)) ltac:(rewrite inputs_length; lia) Hr (kernel_computes _ Hr)) as Hl.
  destruct (oc_launch _ _ _ Hob _ _ Hl) as (gpu & Eg & Hg). unfold gpu_size.
  destruct (try_malloc_ok m Ha) as [m1 E1]. after E1. destruct (try_malloc_ok m1 Ha) as [m2 E2]. after E2. destruct (try_malloc_ok m2 Ha) as [m3 E3]. after E3.
  cbn [andb]. destruct (oracles_ok (inputs n) m3 Hr) as [m4 E4]. after E4. rewrite Eg, (first_diff_none gpu); [by eexists|]. intros k v Hk. by apply Hg.
Qed.

Lemma gpu_sizes_ok ns : forall s_idx m, Forall (fun n => 0 <= n <= 1000000) ns ->
  exists m', gpu_sizes cl fuel md fi src s_idx ns m = Val (concat (imap (fun k => exact_line (s_idx + k)) ns), length ns) m'.
Proof.
  induction ns as [|n ns IH]; intros s_idx m Hns; cbn [gpu_sizes]; [by eexists|]. apply Forall_cons_1 in Hns as [Hn Hns].
  destruct (gpu_size_ok s_idx n m Hn) as [m1 E1]. after E1. destruct (IH (S s_idx) m1 Hns) as [m2 E2]. after E2. exists m2.
  cbn [imap concat length]. rewrite Nat.add_0_r. unfold mret, Mem_ret. do 3 f_equal. f_equal. apply imap_ext. intros k x _. unfold compose. by rewrite Nat.add_succ_r.
Qed.
End Kernel.

Lemma sizes_range : Forall (fun n => 0 <= n <= 1000000) SIZES.
Proof. repeat constructor; lia. Qed.

Lemma spellable_code f : fn_safe f -> Forall operand_nonneg (code f) -> Forall k_spellable (code f).
Proof.
  intros Hs Ho. apply Forall_forall. intros i Hi. pose proof (proj1 (List.Forall_forall _ _) (safe_code _ Hs) i Hi) as [H64 _].
  pose proof (proj1 (List.Forall_forall _ _) Ho i Hi) as H0. unfold operand_nonneg in H0. split; [done|]. split; [unfold INT64_MIN; lia|done].
Qed.

Lemma name_no_star f : forallb c0_is_name_char (fn_name f) = true -> Forall (fun c => c <> 42) (fn_name f).
Proof. intros Hn. apply Forall_forall. intros c Hin. apply name_char_plain. by apply (proj1 (List.forallb_forall _ _) Hn). Qed.

Section Kernels.
Context `{Env} (Ha : mallocs_succeed) (cl : OpenCl) (fuel : nat) (md : VmModule) (Hsafe : module_safe md) (path : list Z).

(** What the driver needs of each unary function. *)
Record gpu_good (f : VmFn) : Prop := {
  gg_fit : gpu_fit md f;
  gg_opencl : opencl_compiler cl (kernel (code f));
  gg_operands : Forall operand_nonneg (code f);
  gg_name : forallb c0_is_name_char (fn_name f) = true;
  gg_length : (length (code f) + 1 < fuel)%nat /\ Z.of_nat (length (code f)) <= LIN_VM_STEP_LIMIT
}.

Lemma good_spells f : fn_safe f -> gpu_good f -> strz (kernel_text f) = kernel_text f /\ obeys_opencl cl (kernel (code f)) (kernel_text f).
Proof.
  intros Hs [Hfit Hcl Ho Hn _]. pose proof (safe_code _ Hs) as Hc. split.
  - apply kernel_text_nonzero; [|done]. eapply List.Forall_impl; [|exact Hc]. by intros i [? _].
  - apply Hcl, kernel_tokens; [by apply spellable_code|by apply name_no_star].
Qed.

Lemma gpu_kernel_ok fi f m : fns md !! fi = Some f -> is_unary f = true -> gpu_good f ->
  exists m', gpu_kernel cl fuel md path fi f m = Val (kernel_report path f, [], 7%nat) m'.
Proof.
  intros Hfi Hu Hg. pose proof (unary_safe md Hsafe fi f Hfi) as Hs. destruct (good_spells f Hs Hg) as [Hz Hob]. destruct (gg_length _ Hg) as [Hf Hl].
  unfold gpu_kernel. rewrite (lower_fits f (gf_text _ _ (gg_fit _ Hg))), Hz, (oc_program _ _ _ Hob), (oc_build _ _ _ Hob), (oc_kernel _ _ _ Hob). cbn [Z.eqb negb].
  destruct (gpu_sizes_ok Ha cl fuel md Hsafe fi f Hfi Hu (gg_fit _ Hg) Hf Hl (kernel_text f) Hob SIZES 0%nat m sizes_range) as [m' E].
  unfold mbind at 1, Mem_bind at 1. rewrite E. exists m'. unfold kernel_report. unfold mret, Mem_ret. rewrite <- app_assoc. reflexivity.
Qed.

Lemma gpu_kernels_ok l : forall fi m, (forall k f, l !! k = Some f -> fns md !! (fi + k)%nat = Some f) -> (forall f, f ∈ l -> is_unary f = true -> gpu_good f) ->
  exists m', gpu_kernels cl fuel md path fi l m =
    Val (concat (map (kernel_report path) (List.filter is_unary l)), [], (length (List.filter is_unary l) * 7)%nat, length (List.filter is_unary l)) m'.
Proof.
  induction l as [|f l IH]; intros fi m Hl Hg; cbn [gpu_kernels List.filter]; [by eexists|].
  assert (forall k g, l !! k = Some g -> fns md !! (S fi + k)%nat = Some g) as Hl' by (intros k g Hk; rewrite Nat.add_succ_comm; by apply Hl).
  assert (forall g, g ∈ l -> is_unary g = true -> gpu_good g) as Hg' by (intros g Hin; apply Hg; by right).
  destruct (is_unary f) eqn:Hu; [|by apply IH]. pose proof (Hl O f eq_refl) as Hfi. rewrite Nat.add_0_r in Hfi.
  destruct (gpu_kernel_ok fi f m Hfi Hu (Hg f ltac:(by left) Hu)) as [m1 E1]. destruct (IH (S fi) m1 Hl' Hg') as [m2 E2].
  unfold mbind at 1, Mem_bind at 1. rewrite E1. unfold mbind at 1, Mem_bind at 1. rewrite E2. exists m2. reflexivity.
Qed.

Lemma gpu_device_ok plat m : opencl_ready cl plat -> (forall f, f ∈ fns md -> is_unary f = true -> gpu_good f) ->
  exists m', gpu_device cl fuel md path m = Val (gpu_record cl path plat md) m'.
Proof.
  intros [Hlib Hpl Hch Hdev Hctx Hq] Hg. unfold gpu_device. rewrite Hlib, Hch, Hdev, Hctx, Hq. cbn [negb Z.eqb orb].
  destruct (cl_platforms cl) as [|nm names] eqn:En; [done|]. cbn [length Nat.eqb].
  destruct (gpu_kernels_ok (fns md) 0%nat m ltac:(done) Hg) as [m' E]. unfold gpu_run. rewrite En. unfold mbind, Mem_bind. rewrite E. exists m'.
  unfold gpu_record, unary_fns. rewrite En. destruct (List.filter is_unary (fns md)) as [|f l]; [reflexivity|]. rewrite Nat.eqb_refl. reflexivity.
Qed.
End Kernels.

(** C19. A kernel that fits its buffer is printed in full and spells one OpenCL C
    program. Run over inputs on which the function is straight code without
    overflow, every order of the work items - those past the input included - is
    free of undefined behaviour and leaves the same output: the low 32 bits of
    what [vm_exec] returns, element by element. *)
Theorem gpu_kernel_correct md fi f (Hsafe : module_safe md) (Hfi : lookupz (fns md) fi = Some f) (Hu : is_unary f = true) (Hfit : kernel_fits f)
    (Harr : Forall (fun n => n = 0) (arr_n f)) (Hpos : Forall operand_nonneg (code f)) (Hname : forallb c0_is_name_char (fn_name f) = true)
    (Hlim : Z.of_nat (length (code f)) <= LIN_VM_STEP_LIMIT) :
  exists text, lower_unary_fn_to_opencl f = Some (Some (text, semantic_hash f, lowering_hash (semantic_hash f))) /\ strz text = text /\
    opencl_tokens text = kernel_toks (kernel (code f)) /\
    forall inp rs, Z.of_nat (length inp) < 1073741824 -> Forall (fun x => - 2147483648 <= x < 2147483648) inp ->
      Forall2 (fun x r => straight (kernel_context md) (code f) (start_frame x) = Some r) inp rs ->
      launches (kernel (code f)) inp (map (fun r => i32 (val r)) rs) /\
      forall fuel, (length (code f) + 1 < fuel)%nat -> Forall2 (fun x r => exists st, vm_exec fuel md true fi [x] 0 0 = Some (V_ok r st)) inp rs.
Proof.
  assert (fn_safe f) as Hs by (apply (Forall_elem _ _ _ Hsafe); by eapply lookupz_elem). destruct (unary_fn f Hu) as [Hok Hp].
  exists (kernel_text f). split; [by apply lower_fits|]. split.
  { apply kernel_text_nonzero; [|done]. eapply List.Forall_impl; [|exact (safe_code _ Hs)]. by intros i [? _]. }
  split.
  - apply kernel_tokens; [by apply spellable_code|by apply name_no_star].
  - intros inp rs Hn Hx Hrs. split.
    + apply (kernel_launches (kernel_context md)); [by apply kernel_context_safe|apply Hs|done|done|]. clear Hx Hn.
      induction Hrs as [|x r inp rs Hr _ IH]; cbn [map]; constructor; [by exists r|done].
    + intros fuel Hfuel. clear Hx Hn. induction Hrs as [|x r inp rs Hr _ IH]; constructor; [|done]. by apply (straight_exec md fi f x r).
Qed.

(** C20. [gpu-verify] confirms what it should: on a text whose unary functions are
    straight code without arrays, without overflow on any 32-bit input, and short
    enough for the kernel buffer, with an OpenCL that compiles kernels as C says,
    it reports every one of the seven sizes of every such function bit-exact and
    exits with 0 - or with 1 when the text has no such function. *)
Theorem gpu_verify_confirms `{Env} cl fuel fs path src m m1 md infos plat
    (Ha : mallocs_succeed) (Hs : fs path = Some src) (Hm : try_malloc m = Val true m1) (Hc : clean_text false src m1 md infos) (Hl : within_limits md)
    (Hr : opencl_ready cl plat)
    (Hgpu : forall f, f ∈ fns md -> is_unary f = true -> gpu_fit md f /\ opencl_compiler cl (kernel (code f))) (Hfuel : enough fuel) :
  exists m', c0_gpu_verify cl fuel fs path m = Val (gpu_record cl path plat md) m'.
Proof.
  destruct Hc as [[m2 Hb] [m3 Hi] Hd Hlen _]. destruct (built_module _ _ _ _ _ _ Hb Hi) as [Hmod Hinfos].
  destruct (built_loadable src m1 md m2 infos m3 Hb Hi Hd Hlen Hl) as [_ Hsafe].
  assert (or_null (c0_build src) m1 = Val (Some md) m2) as Eb by (by apply or_null_val).
  destruct (gpu_device_ok Ha cl fuel md Hsafe path plat m2 Hr) as [m' E].
  { intros f Hin Hu. destruct (Hgpu f Hin Hu) as [Hfit Hcl]. destruct (unary_fn f Hu) as [Hok _].
    destruct (module_fn_text _ _ _ _ _ _ Hmod Hinfos Hin Hok) as [Ho Hn]. constructor; try done.
    pose proof (ins_total_elem f (fns md) Hin) as Ht. pose proof (wl_ins _ Hl) as Hw. unfold enough, LIN_BC1_MAX_INS_TOTAL, LIN_VM_STEP_LIMIT in *. lia. }
  exists m'. unfold c0_gpu_verify. rewrite Hs. after Hm. cbn [negb]. after Eb. exact E.
Qed.

(** ** Witnesses *)

Definition mask_text : list Z := cstr "!mask(x: int) -> int { ^(x & 255) + 1 }  !test_id(x: int) -> int { ^x }".
Definition mask_mem : C0Mem := match @try_malloc calm mem0 with Val _ m => m | _ => mem0 end.
Definition mask_module : VmModule := match @c0_build calm mask_text mask_mem with Val md _ => md | _ => mkModule [] end.
Definition mask_infos : list C0FnInfo :=
  match @infos_loop calm mask_text (S (length mask_text)) 0 1 [] 0 mask_mem with Val infos _ => infos | _ => [] end.
Definition mask_fn : VmFn := default (mkFn [] 0 0 [] false false [] []) (fns mask_module !! 0%nat).

(** An OpenCL that runs the work items in the order of their ids. *)
Definition sample_opencl : OpenCl :=
  mkOpenCl (fun s => String.eqb s "libOpenCL.so.1") (fun s => negb (String.eqb s "clCreateCommandQueueWithProperties"))
    [cstr "llvmpipe"; cstr "AMD Accelerated Parallel Processing"] (fun _ => true) (fun _ => true) (fun _ => cstr "gfx1030") (0, true)
    (0, false) (0, true) (fun _ => 0) (fun _ => 0) (fun _ => []) (fun _ => 0)
    (fun _ inp => match launch (kernel (code mask_fn)) inp (replicate (length inp) None) (seq 0 (global_size (length inp))) with
                  | Some out => Some (fun i => default 0 (default None (out !! i)))
                  | None => None
                  end).

Lemma sample_opencl_ready : opencl_ready sample_opencl 1.
Proof. constructor; try reflexivity. discriminate. Qed.

Lemma sample_opencl_compiler : opencl_compiler sample_opencl (kernel (code mask_fn)).
Proof.
  intros src _. constructor; [reflexivity..|]. intros inp vals Hl. pose proof (Hl (seq 0 (global_size (length inp))) (Permutation_refl _)) as E.
  unfold sample_opencl, cl_launch. rewrite E. eexists. split; [reflexivity|].
  intros i v Hi. assert ((map Some vals : list (option Z)) !! i = Some (Some v)) as Ev by (by rewrite list_lookup_fmap, Hi). cbv beta. by rewrite Ev.
Qed.

Lemma mask_clean : @clean_text calm false mask_text mask_mem mask_module mask_infos.
Proof.
  constructor; [eexists; vm_compute; reflexivity|eexists; vm_compute; reflexivity|apply (bool_decide_unpack _); vm_compute; exact I|vm_compute; reflexivity|vm_compute; reflexivity].
Qed.

Lemma mask_limits : within_limits mask_module.
Proof. constructor; try (vm_compute; discriminate); apply (bool_decide_unpack _); vm_compute; exact I. Qed.

Lemma mask_code : code mask_fn = [mkIns OP_LOAD_LOCAL 0; mkIns OP_PUSH_CONST 255; mkIns OP_BIT_AND 0; mkIns OP_PUSH_CONST 1; mkIns OP_ADD 0;
  mkIns OP_RET 0; mkIns OP_PUSH_CONST 0; mkIns OP_RET 0].
Proof. vm_compute. reflexivity. Qed.

Lemma mask_straight ctx x : straight ctx (code mask_fn) (start_frame x) = Some (mkResult (Z.land x 255 + 1) 1).
Proof.
  assert (0 <= Z.land x 255 < 256) as Hx by (change 255 with (Z.ones 8); rewrite Z.land_ones by lia; apply Z.mod_pos_bound; lia).
  rewrite mask_code. cbv -[Z.land Z.add fits64 lin_wadd].
    assert (fits64 (Z.land x 255 + 1) = true) as -> by (apply fits64_range; unfold in_i64, two63; lia).
  rewrite lin_wadd_eq, i64_id by (unfold in_i64, two63; lia). reflexivity.
Qed.

Lemma mask_fit : gpu_fit mask_module mask_fn.
Proof.
  constructor; [vm_compute; reflexivity|apply (bool_decide_unpack _); vm_compute; exact I|]. intros x _. rewrite mask_straight. by eexists.
Qed.

Lemma mask_unary f : f ∈ fns mask_module -> is_unary f = true -> f = mask_fn.
Proof.
  set (g := default mask_fn (fns mask_module !! 1%nat)). assert (fns mask_module = [mask_fn; g]) as E by (vm_compute; reflexivity).
  assert (is_unary g = false) as Hg by (vm_compute; reflexivity).
  intros Hin Hu. rewrite E in Hin. apply list_elem_of_In in Hin. destruct Hin as [Hf|[Hf|[]]]; [symmetry; exact Hf|].
  exfalso. rewrite <- Hf, Hg in Hu. discriminate Hu.
Qed.

Lemma gpu_verify_confirms_witness : is_unary mask_fn = true /\ exists m',
  @c0_gpu_verify calm sample_opencl (2 * Z.to_nat LIN_VM_STEP_LIMIT + 2) (fun _ => Some mask_text) (cstr "a.lin") mem0 =
    Val (gpu_record sample_opencl (cstr "a.lin") 1 mask_module) m'.
Proof.
  split; [vm_compute; reflexivity|].
  apply (@gpu_verify_confirms calm sample_opencl _ (fun _ => Some mask_text) (cstr "a.lin") mask_text mem0 mask_mem mask_module mask_infos 1
    (fun _ => eq_refl) eq_refl eq_refl mask_clean mask_limits sample_opencl_ready); [|exact full_fuel].
  intros f Hin Hu. rewrite (mask_unary f Hin Hu). split; [exact mask_fit|exact sample_opencl_compiler].
Defined.

Lemma mask_operands : Forall operand_nonneg (code mask_fn).
Proof. rewrite mask_code. repeat constructor; unfold operand_nonneg; cbn [a]; lia. Qed.

Lemma mask_at : lookupz (fns mask_module) 0 = Some mask_fn /\ is_unary mask_fn = true /\ forallb c0_is_name_char (fn_name mask_fn) = true /\
  Z.of_nat (length (code mask_fn)) <= LIN_VM_STEP_LIMIT.
Proof. split_and!; [vm_compute; reflexivity..|vm_compute; discriminate]. Qed.

Lemma mask_safe : module_safe mask_module.
Proof.
  destruct mask_clean as [[m2 Hb] [m3 Hi] Hd Hlen _]. apply (built_loadable mask_text mask_mem mask_module m2 mask_infos m3 Hb Hi Hd Hlen mask_limits).
Qed.

Lemma gpu_kernel_correct_witness : exists text, lower_unary_fn_to_opencl mask_fn = Some (Some (text, semantic_hash mask_fn, lowering_hash (semantic_hash mask_fn))) /\
  launches (kernel (code mask_fn)) [511; -1] [256; 256].
Proof.
  destruct mask_at as (E1 & E2 & E3 & E4).
  destruct (gpu_kernel_correct mask_module 0 mask_fn mask_safe E1 E2 (gf_text _ _ mask_fit) (gf_arrays _ _ mask_fit) mask_operands E3 E4)
    as (text & E & _ & _ & H).
  exists text. split; [exact E|].
  apply (H [511; -1] [mkResult 256 1; mkResult 256 1]); [reflexivity|repeat constructor; lia|].
  constructor; [exact (mask_straight _ 511)|]. constructor; [exact (mask_straight _ (-1))|constructor].
Defined.

(** ** Where kernels and machine part *)

(** The module of a text, and its first function. *)
Definition text_module (src : list Z) : VmModule := match @c0_build calm src mem0 with Val md _ => md | _ => mkModule [] end.
Definition text_fn (src : list Z) : VmFn := default (mkFn [] 0 0 [] false false [] []) (fns (text_module src) !! 0%nat).

Definition machine_value (src : list Z) (x : Z) : option Z :=
  match vm_exec 1000 (text_module src) true 0 [x] 0 0 with Some (V_ok r _) => Some (val r) | _ => None end.
Definition kernel_output (src : list Z) (x : Z) : option (list (option Z)) := work_item (kernel (code (text_fn src))) [x] [None] 0.

(** Jumps are not lowered: both branches run, and a loop runs once. *)
Definition abs_text : list Z := cstr "!abs(x: int) -> int { ? (x < 0) { ^-x } ^x }".
Definition loop_text : list Z := cstr "!f(x: int) -> int { i = 0; while (i < 3) { i = i + 1; } ^i }".

Lemma gpu_drops_jumps :
  machine_value abs_text 5 = Some 5 /\ kernel_output abs_text 5 = Some [Some (-5)] /\
  machine_value loop_text 0 = Some 3 /\ kernel_output loop_text 0 = Some [Some 1].
Proof. split_and!; vm_compute; reflexivity. Qed.

(** Division by zero: 0 in the kernel; to the machine an error, of which the
    driver reads a result that was never written. *)
Definition div_text : list Z := cstr "!f(x: int) -> int { ^7 / x }".

Lemma gpu_division_by_zero : kernel_output div_text 0 = Some [Some 0] /\ machine_value div_text 0 = None /\
  @oracle calm 1000 (text_module div_text) 0 0 mem0 = MStuck.
Proof. split_and!; vm_compute; reflexivity. Qed.

(** A product past 64 bits wraps in the machine, and overflows in the kernel. *)
Definition overflow_text : list Z := cstr "!f(x: int) -> int { ^x * x * x * x }".

Lemma gpu_overflows : machine_value overflow_text 65536 = Some 0 /\ kernel_output overflow_text 65536 = None.
Proof. split; vm_compute; reflexivity. Qed.

(** A name that fills the buffer: the next line is written past it. *)
Definition long_fn : VmFn := mkFn (replicate 8000 97) 1 1 [mkIns OP_LOAD_LOCAL 0; mkIns OP_RET 0] true true [] [0].

Lemma gpu_long_name : lower_unary_fn_to_opencl long_fn = None.
Proof.
  unfold lower_unary_fn_to_opencl.
  assert (exists b, k_print (mkKBuf 0 []) (kernel_head (fn_name long_fn)) = Some b /\ lower_code b (code long_fn) = None) as (b & -> & E).
  { eexists. split; vm_compute; reflexivity. }
  cbn [mbind option_bind]. by rewrite E.
Qed.

(** Nine platforms: one more is read than was asked for. *)
Lemma gpu_nine_platforms : choose_platform 0 (replicate 9 (cstr "Portable Computing Language")) = None.
Proof. vm_compute. reflexivity. Qed.

(** Without OpenCL nothing is verified and the status is that of success. *)
Lemma gpu_absent `{Env} cl fuel md path m : opencl_load cl = false ->
  gpu_device cl fuel md path m = Val (mkRan (cstr "gpu-verify: no OpenCL library found (skipping physical GPU execution)" ++ [10]) [] 0 None) m.
Proof. intros Hl. unfold gpu_device. by rewrite Hl. Qed.
