(* ===== verification/Main.v ===== *)
(** * The two mains: lin_c0 and lin_bc1_run

    [lin_c0_main] is main of tool/lin_c0.c: usage, version, the arena, and the
    dispatch on the name of the command.  [bc1_run] is tool/lin_bc1_run.c, a host
    for images from a file or from hexadecimal on its command line: load, verify or
    evaluate. *)
From stdpp Require Import strings.
From S2P Require Import Prelude Common Str Decimal Region Abi Vm Sha256 Linbc1 Encode Sys C0Lex C0Comp C0Build Cli CliReceipt Jit Gpu.

(** ** lin_c0 *)

Definition main_usage : list Z := lns [
  "usage: lin_c0 --version | info <f.lin> | check <f.lin> | lint <f.lin> |";
  "            vm <f.lin> [fn] [args] | receipt create|verify [args] |";
  "            jit <f.lin> [fn] [args] | roundtrip-jit <f.lin> <fn> [args] |";
  "            jit-verify <f.lin> | vmfull <f.lin> [fn] [args] | image <f.lin> [-o out] |";
  "            gpu-verify [f.lin] | run <img> <fn> [args] | roundtrip <f.lin> <fn> [args]"]%string.

Section Main.
Context `{Env} (fs : list Z -> option (list Z)) (realloc_ok : nat -> bool) (tcc : Tcc) (cl : OpenCl) (fuel : nat).

(** A command of that name, past the arena. *)
Definition dispatch (argv : list (list Z)) : Mem ran :=
  let cmd := arg argv 1 in
  let named s := bytes_eqb cmd (cstr s) in
  if named "info"%string || named "vm"%string then cmd_vm fs fuel false argv
  else if named "check"%string then cmd_check fs argv
  else if named "lint"%string then cmd_lint fs argv
  else if named "receipt"%string then cmd_receipt fs fuel argv
  else if named "jit"%string then cmd_jit tcc fs argv
  else if named "roundtrip-jit"%string then cmd_roundtrip_jit tcc fs fuel argv
  else if named "jit-verify"%string then cmd_jit_verify tcc fs argv
  else if named "gpu-verify"%string then
    c0_gpu_verify cl fuel fs (if (3 <=? length argv)%nat then arg argv 2 else cstr "examples/map_kernels.lin")
  else if named "vmfull"%string then cmd_vm fs fuel true argv
  else if named "image"%string then cmd_image fs realloc_ok argv
  else if named "run"%string then cmd_run fs fuel argv
  else if named "roundtrip"%string then cmd_roundtrip fs realloc_ok fuel argv
  else complain (cstr "lin_c0: unknown command: " ++ cmd).

Definition lin_c0_main (argv : list (list Z)) : Mem ran :=
  if (length argv <? 2)%nat then mret (mkRan [] main_usage 1 None)
  else
    let cmd := arg argv 1 in
    if bytes_eqb cmd (cstr "--version") || bytes_eqb cmd (cstr "version") then answer (ln C0_VERSION) 0
    else fun m =>
      let '(ok, m) := c0_arena_new m in
      if negb ok then complain (cstr "lin_c0: out of memory") m else dispatch argv m.
End Main.

(** ** lin_bc1_run *)

Definition MAX_IMG_BYTES : Z := 262144.

Definition hexval (c : Z) : Z :=
  if in_range 48 57 c then c - 48
  else if in_range 97 102 c then c - 97 + 10
  else if in_range 65 70 c then c - 65 + 10
  else -1.

(** Digits two by two; [None] at the first that is none. *)
Fixpoint hex_image (h : list Z) : option (list Z) :=
  match h with
  | a :: b :: h =>
      if (hexval a <? 0) || (hexval b <? 0) then None
      else l ← hex_image h; Some (Z.lor (Z.shiftl (hexval a) 4) (hexval b) :: l)
  | _ => Some []
  end.

Definition xver (status : string) : list Z :=
  cstr "@LIN:XVER:1.0 engine=" ++ quote (cstr "C11-LINBC1") ++ cstr " status=" ++ quote (cstr status).

(** What [main] leaves with: its text and its status. *)
Definition rejected_line (stage err : list Z) : list Z :=
  xver "REJECTED" ++ cstr " stage=" ++ quote stage ++ cstr " error=" ++ quote err.
Definition rejected (stage err : string) : ran := mkRan (ln (rejected_line (cstr stage) (cstr err))) [] 3 None.
Definition bc1_usage : ran := mkRan [] (ln (cstr "usage: lin_bc1_run <image.linbc|--hex HEX> <fn> [i64 args...]")) 2 None.

(** Where the image comes from, and the index of the function's name. *)
Definition bc1_image (fs : list Z -> option (list Z)) (argv : list (list Z)) : res ran (list Z * nat) :=
  if (3 <=? length argv)%nat && bytes_eqb (arg argv 1) (cstr "--hex") then
    let h := arg argv 2 in
    let hl := Z.of_nat (length h) in
    if negb (hl mod 2 =? 0) || (MAX_IMG_BYTES <? hl / 2) then Err (rejected "hex" "bad_hex")
    else match hex_image h with None => Err (rejected "hex" "bad_hex") | Some img => Ok (img, 3%nat) end
  else if (3 <=? length argv)%nat then
    match fs (arg argv 1) with
    | None => Err (rejected "read" "open_failed")
    | Some l =>
        let img := take (Z.to_nat MAX_IMG_BYTES) l in
        let len := Z.of_nat (length img) in
        if (len =? 0) || (len =? MAX_IMG_BYTES) then Err (rejected "read" "bad_size") else Ok (img, 2%nat)
    end
  else Err bc1_usage.

Definition image_facts (vm : LinBc1Vm) : list Z :=
  cstr " img_sha256=" ++ quote (hex64 (b_img_sha256 vm)) ++ cstr " img_fold=" ++ fmt_i64 (lin_bc1_fold_digest (b_img_sha256 vm)) ++
  cstr " profile=" ++ fmt_u64 (b_profile vm).

Definition verified_line (vm : LinBc1Vm) : list Z :=
  ln (xver "VERIFIED" ++ image_facts vm ++ cstr " fns=" ++ fmt_u64 (Z.of_nat (length (fns (b_mod vm)))) ++ cstr " bytes=" ++
      fmt_u64 (Z.of_nat (b_img_len vm))).

Definition evaluated_line (vm : LinBc1Vm) (fn : list Z) (r : VmExecResult) (steps : Z) : list Z :=
  ln (xver "EVALUATED" ++ cstr " fn=" ++ quote fn ++ cstr " result=" ++ fmt_i64 (val r) ++ cstr " steps=" ++ fmt_u64 steps ++
      cstr " sp_at_ret=" ++ fmt_u64 (Z.of_nat (sp_at_ret r)) ++ image_facts vm).

Definition exec_error_line (e : LinErr) (steps : Z) : list Z :=
  ln (rejected_line (cstr "exec") (cstr (lin_err_name (Some e))) ++ cstr " steps=" ++ fmt_u64 steps).

(** [strtoll(word, NULL, 10)], unchecked; at most 64. *)
Definition bc1_args (words : list (list Z)) : list Z := take 64 (map (fun w => default 0 (fst <$> strtoll w)) words).

Section Runner.
Context `{Env} (fuel : nat).

Definition bc1_evaluate (vm : LinBc1Vm) (fn : list Z) (words : list (list Z)) : Mem ran :=
  let fi := lin_bc1_find_fn vm fn in
  if fi <? 0 then mret (rejected "exec" "unknown_fn")
  else
    '(r, steps) ← Cli.exec fuel (b_mod vm) fi (bc1_args words);
    match r with
    | Err e => answer (exec_error_line e steps) 3
    | Ok r => answer (evaluated_line vm fn r steps) 0
    end.

Definition bc1_loaded (vm : LinBc1Vm) (rest : list (list Z)) : Mem ran :=
  match rest with
  | [] => mret bc1_usage
  | fn :: words => if bytes_eqb fn (cstr "--verify") then answer (verified_line vm) 0 else bc1_evaluate vm fn words
  end.

Definition bc1_run (fs : list Z -> option (list Z)) (argv : list (list Z)) : Mem ran :=
  match bc1_image fs argv with
  | Err r => mret r
  | Ok (img, arg0) =>
      match lin_bc1_load (C := LinSha256) img with
      | Err e => answer (ln (rejected_line (cstr "load") (cstr "linbc1." ++ cstr (lin_bc1_err_name (Some e))))) 3
      | Ok vm => bc1_loaded vm (drop arg0 argv)
      end
  end.
End Runner.
