(* ===== verification/MainSpec.v ===== *)
(** * The hosts against each other

    One function of one text, run four ways: from the text by [lin_c0 vm], from its
    image by [lin_c0 run], and by the second host from the image in a file and in
    hexadecimal.  All print the meaning of the text.  Then what a status of the
    second host stands for. *)
From stdpp Require Import strings.
From S2P Require Import Prelude Common Str Decimal Region Abi Vm VmSpec VmSafe Sha256 Linbc1 Encode Sys C0Lex C0Comp C0Build.
From S2P Require Import C0Scan C0Check C0Lint C0Lang C0BuildSpec C0Sem C0Refine C0Correct Cli CliReceipt CliSpec CliReceiptRead Jit JitBuild JitSpec Gpu GpuSpec Main.

(** ** Images in hexadecimal *)

Lemma hexval_hexd n : 0 <= n < 16 -> hexval (hexd n) = n.
Proof.
  intros Hn. rewrite <- (Z2Nat.id n) by lia. assert (Z.to_nat n < 16)%nat as Hk by lia. revert Hk. generalize (Z.to_nat n) as k. clear.
  intros k Hk. do 16 (destruct k as [|k]; [reflexivity|]). lia.
Qed.

(** The two digits of a byte make the byte. *)
Lemma digits_byte b : Z.lor (Z.shiftl (Z.shiftr b 4) 4) (Z.land b 15) = b.
Proof.
  apply Z.bits_inj'. intros k Hk. rewrite Z.lor_spec, Z.land_spec. destruct (Z_lt_le_dec k 4) as [Hlt|Hge].
  - rewrite Z.shiftl_spec_low by lia. change 15 with (Z.ones 4). rewrite Z.ones_spec_low by lia. by rewrite andb_true_r.
  - rewrite Z.shiftl_spec_high, Z.shiftr_spec by lia. replace (k - 4 + 4) with k by lia. change 15 with (Z.ones 4).
    rewrite Z.ones_spec_high by lia. by rewrite andb_false_r, orb_false_r.
Qed.

Lemma hex_image_hex d : bytes_wf d -> hex_image (lin_sha256_hex d) = Some d.
Proof.
  induction 1 as [|b d Hb _ IH]; [done|].
  change (lin_sha256_hex (b :: d)) with (hexd (Z.shiftr b 4) :: hexd (Z.land b 15) :: lin_sha256_hex d).
  assert (0 <= Z.shiftr b 4 < 16 /\ 0 <= Z.land b 15 < 16) as [H1 H2].
  { unfold in_u8, two8 in Hb. change 15 with (Z.ones 4). rewrite Z.land_ones, Z.shiftr_div_pow2 by lia. change (2 ^ 4) with 16.
    split; Z.div_mod_to_equations; lia. }
  cbn [hex_image]. rewrite !hexval_hexd by done.
  destruct (Z.ltb_spec (Z.shiftr b 4) 0); [lia|]. destruct (Z.ltb_spec (Z.land b 15) 0); [lia|]. cbn [orb].
  rewrite IH. cbn [mbind option_bind]. by rewrite digits_byte.
Qed.

Lemma image_of_hex fs img p0 rest : bytes_wf img -> Z.of_nat (length img) <= MAX_IMG_BYTES ->
  bc1_image fs (p0 :: cstr "--hex" :: lin_sha256_hex img :: rest) = Ok (img, 3%nat).
Proof.
  intros Hw Hl. unfold bc1_image. cbn [length Nat.leb]. change (arg (p0 :: cstr "--hex" :: lin_sha256_hex img :: rest) 1) with (cstr "--hex").
  change (arg (p0 :: cstr "--hex" :: lin_sha256_hex img :: rest) 2) with (lin_sha256_hex img). rewrite bytes_eqb_refl. cbn [andb].
  destruct (lin_sha256_hex_inv img Hw) as [-> _]. rewrite Nat2Z.inj_mul. change (Z.of_nat 2) with 2.
  replace ((2 * Z.of_nat (length img)) mod 2) with 0 by (Z.div_mod_to_equations; lia).
  replace ((2 * Z.of_nat (length img)) / 2) with (Z.of_nat (length img)) by (Z.div_mod_to_equations; lia).
  destruct (Z.ltb_spec MAX_IMG_BYTES (Z.of_nat (length img))); [lia|]. cbn [negb Z.eqb orb]. by rewrite hex_image_hex.
Qed.

Lemma image_of_file fs img p0 path fn rest : fs path = Some img -> path <> cstr "--hex" -> 0 < Z.of_nat (length img) < MAX_IMG_BYTES ->
  bc1_image fs (p0 :: path :: fn :: rest) = Ok (img, 2%nat).
Proof.
  intros Hf Hp Hl. unfold bc1_image. cbn [length Nat.leb]. change (arg (p0 :: path :: fn :: rest) 1) with path.
  destruct (bytes_eqb path (cstr "--hex")) eqn:E; [by apply bytes_eqb_eq in E|]. cbn [andb]. rewrite Hf.
  rewrite take_ge by lia. destruct (Z.eqb_spec (Z.of_nat (length img)) 0); [lia|].
  by destruct (Z.eqb_spec (Z.of_nat (length img)) MAX_IMG_BYTES); [lia|].
Qed.

(** ** The bytes of an image *)

Lemma enc_arrays_wf ns : forall li, 0 <= li -> li + Z.of_nat (length ns) <= 256 -> bytes_wf (enc_arrays li ns).
Proof.
  induction ns as [|n ns IH]; intros li H0 Hl; cbn [enc_arrays]; [constructor|]. cbn [length] in Hl.
  apply bytes_wf_app. split; [|apply IH; lia].
  destruct (n =? 0); [constructor|]. constructor; [unfold in_u8, two8; lia|apply le_bytes_wf].
Qed.

Lemma op_ord_byte o : in_u8 (op_ord o).
Proof. destruct o; unfold in_u8, two8; cbn; lia. Qed.

Lemma enc_code_wf c : bytes_wf (enc_code c).
Proof.
  unfold enc_code. induction c as [|i c IH]; [constructor|]. cbn [map concat]. apply bytes_wf_app. split; [|done].
  constructor; [apply op_ord_byte|apply le_bytes_wf].
Qed.

Lemma enc_pool_wf fs : Forall (fun f => bytes_wf (fn_name f)) fs -> bytes_wf (enc_pool fs).
Proof.
  unfold enc_pool. induction 1 as [|f fs Hf _ IH]; [constructor|]. cbn [map concat]. rewrite !bytes_wf_app.
  split; [|done]. split; [apply le_bytes_wf|done].
Qed.

Lemma enc_fns_wf nf fs : Forall (fn_valid nf) fs -> forall i, bytes_wf (enc_fns i fs).
Proof.
  induction 1 as [|f fs Hf _ IH]; intros i; cbn [enc_fns]; [constructor|]. apply bytes_wf_app. split; [|done].
  unfold enc_fn. rewrite !bytes_wf_app. destruct Hf as [_ _ Hp Ha _ _].
  split_and!; first [apply le_bytes_wf|apply enc_code_wf|apply enc_arrays_wf; lia|constructor; [|constructor]];
    first [apply u8_range|apply count_arrays_u8].
Qed.

Lemma image_wf realloc_ok md img : loadable md -> Forall (fun f => bytes_wf (fn_name f)) (fns md) ->
  c0_image_encode (C := LinSha256) realloc_ok md = Ok img -> bytes_wf img.
Proof.
  intros Hl Hn E. destruct (encode_bytes realloc_ok (C := LinSha256) md (loadable_encodable md Hl)) as [E'|[E' _]]; rewrite E in E'; [|done].
  apply Ok_inj in E' as ->. apply bytes_wf_app. split.
  - destruct Hl as [_ Hf _ _ _ _]. unfold enc_body. rewrite !bytes_wf_app.
    split_and!; first [apply le_bytes_wf|apply enc_pool_wf, Hn|apply (enc_fns_wf _ _ Hf)|apply bytes_wfb_wf; reflexivity].
  - rewrite (image_digest_eq (digest := sha256_spec)). apply (sh_bytes (digest := sha256_spec)).
Qed.

(** The names of a text are bytes. *)
Lemma name_bytes l : forallb c0_is_name_char l = true -> bytes_wf l.
Proof.
  intros Hl. apply Forall_forall. intros c Hc. apply (proj1 (List.forallb_forall _ _) Hl) in Hc. unfold c0_is_name_char, in_range in Hc.
  unfold in_u8, two8. to_prop. lia.
Qed.

Lemma built_names `{Env} src m md infos : clean_text false src m md infos -> within_limits md ->
  Forall (fun f => forallb c0_is_name_char (fn_name f) = true) (fns md).
Proof.
  intros [[m1 Hb] [m2 Hi] _ _ _] Hw. destruct (built_module src m md m1 infos m2 Hb Hi) as [Hm Ho].
  apply Forall_forall. intros f Hf. apply (module_fn_text _ _ _ _ _ f Hm Ho); [by apply list_elem_of_In|].
  by apply (proj1 (Forall_forall _ _) (wl_ok _ Hw)).
Qed.

(** ** One function, four ways *)

Lemma arena_new_ok `{Env} m : mallocs_succeed -> exists m', c0_arena_new m = (true, m').
Proof. intros Ha. unfold c0_arena_new, c0_malloc. rewrite Ha. unfold c0_chunk_new, c0_malloc. rewrite !Ha. by eexists. Qed.

Section Dispatch.
Context `{Env} (fs : list Z -> option (list Z)) (realloc_ok : nat -> bool) (tcc : Tcc) (cl : OpenCl) (fuel : nat).

Lemma main_dispatches argv m m0 : (2 <= length argv)%nat -> bytes_eqb (arg argv 1) (cstr "--version") || bytes_eqb (arg argv 1) (cstr "version") = false ->
  c0_arena_new m = (true, m0) -> lin_c0_main fs realloc_ok tcc cl fuel argv m = dispatch fs realloc_ok tcc cl fuel argv m0.
Proof. intros Hl Hv Hm. unfold lin_c0_main. destruct (Nat.ltb_spec (length argv) 2); [lia|]. cbv zeta. by rewrite Hv, Hm. Qed.

Lemma main_vm p0 rest m m0 : c0_arena_new m = (true, m0) ->
  lin_c0_main fs realloc_ok tcc cl fuel (p0 :: cstr "vm" :: rest) m = cmd_vm fs fuel false (p0 :: cstr "vm" :: rest) m0.
Proof. intros Hm. rewrite (main_dispatches _ m m0); [reflexivity|cbn [length]; lia|reflexivity|done]. Qed.

Lemma main_image p0 rest m m0 : c0_arena_new m = (true, m0) ->
  lin_c0_main fs realloc_ok tcc cl fuel (p0 :: cstr "image" :: rest) m = cmd_image fs realloc_ok (p0 :: cstr "image" :: rest) m0.
Proof. intros Hm. rewrite (main_dispatches _ m m0); [reflexivity|cbn [length]; lia|reflexivity|done]. Qed.

Lemma main_run p0 rest m m0 : c0_arena_new m = (true, m0) ->
  lin_c0_main fs realloc_ok tcc cl fuel (p0 :: cstr "run" :: rest) m = cmd_run fs fuel (p0 :: cstr "run" :: rest) m0.
Proof. intros Hm. rewrite (main_dispatches _ m m0); [reflexivity|cbn [length]; lia|reflexivity|done]. Qed.
End Dispatch.

(** Arguments that [run] accepts are read alike by the second host. *)
Lemma parse_args_words words : forall cap args, parse_args cap words = Some args ->
  args = map (fun w => default 0 (fst <$> strtoll w)) words /\ (length words <= cap)%nat.
Proof.
  induction words as [|w words IH]; intros cap args.
  { intros E. assert (Some [] = Some args) as E' by (by destruct cap). injection E' as <-. split; [done|cbn; lia]. }
  destruct cap as [|cap]; [done|]. cbn [parse_args]. destruct (length w =? 0)%nat; [done|]. destruct (strtoll w) as [[v [|c l]]|] eqn:E; [|done..].
  destruct (parse_args cap words) as [vs|] eqn:Ev; [|done]. cbn [mbind option_bind]. intros E'. injection E' as <-.
  destruct (IH cap vs Ev) as [-> Hl]. cbn [map length]. rewrite E. split; [done|lia].
Qed.

Lemma parse_args_bc1 words args : parse_args 64 words = Some args -> bc1_args words = args.
Proof. intros Hw. destruct (parse_args_words words 64 args Hw) as [-> Hl]. unfold bc1_args. by rewrite take_ge by (by rewrite length_map). Qed.

(** What the second host prints of an outcome. *)
Definition bc1_record (vm : LinBc1Vm) (fn : list Z) (sp : nat) (r : sres Z) : ran :=
  match r with
  | SVal v st => mkRan (evaluated_line vm fn (mkResult v sp) st) [] 0 None
  | SErr e st => mkRan (exec_error_line e st) [] 3 None
  end.

Lemma bc1_loaded_prints `{Env} fuel vm fn words args sp r m : forallb c0_is_name_char fn = true -> 0 <= mod_find_fn (b_mod vm) fn ->
  parse_args 64 words = Some args -> runs_to fuel (b_mod vm) fn args sp r ->
  exists m', bc1_loaded fuel vm (fn :: words) m = Val (bc1_record vm fn sp r) m'.
Proof.
  intros Hn Hf Hw Hx. destruct (Hx m) as [m' E]. exists m'. unfold bc1_loaded.
  destruct (bytes_eqb fn (cstr "--verify")) eqn:Ev; [apply bytes_eqb_eq in Ev as ->; discriminate Hn|].
  unfold bc1_evaluate. cbv zeta. change (lin_bc1_find_fn vm fn) with (mod_find_fn (b_mod vm) fn). rewrite (proj2 (Z.ltb_ge _ _) Hf).
  rewrite (parse_args_bc1 words args Hw). after E. by destruct r.
Qed.

(** From where an image comes does not matter. *)
Lemma bc1_run_loads `{Env} fuel fs argv img k vm : bc1_image fs argv = Ok (img, k) -> lin_bc1_load (C := LinSha256) img = Ok vm ->
  forall m, bc1_run fuel fs argv m = bc1_loaded fuel vm (drop k argv) m.
Proof. intros Hi Hl m. unfold bc1_run. by rewrite Hi, Hl. Qed.

(** C3. The hosts agree: [lin_c0 vm] on a text, [lin_c0 run] on the image that
    [lin_c0 image] writes of it, and [lin_bc1_run] on that image in a file or in
    hexadecimal all print one outcome, the meaning of the function in the text;
    and [--verify] accepts the image. *)
Theorem hosts_agree `{Env} fs realloc_ok tcc cl fuel p0 path ipath fn words args m m0 src m1 md infos
    (Ha : mallocs_succeed) (Hio : forall t, io_ok t = true) (Hre : forall n, realloc_ok n = true)
    (Hm : c0_arena_new m = (true, m0)) (Hs : read_file fs path m0 = Val (Some src) m1) (Hc : clean_text false src m1 md infos)
    (Hl : within_limits md) (Hp : ipath <> cstr "--hex") (Hf : 0 <= mod_find_fn md fn) (Hw : parse_args 64 words = Some args)
    (Hfuel : enough fuel) :
  exists img vm sp r, lin_bc1_load (C := LinSha256) img = Ok vm /\ b_mod vm = md /\ means false infos md fn args r /\
  (exists m', lin_c0_main fs realloc_ok tcc cl fuel (p0 :: cstr "vm" :: path :: fn :: words) m = Val (record_of fn r) m') /\
  (exists m', lin_c0_main fs realloc_ok tcc cl fuel [p0; cstr "image"; path; cstr "-o"; ipath] m =
     Val (mkRan (image_record md img) [] 0 (Some (ipath, img))) m') /\
  forall fs' m2, fs' ipath = Some img ->
    (exists m', lin_c0_main fs' realloc_ok tcc cl fuel (p0 :: cstr "run" :: ipath :: fn :: words) m2 = Val (record_of fn r) m') /\
    (exists m', bc1_run fuel fs' (p0 :: ipath :: fn :: words) m2 = Val (bc1_record vm fn sp r) m') /\
    (exists m', bc1_run fuel fs' (p0 :: cstr "--hex" :: lin_sha256_hex img :: fn :: words) m2 = Val (bc1_record vm fn sp r) m') /\
    bc1_run fuel fs' [p0; ipath; cstr "--verify"] m2 = Val (mkRan (verified_line vm) [] 0 None) m2.
Proof.
  pose proof (well_loadable _ _ _ _ Hc Hl) as Hld. pose proof (built_names _ _ _ _ Hc Hl) as Hns.
  destruct (image_exists realloc_ok md Hre Hld) as (img & He & Hd & Hlen). pose proof Hd as (vm & Hvm & Hmd).
  destruct (clean_means false src m1 md infos fn args fuel) as (r & sp & Hr & Hx); [done..|].
  assert (ok (fn_at md (mod_find_fn md fn)) = true /\ forallb c0_is_name_char fn = true) as [Hok Hn].
  { destruct (find_fn_at fn (fns md) 0) as (_ & f & Hg & Hnm); [done..|]. rewrite Z.sub_0_r in Hg. unfold fn_at, mod_find_fn. rewrite Hg, <- Hnm.
    split; [apply (Forall_lookup_1 _ _ _ _ (wl_ok _ Hl) Hg)|apply (Forall_lookup_1 _ _ _ _ Hns Hg)]. }
  assert (bytes_wf img) as Hb.
  { eapply (image_wf realloc_ok md img Hld); [|exact He]. eapply List.Forall_impl; [|exact Hns]. intros f. apply name_bytes. }
  assert (0 < Z.of_nat (length img) < MAX_IMG_BYTES) as Hsz.
  { unfold MAX_IMG_BYTES. destruct img as [|x img']; [discriminate Hvm|]. cbn [length] in *. lia. }
  exists img, vm, sp, r. split; [exact Hvm|]. split; [exact Hmd|]. split; [exact Hr|].
  split; [rewrite (main_vm _ _ _ _ _ _ _ m m0 Hm); by eapply (cmd_vm_prints fs fuel false)|].
  split; [rewrite (main_image _ _ _ _ _ _ _ m m0 Hm); by eapply cmd_image_writes|].
  intros fs' m2 Hfs. destruct (arena_new_ok m2 Ha) as [m3 Hm3]. subst md.
  split; [rewrite (main_run _ _ _ _ _ _ _ m2 m3 Hm3); by eapply cmd_run_prints|].
  pose proof (image_of_file fs' img p0 ipath fn words Hfs Hp Hsz) as Hfile.
  split; [rewrite (bc1_run_loads _ _ _ _ _ _ Hfile Hvm); by eapply bc1_loaded_prints|].
  split; [|by rewrite (bc1_run_loads _ _ _ _ _ _ (image_of_file fs' img p0 ipath (cstr "--verify") [] Hfs Hp Hsz) Hvm)].
  rewrite (bc1_run_loads _ _ _ _ _ _ (image_of_hex fs' img p0 (fn :: words) Hb ltac:(lia)) Hvm). by eapply bc1_loaded_prints.
Qed.

(** ** What a status stands for *)

Lemma exec_inv `{Env} fuel md fi args m x steps m' : exec fuel md fi args m = Val (x, steps) m' ->
  exists alloc, vm_exec fuel md alloc fi args 0 0 = Some (match x with Ok r => V_ok r steps | Err e => V_err e steps end).
Proof.
  unfold exec, mbind, Mem_bind. destruct (try_malloc m) as [a m1| |]; [|done..]. intros E. exists a. revert E.
  destruct (vm_exec fuel md a fi args 0 0) as [[r s|e s|]|]; intros E; inversion E; done.
Qed.

(** A REJECTED line, perhaps with the steps at its end. *)
Definition is_rejection (r : ran) : Prop :=
  status r = 3 /\ err_text r = [] /\ written r = None /\ exists stage err tail, out_text r = rejected_line stage err ++ tail ++ [10].

Lemma rejection_line stage err : is_rejection (mkRan (ln (rejected_line stage err)) [] 3 None).
Proof. do 3 (split; [reflexivity|]). exists stage, err, []. reflexivity. Qed.

Lemma rejected_rejection stage err : is_rejection (rejected stage err).
Proof. exact (rejection_line (cstr stage) (cstr err)). Qed.

Lemma bc1_image_cases fs argv : match bc1_image fs argv with
  | Err r => is_rejection r \/ (r = bc1_usage /\ (length argv < 3)%nat)
  | Ok (img, k) => (k <= 3)%nat
  end.
Proof.
  unfold bc1_image. destruct (Nat.leb_spec 3 (length argv)); cbn [andb]; [|by right].
  destruct (bytes_eqb _ _).
  - destruct (_ || _); [left; apply rejected_rejection|]. destruct (hex_image _); [lia|left; apply rejected_rejection].
  - destruct (fs _); [|left; apply rejected_rejection]. cbv zeta. destruct (_ || _); [left; apply rejected_rejection|lia].
Qed.

(** What the line of status 0 says of an image, by the words after it. *)
Definition confirms (fuel : nat) (vm : LinBc1Vm) (rest : list (list Z)) (out : list Z) : Prop :=
  (rest !! 0%nat = Some (cstr "--verify") /\ out = verified_line vm) \/
  exists fn words v steps alloc, rest = fn :: words /\ 0 <= lin_bc1_find_fn vm fn /\
    vm_exec fuel (b_mod vm) alloc (lin_bc1_find_fn vm fn) (bc1_args words) 0 0 = Some (V_ok v steps) /\ out = evaluated_line vm fn v steps.

Lemma bc1_loaded_cases `{Env} fuel vm rest m r m' : bc1_loaded fuel vm rest m = Val r m' ->
  (status r = 0 /\ err_text r = [] /\ written r = None /\ confirms fuel vm rest (out_text r)) \/ is_rejection r \/ (r = bc1_usage /\ rest = []).
Proof.
  unfold bc1_loaded. destruct rest as [|fn words]; [intros E; injection E as <- _; by right; right|].
  destruct (bytes_eqb fn (cstr "--verify")) eqn:Ev.
  { apply bytes_eqb_eq in Ev as ->. unfold answer. intros E. injection E as <- _. left. cbn [status err_text written out_text].
    do 3 (split; [reflexivity|]). left. split; reflexivity. }
  unfold bc1_evaluate. cbv zeta. destruct (Z.ltb_spec (lin_bc1_find_fn vm fn) 0) as [|Hf].
  { intros E. injection E as <- _. right; left. apply rejected_rejection. }
  unfold mbind, Mem_bind. destruct (exec _ _ _ _ m) as [[x steps] m1| |] eqn:E; [|done..].
  apply exec_inv in E as [alloc E]. destruct x as [v|e]; intros E'; injection E' as <- _.
  - left. cbn [status err_text written out_text]. do 3 (split; [reflexivity|]). right. by exists fn, words, v, steps, alloc.
  - right; left. cbn [status err_text written out_text]. do 3 (split; [reflexivity|]). do 3 eexists. unfold exec_error_line, ln.
    rewrite <- app_assoc. reflexivity.
Qed.

(** C21. [lin_bc1_run] fails closed.  With status 0 an image was loaded, every byte
    of it bound by the digest at its end, and the line is VERIFIED or the result of
    the machine for the named function; with status 3 the text is one REJECTED
    line; the only other end is the usage text, with status 2.  No file is
    written. *)
Theorem bc1_run_fails_closed `{Env} fuel fs argv m r m' (Hr : bc1_run fuel fs argv m = Val r m') :
  (status r = 0 /\ err_text r = [] /\ written r = None /\
     exists body k vm, bc1_image fs argv = Ok (body ++ b_img_sha256 vm, k) /\
       lin_bc1_load (C := LinSha256) (body ++ b_img_sha256 vm) = Ok vm /\
       b_img_sha256 vm = sha256_spec (DOM ++ body) /\ confirms fuel vm (drop k argv) (out_text r)) \/
  is_rejection r \/ (r = bc1_usage /\ (length argv <= 3)%nat).
Proof.
  unfold bc1_run in Hr. pose proof (bc1_image_cases fs argv) as Hi. destruct (bc1_image fs argv) as [[img k]|e].
  - destruct (lin_bc1_load img) as [vm|e] eqn:Hl.
    + destruct (bc1_loaded_cases _ _ _ _ _ _ Hr) as [(H1 & H2 & H3 & H4)|[?|[-> Hd]]]; [left|by right; left|right; right].
      * destruct (load_inv img vm Hl) as (b & _ & _ & _ & Hd & Hvm). do 3 (split; [assumption|]).
        assert (b_img_sha256 vm = drop (length img - 32) img) as Hs by (rewrite Hvm; reflexivity).
        exists (take (length img - 32) img), k, vm. rewrite Hs, take_drop. split; [reflexivity|]. split; [exact Hl|]. split; [|exact H4].
        rewrite <- Hd. apply (image_digest_eq (digest := sha256_spec)).
      * split; [done|]. apply (f_equal length) in Hd. rewrite length_drop in Hd. cbn [length] in Hd. lia.
    + injection Hr as <- _. right; left. apply rejection_line.
  - injection Hr as <- _. destruct Hi as [?|[-> ?]]; right; [by left|right; split; [done|lia]].
Qed.

(** ** Runs *)

Definition start_mem : C0Mem := mkMem 0 0 0.
Definition arena_mem : C0Mem := mkMem 2 0 C0_CHUNK_DEFAULT.
Definition text_mem : C0Mem := mkMem 3 0 C0_CHUNK_DEFAULT.

Lemma start_arena : @c0_arena_new calm start_mem = (true, arena_mem).
Proof. vm_compute. reflexivity. Qed.

Lemma start_read : @read_file calm sample_files (cstr "a.lin") arena_mem = Val (Some sample) text_mem.
Proof. vm_compute. reflexivity. Qed.

Lemma start_clean : @clean_text calm false sample text_mem sample_module sample_infos.
Proof.
  constructor; [eexists; vm_compute; reflexivity|eexists; vm_compute; reflexivity|exact sample_distinct|reflexivity|exact sample_runnable].
Qed.

Lemma image_path : cstr "a.linbc" <> cstr "--hex".
Proof. apply bytes_eqb_neq. vm_compute. reflexivity. Qed.

Lemma hosts_agree_witness : exists img vm sp r, lin_bc1_load (C := LinSha256) img = Ok vm /\ b_mod vm = sample_module /\
  means false sample_infos sample_module (cstr "fib") [10] r /\
  forall fs' m2, fs' (cstr "a.linbc") = Some img -> exists m',
    @bc1_run calm (2 * Z.to_nat LIN_VM_STEP_LIMIT + 2) fs' [cstr "lin"; cstr "--hex"; lin_sha256_hex img; cstr "fib"; cstr "10"] m2 =
      Val (bc1_record vm (cstr "fib") sp r) m'.
Proof.
  destruct sample_fn as (E1 & _ & E3).
  destruct (@hosts_agree calm sample_files (fun _ => true) sample_tcc sample_opencl _ (cstr "lin") (cstr "a.lin") (cstr "a.linbc") (cstr "fib")
    [cstr "10"] [10] start_mem arena_mem sample text_mem sample_module sample_infos (fun _ => eq_refl) (fun _ => eq_refl) (fun _ => eq_refl)
    start_arena start_read start_clean sample_limits image_path (Z.eq_le_incl _ _ (eq_sym E1)) E3 full_fuel) as (img & vm & sp & r & H1 & H2 & H3 & _ & _ & H4).
  exists img, vm, sp, r. split; [exact H1|]. split; [exact H2|]. split; [exact H3|]. intros fs' m2 Hf. exact (proj1 (proj2 (proj2 (H4 fs' m2 Hf)))).
Defined.

Definition tiny_argv : list (list Z) := [cstr "lin_bc1_run"; cstr "--hex"; lin_sha256_hex tiny_image; cstr "f"].
Definition tiny_ran : ran := match @bc1_run calm 100 (fun _ => None) tiny_argv mem0 with Val r _ => r | _ => bc1_usage end.

Lemma tiny_runs : @bc1_run calm 100 (fun _ => None) tiny_argv mem0 = Val tiny_ran (mkMem 1 0 C0_CHUNK_DEFAULT) /\ status tiny_ran = 0.
Proof. split; vm_compute; reflexivity. Qed.

Lemma bc1_run_fails_closed_witness :
  (status tiny_ran = 0 /\ err_text tiny_ran = [] /\ written tiny_ran = None /\
     exists body k vm, bc1_image (fun _ => None) tiny_argv = Ok (body ++ b_img_sha256 vm, k) /\
       lin_bc1_load (C := LinSha256) (body ++ b_img_sha256 vm) = Ok vm /\
       b_img_sha256 vm = sha256_spec (DOM ++ body) /\ confirms 100 vm (drop k tiny_argv) (out_text tiny_ran)) \/
  is_rejection tiny_ran \/ (tiny_ran = bc1_usage /\ (length tiny_argv <= 3)%nat).
Proof. exact (@bc1_run_fails_closed calm 100 (fun _ => None) tiny_argv mem0 tiny_ran _ (proj1 tiny_runs)). Defined.

(** Without a function the host first loads the image, then prints its usage with
    status 2, although its comment promises a REJECTED line for every failure. *)
Lemma bc1_usage_unrejected : @bc1_run calm 100 (fun _ => None) (take 3 tiny_argv) mem0 = Val bc1_usage mem0.
Proof. vm_compute. reflexivity. Qed.

(** The form [--verify image] of the comment reads a file of that name. *)
Lemma bc1_verify_form image : @bc1_run calm 100 (fun _ => None) [cstr "lin_bc1_run"; cstr "--verify"; image] mem0 =
  Val (rejected "read" "open_failed") mem0.
Proof. vm_compute. reflexivity. Qed.

(** An argument that is no number counts as 0. *)
Lemma bc1_bad_argument : bc1_args [cstr "seven"; cstr "7seven"; cstr "99999999999999999999"] = [0; 7; INT64_MAX].
Proof. vm_compute. reflexivity. Qed.
