(* ===== verification/ReceiptMain.v ===== *)
(** * tool/lin_c_receipt.c: the arguments

    [main] of the receipt tool: its scan of the words on the command line, the
    usage, the missing expression, and the line and status of a run. *)
From stdpp Require Import strings.
From S2P Require Import Prelude Common Token Ast Parse Str Decimal Region Abi Vm Lower Sha256 Receipt C0Lex C0Comp Cli Jit.

Definition DEFAULT_ENV : list Z := cstr "x=10,y=20,z=5,x1=15".
Definition receipt_usage : list Z :=
  cstr "usage: lin_c_receipt --expr " ++ quoted (cstr "<expr>") ++ cstr " [--env " ++ quoted (cstr "x=10,y=20") ++ cstr "]".
Definition expr_required : list Z := cstr "lin_c_receipt: --expr is required".

(** The loop over the words after the program's name: the expression and the
    environment, or [None] once the usage is printed. *)
Fixpoint arg_loop (words : list (list Z)) (expr : option (list Z)) (env_spec : list Z) : option (option (list Z) * list Z) :=
  match words with
  | [] => Some (expr, env_spec)
  | w :: rest =>
      let other := if bytes_eqb w (cstr "--help") then None else arg_loop rest expr env_spec in
      match rest with
      | v :: rest =>
          if bytes_eqb w (cstr "--expr") then arg_loop rest (Some v) env_spec
          else if bytes_eqb w (cstr "--env") then arg_loop rest expr v
          else other
      | [] => other
      end
  end.

(** [main]; [None] is a pipeline out of fuel or undefined behaviour of the
    machine, which [receipt_main_ends] excludes. *)
Definition receipt_main (fuel : nat) (calloc : bool) (argv : list (list Z)) : option ran :=
  match arg_loop (drop 1 argv) None DEFAULT_ENV with
  | None => Some (mkRan (ln receipt_usage) [] 0 None)
  | Some (None, _) => Some (mkRan [] (ln expr_required) 1 None)
  | Some (Some expr, env_spec) =>
      v ← receipt_run (C := LinSha256) fuel calloc expr env_spec;
      Some (mkRan (receipt_line expr env_spec v) [] (exit_code v) None)
  end.

(** ** What the words ask for *)

Inductive Asked : Type := A_expr (v : list Z) | A_env (v : list Z) | A_other (w : list Z).

Definition asked_words (a : Asked) : list (list Z) :=
  match a with A_expr v => [cstr "--expr"; v] | A_env v => [cstr "--env"; v] | A_other w => [w] end.

(** A word of no effect: none of the three, or an option that lacks its value. *)
Fixpoint asked_ok (l : list Asked) : Prop :=
  match l with
  | [] => True
  | A_other w :: l => w <> cstr "--help" /\ (w <> cstr "--expr" /\ w <> cstr "--env" \/ l = []) /\ asked_ok l
  | _ :: l => asked_ok l
  end.

(** The last of each kind counts. *)
Fixpoint last_expr (l : list Asked) (d : option (list Z)) : option (list Z) :=
  match l with [] => d | A_expr v :: l => last_expr l (Some v) | _ :: l => last_expr l d end.
Fixpoint last_env (l : list Asked) (d : list Z) : list Z :=
  match l with [] => d | A_env v :: l => last_env l v | _ :: l => last_env l d end.

Definition words_of (l : list Asked) : list (list Z) := concat (map asked_words l).

Lemma arg_loop_cons_other w rest expr env : w <> cstr "--expr" -> w <> cstr "--env" ->
  arg_loop (w :: rest) expr env = if bytes_eqb w (cstr "--help") then None else arg_loop rest expr env.
Proof. intros H1%bytes_eqb_neq H2%bytes_eqb_neq. cbn [arg_loop]. rewrite H1, H2. by destruct rest. Qed.

Lemma arg_loop_reads l : forall expr env, asked_ok l -> arg_loop (words_of l) expr env = Some (last_expr l expr, last_env l env).
Proof.
  induction l as [|[v|v|w] l IH]; intros expr env Hok; [done|exact (IH (Some v) env Hok)|exact (IH expr v Hok)|].
  destruct Hok as (Hh%bytes_eqb_neq & [[He Hv]| ->] & Hok).
  - change (words_of (A_other w :: l)) with (w :: words_of l). rewrite arg_loop_cons_other, Hh by done. by apply IH.
  - cbn [words_of map concat asked_words app arg_loop last_expr last_env]. by rewrite Hh.
Qed.

Lemma arg_loop_helps l : forall rest expr env, asked_ok (l ++ [A_other []]) -> arg_loop (words_of l ++ cstr "--help" :: rest) expr env = None.
Proof.
  induction l as [|[v|v|w] l IH]; intros rest expr env Hok.
  - rewrite app_nil_l, arg_loop_cons_other by (intros E; vm_compute in E; discriminate E). by rewrite bytes_eqb_refl.
  - exact (IH rest (Some v) env Hok).
  - exact (IH rest expr v Hok).
  - destruct Hok as (Hh%bytes_eqb_neq & [[He Hv]|E] & Hok); [|by destruct l].
    change (words_of (A_other w :: l) ++ cstr "--help" :: rest) with (w :: (words_of l ++ cstr "--help" :: rest)).
    rewrite arg_loop_cons_other, Hh by done. by apply IH.
Qed.

(** Every command line is one of the two. *)
Lemma words_asked n : forall words, (length words <= n)%nat ->
  exists l, (words = words_of l /\ asked_ok l) \/ (exists rest, words = words_of l ++ cstr "--help" :: rest /\ asked_ok (l ++ [A_other []])).
Proof.
  induction n as [|n IH]; intros [|w words] Hn; cbn [length] in Hn; try lia; [by exists []; left..|].
  assert (forall a ws, words = drop 1 (asked_words a) ++ ws -> w = default [] (head (asked_words a)) -> (forall x, a <> A_other x) ->
    exists l, (w :: words = words_of l /\ asked_ok l) \/ (exists rest, w :: words = words_of l ++ cstr "--help" :: rest /\ asked_ok (l ++ [A_other []]))) as Hopt.
  { intros a ws -> -> Ha. assert (forall k, asked_ok k -> asked_ok (a :: k)) as Hk by (intros k; destruct a as [v|v|x]; [exact (fun H => H)..|by destruct (Ha x)]).
    assert (default [] (head (asked_words a)) :: drop 1 (asked_words a) = asked_words a) as E by (destruct a; exact eq_refl).
    destruct (IH ws) as [l [[-> Hl]|[rest [-> Hl]]]]; [rewrite length_app in Hn; lia|exists (a :: l); left|exists (a :: l); right; exists rest];
      (split; [rewrite app_comm_cons, E; unfold words_of; cbn [map concat]; rewrite ?app_assoc; reflexivity|exact (Hk _ Hl)]). }
  destruct (decide (w = cstr "--help")) as [->|Hh]; [exists []; right; exists words; split; [done|split; [intros E; vm_compute in E; discriminate E|split; [by right|done]]]|].
  destruct (decide (w = cstr "--expr" \/ w = cstr "--env")) as [Ho|Ho].
  - destruct words as [|v ws]; [exists [A_other w]; left; split; [done|cbn; tauto]|].
    destruct Ho as [->| ->]; [apply (Hopt (A_expr v) ws)|apply (Hopt (A_env v) ws)]; done.
  - destruct (IH words) as [l [[-> Hl]|[rest [-> Hl]]]]; [lia|exists (A_other w :: l); left|exists (A_other w :: l); right; exists rest];
      (split; [done|cbn [app asked_ok]; tauto]).
Qed.

Lemma last_expr_in l e : forall d, last_expr l d = Some e -> d = Some e \/ In e (words_of l).
Proof.
  induction l as [|a l IH]; intros d E; [by left|]. change (words_of (a :: l)) with (asked_words a ++ words_of l). rewrite in_app_iff.
  destruct a as [v|v|w]; (destruct (IH _ E) as [Hd|Hi]; [|by right; right]); [|by left..].
  right. left. right. left. congruence.
Qed.

(** The tool ends on every command line.  It prints its usage at the first --help
    that is no value; without an expression it complains with status 1; otherwise
    it prints the receipt of the last expression in the last environment, with
    status 0, or 2 when the text does not parse or has no value. *)
Theorem receipt_main_correct fuel argv (Hf : Forall (fun w => (6 * length w + 3 <= fuel)%nat) argv) :
  exists l r, receipt_main fuel true argv = Some r /\
    ((exists rest, drop 1 argv = words_of l ++ cstr "--help" :: rest /\ asked_ok (l ++ [A_other []]) /\ r = mkRan (ln receipt_usage) [] 0 None) \/
     (drop 1 argv = words_of l /\ asked_ok l /\
      match last_expr l None with
      | None => r = mkRan [] (ln expr_required) 1 None
      | Some expr => exists v, receipt_run (C := LinSha256) fuel true expr (last_env l DEFAULT_ENV) = Some v /\ receipt_ok v /\
          r = mkRan (receipt_line expr (last_env l DEFAULT_ENV) v) [] (exit_code v) None
      end)).
Proof.
  destruct (words_asked _ (drop 1 argv) (Nat.le_refl _)) as [l [[E Hok]|[rest [E Hok]]]]; unfold receipt_main; rewrite E; exists l.
  - rewrite arg_loop_reads by done. destruct (last_expr l None) as [expr|] eqn:Ee; [|by eexists; split; [done|right]].
    apply last_expr_in in Ee as [|Hi]; [done|]. rewrite <- E in Hi.
    apply (proj1 (List.Forall_forall _ _) (Forall_drop _ 1 _ Hf)) in Hi.
    destruct (receipt_run_ok (C := LinSha256) fuel expr (last_env l DEFAULT_ENV) Hi) as (v & Hv & Hr). rewrite Hv.
    eexists; split; [exact eq_refl|]. right. split; [done|]. split; [done|]. by exists v.
  - rewrite arg_loop_helps by done. eexists; split; [done|]. left. by exists rest.
Qed.

Definition sample_argv : list (list Z) := map cstr ["lin_c_receipt"; "--env"; "x=1"; "--expr"; "x+1"; "--verbose"; "--expr"; "6*7"; "--env"]%string.

Lemma receipt_main_correct_witness : exists r, receipt_main 100 true sample_argv = Some r.
Proof.
  assert (Forall (fun w => (6 * length w + 3 <= 100)%nat) sample_argv) as Hf.
  { unfold sample_argv. cbn [map]. repeat constructor; vm_compute; lia. }
  destruct (receipt_main_correct 100 sample_argv Hf) as (l & r & E & _). by exists r.
Defined.

(** The environment is printed as it came, and what follows its bindings is
    ignored: a receipt of result 1 begins like one of result 7. *)
Definition forged_env : list Z := cstr "x=1" ++ [34] ++ cstr " ast_val=7 result=7".

Lemma forged_run {C} `{StreamHash C} : exists r, receipt_run 100 true (cstr "x") forged_env = Some (Evaluated r) /\ val (r_result r) = 1.
Proof. eexists (mkReceipt _ (mkResult 1 _) _ _ _ _). split; [vm_compute; reflexivity|exact eq_refl]. Qed.

Lemma receipt_line_forged : exists rest r, receipt_run (C := LinSha256) 100 true (cstr "x") forged_env = Some (Evaluated r) /\ val (r_result r) = 1 /\
  receipt_line (cstr "x") forged_env (Evaluated r) =
    cstr "@LIN:XVER:1.0 engine=" ++ quoted (cstr "C") ++ cstr " status=" ++ quoted (cstr "EVALUATED") ++
    cstr " expr=" ++ quoted (cstr "x") ++ cstr " env=" ++ quoted (cstr "x=1") ++ cstr " ast_val=7 result=7" ++ rest.
Proof.
  destruct (forged_run (C := LinSha256)) as (r & Hr & Hv). eexists _, r. split; [exact Hr|]. split; [exact Hv|].
  unfold receipt_line, quoted, forged_env. rewrite <- !app_assoc. reflexivity.
Qed.
