(* ===== verification/Settle.v ===== *)
(** * merkle_512_settler.c: swaps settled with a numerator of 512 bits

    The host of examples/defi_settlement_proof: amounts are four words of 64 bits,
    the arithmetic runs on limbs of 16 bits, and a batch is bound by a Merkle tree
    of SHA-256 over blocks of 64 bytes. *)
From stdpp Require Import strings.
From S2P Require Import Prelude Common Str Decimal Sha256 Sys C0Lex C0Comp C0Build CLang Cli Jit.

(** ** Limbs *)

Definition limbs_of_word (w : Z) : list Z := map (fun i => u16 (Z.land (Z.shiftr w (16 * Z.of_nat i)) 65535)) (seq 0 4).
Definition unpack (ws : list Z) : list Z := concat (map limbs_of_word ws).

(** [fee_amount = amount_in * 997]: the limbs and the carry. *)
Fixpoint fee_loop (carry : Z) (amount : list Z) : list Z * Z :=
  match amount with
  | [] => ([], carry)
  | x :: xs =>
      let t := u32 (x * 997 + carry) in
      let '(l, c) := fee_loop (Z.shiftr t 16) xs in
      (u16 (Z.land t 65535) :: l, c)
  end.

(** [denominator = reserve_in * 1000 + fee_amount] *)
Fixpoint denominator_loop (carry : Z) (reserve fee : list Z) : list Z * Z :=
  match reserve, fee with
  | x :: xs, f :: fs =>
      let t := u32 (x * 1000 + carry + f) in
      let '(l, c) := denominator_loop (Z.shiftr t 16) xs fs in
      (u16 (Z.land t 65535) :: l, c)
  | _, _ => ([], carry)
  end.

(** The carry of a row through the limbs above it. *)
Fixpoint carry_loop (numerator : list Z) (carry : Z) : list Z :=
  match numerator with
  | [] => []
  | n :: ns =>
      if carry =? 0 then n :: ns
      else let t := u32 (n + carry) in u16 (Z.land t 65535) :: carry_loop ns (Z.shiftr t 16)
  end.

(** One row, on the limbs of the numerator from its own on. *)
Fixpoint row_loop (f : Z) (reserve numerator : list Z) (carry : Z) : list Z :=
  match reserve, numerator with
  | r :: rs, n :: ns =>
      let t := u64 (n + f * r + carry) in
      u16 (Z.land t 65535) :: row_loop f rs ns (u32 (Z.shiftr t 16))
  | _, _ => carry_loop numerator carry
  end.

Fixpoint mul_loop (fee reserve numerator : list Z) : list Z :=
  match fee with
  | [] => numerator
  | f :: fs =>
      match row_loop f reserve numerator 0 with
      | n :: ns => n :: mul_loop fs reserve ns
      | [] => []
      end
  end.

(** ** The restoring division *)

(** The remainder twice, with a bit below; the bit above it. *)
Fixpoint shift_loop (carry : Z) (remainder : list Z) : list Z * Z :=
  match remainder with
  | [] => ([], carry)
  | x :: xs =>
      let t := u32 (x * 2 + carry) in
      let '(l, c) := shift_loop (Z.shiftr t 16) xs in
      (u16 (Z.land t 65535) :: l, c)
  end.

(** From the highest limb on. *)
Fixpoint cmp_loop (remainder denominator : list Z) : Z :=
  match remainder, denominator with
  | r :: rs, d :: ds => if d <? r then 1 else if r <? d then -1 else cmp_loop rs ds
  | _, _ => 0
  end.

Fixpoint sub_loop (borrow : Z) (remainder denominator : list Z) : list Z :=
  match remainder, denominator with
  | r :: rs, d :: ds =>
      let t := r - d - borrow in
      if t <? 0 then u16 (t + 65536) :: sub_loop 1 rs ds else u16 t :: sub_loop 0 rs ds
  | _, _ => []
  end.

Definition limb (l : list Z) (i : nat) : Z := default 0 (l !! i).

(** Bits from the highest on; [None] when a bit of the quotient is past 256. *)
Fixpoint div_loop (bits : nat) (numerator denominator remainder quotient : list Z) : option (list Z) :=
  match bits with
  | O => Some quotient
  | S bit =>
      let l := (bit / 16)%nat in
      let pos := Z.of_nat (bit mod 16) in
      let '(remainder, carry) := shift_loop (Z.land (Z.shiftr (limb numerator l) pos) 1) remainder in
      if (carry =? 1) || (0 <=? cmp_loop (rev remainder) (rev denominator)) then
        if (256 <=? bit)%nat then None
        else div_loop bit numerator denominator (sub_loop 0 remainder denominator)
               (<[l := Z.lor (limb quotient l) (u16 (Z.shiftl 1 pos))]> quotient)
      else div_loop bit numerator denominator remainder quotient
  end.

(** ** One swap *)

Definition word_of_limbs (q : list Z) (w : nat) : Z :=
  Z.lor (Z.lor (Z.lor (limb q (w * 4)) (Z.shiftl (limb q (w * 4 + 1)) 16)) (Z.shiftl (limb q (w * 4 + 2)) 32))
        (Z.shiftl (limb q (w * 4 + 3)) 48).
Definition pack (q : list Z) : list Z := map (word_of_limbs q) (seq 0 4).

Definition all_zero (ws : list Z) : bool := fold_left Z.lor ws 0 =? 0.

(** The status, and the output when it is written. *)
Definition settle_u512_reference (amt_in r_in r_out : list Z) : Z * option (list Z) :=
  let amount := unpack amt_in in
  let reserve_in := unpack r_in in
  let reserve_out := unpack r_out in
  if all_zero amt_in then (-1, None)
  else if all_zero r_in then (-1, None)
  else if all_zero r_out then (-1, None)
  else
    let '(fee_amount, carry) := fee_loop 0 amount in
    if negb (carry =? 0) then (-2, None)
    else
      let '(denominator, carry) := denominator_loop 0 reserve_in fee_amount in
      if negb (carry =? 0) then (-2, None)
      else
        let numerator := mul_loop fee_amount reserve_out (replicate 32 0) in
        match div_loop 512 numerator denominator (replicate 16 0) (replicate 16 0) with
        | None => (-2, None)
        | Some quotient => (1, Some (pack quotient))
        end.

(** ** The batch *)

Record UniswapV2SwapU512 : Type := mkSwap {
  tx_id : Z;
  amount_in : list Z;
  reserve_in : list Z;
  reserve_out : list Z;
  amount_out : list Z;
  sw_status : Z
}.

Definition settle_swap (s : UniswapV2SwapU512) : UniswapV2SwapU512 :=
  let '(st, out) := settle_u512_reference (amount_in s) (reserve_in s) (reserve_out s) in
  mkSwap (tx_id s) (amount_in s) (reserve_in s) (reserve_out s) (default (amount_out s) out) st.

Definition word_bytes (ws : list Z) : list Z := concat (map (le_bytes 8) ws).

(** The 64 bytes of a leaf, as a little-endian host copies them. *)
Definition leaf_buffer (s : UniswapV2SwapU512) : list Z :=
  le_bytes 8 (tx_id s) ++ le_bytes 8 (u64 (sw_status s)) ++ word_bytes (take 2 (amount_out s)) ++
  word_bytes (take 2 (drop 2 (amount_out s))) ++ word_bytes (take 2 (amount_in s)).

Definition compute_swap_leaf (s : UniswapV2SwapU512) : list Z := lin_sha256 (leaf_buffer s).

Definition compute_merkle_parent_512 (left right : list Z) : list Z := lin_sha256 (left ++ right).

Definition node (nodes : list (list Z)) (i : nat) : list Z := default [] (nodes !! i).

(** A level, in place: the parent of [i] and [i + 1] goes to [i / 2]. *)
Fixpoint level_loop (fuel i count : nat) (nodes : list (list Z)) : list (list Z) :=
  match fuel with
  | O => nodes
  | S fuel =>
      if (i <? count)%nat then
        let right_idx := if (i + 1 <? count)%nat then (i + 1)%nat else i in
        level_loop fuel (i + 2) count (<[(i / 2)%nat := compute_merkle_parent_512 (node nodes i) (node nodes right_idx)]> nodes)
      else nodes
  end.

Fixpoint tree_loop (fuel count : nat) (nodes : list (list Z)) : list (list Z) :=
  match fuel with
  | O => nodes
  | S fuel => if (1 <? count)%nat then tree_loop fuel ((count + 1) / 2) (level_loop count 0 count nodes) else nodes
  end.

Section Host.
Context `{Env}.

(** The block of nodes is not tested. *)
Definition compute_batch_merkle_root (swaps : list UniswapV2SwapU512) : Mem (list Z) :=
  if (length swaps =? 0)%nat then mret (replicate 32 0)
  else
    ok ← try_malloc;
    if ok : bool then mret (node (tree_loop (length swaps) (length swaps) (map compute_swap_leaf swaps)) 0) else mstuck.

(** ** main *)

Definition sample_swap (i : nat) : UniswapV2SwapU512 :=
  mkSwap (u64 (Z.of_nat i + 1)) [u64 (10000000000000000000 + Z.of_nat i); 0; 0; 0] [1864712049423024128; 542; 0; 0]
    [4772693935078244352; 1626303; 0; 0] [0; 0; 0; 0] 0.

(** [(size_t)atoi(argv[1])], 1000 for none and for 0. *)
Definition batch_size_of (argv : list (list Z)) : Z :=
  if (1 <? length argv)%nat then
    let n := u64 (i32 (default 0 (fst <$> strtoll (arg argv 1)))) in if n =? 0 then 1000 else n
  else 1000.

Definition settler_banner (n : Z) : list Z :=
  lns ["=== LIN UNISWAP V2 512-BIT ACCELERATED SETTLEMENT ENGINE ==="]%string ++
  cstr "Configuração: Lote de " ++ fmt_u64 n ++ ln (cstr " swaps com numerador intermediário u512") ++
  lns ["Blocos Merkle: Nós empacotados em chunks nativos de 512 bits (64 bytes)"; ""]%string.

(** [%016llx] *)
Definition hex16 (w : Z) : list Z := map (fun i => hexd (Z.land (Z.shiftr w (4 * Z.of_nat i)) 15)) (rev (seq 0 16)).

(** What the clock gives, as printed. *)
Record Timing : Type := mkTiming { eval_ms : list Z; eval_us : list Z; merkle_ms : list Z; merkle_us : list Z; throughput : list Z }.

Definition settler_report (tm : Timing) (n : Z) (approved : nat) (root out : list Z) : list Z :=
  ln (cstr "RESULTADO DO PROCESSAMENTO:") ++
  cstr "  • Swaps Processados com Sucesso: " ++ fmt_u64 (Z.of_nat approved) ++ cstr " / " ++ ln (fmt_u64 n) ++
  cstr "  • Tempo de Execução Aritmética (u512): " ++ eval_ms tm ++ cstr " ms (" ++ eval_us tm ++ ln (cstr " µs/swap)") ++
  cstr "  • Tempo de Construção Merkle (512-bit blocks): " ++ merkle_ms tm ++ cstr " ms (" ++ merkle_us tm ++ ln (cstr " µs/swap)") ++
  cstr "  • Throughput Efetivo: " ++ throughput tm ++ ln (cstr " swaps/segundo") ++
  cstr "  • Raiz Merkle Canônica (256-bit): sha256:" ++ ln (lin_sha256_hex root) ++
  cstr "  • Exemplo Swap #1: In = 10 ETH -> Out = (0x" ++ hex16 (limb out 0) ++ cstr ", 0x" ++ hex16 (limb out 1) ++
  ln (cstr ") = 29.880 USDC") ++ ln [].

Definition approved_count (l : list UniswapV2SwapU512) : nat := length (List.filter (fun s => sw_status s =? 1) l).

Definition settler_main (tm : Timing) (argv : list (list Z)) : Mem ran :=
  let n := batch_size_of argv in
  let banner := settler_banner n in
  let refused := mret (mkRan banner (ln (cstr "Erro de alocação de memória.")) 1 None) in
  if two64 <=? n * 144 then refused
  else
    ok ← try_malloc;
    if negb ok then refused
    else
      let swaps := map (fun i => settle_swap (sample_swap i)) (seq 0 (Z.to_nat n)) in
      root ← compute_batch_merkle_root swaps;
      let out := match swaps with s :: _ => amount_out s | [] => [] end in
      mret (mkRan (banner ++ settler_report tm n (approved_count swaps) root out) [] 0 None).
End Host.

Example settle_sample : settle_u512_reference [10000000000000000000; 0; 0; 0] [1864712049423024128; 542; 0; 0] [4772693935078244352; 1626303; 0; 0] =
  (1, Some [14930775861332428490; 1619; 0; 0]).
Proof. vm_compute. reflexivity. Qed.
