(* ===== verification/SettleSpec.v ===== *)
(** * Settlement: the arithmetic is exact and the tree binds the batch

    Limbs and words stand for integers ([pval]); [settle_u512_reference] computes
    the constant-product quotient of those integers.  The level loop works in
    place; it computes the pairwise tree, and its root binds the leaves of a
    batch of known size. *)
From stdpp Require Import strings.
From S2P Require Import Prelude Common Sha256 Merkle Sys C0Lex C0Comp C0Build Cli CliSpec CliReceiptRead Settle.

(** ** Positional values *)

Fixpoint pval (B : Z) (l : list Z) : Z := match l with [] => 0 | x :: l => x + B * pval B l end.

Definition limbs_ok (l : list Z) : Prop := Forall (fun x => 0 <= x < 65536) l.
Definition words_ok (l : list Z) : Prop := Forall in_u64 l.

Local Abbreviation lval := (pval 65536).

Lemma pval_app B l k : 0 < B -> pval B (l ++ k) = pval B l + B ^ Z.of_nat (length l) * pval B k.
Proof.
  intros HB. induction l as [|x l IH]; cbn [app pval length]; [change (B ^ Z.of_nat 0) with 1; lia|].
  rewrite IH, Nat2Z.inj_succ, Z.pow_succ_r by lia. ring.
Qed.

Lemma pval_range B l : 0 < B -> Forall (fun x => 0 <= x < B) l -> 0 <= pval B l < B ^ Z.of_nat (length l).
Proof.
  intros HB. induction 1 as [|x l Hx _ IH]; cbn [pval length]; [change (B ^ Z.of_nat 0) with 1; lia|].
  rewrite Nat2Z.inj_succ, Z.pow_succ_r by lia. nia.
Qed.

Lemma lval_range l : limbs_ok l -> 0 <= lval l < 65536 ^ Z.of_nat (length l).
Proof. by apply pval_range. Qed.

Lemma pval_zero B n : pval B (replicate n 0) = 0.
Proof. induction n as [|n IH]; cbn [replicate pval]; [done|]. rewrite IH. lia. Qed.

Lemma zero_limbs_ok n : limbs_ok (replicate n 0).
Proof. apply Forall_forall. intros x Hx. apply list_elem_of_In, elem_of_replicate in Hx as [-> _]. lia. Qed.

(** A value is its digits: the last one, and the [k]th. *)
Lemma pval_lookup B l k x : 0 < B -> Forall (fun x => 0 <= x < B) l -> l !! k = Some x -> (pval B l / B ^ Z.of_nat k) mod B = x.
Proof.
  intros HB Hl Hk. rewrite <- (take_drop_middle l k x Hk), pval_app by done. cbn [pval].
  assert (length (take k l) = k) as E by (apply lookup_lt_Some in Hk; rewrite length_take; lia).
  assert (0 <= pval B (take k l) < B ^ Z.of_nat k) as Hr by (rewrite <- E at 3; apply pval_range; [done|by apply Forall_take]).
  rewrite E, Z.mul_comm, Z.div_add, Z.div_small by lia. rewrite Z.add_0_l, Z.mul_comm, Z.mod_add by lia.
  apply Z.mod_small. apply (Forall_lookup_1 _ _ _ _ Hl Hk).
Qed.

Lemma pval_insert B l k x y : 0 < B -> l !! k = Some x -> pval B (<[k := y]> l) = pval B l + (y - x) * B ^ Z.of_nat k.
Proof.
  intros HB. revert k. induction l as [|z l IH]; intros [|k] Hk; try done.
  - injection Hk as ->. cbn [insert list_insert pval]. change (B ^ Z.of_nat 0) with 1. lia.
  - cbn [insert list_insert pval]. change (list_insert k y l) with (<[k:=y]> l). rewrite IH by done.
    rewrite Nat2Z.inj_succ, Z.pow_succ_r by lia. ring.
Qed.

(** ** One limb of a sum *)

Definition low (t : Z) : Z := u16 (Z.land t 65535).

Lemma low_eq t : low t = t mod 65536.
Proof. unfold low, u16, two16. change 65535 with (Z.ones 16). rewrite Z.land_ones by lia. apply Z.mod_mod. lia. Qed.

Lemma high_eq t : Z.shiftr t 16 = t / 65536.
Proof. by rewrite Z.shiftr_div_pow2 by lia. Qed.

Ltac limb_step t Ht :=
  rewrite ?(u32_id t), ?(u64_id t) by (unfold in_u32, in_u64, two32, two64; nia);
  change (u16 (Z.land t 65535)) with (low t); rewrite ?low_eq, ?high_eq;
  pose proof (Z.div_mod t 65536 ltac:(lia)) as Ht; pose proof (Z.mod_pos_bound t 65536 ltac:(lia)).

Lemma fee_loop_ok xs : forall c l c', limbs_ok xs -> 0 <= c < 997 -> fee_loop c xs = (l, c') ->
  lval l + 65536 ^ Z.of_nat (length xs) * c' = 997 * lval xs + c /\ limbs_ok l /\ length l = length xs /\ 0 <= c' < 997.
Proof.
  induction xs as [|x xs IH]; intros c l c' Hx Hc; cbn [fee_loop].
  { intros E. injection E as <- <-. cbn [pval length]. change (65536 ^ Z.of_nat 0) with 1. split_and!; [lia|constructor|done|lia..]. }
  apply Forall_cons_1 in Hx as [H0 Hx]. set (t := x * 997 + c). limb_step t Ht.
  destruct (fee_loop (t / 65536) xs) as [l0 c0] eqn:E0. intros E. injection E as <- <-.
  destruct (IH (t / 65536) l0 c0 Hx) as (H1 & H2 & H3 & H4); [unfold t in *; lia|done|].
  cbn [pval length]. rewrite Nat2Z.inj_succ, Z.pow_succ_r by lia. split_and!; [unfold t in *; nia|by constructor|by rewrite H3|lia..].
Qed.

Lemma denominator_loop_ok xs : forall fs c l c', limbs_ok xs -> limbs_ok fs -> length fs = length xs -> 0 <= c <= 1000 ->
  denominator_loop c xs fs = (l, c') ->
  lval l + 65536 ^ Z.of_nat (length xs) * c' = 1000 * lval xs + lval fs + c /\ limbs_ok l /\ length l = length xs /\ 0 <= c' <= 1000.
Proof.
  induction xs as [|x xs IH]; intros [|f fs] c l c' Hx Hf Hl Hc; try discriminate Hl; cbn [denominator_loop].
  { intros E. injection E as <- <-. cbn [pval length]. change (65536 ^ Z.of_nat 0) with 1. split_and!; [lia|constructor|done|lia..]. }
  apply Forall_cons_1 in Hx as [H0 Hx]. apply Forall_cons_1 in Hf as [H1 Hf]. injection Hl as Hl. set (t := x * 1000 + c + f). limb_step t Ht.
  destruct (denominator_loop (t / 65536) xs fs) as [l0 c0] eqn:E0. intros E. injection E as <- <-.
  destruct (IH fs (t / 65536) l0 c0 Hx Hf Hl) as (H2 & H3 & H4 & H5); [unfold t in *; lia|done|].
  cbn [pval length]. rewrite Nat2Z.inj_succ, Z.pow_succ_r by lia. split_and!; [unfold t in *; nia|by constructor|by rewrite H4|lia..].
Qed.

(** ** The product *)

(** A digit below a truncated value. *)
Lemma digit_mod d X M : 0 <= d < 65536 -> 0 < M -> d + 65536 * (X mod M) = (d + 65536 * X) mod (65536 * M).
Proof.
  intros Hd HM. rewrite Z.rem_mul_r by lia. replace (d + 65536 * X) with (d + X * 65536) by ring.
  rewrite Z.div_add, Z.mod_add, (Z.div_small d), (Z.mod_small d) by lia. done.
Qed.

(** The limbs of a sum modulo their number. *)
Definition holds_mod (n : nat) (l : list Z) (v : Z) : Prop :=
  lval l = v mod 65536 ^ Z.of_nat n /\ limbs_ok l /\ length l = n.

Lemma holds_mod_cons n l t v : holds_mod n l v -> holds_mod (S n) (t mod 65536 :: l) (t mod 65536 + 65536 * v).
Proof.
  intros (E & Hl & Hn). pose proof (Z.mod_pos_bound t 65536 ltac:(lia)). split; [|split; [by constructor|by cbn [length]; rewrite Hn]].
  cbn [pval]. rewrite E, digit_mod by lia. by rewrite Nat2Z.inj_succ, Z.pow_succ_r by lia.
Qed.

Lemma holds_mod_exact l : limbs_ok l -> holds_mod (length l) l (lval l).
Proof. intros Hl. split; [|by split]. rewrite Z.mod_small; [done|by apply lval_range]. Qed.

Lemma carry_loop_ok ns : forall c, limbs_ok ns -> 0 <= c < 65536 -> holds_mod (length ns) (carry_loop ns c) (lval ns + c).
Proof.
  induction ns as [|n ns IH]; intros c Hn Hc; cbn [carry_loop length].
  { split; [|by split; [constructor|]]. cbn [pval]. change (65536 ^ Z.of_nat 0) with 1. by rewrite Z.mod_1_r. }
  destruct (Z.eqb_spec c 0) as [->|Hc0]; [rewrite Z.add_0_r; by apply (holds_mod_exact (n :: ns))|].
  apply Forall_cons_1 in Hn as [H0 Hn]. set (t := n + c). limb_step t Ht.
  pose proof (holds_mod_cons (length ns) _ t (lval ns + t / 65536) (IH (t / 65536) Hn ltac:(unfold t in *; lia))) as HH.
  replace (lval (n :: ns) + c) with (t mod 65536 + 65536 * (lval ns + t / 65536)); [exact HH|]. cbn [pval]. unfold t in *. lia.
Qed.

Lemma row_loop_ok f rs : forall ns c, 0 <= f < 65536 -> limbs_ok rs -> limbs_ok ns -> (length rs <= length ns)%nat -> 0 <= c < 65536 ->
  holds_mod (length ns) (row_loop f rs ns c) (lval ns + f * lval rs + c).
Proof.
  induction rs as [|r rs IH]; intros ns c Hf Hr Hn Hl Hc.
  { cbn [row_loop pval]. replace (lval ns + f * 0 + c) with (lval ns + c) by lia. by apply carry_loop_ok. }
  destruct ns as [|n ns]; [cbn in Hl; lia|]. cbn [row_loop length] in *.
  apply Forall_cons_1 in Hr as [H0 Hr]. apply Forall_cons_1 in Hn as [H1 Hn]. set (t := n + f * r + c). assert (0 <= t < 65536 * 65536) as Htr by (unfold t; nia).
  limb_step t Ht. assert (0 <= t / 65536 < 65536) as Hq by (split; [apply Z.div_pos|apply Z.div_lt_upper_bound]; lia).
  rewrite (u32_id (t / 65536)) by (unfold in_u32, two32; lia).
  pose proof (holds_mod_cons (length ns) _ t _ (IH ns (t / 65536) Hf Hr Hn ltac:(lia) Hq)) as HH.
  replace (lval (n :: ns) + f * lval (r :: rs) + c) with (t mod 65536 + 65536 * (lval ns + f * lval rs + t / 65536)); [exact HH|].
  cbn [pval]. unfold t in *. nia.
Qed.

Lemma mul_loop_ok fs : forall rs ns, limbs_ok fs -> limbs_ok rs -> limbs_ok ns -> (length fs + length rs <= length ns)%nat ->
  holds_mod (length ns) (mul_loop fs rs ns) (lval ns + lval fs * lval rs).
Proof.
  induction fs as [|f fs IH]; intros rs ns Hf Hr Hn Hl; cbn [mul_loop].
  { cbn [pval]. rewrite Z.mul_0_l, Z.add_0_r. by apply holds_mod_exact. }
  apply Forall_cons_1 in Hf as [H0 Hf]. cbn [length] in Hl.
  destruct (row_loop_ok f rs ns 0 H0 Hr Hn) as (E & Hk & Hm); [lia..|]. rewrite Z.add_0_r in E.
  destruct (row_loop f rs ns 0) as [|d l] eqn:El; [cbn in Hm; lia|]. cbn [length] in Hm.
  apply Forall_cons_1 in Hk as [Hd Hk]. destruct (IH rs l Hf Hr Hk) as (E' & Hk' & Hm'); [lia|].
  rewrite <- Hm. split; [|split; [by constructor|by cbn [length]; rewrite Hm']].
  cbn [pval] in *. rewrite E', digit_mod by (try lia; apply Z.pow_pos_nonneg; lia).
  rewrite <- Hm in E. rewrite Nat2Z.inj_succ, Z.pow_succ_r in * by lia.
  replace (d + 65536 * (lval l + lval fs * lval rs)) with (d + 65536 * lval l + 65536 * lval fs * lval rs) by ring.
  rewrite E, Z.add_mod_idemp_l by (pose proof (Z.pow_pos_nonneg 65536 (Z.of_nat (length l))); lia). f_equal. ring.
Qed.

(** ** The remainder *)

Lemma shift_loop_ok xs : forall c l c', limbs_ok xs -> 0 <= c <= 1 -> shift_loop c xs = (l, c') ->
  lval l + 65536 ^ Z.of_nat (length xs) * c' = 2 * lval xs + c /\ limbs_ok l /\ length l = length xs /\ 0 <= c' <= 1.
Proof.
  induction xs as [|x xs IH]; intros c l c' Hx Hc; cbn [shift_loop].
  { intros E. injection E as <- <-. cbn [pval length]. change (65536 ^ Z.of_nat 0) with 1. split_and!; [lia|constructor|done|lia..]. }
  apply Forall_cons_1 in Hx as [H0 Hx]. set (t := x * 2 + c). limb_step t Ht.
  destruct (shift_loop (t / 65536) xs) as [l0 c0] eqn:E0. intros E. injection E as <- <-.
  destruct (IH (t / 65536) l0 c0 Hx) as (H1 & H2 & H3 & H4); [unfold t in *; lia|done|].
  cbn [pval length]. rewrite Nat2Z.inj_succ, Z.pow_succ_r by lia. split_and!; [unfold t in *; nia|by constructor|by rewrite H3|lia..].
Qed.

(** The comparison of the values, highest limbs first. *)
Lemma cmp_loop_ok rs : forall ds, limbs_ok rs -> limbs_ok ds -> length rs = length ds ->
  (0 <=? cmp_loop rs ds) = (lval (rev ds) <=? lval (rev rs)).
Proof.
  induction rs as [|r rs IH]; intros [|d ds] Hr Hd Hl; try discriminate Hl; [done|]. injection Hl as Hl. cbn [cmp_loop rev].
  apply Forall_cons_1 in Hr as [H0 Hr]. apply Forall_cons_1 in Hd as [H1 Hd]. rewrite !pval_app, !length_rev, Hl by lia. cbn [pval].
  assert (limbs_ok (rev rs) /\ limbs_ok (rev ds)) as [Hr' Hd'] by (split; by apply Forall_rev).
  pose proof (lval_range _ Hr') as Br. pose proof (lval_range _ Hd') as Bd. rewrite length_rev in Br, Bd. rewrite Hl in Br.
  destruct (Z.ltb_spec d r); [symmetry; apply Z.leb_le; nia|]. destruct (Z.ltb_spec r d); [symmetry; apply Z.leb_gt; nia|].
  replace r with d by lia. rewrite IH by done. destruct (Z.leb_spec (lval (rev ds)) (lval (rev rs))); symmetry; [apply Z.leb_le|apply Z.leb_gt]; lia.
Qed.

Lemma sub_loop_ok rs : forall ds b, limbs_ok rs -> limbs_ok ds -> length rs = length ds -> 0 <= b <= 1 ->
  holds_mod (length rs) (sub_loop b rs ds) (lval rs - lval ds - b).
Proof.
  induction rs as [|r rs IH]; intros [|d ds] b Hr Hd Hl Hb; try discriminate Hl; cbn [sub_loop length].
  { split; [|by split; [constructor|]]. change (65536 ^ Z.of_nat 0) with 1. by rewrite Z.mod_1_r. }
  injection Hl as Hl. apply Forall_cons_1 in Hr as [H0 Hr]. apply Forall_cons_1 in Hd as [H1 Hd]. cbn [pval].
  destruct (Z.ltb_spec (r - d - b) 0) as [Hn|Hn]; unfold u16, two16.
  - pose proof (holds_mod_cons (length rs) _ (r - d - b + 65536) _ (IH ds 1 Hr Hd Hl ltac:(lia))) as HH. rewrite (Z.mod_small (r - d - b + 65536)) in * by lia.
    replace (r + 65536 * lval rs - (d + 65536 * lval ds) - b) with (r - d - b + 65536 + 65536 * (lval rs - lval ds - 1)) by ring. exact HH.
  - pose proof (holds_mod_cons (length rs) _ (r - d - b) _ (IH ds 0 Hr Hd Hl ltac:(lia))) as HH. rewrite (Z.mod_small (r - d - b)) in * by lia.
    replace (r + 65536 * lval rs - (d + 65536 * lval ds) - b) with (r - d - b + 65536 * (lval rs - lval ds - 0)) by ring. exact HH.
Qed.

(** ** The division *)

Lemma limb_bits l (bit : nat) : limbs_ok l -> (bit / 16 < length l)%nat ->
  Z.land (Z.shiftr (limb l (bit / 16)) (Z.of_nat (bit mod 16))) 1 = (lval l / 2 ^ Z.of_nat bit) mod 2.
Proof.
  intros Hl Hb. destruct (lookup_lt_is_Some_2 l (bit / 16) Hb) as [x Hx]. unfold limb. rewrite Hx. cbn [default from_option id].
  rewrite <- (pval_lookup 65536 l (bit / 16) x ltac:(lia) Hl Hx).
  rewrite Z.shiftr_div_pow2 by lia. change 1 with (Z.ones 1) at 1. rewrite Z.land_ones by lia. change (2 ^ 1) with 2.
  pose proof (Nat.mod_upper_bound bit 16 ltac:(lia)). pose proof (Nat.div_mod bit 16 ltac:(lia)) as Ed.
  remember (bit / 16)%nat as l0. remember (bit mod 16)%nat as p.
  remember (lval l) as v. change 65536 with (2 ^ 16). rewrite <- Z.pow_mul_r by lia. set (V := v / _).
  replace (2 ^ 16) with (2 ^ Z.of_nat p * (2 * 2 ^ (15 - Z.of_nat p))) by (rewrite <- Z.pow_succ_r, <- Z.pow_add_r by lia; f_equal; lia).
  rewrite Z.rem_mul_r by lia. rewrite (Z.mul_comm (2 ^ Z.of_nat p)), Z.div_add by lia.
  rewrite (Z.div_small (V mod _)) by (apply Z.mod_pos_bound; lia). rewrite Z.add_0_l, Z.rem_mul_r by lia.
  rewrite Z.mul_comm, Z.mod_add, Z.mod_mod by lia. f_equal. unfold V. rewrite Z.div_div by lia. f_equal.
  rewrite <- Z.pow_add_r by lia. f_equal. lia.
Qed.

Lemma set_bit q (bit : nat) k : limbs_ok q -> (bit < 16 * length q)%nat -> lval q = 2 ^ Z.of_nat (S bit) * k ->
  let q' := <[(bit / 16)%nat := Z.lor (limb q (bit / 16)) (u16 (Z.shiftl 1 (Z.of_nat (bit mod 16))))]> q in
  lval q' = lval q + 2 ^ Z.of_nat bit /\ limbs_ok q' /\ length q' = length q.
Proof.
  intros Hq Hb Hv. cbv zeta. pose proof (Nat.mod_upper_bound bit 16 ltac:(lia)) as Hp. pose proof (Nat.div_mod bit 16 ltac:(lia)) as Ed.
  remember (bit / 16)%nat as l. remember (bit mod 16)%nat as p.
  assert (l < length q)%nat as Hll by lia. destruct (lookup_lt_is_Some_2 q l Hll) as [x Hx].
  unfold limb. rewrite Hx. cbn [default from_option id].
  pose proof (pval_lookup 65536 q l x ltac:(lia) Hq Hx) as Ex. rewrite Hv in Ex.
  replace (2 ^ Z.of_nat (S bit)) with (65536 ^ Z.of_nat l * 2 ^ Z.of_nat (S p)) in Ex
    by (change 65536 with (2 ^ 16); rewrite <- Z.pow_mul_r, <- Z.pow_add_r by lia; f_equal; lia).
  rewrite <- Z.mul_assoc, Z.mul_comm, Z.div_mul in Ex by lia.
  replace 65536 with (2 ^ Z.of_nat (S p) * 2 ^ (15 - Z.of_nat p)) in Ex at 1 by (rewrite <- Z.pow_add_r by lia; change 65536 with (2 ^ 16); f_equal; lia).
  rewrite Z.mul_mod_distr_l in Ex by lia. set (k' := k mod _) in Ex.
  assert (0 <= k' < 2 ^ (15 - Z.of_nat p)) as Hk by (apply Z.mod_pos_bound; lia).
  assert (2 ^ Z.of_nat (S p) = 2 * 2 ^ Z.of_nat p) as E2 by (rewrite Nat2Z.inj_succ, Z.pow_succ_r by lia; done).
  assert (2 ^ Z.of_nat (S p) * 2 ^ (15 - Z.of_nat p) = 65536) as E16 by (rewrite <- Z.pow_add_r by lia; change 65536 with (2 ^ 16); f_equal; lia).
  assert (0 < 2 ^ Z.of_nat p) as H0 by (apply Z.pow_pos_nonneg; lia). assert (2 ^ Z.of_nat p < 65536) as Hlt by nia.
  assert (Z.lor x (u16 (Z.shiftl 1 (Z.of_nat p))) = x + 2 ^ Z.of_nat p) as El.
  { rewrite Z.shiftl_mul_pow2, Z.mul_1_l by lia. unfold u16, two16. rewrite Z.mod_small by lia. rewrite <- Ex, Z.mul_comm, <- Z.shiftl_mul_pow2 by lia.
    rewrite Z.lor_comm, lor_shiftl_add, Z.shiftl_mul_pow2 by lia. ring. }
  rewrite El. split; [|split; [|apply length_insert]].
  - rewrite (pval_insert _ _ _ x) by (done || lia). replace (x + 2 ^ Z.of_nat p - x) with (2 ^ Z.of_nat p) by lia.
    assert (65536 ^ Z.of_nat l * 2 ^ Z.of_nat p = 2 ^ Z.of_nat bit) as Epow; [|lia].
    change 65536 with (2 ^ 16). rewrite <- Z.pow_mul_r, <- Z.pow_add_r by lia. f_equal. lia.
  - apply Forall_insert; [done|]. nia.
Qed.

(** What the loop has divided when [n] bits are left. *)
Record divided (N D : Z) (n : nat) (rem quo : list Z) : Prop := {
  dv_rem : lval rem = (N / 2 ^ Z.of_nat n) mod D;
  dv_quo : lval quo = 2 ^ Z.of_nat n * (N / 2 ^ Z.of_nat n / D);
  dv_rem_ok : limbs_ok rem;
  dv_quo_ok : limbs_ok quo;
  dv_rem_len : length rem = 16%nat;
  dv_quo_len : length quo = 16%nat
}.

(** One bit more of the dividend. *)
Lemma next_bit N bit : N / 2 ^ Z.of_nat bit = 2 * (N / 2 ^ Z.of_nat (S bit)) + (N / 2 ^ Z.of_nat bit) mod 2.
Proof.
  rewrite Nat2Z.inj_succ, Z.pow_succ_r, (Z.mul_comm 2 (2 ^ _)), <- Z.div_div by lia. apply Z.div_mod. lia.
Qed.

Lemma div_step D X M : 0 < D -> X = 2 * M + (X mod 2) -> forall R, R = 2 * (M mod D) + X mod 2 ->
  0 <= R < 2 * D /\ if D <=? R then X mod D = R - D /\ X / D = 2 * (M / D) + 1 else X mod D = R /\ X / D = 2 * (M / D).
Proof.
  intros HD HX R HR. pose proof (Z.mod_pos_bound M D HD). pose proof (Z.mod_pos_bound X 2 ltac:(lia)). pose proof (Z.div_mod M D ltac:(lia)) as EM.
  split; [lia|]. destruct (Z.leb_spec D R) as [Hle|Hgt].
  - split; [symmetry; apply (Z.mod_unique_pos _ _ (2 * (M / D) + 1))|symmetry; apply (Z.div_unique_pos _ _ _ (R - D))]; lia.
  - split; [symmetry; apply (Z.mod_unique_pos _ _ (2 * (M / D)))|symmetry; apply (Z.div_unique_pos _ _ _ R)]; lia.
Qed.

Lemma quotient_large N D bit k : 0 <= N -> 0 < D -> (256 <= bit)%nat -> 0 <= k -> N / 2 ^ Z.of_nat bit / D = 2 * k + 1 -> 2 ^ 256 <= N / D.
Proof.
  intros HN HD Hb Hk E. rewrite Z.div_div, (Z.mul_comm (2 ^ _)), <- Z.div_div in E by (try apply Z.pow_pos_nonneg; lia).
  assert (0 < 2 ^ Z.of_nat bit) as H0 by (apply Z.pow_pos_nonneg; lia).
  pose proof (Z.mul_div_le (N / D) (2 ^ Z.of_nat bit) H0). rewrite E in H.
  pose proof (Z.pow_le_mono_r 2 256 (Z.of_nat bit) ltac:(lia) ltac:(lia)). nia.
Qed.

Section Division.
Context (num den : list Z) (Hnum : limbs_ok num) (Hden : limbs_ok den) (Ln : length num = 32%nat) (Ld : length den = 16%nat).
Local Abbreviation N := (lval num).
Local Abbreviation D := (lval den).
Context (HD : 0 < D).

Definition div_result (r : option (list Z)) : Prop :=
  match r with
  | Some q => lval q = N / D /\ limbs_ok q /\ length q = 16%nat
  | None => 2 ^ 256 <= N / D
  end.

Lemma div_loop_ok n : forall rem quo, (n <= 512)%nat -> divided N D n rem quo -> div_result (div_loop n num den rem quo).
Proof.
  induction n as [|bit IH]; intros rem quo Hn [Hr Hq Or Oq Lr Lq]; cbn [div_loop].
  { change (2 ^ Z.of_nat 0) with 1 in Hq. rewrite Z.div_1_r, Z.mul_1_l in Hq. by split. }
  assert (bit / 16 < length num)%nat as Hlim by (rewrite Ln; apply Nat.Div0.div_lt_upper_bound; lia).
  rewrite (limb_bits num bit Hnum Hlim).
  pose proof (Z.mod_pos_bound (N / 2 ^ Z.of_nat bit) 2 ltac:(lia)) as Hb.
  destruct (shift_loop _ rem) as [l c] eqn:Es. destruct (shift_loop_ok rem ((N / 2 ^ Z.of_nat bit) mod 2) l c Or ltac:(lia) Es) as (El & Ol & Ll & Hc). rewrite Lr in El, Ll.
  destruct (div_step D _ _ HD (next_bit N bit) _ eq_refl) as [HR Hstep]. rewrite <- Hr in HR, Hstep.
  pose proof (lval_range _ Hden) as HDr. pose proof (lval_range _ Ol) as Hlr. rewrite Ld in HDr. rewrite Ll in Hlr.
  change (65536 ^ Z.of_nat 16) with (2 ^ 256) in *.
  rewrite (cmp_loop_ok (rev l) (rev den)), !rev_involutive by (try (by apply Forall_rev); rewrite !length_rev; lia).
  assert ((c =? 1) || (D <=? lval l) = (D <=? 2 * lval rem + (N / 2 ^ Z.of_nat bit) mod 2)) as ->.
  { destruct (Z.eqb_spec c 1) as [->|Hc1]; cbn [orb]; [symmetry; apply Z.leb_le; lia|]. assert (c = 0) as -> by lia. f_equal. lia. }
  assert (0 <= N / 2 ^ Z.of_nat (S bit) / D) as HQ by (apply Z.div_pos; [apply Z.div_pos; [apply lval_range; done|apply Z.pow_pos_nonneg; lia]|lia]).
  destruct (Z.leb_spec D (2 * lval rem + (N / 2 ^ Z.of_nat bit) mod 2)) as [Hge|Hlt]; destruct Hstep as [Hm Hd].
  - destruct (Nat.leb_spec 256 bit) as [Hbig|Hsmall]; [by apply (quotient_large N D bit _ (proj1 (lval_range _ Hnum)) HD Hbig HQ Hd)|].
    apply IH; [lia|]. destruct (sub_loop_ok l den 0 Ol Hden ltac:(lia) ltac:(lia)) as (Ev & Ov & Lv). rewrite Ll in Ev, Lv.
    destruct (set_bit quo bit (N / 2 ^ Z.of_nat (S bit) / D) Oq ltac:(lia) Hq) as (E1 & O1 & L1).
    constructor; [|rewrite E1, Hq, Hd, Nat2Z.inj_succ, Z.pow_succ_r by lia; ring|done|done|done|lia].
    rewrite Ev, Hm. change (65536 ^ Z.of_nat 16) with (2 ^ 256).
    symmetry. apply (Z.mod_unique_pos _ _ (- c)); lia.
  - apply IH; [lia|]. constructor; [|rewrite Hq, Hd, Nat2Z.inj_succ, Z.pow_succ_r by lia; ring|done|done|lia|done].
    rewrite Hm. lia.
Qed.

Lemma divide_ok : div_result (div_loop 512 num den (replicate 16 0) (replicate 16 0)).
Proof.
  apply div_loop_ok; [lia|]. pose proof (lval_range _ Hnum) as Hr. rewrite Ln in Hr. change (65536 ^ Z.of_nat 32) with (2 ^ Z.of_nat 512) in Hr.
  constructor; rewrite ?pval_zero, ?(Z.div_small N) by lia; [by rewrite Z.mod_0_l by lia|by rewrite Z.div_0_l by lia|apply zero_limbs_ok|apply zero_limbs_ok|done|done].
Qed.

End Division.

Lemma div_result_small num den r : div_result num den r -> lval num / lval den < 2 ^ 256 ->
  exists q, r = Some q /\ limbs_ok q /\ length q = 16%nat /\ lval q = lval num / lval den.
Proof. destruct r as [q|]; cbn [div_result]; [|lia]. intros (? & ? & ?) _. by exists q. Qed.

(** ** Words and limbs *)

Lemma four_limbs w : in_u64 w -> limbs_ok (limbs_of_word w) /\ length (limbs_of_word w) = 4%nat /\ lval (limbs_of_word w) = w.
Proof.
  unfold in_u64, two64. intros Hw. unfold limbs_of_word. cbn [seq map].
  change (u16 (Z.land ?t 65535)) with (low t). rewrite !low_eq, !Z.shiftr_div_pow2 by lia.
  change (2 ^ (16 * Z.of_nat 0)) with 1. change (2 ^ (16 * Z.of_nat 1)) with 65536. change (2 ^ (16 * Z.of_nat 2)) with 4294967296.
  change (2 ^ (16 * Z.of_nat 3)) with 281474976710656. cbn [pval length].
  split_and!; [|done|Z.div_mod_to_equations; lia].
  repeat (apply Forall_cons_2; [apply Z.mod_pos_bound; lia|]). constructor.
Qed.

Lemma unpack_ok ws : words_ok ws -> limbs_ok (unpack ws) /\ length (unpack ws) = (4 * length ws)%nat /\ lval (unpack ws) = pval two64 ws.
Proof.
  unfold unpack. induction 1 as [|w ws Hw _ (IH1 & IH2 & IH3)]; [split_and!; [constructor|done|done]|]. cbn [map concat pval length].
  destruct (four_limbs w Hw) as (H1 & H2 & H3). rewrite length_app, pval_app, H2, H3, IH2, IH3 by lia. split_and!; [by apply Forall_app|lia|done].
Qed.

Lemma lor_zero l a : 0 <= a -> Forall (fun x => 0 <= x) l -> fold_left Z.lor l a = 0 <-> a = 0 /\ Forall (fun x => x = 0) l.
Proof.
  intros Ha Hl. revert a Ha. induction Hl as [|x l Hx _ IH]; intros a Ha; cbn [fold_left].
  { split; [intros ->; by split; [|constructor]|by intros [-> _]]. }
  rewrite IH by (apply Z.lor_nonneg; lia). rewrite Z.lor_eq_0_iff, Forall_cons_iff. tauto.
Qed.

Lemma all_zero_ok ws : words_ok ws -> all_zero ws = (pval two64 ws =? 0).
Proof.
  intros Hw. unfold all_zero. assert (Forall (fun x => 0 <= x) ws) as Hn by (eapply List.Forall_impl; [|exact Hw]; unfold in_u64; cbv beta; lia).
  pose proof (lor_zero ws 0 ltac:(lia) Hn) as Hz.
  assert (pval two64 ws = 0 <-> Forall (fun x => x = 0) ws) as Hp.
  { clear Hz. induction ws as [|w ws IH]; cbn [pval]; [split; [constructor|done]|]. apply Forall_cons_1 in Hw as [H0 Hw]. apply Forall_cons_1 in Hn as [_ Hn].
    rewrite Forall_cons_iff, <- (IH Hw Hn). pose proof (pval_range two64 ws ltac:(done) Hw). unfold in_u64, two64 in *. lia. }
  destruct (Z.eqb_spec (fold_left Z.lor ws 0) 0) as [E|E]; symmetry; [apply Z.eqb_eq|apply Z.eqb_neq]; tauto.
Qed.

Lemma four_limbs_word a b c d : 0 <= a < 65536 -> 0 <= b < 65536 -> 0 <= c < 65536 -> 0 <= d < 65536 ->
  Z.lor (Z.lor (Z.lor a (Z.shiftl b 16)) (Z.shiftl c 32)) (Z.shiftl d 48) = lval [a; b; c; d].
Proof.
  intros. rewrite (lor_shiftl_add a b 16), (lor_shiftl_add _ c 32), (lor_shiftl_add _ d 48) by lia. cbn [pval]. lia.
Qed.

Lemma pack_ok q : limbs_ok q -> length q = 16%nat -> words_ok (pack q) /\ length (pack q) = 4%nat /\ pval two64 (pack q) = lval q.
Proof.
  intros Hq Hl. do 16 (destruct q as [|? q]; [discriminate Hl|]). destruct q; [|discriminate Hl].
  unfold limbs_ok in Hq. repeat (apply Forall_cons_1 in Hq as [? Hq]).
  unfold pack, word_of_limbs, limb. cbn [seq map Nat.mul Nat.add lookup list_lookup default from_option id].
  rewrite !four_limbs_word by done. unfold words_ok, in_u64, two64. cbn [pval length].
  split_and!; [repeat (apply Forall_cons_2; [lia|]); constructor|done|ring].
Qed.

(** ** The settlement *)

(** The output of the constant product with a fee of three in a thousand. *)
Definition swap_output (a r o : Z) : Z := 997 * a * o / (1000 * r + 997 * a).

Lemma swap_output_small a r o : 0 < a -> 0 < r -> 0 < o -> 0 <= swap_output a r o < o.
Proof.
  intros Ha Hr Ho. unfold swap_output. split; [apply Z.div_pos; nia|]. apply Z.div_lt_upper_bound; nia.
Qed.

Lemma pow_16 : 65536 ^ Z.of_nat (4 * 4) = 2 ^ 256.
Proof. reflexivity. Qed.

Lemma pow_32 : 65536 ^ Z.of_nat 32 = 2 ^ 256 * 2 ^ 256.
Proof. reflexivity. Qed.

Lemma product_ok fee ro : limbs_ok fee -> limbs_ok ro -> length fee = 16%nat -> length ro = 16%nat ->
  let n := mul_loop fee ro (replicate 32 0) in limbs_ok n /\ length n = 32%nat /\ lval n = lval fee * lval ro.
Proof.
  intros F2 O1 F3 O2. cbv zeta. pose proof (lval_range _ F2) as Bf. pose proof (lval_range _ O1) as Bo. rewrite F3 in Bf. rewrite O2 in Bo.
  destruct (mul_loop_ok fee ro (replicate 32 0) F2 O1 (zero_limbs_ok 32) ltac:(rewrite length_replicate; lia)) as (M1 & M2 & M3).
  rewrite length_replicate in M1, M3. split; [exact M2|]. split; [exact M3|]. rewrite M1, pval_zero, Z.add_0_l. apply Z.mod_small.
  rewrite pow_32. change (Z.of_nat 16) with (Z.of_nat (4 * 4)) in Bf, Bo. rewrite pow_16 in Bf, Bo. nia.
Qed.

Lemma quotient_ok num den : limbs_ok num -> limbs_ok den -> length num = 32%nat -> length den = 16%nat ->
  0 < lval den -> lval num / lval den < 2 ^ 256 ->
  exists q, div_loop 512 num den (replicate 16 0) (replicate 16 0) = Some q /\
    limbs_ok q /\ length q = 16%nat /\ lval q = lval num / lval den.
Proof. intros M2 D2 M3 D3 HD Hs. exact (div_result_small num den _ (divide_ok num den M2 D2 M3 D3 HD) Hs). Qed.

Lemma settle_ok ai ri ro : words_ok ai -> words_ok ri -> words_ok ro -> length ai = 4%nat -> length ri = 4%nat -> length ro = 4%nat ->
  let a := pval two64 ai in let r := pval two64 ri in let o := pval two64 ro in
  if (a =? 0) || (r =? 0) || (o =? 0) then settle_u512_reference ai ri ro = (-1, None)
  else if 2 ^ 256 <=? 1000 * r + 997 * a then settle_u512_reference ai ri ro = (-2, None)
  else exists out, settle_u512_reference ai ri ro = (1, Some out) /\ words_ok out /\ length out = 4%nat /\ pval two64 out = swap_output a r o.
Proof.
  intros Ha Hr Ho La Lr Lo. cbv zeta. unfold settle_u512_reference. rewrite !all_zero_ok by done.
  destruct (unpack_ok ai Ha) as (A1 & A2 & A3). destruct (unpack_ok ri Hr) as (R1 & R2 & R3). destruct (unpack_ok ro Ho) as (O1 & O2 & O3).
  rewrite La in A2. rewrite Lr in R2. rewrite Lo in O2. rewrite <- A3, <- R3, <- O3.
  pose proof (lval_range _ A1) as Ba. pose proof (lval_range _ R1) as Br. pose proof (lval_range _ O1) as Bo. rewrite A2 in Ba. rewrite R2 in Br. rewrite O2 in Bo.
  rewrite pow_16 in *.
  destruct (Z.eqb_spec (lval (unpack ai)) 0); [done|]. destruct (Z.eqb_spec (lval (unpack ri)) 0); [done|].
  destruct (Z.eqb_spec (lval (unpack ro)) 0); [done|]. cbn [orb].
  destruct (fee_loop 0 (unpack ai)) as [fee cf] eqn:Ef. destruct (fee_loop_ok _ 0 fee cf A1 ltac:(lia) Ef) as (F1 & F2 & F3 & F4).
  rewrite A2 in F1, F3. rewrite pow_16 in F1. pose proof (lval_range _ F2) as Bf. rewrite F3 in Bf. rewrite pow_16 in Bf.
  destruct (Z.eqb_spec cf 0) as [->|Hcf]; cbn [negb]; [|destruct (Z.leb_spec (2 ^ 256) (1000 * lval (unpack ri) + 997 * lval (unpack ai))); [done|lia]].
  destruct (denominator_loop 0 (unpack ri) fee) as [den cd] eqn:Ed.
  destruct (denominator_loop_ok _ fee 0 den cd R1 F2 ltac:(lia) ltac:(lia) Ed) as (D1 & D2 & D3 & D4). rewrite R2 in D1, D3.
  rewrite pow_16 in D1. pose proof (lval_range _ D2) as Bd. rewrite D3 in Bd. rewrite pow_16 in Bd.
  destruct (Z.eqb_spec cd 0) as [->|Hcd]; cbn [negb]; destruct (Z.leb_spec (2 ^ 256) (1000 * lval (unpack ri) + 997 * lval (unpack ai))); try lia; [|done].
  pose proof (swap_output_small (lval (unpack ai)) (lval (unpack ri)) (lval (unpack ro)) ltac:(lia) ltac:(lia) ltac:(lia)) as Hs.
  assert (lval fee * lval (unpack ro) / lval den = swap_output (lval (unpack ai)) (lval (unpack ri)) (lval (unpack ro))) as Eq
    by (unfold swap_output; f_equal; lia).
  destruct (product_ok fee (unpack ro) F2 O1 F3 O2) as (M2 & M3 & M1). rewrite <- M1 in Eq.
  destruct (quotient_ok _ den M2 D2 M3 D3 ltac:(lia) ltac:(lia)) as (q & -> & Q2 & Q3 & Q1). rewrite Eq in Q1.
  destruct (pack_ok q Q2 Q3) as (P1 & P2 & P3). exists (pack q). split; [done|]. split; [done|]. split; [done|]. by rewrite P3, Q1.
Qed.

(** ** The level loop, in place *)

Fixpoint pairs (l : list (list Z)) : list (list Z) :=
  match l with
  | a :: b :: l => compute_merkle_parent_512 a b :: pairs l
  | [a] => [compute_merkle_parent_512 a a]
  | [] => []
  end.

Fixpoint tree_root (fuel : nat) (l : list (list Z)) : list Z :=
  match fuel with
  | O => default [] (head l)
  | S fuel => if (1 <? length l)%nat then tree_root fuel (pairs l) else default [] (head l)
  end.

Lemma pairs_length l : length (pairs l) = ((length l + 1) / 2)%nat.
Proof.
  induction l as [|a|a b l IH] using list_ind2; [reflexivity..|]. cbn [pairs length]. rewrite IH.
  replace (S (S (length l)) + 1)%nat with (length l + 1 + 1 * 2)%nat by lia. rewrite Nat.div_add by lia. lia.
Qed.

Lemma drop_two {A} (l : list A) i a b : l !! i = Some a -> l !! S i = Some b -> drop i l = a :: b :: drop (S (S i)) l.
Proof. intros Ha Hb. by rewrite (drop_S _ _ _ Ha), (drop_S _ _ _ Hb). Qed.

Lemma level_loop_ok fuel : forall k count nodes, (count <= length nodes)%nat -> (2 * k <= count + 1)%nat -> (count <= 2 * k + 2 * fuel)%nat ->
  take ((count + 1) / 2) (level_loop fuel (2 * k) count nodes) = take k nodes ++ pairs (drop (2 * k) (take count nodes)) /\
  length (level_loop fuel (2 * k) count nodes) = length nodes.
Proof.
  assert (forall k count (nodes : list (list Z)), (count <= 2 * k)%nat -> (2 * k <= count + 1)%nat ->
    take ((count + 1) / 2) nodes = take k nodes ++ pairs (drop (2 * k) (take count nodes))) as Hend.
  { intros k count nodes H1 H2. rewrite drop_ge by (rewrite length_take; lia). cbn [pairs]. rewrite app_nil_r. f_equal.
    assert (count + 1 = 2 * k + (count + 1 - 2 * k))%nat as -> by lia. rewrite (Nat.mul_comm 2 k), Nat.div_add_l by lia.
    rewrite Nat.div_small by lia. lia. }
  induction fuel as [|fuel IH]; intros k count nodes Hn Hk Hf; cbn [level_loop]; [split; [apply Hend; lia|done]|].
  destruct (Nat.ltb_spec (2 * k) count) as [Hlt|Hge]; [|split; [by apply Hend|done]].
  assert (2 * k / 2 = k)%nat as Ek by (rewrite Nat.mul_comm; apply Nat.div_mul; lia). cbv zeta. rewrite Ek.
  replace (2 * k + 2)%nat with (2 * S k)%nat by lia.
  set (P := compute_merkle_parent_512 _ _).
  destruct (IH (S k) count (<[k := P]> nodes)) as [E1 E2]; [rewrite length_insert; lia|lia|lia|].
  rewrite E1, E2, length_insert. split; [|done].
  rewrite (take_S_r _ _ P) by (rewrite list_lookup_insert_eq; [done|lia]). rewrite take_insert_ge, <- app_assoc by lia. f_equal. cbn [app].
  rewrite take_insert_lt, drop_insert_lt by lia.
  destruct (lookup_lt_is_Some_2 nodes (2 * k) ltac:(lia)) as [a Ha].
  assert (take count nodes !! (2 * k)%nat = Some a) as Ha' by (rewrite lookup_take_lt; [done|lia]).
  unfold P, node. rewrite Ha. cbn [default from_option id].
  destruct (Nat.ltb_spec (2 * k + 1) count) as [Hlt2|Hge2].
  - destruct (lookup_lt_is_Some_2 nodes (2 * k + 1) ltac:(lia)) as [b Hb]. rewrite Hb.
    replace (2 * k + 1)%nat with (S (2 * k)) in Hb by lia.
    rewrite (drop_two (take count nodes) (2 * k) a b Ha') by (rewrite lookup_take_lt; [done|lia]). cbn [pairs default from_option id]. do 3 f_equal. lia.
  - rewrite Ha, (drop_S _ _ _ Ha'). rewrite (drop_ge _ (S (2 * k))), (drop_ge _ (2 * S k)) by (rewrite length_take; lia). reflexivity.
Qed.

Lemma tree_loop_ok fuel : forall count nodes, (0 < count <= length nodes)%nat -> (count <= fuel)%nat ->
  node (tree_loop fuel count nodes) 0 = tree_root fuel (take count nodes).
Proof.
  assert (forall (nodes : list (list Z)) count, (0 < count)%nat -> node nodes 0 = default [] (head (take count nodes))) as H0
    by (intros [|x nodes] [|count] Hc; try lia; reflexivity).
  induction fuel as [|fuel IH]; intros count nodes Hc Hf; cbn [tree_loop tree_root]; [lia|].
  rewrite length_take, Nat.min_l by lia. destruct (Nat.ltb_spec 1 count) as [Hlt|Hge]; [|apply H0; lia].
  destruct (level_loop_ok count 0 count nodes) as [E1 E2]; [lia..|]. change (2 * 0)%nat with O in *. rewrite take_0, drop_0 in E1. cbn [app] in E1.
  pose proof (Nat.div_mod (count + 1) 2 ltac:(lia)) as Ed. pose proof (Nat.mod_upper_bound (count + 1) 2 ltac:(lia)).
  rewrite IH by (rewrite ?E2; lia). by rewrite E1.
Qed.

(** The root of a batch. *)
Definition batch_root (swaps : list UniswapV2SwapU512) : list Z :=
  if (length swaps =? 0)%nat then replicate 32 0 else tree_root (length swaps) (map compute_swap_leaf swaps).

Lemma compute_batch_merkle_root_ok `{Env} swaps m : mallocs_succeed -> exists m', compute_batch_merkle_root swaps m = Val (batch_root swaps) m'.
Proof.
  intros Ha. unfold compute_batch_merkle_root, batch_root. destruct (Nat.eqb_spec (length swaps) 0); [by eexists|].
  destruct (try_malloc_ok m Ha) as [m1 Hm1]. unfold mbind, Mem_bind. rewrite Hm1. exists m1.
  rewrite tree_loop_ok by (rewrite ?length_map; lia). by rewrite take_ge by (by rewrite length_map).
Qed.

(** ** What a root binds *)

Lemma cons_parts {A} (x y : A) l k : x :: l = y :: k -> x = y /\ l = k.
Proof. by intros [= -> ->]. Qed.

Definition collision : Prop := exists m1 m2, m1 <> m2 /\ sha256_spec m1 = sha256_spec m2.

Lemma sha_inj m1 m2 : lin_sha256 m1 = lin_sha256 m2 -> m1 = m2 \/ collision.
Proof.
  destruct (lin_sha256_facts m1) as (_ & _ & ->). destruct (lin_sha256_facts m2) as (_ & _ & ->). intros E.
  destruct (decide (m1 = m2)) as [?|Hn]; [by left|]. right. by exists m1, m2.
Qed.

Definition digests (l : list (list Z)) : Prop := Forall (fun d => length d = 32%nat) l.

Lemma sha_length m : length (lin_sha256 m) = 32%nat.
Proof. apply lin_sha256_facts. Qed.

Lemma merkle_parent_inj a b c d : length a = 32%nat -> length c = 32%nat ->
  compute_merkle_parent_512 a b = compute_merkle_parent_512 c d -> (a = c /\ b = d) \/ collision.
Proof. intros Ha Hc E. destruct (sha_inj _ _ E) as [E'|?]; [left|by right]. apply app_inj_1 in E' as [-> ->]; [done|lia]. Qed.

Lemma pairs_digests l : digests (pairs l).
Proof. induction l as [|a|a b l IH] using list_ind2; cbn [pairs]; [constructor|constructor; [apply sha_length|constructor]|constructor; [apply sha_length|exact IH]]. Qed.

Lemma pairs_inj l1 : forall l2, digests l1 -> digests l2 -> length l1 = length l2 -> pairs l1 = pairs l2 -> l1 = l2 \/ collision.
Proof.
  induction l1 as [|a|a b l1 IH] using list_ind2; intros [|c [|d l2]] H1 H2 Hl E; try discriminate Hl; [by left|..]; cbn [pairs] in E.
  - apply cons_parts in E as [E _]. apply Forall_cons_1 in H1 as [Ha _]. apply Forall_cons_1 in H2 as [Hc _].
    destruct (merkle_parent_inj _ _ _ _ Ha Hc E) as [[-> _]|?]; [by left|by right].
  - apply Forall_cons_1 in H1 as [Ha [_ H1]%Forall_cons_1]. apply Forall_cons_1 in H2 as [Hc [_ H2]%Forall_cons_1].
    injection Hl as Hl. apply cons_parts in E as [E Et].
    destruct (merkle_parent_inj _ _ _ _ Ha Hc E) as [[-> ->]|?]; [|by right].
    destruct (IH l2 H1 H2 Hl Et) as [->|?]; [by left|by right].
Qed.

Lemma tree_root_inj fuel : forall l1 l2, digests l1 -> digests l2 -> length l1 = length l2 -> (0 < length l1 <= fuel)%nat ->
  tree_root fuel l1 = tree_root fuel l2 -> l1 = l2 \/ collision.
Proof.
  induction fuel as [|fuel IH]; intros l1 l2 H1 H2 Hl Hf; [lia|]. cbn [tree_root]. rewrite <- Hl.
  destruct (Nat.ltb_spec 1 (length l1)) as [Hlt|Hge]; intros E.
  - pose proof (Nat.div_mod (length l1 + 1) 2 ltac:(lia)). pose proof (Nat.mod_upper_bound (length l1 + 1) 2 ltac:(lia)).
    destruct (IH (pairs l1) (pairs l2) (pairs_digests l1) (pairs_digests l2)) as [E'|?]; [by rewrite !pairs_length, Hl|rewrite pairs_length; lia|done| |by right].
    by apply pairs_inj.
  - destruct l1 as [|x [|]], l2 as [|y [|]]; cbn [length] in *; try lia. cbn [head default from_option id] in E. left. by rewrite E.
Qed.

(** The part of a swap that its leaf holds. *)
Definition bound (s : UniswapV2SwapU512) : Z * Z * list Z * list Z := (tx_id s, sw_status s, amount_out s, take 2 (amount_in s)).

Record swap_ok (s : UniswapV2SwapU512) : Prop := {
  so_id : in_u64 (tx_id s);
  so_status : in_i64 (sw_status s);
  so_out : words_ok (amount_out s) /\ length (amount_out s) = 4%nat;
  so_in : words_ok (amount_in s) /\ length (amount_in s) = 4%nat
}.

Lemma le8_inj a b : in_u64 a -> in_u64 b -> le_bytes 8 a = le_bytes 8 b -> a = b.
Proof.
  intros Ha Hb E. apply (f_equal le_val) in E. rewrite !le_val_bytes in E. change (256 ^ Z.of_nat 8) with two64 in E.
  unfold in_u64 in *. by rewrite !Z.mod_small in E.
Qed.

Lemma word_bytes_length ws : length (word_bytes ws) = (8 * length ws)%nat.
Proof. unfold word_bytes. induction ws as [|w ws IH]; [done|]. cbn [map concat length]. rewrite length_app, length_le_bytes, IH. lia. Qed.

Lemma word_bytes_inj ws : forall vs, words_ok ws -> words_ok vs -> length ws = length vs -> word_bytes ws = word_bytes vs -> ws = vs.
Proof.
  unfold word_bytes. induction ws as [|w ws IH]; intros [|v vs] Hw Hv Hl E; try discriminate Hl; [done|]. cbn [map concat] in E. injection Hl as Hl.
  apply Forall_cons_1 in Hw as [H0 Hw]. apply Forall_cons_1 in Hv as [H1 Hv]. apply app_inj_1 in E as [E1 E2]; [|by rewrite !length_le_bytes].
  by rewrite (le8_inj _ _ H0 H1 E1), (IH vs Hw Hv Hl E2).
Qed.

Lemma leaf_buffer_inj s1 s2 : swap_ok s1 -> swap_ok s2 -> leaf_buffer s1 = leaf_buffer s2 -> bound s1 = bound s2.
Proof.
  intros [I1 S1 [O1 L1] [A1 M1]] [I2 S2 [O2 L2] [A2 M2]] E. unfold leaf_buffer in E.
  apply app_inj_1 in E as [E1 E]; [|by rewrite !length_le_bytes]. apply app_inj_1 in E as [E2 E]; [|by rewrite !length_le_bytes].
  apply app_inj_1 in E as [E3 E]; [|rewrite !word_bytes_length, !length_take; lia].
  apply app_inj_1 in E as [E4 E5]; [|rewrite !word_bytes_length, !length_take, !length_drop; lia].
  apply word_bytes_inj in E3; [|by apply Forall_take|by apply Forall_take|rewrite !length_take; lia].
  apply word_bytes_inj in E4; [|by apply Forall_take, Forall_drop|by apply Forall_take, Forall_drop|rewrite !length_take, !length_drop; lia].
  apply word_bytes_inj in E5; [|by apply Forall_take|by apply Forall_take|rewrite !length_take; lia].
  unfold bound. f_equal; [f_equal; [f_equal|]|done].
  - exact (le8_inj _ _ I1 I2 E1).
  - rewrite <- (i64_id _ S1), <- (i64_id _ S2), <- (i64_u64 (sw_status s1)), <- (i64_u64 (sw_status s2)). f_equal. apply le8_inj; [apply u64_range..|done].
  - rewrite !(take_ge (drop 2 _)) in E4 by (rewrite length_drop; lia). rewrite <- (take_drop 2 (amount_out s1)), <- (take_drop 2 (amount_out s2)). by rewrite E3, E4.
Qed.

Lemma swap_leaf_inj s1 s2 : compute_swap_leaf s1 = compute_swap_leaf s2 -> leaf_buffer s1 = leaf_buffer s2 \/ collision.
Proof. unfold compute_swap_leaf. apply sha_inj. Qed.

Lemma leaves_inj l1 : forall l2, length l1 = length l2 -> Forall swap_ok l1 -> Forall swap_ok l2 ->
  map compute_swap_leaf l1 = map compute_swap_leaf l2 -> map bound l1 = map bound l2 \/ collision.
Proof.
  induction l1 as [|s1 l1 IH]; intros [|s2 l2] Hl H1 H2 Em; try discriminate Hl; [by left|].
  apply Forall_cons_1 in H1 as [Hs1 H1]. apply Forall_cons_1 in H2 as [Hs2 H2]. injection Hl as Hl.
  rewrite !map_cons in Em. apply cons_parts in Em as [Em Et].
  destruct (swap_leaf_inj _ _ Em) as [Eb|?]; [|by right]. destruct (IH l2 Hl H1 H2 Et) as [Er|?]; [left|by right].
  by rewrite !map_cons, (leaf_buffer_inj _ _ Hs1 Hs2 Eb), Er.
Qed.

Lemma leaf_digests l : digests (map compute_swap_leaf l).
Proof. apply Forall_map, Forall_forall. intros s _. apply sha_length. Qed.

Lemma batch_root_inj l1 l2 : length l1 = length l2 -> Forall swap_ok l1 -> Forall swap_ok l2 -> batch_root l1 = batch_root l2 ->
  map bound l1 = map bound l2 \/ collision.
Proof.
  intros Hl H1 H2. unfold batch_root. rewrite <- Hl. destruct (Nat.eqb_spec (length l1) 0) as [E0|E0].
  { intros _. destruct l1; [|discriminate E0]. destruct l2; [by left|discriminate Hl]. }
  intros E. destruct (tree_root_inj (length l1) _ _ (leaf_digests l1) (leaf_digests l2)) as [Em|?];
    [by rewrite !length_map|rewrite length_map; lia|exact E| |by right].
  by apply leaves_inj.
Qed.

Lemma compute_root_inv `{Env} swaps m r m' : compute_batch_merkle_root swaps m = Val r m' -> r = batch_root swaps.
Proof.
  unfold compute_batch_merkle_root, batch_root. destruct (Nat.eqb_spec (length swaps) 0); [intros E; by injection E|].
  unfold mbind, Mem_bind. destruct (try_malloc m) as [[|] m1| |]; try done. unfold mret, Mem_ret. intros E. injection E as E _. rewrite <- E.
  rewrite tree_loop_ok by (rewrite ?length_map; lia). by rewrite take_ge by (by rewrite length_map).
Qed.

(** C24. The arithmetic of a settlement is exact: with an amount or a reserve of
    zero it answers -1; when the denominator does not fit 256 bits, -2; in every
    other case 1, with the integer quotient of the constant-product formula, which
    always fits - the test for a quotient past 256 bits never succeeds. *)
Theorem settle_exact ai ri ro (Ha : words_ok ai) (Hr : words_ok ri) (Ho : words_ok ro)
    (La : length ai = 4%nat) (Lr : length ri = 4%nat) (Lo : length ro = 4%nat) :
  let a := pval two64 ai in let r := pval two64 ri in let o := pval two64 ro in
  if (a =? 0) || (r =? 0) || (o =? 0) then settle_u512_reference ai ri ro = (-1, None)
  else if 2 ^ 256 <=? 1000 * r + 997 * a then settle_u512_reference ai ri ro = (-2, None)
  else exists out, settle_u512_reference ai ri ro = (1, Some out) /\ words_ok out /\ length out = 4%nat /\ pval two64 out = swap_output a r o.
Proof. by apply settle_ok. Qed.


(** ** What a root does not bind *)

(** The reserves, and the input past 128 bits. *)
Lemma leaf_ignores_reserves s ri ro hi : length (amount_in s) = 4%nat ->
  compute_swap_leaf (mkSwap (tx_id s) (take 2 (amount_in s) ++ hi) ri ro (amount_out s) (sw_status s)) = compute_swap_leaf s.
Proof.
  intros Hl. unfold compute_swap_leaf, leaf_buffer. cbn [tx_id amount_in amount_out sw_status].
  assert (take 2 (take 2 (amount_in s) ++ hi) = take 2 (amount_in s)) as ->; [|done]. apply take_app_length'. rewrite length_take, Hl. done.
Qed.

(** The size of the batch: the last of an odd number counts twice. *)
Lemma root_odd_duplicate a b c : batch_root [a; b; c] = batch_root [a; b; c; c].
Proof. unfold batch_root. cbn [length Nat.eqb map tree_root Nat.ltb Nat.leb pairs head default from_option id]. exact eq_refl. Qed.

Definition word_at (l : list Z) (i : nat) : Z := le_val (take 8 (drop (8 * i) l)).

Lemma word_at_bytes l i : bytes_wf l -> (8 * i + 8 <= length l)%nat -> le_bytes 8 (word_at l i) = take 8 (drop (8 * i) l).
Proof.
  intros Hl Hi. apply le_bytes_val; [by apply bytes_wf_take, bytes_wf_drop|]. rewrite length_take, length_drop. lia.
Qed.

Lemma eight_pieces (l : list Z) : length l = 64%nat ->
  take 8 (drop (8 * 0) l) ++ take 8 (drop (8 * 1) l) ++ (take 8 (drop (8 * 2) l) ++ take 8 (drop (8 * 3) l)) ++
  (take 8 (drop (8 * 4) l) ++ take 8 (drop (8 * 5) l)) ++ take 8 (drop (8 * 6) l) ++ take 8 (drop (8 * 7) l) = l.
Proof. intros Hl. do 64 (destruct l as [|? l]; [discriminate Hl|]). destruct l; [reflexivity|discriminate Hl]. Qed.

(** A leaf can be a node: leaves and nodes are hashed alike. *)
Lemma root_leaf_is_node a b : exists s, batch_root [s] = batch_root [a; b].
Proof.
  set (l := compute_swap_leaf a ++ compute_swap_leaf b).
  assert (bytes_wf l /\ length l = 64%nat) as [Hw Hl].
  { unfold l, compute_swap_leaf. rewrite length_app, !sha_length. split; [|done]. apply bytes_wf_app. split; apply lin_sha256_facts. }
  exists (mkSwap (word_at l 0) [word_at l 6; word_at l 7; 0; 0] [] [] [word_at l 2; word_at l 3; word_at l 4; word_at l 5] (word_at l 1)).
  unfold batch_root. cbn [length Nat.eqb map tree_root Nat.ltb Nat.leb pairs head default from_option id].
  unfold compute_merkle_parent_512, compute_swap_leaf at 1. f_equal. unfold leaf_buffer, word_bytes.
  cbn [tx_id sw_status amount_out amount_in take drop map concat]. rewrite !app_nil_r.
  assert (u64 (word_at l 1) = word_at l 1) as ->.
  { apply u64_id, le_val_u64; [by apply bytes_wf_take, bytes_wf_drop|]. rewrite length_take. lia. }
  rewrite !word_at_bytes by (done || lia). by apply eight_pieces.
Qed.

(** ** The run of the host *)

Lemma sample_settles i : Z.of_nat i < 2 ^ 60 -> sw_status (settle_swap (sample_swap i)) = 1.
Proof.
  intros Hi. unfold settle_swap, sample_swap. cbn [amount_in reserve_in reserve_out tx_id amount_out].
  set (x := u64 (10000000000000000000 + Z.of_nat i)).
  assert (x = 10000000000000000000 + Z.of_nat i) as Ex by (apply u64_id; unfold in_u64, two64; lia).
  set (ri := [1864712049423024128; 542; 0; 0]). set (ro := [4772693935078244352; 1626303; 0; 0]).
  assert (pval two64 [x; 0; 0; 0] = x) as Ea by (cbn [pval]; lia).
  assert (pval two64 ri = 10000000000000000000000) as Er by reflexivity.
  assert (pval two64 ro = 30000000000000000000000000) as Eo by reflexivity.
  assert (words_ok [x; 0; 0; 0] /\ words_ok ri /\ words_ok ro) as (W1 & W2 & W3).
  { unfold words_ok, ri, ro, in_u64, two64. split_and!; repeat (apply Forall_cons_2; [lia|]); constructor. }
  pose proof (settle_ok [x; 0; 0; 0] ri ro W1 W2 W3 eq_refl eq_refl eq_refl) as Hs. cbv zeta in Hs. rewrite Ea, Er, Eo in Hs.
  destruct (Z.eqb_spec x 0); [lia|]. cbn [orb Z.eqb] in Hs.
  destruct (Z.leb_spec (2 ^ 256) (1000 * 10000000000000000000000 + 997 * x)); [lia|]. destruct Hs as (out & -> & _). done.
Qed.

Lemma all_approved l : Forall (fun s => sw_status s = 1) l -> approved_count l = length l.
Proof. unfold approved_count. induction 1 as [|s l Hs _ IH]; [done|]. cbn [List.filter]. rewrite Hs. change (1 =? 1) with true. cbn [length]. f_equal. exact IH. Qed.

Definition settled_batch (n : Z) : list UniswapV2SwapU512 := map (fun i => settle_swap (sample_swap i)) (seq 0 (Z.to_nat n)).

(** Every swap of a batch that can be allocated is approved, and its root is
    printed. *)
Lemma settler_main_outcome `{Env} tm argv m : mallocs_succeed -> 0 <= batch_size_of argv -> batch_size_of argv * 144 < two64 ->
  exists out m', settler_main tm argv m =
    Val (mkRan (settler_banner (batch_size_of argv) ++
      settler_report tm (batch_size_of argv) (Z.to_nat (batch_size_of argv)) (batch_root (settled_batch (batch_size_of argv))) out) [] 0 None) m'.
Proof.
  intros Ha Hn Hlt. unfold settler_main. cbv zeta. rewrite (proj2 (Z.leb_gt _ _) Hlt). destruct (try_malloc_ok m Ha) as [m1 Hm1]. after Hm1.
  cbn [negb]. fold (settled_batch (batch_size_of argv)).
  destruct (compute_batch_merkle_root_ok (settled_batch (batch_size_of argv)) m1 Ha) as [m2 Hm2]. after Hm2.
  rewrite all_approved; [|apply Forall_map, Forall_forall; intros i Hi%in_seq; apply sample_settles; unfold two64 in Hlt; lia].
  assert (length (settled_batch (batch_size_of argv)) = Z.to_nat (batch_size_of argv)) as -> by (unfold settled_batch; by rewrite length_map, length_seq).
  by eexists _, m2.
Qed.

(** ** Runs *)

Lemma settle_exact_witness : exists out,
  settle_u512_reference [10000000000000000000; 0; 0; 0] [1864712049423024128; 542; 0; 0] [4772693935078244352; 1626303; 0; 0] = (1, Some out) /\
  words_ok out /\ length out = 4%nat /\
  pval two64 out = swap_output 10000000000000000000 10000000000000000000000 30000000000000000000000000.
Proof.
  refine (settle_exact [10000000000000000000; 0; 0; 0] [1864712049423024128; 542; 0; 0] [4772693935078244352; 1626303; 0; 0] _ _ _ eq_refl eq_refl eq_refl);
    unfold words_ok, in_u64, two64; repeat (apply Forall_cons_2; [lia|]); apply Forall_nil_2.
Defined.

(** The status -2 is a denominator past 256 bits. *)
Lemma settle_overflow : settle_u512_reference [0; 0; 0; 9223372036854775808] [1; 0; 0; 0] [1; 0; 0; 0] = (-2, None).
Proof. vm_compute. reflexivity. Qed.

(** One swap, and the same with other reserves. *)
Definition one_swap : UniswapV2SwapU512 := mkSwap 1 [10; 0; 0; 0] [500; 0; 0; 0] [1000; 0; 0; 0] [19; 0; 0; 0] 1.
Definition other_swap : UniswapV2SwapU512 := mkSwap 1 [10; 0; 0; 0] [5; 0; 0; 0] [7; 0; 0; 0] [19; 0; 0; 0] 1.

Lemma one_swap_settled : settle_swap (mkSwap 1 [10; 0; 0; 0] [500; 0; 0; 0] [1000; 0; 0; 0] [0; 0; 0; 0] 0) = one_swap.
Proof. vm_compute. reflexivity. Qed.

Lemma one_root : exists r m1 m2, @compute_batch_merkle_root calm [one_swap] mem0 = Val r m1 /\ @compute_batch_merkle_root calm [other_swap] mem0 = Val r m2.
Proof. do 3 eexists. split; vm_compute; reflexivity. Qed.

Lemma one_ok : Forall swap_ok [one_swap] /\ Forall swap_ok [other_swap].
Proof.
  split; (apply Forall_cons_2; [|apply Forall_nil_2]); constructor; unfold words_ok, in_u64, in_i64, two64, two63; cbn; try (split; [|reflexivity]);
    repeat (apply Forall_cons_2; [lia|]); first [apply Forall_nil_2|lia].
Qed.

