(* ===== verification/Batch.v ===== *)
(** * verify_batch_c.c: the auditor of a settlement batch

    examples/defi_settlement_proof/audit_v2: from the file of a batch it recomputes
    leaves, proofs, the root of every block of four and the chained root, and runs
    every settlement again on the machine. *)
From stdpp Require Import strings.
From S2P Require Import Prelude Common Str Decimal Region Abi Vm Sha256 Linbc1 Sys C0Lex C0Comp C0Build Cli Jit.

Definition MAX_BLOCKS : Z := 256.
Definition REC_DOMAIN : list Z := cstr "lin:settle:v2:leaf".
Definition NODE_DOMAIN : list Z := cstr "lin:settle:v2:node".
Definition CHAIN_DOMAIN : list Z := cstr "lin:settle:v2:chain".

(** ** The reader: what is left, and whether a read failed *)

Record Rd : Type := mkRd { rd_rest : list Z; rd_bad : bool }.

(** [n] bytes, or [None] and a bad reader that stays where it was. *)
Definition rd_take (n : nat) (r : Rd) : option (list Z) * Rd :=
  if (length (rd_rest r) <? n)%nat then (None, mkRd (rd_rest r) true)
  else (Some (take n (rd_rest r)), mkRd (drop n (rd_rest r)) (rd_bad r)).

Definition rd_u32 (r : Rd) : Z * Rd :=
  let '(b, r) := rd_take 4 r in (match b with Some b => or_bytes 0 0 b | None => 0 end, r).
Definition rd_u64 (r : Rd) : Z * Rd :=
  let '(b, r) := rd_take 8 r in (match b with Some b => or_bytes 0 0 b | None => 0 end, r).

(** Into a buffer that holds [o]. *)
Definition rd_bytes (n : nat) (o : list Z) (r : Rd) : list Z * Rd :=
  let '(b, r) := rd_take n r in (default o b, r).

(** ** Records *)

Record Rec : Type := mkRec {
  rc_tx : Z; rc_ain : Z; rc_rin : Z; rc_rout : Z; rc_mino : Z; rc_out : Z; rc_steps : Z;
  rc_pb : Z; rc_leaf : list Z; rc_s0 : list Z; rc_s1 : list Z
}.

Definition zero32 : list Z := replicate 32 0.

Definition rd_rec (r : Rd) : Rec * Rd :=
  let '(tx, r) := rd_u64 r in
  let '(ain, r) := rd_u64 r in
  let '(rin, r) := rd_u64 r in
  let '(rout, r) := rd_u64 r in
  let '(mino, r) := rd_u64 r in
  let '(out, r) := rd_u64 r in
  let '(steps, r) := rd_u64 r in
  let '(pb, r) := rd_bytes 1 [0] r in
  let '(leaf, r) := rd_bytes 32 zero32 r in
  let '(s0, r) := rd_bytes 32 zero32 r in
  let '(s1, r) := rd_bytes 32 zero32 r in
  (mkRec (i64 tx) (i64 ain) (i64 rin) (i64 rout) (i64 mino) (i64 out) (i64 steps) (default 0 (head pb)) leaf s0 s1, r).

(** ** Hashes *)

Definition put_u64 (v : Z) : list Z := map (fun i => u8 (Z.shiftr v (8 * Z.of_nat i))) (seq 0 8).
Definition put_i64 (v : Z) : list Z := put_u64 (u64 v).

Definition leaf_msg (blk idx : Z) (r : Rec) (img_file : list Z) : list Z :=
  REC_DOMAIN ++ put_u64 blk ++ put_u64 idx ++
  concat (map put_i64 [rc_tx r; rc_ain r; rc_rin r; rc_rout r; rc_mino r; rc_out r; rc_steps r]) ++ img_file.
Definition leaf_v2 (blk idx : Z) (r : Rec) (img_file : list Z) : list Z := lin_sha256 (leaf_msg blk idx r img_file).

Definition node_v2 (l r : list Z) : list Z := lin_sha256 (NODE_DOMAIN ++ l ++ r).

Definition chain_msg (nb : Z) (roots : list (list Z)) (img_file : list Z) : list Z :=
  CHAIN_DOMAIN ++ [u8 nb; u8 (Z.shiftr nb 8); u8 (Z.shiftr nb 16); u8 (Z.shiftr nb 24)] ++ concat roots ++ img_file.
Definition chain_v2 (nb : Z) (roots : list (list Z)) (img_file : list Z) : list Z := lin_sha256 (chain_msg nb roots img_file).

Definition pb_ok (pb : Z) : bool := (0 <=? pb) && (pb <=? 3).

(** The proof of one leaf: a bit of [pb] says on which side the path is. *)
Definition verify_proof (leaf s0 s1 : list Z) (pb : Z) (root : list Z) : bool :=
  if negb (pb_ok pb) then false
  else
    let cur := if Z.land pb 1 =? 0 then node_v2 leaf s0 else node_v2 s0 leaf in
    let cur := if Z.land (Z.shiftr pb 1) 1 =? 0 then node_v2 cur s1 else node_v2 s1 cur in
    bytes_eqb cur root.

Definition rec_proof (root : list Z) (rc : Rec) : bool := verify_proof (rc_leaf rc) (rc_s0 rc) (rc_s1 rc) (rc_pb rc) root.

Definition count_true (l : list bool) : nat := length (List.filter (fun b => b) l).

(** ** The blocks *)

(** The four records of block [b] from the [i]th on; the leaves that hash to
    themselves. *)
Fixpoint rd_recs (n : nat) (b i : Z) (img : list Z) (r : Rd) : option (list Rec * nat * Rd) :=
  match n with
  | O => Some ([], O, r)
  | S n =>
      let '(rc, r) := rd_rec r in
      if rd_bad r then None
      else
        let ok := bytes_eqb (leaf_v2 b i rc img) (rc_leaf rc) in
        '(rcs, k, r) ← rd_recs n b (i + 1) img r;
        Some (rc :: rcs, if ok then S k else k, r)
  end.

Definition rec_leaf (rcs : list Rec) (i : nat) : list Z := match rcs !! i with Some rc => rc_leaf rc | None => [] end.

Definition block_root (rcs : list Rec) : list Z :=
  node_v2 (node_v2 (rec_leaf rcs 0) (rec_leaf rcs 1)) (node_v2 (rec_leaf rcs 2) (rec_leaf rcs 3)).

Record Block : Type := mkBlock { bk_recs : list Rec; bk_root : list Z }.

(** What the loop has counted: leaves, proofs, roots. *)
Record Tally : Type := mkTally { leaves_ok : nat; proofs_ok : nat; roots_ok : nat }.

(** The error, or the blocks and the counts. *)
Fixpoint rd_blocks (n : nat) (b : Z) (img : list Z) (r : Rd) : res string (list Block * Tally * Rd) :=
  match n with
  | O => Ok ([], mkTally 0 0 0, r)
  | S n =>
      match rd_recs 4 b 0 img r with
      | None => Err "batch_truncated"%string
      | Some (rcs, leaves, r) =>
          let '(root, r) := rd_bytes 32 zero32 r in
          if rd_bad r then Err "batch_truncated_root"%string
          else
            let proofs := count_true (map (rec_proof root) rcs) in
            let roots := if bytes_eqb (block_root rcs) root then 1%nat else 0%nat in
            match rd_blocks n (b + 1) img r with
            | Err e => Err e
            | Ok (bks, t, r) =>
                Ok (mkBlock rcs root :: bks, mkTally (leaves + leaves_ok t) (proofs + proofs_ok t) (roots + roots_ok t), r)
            end
      end
  end.

Definition batch_header : list Z := cstr "LINV2B1" ++ [1].

(** The whole file: blocks, counts, the committed root and whether it is right. *)
Record Audited : Type := mkAudited {
  au_n : Z; au_img : list Z; au_blocks : list Block; au_tally : Tally; au_root : list Z; au_batch_ok : bool
}.

Definition rd_batch (batch : list Z) : res string Audited :=
  if (length batch <? 12)%nat || negb (bytes_eqb (take 8 batch) batch_header) then Err "batch_magic"%string
  else
    let '(n_blocks, r) := rd_u32 (mkRd (drop 8 batch) false) in
    let '(img, r) := rd_bytes 32 zero32 r in
    if rd_bad r || (n_blocks =? 0) || (MAX_BLOCKS <? n_blocks) then Err "batch_header"%string
    else
      match rd_blocks (Z.to_nat n_blocks) 0 img r with
      | Err e => Err e
      | Ok (bks, t, r) =>
          let '(root, r) := rd_bytes 32 zero32 r in
          let ok := bytes_eqb (chain_v2 n_blocks (map bk_root bks) img) root && negb (rd_bad r) && (length (rd_rest r) =? 0)%nat in
          Ok (mkAudited n_blocks img bks t root ok)
      end.

(** ** Running again *)

Section Auditor.
Context `{Env} (fuel : nat).

Definition rec_args (rc : Rec) : list Z := [rc_ain rc; rc_rin rc; rc_rout rc; rc_mino rc].

Definition reexecute (md : VmModule) (fn : Z) (rc : Rec) : Mem bool :=
  '(r, steps) ← Cli.exec fuel md fn (rec_args rc);
  match r with
  | Err _ => mret false
  | Ok r => mret ((val r =? rc_out rc) && (i64 steps =? rc_steps rc))
  end.

(** How many records run to what they claim. *)
Fixpoint reexecute_all (md : VmModule) (fn : Z) (rcs : list Rec) : Mem nat :=
  match rcs with
  | [] => mret O
  | rc :: rcs => ok ← reexecute md fn rc; k ← reexecute_all md fn rcs; mret (if ok : bool then S k else k)
  end.

(** The benchmark of the executions: the same runs, their results dropped. *)
Fixpoint bench_exec (reps : nat) (md : VmModule) (fn : Z) (rcs : list Rec) : Mem unit :=
  match reps with
  | O => mret tt
  | S reps => reexecute_all md fn rcs;; bench_exec reps md fn rcs
  end.

(** ** main *)

(** The five numbers the clock gives, as printed. *)
Record Bench : Type := mkBench { verify_ns_min : list Z; verify_ns_p50 : list Z; exec_ns_min : list Z; exec_ns_p50 : list Z; bench_ratio : list Z }.

Definition of_n (what : string) (k n : Z) : list Z := cstr what ++ fmt_i64 k ++ cstr "/" ++ fmt_u64 n.

Definition audit_report (bn : Bench) (au : Audited) (exec_ok : nat) : list Z :=
  let n := au_n au in
  let t := au_tally au in
  of_n "CVER roots_ok=" (Z.of_nat (roots_ok t)) n ++ of_n " proofs_ok=" (Z.of_nat (proofs_ok t)) (n * 4) ++
  of_n " leaves_ok=" (Z.of_nat (leaves_ok t)) (n * 4) ++ ln (of_n " exec_ok=" (Z.of_nat exec_ok) (n * 4)) ++
  cstr "CVER batch_ok=" ++ fmt_i64 (if au_batch_ok au then 1 else 0) ++ cstr " batch_root=" ++ ln (lin_sha256_hex (au_root au)) ++
  cstr "CVER verify_ns_min=" ++ verify_ns_min bn ++ cstr " verify_ns_p50=" ++ verify_ns_p50 bn ++ cstr " exec_ns_min=" ++ exec_ns_min bn ++
  cstr " exec_ns_p50=" ++ ln (exec_ns_p50 bn) ++ cstr "CVER ratio_reexec_vs_audit=" ++ ln (bench_ratio bn).

Definition all_ok (au : Audited) (exec_ok : nat) : bool :=
  let n := au_n au in
  let t := au_tally au in
  au_batch_ok au && (Z.of_nat (proofs_ok t) =? n * 4) && (Z.of_nat (leaves_ok t) =? n * 4) && (Z.of_nat exec_ok =? n * 4) &&
  (Z.of_nat (roots_ok t) =? n).

Definition cver_error (e : string) (rc : Z) : Mem ran := mret (mkRan [] (ln (cstr "CVER error=" ++ cstr e)) rc None).

Definition audit_image (bn : Bench) (au : Audited) (vm : LinBc1Vm) : Mem ran :=
  let fn := lin_bc1_find_fn vm (cstr "settle_swap") in
  if fn <? 0 then cver_error "fn_missing" 1
  else
    let rcs := concat (map bk_recs (au_blocks au)) in
    exec_ok ← reexecute_all (b_mod vm) fn rcs;
    if negb (Z.of_nat (count_true (concat (map (fun bk => map (rec_proof (bk_root bk)) (bk_recs bk)) (au_blocks au)))) =? au_n au * 4)
    then cver_error "bench_verify_divergence" 1
    else
      bench_exec 31 (b_mod vm) fn rcs;;
      answer (audit_report bn au exec_ok) (if all_ok au exec_ok then 0 else 1).

Definition audit_main (bn : Bench) (fs : list Z -> option (list Z)) (argv : list (list Z)) : Mem ran :=
  if negb (length argv =? 3)%nat then mret (mkRan [] (ln (cstr "uso: verify_batch_c <batch.bin> <imagem.linbc>")) 2 None)
  else
    match fs (arg argv 1) with
    | None => mret (mkRan [] (ln (cstr "batch.bin ausente")) 2 None)
    | Some file =>
        match rd_batch (take (Z.to_nat 1048576) file) with
        | Err e => cver_error e 1
        | Ok au =>
            match fs (arg argv 2) with
            | None => cver_error "image_missing" 2
            | Some file =>
                match lin_bc1_load (C := LinSha256) (take (Z.to_nat 65536) file) with
                | Err _ => cver_error "image_load" 1
                | Ok vm => audit_image bn au vm
                end
            end
        end
    end.
End Auditor.
