(* ===== verification/BatchSpec.v ===== *)
(** * The auditor accepts exactly the valid batches

    [batch_bytes] is the format as a function of the batch, [batch_valid] what its
    hashes must satisfy, [runs_as] what its records claim of the machine.  The
    auditor ends with status 0 exactly for the files of valid batches that run as
    they claim, and the committed root binds every record. *)
From stdpp Require Import strings.
From S2P Require Import Prelude Common Str Decimal Region Abi Vm VmSpec VmSafe Sha256 Linbc1 Encode Sys C0Lex C0Comp C0Build Cli CliSpec CliReceiptRead Settle SettleSpec Batch.

(** ** The format *)

Definition fields (rc : Rec) : list Z := [rc_tx rc; rc_ain rc; rc_rin rc; rc_rout rc; rc_mino rc; rc_out rc; rc_steps rc].

Definition rec_bytes (rc : Rec) : list Z :=
  concat (map put_i64 (fields rc)) ++ [rc_pb rc] ++ rc_leaf rc ++ rc_s0 rc ++ rc_s1 rc.

Definition block_bytes (bk : Block) : list Z := concat (map rec_bytes (bk_recs bk)) ++ bk_root bk.

Definition batch_bytes (n : Z) (img : list Z) (bks : list Block) (root : list Z) : list Z :=
  batch_header ++ le_bytes 4 n ++ img ++ concat (map block_bytes bks) ++ root.

Definition hash_wf (d : list Z) : Prop := bytes_wf d /\ length d = 32%nat.

Record rec_wf (rc : Rec) : Prop := {
  rw_fields : Forall in_i64 (fields rc);
  rw_pb : in_u8 (rc_pb rc);
  rw_leaf : hash_wf (rc_leaf rc);
  rw_s0 : hash_wf (rc_s0 rc);
  rw_s1 : hash_wf (rc_s1 rc)
}.

Record block_wf (bk : Block) : Prop := {
  bw_recs : Forall rec_wf (bk_recs bk);
  bw_four : length (bk_recs bk) = 4%nat;
  bw_root : hash_wf (bk_root bk)
}.

(** ** What the hashes must satisfy *)

Fixpoint leaves_valid (b i : Z) (img : list Z) (rcs : list Rec) : Prop :=
  match rcs with
  | [] => True
  | rc :: rcs => leaf_v2 b i rc img = rc_leaf rc /\ leaves_valid b (i + 1) img rcs
  end.

Definition block_valid (b : Z) (img : list Z) (bk : Block) : Prop :=
  leaves_valid b 0 img (bk_recs bk) /\ Forall (fun rc => rec_proof (bk_root bk) rc = true) (bk_recs bk) /\ block_root (bk_recs bk) = bk_root bk.

Fixpoint blocks_valid (b : Z) (img : list Z) (bks : list Block) : Prop :=
  match bks with
  | [] => True
  | bk :: bks => block_valid b img bk /\ blocks_valid (b + 1) img bks
  end.

Record batch_valid (n : Z) (img : list Z) (bks : list Block) (root : list Z) : Prop := {
  bv_n : 0 < n <= MAX_BLOCKS;
  bv_img : hash_wf img;
  bv_blocks : Forall block_wf bks;
  bv_length : Z.of_nat (length bks) = n;
  bv_valid : blocks_valid 0 img bks;
  bv_root : root = chain_v2 n (map bk_root bks) img
}.

(** ** Reading *)

Lemma rd_take_ok n r b r' : rd_take n r = (b, r') -> rd_bad r' = false ->
  rd_bad r = false /\ exists d, b = Some d /\ rd_rest r = d ++ rd_rest r' /\ length d = n.
Proof.
  unfold rd_take. destruct (Nat.ltb_spec (length (rd_rest r)) n) as [Hlt|Hge]; intros E; injection E as <- <-; cbn [rd_bad rd_rest]; [done|].
  intros Hb. split; [done|]. exists (take n (rd_rest r)). rewrite take_drop, length_take. split_and!; [done|done|lia].
Qed.

Lemma rd_take_app n d l bad : length d = n -> rd_take n (mkRd (d ++ l) bad) = (Some d, mkRd l bad).
Proof.
  intros <-. unfold rd_take. cbn [rd_rest rd_bad]. rewrite length_app. destruct (Nat.ltb_spec (length d + length l) (length d)); [lia|].
  by rewrite take_app_length, drop_app_length.
Qed.

Lemma put_u64_le v : put_u64 v = le_bytes 8 v.
Proof.
  unfold put_u64. cbn [seq map]. rewrite !Z.shiftr_div_pow2 by lia. unfold u8, two8. cbn [le_bytes].
  rewrite !Z.div_div by lia. rewrite Z.div_1_r. reflexivity.
Qed.

Lemma put_i64_length x : length (put_i64 x) = 8%nat.
Proof. unfold put_i64. by rewrite put_u64_le, length_le_bytes. Qed.

Lemma put_i64_read x : in_i64 x -> i64 (or_bytes 0 0 (put_i64 x)) = x.
Proof.
  intros Hx. unfold put_i64. rewrite put_u64_le, i64_le by (apply le_bytes_wf || apply length_le_bytes). by apply le64_val.
Qed.

Lemma put_i64_of d : bytes_wf d -> length d = 8%nat -> put_i64 (i64 (or_bytes 0 0 d)) = d.
Proof.
  intros Hd Hl. unfold put_i64. rewrite put_u64_le, i64_le, u64_i64, u64_id by (done || (apply le_val_u64; [done|lia])). by apply le_bytes_val.
Qed.

Lemma rd_u64_ok r v r' : rd_u64 r = (v, r') -> rd_bad r' = false -> bytes_wf (rd_rest r) ->
  rd_bad r = false /\ rd_rest r = put_i64 (i64 v) ++ rd_rest r' /\ bytes_wf (rd_rest r').
Proof.
  unfold rd_u64. destruct (rd_take 8 r) as [b r0] eqn:E. intros E'. injection E' as <- <-. intros Hb Hw.
  destruct (rd_take_ok _ _ _ _ E Hb) as (H0 & d & -> & Hd & Hl). rewrite Hd in Hw. apply bytes_wf_app in Hw as [Hw1 Hw2].
  by rewrite put_i64_of.
Qed.

Lemma rd_bytes_ok n o r d r' : rd_bytes n o r = (d, r') -> rd_bad r' = false -> bytes_wf (rd_rest r) ->
  rd_bad r = false /\ rd_rest r = d ++ rd_rest r' /\ length d = n /\ bytes_wf d /\ bytes_wf (rd_rest r').
Proof.
  unfold rd_bytes. destruct (rd_take n r) as [b r0] eqn:E. intros E'. injection E' as <- <-. intros Hb Hw.
  destruct (rd_take_ok _ _ _ _ E Hb) as (H0 & d & -> & Hd & Hl). rewrite Hd in Hw. by apply bytes_wf_app in Hw as [Hw1 Hw2].
Qed.

Lemma rd_u64_app x l bad : rd_u64 (mkRd (put_i64 x ++ l) bad) = (or_bytes 0 0 (put_i64 x), mkRd l bad).
Proof. unfold rd_u64. by rewrite rd_take_app by apply put_i64_length. Qed.

Lemma rd_bytes_app n d o l bad : length d = n -> rd_bytes n o (mkRd (d ++ l) bad) = (d, mkRd l bad).
Proof. intros Hl. unfold rd_bytes. by rewrite rd_take_app. Qed.

Lemma rd_rec_app rc l bad : rec_wf rc -> rd_rec (mkRd (rec_bytes rc ++ l) bad) = (rc, mkRd l bad).
Proof.
  destruct rc as [tx ain rin rout mino out steps pb leaf s0 s1]. intros [Hf Hp [_ Hl] [_ H0] [_ H1]]. cbn [fields rc_tx rc_ain rc_rin rc_rout rc_mino rc_out rc_steps rc_pb rc_leaf rc_s0 rc_s1] in *.
  repeat (apply Forall_cons_1 in Hf as [? Hf]). unfold rec_bytes, fields. cbn [map concat rc_tx rc_ain rc_rin rc_rout rc_mino rc_out rc_steps rc_pb rc_leaf rc_s0 rc_s1].
  rewrite app_nil_r, <- !app_assoc. unfold rd_rec. rewrite !rd_u64_app, !put_i64_read by done.
  rewrite !rd_bytes_app by done. reflexivity.
Qed.

Lemma rd_u64_bad r v r' : rd_u64 r = (v, r') -> rd_bad r' = false -> rd_bad r = false.
Proof.
  unfold rd_u64. destruct (rd_take 8 r) as [b r0] eqn:E. intros E' Hb. injection E' as <- <-. by destruct (rd_take_ok _ _ _ _ E Hb).
Qed.

Lemma rd_bytes_bad n o r d r' : rd_bytes n o r = (d, r') -> rd_bad r' = false -> rd_bad r = false.
Proof.
  unfold rd_bytes. destruct (rd_take n r) as [b r0] eqn:E. intros E' Hb. injection E' as <- <-. by destruct (rd_take_ok _ _ _ _ E Hb).
Qed.

Lemma rd_rec_ok r rc r' : rd_rec r = (rc, r') -> rd_bad r' = false -> bytes_wf (rd_rest r) ->
  rd_bad r = false /\ rd_rest r = rec_bytes rc ++ rd_rest r' /\ rec_wf rc /\ bytes_wf (rd_rest r').
Proof.
  unfold rd_rec.
  destruct (rd_u64 r) as [tx r1] eqn:E1. destruct (rd_u64 r1) as [ain r2] eqn:E2. destruct (rd_u64 r2) as [rin r3] eqn:E3.
  destruct (rd_u64 r3) as [rout r4] eqn:E4. destruct (rd_u64 r4) as [mino r5] eqn:E5. destruct (rd_u64 r5) as [out r6] eqn:E6.
  destruct (rd_u64 r6) as [steps r7] eqn:E7. destruct (rd_bytes 1 _ r7) as [pb r8] eqn:E8. destruct (rd_bytes 32 _ r8) as [leaf r9] eqn:E9.
  destruct (rd_bytes 32 _ r9) as [s0 r10] eqn:E10. destruct (rd_bytes 32 _ r10) as [s1 r11] eqn:E11.
  intros E Hb Hw. injection E as <- <-.
  pose proof (rd_bytes_bad _ _ _ _ _ E11 Hb) as B10. pose proof (rd_bytes_bad _ _ _ _ _ E10 B10) as B9. pose proof (rd_bytes_bad _ _ _ _ _ E9 B9) as B8.
  pose proof (rd_bytes_bad _ _ _ _ _ E8 B8) as B7. pose proof (rd_u64_bad _ _ _ E7 B7) as B6. pose proof (rd_u64_bad _ _ _ E6 B6) as B5.
  pose proof (rd_u64_bad _ _ _ E5 B5) as B4. pose proof (rd_u64_bad _ _ _ E4 B4) as B3. pose proof (rd_u64_bad _ _ _ E3 B3) as B2. pose proof (rd_u64_bad _ _ _ E2 B2) as B1.
  destruct (rd_u64_ok _ _ _ E1 B1 Hw) as (B0 & L1 & W1). destruct (rd_u64_ok _ _ _ E2 B2 W1) as (_ & L2 & W2). destruct (rd_u64_ok _ _ _ E3 B3 W2) as (_ & L3 & W3).
  destruct (rd_u64_ok _ _ _ E4 B4 W3) as (_ & L4 & W4). destruct (rd_u64_ok _ _ _ E5 B5 W4) as (_ & L5 & W5). destruct (rd_u64_ok _ _ _ E6 B6 W5) as (_ & L6 & W6).
  destruct (rd_u64_ok _ _ _ E7 B7 W6) as (_ & L7 & W7). destruct (rd_bytes_ok _ _ _ _ _ E8 B8 W7) as (_ & L8 & N8 & V8 & W8).
  destruct (rd_bytes_ok _ _ _ _ _ E9 B9 W8) as (_ & L9 & N9 & V9 & W9). destruct (rd_bytes_ok _ _ _ _ _ E10 B10 W9) as (_ & L10 & N10 & V10 & W10).
  destruct (rd_bytes_ok _ _ _ _ _ E11 Hb W10) as (_ & L11 & N11 & V11 & W11).
  destruct pb as [|pb [|]]; try discriminate N8. apply Forall_cons_1 in V8 as [V8 _]. cbn [head default from_option id].
  split; [exact B0|]. split; [|split; [|exact W11]].
  - rewrite L1, L2, L3, L4, L5, L6, L7, L8, L9, L10, L11. unfold rec_bytes, fields. cbn [map concat rc_tx rc_ain rc_rin rc_rout rc_mino rc_out rc_steps rc_pb rc_leaf rc_s0 rc_s1].
    by rewrite app_nil_r, <- !app_assoc.
  - constructor; [|exact V8|by split..]. unfold fields. cbn [rc_tx rc_ain rc_rin rc_rout rc_mino rc_out rc_steps].
    repeat (apply Forall_cons_2; [apply i64_range|]). apply Forall_nil_2.
Qed.

(** ** Counts *)

Fixpoint leaf_bits (b i : Z) (img : list Z) (rcs : list Rec) : list bool :=
  match rcs with
  | [] => []
  | rc :: rcs => bytes_eqb (leaf_v2 b i rc img) (rc_leaf rc) :: leaf_bits b (i + 1) img rcs
  end.

Fixpoint tally_of (b : Z) (img : list Z) (bks : list Block) : Tally :=
  match bks with
  | [] => mkTally 0 0 0
  | bk :: bks =>
      let t := tally_of (b + 1) img bks in
      mkTally (count_true (leaf_bits b 0 img (bk_recs bk)) + leaves_ok t)
              (count_true (map (rec_proof (bk_root bk)) (bk_recs bk)) + proofs_ok t)
              ((if bytes_eqb (block_root (bk_recs bk)) (bk_root bk) then 1 else 0) + roots_ok t)
  end.

Lemma count_true_cons (b : bool) l : count_true (b :: l) = if b then S (count_true l) else count_true l.
Proof. by destruct b. Qed.

Lemma count_app l k : count_true (l ++ k) = (count_true l + count_true k)%nat.
Proof. induction l as [|b l IH]; [done|]. cbn [app]. rewrite !count_true_cons, IH. by destruct b. Qed.

Lemma count_le l : (count_true l <= length l)%nat.
Proof. induction l as [|b l IH]; [done|]. rewrite count_true_cons. cbn [length]. destruct b; lia. Qed.

Lemma count_full l : count_true l = length l <-> Forall (fun b => b = true) l.
Proof.
  induction l as [|b l IH]; [split; [constructor|done]|]. rewrite count_true_cons, Forall_cons_iff, <- IH. cbn [length]. pose proof (count_le l). destruct b; intuition lia.
Qed.

Lemma leaf_bits_length b img rcs : forall i, length (leaf_bits b i img rcs) = length rcs.
Proof. induction rcs as [|rc rcs IH]; intros i; [done|]. cbn [leaf_bits length]. by rewrite IH. Qed.

Lemma leaf_bits_valid b img rcs : forall i, Forall (fun b => b = true) (leaf_bits b i img rcs) <-> leaves_valid b i img rcs.
Proof.
  induction rcs as [|rc rcs IH]; intros i; cbn [leaf_bits leaves_valid]; [split; [done|constructor]|]. by rewrite Forall_cons_iff, IH, bytes_eqb_eq.
Qed.

Lemma proof_bits_valid root rcs : Forall (fun b => b = true) (map (rec_proof root) rcs) <-> Forall (fun rc => rec_proof root rc = true) rcs.
Proof. by rewrite Forall_map. Qed.

(** Everything counted is everything. *)
Lemma tally_full img bks : forall b, Forall (fun bk => length (bk_recs bk) = 4%nat) bks ->
  (leaves_ok (tally_of b img bks) <= 4 * length bks /\ proofs_ok (tally_of b img bks) <= 4 * length bks /\ roots_ok (tally_of b img bks) <= length bks)%nat /\
  (leaves_ok (tally_of b img bks) = (4 * length bks)%nat /\ proofs_ok (tally_of b img bks) = (4 * length bks)%nat /\ roots_ok (tally_of b img bks) = length bks <->
   blocks_valid b img bks).
Proof.
  induction bks as [|bk bks IH]; intros b H4; cbn [tally_of leaves_ok proofs_ok roots_ok length blocks_valid]; [by split; [lia|]|].
  apply Forall_cons_1 in H4 as [Hbk H4]. destruct (IH (b + 1) H4) as [(I1 & I2 & I3) Iff]. rewrite <- Iff. unfold block_valid.
  rewrite <- leaf_bits_valid, <- proof_bits_valid, <- !count_full, leaf_bits_length, length_map, Hbk, <- bytes_eqb_eq.
  pose proof (count_le (leaf_bits b 0 img (bk_recs bk))) as C1. pose proof (count_le (map (rec_proof (bk_root bk)) (bk_recs bk))) as C2.
  rewrite leaf_bits_length in C1. rewrite length_map in C2.
  destruct (bytes_eqb (block_root (bk_recs bk)) (bk_root bk)); split; try lia; intuition lia.
Qed.

(** ** Records and blocks *)

Lemma some_triple {A B C} (x x' : A) (y y' : B) (z z' : C) : Some (x, y, z) = Some (x', y', z') -> x = x' /\ y = y' /\ z = z'.
Proof. by intros [= -> -> ->]. Qed.

Lemma ok_inj {E A} (x y : A) : @Ok E _ x = Ok y -> x = y.
Proof. by intros [= ->]. Qed.

Lemma ok_triple {E A B C} (x x' : A) (y y' : B) (z z' : C) : @Ok E _ (x, y, z) = Ok (x', y', z') -> x = x' /\ y = y' /\ z = z'.
Proof. by intros [= -> -> ->]. Qed.

Lemma rd_recs_app b img l rcs : forall i, Forall rec_wf rcs ->
  rd_recs (length rcs) b i img (mkRd (concat (map rec_bytes rcs) ++ l) false) = Some (rcs, count_true (leaf_bits b i img rcs), mkRd l false).
Proof.
  induction rcs as [|rc rcs IH]; intros i Hw; [done|]. apply Forall_cons_1 in Hw as [H0 Hw]. cbn [length rd_recs map concat leaf_bits].
  rewrite <- app_assoc, rd_rec_app by done. cbn [rd_bad]. rewrite (IH (i + 1) Hw). cbn [mbind option_bind]. by rewrite count_true_cons.
Qed.

Lemma rd_recs_ok n b img : forall i r rcs k r', rd_recs n b i img r = Some (rcs, k, r') -> rd_bad r = false -> bytes_wf (rd_rest r) ->
  rd_bad r' = false /\ bytes_wf (rd_rest r') /\ rd_rest r = concat (map rec_bytes rcs) ++ rd_rest r' /\ Forall rec_wf rcs /\ length rcs = n /\
  k = count_true (leaf_bits b i img rcs).
Proof.
  induction n as [|n IH]; intros i r rcs k r'; cbn [rd_recs].
  { intros E Hb Hw. injection E as <- <- <-. split_and!; (done || constructor). }
  destruct (rd_rec r) as [rc r1] eqn:E1. destruct (rd_bad r1) eqn:B1; [done|].
  destruct (rd_recs n b (i + 1) img r1) as [[[rcs0 k0] r0]|] eqn:E0; [|done]. cbn [mbind option_bind]. intros E Hb Hw.
  apply some_triple in E as (<- & <- & <-).
  destruct (rd_rec_ok _ _ _ E1 B1 Hw) as (_ & L1 & W1 & V1). destruct (IH _ _ _ _ _ E0 B1 V1) as (B0 & V0 & L0 & W0 & N0 & ->).
  cbn [map concat leaf_bits length]. rewrite count_true_cons, N0, <- app_assoc, <- L0.
  split; [exact B0|]. split; [exact V0|]. split; [exact L1|]. split; [by constructor|]. split; exact eq_refl.
Qed.

Lemma rd_blocks_app img l bks : forall b, Forall block_wf bks ->
  rd_blocks (length bks) b img (mkRd (concat (map block_bytes bks) ++ l) false) = Ok (bks, tally_of b img bks, mkRd l false).
Proof.
  induction bks as [|bk bks IH]; intros b Hw; [done|]. apply Forall_cons_1 in Hw as [[R4 N4 [_ Hr]] Hw]. cbn [length rd_blocks map concat tally_of].
  change (block_bytes bk) with (concat (map rec_bytes (bk_recs bk)) ++ bk_root bk). rewrite <- !app_assoc.
  pose proof (rd_recs_app b img (bk_root bk ++ concat (map block_bytes bks) ++ l) (bk_recs bk) 0 R4) as Er. rewrite N4 in Er. rewrite Er.
  rewrite rd_bytes_app by exact Hr. cbn [rd_bad]. rewrite (IH (b + 1) Hw). destruct bk. exact eq_refl.
Qed.

Lemma rd_blocks_ok n img : forall b r bks t r', rd_blocks n b img r = Ok (bks, t, r') -> rd_bad r = false -> bytes_wf (rd_rest r) ->
  rd_bad r' = false /\ bytes_wf (rd_rest r') /\ rd_rest r = concat (map block_bytes bks) ++ rd_rest r' /\ Forall block_wf bks /\ length bks = n /\
  t = tally_of b img bks.
Proof.
  induction n as [|n IH]; intros b r bks t r'; cbn [rd_blocks].
  { intros E Hb Hw. injection E as <- <- <-. split_and!; (done || constructor). }
  destruct (rd_recs 4 b 0 img r) as [[[rcs k] r1]|] eqn:E1; [|done]. destruct (rd_bytes 32 zero32 r1) as [root r2] eqn:E2.
  destruct (rd_bad r2) eqn:B2; [done|]. destruct (rd_blocks n (b + 1) img r2) as [[[bks0 t0] r0]|] eqn:E0; [|done].
  intros E Hb Hw. apply ok_triple in E as (<- & <- & <-).
  destruct (rd_recs_ok _ _ _ _ _ _ _ _ E1 Hb Hw) as (B1 & V1 & L1 & W1 & N1 & ->).
  destruct (rd_bytes_ok _ _ _ _ _ E2 B2 V1) as (_ & L2 & N2 & H2 & V2). destruct (IH _ _ _ _ _ E0 B2 V2) as (B0 & V0 & L0 & W0 & N0 & ->).
  split; [exact B0|]. split; [exact V0|]. split; [|split; [constructor; [by constructor|exact W0]|split; [by cbn [length]; rewrite N0|exact eq_refl]]].
  cbn [map concat]. unfold block_bytes at 1. cbn [bk_recs bk_root]. rewrite L1, L2, L0, <- !app_assoc. exact eq_refl.
Qed.

(** ** The file *)

Lemma rec_bytes_length rc : rec_wf rc -> length (rec_bytes rc) = 153%nat.
Proof.
  intros [_ _ [_ H0] [_ H1] [_ H2]]. unfold rec_bytes, fields. cbn [map concat]. rewrite !length_app, !put_i64_length, H0, H1, H2. reflexivity.
Qed.

Lemma block_bytes_length bk : block_wf bk -> length (block_bytes bk) = 644%nat.
Proof.
  intros [Hr H4 [_ Hd]]. unfold block_bytes. rewrite length_app, Hd. destruct (bk_recs bk) as [|r0 [|r1 [|r2 [|r3 [|]]]]]; try discriminate H4.
  repeat (apply Forall_cons_1 in Hr as [? Hr]). cbn [map concat]. rewrite !length_app, !rec_bytes_length by done. reflexivity.
Qed.

Lemma blocks_bytes_length bks : Forall block_wf bks -> length (concat (map block_bytes bks)) = (644 * length bks)%nat.
Proof. induction 1 as [|bk bks Hb _ IH]; [done|]. cbn [map concat length]. rewrite length_app, IH, block_bytes_length by done. lia. Qed.

(** A batch in its format, its root chained; the hashes in it may still be wrong. *)
Record batch_wf (n : Z) (img : list Z) (bks : list Block) (root : list Z) : Prop := {
  ba_n : 0 < n <= MAX_BLOCKS;
  ba_img : hash_wf img;
  ba_blocks : Forall block_wf bks;
  ba_length : Z.of_nat (length bks) = n;
  ba_root : root = chain_v2 n (map bk_root bks) img
}.

Lemma batch_valid_wf n img bks root : batch_valid n img bks root <-> batch_wf n img bks root /\ blocks_valid 0 img bks.
Proof. split; [intros [? ? ? ? ? ?]; split; [by constructor|done]|intros [[? ? ? ? ?] ?]; by constructor]. Qed.

Lemma chain_length n roots img : length (chain_v2 n roots img) = 32%nat.
Proof. apply sha_length. Qed.

Lemma batch_bytes_length n img bks root : batch_wf n img bks root -> (length (batch_bytes n img bks root) < Z.to_nat 1048576)%nat.
Proof.
  intros [Hn [_ Hi] Hb Hl ->]. unfold batch_bytes. rewrite !length_app, length_le_bytes, Hi, blocks_bytes_length, chain_length by done.
  change (length batch_header) with 8%nat. unfold MAX_BLOCKS in Hn. lia.
Qed.

Lemma rd_u32_app n l bad : in_u32 n -> rd_u32 (mkRd (le_bytes 4 n ++ l) bad) = (n, mkRd l bad).
Proof.
  intros Hn. unfold rd_u32. rewrite rd_take_app by apply length_le_bytes. rewrite or_bytes_le by (first [apply le_bytes_wf|rewrite ?length_le_bytes; lia]).
  rewrite le_val_bytes. change (256 ^ Z.of_nat 4) with two32. unfold in_u32 in Hn. rewrite Z.mod_small by lia. f_equal. lia.
Qed.

Lemma rd_u32_ok r n r' : rd_u32 r = (n, r') -> rd_bad r' = false -> bytes_wf (rd_rest r) ->
  rd_rest r = le_bytes 4 n ++ rd_rest r' /\ bytes_wf (rd_rest r') /\ 0 <= n.
Proof.
  unfold rd_u32. destruct (rd_take 4 r) as [b r0] eqn:E. intros E' Hb Hw. injection E' as <- <-.
  destruct (rd_take_ok _ _ _ _ E Hb) as (_ & d & -> & Hd & Hl). rewrite Hd in Hw. apply bytes_wf_app in Hw as [Hw1 Hw2].
  rewrite or_bytes_le by (first [done|lia]). rewrite Z.pow_0_r, Z.add_0_l, Z.mul_1_l. pose proof (le_val_range d Hw1).
  split; [|split; [done|lia]]. rewrite Hd. f_equal. symmetry. by apply le_bytes_val.
Qed.

Lemma rd_u32_bad r n r' : rd_u32 r = (n, r') -> rd_bad r' = false -> rd_bad r = false.
Proof.
  unfold rd_u32. destruct (rd_take 4 r) as [b r0] eqn:E. intros E' Hb. injection E' as <- <-. by destruct (rd_take_ok _ _ _ _ E Hb).
Qed.

Lemma rd_batch_app n img bks root : batch_wf n img bks root ->
  rd_batch (batch_bytes n img bks root) = Ok (mkAudited n img bks (tally_of 0 img bks) root true).
Proof.
  intros Hwf. pose proof Hwf as [Hn [_ Hi] Hb Hl Hr]. unfold rd_batch. pose proof (batch_bytes_length n img bks root Hwf) as _.
  assert (take 8 (batch_bytes n img bks root) = batch_header /\ (12 <= length (batch_bytes n img bks root))%nat /\
    drop 8 (batch_bytes n img bks root) = le_bytes 4 n ++ img ++ concat (map block_bytes bks) ++ root) as (-> & H12 & ->).
  { split; [exact eq_refl|]. split; [|exact eq_refl]. unfold batch_bytes. rewrite !length_app, length_le_bytes. change (length batch_header) with 8%nat. lia. }
  destruct (Nat.ltb_spec (length (batch_bytes n img bks root)) 12); [lia|]. rewrite bytes_eqb_refl. cbn [negb orb].
  unfold MAX_BLOCKS in *. rewrite rd_u32_app by (unfold in_u32, two32; lia). rewrite rd_bytes_app by done. cbn [rd_bad orb].
  destruct (Z.eqb_spec n 0); [lia|]. destruct (Z.ltb_spec 256 n); [lia|]. cbn [orb].
  rewrite <- Hl, Nat2Z.id, rd_blocks_app by done. rewrite <- (app_nil_r root), rd_bytes_app, app_nil_r by (rewrite Hr; apply chain_length).
  cbn [rd_bad rd_rest negb length Nat.eqb andb]. rewrite Hl, <- Hr, bytes_eqb_refl. reflexivity.
Qed.

Lemma rd_batch_ok file au : bytes_wf file -> rd_batch file = Ok au ->
  Forall block_wf (au_blocks au) /\ Z.of_nat (length (au_blocks au)) = au_n au /\ au_tally au = tally_of 0 (au_img au) (au_blocks au) /\
  (au_batch_ok au = true -> file = batch_bytes (au_n au) (au_img au) (au_blocks au) (au_root au) /\
     batch_wf (au_n au) (au_img au) (au_blocks au) (au_root au)).
Proof.
  intros Hw. unfold rd_batch. destruct (Nat.ltb_spec (length file) 12) as [|H12]; [done|].
  destruct (bytes_eqb (take 8 file) batch_header) eqn:Eh; [|done]. cbn [negb orb]. apply bytes_eqb_eq in Eh.
  destruct (rd_u32 _) as [n r1] eqn:E1. destruct (rd_bytes 32 zero32 r1) as [img r2] eqn:E2. destruct (rd_bad r2) eqn:B2; [done|]. cbn [orb].
  destruct (Z.eqb_spec n 0) as [|Hn0]; [done|]. destruct (Z.ltb_spec MAX_BLOCKS n) as [|Hn]; [done|]. cbn [orb].
  destruct (rd_blocks (Z.to_nat n) 0 img r2) as [[[bks t] r3]|] eqn:E3; [|done]. destruct (rd_bytes 32 zero32 r3) as [root r4] eqn:E4.
  pose proof (rd_bytes_bad _ _ _ _ _ E2 B2) as B1. pose proof (rd_u32_bad _ _ _ E1 B1) as B0.
  assert (bytes_wf (drop 8 file)) as W0 by by apply bytes_wf_drop.
  destruct (rd_u32_ok _ _ _ E1 B1 W0) as (L1 & W1 & Hge). cbn [rd_rest] in L1. destruct (rd_bytes_ok _ _ _ _ _ E2 B2 W1) as (_ & L2 & N2 & V2 & W2).
  destruct (rd_blocks_ok _ _ _ _ _ _ _ E3 B2 W2) as (B3 & W3 & L3 & V3 & N3 & Ht).
  remember (bytes_eqb (chain_v2 _ _ _) _ && _ && _) as okb eqn:Hok. intros E. apply ok_inj in E as <-.
  cbn [au_n au_img au_blocks au_root au_tally au_batch_ok]. split; [exact V3|]. split; [lia|]. split; [exact Ht|].
  intros ->. symmetry in Hok. apply andb_true_iff in Hok as [[Hc Hb]%andb_true_iff Hz%Nat.eqb_eq]. apply bytes_eqb_eq in Hc. apply negb_true_iff in Hb.
  destruct (rd_bytes_ok _ _ _ _ _ E4 Hb W3) as (_ & L4 & N4 & V4 & _).
  destruct (rd_rest r4) as [|]; [|discriminate Hz]. rewrite app_nil_r in L4. split.
  - rewrite <- (take_drop 8 file), Eh, L1, L2, L3, L4. exact eq_refl.
  - constructor; [lia|by split|exact V3|rewrite N3; lia|by symmetry].
Qed.

(** ** Running again *)

(** The machine gives what a record claims, in the steps it claims. *)
Definition runs_as (fuel : nat) (md : VmModule) (fn : Z) (rc : Rec) : Prop :=
  exists v st, vm_exec fuel md true fn (rec_args rc) 0 0 = Some (V_ok v st) /\ val v = rc_out rc /\ i64 st = rc_steps rc.

Section Runs.
Context `{Env} (Ha : mallocs_succeed) (fuel : nat) (md : VmModule) (fn : Z).
Context (Hsafe : module_safe md) (Hargs : calls_have_args md) (Hfuel : enough fuel).

Lemma vm_answers args : Forall in_i64 args ->
  exists o, vm_exec fuel md true fn args 0 0 = Some o /\ o <> V_ub.
Proof.
  intros Hi. unfold vm_exec. set (ctx := vm_exec_context md true).
  assert (ctx_safe ctx) as Hctx by (split; [exact Hsafe|intros abi; discriminate]).
  destruct (runs (2 * steps_left ctx 0 + 2)) as [_ Hr].
  destruct (Hr ctx fn args 0%nat 0) as (o & Ho & _); [split; [lia|change (step_limit ctx) with LIN_VM_STEP_LIMIT; unfold LIN_VM_STEP_LIMIT; lia]|reflexivity|lia|].
  exists o. split.
  - apply (proj2 (vm_mono _)) with (k := fuel) in Ho; [done|]. unfold steps_left. change (step_limit ctx) with LIN_VM_STEP_LIMIT. unfold enough in Hfuel. lia.
  - intros ->. destruct (safe (2 * steps_left ctx 0 + 2)) as [_ H3]. exact (H3 ctx fn args 0%nat 0 V_ub Hctx Hargs Hi Ho).
Qed.

Lemma reexecute_ok rc m : Forall in_i64 (rec_args rc) -> exists b m', reexecute fuel md fn rc m = Val b m' /\ (b = true <-> runs_as fuel md fn rc).
Proof.
  intros Hi. destruct (vm_answers (rec_args rc) Hi) as (o & Ho & Hub). destruct (try_malloc_ok m Ha) as [m1 Em].
  unfold reexecute, Cli.exec, runs_as, mbind, Mem_bind. rewrite Em, Ho.
  destruct o as [v st|e st|]; [| |done]; (eexists _, m1; split; [reflexivity|]).
  - rewrite andb_true_iff, !Z.eqb_eq. split; [intros [? ?]; by exists v, st|]. intros (v' & st' & E & ? & ?). injection E as <- <-. done.
  - split; [done|]. by intros (v' & st' & E & _).
Qed.

Lemma reexecute_all_ok rcs : forall m, Forall (fun rc => Forall in_i64 (rec_args rc)) rcs ->
  exists k m', reexecute_all fuel md fn rcs m = Val k m' /\ (k <= length rcs)%nat /\ (k = length rcs <-> Forall (runs_as fuel md fn) rcs).
Proof.
  induction rcs as [|rc rcs IH]; intros m Hi; cbn [reexecute_all].
  { exists O, m. split; [done|]. split; [done|]. split; [constructor|done]. }
  apply Forall_cons_1 in Hi as [H0 Hi]. destruct (reexecute_ok rc m H0) as (b & m1 & E1 & Hb). destruct (IH m1 Hi) as (k & m2 & E2 & Hk & Hall).
  exists (if b then S k else k), m2. split; [after E1; after E2; reflexivity|]. rewrite Forall_cons_iff, <- Hb, <- Hall. cbn [length].
  destruct b; split; [lia|intuition lia|lia|intuition (lia || discriminate)].
Qed.

Lemma bench_exec_ok rcs n : forall m, Forall (fun rc => Forall in_i64 (rec_args rc)) rcs -> exists m', bench_exec fuel n md fn rcs m = Val tt m'.
Proof.
  induction n as [|n IH]; intros m Hi; cbn [bench_exec]; [by eexists|].
  destruct (reexecute_all_ok rcs m Hi) as (k & m1 & E1 & _). destruct (IH m1 Hi) as [m2 E2]. exists m2. by after E1.
Qed.
End Runs.

(** ** Acceptance *)

Lemma rec_args_ok rc : rec_wf rc -> Forall in_i64 (rec_args rc).
Proof.
  intros [Hf _ _ _ _]. unfold fields in Hf. repeat (apply Forall_cons_1 in Hf as [? Hf]). unfold rec_args.
  repeat (apply Forall_cons_2; [assumption|]). apply Forall_nil_2.
Qed.

Lemma recs_args_ok bks : Forall block_wf bks -> Forall (fun rc => Forall in_i64 (rec_args rc)) (concat (map bk_recs bks)).
Proof.
  induction 1 as [|bk bks Hb _ IH]; [constructor|]. cbn [map concat]. apply Forall_app. split; [|exact IH].
  eapply List.Forall_impl; [|exact (bw_recs _ Hb)]. apply rec_args_ok.
Qed.

Lemma recs_length bks : Forall block_wf bks -> length (concat (map bk_recs bks)) = (4 * length bks)%nat.
Proof. induction 1 as [|bk bks Hb _ IH]; [done|]. cbn [map concat length]. rewrite length_app, IH, (bw_four _ Hb). lia. Qed.

Lemma bench_count img bks : forall b,
  count_true (concat (map (fun bk => map (rec_proof (bk_root bk)) (bk_recs bk)) bks)) = proofs_ok (tally_of b img bks).
Proof. induction bks as [|bk bks IH]; intros b; [done|]. cbn [map concat tally_of proofs_ok]. by rewrite count_app, (IH (b + 1)). Qed.

Lemma four_of bks : Forall block_wf bks -> Forall (fun bk => length (bk_recs bk) = 4%nat) bks.
Proof. intros Hb. eapply List.Forall_impl; [|exact Hb]. intros bk. apply bw_four. Qed.

(** The verdict, by the counts. *)
Lemma all_ok_iff au k : Forall block_wf (au_blocks au) -> Z.of_nat (length (au_blocks au)) = au_n au -> au_tally au = tally_of 0 (au_img au) (au_blocks au) ->
  all_ok au k = true <-> au_batch_ok au = true /\ blocks_valid 0 (au_img au) (au_blocks au) /\ k = (4 * length (au_blocks au))%nat.
Proof.
  intros Hb Hl Ht. destruct (tally_full (au_img au) (au_blocks au) 0 (four_of _ Hb)) as [(H1 & H2 & H3) Hiff]. rewrite <- Hiff.
  unfold all_ok. rewrite !andb_true_iff, !Z.eqb_eq, Ht. intuition lia.
Qed.

Section Accept.
Context `{Env} (Ha : mallocs_succeed) (fuel : nat) (bn : Bench) (vm : LinBc1Vm).
Local Abbreviation fn := (lin_bc1_find_fn vm (cstr "settle_swap")).
Context (Hsafe : module_safe (b_mod vm)) (Hargs : calls_have_args (b_mod vm)) (Hfuel : enough fuel) (Hfn : 0 <= fn).

Definition runs_all (bks : list Block) : Prop := Forall (runs_as fuel (b_mod vm) fn) (concat (map bk_recs bks)).

Lemma audit_image_ok au m : Forall block_wf (au_blocks au) -> Z.of_nat (length (au_blocks au)) = au_n au ->
  au_tally au = tally_of 0 (au_img au) (au_blocks au) ->
  exists r m', audit_image fuel bn au vm m = Val r m' /\
    (status r = 0 <-> au_batch_ok au = true /\ blocks_valid 0 (au_img au) (au_blocks au) /\ runs_all (au_blocks au)).
Proof.
  intros Hb Hl Ht. pose proof (recs_args_ok _ Hb) as Hi. unfold audit_image. cbv zeta. rewrite (proj2 (Z.ltb_ge _ _) Hfn).
  destruct (reexecute_all_ok Ha fuel (b_mod vm) fn Hsafe Hargs Hfuel _ m Hi) as (k & m1 & E1 & Hk & Hall). after E1.
  rewrite (recs_length _ Hb) in Hk, Hall. pose proof (all_ok_iff au k Hb Hl Ht) as Hiff.
  assert (au_batch_ok au = true /\ blocks_valid 0 (au_img au) (au_blocks au) /\ runs_all (au_blocks au) <-> all_ok au k = true) as Hst
    by (unfold runs_all; tauto).
  rewrite (bench_count (au_img au) _ 0), <- Ht.
  destruct (Z.eqb_spec (Z.of_nat (proofs_ok (au_tally au))) (au_n au * 4)) as [Hc|Hc]; cbn [negb].
  - destruct (bench_exec_ok Ha fuel (b_mod vm) fn Hsafe Hargs Hfuel _ 31 m1 Hi) as [m2 E2]. after E2. eexists _, m2. split; [reflexivity|]. cbn [status]. rewrite Hst.
    by destruct (all_ok au k).
  - eexists _, m1. split; [reflexivity|]. cbn [status]. rewrite Hst. split; [done|]. unfold all_ok. rewrite !andb_true_iff, !Z.eqb_eq. tauto.
Qed.
End Accept.

Lemma loaded_safe img vm : bytes_wf img -> lin_bc1_load (C := LinSha256) img = Ok vm -> module_safe (b_mod vm).
Proof.
  intros Hw (b & _ & _ & Hb & _ & ->)%load_inv. apply post_body in Hb as [[_ _ V4 _ _] _]; [|auto with lin]. cbn [b_mod fns].
  eapply List.Forall_impl; [|exact V4]. intros f. apply fn_valid_safe.
Qed.

Lemma audit_main_ok `{Env} fuel bn fs p0 path ipath m file image vm (Ha : mallocs_succeed)
    (Hf : fs path = Some file) (Hi : fs ipath = Some image) (Wf : bytes_wf file) (Wi : bytes_wf image)
    (Hl : lin_bc1_load (C := LinSha256) (take (Z.to_nat 65536) image) = Ok vm) (Hfn : 0 <= lin_bc1_find_fn vm (cstr "settle_swap"))
    (Hc : calls_have_args (b_mod vm)) (Hfuel : enough fuel) :
  exists r m', audit_main fuel bn fs [p0; path; ipath] m = Val r m' /\
    (status r = 0 <-> exists n img bks root, file = batch_bytes n img bks root /\ batch_valid n img bks root /\ runs_all fuel vm bks).
Proof.
  unfold audit_main. cbn [length Nat.eqb negb]. change (arg [p0; path; ipath] 1) with path. change (arg [p0; path; ipath] 2) with ipath.
  rewrite Hf, Hi, Hl. pose proof (loaded_safe _ vm (bytes_wf_take _ _ Wi) Hl) as Hsafe.
  assert (forall n img bks root, file = batch_bytes n img bks root -> batch_valid n img bks root ->
    rd_batch (take (Z.to_nat 1048576) file) = Ok (mkAudited n img bks (tally_of 0 img bks) root true)) as Happ.
  { intros n img bks root -> [Hw _]%batch_valid_wf. pose proof (batch_bytes_length _ _ _ _ Hw).
    rewrite take_ge by lia. by apply rd_batch_app. }
  destruct (rd_batch (take (Z.to_nat 1048576) file)) as [au|e] eqn:E.
  - destruct (rd_batch_ok _ au (bytes_wf_take _ _ Wf) E) as (Hb & Hn & Ht & Hok).
    destruct (audit_image_ok Ha fuel bn vm Hsafe Hc Hfuel Hfn au m Hb Hn Ht) as (r & m' & Er & Hst). exists r, m'. split; [exact Er|]. rewrite Hst. split.
    + intros (H0 & Hv & Hr). destruct (Hok H0) as [Efile Hw]. exists (au_n au), (au_img au), (au_blocks au), (au_root au).
      split; [|split; [by apply batch_valid_wf|exact Hr]]. rewrite <- Efile. symmetry. apply take_ge.
      pose proof (batch_bytes_length _ _ _ _ Hw) as Hlen. rewrite <- Efile, length_take in Hlen. lia.
    + intros (n & img & bks & root & Efile & Hv & Hr). specialize (Happ n img bks root Efile Hv). apply ok_inj in Happ as ->.
      cbn [au_batch_ok au_img au_blocks]. split; [reflexivity|]. split; [exact (bv_valid _ _ _ _ Hv)|exact Hr].
  - eexists _, m. split; [reflexivity|]. cbn [status]. split; [done|]. intros (n & img & bks & root & Efile & Hv & _).
    specialize (Happ n img bks root Efile Hv). discriminate Happ.
Qed.

(** C22. The auditor ends, and with status 0 exactly when the file is a batch in
    its format, without a byte more, every leaf is the hash of its record, every
    proof leads to the root of its block, every root is that of its four leaves,
    the committed root chains them, and the machine gives every record's output in
    the steps it claims. *)
Theorem audit_accepts `{Env} fuel bn fs p0 path ipath m file image vm (Ha : mallocs_succeed)
    (Hf : fs path = Some file) (Hi : fs ipath = Some image) (Wf : bytes_wf file) (Wi : bytes_wf image)
    (Hl : lin_bc1_load (C := LinSha256) (take (Z.to_nat 65536) image) = Ok vm) (Hfn : 0 <= lin_bc1_find_fn vm (cstr "settle_swap"))
    (Hc : calls_have_args (b_mod vm)) (Hfuel : enough fuel) :
  exists r m', audit_main fuel bn fs [p0; path; ipath] m = Val r m' /\
    (status r = 0 <-> exists n img bks root, file = batch_bytes n img bks root /\ batch_valid n img bks root /\ runs_all fuel vm bks).
Proof. by eapply audit_main_ok. Qed.

(** ** What the committed root binds *)

Lemma node_v2_inj a b c d : length a = length c -> node_v2 a b = node_v2 c d -> (a = c /\ b = d) \/ collision.
Proof.
  intros Hl. unfold node_v2. intros E. destruct (sha_inj _ _ E) as [E'|?]; [left|by right].
  apply app_inv_head in E'. by apply app_inj_1 in E' as [-> ->].
Qed.

Lemma put_i64_inj x y : in_i64 x -> in_i64 y -> put_i64 x = put_i64 y -> x = y.
Proof. intros Hx Hy E. by rewrite <- (put_i64_read x Hx), <- (put_i64_read y Hy), E. Qed.

Lemma put_fields_inj l1 : forall l2, length l1 = length l2 -> Forall in_i64 l1 -> Forall in_i64 l2 ->
  concat (map put_i64 l1) = concat (map put_i64 l2) -> l1 = l2.
Proof.
  induction l1 as [|x l1 IH]; intros [|y l2] Hl H1 H2 E; try discriminate Hl; [done|]. injection Hl as Hl. cbn [map concat] in E.
  apply Forall_cons_1 in H1 as [Hx H1]. apply Forall_cons_1 in H2 as [Hy H2]. apply app_inj_1 in E as [E1 E2]; [|by rewrite !put_i64_length].
  by rewrite (put_i64_inj x y Hx Hy E1), (IH l2 Hl H1 H2 E2).
Qed.

Lemma leaf_v2_inj b i r1 r2 img : rec_wf r1 -> rec_wf r2 -> leaf_v2 b i r1 img = leaf_v2 b i r2 img -> fields r1 = fields r2 \/ collision.
Proof.
  intros W1 W2. unfold leaf_v2. intros E. destruct (sha_inj _ _ E) as [E'|?]; [left|by right].
  unfold leaf_msg in E'. do 3 apply app_inv_head in E'. apply app_inv_tail in E'.
  exact (put_fields_inj (fields r1) (fields r2) eq_refl (rw_fields _ W1) (rw_fields _ W2) E').
Qed.

Lemma leaves_fields b img rcs1 : forall i rcs2, length rcs1 = length rcs2 -> Forall rec_wf rcs1 -> Forall rec_wf rcs2 ->
  leaves_valid b i img rcs1 -> leaves_valid b i img rcs2 -> map rc_leaf rcs1 = map rc_leaf rcs2 -> map fields rcs1 = map fields rcs2 \/ collision.
Proof.
  induction rcs1 as [|r1 rcs1 IH]; intros i [|r2 rcs2] Hl W1 W2 V1 V2 E; try discriminate Hl; [by left|]. injection Hl as Hl.
  apply Forall_cons_1 in W1 as [H1 W1]. apply Forall_cons_1 in W2 as [H2 W2]. destruct V1 as [L1 V1], V2 as [L2 V2].
  rewrite !map_cons in E. apply cons_parts in E as [E Et]. rewrite <- L1, <- L2 in E.
  destruct (leaf_v2_inj _ _ _ _ _ H1 H2 E) as [Ef|?]; [|by right]. destruct (IH _ rcs2 Hl W1 W2 V1 V2 Et) as [Er|?]; [left|by right].
  by rewrite !map_cons, Ef, Er.
Qed.

(** The root of a block binds its four leaves. *)
Lemma block_leaves rcs1 rcs2 : length rcs1 = 4%nat -> length rcs2 = 4%nat -> Forall rec_wf rcs1 -> Forall rec_wf rcs2 ->
  block_root rcs1 = block_root rcs2 -> map rc_leaf rcs1 = map rc_leaf rcs2 \/ collision.
Proof.
  intros L1 L2 W1 W2. destruct rcs1 as [|a0 [|a1 [|a2 [|a3 [|]]]]]; try discriminate L1. destruct rcs2 as [|b0 [|b1 [|b2 [|b3 [|]]]]]; try discriminate L2.
  repeat (apply Forall_cons_1 in W1 as [[_ _ [_ ?] _ _] W1]). repeat (apply Forall_cons_1 in W2 as [[_ _ [_ ?] _ _] W2]).
  unfold block_root. cbn [rec_leaf lookup list_lookup map]. intros E.
  assert (forall l r, length (node_v2 l r) = 32%nat) as Hn by (intros l r; unfold node_v2; apply sha_length).
  destruct (node_v2_inj _ _ _ _ ltac:(by rewrite !Hn) E) as [[E1 E2]|?]; [|by right].
  destruct (node_v2_inj (rc_leaf a0) (rc_leaf a1) (rc_leaf b0) (rc_leaf b1)) as [[-> ->]|?]; [lia|exact E1| |by right].
  destruct (node_v2_inj (rc_leaf a2) (rc_leaf a3) (rc_leaf b2) (rc_leaf b3)) as [[-> ->]|?]; [lia|exact E2|by left|by right].
Qed.

Lemma blocks_fields img bks1 : forall b bks2, length bks1 = length bks2 -> Forall block_wf bks1 -> Forall block_wf bks2 ->
  blocks_valid b img bks1 -> blocks_valid b img bks2 -> map bk_root bks1 = map bk_root bks2 ->
  map fields (concat (map bk_recs bks1)) = map fields (concat (map bk_recs bks2)) \/ collision.
Proof.
  induction bks1 as [|k1 bks1 IH]; intros b [|k2 bks2] Hl W1 W2 V1 V2 E; try discriminate Hl; [by left|]. injection Hl as Hl.
  apply Forall_cons_1 in W1 as [[R1 N1 _] W1]. apply Forall_cons_1 in W2 as [[R2 N2 _] W2].
  destruct V1 as [(L1 & _ & B1) V1], V2 as [(L2 & _ & B2) V2]. rewrite !map_cons in E. apply cons_parts in E as [E Et]. rewrite <- B1, <- B2 in E.
  destruct (block_leaves _ _ N1 N2 R1 R2 E) as [El|?]; [|by right].
  destruct (leaves_fields b img (bk_recs k1) 0 (bk_recs k2) ltac:(by rewrite N1, N2) R1 R2 L1 L2 El) as [Ef|?]; [|by right].
  destruct (IH _ bks2 Hl W1 W2 V1 V2 Et) as [Er|?]; [left|by right]. cbn [map concat]. by rewrite !map_app, Ef, Er.
Qed.

Lemma concat_roots_inj (l1 : list (list Z)) : forall l2, length l1 = length l2 -> digests l1 -> digests l2 -> concat l1 = concat l2 -> l1 = l2.
Proof.
  induction l1 as [|d1 l1 IH]; intros [|d2 l2] Hl H1 H2 E; try discriminate Hl; [done|]. injection Hl as Hl. cbn [concat] in E.
  apply Forall_cons_1 in H1 as [Hd1 H1]. apply Forall_cons_1 in H2 as [Hd2 H2]. apply app_inj_1 in E as [-> E]; [|lia]. by rewrite (IH l2 Hl H1 H2 E).
Qed.

Lemma root_digests bks : Forall block_wf bks -> digests (map bk_root bks).
Proof. intros Hb. apply Forall_map. eapply List.Forall_impl; [|exact Hb]. intros bk [_ _ [_ Hr]]. exact Hr. Qed.

Lemma chain_bytes n : [u8 n; u8 (Z.shiftr n 8); u8 (Z.shiftr n 16); u8 (Z.shiftr n 24)] = le_bytes 4 n.
Proof. rewrite !Z.shiftr_div_pow2 by lia. unfold u8, two8. cbn [le_bytes]. rewrite !Z.div_div by lia. reflexivity. Qed.

Lemma chain_inj n1 n2 bks1 bks2 img1 img2 : 0 < n1 <= MAX_BLOCKS -> 0 < n2 <= MAX_BLOCKS -> hash_wf img1 -> hash_wf img2 ->
  Forall block_wf bks1 -> Forall block_wf bks2 -> Z.of_nat (length bks1) = n1 -> Z.of_nat (length bks2) = n2 ->
  chain_v2 n1 (map bk_root bks1) img1 = chain_v2 n2 (map bk_root bks2) img2 ->
  (n1 = n2 /\ map bk_root bks1 = map bk_root bks2 /\ img1 = img2) \/ collision.
Proof.
  intros H1 H2 [_ I1] [_ I2] W1 W2 L1 L2. unfold chain_v2. intros E. destruct (sha_inj _ _ E) as [E'|?]; [left|by right].
  unfold chain_msg in E'. rewrite !chain_bytes in E'. apply app_inv_head in E'. apply app_inj_1 in E' as [En E']; [|by rewrite !length_le_bytes].
  apply (f_equal le_val) in En. rewrite !le_val_bytes in En. change (256 ^ Z.of_nat 4) with two32 in En. unfold MAX_BLOCKS, two32 in *.
  rewrite !Z.mod_small in En by lia.
  assert (length bks1 = length bks2) as Hlen by lia. apply app_inj_2 in E' as [Ec ->]; [|lia]. split; [done|]. split; [|done].
  apply concat_roots_inj; [by rewrite !length_map|by apply root_digests|by apply root_digests|done].
Qed.


(** ** One proof *)

Lemma verify_proof_bits leaf s0 s1 pb root (left0 left1 : bool) : pb_ok pb = true -> (Z.land pb 1 =? 0) = left0 -> (Z.land (Z.shiftr pb 1) 1 =? 0) = left1 ->
  verify_proof leaf s0 s1 pb root =
    let cur := if left0 then node_v2 leaf s0 else node_v2 s0 leaf in bytes_eqb (if left1 then node_v2 cur s1 else node_v2 s1 cur) root.
Proof. intros H0 H1 H2. unfold verify_proof. rewrite H0, H1, H2. exact eq_refl. Qed.

(** An accepted proof is of the leaf its bits name. *)
Lemma proof_sound l0 l1 l2 l3 leaf s0 s1 pb : digests [l0; l1; l2; l3] -> length leaf = 32%nat -> length s0 = 32%nat -> length s1 = 32%nat ->
  verify_proof leaf s0 s1 pb (node_v2 (node_v2 l0 l1) (node_v2 l2 l3)) = true -> [l0; l1; l2; l3] !! Z.to_nat pb = Some leaf \/ collision.
Proof.
  intros Hd Hl H0 H1 E. repeat (apply Forall_cons_1 in Hd as [? Hd]).
  assert (forall l r, length (node_v2 l r) = 32%nat) as Hn by (intros l r; unfold node_v2; apply sha_length).
  assert (pb_ok pb = true) as Hpb by (unfold verify_proof in E; by destruct (pb_ok pb)).
  assert (forall a b c d, length a = 32%nat -> length c = 32%nat -> bytes_eqb (node_v2 a b) (node_v2 c d) = true -> (a = c /\ b = d) \/ collision) as Hnode.
  { intros a b c d La Lc Eb. apply bytes_eqb_eq in Eb. apply node_v2_inj; [lia|done]. }
  assert (pb = 0 \/ pb = 1 \/ pb = 2 \/ pb = 3) as Hcases by (unfold pb_ok in Hpb; to_prop; lia).
  destruct Hcases as [Ep|[Ep|[Ep|Ep]]]; rewrite Ep in *.
  - rewrite (verify_proof_bits _ _ _ 0 _ true true) in E by reflexivity. destruct (Hnode _ _ _ _ (Hn _ _) (Hn _ _) E) as [[E1 _]|?]; [|by right].
    destruct (node_v2_inj leaf s0 l0 l1 ltac:(lia) E1) as [[-> _]|?]; [by left|by right].
  - rewrite (verify_proof_bits _ _ _ 1 _ false true) in E by reflexivity. destruct (Hnode _ _ _ _ (Hn _ _) (Hn _ _) E) as [[E1 _]|?]; [|by right].
    destruct (node_v2_inj s0 leaf l0 l1 ltac:(lia) E1) as [[_ ->]|?]; [by left|by right].
  - rewrite (verify_proof_bits _ _ _ 2 _ true false) in E by reflexivity. destruct (Hnode _ _ _ _ H1 (Hn _ _) E) as [[_ E1]|?]; [|by right].
    destruct (node_v2_inj leaf s0 l2 l3 ltac:(lia) E1) as [[-> _]|?]; [by left|by right].
  - rewrite (verify_proof_bits _ _ _ 3 _ false false) in E by reflexivity. destruct (Hnode _ _ _ _ H1 (Hn _ _) E) as [[_ E1]|?]; [|by right].
    destruct (node_v2_inj s0 leaf l2 l3 ltac:(lia) E1) as [[_ ->]|?]; [by left|by right].
Qed.

(** The siblings prove every leaf of a block. *)
Lemma proof_complete l0 l1 l2 l3 : let root := node_v2 (node_v2 l0 l1) (node_v2 l2 l3) in
  verify_proof l0 l1 (node_v2 l2 l3) 0 root = true /\ verify_proof l1 l0 (node_v2 l2 l3) 1 root = true /\
  verify_proof l2 l3 (node_v2 l0 l1) 2 root = true /\ verify_proof l3 l2 (node_v2 l0 l1) 3 root = true.
Proof.
  cbv zeta. rewrite (verify_proof_bits _ _ _ 0 _ true true), (verify_proof_bits _ _ _ 1 _ false true), (verify_proof_bits _ _ _ 2 _ true false),
    (verify_proof_bits _ _ _ 3 _ false false) by reflexivity. cbv zeta iota. by rewrite bytes_eqb_refl.
Qed.

(** ** Honest batches *)

(** The record of number [i] with its leaf and its path. *)
Definition sealed (b i : Z) (img : list Z) (rc : Rec) (s0 s1 : list Z) : Rec :=
  mkRec (rc_tx rc) (rc_ain rc) (rc_rin rc) (rc_rout rc) (rc_mino rc) (rc_out rc) (rc_steps rc) i (leaf_v2 b i rc img) s0 s1.

Definition seal_block (b : Z) (img : list Z) (r0 r1 r2 r3 : Rec) : Block :=
  let l0 := leaf_v2 b 0 r0 img in let l1 := leaf_v2 b 1 r1 img in
  let l2 := leaf_v2 b 2 r2 img in let l3 := leaf_v2 b 3 r3 img in
  let n01 := node_v2 l0 l1 in let n23 := node_v2 l2 l3 in
  mkBlock [sealed b 0 img r0 l1 n23; sealed b 1 img r1 l0 n23; sealed b 2 img r2 l3 n01; sealed b 3 img r3 l2 n01] (node_v2 n01 n23).

Lemma hash_is_wf m : hash_wf (lin_sha256 m).
Proof. split; [unfold lin_sha256, lin_sha256_final; case_match; apply state_bytes_wf|apply sha_length]. Qed.

Lemma leaf_is_wf b i rc img : hash_wf (leaf_v2 b i rc img).
Proof. apply hash_is_wf. Qed.
Lemma node_is_wf l r : hash_wf (node_v2 l r).
Proof. apply hash_is_wf. Qed.
#[local] Hint Resolve leaf_is_wf node_is_wf : lin.

Lemma leaf_sealed b i img rc s0 s1 : leaf_v2 b i (sealed b i img rc s0 s1) img = rc_leaf (sealed b i img rc s0 s1).
Proof. unfold leaf_v2 at 1, leaf_msg. cbn [sealed rc_tx rc_ain rc_rin rc_rout rc_mino rc_out rc_steps rc_leaf]. unfold leaf_v2, leaf_msg. exact eq_refl. Qed.

Lemma sealed_wf b i img rc s0 s1 : Forall in_i64 (fields rc) -> in_u8 i -> hash_wf s0 -> hash_wf s1 -> rec_wf (sealed b i img rc s0 s1).
Proof. intros Hf Hi H0 H1. constructor; [exact Hf|exact Hi|exact (leaf_is_wf b i rc img)|exact H0|exact H1]. Qed.

(** A block built by its records is valid: the auditor rejects no honest block. *)
Lemma seal_block_ok b img r0 r1 r2 r3 : Forall (fun rc => Forall in_i64 (fields rc)) [r0; r1; r2; r3] ->
  block_wf (seal_block b img r0 r1 r2 r3) /\ block_valid b img (seal_block b img r0 r1 r2 r3).
Proof.
  intros Hf. repeat (apply Forall_cons_1 in Hf as [? Hf]). unfold seal_block. cbv zeta.
  generalize (leaf_sealed b 0 img r0), (leaf_sealed b 1 img r1), (leaf_sealed b 2 img r2), (leaf_sealed b 3 img r3). intros S0 S1 S2 S3.
  split; [constructor; cbn [bk_recs bk_root]; [|done|auto with lin]|split; [|split]]; cbn [bk_recs bk_root].
  - repeat (apply Forall_cons_2; [apply sealed_wf; [done|unfold in_u8, two8; lia|auto with lin..]|]). constructor.
  - cbn [leaves_valid]. split_and!; [apply S0|apply S1|apply S2|apply S3|exact I].
  - destruct (proof_complete (leaf_v2 b 0 r0 img) (leaf_v2 b 1 r1 img) (leaf_v2 b 2 r2 img) (leaf_v2 b 3 r3 img)) as (P0 & P1 & P2 & P3).
    apply Forall_cons_2; [exact P0|]. apply Forall_cons_2; [exact P1|]. apply Forall_cons_2; [exact P2|]. apply Forall_cons_2; [exact P3|constructor].
  - unfold block_root, rec_leaf. cbn [lookup list_lookup sealed rc_leaf]. exact eq_refl.
Qed.

Lemma sealed_batch_valid img r0 r1 r2 r3 : hash_wf img -> Forall (fun rc => Forall in_i64 (fields rc)) [r0; r1; r2; r3] ->
  let bk := seal_block 0 img r0 r1 r2 r3 in batch_valid 1 img [bk] (chain_v2 1 [bk_root bk] img).
Proof.
  intros Hi Hf bk. destruct (seal_block_ok 0 img r0 r1 r2 r3 Hf) as [Hw Hv]. fold bk in Hw, Hv. clearbody bk.
  constructor; [unfold MAX_BLOCKS; lia|exact Hi|apply Forall_cons_2; [exact Hw|constructor]|done|by split|exact eq_refl].
Qed.

Lemma put_i64_wf x : bytes_wf (put_i64 x).
Proof. unfold put_i64, put_u64. cbn [map seq]. repeat constructor; apply u8_range. Qed.

Lemma rec_bytes_wf rc : rec_wf rc -> bytes_wf (rec_bytes rc).
Proof.
  intros [_ Hp [Hl _] [H0 _] [H1 _]]. unfold rec_bytes, bytes_wf, fields. cbn [map concat].
  repeat (apply Forall_app; split); try apply put_i64_wf; first [assumption|apply Forall_cons_2; [exact Hp|constructor]|constructor].
Qed.

Lemma concat_wf {A} (f : A -> list Z) l : Forall (fun x => bytes_wf (f x)) l -> bytes_wf (concat (map f l)).
Proof. induction 1; [constructor|]. by apply Forall_app. Qed.

Lemma batch_bytes_wf n img bks root : batch_wf n img bks root -> bytes_wf (batch_bytes n img bks root).
Proof.
  intros [_ [Hi _] Hb _ ->]. unfold batch_bytes, bytes_wf. repeat (apply Forall_app; split).
  - apply bytes_wfb_wf. reflexivity.
  - by repeat constructor.
  - apply le_bytes_wf.
  - exact Hi.
  - apply concat_wf. eapply List.Forall_impl; [|exact Hb]. intros bk [Hr _ [Hk _]]. unfold block_bytes. apply Forall_app. split; [|exact Hk].
    apply concat_wf. eapply List.Forall_impl; [|exact Hr]. apply rec_bytes_wf.
  - apply hash_is_wf.
Qed.

(** ** A batch *)

Definition settle_text : list Z := cstr "!settle_swap(a: int, r: int, o: int, m: int) -> int { ^(a * 997 * o) / (r * 1000 + a * 997) }".
Definition settle_image : list Z := Eval vm_compute in
  match @c0_build calm settle_text mem0 with
  | Val md _ => match c0_image_encode (C := LinSha256) (fun _ => true) md with Ok img => img | Err _ => [] end
  | _ => []
  end.
Definition sample_vm : LinBc1Vm := Eval vm_compute in
  match lin_bc1_load (C := LinSha256) settle_image with Ok vm => vm | Err _ => mkBc1 (mkModule []) 0 [] [] [] 0 end.

(** Four swaps on one pool, with what the machine makes of them. *)
Definition swap (i ain out : Z) : Rec := mkRec (i + 1) ain 5000 10000 0 out 14 i [] [] [].
Definition swaps : list Rec := [swap 0 100 195; swap 1 200 383; swap 2 300 564; swap 3 400 738].
Definition sample_block (img : list Z) : Block := seal_block 0 img (swap 0 100 195) (swap 1 200 383) (swap 2 300 564) (swap 3 400 738).
Definition sample_root (img : list Z) : list Z := chain_v2 1 [bk_root (sample_block img)] img.
Definition sample_batch (img : list Z) : list Z := batch_bytes 1 img [sample_block img] (sample_root img).

Lemma sample_valid img : hash_wf img -> batch_valid 1 img [sample_block img] (sample_root img).
Proof.
  intros Hi. apply sealed_batch_valid; [exact Hi|]. repeat constructor; unfold in_i64, two63; cbn; lia.
Qed.

Lemma swaps_run img fuel : (100 <= fuel)%nat -> runs_all fuel sample_vm [sample_block img].
Proof.
  intros Hf. unfold runs_all. cbn [map concat bk_recs sample_block seal_block app].
  assert (forall b i s0 s1 rc, In rc swaps -> runs_as fuel (b_mod sample_vm) (lin_bc1_find_fn sample_vm (cstr "settle_swap")) (sealed b i img rc s0 s1)) as Hr.
  { intros b i s0 s1 rc Hin. exists (mkResult (rc_out rc) 1), (rc_steps rc). split; [|split; [exact eq_refl|repeat (destruct Hin as [<-|Hin]; [reflexivity|]); done]].
    unfold vm_exec. apply (proj2 (vm_mono 100)); [done|]. repeat (destruct Hin as [<-|Hin]; [vm_compute; reflexivity|]). done. }
  repeat (apply Forall_cons_2; [apply Hr; unfold swaps; cbn; tauto|]). constructor.
Qed.

Definition audit_files (batch p : list Z) : option (list Z) :=
  if bytes_eqb p (cstr "batch.bin") then Some batch else if bytes_eqb p (cstr "e.linbc") then Some settle_image else None.
Definition sample_bench : Bench := mkBench [49] [49] [49] [49] [49].

Lemma sample_vm_loads : lin_bc1_load (C := LinSha256) (take (Z.to_nat 65536) settle_image) = Ok sample_vm.
Proof. rewrite take_ge; [vm_compute; reflexivity|]. apply Nat2Z.inj_le. rewrite Z2Nat.id by lia. vm_compute. discriminate. Qed.

Lemma sample_image_wf : bytes_wf settle_image.
Proof. apply bytes_wfb_wf. vm_compute. reflexivity. Qed.

Lemma sample_batch_wf img : hash_wf img -> bytes_wf (sample_batch img).
Proof. intros Hi. apply batch_bytes_wf. by apply batch_valid_wf, sample_valid. Qed.

Lemma sample_vm_calls : calls_have_args (b_mod sample_vm).
Proof.
  intros f ins g Hf Hi Ho. exfalso. revert Hi Ho.
  assert (forallb (fun f => forallb (fun i => negb (bool_decide (op i = OP_CALL))) (code f)) (fns (b_mod sample_vm)) = true) as Hb by reflexivity.
  rewrite List.forallb_forall in Hb. specialize (Hb f (proj1 (list_elem_of_In _ _) Hf)). rewrite List.forallb_forall in Hb.
  intros Hi Ho. specialize (Hb ins (proj1 (list_elem_of_In _ _) Hi)). by rewrite bool_decide_eq_true_2 in Hb.
Qed.

Lemma audit_found batch : audit_files batch (cstr "batch.bin") = Some batch /\ audit_files batch (cstr "e.linbc") = Some settle_image /\
  0 <= lin_bc1_find_fn sample_vm (cstr "settle_swap").
Proof. split; [reflexivity|]. split; [reflexivity|]. apply Z.leb_le. vm_compute. reflexivity. Qed.

Lemma zero_hash_wf : hash_wf zero32.
Proof. split; [apply bytes_wfb_wf|]; reflexivity. Qed.

Local Abbreviation full := (2 * Z.to_nat LIN_VM_STEP_LIMIT + 2)%nat.

Lemma full_big : (100 <= full)%nat.
Proof.
  assert (Z.to_nat 49 <= Z.to_nat LIN_VM_STEP_LIMIT)%nat as H by (apply Z2Nat.inj_le; vm_compute; discriminate).
  revert H. generalize (Z.to_nat LIN_VM_STEP_LIMIT). intros n Hn. change (Z.to_nat 49) with 49%nat in Hn. lia.
Qed.

Lemma audit_accepts_witness : exists r m',
  @audit_main calm full sample_bench (audit_files (sample_batch zero32)) [cstr "verify_batch_c"; cstr "batch.bin"; cstr "e.linbc"] mem0 = Val r m' /\
  (status r = 0 <-> exists n img bks root, sample_batch zero32 = batch_bytes n img bks root /\ batch_valid n img bks root /\ runs_all full sample_vm bks).
Proof.
  destruct (audit_found (sample_batch zero32)) as (E1 & E2 & E3).
  exact (@audit_accepts calm full sample_bench (audit_files (sample_batch zero32)) (cstr "verify_batch_c") (cstr "batch.bin") (cstr "e.linbc") mem0
    (sample_batch zero32) settle_image sample_vm (fun _ => eq_refl) E1 E2 (sample_batch_wf _ zero_hash_wf) sample_image_wf sample_vm_loads E3 sample_vm_calls full_fuel).
Defined.


(** Nothing compares the hash in the batch with the image that is run: with any
    hash in its place the batch is accepted. *)
Lemma audit_ignores_image_hash img : hash_wf img -> exists r m',
  @audit_main calm full sample_bench (audit_files (sample_batch img)) [cstr "verify_batch_c"; cstr "batch.bin"; cstr "e.linbc"] mem0 = Val r m' /\ status r = 0.
Proof.
  intros Hi. destruct (audit_found (sample_batch img)) as (E1 & E2 & E3).
  destruct (@audit_main_ok calm full sample_bench (audit_files (sample_batch img)) (cstr "verify_batch_c") (cstr "batch.bin") (cstr "e.linbc") mem0
    (sample_batch img) settle_image sample_vm (fun _ => eq_refl) E1 E2 (sample_batch_wf _ Hi) sample_image_wf sample_vm_loads E3 sample_vm_calls full_fuel)
    as (r & m' & Er & Hst).
  exists r, m'. split; [exact Er|]. apply Hst. exists 1, img, [sample_block img], (sample_root img).
  split; [exact eq_refl|]. split; [by apply sample_valid|apply swaps_run, full_big].
Qed.
